(* ===== verification/_CoqProject ===== *)
-Q . S2P
Prelude.v
Identity.v
Resource.v
ResourceIndex.v
Postings.v
ResourceSet.v
SetInvariant.v
SetQueries.v
SetDiff.v
Snapshot.v
Update.v
Notices.v
Dependencies.v
Store.v
Cascade.v
Publish.v
Commit.v
Subscribers.v
Executions.v
StoreTheorems.v
Scoped.v
ScopedNotices.v
Controller.v
ControllerSystem.v
ControllerTheorems.v
Watch.v
Generator.v
Generators.v
Delta.v
Requests.v
Acknowledgements.v
Sending.v
Selections.v
Incremental.v
Contract.v
Selectors.v
Session.v
SessionTheorems.v
Scheduler.v
SchedulerInvariant.v
SchedulerTheorems.v
SecretVersions.v
Certificates.v
CertificateTheorems.v
FlowControl.v
FlowTheorems.v
Client.v
ClientIndex.v
ClientCache.v
ClientSystem.v
ClientInvariant.v
ClientStreams.v
ClientRequests.v
ClientRuns.v
ClientExamples.v
ClientTheorems.v
Netip.v
Filter.v
Attributes.v
Fold.v
Engine.v
EngineWalks.v
EngineInvariant.v
EngineTheorems.v
ExtProc.v
ExtProcServer.v
ExtProcInvariant.v
ExtProcAudit.v
ExtProcAuthorization.v
EngineStore.v
McpAcl.v
BuiltinFilters.v
ExtProcHeaders.v
Cache.v
Dns.v
DnsTheorems.v
Egress.v
EgressTheorems.v
WorkloadPolicies.v
PolicyExamples.v
