(* ===== verification/Prelude.v ===== *)
(** * Agentio: verification development

    Agentio has a control plane and a policy engine. The control plane compiles Kubernetes
    objects into xDS resources, publishes them in an immutable snapshot, and serves them to
    gateways, node proxies and policy engines over incremental ("delta") xDS streams. A
    policy engine sits beside a proxy, which hands it the messages of every HTTP exchange
    ("external processing"): it evaluates the policies that apply to the caller, by filters,
    and tells the proxy what to change, where to send the request, or to refuse it.

    This development models the path of a resource from publication to delivery and into
    the cache of a client, as it is written in src/pkg/model, src/pkg/xds and
    src/pkg/xdsclient; and the path of a request through the policy engine, from the
    proxy's messages to its answers, as it is written in src/extensions/epe/pkg/engine,
    extproc, filters, store and policy/trafficpolicy, with the DNS client of src/pkg/dns. It
    proves what each part promises to the next.

    ** Parts of the control plane, and the files that model them

    - The resource model (src/pkg/model/resource.go, identity.go, workload.go):
      [Identity], [Resource]. Keys, facts, references, validation, the normal form and
      the hash of a resource; client scopes and principals.
    - The snapshot (src/pkg/model/resource_set.go, resource_index.go): [ResourceIndex],
      [Postings], [ResourceSet] are the code; [SetInvariant], [SetQueries], [SetDiff] the
      invariant and its preservation; [Snapshot] the theorems. A [ResourceSet] has the
      sharded resource map, the posting lists of the secondary indexes and the per-type
      versions; [NewResourceSet], [Apply], [Diff] and the queries keep the source's names.
    - Notices (src/pkg/xds/store/update.go, dependencies.go, scoped.go): [Update],
      [Notices], [Dependencies], [Scoped], [ScopedNotices]. What a publication announces,
      merging of notices that wait, and narrowing to one workload.
    - The store (src/pkg/xds/store/store.go, subscription.go): [Store], [Cascade],
      [Publish], [Commit], [Subscribers], [Executions] and [StoreTheorems]. [StoreApply]
      and [Replace] with the retention of resources that are still referenced,
      subscriptions, and mailboxes with concurrent readers as a labelled step relation.
    - The publication controller (src/pkg/xds/controller.go): [Controller],
      [ControllerSystem], [ControllerTheorems]. Events are folded per key, debounced and
      flushed to a [Publisher], an interface that the store's theorems discharge.
    - Watches (src/pkg/xds/subscription.go): [Watch], with [Requests] and
      [Acknowledgements]. Subscriptions of a stream, acknowledgements and rejections.
    - Generators (src/pkg/xds/generator.go and the generators of the types): [Generator],
      [Generators], with [Selections] and [Incremental]. Full and incremental selection of
      what a client sees.
    - Streams (src/pkg/xds/delta.go, source.go, session.go): [Delta], [Requests],
      [Sending], [Session], [SessionTheorems]. [Contract] states what a session needs of a
      generator as the class [SelectorLaws]; [Selectors] gives the instances.
    - The push scheduler (src/pkg/xds/scheduler.go): [Scheduler],
      [SchedulerInvariant], [SchedulerTheorems]. Its critical sections are functions, its
      threads a step relation.
    - On-demand certificates (src/pkg/xds/sds_generator.go, sds_session.go):
      [SecretVersions], [Certificates], [CertificateTheorems]. The versions of issued
      secrets, the jobs of a stream with their workers, and the completions.
    - Flow control (src/pkg/xds/flowcontrol.go): [FlowControl], [FlowTheorems]. The leases
      sessions take from the response pools.
    - The client (src/pkg/xdsclient): [Client] is the code: the cache of a type, its alias
      index, the generations of named subscriptions, and the requests of a stream.
      [ClientSystem] interleaves callers, the reader and the writer as a step relation.
      [ClientIndex], [ClientCache], [ClientInvariant], [ClientStreams], [ClientRequests] and
      [ClientRuns] prove its invariant; [ClientExamples] has concrete runs,
      [ClientTheorems] the theorems.

    ** Parts of the policy engine, and the files that model them

    Paths are under src/extensions/epe/pkg where no other is given.

    - The filter contract (engine/filter, httpreq, subject): [Filter]. Actions and
      mutations, streams and what is observed on them, registrations. A deployment, with its
      configurations, filter instances and world, is the class [Deployment]; its filters are
      the class [Filters], and may keep state, read the world and fail in any way.
    - Addresses (Go's net/netip): [Netip].
    - Evaluation (engine/eval.go, invoke.go, fold.go): [Fold] and [Engine] are the code: the
      walks of the four phases over policy units and filters, the view a filter gets, the
      validation of its action, its failure policy, pauses for a body, and the folding of
      all mutations into one. [EngineWalks] and [EngineInvariant] have the lemmas,
      [EngineTheorems] the theorems.
    - The attributes of a request (extproc/attributes, labels): [Attributes].
    - The external processor (extproc): [ExtProc] has the messages, their translation and
      the effect of a response, [ExtProcServer] the state of a stream, the handlers, and
      [Process] with failing receives and sends. [ExtProcInvariant] has the state that each
      handler leaves; [ExtProcAudit], [ExtProcAuthorization] and [ExtProcHeaders] the
      theorems.
    - Egress authorization (filters/egressauthz, policy/trafficpolicy): [Egress],
      [EgressTheorems]. Configurations, the candidates of a request, the aggregate of
      authorizers, and the compilation of traffic policies.
    - The resource store (store): [EngineStore]. Snapshots of a type and their incremental
      construction, the aggregate of several sources, and the index it keeps, an interface
      [QueryBuilder] with its law.
    - The policies of a workload (policy/trafficpolicy): [WorkloadPolicies]. The index of
      workloads, an instance of that interface; the lookup that captures a workload with all
      the policies it refers to; and the resolver of a request's context.
    - Filters (filters/block, bypass, headermutation, mcpacl, engine/filter/headername.go):
      [McpAcl] and [BuiltinFilters], instances of the contract.
    - DNS (src/pkg/cache, src/pkg/dns): [Cache] over the interface [CacheStore] of a bounded
      store, [Dns], and [DnsTheorems] with the interleaving of calls as a step relation.
    - [PolicyExamples] has a deployment of scripted filters and concrete runs.

    ** What the theorems show

    - Snapshot: applying changes refines updating a finite map of resources, the queries
      answer by the contents alone, differences and applications invert each other.
    - Store: a committed publication never drops a resource that a kept one refers to; a
      subscriber's mailbox always covers what it has not read.
    - Controller: once quiet, the store has the compiled resources; a queued change is
      flushed.
    - Streams: a session with nothing left to push has sent exactly the resources its
      client should have, for the types of the gateways and for traffic policies; the
      acknowledgement indexes refine a ledger of responses; a generated delta that cannot
      be sent is rejected before anything is recorded.
    - Scheduler: bounded concurrency without a blocked thread, no accepted update lost,
      progress in queue order.
    - Certificates and leases: issuance is bounded and no demand is stranded, only current
      results are sent, a version tells its revision and deadline, leases are never lost
      or held twice.
    - Client: names resolve as the cached resources say, no subscription is lost on the
      way to the server, a handle holds its subscription, no caller sleeps through its
      answer. With the server: the client's requests keep what the sessions assume of a
      client, the responses the server validates are accepted, and a wildcard cache that
      accepted a quiet stream has the names and versions of the snapshot.
    - Engine, for arbitrary filters: results are well formed; pausing for a body and
      resuming changes nothing; a bypass makes the rest of the policy irrelevant in both
      directions; a filter sees the target folded so far; a failing filter is resolved by
      its failure policy; the one mutation the proxy executes has the effect of all
      operations in order.
    - External processor: the loggers get one entry for a stream, whose outcome is what the
      proxy was sent; no request passes that the authorizer did not approve, for the caller
      the call received, in the form and with the target it is sent with.
    - Egress: a compiled configuration decides as the traffic policies say; with the
      authorizers of the deployment, every request that passes is pinned to an address that
      the global configuration and the caller's policies allow.
    - Resource store and workloads: an aggregate publishes incrementally what it would
      publish from scratch; the policies in a request's context are those of one complete
      view of the store; hence the policies that are published for a workload are enforced
      on its requests ([published_policies_enforced]).
    - Filters and DNS: whatever an accepted header mutation renders to, the engine takes it
      and routing does not depend on it; the two callbacks of a tool policy decide together
      as its rules say of the message in the body; an answer of the resolver is that of the current
      record or of a fresh lookup that no change of the record preceded.
    - Where the code does not do what its comments say, a theorem states what it does
      ([snapshot_apply_stale_old], [controller_full_race],
      [resource_hash_ignores_egress], [stray_unsubscribe_forgets],
      [early_response_logs_twice], [undecodable_name_passes]). The theorems on the store and
      on streams assume what [snapshot_apply_stale_old] and [stray_unsubscribe_forgets] show
      to be needed: batches give old values only for published keys, and clients give up only
      names they subscribed to, as the client of the repository does
      ([client_requests_orderly]).

    ** Conventions

    Go strings are byte strings, ordered bytewise by [slt]. A pair of a value and an error
    is a [result]. A Go map is a [gmap]; where its iteration order could matter, the
    definition takes the order of [map_to_list] and the theorems show the result does not
    depend on it, or the code sorts. A run-time panic, and a loop that does not end, are
    an outer [None]; in the policy engine, an index out of range is the error [panicIndex].
    Protobuf marshalling and the digest are the class [Codec]; the contents of an address
    message are behind [AddressCodec]; case folding, the text of addresses and of requests,
    templates and JSON payloads are the classes [CaseFolding], [AddressText],
    [RequestText], [Templates] and [Payloads], the packing of extensions and the inflating
    and JSON decoders [ExtensionCodec] and [McpDecoders], with instances for the concrete
    examples. Where the code compares pointers to avoid work, the class [ObjectIdentity] has
    a test that is only known to be sound: no theorem needs objects to be shared.
    Messages of errors are shortened where nothing depends on their text.

    Three loops run on fuel. [retainLoop] in [Store] has a unit per round of cascading
    deletions: a round that continues removes a resource, so one more than the number of
    resources is enough, and [Cascade] proves that the loop ends within it. [search_loop],
    the binary search of sort.Search, has the length of the interval.
    [lookupLoop] in [WorkloadPolicies] has a unit per round of a lookup, which starts again
    when the workload changed meanwhile and ends with its deadline; one round is enough
    when it does not change. [Process] runs over the list of what the environment does,
    turn by turn.

    ** Not modelled

    Metrics, log records and tracing, gRPC transport, back-off and authentication of
    streams, time budgets (effects outside the state the theorems speak about; a budget that
    ran out is an error of the call); the channels that wake the callers of a client, who may
    look again at any time here; the Kubernetes informers, registries and the compilers that
    produce the published resources (src/pkg/krt, registry, compiler, policy, networking:
    their output is an arbitrary collection of resources here); the injector, gateway
    deployer and agent, certificate authorities, and the test, bench and release tools. Of
    the policy engine: the filters over HTTP clients and credentials (httpcallout, oauth2,
    tokentransform, route), the stores and compilers of security profiles, which are the
    resolver that a server has as a parameter, the loop that debounces the refreshes of the
    resource store and its acquisitions from a source, audit sinks, and the wiring. *)

From Stdlib Require Export Ascii.
From stdpp Require Export gmap strings list fin_maps sorting.

(** ** Results: a Go [(value, error)] pair, the error being the constant text
    of the message the code builds *)

Inductive result (A : Type) : Type :=
| Ok (a : A)
| Err (e : string).
Arguments Ok {A} a.
Arguments Err {A} e.

Declare Scope go_scope.
Delimit Scope go_scope with go.

Definition rbind {A B} (m : result A) (k : A → result B) : result B :=
  match m with Ok a => k a | Err e => Err e end.

Notation "'let!' x := m 'in' k" := (rbind m (λ x, k))
  (at level 10, x pattern, m at level 100, k at level 200) : go_scope.
Open Scope go_scope.

Fixpoint rfold {A S} (f : S → A → result S) (l : list A) (s : S) : result S :=
  match l with
  | [] => Ok s
  | x :: l => rbind (f s x) (rfold f l)
  end.

Lemma rbind_Ok {A B} (m : result A) (k : A → result B) b :
  rbind m k = Ok b ↔ ∃ a, m = Ok a ∧ k a = Ok b.
Proof. destruct m; simpl; naive_solver. Qed.

Lemma rfold_app {A S} (f : S → A → result S) l1 l2 s :
  rfold f (l1 ++ l2) s = rbind (rfold f l1 s) (rfold f l2).
Proof.
  revert s. induction l1 as [|x l1 IH]; intros s; [done|].
  simpl. destruct (f s x); simpl; auto.
Qed.

(** A loop invariant: what every iteration preserves holds at the end. *)
Lemma rfold_inv {A S} (P : S → Prop) (f : S → A → result S) l s s' :
  P s → (∀ x t t', x ∈ l → P t → f t x = Ok t' → P t') →
  rfold f l s = Ok s' → P s'.
Proof.
  revert s. induction l as [|x l IH]; intros s Hs Hstep; simpl.
  { intros [= <-]; done. }
  intros (t & Hx & Hl)%rbind_Ok.
  eapply IH; [|intros; eapply Hstep; [right|..]; eauto|exact Hl].
  eapply Hstep; [left|..]; eauto.
Qed.

(** ** Go strings are byte strings; [<] on them is the bytewise order *)

Definition slt (a b : string) : Prop := String.le a b ∧ a ≠ b.

#[export] Instance slt_dec : RelDecision slt.
Proof. intros a b. unfold slt. apply _. Defined.

#[export] Instance slt_trans : Transitive slt.
Proof.
  intros a b c [Hab Nab] [Hbc Nbc]. split; [by etrans|].
  intros ->. apply Nbc. by apply (anti_symm String.le).
Qed.

#[export] Instance slt_irrefl : Irreflexive slt.
Proof. intros a [_ ?]. done. Qed.

Lemma slt_trichotomy a b : slt a b ∨ a = b ∨ slt b a.
Proof.
  destruct (decide (a = b)) as [->|Hne]; [auto|].
  destruct (total String.le a b); [left|right; right]; split; auto.
Qed.

Lemma slt_not_le a b : slt a b ↔ ¬ String.le b a.
Proof.
  split.
  - intros [Hab Hne] Hba. apply Hne. by apply (anti_symm String.le).
  - intros Hba. destruct (slt_trichotomy a b) as [|[->|[? _]]]; [done| |done].
    by destruct Hba.
Qed.

Lemma slt_le a b : slt a b → String.le a b.
Proof. by intros []. Qed.

Lemma slt_asym a b : slt a b → ¬ slt b a.
Proof. intros H1 H2. exact (slt_irrefl a (slt_trans _ _ _ H1 H2)). Qed.

Lemma slt_le_trans a b c : slt a b → String.le b c → slt a c.
Proof.
  intros [Hab Hne] Hbc. split; [by etrans|]. intros ->.
  apply Hne. by apply (anti_symm String.le).
Qed.

Lemma le_slt_trans a b c : String.le a b → slt b c → slt a c.
Proof.
  intros Hab [Hbc Hne]. split; [by etrans|]. intros ->.
  apply Hne. by apply (anti_symm String.le).
Qed.

(** [strings.TrimSpace]: Unicode white space, by its UTF-8 encodings. *)
Definition space1 (a : ascii) : bool :=
  let n := Ascii.N_of_ascii a in
  ((9 <=? n) && (n <=? 13) || (n =? 32))%N.

Definition space2 (a b : ascii) : bool :=
  (Ascii.N_of_ascii a =? 194)%N
  && ((Ascii.N_of_ascii b =? 133) || (Ascii.N_of_ascii b =? 160))%N.

Definition space3 (a b c : ascii) : bool :=
  let '(x, y, z) := (Ascii.N_of_ascii a, Ascii.N_of_ascii b, Ascii.N_of_ascii c) in
  ((x =? 225) && (y =? 154) && (z =? 128)
   || (x =? 226) && (y =? 128)
      && ((128 <=? z) && (z <=? 138) || (z =? 168) || (z =? 169) || (z =? 175))
   || (x =? 226) && (y =? 129) && (z =? 159)
   || (x =? 227) && (y =? 128) && (z =? 128))%N.

(** Drops encoded white space from the front of a byte list, or, with [rv],
    from the front of a reversed one. *)
Fixpoint trim_front (rv : bool) (l : list ascii) : list ascii :=
  match l with
  | [] => []
  | a :: l1 =>
      if space1 a then trim_front rv l1
      else match l1 with
           | [] => l
           | b :: l2 =>
               if (if rv then space2 b a else space2 a b) then trim_front rv l2
               else match l2 with
                    | [] => l
                    | c :: l3 =>
                        if (if rv then space3 c b a else space3 a b c)
                        then trim_front rv l3 else l
                    end
           end
  end.

Definition TrimSpace (s : string) : string :=
  String.string_of_list_ascii
    (reverse (trim_front true (reverse (trim_front false (String.list_ascii_of_string s))))).

(** [strings.TrimSpace(s) == ""] *)
Definition blank (s : string) : bool := bool_decide (TrimSpace s = "").

Lemma blank_empty : blank "" = true.
Proof. reflexivity. Qed.

(** ** Sorted name lists *)

(** Strictly increasing: sorted and without duplicates. *)
Abbreviation ssorted := (StronglySorted slt).

Lemma ssorted_NoDup (l : list string) : ssorted l → NoDup l.
Proof.
  induction 1 as [|x l Hl IH Hx]; constructor; [|done].
  intros Hin. rewrite Forall_forall in Hx. by apply (slt_irrefl x), Hx.
Qed.

(** A strictly sorted list is determined by its elements. *)
Lemma ssorted_ext (l1 l2 : list string) :
  ssorted l1 → ssorted l2 → (∀ x, x ∈ l1 ↔ x ∈ l2) → l1 = l2.
Proof.
  intros H1 H2 Hx.
  apply (StronglySorted_unique_strong slt); [|done|done|].
  - intros x y _ _ Hxy Hyx. by destruct (slt_asym x y).
  - apply NoDup_Permutation; auto using ssorted_NoDup.
Qed.

(** ** Sorting: [sort.Strings], [sort.Slice], [slices.SortStableFunc]

    One stable insertion sort models them all; where the code calls an unstable
    sort, the keys compared are distinct, so the result is the same. *)

Section sort.
Context {A : Type} (R : relation A) `{!RelDecision R}.

Fixpoint insert_sorted (x : A) (l : list A) : list A :=
  match l with
  | [] => [x]
  | y :: l' => if decide (R x y) then x :: l else y :: insert_sorted x l'
  end.

Definition isort (l : list A) : list A := foldr insert_sorted [] l.

Lemma insert_sorted_Permutation x l : insert_sorted x l ≡ₚ x :: l.
Proof.
  induction l as [|y l IH]; simpl; [done|]. case_decide; [done|].
  rewrite IH. apply Permutation_swap.
Qed.

Lemma isort_Permutation l : isort l ≡ₚ l.
Proof.
  induction l as [|x l IH]; simpl; [done|]. by rewrite insert_sorted_Permutation, IH.
Qed.

Lemma elem_of_isort x l : x ∈ isort l ↔ x ∈ l.
Proof. by rewrite isort_Permutation. Qed.

Lemma length_isort l : length (isort l) = length l.
Proof. by rewrite isort_Permutation. Qed.

Lemma NoDup_isort l : NoDup (isort l) ↔ NoDup l.
Proof. by rewrite isort_Permutation. Qed.

Context `{!Transitive R, !Total R}.

Lemma insert_sorted_sorted x l :
  StronglySorted R l → StronglySorted R (insert_sorted x l).
Proof.
  induction 1 as [|y l Hl IH Hy]; simpl; [by repeat constructor|].
  case_decide as Hxy.
  - constructor; [by constructor|]. constructor; [done|].
    eapply Forall_impl; [exact Hy|]. intros z Hz. by etrans.
  - constructor; [done|]. rewrite insert_sorted_Permutation. constructor; [|done].
    by destruct (total R x y).
Qed.

Lemma isort_sorted l : StronglySorted R (isort l).
Proof. induction l; simpl; [constructor|]. by apply insert_sorted_sorted. Qed.
End sort.

(** Comparison by a string key. *)
Definition key_le {A} (key : A → string) (x y : A) : Prop := String.le (key x) (key y).

#[export] Instance key_le_dec {A} (key : A → string) : RelDecision (key_le key).
Proof. intros x y. unfold key_le. apply _. Defined.
#[export] Instance key_le_trans {A} (key : A → string) : Transitive (key_le key).
Proof. intros x y z. unfold key_le. apply (transitivity (R:=String.le)). Qed.
#[export] Instance key_le_total {A} (key : A → string) : Total (key_le key).
Proof. intros x y. unfold key_le. apply (total String.le). Qed.

Definition sort_on {A} (key : A → string) : list A → list A := isort (key_le key).
Definition sort_strings : list string → list string := isort String.le.

Lemma elem_of_sort_on {A} (key : A → string) x l : x ∈ sort_on key l ↔ x ∈ l.
Proof. apply elem_of_isort. Qed.

Lemma elem_of_sort_strings x l : x ∈ sort_strings l ↔ x ∈ l.
Proof. apply elem_of_isort. Qed.

Lemma sorted_le_fmap {A} (key : A → string) l :
  StronglySorted (key_le key) l ↔ StronglySorted String.le (key <$> l).
Proof.
  induction l as [|x l IH]; [split; constructor|].
  rewrite fmap_cons, !StronglySorted_cons, IH, Forall_fmap. done.
Qed.

(** A sorted list whose keys do not repeat is strictly sorted. *)
Lemma sorted_NoDup_ssorted l :
  StronglySorted String.le l → NoDup l → ssorted l.
Proof.
  induction 1 as [|x l Hl IH Hx]; [constructor|].
  intros [Hnin Hnd]%NoDup_cons. constructor; [auto|].
  apply Forall_forall. intros y Hy. split; [by eapply Forall_forall|].
  by intros ->.
Qed.

Lemma sort_on_ssorted {A} (key : A → string) l :
  NoDup (key <$> l) → ssorted (key <$> sort_on key l).
Proof.
  intros Hnd. apply sorted_NoDup_ssorted.
  - apply (sorted_le_fmap key), isort_sorted; apply _.
  - unfold sort_on. by rewrite isort_Permutation.
Qed.

(** A list is determined by its elements and the strict order of their keys. *)
Lemma ssorted_on_ext {A} (key : A → string) l1 l2 :
  ssorted (key <$> l1) → ssorted (key <$> l2) → (∀ x, x ∈ l1 ↔ x ∈ l2) → l1 = l2.
Proof.
  intros H1 H2 Hx.
  assert (∀ l, ssorted (key <$> l) → StronglySorted (λ a b, slt (key a) (key b)) l) as Hs.
  { induction l as [|x l IH]; [constructor|]. rewrite fmap_cons.
    intros [Hf Hl]%StronglySorted_cons. constructor; [auto|]. exact (proj1 (Forall_fmap key _ l) Hf). }
  apply (StronglySorted_unique_strong (λ a b, slt (key a) (key b))).
  - intros x y _ _ Hxy Hyx. by destruct (slt_asym (key x) (key y)).
  - auto.
  - auto.
  - apply NoDup_Permutation; [..|done]; eapply NoDup_fmap_1, ssorted_NoDup; eauto.
Qed.

Lemma ssorted_sorted l : ssorted l → StronglySorted String.le l.
Proof.
  induction 1; constructor; [done|]. eapply Forall_impl; eauto using slt_le.
Qed.

(** [compactSorted] and [slices.Compact] on strings: drop adjacent repeats. *)
Fixpoint compact (l : list string) : list string :=
  match l with
  | x :: (y :: _) as l' =>
      if decide (x = y) then compact l' else x :: compact l'
  | _ => l
  end.

Lemma elem_of_compact x l : x ∈ compact l ↔ x ∈ l.
Proof.
  induction l as [|y [|z l] IH]; [done..|].
  change (x ∈ (if decide (y = z) then compact (z :: l) else y :: compact (z :: l))
          ↔ x ∈ y :: z :: l).
  case_decide as Hyz; [subst|]; rewrite ?elem_of_cons, IH, ?elem_of_cons; naive_solver.
Qed.

Lemma compact_ssorted l : StronglySorted String.le l → ssorted (compact l).
Proof.
  induction 1 as [|y [|z l] Hl IH Hy]; [constructor|repeat constructor|].
  change (ssorted (if decide (y = z) then compact (z :: l) else y :: compact (z :: l))).
  case_decide as Hyz; [done|]. constructor; [done|].
  apply Forall_forall. intros w Hw. rewrite elem_of_compact in Hw.
  apply Forall_cons in Hy as [Hyz' Hy].
  apply slt_le_trans with z; [by split|].
  apply elem_of_cons in Hw as [->|Hw]; [done|].
  apply StronglySorted_cons in Hl as [Hl _]. by eapply Forall_forall.
Qed.

Lemma compact_id l : ssorted l → compact l = l.
Proof.
  intros Hl. apply ssorted_ext; [by apply compact_ssorted, ssorted_sorted|done|].
  intros x. apply elem_of_compact.
Qed.

(** [sortedUnique] *)
Definition sorted_unique (l : list string) : list string := compact (sort_strings l).

Lemma elem_of_sorted_unique x l : x ∈ sorted_unique l ↔ x ∈ l.
Proof. unfold sorted_unique. by rewrite elem_of_compact, elem_of_sort_strings. Qed.

Lemma sorted_unique_ssorted l : ssorted (sorted_unique l).
Proof. apply compact_ssorted, (isort_sorted String.le). Qed.

(** ** Binary search: [sort.SearchStrings] and [slices.BinarySearch] *)

(** [sort.Search]'s loop on [i < j]; [j - i] bounds its iterations. *)
Fixpoint search_loop (fuel : nat) (f : nat → bool) (i j : nat) : nat :=
  match fuel with
  | O => i
  | S fuel =>
      if decide (i < j) then
        let h := Nat.div2 (i + j) in
        if f h then search_loop fuel f i h else search_loop fuel f (S h) j
      else i
  end.

Definition Search (n : nat) (f : nat → bool) : nat := search_loop n f 0 n.

Lemma div2_between i j : i < j → i ≤ Nat.div2 (i + j) < j.
Proof. rewrite Nat.div2_div. intros. split; [apply Nat.div_le_lower_bound|apply Nat.Div0.div_lt_upper_bound]; lia. Qed.

Lemma search_loop_spec fuel (f : nat → bool) i j n :
  j - i ≤ fuel → i ≤ j ≤ n →
  (∀ a b, a ≤ b → b < n → f a → f b) →
  (∀ a, a < i → ¬ f a) → (∀ a, j ≤ a < n → f a) →
  let p := search_loop fuel f i j in
  p ≤ n ∧ (∀ a, a < p → ¬ f a) ∧ (∀ a, p ≤ a < n → f a).
Proof.
  revert i j. induction fuel as [|fuel IH]; intros i j Hf Hij Hmono Hlo Hhi; simpl.
  { assert (i = j) as -> by lia. naive_solver lia. }
  case_decide as Hlt; [|assert (i = j) as -> by lia; naive_solver lia].
  pose proof (div2_between _ _ Hlt) as Hh. set (h := Nat.div2 (i + j)) in *.
  destruct (f h) eqn:Hfh; apply IH; try lia; try done.
  - intros a Ha. apply (Hmono h a); [lia..|]. by rewrite Hfh.
  - intros a Ha Hfa. assert (f h) as Hc by (apply (Hmono a h); [lia..|done]).
    by rewrite Hfh in Hc.
Qed.

(** The smallest index whose element is at least [x]. *)
Definition SearchStrings (a : list string) (x : string) : nat :=
  Search (length a)
    (λ i, match a !! i with Some y => bool_decide (String.le x y) | None => false end).

(** On a sorted list the search splits it into the smaller elements and the rest. *)
Lemma SearchStrings_spec (a : list string) x :
  StronglySorted String.le a →
  Forall (λ y, slt y x) (take (SearchStrings a x) a)
  ∧ Forall (λ y, String.le x y) (drop (SearchStrings a x) a).
Proof.
  intros Ha. unfold SearchStrings, Search.
  set (f := λ i : nat, match a !! i with Some _ => _ | None => false end).
  destruct (search_loop_spec (length a) f 0 (length a) (length a))
    as (Hp & Hlo & Hhi); [lia..| |lia|lia|].
  { intros i j Hij Hj. unfold f.
    destruct (lookup_lt_is_Some_2 a j Hj) as [y Hy].
    destruct (lookup_lt_is_Some_2 a i) as [z Hz]; [lia|]. rewrite Hy, Hz, !bool_decide_spec.
    destruct (decide (i = j)) as [->|]; [simplify_eq; done|].
    intros Hx. etrans; [done|].
    rewrite <-(take_drop_middle a i z Hz) in Ha.
    apply StronglySorted_app_1_r, StronglySorted_cons in Ha as [Ha _].
    eapply Forall_lookup_1 with (i := j - S i); [exact Ha|].
    rewrite lookup_drop. by replace (S i + (j - S i)) with j by lia. }
  set (p := search_loop _ _ _ _) in *. split; apply Forall_lookup_2; intros i y Hi.
  - apply lookup_take_Some in Hi as [Hi Hip]. specialize (Hlo i Hip). unfold f in Hlo.
    rewrite Hi, bool_decide_spec in Hlo. by apply slt_not_le.
  - rewrite lookup_drop in Hi. specialize (Hhi (p + i)). unfold f in Hhi.
    rewrite Hi, bool_decide_spec in Hhi. apply Hhi.
    apply lookup_lt_Some in Hi. lia.
Qed.

Lemma SearchStrings_found (a : list string) x :
  StronglySorted String.le a → a !! SearchStrings a x = Some x ↔ x ∈ a.
Proof.
  intros Ha. destruct (SearchStrings_spec a x Ha) as [Hlo Hhi]. split.
  { intros Hx. by apply list_elem_of_lookup_2 in Hx. }
  intros Hx. rewrite <-(take_drop (SearchStrings a x) a) in Hx.
  apply elem_of_app in Hx as [Hx|Hx].
  { rewrite Forall_forall in Hlo. by destruct (slt_irrefl x (Hlo _ Hx)). }
  destruct (drop (SearchStrings a x) a) as [|y l] eqn:Hd; [by apply not_elem_of_nil in Hx|].
  assert (a !! SearchStrings a x = Some y) as Hy.
  { rewrite <-(Nat.add_0_r (SearchStrings a x)), <-lookup_drop, Hd. done. }
  rewrite Hy. f_equal. apply elem_of_cons in Hx as [->|Hx]; [done|].
  apply Forall_cons in Hhi as [Hxy Hhi].
  rewrite <-(take_drop (SearchStrings a x) a), Hd in Ha.
  apply StronglySorted_app_1_r, StronglySorted_cons in Ha as [Ha _].
  apply (anti_symm String.le); [|done]. by eapply Forall_forall.
Qed.

(** The [found] result of [slices.BinarySearch]. *)
Definition BinarySearch (a : list string) (x : string) : bool :=
  bool_decide (a !! SearchStrings a x = Some x).

Lemma BinarySearch_spec (a : list string) x :
  StronglySorted String.le a → BinarySearch a x ↔ x ∈ a.
Proof. intros Ha. unfold BinarySearch. rewrite bool_decide_spec. by apply SearchStrings_found. Qed.
