(* ===== verification/Identity.v ===== *)
(** * Identity: SPIFFE principals, source references and client scopes
    (src/pkg/model/identity.go, workload.go, source.go)

    [ParsePrincipal] and its validators as functions on byte strings, the
    scope a client stream is bound to with its validation, and the facts the
    rest of the control plane relies on: what a valid principal looks like, that
    constructing a principal and validating it agree, and that source references
    have collision-free index keys. *)

From S2P Require Import Prelude.
From Stdlib Require Decidable.
From stdpp Require Import pretty.

(** ** String operations of the Go library used here *)

(** [strings.HasPrefix] with [strings.CutPrefix]'s remainder *)
Fixpoint cut_prefix (p s : string) : option string :=
  match p, s with
  | EmptyString, _ => Some s
  | String a p, String b s => if decide (a = b) then cut_prefix p s else None
  | String _ _, EmptyString => None
  end.

(** [strings.TrimPrefix] *)
Definition TrimPrefix (s p : string) : string := default s (cut_prefix p s).

(** [strings.Split(s, sep)] for a one-byte separator *)
Fixpoint Split (sep : ascii) (s : string) : list string :=
  match s with
  | EmptyString => [""]
  | String a s =>
      if decide (a = sep) then "" :: Split sep s
      else match Split sep s with
           | w :: ws => String a w :: ws
           | [] => [String a ""]
           end
  end.

(** The part of [s] before the first [sep]: [strings.Cut]'s first result *)
Fixpoint before (sep : ascii) (s : string) : string :=
  match s with
  | EmptyString => ""
  | String a s => if decide (a = sep) then "" else String a (before sep s)
  end.

Fixpoint map_bytes (f : ascii → ascii) (s : string) : string :=
  match s with
  | EmptyString => ""
  | String a s => String (f a) (map_bytes f s)
  end.

Fixpoint all_bytes (f : ascii → bool) (s : string) : bool :=
  match s with
  | EmptyString => true
  | String a s => f a && all_bytes f s
  end.

(** [strings.ToLower] on ASCII letters. Its other case mappings only concern
    bytes that [validIdentitySegment] refuses, with the same error. *)
Definition lower_byte (a : ascii) : ascii :=
  let n := N_of_ascii a in
  if ((65 <=? n) && (n <=? 90))%N then ascii_of_N (n + 32) else a.

Definition ToLower : string → string := map_bytes lower_byte.

(** ** Principals *)

Record Principal := mkPrincipal { uri : string }.

#[export] Instance Principal_eq_dec : EqDecision Principal.
Proof. solve_decision. Defined.

Definition spiffe_prefix : string := "spiffe://".

Definition TrustDomain (p : Principal) : string :=
  before "/" (TrimPrefix (uri p) spiffe_prefix).

Definition canonicalTrustDomain (td : string) : string :=
  map_bytes (λ a, if decide (a = "@"%char) then "."%char else a) td.

Definition identity_byte (c : ascii) : bool :=
  let n := N_of_ascii c in
  ((97 <=? n) && (n <=? 122) || (65 <=? n) && (n <=? 90) || (48 <=? n) && (n <=? 57)
   || (n =? 45) || (n =? 95) || (n =? 46))%N.

Definition validIdentitySegment (value : string) : bool :=
  if decide (value = "" ∨ value = "." ∨ value = "..") then false
  else all_bytes identity_byte value.

Definition ParsePrincipal (raw trustDomain : string) : result Principal :=
  match cut_prefix spiffe_prefix raw with
  | None => Err "invalid SPIFFE identity"
  | Some rest =>
      if decide (2048 < String.length raw) then Err "invalid SPIFFE identity" else
      let parts := Split "/" rest in
      let td := hd "" parts in
      if decide (td ≠ canonicalTrustDomain trustDomain ∨ td ≠ ToLower td
                 ∨ 255 < String.length td)
      then Err "invalid SPIFFE identity"
      else if forallb validIdentitySegment parts then Ok (mkPrincipal raw)
      else Err "invalid SPIFFE identity"
  end.

Definition NewPrincipal (trustDomain path : string) : result Principal :=
  ParsePrincipal (spiffe_prefix +:+ canonicalTrustDomain trustDomain +:+ "/" +:+ path)
    trustDomain.

Definition Principal_Validate (p : Principal) : result unit :=
  let! _ := ParsePrincipal (uri p) (TrustDomain p) in Ok tt.

Definition zeroPrincipal : Principal := mkPrincipal "".

(** ** Source references *)

Record SourceRef := mkSourceRef { Registry : string; SourceRef_Key : string }.

#[export] Instance SourceRef_eq_dec : EqDecision SourceRef.
Proof. solve_decision. Defined.

Definition zeroSourceRef : SourceRef := mkSourceRef "" "".

Definition SourceRef_Validate (s : SourceRef) : result unit :=
  if decide (Registry s = "" ∨ SourceRef_Key s = "")
  then Err "source registry and key are required" else Ok tt.

(** [fmt.Sprintf("%d:%s%s", len(s.Registry), s.Registry, s.Key)] *)
Definition SourceRef_String (s : SourceRef) : string :=
  if decide (s = zeroSourceRef) then ""
  else pretty (String.length (Registry s)) +:+ ":" +:+ Registry s +:+ SourceRef_Key s.

(** ** Client scopes *)

Inductive ClientClass :=
| ClientSharedZTunnel
| ClientDedicatedZTunnel
| ClientEgressGateway
| ClientAgentioEgress
| ClientEPE
| ClientOther (class : string).

#[export] Instance ClientClass_eq_dec : EqDecision ClientClass.
Proof. solve_decision. Defined.

Record ClientScope := mkClientScope {
  cs_WorkloadUID : string;
  cs_Source : SourceRef;
  cs_Class : ClientClass;
  cs_Principal : Principal;
  cs_NodeName : string;
  cs_GatewayKey : string
}.

Definition is_ok {A} (r : result A) : bool :=
  match r with Ok _ => true | Err _ => false end.

Definition ClientScope_Validate (s : ClientScope) : result unit :=
  if negb (is_ok (Principal_Validate (cs_Principal s)))
     && (bool_decide (cs_Class s ≠ ClientSharedZTunnel)
         || bool_decide (cs_Principal s ≠ zeroPrincipal))
  then Err "principal"
  else match cs_Class s with
  | ClientSharedZTunnel =>
      if blank (cs_NodeName s) then Err "shared ztunnel scope requires node name" else Ok tt
  | ClientDedicatedZTunnel | ClientEPE =>
      if blank (cs_WorkloadUID s) || negb (is_ok (SourceRef_Validate (cs_Source s)))
      then Err "dedicated ztunnel scope requires Workload UID and source reference" else Ok tt
  | ClientEgressGateway | ClientAgentioEgress =>
      if blank (cs_GatewayKey s) || blank (cs_WorkloadUID s)
         || negb (is_ok (SourceRef_Validate (cs_Source s)))
      then Err "egress gateway scope requires gateway key and bound Workload/source references"
      else Ok tt
  | ClientOther _ => Err "unknown client class"
  end.

(** ** Lemmas *)

Lemma app_String a s r : String a s +:+ r = String a (s +:+ r).
Proof. done. Qed.

Lemma cut_prefix_Some p s r : cut_prefix p s = Some r ↔ s = p +:+ r.
Proof.
  revert s. induction p as [|a p IH]; intros s; simpl; [naive_solver|].
  rewrite app_String. destruct s as [|b s]; [naive_solver|].
  case_decide as Hab; [subst; rewrite IH|]; naive_solver.
Qed.

Lemma before_Split sep s : hd "" (Split sep s) = before sep s.
Proof.
  induction s as [|a s IH]; simpl; [done|]. case_decide; [done|].
  destruct (Split sep s) as [|w ws]; simpl in *; by rewrite IH.
Qed.

Lemma Split_cons_nil sep s : Split sep s ≠ [].
Proof. destruct s; simpl; [done|]. repeat case_match; done. Qed.

Lemma before_app sep s r : all_bytes (λ a, bool_decide (a ≠ sep)) s →
  before sep (s +:+ String sep r) = s.
Proof.
  induction s as [|a s IH]; [|rewrite app_String]; simpl.
  - intros _. by rewrite decide_True.
  - rewrite andb_True, bool_decide_spec. intros [Ha Hs].
    rewrite decide_False by done. by rewrite IH.
Qed.

Lemma all_bytes_impl (f g : ascii → bool) s :
  (∀ a, f a → g a) → all_bytes f s → all_bytes g s.
Proof. intros Hfg. induction s as [|a s IH]; simpl; [done|]. rewrite !andb_True. naive_solver. Qed.

Lemma map_bytes_id f s : all_bytes (λ a, bool_decide (f a = a)) s → map_bytes f s = s.
Proof.
  induction s as [|a s IH]; simpl; [done|]. rewrite andb_True, bool_decide_spec.
  intros [Ha Hs]. by rewrite Ha, IH.
Qed.

Lemma identity_byte_not_at a : identity_byte a → a ≠ "@"%char.
Proof. intros H ->. by vm_compute in H. Qed.

Lemma validIdentitySegment_bytes s :
  validIdentitySegment s → all_bytes identity_byte s ∧ s ≠ "".
Proof. unfold validIdentitySegment. case_decide; [done|]. naive_solver. Qed.

(** A valid trust domain is its own canonical form. *)
Lemma canonicalTrustDomain_id s : all_bytes identity_byte s → canonicalTrustDomain s = s.
Proof.
  intros Hs. apply map_bytes_id. eapply all_bytes_impl; [|exact Hs].
  intros a Ha. apply bool_decide_pack. rewrite decide_False; [done|].
  by apply identity_byte_not_at.
Qed.

(** What [ParsePrincipal] accepts, read off the code once and for all. *)
Lemma ParsePrincipal_Ok raw td p :
  ParsePrincipal raw td = Ok p ↔
  ∃ rest, raw = spiffe_prefix +:+ rest ∧ p = mkPrincipal raw
    ∧ String.length raw ≤ 2048
    ∧ before "/" rest = canonicalTrustDomain td
    ∧ ToLower (before "/" rest) = before "/" rest
    ∧ String.length (before "/" rest) ≤ 255
    ∧ Forall validIdentitySegment (Split "/" rest).
Proof.
  unfold ParsePrincipal. cbv zeta.
  destruct (cut_prefix spiffe_prefix raw) as [rest|] eqn:Hc; split.
  - apply cut_prefix_Some in Hc. case_decide; [done|].
    rewrite before_Split. case_decide as Htd; [done|].
    destruct (forallb _ _) eqn:Hf; [|done]. intros [= <-].
    exists rest. apply Is_true_true, forallb_True in Hf.
    apply Decidable.not_or in Htd as [Htd1%dec_stable [Htd2%dec_stable Htd3]%Decidable.not_or].
    split_and!; try done; lia.
  - intros (rest' & -> & -> & Hlen & Htd & Hlow & Hl & Hf).
    assert (rest' = rest) as -> by (apply cut_prefix_Some in Hc; by apply (inj _) in Hc).
    rewrite decide_False by lia. rewrite before_Split, decide_False
      by (intros [Hx|[Hx|Hx]]; [by rewrite Htd in Hx|by rewrite Hlow in Hx|lia]).
    rewrite (proj1 (Is_true_true _)); [done|]. by apply forallb_True.
  - done.
  - intros (rest & -> & _). by rewrite (proj2 (cut_prefix_Some _ _ rest)) in Hc.
Qed.

Lemma Forall_before_valid rest :
  Forall validIdentitySegment (Split "/" rest) → validIdentitySegment (before "/" rest).
Proof.
  rewrite <-before_Split. pose proof (Split_cons_nil "/"%char rest).
  destruct (Split _ _) as [|w ws]; [done|]. by intros [? _]%Forall_cons.
Qed.

Lemma TrustDomain_parsed rest :
  TrustDomain (mkPrincipal (spiffe_prefix +:+ rest)) = before "/" rest.
Proof.
  unfold TrustDomain, TrimPrefix. simpl uri.
  by rewrite (proj2 (cut_prefix_Some _ _ rest)).
Qed.

(** A parsed principal validates on its own, under its own trust domain. *)
Lemma ParsePrincipal_Validate raw td p :
  ParsePrincipal raw td = Ok p →
  Principal_Validate p = Ok tt ∧ TrustDomain p = canonicalTrustDomain td.
Proof.
  intros Hp. pose proof Hp as (rest & -> & -> & ? & Htd & Hlow & Hl & Hf)%ParsePrincipal_Ok.
  rewrite TrustDomain_parsed. split; [|done].
  unfold Principal_Validate. rewrite TrustDomain_parsed. simpl uri.
  apply rbind_Ok. eexists; split; [|done]. apply ParsePrincipal_Ok.
  exists rest; split_and!; try done.
  symmetry. apply canonicalTrustDomain_id, validIdentitySegment_bytes.
  by apply Forall_before_valid.
Qed.

(** ** Index keys of source references *)

Lemma digits_before n s : before ":" (pretty (n : nat) +:+ String ":" s) = pretty n.
Proof.
  apply before_app.
  assert (∀ x r, all_bytes (λ a, bool_decide (a ≠ ":"%char)) r →
    all_bytes (λ a, bool_decide (a ≠ ":"%char)) (pretty_N_go x r)) as Hgo.
  { induction x as [x IH] using (well_founded_ind N.lt_wf_0); intros r Hr.
    destruct (decide (0 < x)%N) as [Hx|Hx].
    - rewrite pretty_N_go_step by done. apply IH.
      + by apply N.div_lt.
      + simpl. rewrite andb_True. split; [|done]. apply bool_decide_pack.
        unfold pretty_N_char. repeat case_match; done.
    - assert (x = 0%N) as -> by lia. by rewrite pretty_N_go_0. }
  unfold pretty, pretty_nat, pretty, pretty_N. case_decide; [done|]. by apply Hgo.
Qed.

Lemma string_app_length_inj a1 a2 b1 b2 :
  String.length a1 = String.length a2 → a1 +:+ b1 = a2 +:+ b2 → a1 = a2 ∧ b1 = b2.
Proof.
  revert a2. induction a1 as [|c a1 IH]; intros [|c2 a2]; rewrite ?app_String; simpl; try done.
  intros [= Hl] [= -> H]. destruct (IH _ Hl H) as [-> ->]. done.
Qed.

Lemma app_String_neq s a r : s +:+ String a r ≠ "".
Proof. by destruct s. Qed.

(** [SourceRef.String] is injective: distinct references never share an index key. *)
Lemma SourceRef_String_inj s1 s2 : SourceRef_String s1 = SourceRef_String s2 → s1 = s2.
Proof.
  unfold SourceRef_String. change (":" +:+ ?r) with (String ":" r).
  destruct (decide (s1 = _)) as [->|], (decide (s2 = _)) as [->|]; [done|..].
  - by intros []%symmetry%app_String_neq.
  - by intros []%app_String_neq.
  - intros Heq. pose proof Heq as Hl%(f_equal (before ":")).
    rewrite !digits_before in Hl. apply (inj pretty) in Hl. rewrite Hl in Heq.
    apply (inj (String.app _)) in Heq. simplify_eq.
    destruct (string_app_length_inj _ _ _ _ Hl Heq) as [HR HK].
    destruct s1, s2; simpl in *; by subst.
Qed.
