(* ===== verification/Resource.v ===== *)
(** * Resource: the discovery resource model (src/pkg/model/resource.go)

    Resources with their selection facts, the references between them, the
    validation every resource passes, its normal form and the version hash that
    publication compares. Protobuf encoding and the SHA-256 digest are the
    parameters of [Codec]: no property depends on a particular instance. *)

From S2P Require Import Prelude Identity.
From stdpp Require Import pretty.

(** ** Resource types *)

Definition ClusterType := "type.googleapis.com/envoy.config.cluster.v3.Cluster".
Definition EndpointType := "type.googleapis.com/envoy.config.endpoint.v3.ClusterLoadAssignment".
Definition ListenerType := "type.googleapis.com/envoy.config.listener.v3.Listener".
Definition RouteType := "type.googleapis.com/envoy.config.route.v3.RouteConfiguration".
Definition SecretType := "type.googleapis.com/envoy.extensions.transport_sockets.tls.v3.Secret".
Definition ExtensionConfigurationType := "type.googleapis.com/envoy.config.core.v3.TypedExtensionConfig".
Definition ProxyConfigType := "type.googleapis.com/istio.mesh.v1alpha1.ProxyConfig".
Definition AddressType := "type.googleapis.com/istio.workload.Address".
Definition TrafficPolicyType := "type.googleapis.com/agentio.security.TrafficPolicy".
Definition SandboxType := "type.googleapis.com/agentio.sandbox.Sandbox".
Definition WorkloadType := "type.googleapis.com/istio.workload.Workload".
Definition WorkloadAuthorizationType := "type.googleapis.com/istio.security.Authorization".

(** [AuthorizationScope] is a [uint8]; these are its named values. *)
Definition AuthorizationScopeWorkload : N := 1.
Definition AuthorizationScopeNamespace : N := 2.
Definition AuthorizationScopeGlobal : N := 3.

(** ** Data *)

Record ResourceKey := mkKey { TypeURL : string; Name : string }.

#[export] Instance ResourceKey_eq_dec : EqDecision ResourceKey.
Proof. solve_decision. Defined.
#[export] Instance ResourceKey_countable : Countable ResourceKey.
Proof.
  apply (inj_countable' (λ k, (TypeURL k, Name k)) (λ p, mkKey p.1 p.2)).
  by intros [].
Defined.

Record SourceIdentity := mkSourceIdentity { UID : string }.

#[export] Instance SourceIdentity_eq_dec : EqDecision SourceIdentity.
Proof. solve_decision. Defined.

Record WorkloadResourceFacts := mkWorkloadFacts {
  wf_Namespace : string;
  wf_WorkloadUID : string;
  wf_Source : SourceRef;
  wf_NodeName : string;
  wf_Principal : Principal;
  wf_ServiceKeys : list string;
  wf_GatewayReferences : list string;
  wf_AuthorizationRefs : list string;
  wf_TrafficPolicyRefs : list string
}.

#[export] Instance WorkloadResourceFacts_eq_dec : EqDecision WorkloadResourceFacts.
Proof. solve_decision. Defined.

Record SandboxResourceFacts := mkSandboxFacts { AttesterWorkloadUID : string }.

#[export] Instance SandboxResourceFacts_eq_dec : EqDecision SandboxResourceFacts.
Proof. solve_decision. Defined.

Record ServiceResourceFacts := mkServiceFacts { ServiceKey : string }.

#[export] Instance ServiceResourceFacts_eq_dec : EqDecision ServiceResourceFacts.
Proof. solve_decision. Defined.

Record AuthorizationResourceFacts := mkAuthorizationFacts {
  af_Scope : N;
  af_Namespace : string
}.

#[export] Instance AuthorizationResourceFacts_eq_dec : EqDecision AuthorizationResourceFacts.
Proof. solve_decision. Defined.

Record ResourceFacts := mkFacts {
  References : option (list ResourceKey);
  rf_SourceIdentity : SourceIdentity;
  rf_Workload : option WorkloadResourceFacts;
  rf_Sandbox : option SandboxResourceFacts;
  rf_Service : option ServiceResourceFacts;
  rf_Authorization : option AuthorizationResourceFacts;
  GatewayOwner : string;
  AgentioEgress : bool
}.

#[export] Instance ResourceFacts_eq_dec : EqDecision ResourceFacts.
Proof. solve_decision. Defined.

Definition noFacts : ResourceFacts :=
  mkFacts None (mkSourceIdentity "") None None None None "" false.

(** A protobuf [Any]: the type URL and the encoded payload. *)
Record Any := mkAny { any_TypeUrl : string; any_Value : string }.

#[export] Instance Any_eq_dec : EqDecision Any.
Proof. solve_decision. Defined.

Record Resource := mkResource {
  Key : ResourceKey;
  XDSName : string;
  Value : option Any;
  Aliases : list string;
  Hash : string;
  Facts : ResourceFacts
}.

#[export] Instance Resource_eq_dec : EqDecision Resource.
Proof. solve_decision. Defined.

(** A change of one key: [rc_New = None] is a deletion. *)
Record ResourceChange := mkChange {
  rc_Key : ResourceKey;
  rc_Old : option Resource;
  rc_New : option Resource
}.

(** ** References *)

Definition referenceKeys (facts : ResourceFacts) : list ResourceKey :=
  default [] (References facts).

Definition trafficPolicyRefs (facts : ResourceFacts) : list string :=
  match rf_Workload facts with Some w => wf_TrafficPolicyRefs w | None => [] end.

(** The reference keys not already listed as traffic-policy references. *)
Definition extraReferences (facts : ResourceFacts) : list ResourceKey :=
  base.filter (λ k, ¬ (TypeURL k = TrafficPolicyType ∧ rf_Workload facts ≠ None
                  ∧ Name k ∈ trafficPolicyRefs facts)) (referenceKeys facts).

Definition ReferencedResources (r : Resource) : list ResourceKey :=
  (mkKey TrafficPolicyType <$> trafficPolicyRefs (Facts r)) ++ extraReferences (Facts r).

Definition ReferencesResource (r : Resource) (key : ResourceKey) : bool :=
  bool_decide (key ∈ ReferencedResources r).

Definition IsWorkloadAddress (r : Resource) : bool :=
  bool_decide (rf_Workload (Facts r) ≠ None).

(** ** Validation *)

Definition guard_ok (c : bool) (e : string) : result unit := if c then Ok tt else Err e.

Notation "'check!' c 'else' e 'in' k" := (rbind (guard_ok c e) (λ _, k))
  (at level 10, c at level 100, e at level 100, k at level 200) : go_scope.

Definition isSome {A} (o : option A) : bool := match o with Some _ => true | None => false end.

Definition families (facts : ResourceFacts) : nat :=
  length (base.filter (λ b : bool, b)
    [isSome (rf_Sandbox facts); isSome (rf_Workload facts);
     isSome (rf_Service facts); isSome (rf_Authorization facts)]).

Definition validateWorkloadResourcePrincipal (p : Principal) : result unit :=
  if decide (p = zeroPrincipal) then Ok tt else Principal_Validate p.

Definition gatewayOwnedTypes : list string :=
  [AddressType; WorkloadType; ClusterType; EndpointType; ListenerType; RouteType;
   SecretType; ExtensionConfigurationType; ProxyConfigType].

Definition validateWorkloadFacts (key : ResourceKey) (w : WorkloadResourceFacts) : result unit :=
  check! bool_decide (TypeURL key = AddressType ∨ TypeURL key = WorkloadType)
    else "carries Workload facts" in
  check! bool_decide (wf_WorkloadUID w = TrimSpace (wf_WorkloadUID w))
    else "Workload facts contain a non-canonical workload UID" in
  check! bool_decide (wf_NodeName w = TrimSpace (wf_NodeName w))
    else "Workload facts contain a non-canonical node name" in
  check! is_ok (validateWorkloadResourcePrincipal (wf_Principal w))
    else "Workload principal" in
  guard_ok
    (forallb (λ v, negb (blank v))
       (wf_ServiceKeys w ++ wf_GatewayReferences w
        ++ wf_AuthorizationRefs w ++ wf_TrafficPolicyRefs w))
    "Workload facts contain an empty key".

Definition validateAuthorizationFacts (key : ResourceKey) (a : AuthorizationResourceFacts)
    : result unit :=
  check! bool_decide (TypeURL key = WorkloadAuthorizationType)
    else "carries Authorization facts" in
  if decide (af_Scope a = AuthorizationScopeGlobal ∨ af_Scope a = AuthorizationScopeWorkload)
  then guard_ok (bool_decide (af_Namespace a = "")) "Authorization must not carry a namespace"
  else if decide (af_Scope a = AuthorizationScopeNamespace)
  then guard_ok (negb (blank (af_Namespace a))) "namespace Authorization requires a namespace"
  else Err "unknown Authorization scope".

(** The family of facts the resource type requires. *)
Definition requiredFacts (key : ResourceKey) (facts : ResourceFacts) : result unit :=
  if decide (TypeURL key = SandboxType)
  then guard_ok (isSome (rf_Sandbox facts)) "requires Sandbox facts"
  else if decide (TypeURL key = AddressType)
  then guard_ok (isSome (rf_Workload facts) || isSome (rf_Service facts))
         "requires Workload or Service facts"
  else if decide (TypeURL key = WorkloadType)
  then guard_ok (isSome (rf_Workload facts)) "requires Workload facts"
  else if decide (TypeURL key = WorkloadAuthorizationType)
  then guard_ok (isSome (rf_Authorization facts)) "requires Authorization facts"
  else guard_ok (bool_decide (families facts = 0)) "carries facts for another resource family".

Definition validateResourceFacts (key : ResourceKey) (facts : ResourceFacts) : result unit :=
  check! forallb (λ k, negb (blank (TypeURL k)) && negb (blank (Name k))) (referenceKeys facts)
    else "has an empty reference key" in
  let! _ := match rf_Sandbox facts with
            | Some s =>
                check! bool_decide (TypeURL key = SandboxType) else "carries Sandbox facts" in
                guard_ok (bool_decide (AttesterWorkloadUID s = TrimSpace (AttesterWorkloadUID s)))
                  "has a non-canonical attester UID"
            | None => Ok tt
            end in
  check! bool_decide (families facts ≤ 1) else "carries incompatible resource facts" in
  let! _ := match rf_Workload facts with
            | Some w => validateWorkloadFacts key w
            | None => Ok tt
            end in
  let! _ := match rf_Service facts with
            | Some s =>
                check! bool_decide (TypeURL key = AddressType) else "carries Service facts" in
                guard_ok (negb (blank (ServiceKey s))) "Service facts require a service key"
            | None => Ok tt
            end in
  let! _ := match rf_Authorization facts with
            | Some a => validateAuthorizationFacts key a
            | None => Ok tt
            end in
  let! _ := requiredFacts key facts in
  if decide (GatewayOwner facts = "") then Ok tt else
  check! bool_decide (TrimSpace (GatewayOwner facts) = GatewayOwner facts)
    else "carries a non-canonical Gateway owner" in
  guard_ok (bool_decide (TypeURL key ∈ gatewayOwnedTypes)) "cannot be owned by a Gateway".

Definition validateResource (r : Resource) : result unit :=
  check! negb (blank (TypeURL (Key r))) else "resource type URL is required" in
  check! negb (blank (Name (Key r))) else "resource name is required" in
  match Value r with
  | None => Err "resource has no value"
  | Some v =>
      check! bool_decide (any_TypeUrl v = TypeURL (Key r))
        else "resource value type URL does not match key" in
      validateResourceFacts (Key r) (Facts r)
  end.

(** ** Normal form *)

(** The defensive copy; an empty reference list is dropped. *)
Definition cloneResourceFacts (facts : ResourceFacts) : ResourceFacts :=
  mkFacts
    (match referenceKeys facts with [] => None | ks => Some ks end)
    (rf_SourceIdentity facts) (rf_Workload facts) (rf_Sandbox facts) (rf_Service facts)
    (rf_Authorization facts) (GatewayOwner facts) (AgentioEgress facts).

Definition ResourceKey_le (a b : ResourceKey) : Prop :=
  slt (TypeURL a) (TypeURL b) ∨ (TypeURL a = TypeURL b ∧ String.le (Name a) (Name b)).

#[export] Instance ResourceKey_le_dec : RelDecision ResourceKey_le.
Proof. intros a b. unfold ResourceKey_le. apply _. Defined.

(** [slices.Compact] on reference keys *)
Fixpoint compactKeys (l : list ResourceKey) : list ResourceKey :=
  match l with
  | x :: (y :: _) as l' => if decide (x = y) then compactKeys l' else x :: compactKeys l'
  | _ => l
  end.

Definition normalizeWorkloadFacts (w : WorkloadResourceFacts) : WorkloadResourceFacts :=
  mkWorkloadFacts (wf_Namespace w) (wf_WorkloadUID w) (wf_Source w) (wf_NodeName w)
    (wf_Principal w)
    (sorted_unique (wf_ServiceKeys w)) (sorted_unique (wf_GatewayReferences w))
    (sorted_unique (wf_AuthorizationRefs w)) (sorted_unique (wf_TrafficPolicyRefs w)).

Definition normalizeResourceFacts (facts : ResourceFacts) : ResourceFacts :=
  mkFacts
    (compactKeys ∘ isort ResourceKey_le <$> References facts)
    (rf_SourceIdentity facts) (normalizeWorkloadFacts <$> rf_Workload facts)
    (rf_Sandbox facts) (rf_Service facts)
    (rf_Authorization facts) (GatewayOwner facts) (AgentioEgress facts).

(** ** Version hashes *)

(** Protobuf's deterministic encoding of an [Any], and the hexadecimal SHA-256
    digest of a byte string. *)
Class Codec := {
  marshalAny : Any → result string;
  digest : string → string
}.

Definition NUL : string := String "000" "".

Definition writeTag (tag value : string) : string := NUL +:+ tag +:+ NUL +:+ value.

Definition concat_strings (l : list string) : string := foldr String.app "" l.

(** The bytes [hashResourceFacts] feeds to the hasher, in order. *)
Definition hashResourceFacts (facts : ResourceFacts) : string :=
  concat_strings (
    (k ← referenceKeys facts;
       [writeTag "reference-type" (TypeURL k); writeTag "reference-name" (Name k)])
    ++ (if decide (rf_SourceIdentity facts = mkSourceIdentity "") then []
        else [writeTag "source-uid" (UID (rf_SourceIdentity facts))])
    ++ (match rf_Sandbox facts with
        | Some s => [writeTag "family" "sandbox";
                     writeTag "attester-workload-uid" (AttesterWorkloadUID s)]
        | None => []
        end)
    ++ (match rf_Workload facts with
        | Some w =>
            [writeTag "family" "workload";
             writeTag "workload-uid" (wf_WorkloadUID w);
             writeTag "source" (SourceRef_String (wf_Source w));
             writeTag "node" (wf_NodeName w);
             writeTag "principal" (uri (wf_Principal w));
             writeTag "namespace" (wf_Namespace w)]
            ++ (writeTag "service" <$> wf_ServiceKeys w)
            ++ (writeTag "gateway-reference" <$> wf_GatewayReferences w)
            ++ (writeTag "authorization-reference" <$> wf_AuthorizationRefs w)
            ++ (writeTag "traffic-policy-reference" <$> wf_TrafficPolicyRefs w)
        | None => []
        end)
    ++ (match rf_Service facts with
        | Some s => [writeTag "family" "service"; writeTag "service" (ServiceKey s)]
        | None => []
        end)
    ++ (match rf_Authorization facts with
        | Some a => [writeTag "family" "authorization";
                     writeTag "authorization-scope" (pretty (af_Scope a));
                     writeTag "authorization-namespace" (af_Namespace a)]
        | None => []
        end)
    ++ (if decide (GatewayOwner facts = "") then []
        else writeTag "gateway-owner" (GatewayOwner facts)
             :: (if AgentioEgress facts then [writeTag "gateway-config" "agentio-egress"]
                 else []))).

Definition hashInput (r : Resource) (encoded : string) : string :=
  TypeURL (Key r) +:+ NUL +:+ Name (Key r) +:+ NUL +:+ XDSName r +:+ NUL +:+ encoded
  +:+ concat_strings ((λ alias, NUL +:+ alias) <$> Aliases r)
  +:+ hashResourceFacts (Facts r).

Definition normalizeResource `{Codec} (r : Resource) : result Resource :=
  let! _ := validateResource r in
  let cloned := mkResource (Key r)
    (if decide (XDSName r = "") then Name (Key r) else XDSName r)
    (Value r) (sort_strings (Aliases r)) ""
    (normalizeResourceFacts (cloneResourceFacts (Facts r))) in
  let! encoded := marshalAny (default (mkAny "" "") (Value r)) in
  Ok (mkResource (Key cloned) (XDSName cloned) (Value cloned) (Aliases cloned)
        (digest (hashInput cloned encoded)) (Facts cloned)).

Definition NewResource `{Codec} (key : ResourceKey) (xdsName : string) (value : option Any)
    (aliases : list string) (facts : ResourceFacts) : result Resource :=
  normalizeResource (mkResource key xdsName value aliases "" facts).

(** [Resource.Equals] *)
Definition Resource_Equals (r other : Resource) : bool := bool_decide (Hash r = Hash other).

(** [ResourceFacts.Equal] *)
Definition Facts_Equal (facts other : ResourceFacts) : bool :=
  bool_decide (rf_SourceIdentity facts = rf_SourceIdentity other)
  && bool_decide (GatewayOwner facts = GatewayOwner other)
  && bool_decide (referenceKeys facts = referenceKeys other)
  && bool_decide (AgentioEgress facts = AgentioEgress other)
  && match rf_Workload facts, rf_Workload other with
     | None, None => true
     | Some w, Some w' =>
         bool_decide (wf_Namespace w = wf_Namespace w')
         && bool_decide (wf_WorkloadUID w = wf_WorkloadUID w')
         && bool_decide (wf_Source w = wf_Source w')
         && bool_decide (wf_NodeName w = wf_NodeName w')
         && bool_decide (wf_Principal w = wf_Principal w')
         && bool_decide (wf_ServiceKeys w = wf_ServiceKeys w')
         && bool_decide (wf_GatewayReferences w = wf_GatewayReferences w')
         && bool_decide (wf_AuthorizationRefs w = wf_AuthorizationRefs w')
         && bool_decide (wf_TrafficPolicyRefs w = wf_TrafficPolicyRefs w')
     | _, _ => false
     end
  && bool_decide (rf_Sandbox facts = rf_Sandbox other)
  && bool_decide (rf_Service facts = rf_Service other)
  && bool_decide (rf_Authorization facts = rf_Authorization other).

(** ** Lemmas *)

Lemma guard_ok_Ok c e u : guard_ok c e = Ok u ↔ c = true.
Proof. unfold guard_ok. destruct c, u; naive_solver. Qed.

Lemma check_Ok {A} (c : bool) e (k : result A) a :
  rbind (guard_ok c e) (λ _, k) = Ok a ↔ c = true ∧ k = Ok a.
Proof. unfold guard_ok. destruct c; simpl; naive_solver. Qed.

Lemma isSome_spec {A} (o : option A) : isSome o = true ↔ ∃ a, o = Some a.
Proof. destruct o; naive_solver. Qed.

Lemma elem_of_ReferencedResources r k :
  k ∈ ReferencedResources r ↔
  (TypeURL k = TrafficPolicyType ∧ Name k ∈ trafficPolicyRefs (Facts r))
  ∨ k ∈ referenceKeys (Facts r).
Proof.
  unfold ReferencedResources, extraReferences.
  rewrite elem_of_app, list_elem_of_fmap, list_elem_of_filter.
  destruct k as [t n]; simpl. split.
  - intros [(n' & [= -> ->] & ?)|[_ ?]]; auto.
  - intros [[-> ?]|Hk]; [by eauto|].
    destruct (decide (t = TrafficPolicyType ∧ n ∈ trafficPolicyRefs (Facts r)))
      as [[-> ?]|Hn]; [by eauto|]. right. split; [|done]. naive_solver.
Qed.

(** [ResourceFacts.Equal] holds exactly of facts whose defensive copies are equal. *)
Lemma Facts_Equal_spec f g :
  Facts_Equal f g = true ↔ cloneResourceFacts f = cloneResourceFacts g.
Proof.
  unfold Facts_Equal, cloneResourceFacts.
  rewrite !andb_true_iff, !bool_decide_eq_true.
  destruct f as [r1 i1 w1 s1 v1 a1 o1 e1], g as [r2 i2 w2 s2 v2 a2 o2 e2]; simpl.
  set (k1 := referenceKeys _). set (k2 := referenceKeys _). split.
  - intros (((((((-> & ->) & ->) & ->) & Hw) & ->) & ->) & ->).
    assert (w1 = w2) as ->; [|done].
    destruct w1 as [w|], w2 as [w'|]; try done.
    rewrite !andb_true_iff, !bool_decide_eq_true in Hw.
    destruct w, w'; simpl in *; naive_solver.
  - intros [= Hk -> -> -> -> -> -> ->].
    assert (k1 = k2) as -> by (destruct k1, k2; naive_solver).
    split_and!; try done.
    destruct w2 as [w|]; [|done].
    by rewrite !andb_true_iff, !bool_decide_eq_true.
Qed.

Lemma Facts_Equal_references r1 r2 :
  Facts_Equal (Facts r1) (Facts r2) = true → ReferencedResources r1 = ReferencedResources r2.
Proof.
  intros Heq%Facts_Equal_spec.
  unfold cloneResourceFacts in Heq. injection Heq as Href _ Hw _ _ _ _ _.
  assert (referenceKeys (Facts r1) = referenceKeys (Facts r2)) as Hk.
  { destruct (referenceKeys (Facts r1)), (referenceKeys (Facts r2)); congruence. }
  unfold ReferencedResources, extraReferences, trafficPolicyRefs. by rewrite Hk, Hw.
Qed.

Lemma Facts_Equal_refl f : Facts_Equal f f = true.
Proof. by apply Facts_Equal_spec. Qed.

(** *** What a valid resource guarantees *)

Lemma validateResource_name r :
  validateResource r = Ok tt → blank (Name (Key r)) = false ∧ blank (TypeURL (Key r)) = false.
Proof.
  unfold validateResource. rewrite !check_Ok, !negb_true_iff. naive_solver.
Qed.

Lemma validateResource_facts r :
  validateResource r = Ok tt → validateResourceFacts (Key r) (Facts r) = Ok tt.
Proof.
  unfold validateResource. rewrite !check_Ok. intros (_ & _ & H).
  destruct (Value r); [|done]. by apply check_Ok in H as [_ ?].
Qed.

Lemma validateFacts_references key facts k :
  validateResourceFacts key facts = Ok tt → k ∈ referenceKeys facts →
  blank (TypeURL k) = false ∧ blank (Name k) = false.
Proof.
  unfold validateResourceFacts. rewrite check_Ok.
  intros [Hk%Is_true_true _] Hin. apply forallb_True in Hk.
  rewrite Forall_forall in Hk. specialize (Hk k Hin).
  apply Is_true_true in Hk. by rewrite andb_true_iff, !negb_true_iff in Hk.
Qed.

Lemma validateFacts_workload key facts w :
  validateResourceFacts key facts = Ok tt → rf_Workload facts = Some w →
  validateWorkloadFacts key w = Ok tt.
Proof.
  unfold validateResourceFacts. rewrite check_Ok. intros [_ H] Hw.
  apply rbind_Ok in H as ([] & _ & H). apply check_Ok in H as [_ H].
  apply rbind_Ok in H as ([] & H & _). by rewrite Hw in H.
Qed.

Lemma validateWorkload_refs key w v :
  validateWorkloadFacts key w = Ok tt →
  v ∈ wf_ServiceKeys w ++ wf_GatewayReferences w ++ wf_AuthorizationRefs w
      ++ wf_TrafficPolicyRefs w →
  blank v = false.
Proof.
  unfold validateWorkloadFacts. rewrite !check_Ok. intros (_ & _ & _ & _ & H) Hv.
  apply guard_ok_Ok, Is_true_true, forallb_True in H.
  rewrite Forall_forall in H. apply negb_true_iff, Is_true_true. by apply H.
Qed.

Lemma blank_false_nonempty s : blank s = false → s ≠ "".
Proof. by intros H ->. Qed.

(** *** Normalization *)

Lemma isort_id {A} (R : relation A) `{!RelDecision R} l : StronglySorted R l → isort R l = l.
Proof.
  induction 1 as [|x l Hl IH Hx]; simpl; [done|]. rewrite IH.
  destruct l as [|y l]; simpl; [done|]. apply Forall_cons in Hx as [? _].
  by rewrite decide_True.
Qed.

#[export] Instance ResourceKey_le_trans : Transitive ResourceKey_le.
Proof.
  intros a b c [Hab|[Hab Nab]] [Hbc|[Hbc Nbc]]; unfold ResourceKey_le.
  - left. by etrans.
  - left. by rewrite <-Hbc.
  - left. by rewrite Hab.
  - right. split; [congruence|by etrans].
Qed.

#[export] Instance ResourceKey_le_total : Total ResourceKey_le.
Proof.
  intros a b. unfold ResourceKey_le.
  destruct (slt_trichotomy (TypeURL a) (TypeURL b)) as [|[Heq|]]; [auto| |auto].
  destruct (total String.le (Name a) (Name b)); rewrite Heq; auto.
Qed.

Lemma elem_of_compactKeys x l : x ∈ compactKeys l ↔ x ∈ l.
Proof.
  induction l as [|y [|z l] IH]; [done..|].
  change (x ∈ (if decide (y = z) then compactKeys (z :: l) else y :: compactKeys (z :: l))
          ↔ x ∈ y :: z :: l).
  case_decide as Hyz; [subst|]; rewrite ?elem_of_cons, IH, ?elem_of_cons; naive_solver.
Qed.

Lemma compactKeys_sorted l :
  StronglySorted ResourceKey_le l → StronglySorted ResourceKey_le (compactKeys l).
Proof.
  induction 1 as [|y [|z l] Hl IH Hy]; [constructor|repeat constructor|].
  change (StronglySorted ResourceKey_le
    (if decide (y = z) then compactKeys (z :: l) else y :: compactKeys (z :: l))).
  case_decide as Hyz; [done|]. constructor; [done|].
  apply Forall_forall. intros w Hw. rewrite elem_of_compactKeys in Hw.
  by eapply Forall_forall.
Qed.

Lemma compactKeys_compact l : compactKeys (compactKeys l) = compactKeys l.
Proof.
  induction l as [|y [|z l] IH]; [done..|].
  change (compactKeys (y :: z :: l))
    with (if decide (y = z) then compactKeys (z :: l) else y :: compactKeys (z :: l)).
  case_decide as Hyz; [done|].
  assert (∃ w k, compactKeys (z :: l) = w :: k ∧ w = z) as (w & k & Hw & ->).
  { clear. revert z. induction l as [|y l IH]; intros z; [by exists z, []|].
    change (compactKeys (z :: y :: l))
      with (if decide (z = y) then compactKeys (y :: l) else z :: compactKeys (y :: l)).
    case_decide; [subst; apply IH|eauto]. }
  rewrite Hw in *. change (compactKeys (y :: z :: k))
    with (if decide (y = z) then compactKeys (z :: k) else y :: compactKeys (z :: k)).
  rewrite decide_False by done. by rewrite IH.
Qed.

Lemma sorted_unique_id l : ssorted l → sorted_unique l = l.
Proof.
  intros Hl. unfold sorted_unique, sort_strings.
  rewrite isort_id by by apply ssorted_sorted. by apply compact_id.
Qed.

Lemma normalizeWorkloadFacts_idemp w :
  normalizeWorkloadFacts (normalizeWorkloadFacts w) = normalizeWorkloadFacts w.
Proof.
  unfold normalizeWorkloadFacts; simpl.
  by rewrite !(sorted_unique_id (sorted_unique _)) by apply sorted_unique_ssorted.
Qed.

Definition normalFacts (f : ResourceFacts) : ResourceFacts :=
  normalizeResourceFacts (cloneResourceFacts f).

Lemma referenceKeys_normal f :
  referenceKeys (normalFacts f) = compactKeys (isort ResourceKey_le (referenceKeys f)).
Proof.
  unfold normalFacts, normalizeResourceFacts, cloneResourceFacts, referenceKeys at 1; simpl.
  by destruct (referenceKeys f).
Qed.

Lemma normalFacts_idemp f : normalFacts (normalFacts f) = normalFacts f.
Proof.
  unfold normalFacts at 1, normalizeResourceFacts, cloneResourceFacts at 1.
  rewrite referenceKeys_normal.
  unfold normalFacts, normalizeResourceFacts, cloneResourceFacts; simpl.
  f_equal.
  - set (ks := referenceKeys f). destruct ks as [|k ks']; [done|].
    destruct (compactKeys (isort ResourceKey_le (k :: ks'))) as [|k1 ks1] eqn:Hc.
    { exfalso. assert (k ∈ compactKeys (isort ResourceKey_le (k :: ks'))) as Hk.
      { rewrite elem_of_compactKeys, elem_of_isort. by left. }
      rewrite Hc in Hk. by apply not_elem_of_nil in Hk. }
    change (Some (compactKeys (isort ResourceKey_le (k1 :: ks1)))
      = Some (compactKeys (isort ResourceKey_le (k :: ks')))).
    rewrite <-Hc, isort_id by (apply compactKeys_sorted, (isort_sorted _)).
    by rewrite compactKeys_compact.
  - destruct (rf_Workload f) as [w|]; simpl; [|done]. by rewrite normalizeWorkloadFacts_idemp.
Qed.

Lemma elem_of_referenceKeys_normal k f : k ∈ referenceKeys (normalFacts f) ↔ k ∈ referenceKeys f.
Proof. by rewrite referenceKeys_normal, elem_of_compactKeys, elem_of_isort. Qed.

Lemma forallb_same_elems {A} (f : A → bool) l l' :
  (∀ x, x ∈ l ↔ x ∈ l') → forallb f l = forallb f l'.
Proof.
  intros Hx. apply eq_bool_prop_intro. rewrite !forallb_True, !Forall_forall. set_solver.
Qed.

Lemma validateWorkloadFacts_normal key w :
  validateWorkloadFacts key (normalizeWorkloadFacts w) = validateWorkloadFacts key w.
Proof.
  unfold validateWorkloadFacts, normalizeWorkloadFacts; simpl.
  rewrite (forallb_same_elems _ _
    (wf_ServiceKeys w ++ wf_GatewayReferences w ++ wf_AuthorizationRefs w
     ++ wf_TrafficPolicyRefs w)); [done|].
  intros x. by rewrite !elem_of_app, !elem_of_sorted_unique.
Qed.

(** Normalization changes no verdict of the validators. *)
Lemma validateResourceFacts_normal key f :
  validateResourceFacts key (normalFacts f) = validateResourceFacts key f.
Proof.
  unfold validateResourceFacts.
  rewrite (forallb_same_elems _ (referenceKeys (normalFacts f)) (referenceKeys f))
    by (intros x; apply elem_of_referenceKeys_normal).
  destruct f as [r i [w|] s v a o e]; simpl; [|done].
  by rewrite validateWorkloadFacts_normal.
Qed.

Section normalize.
Context `{Codec}.

Lemma normalizeResource_Ok r r' :
  normalizeResource r = Ok r' ↔
  validateResource r = Ok tt ∧ ∃ encoded,
    marshalAny (default (mkAny "" "") (Value r)) = Ok encoded ∧
    r' = (let cloned := mkResource (Key r)
            (if decide (XDSName r = "") then Name (Key r) else XDSName r)
            (Value r) (sort_strings (Aliases r)) "" (normalFacts (Facts r)) in
          mkResource (Key cloned) (XDSName cloned) (Value cloned) (Aliases cloned)
            (digest (hashInput cloned encoded)) (Facts cloned)).
Proof.
  unfold normalizeResource. rewrite rbind_Ok. setoid_rewrite rbind_Ok. split.
  - intros ([] & Hv & enc & He & [= <-]). eauto.
  - intros (Hv & enc & He & ->). exists tt. eauto.
Qed.

Lemma normalizeResource_valid r r' :
  normalizeResource r = Ok r' → validateResource r' = Ok tt.
Proof.
  intros (Hv & enc & He & ->)%normalizeResource_Ok. revert Hv.
  unfold validateResource; simpl. by rewrite validateResourceFacts_normal.
Qed.

Lemma normalizeResource_Key r r' : normalizeResource r = Ok r' → Key r' = Key r.
Proof. by intros (_ & enc & _ & ->)%normalizeResource_Ok. Qed.

Lemma hashInput_Hash r h enc :
  hashInput (mkResource (Key r) (XDSName r) (Value r) (Aliases r) h (Facts r)) enc
  = hashInput r enc.
Proof. done. Qed.

(** Normalizing a normal resource gives the same resource, hash included. *)
Lemma normalizeResource_idemp r r' :
  normalizeResource r = Ok r' → normalizeResource r' = Ok r'.
Proof.
  intros Hr. pose proof (normalizeResource_valid _ _ Hr) as Hv'.
  apply normalizeResource_Ok in Hr as (Hv & enc & He & ->); cbn zeta in *.
  apply normalizeResource_Ok. split; [done|]. exists enc. split; [done|]. simpl.
  pose proof (validateResource_name _ Hv) as [Hn%blank_false_nonempty _].
  rewrite !normalFacts_idemp. unfold sort_strings.
  rewrite (isort_id _ (isort _ _)) by apply (isort_sorted String.le).
  set (x := if decide (XDSName r = "") then _ else _).
  assert (x ≠ "") as Hx by (unfold x; by case_decide).
  by rewrite !decide_False by done.
Qed.
End normalize.
