(* ===== verification/ResourceIndex.v ===== *)
(** * ResourceIndex: the sharded per-type index (src/pkg/model/resource_index.go)

    The 1024-way sharded maps, the postings that answer lookups by wire name,
    alias or fact, workload queries, and the incremental maintenance of the
    postings, immediate and batched. Copying a shard before its first write is
    invisible here, where maps are values. *)

From S2P Require Import Prelude Identity Resource.

(** ** Sharded maps *)

Definition resourceShardCount : Z := 1024.

(** [uint32] arithmetic wraps around. *)
Definition wrap32 (x : Z) : Z := x `mod` 2 ^ 32.

Fixpoint fnv1a (h : Z) (name : string) : Z :=
  match name with
  | EmptyString => h
  | String b name =>
      fnv1a (wrap32 (Z.lxor h (Z.of_N (N_of_ascii b)) * 16777619)) name
  end.

Definition resourceShard (name : string) : Z :=
  Z.land (fnv1a 2166136261 name) (resourceShardCount - 1).

(** An array of shards; a missing entry is a nil map. *)
Abbreviation sharded A := (gmap Z (gmap string A)).

Section sharded.
Context {A : Type}.
Implicit Types m : sharded A.

Definition shard_at m (k : string) : gmap string A := default ∅ (m !! resourceShard k).
Definition shard_get m (k : string) : option A := shard_at m k !! k.
Definition shard_set m (k : string) (v : A) : sharded A :=
  <[resourceShard k := <[k := v]> (shard_at m k)]> m.
Definition shard_delete m (k : string) : sharded A :=
  <[resourceShard k := delete k (shard_at m k)]> m.

(** All entries, as the nested [range] loops visit them. *)
Definition shard_list m : list (string * A) :=
  '(_, sh) ← map_to_list m; map_to_list sh.

(** Every entry sits in the shard its key hashes to. *)
Definition placed m : Prop :=
  ∀ i sh k v, m !! i = Some sh → sh !! k = Some v → i = resourceShard k.

Lemma shard_get_set m k v k' :
  shard_get (shard_set m k v) k' = if decide (k = k') then Some v else shard_get m k'.
Proof.
  unfold shard_get, shard_set, shard_at. rewrite lookup_insert.
  destruct (decide (resourceShard k = resourceShard k')) as [He|He]; simpl.
  - rewrite He. by rewrite lookup_insert.
  - rewrite decide_False by congruence. done.
Qed.

Lemma shard_get_delete m k k' :
  shard_get (shard_delete m k) k' = if decide (k = k') then None else shard_get m k'.
Proof.
  unfold shard_get, shard_delete, shard_at. rewrite lookup_insert.
  destruct (decide (resourceShard k = resourceShard k')) as [He|He]; simpl.
  - rewrite He. by rewrite lookup_delete.
  - rewrite decide_False by congruence. done.
Qed.

Lemma placed_empty : placed ∅.
Proof. intros i sh k v H. by rewrite lookup_empty in H. Qed.

Lemma placed_update m i sh :
  placed m → (∀ k v, sh !! k = Some v → i = resourceShard k) → placed (<[i := sh]> m).
Proof.
  intros Hm Hsh j sh' k v Hj Hk. apply lookup_insert_Some in Hj as [[<- <-]|[_ Hj]]; eauto.
Qed.

Lemma placed_at m k k' v :
  placed m → shard_at m k !! k' = Some v → resourceShard k = resourceShard k'.
Proof.
  intros Hm. unfold shard_at.
  destruct (m !! resourceShard k) as [sh|] eqn:Hsh; simpl; [eauto|].
  by rewrite lookup_empty.
Qed.

Lemma placed_set m k v : placed m → placed (shard_set m k v).
Proof.
  intros Hm. apply placed_update; [done|]. intros k' v' Hk'.
  apply lookup_insert_Some in Hk' as [[<- _]|[_ ?]]; eauto using placed_at.
Qed.

Lemma placed_delete m k : placed m → placed (shard_delete m k).
Proof.
  intros Hm. apply placed_update; [done|]. intros k' v' Hk'.
  apply lookup_delete_Some in Hk' as [_ ?]; eauto using placed_at.
Qed.

Lemma elem_of_shard_list m k v :
  placed m → (k, v) ∈ shard_list m ↔ shard_get m k = Some v.
Proof.
  intros Hm. unfold shard_list. rewrite list_elem_of_bind. split.
  - intros ([i sh] & Hk & Hi). apply elem_of_map_to_list in Hi, Hk.
    rewrite (Hm _ _ _ _ Hi Hk) in Hi. unfold shard_get, shard_at. by rewrite Hi.
  - unfold shard_get, shard_at.
    destruct (m !! resourceShard k) as [sh|] eqn:Hsh; simpl; [|by rewrite lookup_empty].
    intros Hk. exists (resourceShard k, sh). by rewrite !elem_of_map_to_list.
Qed.

Lemma shard_list_split m i :
  shard_list m ≡ₚ map_to_list (default ∅ (m !! i)) ++ shard_list (delete i m).
Proof.
  unfold shard_list. destruct (m !! i) as [sh|] eqn:Hi; simpl.
  - rewrite <-(insert_delete_id m i sh Hi) at 1.
    rewrite map_to_list_insert by apply lookup_delete_eq. done.
  - by rewrite map_to_list_empty, (delete_id m i Hi).
Qed.

Lemma shard_list_update m i sh :
  shard_list (<[i := sh]> m) ≡ₚ map_to_list sh ++ shard_list (delete i m).
Proof. by rewrite (shard_list_split _ i), lookup_insert_eq, delete_insert_eq. Qed.

Lemma shard_list_set_new m k v :
  shard_get m k = None → shard_list (shard_set m k v) ≡ₚ (k, v) :: shard_list m.
Proof.
  unfold shard_get. intros Hk. unfold shard_set.
  rewrite shard_list_update, map_to_list_insert by done. simpl.
  by rewrite (shard_list_split m (resourceShard k)).
Qed.

Lemma length_shard_list_set m k v v0 :
  shard_get m k = Some v0 → length (shard_list (shard_set m k v)) = length (shard_list m).
Proof.
  unfold shard_get, shard_set. intros Hk.
  rewrite shard_list_update, length_app.
  rewrite (shard_list_split m (resourceShard k)), length_app. f_equal.
  fold (shard_at m k). rewrite !length_map_to_list.
  by apply map_size_insert_Some.
Qed.

Lemma length_shard_list_delete m k v :
  shard_get m k = Some v →
  length (shard_list m) = S (length (shard_list (shard_delete m k))).
Proof.
  unfold shard_get, shard_delete. intros Hk.
  rewrite shard_list_update, length_app.
  rewrite (shard_list_split m (resourceShard k)), length_app. fold (shard_at m k).
  rewrite !length_map_to_list, map_size_delete_Some by eauto.
  assert (size (shard_at m k) ≠ 0); [|lia].
  intros Hz%map_size_empty_iff. by rewrite Hz, lookup_empty in Hk.
Qed.

Lemma NoDup_shard_list m : placed m → NoDup (shard_list m).*1.
Proof.
  induction m as [|i sh m Hi IH] using map_ind; intros Hm; [by constructor|].
  rewrite shard_list_update, (delete_id m i Hi), fmap_app. apply NoDup_app. split_and!.
  - apply NoDup_fst_map_to_list.
  - intros k [[k1 v1] [-> H1]]%list_elem_of_fmap [[k2 v2] [E2 H2]]%list_elem_of_fmap.
    simpl in *; subst k2.
    apply elem_of_map_to_list in H1.
    assert (i = resourceShard k1) as Hk by (eapply Hm; [apply lookup_insert_eq|done]).
    unfold shard_list in H2. apply list_elem_of_bind in H2 as ([j sh'] & H2 & Hj).
    apply elem_of_map_to_list in Hj, H2.
    assert (j ≠ i) as Hji by (intros ->; congruence).
    apply Hji. rewrite Hk. eapply Hm; [|exact H2]. by rewrite lookup_insert_ne.
  - apply IH. intros j sh' k v Hj Hk. eapply Hm; [|exact Hk].
    rewrite lookup_insert_ne; [done|]. intros ->. congruence.
Qed.
End sharded.

Lemma resourceShard_range name : (0 ≤ resourceShard name < resourceShardCount)%Z.
Proof.
  unfold resourceShard, resourceShardCount. change (1024 - 1)%Z with (Z.ones 10).
  rewrite Z.land_ones by lia. apply Z.mod_pos_bound. lia.
Qed.

(** ** The per-type index *)

(** Postings: index key to the sorted names of the resources carrying it. *)
Abbreviation resourceLookupIndex := (sharded (list string)).

Record resourceTypeIndex := mkIndex {
  ti_shards : sharded Resource;
  ti_lookup : resourceLookupIndex;
  ti_facts : resourceLookupIndex;
  ti_length : Z
}.

Definition emptyIndex : resourceTypeIndex := mkIndex ∅ ∅ ∅ 0.

(** ** Fact keys *)

(** [resourceFactKind], a byte *)
Definition resourceFactWorkloadUID : N := 1.
Definition resourceFactWorkloadAuthorizationRefs : N := 2.
Definition resourceFactWorkloadTrafficPolicyRefs : N := 3.
Definition resourceFactAttesterWorkloadUID : N := 4.
Definition resourceFactSource : N := 5.
Definition resourceFactNode : N := 6.
Definition resourceFactPrincipal : N := 7.
Definition resourceFactNamespace : N := 8.
Definition resourceFactService : N := 9.
Definition resourceFactGatewayReference : N := 10.
Definition resourceFactAuthorizationReference : N := 11.
Definition resourceFactTrafficPolicyReference : N := 12.
Definition resourceFactGatewayOwner : N := 13.
Definition resourceFactAuthorizationGlobal : N := 14.
Definition resourceFactAuthorizationNamespace : N := 15.
Definition resourceFactReference : N := 16.

Definition resourceFactIndexKey (kind : N) (key : string) : string :=
  String (ascii_of_N kind) (NUL +:+ key).

Definition resourceReferenceIndexKey (key : ResourceKey) : string :=
  if decide (TypeURL key = TrafficPolicyType)
  then resourceFactIndexKey resourceFactTrafficPolicyReference (Name key)
  else resourceFactIndexKey resourceFactReference (TypeURL key +:+ NUL +:+ Name key).

Definition workloadHasAuthorizationRefs (w : WorkloadResourceFacts) : bool :=
  bool_decide (0 < length (wf_AuthorizationRefs w)).

(** The [add] closure of [resourceFactKeys]: nothing for an empty key. *)
Definition factKey (kind : N) (key : string) : list string :=
  if decide (key = "") then [] else [resourceFactIndexKey kind key].

Definition workloadFactKeys (w : WorkloadResourceFacts) : list string :=
  (if workloadHasAuthorizationRefs w
   then factKey resourceFactWorkloadAuthorizationRefs "enabled" else [])
  ++ (if bool_decide (0 < length (wf_TrafficPolicyRefs w))
      then factKey resourceFactWorkloadTrafficPolicyRefs "enabled" else [])
  ++ factKey resourceFactWorkloadUID (wf_WorkloadUID w)
  ++ factKey resourceFactSource (SourceRef_String (wf_Source w))
  ++ factKey resourceFactNode (wf_NodeName w)
  ++ factKey resourceFactPrincipal (uri (wf_Principal w))
  ++ factKey resourceFactNamespace (wf_Namespace w)
  ++ (wf_ServiceKeys w ≫= factKey resourceFactService)
  ++ (wf_GatewayReferences w ≫= factKey resourceFactGatewayReference)
  ++ (wf_AuthorizationRefs w ≫= factKey resourceFactAuthorizationReference)
  ++ (wf_TrafficPolicyRefs w ≫= factKey resourceFactTrafficPolicyReference).

Definition authorizationFactKeys (a : AuthorizationResourceFacts) : list string :=
  if decide (af_Scope a = AuthorizationScopeGlobal)
  then factKey resourceFactAuthorizationGlobal "global"
  else if decide (af_Scope a = AuthorizationScopeNamespace)
  then factKey resourceFactAuthorizationNamespace (af_Namespace a)
  else [].

Definition resourceFactKeys (r : Resource) : list string :=
  from_option workloadFactKeys [] (rf_Workload (Facts r))
  ++ (resourceReferenceIndexKey <$> extraReferences (Facts r))
  ++ from_option (λ s, factKey resourceFactAttesterWorkloadUID (AttesterWorkloadUID s)) []
       (rf_Sandbox (Facts r))
  ++ from_option (λ s, factKey resourceFactService (ServiceKey s)) [] (rf_Service (Facts r))
  ++ factKey resourceFactGatewayOwner (GatewayOwner (Facts r))
  ++ from_option authorizationFactKeys [] (rf_Authorization (Facts r)).

(** ** Lookups *)

Definition lookupNames (index : resourceLookupIndex) (key : string) : list string :=
  default [] (shard_get index key).

Fixpoint resourcesForNames_loop (index : resourceTypeIndex) (names : list string)
    (unique : gset string) : list Resource :=
  match names with
  | [] => []
  | name :: names =>
      if decide (name ∈ unique) then resourcesForNames_loop index names unique
      else match shard_get (ti_shards index) name with
           | None => resourcesForNames_loop index names unique
           | Some r => r :: resourcesForNames_loop index names ({[name]} ∪ unique)
           end
  end.

Definition resource_name (r : Resource) : string := Name (Key r).

Definition resourcesForNames (index : resourceTypeIndex) (names : list string) : list Resource :=
  sort_on resource_name (resourcesForNames_loop index names ∅).

(** ** Workload queries *)

Record WorkloadQuery := mkQuery {
  wq_AuthorizationRefsOnly : bool;
  wq_TrafficPolicyRefsOnly : bool;
  wq_WorkloadUID : string;
  wq_Source : SourceRef;
  wq_NodeName : string;
  wq_Principal : option Principal;
  wq_Namespace : string;
  wq_ServiceKey : string;
  wq_GatewayReference : string;
  wq_AuthorizationReference : string;
  wq_TrafficPolicyReference : string
}.

Definition emptyQuery : WorkloadQuery :=
  mkQuery false false "" zeroSourceRef "" None "" "" "" "" "".

Definition workloadReferencesMatch (w : WorkloadResourceFacts) (q : WorkloadQuery) : bool :=
  negb (bool_decide (wq_ServiceKey q ≠ "") && bool_decide (wq_ServiceKey q ∉ wf_ServiceKeys w)
  || bool_decide (wq_GatewayReference q ≠ "")
     && bool_decide (wq_GatewayReference q ∉ wf_GatewayReferences w)
  || bool_decide (wq_AuthorizationReference q ≠ "")
     && bool_decide (wq_AuthorizationReference q ∉ wf_AuthorizationRefs w)
  || bool_decide (wq_TrafficPolicyReference q ≠ "")
     && bool_decide (wq_TrafficPolicyReference q ∉ wf_TrafficPolicyRefs w)).

(** [WorkloadQuery.Matches] *)
Definition Matches (q : WorkloadQuery) (workload : option WorkloadResourceFacts) : bool :=
  match workload with
  | None => false
  | Some w =>
      negb (wq_AuthorizationRefsOnly q && negb (workloadHasAuthorizationRefs w)
      || wq_TrafficPolicyRefsOnly q && bool_decide (length (wf_TrafficPolicyRefs w) = 0)
      || bool_decide (wq_WorkloadUID q ≠ "")
         && bool_decide (wf_WorkloadUID w ≠ wq_WorkloadUID q)
      || bool_decide (wq_Source q ≠ zeroSourceRef) && bool_decide (wf_Source w ≠ wq_Source q)
      || bool_decide (wq_NodeName q ≠ "") && bool_decide (wf_NodeName w ≠ wq_NodeName q)
      || match wq_Principal q with
         | Some p => bool_decide (wf_Principal w ≠ p)
         | None => false
         end
      || bool_decide (wq_Namespace q ≠ "") && bool_decide (wf_Namespace w ≠ wq_Namespace q)
      || negb (workloadReferencesMatch w q))
  end.

Definition queryFields (q : WorkloadQuery) : list (N * string) :=
  [(resourceFactWorkloadUID, wq_WorkloadUID q);
   (resourceFactSource, SourceRef_String (wq_Source q));
   (resourceFactAuthorizationReference, wq_AuthorizationReference q);
   (resourceFactTrafficPolicyReference, wq_TrafficPolicyReference q);
   (resourceFactNode, wq_NodeName q);
   (resourceFactNamespace, wq_Namespace q);
   (resourceFactService, wq_ServiceKey q);
   (resourceFactGatewayReference, wq_GatewayReference q)].

(** The predicates that make a query fail closed before any index is read. *)
Definition queryValid (q : WorkloadQuery) : bool :=
  forallb (λ f, negb (bool_decide (f.2 ≠ "") && blank f.2)) (queryFields q)
  && negb (bool_decide (wq_Source q ≠ zeroSourceRef)
           && negb (is_ok (SourceRef_Validate (wq_Source q))))
  && match wq_Principal q with Some p => is_ok (Principal_Validate p) | None => true end.

(** [consider]: keep the smaller posting ([None] is the nil slice), and report
    whether it is already minimal. *)
Definition consider (index : resourceLookupIndex) (candidates : option (list string))
    (kind : N) (value : string) : option (list string) * bool :=
  let names := shard_get index (resourceFactIndexKey kind value) in
  (match candidates with
   | None => names
   | Some c => if decide (length (default [] names) < length c) then names else candidates
   end, bool_decide (length (default [] names) ≤ 1)).

Fixpoint considerFields (index : resourceLookupIndex) (fields : list (N * string))
    (candidates : option (list string)) : option (list string) * bool :=
  match fields with
  | [] => (candidates, false)
  | (kind, value) :: fields =>
      if decide (value = "") then considerFields index fields candidates
      else let '(candidates, minimal) := consider index candidates kind value in
           if minimal then (candidates, true) else considerFields index fields candidates
  end.

Definition workloadQueryCandidates (index : resourceLookupIndex) (q : WorkloadQuery)
    : list string :=
  if negb (queryValid q) then [] else
  default [] (
    let '(candidates, stop) := considerFields index (queryFields q) None in
    if stop then candidates else
    let '(candidates, stop) :=
      if wq_AuthorizationRefsOnly q
      then consider index candidates resourceFactWorkloadAuthorizationRefs "enabled"
      else (candidates, false) in
    if stop then candidates else
    let '(candidates, stop) :=
      if wq_TrafficPolicyRefsOnly q
      then consider index candidates resourceFactWorkloadTrafficPolicyRefs "enabled"
      else (candidates, false) in
    if stop then candidates else
    match wq_Principal q with
    | Some p => (consider index candidates resourceFactPrincipal (uri p)).1
    | None => candidates
    end).

(** ** Building the postings of a new snapshot *)

Definition appendLookupName (index : resourceLookupIndex) (key name : string)
    : resourceLookupIndex :=
  if decide (key = "" ∨ name = "") then index
  else shard_set index key (lookupNames index key ++ [name]).

Definition indexResourceLookups (index : resourceTypeIndex) (r : Resource) : resourceTypeIndex :=
  let name := Name (Key r) in
  mkIndex (ti_shards index)
    (foldl (λ lk alias, appendLookupName lk alias name)
       (appendLookupName (ti_lookup index) (XDSName r) name) (Aliases r))
    (foldl (λ fk key, appendLookupName fk key name) (ti_facts index) (resourceFactKeys r))
    (ti_length index).

Definition finalizeLookupIndex (index : resourceLookupIndex) : resourceLookupIndex :=
  (λ sh : gmap string (list string), sorted_unique <$> sh) <$> index.

(** ** Incremental maintenance *)

Record resourceLookupEntry := mkEntry { entry_kind : N; entry_key : string }.

#[export] Instance resourceLookupEntry_eq_dec : EqDecision resourceLookupEntry.
Proof. solve_decision. Defined.
#[export] Instance resourceLookupEntry_countable : Countable resourceLookupEntry.
Proof.
  apply (inj_countable' (λ e, (entry_kind e, entry_key e)) (λ p, mkEntry p.1 p.2)).
  by intros [].
Defined.

Definition resourceLookupEntries (resource : option Resource) : gset resourceLookupEntry :=
  match resource with
  | None => ∅
  | Some r =>
      list_to_set
        (base.filter (λ e, entry_key e ≠ "")
           ((mkEntry 0 <$> XDSName r :: Aliases r) ++ (mkEntry 1 <$> resourceFactKeys r)))
  end.

(** The postings an entry belongs to: facts for kind 1, lookups otherwise. *)
Definition entryIndex (index : resourceTypeIndex) (entry : resourceLookupEntry)
    : resourceLookupIndex :=
  if decide (entry_kind entry = 1%N) then ti_facts index else ti_lookup index.

Definition setEntryIndex (index : resourceTypeIndex) (entry : resourceLookupEntry)
    (postings : resourceLookupIndex) : resourceTypeIndex :=
  if decide (entry_kind entry = 1%N)
  then mkIndex (ti_shards index) (ti_lookup index) postings (ti_length index)
  else mkIndex (ti_shards index) postings (ti_facts index) (ti_length index).

(** [writableLookupShard]: the shard of the entry's key, private to this update. *)
Definition writableLookupShard (index : resourceTypeIndex) (entry : resourceLookupEntry)
    : gmap string (list string) :=
  shard_at (entryIndex index entry) (entry_key entry).

Definition storeLookupShard (index : resourceTypeIndex) (entry : resourceLookupEntry)
    (lookup : gmap string (list string)) : resourceTypeIndex :=
  setEntryIndex index entry
    (<[resourceShard (entry_key entry) := lookup]> (entryIndex index entry)).

(** [position < len(names) && names[position] == name] *)
Definition containsAt (names : list string) (position : nat) (name : string) : bool :=
  bool_decide (names !! position = Some name).

Definition updateLookupMembership (lookup : gmap string (list string)) (key : string)
    (names : list string) (name : string) (add : bool) : gmap string (list string) :=
  let position := SearchStrings names name in
  let contains := containsAt names position name in
  if bool_decide (add = contains) then lookup
  else if add
  then <[key := take position names ++ name :: drop position names]> lookup
  else if decide (length names = 1) then delete key lookup
  else <[key := take position names ++ drop (S position) names]> lookup.

Abbreviation lookupMembershipChange := (string * bool)%type.
Abbreviation lookupPending :=
  (gmap (string * resourceLookupEntry) (list lookupMembershipChange)).

(** [lookupIndexUpdates.record] *)
Definition recordMembership (batch : bool) (typeURL name : string) (add : bool)
    (st : resourceTypeIndex * lookupPending) (entry : resourceLookupEntry)
    : resourceTypeIndex * lookupPending :=
  let '(index, pending) := st in
  let lookup := writableLookupShard index entry in
  let names := default [] (lookup !! entry_key entry) in
  if batch && bool_decide (1 < length names)
  then (storeLookupShard index entry lookup,
        <[(typeURL, entry) := default [] (pending !! (typeURL, entry)) ++ [(name, add)]]> pending)
  else (storeLookupShard index entry
          (updateLookupMembership lookup (entry_key entry) names name add), pending).

Definition updateResourceLookupDiff (batch : bool) (typeURL : string)
    (old new : option Resource) (st : resourceTypeIndex * lookupPending)
    : resourceTypeIndex * lookupPending :=
  let oldEntries := resourceLookupEntries old in
  let newEntries := resourceLookupEntries new in
  let name := match new, old with
              | Some r, _ => Name (Key r)
              | None, Some r => Name (Key r)
              | None, None => ""
              end in
  let st := foldl (recordMembership batch typeURL name false) st
              (elements (oldEntries ∖ newEntries)) in
  foldl (recordMembership batch typeURL name true) st (elements (newEntries ∖ oldEntries)).

(** Batched changes sorted by name, the last decision for each name. *)
Fixpoint lastPerName (changes : list lookupMembershipChange) : list lookupMembershipChange :=
  match changes with
  | c :: (c' :: _) as rest => if decide (c.1 = c'.1) then lastPerName rest else c :: lastPerName rest
  | _ => changes
  end.

Definition effectiveChanges (names : list string) (changes : list lookupMembershipChange)
    : list lookupMembershipChange :=
  base.filter (λ c : lookupMembershipChange, c.2 ≠ containsAt names (SearchStrings names c.1) c.1)
    (lastPerName (isort (key_le fst) changes)).

(** [length] after the loop over the groups *)
Definition postingLength (names : list string) (changes : list lookupMembershipChange) : Z :=
  foldl (λ (n : Z) (c : lookupMembershipChange), if c.2 then n + 1 else n - 1)%Z
    (Z.of_nat (length names)) changes.

(** The splice loop over [changes[:count]], from [position] on. *)
Fixpoint splicePosting (names : list string) (position : nat)
    (changes : list lookupMembershipChange) : list string :=
  match changes with
  | [] => drop position names
  | (name, add) :: changes =>
      let next := position + SearchStrings (drop position names) name in
      take (next - position) (drop position names) ++
      (if add then name :: splicePosting names next changes
       else splicePosting names (S next) changes)
  end.

(** The body of [lookupIndexUpdates.apply] for one posting with several changes *)
Definition mergeMemberships (lookup : gmap string (list string)) (key : string)
    (names : list string) (changes : list lookupMembershipChange) : gmap string (list string) :=
  let effective := effectiveChanges names changes in
  if decide (effective = []) then lookup
  else if decide (postingLength names effective = 0%Z) then delete key lookup
  else <[key := splicePosting names 0 effective]> lookup.

(** ... and for any number: a single change is applied directly. *)
Definition applyMemberships (lookup : gmap string (list string)) (key : string)
    (names : list string) (changes : list lookupMembershipChange) : gmap string (list string) :=
  match changes with
  | [(name, add)] => updateLookupMembership lookup key names name add
  | _ => mergeMemberships lookup key names changes
  end.

(** One iteration of [lookupIndexUpdates.apply]; the type of a pending entry is
    always present, its index having been cloned when the entry was recorded. *)
Definition applyPendingEntry (resources : gmap string resourceTypeIndex)
    (p : (string * resourceLookupEntry) * list lookupMembershipChange)
    : gmap string resourceTypeIndex :=
  let '((typeURL, entry), changes) := p in
  match resources !! typeURL with
  | None => resources
  | Some index =>
      let lookup := writableLookupShard index entry in
      let names := default [] (lookup !! entry_key entry) in
      <[typeURL := storeLookupShard index entry
                     (applyMemberships lookup (entry_key entry) names changes)]> resources
  end.

Definition applyPending (pending : lookupPending) (resources : gmap string resourceTypeIndex)
    : gmap string resourceTypeIndex :=
  foldl applyPendingEntry resources (map_to_list pending).
