(* ===== verification/Postings.v ===== *)
(** * Postings: the batched maintenance of the lookup postings is correct

    Facts about [splicePosting], [lastPerName] and [updateLookupMembership] of
    ResourceIndex: a batch leaves every posting strictly sorted and holding
    exactly the names its changes decide, as if applied one after the other. *)

From S2P Require Import Prelude Identity Resource ResourceIndex.

(** ** Batched posting updates *)

(** The decision the last change of [x] takes, if any. *)
Definition lastDecision (changes : list lookupMembershipChange) (x : string) : option bool :=
  snd <$> last (base.filter (λ c : lookupMembershipChange, c.1 = x) changes).

(** Membership of [x] after the changes, applied in order to [names]. *)
Definition decided (names : list string) (changes : list lookupMembershipChange) (x : string)
    : Prop :=
  match lastDecision changes x with Some b => Is_true b | None => x ∈ names end.

Lemma lastDecision_snoc cs n b x :
  lastDecision (cs ++ [(n, b)]) x = if decide (n = x) then Some b else lastDecision cs x.
Proof.
  unfold lastDecision. rewrite filter_app, filter_cons, filter_nil; simpl.
  case_decide; [by rewrite last_snoc|by rewrite app_nil_r].
Qed.

Lemma lastDecision_None cs x : lastDecision cs x = None ↔ ∀ b, (x, b) ∉ cs.
Proof.
  unfold lastDecision. rewrite fmap_None, last_None. split.
  - intros Hf b Hb. assert ((x, b) ∈ base.filter (λ c : string * bool, c.1 = x) cs) as H
      by (by apply list_elem_of_filter). rewrite Hf in H. by apply not_elem_of_nil in H.
  - intros Hn. destruct (base.filter _ cs) as [|[y b] l] eqn:Hf; [done|]. exfalso.
    assert ((y, b) ∈ base.filter (λ c : string * bool, c.1 = x) cs) as H by (rewrite Hf; left).
    apply list_elem_of_filter in H as [? H]. simplify_eq/=. by apply (Hn b).
Qed.

Lemma insert_sorted_filter {A} (key : A → string) x y l :
  base.filter (λ c, key c = x) (insert_sorted (key_le key) y l)
  = base.filter (λ c, key c = x) (y :: l).
Proof.
  induction l as [|z l IH]; simpl; [done|]. case_decide as Hle; [done|].
  assert (key z ≠ key y) as Hne.
  { intros He. apply Hle. unfold key_le. by rewrite He. }
  rewrite !filter_cons, IH, filter_cons. repeat case_decide; congruence.
Qed.

(** The sort is stable: the changes of one name keep their order. *)
Lemma lastDecision_isort cs x : lastDecision (isort (key_le fst) cs) x = lastDecision cs x.
Proof.
  unfold lastDecision. do 2 f_equal. induction cs as [|c cs IH]; [done|].
  change (isort (key_le fst) (c :: cs))
    with (insert_sorted (key_le fst) c (isort (key_le fst) cs)).
  rewrite insert_sorted_filter, !filter_cons, IH. done.
Qed.

Lemma lastDecision_cons c cs x :
  lastDecision (c :: cs) x =
  match lastDecision cs x with
  | Some b => Some b
  | None => if decide (c.1 = x) then Some c.2 else None
  end.
Proof.
  unfold lastDecision. rewrite filter_cons. case_decide; [|by destruct (last _)].
  rewrite last_cons. by destruct (last _).
Qed.

Lemma lastPerName_cons c c' l :
  lastPerName (c :: c' :: l) =
  if decide (c.1 = c'.1) then lastPerName (c' :: l) else c :: lastPerName (c' :: l).
Proof. done. Qed.

Lemma lastPerName_spec l :
  StronglySorted (key_le fst) l →
  ssorted (lastPerName l).*1 ∧ ∀ x b, (x, b) ∈ lastPerName l ↔ lastDecision l x = Some b.
Proof.
  induction 1 as [|c l Hl IH Hc].
  { split; [constructor|]. intros x b. split; [by intros ?%not_elem_of_nil|done]. }
  destruct l as [|c' l].
  { split; [repeat constructor|]. intros x b.
    change (lastPerName [c]) with [c]. rewrite list_elem_of_singleton, lastDecision_cons.
    simpl. destruct c; case_decide; naive_solver. }
  rewrite lastPerName_cons. destruct IH as [IHs IHd]. case_decide as Heq.
  { split; [done|]. intros x b. rewrite IHd, (lastDecision_cons c).
    destruct (lastDecision (c' :: l) x) eqn:Hd; [done|].
    case_decide; [|done]. exfalso.
    rewrite lastDecision_None in Hd. apply (Hd c'.2). subst x. rewrite Heq.
    destruct c'; left. }
  assert (∀ y b, (y, b) ∈ lastPerName (c' :: l) → slt c.1 y) as Hlt.
  { intros y b Hy. apply IHd in Hy.
    assert (∃ b', (y, b') ∈ c' :: l) as [b' Hin].
    { destruct (decide (∃ b', (y, b') ∈ c' :: l)) as [|Hno]; [done|]. exfalso.
      rewrite (proj2 (lastDecision_None (c' :: l) y)) in Hy; [done|]. naive_solver. }
    apply Forall_cons in Hc as [Hc1 Hc].
    apply slt_le_trans with (c'.1); [by split|].
    apply elem_of_cons in Hin as [<-|Hin]; [done|].
    apply StronglySorted_cons in Hl as [Hl _]. rewrite Forall_forall in Hl.
    apply (Hl _ Hin). }
  split.
  - rewrite fmap_cons. constructor; [done|]. apply Forall_fmap, Forall_forall.
    intros [y b] Hy. simpl. eauto.
  - intros x b. rewrite elem_of_cons, IHd, (lastDecision_cons c).
    destruct (lastDecision (c' :: l) x) as [b'|] eqn:Hd.
    + split; [intros [Hx|?]; [|done]|by right]. exfalso.
      apply IHd, Hlt in Hd. rewrite <-Hx in Hd. simpl in Hd. by apply slt_irrefl in Hd.
    + destruct c as [n b0]; simpl. case_decide; naive_solver.
Qed.

(** *** Splicing *)

Fixpoint splice_list (l : list string) (cs : list lookupMembershipChange) : list string :=
  match cs with
  | [] => l
  | (n, add) :: cs =>
      let s := SearchStrings l n in
      take s l ++ (if add then n :: splice_list (drop s l) cs else splice_list (drop (S s) l) cs)
  end.

Lemma splicePosting_list names pos cs :
  splicePosting names pos cs = splice_list (drop pos names) cs.
Proof.
  revert pos. induction cs as [|[n add] cs IH]; intros pos; simpl; [done|].
  rewrite !IH, !drop_drop. rewrite Nat.add_comm, Nat.add_sub.
  rewrite <-Nat.add_succ_l, !(Nat.add_comm _ pos). done.
Qed.

Lemma ssorted_split l n :
  ssorted l → let s := SearchStrings l n in
  ssorted (take s l) ∧ ssorted (drop s l)
  ∧ (∀ x, x ∈ take s l → slt x n) ∧ (∀ x, x ∈ drop s l → String.le n x)
  ∧ (n ∈ l → drop s l = n :: drop (S s) l).
Proof.
  intros Hl s. pose proof (SearchStrings_spec l n (ssorted_sorted _ Hl)) as [Hlo Hhi].
  rewrite Forall_forall in Hlo, Hhi. fold s in Hlo, Hhi.
  pose proof Hl as Hl'. rewrite <-(take_drop s l), StronglySorted_app in Hl'.
  split_and!; try naive_solver.
  intros Hn. apply drop_S. apply SearchStrings_found; [by apply ssorted_sorted|done].
Qed.

Lemma postingLength_foldl z1 z2 (cs : list lookupMembershipChange) :
  let f := λ (n : Z) (c : lookupMembershipChange), if c.2 then (n + 1)%Z else (n - 1)%Z in
  foldl f (z1 + z2)%Z cs = (z1 + foldl f z2 cs)%Z.
Proof.
  intros f. revert z1 z2. induction cs as [|[n b] cs IH]; intros z1 z2; simpl; [done|].
  rewrite <-IH. f_equal. unfold f. simpl. destruct b; lia.
Qed.

Lemma postingLength_acc l cs :
  postingLength l cs = (Z.of_nat (length l) + postingLength [] cs)%Z.
Proof. unfold postingLength. rewrite <-postingLength_foldl. f_equal. simpl. lia. Qed.

Lemma postingLength_cons l n (b : bool) cs :
  postingLength l ((n, b) :: cs) = (postingLength l cs + if b then 1 else -1)%Z.
Proof.
  unfold postingLength. simpl. rewrite (Z.add_comm (foldl _ _ _)), <-postingLength_foldl.
  f_equal. destruct b; lia.
Qed.

Lemma splice_list_spec l cs :
  ssorted l → ssorted cs.*1 → (∀ n b, (n, b) ∈ cs → b = true ↔ n ∉ l) →
  ssorted (splice_list l cs)
  ∧ (∀ x, x ∈ splice_list l cs ↔ (x, true) ∈ cs ∨ (x ∈ l ∧ (x, false) ∉ cs))
  ∧ Z.of_nat (length (splice_list l cs)) = postingLength l cs.
Proof.
  revert l. induction cs as [|[n add] cs IH]; intros l Hl Hcs Hin.
  { simpl. split_and!; [done| |done]. intros x. set_solver. }
  rewrite fmap_cons in Hcs. apply StronglySorted_cons in Hcs as [Hn Hcs].
  rewrite Forall_fmap, Forall_forall in Hn.
  assert (∀ y b, (y, b) ∈ cs → slt n y) as Hgt by (intros y b Hy; apply (Hn _ Hy)).
  destruct (ssorted_split l n Hl) as (HA & HB & HlA & HlB & Hdrop).
  simpl. set (s := SearchStrings l n) in *.
  assert (∀ x, x ∈ l ↔ x ∈ take s l ∨ x ∈ drop s l) as Hx.
  { intros x. rewrite <-elem_of_app. by rewrite take_drop. }
  assert (∀ y b, (y, b) ∈ cs → y ∉ take s l) as HnA.
  { intros y b Hy HyA. by apply (slt_asym n y); eauto. }
  assert (length (take s l) + length (drop s l) = length l) as Hlen.
  { by rewrite <-length_app, take_drop. }
  pose proof (Hin n add (list_elem_of_here _ _)) as Hadd.
  destruct add.
  - assert (n ∉ l) as Hnl by naive_solver.
    destruct (IH (drop s l)) as (Hs & Hm & Hc); [done|done| |].
    { intros y b Hy. rewrite (Hin y b) by (by right). rewrite Hx. naive_solver. }
    assert (∀ x, x ∈ splice_list (drop s l) cs → slt n x) as Hbig.
    { intros x [Hxc|[Hxl _]]%Hm; [eauto|]. split; [eauto|]. intros ->. apply Hnl, Hx. auto. }
    split_and!.
    + apply StronglySorted_app_2; [|done|constructor; [done|by apply Forall_forall]].
      intros x y HxA [->|Hy]%elem_of_cons; [eauto|]. trans n; eauto.
    + intros x. rewrite elem_of_app, !elem_of_cons, Hm, Hx. split.
      * intros [HxA|[->|[Hxc|[HxB Hxc]]]]; [|by left; left|by left; right|].
        -- right. split; [by left|]. intros [?|Hf]; [done|]. by eapply HnA.
        -- right. split; [by right|]. by intros [?|?].
      * intros [[Hxc|Hxc]|[[HxA|HxB] Hxc]];
          [injection Hxc as ->; right; left; done|by right; right; left|by left|].
        right; right; right. split; [done|]. intros Hf. apply Hxc. by right.
    + rewrite length_app. simpl length. rewrite Nat2Z.inj_add, Nat2Z.inj_succ, Hc.
      rewrite postingLength_cons, (postingLength_acc (drop s l)), (postingLength_acc l). lia.
  - assert (n ∈ l) as Hnl by (destruct (decide (n ∈ l)); naive_solver).
    rewrite (Hdrop Hnl) in HB, HlB, Hx, Hlen.
    apply StronglySorted_cons in HB as [HnB HB]. rewrite Forall_forall in HnB.
    destruct (IH (drop (S s) l)) as (Hs & Hm & Hc); [done|done| |].
    { intros y b Hy. rewrite (Hin y b) by (by right). rewrite Hx, elem_of_cons.
      pose proof (HnA y b Hy). pose proof (Hgt y b Hy) as [_ ?]. naive_solver. }
    assert (∀ x, x ∈ splice_list (drop (S s) l) cs → slt n x) as Hbig.
    { intros x [Hxc|[Hxl _]]%Hm; eauto. }
    split_and!.
    + apply StronglySorted_app_2; [|done|done]. intros x y HxA Hy. trans n; eauto.
    + intros x. rewrite elem_of_app, Hm, Hx, !elem_of_cons. split.
      * intros [HxA|[Hxc|[HxB Hxc]]].
        -- right. split; [auto|]. intros [[= ->]|Hf].
           ++ by apply (slt_irrefl n), HlA.
           ++ by eapply HnA.
        -- auto.
        -- right. split; [auto|]. intros [[= ->]|Hf]; [|done].
           by apply (slt_irrefl n), HnB.
      * intros [[?|?]|[Hxx Hxc]]; [done|auto|]. destruct Hxx as [?|[->|?]]; [auto| |].
        -- exfalso. apply Hxc. by left.
        -- right; right. split; [done|]. intros ?. apply Hxc. by right.
    + rewrite length_app, Nat2Z.inj_add, Hc.
      rewrite postingLength_cons, (postingLength_acc (drop (S s) l)), (postingLength_acc l).
      simpl length in Hlen. lia.
Qed.

Lemma containsAt_spec names x :
  ssorted names → containsAt names (SearchStrings names x) x = true ↔ x ∈ names.
Proof.
  intros Hn. unfold containsAt. rewrite bool_decide_eq_true.
  apply SearchStrings_found. by apply ssorted_sorted.
Qed.

Lemma effectiveChanges_spec names cs :
  ssorted names →
  ssorted (effectiveChanges names cs).*1 ∧
  ∀ x b, (x, b) ∈ effectiveChanges names cs ↔
    lastDecision cs x = Some b ∧ (b = true ↔ x ∉ names).
Proof.
  intros Hn. unfold effectiveChanges.
  destruct (lastPerName_spec (isort (key_le fst) cs)) as [Hs Hd]; [apply isort_sorted; apply _|].
  split.
  - revert Hs. generalize (lastPerName (isort (key_le fst) cs)). intros l.
    induction l as [|c l IH]; [done|]. rewrite fmap_cons, StronglySorted_cons, filter_cons.
    intros [Hc Hl]. case_decide; [|by apply IH]. rewrite fmap_cons. constructor; [by apply IH|].
    rewrite Forall_fmap, Forall_forall in Hc |- *. intros y [_ ?]%list_elem_of_filter. by apply Hc.
  - intros x b. rewrite list_elem_of_filter, Hd, lastDecision_isort. simpl.
    pose proof (containsAt_spec names x Hn) as Hc.
    destruct (containsAt _ _ _), b; naive_solver.
Qed.

(** What one immediate update leaves at its key. *)
Lemma updateLookupMembership_at lookup key names name add :
  default [] (lookup !! key) = names → ssorted names →
  let names' := default [] (updateLookupMembership lookup key names name add !! key) in
  ssorted names' ∧ ∀ x, x ∈ names' ↔ decided names [(name, add)] x.
Proof.
  intros Hk Hn. unfold updateLookupMembership, decided.
  assert (∀ x, lastDecision [(name, add)] x = if decide (name = x) then Some add else None) as Hd.
  { intros x. apply (lastDecision_snoc []). }
  setoid_rewrite Hd. pose proof (containsAt_spec names name Hn) as Hc.
  destruct (ssorted_split names name Hn) as (HA & HB & HlA & HlB & Hdrop).
  set (p := SearchStrings names name) in *.
  assert (∀ x, x ∈ names ↔ x ∈ take p names ∨ x ∈ drop p names) as Hx.
  { intros x. rewrite <-elem_of_app. by rewrite take_drop. }
  case_bool_decide as Hac.
  { rewrite Hk. split; [done|]. intros x. case_decide as Hnx; [subst x|done].
    rewrite Hac, <-Hc. symmetry. apply Is_true_true. }
  destruct add.
  - assert (name ∉ names) as Hni by (rewrite <-Hc; congruence).
    rewrite lookup_insert_eq; simpl. split.
    + apply StronglySorted_app_2; [|done|constructor; [done|]].
      * intros x y Hxa [->|Hy]%elem_of_cons; [eauto|].
        eapply slt_le_trans; eauto.
      * apply Forall_forall. intros y Hy. split; [eauto|]. intros ->. apply Hni, Hx. auto.
    + intros x. rewrite elem_of_app, elem_of_cons.
      case_decide; [naive_solver|]. rewrite Hx. naive_solver.
  - assert (name ∈ names) as Hi by (apply Hc; destruct (containsAt _ _ _); congruence).
    specialize (Hdrop Hi). rewrite Hdrop in HB, HlB, Hx.
    apply StronglySorted_cons in HB as [HnB HB]. rewrite Forall_forall in HnB.
    assert (∀ x, x ∈ take p names ++ drop (S p) names ↔ x ∈ names ∧ name ≠ x) as Hrem.
    { intros x. rewrite elem_of_app, Hx, elem_of_cons. split.
      - intros [Hxa|Hxb]; (split; [by auto|]); intros ->; eapply slt_irrefl; eauto.
      - intros [[?|[->|?]] ?]; by auto. }
    case_decide as Hl.
    + rewrite lookup_delete_eq; simpl. split; [constructor|]. intros x.
      destruct names as [|y [|? ?]]; try done. apply list_elem_of_singleton in Hi as ->.
      case_decide; set_solver.
    + rewrite lookup_insert_eq; simpl. split.
      * apply StronglySorted_app_2; [|done|done]. intros x y Hxa Hy. trans name; eauto.
      * intros x. rewrite Hrem. case_decide; simpl; naive_solver.
Qed.

Lemma updateLookupMembership_other lookup key names name add k :
  k ≠ key → updateLookupMembership lookup key names name add !! k = lookup !! k.
Proof.
  intros Hk. unfold updateLookupMembership.
  repeat case_match; by rewrite ?lookup_insert_ne, ?lookup_delete_ne.
Qed.

(** What one batched update leaves at its key: the same as applying its changes
    one after the other. *)
Lemma mergeMemberships_at lookup key names cs :
  default [] (lookup !! key) = names → ssorted names →
  let names' := default [] (mergeMemberships lookup key names cs !! key) in
  ssorted names' ∧ ∀ x, x ∈ names' ↔ decided names cs x.
Proof.
  intros Hk Hn. destruct (effectiveChanges_spec names cs Hn) as [Hes Hed].
  unfold mergeMemberships. set (eff := effectiveChanges names cs) in *.
  destruct (splice_list_spec names eff) as (Hs & Hm & Hc); [done|done|naive_solver|].
  assert (∀ x, x ∈ splice_list names eff ↔ decided names cs x) as Hdec.
  { intros x. rewrite Hm. unfold decided.
    rewrite !Hed. destruct (lastDecision cs x) as [[]|] eqn:Hl; simpl;
      destruct (decide (x ∈ names)); split; intros; simplify_eq; intuition (auto; congruence). }
  case_decide as Heff.
  { rewrite Hk. rewrite Heff in Hdec. simpl in Hdec. done. }
  case_decide as Hz.
  { rewrite lookup_delete_eq. simpl. split; [constructor|].
    intros x. rewrite <-Hdec. rewrite <-Hc in Hz.
    destruct (splice_list names eff); [done|]. simpl in Hz. lia. }
  rewrite lookup_insert_eq, splicePosting_list, drop_0. simpl. done.
Qed.

Lemma applyMemberships_at lookup key names cs :
  default [] (lookup !! key) = names → ssorted names →
  let names' := default [] (applyMemberships lookup key names cs !! key) in
  ssorted names' ∧ ∀ x, x ∈ names' ↔ decided names cs x.
Proof.
  intros Hk Hn. unfold applyMemberships.
  destruct cs as [|[n b] [|c cs]]; [by apply mergeMemberships_at| |by apply mergeMemberships_at].
  by apply updateLookupMembership_at.
Qed.

Lemma applyMemberships_other lookup key names cs k :
  k ≠ key → applyMemberships lookup key names cs !! k = lookup !! k.
Proof.
  intros Hk. unfold applyMemberships, mergeMemberships.
  repeat case_match; rewrite ?lookup_insert_ne, ?lookup_delete_ne by done; try done;
    by apply updateLookupMembership_other.
Qed.

(** ** Recording membership changes *)

(** The entries of resources have kind 0 (lookups) or 1 (facts). *)
Definition entry_ok (e : resourceLookupEntry) : Prop := entry_kind e = 0%N ∨ entry_kind e = 1%N.

Lemma entries_ok r e : e ∈ resourceLookupEntries r → entry_ok e.
Proof.
  destruct r as [r|]; [|set_solver]. unfold resourceLookupEntries.
  rewrite elem_of_list_to_set, list_elem_of_filter, elem_of_app, !list_elem_of_fmap.
  unfold entry_ok. intros [_ [(? & -> & _)|(? & -> & _)]]; auto.
Qed.

Definition posting (index : resourceTypeIndex) (e : resourceLookupEntry) : list string :=
  lookupNames (entryIndex index e) (entry_key e).

Lemma posting_shard index e :
  posting index e = default [] (writableLookupShard index e !! entry_key e).
Proof. done. Qed.

Lemma entryIndex_set index e p e' :
  entry_ok e → entry_ok e' →
  entryIndex (setEntryIndex index e p) e'
  = if decide (entry_kind e = entry_kind e') then p else entryIndex index e'.
Proof.
  unfold entryIndex, setEntryIndex, entry_ok.
  intros [He|He] [He'|He']; rewrite He, He'; done.
Qed.

(** Storing a shard that differs from the current one at most at the entry's key
    changes that posting only. *)
Lemma posting_store index e lookup e' :
  entry_ok e → entry_ok e' →
  (∀ k, k ≠ entry_key e → lookup !! k = writableLookupShard index e !! k) →
  posting (storeLookupShard index e lookup) e'
  = if decide (e = e') then default [] (lookup !! entry_key e) else posting index e'.
Proof.
  intros He He' Hk. unfold posting, storeLookupShard, lookupNames, shard_get, shard_at.
  rewrite entryIndex_set by done.
  destruct (decide (e = e')) as [->|Hne].
  { rewrite decide_True, lookup_insert_eq by done. done. }
  case_decide as Hkind; [|done].
  assert (entryIndex index e = entryIndex index e') as Hidx
    by (unfold entryIndex; by rewrite Hkind).
  assert (entry_key e' ≠ entry_key e) as Hkey.
  { intros Hkey. apply Hne. destruct e, e'; simpl in *; congruence. }
  rewrite lookup_insert. case_decide as Hsh; simpl; [|by rewrite Hidx].
  rewrite Hk by done. unfold writableLookupShard, shard_at. by rewrite Hsh, Hidx.
Qed.

Definition state_view (t : string) (st : resourceTypeIndex * lookupPending)
    (e : resourceLookupEntry) (x : string) : Prop :=
  decided (posting st.1 e) (default [] (st.2 !! (t, e))) x.

(** Deferred changes only exist for shared postings of a batch. *)
Definition state_ok (batch : bool) (t : string) (st : resourceTypeIndex * lookupPending) : Prop :=
  ∀ e, entry_ok e →
    ssorted (posting st.1 e) ∧
    (st.2 !! (t, e) ≠ None → batch = true ∧ 1 < length (posting st.1 e)).

Lemma decided_snoc names cs n b x :
  decided names (cs ++ [(n, b)]) x ↔ if decide (n = x) then Is_true b else decided names cs x.
Proof. unfold decided. rewrite lastDecision_snoc. by case_decide. Qed.

Lemma decided_nil names x : decided names [] x ↔ x ∈ names.
Proof. done. Qed.

Lemma recordMembership_spec batch t name add st e :
  entry_ok e → state_ok batch t st →
  let st' := recordMembership batch t name add st e in
  state_ok batch t st'
  ∧ (∀ e' x, entry_ok e' →
       state_view t st' e' x ↔
       if decide (e = e' ∧ name = x) then Is_true add else state_view t st e' x)
  ∧ ti_shards st'.1 = ti_shards st.1 ∧ ti_length st'.1 = ti_length st.1
  ∧ (∀ t' e', t' ≠ t → st'.2 !! (t', e') = st.2 !! (t', e')).
Proof.
  destruct st as [index pending]. intros He Hok. unfold recordMembership.
  set (lookup := writableLookupShard index e). set (names := default [] (lookup !! _)).
  destruct (Hok e He) as [Hs Hp]; simpl in Hs, Hp. change (posting index e) with names in Hs, Hp.
  assert (∀ i l, ti_shards (storeLookupShard i e l) = ti_shards i
                 ∧ ti_length (storeLookupShard i e l) = ti_length i) as Hst.
  { intros i l. unfold storeLookupShard, setEntryIndex. by case_decide. }
  destruct (batch && bool_decide (1 < length names)) eqn:Hb; cbv zeta; simpl.
  - apply andb_true_iff in Hb as [Hbt Hlen%bool_decide_eq_true].
    assert (∀ e', entry_ok e' → posting (storeLookupShard index e lookup) e' = posting index e')
      as Hpost.
    { intros e' He'. rewrite posting_store by done. by case_decide; subst. }
    split_and!; try apply Hst.
    + intros e' He'. simpl. rewrite Hpost by done. destruct (Hok e' He') as [? Hp'].
      split; [done|]. rewrite lookup_insert. case_decide as Heq; [|done].
      simplify_eq. intros _. done.
    + intros e' x He'. unfold state_view; simpl. rewrite Hpost, lookup_insert by done.
      destruct (decide (e = e')) as [->|Hne].
      * rewrite decide_True by done. simpl. rewrite decided_snoc.
        destruct (decide (name = x)); [by rewrite decide_True|by rewrite decide_False by naive_solver].
      * rewrite decide_False by congruence. by rewrite decide_False by naive_solver.
    + intros t' e' Ht. rewrite lookup_insert_ne; [done|]. congruence.
  - assert (pending !! (t, e) = None) as Hnone.
    { destruct (pending !! (t, e)) eqn:Hpe; [|done]. exfalso.
      destruct Hp as [-> Hl]; [done|]. simpl in Hb. apply bool_decide_eq_false in Hb. lia. }
    destruct (updateLookupMembership_at lookup (entry_key e) names name add eq_refl Hs)
      as [Hs' Hm']. set (lookup' := updateLookupMembership _ _ _ _ _) in *.
    assert (∀ e', entry_ok e' → posting (storeLookupShard index e lookup') e'
      = if decide (e = e') then default [] (lookup' !! entry_key e) else posting index e') as Hpost.
    { intros e' He'. apply posting_store; [done..|]. intros k Hk.
      by apply updateLookupMembership_other. }
    split_and!; try apply Hst; [..|done].
    + intros e' He'. simpl. rewrite Hpost by done.
      destruct (decide (e = e')) as [<-|]; [by rewrite Hnone|by apply Hok].
    + intros e' x He'. unfold state_view; simpl. rewrite Hpost by done.
      destruct (decide (e = e')) as [<-|Hne].
      * rewrite Hnone; simpl. rewrite !decided_nil, Hm'.
        change [(name, add)] with ([] ++ [(name, add)]). rewrite decided_snoc.
        change (posting index e) with names.
        destruct (decide (name = x)); [by rewrite decide_True|by rewrite decide_False by naive_solver].
      * by rewrite decide_False by naive_solver.
Qed.

Lemma recordMemberships_spec batch t name add es st :
  Forall entry_ok es → state_ok batch t st →
  let st' := foldl (recordMembership batch t name add) st es in
  state_ok batch t st'
  ∧ (∀ e' x, entry_ok e' →
       state_view t st' e' x ↔
       if decide (e' ∈ es ∧ name = x) then Is_true add else state_view t st e' x)
  ∧ ti_shards st'.1 = ti_shards st.1 ∧ ti_length st'.1 = ti_length st.1
  ∧ (∀ t' e', t' ≠ t → st'.2 !! (t', e') = st.2 !! (t', e')).
Proof.
  revert st. induction es as [|e es IH]; intros st Hes Hok; cbn zeta.
  { by split_and!. }
  apply Forall_cons in Hes as [He Hes]. simpl foldl.
  destruct (recordMembership_spec batch t name add st e He Hok) as (Hok1 & Hv1 & Hs1 & Hl1 & Hp1).
  destruct (IH _ Hes Hok1) as (Hok2 & Hv2 & Hs2 & Hl2 & Hp2).
  split_and!; [done| |by rewrite Hs2|by rewrite Hl2|].
  - intros e' x He'. rewrite Hv2 by done.
    destruct (decide (e' ∈ es ∧ name = x)) as [[Hin ->]|Hn].
    { rewrite decide_True; [done|]. split; [by right|done]. }
    rewrite Hv1 by done.
    destruct (decide (e = e' ∧ name = x)) as [[-> ->]|Hn'].
    { rewrite decide_True; [done|]. split; [by left|done]. }
    rewrite decide_False; [done|]. intros [[->|?]%elem_of_cons ->]; auto.
  - intros t' e' Ht. by rewrite Hp2, Hp1.
Qed.

(** [updateResourceLookupDiff] moves a resource's name from the postings of its old
    entries to those of its new ones. *)
Lemma updateResourceLookupDiff_spec batch t old new name st :
  state_ok batch t st →
  (∀ r, new = Some r → Name (Key r) = name) →
  (∀ r, old = Some r → Name (Key r) = name) →
  (old ≠ None ∨ new ≠ None) →
  (∀ e, entry_ok e → state_view t st e name ↔ e ∈ resourceLookupEntries old) →
  let st' := updateResourceLookupDiff batch t old new st in
  state_ok batch t st'
  ∧ (∀ e x, entry_ok e →
       state_view t st' e x ↔
       if decide (x = name) then e ∈ resourceLookupEntries new else state_view t st e x)
  ∧ ti_shards st'.1 = ti_shards st.1 ∧ ti_length st'.1 = ti_length st.1
  ∧ (∀ t' e', t' ≠ t → st'.2 !! (t', e') = st.2 !! (t', e')).
Proof.
  intros Hok Hnew Hold Hsome Hview. unfold updateResourceLookupDiff.
  set (n := match new with Some _ => _ | None => _ end).
  assert (n = name) as -> by (unfold n; destruct new, old; naive_solver).
  set (oldE := resourceLookupEntries old) in *. set (newE := resourceLookupEntries new).
  destruct (recordMemberships_spec batch t name false (elements (oldE ∖ newE)) st)
    as (Hok1 & Hv1 & Hs1 & Hl1 & Hp1); [|done|].
  { apply Forall_forall. intros e. rewrite elem_of_elements, elem_of_difference.
    intros [? _]. by eapply entries_ok. }
  destruct (recordMemberships_spec batch t name true (elements (newE ∖ oldE)) _
    (proj2 (Forall_forall _ _)
       (λ e, λ He, entries_ok new e (proj1 (proj1 (elem_of_difference newE oldE e)
          (proj1 (elem_of_elements _ e) He))))) Hok1)
    as (Hok2 & Hv2 & Hs2 & Hl2 & Hp2).
  cbn zeta. split_and!; [done| |by rewrite Hs2|by rewrite Hl2|].
  - intros e x He. specialize (Hv1 e x He). specialize (Hv2 e x He). rewrite Hv2. clear Hv2.
    destruct (decide (e ∈ elements (newE ∖ oldE) ∧ name = x)) as [[Hin <-]|Hn2].
    { rewrite decide_True by done. apply elem_of_elements in Hin. set_solver. }
    rewrite Hv1. clear Hv1. rewrite elem_of_elements in Hn2.
    destruct (decide (e ∈ elements (oldE ∖ newE) ∧ name = x)) as [[Hin <-]|Hn1].
    { rewrite decide_True by done. apply elem_of_elements in Hin. set_solver. }
    rewrite elem_of_elements in Hn1. destruct (decide (x = name)) as [->|]; [|done].
    rewrite Hview by done. destruct (decide (e ∈ oldE)), (decide (e ∈ newE)); set_solver.
  - intros t' e' Ht. by rewrite Hp2, Hp1.
Qed.

(** ** Applying the deferred changes *)

(** [index'] is [index] with its postings moved to what [changes] decide. *)
Definition postings_moved (changes : resourceLookupEntry → list lookupMembershipChange)
    (index index' : resourceTypeIndex) : Prop :=
  ti_shards index' = ti_shards index ∧ ti_length index' = ti_length index
  ∧ ∀ e, entry_ok e →
      ssorted (posting index' e)
      ∧ ∀ x, x ∈ posting index' e ↔ decided (posting index e) (changes e) x.

Lemma applyPendingEntry_spec resources t e cs t' index :
  resources !! t' = Some index → entry_ok e →
  (∀ e', entry_ok e' → ssorted (posting index e')) →
  ∃ index', applyPendingEntry resources ((t, e), cs) !! t' = Some index'
    ∧ postings_moved (λ e', if decide (t = t' ∧ e = e') then cs else []) index index'.
Proof.
  intros Hr He Hs. unfold applyPendingEntry.
  destruct (decide (t = t')) as [<-|Hne]; last first.
  { exists index. split.
    - destruct (resources !! t); [|done]. by rewrite lookup_insert_ne.
    - split_and!; [done..|]. intros e' He'. split; [auto|]. intros x.
      by rewrite decide_False by naive_solver. }
  rewrite Hr. set (lookup := writableLookupShard index e).
  destruct (applyMemberships_at lookup (entry_key e) _ cs eq_refl (Hs e He)) as [Hs' Hm'].
  eexists. rewrite lookup_insert_eq. split; [done|].
  assert (∀ i l, ti_shards (storeLookupShard i e l) = ti_shards i
                 ∧ ti_length (storeLookupShard i e l) = ti_length i) as Hst.
  { intros i l. unfold storeLookupShard, setEntryIndex. by case_decide. }
  split_and!; [apply Hst..|]. intros e' He'.
  rewrite posting_store; [|done..|intros k Hk; by apply applyMemberships_other].
  destruct (decide (e = e')) as [<-|Hne].
  - rewrite decide_True by done. split; [exact Hs'|exact Hm'].
  - rewrite decide_False by naive_solver. split; [auto|]. done.
Qed.

Lemma applyPendingList_spec (l : list ((string * resourceLookupEntry) * list lookupMembershipChange))
    resources t index :
  NoDup l.*1 → Forall (λ p, entry_ok p.1.2) l →
  resources !! t = Some index → (∀ e, entry_ok e → ssorted (posting index e)) →
  ∃ index', foldl applyPendingEntry resources l !! t = Some index'
    ∧ postings_moved (λ e, default [] ((list_to_map l : lookupPending) !! (t, e))) index index'.
Proof.
  revert resources index. induction l as [|[[t1 e1] cs] l IH]; intros resources index Hnd Hok Hr Hs.
  { exists index. split; [done|]. split_and!; [done..|]. intros e He. split; [auto|].
    intros x. simpl. by rewrite lookup_empty. }
  rewrite fmap_cons in Hnd. apply NoDup_cons in Hnd as [Hnin Hnd].
  apply Forall_cons in Hok as [He1 Hok]. simpl in Hnin, He1. simpl foldl.
  destruct (applyPendingEntry_spec resources t1 e1 cs t index Hr He1 Hs)
    as (index1 & Hr1 & Hsh1 & Hl1 & Hp1).
  destruct (IH _ _ Hnd Hok Hr1) as (index2 & Hr2 & Hsh2 & Hl2 & Hp2); [naive_solver|].
  exists index2. split; [done|]. split_and!; [congruence..|].
  intros e He. destruct (Hp1 e He) as [Hs1 Hm1]. destruct (Hp2 e He) as [Hs2 Hm2].
  split; [done|]. intros x. rewrite Hm2. simpl. rewrite lookup_insert.
  destruct (decide ((t1, e1) = (t, e))) as [Heq|Hne].
  - injection Heq as -> ->.
    rewrite (proj1 (not_elem_of_list_to_map (M:=gmap _) l (t, e)) Hnin); simpl.
    rewrite decided_nil, Hm1. by rewrite decide_True.
  - rewrite decide_False in Hm1 by naive_solver.
    unfold decided. destruct (lastDecision _ _); [done|]. by rewrite Hm1.
Qed.

(** Flushing the batch leaves every posting as its recorded changes decide. *)
Lemma applyPending_spec (pending : lookupPending) resources t index :
  (∀ t' e cs, pending !! (t', e) = Some cs → entry_ok e) →
  resources !! t = Some index → (∀ e, entry_ok e → ssorted (posting index e)) →
  ∃ index', applyPending pending resources !! t = Some index'
    ∧ postings_moved (λ e, default [] (pending !! (t, e))) index index'.
Proof.
  intros Hok Hr Hs. unfold applyPending.
  destruct (applyPendingList_spec (map_to_list pending) resources t index)
    as (index' & Hr' & Hm); [apply NoDup_fst_map_to_list| |done|done|].
  { apply Forall_forall. intros [[t' e] cs] Hin%elem_of_map_to_list. simpl. eauto. }
  rewrite list_to_map_to_list in Hm. eauto.
Qed.

Lemma applyPending_None pending resources t :
  resources !! t = None → applyPending pending resources !! t = None.
Proof.
  unfold applyPending. generalize (map_to_list pending). intros l.
  revert resources. induction l as [|[[t1 e1] cs] l IH]; intros resources Hr; [done|].
  simpl foldl. apply IH. simpl. destruct (resources !! t1) eqn:Ht1; [|done].
  rewrite lookup_insert_ne; [done|]. intros ->. congruence.
Qed.
