(* ===== verification/ResourceSet.v ===== *)
(** * ResourceSet: the indexed snapshot (src/pkg/model/resource_set.go)

    Construction, lookups and copy-on-write updates of a snapshot. The snapshot is
    related to an abstract finite map from keys to resources, and its postings to the
    resources that carry the indexed names and facts. *)

From S2P Require Import Prelude Identity Resource ResourceIndex Postings.

Record ResourceSet := mkSet {
  rs_resources : gmap string resourceTypeIndex;
  rs_version : string;
  rs_length : Z
}.

(** The zero value, returned along an error. *)
Definition emptySet : ResourceSet := mkSet ∅ "" 0.

(** ** Lookups *)

Definition Get (s : ResourceSet) (key : ResourceKey) : option Resource :=
  match rs_resources s !! TypeURL key with
  | None => None
  | Some index => shard_get (ti_shards index) (Name key)
  end.

Definition Lookup (s : ResourceSet) (typeURL name : string) : list Resource :=
  match rs_resources s !! typeURL with
  | None => []
  | Some index =>
      if decide (name = "") then [] else
      resourcesForNames index
        (lookupNames (ti_lookup index) name
         ++ match Get s (mkKey typeURL name) with
            | Some r => [Name (Key r)]
            | None => []
            end)
  end.

(** The loop over candidates: those present that satisfy the query. *)
Definition matchingWorkloads (index : resourceTypeIndex) (query : WorkloadQuery)
    (candidates : list string) : list Resource :=
  omap (λ name,
    match shard_get (ti_shards index) name with
    | Some r => if Matches query (rf_Workload (Facts r)) then Some r else None
    | None => None
    end) candidates.

Definition ListWorkloads (s : ResourceSet) (typeURL : string) (query : WorkloadQuery)
    : list Resource :=
  match rs_resources s !! typeURL with
  | None => []
  | Some index =>
      matchingWorkloads index query (workloadQueryCandidates (ti_facts index) query)
  end.

Definition HasReference (s : ResourceSet) (key : ResourceKey) : bool :=
  existsb (λ p : string * resourceTypeIndex,
      bool_decide (length (lookupNames (ti_facts p.2) (resourceReferenceIndexKey key)) ≠ 0))
    (map_to_list (rs_resources s)).

Definition HasWorkload (s : ResourceSet) (typeURL : string) (query : WorkloadQuery) : bool :=
  match rs_resources s !! typeURL with
  | None => false
  | Some index =>
      existsb (λ name,
          match shard_get (ti_shards index) name with
          | Some r => Matches query (rf_Workload (Facts r))
          | None => false
          end)
        (workloadQueryCandidates (ti_facts index) query)
  end.

Definition listByFact (s : ResourceSet) (typeURL : string) (kind : N) (key : string)
    : list Resource :=
  match rs_resources s !! typeURL with
  | None => []
  | Some index =>
      if decide (key = "") then [] else
      resourcesForNames index (lookupNames (ti_facts index) (resourceFactIndexKey kind key))
  end.

Definition ListSandboxesByAttester (s : ResourceSet) (workloadUID : string) : list Resource :=
  listByFact s SandboxType resourceFactAttesterWorkloadUID workloadUID.

Definition ListServiceMembers (s : ResourceSet) (typeURL serviceKey : string) : list Resource :=
  listByFact s typeURL resourceFactService serviceKey.

Definition ListResourcesOwnedByGateway (s : ResourceSet) (typeURL gatewayKey : string)
    : list Resource :=
  listByFact s typeURL resourceFactGatewayOwner gatewayKey.

Definition ListGlobalAuthorizations (s : ResourceSet) : list Resource :=
  listByFact s WorkloadAuthorizationType resourceFactAuthorizationGlobal "global".

Definition ListNamespaceAuthorizations (s : ResourceSet) (namespace : string) : list Resource :=
  listByFact s WorkloadAuthorizationType resourceFactAuthorizationNamespace namespace.

(** [List] *)
Definition ListType (s : ResourceSet) (typeURL : string) : list Resource :=
  match rs_resources s !! typeURL with
  | None => []
  | Some index => sort_on resource_name (shard_list (ti_shards index)).*2
  end.

Definition Types (s : ResourceSet) : list string :=
  sort_strings (map_to_list (rs_resources s)).*1.

Definition CountsByType (s : ResourceSet) : gmap string Z := ti_length <$> rs_resources s.

(** ** Versions *)

Definition change_le (a b : ResourceChange) : Prop := ResourceKey_le (rc_Key a) (rc_Key b).

#[export] Instance change_le_dec : RelDecision change_le.
Proof. intros a b. unfold change_le. apply _. Defined.

(** The bytes of one change that [incrementalVersion] hashes. *)
Definition changeBytes (c : ResourceChange) : string :=
  NUL +:+ TypeURL (rc_Key c) +:+ NUL +:+ Name (rc_Key c) +:+ NUL
  +:+ match rc_New c with Some r => Hash r | None => "deleted" end.

Definition incrementalVersion `{Codec} (previous : string) (changes : list ResourceChange)
    : string :=
  digest (previous +:+ concat_strings (changeBytes <$> isort change_le changes)).

Definition computeVersion `{Codec} (s : ResourceSet) : string :=
  digest (concat_strings (
    t ← Types s; (λ r, Hash r +:+ NUL) <$> ListType s t)).

(** ** Construction *)

(** Resources without a hash are normalized, hashed ones only validated. *)
Definition admitResource `{Codec} (r : Resource) : result Resource :=
  if decide (Hash r = "") then normalizeResource r
  else let! _ := validateResource r in Ok r.

(** One iteration of the loop of [NewResourceSet] *)
Definition addResource `{Codec} (s : ResourceSet) (resource : Resource) : result ResourceSet :=
  let! normalized := admitResource resource in
  let typeURL := TypeURL (Key normalized) in
  let name := Name (Key normalized) in
  let index := default emptyIndex (rs_resources s !! typeURL) in
  match shard_get (ti_shards index) name with
  | Some _ => Err "duplicate resource"
  | None =>
      let index := mkIndex (shard_set (ti_shards index) name normalized)
                     (ti_lookup index) (ti_facts index) (ti_length index) in
      let index := indexResourceLookups index normalized in
      let index := mkIndex (ti_shards index) (ti_lookup index) (ti_facts index)
                     (ti_length index + 1)%Z in
      Ok (mkSet (<[typeURL := index]> (rs_resources s)) (rs_version s) (rs_length s + 1)%Z)
  end.

Definition finalizeIndex (index : resourceTypeIndex) : resourceTypeIndex :=
  mkIndex (ti_shards index) (finalizeLookupIndex (ti_lookup index))
    (finalizeLookupIndex (ti_facts index)) (ti_length index).

Definition NewResourceSet `{Codec} (resources : list Resource) : result ResourceSet :=
  let! s := rfold addResource resources emptySet in
  let s := mkSet (finalizeIndex <$> rs_resources s) (rs_version s) (rs_length s) in
  Ok (mkSet (rs_resources s) (computeVersion s) (rs_length s)).

(** ** Updates *)

Definition normalizeChangedResource `{Codec} (key : ResourceKey) (new : Resource)
    : result Resource :=
  check! bool_decide (Key new = key) else "resource change key does not match" in
  admitResource new.

(** What the loop of [Apply] carries. A type's index is copied on its first change;
    [as_cloned] holds the types copied so far. *)
Record applyState := mkApply {
  as_resources : gmap string resourceTypeIndex;
  as_cloned : gset string;
  as_pending : lookupPending;
  as_effective : list ResourceChange;
  as_length : Z
}.

(** The value a change asks for, [None] when it has no effect. *)
Definition changeValue `{Codec} (current : option Resource) (change : ResourceChange)
    : result (option (option Resource)) :=
  match rc_New change with
  | None => Ok (match current with None => None | Some _ => Some None end)
  | Some new =>
      let! normalized := normalizeChangedResource (rc_Key change) new in
      Ok (match current with
          | Some r => if decide (Hash r = Hash normalized) then None else Some (Some normalized)
          | None => Some (Some normalized)
          end)
  end.

Definition applyEffective (batch : bool) (st : applyState) (change : ResourceChange)
    (current new : option Resource) : applyState :=
  let typeURL := TypeURL (rc_Key change) in
  let name := Name (rc_Key change) in
  let index := default emptyIndex (as_resources st !! typeURL) in
  let old := match current with Some r => Some r | None => rc_Old change end in
  let '(index, pending) := updateResourceLookupDiff batch typeURL old new (index, as_pending st) in
  let '(shards, delta) :=
    match new with
    | None => (shard_delete (ti_shards index) name, -1)
    | Some r => (shard_set (ti_shards index) name r,
                 match current with Some _ => 0 | None => 1 end)
    end%Z in
  let index := mkIndex shards (ti_lookup index) (ti_facts index) (ti_length index + delta)%Z in
  mkApply (<[typeURL := index]> (as_resources st)) ({[typeURL]} ∪ as_cloned st) pending
    (as_effective st ++ [mkChange (rc_Key change) old new]) (as_length st + delta)%Z.

Definition applyChange `{Codec} (batch : bool) (st : applyState) (change : ResourceChange)
    : result applyState :=
  check! negb (blank (TypeURL (rc_Key change)) || blank (Name (rc_Key change)))
    else "resource change key is required" in
  let current := match as_resources st !! TypeURL (rc_Key change) with
                 | Some index => shard_get (ti_shards index) (Name (rc_Key change))
                 | None => None
                 end in
  let! value := changeValue current change in
  Ok (match value with
      | None => st
      | Some new => applyEffective batch st change current new
      end).

(** A copied type whose last resource is gone is dropped. *)
Definition dropEmpty (cloned : gset string) (resources : gmap string resourceTypeIndex)
    : gmap string resourceTypeIndex :=
  base.filter (λ p : string * resourceTypeIndex, ¬ (p.1 ∈ cloned ∧ ti_length p.2 = 0%Z)) resources.

Definition Apply `{Codec} (s : ResourceSet) (changes : list ResourceChange)
    : result (ResourceSet * bool) :=
  if decide (changes = []) then Ok (s, false) else
  let batch := bool_decide (1 < length changes) in
  let! st := rfold (applyChange batch) changes
               (mkApply (rs_resources s) ∅ ∅ [] (rs_length s)) in
  if decide (length (as_effective st) = 0) then Ok (s, false) else
  Ok (mkSet (dropEmpty (as_cloned st) (applyPending (as_pending st) (as_resources st)))
        (incrementalVersion (rs_version s) (as_effective st)) (as_length st), true).

(** ** Differences *)

Definition typedResources (s : ResourceSet) : list (string * (string * Resource)) :=
  '(t, index) ← map_to_list (rs_resources s); pair t <$> shard_list (ti_shards index).

Definition Diff (s next : ResourceSet) : list ResourceChange :=
  isort change_le (
    omap (λ '(t, (name, current)),
      match Get next (mkKey t name) with
      | Some updated =>
          if decide (Hash updated = Hash current) then None
          else Some (mkChange (Key current) (Some current) (Some updated))
      | None => Some (mkChange (Key current) (Some current) None)
      end) (typedResources s)
    ++ omap (λ '(t, (name, resource)),
      match Get s (mkKey t name) with
      | Some _ => None
      | None => Some (mkChange (Key resource) None (Some resource))
      end) (typedResources next)).
