(* ===== verification/SetInvariant.v ===== *)
(** * SetInvariant: what a snapshot guarantees, and that every operation keeps it

    The invariant [set_ok] of snapshots, the refinement of [NewResourceSet] and
    [Apply] to updates of an abstract finite map, and the preservation of the
    postings along both. *)

From S2P Require Import Prelude Identity Resource ResourceIndex Postings ResourceSet.

(** ** The invariant *)

(** Shards hold valid resources under their own type and name, and are counted. *)
Definition shards_ok (t : string) (index : resourceTypeIndex) : Prop :=
  placed (ti_shards index)
  ∧ (∀ x r, shard_get (ti_shards index) x = Some r →
       Key r = mkKey t x ∧ validateResource r = Ok tt)
  ∧ ti_length index = Z.of_nat (length (shard_list (ti_shards index))).

(** The resource named [x] carries the entry [e]. *)
Definition carries (index : resourceTypeIndex) (e : resourceLookupEntry) (x : string) : Prop :=
  ∃ r, shard_get (ti_shards index) x = Some r ∧ e ∈ resourceLookupEntries (Some r).

(** Every posting is sorted and lists exactly the resources that carry its entry. *)
Definition postings_ok (index : resourceTypeIndex) : Prop :=
  ∀ e, entry_ok e →
    ssorted (posting index e) ∧ ∀ x, x ∈ posting index e ↔ carries index e x.

Definition resources_list (resources : gmap string resourceTypeIndex)
    : list (string * (string * Resource)) :=
  '(t, index) ← map_to_list resources; pair t <$> shard_list (ti_shards index).

Definition set_ok (s : ResourceSet) : Prop :=
  (∀ t index, rs_resources s !! t = Some index →
     shards_ok t index ∧ postings_ok index ∧ ti_length index ≠ 0%Z)
  ∧ rs_length s = Z.of_nat (length (typedResources s)).

(** ** The abstract specification: a finite map from keys to resources *)

Definition resources_get (resources : gmap string resourceTypeIndex) (key : ResourceKey)
    : option Resource :=
  match resources !! TypeURL key with
  | None => None
  | Some index => shard_get (ti_shards index) (Name key)
  end.

Definition represents (s : ResourceSet) (m : gmap ResourceKey Resource) : Prop :=
  ∀ k, Get s k = m !! k.

(** A change of the abstract map. *)
Definition specChange `{Codec} (m : gmap ResourceKey Resource) (c : ResourceChange)
    : result (gmap ResourceKey Resource) :=
  check! negb (blank (TypeURL (rc_Key c)) || blank (Name (rc_Key c)))
    else "resource change key is required" in
  let! value := changeValue (m !! rc_Key c) c in
  Ok (match value with
      | None => m
      | Some new => partial_alter (λ _, new) (rc_Key c) m
      end).

Definition specApply `{Codec} (m : gmap ResourceKey Resource) (changes : list ResourceChange)
    : result (gmap ResourceKey Resource) :=
  rfold specChange changes m.

(** Construction inserts resources with fresh keys. *)
Definition specAdd `{Codec} (m : gmap ResourceKey Resource) (r : Resource)
    : result (gmap ResourceKey Resource) :=
  let! normalized := admitResource r in
  match m !! Key normalized with
  | Some _ => Err "duplicate resource"
  | None => Ok (<[Key normalized := normalized]> m)
  end.

(** ** Counting resources *)

Lemma resources_list_split R t :
  resources_list R ≡ₚ
    (pair t <$> shard_list (ti_shards (default emptyIndex (R !! t)))) ++ resources_list (delete t R).
Proof.
  unfold resources_list. destruct (R !! t) as [index|] eqn:Ht; simpl.
  - rewrite <-(insert_delete_id R t index Ht) at 1.
    by rewrite map_to_list_insert by apply lookup_delete_eq.
  - by rewrite (delete_id R t Ht).
Qed.

Lemma resources_list_insert R t index :
  resources_list (<[t := index]> R) ≡ₚ
    (pair t <$> shard_list (ti_shards index)) ++ resources_list (delete t R).
Proof. by rewrite (resources_list_split _ t), lookup_insert_eq, delete_insert_eq. Qed.

(** The loops keep the counters equal to the number of resources. *)
Lemma resources_count R t index n (delta : Z) :
  n = Z.of_nat (length (resources_list R)) →
  Z.of_nat (length (shard_list (ti_shards index)))
  = (Z.of_nat (length (shard_list (ti_shards (default emptyIndex (R !! t))))) + delta)%Z →
  (n + delta)%Z = Z.of_nat (length (resources_list (<[t := index]> R))).
Proof.
  intros -> Hd. rewrite resources_list_insert, (resources_list_split R t).
  rewrite !length_app, !length_fmap. lia.
Qed.

(** Types with no resources do not matter. *)
Lemma resources_list_filter (P : string * resourceTypeIndex → Prop) `{!∀ p, Decision (P p)} R :
  (∀ t index, R !! t = Some index → ¬ P (t, index) → shard_list (ti_shards index) = []) →
  resources_list (base.filter P R) ≡ₚ resources_list R.
Proof.
  induction R as [|t index R Ht IH] using map_ind; intros HP; [done|].
  assert (resources_list (base.filter P R) ≡ₚ resources_list R) as IH'.
  { apply IH. intros t' i' Hi'. apply HP. rewrite lookup_insert_ne; [done|congruence]. }
  rewrite map_filter_insert. case_decide as Hp.
  - rewrite !resources_list_insert.
    rewrite !delete_id; [by rewrite IH'|done|].
    apply map_lookup_filter_None. by left.
  - rewrite resources_list_insert, !(delete_id R t) by done.
    rewrite (HP t index) by (try apply lookup_insert_eq; done). done.
Qed.

Lemma elem_of_resources_list R t x r :
  (∀ t' index, R !! t' = Some index → placed (ti_shards index)) →
  (t, (x, r)) ∈ resources_list R ↔ resources_get R (mkKey t x) = Some r.
Proof.
  intros HR. unfold resources_list, resources_get; simpl. rewrite list_elem_of_bind. split.
  - intros ([t' index] & Hin & Ht'). apply elem_of_map_to_list in Ht'.
    apply list_elem_of_fmap in Hin as ([x' r'] & [= <- <- <-] & Hin).
    rewrite Ht'. by apply elem_of_shard_list in Hin; [|eauto].
  - destruct (R !! t) as [index|] eqn:Ht; [|done]. intros Hx.
    exists (t, index). split; [|by apply elem_of_map_to_list].
    apply list_elem_of_fmap. exists (x, r). split; [done|].
    by apply elem_of_shard_list; [eauto|].
Qed.

(** ** Construction *)

Lemma admitResource_valid `{Codec} r r' :
  admitResource r = Ok r' → Key r' = Key r ∧ validateResource r' = Ok tt.
Proof.
  unfold admitResource. case_decide as Hh.
  - intros Hr. split; [by eapply normalizeResource_Key|by eapply normalizeResource_valid].
  - intros (u & Hv & [= <-])%rbind_Ok. by destruct u.
Qed.

Lemma lookupNames_append index key name k x :
  name ≠ "" →
  x ∈ lookupNames (appendLookupName index key name) k ↔
  x ∈ lookupNames index k ∨ (x = name ∧ k = key ∧ key ≠ "").
Proof.
  intros Hn. unfold appendLookupName. case_decide as Hk; [naive_solver|].
  unfold lookupNames at 1. rewrite shard_get_set.
  destruct (decide (key = k)) as [->|Hne]; simpl.
  - rewrite elem_of_app, list_elem_of_singleton. naive_solver.
  - unfold lookupNames. naive_solver.
Qed.

Lemma lookupNames_append_all index keys name k x :
  name ≠ "" →
  x ∈ lookupNames (foldl (λ i key, appendLookupName i key name) index keys) k ↔
  x ∈ lookupNames index k ∨ (x = name ∧ k ∈ keys ∧ k ≠ "").
Proof.
  intros Hn. revert index. induction keys as [|key keys IH]; intros index; simpl.
  { set_solver. }
  rewrite IH, lookupNames_append, elem_of_cons by done. intuition congruence.
Qed.

Lemma elem_of_entries r e :
  e ∈ resourceLookupEntries (Some r) ↔
  entry_key e ≠ "" ∧
  ((entry_kind e = 0%N ∧ entry_key e ∈ XDSName r :: Aliases r)
   ∨ (entry_kind e = 1%N ∧ entry_key e ∈ resourceFactKeys r)).
Proof.
  unfold resourceLookupEntries.
  rewrite elem_of_list_to_set, list_elem_of_filter, elem_of_app, !list_elem_of_fmap.
  destruct e as [kind key]; simpl. split.
  - intros [? [(k & [= -> ->] & ?)|(k & [= -> ->] & ?)]]; naive_solver.
  - intros [? [[-> ?]|[-> ?]]]; naive_solver.
Qed.

Lemma posting_indexResource index r e x :
  Name (Key r) ≠ "" → entry_ok e →
  x ∈ posting (indexResourceLookups index r) e ↔
  x ∈ posting index e ∨ (x = Name (Key r) ∧ e ∈ resourceLookupEntries (Some r)).
Proof.
  intros Hn He. rewrite elem_of_entries. unfold posting, entryIndex, indexResourceLookups.
  destruct He as [He|He]; rewrite He; simpl.
  - rewrite lookupNames_append_all, lookupNames_append, elem_of_cons by done. intuition congruence.
  - rewrite lookupNames_append_all by done. intuition congruence.
Qed.

(** Before it is finalized, a posting lists the right names in any order. *)
Definition unsorted_ok (index : resourceTypeIndex) : Prop :=
  ∀ e x, entry_ok e → x ∈ posting index e ↔ carries index e x.

Lemma emptyIndex_ok t : shards_ok t emptyIndex ∧ postings_ok emptyIndex.
Proof.
  split.
  - split_and!; [apply placed_empty|done|done].
  - intros e [He|He]; unfold posting, entryIndex, carries; rewrite He; simpl;
      (split; [constructor|]; intros x; split; [by intros ?%elem_of_nil|]; by intros (? & ? & _)).
Qed.

Lemma shards_ok_set t index x r lookup facts :
  shards_ok t index → Key r = mkKey t x → validateResource r = Ok tt →
  shards_ok t (mkIndex (shard_set (ti_shards index) x r) lookup facts
    (ti_length index
     + match shard_get (ti_shards index) x with Some _ => 0 | None => 1 end)%Z).
Proof.
  intros (Hp & Hv & Hl) Hk Hr. split_and!; simpl.
  - by apply placed_set.
  - intros x' r'. rewrite shard_get_set. case_decide; [|by apply Hv]. naive_solver.
  - rewrite Hl. destruct (shard_get (ti_shards index) x) as [r0|] eqn:Hx.
    + rewrite (length_shard_list_set _ _ _ r0) by done. lia.
    + rewrite shard_list_set_new by done. simpl. lia.
Qed.

Lemma shards_ok_delete t index x r lookup facts :
  shards_ok t index → shard_get (ti_shards index) x = Some r →
  shards_ok t (mkIndex (shard_delete (ti_shards index) x) lookup facts
    (ti_length index + -1)%Z).
Proof.
  intros (Hp & Hv & Hl) Hx. split_and!; simpl.
  - by apply placed_delete.
  - intros x' r'. rewrite shard_get_delete. case_decide; [done|]. by apply Hv.
  - rewrite Hl, (length_shard_list_delete _ _ _ Hx). lia.
Qed.

Definition building_ok (s : ResourceSet) : Prop :=
  (∀ t index, rs_resources s !! t = Some index →
     shards_ok t index ∧ unsorted_ok index ∧ ti_length index ≠ 0%Z)
  ∧ rs_length s = Z.of_nat (length (resources_list (rs_resources s))).

Lemma addResource_step `{Codec} s m r :
  building_ok s → represents s m →
  match addResource s r with
  | Err e => specAdd m r = Err e
  | Ok s' => ∃ m', specAdd m r = Ok m' ∧ building_ok s' ∧ represents s' m'
  end.
Proof.
  intros [Hs Hlen] Hm. unfold addResource, specAdd.
  destruct (admitResource r) as [n|] eqn:Hn; simpl; [|done].
  apply admitResource_valid in Hn as [_ Hv].
  destruct (Key n) as [t x] eqn:Hkey; simpl.
  pose proof (Hm (mkKey t x)) as Hg. unfold Get in Hg; simpl in Hg.
  set (index := default emptyIndex (rs_resources s !! t)).
  assert (shard_get (ti_shards index) x = m !! mkKey t x) as Hx.
  { rewrite <-Hg. unfold index. by destruct (rs_resources s !! t). }
  rewrite Hx. destruct (m !! mkKey t x) eqn:Hmx; [done|].
  assert (shards_ok t index ∧ unsorted_ok index) as [Hsh Hun].
  { unfold index. destruct (rs_resources s !! t) eqn:Ht; simpl.
    { by destruct (Hs _ _ Ht) as (? & ? & _). }
    destruct (emptyIndex_ok t) as [? He]. split; [done|]. intros e y He'. by apply He. }
  set (index' := mkIndex _ _ _ (_ + 1)).
  assert (shards_ok t index') as Hsh'.
  { pose proof (shards_ok_set t index x n (ti_lookup index') (ti_facts index') Hsh Hkey Hv) as Hok.
    rewrite Hx in Hok. exact Hok. }
  assert (x ≠ "") as Hxn.
  { apply validateResource_name in Hv as [Hb _]. rewrite Hkey in Hb.
    by apply blank_false_nonempty. }
  eexists. split; [done|]. split; [split|]; simpl.
  - intros t' i' [[<- <-]|[Ht' Hi']]%lookup_insert_Some; [|by apply Hs].
    split_and!; [done| |].
    + intros e y He.
      assert (posting index' e = posting (indexResourceLookups index n) e) as ->.
      { unfold posting, entryIndex, indexResourceLookups, index'; simpl. by rewrite Hkey. }
      rewrite posting_indexResource by (rewrite ?Hkey; done).
      rewrite (Hun e y He). unfold carries; simpl. rewrite Hkey; simpl.
      setoid_rewrite shard_get_set. destruct (decide (x = y)) as [<-|Hne].
      * rewrite Hx. split; [intros [(? & ? & ?)|[_ ?]]; [done|eauto]|].
        intros (? & [= <-] & ?). auto.
      * split; [intros [?|[-> _]]; done|by left].
    + destruct Hsh as (_ & _ & Hl). simpl. rewrite Hl. lia.
  - eapply resources_count; [done|]. change (ti_shards index') with (shard_set (ti_shards index) x n).
    fold index. rewrite shard_list_set_new by done. simpl. lia.
  - intros [t' x']. unfold Get; simpl. destruct (decide (t = t')) as [<-|Hne].
    + rewrite lookup_insert_eq. simpl. rewrite shard_get_set.
      destruct (decide (x = x')) as [<-|Hxx].
      * by rewrite lookup_insert_eq.
      * rewrite lookup_insert_ne by congruence. rewrite <-Hm. unfold Get, index; simpl.
        by destruct (rs_resources s !! t).
    + rewrite !lookup_insert_ne by congruence. by rewrite <-Hm.
Qed.

Lemma posting_finalize index e :
  posting (finalizeIndex index) e = sorted_unique (posting index e).
Proof.
  assert (∀ m k, lookupNames (finalizeLookupIndex m) k = sorted_unique (lookupNames m k)) as Hf.
  { intros m k. unfold lookupNames, shard_get, shard_at, finalizeLookupIndex.
    rewrite lookup_fmap. destruct (m !! resourceShard k) as [sh|]; simpl; [|done].
    rewrite lookup_fmap. by destruct (sh !! k). }
  unfold posting, entryIndex, finalizeIndex; simpl. case_decide; apply Hf.
Qed.

(** The list of resources only depends on the shards. *)
Lemma resources_list_shards R R' :
  ti_shards <$> R = ti_shards <$> R' → resources_list R = resources_list R'.
Proof.
  assert (∀ R, resources_list R
    = '(t, sh) ← map_to_list (ti_shards <$> R); pair t <$> shard_list sh) as Hl.
  { intros R0. unfold resources_list. rewrite map_to_list_fmap, list_fmap_bind.
    apply list_bind_ext; [|done]. by intros [? ?]. }
  intros HR. by rewrite !Hl, HR.
Qed.

(** [NewResourceSet] succeeds exactly when the abstract construction does, with a
    well-formed snapshot that represents its result. *)
Lemma NewResourceSet_refines `{Codec} resources :
  match NewResourceSet resources with
  | Err e => rfold specAdd resources ∅ = Err e
  | Ok s => ∃ m, rfold specAdd resources ∅ = Ok m ∧ set_ok s ∧ represents s m
  end.
Proof.
  assert (∀ s m, building_ok s → represents s m →
    match rfold addResource resources s with
    | Err e => rfold specAdd resources m = Err e
    | Ok s' => ∃ m', rfold specAdd resources m = Ok m' ∧ building_ok s' ∧ represents s' m'
    end) as Hloop.
  { induction resources as [|r rs IH]; intros s m Hs Hm; simpl; [eauto|].
    pose proof (addResource_step s m r Hs Hm) as Hstep.
    destruct (addResource s r) as [s'|e]; simpl; [|by rewrite Hstep].
    destruct Hstep as (m' & -> & Hs' & Hm'). simpl. by apply IH. }
  unfold NewResourceSet. specialize (Hloop emptySet ∅).
  destruct (rfold addResource resources emptySet) as [s|e]; simpl; last first.
  { by apply Hloop. }
  destruct Hloop as (m & Hm & [Hs Hlen] & Hrep); [done|done|].
  exists m. split; [done|]. split; [split|]; simpl.
  - intros t index. rewrite lookup_fmap, fmap_Some. intros (i & Hi & ->).
    destruct (Hs t i Hi) as (Hsh & Hun & Hne). split_and!; [exact Hsh| |done].
    intros e He. rewrite posting_finalize. split; [apply sorted_unique_ssorted|].
    intros x. rewrite elem_of_sorted_unique. exact (Hun e x He).
  - rewrite Hlen. change (typedResources _) with (resources_list (finalizeIndex <$> rs_resources s)).
    f_equal. f_equal. apply resources_list_shards.
    apply map_eq. intros t. rewrite !lookup_fmap. by destruct (rs_resources s !! t).
  - intros k. rewrite <-(Hrep k). unfold Get; simpl. rewrite lookup_fmap.
    by destruct (rs_resources s !! TypeURL k).
Qed.

(** ** Updates leave the shards to the caller *)

(** The postings are maintained without touching the shards, and pending entries are
    entries of resources. *)
Definition diff_frame (st st' : resourceTypeIndex * lookupPending) : Prop :=
  ti_shards st'.1 = ti_shards st.1 ∧ ti_length st'.1 = ti_length st.1
  ∧ ∀ t e cs, st'.2 !! (t, e) = Some cs → entry_ok e ∨ is_Some (st.2 !! (t, e)).

Lemma diff_frame_trans st1 st2 st3 :
  diff_frame st1 st2 → diff_frame st2 st3 → diff_frame st1 st3.
Proof.
  intros (H1 & H2 & H3) (H4 & H5 & H6). split_and!; [congruence..|].
  intros t e cs Hcs. destruct (H6 _ _ _ Hcs) as [?|[? ?]]; eauto.
Qed.

Lemma recordMembership_frame batch t name add st e :
  entry_ok e → diff_frame st (recordMembership batch t name add st e).
Proof.
  destruct st as [index pending]. intros He. unfold recordMembership.
  assert (∀ l, ti_shards (storeLookupShard index e l) = ti_shards index
               ∧ ti_length (storeLookupShard index e l) = ti_length index) as Hst.
  { intros l. unfold storeLookupShard, setEntryIndex. by case_decide. }
  destruct (batch && _); (split_and!; simpl; [apply Hst..|]); intros t' e' cs.
  - rewrite lookup_insert. case_decide as Heq; [naive_solver|eauto].
  - eauto.
Qed.

Lemma recordMemberships_frame batch t name add es st :
  Forall entry_ok es → diff_frame st (foldl (recordMembership batch t name add) st es).
Proof.
  revert st. induction es as [|e es IH]; intros st Hes; simpl.
  { split_and!; [done..|]. eauto. }
  apply Forall_cons in Hes as [He Hes].
  eapply diff_frame_trans; [by apply recordMembership_frame|by apply IH].
Qed.

Lemma updateResourceLookupDiff_frame batch t old new st :
  diff_frame st (updateResourceLookupDiff batch t old new st).
Proof.
  unfold updateResourceLookupDiff.
  eapply diff_frame_trans; apply recordMemberships_frame; apply Forall_forall;
    intros e; rewrite elem_of_elements, elem_of_difference; intros [He _]; by eapply entries_ok.
Qed.

Lemma applyPending_frame pending R t :
  match R !! t with
  | None => applyPending pending R !! t = None
  | Some index => ∃ index', applyPending pending R !! t = Some index'
      ∧ ti_shards index' = ti_shards index ∧ ti_length index' = ti_length index
  end.
Proof.
  unfold applyPending. generalize (map_to_list pending). intros l. revert R.
  induction l as [|[[t1 e1] cs] l IH]; intros R; cbn [foldl].
  { destruct (R !! t); eauto. }
  specialize (IH (applyPendingEntry R (t1, e1, cs))).
  set (R1 := applyPendingEntry R (t1, e1, cs)) in *.
  assert (match R !! t with
          | None => R1 !! t = None
          | Some i => ∃ i', R1 !! t = Some i'
              ∧ ti_shards i' = ti_shards i ∧ ti_length i' = ti_length i
          end) as HR1.
  { unfold R1, applyPendingEntry.
    destruct (R !! t1) as [i1|] eqn:Ht1; [|by destruct (R !! t); eauto].
    rewrite lookup_insert. destruct (decide (t1 = t)) as [<-|Hne].
    - rewrite Ht1. eexists. split; [done|]. unfold storeLookupShard, setEntryIndex. by case_decide.
    - destruct (R !! t); eauto. }
  destruct (R !! t) as [i|]; [|by rewrite HR1 in IH].
  destruct HR1 as (i' & Hi' & Hs & Hl). rewrite Hi' in IH.
  destruct IH as (i'' & Hi'' & Hs' & Hl'). exists i''. split_and!; [done|congruence..].
Qed.

(** ** [Apply] refines the abstract update *)

Definition loop_ok (st : applyState) : Prop :=
  (∀ t index, as_resources st !! t = Some index →
     shards_ok t index ∧ (ti_length index = 0%Z → t ∈ as_cloned st))
  ∧ as_length st = Z.of_nat (length (resources_list (as_resources st))).

Lemma resources_get_default R t x :
  resources_get R (mkKey t x) = shard_get (ti_shards (default emptyIndex (R !! t))) x.
Proof. unfold resources_get; simpl. by destruct (R !! t). Qed.

Lemma changeValue_valid `{Codec} current c r :
  changeValue current c = Ok (Some (Some r)) → Key r = rc_Key c ∧ validateResource r = Ok tt.
Proof.
  unfold changeValue. destruct (rc_New c) as [new|]; [|by destruct current].
  unfold normalizeChangedResource. intros (n & Hn & Heq)%rbind_Ok.
  apply check_Ok in Hn as [Hk%bool_decide_eq_true Ha].
  assert (n = r) as -> by (destruct current; [case_decide|]; naive_solver).
  apply admitResource_valid in Ha as [? ?]. split; congruence.
Qed.

Lemma changeValue_delete `{Codec} current c :
  changeValue current c = Ok (Some None) → is_Some current.
Proof.
  unfold changeValue. destruct (rc_New c) as [new|]; [|destruct current; naive_solver].
  intros (n & _ & Heq)%rbind_Ok. destruct current; eauto. naive_solver.
Qed.

(** The index [applyEffective] stores for the changed type. *)
Lemma applyEffective_index batch st c current new :
  let t := TypeURL (rc_Key c) in
  let index := default emptyIndex (as_resources st !! t) in
  let '(index', pending') := updateResourceLookupDiff batch t
    (match current with Some r => Some r | None => rc_Old c end) new (index, as_pending st) in
  as_resources (applyEffective batch st c current new)
  = <[t := match new with
           | Some r => mkIndex (shard_set (ti_shards index) (Name (rc_Key c)) r)
               (ti_lookup index') (ti_facts index')
               (ti_length index + match current with Some _ => 0 | None => 1 end)
           | None => mkIndex (shard_delete (ti_shards index) (Name (rc_Key c)))
               (ti_lookup index') (ti_facts index') (ti_length index + -1)
           end%Z]> (as_resources st)
  ∧ as_pending (applyEffective batch st c current new) = pending'.
Proof.
  cbv zeta. unfold applyEffective.
  set (index := default emptyIndex (as_resources st !! TypeURL (rc_Key c))).
  set (o := match current with Some r => Some r | None => rc_Old c end).
  pose proof (updateResourceLookupDiff_frame batch (TypeURL (rc_Key c)) o new
    (index, as_pending st)) as (Hs & Hl & _).
  destruct (updateResourceLookupDiff _ _ _ _ _) as [index' pending'] eqn:Hu.
  simpl in Hs, Hl. destruct new as [r|]; simpl; rewrite Hs, Hl; done.
Qed.

Lemma applyEffective_step `{Codec} batch st (m : gmap ResourceKey Resource) c new :
  loop_ok st → (∀ k, resources_get (as_resources st) k = m !! k) →
  changeValue (m !! rc_Key c) c = Ok (Some new) →
  let st' := applyEffective batch st c (m !! rc_Key c) new in
  loop_ok st'
  ∧ (∀ k, resources_get (as_resources st') k = partial_alter (λ _, new) (rc_Key c) m !! k).
Proof.
  intros [Hok Hlen] Hm Hv. cbv zeta.
  pose proof (applyEffective_index batch st c (m !! rc_Key c) new) as Hi. cbv zeta in Hi.
  destruct (updateResourceLookupDiff _ _ _ _ _) as [index' pending']. destruct Hi as [Hi _].
  destruct c as [[t x] old rnew]; simpl in *.
  set (index := default emptyIndex (as_resources st !! t)) in *.
  assert (shards_ok t index) as Hsh.
  { unfold index. destruct (as_resources st !! t) eqn:Ht; simpl.
    - by apply Hok. - apply emptyIndex_ok. }
  pose proof (Hm (mkKey t x)) as Hg. rewrite resources_get_default in Hg. fold index in Hg.
  set (index'' := match new with Some _ => _ | None => _ end) in Hi.
  assert (shards_ok t index'' ∧ ∀ y, shard_get (ti_shards index'') y
    = if decide (x = y) then new else shard_get (ti_shards index) y) as [Hsh'' Hget].
  { unfold index''. destruct new as [r|].
    - apply changeValue_valid in Hv as [? ?]. split; [|intros y; apply shard_get_set].
      rewrite <-Hg. by apply shards_ok_set.
    - apply changeValue_delete in Hv as [r Hr]. split; [|intros y; apply shard_get_delete].
      eapply shards_ok_delete; [done|]. by rewrite Hg. }
  split; [split|].
  - rewrite Hi. intros t' i' [[<- <-]|[Ht' Hi']]%lookup_insert_Some.
    + split; [done|]. intros _. unfold applyEffective.
      destruct (updateResourceLookupDiff _ _ _ _ _), new; simpl; set_solver.
    + destruct (Hok _ _ Hi') as [? Hc]. split; [done|]. intros Hz. specialize (Hc Hz).
      unfold applyEffective.
      destruct (updateResourceLookupDiff _ _ _ _ _), new; simpl; set_solver.
  - rewrite Hi. assert (∃ d, as_length (applyEffective batch st
        (mkChange (mkKey t x) old rnew) (m !! mkKey t x) new) = (as_length st + d)%Z
      ∧ ti_length index'' = (ti_length index + d)%Z) as (d & -> & Hd).
    { unfold applyEffective, index''. destruct (updateResourceLookupDiff _ _ _ _ _), new; simpl; eauto. }
    eapply resources_count; [exact Hlen|]. fold index.
    destruct Hsh as (_ & _ & <-). destruct Hsh'' as (_ & _ & <-). exact Hd.
  - intros [t' x']. rewrite Hi, resources_get_default, lookup_partial_alter.
    destruct (decide (t = t')) as [<-|Hne].
    + rewrite lookup_insert_eq. simpl. rewrite Hget.
      destruct (decide (x = x')) as [<-|Hxx]; [by rewrite decide_True|].
      rewrite decide_False by congruence. rewrite <-Hm, resources_get_default. done.
    + rewrite lookup_insert_ne by done. rewrite decide_False by congruence.
      by rewrite <-Hm, resources_get_default.
Qed.

Lemma applyChange_step `{Codec} batch st (m : gmap ResourceKey Resource) c :
  loop_ok st → (∀ k, resources_get (as_resources st) k = m !! k) →
  applyChange batch st c =
    (check! negb (blank (TypeURL (rc_Key c)) || blank (Name (rc_Key c)))
       else "resource change key is required" in
     let! value := changeValue (m !! rc_Key c) c in
     Ok (match value with
         | None => st
         | Some new => applyEffective batch st c (m !! rc_Key c) new
         end))
  ∧ match applyChange batch st c with
    | Err e => specChange m c = Err e
    | Ok st' => ∃ m', specChange m c = Ok m' ∧ loop_ok st'
        ∧ (∀ k, resources_get (as_resources st') k = m' !! k)
    end.
Proof.
  intros Hok Hm. unfold applyChange, specChange.
  change (match as_resources st !! _ with Some _ => _ | None => None end)
    with (resources_get (as_resources st) (rc_Key c)). rewrite Hm.
  split; [done|]. destruct (guard_ok _ _); simpl; [|done].
  destruct (changeValue (m !! rc_Key c) c) as [[new|]|e] eqn:Hv; simpl; [|eauto|done].
  destruct (applyEffective_step batch st m c new Hok Hm Hv). eauto.
Qed.

Lemma applyLoop_refines `{Codec} batch changes st (m : gmap ResourceKey Resource) :
  loop_ok st → (∀ k, resources_get (as_resources st) k = m !! k) →
  match rfold (applyChange batch) changes st with
  | Err e => specApply m changes = Err e
  | Ok st' => ∃ m', specApply m changes = Ok m' ∧ loop_ok st'
      ∧ (∀ k, resources_get (as_resources st') k = m' !! k)
  end.
Proof.
  unfold specApply. revert st m. induction changes as [|c cs IH]; intros st m Hok Hm; simpl; [eauto|].
  destruct (applyChange_step batch st m c Hok Hm) as [_ Hstep].
  destruct (applyChange batch st c) as [st'|e]; simpl; [|by rewrite Hstep].
  destruct Hstep as (m' & -> & Hok' & Hm'). simpl. by apply IH.
Qed.

(** Without effective changes the state is the initial one. *)
Lemma applyChange_effective `{Codec} batch st c st' :
  applyChange batch st c = Ok st' →
  st' = st ∨ length (as_effective st') = S (length (as_effective st)).
Proof.
  unfold applyChange. intros (_ & _ & H2)%rbind_Ok.
  apply rbind_Ok in H2 as ([new|] & _ & [= <-]); [right|by left].
  unfold applyEffective.
  destruct (updateResourceLookupDiff _ _ _ _ _), new; simpl; rewrite length_app; simpl; lia.
Qed.

Lemma applyLoop_no_effect `{Codec} batch changes st st' :
  rfold (applyChange batch) changes st = Ok st' →
  length (as_effective st) ≤ length (as_effective st')
  ∧ (length (as_effective st') = length (as_effective st) → st' = st).
Proof.
  revert st. induction changes as [|c cs IH]; intros st; simpl; [by intros [= <-]|].
  intros (st1 & H1 & H2)%rbind_Ok. apply IH in H2 as [Hle Heq].
  apply applyChange_effective in H1 as [->|H1]; [by split|]. split; [lia|]. intros. lia.
Qed.

Lemma dropEmpty_lookup cloned R t :
  dropEmpty cloned R !! t
  = match R !! t with
    | Some index => if decide (t ∈ cloned ∧ ti_length index = 0%Z) then None else Some index
    | None => None
    end.
Proof.
  unfold dropEmpty. destruct (R !! t) as [index|] eqn:Ht.
  - case_decide as Hc.
    + apply map_lookup_filter_None. right. intros i Hi. simplify_eq. simpl. tauto.
    + apply map_lookup_filter_Some. by split.
  - apply map_lookup_filter_None. by left.
Qed.

(** The part of the invariant that does not concern postings. *)
Definition shape_ok (s : ResourceSet) : Prop :=
  (∀ t index, rs_resources s !! t = Some index → shards_ok t index ∧ ti_length index ≠ 0%Z)
  ∧ rs_length s = Z.of_nat (length (typedResources s)).

Lemma set_ok_shape s :
  set_ok s ↔ shape_ok s ∧ ∀ t index, rs_resources s !! t = Some index → postings_ok index.
Proof.
  unfold set_ok, shape_ok. split.
  - intros [Hs Hl]. split_and!; [|done|]; intros t index Hi; by destruct (Hs t index Hi) as (?&?&?).
  - intros [[Hs Hl] Hp]. split; [|done]. intros t index Hi. destruct (Hs t index Hi). eauto.
Qed.

Lemma set_ok_shape_ok s : set_ok s → shape_ok s.
Proof. intros Hs. exact (proj1 (proj1 (set_ok_shape s) Hs)). Qed.

Lemma loop_ok_initial s :
  shape_ok s → loop_ok (mkApply (rs_resources s) ∅ ∅ [] (rs_length s)).
Proof.
  intros [Hs Hl]. split; [|done]. intros t index Hi. destruct (Hs t index Hi). split; [done|].
  intros; done.
Qed.

Lemma shards_list_nil t index :
  shards_ok t index → ti_length index = 0%Z → shard_list (ti_shards index) = [].
Proof. intros (_ & _ & ->) Hz. apply length_zero_iff_nil. lia. Qed.

(** The snapshot assembled after the loop. *)
Lemma applyResult_shape (st : applyState) (m : gmap ResourceKey Resource) version :
  loop_ok st → (∀ k, resources_get (as_resources st) k = m !! k) →
  let s' := mkSet (dropEmpty (as_cloned st) (applyPending (as_pending st) (as_resources st)))
              version (as_length st) in
  shape_ok s' ∧ represents s' m.
Proof.
  intros [Hok Hlen] Hm. cbv zeta.
  set (R := applyPending (as_pending st) (as_resources st)).
  assert (∀ t index', R !! t = Some index' → ∃ index, as_resources st !! t = Some index
    ∧ ti_shards index' = ti_shards index ∧ ti_length index' = ti_length index) as HR.
  { intros t index' Hi'. pose proof (applyPending_frame (as_pending st) (as_resources st) t) as Hf.
    fold R in Hf. destruct (as_resources st !! t) as [index|]; [|congruence].
    destruct Hf as (i & Hi & ? & ?). exists index. split_and!; congruence. }
  assert (∀ t index', R !! t = Some index' → shards_ok t index'
    ∧ (ti_length index' = 0%Z → t ∈ as_cloned st)) as HRok.
  { intros t index' Hi'. destruct (HR t index' Hi') as (index & Hi & Hs & Hl).
    destruct (Hok t index Hi) as [Hsh Hc]. unfold shards_ok. rewrite Hs, Hl. done. }
  split; [split|]; simpl.
  - intros t index. rewrite dropEmpty_lookup. destruct (R !! t) as [i|] eqn:Hi; [|done].
    case_decide as Hc; [done|]. intros [= <-]. destruct (HRok t i Hi) as [? ?].
    split; [done|]. tauto.
  - rewrite Hlen. change (typedResources _) with (resources_list (dropEmpty (as_cloned st) R)).
    unfold dropEmpty. rewrite resources_list_filter; last first.
    { intros t i Hi Hn. simpl in Hn. apply dec_stable in Hn as [_ Hz].
      eapply shards_list_nil; [by apply HRok|done]. }
    f_equal. f_equal. apply resources_list_shards. apply map_eq. intros t.
    rewrite !lookup_fmap.
    pose proof (applyPending_frame (as_pending st) (as_resources st) t) as Hf. fold R in Hf.
    destruct (as_resources st !! t) as [i|]; simpl; [|by rewrite Hf].
    destruct Hf as (i' & -> & <- & _). done.
  - intros [t x]. rewrite <-(Hm (mkKey t x)). unfold Get, resources_get; simpl.
    rewrite dropEmpty_lookup.
    pose proof (applyPending_frame (as_pending st) (as_resources st) t) as Hf. fold R in Hf.
    destruct (as_resources st !! t) as [i|] eqn:Hi; [|by rewrite Hf].
    destruct Hf as (i' & Hi' & Hs & Hl). rewrite Hi'.
    case_decide as Hc; [|by rewrite Hs].
    destruct (Hok t i Hi) as [Hsh _]. destruct Hc as [_ Hz].
    destruct (shard_get (ti_shards i) x) as [r|] eqn:Hx; [|done].
    apply elem_of_shard_list in Hx; [|apply Hsh].
    rewrite Hl in Hz. rewrite (shards_list_nil t i Hsh Hz) in Hx. by apply elem_of_nil in Hx.
Qed.

(** [Apply] succeeds exactly when the abstract update does, and its snapshot
    represents the result. *)
Lemma Apply_refines `{Codec} s changes (m : gmap ResourceKey Resource) :
  shape_ok s → represents s m →
  match Apply s changes with
  | Err e => specApply m changes = Err e
  | Ok (s', changed) => ∃ m', specApply m changes = Ok m' ∧ shape_ok s' ∧ represents s' m'
      ∧ (changed = false → s' = s)
  end.
Proof.
  intros Hs Hm. unfold Apply. case_decide as Hnil; [subst; simpl; eauto|].
  set (batch := bool_decide _). set (st0 := mkApply _ _ _ _ _).
  pose proof (applyLoop_refines batch changes st0 m (loop_ok_initial s Hs) Hm) as Hl.
  destruct (rfold (applyChange batch) changes st0) as [st|e] eqn:Hst; simpl; [|done].
  destruct Hl as (m' & Hm' & Hok & Hrep).
  destruct (decide (length (as_effective st) = 0)) as [Hz|Hz]; exists m'; (split; [done|]).
  - apply applyLoop_no_effect in Hst as [_ Hst]. rewrite (Hst Hz) in Hrep. done.
  - destruct (applyResult_shape st m' (incrementalVersion (rs_version s) (as_effective st)) Hok Hrep).
    done.
Qed.

(** ** [Apply] keeps the postings *)

Definition loop_postings (batch : bool) (st : applyState) : Prop :=
  (∀ t, let index := default emptyIndex (as_resources st !! t) in
     state_ok batch t (index, as_pending st)
     ∧ ∀ e x, entry_ok e → state_view t (index, as_pending st) e x ↔ carries index e x)
  ∧ ∀ t e cs, as_pending st !! (t, e) = Some cs → entry_ok e.

Lemma carries_spec index e x :
  carries index e x ↔ e ∈ resourceLookupEntries (shard_get (ti_shards index) x).
Proof.
  unfold carries. destruct (shard_get _ _) as [r|]; [naive_solver|].
  split; [by intros (? & ? & _)|set_solver].
Qed.

Lemma state_view_other t st st' e x :
  posting st'.1 e = posting st.1 e → st'.2 !! (t, e) = st.2 !! (t, e) →
  state_view t st' e x ↔ state_view t st e x.
Proof. unfold state_view. by intros -> ->. Qed.

Lemma applyEffective_postings `{Codec} batch st (m : gmap ResourceKey Resource) c new :
  loop_ok st → (∀ k, resources_get (as_resources st) k = m !! k) →
  changeValue (m !! rc_Key c) c = Ok (Some new) →
  (m !! rc_Key c = None → rc_Old c = None) →
  loop_postings batch st →
  loop_postings batch (applyEffective batch st c (m !! rc_Key c) new).
Proof.
  intros [Hok _] Hm Hv Hacc [Hpost Hkeys].
  pose proof (applyEffective_index batch st c (m !! rc_Key c) new) as Hi. cbv zeta in Hi.
  assert (match m !! rc_Key c with Some r => Some r | None => rc_Old c end = m !! rc_Key c)
    as Hold by (destruct (m !! rc_Key c); auto).
  rewrite Hold in Hi.
  destruct c as [[t x] old rnew]; simpl in *. clear Hacc.
  destruct (Hpost t) as [Hst Hview].
  set (index := default emptyIndex (as_resources st !! t)) in *.
  pose proof (Hm (mkKey t x)) as Hg. rewrite resources_get_default in Hg. fold index in Hg.
  destruct (updateResourceLookupDiff_spec batch t (m !! mkKey t x) new x (index, as_pending st))
    as (Hst' & Hview' & _ & _ & Hother); [done|..].
  { intros r ->. apply changeValue_valid in Hv as [-> _]. done. }
  { intros r Hr. rewrite Hr in Hg. unfold index in Hg.
    destruct (as_resources st !! t) as [i|] eqn:Hti; [|done].
    destruct (Hok t i Hti) as [(_ & Hk & _) _]. destruct (Hk x r Hg) as [-> _]. done. }
  { destruct new; [by right|]. apply changeValue_delete in Hv as [? ->]. by left. }
  { intros e He. by rewrite (Hview e x He), carries_spec, Hg. }
  pose proof (updateResourceLookupDiff_frame batch t (m !! mkKey t x) new (index, as_pending st))
    as (_ & _ & Hpk).
  destruct (updateResourceLookupDiff _ _ _ _ _) as [index' pending']. simpl in *.
  destruct Hi as [Hi Hp]. unfold loop_postings. rewrite Hi, Hp.
  set (index'' := match new with Some _ => _ | None => _ end).
  assert (∀ e, posting index'' e = posting index' e) as Hpp.
  { intros e. unfold posting, entryIndex, index''. by destruct new. }
  assert (∀ y, shard_get (ti_shards index'') y
    = if decide (x = y) then new else shard_get (ti_shards index) y) as Hget.
  { intros y. unfold index''. destruct new; [apply shard_get_set|apply shard_get_delete]. }
  split; last first.
  { intros t' e cs Hcs. destruct (Hpk _ _ _ Hcs) as [?|[? ?]]; eauto. }
  intros t'. destruct (decide (t = t')) as [<-|Hne].
  - rewrite lookup_insert_eq; simpl. split.
    + intros e He. simpl. rewrite Hpp. by apply Hst'.
    + intros e y He. rewrite (state_view_other t (index', pending')) by (simpl; done).
      rewrite Hview' by done. rewrite carries_spec, Hget.
      destruct (decide (x = y)) as [<-|]; [by rewrite decide_True|].
      rewrite decide_False by done. by rewrite Hview, carries_spec.
  - rewrite lookup_insert_ne by done. destruct (Hpost t') as [Hst1 Hview1]. split.
    + intros e He. simpl. rewrite Hother by done. by apply Hst1.
    + intros e y He. rewrite <-(Hview1 e y He). apply state_view_other; simpl; [done|].
      by apply Hother.
Qed.

(** A change that carries an old value names a published key, or deletes. [present]
    holds the keys published before the change. *)
Fixpoint old_accurate (present : gset ResourceKey) (changes : list ResourceChange) : Prop :=
  match changes with
  | [] => True
  | c :: changes =>
      (rc_New c = None ∨ rc_Old c = None ∨ rc_Key c ∈ present)
      ∧ old_accurate (match rc_New c with
                      | Some _ => {[rc_Key c]} ∪ present
                      | None => present ∖ {[rc_Key c]}
                      end) changes
  end.

Lemma specChange_dom `{Codec} m c m' :
  specChange m c = Ok m' →
  dom m' = match rc_New c with
           | Some _ => {[rc_Key c]} ∪ dom m
           | None => dom m ∖ {[rc_Key c]}
           end.
Proof.
  unfold specChange. intros (_ & _ & H2)%rbind_Ok.
  apply rbind_Ok in H2 as (v & Hv & [= <-]). unfold changeValue in Hv.
  destruct (rc_New c) as [new|].
  - apply rbind_Ok in Hv as (n & Hn & [= <-]).
    assert (dom (partial_alter (λ _, Some n) (rc_Key c) m) = {[rc_Key c]} ∪ dom m) as Hd
      by exact (dom_insert_L m (rc_Key c) n).
    destruct (m !! rc_Key c) as [r|] eqn:Hr.
    + assert (rc_Key c ∈ dom m) by (apply elem_of_dom; eauto).
      case_decide; [set_solver|done].
    + done.
  - injection Hv as <-. destruct (m !! rc_Key c) as [r|] eqn:Hr.
    + exact (dom_delete_L m (rc_Key c)).
    + apply not_elem_of_dom in Hr. set_solver.
Qed.

Lemma applyLoop_postings `{Codec} batch changes st (m : gmap ResourceKey Resource) st' :
  loop_ok st → (∀ k, resources_get (as_resources st) k = m !! k) →
  loop_postings batch st → old_accurate (dom m) changes →
  rfold (applyChange batch) changes st = Ok st' → loop_postings batch st'.
Proof.
  revert st m. induction changes as [|c cs IH]; intros st m Hok Hm Hp; simpl.
  { by intros _ [= <-]. }
  intros [Hc Hacc] (st1 & Hst1 & Hrest)%rbind_Ok.
  destruct (applyChange_step batch st m c Hok Hm) as [Heq Hstep]. rewrite Hst1 in Hstep.
  destruct Hstep as (m1 & Hm1 & Hok1 & Hget1).
  eapply (IH st1 m1); [done|done| |by rewrite (specChange_dom _ _ _ Hm1)|done].
  rewrite Hst1 in Heq. symmetry in Heq.
  apply check_Ok in Heq as [_ Heq]. apply rbind_Ok in Heq as ([new|] & Hv & [= <-]); [|done].
  apply applyEffective_postings; [done..| |done].
  intros Hnone. destruct Hc as [Hc|[?|Hin]]; [|done|].
  - rewrite Hnone in Hv. unfold changeValue in Hv. by rewrite Hc in Hv.
  - apply elem_of_dom in Hin as [? ?]. congruence.
Qed.

Lemma loop_postings_initial batch s :
  set_ok s → loop_postings batch (mkApply (rs_resources s) ∅ ∅ [] (rs_length s)).
Proof.
  intros [Hs _]. split; simpl; [|by intros t e cs; rewrite lookup_empty].
  intros t. assert (postings_ok (default emptyIndex (rs_resources s !! t))) as Hp.
  { destruct (rs_resources s !! t) as [i|] eqn:Hi; simpl; [by apply (Hs t i)|].
    by apply (emptyIndex_ok t). }
  split.
  - intros e He. simpl. rewrite lookup_empty. by split; [apply Hp|].
  - intros e x He. unfold state_view; simpl. rewrite lookup_empty; simpl.
    rewrite decided_nil. by apply Hp.
Qed.

Lemma Apply_preserves `{Codec} s changes (m : gmap ResourceKey Resource) s' changed :
  set_ok s → represents s m → old_accurate (dom m) changes →
  Apply s changes = Ok (s', changed) → set_ok s'.
Proof.
  intros Hs Hm Hacc Happ. pose proof (proj1 (set_ok_shape s) Hs) as [Hshape _].
  pose proof (Apply_refines s changes m Hshape Hm) as Href. rewrite Happ in Href.
  destruct Href as (m' & _ & Hshape' & _ & Hsame).
  destruct changed; [|by rewrite (Hsame eq_refl)].
  apply set_ok_shape. split; [done|]. clear Hsame Hshape'.
  unfold Apply in Happ. case_decide as Hnil; [done|].
  apply rbind_Ok in Happ as (st & Hst & Happ). case_decide as Hz; [done|].
  injection Happ as <-. simpl.
  eapply applyLoop_postings in Hst as [Hp Hk];
    [|by apply loop_ok_initial|exact Hm|by apply loop_postings_initial|done].
  intros t index. rewrite dropEmpty_lookup.
  destruct (as_resources st !! t) as [i|] eqn:Hi; last first.
  { by rewrite applyPending_None. }
  destruct (Hp t) as [Hok Hview]. rewrite Hi in Hok, Hview; simpl in Hok, Hview.
  destruct (applyPending_spec (as_pending st) (as_resources st) t i Hk Hi)
    as (i' & -> & Hsh & _ & Hmoved).
  { intros e He. by apply Hok. }
  destruct (decide (t ∈ as_cloned st ∧ ti_length i' = 0%Z)); [done|]. intros [= <-] e He. destruct (Hmoved e He) as [? Hel]. split; [done|].
  intros x. rewrite Hel, carries_spec, Hsh, <-carries_spec. by apply Hview.
Qed.
