(* ===== verification/SetQueries.v ===== *)
(** * SetQueries: what the lookups of a well-formed snapshot return

    Soundness and completeness of the indexed queries against the contents of the
    snapshot, and their invariance under the equivalence of snapshots with the same
    contents. *)

From S2P Require Import Prelude Identity Resource ResourceIndex Postings ResourceSet SetInvariant.

(** ** Resolving names *)

Definition contains (s : ResourceSet) (t : string) (r : Resource) : Prop :=
  TypeURL (Key r) = t ∧ Get s (Key r) = Some r.

Lemma Get_Key s k r : shape_ok s → Get s k = Some r → Key r = k.
Proof.
  intros [Hs _]. unfold Get. destruct (rs_resources s !! TypeURL k) as [i|] eqn:Hi; [|done].
  intros Hr. destruct (Hs _ _ Hi) as [(_ & Hk & _) _]. destruct (Hk _ _ Hr) as [-> _].
  by destruct k.
Qed.

Lemma Get_valid s k r : shape_ok s → Get s k = Some r → validateResource r = Ok tt.
Proof.
  intros [Hs _]. unfold Get. destruct (rs_resources s !! TypeURL k) as [i|] eqn:Hi; [|done].
  intros Hr. destruct (Hs _ _ Hi) as [(_ & Hk & _) _]. by destruct (Hk _ _ Hr) as [_ ?].
Qed.

Lemma contains_index s t index r :
  shape_ok s → rs_resources s !! t = Some index →
  contains s t r ↔ shard_get (ti_shards index) (Name (Key r)) = Some r.
Proof.
  intros [Hs _] Hi. unfold contains, Get. split.
  - intros [<- Hr]. by rewrite Hi in Hr.
  - intros Hr. destruct (Hs _ _ Hi) as [(_ & Hk & _) _]. destruct (Hk _ _ Hr) as [Hkey _].
    rewrite Hkey at 1. simpl. split; [done|]. rewrite Hkey; simpl. by rewrite Hi.
Qed.

Lemma contains_absent s t r : rs_resources s !! t = None → ¬ contains s t r.
Proof. intros Hi [<- Hr]. unfold Get in Hr. by rewrite Hi in Hr. Qed.

Lemma resourcesForNames_loop_spec t index names unique :
  shards_ok t index →
  let l := resourcesForNames_loop index names unique in
  (∀ r, r ∈ l ↔ Name (Key r) ∈ names ∧ ¬ Name (Key r) ∈ unique
               ∧ shard_get (ti_shards index) (Name (Key r)) = Some r)
  ∧ NoDup (resource_name <$> l).
Proof.
  intros (_ & Hk & _). revert unique. induction names as [|name names IH]; intros unique; simpl.
  { split; [set_solver|constructor]. }
  destruct (decide (name ∈ unique)) as [Hu|Hu].
  { destruct (IH unique) as [Hin Hnd]. split; [|done]. intros r. rewrite Hin, elem_of_cons.
    split; [tauto|]. intros ([->|?] & ? & ?); tauto. }
  destruct (shard_get (ti_shards index) name) as [r0|] eqn:Hr0.
  - destruct (Hk _ _ Hr0) as [Hkey _]. destruct (IH ({[name]} ∪ unique)) as [Hin Hnd]. split.
    + intros r. rewrite elem_of_cons, Hin, elem_of_cons. split.
      * intros [->|(? & Hn & ?)]; [rewrite Hkey; simpl; auto|set_solver].
      * intros ([Heq|?] & ? & Hr).
        { left. rewrite Heq in Hr. congruence. }
        destruct (decide (Name (Key r) = name)) as [Heq|Hne]; [left; rewrite Heq in Hr; congruence|].
        right. set_solver.
    + csimpl. constructor; [|done]. unfold resource_name. rewrite Hkey; simpl.
      intros (r & Hn & Hr)%list_elem_of_fmap. apply Hin in Hr as (_ & Hr & _).
      unfold resource_name in Hn. set_solver.
  - destruct (IH unique) as [Hin Hnd]. split; [|done]. intros r. rewrite Hin, elem_of_cons.
    split; [tauto|]. intros ([Heq|?] & ? & Hr); [|tauto]. rewrite Heq in Hr. congruence.
Qed.

Lemma resourcesForNames_spec t index names :
  shards_ok t index →
  (∀ r, r ∈ resourcesForNames index names ↔
     Name (Key r) ∈ names ∧ shard_get (ti_shards index) (Name (Key r)) = Some r)
  ∧ ssorted (resource_name <$> resourcesForNames index names).
Proof.
  intros Hok. destruct (resourcesForNames_loop_spec t index names ∅ Hok) as [Hin Hnd].
  unfold resourcesForNames. split.
  - intros r. rewrite elem_of_sort_on, Hin. set_solver.
  - by apply sort_on_ssorted.
Qed.

(** ** Postings of a snapshot *)

Lemma lookup_posting index name : lookupNames (ti_lookup index) name = posting index (mkEntry 0 name).
Proof. done. Qed.

Lemma facts_posting index key : lookupNames (ti_facts index) key = posting index (mkEntry 1 key).
Proof. done. Qed.

Lemma elem_of_lookupNames index name x :
  postings_ok index →
  x ∈ lookupNames (ti_lookup index) name ↔
  ∃ r, shard_get (ti_shards index) x = Some r ∧ name ≠ "" ∧ (XDSName r = name ∨ name ∈ Aliases r).
Proof.
  intros Hp. rewrite lookup_posting. destruct (Hp (mkEntry 0 name)) as [_ ->]; [by left|].
  unfold carries. setoid_rewrite elem_of_entries. simpl. setoid_rewrite elem_of_cons.
  naive_solver.
Qed.

Lemma elem_of_factNames index key x :
  postings_ok index → key ≠ "" →
  x ∈ lookupNames (ti_facts index) key ↔
  ∃ r, shard_get (ti_shards index) x = Some r ∧ key ∈ resourceFactKeys r.
Proof.
  intros Hp Hk. rewrite facts_posting. destruct (Hp (mkEntry 1 key)) as [_ ->]; [by right|].
  unfold carries. setoid_rewrite elem_of_entries. simpl. naive_solver.
Qed.

(** ** Lookup by canonical name, wire name or alias *)

Lemma Lookup_spec s t name :
  set_ok s → name ≠ "" →
  (∀ r, r ∈ Lookup s t name ↔
     contains s t r ∧ (Name (Key r) = name ∨ XDSName r = name ∨ name ∈ Aliases r))
  ∧ ssorted (resource_name <$> Lookup s t name).
Proof.
  intros [Hs Hl] Hn. assert (shape_ok s) as Hshape.
  { split; [|done]. intros t' i Hi. by destruct (Hs _ _ Hi) as (? & _ & ?). }
  unfold Lookup. destruct (rs_resources s !! t) as [index|] eqn:Hi; last first.
  { split; [|constructor]. intros r. split; [by intros ?%elem_of_nil|].
    intros [Hc _]. by apply contains_absent in Hc. }
  rewrite decide_False by done. destruct (Hs _ _ Hi) as (Hsh & Hp & _).
  destruct (resourcesForNames_spec t index (lookupNames (ti_lookup index) name ++
    match Get s (mkKey t name) with Some r => [Name (Key r)] | None => [] end) Hsh) as [Hin ?].
  split; [|done]. intros r. rewrite Hin, (contains_index s t index) by done.
  rewrite elem_of_app, elem_of_lookupNames by done.
  assert (Name (Key r) ∈ match Get s (mkKey t name) with Some r => [Name (Key r)] | None => [] end
    ↔ Name (Key r) = name ∧ is_Some (Get s (mkKey t name))) as ->.
  { destruct (Get s (mkKey t name)) as [r'|] eqn:Hg.
    - apply Get_Key in Hg; [|done]. rewrite Hg, list_elem_of_singleton; simpl. naive_solver.
    - rewrite elem_of_nil. split; [done|]. by intros [_ []]. }
  unfold Get; simpl. rewrite Hi. split.
  - intros [[(r' & Hr' & _ & Ha)|[Ha _]] Hr]; [|naive_solver].
    rewrite Hr in Hr'. injection Hr' as <-. naive_solver.
  - intros [Hr [Ha|Ha]]; (split; [|done]); [right|left; eauto 6].
    split; [done|]. rewrite <-Ha. eauto.
Qed.

(** ** Lookups by fact *)

Lemma factIndexKey_nonempty kind key : resourceFactIndexKey kind key ≠ "".
Proof. done. Qed.

Lemma resourceFactIndexKey_inj k1 k2 v1 v2 :
  (k1 < 256)%N → (k2 < 256)%N →
  resourceFactIndexKey k1 v1 = resourceFactIndexKey k2 v2 ↔ k1 = k2 ∧ v1 = v2.
Proof.
  intros H1 H2. unfold resourceFactIndexKey. split; [|by intros [-> ->]].
  change (NUL +:+ v1) with (String "000" v1). change (NUL +:+ v2) with (String "000" v2).
  intros [= Hk Hv]. split; [|done].
  rewrite <-(N_ascii_embedding k1 H1), <-(N_ascii_embedding k2 H2). by rewrite Hk.
Qed.

Lemma elem_of_factKey k kind key : k ∈ factKey kind key ↔ key ≠ "" ∧ k = resourceFactIndexKey kind key.
Proof.
  unfold factKey. case_decide; [rewrite elem_of_nil|rewrite list_elem_of_singleton]; naive_solver.
Qed.

Lemma elem_of_factKeys k kind keys :
  k ∈ (keys ≫= factKey kind) ↔ ∃ key, key ∈ keys ∧ key ≠ "" ∧ k = resourceFactIndexKey kind key.
Proof. rewrite list_elem_of_bind. setoid_rewrite elem_of_factKey. naive_solver. Qed.

Lemma referenceIndexKey_kind k kind v :
  (kind < 256)%N → resourceFactIndexKey kind v = resourceReferenceIndexKey k →
  kind = resourceFactTrafficPolicyReference ∨ kind = resourceFactReference.
Proof.
  intros Hk. unfold resourceReferenceIndexKey.
  case_decide; intros [-> _]%resourceFactIndexKey_inj; auto; done.
Qed.

Lemma listByFact_spec s t kind key :
  set_ok s → key ≠ "" →
  (∀ r, r ∈ listByFact s t kind key ↔
     contains s t r ∧ resourceFactIndexKey kind key ∈ resourceFactKeys r)
  ∧ ssorted (resource_name <$> listByFact s t kind key).
Proof.
  intros Hok Hn. pose proof (proj1 (set_ok_shape s) Hok) as [Hshape Hpost].
  unfold listByFact. destruct (rs_resources s !! t) as [index|] eqn:Hi; last first.
  { split; [|constructor]. intros r. split; [by intros ?%elem_of_nil|].
    intros [Hc _]. by apply contains_absent in Hc. }
  rewrite decide_False by done. destruct (proj1 Hok _ _ Hi) as (Hsh & Hp & _).
  destruct (resourcesForNames_spec t index
    (lookupNames (ti_facts index) (resourceFactIndexKey kind key)) Hsh) as [Hin ?].
  split; [|done]. intros r. rewrite Hin, (contains_index s t index) by done.
  rewrite elem_of_factNames by done. split.
  - intros [(r' & Hr' & ?) Hr]. rewrite Hr in Hr'. injection Hr' as <-. done.
  - intros [? ?]. eauto.
Qed.

(** Decide membership in the fact keys of a resource, kind by kind. *)
Ltac solve_kind :=
  repeat match goal with
  | |- (_ < 256)%N => reflexivity
  | H : resourceFactIndexKey _ _ = resourceFactIndexKey _ _ |- _ =>
      apply resourceFactIndexKey_inj in H as [? ?]; [|reflexivity|reflexivity]
  | H : resourceFactIndexKey _ _ = resourceReferenceIndexKey _ |- _ =>
      apply referenceIndexKey_kind in H as [?|?]; [| |reflexivity]
  end; try discriminate; subst; eauto.

Lemma workloadFactKeys_service w key :
  key ≠ "" →
  resourceFactIndexKey resourceFactService key ∈ workloadFactKeys w ↔ key ∈ wf_ServiceKeys w.
Proof.
  intros Hk. unfold workloadFactKeys. rewrite !elem_of_app, !elem_of_factKeys, !elem_of_factKey.
  split; [|intros; do 7 right; left; eauto].
  intros [H|[H|H]].
  - destruct (workloadHasAuthorizationRefs w); [|by apply elem_of_nil in H].
    apply elem_of_factKey in H as [_ H]. solve_kind.
  - destruct (bool_decide _); [|by apply elem_of_nil in H].
    apply elem_of_factKey in H as [_ H]. solve_kind.
  - repeat destruct H as [H|H]; try (destruct H as [_ H]; solve_kind; fail);
      destruct H as (v & ? & ? & H); solve_kind.
Qed.

(** Other kinds never come from workload facts. *)
Lemma workloadFactKeys_kind w kind v :
  (kind < 256)%N → resourceFactIndexKey kind v ∈ workloadFactKeys w →
  kind ∈ [1; 2; 3; 5; 6; 7; 8; 9; 10; 11; 12]%N.
Proof.
  intros Hk. unfold workloadFactKeys. rewrite !elem_of_app, !elem_of_factKeys, !elem_of_factKey.
  intros [H|[H|H]].
  - destruct (workloadHasAuthorizationRefs w); [|by apply elem_of_nil in H].
    apply elem_of_factKey in H as [_ [-> _]%resourceFactIndexKey_inj]; [set_solver|done..].
  - destruct (bool_decide _); [|by apply elem_of_nil in H].
    apply elem_of_factKey in H as [_ [-> _]%resourceFactIndexKey_inj]; [set_solver|done..].
  - repeat destruct H as [H|H];
      first [ destruct H as [_ H] | destruct H as (? & _ & _ & H) ];
      apply resourceFactIndexKey_inj in H as [-> _]; try done; set_solver.
Qed.

Lemma elem_of_option_keys {A} (f : A → list string) (o : option A) k :
  k ∈ from_option f [] o ↔ ∃ a, o = Some a ∧ k ∈ f a.
Proof.
  destruct o; simpl; [naive_solver|]. rewrite elem_of_nil. naive_solver.
Qed.

(** The facts that give a resource an index key. *)
Lemma elem_of_resourceFactKeys r k :
  k ∈ resourceFactKeys r ↔
    (∃ w, rf_Workload (Facts r) = Some w ∧ k ∈ workloadFactKeys w)
    ∨ (∃ ref, k = resourceReferenceIndexKey ref ∧ ref ∈ extraReferences (Facts r))
    ∨ (∃ s, rf_Sandbox (Facts r) = Some s
         ∧ k ∈ factKey resourceFactAttesterWorkloadUID (AttesterWorkloadUID s))
    ∨ (∃ s, rf_Service (Facts r) = Some s ∧ k ∈ factKey resourceFactService (ServiceKey s))
    ∨ k ∈ factKey resourceFactGatewayOwner (GatewayOwner (Facts r))
    ∨ (∃ a, rf_Authorization (Facts r) = Some a ∧ k ∈ authorizationFactKeys a).
Proof.
  unfold resourceFactKeys. by rewrite !elem_of_app, !elem_of_option_keys, list_elem_of_fmap.
Qed.

Lemma elem_of_authorizationFactKeys kind v a :
  (kind < 256)%N →
  resourceFactIndexKey kind v ∈ authorizationFactKeys a ↔
    (kind = resourceFactAuthorizationGlobal ∧ v = "global"
       ∧ af_Scope a = AuthorizationScopeGlobal)
    ∨ (kind = resourceFactAuthorizationNamespace ∧ v = af_Namespace a ∧ v ≠ ""
       ∧ af_Scope a = AuthorizationScopeNamespace).
Proof.
  intros Hk. unfold authorizationFactKeys.
  destruct (decide (af_Scope a = AuthorizationScopeGlobal)) as [Hg|Hg].
  { rewrite elem_of_factKey, resourceFactIndexKey_inj by done. rewrite Hg.
    split; [naive_solver|]. by intros [?|(_ & _ & _ & ?)]; [naive_solver|]. }
  destruct (decide (af_Scope a = AuthorizationScopeNamespace)) as [Hn|Hn].
  { rewrite elem_of_factKey, resourceFactIndexKey_inj by done. naive_solver. }
  rewrite elem_of_nil. naive_solver.
Qed.

(** Reads a fact key off a resource: the families that cannot produce it are refuted. *)
Ltac fact_families :=
  repeat match goal with
  | H : resourceFactIndexKey _ _ ∈ workloadFactKeys _ |- _ =>
      apply workloadFactKeys_kind in H; [exfalso; set_solver|done]
  | H : resourceFactIndexKey _ _ = resourceReferenceIndexKey _ |- _ =>
      apply referenceIndexKey_kind in H as [?|?]; [done|done|done]
  | H : _ ∈ factKey _ _ |- _ =>
      apply elem_of_factKey in H as [? H]; apply resourceFactIndexKey_inj in H as [? ?]; [|done|done]
  | H : _ ∈ authorizationFactKeys _ |- _ =>
      apply elem_of_authorizationFactKeys in H; [|done]
  end.

Lemma attester_fact r uid :
  uid ≠ "" →
  resourceFactIndexKey resourceFactAttesterWorkloadUID uid ∈ resourceFactKeys r ↔
  ∃ s, rf_Sandbox (Facts r) = Some s ∧ AttesterWorkloadUID s = uid.
Proof.
  intros Hu. rewrite elem_of_resourceFactKeys. split.
  - intros [(w & _ & H)|[(? & H & _)|[(s & ? & H)|[(s & _ & H)|[H|(a & _ & H)]]]]]; fact_families;
      naive_solver.
  - intros (s & Hs & <-). right; right; left. exists s. by rewrite elem_of_factKey.
Qed.

Lemma service_fact r key :
  key ≠ "" →
  resourceFactIndexKey resourceFactService key ∈ resourceFactKeys r ↔
  (∃ w, rf_Workload (Facts r) = Some w ∧ key ∈ wf_ServiceKeys w)
  ∨ (∃ s, rf_Service (Facts r) = Some s ∧ ServiceKey s = key).
Proof.
  intros Hu. rewrite elem_of_resourceFactKeys. split.
  - intros [(w & Hw & H)|[(? & H & _)|[(s & ? & H)|[(s & ? & H)|[H|(a & _ & H)]]]]].
    { apply workloadFactKeys_service in H; eauto. }
    all: fact_families; naive_solver.
  - intros [(w & Hw & H)|(s & Hs & <-)].
    + left. exists w. by rewrite workloadFactKeys_service.
    + do 3 right; left. exists s. by rewrite elem_of_factKey.
Qed.

Lemma gateway_fact r key :
  key ≠ "" →
  resourceFactIndexKey resourceFactGatewayOwner key ∈ resourceFactKeys r ↔
  GatewayOwner (Facts r) = key.
Proof.
  intros Hu. rewrite elem_of_resourceFactKeys. split.
  - intros [(w & _ & H)|[(? & H & _)|[(s & ? & H)|[(s & _ & H)|[H|(a & _ & H)]]]]]; fact_families;
      naive_solver.
  - intros <-. do 4 right; left. by rewrite elem_of_factKey.
Qed.

Lemma authorization_fact r kind v :
  kind = resourceFactAuthorizationGlobal ∨ kind = resourceFactAuthorizationNamespace →
  resourceFactIndexKey kind v ∈ resourceFactKeys r ↔
  ∃ a, rf_Authorization (Facts r) = Some a ∧
    ((kind = resourceFactAuthorizationGlobal ∧ v = "global"
       ∧ af_Scope a = AuthorizationScopeGlobal)
    ∨ (kind = resourceFactAuthorizationNamespace ∧ v = af_Namespace a ∧ v ≠ ""
       ∧ af_Scope a = AuthorizationScopeNamespace)).
Proof.
  intros Hk. assert (kind < 256)%N as Hk' by (destruct Hk; subst; done).
  rewrite elem_of_resourceFactKeys. split.
  - intros [(w & _ & H)|[(? & H & _)|[(s & ? & H)|[(s & _ & H)|[H|(a & ? & H)]]]]];
      destruct Hk; subst; fact_families; naive_solver.
  - intros (a & Ha & H). do 5 right. exists a. by rewrite elem_of_authorizationFactKeys.
Qed.

(** ** Workload queries *)

(** The constraints of a query that select a posting, in the order they are looked at;
    an empty value is no constraint. *)
Definition query_constraints (q : WorkloadQuery) : list (N * string) :=
  queryFields q
  ++ [(resourceFactWorkloadAuthorizationRefs, if wq_AuthorizationRefsOnly q then "enabled" else "");
      (resourceFactWorkloadTrafficPolicyRefs, if wq_TrafficPolicyRefsOnly q then "enabled" else "");
      (resourceFactPrincipal, match wq_Principal q with Some p => uri p | None => "" end)].

Definition query_keys (q : WorkloadQuery) : list string :=
  query_constraints q ≫= uncurry factKey.

Section candidates.
Context (index : resourceLookupIndex) (K : list string).

(** The posting chosen so far is the one of some constraint. *)
Definition chosen (candidates : option (list string)) : Prop :=
  match candidates with
  | None => True
  | Some c => ∃ k, k ∈ K ∧ c = lookupNames index k
  end.

(** ... and the search is over only if a constraint was looked at. *)
Definition search_ok (considered : bool) (st : option (list string) * bool) : Prop :=
  if st.2 then ∃ k, k ∈ K ∧ default [] st.1 = lookupNames index k
  else chosen st.1 ∧ (considered = true → st.1 ≠ None).

Lemma consider_ok candidates kind value :
  chosen candidates → resourceFactIndexKey kind value ∈ K →
  search_ok true (consider index candidates kind value).
Proof.
  intros Hc Hk. unfold consider, search_ok. set (key := resourceFactIndexKey kind value) in *.
  destruct (shard_get index key) as [names|] eqn:Hn; simpl.
  - assert (names = lookupNames index key) as Hnames by (unfold lookupNames; by rewrite Hn).
    destruct candidates as [c|]; [destruct (decide (length names < length c))|];
      destruct (bool_decide _); simpl in *; eauto.
  - destruct candidates as [c|]; simpl.
    + destruct (decide (0 < length c)) as [|Hz]; simpl.
      * exists key. unfold lookupNames. by rewrite Hn.
      * destruct Hc as (k & Hk' & ->). eauto.
    + exists key. unfold lookupNames. by rewrite Hn.
Qed.

Lemma considerFields_ok fields candidates :
  chosen candidates → (∀ k, k ∈ (fields ≫= uncurry factKey) → k ∈ K) →
  search_ok (bool_decide (candidates ≠ None ∨ (fields ≫= uncurry factKey) ≠ []))
    (considerFields index fields candidates).
Proof.
  revert candidates. induction fields as [|[kind value] fields IH]; intros candidates Hc HK;
    cbn [considerFields].
  { unfold search_ok; simpl. split; [done|]. rewrite bool_decide_eq_true. naive_solver. }
  destruct (decide (value = "")) as [->|Hv]; [by apply IH|].
  pose proof (consider_ok candidates kind value Hc) as Hok.
  assert (resourceFactIndexKey kind value ∈ K) as Hk.
  { apply HK. csimpl. rewrite elem_of_app, elem_of_factKey. auto. }
  specialize (Hok Hk). destruct (consider index candidates kind value) as [c stop].
  unfold search_ok in Hok; simpl in Hok. destruct stop; [exact Hok|].
  destruct Hok as [Hc' Hne].
  assert (search_ok (bool_decide (c ≠ None ∨ (fields ≫= uncurry factKey) ≠ []))
    (considerFields index fields c)) as Hrest.
  { apply IH; [done|]. intros k Hin. apply HK. csimpl. rewrite elem_of_app. auto. }
  unfold search_ok in *. destruct (considerFields index fields c) as [c' []]; simpl in *; [done|].
  destruct Hrest as [? Hn]. split; [done|]. intros _. apply Hn.
  apply bool_decide_eq_true. left. auto.
Qed.
End candidates.

Lemma considerFields_app index f1 f2 candidates :
  considerFields index (f1 ++ f2) candidates
  = let '(c, stop) := considerFields index f1 candidates in
    if stop then (c, true) else considerFields index f2 c.
Proof.
  revert candidates. induction f1 as [|[kind value] f1 IH]; intros candidates; [done|].
  rewrite <-app_comm_cons. cbn [considerFields]. case_decide; [apply IH|]. destruct (consider _ _ _ _) as [c []]; [done|apply IH].
Qed.

(** The search treats its constraints alike. *)
Lemma workloadQueryCandidates_fields index q :
  queryValid q = true →
  workloadQueryCandidates index q
  = default [] (considerFields index (query_constraints q) None).1.
Proof.
  intros Hq. unfold workloadQueryCandidates, query_constraints. rewrite Hq; simpl negb.
  rewrite considerFields_app. cbn beta iota.
  destruct (considerFields index (queryFields q) None) as [c0 [|]]; [done|].
  assert (∀ p, wq_Principal q = Some p → uri p ≠ "") as Hp.
  { intros p Hp Hu. unfold queryValid in Hq. rewrite Hp in Hq.
    apply andb_true_iff in Hq as [_ Hq]. destruct p; simpl in Hu; subst.
    vm_compute in Hq. done. }
  assert (∀ c, default [] (considerFields index
     [(resourceFactPrincipal, match wq_Principal q with Some p => uri p | None => "" end)] c).1
   = default [] match wq_Principal q with
                | Some p => (consider index c resourceFactPrincipal (uri p)).1
                | None => c
                end) as Hlast.
  { intros c. cbn [considerFields]. destruct (wq_Principal q) as [p|]; [|done].
    rewrite decide_False by auto. by destruct (consider _ _ _ _) as [? []]. }
  destruct (wq_AuthorizationRefsOnly q), (wq_TrafficPolicyRefsOnly q);
    cbn [considerFields] in *; rewrite ?decide_True by done;
    rewrite ?(decide_False (P:="enabled" = "")) by done;
    repeat (destruct (consider _ _ _ "enabled") as [? [|]]; [done|]); symmetry; apply Hlast.
Qed.

Lemma workloadQueryCandidates_spec index q :
  if queryValid q && bool_decide (query_keys q ≠ [])
  then ∃ k, k ∈ query_keys q ∧ workloadQueryCandidates index q = lookupNames index k
  else workloadQueryCandidates index q = [].
Proof.
  destruct (queryValid q) eqn:Hq; simpl; last first.
  { unfold workloadQueryCandidates. by rewrite Hq. }
  rewrite workloadQueryCandidates_fields by done.
  pose proof (considerFields_ok index (query_keys q) (query_constraints q) None I (λ _ H, H)) as Hs.
  fold (query_keys q) in Hs.
  destruct (considerFields index (query_constraints q) None) as [c [|]].
  { destruct Hs as (k & Hk & Hc). simpl in *. rewrite bool_decide_eq_true_2; [eauto|].
    intros HK. rewrite HK in Hk. by apply elem_of_nil in Hk. }
  destruct Hs as [Hc Hne]. simpl in *. destruct c as [c|]; simpl.
  { destruct Hc as (k & Hk & ->). rewrite bool_decide_eq_true_2; [eauto|].
    intros HK. rewrite HK in Hk. by apply elem_of_nil in Hk. }
  destruct (bool_decide (query_keys q ≠ [])) eqn:HK; [|done]. exfalso. apply Hne; [|done].
  apply bool_decide_eq_true. right. by apply bool_decide_eq_true in HK.
Qed.

(** A workload that satisfies a query carries every constraint of it. *)
Lemma Matches_keys q r w k :
  rf_Workload (Facts r) = Some w → Matches q (Some w) = true →
  k ∈ query_keys q → k ∈ resourceFactKeys r.
Proof.
  intros Hw Hm Hk. apply elem_of_resourceFactKeys. left. exists w. split; [done|].
  unfold Matches, workloadReferencesMatch in Hm.
  rewrite ?negb_true_iff, ?negb_involutive, ?orb_false_iff in Hm.
  destruct Hm as [[[[[[[Ha Ht] Hu] Hs] Hn] Hp] Hns] [[[Hsv Hg] Har] Htp]].
  assert (∀ v c, bool_decide (v ≠ "") && bool_decide (c ≠ v) = false → v ≠ "" → c = v) as Heq.
  { intros v c Hb Hv. rewrite bool_decide_eq_true_2 in Hb by done. simpl in Hb.
    apply bool_decide_eq_false in Hb. by apply dec_stable. }
  assert (∀ (v : string) (l : list string), bool_decide (v ≠ "") && bool_decide (v ∉ l) = false → v ≠ "" → v ∈ l) as Hin.
  { intros v l Hb Hv. rewrite bool_decide_eq_true_2 in Hb by done. simpl in Hb.
    apply bool_decide_eq_false in Hb. by apply dec_stable. }
  unfold workloadFactKeys. rewrite !elem_of_app, !elem_of_factKeys, !elem_of_factKey.
  unfold query_keys, query_constraints, queryFields in Hk. csimpl in Hk.
  rewrite !elem_of_app, !elem_of_factKey, elem_of_nil in Hk.
  destruct Hk as [[? ->]|[[? ->]|[[? ->]|[[? ->]|[[? ->]|[[? ->]|[[? ->]|[[? ->]|[[? ->]|[[? ->]|[[? ->]|[]]]]]]]]]]]].
  - do 2 right; left. by rewrite (Heq _ _ Hu).
  - do 3 right; left. assert (wf_Source w = wq_Source q) as ->; [|done].
    destruct (decide (wq_Source q = zeroSourceRef)) as [E|E]; [by rewrite E in *|].
    rewrite bool_decide_eq_true_2 in Hs by done. simpl in Hs.
    apply bool_decide_eq_false in Hs. by apply dec_stable.
  - do 9 right; left. eauto.
  - do 10 right. eauto.
  - do 4 right; left. by rewrite (Heq _ _ Hn).
  - do 6 right; left. by rewrite (Heq _ _ Hns).
  - do 7 right; left. eauto.
  - do 8 right; left. eauto.
  - left. destruct (wq_AuthorizationRefsOnly q); [|done]. simpl in Ha.
    apply negb_false_iff in Ha. rewrite Ha. by apply elem_of_factKey.
  - right; left. destruct (wq_TrafficPolicyRefsOnly q); [|done]. simpl in Ht.
    apply bool_decide_eq_false in Ht. rewrite bool_decide_eq_true_2 by lia. by apply elem_of_factKey.
  - do 5 right; left. destruct (wq_Principal q) as [p|]; [|done].
    apply bool_decide_eq_false, dec_stable in Hp. by rewrite Hp.
Qed.

Lemma elem_of_matchingWorkloads t index q names r :
  shards_ok t index →
  r ∈ matchingWorkloads index q names ↔
  Name (Key r) ∈ names ∧ shard_get (ti_shards index) (Name (Key r)) = Some r
  ∧ Matches q (rf_Workload (Facts r)) = true.
Proof.
  intros (_ & Hk & _). unfold matchingWorkloads. rewrite list_elem_of_omap. split.
  - intros (x & Hx & Hr). destruct (shard_get (ti_shards index) x) as [r'|] eqn:Hg; [|done].
    destruct (Matches q _) eqn:Hm; [|done]. injection Hr as <-.
    destruct (Hk _ _ Hg) as [-> _]. done.
  - intros (Hn & Hg & Hm). exists (Name (Key r)). by rewrite Hg, Hm.
Qed.

Lemma matchingWorkloads_sorted t index q names :
  shards_ok t index → ssorted names → ssorted (resource_name <$> matchingWorkloads index q names).
Proof.
  intros Hok. induction 1 as [|x names Hs IH Hx]; [constructor|]. unfold matchingWorkloads; csimpl.
  fold (matchingWorkloads index q names).
  destruct (shard_get (ti_shards index) x) as [r|] eqn:Hg; [|done].
  destruct (Matches q _); [|done]. csimpl. constructor; [done|].
  apply Forall_forall. intros y (r' & -> & Hr')%list_elem_of_fmap.
  apply (elem_of_matchingWorkloads t) in Hr' as (Hn & _ & _); [|done].
  destruct Hok as (_ & Hk & _). destruct (Hk _ _ Hg) as [Hkey _].
  unfold resource_name. rewrite Hkey; simpl. rewrite Forall_forall in Hx. by apply Hx.
Qed.

(** A query returns, in name order, exactly the resources that satisfy it; an invalid
    or unconstrained query returns nothing. *)
Lemma ListWorkloads_spec s t q :
  set_ok s →
  (∀ r, r ∈ ListWorkloads s t q ↔
     queryValid q = true ∧ query_keys q ≠ [] ∧ contains s t r
     ∧ Matches q (rf_Workload (Facts r)) = true)
  ∧ ssorted (resource_name <$> ListWorkloads s t q).
Proof.
  intros Hok. pose proof (proj1 (set_ok_shape s) Hok) as [Hshape Hpost].
  unfold ListWorkloads. destruct (rs_resources s !! t) as [index|] eqn:Hi; last first.
  { split; [|constructor]. intros r. split; [by intros ?%elem_of_nil|].
    intros (_ & _ & Hc & _). by apply contains_absent in Hc. }
  destruct (proj1 Hok _ _ Hi) as (Hsh & Hp & _).
  pose proof (workloadQueryCandidates_spec (ti_facts index) q) as Hc.
  destruct (queryValid q && bool_decide (query_keys q ≠ [])) eqn:Hv; last first.
  { rewrite Hc. split; [|constructor]. intros r. split; [by intros ?%elem_of_nil|].
    intros (Hq & Hne & _). by rewrite Hq, bool_decide_eq_true_2 in Hv. }
  apply andb_true_iff in Hv as [Hv Hne%bool_decide_eq_true].
  destruct Hc as (k & Hk & ->).
  assert (k ≠ "") as Hkn.
  { unfold query_keys in Hk. apply list_elem_of_bind in Hk as ([kind v] & Hk & _).
    by apply elem_of_factKey in Hk as [_ ->]. }
  split.
  - intros r. rewrite (elem_of_matchingWorkloads t) by done.
    rewrite (contains_index s t index), elem_of_factNames by done. split; [naive_solver|].
    intros (_ & _ & Hg & Hm). split_and!; [|done|done]. exists r. split; [done|].
    destruct (rf_Workload (Facts r)) as [w|] eqn:Hw; [|done]. by eapply Matches_keys.
  - eapply matchingWorkloads_sorted; [done|]. rewrite facts_posting. apply Hp. by right.
Qed.

Lemma existsb_exists_elem {A} (f : A → bool) l : existsb f l = true ↔ ∃ x, x ∈ l ∧ f x = true.
Proof. rewrite existsb_exists. by setoid_rewrite list_elem_of_In. Qed.

Lemma HasWorkload_ListWorkloads s t q :
  HasWorkload s t q = bool_decide (ListWorkloads s t q ≠ []).
Proof.
  unfold HasWorkload, ListWorkloads. destruct (rs_resources s !! t) as [index|]; [|done].
  induction (workloadQueryCandidates (ti_facts index) q) as [|x l IH]; [done|].
  unfold matchingWorkloads in *; csimpl.
  destruct (shard_get (ti_shards index) x) as [r|]; [|exact IH].
  destruct (Matches q _); [done|exact IH].
Qed.

(** ** References *)

Lemma workloadFactKeys_policy w name :
  resourceFactIndexKey resourceFactTrafficPolicyReference name ∈ workloadFactKeys w ↔
  name ≠ "" ∧ name ∈ wf_TrafficPolicyRefs w.
Proof.
  unfold workloadFactKeys. rewrite !elem_of_app, !elem_of_factKeys, !elem_of_factKey.
  split; [|intros [? ?]; do 10 right; eauto].
  intros [H|[H|H]].
  - destruct (workloadHasAuthorizationRefs w); [|by apply elem_of_nil in H].
    apply elem_of_factKey in H as [_ H]. solve_kind.
  - destruct (bool_decide _); [|by apply elem_of_nil in H].
    apply elem_of_factKey in H as [_ H]. solve_kind.
  - repeat destruct H as [H|H]; try (destruct H as [_ H]; solve_kind; fail);
      destruct H as (v & ? & ? & H); solve_kind.
Qed.

(** Bytes other than NUL. *)
Definition no_nul (s : string) : bool := all_bytes (λ b, negb (bool_decide (b = "000"%char))) s.

Lemma nul_separated_inj a a' b b' :
  no_nul a = true → no_nul a' = true →
  a +:+ NUL +:+ b = a' +:+ NUL +:+ b' → a = a' ∧ b = b'.
Proof.
  unfold no_nul. revert a'. induction a as [|c a IH]; intros [|c' a'] Ha Ha' H; simpl in Ha, Ha'.
  - change (String "000" b = String "000" b') in H. by injection H.
  - change (String "000" b = String c' (a' +:+ NUL +:+ b')) in H. injection H as <- _. done.
  - change (String c (a +:+ NUL +:+ b) = String "000" b') in H. injection H as -> _. done.
  - change (String c (a +:+ NUL +:+ b) = String c' (a' +:+ NUL +:+ b')) in H.
    injection H as -> H. apply andb_true_iff in Ha as [_ Ha], Ha' as [_ Ha'].
    destruct (IH a' Ha Ha' H) as [-> ->]. done.
Qed.

(** Index keys separate reference keys whose type URLs contain no NUL byte. *)
Lemma resourceReferenceIndexKey_inj k k' :
  no_nul (TypeURL k) = true → no_nul (TypeURL k') = true →
  resourceReferenceIndexKey k = resourceReferenceIndexKey k' → k = k'.
Proof.
  destruct k as [t n], k' as [t' n']. unfold resourceReferenceIndexKey; simpl. intros Ht Ht'.
  case_decide as H1; case_decide as H2; intros [? H]%resourceFactIndexKey_inj; simplify_eq; try done.
  apply nul_separated_inj in H as [-> ->]; done.
Qed.

Lemma validate_policy_refs r w name :
  validateResource r = Ok tt → rf_Workload (Facts r) = Some w →
  name ∈ wf_TrafficPolicyRefs w → name ≠ "".
Proof.
  intros Hv Hw Hn. apply blank_false_nonempty.
  eapply validateWorkload_refs;
    [eapply validateFacts_workload; [by apply validateResource_facts|done]|set_solver].
Qed.

(** The reference keys of a valid resource, seen from its index keys. *)
Lemma reference_fact r k :
  validateResource r = Ok tt →
  resourceReferenceIndexKey k ∈ resourceFactKeys r ↔
  ∃ k', k' ∈ ReferencedResources r ∧ resourceReferenceIndexKey k = resourceReferenceIndexKey k'.
Proof.
  intros Hv. rewrite elem_of_resourceFactKeys. split.
  - assert (∃ kind v, (kind = resourceFactTrafficPolicyReference ∧ TypeURL k = TrafficPolicyType
        ∧ v = Name k ∨ kind = resourceFactReference)
      ∧ resourceReferenceIndexKey k = resourceFactIndexKey kind v) as (kind & v & Hkind & E).
    { unfold resourceReferenceIndexKey. case_decide; eauto 10. }
    assert (kind < 256)%N as Hlt by (destruct Hkind as [[-> _]| ->]; done).
    rewrite E. unfold ReferencedResources. intros [(w & Hw & H)|[(k' & H & Hk')|H]].
    + destruct Hkind as [(-> & Ht & ->)| ->];
        [|by apply workloadFactKeys_kind in H; [set_solver|]].
      apply workloadFactKeys_policy in H as [_ H]. exists k. split; [|done].
      apply elem_of_app. left. apply list_elem_of_fmap. exists (Name k).
      unfold trafficPolicyRefs. rewrite Hw, <-Ht. by destruct k.
    + exists k'. split; [|done]. apply elem_of_app. by right.
    + exfalso. destruct H as [(s & ? & H)|[(s & _ & H)|[H|(a & _ & H)]]];
        destruct Hkind as [[-> _]| ->]; fact_families; naive_solver.
  - intros (k' & Hk' & ->). unfold ReferencedResources in Hk'.
    apply elem_of_app in Hk' as [Hk'|Hk']; [|by right; left; eauto].
    apply list_elem_of_fmap in Hk' as (n & -> & Hn). left. unfold trafficPolicyRefs in Hn.
    destruct (rf_Workload (Facts r)) as [w|] eqn:Hw; [|by apply elem_of_nil in Hn].
    exists w. split; [done|]. unfold resourceReferenceIndexKey.
    rewrite decide_True by done. apply workloadFactKeys_policy. split; [|done].
    by eapply validate_policy_refs.
Qed.

(** [HasReference] never misses a reference, and reports none that is not there when
    the type URLs involved contain no NUL byte. *)
Lemma HasReference_spec s k :
  set_ok s →
  HasReference s k = true ↔
  ∃ t r k', contains s t r ∧ k' ∈ ReferencedResources r
            ∧ resourceReferenceIndexKey k = resourceReferenceIndexKey k'.
Proof.
  intros Hok. pose proof (proj1 (set_ok_shape s) Hok) as [Hshape Hpost].
  unfold HasReference. rewrite existsb_exists_elem. split.
  - intros ([t index] & Hi%elem_of_map_to_list & Hl%bool_decide_eq_true). simpl in Hl.
    destruct (lookupNames _ _) as [|x l] eqn:Hn; [done|].
    assert (x ∈ lookupNames (ti_facts index) (resourceReferenceIndexKey k)) as Hx
      by (rewrite Hn; left).
    apply elem_of_factNames in Hx as (r & Hr & Hk);
      [|by eauto|unfold resourceReferenceIndexKey; by case_decide].
    destruct (proj1 Hshape _ _ Hi) as [(_ & Hkey & _) _]. destruct (Hkey _ _ Hr) as [Hrk Hv].
    apply reference_fact in Hk as (k' & Hk' & E); [|done].
    exists t, r, k'. split_and!; [|done|done]. apply (contains_index s t index); [done..|].
    by rewrite Hrk.
  - intros (t & r & k' & Hc & Hk' & E).
    destruct (rs_resources s !! t) as [index|] eqn:Hi; last by apply contains_absent in Hc.
    exists (t, index). split; [by apply elem_of_map_to_list|]. apply bool_decide_eq_true. simpl.
    apply (contains_index s t index) in Hc; [|done..].
    assert (Name (Key r) ∈ lookupNames (ti_facts index) (resourceReferenceIndexKey k)) as Hx.
    { apply elem_of_factNames; [by eauto|unfold resourceReferenceIndexKey; by case_decide|].
      exists r. split; [done|]. apply reference_fact; [|eauto].
      destruct (proj1 Hshape _ _ Hi) as [(_ & Hkey & _) _]. by destruct (Hkey _ _ Hc). }
    destruct (lookupNames _ _); [by apply elem_of_nil in Hx|done].
Qed.

(** ** Listing *)

Lemma ListType_spec s t :
  shape_ok s →
  (∀ r, r ∈ ListType s t ↔ contains s t r) ∧ ssorted (resource_name <$> ListType s t).
Proof.
  intros Hshape. unfold ListType. destruct (rs_resources s !! t) as [index|] eqn:Hi; last first.
  { split; [|constructor]. intros r. split; [by intros ?%elem_of_nil|].
    intros Hc. by apply contains_absent in Hc. }
  destruct (proj1 Hshape _ _ Hi) as [(Hp & Hk & _) _]. split.
  - intros r. rewrite elem_of_sort_on, (contains_index s t index) by done.
    rewrite list_elem_of_fmap. split.
    + intros ([x r'] & -> & Hin). simpl. apply elem_of_shard_list in Hin; [|done].
      by destruct (Hk _ _ Hin) as [-> _].
    + intros Hr. exists (Name (Key r), r). split; [done|]. by apply elem_of_shard_list.
  - apply sort_on_ssorted.
    assert (resource_name <$> (shard_list (ti_shards index)).*2 = (shard_list (ti_shards index)).*1)
      as ->; [|by apply NoDup_shard_list].
    rewrite <-list_fmap_compose. apply list_fmap_ext. intros i [x r] Hin. simpl.
    apply list_elem_of_lookup_2, elem_of_shard_list in Hin; [|done].
    unfold resource_name. by destruct (Hk _ _ Hin) as [-> _].
Qed.

Lemma elem_of_Types s t : shape_ok s → t ∈ Types s ↔ ∃ r, contains s t r.
Proof.
  intros Hshape. unfold Types. rewrite elem_of_sort_strings, list_elem_of_fmap. split.
  - intros ([t' index] & -> & Hi%elem_of_map_to_list). simpl.
    destruct (proj1 Hshape _ _ Hi) as [(Hp & Hk & Hl) Hne].
    destruct (shard_list (ti_shards index)) as [|[x r] l] eqn:Hsl; [done|].
    assert (shard_get (ti_shards index) x = Some r) as Hx.
    { apply elem_of_shard_list; [done|]. rewrite Hsl. left. }
    exists r. apply (contains_index s t' index); [done..|]. by destruct (Hk _ _ Hx) as [-> _].
  - intros [r Hc]. destruct (rs_resources s !! t) as [index|] eqn:Hi.
    + exists (t, index). split; [done|]. by apply elem_of_map_to_list.
    + by apply contains_absent in Hc.
Qed.

Lemma Types_sorted s : ssorted (Types s).
Proof.
  apply sorted_NoDup_ssorted; [apply isort_sorted; apply _|].
  apply NoDup_isort, NoDup_fst_map_to_list.
Qed.
