(* ===== verification/SetDiff.v ===== *)
(** * SetDiff: contents, equivalence and differences of snapshots

    The contents of a snapshot as a finite map, the equivalence of snapshots with the
    same contents and the queries that respect it, when construction and updates
    succeed, and that applying a difference reaches the target. *)

From S2P Require Import Prelude Identity Resource ResourceIndex Postings ResourceSet SetInvariant SetQueries.

(** ** Contents *)

Definition contents (s : ResourceSet) : gmap ResourceKey Resource :=
  list_to_map ((λ '(t, (x, r)), (mkKey t x, r)) <$> typedResources s).

Lemma typedResources_Get s t x r :
  shape_ok s → (t, (x, r)) ∈ typedResources s ↔ Get s (mkKey t x) = Some r.
Proof.
  intros [Hs _]. apply (elem_of_resources_list (rs_resources s)).
  intros t' i Hi. by destruct (Hs _ _ Hi) as [(? & _) _].
Qed.

Lemma typedResources_key s t x r :
  shape_ok s → (t, (x, r)) ∈ typedResources s → Key r = mkKey t x.
Proof. intros Hs Hin%typedResources_Get; [|done]. by eapply Get_Key. Qed.

Lemma NoDup_typedResources s :
  shape_ok s → NoDup ((λ p : string * (string * Resource), mkKey p.1 p.2.1) <$> typedResources s).
Proof.
  intros [Hs _]. change (typedResources s) with (resources_list (rs_resources s)).
  assert (∀ t i, rs_resources s !! t = Some i → placed (ti_shards i)) as Hp.
  { intros t i Hi. by destruct (Hs _ _ Hi) as [(? & _) _]. }
  clear Hs. revert Hp. generalize (rs_resources s). intros R.
  induction R as [|t i R Ht IH] using map_ind; intros Hp; [constructor|].
  rewrite resources_list_insert, (delete_id R t Ht), fmap_app. apply NoDup_app. split_and!.
  - rewrite <-list_fmap_compose.
    change (NoDup (mkKey t ∘ fst <$> shard_list (ti_shards i))).
    rewrite list_fmap_compose. apply NoDup_fmap_2; [intros ???; congruence|].
    apply NoDup_shard_list. apply (Hp t). apply lookup_insert_eq.
  - intros k ([t1 [x1 r1]] & -> & H1)%list_elem_of_fmap ([t2 [x2 r2]] & E & H2)%list_elem_of_fmap.
    apply list_elem_of_fmap in H1 as ([? ?] & [= -> -> ->] & _). simpl in E. injection E as -> ->.
    unfold resources_list in H2. apply list_elem_of_bind in H2 as ([t' i'] & H2 & Hi').
    apply list_elem_of_fmap in H2 as ([? ?] & [= -> -> ->] & _).
    apply elem_of_map_to_list in Hi'. congruence.
  - apply IH. intros t' i' Hi'. apply (Hp t'). rewrite lookup_insert_ne; [done|congruence].
Qed.

Lemma contents_spec s : shape_ok s → represents s (contents s).
Proof.
  intros Hs k. unfold contents. apply option_eq. intros r.
  rewrite <-elem_of_list_to_map.
  - rewrite list_elem_of_fmap. split.
    + intros Hg. destruct k as [t x]. exists (t, (x, r)). split; [done|].
      by apply typedResources_Get.
    + intros ([t [x r0]] & [= -> ->] & Hin). by apply typedResources_Get in Hin.
  - rewrite <-list_fmap_compose. pose proof (NoDup_typedResources s Hs) as Hnd.
    erewrite list_fmap_ext; [exact Hnd|]. by intros _ [t [x r0]] _.
Qed.

Lemma represents_dom s m k : represents s m → k ∈ dom m ↔ is_Some (Get s k).
Proof. intros Hm. by rewrite elem_of_dom, Hm. Qed.

(** ** Snapshots with the same contents *)

#[export] Instance ResourceSet_equiv : Equiv ResourceSet := λ s1 s2, ∀ k, Get s1 k = Get s2 k.

#[export] Instance ResourceSet_equivalence : Equivalence (≡@{ResourceSet}).
Proof.
  split; [by intros s k|by intros s1 s2 H k|].
  intros s1 s2 s3 H12 H23 k. by rewrite H12.
Qed.

#[export] Instance contains_proper : Proper ((≡) ==> (=) ==> (=) ==> iff) contains.
Proof. intros s1 s2 Hs t ? <- r ? <-. unfold contains. by rewrite (Hs (Key r)). Qed.

Lemma represents_equiv s1 s2 m : represents s1 m → represents s2 m → s1 ≡ s2.
Proof. intros H1 H2 k. by rewrite H1, H2. Qed.

(** Every query only depends on the contents. *)
Section equiv.
Context (s1 s2 : ResourceSet) (Hok1 : set_ok s1) (Hok2 : set_ok s2) (Hs : s1 ≡ s2).

Lemma Lookup_equiv t name : Lookup s1 t name = Lookup s2 t name.
Proof using Hok1 Hok2 Hs.
  destruct (decide (name = "")) as [->|Hn].
  { unfold Lookup. by repeat case_match. }
  destruct (Lookup_spec s1 t name Hok1 Hn) as [Hin1 Hs1].
  destruct (Lookup_spec s2 t name Hok2 Hn) as [Hin2 Hs2].
  apply (ssorted_on_ext resource_name); [done..|]. intros r. by rewrite Hin1, Hin2, Hs.
Qed.

Lemma listByFact_equiv t kind key : listByFact s1 t kind key = listByFact s2 t kind key.
Proof using Hok1 Hok2 Hs.
  destruct (decide (key = "")) as [->|Hn].
  { unfold listByFact. by repeat case_match. }
  destruct (listByFact_spec s1 t kind key Hok1 Hn) as [Hin1 Hs1].
  destruct (listByFact_spec s2 t kind key Hok2 Hn) as [Hin2 Hs2].
  apply (ssorted_on_ext resource_name); [done..|]. intros r. by rewrite Hin1, Hin2, Hs.
Qed.

Lemma ListWorkloads_equiv t q : ListWorkloads s1 t q = ListWorkloads s2 t q.
Proof using Hok1 Hok2 Hs.
  destruct (ListWorkloads_spec s1 t q Hok1) as [Hin1 Hs1].
  destruct (ListWorkloads_spec s2 t q Hok2) as [Hin2 Hs2].
  apply (ssorted_on_ext resource_name); [done..|]. intros r. by rewrite Hin1, Hin2, Hs.
Qed.

Lemma HasReference_equiv k : HasReference s1 k = HasReference s2 k.
Proof using Hok1 Hok2 Hs.
  apply eq_bool_prop_intro. rewrite !Is_true_true, !HasReference_spec by done.
  by setoid_rewrite Hs.
Qed.

Lemma ListType_equiv t : ListType s1 t = ListType s2 t.
Proof using Hok1 Hok2 Hs.
  destruct (ListType_spec s1 t (proj1 (proj1 (set_ok_shape _) Hok1))) as [Hin1 Hs1].
  destruct (ListType_spec s2 t (proj1 (proj1 (set_ok_shape _) Hok2))) as [Hin2 Hs2].
  apply (ssorted_on_ext resource_name); [done..|]. intros r. by rewrite Hin1, Hin2, Hs.
Qed.

Lemma Types_equiv : Types s1 = Types s2.
Proof using Hok1 Hok2 Hs.
  apply ssorted_ext; [apply Types_sorted..|]. intros t.
  rewrite !elem_of_Types by by apply set_ok_shape. by setoid_rewrite Hs.
Qed.

(** ... including the version a rebuild would compute. *)
Lemma computeVersion_equiv `{Codec} : computeVersion s1 = computeVersion s2.
Proof using Hok1 Hok2 Hs.
  unfold computeVersion. rewrite Types_equiv. do 2 f_equal.
  apply list_bind_ext; [|done]. intros t. by rewrite ListType_equiv.
Qed.
End equiv.

(** ** When construction and updates succeed *)

Definition change_valid `{Codec} (c : ResourceChange) : bool :=
  negb (blank (TypeURL (rc_Key c)) || blank (Name (rc_Key c)))
  && match rc_New c with
     | None => true
     | Some r => is_ok (normalizeChangedResource (rc_Key c) r)
     end.

Lemma specChange_ok `{Codec} m c : is_ok (specChange m c) = change_valid c.
Proof.
  unfold specChange, change_valid, guard_ok, changeValue.
  destruct (negb _); simpl; [|done]. destruct (rc_New c) as [r|]; [|done].
  by destruct (normalizeChangedResource (rc_Key c) r).
Qed.

Lemma specApply_ok `{Codec} m cs : is_ok (specApply m cs) = forallb change_valid cs.
Proof.
  unfold specApply. revert m. induction cs as [|c cs IH]; intros m; simpl; [done|].
  rewrite <-(specChange_ok m). destruct (specChange m c); simpl; [apply IH|done].
Qed.

Lemma Apply_ok `{Codec} s cs :
  shape_ok s → is_ok (Apply s cs) = forallb change_valid cs.
Proof.
  intros Hs. pose proof (Apply_refines s cs (contents s) Hs (contents_spec s Hs)) as Href.
  rewrite <-(specApply_ok (contents s)).
  destruct (Apply s cs) as [[s' b]|e]; [|by rewrite Href].
  by destruct Href as (m' & -> & _).
Qed.

Lemma specAdd_spec `{Codec} rs m :
  match rfold specAdd rs m with
  | Ok m' => ∃ l, Forall2 (λ r r', admitResource r = Ok r') rs l
      ∧ NoDup (Key <$> l) ∧ (∀ r, r ∈ l → m !! Key r = None)
      ∧ m' = list_to_map ((λ r, (Key r, r)) <$> l) ∪ m
  | Err _ => ¬ ∃ l, Forall2 (λ r r', admitResource r = Ok r') rs l
      ∧ NoDup (Key <$> l) ∧ (∀ r, r ∈ l → m !! Key r = None)
  end.
Proof.
  revert m. induction rs as [|r rs IH]; intros m; simpl.
  { exists []. split_and!; [by apply Forall2_nil|by constructor|set_solver|].
    by rewrite fmap_nil, list_to_map_nil, (left_id_L ∅ (∪)). }
  unfold specAdd at 1. destruct (admitResource r) as [n|e] eqn:Hn; simpl; last first.
  { intros (l & Hl & _). inversion Hl. congruence. }
  destruct (m !! Key n) as [r0|] eqn:Hm; simpl.
  { intros (l & Hl & _ & Hnone). inversion Hl as [|? r' ? l' Hr' Hl']; subst.
    rewrite Hn in Hr'. injection Hr' as <-. rewrite (Hnone n) in Hm; [done|left]. }
  specialize (IH (<[Key n := n]> m)). destruct (rfold specAdd rs _) as [m'|e].
  - destruct IH as (l & Hl & Hnd & Hnone & ->). exists (n :: l).
    assert (Key n ∉ Key <$> l) as Hnin.
    { intros (r' & E & Hr')%list_elem_of_fmap. specialize (Hnone r' Hr').
      rewrite <-E, lookup_insert_eq in Hnone. done. }
    split_and!; [by constructor|by constructor| |].
    + intros r' [->|Hr']%elem_of_cons; [done|]. specialize (Hnone r' Hr').
      by apply lookup_insert_None in Hnone as [? _].
    + csimpl. rewrite <-insert_union_l, <-insert_union_r; [done|].
      apply not_elem_of_list_to_map. by rewrite <-list_fmap_compose.
  - intros (l & Hl & Hnd & Hnone). inversion Hl as [|? r' ? l' Hr' Hl']; subst.
    rewrite Hn in Hr'. injection Hr' as <-. csimpl in Hnd. apply NoDup_cons in Hnd as [Hnin Hnd]. apply IH. exists l'. split_and!; [done..|].
    intros r0 Hr0. rewrite lookup_insert_ne; [apply Hnone; by right|].
    intros E. apply Hnin. apply list_elem_of_fmap. eauto.
Qed.

(** ** Differences *)

Definition hash_of (s : ResourceSet) (k : ResourceKey) : option string := Hash <$> Get s k.

Lemma elem_of_Diff s n c :
  shape_ok s → shape_ok n →
  c ∈ Diff s n ↔
  rc_Old c = Get s (rc_Key c) ∧ rc_New c = Get n (rc_Key c)
  ∧ hash_of s (rc_Key c) ≠ hash_of n (rc_Key c).
Proof.
  intros Hs Hn. unfold Diff, hash_of. rewrite elem_of_isort, elem_of_app, !list_elem_of_omap.
  split.
  - intros [([t [x r]] & Hin & Hc)|([t [x r]] & Hin & Hc)].
    + pose proof (typedResources_key s t x r Hs Hin) as Hk.
      apply typedResources_Get in Hin; [|done]. destruct (Get n (mkKey t x)) as [r'|] eqn:Hg.
      * case_decide; [done|]. injection Hc as <-. simpl. rewrite Hk, Hin, Hg. naive_solver.
      * injection Hc as <-. simpl. rewrite Hk, Hin, Hg. naive_solver.
    + pose proof (typedResources_key n t x r Hn Hin) as Hk.
      apply typedResources_Get in Hin; [|done].
      destruct (Get s (mkKey t x)) as [r'|] eqn:Hg; [done|].
      injection Hc as <-. simpl. rewrite Hk, Hin, Hg. naive_solver.
  - destruct c as [[t x] old new]; simpl. intros (-> & -> & Hne).
    destruct (Get s (mkKey t x)) as [r|] eqn:Hg.
    + left. exists (t, (x, r)). split; [by apply typedResources_Get|].
      rewrite (Get_Key _ _ _ Hs Hg). destruct (Get n (mkKey t x)) as [r'|]; [|done].
      rewrite decide_False; [done|]. simpl in Hne. congruence.
    + right. destruct (Get n (mkKey t x)) as [r|] eqn:Hg'; [|done].
      exists (t, (x, r)). split; [by apply typedResources_Get|].
      by rewrite Hg, (Get_Key _ _ _ Hn Hg').
Qed.

Lemma NoDup_fmap_omap {A B C} (f : A → option B) (g : B → C) (h : A → C) l :
  (∀ x y, x ∈ l → f x = Some y → g y = h x) → NoDup (h <$> l) → NoDup (g <$> omap f l).
Proof.
  intros Hf. induction l as [|x l IH]; [constructor|]. csimpl. intros [Hnin Hnd]%NoDup_cons.
  assert (NoDup (g <$> omap f l)) as Hrest.
  { apply IH; [|done]. intros x' y Hx'. apply Hf. by right. }
  destruct (f x) as [y|] eqn:Hy; [|done]. csimpl. constructor; [|done].
  rewrite (Hf x y) by (done || left). intros (y' & E & Hy')%list_elem_of_fmap.
  apply list_elem_of_omap in Hy' as (x' & Hx' & Hy').
  apply Hnin. rewrite E, (Hf x' y') by (done || by right). apply list_elem_of_fmap. eauto.
Qed.

Lemma NoDup_Diff s n : shape_ok s → shape_ok n → NoDup (rc_Key <$> Diff s n).
Proof.
  intros Hs Hn. unfold Diff. rewrite isort_Permutation, fmap_app. apply NoDup_app. split_and!.
  - apply (NoDup_fmap_omap _ _ (λ p : string * (string * Resource), mkKey p.1 p.2.1));
      [|by apply NoDup_typedResources].
    intros [t [x r]] c Hin Hc. simpl. rewrite <-(typedResources_key s t x r) by done.
    repeat case_match; naive_solver.
  - intros k (c1 & -> & H1)%list_elem_of_fmap (c2 & E & H2)%list_elem_of_fmap.
    apply list_elem_of_omap in H1 as ([t [x r]] & Hin1 & Hc1).
    apply list_elem_of_omap in H2 as ([t' [x' r']] & Hin2 & Hc2).
    pose proof (typedResources_key s t x r Hs Hin1) as Hk1.
    pose proof (typedResources_key n t' x' r' Hn Hin2) as Hk2.
    apply typedResources_Get in Hin1; [|done].
    assert (rc_Key c1 = mkKey t x) as E1 by (repeat case_match; naive_solver).
    assert (rc_Key c2 = mkKey t' x') as E2 by (repeat case_match; naive_solver).
    rewrite E1, E2 in E. injection E as -> ->. by rewrite Hin1 in Hc2.
  - apply (NoDup_fmap_omap _ _ (λ p : string * (string * Resource), mkKey p.1 p.2.1));
      [|by apply NoDup_typedResources].
    intros [t [x r]] c Hin Hc. simpl. rewrite <-(typedResources_key n t x r) by done.
    repeat case_match; naive_solver.
Qed.

Lemma change_le_total : Total change_le.
Proof.
  intros [[t x] ? ?] [[t' x'] ? ?]. unfold change_le, ResourceKey_le; simpl.
  destruct (slt_trichotomy t t') as [?|[->|?]]; [auto| |auto].
  destruct (total String.le x x'); auto.
Qed.

Lemma change_le_trans : Transitive change_le.
Proof.
  intros [[t x] ? ?] [[t' x'] ? ?] [[t'' x''] ? ?]. unfold change_le, ResourceKey_le; simpl.
  intros [H1|[-> H1]] [H2|[-> H2]]; auto; [left; by etrans|right]. split; [done|by etrans].
Qed.

Lemma Diff_sorted s n : StronglySorted change_le (Diff s n).
Proof. apply isort_sorted; [exact change_le_trans|exact change_le_total]. Qed.

(** A valid change of a hashed resource: the key holds the new value, or keeps a value
    with the same hash, and nothing else changes. *)
Lemma specChange_distinct `{Codec} m c :
  change_valid c = true → (∀ r, rc_New c = Some r → Hash r ≠ "") →
  ∃ m', specChange m c = Ok m'
    ∧ ((m' !! rc_Key c = rc_New c ∧ Hash <$> m !! rc_Key c ≠ Hash <$> rc_New c)
       ∨ (m' !! rc_Key c = m !! rc_Key c ∧ Hash <$> m !! rc_Key c = Hash <$> rc_New c))
    ∧ ∀ k, k ≠ rc_Key c → m' !! k = m !! k.
Proof.
  intros Hc Hh. pose proof (specChange_ok m c) as Hok. rewrite Hc in Hok.
  destruct (specChange m c) as [m1|] eqn:Hm1; [|done]. exists m1. split; [done|].
  unfold specChange in Hm1. apply check_Ok in Hm1 as [_ Hm1].
  apply rbind_Ok in Hm1 as (v & Hval & [= <-]). unfold changeValue in Hval.
  assert (∀ v, partial_alter (λ _, v) (rc_Key c) m !! rc_Key c = v
    ∧ ∀ k, k ≠ rc_Key c → partial_alter (λ _, v) (rc_Key c) m !! k = m !! k) as Halter.
  { intros w. split; [apply lookup_partial_alter_eq|].
    intros k Hk. by rewrite lookup_partial_alter_ne. }
  destruct (rc_New c) as [r|] eqn:Hnew.
  - apply rbind_Ok in Hval as (n & Hn & [= <-]).
    assert (n = r) as ->.
    { unfold normalizeChangedResource in Hn. apply check_Ok in Hn as [_ Hn].
      unfold admitResource in Hn. rewrite decide_False in Hn by by apply Hh.
      by apply rbind_Ok in Hn as (? & _ & [= <-]). }
    destruct (m !! rc_Key c) as [r0|] eqn:Hr0; [case_decide as He|].
    + split; [|done]. right. rewrite Hr0. simpl. by rewrite He.
    + destruct (Halter (Some r)) as [? ?]. split; [left|done]. split; [done|]. simpl. congruence.
    + destruct (Halter (Some r)) as [? ?]. by split; [left|].
  - injection Hval as <-. destruct (m !! rc_Key c) as [r0|] eqn:Hr0.
    + destruct (Halter None) as [? ?]. by split; [left|].
    + by split; [right|].
Qed.

(** Distinct keys: the last change of a key is the only one. *)
Lemma specApply_distinct `{Codec} cs m :
  NoDup (rc_Key <$> cs) → forallb change_valid cs = true →
  (∀ c r, c ∈ cs → rc_New c = Some r → Hash r ≠ "") →
  ∃ m', specApply m cs = Ok m'
    ∧ (∀ c, c ∈ cs →
         (m' !! rc_Key c = rc_New c ∧ Hash <$> m !! rc_Key c ≠ Hash <$> rc_New c)
         ∨ (m' !! rc_Key c = m !! rc_Key c ∧ Hash <$> m !! rc_Key c = Hash <$> rc_New c))
    ∧ (∀ k, k ∉ rc_Key <$> cs → m' !! k = m !! k).
Proof.
  revert m. induction cs as [|c cs IH]; intros m Hnd Hv Hh.
  { exists m. split_and!; [done|set_solver|done]. }
  csimpl in Hnd. apply NoDup_cons in Hnd as [Hnin Hnd].
  simpl in Hv. apply andb_true_iff in Hv as [Hc Hv].
  destruct (specChange_distinct m c) as (m1 & Hm1 & Hself & Hother); [done| |].
  { intros r Hr. eapply Hh; [left|done]. }
  destruct (IH m1) as (m' & Hm' & Hin & Hout); [done|done| |].
  { intros c' r Hc' Hr. eapply Hh; [by right|done]. }
  exists m'. split; [unfold specApply; simpl; by rewrite Hm1|]. split.
  - intros c' [->|Hc']%elem_of_cons; [by rewrite Hout|].
    rewrite <-(Hother (rc_Key c')); [by apply Hin|].
    intros E. apply Hnin. rewrite <-E. apply list_elem_of_fmap. eauto.
  - intros k Hk. csimpl in Hk. apply not_elem_of_cons in Hk as [Hk1 Hk2].
    rewrite Hout by done. by apply Hother.
Qed.

Lemma old_accurate_distinct present cs :
  NoDup (rc_Key <$> cs) → (∀ c, c ∈ cs → rc_Old c = None ∨ rc_Key c ∈ present) →
  old_accurate present cs.
Proof.
  revert present. induction cs as [|c cs IH]; intros present Hnd Hacc; simpl; [done|].
  csimpl in Hnd. apply NoDup_cons in Hnd as [Hnin Hnd]. split.
  { right. apply Hacc. left. }
  apply IH; [done|]. intros c' Hc'.
  assert (rc_Key c' ≠ rc_Key c) as Hne.
  { intros E. apply Hnin. rewrite <-E. apply list_elem_of_fmap. eauto. }
  destruct (Hacc c') as [?|?]; [by right|by left|right].
  destruct (rc_New c); set_solver.
Qed.

(** ** Updates with distinct keys *)

(** Changes that all take effect on distinct keys: the snapshot holds exactly the new
    values at those keys. *)
Lemma Apply_distinct `{Codec} s cs :
  set_ok s → NoDup (rc_Key <$> cs) → forallb change_valid cs = true →
  (∀ c, c ∈ cs → rc_Old c = None ∨ is_Some (Get s (rc_Key c))) →
  (∀ c r, c ∈ cs → rc_New c = Some r → Hash r ≠ "") →
  ∃ s' changed, Apply s cs = Ok (s', changed) ∧ set_ok s'
    ∧ (∀ c, c ∈ cs →
         (Get s' (rc_Key c) = rc_New c ∧ hash_of s (rc_Key c) ≠ Hash <$> rc_New c)
         ∨ (Get s' (rc_Key c) = Get s (rc_Key c) ∧ hash_of s (rc_Key c) = Hash <$> rc_New c))
    ∧ (∀ k, k ∉ rc_Key <$> cs → Get s' k = Get s k).
Proof.
  intros Hs Hnd Hv Hold Hh. pose proof (proj1 (proj1 (set_ok_shape s) Hs)) as Hs'.
  pose proof (contents_spec s Hs') as Hm.
  pose proof (Apply_refines s cs (contents s) Hs' Hm) as Href.
  destruct (specApply_distinct cs (contents s)) as (m' & Hm' & Hin & Hout); [done..|].
  rewrite Hm' in Href. destruct (Apply s cs) as [[s' b]|e] eqn:Happ; [|done].
  destruct Href as (? & [= <-] & Hsh & Hrep & _). exists s', b. split; [done|]. split_and!.
  - eapply Apply_preserves; [exact Hs|exact Hm| |exact Happ].
    apply old_accurate_distinct; [done|]. intros c Hc. rewrite (represents_dom s) by done. auto.
  - intros c Hc. rewrite Hrep. unfold hash_of. rewrite Hm. auto.
  - intros k Hk. rewrite Hrep, Hm. auto.
Qed.

(** A difference between well-formed snapshots only holds valid changes. *)
Lemma Diff_valid `{Codec} s n :
  shape_ok s → shape_ok n → (∀ k r, Get n k = Some r → Hash r ≠ "") →
  forallb change_valid (Diff s n) = true.
Proof.
  intros Hs Hn Hh. apply Is_true_true, forallb_True, Forall_forall. intros c Hc.
  apply Is_true_true. apply elem_of_Diff in Hc as (_ & Hnew & Hne); [|done..].
  unfold change_valid. apply andb_true_iff. split.
  - assert (blank (Name (rc_Key c)) = false ∧ blank (TypeURL (rc_Key c)) = false) as [-> ->]; [|done].
    unfold hash_of in Hne. destruct (Get s (rc_Key c)) as [r|] eqn:Hg.
    + rewrite <-(Get_Key _ _ _ Hs Hg).
      apply validateResource_name, (Get_valid s (rc_Key c)); done.
    + destruct (Get n (rc_Key c)) as [r|] eqn:Hg'; [|done].
      rewrite <-(Get_Key _ _ _ Hn Hg').
      apply validateResource_name, (Get_valid n (rc_Key c)); done.
  - rewrite Hnew. destruct (Get n (rc_Key c)) as [r|] eqn:Hg; [|done].
    unfold normalizeChangedResource. rewrite (Get_Key _ _ _ Hn Hg).
    rewrite bool_decide_eq_true_2 by done. simpl. unfold admitResource.
    rewrite decide_False by eauto. by rewrite (Get_valid _ _ _ Hn Hg).
Qed.

(** Applying the difference reaches the target, up to resources of equal hash. *)
Lemma Diff_Apply `{Codec} s n :
  set_ok s → set_ok n → (∀ k r, Get n k = Some r → Hash r ≠ "") →
  ∃ s' changed, Apply s (Diff s n) = Ok (s', changed)
    ∧ set_ok s' ∧ ∀ k, hash_of s' k = hash_of n k.
Proof.
  intros Hs Hn Hh. pose proof (proj1 (proj1 (set_ok_shape s) Hs)) as Hs'.
  pose proof (proj1 (proj1 (set_ok_shape n) Hn)) as Hn'.
  destruct (Apply_distinct s (Diff s n)) as (s' & b & Happ & Hok & Hin & Hout);
    [done|by apply NoDup_Diff|by apply Diff_valid|..].
  { intros c Hc. apply elem_of_Diff in Hc as (Hold & _ & _); [|done..].
    rewrite Hold. destruct (Get s (rc_Key c)); eauto. }
  { intros c r Hc Hr. apply elem_of_Diff in Hc as (_ & Hc & _); [|done..].
    rewrite Hr in Hc. eauto. }
  exists s', b. split_and!; [done..|]. intros k.
  destruct (decide (hash_of s k = hash_of n k)) as [He|He].
  - unfold hash_of. rewrite Hout; [done|]. intros (c & -> & Hc)%list_elem_of_fmap.
    apply elem_of_Diff in Hc as (_ & _ & Hne); done.
  - destruct (Hin (mkChange k (Get s k) (Get n k))) as [[Hk _]|[_ Hk]]; simpl in *.
    + by apply elem_of_Diff.
    + unfold hash_of. by rewrite Hk.
    + done.
Qed.
