(* ===== verification/Snapshot.v ===== *)
(** * Snapshot: the guarantees of resources and snapshots

    The theorems about src/pkg/model that the rest of the control plane relies on,
    each with an instance at a small concrete snapshot. *)

From S2P Require Import Prelude Identity Resource ResourceIndex Postings ResourceSet SetInvariant SetQueries SetDiff.

(** ** Concrete snapshots *)

(** A codec whose digest keeps its input readable. *)
#[export] Instance plainCodec : Codec := {|
  marshalAny := λ a, Ok (any_TypeUrl a +:+ "=" +:+ any_Value a);
  digest := λ bytes, "digest:" +:+ bytes
|}.

Definition exampleFacts (uid : string) (policies : list string) : ResourceFacts :=
  mkFacts None (mkSourceIdentity "")
    (Some (mkWorkloadFacts "ns" uid zeroSourceRef "node" zeroPrincipal ["svc"] [] [] policies))
    None None None "" false.

Definition exampleAddress (name uid value : string) (policies : list string) : Resource :=
  mkResource (mkKey AddressType name) "" (Some (mkAny AddressType value)) ["10.0.0.1"] ""
    (exampleFacts uid policies).

Definition examplePolicy (name value : string) : Resource :=
  mkResource (mkKey TrafficPolicyType name) "" (Some (mkAny TrafficPolicyType value)) [] "" noFacts.

Definition snapshotOf (resources : list Resource) : ResourceSet :=
  match NewResourceSet resources with Ok s => s | Err _ => emptySet end.

Definition exampleSet : ResourceSet :=
  snapshotOf [exampleAddress "a" "uid-a" "v1" ["p"]; exampleAddress "b" "uid-b" "v1" [];
              examplePolicy "p" "v1"].

Lemma emptySet_ok : set_ok emptySet.
Proof. split; [|done]. intros t index Hi. simpl in Hi. by rewrite lookup_empty in Hi. Qed.

Lemma snapshotOf_ok resources : set_ok (snapshotOf resources).
Proof.
  unfold snapshotOf. pose proof (NewResourceSet_refines resources) as Hr.
  destruct (NewResourceSet resources) as [s|e]; [naive_solver|].
  apply emptySet_ok.
Qed.

(** Every resource has been hashed. *)
Definition hashed (s : ResourceSet) : bool :=
  forallb (λ p : string * (string * Resource), negb (bool_decide (Hash p.2.2 = "")))
    (typedResources s).

Lemma hashed_spec s :
  shape_ok s → hashed s = true → ∀ k r, Get s k = Some r → Hash r ≠ "".
Proof.
  unfold hashed. intros Hs Hall [t x] r Hr. apply Is_true_true, forallb_True in Hall.
  rewrite Forall_forall in Hall. apply typedResources_Get in Hr; [|done].
  specialize (Hall _ Hr). simpl in Hall. intros E. by rewrite E in Hall.
Qed.

Lemma contents_unique s m : shape_ok s → represents s m → contents s = m.
Proof. intros Hs Hm. apply map_eq. intros k. by rewrite <-Hm, <-contents_spec. Qed.

(** ** Snapshots *)

(** C1: [ResourceSet.Apply] implements the update of a plain map from keys to resources.
    It fails exactly when the abstract update does, with the same error; otherwise the
    contents of the new snapshot are the abstract result, the snapshot keeps its
    invariant (shard placement, counters, and every posting sorted and listing exactly
    the resources that carry its entry) provided no change brings an old value for a key
    that is not published, and an update reported as no change returns the same snapshot. *)
Theorem snapshot_apply_refines `{Codec} s changes :
  set_ok s →
  match Apply s changes with
  | Err e => specApply (contents s) changes = Err e
  | Ok (s', changed) =>
      specApply (contents s) changes = Ok (contents s')
      ∧ (old_accurate (dom (contents s)) changes → set_ok s')
      ∧ (changed = false → s' = s)
  end.
Proof.
  intros Hs. pose proof (proj1 (proj1 (set_ok_shape s) Hs)) as Hsh.
  pose proof (contents_spec s Hsh) as Hm.
  pose proof (Apply_refines s changes (contents s) Hsh Hm) as Href.
  destruct (Apply s changes) as [[s' changed]|e] eqn:Happ; [|done].
  destruct Href as (m' & -> & Hsh' & Hm' & Hc).
  split_and!; [by rewrite (contents_unique s' m')| |done].
  intros Hacc. by eapply Apply_preserves.
Qed.

Definition exampleChanges : list ResourceChange :=
  [mkChange (mkKey AddressType "a") None (Some (exampleAddress "a" "uid-c" "v2" []));
   mkChange (mkKey TrafficPolicyType "p") None None;
   mkChange (mkKey AddressType "a") None (Some (exampleAddress "a" "uid-d" "v3" ["q"]))].

Lemma snapshot_apply_refines_witness :
  match Apply exampleSet exampleChanges with
  | Err e => False
  | Ok (s', _) => length (elements (dom (contents s'))) = 2 ∧ set_ok s'
  end.
Proof.
  assert (match Apply exampleSet exampleChanges with
          | Ok (s', _) => length (elements (dom (contents s')))
          | Err _ => 0
          end = 2) as Hn by (vm_compute; reflexivity).
  pose proof (snapshot_apply_refines exampleSet exampleChanges (snapshotOf_ok _)) as Hr.
  destruct (Apply exampleSet exampleChanges) as [[s' changed]|e]; [|discriminate].
  destruct Hr as (_ & Hok & _). split; [exact Hn|]. apply Hok.
  unfold old_accurate, exampleChanges.
  split; [right; left; reflexivity|]. split; [right; left; reflexivity|].
  split; [right; left; reflexivity|exact I].
Defined.

(** [NewResourceSet] succeeds exactly when every resource passes validation
    (normalization for those without a hash) and no two of them share a key; the
    snapshot is then well formed and holds exactly those resources. *)
Theorem snapshot_construction `{Codec} resources :
  match NewResourceSet resources with
  | Ok s => set_ok s
      ∧ ∃ l, Forall2 (λ r r', admitResource r = Ok r') resources l
         ∧ NoDup (Key <$> l) ∧ ∀ k r, Get s k = Some r ↔ r ∈ l ∧ Key r = k
  | Err _ => ¬ ∃ l, Forall2 (λ r r', admitResource r = Ok r') resources l ∧ NoDup (Key <$> l)
  end.
Proof.
  pose proof (NewResourceSet_refines resources) as Href.
  pose proof (specAdd_spec resources ∅) as Hadd.
  destruct (NewResourceSet resources) as [s|e].
  - destruct Href as (m & Hm & Hok & Hrep). rewrite Hm in Hadd. split; [done|].
    destruct Hadd as (l & Hl & Hnd & _ & ->). exists l. split_and!; [done..|].
    intros k r. rewrite Hrep, (right_id_L ∅ (∪)), <-elem_of_list_to_map.
    + rewrite list_elem_of_fmap. naive_solver.
    + by rewrite <-list_fmap_compose.
  - rewrite Href in Hadd. intros (l & Hl & Hnd). apply Hadd. exists l. split_and!; [done..|].
    intros r _. apply lookup_empty.
Qed.

(** [ResourceSet.Lookup] returns, in strict name order, exactly the resources of the
    type whose canonical name, wire name or one of whose aliases is the name asked for. *)
Theorem snapshot_lookup s t name :
  set_ok s → name ≠ "" →
  (∀ r, r ∈ Lookup s t name ↔
     contains s t r ∧ (Name (Key r) = name ∨ XDSName r = name ∨ name ∈ Aliases r))
  ∧ ssorted (resource_name <$> Lookup s t name).
Proof. apply Lookup_spec. Qed.

Lemma snapshot_lookup_witness :
  resource_name <$> Lookup exampleSet AddressType "10.0.0.1" = ["a"; "b"]
  ∧ ssorted (resource_name <$> Lookup exampleSet AddressType "10.0.0.1").
Proof.
  split; [vm_compute; reflexivity|].
  apply (snapshot_lookup exampleSet AddressType "10.0.0.1"); [apply snapshotOf_ok|done].
Defined.

(** [ResourceSet.ListWorkloads] returns, in strict name order, exactly the resources
    of the type that satisfy the query, whatever posting the search settles on; a query
    with an invalid field or without any indexed constraint returns nothing; and
    [HasWorkload] tells whether the list is empty. *)
Theorem snapshot_workload_query s t q :
  set_ok s →
  (∀ r, r ∈ ListWorkloads s t q ↔
     queryValid q = true ∧ query_keys q ≠ [] ∧ contains s t r
     ∧ Matches q (rf_Workload (Facts r)) = true)
  ∧ ssorted (resource_name <$> ListWorkloads s t q)
  ∧ HasWorkload s t q = bool_decide (ListWorkloads s t q ≠ []).
Proof.
  intros Hs. destruct (ListWorkloads_spec s t q Hs). split_and!; [done..|].
  apply HasWorkload_ListWorkloads.
Qed.

Definition exampleQuery : WorkloadQuery :=
  mkQuery false false "" zeroSourceRef "" None "ns" "svc" "" "" "p".

Lemma snapshot_workload_query_witness :
  resource_name <$> ListWorkloads exampleSet AddressType exampleQuery = ["a"]
  ∧ HasWorkload exampleSet AddressType exampleQuery
    = bool_decide (ListWorkloads exampleSet AddressType exampleQuery ≠ []).
Proof.
  split; [vm_compute; reflexivity|].
  apply (snapshot_workload_query exampleSet AddressType exampleQuery), snapshotOf_ok.
Defined.

(** The reverse index of references is exact. [ResourceSet.HasReference] holds of a
    key whenever some resource references it (so no referenced resource looks unused),
    and only then when the type URLs involved contain no NUL byte. *)
Theorem snapshot_references s k :
  set_ok s →
  ((∃ t r, contains s t r ∧ k ∈ ReferencedResources r) → HasReference s k = true)
  ∧ (no_nul (TypeURL k) = true →
     (∀ t r k', contains s t r → k' ∈ ReferencedResources r → no_nul (TypeURL k') = true) →
     HasReference s k = true → ∃ t r, contains s t r ∧ k ∈ ReferencedResources r).
Proof.
  intros Hs. rewrite HasReference_spec by done. split.
  - intros (t & r & Hc & Hk). eauto 10.
  - intros Hk Hall (t & r & k' & Hc & Hk' & E).
    apply resourceReferenceIndexKey_inj in E; [|done|by eapply Hall]. subst. eauto.
Qed.

Lemma snapshot_references_witness :
  HasReference exampleSet (mkKey TrafficPolicyType "p") = true
  ∧ (HasReference exampleSet (mkKey TrafficPolicyType "q") = false).
Proof.
  split; [|vm_compute; reflexivity].
  apply (snapshot_references exampleSet (mkKey TrafficPolicyType "p")); [apply snapshotOf_ok|].
  assert (match Get exampleSet (mkKey AddressType "a") with
          | Some r => bool_decide (mkKey TrafficPolicyType "p" ∈ ReferencedResources r)
                      && bool_decide (Key r = mkKey AddressType "a")
          | None => false
          end = true) as Hc by (vm_compute; reflexivity).
  destruct (Get exampleSet (mkKey AddressType "a")) as [r|] eqn:Hr; [|discriminate].
  apply andb_true_iff in Hc as [Hin%bool_decide_eq_true Hk%bool_decide_eq_true].
  exists AddressType, r. split; [|exact Hin]. split; [by rewrite Hk|]. by rewrite Hk, Hr.
Defined.

(** C35: applying the difference between two snapshots to the first reaches the second.
    The update succeeds, its snapshot is well formed, and it holds a resource of the same
    hash under every key; the difference lists each changed key once, in key order, with
    its old and new value. *)
Theorem snapshot_diff_apply `{Codec} s n :
  set_ok s → set_ok n → (∀ k r, Get n k = Some r → Hash r ≠ "") →
  (∃ s' changed, Apply s (Diff s n) = Ok (s', changed)
     ∧ set_ok s' ∧ ∀ k, hash_of s' k = hash_of n k)
  ∧ NoDup (rc_Key <$> Diff s n) ∧ StronglySorted change_le (Diff s n)
  ∧ ∀ c, c ∈ Diff s n ↔
      rc_Old c = Get s (rc_Key c) ∧ rc_New c = Get n (rc_Key c)
      ∧ hash_of s (rc_Key c) ≠ hash_of n (rc_Key c).
Proof.
  intros Hs Hn Hh. pose proof (proj1 (proj1 (set_ok_shape s) Hs)).
  pose proof (proj1 (proj1 (set_ok_shape n) Hn)). split_and!.
  - by apply Diff_Apply.
  - by apply NoDup_Diff.
  - apply Diff_sorted.
  - intros c. by apply elem_of_Diff.
Qed.

Lemma snapshot_diff_apply_witness :
  length (Diff emptySet exampleSet) = 3
  ∧ ∃ s' changed, Apply emptySet (Diff emptySet exampleSet) = Ok (s', changed)
     ∧ set_ok s' ∧ ∀ k, hash_of s' k = hash_of exampleSet k.
Proof.
  split; [vm_compute; reflexivity|].
  apply (snapshot_diff_apply emptySet exampleSet);
    [apply emptySet_ok|apply snapshotOf_ok|].
  apply hashed_spec; [apply set_ok_shape, snapshotOf_ok|vm_compute; reflexivity].
Defined.

(** Every query, and the version a rebuild computes, only depends on the contents:
    two well-formed snapshots with the same resources, however they were built up,
    answer alike. *)
Theorem snapshot_queries_by_contents `{Codec} s1 s2 :
  set_ok s1 → set_ok s2 → s1 ≡ s2 →
  (∀ t name, Lookup s1 t name = Lookup s2 t name)
  ∧ (∀ t q, ListWorkloads s1 t q = ListWorkloads s2 t q)
  ∧ (∀ t q, HasWorkload s1 t q = HasWorkload s2 t q)
  ∧ (∀ k, HasReference s1 k = HasReference s2 k)
  ∧ (∀ t kind key, listByFact s1 t kind key = listByFact s2 t kind key)
  ∧ (∀ t, ListType s1 t = ListType s2 t)
  ∧ Types s1 = Types s2 ∧ computeVersion s1 = computeVersion s2.
Proof.
  intros H1 H2 Hs. split_and!; intros.
  - by apply Lookup_equiv.
  - by apply ListWorkloads_equiv.
  - rewrite !HasWorkload_ListWorkloads. by rewrite (ListWorkloads_equiv s1 s2).
  - by apply HasReference_equiv.
  - by apply listByFact_equiv.
  - by apply ListType_equiv.
  - by apply Types_equiv.
  - by apply computeVersion_equiv.
Qed.

Lemma snapshot_queries_by_contents_witness :
  let s1 := snapshotOf [examplePolicy "p" "v"; examplePolicy "q" "v"] in
  let s2 := snapshotOf [examplePolicy "q" "v"; examplePolicy "p" "v"] in
  s1 ≡ s2 ∧ computeVersion s1 = computeVersion s2.
Proof.
  intros s1 s2.
  assert (s1 ≡ s2) as Hs.
  { assert (contents s1 = contents s2) as Hc.
    { apply (bool_decide_eq_true_1 (contents s1 = contents s2)). vm_compute. reflexivity. }
    apply (represents_equiv s1 s2 (contents s1)); [|rewrite Hc];
      apply contents_spec, set_ok_shape, snapshotOf_ok. }
  split; [exact Hs|].
  apply (snapshot_queries_by_contents s1 s2); [apply snapshotOf_ok..|exact Hs].
Defined.

(** Updates compose. When a batch is split in two and both parts succeed, the whole
    batch succeeds and its snapshot holds the same resources. *)
Theorem snapshot_apply_app `{Codec} s c1 c2 s1 b1 s2 b2 :
  set_ok s →
  Apply s c1 = Ok (s1, b1) → Apply s1 c2 = Ok (s2, b2) →
  ∃ s' b, Apply s (c1 ++ c2) = Ok (s', b) ∧ s' ≡ s2.
Proof.
  intros Hs%set_ok_shape H1 H2. destruct Hs as [Hs _]. pose proof (contents_spec s Hs) as Hm.
  pose proof (Apply_refines s c1 (contents s) Hs Hm) as R1. rewrite H1 in R1.
  destruct R1 as (m1 & E1 & Hs1 & Hm1 & _).
  pose proof (Apply_refines s1 c2 m1 Hs1 Hm1) as R2. rewrite H2 in R2.
  destruct R2 as (m2 & E2 & Hs2 & Hm2 & _).
  pose proof (Apply_refines s (c1 ++ c2) (contents s) Hs Hm) as R.
  unfold specApply in *. rewrite rfold_app, E1 in R. simpl in R.
  destruct (Apply s (c1 ++ c2)) as [[s' b]|e]; [|congruence].
  destruct R as (m' & E & _ & Hm' & _). exists s', b. split; [done|].
  apply (represents_equiv s' s2 m2); [|done]. rewrite E2 in E. by injection E as <-.
Qed.

Lemma snapshot_apply_app_witness :
  ∃ s1 b1 s2 b2 s' b,
    Apply exampleSet (take 1 exampleChanges) = Ok (s1, b1)
    ∧ Apply s1 (drop 1 exampleChanges) = Ok (s2, b2)
    ∧ Apply exampleSet exampleChanges = Ok (s', b) ∧ s' ≡ s2.
Proof.
  destruct (Apply exampleSet (take 1 exampleChanges)) as [[s1 b1]|e] eqn:H1;
    [|assert (is_ok (Apply exampleSet (take 1 exampleChanges)) = true) as Hb
        by (vm_compute; reflexivity); rewrite H1 in Hb; discriminate].
  destruct (Apply s1 (drop 1 exampleChanges)) as [[s2 b2]|e] eqn:H2;
    [|assert (is_ok (let! p := Apply exampleSet (take 1 exampleChanges) in
                     Apply p.1 (drop 1 exampleChanges)) = true) as Hb
        by (vm_compute; reflexivity); rewrite H1 in Hb; unfold rbind, fst in Hb;
      rewrite H2 in Hb; discriminate].
  destruct (snapshot_apply_app exampleSet _ _ s1 b1 s2 b2 (snapshotOf_ok _) H1 H2)
    as (s' & b & Ha & Hb).
  exists s1, b1, s2, b2, s', b. split_and!; [reflexivity|exact H2| |exact Hb].
  rewrite <-(take_drop 1 exampleChanges). exact Ha.
Defined.

(** ** An old value for a key that is not published *)

(** Without a batch nothing is deferred. *)
Lemma recordMemberships_direct t name add es st :
  (foldl (recordMembership false t name add) st es).2 = st.2.
Proof.
  revert st. induction es as [|e es IH]; intros [index pending]; [done|]. simpl. by rewrite IH.
Qed.

(** The difference of two values leaves the postings of the entries they share. *)
Lemma updateResourceLookupDiff_shared t old new index :
  postings_ok index →
  let st := updateResourceLookupDiff false t (Some old) (Some new) (index, ∅) in
  st.2 = ∅ ∧ ti_shards st.1 = ti_shards index ∧ ti_length st.1 = ti_length index
  ∧ ∀ e x, e ∈ resourceLookupEntries (Some old) → e ∈ resourceLookupEntries (Some new) →
      x ∈ posting st.1 e ↔ x ∈ posting index e.
Proof.
  intros Hok. unfold updateResourceLookupDiff.
  set (name := Name (Key new)). set (E1 := resourceLookupEntries (Some old)).
  set (E2 := resourceLookupEntries (Some new)).
  assert (∀ A B, A = E1 ∨ A = E2 → Forall entry_ok (elements (A ∖ B))) as Hes.
  { intros A B HA. apply Forall_forall. intros e' [He' _]%elem_of_elements%elem_of_difference.
    destruct HA as [-> | ->]; by eapply entries_ok. }
  destruct (recordMemberships_spec false t name false (elements (E1 ∖ E2)) (index, ∅))
    as (Hok1 & Hv1 & Hs1 & Hl1 & _); [by apply Hes; left| |].
  { intros e' He'. split; [by apply Hok|]. simpl. by rewrite lookup_empty. }
  destruct (recordMemberships_spec false t name true (elements (E2 ∖ E1)) _
    (Hes E2 E1 ltac:(by right)) Hok1) as (_ & Hv2 & Hs2 & Hl2 & _).
  cbv zeta. split; [by rewrite !recordMemberships_direct|].
  split; [by rewrite Hs2|]. split; [by rewrite Hl2|].
  intros e x Ho Hn. pose proof (entries_ok _ _ Ho) as He.
  specialize (Hv1 e x He). specialize (Hv2 e x He).
  rewrite decide_False in Hv1 by (rewrite elem_of_elements; set_solver).
  rewrite decide_False in Hv2 by (rewrite elem_of_elements; set_solver).
  unfold state_view in Hv1, Hv2. rewrite !recordMemberships_direct in Hv2.
  rewrite recordMemberships_direct in Hv1. rewrite Hv1 in Hv2. exact Hv2.
Qed.

Lemma blank_key_check key :
  blank (TypeURL key) = false → blank (Name key) = false →
  negb (blank (TypeURL key) || blank (Name key)) = true.
Proof. by intros -> ->. Qed.

(** The snapshot that [Apply] makes of such a change. *)
Lemma Apply_stale `{Codec} s key old new r :
  set_ok s → Get s key = None → blank (TypeURL key) = false → blank (Name key) = false →
  normalizeChangedResource key new = Ok r →
  ∃ s' index', Apply s [mkChange key (Some old) (Some new)] = Ok (s', true)
    ∧ rs_resources s' !! TypeURL key = Some index' ∧ shards_ok (TypeURL key) index'
    ∧ shard_get (ti_shards index') (Name key) = Some r
    ∧ (∀ e x, e ∈ resourceLookupEntries (Some old) → e ∈ resourceLookupEntries (Some r) →
         x ∈ posting index' e ↔ x ∈ posting (default emptyIndex (rs_resources s !! TypeURL key)) e)
    ∧ (∀ t, t ≠ TypeURL key → rs_resources s' !! t = rs_resources s !! t).
Proof.
  intros Hs Hget Ht Hn Hnorm. set (c := mkChange key (Some old) (Some new)).
  set (index := default emptyIndex (rs_resources s !! TypeURL key)).
  assert (postings_ok index) as Hpo.
  { unfold index. destruct (rs_resources s !! TypeURL key) eqn:Hi; [by apply Hs in Hi as (_ & ? & _)|].
    apply (emptyIndex_ok ""). }
  pose proof (Apply_refines s [c] (contents s) (set_ok_shape_ok s Hs)
    (contents_spec s (set_ok_shape_ok s Hs))) as Href.
  unfold Apply in *. simpl in *. unfold applyChange in *. simpl in *.
  rewrite (blank_key_check key Ht Hn) in *. fold (Get s key) in *. rewrite Hget in *.
  unfold changeValue in *. simpl in *. rewrite Hnorm in *. simpl in *.
  unfold applyEffective in *. simpl in *. fold index in Href |- *.
  destruct (updateResourceLookupDiff_shared (TypeURL key) old r index Hpo)
    as (Hp & Hsame & Hlen & Hshared).
  destruct (updateResourceLookupDiff false _ _ _ _) as [index1 pending]. simpl in *. subst pending.
  destruct Href as (m' & _ & [Hshape _] & _). unfold applyPending in *. rewrite map_to_list_empty in *.
  simpl in *. set (index' := mkIndex _ _ _ _) in *.
  assert (ti_length index' ≠ 0%Z) as Hne.
  { unfold index'. simpl. rewrite Hlen. unfold index.
    destruct (rs_resources s !! TypeURL key) as [i|] eqn:Hi; [|done]. simpl.
    apply Hs in Hi as ((_ & _ & ->) & _). lia. }
  assert (dropEmpty ({[TypeURL key]} ∪ ∅) (<[TypeURL key := index']> (rs_resources s)) !! TypeURL key
    = Some index') as Hi.
  { rewrite dropEmpty_lookup, lookup_insert_eq, decide_False; [done|]. naive_solver. }
  eexists _, index'. split; [done|]. simpl. split; [exact Hi|].
  split; [by apply (Hshape _ _ Hi)|]. split; [simpl; by rewrite shard_get_set, decide_True|]. split; [exact Hshared|].
  intros t Hne'. rewrite dropEmpty_lookup, lookup_insert_ne by done.
  destruct (rs_resources s !! t); [|done]. rewrite decide_False; [done|]. set_solver.
Qed.

(** The entries of names and facts *)
Lemma name_entry r name :
  name ∈ XDSName r :: Aliases r → name ≠ "" → mkEntry 0 name ∈ resourceLookupEntries (Some r).
Proof.
  intros Hn Hne. unfold resourceLookupEntries.
  rewrite elem_of_list_to_set, list_elem_of_filter, elem_of_app. split; [done|]. left.
  by apply list_elem_of_fmap_2.
Qed.

Lemma fact_entry r k :
  k ∈ resourceFactKeys r → k ≠ "" → mkEntry 1 k ∈ resourceLookupEntries (Some r).
Proof.
  intros Hk Hne. unfold resourceLookupEntries.
  rewrite elem_of_list_to_set, list_elem_of_filter, elem_of_app. split; [done|]. right.
  by apply list_elem_of_fmap_2.
Qed.

(** A query by UID alone reads the posting of the UID. *)
Lemma uid_candidates facts uid name :
  uid ≠ "" →
  name ∈ workloadQueryCandidates facts
           (mkQuery false false uid zeroSourceRef "" None "" "" "" "" "") →
  name ∈ lookupNames facts (resourceFactIndexKey resourceFactWorkloadUID uid).
Proof.
  intros Hne. unfold workloadQueryCandidates. destruct (negb _); [by intros ?%not_elem_of_nil|].
  unfold queryFields. cbn [considerFields wq_WorkloadUID]. rewrite decide_False by done.
  unfold consider, lookupNames. by destruct (bool_decide _).
Qed.

Lemma HasReference_false s target :
  HasReference s target = false ↔
  ∀ t index, rs_resources s !! t = Some index →
    lookupNames (ti_facts index) (resourceReferenceIndexKey target) = [].
Proof.
  unfold HasReference. rewrite <-not_true_iff_false, existsb_exists. split.
  - intros Hno t index Hi. destruct (lookupNames _ _) eqn:Hl; [done|]. destruct Hno.
    exists (t, index). rewrite <-list_elem_of_In, elem_of_map_to_list. simpl. by rewrite Hl.
  - intros Hall ([t index] & Hin%list_elem_of_In%elem_of_map_to_list & Hb). simpl in Hb.
    by rewrite (Hall _ _ Hin) in Hb.
Qed.

Lemma referenceIndexKey_nonempty target : resourceReferenceIndexKey target ≠ "".
Proof. unfold resourceReferenceIndexKey. by case_decide; apply factIndexKey_nonempty. Qed.

(** C38: the condition on old values in the update theorem is needed. Take a change that
    carries an old value for a key that is not published, and a valid new value. [Apply]
    publishes the new value under its key, but takes the lookup names and facts that it shares
    with the old value for indexed: the lookup by such a name misses it, unless the name is
    that of its key; so does the list of every such fact and the workload query by a workload
    UID they share; and a resource that it references, as the old value does, counts as
    unreferenced if nothing else references it. *)
Theorem snapshot_apply_stale_old `{Codec} s key old new r :
  set_ok s → Get s key = None → blank (TypeURL key) = false → blank (Name key) = false →
  normalizeChangedResource key new = Ok r →
  ∃ s', Apply s [mkChange key (Some old) (Some new)] = Ok (s', true) ∧ Get s' key = Some r
    ∧ (∀ name, name ∈ XDSName old :: Aliases old → name ∈ XDSName r :: Aliases r →
         name ≠ Name key → r ∉ Lookup s' (TypeURL key) name)
    ∧ (∀ kind value, resourceFactIndexKey kind value ∈ resourceFactKeys old →
         resourceFactIndexKey kind value ∈ resourceFactKeys r →
         r ∉ listByFact s' (TypeURL key) kind value)
    ∧ (∀ uid, resourceFactIndexKey resourceFactWorkloadUID uid ∈ resourceFactKeys old →
         resourceFactIndexKey resourceFactWorkloadUID uid ∈ resourceFactKeys r → uid ≠ "" →
         r ∉ ListWorkloads s' (TypeURL key)
               (mkQuery false false uid zeroSourceRef "" None "" "" "" "" ""))
    ∧ (∀ target, resourceReferenceIndexKey target ∈ resourceFactKeys old →
         resourceReferenceIndexKey target ∈ resourceFactKeys r →
         HasReference s target = false → HasReference s' target = false).
Proof.
  intros Hs Hget Ht Hn Hnorm.
  destruct (Apply_stale s key old new r Hs Hget Ht Hn Hnorm)
    as (s' & index' & Happ & Hi & Hsh & Hr & Hshared & Hother).
  assert (Key r = key) as Hkey.
  { destruct Hsh as (_ & Hk & _). destruct (Hk _ _ Hr) as [-> _]. by destruct key. }
  assert (∀ e, e ∈ resourceLookupEntries (Some old) → e ∈ resourceLookupEntries (Some r) →
    Name (Key r) ∉ posting index' e) as Hmiss.
  { intros e Ho He. rewrite Hkey, Hshared by done. unfold Get in Hget.
    destruct (rs_resources s !! TypeURL key) as [index|] eqn:Hidx.
    - apply Hs in Hidx as (_ & Hpo & _). simpl. rewrite (proj2 (Hpo e (entries_ok _ _ Ho))).
      intros (r' & Hr' & _). congruence.
    - destruct (emptyIndex_ok "") as [_ Hpo]. simpl. rewrite (proj2 (Hpo e (entries_ok _ _ Ho))).
      intros (r' & Hr' & _). done. }
  exists s'. split_and!; [done|by unfold Get; rewrite Hi|..].
  - intros name Ho Hnew Hne. unfold Lookup. rewrite Hi. case_decide as Hempty; [set_solver|].
    rewrite (proj1 (resourcesForNames_spec (TypeURL key) index' _ Hsh)), elem_of_app.
    intros [[Hin|Hin] _].
    + by apply (Hmiss (mkEntry 0 name)); [apply name_entry..|].
    + destruct (Get s' (mkKey (TypeURL key) name)) as [r'|] eqn:Hg; [|set_solver].
      apply list_elem_of_singleton in Hin. unfold Get in Hg. simpl in Hg. rewrite Hi in Hg.
      apply Hsh in Hg as [Hk' _]. rewrite Hk', Hkey in Hin. simpl in Hin. congruence.
  - intros kind value Ho Hnew. unfold listByFact. rewrite Hi. case_decide; [set_solver|].
    rewrite (proj1 (resourcesForNames_spec (TypeURL key) index' _ Hsh)). intros [Hin _].
    by apply (Hmiss (mkEntry 1 (resourceFactIndexKey kind value)));
      [apply fact_entry; [done|apply factIndexKey_nonempty]..|].
  - intros uid Ho Hnew Hne. unfold ListWorkloads. rewrite Hi.
    intros (name & Hin & Hm)%list_elem_of_omap.
    destruct (shard_get (ti_shards index') name) as [r'|] eqn:Hg; [|done].
    destruct (Matches _ _); [|done]. injection Hm as ->.
    apply Hsh in Hg as [Hk' _]. apply (Hmiss (mkEntry 1 (resourceFactIndexKey resourceFactWorkloadUID uid)));
      [apply fact_entry; [done|apply factIndexKey_nonempty]..|]. rewrite Hk'. simpl.
    by apply uid_candidates.
  - intros target Ho Hnew Hf. rewrite HasReference_false in Hf |- *. intros t index.
    destruct (decide (t = TypeURL key)) as [->|Hne]; [|rewrite Hother by done; apply Hf].
    rewrite Hi. intros [= <-]. set (e := mkEntry 1 (resourceReferenceIndexKey target)).
    change (lookupNames _ _) with (posting index' e).
    assert (posting (default emptyIndex (rs_resources s !! TypeURL key)) e = []) as Hold.
    { destruct (rs_resources s !! TypeURL key) eqn:Hidx; [by apply (Hf _ _ Hidx)|done]. }
    destruct (posting index' e) as [|x l] eqn:Hp; [done|]. exfalso.
    assert (x ∈ posting index' e) as Hx by (rewrite Hp; left).
    rewrite Hshared, Hold in Hx; [by apply not_elem_of_nil in Hx|..];
      (apply fact_entry; [done|apply referenceIndexKey_nonempty]).
Qed.

(** An address whose first version was lost: the snapshot has it and does not find it. *)
Lemma snapshot_apply_stale_old_witness :
  ∃ s', Apply emptySet
      [mkChange (mkKey AddressType "a") (Some (exampleAddress "a" "uid-a" "v1" []))
         (Some (exampleAddress "a" "uid-a" "v2" []))] = Ok (s', true)
    ∧ ∃ r, Get s' (mkKey AddressType "a") = Some r
      ∧ r ∉ ListWorkloads s' AddressType
          (mkQuery false false "uid-a" zeroSourceRef "" None "" "" "" "" "").
Proof.
  set (key := mkKey AddressType "a"). set (new := exampleAddress "a" "uid-a" "v2" []).
  assert (match normalizeChangedResource key new with
          | Ok r => bool_decide (resourceFactIndexKey resourceFactWorkloadUID "uid-a" ∈ resourceFactKeys r)
          | Err _ => false
          end = true) as Hb by (vm_compute; reflexivity).
  destruct (normalizeChangedResource key new) as [r|e] eqn:Hr; [|discriminate].
  apply bool_decide_eq_true in Hb.
  destruct (snapshot_apply_stale_old emptySet key (exampleAddress "a" "uid-a" "v1" []) new r)
    as (s' & Ha & Hg & _ & _ & Hw & _); [|reflexivity..|exact Hr|].
  - split; [intros t index Hi; discriminate Hi|reflexivity].
  - exists s'. split; [exact Ha|]. exists r. split; [exact Hg|]. apply Hw; [|exact Hb|discriminate].
    apply (bool_decide_unpack _). vm_compute. exact I.
Defined.

(** The lookups by fact return exactly the resources with the fact: Sandboxes by the
    workload that attests them, members of a Service (workloads and the Service itself),
    resources a Gateway owns, and authorizations by scope. *)
Theorem snapshot_fact_lists s r uid service t gateway namespace :
  set_ok s → uid ≠ "" → service ≠ "" → gateway ≠ "" → namespace ≠ "" →
  (r ∈ ListSandboxesByAttester s uid ↔
     contains s SandboxType r
     ∧ ∃ f, rf_Sandbox (Facts r) = Some f ∧ AttesterWorkloadUID f = uid)
  ∧ (r ∈ ListServiceMembers s t service ↔
     contains s t r
     ∧ ((∃ w, rf_Workload (Facts r) = Some w ∧ service ∈ wf_ServiceKeys w)
        ∨ ∃ f, rf_Service (Facts r) = Some f ∧ ServiceKey f = service))
  ∧ (r ∈ ListResourcesOwnedByGateway s t gateway ↔
     contains s t r ∧ GatewayOwner (Facts r) = gateway)
  ∧ (r ∈ ListGlobalAuthorizations s ↔
     contains s WorkloadAuthorizationType r
     ∧ ∃ a, rf_Authorization (Facts r) = Some a ∧ af_Scope a = AuthorizationScopeGlobal)
  ∧ (r ∈ ListNamespaceAuthorizations s namespace ↔
     contains s WorkloadAuthorizationType r
     ∧ ∃ a, rf_Authorization (Facts r) = Some a ∧ af_Namespace a = namespace
            ∧ af_Scope a = AuthorizationScopeNamespace).
Proof.
  intros Hs Hu Hv Hg Hn. split_and!.
  - unfold ListSandboxesByAttester. destruct (listByFact_spec s SandboxType
      resourceFactAttesterWorkloadUID uid Hs Hu) as [-> _]. by rewrite attester_fact.
  - unfold ListServiceMembers.
    destruct (listByFact_spec s t resourceFactService service Hs Hv) as [-> _].
    by rewrite service_fact.
  - unfold ListResourcesOwnedByGateway.
    destruct (listByFact_spec s t resourceFactGatewayOwner gateway Hs Hg) as [-> _].
    by rewrite gateway_fact.
  - unfold ListGlobalAuthorizations. destruct (listByFact_spec s WorkloadAuthorizationType
      resourceFactAuthorizationGlobal "global" Hs ltac:(done)) as [-> _].
    rewrite authorization_fact by auto. naive_solver.
  - unfold ListNamespaceAuthorizations. destruct (listByFact_spec s WorkloadAuthorizationType
      resourceFactAuthorizationNamespace namespace Hs Hn) as [-> _].
    rewrite authorization_fact by auto. naive_solver.
Qed.

Lemma snapshot_fact_lists_witness :
  resource_name <$> ListServiceMembers exampleSet AddressType "svc" = ["a"; "b"]
  ∧ (∀ r, r ∈ ListServiceMembers exampleSet AddressType "svc" ↔
     contains exampleSet AddressType r
     ∧ ((∃ w, rf_Workload (Facts r) = Some w ∧ "svc" ∈ wf_ServiceKeys w)
        ∨ ∃ f, rf_Service (Facts r) = Some f ∧ ServiceKey f = "svc")).
Proof.
  split; [vm_compute; reflexivity|]. intros r.
  apply (snapshot_fact_lists exampleSet r "uid" "svc" AddressType "gw" "ns"
    (snapshotOf_ok _)); discriminate.
Defined.

(** ** Resources *)

(** Normalization is canonical. A normalized resource is valid, keeps its key and
    value, has a wire name, and normalizing it again changes nothing, hash included. *)
Theorem resource_normal_form `{Codec} r r' :
  normalizeResource r = Ok r' →
  validateResource r' = Ok tt ∧ Key r' = Key r ∧ Value r' = Value r ∧ XDSName r' ≠ ""
  ∧ normalizeResource r' = Ok r'.
Proof.
  intros Hr. split_and!.
  - by eapply normalizeResource_valid.
  - by eapply normalizeResource_Key.
  - by apply normalizeResource_Ok in Hr as (_ & enc & _ & ->).
  - apply normalizeResource_Ok in Hr as (Hv & enc & _ & ->). simpl. case_decide; [|done].
    apply validateResource_name in Hv as [Hb _]. by apply blank_false_nonempty.
  - by eapply normalizeResource_idemp.
Qed.

Lemma resource_normal_form_witness :
  ∃ r', normalizeResource (exampleAddress "a" "uid" "v" ["q"; "p"; "q"]) = Ok r'
    ∧ normalizeResource r' = Ok r'.
Proof.
  destruct (normalizeResource (exampleAddress "a" "uid" "v" ["q"; "p"; "q"])) as [r'|e] eqn:Hr.
  - exists r'. split; [reflexivity|].
    apply (resource_normal_form (exampleAddress "a" "uid" "v" ["q"; "p"; "q"]) r' Hr).
  - vm_compute in Hr. discriminate.
Defined.

(** [ResourceFacts.Equal] is equality of facts, an absent reference list counting as
    an empty one; in particular equal facts reference the same resources. *)
Theorem resource_facts_equal f g :
  (Facts_Equal f g = true ↔ cloneResourceFacts f = cloneResourceFacts g)
  ∧ (Facts_Equal f g = true → ∀ r1 r2, Facts r1 = f → Facts r2 = g →
       ReferencedResources r1 = ReferencedResources r2).
Proof.
  split; [apply Facts_Equal_spec|]. intros Heq r1 r2 <- <-. by apply Facts_Equal_references.
Qed.

(** Hash equality is not full equality of resources: the egress marker is hashed only
    together with a gateway owner, so two valid resources without an owner that differ in
    the marker share their hash although [ResourceFacts.Equal] tells their facts apart. *)
Theorem resource_hash_ignores_egress `{Codec} key xds value aliases refs ident r1 r2 :
  let facts egress := mkFacts refs ident None None None None "" egress in
  NewResource key xds value aliases (facts false) = Ok r1 →
  NewResource key xds value aliases (facts true) = Ok r2 →
  Resource_Equals r1 r2 = true ∧ Facts_Equal (Facts r1) (Facts r2) = false.
Proof.
  intros facts (_ & enc & He & ->)%normalizeResource_Ok (_ & enc' & He' & ->)%normalizeResource_Ok.
  simpl in *. rewrite He in He'. injection He' as <-. split.
  - by apply bool_decide_eq_true.
  - apply not_true_is_false. intros Heq%Facts_Equal_spec. unfold cloneResourceFacts in Heq.
    simpl in Heq. by injection Heq.
Qed.

Lemma resource_hash_ignores_egress_witness :
  ∃ r1 r2, Resource_Equals r1 r2 = true ∧ Facts_Equal (Facts r1) (Facts r2) = false.
Proof.
  set (value := Some (mkAny ListenerType "v")).
  destruct (NewResource (mkKey ListenerType "l") "" value []
    (mkFacts None (mkSourceIdentity "") None None None None "" false)) as [r1|e] eqn:H1;
    [|vm_compute in H1; discriminate].
  destruct (NewResource (mkKey ListenerType "l") "" value []
    (mkFacts None (mkSourceIdentity "") None None None None "" true)) as [r2|e] eqn:H2;
    [|vm_compute in H2; discriminate].
  exists r1, r2.
  exact (resource_hash_ignores_egress (mkKey ListenerType "l") "" value [] None
    (mkSourceIdentity "") r1 r2 H1 H2).
Defined.

(** ** Identities *)

(** A parsed principal is valid, in the canonical form of the trust domain asked for:
    parsing its URI again under its own trust domain gives the same principal. *)
Theorem principal_round_trip raw td p :
  ParsePrincipal raw td = Ok p →
  Principal_Validate p = Ok tt ∧ uri p = raw ∧ TrustDomain p = canonicalTrustDomain td
  ∧ ParsePrincipal (uri p) (TrustDomain p) = Ok p.
Proof.
  intros Hp. destruct (ParsePrincipal_Validate _ _ _ Hp) as [Hv Htd].
  assert (uri p = raw) as Hu by by apply ParsePrincipal_Ok in Hp as (rest & -> & -> & _).
  split_and!; [done..|]. unfold Principal_Validate in Hv.
  apply rbind_Ok in Hv as (p' & Hp' & _). rewrite Hp'. f_equal.
  apply ParsePrincipal_Ok in Hp' as (rest & _ & -> & _). by destruct p.
Qed.

Lemma principal_round_trip_witness :
  ∃ p, ParsePrincipal "spiffe://cluster.local/ns/default/sa/agent" "cluster@local" = Ok p
    ∧ Principal_Validate p = Ok tt ∧ TrustDomain p = "cluster.local".
Proof.
  destruct (ParsePrincipal "spiffe://cluster.local/ns/default/sa/agent" "cluster@local")
    as [p|e] eqn:Hp; [|vm_compute in Hp; discriminate].
  destruct (principal_round_trip _ _ _ Hp) as (Hv & _ & Htd & _).
  exists p. split; [reflexivity|]. split; [exact Hv|]. rewrite Htd. vm_compute. reflexivity.
Defined.

(** [SourceRef.String], which indexes resources by their source, is injective: two
    sources never share a posting. *)
Theorem source_ref_injective s1 s2 :
  resourceFactIndexKey resourceFactSource (SourceRef_String s1)
  = resourceFactIndexKey resourceFactSource (SourceRef_String s2) ↔ s1 = s2.
Proof.
  rewrite resourceFactIndexKey_inj by done. split; [|by intros ->].
  intros [_ ?]. by apply SourceRef_String_inj.
Qed.

(** ** Postings *)

(** Merging the deferred changes of a posting in one pass gives the list that applying
    them one after the other gives: sorting by name, keeping the last decision and
    splicing loses and reorders nothing. *)
Theorem posting_batch_equals_sequence (lookup : gmap string (list string)) key changes :
  ssorted (default [] (lookup !! key)) →
  default [] (applyMemberships lookup key (default [] (lookup !! key)) changes !! key)
  = default [] (foldl (λ l (c : lookupMembershipChange),
        updateLookupMembership l key (default [] (l !! key)) c.1 c.2) lookup changes !! key).
Proof.
  intros Hs. set (names := default [] (lookup !! key)) in *.
  destruct (applyMemberships_at lookup key names changes eq_refl Hs) as [Hs1 Hm1].
  assert (∀ cs l, ssorted (default [] (l !! key)) →
    let l' := foldl (λ l (c : lookupMembershipChange),
        updateLookupMembership l key (default [] (l !! key)) c.1 c.2) l cs in
    ssorted (default [] (l' !! key))
    ∧ ∀ x, x ∈ default [] (l' !! key) ↔ decided (default [] (l !! key)) cs x) as Hseq.
  { clear. intros cs. induction cs as [|[n b] cs IH] using rev_ind; intros l Hl; [done|].
    cbv zeta in *. rewrite foldl_app. simpl. destruct (IH l Hl) as [Hs Hm].
    destruct (updateLookupMembership_at _ key _ n b eq_refl Hs) as [Hs' Hm'].
    split; [done|]. intros x. rewrite Hm'.
    change [(n, b)] with ([] ++ [(n, b)]) at 1. rewrite !decided_snoc.
    destruct (decide (n = x)); [done|]. by rewrite decided_nil, Hm. }
  destruct (Hseq changes lookup Hs) as [Hs2 Hm2].
  apply ssorted_ext; [done..|]. intros x. by rewrite Hm1, Hm2.
Qed.

Lemma posting_batch_equals_sequence_witness :
  let lookup : gmap string (list string) := {["k" := ["a"; "c"]]} in
  default [] (applyMemberships lookup "k" (default [] (lookup !! "k"))
    [("b", true); ("a", false); ("b", false); ("d", true)] !! "k") = ["c"; "d"].
Proof.
  intros lookup. rewrite (posting_batch_equals_sequence lookup).
  - vm_compute. reflexivity.
  - assert (default [] (lookup !! "k") = ["a"; "c"]) as -> by (vm_compute; reflexivity).
    constructor; [repeat constructor|].
    constructor; [|constructor]. apply (bool_decide_unpack (slt "a" "c")). vm_compute. exact I.
Defined.
