(* ===== verification/Update.v ===== *)
(** * Update: invalidation notices (src/pkg/xds/store/update.go, dependencies.go)

    A notice lists, per resource type and in key order, the resources a connection has
    to reselect, with the wire names and the selection facts they were seen with. Notices
    that wait for a reader are merged; nothing they announce may be lost. *)

From S2P Require Import Prelude Identity Resource ResourceIndex ResourceSet.

(** ** Data *)

(** The part of the Workload facts that defines a client scope. *)
Record WorkloadIdentity := mkWorkloadIdentity {
  wi_UID : string;
  wi_Source : SourceRef;
  wi_Principal : Principal;
  wi_NodeName : string
}.

#[export] Instance WorkloadIdentity_eq_dec : EqDecision WorkloadIdentity.
Proof. solve_decision. Defined.
#[export] Instance WorkloadIdentity_countable : Countable WorkloadIdentity.
Proof.
  apply (inj_countable'
    (λ w, (wi_UID w, Registry (wi_Source w), SourceRef_Key (wi_Source w),
           uri (wi_Principal w), wi_NodeName w))
    (λ p, let '(uid, reg, key, pr, node) := p in
          mkWorkloadIdentity uid (mkSourceRef reg key) (mkPrincipal pr) node)).
  by intros [? [] [] ?].
Defined.

Definition workloadIdentity (w : WorkloadResourceFacts) : WorkloadIdentity :=
  mkWorkloadIdentity (wf_WorkloadUID w) (wf_Source w) (wf_Principal w) (wf_NodeName w).

(** A wire name as it was observed. A nil set of workloads is empty. *)
Record Identity := mkIdentity {
  id_Name : string;
  id_Facts : ResourceFacts;
  id_Workloads : gset WorkloadIdentity
}.

Record Candidate := mkCandidate {
  ca_Key : ResourceKey;
  ca_Identities : list Identity;
  ca_DependencyOnly : bool
}.

(** A notice. [u_addressScopes] stands for the pointer to the index of the Address
    candidates, built by the first reader: it carries the candidates that index is of. *)
Record Update := mkUpdate {
  u_version : string;
  u_candidates : gmap string (list Candidate);
  u_affectedTypes : gset string;
  u_full : bool;
  u_fullTypes : gset string;
  u_addressScopes : option (list Candidate)
}.

Definition candidates_of (u : Update) (typeURL : string) : list Candidate :=
  default [] (u_candidates u !! typeURL).

Definition FullFor (u : Update) (typeURL : string) : bool :=
  u_full u && (bool_decide (size (u_fullTypes u) = 0) || bool_decide (typeURL ∈ u_fullTypes u)).

Definition Affects (u : Update) (typeURL : string) : bool :=
  FullFor u typeURL || bool_decide (typeURL ∈ u_affectedTypes u).

(** [Candidates]: a Workload watch is fed by the Address candidates. *)
Definition Candidates (u : Update) (typeURL : string) : list Candidate :=
  candidates_of u (if decide (typeURL = WorkloadType) then AddressType else typeURL).

(** ** Building a notice *)

Definition sameIdentity (a b : Identity) : bool :=
  bool_decide (id_Name a = id_Name b) && Facts_Equal (id_Facts a) (id_Facts b).

Fixpoint mergeIdentity (identities : list Identity) (identity : Identity) : list Identity :=
  match identities with
  | [] => [identity]
  | existing :: rest =>
      if sameIdentity existing identity
      then mkIdentity (id_Name existing) (id_Facts existing)
             (id_Workloads existing ∪ id_Workloads identity) :: rest
      else existing :: mergeIdentity rest identity
  end.

Abbreviation candidateIndex := (gmap ResourceKey Candidate).

Definition addCandidate (index : candidateIndex) (resource : Resource)
    (workload : option WorkloadResourceFacts) : candidateIndex :=
  let dependencyOnly :=
    match index !! Key resource, workload with
    | None, _ => isSome workload
    | Some _, None => false
    | Some candidate, Some _ => ca_DependencyOnly candidate
    end in
  let identities := match index !! Key resource with
                    | Some candidate => ca_Identities candidate
                    | None => []
                    end in
  let identity := mkIdentity (XDSName resource) (Facts resource)
    (match workload with Some w => {[workloadIdentity w]} | None => ∅ end) in
  <[Key resource := mkCandidate (Key resource) (mergeIdentity identities identity)
                      dependencyOnly]> index.

Definition addCandidates (index : candidateIndex) (resources : list Resource)
    (workload : option WorkloadResourceFacts) : candidateIndex :=
  foldl (λ i r, addCandidate i r workload) index resources.

(** The old and the new resource of a change, those that exist *)
Definition changeResources (change : ResourceChange) : list Resource :=
  option_list (rc_Old change) ++ option_list (rc_New change).

(** [sort.Slice] by name, on the candidates of one type *)
Definition sortCandidates : list Candidate → list Candidate := sort_on (λ c, Name (ca_Key c)).

Definition indexedUpdate (version : string) (candidates : candidateIndex) : Update :=
  let byType :=
    foldl (λ (m : gmap string (list Candidate)) (p : ResourceKey * Candidate),
        <[TypeURL p.1 := default [] (m !! TypeURL p.1) ++ [p.2]]> m)
      ∅ (map_to_list candidates) in
  let affected :=
    foldl (λ (s : gset string) (p : ResourceKey * Candidate),
        {[TypeURL p.1]} ∪ (if decide (TypeURL p.1 = AddressType) then {[WorkloadType]} else ∅) ∪ s)
      ∅ (map_to_list candidates) in
  let byType := sortCandidates <$> byType in
  mkUpdate version byType affected false ∅
    (if decide (length (default [] (byType !! AddressType)) = 0) then None
     else Some (default [] (byType !! AddressType))).

(** ** Dependencies (dependencies.go) *)

Definition sameService (old new : option ServiceResourceFacts) : bool :=
  match old, new with
  | None, _ => true
  | Some s, Some s' => bool_decide (s = s')
  | Some _, None => false
  end.

(** The old value keeps its wire name, Gateway owner and Service in the new one. *)
Definition sameWireIdentity (old : Resource) (new : option Resource) : bool :=
  match new with
  | None => false
  | Some next =>
      bool_decide (XDSName old = XDSName next)
      && bool_decide (GatewayOwner (Facts old) = GatewayOwner (Facts next))
      && sameService (rf_Service (Facts old)) (rf_Service (Facts next))
  end.

(** The queries for the workloads that could see the old Service or Gateway identity *)
Definition withdrawnQueries (old : Resource) : list WorkloadQuery :=
  match rf_Service (Facts old) with
  | Some s => [mkQuery false false "" zeroSourceRef "" None "" (ServiceKey s) "" "" ""]
  | None => []
  end
  ++ (if decide (GatewayOwner (Facts old) = "") then []
      else [mkQuery false false "" zeroSourceRef "" None "" "" (GatewayOwner (Facts old)) "" ""]).

(** The scopes of the workload resources a query returns *)
Definition workloadScopes (resources : list Resource) : gset WorkloadIdentity :=
  list_to_set (omap (λ r, workloadIdentity <$> rf_Workload (Facts r)) resources).

Definition zeroCandidate : Candidate := mkCandidate (mkKey "" "") [] false.

Definition indexWithdrawnScopes (index : candidateIndex) (before : ResourceSet)
    (change : ResourceChange) : candidateIndex :=
  match rc_Old change with
  | None => index
  | Some old =>
      if sameWireIdentity old (rc_New change) then index else
      let workloads := workloadScopes (q ← withdrawnQueries old; ListWorkloads before AddressType q) in
      if decide (size workloads = 0) then index else
      let candidate := default zeroCandidate (index !! Key old) in
      <[Key old := mkCandidate (ca_Key candidate)
          (mergeIdentity (ca_Identities candidate) (mkIdentity (XDSName old) (Facts old) workloads))
          (ca_DependencyOnly candidate)]> index
  end.

(** The Services of a workload that carry exactly the referenced key *)
Definition servicesFor (snapshot : ResourceSet) (key : string) : list Resource :=
  base.filter (λ r, ServiceKey <$> rf_Service (Facts r) = Some key)
    (Lookup snapshot AddressType key).

Definition indexWorkloadDependencies (index : candidateIndex) (snapshot : ResourceSet)
    (w : WorkloadResourceFacts) : candidateIndex :=
  let index := foldl (λ i key, addCandidates i (servicesFor snapshot key) (Some w))
                 index (wf_ServiceKeys w) in
  let index := foldl (λ i key,
                   addCandidates i (ListResourcesOwnedByGateway snapshot AddressType key) (Some w))
                 index (wf_GatewayReferences w) in
  let index := foldl (λ i name, addCandidates i (Lookup snapshot TrafficPolicyType name) None)
                 index (wf_TrafficPolicyRefs w) in
  let index := foldl (λ i name,
                   addCandidates i (Lookup snapshot WorkloadAuthorizationType name) None)
                 index (wf_AuthorizationRefs w) in
  addCandidates index (ListSandboxesByAttester snapshot (wf_WorkloadUID w)) None.

(** The targets of a reference that exist before or after the publication *)
Definition referenceTargets (before after : ResourceSet) (key : ResourceKey) : list Resource :=
  option_list (Get before key) ++ option_list (Get after key).

(** A change that moves neither facts nor names has no dependencies to reselect. *)
Definition sameSelection (change : ResourceChange) : bool :=
  match rc_Old change, rc_New change with
  | Some old, Some new =>
      Facts_Equal (Facts old) (Facts new) && bool_decide (XDSName old = XDSName new)
      && bool_decide (Aliases old = Aliases new)
  | _, _ => false
  end.

(** The members and dependencies of one resource in one snapshot *)
Definition indexAddress (index : candidateIndex) (resource : Resource) (snapshot : ResourceSet)
    : candidateIndex :=
  let index := match rf_Service (Facts resource) with
               | Some s => addCandidates index
                   (ListServiceMembers snapshot AddressType (ServiceKey s)) None
               | None => index
               end in
  match rf_Workload (Facts resource) with
  | Some w => indexWorkloadDependencies index snapshot w
  | None => index
  end.

(** One iteration over the changes; the second component collects namespaces. *)
Definition indexChange (before after : ResourceSet) (st : candidateIndex * gset string)
    (change : ResourceChange) : candidateIndex * gset string :=
  let '(index, namespaces) := st in
  if sameSelection change then (index, namespaces) else
  let index := foldl (λ i r,
      foldl (λ i key, addCandidates i (referenceTargets before after key) None)
        i (referenceKeys (Facts r))) index (changeResources change) in
  if decide (TypeURL (rc_Key change) ≠ AddressType) then (index, namespaces) else
  let index := indexWithdrawnScopes index before change in
  foldl (λ (st : candidateIndex * gset string) r,
      (foldl (λ i snapshot, indexAddress i r snapshot) st.1 [before; after],
       match rf_Workload (Facts r) with
       | Some w => {[wf_Namespace w]} ∪ st.2
       | None => st.2
       end)) (index, namespaces) (changeResources change).

Definition indexDependencies (index : candidateIndex) (before after : ResourceSet)
    (changes : list ResourceChange) : candidateIndex :=
  let '(index, namespaces) := foldl (indexChange before after) (index, ∅) changes in
  if decide (size namespaces = 0) then index else
  foldl (λ i snapshot,
      foldl (λ i namespace, addCandidates i (ListNamespaceAuthorizations snapshot namespace) None)
        (addCandidates i (ListGlobalAuthorizations snapshot) None) (elements namespaces))
    index [before; after].

Definition updateBetween (before after : ResourceSet) (changes : list ResourceChange) : Update :=
  let candidates := foldl (λ i change, addCandidates i (changeResources change) None) ∅ changes in
  indexedUpdate (rs_version after) (indexDependencies candidates before after changes).

(** ** Merging notices *)

(** An identity of [identities] that already holds all the evidence of [incoming] *)
Definition evidenceHeld (identities : list Identity) (incoming : Identity) : bool :=
  existsb (λ existing, sameIdentity existing incoming
                       && bool_decide (id_Workloads incoming ⊆ id_Workloads existing)) identities.

(** [candidateUnionSize]: the number of keys of the union, and whether it only holds
    evidence of [older]. *)
Fixpoint candidateUnionSize (older newer : list Candidate) {struct older} : nat * bool :=
  let fix inner (newer : list Candidate) : nat * bool :=
    match older, newer with
    | [], _ => (length newer, true)
    | _, [] => (length older, true)
    | o :: older', n :: newer' =>
        if decide (slt (Name (ca_Key o)) (Name (ca_Key n)))
        then let '(count, same) := candidateUnionSize older' newer in (S count, same)
        else if decide (slt (Name (ca_Key n)) (Name (ca_Key o)))
        then let '(count, same) := inner newer' in (S count, same)
        else let '(count, same) := candidateUnionSize older' newer' in
             (S count,
              negb (ca_DependencyOnly o && negb (ca_DependencyOnly n))
              && forallb (evidenceHeld (ca_Identities o)) (ca_Identities n) && same)
    end
  in inner newer.

(** The first identity with the name and facts of [incoming], updated; [None] without one *)
Fixpoint mergeEvidence (identities : list Identity) (incoming : Identity)
    : option (list Identity) :=
  match identities with
  | [] => None
  | existing :: rest =>
      if sameIdentity existing incoming
      then Some (mkIdentity (id_Name existing) (id_Facts existing)
                   (if decide (id_Workloads incoming ⊆ id_Workloads existing)
                    then id_Workloads existing
                    else if decide (size (id_Workloads existing) = 0) then id_Workloads incoming
                    else id_Workloads existing ∪ id_Workloads incoming) :: rest)
      else cons existing <$> mergeEvidence rest incoming
  end.

Definition addEvidence (identities : list Identity) (incoming : Identity) : list Identity :=
  match mergeEvidence identities incoming with
  | Some identities => identities
  | None => identities ++ [incoming]
  end.

Definition mergeCandidate (older newer : Candidate) : Candidate :=
  mkCandidate (ca_Key older) (foldl addEvidence (ca_Identities older) (ca_Identities newer))
    (ca_DependencyOnly older && ca_DependencyOnly newer).

(** The merge loop over two key-ordered lists *)
Fixpoint mergeOrdered (older newer : list Candidate) {struct older} : list Candidate :=
  let fix inner (newer : list Candidate) : list Candidate :=
    match older, newer with
    | [], _ => newer
    | _, [] => older
    | o :: older', n :: newer' =>
        if decide (slt (Name (ca_Key o)) (Name (ca_Key n))) then o :: mergeOrdered older' newer
        else if decide (slt (Name (ca_Key n)) (Name (ca_Key o))) then n :: inner newer'
        else mergeCandidate o n :: mergeOrdered older' newer'
    end
  in inner newer.

Definition mergeCandidates (older newer : list Candidate) : list Candidate * bool :=
  if decide (length older = 0) then (newer, negb (bool_decide (length newer = 0)))
  else if decide (length newer = 0) then (older, false)
  else let '(count, unchanged) := candidateUnionSize older newer in
       if unchanged && bool_decide (count = length older) then (older, false)
       else (mergeOrdered older newer, true).

(** One type of the newer notice: the merged candidates and whether Address changed *)
Definition mergeType (older : Update) (st : gmap string (list Candidate) * bool)
    (p : string * list Candidate) : gmap string (list Candidate) * bool :=
  let '(typeURL, incoming) := p in
  let '(batch, changed) := mergeCandidates (candidates_of older typeURL) incoming in
  if changed
  then (<[typeURL := batch]> st.1, st.2 || bool_decide (typeURL = AddressType))
  else st.

Definition Merge (older newer : Update) : Update :=
  let '(candidates, addressChanged) :=
    foldl (mergeType older) (u_candidates older, false) (map_to_list (u_candidates newer)) in
  let affected := if decide (u_affectedTypes newer ⊆ u_affectedTypes older)
                  then u_affectedTypes older
                  else u_affectedTypes older ∪ u_affectedTypes newer in
  let full := u_full older || u_full newer in
  let fullTypes :=
    if full && negb (u_full older && bool_decide (size (u_fullTypes older) = 0)
                     || u_full newer && bool_decide (size (u_fullTypes newer) = 0))
    then u_fullTypes older ∪ u_fullTypes newer else ∅ in
  mkUpdate (u_version newer) candidates affected full fullTypes
    (if addressChanged then Some (default [] (candidates !! AddressType))
     else u_addressScopes older).

(** ** Coalescing the changes of one batch *)

Definition sameResource (left right : option Resource) : bool :=
  match left, right with
  | None, None => true
  | Some l, Some r => bool_decide (Hash l = Hash r)
  | _, _ => false
  end.

Definition coalesceStep (indexed : gmap ResourceKey ResourceChange) (change : ResourceChange)
    : gmap ResourceKey ResourceChange :=
  let old := match indexed !! rc_Key change with
             | Some existing => rc_Old existing
             | None => rc_Old change
             end in
  <[rc_Key change := mkChange (rc_Key change) old (rc_New change)]> indexed.

Definition coalesceChanges (changes : list ResourceChange) : list ResourceChange :=
  base.filter (λ c, sameResource (rc_Old c) (rc_New c) = false)
    (map_to_list (foldl coalesceStep ∅ changes)).*2.
