(* ===== verification/Notices.v ===== *)
(** * Notices: merging invalidations loses nothing (src/pkg/xds/store/update.go)

    What a notice announces, the order in which merged notices keep every announcement,
    and what a publication announces of its changes. *)

From S2P Require Import Prelude Identity Resource ResourceIndex ResourceSet Update.

(** ** Coverage *)

Definition identity_covered (identities : list Identity) (i : Identity) : Prop :=
  ∃ j, j ∈ identities ∧ sameIdentity j i = true ∧ id_Workloads i ⊆ id_Workloads j.

Definition identities_covered (identities l : list Identity) : Prop :=
  ∀ i, i ∈ l → identity_covered identities i.

(** [d] announces at least what [c] does. *)
Definition candidate_le (c d : Candidate) : Prop :=
  ca_Key d = ca_Key c ∧ identities_covered (ca_Identities d) (ca_Identities c)
  ∧ (ca_DependencyOnly d = true → ca_DependencyOnly c = true).

Definition candidates_covered (l k : list Candidate) : Prop :=
  ∀ c, c ∈ k → ∃ d, d ∈ l ∧ candidate_le c d.

Definition covers (u v : Update) : Prop :=
  (∀ t, FullFor v t = true → FullFor u t = true)
  ∧ (∀ t, Affects v t = true → Affects u t = true)
  ∧ ∀ t, candidates_covered (candidates_of u t) (candidates_of v t).

Lemma sameIdentity_spec a b :
  sameIdentity a b = true ↔
  id_Name a = id_Name b ∧ cloneResourceFacts (id_Facts a) = cloneResourceFacts (id_Facts b).
Proof.
  unfold sameIdentity. by rewrite andb_true_iff, bool_decide_eq_true, Facts_Equal_spec.
Qed.

Lemma identity_covered_refl l i : i ∈ l → identity_covered l i.
Proof. intros Hi. exists i. by rewrite sameIdentity_spec. Qed.

Lemma identity_covered_trans l k i :
  identities_covered l k → identity_covered k i → identity_covered l i.
Proof.
  intros Hl (j & Hj & Hs & Hw). destruct (Hl j Hj) as (j' & Hj' & Hs' & Hw').
  exists j'. rewrite sameIdentity_spec in *. split_and!; [done|intuition congruence..|set_solver].
Qed.

Lemma identities_covered_refl l : identities_covered l l.
Proof. intros i Hi. by apply identity_covered_refl. Qed.

Lemma identities_covered_trans l1 l2 l3 :
  identities_covered l1 l2 → identities_covered l2 l3 → identities_covered l1 l3.
Proof. intros H12 H23 i Hi. eapply identity_covered_trans; eauto. Qed.

#[export] Instance candidate_le_preorder : PreOrder candidate_le.
Proof.
  split.
  - intros c. split_and!; [done|apply identities_covered_refl|done].
  - intros c d e (Hk & Hi & Hd) (Hk' & Hi' & Hd'). split_and!; [congruence| |auto].
    by eapply identities_covered_trans.
Qed.

Lemma candidates_covered_refl l : candidates_covered l l.
Proof. intros c Hc. exists c. by split. Qed.

Lemma candidates_covered_trans l1 l2 l3 :
  candidates_covered l1 l2 → candidates_covered l2 l3 → candidates_covered l1 l3.
Proof.
  intros H12 H23 c Hc. destruct (H23 c Hc) as (d & Hd & Hcd).
  destruct (H12 d Hd) as (e & He & Hde). exists e. split; [done|]. by etrans.
Qed.

#[export] Instance covers_preorder : PreOrder covers.
Proof.
  split.
  - intros u. split_and!; auto using candidates_covered_refl.
  - intros u v w (Hf & Ha & Hc) (Hf' & Ha' & Hc'). split_and!; [auto..|].
    intros t. by eapply candidates_covered_trans.
Qed.

(** ** Merging the evidence of one candidate *)

Lemma mergeEvidence_covered l i l' :
  mergeEvidence l i = Some l' → identity_covered l' i ∧ identities_covered l' l.
Proof.
  revert l'. induction l as [|e l IH]; intros l'; simpl; [done|].
  destruct (sameIdentity e i) eqn:Hs.
  - intros [= <-]. split.
    + eexists. split; [left|]. simpl. split; [done|].
      repeat case_decide; simpl; [done| |set_solver].
      done.
    + intros j [->|Hj]%elem_of_cons; [|by apply identity_covered_refl; right].
      eexists. split; [left|]. simpl. rewrite sameIdentity_spec. split; [done|].
      case_decide; [done|]. case_decide as Hz; [|set_solver].
      apply size_empty_iff in Hz. set_solver.
  - intros (k & Hk & ->)%fmap_Some. destruct (IH k Hk) as [(j & Hj & ?) Hl]. split.
    + exists j. split; [by right|done].
    + intros j' [->|Hj']%elem_of_cons; [by apply identity_covered_refl; left|].
      destruct (Hl j' Hj') as (j'' & ? & ?). exists j''. split; [by right|done].
Qed.

Lemma addEvidence_covered l i :
  identity_covered (addEvidence l i) i ∧ identities_covered (addEvidence l i) l.
Proof.
  unfold addEvidence. destruct (mergeEvidence l i) as [l'|] eqn:Hm.
  - by apply mergeEvidence_covered.
  - split; [apply identity_covered_refl; set_solver|].
    intros j Hj. apply identity_covered_refl. set_solver.
Qed.

Lemma foldl_addEvidence_covered k l :
  identities_covered (foldl addEvidence l k) l ∧ identities_covered (foldl addEvidence l k) k.
Proof.
  revert l. induction k as [|i k IH]; intros l; simpl.
  { split; [apply identities_covered_refl|by intros i Hi%elem_of_nil]. }
  destruct (IH (addEvidence l i)) as [Hl Hk]. destruct (addEvidence_covered l i) as [Hi Hl'].
  split; [exact (identities_covered_trans _ _ _ Hl Hl')|].
  intros j [->|Hj]%elem_of_cons; [exact (identity_covered_trans _ _ _ Hl Hi)|auto].
Qed.

Lemma mergeCandidate_le o n :
  ca_Key o = ca_Key n →
  candidate_le o (mergeCandidate o n) ∧ candidate_le n (mergeCandidate o n).
Proof.
  intros Hk. destruct (foldl_addEvidence_covered (ca_Identities n) (ca_Identities o)).
  split; (split_and!; simpl; [done|done|]); rewrite andb_true_iff; tauto.
Qed.

(** ** Key-ordered lists *)

Definition ca_name (c : Candidate) : string := Name (ca_Key c).

(** The candidates of one type, in strict name order *)
Definition ordered (t : string) (l : list Candidate) : Prop :=
  ssorted (ca_name <$> l) ∧ ∀ c, c ∈ l → TypeURL (ca_Key c) = t.

Lemma ordered_nil t : ordered t [].
Proof. split; [constructor|set_solver]. Qed.

Lemma ordered_cons t c l :
  ordered t (c :: l) ↔
  TypeURL (ca_Key c) = t ∧ (∀ d, d ∈ l → slt (ca_name c) (ca_name d)) ∧ ordered t l.
Proof.
  unfold ordered. csimpl. rewrite StronglySorted_cons. split.
  - intros [[Hf Hs] Ht]. split_and!; [apply Ht; left| |done|].
    + intros d Hd. rewrite Forall_forall in Hf. apply Hf. apply list_elem_of_fmap. eauto.
    + intros d Hd. apply Ht. by right.
  - intros (Hc & Hlt & Hs & Ht). split_and!; [|done|].
    + apply Forall_forall. intros x (d & -> & Hd)%list_elem_of_fmap. auto.
    + intros d [->|Hd]%elem_of_cons; auto.
Qed.

Lemma ordered_same_name t o n :
  TypeURL (ca_Key o) = t → TypeURL (ca_Key n) = t → ca_name o = ca_name n → ca_Key o = ca_Key n.
Proof.
  unfold ca_name. destruct (ca_Key o), (ca_Key n); simpl. congruence.
Qed.

Lemma mergeOrdered_nil_l l : mergeOrdered [] l = l.
Proof. by destruct l. Qed.
Lemma mergeOrdered_nil_r l : mergeOrdered l [] = l.
Proof. by destruct l. Qed.
Lemma mergeOrdered_cons o older n newer :
  mergeOrdered (o :: older) (n :: newer)
  = if decide (slt (ca_name o) (ca_name n)) then o :: mergeOrdered older (n :: newer)
    else if decide (slt (ca_name n) (ca_name o)) then n :: mergeOrdered (o :: older) newer
    else mergeCandidate o n :: mergeOrdered older newer.
Proof. reflexivity. Qed.

Lemma candidateUnionSize_cons o older n newer :
  candidateUnionSize (o :: older) (n :: newer)
  = if decide (slt (ca_name o) (ca_name n))
    then let '(count, same) := candidateUnionSize older (n :: newer) in (S count, same)
    else if decide (slt (ca_name n) (ca_name o))
    then let '(count, same) := candidateUnionSize (o :: older) newer in (S count, same)
    else let '(count, same) := candidateUnionSize older newer in
         (S count,
          negb (ca_DependencyOnly o && negb (ca_DependencyOnly n))
          && forallb (evidenceHeld (ca_Identities o)) (ca_Identities n) && same).
Proof. reflexivity. Qed.

(** The merge of two ordered lists: its order, its evidence, and its size. *)
Lemma mergeOrdered_names older newer c :
  c ∈ mergeOrdered older newer →
  (∃ o, o ∈ older ∧ ca_Key c = ca_Key o) ∨ (∃ n, n ∈ newer ∧ ca_Key c = ca_Key n).
Proof.
  revert newer. induction older as [|o older IHo]; intros newer.
  { rewrite mergeOrdered_nil_l. eauto. }
  induction newer as [|n newer IHn]; [rewrite mergeOrdered_nil_r; eauto|].
  rewrite mergeOrdered_cons. case_decide; [|case_decide]; intros [->|Hc]%elem_of_cons.
  - left. exists o. split; [left|done].
  - destruct (IHo _ Hc) as [(o' & ? & ?)|?]; [left|right]; [|done]. exists o'. split; [by right|done].
  - right. exists n. split; [left|done].
  - destruct (IHn Hc) as [?|(n' & ? & ?)]; [by left|right]. exists n'. split; [by right|done].
  - left. exists o. split; [left|done].
  - destruct (IHo _ Hc) as [(o' & ? & ?)|(n' & ? & ?)]; [left; exists o'|right; exists n'];
      (split; [by right|done]).
Qed.

Lemma not_slt_eq a b : ¬ slt a b → ¬ slt b a → a = b.
Proof. intros H1 H2. destruct (slt_trichotomy a b) as [?|[?|?]]; done. Qed.

Lemma mergeOrdered_ordered t older newer :
  ordered t older → ordered t newer → ordered t (mergeOrdered older newer).
Proof.
  revert newer. induction older as [|o older IHo]; intros newer Ho Hn.
  { by rewrite mergeOrdered_nil_l. }
  induction newer as [|n newer IHn]; [by rewrite mergeOrdered_nil_r|].
  pose proof Ho as (To & Lo & Ho')%ordered_cons. pose proof Hn as (Tn & Ln & Hn')%ordered_cons.
  assert (∀ x d l k, (∀ c, c ∈ l → slt x (ca_name c)) → (∀ c, c ∈ k → slt x (ca_name c)) →
    d ∈ mergeOrdered l k → slt x (ca_name d)) as Hlow.
  { intros x d l k Hl Hk Hd. unfold ca_name.
    destruct (mergeOrdered_names l k d Hd) as [(o' & ? & ->)|(n' & ? & ->)]; [by apply Hl|by apply Hk]. }
  rewrite mergeOrdered_cons. case_decide as H1; [|case_decide as H2]; apply ordered_cons.
  - split_and!; [done| |auto]. intros d. apply Hlow; [done|].
    intros c [->|Hc]%elem_of_cons; [done|]. etrans; eauto.
  - split_and!; [done| |auto]. intros d. apply Hlow; [|done].
    intros c [->|Hc]%elem_of_cons; [done|]. etrans; eauto.
  - pose proof (not_slt_eq _ _ H1 H2) as E. split_and!; [done| |auto].
    intros d. apply Hlow; [done|]. intros c Hc. change (slt (ca_name o) (ca_name c)).
    rewrite E. auto.
Qed.

Lemma mergeOrdered_covered t older newer :
  ordered t older → ordered t newer →
  candidates_covered (mergeOrdered older newer) older
  ∧ candidates_covered (mergeOrdered older newer) newer.
Proof.
  revert newer. induction older as [|o older IHo]; intros newer Ho Hn.
  { rewrite mergeOrdered_nil_l. split; [by intros c ?%elem_of_nil|apply candidates_covered_refl]. }
  induction newer as [|n newer IHn].
  { rewrite mergeOrdered_nil_r. split; [apply candidates_covered_refl|by intros c ?%elem_of_nil]. }
  pose proof Ho as (To & Lo & Ho')%ordered_cons. pose proof Hn as (Tn & Ln & Hn')%ordered_cons.
  assert (∀ l k d, candidates_covered l k → candidates_covered (d :: l) k) as Hweak.
  { intros l k d Hl c Hc. destruct (Hl c Hc) as (e & ? & ?). exists e. split; [by right|done]. }
  assert (∀ l k c d, candidates_covered l k → d ∈ l → candidate_le c d →
    candidates_covered l (c :: k)) as Hcons.
  { intros l k c d Hl Hd Hcd c' [->|Hc]%elem_of_cons; [eauto|auto]. }
  rewrite mergeOrdered_cons. case_decide as H1; [|case_decide as H2].
  - destruct (IHo (n :: newer) Ho' Hn) as [Hc1 Hc2].
    split; [|by apply Hweak]. eapply Hcons; [by apply Hweak|left|done].
  - destruct (IHn Hn') as [Hc1 Hc2].
    split; [by apply Hweak|]. eapply Hcons; [by apply Hweak|left|done].
  - pose proof (not_slt_eq _ _ H1 H2) as E.
    destruct (mergeCandidate_le o n) as [? ?]; [by eapply ordered_same_name|].
    destruct (IHo newer Ho' Hn') as [Hc1 Hc2].
    split; (eapply Hcons; [by apply Hweak|left|done]).
Qed.

Lemma candidateUnionSize_length older newer :
  (candidateUnionSize older newer).1 = length (mergeOrdered older newer).
Proof.
  revert newer. induction older as [|o older IHo]; intros newer; [by destruct newer|].
  induction newer as [|n newer IHn]; [done|].
  rewrite mergeOrdered_cons, candidateUnionSize_cons.
  case_decide; [|case_decide].
  - specialize (IHo (n :: newer)). destruct (candidateUnionSize _ _); simpl in *. by f_equal.
  - destruct (candidateUnionSize _ _); simpl in *. by f_equal.
  - specialize (IHo newer). destruct (candidateUnionSize _ _); simpl in *. by f_equal.
Qed.

Lemma mergeOrdered_length_le older newer : length older ≤ length (mergeOrdered older newer).
Proof.
  revert newer. induction older as [|o older IHo]; intros newer; [simpl; lia|].
  induction newer as [|n newer IHn]; [done|].
  rewrite mergeOrdered_cons. case_decide; [|case_decide]; simpl.
  - specialize (IHo (n :: newer)). lia.
  - simpl in IHn. lia.
  - specialize (IHo newer). lia.
Qed.

Lemma evidenceHeld_covered l i : evidenceHeld l i = true ↔ identity_covered l i.
Proof.
  unfold evidenceHeld, identity_covered. rewrite existsb_exists.
  setoid_rewrite <-list_elem_of_In. split.
  - intros (j & Hj & [Hs Hw%bool_decide_eq_true]%andb_true_iff). eauto.
  - intros (j & Hj & Hs & Hw). exists j. split; [done|].
    apply andb_true_iff. by rewrite bool_decide_eq_true.
Qed.

(** When the union has the keys and the evidence of [older], [older] covers [newer]. *)
Lemma candidateUnionSize_unchanged t older newer :
  ordered t older → ordered t newer →
  candidateUnionSize older newer = (length older, true) → candidates_covered older newer.
Proof.
  revert newer. induction older as [|o older IHo]; intros newer Ho Hn.
  { destruct newer; [|done]. intros _ c Hc. by apply elem_of_nil in Hc. }
  induction newer as [|n newer IHn]; [by intros _ c Hc%elem_of_nil|].
  pose proof Ho as (To & Lo & Ho')%ordered_cons. pose proof Hn as (Tn & Ln & Hn')%ordered_cons.
  rewrite candidateUnionSize_cons.
  assert (∀ l k d, candidates_covered l k → candidates_covered (d :: l) k) as Hweak.
  { intros l k d Hl c Hc. destruct (Hl c Hc) as (e & ? & ?). exists e. split; [by right|done]. }
  case_decide as H1; [|case_decide as H2].
  - destruct (candidateUnionSize older (n :: newer)) as [cnt same] eqn:Hu. simpl.
    intros [= -> ->]. apply Hweak. by apply IHo.
  - pose proof (candidateUnionSize_length (o :: older) newer) as Hl.
    pose proof (mergeOrdered_length_le (o :: older) newer) as Hle.
    destruct (candidateUnionSize (o :: older) newer) as [cnt same]. simpl in *.
    intros [= Hc _]. lia.
  - pose proof (not_slt_eq _ _ H1 H2) as E.
    destruct (candidateUnionSize older newer) as [cnt same] eqn:Hu. simpl.
    intros [= -> Hb]. apply andb_true_iff in Hb as [[Hd He]%andb_true_iff ->].
    intros c [->|Hc]%elem_of_cons.
    + exists o. split; [left|]. split_and!.
      * by eapply ordered_same_name.
      * intros i Hi. apply evidenceHeld_covered.
        apply Is_true_true, forallb_True in He. rewrite Forall_forall in He.
        apply Is_true_true. auto.
      * intros Hdo. rewrite Hdo in Hd. by destruct (ca_DependencyOnly n).
    + by apply (Hweak older newer o (IHo newer Ho' Hn' Hu)).
Qed.

Lemma mergeCandidates_spec t older newer :
  ordered t older → ordered t newer →
  let '(merged, changed) := mergeCandidates older newer in
  ordered t merged ∧ candidates_covered merged older ∧ candidates_covered merged newer
  ∧ (changed = false → merged = older).
Proof.
  intros Ho Hn. unfold mergeCandidates. case_decide as Hz.
  { apply length_zero_iff_nil in Hz as ->. split_and!; [done|by intros c ?%elem_of_nil| |].
    - apply candidates_covered_refl.
    - intros Hb. by apply negb_false_iff, bool_decide_eq_true, length_zero_iff_nil in Hb. }
  case_decide as Hz'.
  { apply length_zero_iff_nil in Hz' as ->.
    split_and!; [done|apply candidates_covered_refl|by intros c ?%elem_of_nil|done]. }
  destruct (candidateUnionSize older newer) as [cnt same] eqn:Hu.
  destruct (same && bool_decide (cnt = length older)) eqn:Hb.
  - apply andb_true_iff in Hb as [-> ->%bool_decide_eq_true].
    split_and!; [done|apply candidates_covered_refl| |done].
    by eapply candidateUnionSize_unchanged.
  - destruct (mergeOrdered_covered t older newer Ho Hn).
    split_and!; [by apply mergeOrdered_ordered|done|done|done].
Qed.

(** ** Merging notices *)

(** A notice is well formed: its candidates are ordered and announced by type, a type
    restriction only exists on a full notice, and a notice with Address candidates
    shares the index of exactly those. *)
Definition update_ok (u : Update) : Prop :=
  (∀ t, ordered t (candidates_of u t))
  ∧ (∀ t, candidates_of u t ≠ [] →
       t ∈ u_affectedTypes u ∧ (t = AddressType → WorkloadType ∈ u_affectedTypes u))
  ∧ (u_full u = false → u_fullTypes u = ∅)
  ∧ (candidates_of u AddressType ≠ [] →
       u_addressScopes u = Some (candidates_of u AddressType)).

Lemma mergeCandidates_unchanged older newer :
  (mergeCandidates older newer).2 = false → (mergeCandidates older newer).1 = older.
Proof.
  unfold mergeCandidates. case_decide as Hz; simpl.
  { apply length_zero_iff_nil in Hz as ->.
    by intros Hb%negb_false_iff%bool_decide_eq_true%length_zero_iff_nil. }
  case_decide; [done|]. destruct (candidateUnionSize older newer) as [cnt same].
  by destruct (same && _).
Qed.

Lemma mergeCandidates_nil older : mergeCandidates older [] = (older, false).
Proof.
  unfold mergeCandidates. case_decide as Hz; [|done].
  by apply length_zero_iff_nil in Hz as ->.
Qed.

Lemma mergeTypes_lookup older l m b t :
  NoDup l.*1 →
  let st := foldl (mergeType older) (m, b) l in
  st.1 !! t = match (list_to_map l : gmap string (list Candidate)) !! t with
              | Some incoming =>
                  if (mergeCandidates (candidates_of older t) incoming).2
                  then Some (mergeCandidates (candidates_of older t) incoming).1 else m !! t
              | None => m !! t
              end
  ∧ st.2 = b || match (list_to_map l : gmap string (list Candidate)) !! AddressType with
                | Some incoming => (mergeCandidates (candidates_of older AddressType) incoming).2
                | None => false
                end.
Proof.
  revert m b. induction l as [|[t1 inc] l IH]; intros m b Hnd.
  { cbv zeta. simpl. rewrite !lookup_empty. by rewrite orb_false_r. }
  csimpl in Hnd. apply NoDup_cons in Hnd as [Hnin Hnd]. cbv zeta in *. cbn [foldl].
  assert ((list_to_map l : gmap string (list Candidate)) !! t1 = None) as Hnone
    by by apply not_elem_of_list_to_map.
  destruct (mergeType older (m, b) (t1, inc)) as [m1 b1] eqn:Hstep.
  destruct (IH m1 b1 Hnd) as [-> ->]. clear IH. cbn [list_to_map foldr fst snd].
  unfold mergeType in Hstep.
  destruct (mergeCandidates (candidates_of older t1) inc) as [batch changed] eqn:Hm. split.
  - destruct (decide (t1 = t)) as [<-|Hne].
    + rewrite lookup_insert_eq, Hnone, Hm. simpl.
      destruct changed; injection Hstep as <- <-; [apply lookup_insert_eq|done].
    + rewrite lookup_insert_ne by done.
      assert (m1 !! t = m !! t) as ->; [|done].
      destruct changed; injection Hstep as <- <-; [by rewrite lookup_insert_ne|done].
  - destruct (decide (t1 = AddressType)) as [->|Hne].
    + rewrite lookup_insert_eq, Hnone, Hm, orb_false_r. simpl.
      destruct changed; injection Hstep as <- <-; [|by rewrite orb_false_r].
      by rewrite ?orb_true_r.
    + rewrite lookup_insert_ne by done. f_equal.
      destruct changed; injection Hstep as <- <-; [|done].
      rewrite bool_decide_eq_false_2 by done. by rewrite orb_false_r.
Qed.

(** The candidates of a merged notice, type by type. *)
Lemma candidates_of_Merge o n t :
  candidates_of (Merge o n) t = (mergeCandidates (candidates_of o t) (candidates_of n t)).1.
Proof.
  pose proof (mergeTypes_lookup o (map_to_list (u_candidates n)) (u_candidates o) false t
    (NoDup_fst_map_to_list _)) as [Hl _]. rewrite list_to_map_to_list in Hl.
  unfold Merge. destruct (foldl _ _ _) as [cands changed]. simpl in Hl.
  unfold candidates_of at 1; simpl. rewrite Hl. unfold candidates_of at 2.
  unfold candidates_of in *. destruct (u_candidates n !! t) as [inc|] eqn:Hn; simpl.
  - destruct (mergeCandidates _ inc).2 eqn:Hc; [done|]. by rewrite mergeCandidates_unchanged.
  - by rewrite mergeCandidates_nil.
Qed.

Lemma addressScopes_Merge o n :
  u_addressScopes (Merge o n)
  = if (mergeCandidates (candidates_of o AddressType) (candidates_of n AddressType)).2
    then Some (candidates_of (Merge o n) AddressType) else u_addressScopes o.
Proof.
  pose proof (mergeTypes_lookup o (map_to_list (u_candidates n)) (u_candidates o) false AddressType
    (NoDup_fst_map_to_list _)) as [_ Hl]. rewrite list_to_map_to_list in Hl.
  unfold Merge. destruct (foldl _ _ _) as [cands changed]. simpl in Hl.
  assert ((mergeCandidates (candidates_of o AddressType) (candidates_of n AddressType)).2 = changed)
    as ->; [|done]. rewrite Hl. unfold candidates_of.
  destruct (u_candidates n !! AddressType) as [inc|]; [done|]. by rewrite mergeCandidates_nil.
Qed.

Lemma affectedTypes_Merge o n :
  u_affectedTypes (Merge o n) = u_affectedTypes o ∪ u_affectedTypes n.
Proof.
  unfold Merge. destruct (foldl _ _ _) as [cands changed]. simpl.
  case_decide; [set_solver|done].
Qed.

Lemma FullFor_spec u t :
  FullFor u t = true ↔ u_full u = true ∧ (u_fullTypes u = ∅ ∨ t ∈ u_fullTypes u).
Proof.
  unfold FullFor.
  by rewrite andb_true_iff, orb_true_iff, !bool_decide_eq_true, size_empty_iff, leibniz_equiv_iff.
Qed.

Lemma fullTypes_Merge o n :
  update_ok o → update_ok n →
  u_full (Merge o n) = u_full o || u_full n
  ∧ u_fullTypes (Merge o n)
    = if decide ((u_full o = true ∧ u_fullTypes o = ∅) ∨ (u_full n = true ∧ u_fullTypes n = ∅))
      then ∅ else u_fullTypes o ∪ u_fullTypes n.
Proof.
  intros (_ & _ & Ho & _) (_ & _ & Hn & _).
  unfold Merge. destruct (foldl _ _ _) as [cands changed]. simpl. split; [done|].
  assert (∀ u, u_full u && bool_decide (size (u_fullTypes u) = 0) = true
    ↔ u_full u = true ∧ u_fullTypes u = ∅) as Hu.
  { intros u. by rewrite andb_true_iff, bool_decide_eq_true, size_empty_iff, leibniz_equiv_iff. }
  destruct (decide _) as [Hd|Hd].
  - assert (u_full o && bool_decide (size (u_fullTypes o) = 0)
      || u_full n && bool_decide (size (u_fullTypes n) = 0) = true) as ->
      by (rewrite orb_true_iff, !Hu; done). by rewrite andb_false_r.
  - assert (u_full o && bool_decide (size (u_fullTypes o) = 0)
      || u_full n && bool_decide (size (u_fullTypes n) = 0) = false) as ->
      by (apply not_true_iff_false; rewrite orb_true_iff, !Hu; done). rewrite andb_true_r.
    destruct (u_full o), (u_full n); try done. simpl. rewrite Ho, Hn by done. set_solver.
Qed.

Lemma FullFor_Merge o n t :
  update_ok o → update_ok n → FullFor (Merge o n) t = FullFor o t || FullFor n t.
Proof.
  intros Ho Hn. destruct (fullTypes_Merge o n Ho Hn) as [Hf Ht].
  destruct Ho as (_ & _ & Ho & _), Hn as (_ & _ & Hn & _).
  apply eq_true_iff_eq. rewrite orb_true_iff, !FullFor_spec, Hf, Ht, orb_true_iff.
  case_decide as Hd; [naive_solver|].
  destruct (u_full o) eqn:Fo, (u_full n) eqn:Fn; try rewrite (Ho eq_refl);
    try rewrite (Hn eq_refl); set_solver.
Qed.

Lemma Affects_Merge o n t :
  update_ok o → update_ok n → Affects (Merge o n) t = Affects o t || Affects n t.
Proof.
  intros Ho Hn. unfold Affects. rewrite FullFor_Merge, affectedTypes_Merge by done.
  apply eq_bool_prop_intro. rewrite !orb_True, !bool_decide_spec. set_solver.
Qed.

(** Merging keeps notices well formed and announces what either of them does. *)
Lemma Merge_ok o n : update_ok o → update_ok n → update_ok (Merge o n).
Proof.
  intros Ho Hn. pose proof (fullTypes_Merge o n Ho Hn) as [Hf Ht].
  destruct Ho as (Oo & Ao & Fo & So), Hn as (On & An & Fn & Sn). split_and!.
  - intros t. rewrite candidates_of_Merge. pose proof (mergeCandidates_spec t _ _ (Oo t) (On t)) as H.
    destruct (mergeCandidates _ _) as [? ?]. apply H.
  - intros t. rewrite candidates_of_Merge, affectedTypes_Merge. intros Hne.
    assert (candidates_of o t ≠ [] ∨ candidates_of n t ≠ []) as [H|H].
    { destruct (candidates_of o t); [|by left]. destruct (candidates_of n t); [done|by right]. }
    + destruct (Ao t H). set_solver.
    + destruct (An t H). set_solver.
  - rewrite Hf, Ht. clear Hf Ht. intros [F1 F2]%orb_false_iff. rewrite Fo, Fn by done.
    destruct (decide _); [reflexivity|]. apply (left_id_L ∅ (∪)).
  - rewrite addressScopes_Merge, candidates_of_Merge.
    destruct (mergeCandidates _ _).2 eqn:Hc; [done|].
    rewrite mergeCandidates_unchanged by done. auto.
Qed.

Lemma Merge_covers o n :
  update_ok o → update_ok n → covers (Merge o n) o ∧ covers (Merge o n) n.
Proof.
  intros Ho Hn. split; (split_and!; intros t; [rewrite FullFor_Merge by done|
    rewrite Affects_Merge by done|]); try (rewrite orb_true_iff; tauto);
    rewrite candidates_of_Merge;
    pose proof (mergeCandidates_spec t _ _ (proj1 Ho t) (proj1 Hn t)) as H;
    destruct (mergeCandidates _ _) as [? ?]; tauto.
Qed.

(** ** What a publication announces *)

Definition index_ok (i : candidateIndex) : Prop := ∀ k c, i !! k = Some c → ca_Key c = k.

Lemma byType_lookup (l : list (ResourceKey * Candidate)) m t :
  default [] (foldl (λ (m : gmap string (list Candidate)) (p : ResourceKey * Candidate),
      <[TypeURL p.1 := default [] (m !! TypeURL p.1) ++ [p.2]]> m) m l !! t)
  = default [] (m !! t) ++ (base.filter (λ p, TypeURL p.1 = t) l).*2.
Proof.
  revert m. induction l as [|[k c] l IH]; intros m; simpl; [by rewrite app_nil_r|].
  rewrite IH, filter_cons. simpl. destruct (decide (TypeURL k = t)) as [<-|Hne].
  - rewrite lookup_insert_eq. simpl. by rewrite <-app_assoc.
  - by rewrite lookup_insert_ne.
Qed.

Lemma affected_elem (l : list (ResourceKey * Candidate)) (s : gset string) x :
  x ∈ foldl (λ (s : gset string) (p : ResourceKey * Candidate),
        {[TypeURL p.1]} ∪ (if decide (TypeURL p.1 = AddressType) then {[WorkloadType]} else ∅) ∪ s)
      s l ↔
  x ∈ s ∨ ∃ k c, (k, c) ∈ l ∧ (x = TypeURL k ∨ TypeURL k = AddressType ∧ x = WorkloadType).
Proof.
  revert s. induction l as [|[k c] l IH]; intros s; simpl.
  { split; [by left|]. intros [?|(? & ? & ?%elem_of_nil & _)]; done. }
  rewrite IH. split.
  - intros [Hx|(k' & c' & Hin & Hx)]; [|right; exists k', c'; split; [by right|done]].
    rewrite !elem_of_union in Hx. destruct Hx as [[Hx|Hx]|Hx]; [| |by left].
    + right. exists k, c. split; [left|]. set_solver.
    + right. exists k, c. split; [left|]. case_decide; set_solver.
  - intros [Hx|(k' & c' & [Heq|Hin]%elem_of_cons & Hx)].
    + left. set_solver.
    + injection Heq as -> ->. left. destruct Hx as [->|[Ha ->]]; [set_solver|].
      rewrite decide_True by done. set_solver.
    + right. eauto.
Qed.

Lemma candidates_of_indexed v i t :
  candidates_of (indexedUpdate v i) t
  = sortCandidates (base.filter (λ p, TypeURL p.1 = t) (map_to_list i)).*2.
Proof.
  unfold indexedUpdate, candidates_of; simpl. rewrite lookup_fmap.
  pose proof (byType_lookup (map_to_list i) ∅ t) as H. rewrite lookup_empty in H. simpl in H.
  rewrite <-H. by destruct (foldl _ _ _ !! t).
Qed.

Lemma elem_of_candidates_of_indexed v i t c :
  index_ok i →
  c ∈ candidates_of (indexedUpdate v i) t ↔ i !! ca_Key c = Some c ∧ TypeURL (ca_Key c) = t.
Proof.
  intros Hi. rewrite candidates_of_indexed. unfold sortCandidates.
  rewrite elem_of_sort_on, list_elem_of_fmap. split.
  - intros ([k c'] & -> & [Ht Hin%elem_of_map_to_list]%list_elem_of_filter). simpl in *.
    by rewrite (Hi _ _ Hin).
  - intros [Hc Ht]. exists (ca_Key c, c). split; [done|]. apply list_elem_of_filter.
    by rewrite elem_of_map_to_list.
Qed.

Lemma indexedUpdate_ok v i : index_ok i → update_ok (indexedUpdate v i).
Proof.
  intros Hi. split_and!.
  - intros t. split.
    + rewrite candidates_of_indexed. apply sort_on_ssorted.
      rewrite <-list_fmap_compose. apply (NoDup_fmap_2_strong (ca_name ∘ snd)).
      * intros [k c] [k' c'] [Ht Hk%elem_of_map_to_list]%list_elem_of_filter
          [Ht' Hk'%elem_of_map_to_list]%list_elem_of_filter. simpl in *. unfold ca_name.
        rewrite (Hi _ _ Hk), (Hi _ _ Hk'). intros Hn. destruct k, k'; simpl in *. subst. congruence.
      * apply NoDup_filter, NoDup_map_to_list.
    + intros c Hc. by apply elem_of_candidates_of_indexed in Hc as [_ ?].
  - intros t Hne. destruct (candidates_of (indexedUpdate v i) t) as [|c l] eqn:Hl; [done|].
    assert (c ∈ candidates_of (indexedUpdate v i) t) as Hc by (rewrite Hl; left).
    apply elem_of_candidates_of_indexed in Hc as [Hc Ht]; [|done].
    unfold indexedUpdate; simpl. rewrite !affected_elem.
    apply elem_of_map_to_list in Hc. split; [|intros ->]; right; eauto 10.
  - done.
  - intros Hne. unfold candidates_of in *. unfold indexedUpdate in *. simpl in *.
    rewrite decide_False; [done|]. by intros ?%length_zero_iff_nil.
Qed.
