(* ===== verification/Dependencies.v ===== *)
(** * Dependencies: what a publication announces (src/pkg/xds/store/dependencies.go)

    A publication announces its changes and the resources whose selection depends on
    them. The dependencies are stated as a relation of their own; the index the code
    builds announces exactly the keys of that relation, with the evidence it asks for. *)

From S2P Require Import Prelude Identity Resource ResourceIndex ResourceSet Update Notices.

(** ** Growing indexes *)

(** [j] announces at least what [i] does. *)
Definition index_le (i j : candidateIndex) : Prop :=
  ∀ k c, i !! k = Some c → ∃ d, j !! k = Some d ∧ candidate_le c d.

#[export] Instance index_le_preorder : PreOrder index_le.
Proof.
  split.
  - intros i k c Hc. exists c. by split.
  - intros i j l Hij Hjl k c Hc. destruct (Hij k c Hc) as (d & Hd & Hcd).
    destruct (Hjl k d Hd) as (e & He & Hde). exists e. split; [done|]. by etrans.
Qed.

(** The resource is announced, for the scope of [workload] or for everyone. *)
Definition announced (i : candidateIndex) (r : Resource) (workload : option WorkloadResourceFacts)
    : Prop :=
  ∃ c, i !! Key r = Some c
    ∧ identity_covered (ca_Identities c)
        (mkIdentity (XDSName r) (Facts r)
           (match workload with Some w => {[workloadIdentity w]} | None => ∅ end))
    ∧ (workload = None → ca_DependencyOnly c = false).

Lemma announced_le i j r w : index_le i j → announced i r w → announced j r w.
Proof.
  intros Hij (c & Hc & Hi & Hd). destruct (Hij _ _ Hc) as (d & Hd' & _ & Hcov & Hdep).
  exists d. split_and!; [done|by eapply identity_covered_trans|].
  intros Hw. specialize (Hd Hw). destruct (ca_DependencyOnly d); [|done].
  rewrite Hdep in Hd; done.
Qed.

Lemma mergeIdentity_covered l i :
  identity_covered (mergeIdentity l i) i ∧ identities_covered (mergeIdentity l i) l.
Proof.
  induction l as [|e l [Hi Hl]]; simpl.
  { split; [by apply identity_covered_refl; left|by intros j ?%elem_of_nil]. }
  destruct (sameIdentity e i) eqn:Hs.
  - split.
    + eexists. split; [left|]. simpl. split; [done|set_solver].
    + intros j [->|Hj]%elem_of_cons; [|by apply identity_covered_refl; right].
      eexists. split; [left|]. rewrite sameIdentity_spec. simpl. split; [done|set_solver].
  - destruct Hi as (j & Hj & Hji). split; [exists j; split; [by right|done]|].
    intros j' [->|Hj']%elem_of_cons; [by apply identity_covered_refl; left|].
    destruct (Hl j' Hj') as (j'' & ? & ?). exists j''. split; [by right|done].
Qed.

(** A relation between resources and the scope they are announced for *)
Abbreviation dependency := (Resource → option WorkloadResourceFacts → Prop).

Section builds.
Context (D : gset ResourceKey).

(** From [i], which announces the keys of [D], the code builds [j]: everything [i]
    announces, and exactly the dependencies [R] on top. *)
Definition builds (R : dependency) (i j : candidateIndex) : Prop :=
  index_ok i → D ⊆ dom i →
  index_ok j ∧ index_le i j
  ∧ (∀ k, k ∈ dom j ↔ k ∈ dom i ∨ ∃ r w, R r w ∧ Key r = k)
  ∧ ∀ r w, R r w → announced j r w.

Lemma builds_refl i : builds (λ _ _, False) i i.
Proof. intros Hi HD. split_and!; [done|done|naive_solver|done]. Qed.

Lemma builds_ext R R' i j : (∀ r w, R' r w ↔ R r w) → builds R i j → builds R' i j.
Proof.
  intros HR Hb Hi HD. destruct (Hb Hi HD) as (Hj & Hle & Hd & Ha). split_and!; [done..| |].
  - intros k. rewrite Hd. by setoid_rewrite HR.
  - intros r w ?. apply Ha. by apply HR.
Qed.

Lemma builds_trans R S i j l :
  builds R i j → builds S j l → builds (λ r w, R r w ∨ S r w) i l.
Proof.
  intros Hij Hjl Hi HD. destruct (Hij Hi HD) as (Hj & Hle & Hd & Ha).
  destruct (Hjl Hj) as (Hl & Hle' & Hd' & Ha'); [set_solver|]. split_and!; [done|by etrans| |].
  - intros k. rewrite Hd', Hd. naive_solver.
  - intros r w [?|?]; [|auto]. eapply announced_le; eauto.
Qed.

Lemma builds_foldl {A} (f : candidateIndex → A → candidateIndex) (R : A → dependency) l i :
  (∀ i x, x ∈ l → builds (R x) i (f i x)) →
  builds (λ r w, ∃ x, x ∈ l ∧ R x r w) i (foldl f i l).
Proof.
  revert i. induction l as [|x l IH]; intros i Hf; simpl.
  { eapply builds_ext, builds_refl. intros r w. split; [|done].
    by intros (? & ?%elem_of_nil & _). }
  eapply builds_ext; [|eapply builds_trans; [apply Hf; left|apply IH; intros; apply Hf; by right]].
  intros r w. simpl. setoid_rewrite elem_of_cons. naive_solver.
Qed.

Lemma addCandidate_builds i r w :
  builds (λ r' w', r' = r ∧ w' = w) i (addCandidate i r w).
Proof.
  intros Hi _. unfold addCandidate. split_and!.
  - intros k c [[<- <-]|[_ ?]]%lookup_insert_Some; [done|auto].
  - intros k c Hc. destruct (decide (Key r = k)) as [<-|Hne]; last first.
    { rewrite lookup_insert_ne by done. exists c. by split. }
    rewrite lookup_insert_eq, Hc. eexists. split; [done|]. split_and!; simpl.
    + by rewrite (Hi _ _ Hc).
    + apply mergeIdentity_covered.
    + by destruct w.
  - intros k. rewrite dom_insert. set_solver.
  - intros ? ? [-> ->]. eexists. rewrite lookup_insert_eq. split; [done|]. split; simpl.
    + exact (proj1 (mergeIdentity_covered _ _)).
    + intros ->. by destruct (i !! Key r).
Qed.

Lemma addCandidates_builds i rs w :
  builds (λ r w', r ∈ rs ∧ w' = w) i (addCandidates i rs w).
Proof.
  eapply builds_ext; [|apply (builds_foldl _ (λ x r' w', r' = x ∧ w' = w))].
  - naive_solver.
  - intros. apply addCandidate_builds.
Qed.

(** A family of resources for each key of a list *)
Lemma addFamilies_builds (family : string → list Resource) keys w i :
  builds (λ r w', w' = w ∧ ∃ key, key ∈ keys ∧ r ∈ family key) i
    (foldl (λ i key, addCandidates i (family key) w) i keys).
Proof.
  eapply builds_ext; [|apply (builds_foldl _ (λ key r w', r ∈ family key ∧ w' = w))].
  - naive_solver.
  - intros. apply addCandidates_builds.
Qed.
End builds.

(** ** The dependencies of a change *)

(** What a workload with facts [w] selects in a snapshot *)
Inductive workload_dependency (snapshot : ResourceSet) (w : WorkloadResourceFacts) : dependency :=
| wd_service key r : key ∈ wf_ServiceKeys w → r ∈ servicesFor snapshot key →
    workload_dependency snapshot w r (Some w)
| wd_gateway key r : key ∈ wf_GatewayReferences w →
    r ∈ ListResourcesOwnedByGateway snapshot AddressType key →
    workload_dependency snapshot w r (Some w)
| wd_policy name r : name ∈ wf_TrafficPolicyRefs w → r ∈ Lookup snapshot TrafficPolicyType name →
    workload_dependency snapshot w r None
| wd_authorization name r : name ∈ wf_AuthorizationRefs w →
    r ∈ Lookup snapshot WorkloadAuthorizationType name →
    workload_dependency snapshot w r None
| wd_sandbox r : r ∈ ListSandboxesByAttester snapshot (wf_WorkloadUID w) →
    workload_dependency snapshot w r None.

(** ... and what an Address resource does: the members of a Service, or the
    dependencies of a workload. *)
Inductive address_dependency (snapshot : ResourceSet) (a : Resource) : dependency :=
| ad_member s r : rf_Service (Facts a) = Some s →
    r ∈ ListServiceMembers snapshot AddressType (ServiceKey s) →
    address_dependency snapshot a r None
| ad_workload w r scope : rf_Workload (Facts a) = Some w →
    workload_dependency snapshot w r scope →
    address_dependency snapshot a r scope.

(** The old identity of a resource, for the workloads that could see it *)
Inductive withdrawn (before : ResourceSet) (c : ResourceChange) : dependency :=
| wi_scope old q m w : rc_Old c = Some old →
    sameWireIdentity old (rc_New c) = false →
    q ∈ withdrawnQueries old → m ∈ ListWorkloads before AddressType q →
    rf_Workload (Facts m) = Some w → withdrawn before c old (Some w).

(** A change of selection announces the targets of its references and, for an Address,
    the scopes that lose it and the dependencies of its old and new value. *)
Inductive change_dependency (before after : ResourceSet) (c : ResourceChange) : dependency :=
| ch_reference a key r : a ∈ changeResources c → key ∈ referenceKeys (Facts a) →
    r ∈ referenceTargets before after key → change_dependency before after c r None
| ch_withdrawn r scope : TypeURL (rc_Key c) = AddressType → withdrawn before c r scope →
    change_dependency before after c r scope
| ch_address a snapshot r scope : TypeURL (rc_Key c) = AddressType → a ∈ changeResources c →
    snapshot ∈ [before; after] → address_dependency snapshot a r scope →
    change_dependency before after c r scope.

(** A publication announces its changes, their dependencies, and the authorizations
    that apply to the namespaces of the workloads that changed. *)
Inductive publication_dependency (before after : ResourceSet) (changes : list ResourceChange)
    : dependency :=
| pd_change c r : c ∈ changes → r ∈ changeResources c →
    publication_dependency before after changes r None
| pd_dependency c r scope : c ∈ changes → sameSelection c = false →
    change_dependency before after c r scope →
    publication_dependency before after changes r scope
| pd_authorization c a w snapshot r : c ∈ changes → sameSelection c = false →
    TypeURL (rc_Key c) = AddressType → a ∈ changeResources c → rf_Workload (Facts a) = Some w →
    snapshot ∈ [before; after] →
    r ∈ ListGlobalAuthorizations snapshot ++ ListNamespaceAuthorizations snapshot (wf_Namespace w) →
    publication_dependency before after changes r None.

(** ** The code builds exactly these *)

Section exact.
Context (D : gset ResourceKey).

Lemma indexWorkloadDependencies_builds snapshot w i :
  builds D (workload_dependency snapshot w) i (indexWorkloadDependencies i snapshot w).
Proof.
  unfold indexWorkloadDependencies.
  eapply builds_ext; last (eapply builds_trans; [|apply addCandidates_builds]);
    last (eapply builds_trans; [|apply addFamilies_builds]);
    last (eapply builds_trans; [|apply addFamilies_builds]);
    last (eapply builds_trans; apply addFamilies_builds).
  intros r w'. simpl. split.
  - destruct 1; naive_solver.
  - intros [[[[(-> & ? & ? & ?)|(-> & ? & ? & ?)]|(-> & ? & ? & ?)]|(-> & ? & ? & ?)]|[? ->]].
    + by eapply wd_service.
    + by eapply wd_gateway.
    + by eapply wd_policy.
    + by eapply wd_authorization.
    + by eapply wd_sandbox.
Qed.

Lemma indexAddress_builds a snapshot i :
  builds D (address_dependency snapshot a) i (indexAddress i a snapshot).
Proof.
  unfold indexAddress. destruct (rf_Service (Facts a)) as [s|] eqn:Hs.
  - destruct (rf_Workload (Facts a)) as [w|] eqn:Hw.
    + eapply builds_ext;
        [|eapply builds_trans; [apply addCandidates_builds|apply indexWorkloadDependencies_builds]].
      intros r w'. split; [destruct 1; naive_solver|].
      intros [[? ->]|?]; [by eapply ad_member|by eapply ad_workload].
    + eapply builds_ext; [|apply addCandidates_builds].
      intros r w'. split; [destruct 1; naive_solver|]. intros [? ->]. by eapply ad_member.
  - destruct (rf_Workload (Facts a)) as [w|] eqn:Hw.
    + eapply builds_ext; [|apply indexWorkloadDependencies_builds].
      intros r w'. split; [destruct 1; naive_solver|]. intros ?. by eapply ad_workload.
    + eapply builds_ext, builds_refl. intros r w'. split; [destruct 1; naive_solver|done].
Qed.

Lemma elem_of_workloadScopes x resources :
  x ∈ workloadScopes resources ↔
  ∃ m w, m ∈ resources ∧ rf_Workload (Facts m) = Some w ∧ x = workloadIdentity w.
Proof.
  unfold workloadScopes. rewrite elem_of_list_to_set, list_elem_of_omap.
  setoid_rewrite fmap_Some. naive_solver.
Qed.

Lemma withdrawn_scope before c r w :
  withdrawn before c r (Some w) ↔
  rc_Old c = Some r ∧ sameWireIdentity r (rc_New c) = false
  ∧ ∃ q m, q ∈ withdrawnQueries r ∧ m ∈ ListWorkloads before AddressType q
           ∧ rf_Workload (Facts m) = Some w.
Proof.
  split; [inversion 1; subst; eauto 10|]. intros (? & ? & q & m & ? & ? & ?).
  by eapply wi_scope.
Qed.

Lemma withdrawn_None before c r : ¬ withdrawn before c r None.
Proof. by inversion 1. Qed.

(** Adding evidence to a candidate that is there *)
Lemma addEvidence_builds (R : dependency) i cand old workloads :
  i !! Key old = Some cand →
  (∀ r w, R r w → r = old ∧ ∃ f, w = Some f ∧ workloadIdentity f ∈ workloads) →
  builds D R i (<[Key old := mkCandidate (ca_Key cand)
    (mergeIdentity (ca_Identities cand) (mkIdentity (XDSName old) (Facts old) workloads))
    (ca_DependencyOnly cand)]> i).
Proof.
  intros Hc HR Hi HD. split_and!.
  - intros k d [[<- <-]|[_ ?]]%lookup_insert_Some; [|auto]. simpl. by apply Hi.
  - intros k d Hd. destruct (decide (Key old = k)) as [<-|Hne]; last first.
    { rewrite lookup_insert_ne by done. exists d. by split. }
    rewrite lookup_insert_eq. rewrite Hc in Hd. injection Hd as <-. eexists. split; [done|].
    split_and!; simpl; [done|apply mergeIdentity_covered|done].
  - intros k. assert (Key old ∈ dom i) by (apply elem_of_dom; eauto).
    rewrite dom_insert. split; [set_solver|]. intros [?|(r & w & [-> _]%HR & <-)]; set_solver.
  - intros r w (-> & f & -> & Hf)%HR. eexists. rewrite lookup_insert_eq. split; [done|].
    split; [|done]. simpl. destruct (mergeIdentity_covered (ca_Identities cand)
      (mkIdentity (XDSName old) (Facts old) workloads)) as [(j & Hj & Hs & Hsub) _].
    exists j. split_and!; [done..|]. simpl in *. set_solver.
Qed.

Lemma indexWithdrawnScopes_builds before c i :
  (∀ old, rc_Old c = Some old → Key old ∈ D) →
  builds D (withdrawn before c) i (indexWithdrawnScopes i before c).
Proof.
  intros Hold. unfold indexWithdrawnScopes.
  assert ((∀ r w, ¬ withdrawn before c r (Some w)) → builds D (withdrawn before c) i i) as Hno.
  { intros Hn. eapply builds_ext, builds_refl. intros r [w|]; [by split; [apply Hn|]|].
    split; [apply withdrawn_None|done]. }
  destruct (rc_Old c) as [old|] eqn:Ho.
  2: { apply Hno. intros r w (? & _)%withdrawn_scope. congruence. }
  destruct (sameWireIdentity old (rc_New c)) eqn:Hsame.
  { apply Hno. intros r w (? & ? & _)%withdrawn_scope. congruence. }
  set (workloads := workloadScopes _).
  assert (∀ r w, withdrawn before c r (Some w) → r = old ∧ workloadIdentity w ∈ workloads) as Hw.
  { intros r w (Hr & _ & q & m & Hq & Hm & Hwm)%withdrawn_scope. split; [congruence|].
    assert (r = old) as -> by congruence. apply elem_of_workloadScopes. exists m, w.
    split; [|done]. apply list_elem_of_bind. eauto. }
  case_decide as Hz.
  { apply size_empty_inv in Hz. apply Hno. intros r w [_ Hin]%Hw.
    apply (not_elem_of_empty (C:=gset WorkloadIdentity) (workloadIdentity w)). by rewrite <-Hz. }
  intros Hi HD. assert (Key old ∈ dom i) as [cand Hc]%elem_of_dom by set_solver.
  rewrite Hc. simpl. apply addEvidence_builds; [done| |done|done].
  intros r [w|] Hr; [|by apply withdrawn_None in Hr]. apply Hw in Hr as [-> ?]. eauto.
Qed.

Lemma foldl_pair {A B C} (f : A → C → A) (g : B → C → B) l a b :
  foldl (λ (st : A * B) x, (f st.1 x, g st.2 x)) (a, b) l = (foldl f a l, foldl g b l).
Proof. revert a b. induction l as [|x l IH]; intros a b; simpl; [done|apply IH]. Qed.

Lemma namespaces_fold (l : list Resource) (ns : gset string) x :
  x ∈ foldl (λ ns r, match rf_Workload (Facts r) with
                     | Some w => {[wf_Namespace w]} ∪ ns
                     | None => ns
                     end) ns l ↔
  x ∈ ns ∨ ∃ a w, a ∈ l ∧ rf_Workload (Facts a) = Some w ∧ x = wf_Namespace w.
Proof.
  revert ns. induction l as [|a l IH]; intros ns; simpl.
  { split; [by left|]. intros [?|(? & ? & ?%elem_of_nil & _)]; done. }
  rewrite IH. setoid_rewrite elem_of_cons. destruct (rf_Workload (Facts a)) as [w|] eqn:Hw.
  - rewrite elem_of_union, elem_of_singleton. split; [naive_solver|].
    intros [?|(a' & w' & [->|?] & Hw' & ->)]; [tauto| |right; eauto 10].
    rewrite Hw in Hw'. injection Hw' as <-. tauto.
  - split; [naive_solver|]. intros [?|(a' & w' & [->|?] & Hw' & ->)]; [tauto|congruence|].
    right; eauto 10.
Qed.

(** The namespaces of the workloads an Address change of selection concerns *)
Definition changed_namespace (c : ResourceChange) (x : string) : Prop :=
  sameSelection c = false ∧ TypeURL (rc_Key c) = AddressType
  ∧ ∃ a w, a ∈ changeResources c ∧ rf_Workload (Facts a) = Some w ∧ x = wf_Namespace w.

Lemma references_builds before after c i :
  builds D (λ r scope, scope = None ∧ ∃ a key, a ∈ changeResources c
      ∧ key ∈ referenceKeys (Facts a) ∧ r ∈ referenceTargets before after key) i
    (foldl (λ i r,
      foldl (λ i key, addCandidates i (referenceTargets before after key) None)
        i (referenceKeys (Facts r))) i (changeResources c)).
Proof.
  eapply builds_ext; [|apply (builds_foldl D _ (λ a r w, ∃ key, key ∈ referenceKeys (Facts a)
    ∧ r ∈ referenceTargets before after key ∧ w = None))]; [naive_solver|].
  intros i' a _. eapply builds_ext; [|apply (builds_foldl D _ (λ key r w,
    r ∈ referenceTargets before after key ∧ w = None))]; [naive_solver|].
  intros. apply addCandidates_builds.
Qed.

Lemma addresses_builds before after c i :
  builds D (λ r scope, ∃ a snapshot, a ∈ changeResources c ∧ snapshot ∈ [before; after]
      ∧ address_dependency snapshot a r scope) i
    (foldl (λ i r, foldl (λ i snapshot, indexAddress i r snapshot) i [before; after])
      i (changeResources c)).
Proof.
  eapply builds_ext; [|apply (builds_foldl D _ (λ a r w, ∃ snapshot, snapshot ∈ [before; after]
    ∧ address_dependency snapshot a r w))]; [naive_solver|].
  intros i' a _. apply (builds_foldl D _ (λ snapshot r w, address_dependency snapshot a r w)).
  intros. apply indexAddress_builds.
Qed.

Lemma indexChange_builds before after i ns c :
  (∀ old, rc_Old c = Some old → Key old ∈ D) →
  let st := indexChange before after (i, ns) c in
  builds D (λ r scope, sameSelection c = false ∧ change_dependency before after c r scope) i st.1
  ∧ ∀ x, x ∈ st.2 ↔ x ∈ ns ∨ changed_namespace c x.
Proof.
  intros Hold. unfold indexChange, changed_namespace.
  destruct (sameSelection c) eqn:Hsame.
  { split; [|naive_solver]. eapply builds_ext, builds_refl. naive_solver. }
  case_decide as Ht.
  { split; [|naive_solver]. eapply builds_ext; [|apply references_builds].
    intros r w. split; [intros [_ [a key r' H1 H2 H3| |]]; naive_solver|].
    intros (-> & a & key & ? & ? & ?). split; [done|]. by eapply ch_reference. }
  rewrite (foldl_pair (λ i r, foldl (λ i snapshot, indexAddress i r snapshot) i [before; after])
    (λ (ns : gset string) r, match rf_Workload (Facts r) with
             | Some w => {[wf_Namespace w]} ∪ ns
             | None => ns
             end)). cbn [fst snd]. split; [|intros x; rewrite namespaces_fold; naive_solver].
  eapply builds_ext;
    last (eapply builds_trans; [|apply addresses_builds]);
    last (eapply builds_trans; [apply references_builds|by apply indexWithdrawnScopes_builds]).
  intros r w. simpl. split.
  - intros [_ [a key r' H1 H2 H3|r' s H1 H2|a sn r' s H1 H2 H3 H4]]; [|tauto|right; eauto 10].
    left. left. eauto 10.
  - intros [[(-> & a & key & ? & ? & ?)|?]|(a & sn & ? & ? & ?)]; (split; [done|]).
    + by eapply ch_reference.
    + by apply ch_withdrawn.
    + by eapply ch_address.
Qed.

Lemma indexChanges_builds before after changes i ns :
  (∀ c old, c ∈ changes → rc_Old c = Some old → Key old ∈ D) →
  let st := foldl (indexChange before after) (i, ns) changes in
  builds D (λ r scope, ∃ c, c ∈ changes ∧ sameSelection c = false
                            ∧ change_dependency before after c r scope) i st.1
  ∧ ∀ x, x ∈ st.2 ↔ x ∈ ns ∨ ∃ c, c ∈ changes ∧ changed_namespace c x.
Proof.
  revert i ns. induction changes as [|c changes IH]; intros i ns Hold; cbn [foldl].
  { split; [|set_solver]. eapply builds_ext, builds_refl. intros r w.
    split; [by intros (? & ?%elem_of_nil & _)|done]. }
  destruct (indexChange_builds before after i ns c) as [Hb Hn].
  { intros old. apply Hold. left. }
  destruct (indexChange before after (i, ns) c) as [i' ns']. cbn [fst snd] in Hb, Hn.
  destruct (IH i' ns') as [Hb' Hn']; [intros c' old Hc'; apply Hold; by right|].
  split; [|intros x; rewrite Hn', Hn; setoid_rewrite elem_of_cons; naive_solver].
  eapply builds_ext; [|eapply builds_trans; [exact Hb|exact Hb']].
  intros r w. simpl. setoid_rewrite elem_of_cons. naive_solver.
Qed.

Lemma indexDependencies_builds before after changes i :
  (∀ c old, c ∈ changes → rc_Old c = Some old → Key old ∈ D) →
  builds D (λ r scope,
      (∃ c, c ∈ changes ∧ sameSelection c = false ∧ change_dependency before after c r scope)
      ∨ scope = None ∧ ∃ x snapshot, (∃ c, c ∈ changes ∧ changed_namespace c x)
          ∧ snapshot ∈ [before; after]
          ∧ r ∈ ListGlobalAuthorizations snapshot ++ ListNamespaceAuthorizations snapshot x) i
    (indexDependencies i before after changes).
Proof.
  intros Hold. unfold indexDependencies.
  destruct (indexChanges_builds before after changes i ∅ Hold) as [Hb Hn].
  destruct (foldl (indexChange before after) (i, ∅) changes) as [i' ns]. cbn [fst snd] in Hb, Hn.
  case_decide as Hz.
  - apply size_empty_inv in Hz. eapply builds_ext; [|exact Hb]. intros r w. split; [|by left].
    intros [?|(-> & x & sn & Hx & _)]; [done|]. exfalso.
    apply (not_elem_of_empty (C:=gset string) x). rewrite <-Hz. apply Hn. by right.
  - assert (∃ x, x ∈ ns) as [x0 Hx0] by (apply set_choose; by intros ?%size_empty_iff).
    eapply builds_ext; last (eapply builds_trans; [exact Hb|]);
      last apply (builds_foldl D _ (λ sn r w, w = None ∧ (r ∈ ListGlobalAuthorizations sn
        ∨ ∃ x, x ∈ elements ns ∧ r ∈ ListNamespaceAuthorizations sn x))).
    + intros r w. simpl. setoid_rewrite elem_of_app. setoid_rewrite elem_of_elements.
      assert (∀ x, x ∈ ns ↔ ∃ c, c ∈ changes ∧ changed_namespace c x) as Hns.
      { intros x. rewrite Hn. split; [|by right]. by intros [?%not_elem_of_empty|?]. }
      setoid_rewrite Hns. apply Hns in Hx0. split.
      * intros [?|(-> & x & sn & Hx & Hs & [?|?])]; [by left|right; exists sn..]; eauto 10.
      * intros [?|(sn & Hs & -> & [?|(x & Hx & ?)])];
          [by left|right; split; [done|]; exists x0, sn|right; split; [done|]; exists x, sn]; auto.
    + intros j sn _. eapply builds_ext;
        [|eapply builds_trans; [apply addCandidates_builds|apply addFamilies_builds]].
      intros r w. simpl. naive_solver.
Qed.
End exact.

(** A candidate that announces the resource for the scope *)
Definition announces (c : Candidate) (r : Resource) (workload : option WorkloadResourceFacts)
    : Prop :=
  ca_Key c = Key r
  ∧ identity_covered (ca_Identities c)
      (mkIdentity (XDSName r) (Facts r)
         (match workload with Some w => {[workloadIdentity w]} | None => ∅ end))
  ∧ (workload = None → ca_DependencyOnly c = false).

Lemma changes_builds changes :
  builds ∅ (λ r scope, scope = None ∧ ∃ c, c ∈ changes ∧ r ∈ changeResources c) ∅
    (foldl (λ i change, addCandidates i (changeResources change) None) ∅ changes).
Proof.
  eapply builds_ext; [|apply (builds_foldl ∅ _ (λ c r w, r ∈ changeResources c ∧ w = None))].
  - naive_solver.
  - intros. apply addCandidates_builds.
Qed.

Lemma updateBetween_index before after changes :
  ∃ i, updateBetween before after changes = indexedUpdate (rs_version after) i
    ∧ index_ok i
    ∧ (∀ k, k ∈ dom i ↔ ∃ r w, publication_dependency before after changes r w ∧ Key r = k)
    ∧ ∀ r w, publication_dependency before after changes r w → announced i r w.
Proof.
  eexists. split; [reflexivity|].
  set (i0 := foldl _ ∅ changes).
  destruct (changes_builds changes) as (Hi0 & _ & Hd0 & Ha0); [by intros k c|done|]. fold i0 in Hi0, Hd0, Ha0.
  destruct (indexDependencies_builds (dom i0) before after changes i0) as (Hi & Hle & Hd & Ha);
    [|done|done|].
  { intros c old Hc Ho. apply Hd0. right. exists old, None. split; [|done].
    split; [done|]. exists c. split; [done|]. unfold changeResources. rewrite Ho. set_solver. }
  assert (∀ r w, publication_dependency before after changes r w ↔
    (w = None ∧ ∃ c, c ∈ changes ∧ r ∈ changeResources c)
    ∨ (∃ c, c ∈ changes ∧ sameSelection c = false ∧ change_dependency before after c r w)
    ∨ w = None ∧ ∃ x snapshot, (∃ c, c ∈ changes ∧ changed_namespace c x)
        ∧ snapshot ∈ [before; after]
        ∧ r ∈ ListGlobalAuthorizations snapshot ++ ListNamespaceAuthorizations snapshot x) as HP.
  { intros r w. split.
    - destruct 1 as [c r|c r s|c a wf sn r]; [by left; eauto|by right; left; eauto|].
      right; right. split; [done|]. exists (wf_Namespace wf), sn. split_and!; [|done..].
      exists c. split; [done|]. split_and!; eauto.
    - intros [(-> & c & ? & ?)|[(c & ? & ? & ?)|(-> & x & sn & (c & Hc & ? & ? & a & wf & ? & ? & ->) & ? & ?)]].
      + by eapply pd_change. + by eapply pd_dependency. + by eapply pd_authorization. }
  split_and!; [done| |].
  - intros k. rewrite Hd, Hd0. setoid_rewrite HP. split.
    + intros [[[]%not_elem_of_empty|(r & w & ? & ?)]|(r & w & ? & ?)]; eauto 10.
    + intros (r & w & [?|?] & ?); [left|right]; eauto 10.
  - intros r w [H|H]%HP; [|by apply Ha]. eapply announced_le; [exact Hle|]. by apply Ha0.
Qed.

(** The notice of a publication is well formed, announces exactly the keys of the
    publication's dependencies, and every dependency with its evidence. *)
Lemma updateBetween_spec before after changes :
  let u := updateBetween before after changes in
  update_ok u ∧ u_version u = rs_version after
  ∧ (∀ k, (∃ c, c ∈ candidates_of u (TypeURL k) ∧ ca_Key c = k)
          ↔ ∃ r w, publication_dependency before after changes r w ∧ Key r = k)
  ∧ ∀ r w, publication_dependency before after changes r w →
      ∃ c, c ∈ candidates_of u (TypeURL (Key r)) ∧ announces c r w.
Proof.
  cbv zeta. destruct (updateBetween_index before after changes) as (i & -> & Hi & Hd & Ha).
  split_and!; [by apply indexedUpdate_ok|done| |].
  - intros k. rewrite <-Hd, elem_of_dom. split.
    + intros (c & Hc & <-). apply elem_of_candidates_of_indexed in Hc as [? _]; eauto.
    + intros [c Hc]. exists c. pose proof (Hi _ _ Hc) as Hk. split; [|done].
      apply elem_of_candidates_of_indexed; [done|]. by rewrite Hk.
  - intros r w Hr. destruct (Ha r w Hr) as (c & Hc & Hcov & Hdep). exists c.
    pose proof (Hi _ _ Hc) as Hk. split; [|done].
    apply elem_of_candidates_of_indexed; [done|]. by rewrite Hk.
Qed.
