(* ===== verification/Store.v ===== *)
(** * Store: publication of snapshots (src/pkg/xds/store/store.go, subscription.go)

    The store holds the current snapshot, the source deletions that wait for their
    referrers, and the subscribers with their one-place mailboxes. All operations run
    under the store's lock, so each is one step from state to state; only the readers of
    the mailboxes run concurrently with [notifyLocked]. *)

From S2P Require Import Prelude Identity Resource ResourceIndex ResourceSet Update.

(** ** State *)

(** A subscriber: its mailbox is a channel of capacity one. *)
Record subscriber := mkSubscriber {
  sub_mailbox : option Update;
  sub_mailboxID : N;
  sub_types : gset string;
  sub_sandboxWorkload : string;
  sub_sandboxNames : gset string
}.

(** The index maps share their subscribers with [st_subscribers]; they are modelled by
    the identifiers they hold. *)
Record Store := mkStore {
  st_current : ResourceSet;
  st_pendingRemovals : gset ResourceKey;
  st_subscribers : gmap N subscriber;
  st_byType : gmap string (gset N);
  st_sandboxByWorkload : gmap string (gset N);
  st_sandboxByName : gmap string (gset N);
  st_nextID : N;
  st_nextMailboxID : N
}.

(** [New] *)
Definition NewStore (initial : ResourceSet) : Store := mkStore initial ∅ ∅ ∅ ∅ ∅ 0 0.

Record Publication := mkPublication {
  pub_Changed : bool;
  pub_Snapshot : ResourceSet;
  pub_SubscriberCount : nat
}.

Definition subscriberCount (s : Store) : nat := size (st_subscribers s).

(** ** Retaining referenced resources *)

(** The keys to check: [true] for those waiting for deletion. *)
Abbreviation removalCandidates := (gmap ResourceKey bool).

(** A reference the change withdraws from a resource that waits for deletion *)
Definition considerReference (pending : gset ResourceKey) (new : option Resource)
    (candidates : removalCandidates) (key : ResourceKey) : removalCandidates :=
  if bool_decide (key ∈ pending)
     && match new with None => true | Some r => negb (ReferencesResource r key) end
  then match candidates !! key with
       | Some _ => candidates
       | None => <[key := true]> candidates
       end
  else candidates.

Definition considerChange (current : ResourceSet) (pending : gset ResourceKey)
    (candidates : removalCandidates) (change : ResourceChange) : removalCandidates :=
  let key := rc_Key change in
  let candidates :=
    if negb (isSome (rc_New change)) || bool_decide (key ∈ pending)
    then <[key := negb (isSome (rc_New change))]> candidates else candidates in
  if decide (size pending = 0) then candidates else
  match Get current key with
  | None => candidates
  | Some old =>
      if match rc_New change with Some new => Facts_Equal (Facts old) (Facts new) | None => false end
      then candidates
      else foldl (considerReference pending (rc_New change)) candidates (ReferencedResources old)
  end.

(** Deleted resources that are still referenced, before or after, are restored. *)
Definition restorations (current next : ResourceSet) (candidates : removalCandidates)
    : list ResourceChange :=
  omap (λ p : ResourceKey * bool,
    if p.2
    then match Get current p.1, Get next p.1 with
         | Some old, None =>
             if HasReference current p.1 || HasReference next p.1
             then Some (mkChange p.1 None (Some old)) else None
         | _, _ => None
         end
    else None) (map_to_list candidates).

Definition isPending (pending : gset ResourceKey) (candidates : removalCandidates)
    (key : ResourceKey) : bool :=
  match candidates !! key with
  | Some retained => retained
  | None => bool_decide (key ∈ pending)
  end.

(** What a round of checks carries: the verdicts, the keys to check next, the removals. *)
Record checkState := mkCheck {
  ck_candidates : removalCandidates;
  ck_further : gset ResourceKey;
  ck_removals : list ResourceChange
}.

Definition checkKey (next : ResourceSet) (pending : gset ResourceKey) (st : checkState)
    (key : ResourceKey) : checkState :=
  if negb (isPending pending (ck_candidates st) key) then st else
  match Get next key with
  | None => mkCheck (<[key := false]> (ck_candidates st)) (ck_further st) (ck_removals st)
  | Some old =>
      let referenced := HasReference next key in
      let candidates := <[key := referenced]> (ck_candidates st) in
      if referenced then mkCheck candidates (ck_further st) (ck_removals st)
      else mkCheck candidates
             (foldl (λ (f : gset ResourceKey) reference,
                if isPending pending candidates reference then {[reference]} ∪ f else f)
                (ck_further st) (ReferencedResources old))
             (ck_removals st ++ [mkChange key (Some old) None])
  end.

(** The cascading deletions, a round per unit of fuel; [None] when it runs out *)
Fixpoint retainLoop `{Codec} (fuel : nat) (pending : gset ResourceKey) (next : ResourceSet)
    (candidates : removalCandidates) (checks : gset ResourceKey)
    (adjustments : list ResourceChange)
    : option (result (ResourceSet * removalCandidates * list ResourceChange)) :=
  match fuel with
  | O => None
  | S fuel =>
      if decide (size checks = 0) then Some (Ok (next, candidates, adjustments)) else
      let st := foldl (checkKey next pending) (mkCheck candidates ∅ []) (elements checks) in
      if decide (length (ck_removals st) = 0)
      then Some (Ok (next, ck_candidates st, adjustments))
      else match Apply next (ck_removals st) with
           | Err e => Some (Err e)
           | Ok (next, _) =>
               retainLoop fuel pending next (ck_candidates st) (ck_further st)
                 (adjustments ++ ck_removals st)
           end
  end.

(** A round removes resources from the snapshot, so its length bounds the rounds. *)
Definition retainFuel (next : ResourceSet) : nat := S (S (length (typedResources next))).

Definition updatePending (pending : gset ResourceKey) (candidates : removalCandidates)
    : gset ResourceKey :=
  foldl (λ (p : gset ResourceKey) (c : ResourceKey * bool),
      if c.2 then {[c.1]} ∪ p else p ∖ {[c.1]})
    pending (map_to_list candidates).

Definition retainReferencedResources `{Codec} (s : Store) (next : ResourceSet)
    (changes : list ResourceChange)
    : option (result (ResourceSet * list ResourceChange * gset ResourceKey)) :=
  let current := st_current s in
  let pending := st_pendingRemovals s in
  let candidates := foldl (considerChange current pending) ∅ changes in
  if decide (size candidates = 0) then Some (Ok (next, changes, pending)) else
  let adjustments := restorations current next candidates in
  match (if decide (length adjustments = 0) then Ok (next, false) else Apply next adjustments) with
  | Err e => Some (Err e)
  | Ok (next, _) =>
      match retainLoop (retainFuel next) pending next candidates (dom candidates) adjustments with
      | None => None
      | Some (Err e) => Some (Err e)
      | Some (Ok (next, candidates, adjustments)) =>
          Some (Ok (next,
            (if decide (length adjustments = 0) then changes
             else coalesceChanges (changes ++ adjustments)),
            updatePending pending candidates))
      end
  end.

(** ** Subscribers *)

Definition ids (index : gmap string (gset N)) (key : string) : gset N := default ∅ (index !! key).

(** [delete(byKey, id)], dropping an empty entry *)
Definition dropID (index : gmap string (gset N)) (key : string) (id : N) : gmap string (gset N) :=
  match index !! key with
  | None => index
  | Some byKey =>
      let byKey := byKey ∖ {[id]} in
      if decide (size byKey = 0) then delete key index else <[key := byKey]> index
  end.

Definition addID (index : gmap string (gset N)) (key : string) (id : N) : gmap string (gset N) :=
  <[key := {[id]} ∪ ids index key]> index.

(** [Subscribe]: the registration; [cancelSubscription] is the goroutine it leaves
    behind, once the context is done. *)
Definition Subscribe (s : Store) (scope : ClientScope) : Store * N :=
  let id := (st_nextID s + 1)%N in
  let sub := mkSubscriber None 0 ∅
    (if decide (cs_Class scope = ClientDedicatedZTunnel) then cs_WorkloadUID scope else "") ∅ in
  (mkStore (st_current s) (st_pendingRemovals s) (<[id := sub]> (st_subscribers s))
     (st_byType s) (st_sandboxByWorkload s) (st_sandboxByName s) id (st_nextMailboxID s), id).

Definition cancelSubscription (s : Store) (id : N) : Store :=
  let '(byType, byWorkload, byName) :=
    match st_subscribers s !! id with
    | None => (st_byType s, st_sandboxByWorkload s, st_sandboxByName s)
    | Some sub =>
        (foldl (λ m t, dropID m t id) (st_byType s) (elements (sub_types sub)),
         (if decide (SandboxType ∈ sub_types sub)
          then dropID (st_sandboxByWorkload s) (sub_sandboxWorkload sub) id
          else st_sandboxByWorkload s),
         foldl (λ m n, dropID m n id) (st_sandboxByName s) (elements (sub_sandboxNames sub)))
    end in
  mkStore (st_current s) (st_pendingRemovals s) (delete id (st_subscribers s))
    byType byWorkload byName (st_nextID s) (st_nextMailboxID s).

(** [subscription.Watch] *)
Definition Watch (s : Store) (id : N) (typeURL : string) (names : list string) : Store :=
  match st_subscribers s !! id with
  | None => s
  | Some sub =>
      let '(sandboxNames, byName) :=
        if bool_decide (typeURL = SandboxType) && bool_decide (sub_sandboxWorkload sub ≠ "")
           && (bool_decide (length names ≠ 0) || bool_decide (size (sub_sandboxNames sub) ≠ 0))
        then let next : gset string := list_to_set names in
             (next,
              foldl (λ m n, addID m n id)
                (foldl (λ m n, dropID m n id) (st_sandboxByName s)
                   (elements (sub_sandboxNames sub ∖ next)))
                (elements (next ∖ sub_sandboxNames sub)))
        else (sub_sandboxNames sub, st_sandboxByName s) in
      let watched := bool_decide (typeURL ∈ sub_types sub) in
      let sub := mkSubscriber (sub_mailbox sub) (sub_mailboxID sub)
        ({[typeURL]} ∪ sub_types sub) (sub_sandboxWorkload sub) sandboxNames in
      mkStore (st_current s) (st_pendingRemovals s) (<[id := sub]> (st_subscribers s))
        (if watched then st_byType s else addID (st_byType s) typeURL id)
        (if watched || negb (bool_decide (typeURL = SandboxType)) then st_sandboxByWorkload s
         else addID (st_sandboxByWorkload s) (sub_sandboxWorkload sub) id)
        byName (st_nextID s) (st_nextMailboxID s)
  end.

(** One candidate of [sandboxSubscribersLocked]; [None] stops at a candidate without
    Sandbox facts, for which every Sandbox subscriber is affected. *)
Fixpoint identitySubscribers (s : Store) (identities : list Identity) : option (gset N) :=
  match identities with
  | [] => Some ∅
  | i :: identities =>
      match rf_Sandbox (id_Facts i) with
      | None => None
      | Some f =>
          match identitySubscribers s identities with
          | None => None
          | Some rest =>
              Some ((if decide (AttesterWorkloadUID f = "") then ∅
                     else ids (st_sandboxByWorkload s) (AttesterWorkloadUID f)) ∪ rest)
          end
      end
  end.

Fixpoint sandboxSubscribers_loop (s : Store) (candidates : list Candidate) (acc : gset N) : gset N :=
  match candidates with
  | [] => acc
  | c :: candidates =>
      let acc := ids (st_sandboxByName s) (Name (ca_Key c)) ∪ acc in
      match identitySubscribers s (ca_Identities c) with
      | None => ids (st_byType s) SandboxType
      | Some more => sandboxSubscribers_loop s candidates (more ∪ acc)
      end
  end.

Definition sandboxSubscribersLocked (s : Store) (candidates : list Candidate) : gset N :=
  sandboxSubscribers_loop s candidates (ids (st_sandboxByWorkload s) "").

Definition affectedSubscribersLocked (s : Store) (u : Update) : gset N :=
  if u_full u && bool_decide (size (u_fullTypes u) = 0) then dom (st_subscribers s) else
  foldl (λ (result : gset N) typeURL,
      (if bool_decide (typeURL = SandboxType) && negb (FullFor u typeURL)
       then sandboxSubscribersLocked s (Candidates u typeURL)
       else ids (st_byType s) typeURL) ∪ result)
    ∅ (elements (u_fullTypes u ∪ u_affectedTypes u)).

(** ** Notification *)

(** The local cache of [notifyLocked]: merged notices by the identifier of the notice
    they replace *)
Abbreviation mergedNotices := (gmap N (Update * N)).

Record notifyState := mkNotify {
  no_subscribers : gmap N subscriber;
  no_merged : mergedNotices;
  no_nextMailboxID : N
}.

Definition setMailbox (sub : subscriber) (u : Update) (id : N) : subscriber :=
  mkSubscriber (Some u) id (sub_types sub) (sub_sandboxWorkload sub) (sub_sandboxNames sub).

(** One subscriber. The first send succeeds on an empty mailbox. Otherwise the pending
    notice is taken back, unless its reader has drained it in between ([drained]), and
    the mailbox is refilled: no one else sends, so the last send always succeeds. *)
Definition notifyOne (u : Update) (publicationID : N) (drained : gset N) (st : notifyState) (id : N)
    : notifyState :=
  match no_subscribers st !! id with
  | None => st
  | Some sub =>
      match sub_mailbox sub with
      | None =>
          mkNotify (<[id := setMailbox sub u publicationID]> (no_subscribers st))
            (no_merged st) (no_nextMailboxID st)
      | Some pending =>
          if decide (id ∈ drained)
          then mkNotify (<[id := setMailbox sub u publicationID]> (no_subscribers st))
                 (no_merged st) (no_nextMailboxID st)
          else match no_merged st !! sub_mailboxID sub with
               | Some (merged, mergedID) =>
                   mkNotify (<[id := setMailbox sub merged mergedID]> (no_subscribers st))
                     (no_merged st) (no_nextMailboxID st)
               | None =>
                   let mergedID := (no_nextMailboxID st + 1)%N in
                   let merged := Merge pending u in
                   mkNotify (<[id := setMailbox sub merged mergedID]> (no_subscribers st))
                     (<[sub_mailboxID sub := (merged, mergedID)]> (no_merged st)) mergedID
               end
      end
  end.

Definition notifyLocked (s : Store) (u : Update) (drained : gset N) : Store :=
  let publicationID := (st_nextMailboxID s + 1)%N in
  let st := foldl (notifyOne u publicationID drained)
              (mkNotify (st_subscribers s) ∅ publicationID)
              (elements (affectedSubscribersLocked s u)) in
  mkStore (st_current s) (st_pendingRemovals s) (no_subscribers st)
    (st_byType s) (st_sandboxByWorkload s) (st_sandboxByName s)
    (st_nextID s) (no_nextMailboxID st).

(** A reader takes the notice out of its mailbox. *)
Definition receive (s : Store) (id : N) : option (Update * Store) :=
  match st_subscribers s !! id with
  | Some sub =>
      match sub_mailbox sub with
      | Some u =>
          Some (u, mkStore (st_current s) (st_pendingRemovals s)
            (<[id := mkSubscriber None (sub_mailboxID sub) (sub_types sub)
                       (sub_sandboxWorkload sub) (sub_sandboxNames sub)]> (st_subscribers s))
            (st_byType s) (st_sandboxByWorkload s) (st_sandboxByName s)
            (st_nextID s) (st_nextMailboxID s))
      | None => None
      end
  | None => None
  end.

(** ** Publication *)

Definition setPending (s : Store) (pending : gset ResourceKey) : Store :=
  mkStore (st_current s) pending (st_subscribers s) (st_byType s) (st_sandboxByWorkload s)
    (st_sandboxByName s) (st_nextID s) (st_nextMailboxID s).

Definition setCurrent (s : Store) (current : ResourceSet) : Store :=
  mkStore current (st_pendingRemovals s) (st_subscribers s) (st_byType s) (st_sandboxByWorkload s)
    (st_sandboxByName s) (st_nextID s) (st_nextMailboxID s).

Definition unchanged (s : Store) : Publication :=
  mkPublication false (st_current s) (subscriberCount s).

(** [Replace]; [Err] is its panic. *)
Definition Replace `{Codec} (s : Store) (snapshot : ResourceSet) (drained : gset N)
    : option (result (Store * Publication)) :=
  let before := st_current s in
  let s := setPending s (base.filter (λ k, Get snapshot k = None) (st_pendingRemovals s)) in
  match retainReferencedResources s snapshot (Diff before snapshot) with
  | None => None
  | Some (Err e) => Some (Err e)
  | Some (Ok (snapshot, changes, pending)) =>
      let s := setPending s pending in
      if decide (length changes = 0) then Some (Ok (s, unchanged s)) else
      let s := notifyLocked (setCurrent s snapshot) (updateBetween before snapshot changes) drained in
      Some (Ok (s, mkPublication true snapshot (subscriberCount s)))
  end.

(** The changes of a batch that take effect, with the published old and new values *)
Definition effectiveChange (before next : ResourceSet) (requested : ResourceChange)
    : option ResourceChange :=
  match Get before (rc_Key requested), Get next (rc_Key requested) with
  | None, None => None
  | Some old, Some new =>
      if decide (Hash old = Hash new) then None
      else Some (mkChange (rc_Key requested) (Some old) (Some new))
  | old, new => Some (mkChange (rc_Key requested) old new)
  end.

(** [Store.Apply]: the state, the publication, and the error if any *)
Definition StoreApply `{Codec} (s : Store) (changes : list ResourceChange) (drained : gset N)
    : option (Store * Publication * option string) :=
  let coalesced := coalesceChanges changes in
  if decide (length coalesced = 0) then Some (s, unchanged s, None) else
  let before := st_current s in
  match Apply before coalesced with
  | Err e => Some (s, unchanged s, Some e)
  | Ok (next, changed) =>
      if negb changed && bool_decide (size (st_pendingRemovals s) = 0)
      then Some (s, unchanged s, None) else
      match retainReferencedResources s next coalesced with
      | None => None
      | Some (Err e) => Some (s, unchanged s, Some e)
      | Some (Ok (next, coalesced, pending)) =>
          let s := setPending s pending in
          let effective := omap (effectiveChange before next) coalesced in
          if decide (length effective = 0) then Some (s, unchanged s, None) else
          let s := notifyLocked (setCurrent s next) (updateBetween before next effective) drained in
          Some (s, mkPublication true next (subscriberCount s), None)
      end
  end.

(** ** Dynamic notifications *)

Definition emptyUpdate (version : string) : Update := mkUpdate version ∅ ∅ false ∅ None.

Definition Notify (s : Store) (drained : gset N) : Store :=
  notifyLocked s (mkUpdate (rs_version (st_current s)) ∅ ∅ true ∅ None) drained.

Definition NotifyType (s : Store) (typeURL : string) (drained : gset N) : Store :=
  notifyLocked s (mkUpdate (rs_version (st_current s)) ∅ ∅ true {[typeURL]} None) drained.

Definition keyCandidates (s : Store) (keys : list ResourceKey) : candidateIndex :=
  foldl (λ (i : candidateIndex) key,
      match Get (st_current s) key with
      | Some r => addCandidate i r None
      | None => <[key := mkCandidate key [] false]> i
      end) ∅ keys.

Definition NotifyKeys (s : Store) (keys : list ResourceKey) (drained : gset N) : Store :=
  if decide (length keys = 0) then s else
  notifyLocked s (indexedUpdate (rs_version (st_current s)) (keyCandidates s keys)) drained.
