(* ===== verification/Cascade.v ===== *)
(** * Cascade: the deletions of store.go, retainReferencedResources, round by round

    A round removes the unreferenced resources among the keys it checks and passes on
    the references they held. The rounds end, keep the snapshot well formed, remove only
    unreferenced resources that wait for deletion, and leave every resource that still
    waits published and referenced. *)

From S2P Require Import Prelude Identity Resource ResourceIndex ResourceSet SetInvariant SetQueries SetDiff Update Store.

(** * Retention: published references never dangle (store.go, retainReferencedResources)

    A source deletion is withheld while the published snapshot references the resource,
    and carried out once it no longer does. The cascade of deletions terminates. *)

(** ** Coalescing *)

(** The first old and the last new value of the changes of a key *)
Definition firstOld (k : ResourceKey) (cs : list ResourceChange) : option Resource :=
  match base.filter (λ c, rc_Key c = k) cs with c :: _ => rc_Old c | [] => None end.

Definition lastNew (k : ResourceKey) (cs : list ResourceChange) : option Resource :=
  match last (base.filter (λ c, rc_Key c = k) cs) with Some c => rc_New c | None => None end.

Lemma filter_key_nil k (cs : list ResourceChange) :
  base.filter (λ c, rc_Key c = k) cs = [] ↔ k ∉ rc_Key <$> cs.
Proof.
  split.
  - intros Hf (c & -> & Hc)%list_elem_of_fmap.
    assert (c ∈ base.filter (λ c0, rc_Key c0 = rc_Key c) cs) as Hin by by apply list_elem_of_filter.
    rewrite Hf in Hin. by apply elem_of_nil in Hin.
  - intros Hk. destruct (base.filter _ cs) as [|c l] eqn:Hf; [done|].
    assert (c ∈ base.filter (λ c0, rc_Key c0 = k) cs) as [<- Hc]%list_elem_of_filter
      by (rewrite Hf; left).
    exfalso. apply Hk, list_elem_of_fmap. eauto.
Qed.

Lemma coalesce_lookup cs k :
  foldl coalesceStep ∅ cs !! k
  = if decide (k ∈ rc_Key <$> cs) then Some (mkChange k (firstOld k cs) (lastNew k cs)) else None.
Proof.
  induction cs as [|c cs IH] using rev_ind; [done|].
  rewrite foldl_app. cbn [foldl]. unfold coalesceStep at 1.
  destruct (decide (rc_Key c = k)) as [<-|Hne].
  - rewrite lookup_insert_eq, IH, fmap_app. unfold firstOld, lastNew.
    rewrite (decide_True (P := rc_Key c ∈ _ ++ _)) by (apply elem_of_app; right; left).
    assert (base.filter (λ c0, rc_Key c0 = rc_Key c) (cs ++ [c])
            = base.filter (λ c0, rc_Key c0 = rc_Key c) cs ++ [c]) as ->.
    { by rewrite filter_app, filter_cons, decide_True, filter_nil. }
    rewrite last_snoc. do 2 f_equal.
    case_decide as Hin; simpl.
    + destruct (base.filter _ cs) as [|c' l] eqn:Hf; [|done].
      by apply filter_key_nil in Hf.
    + apply filter_key_nil in Hin. by rewrite Hin.
  - rewrite lookup_insert_ne, IH by done. unfold firstOld, lastNew.
    assert (base.filter (λ c0, rc_Key c0 = k) (cs ++ [c]) = base.filter (λ c0, rc_Key c0 = k) cs) as ->.
    { by rewrite filter_app, filter_cons, decide_False, filter_nil, app_nil_r. }
    rewrite fmap_app. apply decide_ext. rewrite elem_of_app, list_fmap_singleton, list_elem_of_singleton.
    naive_solver.
Qed.

Lemma elem_of_coalesce cs c :
  c ∈ coalesceChanges cs ↔
  rc_Key c ∈ rc_Key <$> cs ∧ rc_Old c = firstOld (rc_Key c) cs
  ∧ rc_New c = lastNew (rc_Key c) cs ∧ sameResource (rc_Old c) (rc_New c) = false.
Proof.
  unfold coalesceChanges. rewrite list_elem_of_filter, list_elem_of_fmap. split.
  - intros [Hs ([k c'] & -> & Hin%elem_of_map_to_list)]. simpl in *.
    rewrite coalesce_lookup in Hin. case_decide; [|done]. injection Hin as <-. done.
  - intros (Hk & Ho & Hn & Hs). split; [done|]. exists (rc_Key c, c). split; [done|].
    apply elem_of_map_to_list. rewrite coalesce_lookup, decide_True by done.
    rewrite <-Ho, <-Hn. by destruct c.
Qed.

Lemma NoDup_coalesce cs : NoDup (rc_Key <$> coalesceChanges cs).
Proof.
  unfold coalesceChanges. set (m := foldl coalesceStep ∅ cs).
  assert (∀ k c, (k, c) ∈ map_to_list m → rc_Key c = k) as Hk.
  { intros k c Hin%elem_of_map_to_list. unfold m in Hin. rewrite coalesce_lookup in Hin.
    case_decide; [|done]. by injection Hin as <-. }
  assert (rc_Key <$> (map_to_list m).*2 = (map_to_list m).*1) as Heq.
  { rewrite <-list_fmap_compose. apply list_fmap_ext. intros i [k c] Hi. simpl.
    apply Hk. by eapply list_elem_of_lookup_2. }
  assert (NoDup (rc_Key <$> (map_to_list m).*2)) as Hnd by (rewrite Heq; apply NoDup_fst_map_to_list).
  revert Hnd. generalize ((map_to_list m).*2). clear. intros l.
  induction l as [|c l IH]; [constructor|]. csimpl. intros [Hnin Hnd]%NoDup_cons.
  rewrite filter_cons. case_decide; [|auto]. csimpl. constructor; [|auto].
  intros (c' & E & [_ Hc']%list_elem_of_filter)%list_elem_of_fmap.
  apply Hnin. rewrite E. apply list_elem_of_fmap. eauto.
Qed.

(** Changes with distinct keys are coalesced one by one. *)
Lemma distinct_first_last cs c :
  NoDup (rc_Key <$> cs) → c ∈ cs →
  firstOld (rc_Key c) cs = rc_Old c ∧ lastNew (rc_Key c) cs = rc_New c.
Proof.
  intros Hnd Hc. assert (base.filter (λ d, rc_Key d = rc_Key c) cs = [c]) as Hf.
  { apply list_elem_of_split in Hc as (l1 & l2 & ->).
    rewrite fmap_app, fmap_cons in Hnd. apply NoDup_app in Hnd as (_ & Hd & [Hnin _]%NoDup_cons).
    rewrite filter_app, filter_cons, decide_True by done.
    assert (base.filter (λ d, rc_Key d = rc_Key c) l1 = []) as ->.
    { apply filter_key_nil. intros Hin. apply (Hd _ Hin). left. }
    assert (base.filter (λ d, rc_Key d = rc_Key c) l2 = []) as ->; [by apply filter_key_nil|done]. }
  unfold firstOld, lastNew. by rewrite Hf.
Qed.

Lemma distinct_member cs c :
  NoDup (rc_Key <$> cs) → rc_Key c ∈ rc_Key <$> cs →
  rc_Old c = firstOld (rc_Key c) cs → rc_New c = lastNew (rc_Key c) cs → c ∈ cs.
Proof.
  intros Hnd (c0 & E & Hc0)%list_elem_of_fmap Ho Hn. rewrite E in Ho, Hn.
  destruct (distinct_first_last cs c0 Hnd Hc0) as [E1 E2].
  assert (c = c0) as ->; [|done]. destruct c, c0; simpl in *; congruence.
Qed.

(** ** The keys to check *)

Section candidates.
Context (C : ResourceSet) (P : gset ResourceKey).

(** The change settles the fate of its own key. *)
Definition decides (c : ResourceChange) : bool :=
  negb (isSome (rc_New c)) || bool_decide (rc_Key c ∈ P).

(** The change withdraws a reference to a key that waits for deletion. *)
Definition withdraws (k : ResourceKey) (c : ResourceChange) : bool :=
  bool_decide (k ∈ P)
  && match Get C (rc_Key c) with
     | None => false
     | Some old =>
         bool_decide (k ∈ ReferencedResources old)
         && match rc_New c with
            | None => true
            | Some new => negb (Facts_Equal (Facts old) (Facts new)) && negb (ReferencesResource new k)
            end
     end.

Lemma considerReferences_lookup new l (m : removalCandidates) k :
  foldl (considerReference P new) m l !! k
  = match m !! k with
    | Some b => Some b
    | None =>
        if bool_decide (k ∈ l) && bool_decide (k ∈ P)
           && match new with None => true | Some r => negb (ReferencesResource r k) end
        then Some true else None
    end.
Proof.
  revert m. induction l as [|x l IH]; intros m; cbn [foldl].
  { rewrite (bool_decide_eq_false_2 (k ∈ [])) by apply not_elem_of_nil. by destruct (m !! k). }
  rewrite IH. unfold considerReference at 1.
  destruct (decide (x = k)) as [->|Hne].
  - rewrite (bool_decide_eq_true_2 (k ∈ k :: l)) by left. simpl.
    destruct (bool_decide (k ∈ P) && _) eqn:Hb, (m !! k) as [b|] eqn:Hm; rewrite ?Hm; [done| |done|].
    + by rewrite lookup_insert_eq.
    + by rewrite <-andb_assoc, Hb, andb_false_r.
  - assert (bool_decide (k ∈ x :: l) = bool_decide (k ∈ l)) as ->.
    { apply bool_decide_ext. rewrite elem_of_cons. naive_solver. }
    destruct (bool_decide (x ∈ P) && _); [|done].
    destruct (m !! x); [done|]. by rewrite lookup_insert_ne.
Qed.

Lemma considerChange_lookup (m : removalCandidates) c k :
  considerChange C P m c !! k
  = if bool_decide (rc_Key c = k) && decides c then Some (negb (isSome (rc_New c)))
    else match m !! k with
         | Some b => Some b
         | None => if withdraws k c then Some true else None
         end.
Proof.
  unfold considerChange, decides, withdraws.
  set (m' := if negb (isSome (rc_New c)) || bool_decide (rc_Key c ∈ P) then _ else m).
  assert (m' !! k = if bool_decide (rc_Key c = k) && (negb (isSome (rc_New c)) || bool_decide (rc_Key c ∈ P))
                    then Some (negb (isSome (rc_New c))) else m !! k) as Hm'.
  { unfold m'. destruct (_ || _); [|by rewrite andb_false_r]. rewrite andb_true_r.
    case_bool_decide as E; [rewrite E; apply lookup_insert_eq|by apply lookup_insert_ne]. }
  destruct (bool_decide (rc_Key c = k) && _) eqn:Hd.
  - destruct (decide (size P = 0)); [done|]. destruct (Get C (rc_Key c)) as [old|]; [|done].
    destruct (match rc_New c with Some new => _ | None => false end); [done|].
    by rewrite considerReferences_lookup, Hm'.
  - destruct (decide (size P = 0)) as [HP|HP].
    { apply size_empty_inv in HP. rewrite (bool_decide_eq_false_2 (k ∈ P)) by set_solver. simpl.
      rewrite Hm'. by destruct (m !! k). }
    destruct (Get C (rc_Key c)) as [old|]; [|rewrite Hm', andb_false_r; by destruct (m !! k)].
    destruct (rc_New c) as [new|] eqn:Hn.
    + destruct (Facts_Equal _ _); simpl.
      * rewrite !andb_false_r, Hm'. by destruct (m !! k).
      * rewrite considerReferences_lookup, Hm'. destruct (m !! k); [done|].
        by rewrite (andb_comm (bool_decide (k ∈ ReferencedResources old))), <-andb_assoc.
    + rewrite considerReferences_lookup, Hm'. destruct (m !! k); [done|].
      by rewrite !andb_true_r, andb_comm.
Qed.

(** The candidates of a batch of changes with distinct keys. *)
Lemma candidates_spec cs (m := foldl (considerChange C P) ∅ cs) :
  NoDup (rc_Key <$> cs) →
  (∀ c, c ∈ cs → decides c = true → m !! rc_Key c = Some (negb (isSome (rc_New c))))
  ∧ (∀ k, (∀ c, c ∈ cs → rc_Key c = k → decides c = false) →
       m !! k = if existsb (withdraws k) cs then Some true else None).
Proof.
  unfold m. clear m. induction cs as [|c cs IH] using rev_ind; intros Hnd.
  { split; [|done]. intros c Hc. by apply elem_of_nil in Hc. }
  rewrite fmap_app, list_fmap_singleton in Hnd. apply NoDup_app in Hnd as (Hnd & Hd & _).
  destruct (IH Hnd) as [IH1 IH2]. clear IH. rewrite foldl_app. cbn [foldl]. split.
  - intros c' Hc' Hdec. rewrite considerChange_lookup.
    apply elem_of_app in Hc' as [Hc'| ->%list_elem_of_singleton].
    + rewrite (bool_decide_eq_false_2 (rc_Key c = rc_Key c')).
      * by rewrite IH1.
      * intros E. apply (Hd (rc_Key c')); [apply list_elem_of_fmap; eauto|]. rewrite <-E. left.
    + by rewrite bool_decide_eq_true_2, Hdec.
  - intros k Hk. rewrite considerChange_lookup, IH2.
    + assert (bool_decide (rc_Key c = k) && decides c = false) as ->.
      { case_bool_decide; [|done]. simpl. apply Hk; [|done]. apply elem_of_app. right. left. }
      rewrite existsb_app. simpl. rewrite orb_false_r.
      by destruct (existsb (withdraws k) cs), (withdraws k c).
    + intros c' Hc'. apply Hk. apply elem_of_app. by left.
Qed.
End candidates.

(** ** Coalescing concatenated batches *)

Lemma firstOld_app k l1 l2 :
  firstOld k (l1 ++ l2) = if decide (k ∈ rc_Key <$> l1) then firstOld k l1 else firstOld k l2.
Proof.
  unfold firstOld. rewrite filter_app. destruct (base.filter _ l1) as [|c l] eqn:Hf.
  - apply filter_key_nil in Hf. by rewrite decide_False.
  - rewrite decide_True; [done|]. destruct (decide (k ∈ rc_Key <$> l1)) as [|Hn]; [done|].
    apply filter_key_nil in Hn. congruence.
Qed.

Lemma lastNew_app k l1 l2 :
  lastNew k (l1 ++ l2) = if decide (k ∈ rc_Key <$> l2) then lastNew k l2 else lastNew k l1.
Proof.
  unfold lastNew. rewrite filter_app, last_app. destruct (base.filter _ l2) as [|c l] eqn:Hf.
  - apply filter_key_nil in Hf. by rewrite decide_False.
  - rewrite decide_True.
    + destruct (last (c :: l)) as [d|] eqn:Hl; [done|]. by apply last_None in Hl.
    + destruct (decide (k ∈ rc_Key <$> l2)) as [|Hn]; [done|].
      apply filter_key_nil in Hn. congruence.
Qed.

Lemma elem_of_coalesce_keys cs k :
  k ∈ rc_Key <$> coalesceChanges cs ↔
  k ∈ rc_Key <$> cs ∧ sameResource (firstOld k cs) (lastNew k cs) = false.
Proof.
  rewrite list_elem_of_fmap. split.
  - intros (c & -> & (Hk & Ho & Hn & Hs)%elem_of_coalesce). by rewrite <-Ho, <-Hn.
  - intros [Hk Hs]. exists (mkChange k (firstOld k cs) (lastNew k cs)). split; [done|].
    by apply elem_of_coalesce.
Qed.

(** ** One round *)

Section round.
Context (next : ResourceSet) (P : gset ResourceKey).

(** The verdict of a check: whether the resource stays *)
Definition stays (k : ResourceKey) : bool := isSome (Get next k) && HasReference next k.

Definition removal (cands : removalCandidates) (k : ResourceKey) : option ResourceChange :=
  match Get next k with
  | Some old =>
      if isPending P cands k && negb (HasReference next k)
      then Some (mkChange k (Some old) None) else None
  | None => None
  end.

Definition round (cands : removalCandidates) (l : list ResourceKey) : checkState :=
  foldl (checkKey next P) (mkCheck cands ∅ []) l.

Lemma round_snoc cands l k : round cands (l ++ [k]) = checkKey next P (round cands l) k.
Proof. unfold round. by rewrite foldl_app. Qed.

Lemma checkKey_candidates st k x :
  ck_candidates (checkKey next P st k) !! x
  = if bool_decide (x = k) && isPending P (ck_candidates st) k then Some (stays k)
    else ck_candidates st !! x.
Proof.
  unfold checkKey, stays. destruct (isPending P (ck_candidates st) k); simpl;
    [|by rewrite andb_false_r].
  rewrite andb_true_r. destruct (Get next k) as [old|]; simpl.
  - destruct (HasReference next k); simpl; case_bool_decide as E; subst;
      by rewrite ?lookup_insert_eq, ?lookup_insert_ne.
  - case_bool_decide as E; subst; by rewrite ?lookup_insert_eq, ?lookup_insert_ne.
Qed.

Lemma round_candidates cands l :
  NoDup l → ∀ x,
  ck_candidates (round cands l) !! x
  = if bool_decide (x ∈ l) && isPending P cands x then Some (stays x) else cands !! x.
Proof.
  induction l as [|k l IH] using rev_ind; intros Hnd x.
  { by rewrite bool_decide_eq_false_2 by apply not_elem_of_nil. }
  apply NoDup_app in Hnd as (Hnd & Hd & _). specialize (IH Hnd).
  assert (bool_decide (k ∈ l) = false) as Hk.
  { apply bool_decide_eq_false_2. intros Hin. apply (Hd k Hin). left. }
  rewrite round_snoc, checkKey_candidates.
  assert (isPending P (ck_candidates (round cands l)) k = isPending P cands k) as ->.
  { unfold isPending. by rewrite IH, Hk. }
  rewrite IH. destruct (decide (x = k)) as [->|Hne].
  - rewrite Hk, (bool_decide_eq_true_2 (k = k)), (bool_decide_eq_true_2 (k ∈ l ++ [k])); [done| |done].
    apply elem_of_app. right. left.
  - rewrite (bool_decide_eq_false_2 (x = k)) by done. simpl.
    by rewrite (bool_decide_ext (x ∈ l ++ [k]) (x ∈ l))
      by (rewrite elem_of_app, list_elem_of_singleton; naive_solver).
Qed.

(** A round only ever settles keys. *)
Lemma round_pending cands l x :
  NoDup l →
  isPending P (ck_candidates (round cands l)) x
  = isPending P cands x && (negb (bool_decide (x ∈ l)) || stays x).
Proof.
  intros Hnd. unfold isPending at 1. rewrite round_candidates by done.
  destruct (bool_decide (x ∈ l)), (isPending P cands x) eqn:Hp; simpl; try done;
    by rewrite <-Hp.
Qed.

Lemma round_removals cands l :
  NoDup l → ck_removals (round cands l) = omap (removal cands) l.
Proof.
  induction l as [|k l IH] using rev_ind; intros Hnd; [done|].
  apply NoDup_app in Hnd as (Hnd & Hd & _). specialize (IH Hnd).
  rewrite round_snoc, omap_app. simpl. unfold checkKey, removal at 2.
  assert (k ∉ l) as Hk by (intros Hin; apply (Hd k Hin); left).
  rewrite round_pending, (bool_decide_eq_false_2 (k ∈ l)), andb_true_r by done.
  destruct (isPending P cands k); simpl.
  - destruct (Get next k); simpl; [|by rewrite app_nil_r].
    destruct (HasReference next k); simpl; [by rewrite app_nil_r|by rewrite IH].
  - destruct (Get next k); simpl; by rewrite app_nil_r.
Qed.

Lemma elem_of_round_removals cands l c :
  NoDup l →
  c ∈ ck_removals (round cands l) ↔
  rc_Key c ∈ l ∧ rc_New c = None ∧ isSome (rc_Old c) = true ∧ rc_Old c = Get next (rc_Key c)
  ∧ isPending P cands (rc_Key c) = true ∧ HasReference next (rc_Key c) = false.
Proof.
  intros Hnd. rewrite round_removals, list_elem_of_omap by done. unfold removal. split.
  - intros (k & Hk & Hc). destruct (Get next k) eqn:Hg; [|done].
    destruct (isPending P cands k) eqn:Hp, (HasReference next k) eqn:Hr; try done.
    injection Hc as <-. simpl. by rewrite Hg.
  - destruct c as [k old new]; simpl. intros (Hk & -> & Ho & -> & Hp & Hr).
    exists k. split; [done|]. destruct (Get next k); [|done]. by rewrite Hp, Hr.
Qed.

Lemma NoDup_round_removals cands l :
  NoDup l → NoDup (rc_Key <$> ck_removals (round cands l)).
Proof.
  intros Hnd. rewrite round_removals by done.
  apply (NoDup_fmap_omap _ _ id); [|by rewrite list_fmap_id].
  intros k c _. unfold removal. destruct (Get next k); [|done].
  destruct (_ && _); [|done]. by intros [= <-].
Qed.

Lemma elem_of_pass_on cands (f : gset ResourceKey) l x :
  x ∈ foldl (λ (f : gset ResourceKey) y, if isPending P cands y then {[y]} ∪ f else f) f l
  ↔ x ∈ f ∨ (x ∈ l ∧ isPending P cands x = true).
Proof.
  revert f. induction l as [|y l IH]; intros f; cbn [foldl].
  - rewrite elem_of_nil. tauto.
  - rewrite IH, elem_of_cons. destruct (isPending P cands y) eqn:Hy.
    + rewrite elem_of_union, elem_of_singleton. intuition (subst; auto).
    + intuition (subst; auto). congruence.
Qed.

(** The references of a removed resource that still wait are checked next. *)
Lemma round_further cands l c old x :
  NoDup l → c ∈ ck_removals (round cands l) → rc_Old c = Some old →
  x ∈ ReferencedResources old →
  isPending P (ck_candidates (round cands l)) x = true →
  x ∈ ck_further (round cands l).
Proof.
  intros Hnd Hc Hold Hx. revert Hnd Hc.
  induction l as [|k l IH] using rev_ind; intros Hnd Hc Hp; [by apply elem_of_nil in Hc|].
  pose proof Hnd as Hnd'. apply NoDup_app in Hnd' as (Hnd' & Hd & _). specialize (IH Hnd').
  assert (k ∉ l) as Hk by (intros Hin; apply (Hd k Hin); left).
  assert (isPending P (ck_candidates (round cands l)) x = true) as Hp'.
  { rewrite round_pending in Hp |- * by done. apply andb_true_iff in Hp as [-> Hp]. simpl.
    rewrite (bool_decide_ext (x ∈ l ++ [k]) (x ∈ l ∨ x = k)) in Hp
      by (by rewrite elem_of_app, list_elem_of_singleton).
    destruct (bool_decide (x ∈ l)) eqn:Hb; [|done]. apply bool_decide_eq_true in Hb.
    by rewrite bool_decide_eq_true_2 in Hp by (by left). }
  rewrite round_snoc in Hc, Hp |- *. revert Hc Hp. unfold checkKey at 1 2 3.
  destruct (isPending P (ck_candidates (round cands l)) k); simpl; [|by auto].
  destruct (Get next k) as [old'|]; simpl; [|by auto].
  destruct (HasReference next k); simpl; [by auto|].
  rewrite elem_of_pass_on, elem_of_app, list_elem_of_singleton.
  intros [Hc| ->] Hp; [by auto|]. simpl in Hold. injection Hold as ->. by right.
Qed.
End round.

(** ** References of a snapshot *)

(** A published resource references the key (up to the index key of the reference). *)
Definition refers (s : ResourceSet) (k : ResourceKey) : Prop :=
  ∃ k0 r k', Get s k0 = Some r ∧ k' ∈ ReferencedResources r
             ∧ resourceReferenceIndexKey k = resourceReferenceIndexKey k'.

(** The type URLs of a resource and of its references have no NUL bytes, so that index
    keys identify references. *)
Definition plain_resource (r : Resource) : bool :=
  no_nul (TypeURL (Key r)) && forallb (λ k, no_nul (TypeURL k)) (ReferencedResources r).

Definition plain (s : ResourceSet) : Prop := ∀ k r, Get s k = Some r → plain_resource r = true.

Lemma plain_reference r k :
  plain_resource r = true → k ∈ ReferencedResources r → no_nul (TypeURL k) = true.
Proof.
  intros [_ Hr]%andb_true_iff Hk. apply Is_true_true, forallb_True in Hr.
  rewrite Forall_forall in Hr. by apply Is_true_true, Hr.
Qed.

Lemma plain_key s k r : shape_ok s → plain s → Get s k = Some r → no_nul (TypeURL k) = true.
Proof.
  intros Hs Hp Hr. pose proof (Hp _ _ Hr) as [Hk _]%andb_true_iff.
  by rewrite (Get_Key _ _ _ Hs Hr) in Hk.
Qed.

Definition shrinks (s s' : ResourceSet) : Prop := ∀ k r, Get s' k = Some r → Get s k = Some r.

#[export] Instance shrinks_preorder : PreOrder shrinks.
Proof. split; [by intros s k r|]. intros s1 s2 s3 H12 H23 k r Hr. by apply H12, H23. Qed.

Lemma HasReference_refers s k : set_ok s → HasReference s k = true ↔ refers s k.
Proof.
  intros Hs. rewrite HasReference_spec by done. unfold contains, refers. split.
  - intros (t & r & k' & [_ Hr] & Hk' & E). eauto 6.
  - intros (k0 & r & k' & Hr & Hk' & E). exists (TypeURL k0), r, k'.
    by rewrite (Get_Key _ _ _ (set_ok_shape_ok _ Hs) Hr).
Qed.

Lemma HasReference_shrinks s s' k :
  set_ok s → set_ok s' → shrinks s s' → HasReference s' k = true → HasReference s k = true.
Proof.
  intros Hs Hs' Hsub. rewrite !HasReference_refers by done.
  intros (k0 & r & k' & Hr & ?). exists k0, r, k'. eauto.
Qed.

Lemma plain_shrinks s s' : shrinks s s' → plain s → plain s'.
Proof. intros Hsub Hs k r Hr. eapply Hs, Hsub, Hr. Qed.

(** In a plain snapshot a reference under the index key of a published key is to that key. *)
Lemma plain_refers s k k' r k0 rk :
  shape_ok s → plain s → Get s k = Some rk → Get s k0 = Some r → k' ∈ ReferencedResources r →
  resourceReferenceIndexKey k = resourceReferenceIndexKey k' → k = k'.
Proof.
  intros Hs Hp Hk Hr Hk' E. apply resourceReferenceIndexKey_inj in E; [done|by eapply plain_key|].
  eapply plain_reference; [|done]. by eapply Hp.
Qed.

(** ** Removing published resources *)

Lemma published_key s k r :
  shape_ok s → Get s k = Some r → blank (TypeURL k) || blank (Name k) = false.
Proof.
  intros Hs Hr. pose proof (validateResource_name r) as [Hn Ht]; [by eapply Get_valid|].
  rewrite (Get_Key _ _ _ Hs Hr) in Hn, Ht. by rewrite Hn, Ht.
Qed.

Lemma Apply_removals `{Codec} s cs :
  set_ok s → NoDup (rc_Key <$> cs) →
  (∀ c, c ∈ cs → rc_New c = None ∧ isSome (rc_Old c) = true ∧ rc_Old c = Get s (rc_Key c)) →
  ∃ s' changed, Apply s cs = Ok (s', changed) ∧ set_ok s'
    ∧ (∀ k, k ∈ rc_Key <$> cs → Get s' k = None)
    ∧ (∀ k, k ∉ rc_Key <$> cs → Get s' k = Get s k).
Proof.
  intros Hs Hnd Hcs.
  destruct (Apply_distinct s cs) as (s' & b & Happ & Hs' & Hin & Hout); [done|done|..].
  - apply Is_true_true, forallb_True, Forall_forall. intros c Hc.
    destruct (Hcs c Hc) as (Hn & Ho & E). unfold change_valid. rewrite Hn, andb_true_r, E in *.
    apply Is_true_true. destruct (Get s (rc_Key c)) as [r|] eqn:Hg; [|done].
    by rewrite (published_key s (rc_Key c) r) by (try apply set_ok_shape_ok; done).
  - intros c Hc. right. destruct (Hcs c Hc) as (_ & Ho & E). rewrite <-E.
    destruct (rc_Old c); [eauto|done].
  - intros c r Hc Hr. destruct (Hcs c Hc) as (Hn & _). congruence.
  - exists s', b. split_and!; [done..| |done].
    intros k (c & -> & Hc)%list_elem_of_fmap. destruct (Hcs c Hc) as (Hn & _).
    destruct (Hin c Hc) as [[E _]|[E1 E2]]; [congruence|].
    rewrite Hn in E2. unfold hash_of in E2. rewrite E1. by destruct (Get s (rc_Key c)).
Qed.

Lemma length_typedResources s :
  shape_ok s → length (typedResources s) = size (dom (contents s)).
Proof.
  intros Hs. rewrite size_dom. rewrite <-length_map_to_list. unfold contents. rewrite map_to_list_to_map.
  - by rewrite length_fmap.
  - rewrite <-list_fmap_compose. pose proof (NoDup_typedResources s Hs) as Hnd.
    erewrite list_fmap_ext; [exact Hnd|]. by intros _ [t [x r0]] _.
Qed.

Lemma elem_of_contents s k : shape_ok s → k ∈ dom (contents s) ↔ is_Some (Get s k).
Proof. intros Hs. by apply represents_dom, contents_spec. Qed.

(** Losing a resource makes the snapshot smaller. *)
Lemma shrinks_length s s' k :
  shape_ok s → shape_ok s' → shrinks s s' → is_Some (Get s k) → Get s' k = None →
  length (typedResources s') < length (typedResources s).
Proof.
  intros Hs Hs' Hsub Hk Hk'. rewrite !length_typedResources by done. apply subset_size. split.
  - intros x. rewrite !elem_of_contents by done. intros [r Hr]. eauto.
  - intros Hsup. specialize (Hsup k). rewrite !elem_of_contents in Hsup by done.
    destruct (Hsup Hk) as [r Hr]. congruence.
Qed.

(** ** The rounds *)

Section loop.
Context `{Codec} (P : gset ResourceKey).

(** From [next] to [next'] the keys of [removals] go: each waited for deletion, no
    longer does, and is referenced by nothing that remains. *)
Record cascade (next : ResourceSet) (cands : removalCandidates) (next' : ResourceSet)
    (cands' : removalCandidates) (removals : list ResourceChange) : Prop := mkCascade {
  cascade_ok : set_ok next';
  cascade_distinct : NoDup (rc_Key <$> removals);
  cascade_shape c : c ∈ removals →
    rc_New c = None ∧ isSome (rc_Old c) = true ∧ rc_Old c = Get next (rc_Key c);
  cascade_removed k : k ∈ rc_Key <$> removals →
    Get next' k = None ∧ isPending P cands k = true ∧ isPending P cands' k = false
    ∧ HasReference next' k = false;
  cascade_kept k : k ∉ rc_Key <$> removals → Get next' k = Get next k;
  cascade_pending k : isPending P cands' k = true → isPending P cands k = true;
  cascade_settled k : isPending P cands k = true → isPending P cands' k = false → Get next' k = None;
  cascade_known k : is_Some (cands !! k) → is_Some (cands' !! k)
}.

Lemma cascade_shrinks next cands next' cands' removals :
  cascade next cands next' cands' removals → shrinks next next'.
Proof.
  intros Hc k r Hr. destruct (decide (k ∈ rc_Key <$> removals)) as [Hin|Hin].
  - destruct (cascade_removed _ _ _ _ _ Hc k Hin). congruence.
  - by rewrite (cascade_kept _ _ _ _ _ Hc k Hin) in Hr.
Qed.

Lemma cascade_nil next cands : set_ok next → cascade next cands next cands [].
Proof.
  intros Hn. split; [done|constructor|intros x Hx; by apply elem_of_nil in Hx..|done|done| |done].
  congruence.
Qed.

Lemma cascade_app n1 c1 n2 c2 n3 c3 r1 r2 :
  cascade n1 c1 n2 c2 r1 → cascade n2 c2 n3 c3 r2 → cascade n1 c1 n3 c3 (r1 ++ r2).
Proof.
  intros H1 H2. pose proof (cascade_shrinks _ _ _ _ _ H2) as Hsub.
  assert (∀ c, c ∈ r2 → rc_Key c ∉ rc_Key <$> r1) as Hdis.
  { intros c Hc Hin. destruct (cascade_removed _ _ _ _ _ H1 _ Hin) as [E _].
    destruct (cascade_shape _ _ _ _ _ H2 c Hc) as (_ & Ho & Hg).
    by rewrite Hg, E in Ho. }
  split.
  - apply H2.
  - rewrite fmap_app. apply NoDup_app. split_and!; [apply H1| |apply H2].
    intros k Hk (c & -> & Hc)%list_elem_of_fmap. by eapply Hdis.
  - intros c [Hc|Hc]%elem_of_app; [by apply H1|].
    destruct (cascade_shape _ _ _ _ _ H2 c Hc) as (? & ? & E). split_and!; [done..|].
    rewrite E. apply (cascade_kept _ _ _ _ _ H1). by apply Hdis.
  - intros k. rewrite fmap_app, elem_of_app. intros [Hk|Hk].
    + destruct (cascade_removed _ _ _ _ _ H1 k Hk) as (Hg & Hp & Hp' & Hr).
      split_and!; [|done| |].
      * destruct (Get n3 k) as [r|] eqn:E; [|done]. apply Hsub in E. congruence.
      * destruct (isPending P c3 k) eqn:E; [|done]. apply (cascade_pending _ _ _ _ _ H2) in E. congruence.
      * apply not_true_is_false. intros E. apply HasReference_shrinks with (s := n2) in E;
          [congruence|apply H1|apply H2|done].
    + destruct (cascade_removed _ _ _ _ _ H2 k Hk) as (Hg & Hp & Hp' & Hr).
      split_and!; [done| |done..]. by apply (cascade_pending _ _ _ _ _ H1).
  - intros k. rewrite fmap_app, elem_of_app. intros Hk.
    rewrite (cascade_kept _ _ _ _ _ H2), (cascade_kept _ _ _ _ _ H1); [done|tauto..].
  - intros k Hk. by apply (cascade_pending _ _ _ _ _ H1), (cascade_pending _ _ _ _ _ H2).
  - intros k Hk Hk3. destruct (isPending P c2 k) eqn:Hk2.
    + by apply (cascade_settled _ _ _ _ _ H2).
    + pose proof (cascade_settled _ _ _ _ _ H1 k Hk Hk2) as E.
      destruct (Get n3 k) as [r|] eqn:E3; [|done]. apply Hsub in E3. congruence.
  - intros k Hk. by apply (cascade_known _ _ _ _ _ H2), (cascade_known _ _ _ _ _ H1).
Qed.

Lemma round_cascade next cands l :
  set_ok next → NoDup l →
  ∃ next' changed, Apply next (ck_removals (round next P cands l)) = Ok (next', changed)
    ∧ cascade next cands next' (ck_candidates (round next P cands l))
        (ck_removals (round next P cands l)).
Proof.
  intros Hn Hl.
  destruct (Apply_removals next (ck_removals (round next P cands l)))
    as (next' & b & Happ & Hn' & Hin & Hout); [done|by apply NoDup_round_removals|..].
  { intros c (_ & ? & ? & ? & _)%elem_of_round_removals; done. }
  assert (shrinks next next') as Hsub.
  { intros k r Hr. destruct (decide (k ∈ rc_Key <$> ck_removals (round next P cands l))) as [Hk|Hk].
    - rewrite Hin in Hr; done.
    - by rewrite Hout in Hr. }
  exists next', b. split; [done|]. split; [done|by apply NoDup_round_removals| | |done| | |].
  - intros c (_ & ? & ? & ? & _)%elem_of_round_removals; done.
  - intros k Hk. pose proof (Hin k Hk) as Hg.
    apply list_elem_of_fmap in Hk as (c & -> & Hc).
    apply elem_of_round_removals in Hc as (Hk & _ & Ho & E & Hp & Hr); [|done].
    split_and!; [done..| |].
    + rewrite round_pending, Hp, bool_decide_eq_true_2 by done. simpl. unfold stays.
      by rewrite Hr, andb_false_r.
    + apply not_true_is_false. intros Hr'.
      apply HasReference_shrinks with (s := next) in Hr'; [congruence|done..].
  - intros k. rewrite round_pending by done. by intros [? _]%andb_true_iff.
  - intros k Hk. rewrite round_pending, Hk by done. simpl. intros [Hb Hs]%orb_false_iff.
    apply negb_false_iff, bool_decide_eq_true in Hb. unfold stays in Hs.
    destruct (Get next k) as [r|] eqn:Hg; simpl in Hs.
    + apply Hin, list_elem_of_fmap. exists (mkChange k (Some r) None). split; [done|].
      by apply elem_of_round_removals.
    + destruct (Get next' k) as [r|] eqn:Hg'; [|done]. apply Hsub in Hg'. congruence.
  - intros k Hk. rewrite round_candidates by done. destruct (_ && _); eauto.
Qed.

(** Every key that waits is about to be checked, or is published and referenced. *)
Definition watched (next : ResourceSet) (cands : removalCandidates) (checks : gset ResourceKey) : Prop :=
  ∀ k, isPending P cands k = true → k ∈ checks ∨ stays next k = true.

Lemma round_stays next cands checks k :
  watched next cands checks →
  isPending P (ck_candidates (round next P cands (elements checks))) k = true →
  stays next k = true.
Proof.
  intros Hw. rewrite round_pending by apply NoDup_elements. intros [Hp Hk]%andb_true_iff.
  destruct (Hw k Hp) as [Hin|]; [|done].
  by rewrite bool_decide_eq_true_2 in Hk by by apply elem_of_elements.
Qed.

Lemma round_checked next cands (checks : gset ResourceKey) k :
  k ∈ checks → isPending P (ck_candidates (round next P cands (elements checks))) k = true →
  is_Some (Get next k).
Proof.
  intros Hin. rewrite round_pending by apply NoDup_elements. intros [_ Hk]%andb_true_iff.
  rewrite bool_decide_eq_true_2 in Hk by by apply elem_of_elements.
  simpl in Hk. unfold stays in Hk. destruct (Get next k); [eauto|done].
Qed.

Lemma round_watched next cands checks next' :
  set_ok next → plain next →
  cascade next cands next' (ck_candidates (round next P cands (elements checks)))
    (ck_removals (round next P cands (elements checks))) →
  watched next cands checks →
  watched next' (ck_candidates (round next P cands (elements checks)))
    (ck_further (round next P cands (elements checks))).
Proof.
  intros Hn Hplain Hc Hw k Hk. pose proof (round_stays _ _ _ _ Hw Hk) as Hs.
  unfold stays in Hs. apply andb_true_iff in Hs as [Hg Hr].
  destruct (Get next k) as [rk|] eqn:Hrk; [|done].
  assert (Get next' k = Get next k) as Eg.
  { apply (cascade_kept _ _ _ _ _ Hc). intros Hin.
    destruct (cascade_removed _ _ _ _ _ Hc k Hin) as (_ & _ & E & _). congruence. }
  apply HasReference_refers in Hr as (k0 & r & k' & Hr & Hk' & E); [|done].
  destruct (decide (k0 ∈ rc_Key <$> ck_removals (round next P cands (elements checks)))) as [Hin|Hin].
  - left. apply (plain_refers next k k' r k0 rk) in E as <-; [|by apply set_ok_shape_ok|done..].
    apply list_elem_of_fmap in Hin as (c & -> & Hcin).
    eapply round_further; [apply NoDup_elements|done| |done..].
    destruct (cascade_shape _ _ _ _ _ Hc c Hcin) as (_ & _ & ->). done.
  - right. unfold stays. rewrite Eg, Hrk. simpl. apply HasReference_refers; [apply Hc|].
    exists k0, r, k'. by rewrite (cascade_kept _ _ _ _ _ Hc k0 Hin).
Qed.

(** The rounds end within the fuel: each one that continues removes a resource. *)
Lemma retainLoop_spec fuel next cands checks adjustments :
  set_ok next → length (typedResources next) < fuel →
  ∃ next' cands' removals,
    retainLoop fuel P next cands checks adjustments = Some (Ok (next', cands', adjustments ++ removals))
    ∧ cascade next cands next' cands' removals
    ∧ (∀ k, k ∈ checks → isPending P cands' k = true → is_Some (Get next k))
    ∧ (plain next → watched next cands checks → ∀ k, isPending P cands' k = true → stays next' k = true).
Proof.
  revert next cands checks adjustments.
  induction fuel as [|fuel IH]; intros next cands checks adj Hn Hf; [lia|]. cbn [retainLoop].
  destruct (decide (size checks = 0)) as [Hz|_].
  { exists next, cands, []. rewrite app_nil_r. apply size_empty_inv in Hz.
    split_and!; [done|by apply cascade_nil| |].
    - intros k Hin. by apply Hz, not_elem_of_empty in Hin.
    - intros _ Hw k Hk. destruct (Hw k Hk) as [Hin|]; [|done].
      by apply Hz, not_elem_of_empty in Hin. }
  destruct (round_cascade next cands (elements checks)) as (next1 & b & Happ & Hc1);
    [done|apply NoDup_elements|].
  pose proof (λ k, round_stays next cands checks k) as Hst.
  pose proof (round_watched next cands checks next1 Hn) as Hwt.
  pose proof (λ k, round_checked next cands checks k) as Hck.
  unfold round in *. set (st := foldl (checkKey next P) _ _) in *.
  destruct (decide (length (ck_removals st) = 0)) as [Hz|Hz].
  { exists next, (ck_candidates st), []. rewrite app_nil_r. split_and!; [done| |done|by eauto].
    apply nil_length_inv in Hz. rewrite Hz in Hc1.
    split; [done|constructor|intros x Hx; by apply elem_of_nil in Hx..|done|apply Hc1| |apply Hc1].
    intros k Hk Hk'. rewrite <-(cascade_kept _ _ _ _ _ Hc1) by apply not_elem_of_nil.
    by apply (cascade_settled _ _ _ _ _ Hc1). }
  rewrite Happ. destruct (ck_removals st) as [|c cs] eqn:Ers; [done|]. rewrite <-Ers in *.
  destruct (IH next1 (ck_candidates st) (ck_further st) (adj ++ ck_removals st))
    as (next' & cands' & rem & -> & Hc2 & _ & Hfin); [apply Hc1| |].
  { assert (c ∈ ck_removals st) as Hcin by (rewrite Ers; left).
    enough (length (typedResources next1) < length (typedResources next)) by lia.
    apply shrinks_length with (k := rc_Key c); [by apply set_ok_shape_ok|apply set_ok_shape_ok, Hc1| | |].
    - by eapply cascade_shrinks.
    - destruct (cascade_shape _ _ _ _ _ Hc1 c Hcin) as (_ & Ho & <-). destruct (rc_Old c); [eauto|done].
    - apply Hc1, list_elem_of_fmap. eauto. }
  exists next', cands', (ck_removals st ++ rem). rewrite app_assoc.
  split_and!; [done|by eapply cascade_app| |].
  { intros k Hk Hp. eapply Hck; [done|]. by apply (cascade_pending _ _ _ _ _ Hc2). }
  intros Hplain Hw. apply Hfin.
  - eapply plain_shrinks; [by eapply cascade_shrinks|done].
  - by apply Hwt.
Qed.
End loop.
