(* ===== verification/Publish.v ===== *)
(** * Publish: what Store.Replace and Store.Apply commit (store.go)

    The batch that reaches [retainReferencedResources] describes the step from the
    published snapshot to the proposed one. What comes out keeps every published
    reference alive, tracks the deletions it withholds, and carries them out as soon as
    the references are gone. *)

From S2P Require Import Prelude Identity Resource ResourceIndex ResourceSet SetInvariant SetQueries SetDiff Update Store Cascade.

(** Every published resource has been hashed. *)
Definition all_hashed (s : ResourceSet) : Prop := ∀ k r, Get s k = Some r → Hash r ≠ "".

(** ** Batches *)

Definition same_references (a b : option Resource) : Prop :=
  match a, b with
  | None, None => True
  | Some r, Some r' => ∀ k, k ∈ ReferencedResources r ↔ k ∈ ReferencedResources r'
  | _, _ => False
  end.

(** The batch [cs] leads from [C] to [N]; a new value that is not installed is one the
    snapshot already held under the same hash. *)
Record describes (C N : ResourceSet) (cs : list ResourceChange) : Prop := mkDescribes {
  describes_distinct : NoDup (rc_Key <$> cs);
  describes_effect c : c ∈ cs → sameResource (rc_Old c) (rc_New c) = false;
  describes_changed c : c ∈ cs →
    Get N (rc_Key c) = rc_New c
    ∨ (same_references (Get C (rc_Key c)) (Get N (rc_Key c)) ∧ is_Some (rc_New c)
       ∧ is_Some (Get C (rc_Key c)) ∧ hash_of C (rc_Key c) = hash_of N (rc_Key c));
  describes_other k : k ∉ rc_Key <$> cs →
    same_references (Get C k) (Get N k) ∧ hash_of C k = hash_of N k
}.

Lemma same_references_some a b : same_references a b → is_Some a ↔ is_Some b.
Proof. destruct a, b; simpl; try done; intros _; split; intros [? ?]; eauto; done. Qed.

(** The keys that wait for deletion once the batch has been looked at *)
Definition waits (P : gset ResourceKey) (cs : list ResourceChange) (k : ResourceKey) : Prop :=
  (∃ c, c ∈ cs ∧ rc_Key c = k ∧ rc_New c = None) ∨ (k ∈ P ∧ k ∉ rc_Key <$> cs).

Section candidates.
Context (C : ResourceSet) (P : gset ResourceKey) (cs : list ResourceChange).
Context (Hnd : NoDup (rc_Key <$> cs)).

Local Abbreviation cands := (foldl (considerChange C P) ∅ cs).

Lemma change_unique c c' : c ∈ cs → c' ∈ cs → rc_Key c = rc_Key c' → c = c'.
Proof.
  intros Hc Hc' E. apply list_elem_of_lookup in Hc as [i Hi], Hc' as [j Hj].
  assert (i = j) as ->; [|congruence].
  eapply (NoDup_lookup (rc_Key <$> cs)); [done|by rewrite list_lookup_fmap, Hi|].
  rewrite list_lookup_fmap, Hj. simpl. congruence.
Qed.

Lemma withdraws_pending k c : withdraws C P k c = true → k ∈ P.
Proof. unfold withdraws. intros [H _]%andb_true_iff. by apply bool_decide_eq_true in H. Qed.

(** A key without a deciding change becomes a candidate by a withdrawn reference only. *)
Lemma candidates_other k :
  k ∉ rc_Key <$> cs →
  cands !! k = if existsb (withdraws C P k) cs then Some true else None.
Proof.
  intros Hk. apply (candidates_spec C P cs Hnd). intros c Hc E. exfalso. apply Hk.
  apply list_elem_of_fmap. eauto.
Qed.

Lemma candidates_pending k : isPending P cands k = true ↔ waits P cs k.
Proof.
  destruct (candidates_spec C P cs Hnd) as [Hdec Hoth]. unfold isPending, waits.
  destruct (decide (k ∈ rc_Key <$> cs)) as [Hin|Hin].
  - apply list_elem_of_fmap in Hin as (c & -> & Hc). destruct (decides P c) eqn:Hd.
    + rewrite (Hdec c Hc Hd). destruct (rc_New c) as [n|] eqn:Hn; simpl; split; try done.
      * intros [(c' & Hc' & E & Hn')|[_ []]]; [|apply list_elem_of_fmap; eauto].
        rewrite (change_unique _ _ Hc' Hc E) in Hn'. congruence.
      * intros _. left. eauto.
    + unfold decides in Hd. apply orb_false_iff in Hd as [Hn Hp].
      apply bool_decide_eq_false in Hp. rewrite Hoth.
      * destruct (existsb _ _) eqn:Hx.
        { apply existsb_exists in Hx as (? & _ & Hw%withdraws_pending). done. }
        rewrite bool_decide_eq_false_2 by done. split; [done|].
        intros [(c' & Hc' & E & Hn')|[? _]]; [|done].
        rewrite (change_unique _ _ Hc' Hc E) in Hn'. by rewrite Hn' in Hn.
      * intros c' Hc' E. rewrite (change_unique _ _ Hc' Hc E). unfold decides.
        by rewrite Hn, bool_decide_eq_false_2.
  - rewrite candidates_other by done. split.
    + intros Hp. right. split; [|done]. destruct (existsb _ _) eqn:Hx.
      * by apply existsb_exists in Hx as (? & _ & Hw%withdraws_pending).
      * by apply bool_decide_eq_true in Hp.
    + intros [(c & Hc & E & _)|[Hp _]].
      * exfalso. apply Hin, list_elem_of_fmap. eauto.
      * destruct (existsb _ _); [done|]. by apply bool_decide_eq_true_2.
Qed.

(** Deletions are candidates. *)
Lemma candidates_deleted c : c ∈ cs → rc_New c = None → cands !! rc_Key c = Some true.
Proof.
  intros Hc Hn. rewrite (proj1 (candidates_spec C P cs Hnd) c Hc); [by rewrite Hn|].
  unfold decides. by rewrite Hn.
Qed.

Lemma candidates_true k : cands !! k = Some true → waits P cs k.
Proof. intros Hk. apply candidates_pending. unfold isPending. by rewrite Hk. Qed.
End candidates.

Lemma elem_of_updatePending P (cands : removalCandidates) k :
  k ∈ updatePending P cands ↔ isPending P cands k = true.
Proof.
  unfold updatePending, isPending.
  assert (∀ l : list (ResourceKey * bool), NoDup l.*1 →
    k ∈ foldl (λ (p : gset ResourceKey) (c : ResourceKey * bool),
          if c.2 then {[c.1]} ∪ p else p ∖ {[c.1]}) P l
    ↔ (k, true) ∈ l ∨ (k ∈ P ∧ (k, false) ∉ l)) as Hfold.
  { induction l as [|[x b] l IH] using rev_ind; intros Hl.
    - rewrite elem_of_nil. simpl. split; [|naive_solver]. intros. right. split; [done|apply not_elem_of_nil].
    - rewrite fmap_app in Hl. apply NoDup_app in Hl as (Hl & Hd & _). rewrite foldl_app. simpl.
      destruct b; simpl;
        rewrite ?elem_of_union, ?elem_of_difference, elem_of_singleton, IH, !elem_of_app,
          !list_elem_of_singleton by done.
      + split; [|naive_solver]. intros [->|[?|[? ?]]]; [by auto..|]. right. split; [done|]. naive_solver.
      + assert (k = x → (k, true) ∉ l) as Hk.
        { intros -> Hin. apply (Hd x); [|simpl; left]. apply list_elem_of_fmap. by exists (x, true). }
        split; [naive_solver|]. intros [[?|?]|[? Hn]]; [|done|].
        * split; [by left|]. naive_solver.
        * split; [right; split; [done|]; naive_solver|]. naive_solver. }
  rewrite Hfold by apply NoDup_fst_map_to_list.
  rewrite !elem_of_map_to_list. destruct (cands !! k) as [[]|] eqn:Hk.
  - naive_solver.
  - split; [|done]. intros [?|[_ Hn]]; [congruence|]. by destruct Hn.
  - rewrite bool_decide_eq_true. split; [intros [?|[? _]]; [congruence|done]|].
    intros. right. split; [done|congruence].
Qed.

(** ** Restoring dependencies *)

Section restore.
Context (C N : ResourceSet) (cands : removalCandidates).
Context (HC : set_ok C) (HN : set_ok N) (Hh : all_hashed C).

Lemma elem_of_restorations c :
  c ∈ restorations C N cands ↔
  cands !! rc_Key c = Some true ∧ Get N (rc_Key c) = None ∧ rc_Old c = None
  ∧ isSome (rc_New c) = true ∧ rc_New c = Get C (rc_Key c)
  ∧ (HasReference C (rc_Key c) = true ∨ HasReference N (rc_Key c) = true).
Proof.
  unfold restorations. rewrite list_elem_of_omap. split.
  - intros ([k b] & Hin%elem_of_map_to_list & Hc). simpl in Hc. destruct b; [|done].
    destruct (Get C k) as [old|] eqn:HgC, (Get N k) eqn:HgN; try done.
    destruct (_ || _) eqn:Hr; [|done]. injection Hc as <-. simpl.
    rewrite HgC. apply orb_true_iff in Hr. done.
  - destruct c as [k old new]; simpl. intros (Hk & HgN & -> & Hnew & -> & Hr).
    exists (k, true). split; [by apply elem_of_map_to_list|]. simpl. rewrite HgN.
    destruct (Get C k); [|done]. apply orb_true_iff in Hr. by rewrite Hr.
Qed.

Lemma NoDup_restorations : NoDup (rc_Key <$> restorations C N cands).
Proof.
  apply (NoDup_fmap_omap _ _ fst); [|apply NoDup_fst_map_to_list].
  intros [k b] c _. simpl. destruct b; [|done].
  destruct (Get C k), (Get N k); try done. destruct (_ || _); [|done]. by intros [= <-].
Qed.

Lemma published_valid `{Codec} s k r :
  shape_ok s → Get s k = Some r → Hash r ≠ "" → is_ok (normalizeChangedResource k r) = true.
Proof.
  intros Hs Hg Hr. unfold normalizeChangedResource. rewrite (Get_Key _ _ _ Hs Hg).
  rewrite bool_decide_eq_true_2 by done. simpl. unfold admitResource.
  rewrite decide_False by done. by rewrite (Get_valid _ _ _ Hs Hg).
Qed.

(** The snapshot with the dependencies restored *)
Record restored (N1 : ResourceSet) : Prop := mkRestored {
  restored_ok : set_ok N1;
  restored_in k : k ∈ rc_Key <$> restorations C N cands → Get N1 k = Get C k;
  restored_out k : k ∉ rc_Key <$> restorations C N cands → Get N1 k = Get N k
}.

Lemma restorations_Apply `{Codec} :
  ∃ N1 b, (if decide (length (restorations C N cands) = 0) then Ok (N, false)
           else Apply N (restorations C N cands)) = Ok (N1, b) ∧ restored N1.
Proof.
  destruct (decide _) as [Hz|_].
  { apply nil_length_inv in Hz. exists N, false. split; [done|]. split; [done| |done].
    intros k. rewrite Hz. simpl. intros Hk. by apply elem_of_nil in Hk. }
  destruct (Apply_distinct N (restorations C N cands)) as (N1 & b & Happ & Hok & Hin & Hout);
    [done|apply NoDup_restorations|..].
  - apply Is_true_true, forallb_True, Forall_forall. intros c Hc. apply Is_true_true.
    apply elem_of_restorations in Hc as (_ & _ & _ & Hs & E & _). unfold change_valid.
    rewrite E in *. destruct (Get C (rc_Key c)) as [r|] eqn:Hg; [|done].
    rewrite (published_key C (rc_Key c) r) by (try apply set_ok_shape_ok; done). simpl.
    apply (published_valid C); [by apply set_ok_shape_ok|done|by apply (Hh (rc_Key c))].
  - intros c (_ & _ & -> & _)%elem_of_restorations. by left.
  - intros c r (_ & _ & _ & _ & E & _)%elem_of_restorations Hr. eapply Hh. by rewrite <-E.
  - exists N1, b. split; [done|]. split; [done| |done].
    intros k (c & -> & Hc)%list_elem_of_fmap.
    destruct (Hin c Hc) as [[E _]|[_ E]]; apply elem_of_restorations in Hc as (_ & HgN & _ & Hs & E' & _).
    + congruence.
    + unfold hash_of in E. rewrite HgN in E. by destruct (rc_New c).
Qed.

Lemma restored_sub N1 k r : restored N1 → Get N k = Some r → Get N1 k = Some r.
Proof.
  intros HN1 Hr. rewrite (restored_out _ HN1); [done|].
  intros (c & -> & (_ & E & _)%elem_of_restorations)%list_elem_of_fmap. congruence.
Qed.

Lemma restored_from N1 k r : restored N1 → Get N1 k = Some r → Get N k = Some r ∨ Get C k = Some r.
Proof.
  intros HN1 Hr. destruct (decide (k ∈ rc_Key <$> restorations C N cands)) as [Hk|Hk].
  - right. by rewrite <-(restored_in _ HN1 _ Hk).
  - left. by rewrite <-(restored_out _ HN1 _ Hk).
Qed.
End restore.

(** ** The published references of waiting resources *)

(** Resources that wait for deletion are published and referenced. *)
Definition pending_ok (s : ResourceSet) (P : gset ResourceKey) : Prop :=
  ∀ k, k ∈ P → stays s k = true.

Section initial.
Context (C N : ResourceSet) (P : gset ResourceKey) (cs : list ResourceChange).
Context (HC : set_ok C) (HN : set_ok N) (Hcs : describes C N cs).

Local Abbreviation cands := (foldl (considerChange C P) ∅ cs).

(** A waiting key that is not a candidate is still referenced in the proposed snapshot. *)
Lemma unconsidered_referenced k :
  plain C → isSome (Get C k) = true → HasReference C k = true → k ∈ P → cands !! k = None → refers N k.
Proof.
  intros Hplain Hsome Hr HP Hk. pose proof (describes_distinct _ _ _ Hcs) as Hnd.
  destruct (Get C k) as [rk|] eqn:Hrk; [|done].
  apply HasReference_refers in Hr as (k0 & old & k' & Hold & Hk' & E); [|done].
  apply (plain_refers C k k' old k0 rk) in E as <-; [|by apply set_ok_shape_ok|done..].
  assert (same_references (Get C k0) (Get N k0) → refers N k) as Hsame.
  { rewrite Hold. destruct (Get N k0) as [r|] eqn:Hr; [|done]. simpl. intros Hs.
    exists k0, r, k. by rewrite <-Hs. }
  destruct (decide (k0 ∈ rc_Key <$> cs)) as [Hin|Hin]; [|by apply Hsame, (describes_other _ _ _ Hcs)].
  apply list_elem_of_fmap in Hin as (c & -> & Hc).
  destruct (describes_changed _ _ _ Hcs c Hc) as [En|[Hs _]]; [|by apply Hsame].
  assert (withdraws C P k c = false) as Hw.
  { assert (k ∉ rc_Key <$> cs) as Hknot.
    { intros (c' & -> & Hc')%list_elem_of_fmap.
      rewrite (proj1 (candidates_spec C P cs Hnd) c' Hc') in Hk; [done|].
      unfold decides. rewrite (bool_decide_eq_true_2 _ HP). apply orb_true_r. }
    rewrite candidates_other in Hk by done. apply not_true_is_false. intros Hw.
    rewrite (proj2 (existsb_exists_elem _ _)) in Hk; [done|eauto]. }
  unfold withdraws in Hw. rewrite !bool_decide_eq_true_2, Hold in Hw by done.
  rewrite bool_decide_eq_true_2 in Hw by done. simpl in Hw.
  destruct (rc_New c) as [n|] eqn:Hn; [|done].
  exists (rc_Key c), n, k. split_and!; [done| |done].
  apply andb_false_iff in Hw as [Hw|Hw]; apply negb_false_iff in Hw.
  - apply Facts_Equal_references in Hw. by rewrite <-Hw.
  - by apply bool_decide_eq_true in Hw.
Qed.

Lemma initial_watched N1 :
  restored C N cands N1 → plain C → pending_ok C P → watched P N1 cands (dom cands).
Proof.
  intros HN1 Hplain Hpend k Hk. destruct (cands !! k) as [b|] eqn:Hc.
  { left. apply elem_of_dom. eauto. }
  right. unfold isPending in Hk. rewrite Hc in Hk. apply bool_decide_eq_true in Hk.
  pose proof (Hpend k Hk) as Hs. unfold stays in Hs. apply andb_true_iff in Hs as [Hg Hr].
  pose proof (unconsidered_referenced k Hplain Hg Hr Hk Hc) as (k0 & r & k' & Hr0 & ?).
  unfold stays. apply andb_true_iff. split.
  - assert (k ∉ rc_Key <$> cs) as Hin.
    { intros (c & -> & Hin)%list_elem_of_fmap.
      rewrite (proj1 (candidates_spec C P cs (describes_distinct _ _ _ Hcs)) c Hin) in Hc; [done|].
      unfold decides. rewrite (bool_decide_eq_true_2 _ Hk). apply orb_true_r. }
    destruct (describes_other _ _ _ Hcs k Hin) as [Hsame _].
    destruct (Get C k); [|done]. simpl in Hsame. destruct (Get N k) as [r'|] eqn:E; [|done].
    by rewrite (restored_sub _ _ _ _ _ _ HN1 E).
  - apply HasReference_refers; [apply HN1|]. exists k0, r, k'. split; [|done].
    by eapply restored_sub.
Qed.
End initial.

(** ** The outcome *)

(** [N'], [cs'] and [P'] are what [retainReferencedResources] may make of the proposed
    snapshot [N], the batch [cs] and the waiting deletions [P]. *)
Record retained (C N : ResourceSet) (P : gset ResourceKey) (cs : list ResourceChange)
    (N' : ResourceSet) (cs' : list ResourceChange) (P' : gset ResourceKey) : Prop := mkRetained {
  ret_ok : set_ok N';
  ret_idle k : ¬ waits P cs k → Get N' k = Get N k ∧ k ∉ P';
  ret_waiting k : k ∈ P' → waits P cs k ∧ Get N' k = Get N k ∪ Get C k;
  ret_deleted k : waits P cs k → k ∉ P' → Get N' k = None;
  ret_live k : is_Some (Get C k) → Get N' k = None → HasReference N' k = false;
  ret_pending : plain C → plain N → pending_ok C P → pending_ok N' P';
  ret_distinct : NoDup (rc_Key <$> cs');
  ret_effect c : c ∈ cs' → sameResource (rc_Old c) (rc_New c) = false;
  ret_new c : c ∈ cs' →
    rc_New c = Get N' (rc_Key c) ∨ (c ∈ cs ∧ Get N' (rc_Key c) = Get N (rc_Key c));
  ret_old c : c ∈ cs' →
    (∃ c0, c0 ∈ cs ∧ rc_Key c0 = rc_Key c ∧ rc_Old c0 = rc_Old c)
    ∨ ((rc_Key c ∉ rc_Key <$> cs) ∧ rc_Old c = Get N (rc_Key c));
  ret_covers k : hash_of C k ≠ hash_of N' k → k ∈ rc_Key <$> cs'
}.

(** The changes of a batch completed by restorations and removals *)
Section completed.
Context (C N : ResourceSet) (P : gset ResourceKey) (cs : list ResourceChange).
Context (HC : set_ok C) (Hcs : describes C N cs).
Context (cands : removalCandidates) (Hcands : cands = foldl (considerChange C P) ∅ cs).
Context (N1 N' : ResourceSet) (cands' : removalCandidates) (rem : list ResourceChange).
Context (HN1 : restored C N cands N1) (Hrem : cascade P N1 cands N' cands' rem).

Local Abbreviation adj := (restorations C N cands).
Local Abbreviation full := (cs ++ adj ++ rem).

Lemma restored_waits k :
  k ∈ rc_Key <$> adj → ∃ c, c ∈ cs ∧ rc_Key c = k ∧ rc_New c = None.
Proof.
  intros (c & -> & (Hk & HgN & _ & Hs & E & _)%elem_of_restorations)%list_elem_of_fmap.
  rewrite Hcands in Hk. apply candidates_true in Hk as [?|[_ Hk]]; [done| |apply Hcs].
  destruct (describes_other _ _ _ Hcs _ Hk) as [Hsame _].
  rewrite HgN, <-E in Hsame. by destruct (rc_New c).
Qed.

Lemma removed_waits k : k ∈ rc_Key <$> rem → waits P cs k.
Proof.
  intros Hk. destruct (cascade_removed _ _ _ _ _ _ Hrem k Hk) as (_ & Hp & _).
  rewrite Hcands in Hp. apply candidates_pending in Hp; [done|apply Hcs].
Qed.

Lemma completed_new k :
  (k ∈ rc_Key <$> adj ++ rem → lastNew k full = Get N' k)
  ∧ (k ∉ rc_Key <$> adj ++ rem → Get N' k = Get N k).
Proof.
  split.
  - intros Hk. rewrite lastNew_app, decide_True, lastNew_app by done.
    case_decide as Hr.
    + destruct (cascade_removed _ _ _ _ _ _ Hrem k Hr) as (-> & _).
      apply list_elem_of_fmap in Hr as (c & -> & Hc).
      rewrite (proj2 (distinct_first_last rem c (cascade_distinct _ _ _ _ _ _ Hrem) Hc)).
      by apply (cascade_shape _ _ _ _ _ _ Hrem).
    + rewrite fmap_app, elem_of_app in Hk. destruct Hk as [Hk|]; [|done].
      rewrite (cascade_kept _ _ _ _ _ _ Hrem k Hr), (restored_in _ _ _ _ HN1 k Hk).
      apply list_elem_of_fmap in Hk as (c & -> & Hc).
      rewrite (proj2 (distinct_first_last adj c (NoDup_restorations _ _ _) Hc)).
      by apply elem_of_restorations in Hc as (_ & _ & _ & _ & ? & _).
  - rewrite fmap_app, elem_of_app. intros Hk.
    rewrite (cascade_kept _ _ _ _ _ _ Hrem), (restored_out _ _ _ _ HN1); tauto.
Qed.

Lemma completed_old k :
  k ∈ rc_Key <$> full →
  (∃ c0, c0 ∈ cs ∧ rc_Key c0 = k ∧ rc_Old c0 = firstOld k full)
  ∨ ((k ∉ rc_Key <$> cs) ∧ k ∈ rc_Key <$> rem ∧ firstOld k full = Get N k ∧ is_Some (Get N k)).
Proof.
  intros Hk. rewrite firstOld_app. case_decide as Hin.
  - left. apply list_elem_of_fmap in Hin as (c0 & -> & Hc0). exists c0. split_and!; [done..|].
    symmetry. apply distinct_first_last; [apply Hcs|done].
  - right. assert (k ∉ rc_Key <$> adj) as Hadj.
    { intros (c & Hc & <- & _)%restored_waits. apply Hin, list_elem_of_fmap. eauto. }
    rewrite !fmap_app, !elem_of_app in Hk. destruct Hk as [|[|Hk]]; [done..|].
    rewrite firstOld_app, decide_False by done. split_and!; [done|done|..].
    all: rewrite <-(restored_out _ _ _ _ HN1 k Hadj);
      apply list_elem_of_fmap in Hk as (c & -> & Hc);
      destruct (cascade_shape _ _ _ _ _ _ Hrem c Hc) as (_ & Ho & E); rewrite <-E.
    + apply distinct_first_last; [apply Hrem|done].
    + destruct (rc_Old c); [eauto|done].
Qed.

Lemma completed_covers k :
  hash_of C k ≠ hash_of N' k → k ∈ rc_Key <$> coalesceChanges full.
Proof.
  intros Hne. apply elem_of_coalesce_keys.
  destruct (decide (k ∈ rc_Key <$> adj ++ rem)) as [Hk|Hk].
  - assert (k ∈ rc_Key <$> full) as Hfull by (rewrite fmap_app, elem_of_app; by right).
    split; [done|]. rewrite (proj1 (completed_new k) Hk).
    destruct (decide (k ∈ rc_Key <$> rem)) as [Hr|Hr].
    + destruct (cascade_removed _ _ _ _ _ _ Hrem k Hr) as (-> & _).
      destruct (completed_old k Hfull) as [(c0 & Hc0 & <- & <-)|(_ & _ & -> & [r ->])]; [|done].
      destruct (removed_waits _ Hr) as [(c & Hc & E & Hn)|[_ []]]; [|apply list_elem_of_fmap; eauto].
      rewrite (change_unique cs (describes_distinct _ _ _ Hcs) c c0 Hc Hc0 E) in Hn.
      rewrite <-Hn. by apply Hcs.
    + exfalso. apply Hne. unfold hash_of. rewrite (cascade_kept _ _ _ _ _ _ Hrem k Hr).
      rewrite (restored_in _ _ _ _ HN1); [done|].
      rewrite fmap_app, elem_of_app in Hk. tauto.
  - destruct (decide (k ∈ rc_Key <$> cs)) as [Hin|Hin].
    + rewrite fmap_app, elem_of_app. split; [by left|].
      rewrite firstOld_app, decide_True, lastNew_app, decide_False by done.
      apply list_elem_of_fmap in Hin as (c & -> & Hc).
      destruct (distinct_first_last cs c (describes_distinct _ _ _ Hcs) Hc) as [-> ->].
      by apply Hcs.
    + exfalso. apply Hne. unfold hash_of at 2. rewrite (proj2 (completed_new k) Hk).
      by apply (describes_other _ _ _ Hcs).
Qed.
End completed.

Section retain.
Context `{Codec} (s : Store) (N : ResourceSet) (cs : list ResourceChange).
Local Abbreviation C := (st_current s).
Local Abbreviation P := (st_pendingRemovals s).
Context (HC : set_ok C) (HN : set_ok N) (Hh : all_hashed C) (Hcs : describes C N cs).

Local Abbreviation cands := (foldl (considerChange C P) ∅ cs).

Lemma waits_dec k : waits P cs k ∨ ¬ waits P cs k.
Proof.
  rewrite <-(candidates_pending C) by apply Hcs.
  destruct (isPending P cands k); [by left|by right].
Qed.

(** Nothing to check *)
Lemma retained_idle : size cands = 0 → retained C N P cs N cs P.
Proof.
  intros Hz%map_size_empty_inv.
  assert (∀ k, waits P cs k ↔ k ∈ P) as Hw.
  { intros k. rewrite <-(candidates_pending C) by apply Hcs. rewrite Hz. unfold isPending.
    rewrite lookup_empty. apply bool_decide_eq_true. }
  assert (∀ c, c ∈ cs → is_Some (rc_New c)) as Hnew.
  { intros c Hc. destruct (rc_New c) eqn:Hn; [eauto|].
    pose proof (candidates_deleted C P cs (describes_distinct _ _ _ Hcs) c Hc Hn) as E.
    by rewrite Hz, lookup_empty in E. }
  assert (∀ k, is_Some (Get C k) → is_Some (Get N k)) as Hlive.
  { intros k Hk. destruct (decide (k ∈ rc_Key <$> cs)) as [Hin|Hin].
    - apply list_elem_of_fmap in Hin as (c & -> & Hc).
      destruct (describes_changed _ _ _ Hcs c Hc) as [-> |[Hs _]]; [eauto|].
      by apply same_references_some in Hs as [? _]; auto.
    - destruct (describes_other _ _ _ Hcs k Hin) as [Hs _].
      apply same_references_some in Hs as [? _]; auto. }
  split; [done|..].
  - intros k. by rewrite Hw.
  - intros k Hk. split; [by apply Hw|].
    destruct (Get N k) as [r|] eqn:E; [by destruct (Get C k)|].
    destruct (Get C k) eqn:E'; [|done]. destruct (Hlive k); [eauto|congruence].
  - intros k. by rewrite Hw.
  - intros k Hk E. destruct (Hlive k Hk). congruence.
  - intros Hplain _ Hpend k Hk.
    assert (restored C N cands N) as HN1.
    { split; [done| |done]. intros x. rewrite Hz. unfold restorations.
      rewrite map_to_list_empty. simpl. intros Hx. by apply elem_of_nil in Hx. }
    destruct (initial_watched C N P cs HC Hcs N HN1 Hplain Hpend k)
      as [Hd|]; [|by rewrite Hz, dom_empty_L in Hd|done].
    rewrite candidates_pending by apply Hcs. by apply Hw.
  - apply Hcs.
  - apply Hcs.
  - intros c Hc. by right.
  - intros c Hc. left. eauto.
  - intros k Hne. destruct (decide (k ∈ rc_Key <$> cs)) as [|Hin]; [done|].
    by destruct (describes_other _ _ _ Hcs k Hin).
Qed.

Lemma retained_plain N1 : restored C N cands N1 → plain C → plain N → plain N1.
Proof.
  intros HN1 HpC HpN k r Hr. destruct (restored_from _ _ _ _ _ _ HN1 Hr); eauto.
Qed.

(** Deletions that are neither restored nor referenced stay unreferenced. *)
Lemma retained_live N1 N' cands' rem k :
  restored C N cands N1 → cascade P N1 cands N' cands' rem →
  is_Some (Get C k) → Get N' k = None → HasReference N' k = false.
Proof.
  intros HN1 Hrem HkC HkN'.
  destruct (decide (k ∈ rc_Key <$> rem)) as [Hr|Hr]; [by apply (cascade_removed _ _ _ _ _ _ Hrem)|].
  rewrite (cascade_kept _ _ _ _ _ _ Hrem k Hr) in HkN'.
  assert (k ∉ rc_Key <$> restorations C N cands) as Hadj.
  { intros Hin. rewrite (restored_in _ _ _ _ HN1 k Hin) in HkN'. destruct HkC. congruence. }
  rewrite (restored_out _ _ _ _ HN1 k Hadj) in HkN'.
  assert (∃ c, c ∈ cs ∧ rc_Key c = k ∧ rc_New c = None) as (c & Hc & <- & Hn).
  { destruct (decide (k ∈ rc_Key <$> cs)) as [Hin|Hin].
    - apply list_elem_of_fmap in Hin as (c & -> & Hc). exists c. split_and!; [done..|].
      destruct (describes_changed _ _ _ Hcs c Hc) as [<-|[Hs _]]; [done|].
      apply same_references_some in Hs as [Hs _]. destruct (Hs HkC). congruence.
    - destruct (describes_other _ _ _ Hcs k Hin) as [Hs _].
      apply same_references_some in Hs as [Hs _]. destruct (Hs HkC). congruence. }
  pose proof (candidates_deleted C P cs (describes_distinct _ _ _ Hcs) c Hc Hn) as Hcand.
  assert (HasReference C (rc_Key c) = false ∧ HasReference N (rc_Key c) = false) as [HrC HrN].
  { split; apply not_true_is_false; intros Href; apply Hadj, list_elem_of_fmap;
      exists (mkChange (rc_Key c) None (Get C (rc_Key c))); (split; [done|]);
      apply elem_of_restorations; simpl; destruct HkC as [r ->]; auto 10. }
  apply not_true_is_false. intros (k0 & r & k' & Hr0 & Hk' & E)%HasReference_refers; [|apply Hrem].
  apply (cascade_shrinks _ _ _ _ _ _ Hrem) in Hr0.
  destruct (restored_from _ _ _ _ _ _ HN1 Hr0) as [H0|H0].
  - apply not_true_iff_false in HrN. apply HrN, HasReference_refers; [done|]. exists k0, r, k'. done.
  - apply not_true_iff_false in HrC. apply HrC, HasReference_refers; [done|]. exists k0, r, k'. done.
Qed.
(** Restorations and removals, whatever the changes reported *)
Lemma retained_parts N1 N' cands' rem cs' :
  restored C N cands N1 → cascade P N1 cands N' cands' rem →
  (∀ k, k ∈ dom cands → isPending P cands' k = true → is_Some (Get N1 k)) →
  (plain N1 → watched P N1 cands (dom cands) → ∀ k, isPending P cands' k = true → stays N' k = true) →
  (NoDup (rc_Key <$> cs') ∧ ∀ c, c ∈ cs' →
     sameResource (rc_Old c) (rc_New c) = false
     ∧ (rc_New c = Get N' (rc_Key c) ∨ (c ∈ cs ∧ Get N' (rc_Key c) = Get N (rc_Key c)))
     ∧ ((∃ c0, c0 ∈ cs ∧ rc_Key c0 = rc_Key c ∧ rc_Old c0 = rc_Old c)
        ∨ ((rc_Key c ∉ rc_Key <$> cs) ∧ rc_Old c = Get N (rc_Key c)))) →
  (∀ k, hash_of C k ≠ hash_of N' k → k ∈ rc_Key <$> cs') →
  retained C N P cs N' cs' (updatePending P cands').
Proof.
  intros HN1 Hrem Hck Hfin [Hnd' Hcs'] Hcov.
  assert (∀ k, k ∈ updatePending P cands' ↔ isPending P cands' k = true) as HP'.
  { intros k. apply elem_of_updatePending. }
  pose proof (λ k, candidates_pending C P cs (describes_distinct _ _ _ Hcs) k) as Hw.
  split; [apply Hrem|..|done| | | |done].
  - intros k Hk. assert (k ∉ rc_Key <$> rem) as Hr.
    { intros Hr. apply Hk. by eapply removed_waits. }
    rewrite (cascade_kept _ _ _ _ _ _ Hrem k Hr), (restored_out _ _ _ _ HN1).
    + split; [done|]. rewrite HP'. intros Hp%(cascade_pending _ _ _ _ _ _ Hrem). by apply Hk, Hw.
    + intros Hin. apply Hk. left. by eapply restored_waits.
  - intros k Hp%HP'. pose proof (cascade_pending _ _ _ _ _ _ Hrem k Hp) as Hp0.
    split; [by apply Hw|]. assert (k ∉ rc_Key <$> rem) as Hr.
    { intros Hr. destruct (cascade_removed _ _ _ _ _ _ Hrem k Hr) as (_ & _ & E & _). congruence. }
    rewrite (cascade_kept _ _ _ _ _ _ Hrem k Hr).
    destruct (decide (k ∈ rc_Key <$> restorations C N cands)) as [Hin|Hin].
    + rewrite (restored_in _ _ _ _ HN1 k Hin).
      apply list_elem_of_fmap in Hin as (c & -> & (_ & -> & _)%elem_of_restorations).
      by destruct (Get C (rc_Key c)).
    + rewrite (restored_out _ _ _ _ HN1 k Hin). destruct (Get N k) as [r|] eqn:E.
      { by destruct (Get C k). }
      apply Hw in Hp0 as [(c & Hc & <- & Hn)|[_ Hnin]].
      * exfalso. pose proof (candidates_deleted C P cs (describes_distinct _ _ _ Hcs) c Hc Hn) as Hcand.
        destruct (Hck (rc_Key c)) as [r Hr']; [by apply elem_of_dom; eauto|done|].
        rewrite (restored_out _ _ _ _ HN1 _ Hin) in Hr'. congruence.
      * destruct (describes_other _ _ _ Hcs k Hnin) as [Hs _].
        rewrite E in Hs. by destruct (Get C k).
  - intros k Hk Hn. apply (cascade_settled _ _ _ _ _ _ Hrem); [by apply Hw|].
    apply not_true_is_false. by rewrite <-HP'.
  - intros k. by eapply retained_live.
  - intros HpC HpN Hpend k Hp%HP'. apply Hfin; [by apply retained_plain| |done].
    by apply (initial_watched C N P cs HC Hcs N1 HN1 HpC).
  - intros c Hc. by apply Hcs'.
  - intros c Hc. by apply Hcs'.
  - intros c Hc. by apply Hcs'.
Qed.

Lemma retain_spec :
  ∃ N' cs' P', retainReferencedResources s N cs = Some (Ok (N', cs', P'))
    ∧ retained C N P cs N' cs' P'.
Proof.
  unfold retainReferencedResources.
  destruct (decide (size cands = 0)) as [Hz|_].
  { exists N, cs, P. split; [done|]. by apply retained_idle. }
  destruct (restorations_Apply C N cands HC HN Hh) as (N1 & b & -> & HN1).
  destruct (retainLoop_spec P (retainFuel N1) N1 cands (dom cands) (restorations C N cands))
    as (N' & cands' & rem & -> & Hrem & Hck & Hfin); [apply HN1|unfold retainFuel; lia|].
  eexists _, _, _. split; [done|]. apply retained_parts with (N1 := N1) (rem := rem); [done..| |].
  - case_decide as Hz.
    + apply nil_length_inv, app_nil in Hz as [Ha ->].
      split; [apply Hcs|]. intros c Hc. split; [by apply Hcs|]. split; [|by left; eauto].
      right. split; [done|]. apply (completed_new C N P cs cands N1 N' cands' [] HN1 Hrem).
      rewrite Ha. apply not_elem_of_nil.
    + split; [apply NoDup_coalesce|]. intros c (Hk & Ho & Hn & Hs)%elem_of_coalesce.
      split; [done|]. split.
      * destruct (completed_new C N P cs cands N1 N' cands' rem HN1 Hrem (rc_Key c)) as [Hin Hout].
        destruct (decide (rc_Key c ∈ rc_Key <$> restorations C N cands ++ rem)) as [Hin'|Hin'].
        -- left. by rewrite Hn, Hin.
        -- right. split; [|by apply Hout].
           rewrite fmap_app, elem_of_app in Hk. destruct Hk as [Hk|]; [|done].
           rewrite firstOld_app, decide_True in Ho by done. rewrite lastNew_app, decide_False in Hn by done.
           by apply distinct_member; [apply Hcs|..].
      * rewrite Ho. apply (completed_old C N P cs Hcs cands eq_refl N1 N' cands' rem HN1 Hrem) in Hk
          as [Hk|(Hk & _ & Hk' & _)]; [by left|by right].
  - intros k Hne.
    assert (k ∈ rc_Key <$> coalesceChanges (cs ++ restorations C N cands ++ rem)) as Hin.
    { by eapply completed_covers. }
    case_decide as Hz; [|done].
    apply nil_length_inv in Hz. rewrite Hz, app_nil_r in Hin.
    by apply elem_of_coalesce_keys in Hin as [? _].
Qed.
End retain.
