(* ===== verification/Commit.v ===== *)
(** * Commit: the store's invariant under Apply and Replace (store.go)

    Both operations turn a well-formed store into a well-formed store, report exactly the
    keys whose published hash changes, and never publish a dangling reference. *)

From S2P Require Import Prelude Identity Resource ResourceIndex ResourceSet SetInvariant SetQueries SetDiff Update Store Cascade Publish.

(** ** The invariant *)

Record store_ok (s : Store) : Prop := mkStoreOk {
  store_set : set_ok (st_current s);
  store_hashed : all_hashed (st_current s);
  store_plain : plain (st_current s);
  store_pending : pending_ok (st_current s) (st_pendingRemovals s)
}.

(** What the store expects of a batch: new values are normalized, and an old value is
    only given for a published key. *)
Definition batch_ok (C : ResourceSet) (changes : list ResourceChange) : Prop :=
  (∀ c r, c ∈ changes → rc_New c = Some r → Hash r ≠ "" ∧ plain_resource r = true)
  ∧ (∀ c, c ∈ coalesceChanges changes → rc_Old c = None ∨ is_Some (Get C (rc_Key c))).

(** The published state after a batch: new values are installed (up to their hash),
    deletions are carried out or wait with the old value published, and nothing else
    changes but the deletions that waited. *)
Record commits (C : ResourceSet) (P : gset ResourceKey) (cs : list ResourceChange)
    (C' : ResourceSet) (P' : gset ResourceKey) : Prop := mkCommits {
  commits_new c r : c ∈ cs → rc_New c = Some r →
    hash_of C' (rc_Key c) = Some (Hash r) ∧ rc_Key c ∉ P';
  commits_waits k : waits P cs k →
    (k ∈ P' ∧ hash_of C' k = hash_of C k) ∨ ((k ∉ P') ∧ Get C' k = None);
  commits_other k : k ∉ rc_Key <$> cs → k ∉ P → hash_of C' k = hash_of C k ∧ k ∉ P'
}.

Lemma commits_equiv C P cs C1 C2 P' :
  (∀ k, Get C2 k = Get C1 k) → commits C P cs C1 P' → commits C P cs C2 P'.
Proof.
  intros Hget Hcom. split; unfold hash_of.
  - intros c r. rewrite Hget. apply Hcom.
  - intros k. rewrite !Hget. apply Hcom.
  - intros k. rewrite Hget. apply Hcom.
Qed.

Lemma commits_nil C P : commits C P [] C P.
Proof.
  split.
  - intros c r Hc. by apply elem_of_nil in Hc.
  - intros k [(c & Hc & _)|[Hp _]]; [by apply elem_of_nil in Hc|by left].
  - done.
Qed.

(** No published resource disappears while something published references it. *)
Definition no_dangling (C C' : ResourceSet) : Prop :=
  ∀ k, is_Some (Get C k) → Get C' k = None → HasReference C' k = false.

Lemma lastNew_elem k cs r : lastNew k cs = Some r → ∃ c, c ∈ cs ∧ rc_New c = Some r.
Proof.
  unfold lastNew. destruct (last _) as [c|] eqn:Hl; [|done]. intros Hr. exists c.
  split; [|done]. apply last_Some_elem_of in Hl. by apply list_elem_of_filter in Hl as [_ ?].
Qed.

(** ** Applying a coalesced batch *)

Section apply.
Context `{Codec} (C N : ResourceSet) (changes : list ResourceChange) (changed : bool).
Context (HC : set_ok C) (Hbatch : batch_ok C changes).
Context (Happ : Apply C (coalesceChanges changes) = Ok (N, changed)).

Local Abbreviation cs := (coalesceChanges changes).

Lemma coalesced_new c r :
  c ∈ cs → rc_New c = Some r → Hash r ≠ "" ∧ plain_resource r = true.
Proof.
  intros (_ & _ & Hn & _)%elem_of_coalesce Hr. rewrite Hn in Hr.
  apply lastNew_elem in Hr as (c' & Hc' & Hr). by eapply (proj1 Hbatch).
Qed.

Lemma apply_effect :
  set_ok N
  ∧ (∀ c, c ∈ cs →
       (Get N (rc_Key c) = rc_New c ∧ hash_of C (rc_Key c) ≠ Hash <$> rc_New c)
       ∨ (Get N (rc_Key c) = Get C (rc_Key c) ∧ hash_of C (rc_Key c) = Hash <$> rc_New c))
  ∧ (∀ k, k ∉ rc_Key <$> cs → Get N k = Get C k).
Proof.
  destruct (Apply_distinct C cs) as (N' & b & Happ' & Hok & Hin & Hout);
    [done|apply NoDup_coalesce| |apply Hbatch| |].
  - rewrite <-(Apply_ok C) by by apply set_ok_shape_ok. by rewrite Happ.
  - intros c r Hc Hr. by apply (coalesced_new c r).
  - rewrite Happ in Happ'. by injection Happ' as -> ->.
Qed.

Lemma same_references_refl o : same_references o o.
Proof. by destruct o. Qed.

Lemma apply_describes : describes C N cs.
Proof.
  destruct apply_effect as (Hok & Hin & Hout). split.
  - apply NoDup_coalesce.
  - by intros c (_ & _ & _ & ?)%elem_of_coalesce.
  - intros c Hc. destruct (Hin c Hc) as [[? _]|[E Hh]]; [by left|].
    unfold hash_of in *. rewrite E. destruct (Get C (rc_Key c)) as [r|] eqn:Hg.
    + right. destruct (rc_New c); [|done]. split_and!; [done|by eauto..|done].
    + left. by destruct (rc_New c).
  - intros k Hk. unfold hash_of. rewrite Hout by done. split; [apply same_references_refl|done].
Qed.

Lemma apply_hash k : hash_of C k = hash_of N k → Get C k = Get N k.
Proof.
  destruct apply_effect as (Hok & Hin & Hout). intros E.
  destruct (decide (k ∈ rc_Key <$> cs)) as [Hk|Hk]; [|by rewrite Hout].
  apply list_elem_of_fmap in Hk as (c & -> & Hc).
  destruct (Hin c Hc) as [[En Hne]|[E' _]]; [|done]. rewrite E in Hne.
  unfold hash_of in Hne. by rewrite En in Hne.
Qed.

Lemma apply_clean : all_hashed C → plain C → all_hashed N ∧ plain N.
Proof.
  intros Hh Hp. destruct apply_effect as (Hok & Hin & Hout).
  assert (∀ k r, Get N k = Some r → Hash r ≠ "" ∧ plain_resource r = true) as Hall.
  { intros k r Hr. destruct (decide (k ∈ rc_Key <$> cs)) as [Hk|Hk].
    - apply list_elem_of_fmap in Hk as (c & -> & Hc).
      destruct (Hin c Hc) as [[En _]|[E' _]].
      + apply (coalesced_new c r Hc). congruence.
      + rewrite E' in Hr. split; [by eapply Hh|by eapply Hp].
    - rewrite Hout in Hr by done. split; [by eapply Hh|by eapply Hp]. }
  split; intros k r Hr; by apply (Hall k r Hr).
Qed.
End apply.

(** ** From the retained snapshot to the committed one *)

Section commit.
Context (C N : ResourceSet) (P : gset ResourceKey) (cs : list ResourceChange).
Context (N' : ResourceSet) (cs' : list ResourceChange) (P' : gset ResourceKey).
Context (HC : set_ok C) (Hcs : describes C N cs) (Hret : retained C N P cs N' cs' P').

Lemma waits_decision k : waits P cs k ∨ ¬ waits P cs k.
Proof.
  rewrite <-(candidates_pending C) by apply Hcs.
  destruct (isPending P _ k); [by left|by right].
Qed.

(** Where the values of the committed snapshot come from *)
Lemma retained_from k r : Get N' k = Some r → Get N k = Some r ∨ Get C k = Some r.
Proof.
  intros Hr. destruct (waits_decision k) as [Hw|Hw].
  - destruct (decide (k ∈ P')) as [Hp|Hp].
    + destruct (ret_waiting _ _ _ _ _ _ _ Hret k Hp) as [_ E]. rewrite E in Hr.
      destruct (Get N k), (Get C k); naive_solver.
    + rewrite (ret_deleted _ _ _ _ _ _ _ Hret k Hw Hp) in Hr. done.
  - left. by destruct (ret_idle _ _ _ _ _ _ _ Hret k Hw) as [<- _].
Qed.

(** The deletions of a batch leave no value in the proposed snapshot. *)
Lemma waits_hash k : waits P cs k → Get N k = None ∨ hash_of N k = hash_of C k.
Proof.
  intros [(c & Hc & <- & Hn)|[_ Hk]].
  - left. destruct (describes_changed _ _ _ Hcs c Hc) as [E|(_ & [? Hs] & _)]; congruence.
  - right. by destruct (describes_other _ _ _ Hcs k Hk).
Qed.

Lemma retained_commits :
  (∀ c r, c ∈ cs → rc_New c = Some r → hash_of N (rc_Key c) = Some (Hash r)) →
  commits C P cs N' P'.
Proof.
  intros Hnew. pose proof (describes_distinct _ _ _ Hcs) as Hnd. split.
  - intros c r Hc Hr. assert (¬ waits P cs (rc_Key c)) as Hw.
    { intros [(c' & Hc' & E & Hn)|[_ []]]; [|apply list_elem_of_fmap; eauto].
      rewrite (change_unique cs Hnd c' c Hc' Hc E) in Hn. congruence. }
    destruct (ret_idle _ _ _ _ _ _ _ Hret _ Hw) as [E ?]. split; [|done].
    unfold hash_of. rewrite E. by apply Hnew.
  - intros k Hw. destruct (decide (k ∈ P')) as [Hp|Hp]; [left|right; split; [done|by eapply ret_deleted]].
    split; [done|]. destruct (ret_waiting _ _ _ _ _ _ _ Hret k Hp) as [_ E].
    unfold hash_of in *. rewrite E. destruct (waits_hash k Hw) as [->|Hh].
    + by destruct (Get C k).
    + unfold hash_of in Hh. destruct (Get N k), (Get C k); simpl in *; congruence.
  - intros k Hk Hp. destruct (ret_idle _ _ _ _ _ _ _ Hret k) as [E ?].
    { intros [(c & Hc & <- & _)|[? _]]; [|done]. apply Hk, list_elem_of_fmap. eauto. }
    split; [|done]. destruct (describes_other _ _ _ Hcs k Hk) as [_ ->]. unfold hash_of. by rewrite E.
Qed.

(** Values of equal hash carry the same references. *)
Lemma retained_same_references :
  (∀ k, hash_of C k = hash_of N k → same_references (Get C k) (Get N k)) →
  (∀ k, hash_of C k = hash_of N' k) → ∀ k, same_references (Get C k) (Get N' k).
Proof.
  intros Hrefs Hh k. specialize (Hh k). unfold hash_of in Hh.
  destruct (Get N' k) as [r|] eqn:Hr.
  - destruct (retained_from k r Hr) as [E|E].
    + rewrite <-E. apply Hrefs. unfold hash_of. by rewrite E.
    + rewrite E. apply same_references_refl.
  - by destruct (Get C k).
Qed.
End commit.

Lemma refers_same s s' k :
  (∀ k, same_references (Get s k) (Get s' k)) → refers s k → refers s' k.
Proof.
  intros Hs (k0 & r & k' & Hr & Hk' & E). specialize (Hs k0). rewrite Hr in Hs.
  destruct (Get s' k0) as [r'|] eqn:Hr'; [|done]. exists k0, r', k'. split_and!; [done| |done].
  by apply Hs.
Qed.

Lemma same_references_sym a b : same_references a b → same_references b a.
Proof. by destruct a, b; simpl. Qed.

Lemma pending_ok_same s s' P :
  set_ok s → set_ok s' → (∀ k, same_references (Get s k) (Get s' k)) →
  pending_ok s' P → pending_ok s P.
Proof.
  intros Hs Hs' Hsame Hp k Hk. specialize (Hp k Hk). unfold stays in *.
  apply andb_true_iff in Hp as [Hg Hr]. apply andb_true_iff. split.
  - specialize (Hsame k). destruct (Get s k), (Get s' k); done.
  - apply HasReference_refers; [done|]. apply HasReference_refers in Hr; [|done].
    eapply refers_same; [|done]. intros k0. by apply same_references_sym.
Qed.

(** ** The changes reported *)

(** The changes that take effect are exactly the difference of the snapshots. *)
Lemma effective_Diff C N' cs' :
  set_ok C → set_ok N' → NoDup (rc_Key <$> cs') →
  (∀ k, hash_of C k ≠ hash_of N' k → k ∈ rc_Key <$> cs') →
  omap (effectiveChange C N') cs' ≡ₚ Diff C N'.
Proof.
  intros HC HN' Hnd Hcov. pose proof (set_ok_shape_ok _ HC) as HsC.
  pose proof (set_ok_shape_ok _ HN') as HsN.
  assert (∀ c c', effectiveChange C N' c = Some c' ↔
    rc_Key c' = rc_Key c ∧ rc_Old c' = Get C (rc_Key c) ∧ rc_New c' = Get N' (rc_Key c)
    ∧ hash_of C (rc_Key c) ≠ hash_of N' (rc_Key c)) as Heff.
  { intros c [k' o n]. unfold effectiveChange, hash_of. simpl.
    destruct (Get C (rc_Key c)), (Get N' (rc_Key c)); simpl; try case_decide; split;
      try (intros [= <- <- <-]; split_and!; congruence); try (intros (-> & -> & -> & ?); congruence);
      congruence. }
  apply NoDup_Permutation.
  - apply (NoDup_fmap_1 rc_Key). apply (NoDup_fmap_omap _ _ rc_Key); [|done].
    by intros c c' _ (? & _)%Heff.
  - by apply (NoDup_fmap_1 rc_Key), NoDup_Diff.
  - intros c. rewrite list_elem_of_omap, elem_of_Diff by done. split.
    + intros (c0 & Hc0 & (E & ? & ? & ?)%Heff). by rewrite E.
    + intros (Ho & Hn & Hne). pose proof (Hcov _ Hne) as Hk. apply list_elem_of_fmap in Hk as (c0 & E & Hc0).
      exists c0. split; [done|]. apply Heff. by rewrite <-E.
Qed.

(** ** Store.Apply *)

Lemma notifyLocked_fields s u drained :
  st_current (notifyLocked s u drained) = st_current s
  ∧ st_pendingRemovals (notifyLocked s u drained) = st_pendingRemovals s.
Proof. done. Qed.

Lemma store_ok_fields s s' :
  st_current s' = st_current s → st_pendingRemovals s' = st_pendingRemovals s →
  store_ok s → store_ok s'.
Proof. intros Hc Hp [????]. split; by rewrite ?Hc, ?Hp. Qed.

Section store_apply.
Context `{Codec} (s : Store) (changes : list ResourceChange) (drained : gset N).
Context (Hs : store_ok s) (Hbatch : batch_ok (st_current s) changes).
Local Abbreviation C := (st_current s).
Local Abbreviation P := (st_pendingRemovals s).
Local Abbreviation cs := (coalesceChanges changes).

(** What a successful application leaves behind *)
Record applied (s' : Store) (pub : Publication) : Prop := mkApplied {
  applied_ok : store_ok s';
  applied_snapshot : pub_Snapshot pub = st_current s';
  applied_commits : commits C P cs (st_current s') (st_pendingRemovals s');
  applied_live : no_dangling C (st_current s');
  applied_quiet : pub_Changed pub = false → s' = setPending s (st_pendingRemovals s');
  applied_notifies : pub_Changed pub = true →
    ∃ effective, effective ≡ₚ Diff C (st_current s') ∧ effective ≠ []
      ∧ s' = notifyLocked (setCurrent (setPending s (st_pendingRemovals s')) (st_current s'))
               (updateBetween C (st_current s') effective) drained
}.

Lemma no_dangling_refl : no_dangling C C.
Proof. intros k [r Hr] Hn. congruence. Qed.

Lemma applied_nothing : commits C P cs C P → applied s (unchanged s).
Proof. intros Hcom. split; [done|done|done|apply no_dangling_refl| |done]. by destruct s. Qed.

Lemma commits_nothing N b :
  Apply C cs = Ok (N, b) → (∀ k, Get C k = Get N k) → size P = 0 → commits C P cs C P.
Proof.
  intros Happ HN HP%size_empty_inv.
  destruct (apply_effect C N changes b (store_set _ Hs) Hbatch Happ) as (_ & Hin & _).
  assert (∀ k, k ∉ P) as Hnot by (intros k; rewrite HP; apply not_elem_of_empty).
  split; [..|done].
  - intros c r Hc Hr. split; [|done]. unfold hash_of.
    destruct (Hin c Hc) as [[E _]|[_ E]].
    + by rewrite HN, E, Hr.
    + unfold hash_of in E. by rewrite E, Hr.
  - intros k [(c & Hc & <- & Hn)|[Hp _]]; [|by apply Hnot in Hp].
    right. split; [done|]. destruct (Hin c Hc) as [[E _]|[_ E]]; [by rewrite HN, E|].
    unfold hash_of in E. rewrite Hn in E. by destruct (Get C (rc_Key c)).
Qed.

Lemma applied_retained N b N' cs' P' count :
  Apply C cs = Ok (N, b) → retained C N P cs N' cs' P' →
  let s1 := setPending s P' in
  let effective := omap (effectiveChange C N') cs' in
  applied (if decide (length effective = 0) then s1
           else notifyLocked (setCurrent s1 N') (updateBetween C N' effective) drained)
          (if decide (length effective = 0) then unchanged s1
           else mkPublication true N' count).
Proof.
  intros Happ Hret s1 effective. pose proof (store_set _ Hs) as HC.
  pose proof (apply_describes C N changes b HC Hbatch Happ) as Hcs.
  destruct (apply_clean C N changes b HC Hbatch Happ (store_hashed _ Hs) (store_plain _ Hs)) as [HhN HpN].
  destruct (apply_effect C N changes b HC Hbatch Happ) as (HN & Hin & _).
  assert (effective ≡ₚ Diff C N') as Heff by (apply effective_Diff; [done|apply Hret..]).
  assert (commits C P cs N' P') as Hcom.
  { apply retained_commits with (N := N) (cs' := cs'); [done..|]. intros c r Hc Hr.
    unfold hash_of. destruct (Hin c Hc) as [[-> _]|[-> E]]; [by rewrite Hr|].
    unfold hash_of in E. by rewrite E, Hr. }
  assert (pending_ok N' P') as HpN' by (apply Hret; [apply Hs|done|apply Hs]).
  assert (store_ok (setCurrent s1 N')) as Hok'.
  { split; simpl; [apply Hret| | |done].
    - intros k r Hr. destruct (retained_from C N P cs N' cs' P' Hcs Hret k r Hr) as [E|E];
        [by eapply HhN|by eapply (store_hashed _ Hs)].
    - intros k r Hr. destruct (retained_from C N P cs N' cs' P' Hcs Hret k r Hr) as [E|E];
        [by eapply HpN|by eapply (store_plain _ Hs)]. }
  case_decide as Hz.
  - apply nil_length_inv in Hz. rewrite Hz in Heff. symmetry in Heff. apply Permutation_nil_r in Heff.
    assert (∀ k, hash_of C k = hash_of N' k) as Hh.
    { intros k. destruct (decide (hash_of C k = hash_of N' k)) as [|Hne]; [done|].
      assert (mkChange k (Get C k) (Get N' k) ∈ Diff C N') as Hin'.
      { apply elem_of_Diff; [apply set_ok_shape_ok, HC|apply set_ok_shape_ok, Hret|done]. }
      rewrite Heff in Hin'. by apply elem_of_nil in Hin'. }
    assert (∀ k, Get C k = Get N' k) as Hget.
    { intros k. destruct (Get N' k) as [r|] eqn:Hr.
      - destruct (retained_from C N P cs N' cs' P' Hcs Hret k r Hr) as [E|E]; [|done].
        rewrite <-E. apply (apply_hash C N changes b HC Hbatch Happ).
        rewrite Hh. unfold hash_of. by rewrite E, Hr.
      - specialize (Hh k). unfold hash_of in Hh. rewrite Hr in Hh. by destruct (Get C k). }
    split; simpl; [|done| |apply no_dangling_refl|done|done].
    + split; simpl; [apply Hs..|]. apply pending_ok_same with (s' := N'); [done|apply Hret| |done].
      intros k. rewrite Hget. apply same_references_refl.
    + by apply commits_equiv with (C1 := N').
  - split; simpl; [|done|done|intros k; apply Hret|done|].
    + eapply store_ok_fields; [apply notifyLocked_fields..|done].
    + intros _. exists effective. split_and!; [done| |done]. intros E. by rewrite E in Hz.
Qed.

(** [Store.Apply] always returns. An error is the snapshot's own rejection of the batch
    and leaves the store as it was. *)
Lemma StoreApply_spec :
  ∃ s' pub err, StoreApply s changes drained = Some (s', pub, err)
    ∧ match err with
      | Some e => Apply C cs = Err e ∧ s' = s ∧ pub = unchanged s
      | None => applied s' pub
      end.
Proof.
  unfold StoreApply. case_decide as Hz.
  { eexists _, _, _. split; [done|]. simpl. apply nil_length_inv in Hz. apply applied_nothing.
    rewrite Hz. apply commits_nil. }
  destruct (Apply C cs) as [[N b]|e] eqn:Happ; [|by eexists _, _, _].
  destruct (negb b && _) eqn:Hq.
  { eexists _, _, _. split; [done|]. simpl. apply applied_nothing.
    apply andb_true_iff in Hq as [->%negb_true_iff HP%bool_decide_eq_true].
    eapply commits_nothing; [done| |done]. intros k.
    pose proof (Apply_refines C cs _ (set_ok_shape_ok _ (store_set _ Hs))
      (contents_spec C (set_ok_shape_ok _ (store_set _ Hs)))) as Href.
    rewrite Happ in Href. destruct Href as (_ & _ & _ & _ & ->); done. }
  destruct (retain_spec s N cs) as (N' & cs' & P' & -> & Hret).
  - apply Hs.
  - apply (apply_effect C N changes b (store_set _ Hs) Hbatch Happ).
  - apply Hs.
  - apply (apply_describes C N changes b (store_set _ Hs) Hbatch Happ).
  - pose proof (λ n, applied_retained N b N' cs' P' n Happ Hret) as Happl. cbv zeta in Happl.
    destruct (decide _); eexists _, _, _; (split; [done|]); apply (Happl 0) || apply Happl.
Qed.
End store_apply.

(** ** Store.Replace *)

Section store_replace.
Context `{Codec} (s : Store) (snapshot : ResourceSet) (drained : gset N).
Local Abbreviation C := (st_current s).
Context (Hs : store_ok s) (HN : set_ok snapshot) (HhN : all_hashed snapshot) (HpN : plain snapshot).
(** Resources of equal hash carry the same references. *)
Context (Hrefs : ∀ k, hash_of C k = hash_of snapshot k → same_references (Get C k) (Get snapshot k)).

Local Abbreviation P0 := (base.filter (λ k, Get snapshot k = None) (st_pendingRemovals s)).

Record replaced (s' : Store) (pub : Publication) : Prop := mkReplaced {
  replaced_ok : store_ok s';
  replaced_snapshot : pub_Snapshot pub = st_current s';
  replaced_values k :
    (k ∉ st_pendingRemovals s' → hash_of (st_current s') k = hash_of snapshot k)
    ∧ (k ∈ st_pendingRemovals s' → Get snapshot k = None ∧ hash_of (st_current s') k = hash_of C k);
  replaced_live : no_dangling C (st_current s');
  replaced_quiet : pub_Changed pub = false → s' = setPending s (st_pendingRemovals s');
  replaced_notifies : pub_Changed pub = true →
    ∃ changes, changes ≠ [] ∧ NoDup (rc_Key <$> changes)
      ∧ (∀ k, k ∈ rc_Key <$> changes ↔ hash_of C k ≠ hash_of (st_current s') k)
      ∧ (∀ c, c ∈ changes → Hash <$> rc_Old c = hash_of C (rc_Key c)
           ∧ rc_New c = Get (st_current s') (rc_Key c))
      ∧ s' = notifyLocked (setCurrent (setPending s (st_pendingRemovals s')) (st_current s'))
               (updateBetween C (st_current s') changes) drained
}.

Lemma sameResource_hash a b : sameResource a b = bool_decide (Hash <$> a = Hash <$> b).
Proof.
  destruct a as [r|], b as [r'|]; simpl; [|done..].
  destruct (decide (Hash r = Hash r')) as [E|E].
  - by rewrite E, !bool_decide_eq_true_2.
  - rewrite !bool_decide_eq_false_2; [done|congruence..].
Qed.

Lemma Diff_describes : describes C snapshot (Diff C snapshot).
Proof.
  pose proof (set_ok_shape_ok _ (store_set _ Hs)) as HsC.
  pose proof (set_ok_shape_ok _ HN) as HsN. split.
  - by apply NoDup_Diff.
  - intros c (Ho & Hn & Hne)%elem_of_Diff; [|done..]. rewrite sameResource_hash, Ho, Hn.
    by apply bool_decide_eq_false_2.
  - intros c (_ & Hn & _)%elem_of_Diff; [|done..]. by left.
  - intros k Hk. assert (hash_of C k = hash_of snapshot k) as E; [|by auto].
    destruct (decide (hash_of C k = hash_of snapshot k)) as [|Hne]; [done|].
    destruct Hk. apply list_elem_of_fmap. exists (mkChange k (Get C k) (Get snapshot k)).
    split; [done|]. by apply elem_of_Diff.
Qed.

Lemma replace_waits k : waits P0 (Diff C snapshot) k → Get snapshot k = None.
Proof.
  pose proof (set_ok_shape_ok _ (store_set _ Hs)) as HsC.
  pose proof (set_ok_shape_ok _ HN) as HsN. intros [(c & Hc & <- & Hn)|[Hp _]].
  - apply elem_of_Diff in Hc as (_ & E & _); [congruence|done..].
  - by apply elem_of_filter in Hp as [? _].
Qed.

Section outcome.
Context (N' : ResourceSet) (cs' : list ResourceChange) (P' : gset ResourceKey).
Context (Hret : retained C snapshot P0 (Diff C snapshot) N' cs' P').

Lemma replace_values k :
  (k ∉ P' → Get N' k = Get snapshot k) ∧ (k ∈ P' → Get snapshot k = None ∧ Get N' k = Get C k).
Proof.
  split.
  - intros Hk. destruct (waits_decision C snapshot P0 (Diff C snapshot) Diff_describes k) as [Hw|Hw].
    + rewrite (replace_waits k Hw). by eapply ret_deleted.
    + by apply (ret_idle _ _ _ _ _ _ _ Hret).
  - intros Hk. destruct (ret_waiting _ _ _ _ _ _ _ Hret k Hk) as [Hw E].
    pose proof (replace_waits k Hw) as Hn. split; [done|].
    rewrite E, Hn. by destruct (Get C k).
Qed.

Lemma replace_change c :
  c ∈ cs' → Hash <$> rc_Old c = hash_of C (rc_Key c) ∧ rc_New c = Get N' (rc_Key c).
Proof.
  pose proof (set_ok_shape_ok _ (store_set _ Hs)) as HsC.
  pose proof (set_ok_shape_ok _ HN) as HsN. intros Hc. split.
  - destruct (ret_old _ _ _ _ _ _ _ Hret c Hc) as [(c0 & Hc0 & <- & <-)|[Hk ->]].
    + apply elem_of_Diff in Hc0 as (-> & _); done.
    + destruct (describes_other _ _ _ Diff_describes _ Hk) as [_ ->]. done.
  - destruct (ret_new _ _ _ _ _ _ _ Hret c Hc) as [|[Hc' ->]]; [done|].
    by apply elem_of_Diff in Hc' as (_ & ? & _).
Qed.

Lemma replace_keys k : k ∈ rc_Key <$> cs' ↔ hash_of C k ≠ hash_of N' k.
Proof.
  split; [|by apply Hret]. intros (c & -> & Hc)%list_elem_of_fmap.
  pose proof (ret_effect _ _ _ _ _ _ _ Hret c Hc) as He.
  destruct (replace_change c Hc) as [Ho Hn].
  rewrite sameResource_hash, Ho, Hn in He. by apply bool_decide_eq_false in He.
Qed.

Lemma replace_ok : store_ok (setCurrent (setPending s P') N').
Proof.
  assert (∀ k r, Get N' k = Some r → Get snapshot k = Some r ∨ Get C k = Some r) as Hfrom.
  { intros k r. apply (retained_from C snapshot P0 (Diff C snapshot) N' cs' P' Diff_describes Hret). }
  split; simpl; [apply Hret|..].
  - intros k r Hr. destruct (Hfrom k r Hr); [by eapply HhN|by eapply (store_hashed _ Hs)].
  - intros k r Hr. destruct (Hfrom k r Hr); [by eapply HpN|by eapply (store_plain _ Hs)].
  - apply Hret; [apply Hs|done|]. intros k [_ Hk]%elem_of_filter. by apply (store_pending _ Hs).
Qed.

Lemma replaced_retained count :
  let s1 := setPending s P' in
  replaced (if decide (length cs' = 0) then s1
            else notifyLocked (setCurrent s1 N') (updateBetween C N' cs') drained)
           (if decide (length cs' = 0) then unchanged s1 else mkPublication true N' count).
Proof.
  intros s1. pose proof replace_ok as Hok. case_decide as Hz.
  - apply nil_length_inv in Hz.
    assert (∀ k, hash_of C k = hash_of N' k) as Hh.
    { intros k. destruct (decide (hash_of C k = hash_of N' k)) as [|Hne]; [done|].
      apply replace_keys in Hne. rewrite Hz in Hne. by apply elem_of_nil in Hne. }
    split; simpl; [|done| |apply no_dangling_refl|done|done].
    + split; simpl; [apply Hs..|].
      apply pending_ok_same with (s' := N'); [apply Hs|apply Hret| |apply Hok].
      by eapply retained_same_references; [apply Diff_describes|..].
    + intros k. rewrite Hh. unfold hash_of. destruct (replace_values k) as [H1 H2]. split.
      * intros Hk. by rewrite H1.
      * intros Hk. destruct (H2 Hk) as [? ->]. done.
  - split; simpl; [|done| |intros k; apply Hret|done|].
    + eapply store_ok_fields; [apply notifyLocked_fields..|done].
    + intros k. unfold hash_of. destruct (replace_values k) as [H1 H2]. split.
      * intros Hk. by rewrite H1.
      * intros Hk. destruct (H2 Hk) as [? ->]. done.
    + intros _. exists cs'. split_and!; [intros E; by rewrite E in Hz|apply Hret|apply replace_keys|apply replace_change|done].
Qed.
End outcome.

(** [Store.Replace] always returns and never panics. *)
Lemma Replace_spec :
  ∃ s' pub, Replace s snapshot drained = Some (Ok (s', pub)) ∧ replaced s' pub.
Proof.
  unfold Replace.
  destruct (retain_spec (setPending s P0) snapshot (Diff C snapshot)) as (N' & cs' & P' & -> & Hret);
    [apply Hs|done|apply Hs|apply Diff_describes|].
  pose proof (λ n, replaced_retained N' cs' P' Hret n) as Hrep. cbv zeta in Hrep.
  destruct (decide _); eexists _, _; (split; [done|]); apply (Hrep 0) || apply Hrep.
Qed.
End store_replace.
