(* ===== verification/Subscribers.v ===== *)
(** * Subscribers: the store's subscriber indexes (store/subscription.go)

    The indexes by watched type, by workload and by Sandbox name agree with the
    subscribers they index, and hold no empty entries; the subscribers a notice wakes are
    exactly those it concerns. *)

From S2P Require Import Prelude Identity Resource ResourceIndex ResourceSet Update Store.

(** ** Index maps *)

(** No entry is left empty. *)
Definition tight (index : gmap string (gset N)) : Prop := ∀ k v, index !! k = Some v → v ≠ ∅.

Lemma elem_of_addID (m : gmap string (gset N)) k id k' id' :
  id' ∈ ids (addID m k id) k' ↔ id' ∈ ids m k' ∨ (k' = k ∧ id' = id).
Proof.
  unfold ids at 1, addID. destruct (decide (k' = k)) as [->|Hne].
  - rewrite lookup_insert_eq. simpl. rewrite elem_of_union, elem_of_singleton. tauto.
  - rewrite lookup_insert_ne by done. fold (ids m k'). tauto.
Qed.

Lemma elem_of_dropID (m : gmap string (gset N)) k id k' id' :
  id' ∈ ids (dropID m k id) k' ↔ id' ∈ ids m k' ∧ ¬ (k' = k ∧ id' = id).
Proof.
  unfold dropID. destruct (m !! k) as [v|] eqn:Hm.
  - destruct (decide (k' = k)) as [->|Hne].
    + unfold ids. rewrite Hm. simpl. destruct (decide (size (v ∖ {[id]}) = 0)) as [Hz|Hz].
      * apply size_empty_inv in Hz. rewrite lookup_delete_eq. simpl.
        specialize (Hz id'). rewrite elem_of_difference, elem_of_singleton in Hz.
        split; [by intros ?%not_elem_of_empty|]. intros [H1 H2]. apply Hz. tauto.
      * rewrite lookup_insert_eq. simpl. rewrite elem_of_difference, elem_of_singleton. tauto.
    + unfold ids. case_decide; rewrite ?lookup_delete_ne, ?lookup_insert_ne by done; tauto.
  - unfold ids. split; [|tauto]. intros Hin. split; [done|]. intros [-> ->].
    rewrite Hm in Hin. by apply not_elem_of_empty in Hin.
Qed.

Lemma elem_of_addIDs (m : gmap string (gset N)) l id k' id' :
  id' ∈ ids (foldl (λ m n, addID m n id) m l) k' ↔ id' ∈ ids m k' ∨ (k' ∈ l ∧ id' = id).
Proof.
  revert m. induction l as [|k l IH]; intros m; cbn [foldl].
  - rewrite elem_of_nil. tauto.
  - rewrite IH, elem_of_addID, elem_of_cons. tauto.
Qed.

Lemma elem_of_dropIDs (m : gmap string (gset N)) l id k' id' :
  id' ∈ ids (foldl (λ m n, dropID m n id) m l) k' ↔ id' ∈ ids m k' ∧ ¬ (k' ∈ l ∧ id' = id).
Proof.
  revert m. induction l as [|k l IH]; intros m; cbn [foldl].
  - rewrite elem_of_nil. tauto.
  - rewrite IH, elem_of_dropID, elem_of_cons. tauto.
Qed.

Lemma tight_addID m k id : tight m → tight (addID m k id).
Proof.
  intros Hm k' v. unfold addID. destruct (decide (k' = k)) as [->|Hne].
  - rewrite lookup_insert_eq. intros [= <-] E.
    assert (id ∈ (∅ : gset N)) as Hin%not_elem_of_empty; [|done].
    rewrite <-E, elem_of_union, elem_of_singleton. by left.
  - rewrite lookup_insert_ne by done. apply Hm.
Qed.

Lemma tight_dropID m k id : tight m → tight (dropID m k id).
Proof.
  intros Hm k' v. unfold dropID. destruct (m !! k) as [w|] eqn:Hk; [|apply Hm].
  case_decide as Hz.
  - intros [_ Hv]%lookup_delete_Some. by eapply Hm.
  - intros [[-> <-]|[_ Hv]]%lookup_insert_Some; [|by eapply Hm].
    intros E. apply Hz. by rewrite E, size_empty.
Qed.

Lemma tight_foldl (f : gmap string (gset N) → string → gmap string (gset N)) l m :
  (∀ m k, tight m → tight (f m k)) → tight m → tight (foldl f m l).
Proof. intros Hf. revert m. induction l as [|k l IH]; intros m Hm; simpl; auto. Qed.

(** ** The invariant *)

(** What the three indexes record of a subscriber *)
Definition watches (sub : subscriber) (t : string) : Prop := t ∈ sub_types sub.
Definition serves (sub : subscriber) (w : string) : Prop :=
  SandboxType ∈ sub_types sub ∧ sub_sandboxWorkload sub = w.
Definition demands (sub : subscriber) (n : string) : Prop := n ∈ sub_sandboxNames sub.

Definition indexed (subs : gmap N subscriber) (f : subscriber → string → Prop)
    (index : gmap string (gset N)) : Prop :=
  ∀ k id, id ∈ ids index k ↔ ∃ sub, subs !! id = Some sub ∧ f sub k.

Record index_inv (s : Store) : Prop := mkIndexInv {
  inv_byType : indexed (st_subscribers s) watches (st_byType s);
  inv_byWorkload : indexed (st_subscribers s) serves (st_sandboxByWorkload s);
  inv_byName : indexed (st_subscribers s) demands (st_sandboxByName s);
  inv_names id sub n : st_subscribers s !! id = Some sub → demands sub n → watches sub SandboxType;
  inv_fresh id : is_Some (st_subscribers s !! id) → (id ≤ st_nextID s)%N;
  inv_tight : tight (st_byType s) ∧ tight (st_sandboxByWorkload s) ∧ tight (st_sandboxByName s)
}.

Lemma indexed_empty f : indexed ∅ f ∅.
Proof.
  intros k id. unfold ids. rewrite !lookup_empty. simpl. split; [by intros ?%not_elem_of_empty|].
  by intros (sub & ? & _).
Qed.

(** Installing a subscriber, with the index updated at its identifier only *)
Lemma indexed_insert subs f index index' id sub :
  indexed subs f index →
  (∀ k id', id' ∈ ids index' k ↔ (id' ≠ id ∧ id' ∈ ids index k) ∨ (id' = id ∧ f sub k)) →
  indexed (<[id := sub]> subs) f index'.
Proof.
  intros Hi Hupd k id'. rewrite Hupd, (Hi k id'). destruct (decide (id' = id)) as [->|Hne].
  - rewrite lookup_insert_eq. naive_solver.
  - rewrite lookup_insert_ne by done. naive_solver.
Qed.

Lemma indexed_delete subs f index index' id :
  indexed subs f index →
  (∀ k id', id' ∈ ids index' k ↔ id' ≠ id ∧ id' ∈ ids index k) →
  indexed (delete id subs) f index'.
Proof.
  intros Hi Hupd k id'. rewrite Hupd, (Hi k id'). setoid_rewrite lookup_delete_Some. naive_solver.
Qed.

(** An identifier in an index is subscribed. *)
Lemma indexed_None subs f index k id : indexed subs f index → subs !! id = None → id ∉ ids index k.
Proof. intros Hi Hn (sub & Hs & _)%Hi. congruence. Qed.

Lemma NewStore_index initial : index_inv (NewStore initial).
Proof.
  split; simpl; [apply indexed_empty..| | |].
  - intros id sub n Hs. by rewrite lookup_empty in Hs.
  - intros id [sub Hs]. by rewrite lookup_empty in Hs.
  - by split_and!; intros k v; rewrite lookup_empty.
Qed.

Lemma indexed_fresh subs f index id sub :
  indexed subs f index → subs !! id = None → (∀ k, ¬ f sub k) → indexed (<[id := sub]> subs) f index.
Proof.
  intros Hi Hn Hf. eapply indexed_insert; [done|]. intros k id'. split.
  - intros Hin. left. split; [|done]. intros ->. by eapply indexed_None.
  - intros [[_ ?]|[_ ?]]; [done|]. by destruct (Hf k).
Qed.

Lemma Subscribe_index s scope : index_inv s → index_inv (Subscribe s scope).1.
Proof.
  intros Hs. unfold Subscribe. simpl. set (id := (st_nextID s + 1)%N).
  assert (st_subscribers s !! id = None) as Hnew.
  { apply eq_None_not_Some. intros Hsome%(inv_fresh _ Hs). unfold id in Hsome. lia. }
  split; simpl.
  - apply indexed_fresh; [apply Hs|done|]. intros k. unfold watches, demands. simpl. apply not_elem_of_empty.
  - apply indexed_fresh; [apply Hs|done|]. intros k [Hin _]. by apply not_elem_of_empty in Hin.
  - apply indexed_fresh; [apply Hs|done|]. intros k. unfold watches, demands. simpl. apply not_elem_of_empty.
  - intros id' sub n. rewrite lookup_insert_Some. intros [[_ <-]|[_ Hsub]] Hn.
    + unfold demands in Hn. simpl in Hn. by apply not_elem_of_empty in Hn.
    + by eapply (inv_names _ Hs).
  - intros id'. destruct (decide (id' = id)) as [->|Hne]; [done|].
    rewrite lookup_insert_ne by done. intros ?%(inv_fresh _ Hs). unfold id. lia.
  - apply Hs.
Qed.

Lemma cancelSubscription_index s id : index_inv s → index_inv (cancelSubscription s id).
Proof.
  intros Hs. unfold cancelSubscription.
  destruct (st_subscribers s !! id) as [sub|] eqn:Hsub.
  - pose proof (inv_tight _ Hs) as (Ht1 & Ht2 & Ht3). split; simpl.
    + eapply indexed_delete; [apply Hs|]. intros t id'.
      rewrite elem_of_dropIDs, elem_of_elements, (inv_byType _ Hs t id'). unfold watches.
      split; [|naive_solver]. intros [(sub' & Hsub' & Hin) Hn].
      split; [|eauto]. intros ->. apply Hn. split; [|done]. congruence.
    + eapply indexed_delete; [apply Hs|]. intros w id'. case_decide as Hw.
      * rewrite elem_of_dropID, (inv_byWorkload _ Hs w id'). unfold serves.
        split; [|naive_solver]. intros [(sub' & Hsub' & Hin & E) Hn].
        split; [|eauto]. intros ->. apply Hn. split; [congruence|done].
      * rewrite (inv_byWorkload _ Hs w id'). unfold serves. split; [|naive_solver].
        intros (sub' & Hsub' & Hin & E). split; [|eauto]. intros ->. congruence.
    + eapply indexed_delete; [apply Hs|]. intros n id'.
      rewrite elem_of_dropIDs, elem_of_elements, (inv_byName _ Hs n id'). unfold demands.
      split; [|naive_solver]. intros [(sub' & Hsub' & Hin) Hn].
      split; [|eauto]. intros ->. apply Hn. split; [|done]. congruence.
    + intros id' sub' n [_ Hsub']%lookup_delete_Some. by eapply (inv_names _ Hs).
    + intros id' [sub' [_ Hsub']%lookup_delete_Some]. eapply (inv_fresh _ Hs). eauto.
    + split_and!.
      * apply tight_foldl; [|done]. intros. by apply tight_dropID.
      * case_decide; [by apply tight_dropID|done].
      * apply tight_foldl; [|done]. intros. by apply tight_dropID.
  - rewrite (delete_id (st_subscribers s) id Hsub). destruct s. apply Hs.
Qed.

(** ** Watching *)

(** Dropping the names that go and adding those that come *)
Lemma elem_of_renamed (m : gmap string (gset N)) id (old next : gset string) n id' :
  (id ∈ ids m n ↔ n ∈ old) →
  id' ∈ ids (foldl (λ m n, addID m n id) (foldl (λ m n, dropID m n id) m (elements (old ∖ next)))
               (elements (next ∖ old))) n
  ↔ (id' ≠ id ∧ id' ∈ ids m n) ∨ (id' = id ∧ n ∈ next).
Proof.
  intros Hid. rewrite elem_of_addIDs, elem_of_dropIDs, !elem_of_elements, !elem_of_difference.
  destruct (decide (id' = id)) as [->|Hne]; [|tauto].
  destruct (decide (n ∈ old)), (decide (n ∈ next)); tauto.
Qed.

Lemma indexed_self subs f index id sub k :
  indexed subs f index → subs !! id = Some sub → id ∈ ids index k ↔ f sub k.
Proof. intros Hi Hs. rewrite (Hi k id). naive_solver. Qed.

Section watch.
Context (s : Store) (id : N) (sub : subscriber) (typeURL : string) (names : list string).
Context (Hs : index_inv s) (Hsub : st_subscribers s !! id = Some sub).

Lemma watch_byType k id' :
  id' ∈ ids (if bool_decide (typeURL ∈ sub_types sub) then st_byType s
             else addID (st_byType s) typeURL id) k
  ↔ (id' ≠ id ∧ id' ∈ ids (st_byType s) k) ∨ (id' = id ∧ k ∈ ({[typeURL]} ∪ sub_types sub)).
Proof.
  pose proof (indexed_self _ _ _ _ _ k (inv_byType _ Hs) Hsub) as Hself.
  unfold watches in Hself. rewrite elem_of_union, elem_of_singleton. case_bool_decide.
  - destruct (decide (id' = id)) as [->|]; [|tauto]. rewrite Hself.
    split; [tauto|]. intros [[[] _]|[_ [->|?]]]; done.
  - rewrite elem_of_addID. destruct (decide (id' = id)) as [->|]; [|tauto]. rewrite Hself. tauto.
Qed.

Lemma watch_byWorkload k id' :
  id' ∈ ids (if bool_decide (typeURL ∈ sub_types sub) || negb (bool_decide (typeURL = SandboxType))
             then st_sandboxByWorkload s
             else addID (st_sandboxByWorkload s) (sub_sandboxWorkload sub) id) k
  ↔ (id' ≠ id ∧ id' ∈ ids (st_sandboxByWorkload s) k)
    ∨ (id' = id ∧ SandboxType ∈ ({[typeURL]} ∪ sub_types sub) ∧ sub_sandboxWorkload sub = k).
Proof.
  pose proof (indexed_self _ _ _ _ _ k (inv_byWorkload _ Hs) Hsub) as Hself.
  unfold serves in Hself. rewrite elem_of_union, elem_of_singleton.
  do 2 case_bool_decide; simpl; rewrite ?elem_of_addID;
    (destruct (decide (id' = id)) as [->|]; [rewrite Hself|tauto]); subst; intuition congruence.
Qed.

(** The names and their index, when [touched] or not *)
Lemma watch_byName (touched : bool) (o : gset string * gmap string (gset N)) n :
  (touched = true → typeURL = SandboxType) →
  o = (if touched then (list_to_set names, foldl (λ m n, addID m n id)
         (foldl (λ m n, dropID m n id) (st_sandboxByName s)
            (elements (sub_sandboxNames sub ∖ list_to_set names)))
         (elements (list_to_set names ∖ sub_sandboxNames sub)))
       else (sub_sandboxNames sub, st_sandboxByName s)) →
  (∀ id', id' ∈ ids o.2 n ↔ (id' ≠ id ∧ id' ∈ ids (st_sandboxByName s) n) ∨ (id' = id ∧ n ∈ o.1))
  ∧ tight o.2 ∧ (n ∈ o.1 → SandboxType ∈ ({[typeURL]} ∪ sub_types sub)).
Proof.
  intros Htouched ->. pose proof (indexed_self _ _ _ _ _ n (inv_byName _ Hs) Hsub) as Hself.
  unfold demands in Hself. pose proof (inv_tight _ Hs) as (_ & _ & Ht).
  destruct touched; simpl; split_and!.
  - intros id'. by apply elem_of_renamed.
  - apply tight_foldl; [intros; by apply tight_addID|].
    apply tight_foldl; [intros; by apply tight_dropID|done].
  - intros _. rewrite Htouched by done. by apply elem_of_union_l, elem_of_singleton.
  - intros id'. destruct (decide (id' = id)) as [->|]; tauto.
  - done.
  - intros Hn. apply elem_of_union_r. by eapply (inv_names _ Hs).
Qed.
End watch.

Lemma Watch_index s id typeURL names : index_inv s → index_inv (Watch s id typeURL names).
Proof.
  intros Hs. unfold Watch. destruct (st_subscribers s !! id) as [sub|] eqn:Hsub; [|done].
  pose proof (inv_tight _ Hs) as (Ht1 & Ht2 & _).
  set (touched := bool_decide (typeURL = SandboxType) && _ && _).
  assert (touched = true → typeURL = SandboxType) as Htouched.
  { unfold touched. rewrite !andb_true_iff, !bool_decide_eq_true. tauto. }
  pose proof (λ o n, watch_byName s id sub typeURL names Hs Hsub touched o n Htouched) as Hnm.
  destruct (if touched then _ else _) as [sandboxNames byName] eqn:Ho.
  specialize (λ n, Hnm _ n eq_refl). simpl in Hnm. split; simpl.
  - apply (indexed_insert _ _ (st_byType s)); [apply Hs|]. by apply watch_byType.
  - apply (indexed_insert _ _ (st_sandboxByWorkload s)); [apply Hs|]. by apply watch_byWorkload.
  - apply (indexed_insert _ _ (st_sandboxByName s)); [apply Hs|]. intros n. apply (Hnm n).
  - intros id' sub' n [[_ <-]|[_ Hsub']]%lookup_insert_Some Hn.
    + by apply (Hnm n).
    + by eapply (inv_names _ Hs).
  - intros id' [sub' [[<- _]|[_ Hsub']]%lookup_insert_Some]; eapply (inv_fresh _ Hs); eauto.
  - split_and!.
    + destruct (bool_decide (typeURL ∈ sub_types sub)); [done|by apply tight_addID].
    + destruct (bool_decide (typeURL ∈ sub_types sub) || _); [done|by apply tight_addID].
    + apply (Hnm "").
Qed.

(** ** Changes of mailboxes only *)

Definition same_interests (a b : subscriber) : Prop :=
  sub_types a = sub_types b ∧ sub_sandboxWorkload a = sub_sandboxWorkload b
  ∧ sub_sandboxNames a = sub_sandboxNames b.

(** The subscribers keep their identifiers and interests. *)
Definition same_subscribers (subs subs' : gmap N subscriber) : Prop :=
  ∀ id, match subs !! id, subs' !! id with
        | Some a, Some b => same_interests a b
        | None, None => True
        | _, _ => False
        end.

#[export] Instance same_interests_equivalence : Equivalence same_interests.
Proof.
  unfold same_interests. split; [done|intros a b; naive_solver|].
  intros a b c (-> & -> & ->) (-> & -> & ->). done.
Qed.

#[export] Instance same_subscribers_equivalence : Equivalence same_subscribers.
Proof.
  split.
  - intros subs id. by destruct (subs !! id).
  - intros a b Hab id. specialize (Hab id). destruct (a !! id), (b !! id); try done.
  - intros a b c Hab Hbc id. specialize (Hab id). specialize (Hbc id).
    destruct (a !! id), (b !! id), (c !! id); try done. by etrans.
Qed.

Lemma same_subscribers_insert subs id sub sub' :
  subs !! id = Some sub → same_interests sub sub' → same_subscribers subs (<[id := sub']> subs).
Proof.
  intros Hsub Hsame id'. destruct (decide (id' = id)) as [->|Hne].
  - by rewrite Hsub, lookup_insert_eq.
  - rewrite lookup_insert_ne by done. by destruct (subs !! id').
Qed.

Lemma indexed_same subs subs' f index :
  (∀ a b k, same_interests a b → f a k ↔ f b k) →
  same_subscribers subs subs' → indexed subs f index → indexed subs' f index.
Proof.
  intros Hf Hsame Hi k id. rewrite (Hi k id). specialize (Hsame id).
  destruct (subs !! id) as [a|], (subs' !! id) as [b|]; try done.
  split; intros (? & [= <-] & Hk); eexists; (split; [done|]); by eapply Hf.
Qed.

Lemma index_inv_same s s' :
  same_subscribers (st_subscribers s) (st_subscribers s') →
  st_byType s' = st_byType s → st_sandboxByWorkload s' = st_sandboxByWorkload s →
  st_sandboxByName s' = st_sandboxByName s → st_nextID s' = st_nextID s →
  index_inv s → index_inv s'.
Proof.
  intros Hsame H1 H2 H3 H4 Hs. split; rewrite ?H1, ?H2, ?H3, ?H4.
  - eapply indexed_same; [|done|apply Hs]. unfold watches. by intros a b k (-> & _).
  - eapply indexed_same; [|done|apply Hs]. unfold serves. by intros a b k (-> & -> & _).
  - eapply indexed_same; [|done|apply Hs]. unfold demands. by intros a b k (_ & _ & ->).
  - intros id sub n Hsub Hn. specialize (Hsame id). rewrite Hsub in Hsame.
    destruct (st_subscribers s !! id) as [a|] eqn:Ha; [|done].
    destruct Hsame as (Ht & _ & Hnm). unfold demands, watches in *. rewrite <-Ht. rewrite <-Hnm in Hn.
    by eapply (inv_names _ Hs).
  - intros id [sub Hsub]. specialize (Hsame id). rewrite Hsub in Hsame.
    destruct (st_subscribers s !! id) as [a|] eqn:Ha; [|done]. apply (inv_fresh _ Hs). eauto.
  - apply Hs.
Qed.

(** ** The subscribers a notice concerns *)

(** An identity concerns the attester's own streams, or all when it has no Sandbox facts. *)
Definition identity_concerns (i : Identity) (sub : subscriber) : Prop :=
  match rf_Sandbox (id_Facts i) with
  | None => True
  | Some f => AttesterWorkloadUID f ≠ "" ∧ AttesterWorkloadUID f = sub_sandboxWorkload sub
  end.

Definition sandbox_concerns (candidates : list Candidate) (sub : subscriber) : Prop :=
  sub_sandboxWorkload sub = ""
  ∨ (∃ c, c ∈ candidates ∧ Name (ca_Key c) ∈ sub_sandboxNames sub)
  ∨ (∃ c i, c ∈ candidates ∧ i ∈ ca_Identities c ∧ identity_concerns i sub).

Definition concerns (u : Update) (sub : subscriber) : Prop :=
  (u_full u = true ∧ u_fullTypes u = ∅)
  ∨ ∃ t, t ∈ sub_types sub ∧ t ∈ u_fullTypes u ∪ u_affectedTypes u
      ∧ (t = SandboxType → FullFor u t = false → sandbox_concerns (Candidates u t) sub).

Lemma identitySubscribers_spec s identities :
  match identitySubscribers s identities with
  | None => ∃ i, i ∈ identities ∧ rf_Sandbox (id_Facts i) = None
  | Some result =>
      (∀ i, i ∈ identities → is_Some (rf_Sandbox (id_Facts i)))
      ∧ ∀ id, id ∈ result ↔
          ∃ i f, i ∈ identities ∧ rf_Sandbox (id_Facts i) = Some f ∧ AttesterWorkloadUID f ≠ ""
                 ∧ id ∈ ids (st_sandboxByWorkload s) (AttesterWorkloadUID f)
  end.
Proof.
  induction identities as [|i identities IH]; simpl.
  { split; [intros i Hi; by apply elem_of_nil in Hi|]. intros id.
    split; [by intros ?%not_elem_of_empty|]. intros (i & _ & Hi & _). by apply elem_of_nil in Hi. }
  destruct (rf_Sandbox (id_Facts i)) as [f|] eqn:Hf; [|exists i; split; [left|done]].
  destruct (identitySubscribers s identities) as [rest|].
  - destruct IH as [Hall Hrest]. split.
    { intros i' [->|Hi]%elem_of_cons; [rewrite Hf; eauto|auto]. }
    intros id. rewrite elem_of_union, Hrest. setoid_rewrite elem_of_cons. split.
    + intros [Hin|(i' & f' & ?)]; [|naive_solver]. case_decide; [by apply not_elem_of_empty in Hin|].
      exists i, f. auto.
    + intros (i' & f' & [->|Hi'] & Hf' & Hne & Hin); [left|right; eauto 6].
      rewrite Hf in Hf'. injection Hf' as <-. by rewrite decide_False.
  - destruct IH as (i' & Hi' & Hn). exists i'. split; [by right|done].
Qed.

(** The streams attested by the identities of a candidate, or demanding its name *)
Definition candidate_reaches (s : Store) (c : Candidate) (id : N) : Prop :=
  id ∈ ids (st_sandboxByName s) (Name (ca_Key c))
  ∨ ∃ i f, i ∈ ca_Identities c ∧ rf_Sandbox (id_Facts i) = Some f ∧ AttesterWorkloadUID f ≠ ""
           ∧ id ∈ ids (st_sandboxByWorkload s) (AttesterWorkloadUID f).

Lemma sandboxSubscribers_loop_spec s candidates acc :
  ((∃ c i, c ∈ candidates ∧ i ∈ ca_Identities c ∧ rf_Sandbox (id_Facts i) = None)
   ∧ sandboxSubscribers_loop s candidates acc = ids (st_byType s) SandboxType)
  ∨ ((∀ c i, c ∈ candidates → i ∈ ca_Identities c → is_Some (rf_Sandbox (id_Facts i)))
     ∧ ∀ id, id ∈ sandboxSubscribers_loop s candidates acc ↔
         id ∈ acc ∨ ∃ c, c ∈ candidates ∧ candidate_reaches s c id).
Proof.
  revert acc. induction candidates as [|c candidates IH]; intros acc; simpl.
  { right. split; [intros c i Hc; by apply elem_of_nil in Hc|]. intros id.
    split; [by left|]. intros [?|(c & Hc & _)]; [done|by apply elem_of_nil in Hc]. }
  pose proof (identitySubscribers_spec s (ca_Identities c)) as Hspec.
  destruct (identitySubscribers s (ca_Identities c)) as [more|].
  - destruct Hspec as [Hall Hmore].
    destruct (IH (more ∪ (ids (st_sandboxByName s) (Name (ca_Key c)) ∪ acc))) as [[Hex E]|[Hall' Hin]].
    + left. split; [|done]. destruct Hex as (c' & i & ? & ?). exists c', i. split; [by right|done].
    + right. split.
      { intros c' i [->|Hc']%elem_of_cons; [by apply Hall|by apply Hall']. }
      intros id. rewrite Hin, !elem_of_union, Hmore. setoid_rewrite elem_of_cons.
      unfold candidate_reaches. naive_solver.
  - left. split; [|done]. destruct Hspec as (i & Hi & Hn). exists c, i. split; [left|done].
Qed.

Lemma sandboxSubscribersLocked_spec s candidates id :
  index_inv s →
  id ∈ sandboxSubscribersLocked s candidates ↔
  ∃ sub, st_subscribers s !! id = Some sub ∧ SandboxType ∈ sub_types sub
         ∧ sandbox_concerns candidates sub.
Proof.
  intros Hs. unfold sandboxSubscribersLocked.
  destruct (sandboxSubscribers_loop_spec s candidates (ids (st_sandboxByWorkload s) ""))
    as [[Hex ->]|[Hall ->]].
  - rewrite (inv_byType _ Hs SandboxType id). unfold watches. split; [|naive_solver].
    intros (sub & Hsub & Ht). exists sub. split_and!; [done..|].
    right. right. destruct Hex as (c & i & Hc & Hi & Hn). exists c, i. split_and!; [done..|].
    unfold identity_concerns. by rewrite Hn.
  - rewrite (inv_byWorkload _ Hs "" id). unfold candidate_reaches, serves. split.
    + intros [(sub & ? & ? & ?)|(c & Hc & [(sub & Hsub & Hn)%(inv_byName _ Hs)|(i & f & Hi & Hf & Hne & Hin)])].
      * exists sub. split_and!; [done..|]. by left.
      * exists sub. split_and!; [done|by eapply (inv_names _ Hs)|]. right. left. eauto.
      * apply (inv_byWorkload _ Hs) in Hin as (sub & Hsub & Ht & E). exists sub. split_and!; [done..|].
        right. right. exists c, i. split_and!; [done..|]. unfold identity_concerns. by rewrite Hf.
    + intros (sub & Hsub & Ht & [Hw|[(c & Hc & Hn)|(c & i & Hc & Hi & Hcon)]]).
      * left. eauto.
      * right. exists c. split; [done|]. left. apply (inv_byName _ Hs). eauto.
      * right. exists c. split; [done|]. right. destruct (Hall c i Hc Hi) as [f Hf].
        unfold identity_concerns in Hcon. rewrite Hf in Hcon. destruct Hcon as [Hne E].
        exists i, f. split_and!; [done..|]. apply (inv_byWorkload _ Hs). exists sub. done.
Qed.

Lemma elem_of_foldl_union {A} (f : A → gset N) l (acc : gset N) id :
  id ∈ foldl (λ acc x, f x ∪ acc) acc l ↔ id ∈ acc ∨ ∃ x, x ∈ l ∧ id ∈ f x.
Proof.
  revert acc. induction l as [|x l IH]; intros acc; cbn [foldl].
  - split; [by left|]. intros [?|(x & Hx & _)]; [done|by apply elem_of_nil in Hx].
  - rewrite IH, elem_of_union. setoid_rewrite elem_of_cons. naive_solver.
Qed.

(** Exactly the subscribers a notice concerns are affected. *)
Lemma affectedSubscribersLocked_spec s u id :
  index_inv s →
  id ∈ affectedSubscribersLocked s u ↔ ∃ sub, st_subscribers s !! id = Some sub ∧ concerns u sub.
Proof.
  intros Hs. unfold affectedSubscribersLocked, concerns.
  destruct (u_full u && bool_decide (size (u_fullTypes u) = 0)) eqn:Hfull.
  { apply andb_true_iff in Hfull as [Hf Hz%bool_decide_eq_true]. apply size_empty_iff, leibniz_equiv in Hz.
    rewrite elem_of_dom. split; [intros [sub Hsub]; exists sub; auto|naive_solver]. }
  assert (¬ (u_full u = true ∧ u_fullTypes u = ∅)) as Hnot.
  { intros [Hf Hz]. rewrite Hf, Hz, size_empty in Hfull. done. }
  rewrite elem_of_foldl_union. setoid_rewrite elem_of_elements. split.
  - intros [Hin|(t & Ht & Hin)]; [by apply not_elem_of_empty in Hin|].
    destruct (bool_decide (t = SandboxType) && negb (FullFor u t)) eqn:Hsand.
    + apply andb_true_iff in Hsand as [->%bool_decide_eq_true _].
      apply sandboxSubscribersLocked_spec in Hin as (sub & Hsub & Hty & Hc); [|done].
      exists sub. split; [done|]. right. exists SandboxType. done.
    + apply (inv_byType _ Hs) in Hin as (sub & Hsub & Hty). exists sub. split; [done|]. right.
      exists t. split_and!; [done..|]. intros -> Hf. by rewrite Hf, bool_decide_eq_true_2 in Hsand.
  - intros (sub & Hsub & [?|(t & Hty & Ht & Hc)]); [done|]. right. exists t. split; [done|].
    destruct (bool_decide (t = SandboxType) && negb (FullFor u t)) eqn:Hsand.
    + apply andb_true_iff in Hsand as [->%bool_decide_eq_true Hf%negb_true_iff].
      apply sandboxSubscribersLocked_spec; [done|]. exists sub. split_and!; [done..|]. by apply Hc.
    + apply (inv_byType _ Hs). exists sub. done.
Qed.
