(* ===== verification/Executions.v ===== *)
(** * Executions: the store over time (src/pkg/xds/store)

    The operations of the store as labelled steps, the invariant every reachable store
    satisfies, and the delivery guarantee: a notice that concerned a subscriber has been
    received by it, or is covered by the one in its mailbox. *)

From S2P Require Import Prelude Identity Resource ResourceIndex ResourceSet SetInvariant SetQueries SetDiff Update Notices Dependencies Store Cascade Publish Commit Subscribers.

(** * Mailboxes: delivery of notices (store.go, notifyLocked)

    A publication reaches every subscriber it concerns exactly once: its mailbox then
    holds the notice, merged with the one it had not yet read. The cache of merged
    notices, keyed by mailbox identifiers, never hands a subscriber another one's merge.
    Along every execution no notice is lost. *)

(** ** One publication *)

(** Two unread notices with the same mailbox identifier are the same notice. *)
Definition mail_ok (subs : gmap N subscriber) (next : N) : Prop :=
  (∀ id sub, subs !! id = Some sub → (sub_mailboxID sub ≤ next)%N)
  ∧ ∀ id1 id2 sub1 sub2 p1 p2,
      subs !! id1 = Some sub1 → subs !! id2 = Some sub2 →
      sub_mailbox sub1 = Some p1 → sub_mailbox sub2 = Some p2 →
      sub_mailboxID sub1 = sub_mailboxID sub2 → p1 = p2.

(** What the mailbox of a subscriber holds after a publication that concerns it *)
Definition delivered (u : Update) (drained : gset N) (id : N) (sub : subscriber) : Update :=
  match sub_mailbox sub with
  | Some p => if decide (id ∈ drained) then u else Merge p u
  | None => u
  end.

Section notify.
Context (subs : gmap N subscriber) (next : N) (u : Update) (drained : gset N).
Context (Hmail : mail_ok subs next).
Local Abbreviation publicationID := (next + 1)%N.

(** The loop after the subscribers [l] have been served *)
Record served (l : list N) (st : notifyState) : Prop := mkServed {
  served_none id : subs !! id = None → no_subscribers st !! id = None;
  served_rest id : id ∉ l → no_subscribers st !! id = subs !! id;
  served_done id sub : id ∈ l → subs !! id = Some sub →
    ∃ mid, no_subscribers st !! id = Some (setMailbox sub (delivered u drained id sub) mid)
      ∧ ((mid = publicationID ∧ delivered u drained id sub = u)
         ∨ no_merged st !! sub_mailboxID sub = Some (delivered u drained id sub, mid));
  served_merged m x xid : no_merged st !! m = Some (x, xid) →
    (publicationID < xid ≤ no_nextMailboxID st)%N
    ∧ ∃ id sub p, subs !! id = Some sub ∧ sub_mailbox sub = Some p ∧ sub_mailboxID sub = m
                  ∧ x = Merge p u;
  served_injective m m' x x' xid :
    no_merged st !! m = Some (x, xid) → no_merged st !! m' = Some (x', xid) → m = m';
  served_next : (publicationID ≤ no_nextMailboxID st)%N
}.

Lemma served_nil : served [] (mkNotify subs ∅ publicationID).
Proof.
  split; simpl; [done|done| | | |lia].
  - intros id sub Hin. by apply elem_of_nil in Hin.
  - intros m x xid Hm. by rewrite lookup_empty in Hm.
  - intros m m' x x' xid Hm. by rewrite lookup_empty in Hm.
Qed.

(** Serving one more subscriber, with a cache that extends the previous one *)
Lemma served_step l st id sub mid (merged : mergedNotices) nextID :
  served l st → id ∉ l → subs !! id = Some sub →
  (∀ m v, no_merged st !! m = Some v → merged !! m = Some v) →
  (∀ m x xid, merged !! m = Some (x, xid) →
     (publicationID < xid ≤ nextID)%N
     ∧ ∃ id sub p, subs !! id = Some sub ∧ sub_mailbox sub = Some p ∧ sub_mailboxID sub = m
                   ∧ x = Merge p u) →
  (∀ m m' x x' xid, merged !! m = Some (x, xid) → merged !! m' = Some (x', xid) → m = m') →
  (publicationID ≤ nextID)%N →
  ((mid = publicationID ∧ delivered u drained id sub = u)
   ∨ merged !! sub_mailboxID sub = Some (delivered u drained id sub, mid)) →
  served (l ++ [id])
    (mkNotify (<[id := setMailbox sub (delivered u drained id sub) mid]> (no_subscribers st)) merged nextID).
Proof.
  intros Hst Hid Hsub Hext Hmerged Hinj Hnext Hmid. split; simpl; [| | |done..].
  - intros id' Hn. rewrite lookup_insert_ne by congruence. by apply Hst.
  - intros id'. rewrite elem_of_app, list_elem_of_singleton. intros Hnot.
    rewrite lookup_insert_ne by (intros ->; tauto). apply Hst. tauto.
  - intros id' sub'. rewrite elem_of_app, list_elem_of_singleton. intros [Hin| ->] Hsub'.
    + rewrite lookup_insert_ne by congruence.
      destruct (served_done _ _ Hst id' sub' Hin Hsub') as (mid' & Hl & [?|Hm]); exists mid'; auto.
    + rewrite lookup_insert_eq. assert (sub' = sub) as -> by congruence. eauto.
Qed.

Lemma notifyOne_served l st id :
  served l st → id ∉ l → served (l ++ [id]) (notifyOne u publicationID drained st id).
Proof.
  intros Hst Hid. unfold notifyOne. rewrite (served_rest _ _ Hst id Hid).
  destruct (subs !! id) as [sub|] eqn:Hsub.
  2:{ destruct Hst. split; [done| | |done..].
      - intros id'. rewrite elem_of_app. intros Hn. apply served_rest0. tauto.
      - intros id' sub'. rewrite elem_of_app, list_elem_of_singleton. intros [?| ->]; [auto|congruence]. }
  assert (∀ mid, (mid = publicationID ∧ delivered u drained id sub = u)
    ∨ no_merged st !! sub_mailboxID sub = Some (delivered u drained id sub, mid) →
    served (l ++ [id]) (mkNotify (<[id := setMailbox sub (delivered u drained id sub) mid]> (no_subscribers st))
      (no_merged st) (no_nextMailboxID st))) as Hkeep.
  { intros mid Hmid. by apply served_step; [..|apply Hst|apply Hst|apply Hst|]. }
  unfold delivered in *. destruct (sub_mailbox sub) as [p|] eqn:Hp; [|by apply Hkeep; left].
  case_decide as Hdr; [by apply Hkeep; left|].
  destruct (no_merged st !! sub_mailboxID sub) as [[x xid]|] eqn:Hm.
  - destruct (served_merged _ _ Hst _ _ _ Hm) as [_ (id2 & sub2 & p2 & Hs2 & Hp2 & E & ->)].
    assert (p2 = p) as -> by by apply (proj2 Hmail id2 id sub2 sub).
    apply Hkeep. by right.
  - pose proof (served_next _ _ Hst) as Hnx.
    set (nid := (no_nextMailboxID st + 1)%N).
    assert (Merge p u = delivered u drained id sub) as Hd.
    { unfold delivered. by rewrite Hp, decide_False. }
    rewrite Hd. apply served_step; [done..| | | |unfold nid; lia|right; apply lookup_insert_eq].
    + intros m v Hv. rewrite lookup_insert_ne by congruence. done.
    + intros m x xid [[<- [= <- <-]]|[_ Hmx]]%lookup_insert_Some.
      * split; [unfold nid; lia|]. exists id, sub, p. by rewrite <-Hd.
      * destruct (served_merged _ _ Hst _ _ _ Hmx) as [? ?]. split; [unfold nid; lia|done].
    + intros m m' x x' xid [[<- [= <- <-]]|[_ H1]]%lookup_insert_Some
        [[<- E]|[_ H2]]%lookup_insert_Some; [done| | |by eapply (served_injective _ _ Hst)].
      * apply (served_merged _ _ Hst) in H2 as [? _]. unfold nid in *. lia.
      * injection E as _ <-. apply (served_merged _ _ Hst) in H1 as [? _]. unfold nid in *. lia.
Qed.

Lemma notify_served l :
  NoDup l → served l (foldl (notifyOne u publicationID drained) (mkNotify subs ∅ publicationID) l).
Proof.
  induction l as [|id l IH] using rev_ind; intros Hnd; [apply served_nil|].
  apply NoDup_app in Hnd as (Hnd & Hd & _). rewrite foldl_app. simpl.
  apply notifyOne_served; [auto|]. intros Hin. apply (Hd id Hin). left.
Qed.

(** Afterwards identifiers still tell notices apart. *)
Lemma served_mail l st : served l st → mail_ok (no_subscribers st) (no_nextMailboxID st).
Proof.
  intros Hst.
  assert (∀ id sub, no_subscribers st !! id = Some sub →
    ((id ∉ l) ∧ subs !! id = Some sub)
    ∨ (sub_mailboxID sub = publicationID ∧ sub_mailbox sub = Some u)
    ∨ ∃ m x, no_merged st !! m = Some (x, sub_mailboxID sub) ∧ sub_mailbox sub = Some x) as Hcases.
  { intros id sub Hsub. destruct (decide (id ∈ l)) as [Hin|Hin].
    - right. destruct (subs !! id) as [sub0|] eqn:Hs0.
      + destruct (served_done _ _ Hst id sub0 Hin Hs0) as (mid & Hl & Hmid).
        rewrite Hsub in Hl. injection Hl as ->. simpl. destruct Hmid as [[-> ->]|Hmid]; [by left|].
        right. eauto.
      + rewrite (served_none _ _ Hst) in Hsub; done.
    - left. by rewrite <-(served_rest _ _ Hst id Hin). }
  pose proof (served_next _ _ Hst) as Hnx. split.
  - intros id sub Hsub. destruct (Hcases id sub Hsub) as [[_ H0]|[[-> _]|(m & x & Hm & _)]].
    + apply (proj1 Hmail) in H0. lia.
    + lia.
    + apply (served_merged _ _ Hst) in Hm as [? _]. lia.
  - intros id1 id2 sub1 sub2 p1 p2 H1 H2 Hp1 Hp2 E.
    destruct (Hcases id1 sub1 H1) as [[_ H1']|[[E1 Hu1]|(m1 & x1 & Hm1 & Hx1)]],
             (Hcases id2 sub2 H2) as [[_ H2']|[[E2 Hu2]|(m2 & x2 & Hm2 & Hx2)]].
    + by apply (proj2 Hmail id1 id2 sub1 sub2).
    + apply (proj1 Hmail) in H1'. lia.
    + apply (proj1 Hmail) in H1'. apply (served_merged _ _ Hst) in Hm2 as [? _]. lia.
    + apply (proj1 Hmail) in H2'. lia.
    + congruence.
    + apply (served_merged _ _ Hst) in Hm2 as [? _]. lia.
    + apply (proj1 Hmail) in H2'. apply (served_merged _ _ Hst) in Hm1 as [? _]. lia.
    + apply (served_merged _ _ Hst) in Hm1 as [? _]. lia.
    + rewrite E in Hm1. pose proof (served_injective _ _ Hst _ _ _ _ _ Hm1 Hm2) as ->. congruence.
Qed.
End notify.

(** [notifyLocked] serves exactly the subscribers the notice concerns. *)
Lemma notifyLocked_spec s u drained :
  index_inv s → mail_ok (st_subscribers s) (st_nextMailboxID s) →
  let s' := notifyLocked s u drained in
  mail_ok (st_subscribers s') (st_nextMailboxID s')
  ∧ same_subscribers (st_subscribers s) (st_subscribers s')
  ∧ ∀ id sub, st_subscribers s !! id = Some sub →
      (concerns u sub → ∃ mid,
         st_subscribers s' !! id = Some (setMailbox sub (delivered u drained id sub) mid))
      ∧ (¬ concerns u sub → st_subscribers s' !! id = Some sub).
Proof.
  intros Hs Hmail s'.
  pose proof (notify_served _ _ u drained Hmail (elements (affectedSubscribersLocked s u))
    (NoDup_elements _)) as Hst.
  set (st := foldl _ _ _) in Hst.
  change (st_subscribers s') with (no_subscribers st).
  change (st_nextMailboxID s') with (no_nextMailboxID st).
  assert (∀ id, id ∈ elements (affectedSubscribersLocked s u) ↔
    ∃ sub, st_subscribers s !! id = Some sub ∧ concerns u sub) as Haff.
  { intros id. by rewrite elem_of_elements, affectedSubscribersLocked_spec. }
  split_and!.
  - by eapply served_mail.
  - intros id. destruct (st_subscribers s !! id) as [sub|] eqn:Hsub.
    + destruct (decide (id ∈ elements (affectedSubscribersLocked s u))) as [Hin|Hin].
      * destruct (served_done _ _ _ _ _ _ Hst id sub Hin Hsub) as (mid & -> & _). done.
      * by rewrite (served_rest _ _ _ _ _ _ Hst id Hin), Hsub.
    + by rewrite (served_none _ _ _ _ _ _ Hst id Hsub).
  - intros id sub Hsub. split.
    + intros Hc. destruct (served_done _ _ _ _ _ _ Hst id sub) as (mid & -> & _); [|done|eauto].
      apply Haff. eauto.
    + intros Hc. rewrite (served_rest _ _ _ _ _ _ Hst id); [done|].
      intros (sub' & Hs' & Hc')%Haff. congruence.
Qed.

(** ** The notices published are well formed *)

Lemma addCandidate_index_ok i r w : index_ok i → index_ok (addCandidate i r w).
Proof.
  intros Hi k c. unfold addCandidate. intros [[<- <-]|[_ Hc]]%lookup_insert_Some; [done|by apply Hi].
Qed.

Lemma keyCandidates_ok s keys : index_ok (keyCandidates s keys).
Proof.
  unfold keyCandidates. assert (index_ok ∅) as H0 by (intros k c; by rewrite lookup_empty).
  revert H0. generalize (∅ : candidateIndex). induction keys as [|k keys IH]; intros i Hi; simpl; [done|].
  apply IH. destruct (Get (st_current s) k); [by apply addCandidate_index_ok|].
  intros k' c. intros [[<- <-]|[_ Hc]]%lookup_insert_Some; [done|by apply Hi].
Qed.

Lemma full_update_ok v types : update_ok (mkUpdate v ∅ ∅ true types None).
Proof.
  split_and!; unfold candidates_of; simpl; [|done..].
  intros t. rewrite lookup_empty. split; [constructor|]. intros c Hc. by apply elem_of_nil in Hc.
Qed.

(** ** Steps *)

Inductive label :=
  | Quiet
  | Published (u : Update) (drained : gmap N Update)
  | Received (id : N) (u : Update).

Definition mailbox (s : Store) (id : N) : option Update :=
  st_subscribers s !! id ≫= sub_mailbox.

(** The readers that take their notice while the publication is under way *)
Definition racing (s : Store) (u : Update) (drained : gmap N Update) : Prop :=
  ∀ id v, drained !! id = Some v →
    ∃ sub, st_subscribers s !! id = Some sub ∧ sub_mailbox sub = Some v ∧ concerns u sub.

(** [s'] is the outcome of delivering [u] from the subscribers of [s]. *)
Definition notified (s : Store) (u : Update) (drained : gmap N Update) (s' : Store) : Prop :=
  update_ok u ∧ racing s u drained
  ∧ ∃ s1, s' = notifyLocked s1 u (dom drained)
      ∧ st_subscribers s1 = st_subscribers s ∧ st_byType s1 = st_byType s
      ∧ st_sandboxByWorkload s1 = st_sandboxByWorkload s ∧ st_sandboxByName s1 = st_sandboxByName s
      ∧ st_nextID s1 = st_nextID s ∧ st_nextMailboxID s1 = st_nextMailboxID s.

Inductive store_step `{Codec} (s : Store) : label → Store → Prop :=
  | step_apply_quiet changes drained s' pub err :
      batch_ok (st_current s) changes →
      StoreApply s changes drained = Some (s', pub, err) → pub_Changed pub = false →
      store_step s Quiet s'
  | step_apply changes u drained s' pub err :
      batch_ok (st_current s) changes →
      StoreApply s changes (dom drained) = Some (s', pub, err) → pub_Changed pub = true →
      notified s u drained s' →
      store_step s (Published u drained) s'
  | step_replace_quiet snapshot drained s' pub :
      set_ok snapshot → all_hashed snapshot → plain snapshot →
      (∀ k, hash_of (st_current s) k = hash_of snapshot k →
         same_references (Get (st_current s) k) (Get snapshot k)) →
      Replace s snapshot drained = Some (Ok (s', pub)) → pub_Changed pub = false →
      store_step s Quiet s'
  | step_replace snapshot u drained s' pub :
      set_ok snapshot → all_hashed snapshot → plain snapshot →
      (∀ k, hash_of (st_current s) k = hash_of snapshot k →
         same_references (Get (st_current s) k) (Get snapshot k)) →
      Replace s snapshot (dom drained) = Some (Ok (s', pub)) → pub_Changed pub = true →
      notified s u drained s' →
      store_step s (Published u drained) s'
  | step_notify u drained :
      u = mkUpdate (rs_version (st_current s)) ∅ ∅ true ∅ None → racing s u drained →
      store_step s (Published u drained) (Notify s (dom drained))
  | step_notify_type typeURL u drained :
      u = mkUpdate (rs_version (st_current s)) ∅ ∅ true {[typeURL]} None → racing s u drained →
      store_step s (Published u drained) (NotifyType s typeURL (dom drained))
  | step_notify_keys keys u drained :
      keys ≠ [] → u = indexedUpdate (rs_version (st_current s)) (keyCandidates s keys) →
      racing s u drained →
      store_step s (Published u drained) (NotifyKeys s keys (dom drained))
  | step_subscribe scope : store_step s Quiet (Subscribe s scope).1
  | step_watch id typeURL names : store_step s Quiet (Watch s id typeURL names)
  | step_cancel id : store_step s Quiet (cancelSubscription s id)
  | step_receive id u s' : receive s id = Some (u, s') → store_step s (Received id u) s'.

(** A sequence of steps, the latest label last *)
Inductive steps `{Codec} (s : Store) : list label → Store → Prop :=
  | steps_nil : steps s [] s
  | steps_snoc ls l s1 s2 : steps s ls s1 → store_step s1 l s2 → steps s (ls ++ [l]) s2.

(** ** The invariant *)

Definition notices_ok (s : Store) : Prop :=
  ∀ id sub u, st_subscribers s !! id = Some sub → sub_mailbox sub = Some u → update_ok u.

Record reachable_inv (s : Store) : Prop := mkReachable {
  reach_store : store_ok s;
  reach_index : index_inv s;
  reach_mail : mail_ok (st_subscribers s) (st_nextMailboxID s);
  reach_notices : notices_ok s
}.

Lemma concerned_or_not s id sub u :
  index_inv s → st_subscribers s !! id = Some sub → concerns u sub ∨ ¬ concerns u sub.
Proof.
  intros Hs Hsub. destruct (decide (id ∈ affectedSubscribersLocked s u)) as [Hin|Hin];
    rewrite affectedSubscribersLocked_spec in Hin by done; [left|right]; naive_solver.
Qed.

Lemma delivered_ok u drained id sub :
  update_ok u → (∀ p, sub_mailbox sub = Some p → update_ok p) → update_ok (delivered u drained id sub).
Proof.
  intros Hu Hp. unfold delivered. destruct (sub_mailbox sub) as [p|]; [|done].
  case_decide; [done|]. apply Merge_ok; auto.
Qed.

(** A delivered notice covers the publication, and what had not been read. *)
Lemma delivered_covers u drained id sub :
  update_ok u → (∀ p, sub_mailbox sub = Some p → update_ok p) →
  covers (delivered u drained id sub) u
  ∧ ∀ p, sub_mailbox sub = Some p → id ∉ drained → covers (delivered u drained id sub) p.
Proof.
  intros Hu Hp. unfold delivered. destruct (sub_mailbox sub) as [p|]; [|by split].
  destruct (Merge_covers p u) as [Ho Hn]; [by apply Hp|done|].
  case_decide; [by split|]. split; [done|]. by intros ? [= <-].
Qed.

(** What a delivery does to the mailboxes *)
Lemma notified_spec s u drained s' :
  index_inv s → mail_ok (st_subscribers s) (st_nextMailboxID s) → notices_ok s →
  notified s u drained s' →
  index_inv s' ∧ mail_ok (st_subscribers s') (st_nextMailboxID s') ∧ notices_ok s'
  ∧ (∀ id sub, st_subscribers s !! id = Some sub →
      (concerns u sub → mailbox s' id = Some (delivered u (dom drained) id sub))
      ∧ (¬ concerns u sub → mailbox s' id = sub_mailbox sub)).
Proof.
  intros Hi Hm Hn (Hu & _ & s1 & -> & E1 & E2 & E3 & E4 & E5 & E6).
  assert (index_inv s1) as Hi1.
  { apply (index_inv_same s); [by rewrite E1|done..]. }
  rewrite <-E1, <-E6 in Hm.
  destruct (notifyLocked_spec s1 u (dom drained) Hi1 Hm) as (Hm' & Hsame & Hdel).
  split_and!; [|done| |].
  - apply (index_inv_same s1); [done..|]. done.
  - intros id sub v Hsub Hv. specialize (Hsame id). rewrite Hsub in Hsame.
    destruct (st_subscribers s1 !! id) as [sub0|] eqn:H0; [|done].
    destruct (Hdel id sub0 H0) as [Hyes Hno].
    destruct (concerned_or_not s1 id sub0 u Hi1 H0) as [Hc|Hc].
    + destruct (Hyes Hc) as [mid E]. rewrite Hsub in E. injection E as ->. simpl in Hv.
      injection Hv as <-. rewrite E1 in H0. apply delivered_ok; [done|]. intros p Hp. by apply (Hn id sub0).
    + rewrite (Hno Hc) in Hsub. injection Hsub as <-. rewrite E1 in H0. by apply (Hn id sub0).
  - intros id sub Hsub. rewrite <-E1 in Hsub. destruct (Hdel id sub Hsub) as [Hyes Hno].
    unfold mailbox. split.
    + intros Hc. destruct (Hyes Hc) as [mid ->]. done.
    + intros Hc. by rewrite (Hno Hc).
Qed.

(** ** Every step keeps the invariant *)

Lemma reachable_pending s P :
  store_ok (setPending s P) → reachable_inv s → reachable_inv (setPending s P).
Proof.
  intros Hok Hs. split; [done|apply (index_inv_same s); [done..|apply Hs]|apply Hs|apply Hs].
Qed.

Lemma reachable_notified s u drained s' :
  store_ok s' → notified s u drained s' → reachable_inv s → reachable_inv s'.
Proof.
  intros Hok Hn [_ Hi Hm Hno]. destruct (notified_spec s u drained s' Hi Hm Hno Hn) as (? & ? & ? & _).
  done.
Qed.

Lemma notified_direct s u drained :
  update_ok u → racing s u drained → notified s u drained (notifyLocked s u (dom drained)).
Proof. intros Hu Hr. split_and!; [done..|]. exists s. done. Qed.

(** A change of the mailboxes and interests of existing subscribers *)
Lemma mail_ok_update subs next id sub sub' :
  mail_ok subs next → subs !! id = Some sub →
  sub_mailboxID sub' = sub_mailboxID sub →
  (sub_mailbox sub' = None ∨ sub_mailbox sub' = sub_mailbox sub) →
  mail_ok (<[id := sub']> subs) next.
Proof.
  intros [Hle Heq] Hsub Hid Hbox.
  assert (∀ id1 sub1, <[id := sub']> subs !! id1 = Some sub1 →
    ∃ sub0, subs !! id1 = Some sub0 ∧ sub_mailboxID sub1 = sub_mailboxID sub0
      ∧ ∀ p, sub_mailbox sub1 = Some p → sub_mailbox sub0 = Some p) as Hback.
  { intros id1 sub1 [[<- <-]|[_ Hs]]%lookup_insert_Some; [|eauto].
    exists sub. split_and!; [done..|]. intros p Hp. destruct Hbox; congruence. }
  split.
  - intros id1 sub1 (sub0 & H0 & -> & _)%Hback. by eapply Hle.
  - intros id1 id2 sub1 sub2 p1 p2 (a & Ha & Ea & Hpa)%Hback (b & Hb & Eb & Hpb)%Hback Hp1 Hp2 E.
    apply (Heq id1 id2 a b); [done|done|auto|auto|congruence].
Qed.

Lemma notices_ok_update s s' id sub sub' :
  notices_ok s → st_subscribers s !! id = Some sub →
  st_subscribers s' = <[id := sub']> (st_subscribers s) →
  (sub_mailbox sub' = None ∨ sub_mailbox sub' = sub_mailbox sub) → notices_ok s'.
Proof.
  intros Hn Hsub E Hbox id1 sub1 u. rewrite E.
  intros [[<- <-]|[_ Hs]]%lookup_insert_Some Hu; [|by eapply Hn].
  eapply Hn; [done|]. destruct Hbox; congruence.
Qed.

Lemma reachable_subscribe s scope : reachable_inv s → reachable_inv (Subscribe s scope).1.
Proof.
  intros [Hok Hi [Hle Heq] Hn]. split.
  - by apply (store_ok_fields s).
  - by apply Subscribe_index.
  - simpl. split.
    + intros id sub [[_ <-]|[_ Hs]]%lookup_insert_Some; [simpl; lia|by eapply Hle].
    + intros id1 id2 sub1 sub2 p1 p2 [[_ <-]|[_ H1]]%lookup_insert_Some
        [[_ <-]|[_ H2]]%lookup_insert_Some; try done. by apply (Heq id1 id2 sub1 sub2).
  - intros id sub u. simpl. intros [[_ <-]|[_ Hs]]%lookup_insert_Some; [done|by eapply Hn].
Qed.

Lemma reachable_watch s id typeURL names : reachable_inv s → reachable_inv (Watch s id typeURL names).
Proof.
  intros [Hok Hi Hm Hn]. pose proof (Watch_index s id typeURL names Hi) as Hi'. revert Hi'.
  unfold Watch. destruct (st_subscribers s !! id) as [sub|] eqn:Hsub; [|done].
  destruct (if _ : bool then _ else _) as [sandboxNames byName]. intros Hi'. split; [|done| |].
  - by apply (store_ok_fields s).
  - simpl. by eapply mail_ok_update; [..|right].
  - by eapply notices_ok_update; [..|right].
Qed.

Lemma reachable_cancel s id : reachable_inv s → reachable_inv (cancelSubscription s id).
Proof.
  intros [Hok Hi Hm Hn]. pose proof (cancelSubscription_index s id Hi) as Hi'. revert Hi'.
  unfold cancelSubscription. destruct (match st_subscribers s !! id with Some _ => _ | None => _ end)
    as [[byType byWorkload] byName]. intros Hi'. split; [|done| |].
  - by apply (store_ok_fields s).
  - simpl. destruct Hm as [Hle Heq]. split.
    + intros id1 sub1 [_ Hs]%lookup_delete_Some. by eapply Hle.
    + intros id1 id2 sub1 sub2 p1 p2 [_ H1]%lookup_delete_Some [_ H2]%lookup_delete_Some.
      by apply (Heq id1 id2).
  - intros id1 sub1 u. simpl. intros [_ Hs]%lookup_delete_Some. by eapply Hn.
Qed.

Lemma reachable_receive s id u s' : receive s id = Some (u, s') → reachable_inv s → reachable_inv s'.
Proof.
  unfold receive. intros Hr [Hok Hi Hm Hn].
  destruct (st_subscribers s !! id) as [sub|] eqn:Hsub; [|done].
  destruct (sub_mailbox sub) as [v|] eqn:Hv; [|done]. injection Hr as <- <-. split.
  - by apply (store_ok_fields s).
  - apply (index_inv_same s); simpl; [|done..]. by eapply same_subscribers_insert.
  - simpl. by eapply mail_ok_update; [..|left].
  - by eapply notices_ok_update; [..|left].
Qed.

Lemma store_step_inv `{Codec} s l s' : store_step s l s' → reachable_inv s → reachable_inv s'.
Proof.
  intros Hstep Hs. destruct Hstep as
    [changes drained s' pub err Hb Ha Hq|changes u drained s' pub err Hb Ha Hp Hn
    |snapshot drained s' pub H1 H2 H3 H4 Ha Hq|snapshot u drained s' pub H1 H2 H3 H4 Ha Hp Hn
    |u drained Hu Hr|typeURL u drained Hu Hr|keys u drained Hk Hu Hr|scope|id typeURL names|id|id u s' Hr].
  - destruct (StoreApply_spec s changes drained (reach_store _ Hs) Hb) as (? & ? & ? & E & Hres).
    rewrite Ha in E. injection E as <- <- <-. destruct err as [e|]; [by destruct Hres as (_ & -> & _)|].
    rewrite (applied_quiet _ _ _ _ _ Hres Hq). apply reachable_pending; [|done].
    rewrite <-(applied_quiet _ _ _ _ _ Hres Hq). apply Hres.
  - destruct (StoreApply_spec s changes (dom drained) (reach_store _ Hs) Hb) as (? & ? & ? & E & Hres).
    rewrite Ha in E. injection E as <- <- <-. destruct err as [e|].
    { by destruct Hres as (_ & _ & ->). }
    eapply reachable_notified; [apply Hres|done..].
  - destruct (Replace_spec s snapshot drained (reach_store _ Hs) H1 H2 H3 H4) as (? & ? & E & Hres).
    rewrite Ha in E. injection E as <- <-.
    rewrite (replaced_quiet _ _ _ _ _ Hres Hq). apply reachable_pending; [|done].
    rewrite <-(replaced_quiet _ _ _ _ _ Hres Hq). apply Hres.
  - destruct (Replace_spec s snapshot (dom drained) (reach_store _ Hs) H1 H2 H3 H4) as (? & ? & E & Hres).
    rewrite Ha in E. injection E as <- <-. eapply reachable_notified; [apply Hres|done..].
  - subst u. eapply reachable_notified; [| |done].
    + by apply (store_ok_fields s); [..|apply Hs].
    + apply notified_direct; [apply full_update_ok|done].
  - subst u. eapply reachable_notified; [| |done].
    + by apply (store_ok_fields s); [..|apply Hs].
    + apply notified_direct; [apply full_update_ok|done].
  - subst u. unfold NotifyKeys. rewrite decide_False by (intros E%nil_length_inv; done).
    eapply reachable_notified; [| |done].
    + by apply (store_ok_fields s); [..|apply Hs].
    + apply notified_direct; [apply indexedUpdate_ok, keyCandidates_ok|done].
  - by apply reachable_subscribe.
  - by apply reachable_watch.
  - by apply reachable_cancel.
  - by eapply reachable_receive.
Qed.

(** A snapshot a store may start from *)
Definition initial_ok (initial : ResourceSet) : Prop :=
  set_ok initial ∧ all_hashed initial ∧ plain initial.

Lemma NewStore_inv initial : initial_ok initial → reachable_inv (NewStore initial).
Proof.
  intros (Hs & Hh & Hp). split; [|apply NewStore_index| |].
  - split; [done..|]. intros k Hk. by apply not_elem_of_empty in Hk.
  - split; simpl; intros id ?; by rewrite lookup_empty.
  - intros id sub u. simpl. by rewrite lookup_empty.
Qed.

Lemma steps_inv `{Codec} s ls s' : steps s ls s' → reachable_inv s → reachable_inv s'.
Proof. induction 1; eauto using store_step_inv. Qed.

(** ** Delivery *)

(** The notices a step hands to a subscriber's reader *)
Definition receives (l : label) (id : N) (v : Update) : Prop :=
  match l with
  | Quiet => False
  | Published _ drained => drained !! id = Some v
  | Received id' u => id' = id ∧ u = v
  end.

Lemma step_published `{Codec} s u drained s' :
  store_step s (Published u drained) s' → notified s u drained s'.
Proof.
  intros Hstep. inversion Hstep; subst; try done.
  - apply notified_direct; [apply full_update_ok|done].
  - apply notified_direct; [apply full_update_ok|done].
  - unfold NotifyKeys. rewrite decide_False by (intros E%nil_length_inv; done).
    apply notified_direct; [apply indexedUpdate_ok, keyCandidates_ok|done].
Qed.

(** A quiet step keeps the mailbox of a subscriber that stays, and identifiers are fresh. *)
Lemma step_quiet `{Codec} s s' id :
  store_step s Quiet s' → reachable_inv s →
  (st_nextID s ≤ st_nextID s')%N
  ∧ (is_Some (st_subscribers s' !! id) →
     (st_nextID s < id)%N ∨ (is_Some (st_subscribers s !! id) ∧ mailbox s' id = mailbox s id)).
Proof.
  intros Hstep Hs. unfold mailbox.
  inversion Hstep as [changes drained ? pub err Hb Ha Hq|
    |snapshot drained ? pub H1 H2 H3 H4 Ha Hq| | | | |scope|id' typeURL names|id'|]; subst.
  - destruct (StoreApply_spec s changes drained (reach_store _ Hs) Hb) as (? & ? & ? & E & Hres).
    rewrite Ha in E. injection E as <- <- <-.
    destruct err as [e|]; [destruct Hres as (_ & -> & _); split; [lia|by right]|].
    rewrite (applied_quiet _ _ _ _ _ Hres Hq). split; [simpl; lia|by right].
  - destruct (Replace_spec s snapshot drained (reach_store _ Hs) H1 H2 H3 H4) as (? & ? & E & Hres).
    rewrite Ha in E. injection E as <- <-.
    rewrite (replaced_quiet _ _ _ _ _ Hres Hq). split; [simpl; lia|by right].
  - simpl. split; [lia|]. destruct (decide (id = st_nextID s + 1)%N) as [->|Hne]; [left; lia|].
    rewrite lookup_insert_ne by done. by right.
  - unfold Watch. destruct (st_subscribers s !! id') as [sub|] eqn:Hsub; [|split; [lia|by right]].
    destruct (if _ : bool then _ else _) as [sandboxNames byName]. simpl. split; [lia|]. right.
    destruct (decide (id = id')) as [->|Hne].
    + rewrite Hsub, lookup_insert_eq. simpl. eauto.
    + by rewrite lookup_insert_ne in *.
  - unfold cancelSubscription.
    destruct (match st_subscribers s !! id' with Some _ => _ | None => _ end) as [[? ?] ?].
    simpl. split; [lia|]. intros Hid. right. destruct (decide (id = id')) as [->|Hne].
    + rewrite lookup_delete_eq in Hid. by destruct Hid.
    + by rewrite lookup_delete_ne in *.
Qed.

Lemma step_receive_spec s id id' u s' :
  receive s id' = Some (u, s') →
  st_nextID s' = st_nextID s ∧ (is_Some (st_subscribers s' !! id) → is_Some (st_subscribers s !! id))
  ∧ mailbox s id' = Some u ∧ (id ≠ id' → mailbox s' id = mailbox s id).
Proof.
  unfold receive, mailbox. destruct (st_subscribers s !! id') as [sub|] eqn:Hsub; [|done].
  destruct (sub_mailbox sub) as [v|] eqn:Hv; [|done]. intros [= <- <-]. simpl.
  split_and!; [done| |done|].
  - destruct (decide (id = id')) as [->|Hne]; [rewrite Hsub; eauto|by rewrite lookup_insert_ne].
  - intros Hne. by rewrite lookup_insert_ne.
Qed.

(** Identifiers are not reused. *)
Lemma step_subscribed `{Codec} s l s' id :
  store_step s l s' → reachable_inv s →
  (st_nextID s ≤ st_nextID s')%N
  ∧ (is_Some (st_subscribers s' !! id) → (st_nextID s < id)%N ∨ is_Some (st_subscribers s !! id)).
Proof.
  intros Hstep Hs. destruct l as [|u drained|id' u].
  - destruct (step_quiet s s' id Hstep Hs) as [? Hq]. split; [done|].
    intros [?|[? _]]%Hq; auto.
  - destruct (step_published _ _ _ _ Hstep) as (_ & _ & s1 & -> & E1 & E2 & E3 & E4 & E5 & E6).
    split; [simpl; rewrite E5; lia|]. intros Hid. right.
    destruct (notifyLocked_spec s1 u (dom drained)) as (_ & Hsame & _).
    { apply (index_inv_same s); [by rewrite E1|done..|apply Hs]. }
    { rewrite E1, E6. apply Hs. }
    specialize (Hsame id). rewrite <-E1. destruct Hid as [sub' Hsub']. rewrite Hsub' in Hsame.
    by destruct (st_subscribers s1 !! id).
  - inversion Hstep as [| | | | | | | | | |? ? ? Hr]; subst.
    destruct (step_receive_spec s id id' u s' Hr) as (-> & Hsome & _). split; [lia|auto].
Qed.

(** A notice in a mailbox is handed to the reader, or stays covered by the mailbox. *)
Lemma step_keeps `{Codec} s l s' id v :
  store_step s l s' → reachable_inv s → is_Some (st_subscribers s' !! id) →
  mailbox s id = Some v → receives l id v ∨ ∃ v', mailbox s' id = Some v' ∧ covers v' v.
Proof.
  intros Hstep Hs Hid Hv.
  assert (∃ sub, st_subscribers s !! id = Some sub ∧ sub_mailbox sub = Some v) as (sub & Hsub & Hbox).
  { unfold mailbox in Hv. destruct (st_subscribers s !! id) as [sub|]; [|done]. eauto. }
  destruct l as [|u drained|id' u].
  - right. exists v. destruct (proj2 (step_quiet s s' id Hstep Hs) Hid) as [Hlt|[_ ->]]; [|by split].
    pose proof (inv_fresh _ (reach_index _ Hs) id) as Hle. rewrite Hsub in Hle.
    specialize (Hle ltac:(eauto)). lia.
  - pose proof (step_published _ _ _ _ Hstep) as Hn. pose proof Hn as (Hu & Hrace & _).
    destruct (notified_spec s u drained s' (reach_index _ Hs) (reach_mail _ Hs) (reach_notices _ Hs) Hn)
      as (_ & _ & _ & Hdel).
    destruct (Hdel id sub Hsub) as [Hyes Hno].
    destruct (concerned_or_not s id sub u (reach_index _ Hs) Hsub) as [Hc|Hc].
    + destruct (drained !! id) as [v'|] eqn:Hd.
      * left. simpl. rewrite Hd. destruct (Hrace id v' Hd) as (sub' & ? & ? & _). congruence.
      * right. eexists. split; [by apply Hyes|]. apply delivered_covers; [done| |done|].
        -- intros p Hp. by apply (reach_notices _ Hs id sub).
        -- by apply not_elem_of_dom.
    + right. exists v. rewrite (Hno Hc). by split.
  - inversion Hstep as [| | | | | | | | | |? ? ? Hr]; subst.
    destruct (step_receive_spec s id id' u s' Hr) as (_ & _ & Hm & Hother).
    destruct (decide (id = id')) as [->|Hne].
    + left. simpl. split; [done|]. congruence.
    + right. exists v. rewrite Hother by done. by split.
Qed.

(** From a mailbox that covers a notice onwards, the notice is received or stays covered. *)
Lemma steps_deliver `{Codec} s ls s' id u v :
  steps s ls s' → reachable_inv s → mailbox s id = Some v → covers v u →
  is_Some (st_subscribers s' !! id) →
  (∃ l w, l ∈ ls ∧ receives l id w ∧ covers w u) ∨ (∃ w, mailbox s' id = Some w ∧ covers w u).
Proof.
  intros Hsteps Hs Hv Hcov.
  assert ((id ≤ st_nextID s)%N) as Hle.
  { apply (inv_fresh _ (reach_index _ Hs)). unfold mailbox in Hv.
    destruct (st_subscribers s !! id); [eauto|done]. }
  enough ((id ≤ st_nextID s')%N ∧ (is_Some (st_subscribers s' !! id) →
    (∃ l w, l ∈ ls ∧ receives l id w ∧ covers w u) ∨ (∃ w, mailbox s' id = Some w ∧ covers w u))) by tauto.
  induction Hsteps as [|ls l s1 s2 Hsteps IH Hstep]; [by eauto|].
  pose proof (steps_inv _ _ _ Hsteps Hs) as Hs1. destruct IH as [Hle1 IH].
  destruct (step_subscribed s1 l s2 id Hstep Hs1) as [Hnx Hpres]. split; [lia|]. intros Hid.
  destruct (Hpres Hid) as [?|Hid1]; [lia|].
  destruct (IH Hid1) as [(l' & w & Hl' & ?)|(w & Hw & Hcw)].
  { left. exists l', w. split; [|done]. apply elem_of_app. by left. }
  destruct (step_keeps s1 l s2 id w Hstep Hs1 Hid Hw) as [Hrec|(w' & Hw' & Hcov')].
  - left. exists l, w. split; [|done]. apply elem_of_app. right. left.
  - right. exists w'. split; [done|]. by etrans.
Qed.
