(* ===== verification/StoreTheorems.v ===== *)
(** * StoreTheorems: the guarantees of the store

    What the publication, merging and delivery of src/pkg/xds/store promise to the
    streams, each with an instance at a small concrete store. *)

From S2P Require Import Prelude Identity Resource ResourceIndex Postings ResourceSet SetInvariant SetQueries SetDiff Snapshot Update Notices Dependencies Store Cascade Publish Commit Subscribers Executions.

(** ** Concrete stores *)

Definition all_plain (s : ResourceSet) : bool :=
  forallb (λ p : string * (string * Resource), plain_resource p.2.2) (typedResources s).

Lemma all_plain_spec s : shape_ok s → all_plain s = true → plain s.
Proof.
  unfold all_plain. intros Hs Hall [t x] r Hr. apply Is_true_true, forallb_True in Hall.
  rewrite Forall_forall in Hall. apply typedResources_Get in Hr; [|done].
  by apply Is_true_true, (Hall _ Hr).
Qed.

Lemma initial_ok_check s : set_ok s → hashed s = true → all_plain s = true → initial_ok s.
Proof.
  intros Hs Hh Hp. pose proof (set_ok_shape_ok s Hs) as Hsh.
  split_and!; [done|intros k r; by apply hashed_spec|by apply all_plain_spec].
Qed.

Lemma exampleSet_initial : initial_ok exampleSet.
Proof. apply initial_ok_check; [apply snapshotOf_ok|vm_compute; reflexivity..]. Qed.

(** The store of the examples: the address "a" references the policy "p". *)
Definition exampleStore : Store := NewStore exampleSet.

Lemma exampleStore_inv : reachable_inv exampleStore.
Proof. apply NewStore_inv, exampleSet_initial. Qed.

Definition policyKey : ResourceKey := mkKey TrafficPolicyType "p".

(** The source deletes the policy, giving its old value. *)
Definition policyDeletion : list ResourceChange := [mkChange policyKey (Get exampleSet policyKey) None].

Definition batch_check (C : ResourceSet) (changes : list ResourceChange) : bool :=
  forallb (λ c, match rc_New c with
                | Some r => negb (bool_decide (Hash r = "")) && plain_resource r
                | None => true
                end) changes
  && forallb (λ c, negb (isSome (rc_Old c)) || isSome (Get C (rc_Key c))) (coalesceChanges changes).

Lemma batch_check_ok C changes : batch_check C changes = true → batch_ok C changes.
Proof.
  unfold batch_check. intros [H1 H2]%andb_true_iff.
  apply Is_true_true, forallb_True in H1, H2. rewrite Forall_forall in H1, H2. split.
  - intros c r Hc Hr. specialize (H1 c Hc). rewrite Hr in H1.
    apply Is_true_true, andb_true_iff in H1 as [H1 ->]. split; [|done].
    by apply negb_true_iff, bool_decide_eq_false in H1.
  - intros c Hc. specialize (H2 c Hc). destruct (rc_Old c); [|by left]. right.
    destruct (Get C (rc_Key c)); [eauto|done].
Qed.

(** ** Publication *)

(** C2: [Store.Apply], on a well-formed store and a batch that keeps the contract of the
    store: its new values are normalized (hashed, with type URLs without NUL bytes), and
    after coalescing an old value is only given for a published key. The call always
    returns. If the snapshot rejects the batch, the store is left as it was and the error is
    returned; otherwise the store stays well formed, the new values of the coalesced batch
    are published up to their hash, its deletions are carried out or wait with the old value
    still published, and no published resource has disappeared while something published
    references it. *)
Theorem store_apply_commits `{Codec} s changes drained :
  store_ok s → batch_ok (st_current s) changes →
  match StoreApply s changes drained with
  | None => False
  | Some (s', pub, Some e) =>
      Apply (st_current s) (coalesceChanges changes) = Err e ∧ s' = s ∧ pub = unchanged s
  | Some (s', pub, None) =>
      store_ok s' ∧ pub_Snapshot pub = st_current s'
      ∧ commits (st_current s) (st_pendingRemovals s) (coalesceChanges changes)
          (st_current s') (st_pendingRemovals s')
      ∧ no_dangling (st_current s) (st_current s')
  end.
Proof.
  intros Hs Hb. destruct (StoreApply_spec s changes drained Hs Hb) as (s' & pub & err & -> & Hres).
  destruct err as [e|]; [done|]. by destruct Hres.
Qed.

Lemma store_apply_commits_witness :
  match StoreApply exampleStore policyDeletion ∅ with
  | Some (s', pub, None) =>
      elements (st_pendingRemovals s') = [policyKey] ∧ isSome (Get (st_current s') policyKey) = true
      ∧ no_dangling exampleSet (st_current s')
  | _ => False
  end.
Proof.
  assert (match StoreApply exampleStore policyDeletion ∅ with
          | Some (s', pub, None) =>
              bool_decide (elements (st_pendingRemovals s') = [policyKey])
              && isSome (Get (st_current s') policyKey)
          | _ => false
          end = true) as Hrun by (vm_compute; reflexivity).
  assert (batch_check exampleSet policyDeletion = true) as Hb by (vm_compute; reflexivity).
  pose proof (store_apply_commits exampleStore policyDeletion ∅
    (reach_store _ exampleStore_inv) (batch_check_ok _ _ Hb)) as Hc.
  revert Hrun Hc. generalize (StoreApply exampleStore policyDeletion ∅).
  intros [[[s' pub] [e|]]|] Hrun Hc; [discriminate| |discriminate].
  apply andb_true_iff in Hrun as [H1 H2]. apply bool_decide_eq_true in H1.
  split; [exact H1|split; [exact H2|apply Hc]].
Defined.

(** C25: a deletion is withheld exactly while the published snapshot references it. Take a
    well-formed store and a batch whose new values are normalized and which, coalesced,
    gives an old value only for published keys. After a successful [Store.Apply], a key
    whose deletion was requested, now or earlier, and that was published is still published
    if and only if something published references it, and exactly these deletions wait in
    [pendingRemovals]. *)
Theorem store_apply_deletions `{Codec} s changes drained s' pub k :
  store_ok s → batch_ok (st_current s) changes →
  StoreApply s changes drained = Some (s', pub, None) →
  waits (st_pendingRemovals s) (coalesceChanges changes) k → is_Some (Get (st_current s) k) →
  (is_Some (Get (st_current s') k) ↔ HasReference (st_current s') k = true)
  ∧ (k ∈ st_pendingRemovals s' ↔ HasReference (st_current s') k = true).
Proof.
  intros Hs Hb Happ Hw Hk.
  destruct (StoreApply_spec s changes drained Hs Hb) as (? & ? & ? & E & Hres).
  rewrite Happ in E. injection E as <- <- <-. destruct Hres as [Hok _ Hcom Hlive _ _].
  assert (k ∈ st_pendingRemovals s' →
    is_Some (Get (st_current s') k) ∧ HasReference (st_current s') k = true) as Hpend.
  { intros Hp. pose proof (store_pending _ Hok k Hp) as Hst. unfold stays in Hst.
    apply andb_true_iff in Hst as [Hg Hr]. destruct (Get (st_current s') k); [eauto|done]. }
  assert (HasReference (st_current s') k = true → k ∈ st_pendingRemovals s') as Href.
  { intros Hr. destruct (commits_waits _ _ _ _ _ Hcom k Hw) as [[Hp _]|[_ Hg]]; [done|].
    rewrite (Hlive k Hk Hg) in Hr. done. }
  split; split; [|naive_solver..].
  intros Hg. destruct (commits_waits _ _ _ _ _ Hcom k Hw) as [[Hp _]|[_ E]]; [by apply Hpend|].
  rewrite E in Hg. by destruct Hg.
Qed.

(** The second batch: the address stops referencing the policy that waits. *)
Definition normalizedAddress (name uid value : string) (policies : list string) : option Resource :=
  match normalizeResource (exampleAddress name uid value policies) with Ok r => Some r | Err _ => None end.

Definition releaseChanges : list ResourceChange :=
  policyDeletion
  ++ [mkChange (mkKey AddressType "a") (Get exampleSet (mkKey AddressType "a"))
        (normalizedAddress "a" "uid-a" "v2" [])].

Lemma store_apply_deletions_witness :
  match StoreApply exampleStore releaseChanges ∅ with
  | Some (s', _, None) =>
      HasReference (st_current s') policyKey = false ∧ Get (st_current s') policyKey = None
  | _ => False
  end.
Proof.
  assert (match StoreApply exampleStore releaseChanges ∅ with
          | Some (s', _, None) => negb (HasReference (st_current s') policyKey)
          | _ => false
          end = true) as Hrun by (vm_compute; reflexivity).
  assert (batch_check exampleSet releaseChanges = true) as Hb by (vm_compute; reflexivity).
  assert (existsb (λ c, bool_decide (rc_Key c = policyKey) && negb (isSome (rc_New c)))
            (coalesceChanges releaseChanges) && isSome (Get exampleSet policyKey) = true) as Hw
    by (vm_compute; reflexivity).
  pose proof (λ s' pub Happ, store_apply_deletions exampleStore releaseChanges ∅ s' pub policyKey
    (reach_store _ exampleStore_inv) (batch_check_ok _ _ Hb) Happ) as Hd.
  apply andb_true_iff in Hw as [Hw Hg].
  assert (waits (st_pendingRemovals exampleStore) (coalesceChanges releaseChanges) policyKey) as Hwait.
  { left. apply existsb_exists_elem in Hw as (c & Hc & Hb').
    apply andb_true_iff in Hb' as [Hk Hn]. apply bool_decide_eq_true in Hk. exists c.
    destruct (rc_New c); [discriminate Hn|]. auto. }
  assert (is_Some (Get exampleSet policyKey)) as Hsome.
  { destruct (Get exampleSet policyKey); [eauto|discriminate Hg]. }
  revert Hrun Hd. generalize (StoreApply exampleStore releaseChanges ∅).
  intros [[[s' pub] [e|]]|] Hrun Hd; [discriminate| |discriminate].
  apply negb_true_iff in Hrun. split; [exact Hrun|].
  destruct (Hd s' pub eq_refl Hwait Hsome) as [[Hg1 _] _].
  destruct (Get (st_current s') policyKey) as [r|]; [|reflexivity].
  rewrite Hg1 in Hrun; [discriminate Hrun|eauto].
Defined.

(** A successful [Store.Apply] publishes exactly the difference of the two snapshots.
    It reports a change if and only if some published hash changed; it then delivers the
    notice of the changes between the old and the new snapshot, and otherwise leaves
    snapshot and mailboxes alone. *)
Theorem store_apply_notifies `{Codec} s changes drained s' pub :
  store_ok s → batch_ok (st_current s) changes →
  StoreApply s changes drained = Some (s', pub, None) →
  (pub_Changed pub = true ↔ Diff (st_current s) (st_current s') ≠ [])
  ∧ (pub_Changed pub = false → s' = setPending s (st_pendingRemovals s'))
  ∧ (pub_Changed pub = true →
     ∃ effective, effective ≡ₚ Diff (st_current s) (st_current s')
       ∧ s' = notifyLocked (setCurrent (setPending s (st_pendingRemovals s')) (st_current s'))
                (updateBetween (st_current s) (st_current s') effective) drained).
Proof.
  intros Hs Hb Happ. destruct (StoreApply_spec s changes drained Hs Hb) as (? & ? & ? & E & Hres).
  rewrite Happ in E. injection E as <- <- <-. destruct Hres as [_ _ _ _ Hq Hn].
  split_and!; [|done|]; [split|].
  - intros Hc. destruct (Hn Hc) as (eff & Heff & Hne & _). intros E. rewrite E in Heff.
    by apply Permutation_nil_r in Heff.
  - intros Hd. destruct (pub_Changed pub) eqn:Hc; [done|]. exfalso. apply Hd.
    rewrite (Hq eq_refl). simpl. apply elem_of_nil_inv. intros c Hin.
    apply elem_of_Diff in Hin as (_ & _ & Hne); [done|apply set_ok_shape_ok, Hs..].
  - intros Hc. destruct (Hn Hc) as (eff & Heff & _ & ?). eauto.
Qed.

Lemma store_apply_notifies_witness :
  match StoreApply exampleStore releaseChanges ∅ with
  | Some (s', pub, None) => pub_Changed pub = true ∧ Diff exampleSet (st_current s') ≠ []
  | _ => False
  end.
Proof.
  assert (match StoreApply exampleStore releaseChanges ∅ with
          | Some (s', pub, None) => pub_Changed pub
          | _ => false
          end = true) as Hrun by (vm_compute; reflexivity).
  assert (batch_check exampleSet releaseChanges = true) as Hb by (vm_compute; reflexivity).
  pose proof (λ s' pub Happ, store_apply_notifies exampleStore releaseChanges ∅ s' pub
    (reach_store _ exampleStore_inv) (batch_check_ok _ _ Hb) Happ) as Hd.
  revert Hrun Hd. generalize (StoreApply exampleStore releaseChanges ∅).
  intros [[[s' pub] [e|]]|] Hrun Hd; [discriminate| |discriminate].
  split; [exact Hrun|]. apply (proj1 (Hd s' pub eq_refl)). exact Hrun.
Defined.

(** [Store.Replace] always returns and does not panic, for a well-formed snapshot whose
    resources of equal hash carry the same references as the published ones. It publishes
    the snapshot (up to hashes) plus the deleted resources that wait, leaves no dangling
    reference, and announces exactly the keys whose published hash changed, with their
    published values. *)
Theorem store_replace_publishes `{Codec} s snapshot drained :
  store_ok s → initial_ok snapshot →
  (∀ k, hash_of (st_current s) k = hash_of snapshot k →
     same_references (Get (st_current s) k) (Get snapshot k)) →
  ∃ s' pub, Replace s snapshot drained = Some (Ok (s', pub)) ∧ store_ok s'
    ∧ no_dangling (st_current s) (st_current s')
    ∧ (∀ k, (k ∉ st_pendingRemovals s' → hash_of (st_current s') k = hash_of snapshot k)
        ∧ (k ∈ st_pendingRemovals s' →
             Get snapshot k = None ∧ hash_of (st_current s') k = hash_of (st_current s) k))
    ∧ (pub_Changed pub = false → s' = setPending s (st_pendingRemovals s'))
    ∧ (pub_Changed pub = true → ∃ changes,
         (∀ k, k ∈ rc_Key <$> changes ↔ hash_of (st_current s) k ≠ hash_of (st_current s') k)
         ∧ (∀ c, c ∈ changes → Hash <$> rc_Old c = hash_of (st_current s) (rc_Key c)
              ∧ rc_New c = Get (st_current s') (rc_Key c))
         ∧ s' = notifyLocked (setCurrent (setPending s (st_pendingRemovals s')) (st_current s'))
                  (updateBetween (st_current s) (st_current s') changes) drained).
Proof.
  intros Hs (H1 & H2 & H3) H4.
  destruct (Replace_spec s snapshot drained Hs H1 H2 H3 H4) as (s' & pub & Hr & [Hok _ Hv Hl Hq Hn]).
  exists s', pub. split_and!; [done..|].
  intros Hc. destruct (Hn Hc) as (changes & _ & _ & ? & ? & ?). eauto.
Qed.

(** The policy is gone from the source, but the address still references it. *)
Definition exampleReplacement : ResourceSet :=
  snapshotOf [exampleAddress "a" "uid-a" "v1" ["p"]; exampleAddress "b" "uid-b" "v1" []].

Lemma replacement_references k :
  hash_of exampleSet k = hash_of exampleReplacement k →
  same_references (Get exampleSet k) (Get exampleReplacement k).
Proof.
  assert (forallb (λ p : string * (string * Resource),
    match Get exampleSet (mkKey p.1 p.2.1) with
    | Some r => bool_decide (ReferencedResources r = ReferencedResources p.2.2)
    | None => true
    end) (typedResources exampleReplacement) = true) as Hall by (vm_compute; reflexivity).
  assert (shape_ok exampleReplacement) as Hsh by (apply set_ok_shape_ok, snapshotOf_ok).
  revert Hall Hsh. generalize exampleSet exampleReplacement. intros s n Hall Hsh.
  apply Is_true_true, forallb_True in Hall. rewrite Forall_forall in Hall.
  unfold hash_of. destruct k as [t x]. destruct (Get n (mkKey t x)) as [r|] eqn:Hr.
  - pose proof Hr as Hin. apply typedResources_Get in Hin; [|done]. specialize (Hall _ Hin). simpl in Hall.
    destruct (Get s (mkKey t x)) as [r0|]; [|done]. simpl.
    apply bool_decide_unpack in Hall. by rewrite Hall.
  - by destruct (Get s (mkKey t x)).
Qed.

Lemma store_replace_publishes_witness :
  ∃ s' pub, Replace exampleStore exampleReplacement ∅ = Some (Ok (s', pub))
    ∧ policyKey ∈ st_pendingRemovals s' ∧ store_ok s'.
Proof.
  assert (match Replace exampleStore exampleReplacement ∅ with
          | Some (Ok (s', _)) => bool_decide (policyKey ∈ st_pendingRemovals s')
          | _ => false
          end = true) as Hrun by (vm_compute; reflexivity).
  assert (initial_ok exampleReplacement) as Hi.
  { apply initial_ok_check; [apply snapshotOf_ok|vm_compute; reflexivity..]. }
  destruct (store_replace_publishes exampleStore exampleReplacement ∅ (reach_store _ exampleStore_inv) Hi
    replacement_references) as (s' & pub & Hr & Hok & _).
  revert Hrun Hr. generalize (Replace exampleStore exampleReplacement ∅). intros o Hrun Hr.
  exists s', pub. rewrite Hr in Hrun. apply bool_decide_eq_true in Hrun. auto.
Defined.

(** ** The store over time *)

(** C26: the invariant of the store. Take a well-formed initial snapshot and any sequence of
    publications, dynamic notifications, subscriptions, watches, cancellations and
    receptions, in which every batch has normalized new values and, coalesced, gives an old
    value only for keys published at that time, and every complete replacement is a
    well-formed snapshot in which a resource with the hash of the published one has the same
    references. The store reached is well formed: its snapshot and waiting deletions, its
    subscriber indexes (exact, without empty entries), its mailbox identifiers, and every
    unread notice. *)
Theorem store_reachable_invariant `{Codec} initial ls s :
  initial_ok initial → steps (NewStore initial) ls s →
  store_ok s ∧ index_inv s ∧ mail_ok (st_subscribers s) (st_nextMailboxID s) ∧ notices_ok s.
Proof.
  intros Hi Hsteps. by destruct (steps_inv _ _ _ Hsteps (NewStore_inv _ Hi)).
Qed.

(** A reader subscribes and watches addresses; then everything is invalidated. *)
Definition readerScope : ClientScope := mkClientScope "" zeroSourceRef ClientSharedZTunnel zeroPrincipal "" "".

Definition watchingStore : Store := Watch (Subscribe exampleStore readerScope).1 1 AddressType [].

Definition fullNotice (s : Store) : Update := mkUpdate (rs_version (st_current s)) ∅ ∅ true ∅ None.

Lemma watchingStore_steps : steps exampleStore [Quiet; Quiet] watchingStore.
Proof.
  apply (steps_snoc _ [Quiet] Quiet (Subscribe exampleStore readerScope).1).
  - apply (steps_snoc _ [] Quiet exampleStore); [apply steps_nil|apply step_subscribe].
  - apply step_watch.
Qed.

Lemma racing_empty s u : racing s u ∅.
Proof. intros id v Hv. by rewrite lookup_empty in Hv. Qed.

Lemma store_reachable_invariant_witness :
  st_nextID watchingStore = 1%N ∧ index_inv watchingStore.
Proof.
  split; [vm_compute; reflexivity|].
  apply (store_reachable_invariant exampleSet [Quiet; Quiet] watchingStore
    exampleSet_initial watchingStore_steps).
Defined.

(** C3: no notice is lost, in executions whose batches have normalized new values and give
    old values only for published keys and whose replacements are well formed. If a
    publication of such an execution concerned a subscriber that is still subscribed, then
    the subscriber has since received a notice that covers it, or its mailbox holds one;
    this holds whatever publications, readers and merges came in between. *)
Theorem store_delivery `{Codec} initial ls1 s1 u drained s2 ls2 s id sub :
  initial_ok initial → steps (NewStore initial) ls1 s1 →
  store_step s1 (Published u drained) s2 → steps s2 ls2 s →
  st_subscribers s1 !! id = Some sub → concerns u sub → is_Some (st_subscribers s !! id) →
  (∃ l v, l ∈ ls2 ∧ receives l id v ∧ covers v u) ∨ (∃ v, mailbox s id = Some v ∧ covers v u).
Proof.
  intros Hi Hsteps1 Hstep Hsteps2 Hsub Hc Hid.
  pose proof (steps_inv _ _ _ Hsteps1 (NewStore_inv _ Hi)) as Hs1.
  pose proof (step_published _ _ _ _ Hstep) as Hn. pose proof Hn as (Hu & _).
  destruct (notified_spec s1 u drained s2 (reach_index _ Hs1) (reach_mail _ Hs1) (reach_notices _ Hs1) Hn)
    as (_ & _ & _ & Hdel).
  eapply steps_deliver; [done|by eapply store_step_inv|by apply (Hdel id sub Hsub)| |done].
  refine (proj1 (delivered_covers u (dom drained) id sub Hu _)).
  intros p Hp. by apply (reach_notices _ Hs1 id sub).
Qed.

Definition notifiedStore : Store := Notify watchingStore (dom (∅ : gmap N Update)).

Lemma store_delivery_witness :
  ∃ v, mailbox notifiedStore 1 = Some v ∧ covers v (fullNotice watchingStore).
Proof.
  assert (isSome (st_subscribers watchingStore !! 1%N) && isSome (st_subscribers notifiedStore !! 1%N)
    = true) as Hrun by (vm_compute; reflexivity).
  pose proof (λ sub, store_delivery exampleSet [Quiet; Quiet] watchingStore (fullNotice watchingStore) ∅
    notifiedStore [] notifiedStore 1 sub exampleSet_initial watchingStore_steps
    (step_notify watchingStore (fullNotice watchingStore) ∅ eq_refl (racing_empty _ _)) (steps_nil _)) as Hd.
  apply andb_true_iff in Hrun as [H1 H2]. revert H1 H2 Hd. generalize notifiedStore.
  intros s' H1 H2 Hd. destruct (st_subscribers watchingStore !! 1%N) as [sub|]; [|discriminate H1].
  destruct (Hd sub eq_refl) as [(l & v & Hl & _)|Hm].
  - left. split; reflexivity.
  - destruct (st_subscribers s' !! 1%N); [eauto|discriminate H2].
  - apply elem_of_nil in Hl. destruct Hl.
  - exact Hm.
Defined.

(** A publication wakes exactly the subscribers it concerns: all of them for a global
    notice; otherwise those that watch an affected type, and for Sandboxes only the
    streams without a dedicated workload, those that demand a name, and those of an
    attesting workload (all, when a candidate has no Sandbox facts). Each of them is left
    with the notice, merged with the one it had not read; the others are not touched. *)
Theorem store_wakes_concerned s u drained :
  index_inv s → mail_ok (st_subscribers s) (st_nextMailboxID s) →
  (∀ id, id ∈ affectedSubscribersLocked s u ↔ ∃ sub, st_subscribers s !! id = Some sub ∧ concerns u sub)
  ∧ ∀ id sub, st_subscribers s !! id = Some sub →
      (concerns u sub → ∃ mid, st_subscribers (notifyLocked s u drained) !! id
                               = Some (setMailbox sub (delivered u drained id sub) mid))
      ∧ (¬ concerns u sub → st_subscribers (notifyLocked s u drained) !! id = Some sub).
Proof.
  intros Hi Hm. split; [intros id; by apply affectedSubscribersLocked_spec|].
  apply (notifyLocked_spec s u drained Hi Hm).
Qed.

Lemma store_wakes_concerned_witness :
  1%N ∈ affectedSubscribersLocked watchingStore (fullNotice watchingStore)
  ∧ ∃ sub, st_subscribers watchingStore !! 1%N = Some sub ∧ concerns (fullNotice watchingStore) sub.
Proof.
  assert (bool_decide (1%N ∈ affectedSubscribersLocked watchingStore (fullNotice watchingStore)) = true)
    as Hrun by (vm_compute; reflexivity).
  apply bool_decide_eq_true in Hrun. split; [exact Hrun|].
  pose proof (steps_inv _ _ _ watchingStore_steps exampleStore_inv) as Hinv.
  apply (proj1 (store_wakes_concerned watchingStore (fullNotice watchingStore) ∅
    (reach_index _ Hinv) (reach_mail _ Hinv))). exact Hrun.
Defined.

(** ** Notices *)

(** Merging two well-formed notices loses nothing and invents nothing. The merge is
    well formed, covers both notices (every candidate with its identities and ownership
    evidence), requires a full selection or affects a type exactly when one of them does,
    and only names keys of one of them. *)
Theorem notice_merge o n :
  update_ok o → update_ok n →
  update_ok (Merge o n) ∧ covers (Merge o n) o ∧ covers (Merge o n) n
  ∧ (∀ t, FullFor (Merge o n) t = FullFor o t || FullFor n t)
  ∧ (∀ t, Affects (Merge o n) t = Affects o t || Affects n t)
  ∧ ∀ t c, c ∈ candidates_of (Merge o n) t →
      ∃ d, (d ∈ candidates_of o t ∨ d ∈ candidates_of n t) ∧ ca_Key c = ca_Key d.
Proof.
  intros Ho Hn. destruct (Merge_covers o n Ho Hn) as [Hco Hcn].
  split_and!; [by apply Merge_ok|done|done|intros t; by apply FullFor_Merge|intros t; by apply Affects_Merge|].
  intros t c. rewrite candidates_of_Merge. unfold mergeCandidates.
  repeat case_decide; [naive_solver..|].
  destruct (candidateUnionSize _ _) as [count unch]. destruct (_ && _); [naive_solver|].
  intros [(d & ? & ?)|(d & ? & ?)]%mergeOrdered_names; eauto.
Qed.

Definition exampleNotice : Update := updateBetween exampleSet exampleReplacement (Diff exampleSet exampleReplacement).

Lemma notice_merge_witness :
  covers (Merge (fullNotice exampleStore) exampleNotice) exampleNotice
  ∧ length (candidates_of (Merge (fullNotice exampleStore) exampleNotice) TrafficPolicyType) = 1.
Proof.
  split; [|vm_compute; reflexivity].
  apply (notice_merge (fullNotice exampleStore) exampleNotice (full_update_ok _ _)).
  apply (proj1 (updateBetween_spec exampleSet exampleReplacement (Diff exampleSet exampleReplacement))).
Defined.

(** The notice of a publication is well formed and names exactly the keys the changes
    make stale: the changed resources themselves and what depends on them (the
    dependencies of changed workloads and services, withdrawn scopes, and authorizations
    of their namespaces), each with the old and new identities and scopes as evidence. *)
Theorem notice_announces before after changes (u := updateBetween before after changes) :
  update_ok u ∧ u_version u = rs_version after
  ∧ (∀ k, (∃ c, c ∈ candidates_of u (TypeURL k) ∧ ca_Key c = k)
          ↔ ∃ r w, publication_dependency before after changes r w ∧ Key r = k)
  ∧ ∀ r w, publication_dependency before after changes r w →
      ∃ c, c ∈ candidates_of u (TypeURL (Key r)) ∧ announces c r w.
Proof. apply updateBetween_spec. Qed.

(** Coalescing a batch keeps one change per key, from the first old to the last new
    value, and drops exactly the keys whose two ends have the same hash. *)
Theorem coalesce_changes changes :
  NoDup (rc_Key <$> coalesceChanges changes)
  ∧ (∀ c, c ∈ coalesceChanges changes →
       rc_Old c = firstOld (rc_Key c) changes ∧ rc_New c = lastNew (rc_Key c) changes)
  ∧ ∀ k, k ∈ rc_Key <$> coalesceChanges changes ↔
       k ∈ rc_Key <$> changes ∧ Hash <$> firstOld k changes ≠ Hash <$> lastNew k changes.
Proof.
  split_and!; [apply NoDup_coalesce|by intros c (_ & ? & ? & _)%elem_of_coalesce|].
  intros k. by rewrite elem_of_coalesce_keys, sameResource_hash, bool_decide_eq_false.
Qed.
