(* ===== verification/Scoped.v ===== *)
(** * Scoped: notices narrowed to one workload (src/pkg/xds/store/scoped.go)

    A stream dedicated to one workload only reselects the addresses that can concern it:
    its own, those its services and gateways contribute, and those it was shown before. *)

From S2P Require Import Prelude Identity Resource ResourceIndex ResourceSet Update.

(** ** The index of the Address candidates *)

Abbreviation candidatesByKey := (gmap string (list Candidate)).
Abbreviation workloadsByUID := (gmap string (gset WorkloadIdentity)).

(** A nil map of the per-identity slice is the empty map. *)
Record addressScopeIndex := mkScopeIndex {
  asi_byWorkload : candidatesByKey;
  asi_byService : candidatesByKey;
  asi_byGateway : candidatesByKey;
  asi_unscoped : list Candidate;
  asi_workloads : gmap ResourceKey (list workloadsByUID)
}.

Definition emptyScopeIndex : addressScopeIndex := mkScopeIndex ∅ ∅ ∅ [] ∅.

Definition appendCandidate (m : candidatesByKey) (key : string) (c : Candidate) : candidatesByKey :=
  <[key := default [] (m !! key) ++ [c]]> m.

(** Appending the candidate under every key of a set *)
Definition appendAll (m : candidatesByKey) (keys : gset string) (c : Candidate) : candidatesByKey :=
  foldl (λ m k, appendCandidate m k c) m (elements keys).

(** [byUID] of one identity: the evidence split by workload, when there is more than one *)
Definition splitByUID (i : Identity) : workloadsByUID :=
  if decide (1 < size (id_Workloads i)) then
    foldl (λ (m : workloadsByUID) w, <[wi_UID w := {[w]} ∪ default ∅ (m !! wi_UID w)]> m)
      ∅ (elements (id_Workloads i))
  else ∅.

Definition workloadKeys (c : Candidate) : gset string :=
  foldl (λ (s : gset string) i,
      (match rf_Workload (id_Facts i) with Some f => {[wf_WorkloadUID f]} | None => ∅ end)
      ∪ set_map wi_UID (id_Workloads i) ∪ s)
    ∅ (ca_Identities c).

Definition serviceKeys (c : Candidate) : gset string :=
  foldl (λ (s : gset string) i,
      (match rf_Service (id_Facts i) with Some f => {[ServiceKey f]} | None => ∅ end) ∪ s)
    ∅ (ca_Identities c).

Definition gatewayKeys (c : Candidate) : gset string :=
  foldl (λ (s : gset string) i,
      (if decide (GatewayOwner (id_Facts i) = "") then ∅ else {[GatewayOwner (id_Facts i)]}) ∪ s)
    ∅ (ca_Identities c).

(** The slices of [workloadsByCandidate], made only when some identity needs one;
    candidates have distinct keys *)
Definition indexEvidence (m : gmap ResourceKey (list workloadsByUID)) (c : Candidate)
    : gmap ResourceKey (list workloadsByUID) :=
  if existsb (λ i, bool_decide (1 < size (id_Workloads i))) (ca_Identities c) then
    <[ca_Key c := splitByUID <$> ca_Identities c]> m
  else m.

Definition indexCandidate (index : addressScopeIndex) (c : Candidate) : addressScopeIndex :=
  if decide (length (ca_Identities c) = 0) then
    mkScopeIndex (asi_byWorkload index) (asi_byService index) (asi_byGateway index)
      (asi_unscoped index ++ [c]) (asi_workloads index)
  else
    mkScopeIndex (appendAll (asi_byWorkload index) (workloadKeys c) c)
      (if ca_DependencyOnly c then asi_byService index
       else appendAll (asi_byService index) (serviceKeys c) c)
      (if ca_DependencyOnly c then asi_byGateway index
       else appendAll (asi_byGateway index) (gatewayKeys c) c)
      (asi_unscoped index) (indexEvidence (asi_workloads index) c).

(** [indexAddressScopes]; [None] is the dereference of a nil pointer. *)
Definition indexAddressScopes (u : Update) : option addressScopeIndex :=
  match u_addressScopes u with
  | None => None
  | Some candidates => Some (foldl indexCandidate emptyScopeIndex candidates)
  end.

(** ** Scoping the evidence *)

(** One identity of [scopeEvidence]; [None] is an index out of range. *)
Definition scopeIdentity (index : addressScopeIndex) (key : ResourceKey) (uid : string)
    (i : nat) (ident : Identity) : option Identity :=
  if decide (size (id_Workloads ident) = 0) then Some ident else
  match (if decide (size (id_Workloads ident) = 1)
         then Some (if existsb (λ w, bool_decide (wi_UID w = uid)) (elements (id_Workloads ident))
                    then id_Workloads ident else ∅)
         else match asi_workloads index !! key with
              | None => None
              | Some l => match l !! i with
                          | None => None
                          | Some byUID => Some (default ∅ (byUID !! uid))
                          end
              end) with
  | None => None
  | Some scoped =>
      if decide (size scoped = size (id_Workloads ident)) then Some ident
      else Some (mkIdentity (id_Name ident) (id_Facts ident) scoped)
  end.

Fixpoint scopeIdentities (index : addressScopeIndex) (key : ResourceKey) (uid : string)
    (i : nat) (identities : list Identity) : option (list Identity) :=
  match identities with
  | [] => Some []
  | ident :: rest =>
      match scopeIdentity index key uid i ident, scopeIdentities index key uid (S i) rest with
      | Some ident, Some rest => Some (ident :: rest)
      | _, _ => None
      end
  end.

Definition scopeEvidence (index : addressScopeIndex) (candidate : Candidate) (uid : string)
    : option Candidate :=
  match scopeIdentities index (ca_Key candidate) uid 0 (ca_Identities candidate) with
  | None => None
  | Some identities => Some (mkCandidate (ca_Key candidate) identities (ca_DependencyOnly candidate))
  end.

(** ** ForWorkload *)

Definition selectAll (selected : candidateIndex) (candidates : list Candidate) : candidateIndex :=
  foldl (λ (m : candidateIndex) c, <[ca_Key c := c]> m) selected candidates.

(** [addDependencies] *)
Definition addDependencies (index : addressScopeIndex) (selected : candidateIndex)
    (workload : WorkloadResourceFacts) : candidateIndex :=
  let selected :=
    foldl (λ m k, selectAll m (default [] (asi_byService index !! k))) selected
      (wf_ServiceKeys workload) in
  foldl (λ m k, selectAll m (default [] (asi_byGateway index !! k))) selected
    (wf_GatewayReferences workload).

Definition uidQuery (uid : string) : WorkloadQuery :=
  mkQuery false false uid zeroSourceRef "" None "" "" "" "" "".

(** The facts of the workload in the snapshot, then in its own candidates; a listed
    resource matched the query, so it has workload facts *)
Definition scopeWorkloads (index : addressScopeIndex) (uid : string) (snapshot : ResourceSet)
    : list WorkloadResourceFacts :=
  omap (λ r, rf_Workload (Facts r)) (ListWorkloads snapshot AddressType (uidQuery uid))
  ++ base.filter (λ w, wf_WorkloadUID w = uid)
       (omap (λ i, rf_Workload (id_Facts i))
          (default [] (asi_byWorkload index !! uid) ≫= ca_Identities)).

Definition selectScope (index : addressScopeIndex) (uid : string) (snapshot : ResourceSet)
    : candidateIndex :=
  foldl (addDependencies index)
    (selectAll (selectAll ∅ (asi_unscoped index)) (default [] (asi_byWorkload index !! uid)))
    (scopeWorkloads index uid snapshot).

(** Sandbox candidates become a full selection of Sandboxes. *)
Definition foldSandboxes (u : Update) : Update :=
  if decide (length (candidates_of u SandboxType) = 0) then u else
  let candidates := delete SandboxType (u_candidates u) in
  if FullFor u SandboxType
  then mkUpdate (u_version u) candidates (u_affectedTypes u) (u_full u) (u_fullTypes u) (u_addressScopes u)
  else mkUpdate (u_version u) candidates (u_affectedTypes u) true ({[SandboxType]} ∪ u_fullTypes u)
         (u_addressScopes u).

Definition scopeAddresses (u : Update) (selected : candidateIndex) (scoped : list Candidate) : Update :=
  let scoped := sortCandidates scoped in
  mkUpdate (u_version u) (<[AddressType := scoped]> (u_candidates u))
    (if decide (size selected = 0) then u_affectedTypes u ∖ {[AddressType; WorkloadType]}
     else u_affectedTypes u)
    (u_full u) (u_fullTypes u)
    (if decide (size selected = 0) then None else Some scoped).

(** [None] is a run-time panic. *)
Definition ForWorkload (u : Update) (uid : string) (snapshot : ResourceSet) : option Update :=
  let u := foldSandboxes u in
  if bool_decide (length (candidates_of u AddressType) = 0) || FullFor u AddressType then Some u else
  match indexAddressScopes u with
  | None => None
  | Some index =>
      let selected := selectScope index uid snapshot in
      if decide (size selected = 0 ∧ size (u_affectedTypes u) = 2)
      then Some (mkUpdate (u_version u) ∅ ∅ (u_full u) (u_fullTypes u) None)
      else match mapM (λ c, scopeEvidence index c uid) (map_to_list selected).*2 with
           | None => None
           | Some scoped => Some (scopeAddresses u selected scoped)
           end
  end.
