(* ===== verification/ScopedNotices.v ===== *)
(** * ScopedNotices: a narrowed notice keeps what concerns its workload (scoped.go)

    The index of the Address candidates answers the questions [ForWorkload] asks of it,
    the run never panics, and the notice it returns is well formed and holds exactly the
    candidates that concern the workload, with the evidence of that workload only. *)

From S2P Require Import Prelude Identity Resource ResourceIndex ResourceSet SetInvariant SetQueries Snapshot Update Notices Scoped.

(** ** What a candidate mentions *)

Lemma elem_of_foldl_sets {A} (f : A → gset string) l (acc : gset string) x :
  x ∈ foldl (λ s i, f i ∪ s) acc l ↔ x ∈ acc ∨ ∃ i, i ∈ l ∧ x ∈ f i.
Proof.
  revert acc. induction l as [|i l IH]; intros acc; cbn [foldl].
  - split; [by left|]. intros [?|(i & Hi & _)]; [done|by apply elem_of_nil in Hi].
  - rewrite IH, elem_of_union. setoid_rewrite elem_of_cons. naive_solver.
Qed.

(** The workloads a candidate belongs to or was shown to *)
Definition mentions_workload (c : Candidate) (uid : string) : Prop :=
  ∃ i, i ∈ ca_Identities c
    ∧ ((∃ f, rf_Workload (id_Facts i) = Some f ∧ wf_WorkloadUID f = uid)
       ∨ ∃ w, w ∈ id_Workloads i ∧ wi_UID w = uid).

Definition mentions_service (c : Candidate) (key : string) : Prop :=
  ∃ i f, i ∈ ca_Identities c ∧ rf_Service (id_Facts i) = Some f ∧ ServiceKey f = key.

Definition mentions_gateway (c : Candidate) (key : string) : Prop :=
  ∃ i, i ∈ ca_Identities c ∧ GatewayOwner (id_Facts i) ≠ "" ∧ GatewayOwner (id_Facts i) = key.

Lemma elem_of_workloadKeys c uid : uid ∈ workloadKeys c ↔ mentions_workload c uid.
Proof.
  unfold workloadKeys, mentions_workload. rewrite elem_of_foldl_sets. split.
  - intros [Hin|(i & Hi & Hin)]; [by apply not_elem_of_empty in Hin|]. exists i. split; [done|].
    apply elem_of_union in Hin as [Hin|Hin].
    + left. destruct (rf_Workload _) as [f|]; [|by apply not_elem_of_empty in Hin].
      apply elem_of_singleton in Hin. eauto.
    + right. apply elem_of_map in Hin as (w & -> & Hw). eauto.
  - intros (i & Hi & Hin). right. exists i. split; [done|]. apply elem_of_union.
    destruct Hin as [(f & -> & <-)|(w & Hw & <-)]; [left; by apply elem_of_singleton|].
    right. apply elem_of_map. eauto.
Qed.

Lemma elem_of_serviceKeys c key : key ∈ serviceKeys c ↔ mentions_service c key.
Proof.
  unfold serviceKeys, mentions_service. rewrite elem_of_foldl_sets. split.
  - intros [Hin|(i & Hi & Hin)]; [by apply not_elem_of_empty in Hin|].
    destruct (rf_Service _) as [f|] eqn:Hf; [|by apply not_elem_of_empty in Hin].
    apply elem_of_singleton in Hin. exists i, f. done.
  - intros (i & f & Hi & Hf & <-). right. exists i. rewrite Hf. by rewrite elem_of_singleton.
Qed.

Lemma elem_of_gatewayKeys c key : key ∈ gatewayKeys c ↔ mentions_gateway c key.
Proof.
  unfold gatewayKeys, mentions_gateway. rewrite elem_of_foldl_sets. split.
  - intros [Hin|(i & Hi & Hin)]; [by apply not_elem_of_empty in Hin|].
    case_decide; [by apply not_elem_of_empty in Hin|]. apply elem_of_singleton in Hin. exists i. done.
  - intros (i & Hi & Hne & <-). right. exists i. rewrite decide_False by done. by rewrite elem_of_singleton.
Qed.

(** ** The index *)

Lemma appendAll_lookup (m : candidatesByKey) keys c k :
  default [] (appendAll m keys c !! k)
  = default [] (m !! k) ++ (if decide (k ∈ keys) then [c] else []).
Proof.
  unfold appendAll. rewrite (decide_ext _ (k ∈ elements keys)) by (by rewrite elem_of_elements).
  pose proof (NoDup_elements keys) as Hnd. revert m Hnd.
  induction (elements keys) as [|x l IH]; intros m Hnd; cbn [foldl].
  { rewrite decide_False by apply not_elem_of_nil. by rewrite app_nil_r. }
  apply NoDup_cons in Hnd as [Hx Hnd]. rewrite IH by done. unfold appendCandidate.
  destruct (decide (k = x)) as [->|Hne].
  - rewrite lookup_insert_eq, (decide_False (P := x ∈ l)) by done.
    rewrite decide_True by left. simpl. by rewrite app_nil_r.
  - rewrite lookup_insert_ne by done. f_equal. apply decide_ext. rewrite elem_of_cons. naive_solver.
Qed.

(** What the index holds of a list of candidates *)
Record index_spec (cands : list Candidate) (index : addressScopeIndex) : Prop := mkIndexSpec {
  spec_workload k c : c ∈ default [] (asi_byWorkload index !! k) ↔ c ∈ cands ∧ mentions_workload c k;
  spec_service k c : c ∈ default [] (asi_byService index !! k) ↔
    c ∈ cands ∧ ca_DependencyOnly c = false ∧ mentions_service c k;
  spec_gateway k c : c ∈ default [] (asi_byGateway index !! k) ↔
    c ∈ cands ∧ ca_DependencyOnly c = false ∧ mentions_gateway c k;
  spec_unscoped c : c ∈ asi_unscoped index ↔ c ∈ cands ∧ ca_Identities c = [];
  spec_evidence c i : c ∈ cands → i ∈ ca_Identities c → 1 < size (id_Workloads i) →
    asi_workloads index !! ca_Key c = Some (splitByUID <$> ca_Identities c)
}.

Lemma elem_of_appendAll (m : candidatesByKey) keys c k d :
  d ∈ default [] (appendAll m keys c !! k) ↔ d ∈ default [] (m !! k) ∨ (d = c ∧ k ∈ keys).
Proof.
  rewrite appendAll_lookup, elem_of_app. case_decide.
  - rewrite list_elem_of_singleton. tauto.
  - rewrite elem_of_nil. tauto.
Qed.

Lemma mentions_nil c : ca_Identities c = [] →
  (∀ k, ¬ mentions_workload c k) ∧ (∀ k, ¬ mentions_service c k) ∧ (∀ k, ¬ mentions_gateway c k).
Proof.
  intros E. split_and!; intros k.
  - intros (i & Hi & _). rewrite E in Hi. by apply elem_of_nil in Hi.
  - intros (i & f & Hi & _). rewrite E in Hi. by apply elem_of_nil in Hi.
  - intros (i & Hi & _). rewrite E in Hi. by apply elem_of_nil in Hi.
Qed.

Lemma indexEvidence_lookup m c k :
  indexEvidence m c !! k
  = if decide (k = ca_Key c ∧ Exists (λ i, 1 < size (id_Workloads i)) (ca_Identities c))
    then Some (splitByUID <$> ca_Identities c) else m !! k.
Proof.
  unfold indexEvidence.
  assert (existsb (λ i, bool_decide (1 < size (id_Workloads i))) (ca_Identities c) = true
    ↔ Exists (λ i, 1 < size (id_Workloads i)) (ca_Identities c)) as Hex.
  { rewrite existsb_exists, Exists_exists. setoid_rewrite <-list_elem_of_In.
    by setoid_rewrite bool_decide_eq_true. }
  destruct (existsb _ _).
  - destruct (decide (k = ca_Key c)) as [->|Hne].
    + rewrite lookup_insert_eq, decide_True; [done|]. split; [done|]. by apply Hex.
    + rewrite lookup_insert_ne by done. by rewrite decide_False by tauto.
  - rewrite decide_False; [done|]. intros [_ Hx]. by apply Hex in Hx.
Qed.

Lemma elem_of_snoc {A} (l : list A) (c d : A) (P : A → Prop) :
  d ∈ l ++ [c] ∧ P d ↔ (d ∈ l ∧ P d) ∨ (d = c ∧ P c).
Proof. rewrite elem_of_app, list_elem_of_singleton. naive_solver. Qed.

Lemma indexCandidate_spec cands index c :
  NoDup (ca_Key <$> cands ++ [c]) → index_spec cands index →
  index_spec (cands ++ [c]) (indexCandidate index c).
Proof.
  intros Hnd [Hw Hs Hg Hu He]. rewrite fmap_app, NoDup_app in Hnd. destruct Hnd as (_ & Hnd & _).
  assert (∀ d i, d ∈ cands ++ [c] → i ∈ ca_Identities d → 1 < size (id_Workloads i) →
    indexEvidence (asi_workloads index) c !! ca_Key d = Some (splitByUID <$> ca_Identities d)) as He'.
  { intros d i Hd Hi Hlt. rewrite indexEvidence_lookup. apply elem_of_app in Hd as [Hd|Hd].
    - rewrite decide_False; [by eapply He|]. intros [Hk _]. apply (Hnd (ca_Key d)).
      + apply list_elem_of_fmap. eauto.
      + rewrite Hk. left.
    - apply list_elem_of_singleton in Hd as ->. rewrite decide_True; [done|]. split; [done|].
      apply Exists_exists. eauto. }
  unfold indexCandidate. case_decide as Hz; [apply length_zero_iff_nil in Hz|];
    constructor; cbn [asi_byWorkload asi_byService asi_byGateway asi_unscoped asi_workloads].
  - intros k d. rewrite (elem_of_snoc _ _ _ (λ d, mentions_workload d k)), Hw. pose proof (proj1 (mentions_nil c Hz) k). tauto.
  - intros k d. rewrite (elem_of_snoc _ _ _ (λ d, _ ∧ mentions_service d k)), Hs.
    pose proof (proj1 (proj2 (mentions_nil c Hz)) k). tauto.
  - intros k d. rewrite (elem_of_snoc _ _ _ (λ d, _ ∧ mentions_gateway d k)), Hg.
    pose proof (proj2 (proj2 (mentions_nil c Hz)) k). tauto.
  - intros d. rewrite (elem_of_snoc _ _ _ (λ d, ca_Identities d = [])), elem_of_app, Hu,
      list_elem_of_singleton. tauto.
  - intros d i Hd Hi Hlt. apply elem_of_app in Hd as [Hd|Hd]; [by eapply He|].
    apply list_elem_of_singleton in Hd as ->. rewrite Hz in Hi. by apply elem_of_nil in Hi.
  - intros k d. rewrite (elem_of_snoc _ _ _ (λ d, mentions_workload d k)), elem_of_appendAll, Hw, elem_of_workloadKeys. naive_solver.
  - intros k d. rewrite (elem_of_snoc _ _ _ (λ d, _ ∧ mentions_service d k)).
    destruct (ca_DependencyOnly c) eqn:Hc; rewrite ?elem_of_appendAll, Hs, ?elem_of_serviceKeys;
      intuition congruence.
  - intros k d. rewrite (elem_of_snoc _ _ _ (λ d, _ ∧ mentions_gateway d k)).
    destruct (ca_DependencyOnly c) eqn:Hc; rewrite ?elem_of_appendAll, Hg, ?elem_of_gatewayKeys;
      intuition congruence.
  - intros d. rewrite (elem_of_snoc _ _ _ (λ d, ca_Identities d = [])), Hu.
    assert (ca_Identities c ≠ []) by (intros E; apply Hz; by rewrite E). tauto.
  - done.
Qed.

Lemma index_spec_empty : index_spec [] emptyScopeIndex.
Proof.
  constructor; cbn [asi_byWorkload asi_byService asi_byGateway asi_unscoped emptyScopeIndex];
    intros; rewrite ?lookup_empty; cbn [default from_option id]; rewrite ?elem_of_nil; try tauto.
  by apply elem_of_nil in H.
Qed.

Lemma foldl_indexCandidate_spec cands l index :
  NoDup (ca_Key <$> l ++ cands) → index_spec l index →
  index_spec (l ++ cands) (foldl indexCandidate index cands).
Proof.
  revert l index. induction cands as [|c cands IH]; intros l index Hnd Hi; cbn [foldl].
  { by rewrite app_nil_r. }
  rewrite cons_middle, app_assoc in *. apply IH; [done|]. apply indexCandidate_spec; [|done].
  rewrite fmap_app in Hnd. by apply NoDup_app in Hnd as [? _].
Qed.

Lemma ordered_keys t l : ordered t l → NoDup (ca_Key <$> l).
Proof.
  intros [Hs _]. apply (NoDup_fmap_1 Name). rewrite <-list_fmap_compose.
  change (NoDup (ca_name <$> l)). by apply ssorted_NoDup.
Qed.

Lemma indexAddressScopes_spec u :
  update_ok u → candidates_of u AddressType ≠ [] →
  ∃ index, indexAddressScopes u = Some index ∧ index_spec (candidates_of u AddressType) index.
Proof.
  intros (Ho & _ & _ & Hs) Hne. unfold indexAddressScopes. rewrite Hs by done.
  eexists. split; [done|]. apply (foldl_indexCandidate_spec _ []); [|apply index_spec_empty].
  exact (ordered_keys _ _ (Ho AddressType)).
Qed.

(** ** The evidence of one workload *)

Definition narrowIdentity (uid : string) (i : Identity) : Identity :=
  mkIdentity (id_Name i) (id_Facts i) (base.filter (λ w, wi_UID w = uid) (id_Workloads i)).

Definition narrow (uid : string) (c : Candidate) : Candidate :=
  mkCandidate (ca_Key c) (narrowIdentity uid <$> ca_Identities c) (ca_DependencyOnly c).

Lemma splitByUID_fold l (m : workloadsByUID) uid :
  default ∅ (foldl (λ (m : workloadsByUID) w, <[wi_UID w := {[w]} ∪ default ∅ (m !! wi_UID w)]> m) m l
    !! uid)
  = list_to_set (base.filter (λ w, wi_UID w = uid) l) ∪ default ∅ (m !! uid).
Proof.
  revert m. induction l as [|w l IH]; intros m; cbn [foldl]; [symmetry; exact (left_id_L ∅ (∪) _)|].
  rewrite IH, filter_cons. case_decide as Hw.
  - subst. rewrite lookup_insert_eq, list_to_set_cons. cbn [default from_option id].
    apply set_eq. intros x. rewrite !elem_of_union. tauto.
  - by rewrite lookup_insert_ne.
Qed.

Lemma splitByUID_lookup i uid :
  1 < size (id_Workloads i) →
  default ∅ (splitByUID i !! uid) = base.filter (λ w, wi_UID w = uid) (id_Workloads i).
Proof.
  intros Hlt. unfold splitByUID. rewrite decide_True by done. rewrite splitByUID_fold, lookup_empty.
  apply set_eq. intros w. cbn [default from_option id].
  rewrite elem_of_union, elem_of_list_to_set, list_elem_of_filter, elem_of_elements, elem_of_filter.
  rewrite elem_of_empty. tauto.
Qed.

Lemma narrowIdentity_same uid i :
  size (base.filter (λ w, wi_UID w = uid) (id_Workloads i)) = size (id_Workloads i) →
  narrowIdentity uid i = i.
Proof.
  intros Hs. unfold narrowIdentity.
  assert (base.filter (λ w, wi_UID w = uid) (id_Workloads i) = id_Workloads i) as ->.
  { apply set_subseteq_size_eq; [|lia]. intros w [_ Hw]%elem_of_filter. done. }
  by destruct i.
Qed.

Lemma scopeIdentity_spec index key uid n i :
  (1 < size (id_Workloads i) → ∃ l, asi_workloads index !! key = Some l ∧ l !! n = Some (splitByUID i)) →
  scopeIdentity index key uid n i = Some (narrowIdentity uid i).
Proof.
  intros Hl. unfold scopeIdentity. case_decide as H0.
  { rewrite narrowIdentity_same; [done|]. apply size_empty_iff, leibniz_equiv in H0. rewrite H0.
    reflexivity. }
  set (scoped := base.filter (λ w, wi_UID w = uid) (id_Workloads i)).
  assert (∀ o, o = Some scoped →
    match o with
    | None => None
    | Some scoped => if decide (size scoped = size (id_Workloads i)) then Some i
        else Some (mkIdentity (id_Name i) (id_Facts i) scoped)
    end = Some (narrowIdentity uid i)) as Hm.
  { intros ? ->. case_decide; [|done]. by rewrite narrowIdentity_same. }
  apply Hm. case_decide as H1.
  - apply size_1_elem_of in H1 as (w & Hw%leibniz_equiv). subst scoped. rewrite Hw. f_equal.
    rewrite elements_singleton. cbn [existsb]. rewrite orb_false_r.
    apply set_eq. intros x. rewrite elem_of_filter, elem_of_singleton.
    destruct (bool_decide_reflect (wi_UID w = uid)).
    + rewrite elem_of_singleton. naive_solver.
    + rewrite elem_of_empty. naive_solver.
  - destruct Hl as (l & -> & ->); [lia|]. by rewrite splitByUID_lookup by lia.
Qed.

Lemma scopeIdentities_spec index key uid identities n :
  (∀ k i, identities !! k = Some i → 1 < size (id_Workloads i) →
     ∃ l, asi_workloads index !! key = Some l ∧ l !! (n + k) = Some (splitByUID i)) →
  scopeIdentities index key uid n identities = Some (narrowIdentity uid <$> identities).
Proof.
  revert n. induction identities as [|i l IH]; intros n Hl; [done|]. cbn [scopeIdentities].
  rewrite scopeIdentity_spec, IH; [done| |].
  - intros k j Hk Hlt. destruct (Hl (S k) j Hk Hlt) as (l' & ? & Hn). exists l'.
    by rewrite Nat.add_succ_r in Hn.
  - intros Hlt. destruct (Hl 0 i eq_refl Hlt) as (l' & ? & Hn). exists l'. by rewrite Nat.add_0_r in Hn.
Qed.

Lemma scopeEvidence_spec cands index c uid :
  index_spec cands index → c ∈ cands → scopeEvidence index c uid = Some (narrow uid c).
Proof.
  intros Hi Hc. unfold scopeEvidence. rewrite scopeIdentities_spec; [done|].
  intros k i Hk Hlt. eexists. split.
  - eapply (spec_evidence _ _ Hi); [done| |done]. by eapply list_elem_of_lookup_2.
  - cbn [Nat.add]. by rewrite list_lookup_fmap, Hk.
Qed.

(** ** What concerns a workload *)

Section scope.
Context (cands : list Candidate) (index : addressScopeIndex) (uid : string) (snapshot : ResourceSet).
Context (Hindex : index_spec cands index) (Hkeys : NoDup (ca_Key <$> cands)).

(** The facts of the workload, published or about to be withdrawn *)
Definition scope_facts (w : WorkloadResourceFacts) : Prop :=
  wf_WorkloadUID w = uid ∧
  ((∃ r, contains snapshot AddressType r ∧ rf_Workload (Facts r) = Some w)
   ∨ ∃ c i, c ∈ cands ∧ i ∈ ca_Identities c ∧ rf_Workload (id_Facts i) = Some w).

Definition depends (w : WorkloadResourceFacts) (c : Candidate) : Prop :=
  ca_DependencyOnly c = false
  ∧ ((∃ k, k ∈ wf_ServiceKeys w ∧ mentions_service c k)
     ∨ ∃ k, k ∈ wf_GatewayReferences w ∧ mentions_gateway c k).

Definition relevant (c : Candidate) : Prop :=
  ca_Identities c = [] ∨ mentions_workload c uid ∨ ∃ w, scope_facts w ∧ depends w c.

(** A selection by key holds the candidates of [cands] with a property. *)
Definition selects (m : candidateIndex) (P : Candidate → Prop) : Prop :=
  ∀ k c, m !! k = Some c ↔ k = ca_Key c ∧ c ∈ cands ∧ P c.

Lemma same_key c d : c ∈ cands → d ∈ cands → ca_Key c = ca_Key d → c = d.
Proof.
  intros Hc Hd Hk. apply list_elem_of_lookup_1 in Hc as (i & Hi), Hd as (j & Hj).
  assert (i = j) as ->; [|congruence].
  apply (NoDup_lookup _ _ _ (ca_Key c) Hkeys); rewrite list_lookup_fmap; [by rewrite Hi|].
  by rewrite Hj, Hk.
Qed.

Lemma selects_ext m P Q : (∀ c, c ∈ cands → P c ↔ Q c) → selects m P → selects m Q.
Proof. intros HPQ Hm k c. rewrite (Hm k c). specialize (HPQ c). tauto. Qed.

Lemma selects_insert m P c :
  c ∈ cands → selects m P → selects (<[ca_Key c := c]> m) (λ d, P d ∨ d = c).
Proof.
  intros Hc Hm k d. destruct (decide (k = ca_Key c)) as [->|Hne].
  - rewrite lookup_insert_eq. split; [intros [= <-]; tauto|].
    intros (Hk & Hd & _). by rewrite (same_key c d).
  - rewrite lookup_insert_ne, (Hm k d) by done. split; [tauto|]. intros (-> & Hd & [HP| ->]); tauto.
Qed.

Lemma selectAll_spec m P l :
  (∀ c, c ∈ l → c ∈ cands) → selects m P → selects (selectAll m l) (λ c, P c ∨ c ∈ l).
Proof.
  revert m P. induction l as [|c l IH]; intros m P Hl Hm; cbn [selectAll foldl].
  - eapply selects_ext; [|done]. intros d _. rewrite elem_of_nil. tauto.
  - eapply selects_ext; [|apply (IH _ (λ d, P d ∨ d = c))].
    + intros d _. cbn beta. rewrite elem_of_cons. tauto.
    + intros d Hd. apply Hl. by right.
    + apply selects_insert; [apply Hl; left|done].
Qed.

Lemma selectKeys_spec (table : candidatesByKey) (Q : string → Candidate → Prop) keys m P :
  (∀ k c, c ∈ default [] (table !! k) ↔ c ∈ cands ∧ Q k c) → selects m P →
  selects (foldl (λ m k, selectAll m (default [] (table !! k))) m keys)
    (λ c, P c ∨ ∃ k, k ∈ keys ∧ Q k c).
Proof.
  intros Ht. revert m P. induction keys as [|k keys IH]; intros m P Hm; cbn [foldl].
  - eapply selects_ext; [|done]. intros c _. setoid_rewrite elem_of_nil. naive_solver.
  - eapply selects_ext; [|apply (IH _ (λ c, P c ∨ c ∈ default [] (table !! k)))].
    + intros c Hc. cbn beta. rewrite Ht. setoid_rewrite elem_of_cons. naive_solver.
    + apply selectAll_spec; [|done]. intros c Hc. by apply Ht in Hc as [? _].
Qed.

Lemma addDependencies_spec m P w :
  selects m P → selects (addDependencies index m w) (λ c, P c ∨ depends w c).
Proof.
  intros Hm. unfold addDependencies.
  eapply selects_ext; [|eapply selectKeys_spec; [exact (spec_gateway _ _ Hindex)|];
    eapply selectKeys_spec; [exact (spec_service _ _ Hindex)|exact Hm]].
  intros c _. unfold depends. cbn beta. naive_solver.
Qed.

Lemma foldDependencies_spec l m P :
  selects m P →
  selects (foldl (addDependencies index) m l) (λ c, P c ∨ ∃ w, w ∈ l ∧ depends w c).
Proof.
  revert m P. induction l as [|w l IH]; intros m P Hm; cbn [foldl].
  - eapply selects_ext; [|done]. intros c _. setoid_rewrite elem_of_nil. naive_solver.
  - eapply selects_ext; [|apply IH, addDependencies_spec, Hm].
    intros c _. cbn beta. setoid_rewrite elem_of_cons. naive_solver.
Qed.

Lemma uidQuery_listed r :
  set_ok snapshot → blank uid = false →
  r ∈ ListWorkloads snapshot AddressType (uidQuery uid) ↔
  contains snapshot AddressType r ∧ ∃ w, rf_Workload (Facts r) = Some w ∧ wf_WorkloadUID w = uid.
Proof.
  intros Hs Hb. destruct (ListWorkloads_spec snapshot AddressType (uidQuery uid) Hs) as [-> _].
  assert (uid ≠ "") as Hne by (by intros ->).
  assert (queryValid (uidQuery uid) = true) as ->.
  { unfold queryValid, uidQuery. cbn. by rewrite Hb, andb_false_r. }
  assert (∀ o, Matches (uidQuery uid) o = true ↔ ∃ w, o = Some w ∧ wf_WorkloadUID w = uid) as Hm.
  { intros [w|]; [|by split; [|intros (? & ? & _)]]. unfold Matches, uidQuery. cbn.
    rewrite bool_decide_eq_true_2 by done.
    destruct (bool_decide_reflect (wf_WorkloadUID w ≠ uid)) as [H|H]; cbn; split; try done.
    - intros (? & [= <-] & ?). done.
    - intros _. exists w. split; [done|]. destruct (decide (wf_WorkloadUID w = uid)); done. }
  rewrite Hm. split; [tauto|]. intros [Hc Hw]. split_and!; [done| |done..].
  unfold query_keys, query_constraints, uidQuery. cbn. unfold factKey at 1. by rewrite decide_False.
Qed.

Lemma scopeWorkloads_spec w :
  set_ok snapshot → blank uid = false → w ∈ scopeWorkloads index uid snapshot ↔ scope_facts w.
Proof.
  intros Hs Hb. unfold scopeWorkloads, scope_facts.
  rewrite elem_of_app, list_elem_of_filter, !list_elem_of_omap.
  setoid_rewrite (uidQuery_listed _ Hs Hb). setoid_rewrite list_elem_of_bind.
  setoid_rewrite (spec_workload _ _ Hindex). split.
  - intros [(r & (Hc & w' & Hw & Hu) & Hw')|(Hu & i & (c & Hi & Hc & Hm) & Hw)].
    + assert (w' = w) as -> by congruence. eauto.
    + split; [done|]. right. eauto.
  - intros [Hu [(r & Hc & Hw)|(c & i & Hc & Hi & Hw)]]; [left; eauto 10|].
    right. split; [done|]. exists i. split; [|done]. exists c. split_and!; [done..|].
    exists i. eauto.
Qed.

Lemma selectScope_spec :
  set_ok snapshot → blank uid = false → selects (selectScope index uid snapshot) relevant.
Proof.
  intros Hs Hb. unfold selectScope. eapply selects_ext; [|apply foldDependencies_spec].
  2: apply selectAll_spec; [|apply (selectAll_spec ∅ (λ _, False))].
  - intros c Hc. cbn beta. rewrite (spec_unscoped _ _ Hindex), (spec_workload _ _ Hindex).
    setoid_rewrite (λ w, scopeWorkloads_spec w Hs Hb). unfold relevant. naive_solver.
  - intros c Hc. by apply (spec_workload _ _ Hindex) in Hc as [? _].
  - intros c Hc. by apply (spec_unscoped _ _ Hindex) in Hc as [? _].
  - intros k c. rewrite lookup_empty. naive_solver.
Qed.

End scope.

(** ** Sandbox candidates *)

Lemma candidates_of_foldSandboxes u t :
  candidates_of (foldSandboxes u) t = if decide (t = SandboxType) then [] else candidates_of u t.
Proof.
  unfold foldSandboxes. case_decide as Hz.
  { apply length_zero_iff_nil in Hz. case_decide; [by subst|done]. }
  assert (∀ v, u_candidates v = delete SandboxType (u_candidates u) →
    candidates_of v t = if decide (t = SandboxType) then [] else candidates_of u t) as Hv.
  { intros v E. unfold candidates_of. rewrite E. case_decide as Ht.
    - subst. by rewrite lookup_delete_eq.
    - by rewrite lookup_delete_ne. }
  destruct (FullFor u SandboxType); by apply Hv.
Qed.

Lemma foldSandboxes_fields u :
  u_version (foldSandboxes u) = u_version u ∧ u_affectedTypes (foldSandboxes u) = u_affectedTypes u
  ∧ u_addressScopes (foldSandboxes u) = u_addressScopes u.
Proof. unfold foldSandboxes. case_decide; [done|]. by destruct (FullFor _ _). Qed.

Lemma FullFor_foldSandboxes u t :
  update_ok u →
  FullFor (foldSandboxes u) t
  = FullFor u t || bool_decide (t = SandboxType ∧ candidates_of u SandboxType ≠ []).
Proof.
  intros (_ & _ & Hf & _). unfold foldSandboxes. case_decide as Hz.
  { apply length_zero_iff_nil in Hz. rewrite bool_decide_eq_false_2 by tauto. by rewrite orb_false_r. }
  assert (candidates_of u SandboxType ≠ []) as Hne by (intros E; by rewrite E in Hz).
  apply eq_true_iff_eq. rewrite orb_true_iff, bool_decide_eq_true.
  destruct (FullFor u SandboxType) eqn:Hs.
  - unfold FullFor at 1. cbn [u_full u_fullTypes]. fold (FullFor u t).
    split; [tauto|]. intros [?|[-> _]]; done.
  - apply not_true_iff_false in Hs. rewrite FullFor_spec in Hs. rewrite !FullFor_spec.
    cbn [u_full u_fullTypes]. destruct (u_full u); [|rewrite Hf by done]; set_solver.
Qed.

Lemma foldSandboxes_ok u : update_ok u → update_ok (foldSandboxes u).
Proof.
  intros (Ho & Ha & Hf & Hs). pose proof (foldSandboxes_fields u) as (_ & Ea & Es).
  assert (AddressType ≠ SandboxType) by done. split_and!.
  - intros t. rewrite candidates_of_foldSandboxes. case_decide; [apply ordered_nil|apply Ho].
  - intros t. rewrite candidates_of_foldSandboxes, Ea. case_decide; [done|apply Ha].
  - unfold foldSandboxes. case_decide; [done|]. by destruct (FullFor u SandboxType).
  - rewrite candidates_of_foldSandboxes, Es. rewrite decide_False by done. done.
Qed.

(** ** The narrowed notice *)

Lemma list_elem_of_nonempty {A} (l : list A) : l ≠ [] → ∃ x, x ∈ l.
Proof. destruct l as [|x l]; [done|]. exists x. left. Qed.

Lemma mapM_narrow cands index uid l :
  index_spec cands index → (∀ c, c ∈ l → c ∈ cands) →
  mapM (λ c, scopeEvidence index c uid) l = Some (narrow uid <$> l).
Proof.
  intros Hi. induction l as [|c l IH]; intros Hl; [done|]. cbn [mapM].
  rewrite (scopeEvidence_spec cands) by (done || (apply Hl; left)).
  rewrite IH; [done|]. intros d Hd. apply Hl. by right.
Qed.

Section narrowed.
Context (u : Update) (selected : candidateIndex) (uid : string) (P : Candidate → Prop).
Context (Hu : update_ok u) (Hw : candidates_of u WorkloadType = []).
Context (Hsel : selects (candidates_of u AddressType) selected P).

Let v : Update := scopeAddresses u selected (narrow uid <$> (map_to_list selected).*2).

Lemma elem_of_selected c :
  c ∈ (map_to_list selected).*2 ↔ c ∈ candidates_of u AddressType ∧ P c.
Proof.
  rewrite list_elem_of_fmap. split.
  - intros ([k d] & -> & Hin%elem_of_map_to_list). apply (Hsel k d) in Hin. tauto.
  - intros Hc. exists (ca_Key c, c). split; [done|]. apply elem_of_map_to_list, Hsel. tauto.
Qed.

Lemma candidates_of_scoped t :
  candidates_of v t
  = if decide (t = AddressType) then sortCandidates (narrow uid <$> (map_to_list selected).*2)
    else candidates_of u t.
Proof.
  unfold v, scopeAddresses, candidates_of. cbn [u_candidates]. case_decide.
  - subst. by rewrite lookup_insert_eq.
  - by rewrite lookup_insert_ne.
Qed.

Lemma elem_of_scoped d :
  d ∈ candidates_of v AddressType ↔ ∃ c, c ∈ candidates_of u AddressType ∧ P c ∧ d = narrow uid c.
Proof.
  rewrite candidates_of_scoped, decide_True by done. unfold sortCandidates.
  rewrite elem_of_sort_on, list_elem_of_fmap. setoid_rewrite elem_of_selected. naive_solver.
Qed.

Lemma scoped_ordered : ordered AddressType (candidates_of v AddressType).
Proof.
  destruct Hu as (Ho & _). specialize (Ho AddressType) as [_ Ht]. split.
  - rewrite candidates_of_scoped, decide_True by done. apply sort_on_ssorted.
    rewrite <-!list_fmap_compose. apply NoDup_fmap_2_strong; [|apply NoDup_map_to_list].
    intros [k c] [k' c'] Hk%elem_of_map_to_list Hk'%elem_of_map_to_list. cbn. intros Hn.
    pose proof (proj1 (Hsel _ _) Hk) as (-> & Hc & _). pose proof (proj1 (Hsel _ _) Hk') as (-> & Hc' & _).
    assert (ca_Key c = ca_Key c') as E.
    { apply (ordered_same_name AddressType); auto. }
    rewrite <-E in *. congruence.
  - intros d (c & Hc & _ & ->)%elem_of_scoped. cbn. auto.
Qed.

Lemma selected_empty : size selected = 0 ↔ candidates_of v AddressType = [].
Proof.
  rewrite map_size_empty_iff. split.
  - intros E. rewrite candidates_of_scoped, decide_True by done. by rewrite E.
  - intros E. apply map_empty. intros k. destruct (selected !! k) as [c|] eqn:Hk; [|done].
    apply (Hsel k c) in Hk as (_ & Hc & HP).
    assert (narrow uid c ∈ candidates_of v AddressType) as Hn by (apply elem_of_scoped; eauto).
    rewrite E in Hn. by apply elem_of_nil in Hn.
Qed.

Lemma affectedTypes_scoped t :
  t ∈ u_affectedTypes v ↔
  t ∈ u_affectedTypes u ∧ (candidates_of v AddressType = [] → t ≠ AddressType ∧ t ≠ WorkloadType).
Proof.
  rewrite <-selected_empty. unfold v, scopeAddresses. cbn [u_affectedTypes].
  destruct (decide (size selected = 0)); set_solver.
Qed.

Lemma scoped_ok : update_ok v.
Proof.
  pose proof scoped_ordered as Hord. pose proof affectedTypes_scoped as Hat.
  pose proof selected_empty as Hse. pose proof candidates_of_scoped as Hco.
  destruct Hu as (Ho & Ha & Hf & _). split_and!.
  - intros t. destruct (decide (t = AddressType)) as [->|Hne]; [done|].
    rewrite Hco, decide_False by done. apply Ho.
  - intros t Hne. rewrite !Hat. destruct (decide (t = AddressType)) as [->|Ht].
    + destruct (list_elem_of_nonempty _ Hne) as (d & (c & Hc & _)%elem_of_scoped).
      destruct (Ha AddressType) as [? Hwt]; [by intros E; rewrite E in Hc; apply elem_of_nil in Hc|].
      specialize (Hwt eq_refl). tauto.
    + rewrite Hco, decide_False in Hne by done.
      assert (t ≠ WorkloadType) by (by intros ->).
      destruct (Ha t Hne). tauto.
  - exact Hf.
  - intros Hne. rewrite Hco, decide_True by done. unfold v, scopeAddresses. cbn [u_addressScopes].
    rewrite decide_False; [done|]. tauto.
Qed.

End narrowed.

(** What [ForWorkload] makes of a notice *)
Record scoped_notice (u : Update) (uid : string) (snapshot : ResourceSet) (v : Update) : Prop :=
  mkScopedNotice {
  sn_ok : update_ok v;
  sn_version : u_version v = u_version u;
  sn_full t : FullFor v t
    = FullFor u t || bool_decide (t = SandboxType ∧ candidates_of u SandboxType ≠ []);
  sn_sandboxes : candidates_of v SandboxType = [];
  sn_other t : t ≠ SandboxType → t ≠ AddressType → candidates_of v t = candidates_of u t;
  sn_affects t : t ≠ AddressType → t ≠ WorkloadType → Affects v t = Affects u t;
  sn_all : FullFor u AddressType = true → candidates_of v AddressType = candidates_of u AddressType;
  sn_addresses d : FullFor u AddressType = false →
    d ∈ candidates_of v AddressType ↔
    ∃ c, c ∈ candidates_of u AddressType
      ∧ relevant (candidates_of u AddressType) uid snapshot c ∧ d = narrow uid c
}.

Lemma Affects_spec u t : Affects u t = true ↔ FullFor u t = true ∨ t ∈ u_affectedTypes u.
Proof. unfold Affects. by rewrite orb_true_iff, bool_decide_eq_true. Qed.

Lemma Affects_foldSandboxes u t : update_ok u → Affects (foldSandboxes u) t = Affects u t.
Proof.
  intros Hu. apply eq_true_iff_eq. rewrite !Affects_spec, FullFor_foldSandboxes by done.
  destruct (foldSandboxes_fields u) as (_ & -> & _).
  rewrite orb_true_iff, bool_decide_eq_true. destruct Hu as (_ & Ha & _).
  split; [|tauto]. intros [[?|[-> Hne]]|?]; [tauto| |tauto]. right. by apply Ha.
Qed.

(** The types an Address-only notice announces *)
Lemma only_addresses u t :
  update_ok u → candidates_of u AddressType ≠ [] → size (u_affectedTypes u) = 2 →
  t ≠ AddressType → t ≠ WorkloadType → t ∉ u_affectedTypes u.
Proof.
  intros (_ & Ha & _) Hne Hs Ht1 Ht2. destruct (Ha _ Hne) as [Hin Hwt]. specialize (Hwt eq_refl).
  assert (u_affectedTypes u = {[AddressType; WorkloadType]}) as ->; [|set_solver].
  symmetry. apply set_subseteq_size_eq; [set_solver|].
  rewrite size_union, !size_singleton by set_solver. lia.
Qed.

Section forWorkload.
Context (u : Update) (uid : string) (snapshot : ResourceSet).
Context (Hu : update_ok u) (Hw : candidates_of u WorkloadType = []).
Context (Hs : set_ok snapshot) (Hb : blank uid = false).

Local Abbreviation folded := (foldSandboxes u).
Local Abbreviation Relevant := (relevant (candidates_of u AddressType) uid snapshot).

(** [v] differs from the folded notice by its Address candidates only. *)
Lemma scoped_from_folded v :
  update_ok v → u_version v = u_version u → (∀ t, FullFor v t = FullFor folded t) →
  (∀ t, t ≠ AddressType → candidates_of v t = candidates_of folded t) →
  (∀ t, t ≠ AddressType → t ≠ WorkloadType → (t ∈ u_affectedTypes v ↔ t ∈ u_affectedTypes folded)) →
  (FullFor u AddressType = true → candidates_of v AddressType = candidates_of u AddressType) →
  (∀ d, FullFor u AddressType = false → d ∈ candidates_of v AddressType ↔
     ∃ c, c ∈ candidates_of u AddressType ∧ Relevant c ∧ d = narrow uid c) →
  scoped_notice u uid snapshot v.
Proof.
  intros Hok Hver Hfull Hother Haff Hall Haddr. constructor; [done|done| | | | |done|done].
  - intros t. by rewrite Hfull, FullFor_foldSandboxes.
  - rewrite Hother by done. rewrite candidates_of_foldSandboxes. by rewrite decide_True.
  - intros t H1 H2. rewrite Hother, candidates_of_foldSandboxes by done. by rewrite decide_False.
  - intros t H1 H2. rewrite <-(Affects_foldSandboxes u) by done. apply eq_true_iff_eq.
    rewrite !Affects_spec, Hfull, Haff by done. done.
Qed.

Lemma folded_addresses : candidates_of folded AddressType = candidates_of u AddressType.
Proof. rewrite candidates_of_foldSandboxes. by rewrite decide_False. Qed.

Lemma folded_full : FullFor folded AddressType = FullFor u AddressType.
Proof.
  rewrite FullFor_foldSandboxes by done. rewrite bool_decide_eq_false_2; [apply orb_false_r|].
  by intros [? _].
Qed.

Lemma forWorkload_indexed :
  candidates_of u AddressType ≠ [] → FullFor u AddressType = false →
  ∃ index selected, indexAddressScopes folded = Some index
    ∧ selectScope index uid snapshot = selected
    ∧ selects (candidates_of u AddressType) selected Relevant
    ∧ mapM (λ c, scopeEvidence index c uid) (map_to_list selected).*2
      = Some (narrow uid <$> (map_to_list selected).*2).
Proof.
  intros Hne Hf. destruct (indexAddressScopes_spec folded) as (index & Hi & Hsp).
  { by apply foldSandboxes_ok. }
  { by rewrite folded_addresses. }
  rewrite folded_addresses in Hsp.
  assert (NoDup (ca_Key <$> candidates_of u AddressType)) as Hnd
    by exact (ordered_keys _ _ (proj1 Hu AddressType)).
  pose proof (selectScope_spec _ _ uid snapshot Hsp Hnd Hs Hb) as Hsel.
  exists index, (selectScope index uid snapshot). split_and!; [done..|].
  apply (mapM_narrow _ _ _ _ Hsp). intros c (p & -> & Hp)%list_elem_of_fmap.
  destruct p as [k d]. apply elem_of_map_to_list, (Hsel k d) in Hp. tauto.
Qed.

(** The notice that is left when nothing of an Address-only notice is relevant *)
Lemma forWorkload_dropped selected :
  candidates_of u AddressType ≠ [] → FullFor u AddressType = false →
  selects (candidates_of u AddressType) selected Relevant →
  size selected = 0 → size (u_affectedTypes folded) = 2 →
  scoped_notice u uid snapshot
    (mkUpdate (u_version folded) ∅ ∅ (u_full folded) (u_fullTypes folded) None).
Proof.
  intros Hne Hf Hsel Hz H2. pose proof (foldSandboxes_ok u Hu) as Hok.
  assert (∀ t, t ≠ AddressType → t ≠ WorkloadType → t ∉ u_affectedTypes folded) as Haff.
  { intros t. apply only_addresses; [done| |done]. by rewrite folded_addresses. }
  apply scoped_from_folded; cbn [u_affectedTypes u_version].
  - destruct Hok as (_ & _ & Hfl & _). split_and!; [intros t; apply ordered_nil|done|exact Hfl|done].
  - by destruct (foldSandboxes_fields u) as (-> & _).
  - done.
  - intros t Ht. symmetry. change ((candidates_of folded t) = []).
    destruct (decide (t = WorkloadType)) as [->|Ht'].
    { rewrite candidates_of_foldSandboxes. by rewrite decide_False. }
    destruct (decide (candidates_of folded t = [])) as [?|Hc]; [done|].
    destruct Hok as (_ & Ha & _). destruct (Ha t Hc) as [Hin _]. by destruct (Haff t Ht Ht').
  - intros t Ht Ht'. split; [by intros ?%not_elem_of_empty|]. intros Hin. by destruct (Haff t Ht Ht').
  - by rewrite Hf.
  - intros d _. split; [by intros ?%elem_of_nil|]. intros (c & Hc & HP & _).
    apply map_size_empty_inv in Hz. exfalso.
    assert (selected !! ca_Key c = Some c) as Hl by (apply Hsel; tauto).
    by rewrite Hz, lookup_empty in Hl.
Qed.

Lemma forWorkload_spec :
  ∃ v, ForWorkload u uid snapshot = Some v ∧ scoped_notice u uid snapshot v.
Proof.
  pose proof (foldSandboxes_ok u Hu) as Hok. pose proof (foldSandboxes_fields u) as (Ev & Ea & Es).
  pose proof folded_addresses as Eaddr. pose proof folded_full as Efull.
  unfold ForWorkload. rewrite Eaddr, Efull.
  destruct (bool_decide (length (candidates_of u AddressType) = 0) || FullFor u AddressType) eqn:He.
  { eexists. split; [done|]. apply scoped_from_folded; try done. intros d Hf.
    rewrite Hf, orb_false_r in He. apply bool_decide_eq_true, length_zero_iff_nil in He.
    rewrite Eaddr, He. setoid_rewrite elem_of_nil. naive_solver. }
  apply orb_false_iff in He as [Hne%bool_decide_eq_false Hf].
  assert (candidates_of u AddressType ≠ []) as Hne' by (intros E; by rewrite E in Hne).
  destruct (forWorkload_indexed Hne' Hf) as (index & selected & -> & -> & Hsel & Hmap).
  rewrite Hmap. case_decide as Hd.
  { destruct Hd as [Hz H2]. eexists. split; [done|]. by apply (forWorkload_dropped selected). }
  assert (candidates_of folded WorkloadType = []) as Hfw
    by (rewrite candidates_of_foldSandboxes; by rewrite decide_False).
  rewrite <-Eaddr in Hsel at 1. eexists. split; [done|]. apply scoped_from_folded; try done.
  - by eapply scoped_ok.
  - intros t Ht. rewrite candidates_of_scoped. by rewrite decide_False.
  - intros t Ht Ht'. rewrite affectedTypes_scoped by done. tauto.
  - by rewrite Hf.
  - intros d _. rewrite elem_of_scoped by done. by rewrite Eaddr.
Qed.

End forWorkload.

(** ** The contract of ForWorkload *)

(** [Update.ForWorkload] never panics on a well-formed notice and returns a well-formed
    one that announces to the workload all that concerns it: unless the notice is already
    full for Addresses, its Address candidates are exactly the relevant ones (those without
    evidence, those that belong to the workload or were shown to it, and those of a service
    or gateway that its published or withdrawn facts name), each with the evidence of other
    workloads removed; Sandbox candidates become a full selection of Sandboxes, and every
    other type keeps its candidates and its announcement. *)
Theorem notice_for_workload (u : Update) (uid : string) (snapshot : ResourceSet) :
  update_ok u → candidates_of u WorkloadType = [] → set_ok snapshot → blank uid = false →
  ∃ v, ForWorkload u uid snapshot = Some v ∧ scoped_notice u uid snapshot v.
Proof. apply forWorkload_spec. Qed.

(** A service address shown to two workloads, and an address of a third one *)
Definition scopedExample : Update :=
  let shown uid := mkWorkloadIdentity uid zeroSourceRef (mkPrincipal "") "" in
  let service := mkKey AddressType "svc" in
  let other := mkKey AddressType "other" in
  indexedUpdate "v1"
    (<[service := mkCandidate service
         [mkIdentity "svc" noFacts ({[shown "w1"]} ∪ {[shown "w2"]})] false]>
    (<[other := mkCandidate other [mkIdentity "other" noFacts {[shown "w3"]}] false]> ∅)).

Lemma notice_for_workload_witness :
  update_ok scopedExample
  ∧ ∃ v, ForWorkload scopedExample "w1" emptySet = Some v
      ∧ scoped_notice scopedExample "w1" emptySet v
      ∧ (Name ∘ ca_Key) <$> candidates_of v AddressType = ["svc"].
Proof.
  assert (update_ok scopedExample) as Hok.
  { apply indexedUpdate_ok. intros k c. rewrite !lookup_insert_Some, lookup_empty. naive_solver. }
  split; [done|].
  destruct (notice_for_workload scopedExample "w1" emptySet Hok) as (v & Hv & Hs);
    [by vm_compute|apply emptySet_ok|done|].
  exists v. split_and!; [done|done|].
  assert ((λ v, (Name ∘ ca_Key) <$> candidates_of v AddressType)
    <$> ForWorkload scopedExample "w1" emptySet = Some ["svc"]) as Hn by (vm_compute; reflexivity).
  rewrite Hv in Hn. by injection Hn.
Defined.
