(* ===== verification/Controller.v ===== *)
(** * Controller: the publication queue (src/pkg/xds/controller.go)

    The controller folds the events of the compiled collection into one change per key,
    waits for a quiet period, and publishes either these changes or a complete snapshot.
    Here are its state, its operations and the select loop of [Run], over any publisher;
    the store implements the publisher's contract (StorePublisher). *)

From S2P Require Import Prelude Identity Resource ResourceIndex ResourceSet Update.

(** ** The publisher (ResourcePublisher) *)

(** What the controller needs of a publisher with states [S]: the hash it publishes for
    each key (deletions that only wait for their referrers count as carried out), the
    batches and snapshots it takes, and their effect. [None] is a run that does not end,
    an error text a refused batch. *)
Class Publisher (S : Type) := {
  published : S → ResourceKey → option string;
  publisher_ok : S → Prop;
  admissible : Resource → Prop;
  replaceable : S → ResourceSet → Prop;
  publishReplace : S → ResourceSet → option (result S);
  publishApply : S → list ResourceChange → option (S * option string)
}.

(** The contract *)
Class PublisherLaws (S : Type) `{Publisher S} : Prop := {
  admissible_valid r : admissible r → Hash r ≠ "" ∧ validateResource r = Ok tt;
  publishReplace_spec (s : S) n :
    publisher_ok s → replaceable s n →
    ∃ s', publishReplace s n = Some (Ok s') ∧ publisher_ok s'
      ∧ ∀ k, published s' k = Hash <$> Get n k;
  publishApply_spec (s : S) cs :
    publisher_ok s → NoDup (rc_Key <$> cs) →
    (∀ c, c ∈ cs → Hash <$> rc_Old c ≠ Hash <$> rc_New c) →
    (∀ c, c ∈ cs → Hash <$> rc_Old c = published s (rc_Key c)) →
    (∀ c r, c ∈ cs → rc_Old c = Some r ∨ rc_New c = Some r → admissible r ∧ Key r = rc_Key c) →
    ∃ s', publishApply s cs = Some (s', None) ∧ publisher_ok s'
      ∧ (∀ c, c ∈ cs → published s' (rc_Key c) = Hash <$> rc_New c)
      ∧ (∀ k, k ∉ rc_Key <$> cs → published s' k = published s k)
}.

(** ** Events of the compiled collection *)

(** [krt.Event], whose kind the controller does not read *)
Record Event := mkEvent { ev_Old : option Resource; ev_New : option Resource }.

Definition zeroKey : ResourceKey := mkKey "" "".

(** One event of [resourceChanges]; an event that moves a resource to another key is a
    deletion followed by an addition. *)
Definition eventChanges (e : Event) : list ResourceChange :=
  match ev_Old e, ev_New e with
  | Some old, Some new =>
      if decide (Key old = Key new) then [mkChange (Key new) (Some old) (Some new)]
      else [mkChange (Key old) (Some old) None; mkChange (Key new) None (Some new)]
  | Some old, None => [mkChange (Key old) (Some old) None]
  | None, Some new => [mkChange (Key new) None (Some new)]
  | None, None => [mkChange zeroKey None None]
  end.

Definition resourceChanges (events : list Event) : list ResourceChange := events ≫= eventChanges.

Definition resourcesEqual (left right : option Resource) : bool :=
  match left, right with
  | Some l, Some r => bool_decide (Hash l = Hash r)
  | None, None => true
  | _, _ => false
  end.

(** ** State and operations *)

(** [ct_triggers] is whether the capacity-one channel holds a token. *)
Record Controller := mkController {
  ct_pendingFull : bool;
  ct_changes : gmap ResourceKey ResourceChange;
  ct_triggers : bool
}.

(** The debounce periods, in nanoseconds; [NewController] refuses inconsistent ones. *)
Definition NewController (quiet maximum : Z) : result Controller :=
  check! negb (bool_decide (quiet < 0)%Z || bool_decide (maximum < quiet)%Z)
    else "invalid push debounce periods" in
  Ok (mkController false ∅ false).

Definition signal (c : Controller) : Controller :=
  mkController (ct_pendingFull c) (ct_changes c) true.

(** [Trigger] up to its [signal] *)
Definition triggerLocked (c : Controller) : Controller :=
  mkController true (ct_changes c) (ct_triggers c).

(** One change of [Enqueue] *)
Definition enqueueOne (pending : gmap ResourceKey ResourceChange) (change : ResourceChange)
    : gmap ResourceKey ResourceChange :=
  let old := match pending !! rc_Key change with
             | Some existing => rc_Old existing
             | None => rc_Old change
             end in
  if resourcesEqual old (rc_New change) then delete (rc_Key change) pending
  else <[rc_Key change := mkChange (rc_Key change) old (rc_New change)]> pending.

(** [Enqueue] up to its [signal] *)
Definition enqueueLocked (c : Controller) (changes : list ResourceChange) : Controller :=
  mkController (ct_pendingFull c) (foldl enqueueOne (ct_changes c) changes) (ct_triggers c).

Definition takePending (c : Controller) : bool * list ResourceChange * Controller :=
  (ct_pendingFull c, (map_to_list (ct_changes c)).*2, mkController false ∅ (ct_triggers c)).

(** ** The loop of Run *)

(** The local variables of [Run]: whether a publication is pending, whether the two timers
    run, and whether the loop has returned. *)
Record RunState := mkRun {
  run_pending : bool;
  run_quiet : bool;
  run_maximum : bool;
  run_done : bool
}.

(** [flush]: the outcome for the publisher, its state unchanged after an error *)
Definition flush {S} `{Publisher S} (run : RunState) (c : Controller) (s : S)
    (snapshot : result ResourceSet) : option (RunState * Controller * S * option string) :=
  if negb (run_pending run) then Some (run, c, s, None) else
  let run := mkRun false false false (run_done run) in
  let '(full, changes, c) := takePending c in
  if full then
    match snapshot with
    | Err e => Some (run, c, s, Some e)
    | Ok n =>
        match publishReplace s n with
        | Some (Ok s') => Some (run, c, s', None)
        | _ => None
        end
    end
  else
    match publishApply s changes with
    | Some (s', err) => Some (run, c, s', err)
    | None => None
    end.

(** A token is received: [markPending], and the timers unless the quiet period is zero. *)
Definition receiveTrigger (immediate : bool) (run : RunState) : RunState :=
  if immediate then mkRun true (run_quiet run) (run_maximum run) (run_done run)
  else mkRun true true true (run_done run).

Definition takeToken (c : Controller) : Controller :=
  mkController (ct_pendingFull c) (ct_changes c) false.

(** The context is done: an unread token still counts, then the last [flush]. *)
Definition drainTrigger (run : RunState) (c : Controller) : RunState :=
  mkRun (run_pending run || ct_triggers c) (run_quiet run) (run_maximum run) true.
