(* ===== verification/ControllerSystem.v ===== *)
(** * ControllerSystem: the controller between the compiled collection and the publisher

    The collection, the events it has handed out and not yet delivered, the controller,
    its loop and the publisher, as one transition system. No wake-up is lost, a
    publication never gets stuck, and once everything has settled the publisher holds
    exactly the collection, provided complete snapshots are taken when no event is under
    way. *)

From S2P Require Import Prelude Identity Resource ResourceIndex ResourceSet SetInvariant SetQueries SetDiff Update Controller.

(** [Compiler.Snapshot] lists the compiled collection. *)
Definition sourceSnapshot `{Codec} (source : gmap ResourceKey Resource) : result ResourceSet :=
  NewResourceSet (map_to_list source).*2.

Section system.
Context `{Codec} {S : Type} `{!Publisher S}.

Record System := mkSystem {
  sy_source : gmap ResourceKey Resource;
  sy_inflight : list Event;
  sy_controller : Controller;
  sy_signals : nat;
  sy_run : RunState;
  sy_store : S
}.

(** The collection after the changes of an event *)
Definition sourceAfter (source : gmap ResourceKey Resource) (cs : list ResourceChange)
    : gmap ResourceKey Resource :=
  foldl (λ (m : gmap ResourceKey Resource) c, partial_alter (λ _, rc_New c) (rc_Key c) m) source cs.

(** An event of the collection: it gives the values that are replaced, and new values are
    compiled resources under their own key. *)
Definition event_ok (source : gmap ResourceKey Resource) (e : Event) : Prop :=
  (is_Some (ev_Old e) ∨ is_Some (ev_New e))
  ∧ ∀ c, c ∈ eventChanges e →
      rc_Old c = source !! rc_Key c ∧ ∀ r, rc_New c = Some r → admissible r.

(** A complete publication, when [settled], waits for the events under way. *)
Definition full_allowed (settled : bool) (sys : System) : Prop :=
  ct_pendingFull (sy_controller sys) = true →
  (settled = true → sy_inflight sys = [])
  ∧ ∀ n, sourceSnapshot (sy_source sys) = Ok n → replaceable (sy_store sys) n.

Definition flushed (sys : System) (run : RunState) (c : Controller) (sys' : System) : Prop :=
  ∃ run' c' s' err,
    flush run c (sy_store sys) (sourceSnapshot (sy_source sys)) = Some (run', c', s', err)
    ∧ sys' = mkSystem (sy_source sys) (sy_inflight sys) c' (sy_signals sys) run' s'.

Inductive sys_step (settled immediate : bool) (sys : System) : System → Prop :=
  | sys_event e :
      event_ok (sy_source sys) e →
      sys_step settled immediate sys
        (mkSystem (sourceAfter (sy_source sys) (eventChanges e)) (sy_inflight sys ++ [e])
           (sy_controller sys) (sy_signals sys) (sy_run sys) (sy_store sys))
  | sys_deliver batch rest :
      sy_inflight sys = batch ++ rest → batch ≠ [] →
      sys_step settled immediate sys
        (mkSystem (sy_source sys) rest (enqueueLocked (sy_controller sys) (resourceChanges batch))
           (1 + sy_signals sys) (sy_run sys) (sy_store sys))
  | sys_trigger :
      sys_step settled immediate sys
        (mkSystem (sy_source sys) (sy_inflight sys) (triggerLocked (sy_controller sys))
           (1 + sy_signals sys) (sy_run sys) (sy_store sys))
  | sys_signal n :
      sy_signals sys = 1 + n →
      sys_step settled immediate sys
        (mkSystem (sy_source sys) (sy_inflight sys) (signal (sy_controller sys)) n
           (sy_run sys) (sy_store sys))
  | sys_debounce :
      run_done (sy_run sys) = false → immediate = false → ct_triggers (sy_controller sys) = true →
      sys_step settled immediate sys
        (mkSystem (sy_source sys) (sy_inflight sys) (takeToken (sy_controller sys)) (sy_signals sys)
           (receiveTrigger false (sy_run sys)) (sy_store sys))
  | sys_immediate sys' :
      run_done (sy_run sys) = false → immediate = true → ct_triggers (sy_controller sys) = true →
      full_allowed settled sys →
      flushed sys (receiveTrigger true (sy_run sys)) (takeToken (sy_controller sys)) sys' →
      sys_step settled immediate sys sys'
  | sys_timer sys' :
      run_done (sy_run sys) = false →
      run_quiet (sy_run sys) = true ∨ run_maximum (sy_run sys) = true →
      full_allowed settled sys →
      flushed sys (sy_run sys) (sy_controller sys) sys' →
      sys_step settled immediate sys sys'
  | sys_stop sys' :
      run_done (sy_run sys) = false → full_allowed settled sys →
      flushed sys (drainTrigger (sy_run sys) (sy_controller sys)) (takeToken (sy_controller sys)) sys' →
      sys_step settled immediate sys sys'.

(** [Run] starts with the handler registered, the existing state on its way, and a
    complete publication requested. *)
Definition initialEvents (source : gmap ResourceKey Resource) : list Event :=
  (λ r, mkEvent None (Some r)) <$> (map_to_list source).*2.

Definition initialSystem (source : gmap ResourceKey Resource) (s : S) : System :=
  mkSystem source (initialEvents source) (triggerLocked (mkController false ∅ false)) 1
    (mkRun false false false false) s.

Inductive sys_reach (settled immediate : bool) (start : System) : System → Prop :=
  | sys_start : sys_reach settled immediate start start
  | sys_next sys sys' :
      sys_reach settled immediate start sys → sys_step settled immediate sys sys' →
      sys_reach settled immediate start sys'.

(** ** Wake-ups *)

Definition work (c : Controller) : Prop := ct_pendingFull c = true ∨ ct_changes c ≠ ∅.

(** Work that waits is signalled, about to be signalled, or scheduled; a scheduled
    publication has both its timers running. *)
Record awake (immediate : bool) (sys : System) : Prop := mkAwake {
  awake_work : work (sy_controller sys) →
    ct_triggers (sy_controller sys) = true ∨ sy_signals sys ≠ 0
    ∨ run_pending (sy_run sys) = true ∨ run_done (sy_run sys) = true;
  awake_timers : run_pending (sy_run sys) = true →
    immediate = false ∧ run_quiet (sy_run sys) = true ∧ run_maximum (sy_run sys) = true;
  awake_idle : run_pending (sy_run sys) = false →
    run_quiet (sy_run sys) = false ∧ run_maximum (sy_run sys) = false
}.

Lemma flush_idle run c (s : S) n run' c' s' err :
  flush run c s n = Some (run', c', s', err) →
  run_pending run' = false ∧ run_done run' = run_done run ∧ ct_triggers c' = ct_triggers c
  ∧ (run_pending run = true → run_quiet run' = false ∧ run_maximum run' = false
     ∧ ct_pendingFull c' = false ∧ ct_changes c' = ∅)
  ∧ (run_pending run = false → run' = run ∧ c' = c ∧ s' = s).
Proof.
  unfold flush. destruct (run_pending run) eqn:Hp; simpl; [|intros [= <- <- <- <-]; done].
  destruct (ct_pendingFull c).
  - destruct n as [n|e]; [|by intros [= <- <- <- <-]].
    destruct (publishReplace s n) as [[s1|e]|]; [|done..]. by intros [= <- <- <- <-].
  - destruct (publishApply s _) as [[s1 e]|]; [|done]. by intros [= <- <- <- <-].
Qed.

Lemma awake_step settled immediate sys sys' :
  sys_step settled immediate sys sys' → awake immediate sys → awake immediate sys'.
Proof.
  intros Hstep [Hw Ht Hi]. destruct Hstep as
    [e He|batch rest Hb Hne| |n Hn|Hd Him Htr|sys' Hd Him Htr _ Hf|sys' Hd Htm _ Hf|sys' Hd _ Hf].
  - by split.
  - split; simpl; [|done..]. intros _. right. left. lia.
  - split; simpl; [|done..]. intros _. right. left. lia.
  - split; simpl; [|done..]. intros _. by left.
  - subst immediate. split; simpl; [|done..]. intros _. right. right. by left.
  - destruct Hf as (run' & c' & s' & err & Hf & ->). apply flush_idle in Hf as (Hp & _ & _ & Hy & _).
    subst immediate. simpl in Hy. destruct (Hy eq_refl) as (? & ? & Hc & Hch).
    split; simpl; [|congruence|done]. intros [?|?]; congruence.
  - destruct Hf as (run' & c' & s' & err & Hf & ->). apply flush_idle in Hf as (Hp & _ & _ & Hy & _).
    destruct (run_pending (sy_run sys)) eqn:Hpend.
    + destruct (Hy eq_refl) as (? & ? & Hc & Hch).
      split; simpl; [|congruence|done]. intros [?|?]; congruence.
    + destruct (Hi eq_refl) as [E1 E2]. destruct Htm; congruence.
  - destruct Hf as (run' & c' & s' & err & Hf & ->). apply flush_idle in Hf as (Hp & Hdn & _ & Hy & Hn).
    simpl in *. split; simpl; [|congruence|].
    + intros _. do 3 right. done.
    + intros _. destruct (run_pending (sy_run sys)) eqn:Hpend; [by destruct (Hy eq_refl) as (? & ? & _)|].
      destruct (ct_triggers (sy_controller sys)); simpl in *.
      * by destruct (Hy eq_refl) as (? & ? & _).
      * destruct (Hn eq_refl) as (-> & _). simpl. auto.
Qed.

Lemma awake_initial immediate source (s : S) : awake immediate (initialSystem source s).
Proof. split; simpl; [|done..]. intros _. right. by left. Qed.

(** ** What the publisher will hold *)

(** The collection as of the events delivered: the value before the first change of the
    key that is under way *)
Definition delivered_value (source : gmap ResourceKey Resource) (cs : list ResourceChange)
    (k : ResourceKey) : option Resource :=
  match base.filter (λ c, rc_Key c = k) cs with
  | c :: _ => rc_Old c
  | [] => source !! k
  end.

(** Each change leads to the value before the next one of its key. *)
Fixpoint chained (source : gmap ResourceKey Resource) (cs : list ResourceChange) : Prop :=
  match cs with
  | [] => True
  | c :: cs => rc_New c = delivered_value source cs (rc_Key c) ∧ chained source cs
  end.

Definition change_admissible (c : ResourceChange) : Prop :=
  ∀ r, rc_Old c = Some r ∨ rc_New c = Some r → admissible r ∧ Key r = rc_Key c.

Definition source_ok (source : gmap ResourceKey Resource) : Prop :=
  ∀ k r, source !! k = Some r → admissible r ∧ Key r = k.

(** The pending changes lead from the published hashes to the delivered values. *)
Record tracks (s : S) (value : ResourceKey → option Resource)
    (pending : gmap ResourceKey ResourceChange) : Prop := mkTracks {
  tracks_pending k c : pending !! k = Some c →
    rc_Key c = k ∧ Hash <$> rc_New c = Hash <$> value k
    ∧ Hash <$> rc_Old c = published s k ∧ Hash <$> rc_Old c ≠ Hash <$> rc_New c;
  tracks_other k : pending !! k = None → published s k = Hash <$> value k
}.

Lemma resourcesEqual_hash a b : resourcesEqual a b = bool_decide (Hash <$> a = Hash <$> b).
Proof.
  destruct a as [r|], b as [r'|]; simpl; [|done..].
  apply bool_decide_ext. split; congruence.
Qed.

Lemma tracks_ext s f g pending :
  (∀ k, Hash <$> f k = Hash <$> g k) → tracks s f pending → tracks s g pending.
Proof.
  intros E [H1 H2]. split.
  - intros k c Hc. rewrite <-E. by apply H1.
  - intros k Hk. rewrite <-E. by apply H2.
Qed.

(** One delivered change *)
Lemma enqueueOne_tracks s value pending c value' :
  tracks s value pending →
  Hash <$> rc_Old c = Hash <$> value (rc_Key c) →
  Hash <$> rc_New c = Hash <$> value' (rc_Key c) →
  (∀ k, k ≠ rc_Key c → Hash <$> value' k = Hash <$> value k) →
  tracks s value' (enqueueOne pending c).
Proof.
  intros Ht Hold Hnew Hother. unfold enqueueOne.
  set (old := match pending !! rc_Key c with Some e => rc_Old e | None => rc_Old c end).
  assert (Hash <$> old = published s (rc_Key c)) as Hpub.
  { unfold old. destruct (pending !! rc_Key c) as [e|] eqn:He.
    - by destruct (tracks_pending _ _ _ Ht _ _ He) as (_ & _ & ? & _).
    - by rewrite Hold, (tracks_other _ _ _ Ht _ He). }
  rewrite resourcesEqual_hash. case_bool_decide as Heq; split.
  - intros k c' [Hne Hc']%lookup_delete_Some. rewrite Hother by done. by apply (tracks_pending _ _ _ Ht).
  - intros k. destruct (decide (k = rc_Key c)) as [->|Hne].
    + intros _. by rewrite <-Hpub, Heq.
    + rewrite lookup_delete_ne, Hother by done. apply (tracks_other _ _ _ Ht).
  - intros k c' [[<- <-]|[Hne Hc']]%lookup_insert_Some; [done|].
    rewrite Hother by done. by apply (tracks_pending _ _ _ Ht).
  - intros k [Hk Hne]%lookup_insert_None. rewrite Hother by done. by apply (tracks_other _ _ _ Ht).
Qed.

Lemma delivered_value_cons source c cs k :
  delivered_value source (c :: cs) k
  = if decide (rc_Key c = k) then rc_Old c else delivered_value source cs k.
Proof. unfold delivered_value. rewrite filter_cons. by case_decide. Qed.

(** A delivered batch *)
Lemma enqueue_tracks s source cs rest pending :
  chained source (cs ++ rest) →
  tracks s (delivered_value source (cs ++ rest)) pending →
  tracks s (delivered_value source rest) (foldl enqueueOne pending cs).
Proof.
  revert pending. induction cs as [|c cs IH]; intros pending Hch Ht; simpl; [done|].
  destruct Hch as [Hnew Hch]. apply IH; [done|].
  apply (enqueueOne_tracks s _ _ _ _ Ht).
  - by rewrite <-app_comm_cons, delivered_value_cons, decide_True.
  - by rewrite Hnew.
  - intros k Hk. rewrite <-app_comm_cons, delivered_value_cons, decide_False by done. done.
Qed.

(** ** Events *)

Lemma eventChanges_keys e : NoDup (rc_Key <$> eventChanges e).
Proof.
  unfold eventChanges. destruct (ev_Old e) as [old|], (ev_New e) as [new|]; simpl;
    [case_decide as Hk; csimpl|..]; repeat constructor; try apply not_elem_of_nil.
  by rewrite list_elem_of_singleton.
Qed.

Lemma lookup_sourceAfter source cs k :
  NoDup (rc_Key <$> cs) →
  sourceAfter source cs !! k
  = match base.filter (λ c, rc_Key c = k) cs with c :: _ => rc_New c | [] => source !! k end.
Proof.
  unfold sourceAfter. revert source. induction cs as [|c cs IH]; intros source Hnd; [done|].
  csimpl in Hnd. apply NoDup_cons in Hnd as [Hnin Hnd]. cbn [foldl]. rewrite IH by done.
  rewrite filter_cons. case_decide as Hk.
  - subst k. destruct (base.filter _ cs) as [|c' l] eqn:Hf; [apply lookup_partial_alter_eq|].
    exfalso. apply Hnin. apply list_elem_of_fmap.
    assert (c' ∈ base.filter (λ d, rc_Key d = rc_Key c) cs) as [E ?]%list_elem_of_filter
      by (rewrite Hf; left). eauto.
  - destruct (base.filter _ cs); [|done]. by rewrite lookup_partial_alter_ne.
Qed.

(** Handing out an event does not change what has been delivered. *)
Lemma delivered_value_event source cs evs k :
  NoDup (rc_Key <$> evs) → (∀ c, c ∈ evs → rc_Old c = source !! rc_Key c) →
  delivered_value (sourceAfter source evs) (cs ++ evs) k = delivered_value source cs k.
Proof.
  intros Hnd Hold. unfold delivered_value. rewrite filter_app.
  destruct (base.filter _ cs) as [|c l] eqn:Hf; [|done]. simpl.
  rewrite lookup_sourceAfter by done.
  destruct (base.filter (λ c, rc_Key c = k) evs) as [|c l] eqn:He; [done|].
  assert (c ∈ base.filter (λ c, rc_Key c = k) evs) as [<- Hc]%list_elem_of_filter by (rewrite He; left).
  by apply Hold.
Qed.

Lemma chained_event source cs evs :
  NoDup (rc_Key <$> evs) → (∀ c, c ∈ evs → rc_Old c = source !! rc_Key c) →
  chained source cs → chained (sourceAfter source evs) (cs ++ evs).
Proof.
  intros Hnd Hold. induction cs as [|c cs IH]; simpl.
  - intros _. assert (∀ l1 l2, evs = l1 ++ l2 → chained (sourceAfter source evs) l2) as Hgen;
      [|by apply (Hgen [])].
    intros l1 l2. revert l1. induction l2 as [|c l2 IH]; intros l1 E; [done|]. simpl. split.
    + rewrite E, fmap_app, fmap_cons in Hnd. apply NoDup_app in Hnd as (H1 & Hdis & [Hnin H2]%NoDup_cons).
      assert (∀ l, (rc_Key c ∉ rc_Key <$> l) → base.filter (λ d, rc_Key d = rc_Key c) l = []) as Hnone.
      { intros l Hl. destruct (base.filter _ l) as [|d l'] eqn:Hf; [done|].
        assert (d ∈ base.filter (λ d, rc_Key d = rc_Key c) l) as [Ed Hd]%list_elem_of_filter
          by (rewrite Hf; left).
        exfalso. apply Hl, list_elem_of_fmap. eauto. }
      unfold delivered_value. rewrite (Hnone l2 Hnin), lookup_sourceAfter.
      * rewrite E, filter_app, (Hnone l1), filter_cons, decide_True; [done..|].
        intros Hin. apply (Hdis _ Hin). left.
      * rewrite E, fmap_app, fmap_cons. apply NoDup_app. split_and!; [done..|]. by constructor.
    + apply (IH (l1 ++ [c])). by rewrite E, <-app_assoc.
  - intros [Hnew Hch]. split; [|by apply IH]. by rewrite delivered_value_event.
Qed.

Lemma event_admissible source e c :
  source_ok source → event_ok source e → c ∈ eventChanges e → change_admissible c.
Proof.
  intros Hs [_ He] Hc r Hr. destruct (He c Hc) as [Ho Hn].
  destruct Hr as [Hr|Hr]; [apply Hs; congruence|]. split; [by apply Hn|].
  unfold eventChanges in Hc. revert Hc.
  destruct (ev_Old e) as [old|], (ev_New e) as [new|]; [case_decide|..];
    rewrite ?elem_of_cons, elem_of_nil; intros; destruct_or?; subst; simpl in *; (congruence || done).
Qed.

Lemma source_ok_event source e :
  source_ok source → event_ok source e → source_ok (sourceAfter source (eventChanges e)).
Proof.
  intros Hs He k r. rewrite lookup_sourceAfter by apply eventChanges_keys.
  destruct (base.filter _ _) as [|c l] eqn:Hf; [apply Hs|].
  assert (c ∈ base.filter (λ c, rc_Key c = k) (eventChanges e)) as [<- Hc]%list_elem_of_filter
    by (rewrite Hf; left).
  intros Hr. by apply (event_admissible source e c Hs He Hc); right.
Qed.

(** ** The invariant *)

Definition pend_ok (pending : gmap ResourceKey ResourceChange) : Prop :=
  ∀ k c, pending !! k = Some c → rc_Key c = k ∧ change_admissible c.

Record sys_inv (sys : System) : Prop := mkSysInv {
  inv_source : source_ok (sy_source sys);
  inv_store : publisher_ok (sy_store sys);
  inv_inflight c : c ∈ resourceChanges (sy_inflight sys) → change_admissible c;
  inv_chained : chained (sy_source sys) (resourceChanges (sy_inflight sys));
  inv_pending : pend_ok (ct_changes (sy_controller sys));
  inv_tracks : ct_pendingFull (sy_controller sys) = false →
    tracks (sy_store sys) (delivered_value (sy_source sys) (resourceChanges (sy_inflight sys)))
      (ct_changes (sy_controller sys))
}.

Lemma enqueueOne_pend pending c :
  pend_ok pending → change_admissible c → pend_ok (enqueueOne pending c).
Proof.
  intros Hp Hc. unfold enqueueOne. destruct (resourcesEqual _ _).
  - intros k c' [_ Hc']%lookup_delete_Some. by apply Hp.
  - intros k c' [[<- <-]|[_ Hc']]%lookup_insert_Some; [|by apply Hp]. split; [done|].
    intros r. simpl. destruct (pending !! rc_Key c) as [e|] eqn:He; [|apply Hc].
    destruct (Hp _ _ He) as [Ek Ha]. intros [Hr|Hr]; [|by apply Hc; right].
    rewrite <-Ek. by apply Ha; left.
Qed.

Lemma enqueue_pend pending cs :
  pend_ok pending → (∀ c, c ∈ cs → change_admissible c) → pend_ok (foldl enqueueOne pending cs).
Proof.
  revert pending. induction cs as [|c cs IH]; intros pending Hp Hcs; simpl; [done|].
  apply IH; [|intros c' Hc'; apply Hcs; by right]. apply enqueueOne_pend; [done|]. apply Hcs. left.
Qed.

Lemma resourceChanges_app l1 l2 : resourceChanges (l1 ++ l2) = resourceChanges l1 ++ resourceChanges l2.
Proof. unfold resourceChanges. by rewrite bind_app. Qed.

Context `{!PublisherLaws S}.

(** The compiled collection always makes a snapshot with its resources. *)
Lemma sourceSnapshot_ok source :
  source_ok source → ∃ n, sourceSnapshot source = Ok n ∧ set_ok n ∧ ∀ k, Get n k = source !! k.
Proof.
  intros Hs. unfold sourceSnapshot.
  assert (∀ r, r ∈ (map_to_list source).*2 → admitResource r = Ok r) as Hadm.
  { intros r ([k r'] & -> & Hin%elem_of_map_to_list)%list_elem_of_fmap. simpl.
    destruct (Hs k r' Hin) as [[Hh Hv]%admissible_valid _].
    unfold admitResource. by rewrite decide_False, Hv. }
  assert (Key <$> (map_to_list source).*2 = (map_to_list source).*1) as Hkeys.
  { rewrite <-list_fmap_compose. apply list_fmap_ext. intros i [k r] Hi%list_elem_of_lookup_2.
    apply elem_of_map_to_list in Hi. by destruct (Hs k r Hi). }
  pose proof (NewResourceSet_refines (map_to_list source).*2) as Href.
  pose proof (specAdd_spec (map_to_list source).*2 ∅) as Hadd.
  assert (Forall2 (λ r r', admitResource r = Ok r') (map_to_list source).*2 (map_to_list source).*2) as Hf.
  { apply Forall_Forall2_diag, Forall_forall. done. }
  destruct (NewResourceSet _) as [n|e].
  - destruct Href as (m & Hm & Hok & Hrep). exists n. split_and!; [done..|].
    rewrite Hm in Hadd. destruct Hadd as (l & Hl & Hnd & _ & ->).
    assert (l = (map_to_list source).*2) as ->.
    { revert Hl. clear -Hadm. generalize dependent l. revert Hadm. generalize (map_to_list source).*2.
      intros l0. induction l0 as [|r l0 IH]; intros Hadm l Hl; inversion Hl as [|? r' ? l' E Hl']; subst; [done|].
      rewrite Hadm in E by left. injection E as <-. f_equal. apply IH; [|done].
      intros r' Hr'. apply Hadm. by right. }
    intros k. rewrite Hrep, (right_id_L ∅ (∪)). f_equal.
    assert ((λ r, (Key r, r)) <$> (map_to_list source).*2 = map_to_list source) as ->;
      [|apply list_to_map_to_list].
    rewrite <-list_fmap_compose. rewrite <-(list_fmap_id (map_to_list source)) at 2.
    apply list_fmap_ext. intros i [k' r] Hi%list_elem_of_lookup_2.
    apply elem_of_map_to_list in Hi. simpl. destruct (Hs k' r Hi) as [_ ->]. done.
  - rewrite Href in Hadd. destruct Hadd. exists (map_to_list source).*2.
    split_and!; [done| |intros; apply lookup_empty]. rewrite Hkeys. apply NoDup_fst_map_to_list.
Qed.

(** The pending changes as a batch *)
Lemma pending_batch pending c :
  pend_ok pending → c ∈ (map_to_list pending).*2 ↔ pending !! rc_Key c = Some c.
Proof.
  intros Hp. rewrite list_elem_of_fmap. split.
  - intros ([k c'] & -> & Hin%elem_of_map_to_list). simpl. by destruct (Hp _ _ Hin) as [-> _].
  - intros Hc. exists (rc_Key c, c). split; [done|]. by apply elem_of_map_to_list.
Qed.

Lemma pending_keys pending :
  pend_ok pending → rc_Key <$> (map_to_list pending).*2 = (map_to_list pending).*1.
Proof.
  intros Hp. rewrite <-list_fmap_compose. apply list_fmap_ext. intros i [k c] Hi%list_elem_of_lookup_2.
  apply elem_of_map_to_list in Hi. by destruct (Hp _ _ Hi).
Qed.

(** An incremental publication of tracked changes succeeds and reaches the values. *)
Lemma apply_tracked s value pending :
  publisher_ok s → pend_ok pending → tracks s value pending →
  ∃ s', publishApply s (map_to_list pending).*2 = Some (s', None) ∧ publisher_ok s'
    ∧ tracks s' value ∅.
Proof.
  intros Hs Hp Ht.
  destruct (publishApply_spec s (map_to_list pending).*2) as (s' & Happ & Hs' & Hin & Hout); [done|..].
  - rewrite pending_keys by done. apply NoDup_fst_map_to_list.
  - intros c Hc%pending_batch; [|done]. by destruct (tracks_pending _ _ _ Ht _ _ Hc) as (_ & _ & _ & ?).
  - intros c Hc%pending_batch; [|done]. by destruct (tracks_pending _ _ _ Ht _ _ Hc) as (_ & _ & ? & _).
  - intros c r Hc%pending_batch Hr; [|done]. by apply (Hp _ _ Hc).
  - exists s'. split_and!; [done..|]. split; [intros k c Hc; by rewrite lookup_empty in Hc|].
    intros k _. destruct (pending !! k) as [c|] eqn:Hk.
    + destruct (tracks_pending _ _ _ Ht _ _ Hk) as (<- & Hv & _). rewrite <-Hv. apply Hin.
      by apply pending_batch.
    + rewrite Hout; [by apply (tracks_other _ _ _ Ht)|]. rewrite pending_keys by done.
      intros ([k' c] & -> & Hin'%elem_of_map_to_list)%list_elem_of_fmap. simpl in Hk. congruence.
Qed.

(** [flush] always returns, without an error, and keeps the invariant. *)
Lemma flush_inv sys run c :
  sys_inv sys → full_allowed true sys → ct_pendingFull c = ct_pendingFull (sy_controller sys) →
  ct_changes c = ct_changes (sy_controller sys) →
  ∃ run' c' s', flush run c (sy_store sys) (sourceSnapshot (sy_source sys)) = Some (run', c', s', None)
    ∧ sys_inv (mkSystem (sy_source sys) (sy_inflight sys) c' (sy_signals sys) run' s').
Proof.
  intros [Hsrc Hst Hin Hch Hp Ht] Hfull Ef Ec. unfold flush.
  destruct (run_pending run); simpl.
  2:{ eexists _, _, _. split; [done|]. split; simpl; [done..|by rewrite Ec|]. rewrite Ec, Ef. done. }
  assert (pend_ok ∅) as Hp0 by (intros k c'; by rewrite lookup_empty).
  destruct (ct_pendingFull c) eqn:Hc.
  - symmetry in Ef. destruct (Hfull Ef) as [Hnone Hrep].
    destruct (sourceSnapshot_ok _ Hsrc) as (n & Hn & _ & Hget). rewrite Hn.
    destruct (publishReplace_spec (sy_store sys) n Hst (Hrep n Hn)) as (s' & -> & Hs' & Hpub).
    eexists _, _, _. split; [done|]. split; simpl; [done..|].
    intros _. rewrite (Hnone eq_refl). split; [intros k c'; by rewrite lookup_empty|].
    intros k _. by rewrite Hpub, Hget.
  - rewrite Ec. destruct (apply_tracked (sy_store sys) _ _ Hst Hp (Ht (eq_sym Ef))) as (s' & -> & Hs' & Ht').
    eexists _, _, _. split; [done|]. by split.
Qed.

Lemma flushed_inv sys run c sys' :
  sys_inv sys → full_allowed true sys → ct_pendingFull c = ct_pendingFull (sy_controller sys) →
  ct_changes c = ct_changes (sy_controller sys) → flushed sys run c sys' → sys_inv sys'.
Proof.
  intros Hs Hf Ef Ec (run' & c' & s' & err & Hfl & ->).
  destruct (flush_inv sys run c Hs Hf Ef Ec) as (? & ? & ? & E & Hinv).
  rewrite Hfl in E. by injection E as -> -> -> ->.
Qed.

Lemma sys_inv_step immediate sys sys' :
  sys_step true immediate sys sys' → sys_inv sys → sys_inv sys'.
Proof.
  intros Hstep Hs. pose proof Hs as [Hsrc Hst Hin Hch Hp Ht]. destruct Hstep as
    [e He|batch rest Hb Hne| |n Hn|Hd Him Htr|sys' Hd Him Htr Hf Hfl|sys' Hd Htm Hf Hfl|sys' Hd Hf Hfl].
  - pose proof (eventChanges_keys e) as Hnd.
    assert (∀ c, c ∈ eventChanges e → rc_Old c = sy_source sys !! rc_Key c) as Hold
      by (intros c Hc; by apply He).
    assert (resourceChanges (sy_inflight sys ++ [e]) = resourceChanges (sy_inflight sys) ++ eventChanges e) as Eq.
    { rewrite resourceChanges_app. unfold resourceChanges at 2. simpl. by rewrite app_nil_r. }
    split; simpl; rewrite ?Eq; [by apply source_ok_event|done| | |done|].
    + intros c [Hc|Hc]%elem_of_app; [by apply Hin|by eapply event_admissible].
    + by apply chained_event.
    + intros Hfalse. eapply tracks_ext; [|by apply Ht]. intros k. by rewrite delivered_value_event.
  - rewrite Hb, resourceChanges_app in Hin, Hch, Ht.
    split; simpl; [done|done| | | |].
    + intros c Hc. apply Hin, elem_of_app. by right.
    + clear -Hch. induction (resourceChanges batch) as [|c l IH]; [done|]. apply IH. by destruct Hch.
    + apply enqueue_pend; [done|]. intros c Hc. apply Hin, elem_of_app. by left.
    + intros Hfalse. by apply enqueue_tracks; [|apply Ht].
  - by split; simpl.
  - by split; simpl.
  - by split; simpl.
  - by eapply flushed_inv; [..|exact Hfl].
  - by eapply flushed_inv; [..|exact Hfl].
  - by eapply flushed_inv; [..|exact Hfl].
Qed.

Lemma initialSystem_inv source (s : S) :
  source_ok source → publisher_ok s → sys_inv (initialSystem source s).
Proof.
  intros Hsrc Hs.
  assert (resourceChanges (initialEvents source)
    = (λ r, mkChange (Key r) None (Some r)) <$> (map_to_list source).*2) as Eq.
  { unfold resourceChanges, initialEvents. rewrite list_fmap_bind. generalize (map_to_list source).*2.
    intros l. induction l as [|r l IH]; [done|]. csimpl. by rewrite IH. }
  assert (∀ r, r ∈ (map_to_list source).*2 → admissible r ∧ source !! Key r = Some r) as Hall.
  { intros r ([k r'] & -> & Hin%elem_of_map_to_list)%list_elem_of_fmap. simpl.
    by destruct (Hsrc _ _ Hin) as [? ->]. }
  assert (NoDup (Key <$> (map_to_list source).*2)) as Hnd.
  { rewrite <-list_fmap_compose. erewrite (list_fmap_ext _ fst); [apply NoDup_fst_map_to_list|].
    intros i [k r] Hi%list_elem_of_lookup_2. apply elem_of_map_to_list in Hi. by destruct (Hsrc _ _ Hi). }
  split; simpl; [done|done|..|by intros k c; rewrite lookup_empty|done].
  - rewrite Eq. intros c (r & -> & Hr)%list_elem_of_fmap r' [?|[= <-]]; [done|]. by destruct (Hall _ Hr).
  - rewrite Eq. clear Eq. revert Hall Hnd. generalize (map_to_list source).*2.
    intros l. induction l as [|r l IH]; intros Hall Hnd; [done|]. csimpl in *. simpl.
    apply NoDup_cons in Hnd as [Hnin Hnd]. split; [|apply IH; [intros; apply Hall; by right|done]].
    unfold delivered_value. destruct (base.filter _ _) as [|c l'] eqn:Hf.
    + symmetry. apply Hall. left.
    + exfalso. assert (c ∈ base.filter (λ c, rc_Key c = Key r) ((λ r, mkChange (Key r) None (Some r)) <$> l))
        as [E (r' & -> & Hr')%list_elem_of_fmap]%list_elem_of_filter by (rewrite Hf; left).
      simpl in E. apply Hnin. rewrite <-E. apply list_elem_of_fmap. eauto.
Qed.

Lemma sys_reach_inv immediate source (s : S) sys :
  source_ok source → publisher_ok s → sys_reach true immediate (initialSystem source s) sys →
  sys_inv sys ∧ awake immediate sys.
Proof.
  intros Hsrc Hs. induction 1 as [|sys sys' _ [Hi Ha] Hstep].
  - split; [by apply initialSystem_inv|apply awake_initial].
  - split; [by eapply sys_inv_step|by eapply awake_step].
Qed.
End system.

Arguments System : clear implicits.
