(* ===== verification/ControllerTheorems.v ===== *)
(** * ControllerTheorems: what the publication controller guarantees

    Convergence and progress of src/pkg/xds/controller.go over any publisher that keeps
    its contract, the store among them, and the race of complete publications with events
    under way. *)

From S2P Require Import Prelude Identity Resource ResourceIndex ResourceSet SetInvariant SetQueries SetDiff Snapshot Update Store Cascade Publish Commit Executions StoreTheorems Controller ControllerSystem.

(** * StorePublisher: the store implements the controller's publisher

    [Store.Replace] and [Store.Apply] satisfy the contract of [Publisher]; deletions that
    wait for their referrers count as carried out. *)

Section publisher.
(** The readers that race with a publication, as the state decides *)
Context `{Codec} (drained : Store → gset N).

Definition storePublished (s : Store) (k : ResourceKey) : option string :=
  if decide (k ∈ st_pendingRemovals s) then None else hash_of (st_current s) k.

Definition storeAdmissible (r : Resource) : Prop :=
  Hash r ≠ "" ∧ validateResource r = Ok tt ∧ plain_resource r = true.

Definition storeReplaceable (s : Store) (n : ResourceSet) : Prop :=
  initial_ok n
  ∧ ∀ k, hash_of (st_current s) k = hash_of n k → same_references (Get (st_current s) k) (Get n k).

Definition storeReplace (s : Store) (n : ResourceSet) : option (result Store) :=
  match Replace s n (drained s) with
  | Some (Ok (s', _)) => Some (Ok s')
  | Some (Err e) => Some (Err e)
  | None => None
  end.

Definition storeApply (s : Store) (cs : list ResourceChange) : option (Store * option string) :=
  match StoreApply s cs (drained s) with
  | Some (s', _, err) => Some (s', err)
  | None => None
  end.

Instance StorePublisher : Publisher Store := {|
  published := storePublished;
  publisher_ok := store_ok;
  admissible := storeAdmissible;
  replaceable := storeReplaceable;
  publishReplace := storeReplace;
  publishApply := storeApply
|}.

Lemma storeReplace_spec s n :
  store_ok s → storeReplaceable s n →
  ∃ s', storeReplace s n = Some (Ok s') ∧ store_ok s' ∧ ∀ k, storePublished s' k = Hash <$> Get n k.
Proof.
  intros Hs [(H1 & H2 & H3) H4]. unfold storeReplace.
  destruct (Replace_spec s n (drained s) Hs H1 H2 H3 H4) as (s' & pub & -> & [Hok _ Hv _ _ _]).
  exists s'. split_and!; [done..|]. intros k. unfold storePublished. destruct (Hv k) as [Hout Hin].
  case_decide as Hk; [|by apply Hout]. by destruct (Hin Hk) as [-> _].
Qed.

(** A batch with one effective change per key is not changed by coalescing. *)
Lemma elem_of_coalesce_distinct cs c :
  NoDup (rc_Key <$> cs) → (∀ c, c ∈ cs → Hash <$> rc_Old c ≠ Hash <$> rc_New c) →
  c ∈ coalesceChanges cs ↔ c ∈ cs.
Proof.
  intros Hnd Hne. rewrite elem_of_coalesce. split.
  - intros (Hk & Ho & Hn & _). by apply distinct_member.
  - intros Hc. destruct (distinct_first_last cs c Hnd Hc) as [-> ->].
    split_and!; [apply list_elem_of_fmap; eauto|done..|].
    rewrite sameResource_hash. by apply bool_decide_eq_false_2, Hne.
Qed.

Lemma coalesce_distinct_keys cs k :
  NoDup (rc_Key <$> cs) → (∀ c, c ∈ cs → Hash <$> rc_Old c ≠ Hash <$> rc_New c) →
  k ∈ rc_Key <$> coalesceChanges cs ↔ k ∈ rc_Key <$> cs.
Proof.
  intros Hnd Hne. rewrite !list_elem_of_fmap.
  split; intros (c & -> & Hc); exists c; (split; [done|]); by apply (elem_of_coalesce_distinct cs c Hnd Hne).
Qed.

Section apply.
Context (s : Store) (cs : list ResourceChange).
Context (Hs : store_ok s) (Hnd : NoDup (rc_Key <$> cs)).
Context (Hne : ∀ c, c ∈ cs → Hash <$> rc_Old c ≠ Hash <$> rc_New c).
Context (Hold : ∀ c, c ∈ cs → Hash <$> rc_Old c = storePublished s (rc_Key c)).
Context (Hadm : ∀ c r, c ∈ cs → rc_Old c = Some r ∨ rc_New c = Some r →
  storeAdmissible r ∧ Key r = rc_Key c).

Lemma storeApply_batch : batch_ok (st_current s) cs.
Proof.
  split.
  - intros c r Hc Hr. destruct (Hadm c r Hc) as [(? & _ & ?) _]; [by right|done].
  - intros c Hc. apply (elem_of_coalesce_distinct cs c Hnd Hne) in Hc. specialize (Hold c Hc).
    destruct (rc_Old c); [|by left]. right. unfold storePublished, hash_of in Hold.
    case_decide; [done|]. destruct (Get (st_current s) (rc_Key c)); [eauto|done].
Qed.

(** No batch of admissible resources is refused: the keys are those of valid resources. *)
Lemma storeApply_accepted e : Apply (st_current s) (coalesceChanges cs) ≠ Err e.
Proof.
  intros Herr. pose proof (Apply_ok (st_current s) (coalesceChanges cs)) as Hok.
  rewrite Herr in Hok. specialize (Hok (set_ok_shape_ok _ (store_set _ Hs))). symmetry in Hok.
  apply not_true_iff_false in Hok. apply Hok, Is_true_true, forallb_True, Forall_forall.
  intros c Hc. apply (elem_of_coalesce_distinct cs c Hnd Hne) in Hc. apply Is_true_true. unfold change_valid.
  assert (∃ r, rc_Old c = Some r ∨ rc_New c = Some r) as [r Hr].
  { specialize (Hne c Hc). destruct (rc_Old c), (rc_New c); try done; eauto. }
  destruct (Hadm c r Hc Hr) as [(_ & [Hn Ht]%validateResource_name & _) Hk]. rewrite Hk in Hn, Ht.
  rewrite Hn, Ht. simpl. destruct (rc_New c) as [n|] eqn:Hnew; [|done].
  destruct (Hadm c n Hc) as [(Hh & Hv & _) Hkn]; [by right|].
  unfold normalizeChangedResource. rewrite bool_decide_eq_true_2 by done. simpl.
  unfold admitResource. by rewrite decide_False, Hv.
Qed.

Lemma storeApply_spec :
  ∃ s', storeApply s cs = Some (s', None) ∧ store_ok s'
    ∧ (∀ c, c ∈ cs → storePublished s' (rc_Key c) = Hash <$> rc_New c)
    ∧ (∀ k, k ∉ rc_Key <$> cs → storePublished s' k = storePublished s k).
Proof.
  unfold storeApply.
  destruct (StoreApply_spec s cs (drained s) Hs storeApply_batch) as (s' & pub & err & -> & Hres).
  destruct err as [e|]; [by destruct Hres as [?%storeApply_accepted _]|].
  destruct Hres as [Hok _ Hcom _ _ _]. exists s'. split_and!; [done..| |].
  - intros c Hc. unfold storePublished.
    assert (c ∈ coalesceChanges cs) as Hc' by by apply elem_of_coalesce_distinct.
    destruct (rc_New c) as [n|] eqn:Hn.
    + destruct (commits_new _ _ _ _ _ Hcom c n Hc' Hn) as [-> ?]. by rewrite decide_False.
    + destruct (commits_waits _ _ _ _ _ Hcom (rc_Key c)) as [[? _]|[? Hg]]; [left; eauto|by rewrite decide_True|].
      rewrite decide_False by done. unfold hash_of. by rewrite Hg.
  - intros k Hk. rewrite <-coalesce_distinct_keys in Hk by done. unfold storePublished.
    destruct (decide (k ∈ st_pendingRemovals s)) as [Hp|Hp].
    + destruct (commits_waits _ _ _ _ _ Hcom k) as [[? _]|[? Hg]]; [by right|by rewrite decide_True|].
      rewrite decide_False by done. unfold hash_of. by rewrite Hg.
    + destruct (commits_other _ _ _ _ _ Hcom k Hk Hp) as [-> ?]. by rewrite decide_False.
Qed.
End apply.

#[export] Instance StorePublisher_laws : PublisherLaws Store.
Proof.
  split; simpl.
  - by intros r (? & ? & _).
  - apply storeReplace_spec.
  - intros s cs Hs Hnd Hne Hold Hadm. by apply storeApply_spec.
Qed.
End publisher.

(** Read the fields of a system after a step. *)
Ltac fields := cbn [sy_source sy_inflight sy_controller sy_signals sy_run sy_store].

(** Nothing is under way, signalled or scheduled. *)
Definition idle {S} (sys : System S) : Prop :=
  sy_inflight sys = [] ∧ sy_signals sys = 0 ∧ ct_triggers (sy_controller sys) = false
  ∧ run_pending (sy_run sys) = false ∧ run_done (sy_run sys) = false.

Section theorems.
Context `{Codec} {S : Type} `{!Publisher S, !PublisherLaws S}.

(** ** Reachability *)

Lemma sys_reach_trans settled immediate (a b c : System S) :
  sys_reach settled immediate a b → sys_reach settled immediate b c → sys_reach settled immediate a c.
Proof. intros Hab Hbc. induction Hbc as [|x y _ IH Hstep]; [done|by eapply sys_next]. Qed.

Lemma sys_reach_one settled immediate (a b : System S) :
  sys_step settled immediate a b → sys_reach settled immediate a b.
Proof. intros Hab. by eapply sys_next; [apply sys_start|]. Qed.

(** Once settled, the publisher holds the collection. *)
Lemma idle_converged immediate source (s : S) sys k :
  source_ok source → publisher_ok s → sys_reach true immediate (initialSystem source s) sys →
  idle sys → published (sy_store sys) k = Hash <$> sy_source sys !! k.
Proof.
  intros Hsrc Hs Hreach (Hin & Hsig & Htr & Hp & Hd).
  destruct (sys_reach_inv immediate source s sys Hsrc Hs Hreach) as [Hinv Haw].
  assert (¬ work (sy_controller sys)) as Hnw.
  { intros Hw. destruct (awake_work _ _ Haw Hw) as [?|[?|[?|?]]]; congruence. }
  assert (ct_pendingFull (sy_controller sys) = false ∧ ct_changes (sy_controller sys) = ∅) as [Hf Hc].
  { unfold work in Hnw. split; [by destruct (ct_pendingFull _); [destruct Hnw; left|]|].
    destruct (decide (ct_changes (sy_controller sys) = ∅)); [done|]. destruct Hnw. by right. }
  pose proof (inv_tracks _ Hinv Hf) as Ht. rewrite Hc, Hin in Ht.
  by rewrite (tracks_other _ _ _ Ht k (lookup_empty _)).
Qed.

(** ** Progress *)

(** A scheduled publication completes. *)
Lemma drain_pending immediate sys :
  sys_inv sys → awake immediate sys → run_done (sy_run sys) = false → full_allowed true sys →
  run_pending (sy_run sys) = true →
  ∃ sys', sys_step true immediate sys sys' ∧ ¬ work (sy_controller sys')
    ∧ sy_source sys' = sy_source sys ∧ sy_inflight sys' = sy_inflight sys.
Proof.
  intros Hinv Haw Hd Hf Hp.
  destruct (flush_inv sys (sy_run sys) (sy_controller sys) Hinv Hf eq_refl eq_refl)
    as (run' & c' & s' & Hfl & _).
  eexists. split_and!.
  - eapply sys_timer; [done|left; by apply Haw|done|]. by eexists _, _, _, _.
  - simpl. apply flush_idle in Hfl as (_ & _ & _ & Hy & _). destruct (Hy Hp) as (_ & _ & H1 & H2).
    intros [?|?]; congruence.
  - done.
  - done.
Qed.

(** A token is taken, and its publication completes. *)
Lemma drain_token immediate sys :
  sys_inv sys → awake immediate sys → run_done (sy_run sys) = false → full_allowed true sys →
  ct_triggers (sy_controller sys) = true →
  ∃ sys', sys_reach true immediate sys sys' ∧ ¬ work (sy_controller sys')
    ∧ sy_source sys' = sy_source sys ∧ sy_inflight sys' = sy_inflight sys.
Proof.
  intros Hinv Haw Hd Hf Ht. destruct immediate.
  - destruct (flush_inv sys (receiveTrigger true (sy_run sys)) (takeToken (sy_controller sys))
      Hinv Hf eq_refl eq_refl) as (run' & c' & s' & Hfl & _).
    eexists. split_and!.
    + apply sys_reach_one. eapply sys_immediate; [done..|]. by eexists _, _, _, _.
    + simpl. apply flush_idle in Hfl as (_ & _ & _ & Hy & _).
      destruct (Hy eq_refl) as (_ & _ & H1 & H2). intros [?|?]; congruence.
    + done.
    + done.
  - pose proof (sys_debounce true false sys Hd eq_refl Ht) as Hstep.
    pose proof (sys_inv_step _ _ _ Hstep Hinv) as Hinv1.
    pose proof (awake_step _ _ _ _ Hstep Haw) as Haw1.
    destruct (drain_pending _ _ Hinv1 Haw1 Hd Hf eq_refl) as (sys' & Hs' & ? & ? & ?).
    exists sys'. split_and!; [|done..]. eapply sys_next; [by apply sys_reach_one|done].
Qed.

Lemma drain_work immediate sys :
  sys_inv sys → awake immediate sys → run_done (sy_run sys) = false → full_allowed true sys →
  ∃ sys', sys_reach true immediate sys sys' ∧ ¬ work (sy_controller sys')
    ∧ sy_source sys' = sy_source sys ∧ sy_inflight sys' = sy_inflight sys.
Proof.
  intros Hinv Haw Hd Hf.
  destruct (run_pending (sy_run sys)) eqn:Hp.
  { destruct (drain_pending _ _ Hinv Haw Hd Hf Hp) as (sys' & ? & ? & ? & ?).
    exists sys'. split_and!; [by apply sys_reach_one|done..]. }
  destruct (ct_triggers (sy_controller sys)) eqn:Ht; [by apply drain_token|].
  destruct (sy_signals sys) as [|n] eqn:Hn.
  - exists sys. split_and!; [apply sys_start| |done..].
    intros Hw. destruct (awake_work _ _ Haw Hw) as [?|[?|[?|?]]]; congruence.
  - pose proof (sys_signal true immediate sys n Hn) as Hstep.
    destruct (drain_token immediate _ (sys_inv_step _ _ _ Hstep Hinv) (awake_step _ _ _ _ Hstep Haw) Hd Hf eq_refl)
      as (sys' & Hr & ? & ? & ?).
    exists sys'. split_and!; [|done..]. eapply sys_reach_trans; [by apply sys_reach_one|done].
Qed.

(** ** A complete publication while an event is under way *)

Definition addition (r : Resource) : Event := mkEvent None (Some r).
Definition removalOf (r : Resource) : Event := mkEvent (Some r) None.

Lemma addition_changes r : eventChanges (addition r) = [mkChange (Key r) None (Some r)].
Proof. done. Qed.

Lemma removal_changes r : eventChanges (removalOf r) = [mkChange (Key r) (Some r) None].
Proof. done. Qed.

(** The addition and the removal cancel in the queue. *)
Lemma cancel_in_queue r full triggers :
  enqueueLocked (enqueueLocked (mkController full ∅ triggers) (resourceChanges [addition r]))
    (resourceChanges [removalOf r])
  = mkController full ∅ triggers.
Proof.
  unfold enqueueLocked, resourceChanges. simpl. unfold enqueueOne at 2. simpl.
  rewrite lookup_empty. simpl.
  unfold enqueueOne. simpl. rewrite lookup_insert_eq. simpl. by rewrite delete_insert_id.
Qed.

(** The two outcomes of [flush] *)
Lemma flush_full run c (s : S) snapshot n s' :
  run_pending run = true → ct_pendingFull c = true → snapshot = Ok n →
  publishReplace s n = Some (Ok s') →
  flush run c s snapshot
  = Some (mkRun false false false (run_done run), mkController false ∅ (ct_triggers c), s', None).
Proof. intros Hp Hf -> Hr. unfold flush, takePending. by rewrite Hp, Hf, Hr. Qed.

Lemma flush_incremental run c (s : S) snapshot s' err :
  run_pending run = true → ct_pendingFull c = false →
  publishApply s (map_to_list (ct_changes c)).*2 = Some (s', err) →
  flush run c s snapshot
  = Some (mkRun false false false (run_done run), mkController false ∅ (ct_triggers c), s', err).
Proof. intros Hp Hf Ha. unfold flush, takePending. by rewrite Hp, Hf, Ha. Qed.

Section race.
Context (r : Resource) (Hr : admissible r) (s : S) (Hs : publisher_ok s).

Local Abbreviation src1 := (sourceAfter ∅ (eventChanges (addition r))).
Local Abbreviation src2 := (sourceAfter src1 (eventChanges (removalOf r))).
Local Abbreviation sleeping := (mkRun false false false false).

Lemma src1_lookup k : src1 !! k = if decide (Key r = k) then Some r else None.
Proof.
  rewrite lookup_sourceAfter by apply eventChanges_keys. rewrite addition_changes, filter_cons.
  simpl. by case_decide.
Qed.

Lemma src2_empty : src2 = ∅.
Proof.
  apply map_eq. intros k. rewrite lookup_sourceAfter, src1_lookup, lookup_empty by apply eventChanges_keys.
  rewrite removal_changes, filter_cons. simpl. by case_decide.
Qed.

Lemma src1_ok : source_ok src1.
Proof. intros k r' Hk. rewrite src1_lookup in Hk. case_decide; [|done]. injection Hk as <-. by subst. Qed.

(** The snapshot is taken with the addition still under way. *)
Lemma race_first_half :
  (∀ n, sourceSnapshot src1 = Ok n → replaceable s n) →
  ∃ s1, publisher_ok s1 ∧ published s1 (Key r) = Some (Hash r)
    ∧ (∀ k, k ≠ Key r → published s1 k = None)
    ∧ sys_reach false false (initialSystem ∅ s)
        (mkSystem src1 [addition r] (mkController false ∅ false) 0 sleeping s1).
Proof.
  intros Hrep. destruct (sourceSnapshot_ok _ src1_ok) as (n & Hn & _ & Hget).
  destruct (publishReplace_spec s n Hs (Hrep n Hn)) as (s1 & Hpub & Hs1 & Hval).
  exists s1. split_and!; [done| | |].
  - by rewrite Hval, Hget, src1_lookup, decide_True.
  - intros k Hk. by rewrite Hval, Hget, src1_lookup, decide_False.
  - unfold initialSystem, initialEvents. rewrite map_to_list_empty. simpl.
    eapply sys_reach_trans; [eapply sys_reach_one, sys_signal; reflexivity|]. simpl.
    eapply sys_reach_trans; [eapply sys_reach_one, sys_debounce; reflexivity|]. simpl.
    eapply sys_reach_trans; [eapply sys_reach_one, (sys_event _ _ _ (addition r))|].
    { split; [right; simpl; eauto|]. intros c ->%list_elem_of_singleton. simpl.
      split; [by rewrite lookup_empty|]. by intros ? [= <-]. }
    apply sys_reach_one. eapply sys_timer; [done|by left|by intros _|].
    eexists _, _, _, _. split; [by apply (flush_full _ _ _ _ n s1)|reflexivity].
Qed.

(** The addition and the removal cancel in the queue; the publication does nothing. *)
Lemma race_second_half s1 :
  publisher_ok s1 →
  ∃ s2, (∀ k, published s2 k = published s1 k)
    ∧ sys_reach false false (mkSystem src1 [addition r] (mkController false ∅ false) 0 sleeping s1)
        (mkSystem ∅ [] (mkController false ∅ false) 0 sleeping s2).
Proof.
  intros Hs1. destruct (publishApply_spec s1 []) as (s2 & Happ & _ & _ & Hsame);
    [done|constructor|intros ?; by rewrite elem_of_nil..|intros ??; by rewrite elem_of_nil|].
  exists s2. split; [intros k; apply Hsame, not_elem_of_nil|].
  eapply sys_reach_trans; [eapply sys_reach_one, (sys_deliver _ _ _ [addition r] []); done|].
  eapply sys_reach_trans; [eapply sys_reach_one, (sys_event _ _ _ (removalOf r))|].
  { split; [left; simpl; eauto|]. intros c ->%list_elem_of_singleton.
    split; [|done]. cbn [rc_Old rc_Key sy_source]. by rewrite src1_lookup, decide_True. }
  eapply sys_reach_trans; [eapply sys_reach_one, (sys_deliver _ _ _ [removalOf r] []); done|].
  fields. rewrite cancel_in_queue, src2_empty.
  eapply sys_reach_trans; [eapply sys_reach_one, sys_signal; reflexivity|]. simpl.
  eapply sys_reach_trans; [eapply sys_reach_one, sys_signal; reflexivity|]. simpl.
  eapply sys_reach_trans; [eapply sys_reach_one, sys_debounce; reflexivity|]. simpl.
  apply sys_reach_one. eapply sys_timer; [done|by left|done|].
  eexists _, _, _, _. split; [by apply (flush_incremental _ _ _ _ s2 None)|reflexivity].
Qed.

(** A run that settles: the empty collection is published, then the addition. *)
Lemma addition_settles :
  (∀ n, sourceSnapshot ∅ = Ok n → replaceable s n) →
  ∃ s2, sys_reach true false (initialSystem ∅ s)
          (mkSystem src1 [] (mkController false ∅ false) 0 sleeping s2).
Proof.
  intros Hrep. assert (source_ok ∅) as Hsrc by (intros k r'; by rewrite lookup_empty).
  destruct (sourceSnapshot_ok _ Hsrc) as (n & Hn & _ & Hget).
  destruct (publishReplace_spec s n Hs (Hrep n Hn)) as (s1 & Hpub & Hs1 & Hval).
  destruct (publishApply_spec s1 [mkChange (Key r) None (Some r)]) as (s2 & Happ & _).
  { done. }
  { apply NoDup_singleton. }
  { by intros c ->%list_elem_of_singleton. }
  { intros c ->%list_elem_of_singleton. simpl. by rewrite Hval, Hget, lookup_empty. }
  { intros c r' ->%list_elem_of_singleton [?|[= <-]]; done. }
  exists s2. unfold initialSystem, initialEvents. rewrite map_to_list_empty. simpl.
  eapply sys_reach_trans; [eapply sys_reach_one, sys_signal; reflexivity|]. simpl.
  eapply sys_reach_trans; [eapply sys_reach_one, sys_debounce; reflexivity|]. simpl.
  eapply sys_reach_trans; [eapply sys_reach_one, sys_timer; [done|by left|by intros _|]|].
  { eexists _, _, _, _. split; [by apply (flush_full _ _ _ _ n s1)|reflexivity]. }
  fields. eapply sys_reach_trans; [eapply sys_reach_one, (sys_event _ _ _ (addition r))|].
  { split; [right; simpl; eauto|]. intros c ->%list_elem_of_singleton. simpl.
    split; [by rewrite lookup_empty|]. by intros ? [= <-]. }
  fields. eapply sys_reach_trans; [eapply sys_reach_one, (sys_deliver _ _ _ [addition r] []); done|]. fields.
  eapply sys_reach_trans; [eapply sys_reach_one, sys_signal; reflexivity|]. fields.
  eapply sys_reach_trans; [eapply sys_reach_one, sys_debounce; reflexivity|]. fields.
  apply sys_reach_one. eapply sys_timer; [done|by left|done|].
  eexists _, _, _, _. split; [apply (flush_incremental _ _ _ _ s2 None); [done|done|]|reflexivity].
  rewrite <-Happ. f_equal.
  unfold enqueueLocked, resourceChanges. simpl. unfold enqueueOne. simpl. rewrite lookup_empty. simpl.
  by rewrite insert_empty, map_to_list_singleton.
Qed.
End race.

(** C7: the controller converges. Over any publisher that keeps its contract, however
    events, deliveries, signals, timers and publications interleave, once nothing is under
    way the publisher holds exactly the hashes of the compiled collection; complete
    snapshots must be taken with no event under way. *)
Theorem controller_converges immediate source (s : S) sys :
  source_ok source → publisher_ok s → sys_reach true immediate (initialSystem source s) sys →
  idle sys → ∀ k, published (sy_store sys) k = Hash <$> sy_source sys !! k.
Proof. intros Hsrc Hs Hr Hi k. by eapply idle_converged. Qed.

(** No wake-up is lost. From every reachable state of a running controller, the loop
    itself completes the publications that are due, whatever the state of its channel and
    timers: some run of its own steps leaves no change and no complete publication
    pending. *)
Theorem controller_drains immediate source (s : S) sys :
  source_ok source → publisher_ok s → sys_reach true immediate (initialSystem source s) sys →
  run_done (sy_run sys) = false → full_allowed true sys →
  ∃ sys', sys_reach true immediate sys sys'
    ∧ ct_pendingFull (sy_controller sys') = false ∧ ct_changes (sy_controller sys') = ∅
    ∧ sy_source sys' = sy_source sys ∧ sy_inflight sys' = sy_inflight sys.
Proof.
  intros Hsrc Hs Hr Hd Hf. destruct (sys_reach_inv immediate source s sys Hsrc Hs Hr) as [Hinv Haw].
  destruct (drain_work immediate sys Hinv Haw Hd Hf) as (sys' & Hr' & Hnw & ? & ?).
  exists sys'. split_and!; [done| |..|done|done].
  - destruct (ct_pendingFull _) eqn:E; [|done]. destruct Hnw. by left.
  - destruct (decide (ct_changes (sy_controller sys') = ∅)); [done|]. destruct Hnw. by right.
Qed.

(** C37: a complete publication can lose a later deletion. If the snapshot is taken while
    the addition of a resource is still under way, a removal within the next debounce
    period cancels the addition in the queue: everything settles with the resource
    published and absent from the collection, over every publisher. *)
Theorem controller_full_race (r : Resource) (s : S) :
  admissible r → publisher_ok s →
  (∀ n, sourceSnapshot (sourceAfter ∅ (eventChanges (addition r))) = Ok n → replaceable s n) →
  ∃ sys, sys_reach false false (initialSystem ∅ s) sys ∧ idle sys
    ∧ sy_source sys = ∅ ∧ published (sy_store sys) (Key r) = Some (Hash r).
Proof.
  intros Hr Hs Hrep. destruct (race_first_half r Hr s Hs Hrep) as (s1 & Hs1 & Hp & _ & Hr1).
  destruct (race_second_half r s1 Hs1) as (s2 & Hsame & Hr2).
  eexists. split; [by eapply sys_reach_trans|]. split; [done|]. simpl. by rewrite Hsame.
Qed.
End theorems.

(** ** The store as publisher *)

Definition quietReaders : Store → gset N := λ _, ∅.

Definition normalizedPolicy : Resource :=
  match normalizeResource (examplePolicy "p" "v1") with Ok r => r | Err _ => examplePolicy "p" "v1" end.

Definition emptyStore : Store := NewStore emptySet.

Lemma emptyStore_ok : store_ok emptyStore.
Proof. apply (reach_store _), NewStore_inv, initial_ok_check; [apply emptySet_ok|done..]. Qed.

Lemma normalizedPolicy_admissible : storeAdmissible normalizedPolicy.
Proof.
  assert (negb (bool_decide (Hash normalizedPolicy = "")) && plain_resource normalizedPolicy
    && match validateResource normalizedPolicy with Ok _ => true | Err _ => false end = true) as Hb
    by (vm_compute; reflexivity).
  revert Hb. generalize normalizedPolicy. intros r [[Hh Hp]%andb_true_iff Hv]%andb_true_iff.
  apply negb_true_iff, bool_decide_eq_false in Hh. split_and!; [done| |done].
  by destruct (validateResource r) as [[]|].
Qed.

(** A snapshot of admissible resources can replace the empty one. *)
Lemma emptyStore_replaceable source n :
  @source_ok Store (StorePublisher quietReaders) source →
  sourceSnapshot source = Ok n → storeReplaceable emptyStore n.
Proof.
  intros Hsrc Hn.
  destruct (@sourceSnapshot_ok _ Store (StorePublisher quietReaders) (StorePublisher_laws quietReaders) source Hsrc)
    as (n' & Hn' & Hok & Hget).
  rewrite Hn in Hn'. injection Hn' as <-. split.
  - split_and!; [done| |]; intros k r; rewrite Hget; intros Hr;
      destruct (Hsrc k r Hr) as [(? & _ & ?) _]; done.
  - intros k. unfold hash_of. change (Get (st_current emptyStore) k) with (Get emptySet k).
    replace (Get emptySet k) with (@None Resource) by by destruct k.
    by destruct (Get n k).
Qed.

Lemma empty_source_ok : @source_ok Store (StorePublisher quietReaders) ∅.
Proof. intros k r Hr. by rewrite lookup_empty in Hr. Qed.

(** The store, publishing the policy after the empty collection *)
Lemma policy_settles :
  ∃ s2, @sys_reach _ Store (StorePublisher quietReaders) true false
          (initialSystem ∅ emptyStore)
          (mkSystem (sourceAfter ∅ (eventChanges (addition normalizedPolicy))) []
             (mkController false ∅ false) 0 (mkRun false false false false) s2).
Proof.
  apply (@addition_settles _ Store (StorePublisher quietReaders) (StorePublisher_laws quietReaders)
    normalizedPolicy normalizedPolicy_admissible emptyStore emptyStore_ok).
  intros n Hn. by apply (emptyStore_replaceable ∅ n empty_source_ok).
Qed.

Lemma controller_converges_witness :
  ∃ s2, storePublished s2 (Key normalizedPolicy) = Some (Hash normalizedPolicy).
Proof.
  destruct policy_settles as [s2 Hr]. exists s2.
  pose proof (@controller_converges _ Store (StorePublisher quietReaders) (StorePublisher_laws quietReaders)
    false ∅ emptyStore _ empty_source_ok emptyStore_ok Hr) as Hc.
  refine (eq_trans (Hc _ (Key normalizedPolicy)) _).
  - split_and!; reflexivity.
  - cbn [sy_source]. by rewrite src1_lookup, decide_True.
Defined.

Lemma controller_drains_witness :
  ∃ sys', @sys_reach _ Store (StorePublisher quietReaders) true false (initialSystem ∅ emptyStore) sys'
    ∧ ct_pendingFull (sy_controller sys') = false.
Proof.
  destruct (@controller_drains _ Store (StorePublisher quietReaders) (StorePublisher_laws quietReaders)
    false ∅ emptyStore (initialSystem ∅ emptyStore) empty_source_ok emptyStore_ok (sys_start _ _ _) eq_refl)
    as (sys' & Hr & Hf & _).
  - intros _. split; [reflexivity|]. intros n Hn. by apply (emptyStore_replaceable ∅ n empty_source_ok).
  - eauto.
Defined.

Lemma controller_full_race_witness :
  ∃ sys, @sys_reach _ Store (StorePublisher quietReaders) false false (initialSystem ∅ emptyStore) sys
    ∧ sy_source sys = ∅
    ∧ storePublished (sy_store sys) (Key normalizedPolicy) = Some (Hash normalizedPolicy).
Proof.
  destruct (@controller_full_race _ Store (StorePublisher quietReaders) (StorePublisher_laws quietReaders)
    normalizedPolicy emptyStore normalizedPolicy_admissible emptyStore_ok) as (sys & Hr & _ & Hsrc & Hp).
  - intros n Hn. apply (emptyStore_replaceable _ n) in Hn; [exact Hn|].
    apply (@src1_ok Store (StorePublisher quietReaders) normalizedPolicy normalizedPolicy_admissible).
  - exists sys. split; [exact Hr|]. split; [exact Hsrc|exact Hp].
Defined.
