(* ===== verification/Watch.v ===== *)
(** * Watch: the state of one watched type of a Delta stream (src/pkg/xds/subscription.go)

    A client subscribes to names or to everything of a type, acknowledges responses by
    their nonce, and may reject one. The watch keeps the subscription, the versions that
    were sent, and which deliveries are still to be accepted. *)

From S2P Require Import Prelude Identity Resource ResourceIndex ResourceSet Update.

(** ** Messages (envoy.service.discovery.v3) *)

(** [dr_ErrorDetail] is the message and the [int32] code of a rejection. *)
Record DeltaRequest := mkRequest {
  dr_TypeUrl : string;
  dr_Subscribe : list string;
  dr_Unsubscribe : list string;
  dr_InitialVersions : gmap string string;
  dr_ResponseNonce : string;
  dr_ErrorDetail : option (string * Z)
}.

(** [wr_Ttl] in nanoseconds *)
Record WireResource := mkWireResource {
  wr_Name : string;
  wr_Aliases : list string;
  wr_Version : string;
  wr_Value : option Any;
  wr_Ttl : option Z
}.

Record DeltaResponse := mkResponse {
  dp_SystemVersion : string;
  dp_TypeUrl : string;
  dp_Nonce : string;
  dp_Resources : list WireResource;
  dp_Removed : list string
}.

(** ** The watch *)

Record sentResponse := mkSentResponse { sr_nonce : string; sr_at : Z }.

(** [watchState] without its SDS session; a nil map or set is the empty one, and
    [codes.Code] is a [uint32]. *)
Record watchState := mkWatch {
  ws_wildcard : bool;
  ws_names : gset string;
  ws_sent : gmap string string;
  ws_started : bool;
  ws_nonceSent : string;
  ws_nonceAcked : string;
  ws_nonceNacked : string;
  ws_unacknowledged : list sentResponse;
  ws_receivedAcknowledgement : bool;
  ws_lastError : string;
  ws_lastErrorCode : Z;
  ws_trackAcks : bool;
  ws_pendingResponse : option DeltaResponse;
  ws_pendingAcks : gmap string string;
  ws_recovering : bool;
  ws_denied : gset string;
  ws_pending : gset string
}.

(** A watch as [handleRequest] makes it *)
Definition tracksAcks (typeURL : string) : bool :=
  bool_decide (typeURL ∈ [ClusterType; EndpointType; ListenerType; RouteType;
                          ExtensionConfigurationType; ProxyConfigType]).

Definition newWatch (typeURL : string) : watchState :=
  mkWatch false ∅ ∅ false "" "" "" [] false "" 0 (tracksAcks typeURL) None ∅ false ∅ ∅.

(** *** Assignments to single fields *)

Definition set_subscription (w : watchState) (wildcard : bool) (names : gset string) : watchState :=
  mkWatch wildcard names (ws_sent w) (ws_started w) (ws_nonceSent w) (ws_nonceAcked w)
    (ws_nonceNacked w) (ws_unacknowledged w) (ws_receivedAcknowledgement w) (ws_lastError w)
    (ws_lastErrorCode w) (ws_trackAcks w) (ws_pendingResponse w) (ws_pendingAcks w)
    (ws_recovering w) (ws_denied w) (ws_pending w).

Definition set_sent (w : watchState) (sent : gmap string string) : watchState :=
  mkWatch (ws_wildcard w) (ws_names w) sent (ws_started w) (ws_nonceSent w) (ws_nonceAcked w)
    (ws_nonceNacked w) (ws_unacknowledged w) (ws_receivedAcknowledgement w) (ws_lastError w)
    (ws_lastErrorCode w) (ws_trackAcks w) (ws_pendingResponse w) (ws_pendingAcks w)
    (ws_recovering w) (ws_denied w) (ws_pending w).

Definition set_started (w : watchState) : watchState :=
  mkWatch (ws_wildcard w) (ws_names w) (ws_sent w) true (ws_nonceSent w) (ws_nonceAcked w)
    (ws_nonceNacked w) (ws_unacknowledged w) (ws_receivedAcknowledgement w) (ws_lastError w)
    (ws_lastErrorCode w) (ws_trackAcks w) (ws_pendingResponse w) (ws_pendingAcks w)
    (ws_recovering w) (ws_denied w) (ws_pending w).

Definition set_diagnostics (w : watchState) (sent acked nacked error : string) (code : Z) : watchState :=
  mkWatch (ws_wildcard w) (ws_names w) (ws_sent w) (ws_started w) sent acked nacked
    (ws_unacknowledged w) (ws_receivedAcknowledgement w) error code (ws_trackAcks w)
    (ws_pendingResponse w) (ws_pendingAcks w) (ws_recovering w) (ws_denied w) (ws_pending w).

Definition set_unacknowledged (w : watchState) (l : list sentResponse) (received : bool) : watchState :=
  mkWatch (ws_wildcard w) (ws_names w) (ws_sent w) (ws_started w) (ws_nonceSent w) (ws_nonceAcked w)
    (ws_nonceNacked w) l received (ws_lastError w) (ws_lastErrorCode w) (ws_trackAcks w)
    (ws_pendingResponse w) (ws_pendingAcks w) (ws_recovering w) (ws_denied w) (ws_pending w).

Definition set_acks (w : watchState) (response : option DeltaResponse) (acks : gmap string string)
    (recovering : bool) : watchState :=
  mkWatch (ws_wildcard w) (ws_names w) (ws_sent w) (ws_started w) (ws_nonceSent w) (ws_nonceAcked w)
    (ws_nonceNacked w) (ws_unacknowledged w) (ws_receivedAcknowledgement w) (ws_lastError w)
    (ws_lastErrorCode w) (ws_trackAcks w) response acks recovering (ws_denied w) (ws_pending w).

Definition set_demands (w : watchState) (denied pending : gset string) : watchState :=
  mkWatch (ws_wildcard w) (ws_names w) (ws_sent w) (ws_started w) (ws_nonceSent w) (ws_nonceAcked w)
    (ws_nonceNacked w) (ws_unacknowledged w) (ws_receivedAcknowledgement w) (ws_lastError w)
    (ws_lastErrorCode w) (ws_trackAcks w) (ws_pendingResponse w) (ws_pendingAcks w)
    (ws_recovering w) denied pending.

(** ** Acknowledgements *)

(** The names a response carries, resources before removals *)
Definition responseNames (r : DeltaResponse) : list string :=
  (wr_Name <$> dp_Resources r) ++ dp_Removed r.

Definition markNames (acks : gmap string string) (names : list string) (nonce : string)
    : gmap string string :=
  foldl (λ (m : gmap string string) name, <[name := nonce]> m) acks names.

Definition indexPendingResponse (w : watchState) : watchState :=
  match ws_pendingResponse w with
  | None => w
  | Some r => set_acks w None (markNames (ws_pendingAcks w) (responseNames r) (dp_Nonce r)) (ws_recovering w)
  end.

(** The loop over [unacknowledged]: what follows the first response with the nonce *)
Fixpoint afterNonce (nonce : string) (l : list sentResponse) : option (list sentResponse) :=
  match l with
  | [] => None
  | r :: l => if decide (sr_nonce r = nonce) then Some l else afterNonce nonce l
  end.

Definition resolveFlow (w : watchState) (nonce : string) : watchState :=
  match afterNonce nonce (ws_unacknowledged w) with
  | Some rest => set_unacknowledged w rest true
  | None => w
  end.

(** A reply to the only outstanding response accepts it or indexes it. *)
Definition resolvePending (w : watchState) (nonce : string) (accepted : bool) : watchState :=
  match ws_pendingResponse w with
  | Some r =>
      if decide (dp_Nonce r = nonce) then
        if accepted then set_acks w None (ws_pendingAcks w) (ws_recovering w)
        else indexPendingResponse w
      else w
  | None => w
  end.

(** The loop over [pendingAcks]: acceptance removes the names of the nonce, rejection
    starts the recovery when there are any. *)
Definition resolveAcks (w : watchState) (nonce : string) (accepted : bool) : watchState :=
  let acks := if accepted then base.filter (λ p : string * string, p.2 ≠ nonce) (ws_pendingAcks w)
              else ws_pendingAcks w in
  let rejected := negb accepted
                  && bool_decide (base.filter (λ p : string * string, p.2 = nonce) (ws_pendingAcks w) ≠ ∅) in
  let recovering := ws_recovering w || rejected in
  set_acks w (ws_pendingResponse w) acks (if decide (acks = ∅) then false else recovering).

(** [codes.Code(int32)] *)
Definition toCode (c : Z) : Z := (c `mod` 2 ^ 32)%Z.

Definition recordAcknowledgement (w : watchState) (request : DeltaRequest) : watchState * bool :=
  let nonce := dr_ResponseNonce request in
  if decide (nonce = "") then (w, false) else
  let accepted := negb (isSome (dr_ErrorDetail request)) in
  let w := resolveAcks (resolvePending (resolveFlow w nonce) nonce accepted) nonce accepted in
  if decide (nonce ≠ ws_nonceSent w) then (w, false) else
  match dr_ErrorDetail request with
  | Some (message, code) =>
      (set_diagnostics w (ws_nonceSent w)
         (if decide (ws_nonceAcked w = nonce) then "" else ws_nonceAcked w) nonce message (toCode code), true)
  | None => (set_diagnostics w (ws_nonceSent w) nonce "" "" 0, true)
  end.

(** ** Subscriptions *)

Definition sortedNames (names : gset string) : list string := sort_strings (elements names).

Definition implicitWildcardTypeURL (typeURL : string) : bool :=
  negb (bool_decide (typeURL ∈ [SecretType; EndpointType; RouteType; ExtensionConfigurationType])).

(** The first request of a type *)
Definition startWatch (w : watchState) (request : DeltaRequest) : watchState :=
  let wildcard := bool_decide ("*" ∈ dr_Subscribe request)
                  || bool_decide (length (dr_Subscribe request) = 0)
                     && implicitWildcardTypeURL (dr_TypeUrl request) in
  let w := set_sent (set_started w) (dr_InitialVersions request ∪ ws_sent w) in
  set_subscription w wildcard
    (if wildcard then ws_names w else dom (dr_InitialVersions request) ∪ ws_names w).

Definition subscribeName (st : watchState * bool) (name : string) : watchState * bool :=
  let '(w, changed) := st in
  if decide (name = "*") then (set_subscription w true (ws_names w), changed || negb (ws_wildcard w))
  else (set_subscription w (ws_wildcard w) ({[name]} ∪ ws_names w),
        changed || bool_decide (name ∉ ws_names w)).

Definition forgetAck (w : watchState) (name : string) : watchState :=
  let w := indexPendingResponse w in
  set_acks w (ws_pendingResponse w) (delete name (ws_pendingAcks w)) (ws_recovering w).

Definition unsubscribeName (st : watchState * bool) (name : string) : watchState * bool :=
  let '(w, changed) := st in
  if decide (name = "*") then (set_subscription w false (ws_names w), changed || ws_wildcard w)
  else
    let changed := changed || bool_decide (name ∈ ws_names w) in
    let w := set_subscription w (ws_wildcard w) (ws_names w ∖ {[name]}) in
    let w := set_demands w (ws_denied w) (ws_pending w ∖ {[name]}) in
    let w := set_sent w (delete name (ws_sent w)) in
    (forgetAck w name, changed).

Definition settleRecovery (w : watchState) : watchState :=
  set_acks w (ws_pendingResponse w) (ws_pendingAcks w)
    (if decide (ws_pendingAcks w = ∅) then false else ws_recovering w).

Definition applySubscription (w : watchState) (request : DeltaRequest) : watchState * bool :=
  let changed := negb (ws_started w) in
  let w := if ws_started w then w else startWatch w request in
  let '(w, changed) := foldl subscribeName (w, changed) (dr_Subscribe request) in
  let '(w, changed) := foldl unsubscribeName (w, changed) (dr_Unsubscribe request) in
  (settleRecovery w, changed).

(** ** Views for the generators *)

Record SubscriptionView := mkView {
  sv_wildcard : bool;
  sv_names : list string;
  sv_sent : gmap string string
}.

Definition newSubscriptionView (w : watchState) : SubscriptionView :=
  mkView (ws_wildcard w) (sortedNames (ws_names w)) (ws_sent w).

Definition SentVersion (s : SubscriptionView) (name : string) : option string := sv_sent s !! name.

Definition SentNames (s : SubscriptionView) : list string := sort_strings (elements (dom (sv_sent s))).

(** One identity of [newIncrementalSubscriptionView] *)
Definition copySent (sent view : gmap string string) (identity : Identity) : gmap string string :=
  match sent !! id_Name identity with
  | Some version => <[id_Name identity := version]> view
  | None => view
  end.

Definition newIncrementalSubscriptionView (w : watchState) (typeURL : string) (update : Update)
    : SubscriptionView :=
  mkView (ws_wildcard w) (sortedNames (ws_names w))
    (foldl (copySent (ws_sent w)) ∅ (Candidates update typeURL ≫= ca_Identities)).

Definition containsSorted (values : list string) (value : string) : bool := BinarySearch values value.

Definition allows (s : SubscriptionView) (r : Resource) : bool :=
  sv_wildcard s || containsSorted (sv_names s) (XDSName r)
  || existsb (containsSorted (sv_names s)) (Aliases r).
