(* ===== verification/Generator.v ===== *)
(** * Generator: resource generation for one watched type
    (src/pkg/xds/generator.go, snapshot_generator.go, selection.go, auth.go)

    A generator turns a snapshot, or the candidates of a notice, into the resources to
    send and the names to withdraw, for the resources a client may see. *)

From S2P Require Import Prelude Identity Resource ResourceIndex ResourceSet Update Watch.

(** ** Requests and results *)

Record GenerationRequest := mkGenRequest {
  gr_Scope : ClientScope;
  gr_TypeURL : string;
  gr_Subscription : SubscriptionView;
  gr_Snapshot : ResourceSet;
  gr_Update : Update;
  gr_Full : bool;
  gr_SubscribedNames : list string
}.

(** [gd_denied] keeps the names of the denials, whose errors are only logged; a deadline
    of [gd_expiresAt] is in nanoseconds. *)
Record GeneratedDelta := mkDelta {
  gd_Resources : list Resource;
  gd_Removed : list string;
  gd_pending : list string;
  gd_versions : gmap string string;
  gd_expiresAt : gmap string Z;
  gd_denied : list string;
  gd_allowed : list string;
  gd_elideSentState : bool
}.

Definition deltaOf (resources : list Resource) (removed : list string) : GeneratedDelta :=
  mkDelta resources removed [] ∅ ∅ [] [] false.

Definition set_Resources (d : GeneratedDelta) (resources : list Resource) : GeneratedDelta :=
  mkDelta resources (gd_Removed d) (gd_pending d) (gd_versions d) (gd_expiresAt d) (gd_denied d)
    (gd_allowed d) (gd_elideSentState d).

Definition set_Removed (d : GeneratedDelta) (removed : list string) : GeneratedDelta :=
  mkDelta (gd_Resources d) removed (gd_pending d) (gd_versions d) (gd_expiresAt d) (gd_denied d)
    (gd_allowed d) (gd_elideSentState d).

(** A nil slice of names selects everything. *)
Definition selectionNames (subscription : SubscriptionView) : option (list string) :=
  if sv_wildcard subscription then None else Some (sv_names subscription).

(** ** Differences *)

(** Resources by wire name; [selectedMap] is the loop that fills it. *)
Abbreviation selection := (gmap string Resource).

Definition selectedMap (resources : list Resource) : selection :=
  foldl (λ (m : selection) r, <[XDSName r := r]> m) ∅ resources.

Definition diffResourceSelection (selected : selection) (sentNames : list string)
    (sentVersion : string → option string) : GeneratedDelta :=
  deltaOf
    (sort_on XDSName
       (base.filter (λ p : string * Resource, sentVersion p.1 ≠ Some (Hash p.2)) (map_to_list selected)).*2)
    (base.filter (λ name, selected !! name = None) sentNames).

Definition diffSelected (subscription : SubscriptionView) (selected : selection) : GeneratedDelta :=
  diffResourceSelection selected (SentNames subscription) (SentVersion subscription).

(** One explicitly subscribed name of [diffSubscribed] *)
Definition resendName (selected : selection) (st : GeneratedDelta * gset string * gset string)
    (name : string) : GeneratedDelta * gset string * gset string :=
  let '(delta, resourceNames, removedNames) := st in
  if decide (name = "*") then st else
  match selected !! name with
  | Some r =>
      if decide (name ∈ resourceNames) then st
      else (set_Resources delta (gd_Resources delta ++ [r]), {[XDSName r]} ∪ resourceNames, removedNames)
  | None =>
      if decide (name ∈ removedNames) then st
      else (set_Removed delta (gd_Removed delta ++ [name]), resourceNames, {[name]} ∪ removedNames)
  end.

Definition diffSubscribed (subscription : SubscriptionView) (selected : selection)
    (subscribedNames : list string) : GeneratedDelta :=
  let delta := diffSelected subscription selected in
  if decide (length subscribedNames = 0) then delta else
  (foldl (resendName selected)
     (delta, list_to_set (XDSName <$> gd_Resources delta), list_to_set (gd_Removed delta))
     subscribedNames).1.1.

(** ** Incremental generation *)

(** The order by wire name, then by key name *)
Definition wire_le (a b : Resource) : Prop :=
  slt (XDSName a) (XDSName b) ∨ XDSName a = XDSName b ∧ String.le (Name (Key a)) (Name (Key b)).

#[export] Instance wire_le_dec : RelDecision wire_le.
Proof. intros a b. unfold wire_le. apply _. Defined.

Definition sortResources : list Resource → list Resource := isort wire_le.

(** Of adjacent resources with one wire name the last stays. *)
Fixpoint collapseSortedXDSNames (resources : list Resource) : list Resource :=
  match resources with
  | r :: (r' :: _) as rest =>
      if decide (XDSName r = XDSName r') then collapseSortedXDSNames rest
      else r :: collapseSortedXDSNames rest
  | _ => resources
  end.

Definition unsentResources (subscription : SubscriptionView) (resources : list Resource)
    : list Resource :=
  base.filter (λ r, SentVersion subscription (XDSName r) ≠ Some (Hash r)) resources.

Section incremental.
Context (request : GenerationRequest) (visible : Resource → bool).
Context (previouslyVisible : option (Identity → bool)) (identityInScope : option (Identity → bool)).

(** Whether the identity of a candidate has to be withdrawn *)
Definition withdrawsIdentity (selected : option Resource) (identity : Identity) : bool :=
  match identityInScope with Some f => f identity | None => true end
  && negb (match selected with
           | Some r => bool_decide (id_Name identity = XDSName r)
           | None => false
           end)
  && (isSome (SentVersion (gr_Subscription request) (id_Name identity))
      || match previouslyVisible with Some f => f identity | None => false end).

(** The resource of a candidate that is selected from the snapshot *)
Definition selectedCandidate (candidate : Candidate) : option Resource :=
  match Get (gr_Snapshot request) (ca_Key candidate) with
  | Some r => if visible r then Some r else None
  | None => None
  end.

(** One candidate of the first loop *)
Definition reselect (st : list Resource * list string) (candidate : Candidate)
    : list Resource * list string :=
  let selected := selectedCandidate candidate in
  (st.1 ++ match selected with Some r => [r] | None => [] end,
   st.2 ++ (id_Name <$> base.filter (λ i, withdrawsIdentity selected i = true) (ca_Identities candidate))).

Definition lookupType : string :=
  if decide (gr_TypeURL request = WorkloadType) then AddressType else gr_TypeURL request.

(** The visible resource that now has the name, the last one of the lookup *)
Definition replacement (name : string) : option Resource :=
  last (base.filter (λ r, XDSName r = name ∧ visible r = true)
          (Lookup (gr_Snapshot request) lookupType name)).

(** The loop over the names to withdraw: names of selected resources are skipped, and a
    name that another resource took over becomes that resource. *)
Definition resolveRemovals (selected : list Resource) (removed : list string)
    : list Resource * list string :=
  foldl (λ st name,
      if BinarySearch (XDSName <$> selected) name then st else
      match replacement name with
      | Some r => (st.1 ++ [r], st.2)
      | None => (st.1, st.2 ++ [name])
      end) (selected, []) removed.

Definition generateIncremental : GeneratedDelta :=
  let '(resources, removed) := foldl reselect ([], []) (Candidates (gr_Update request) (gr_TypeURL request)) in
  let resources := collapseSortedXDSNames (sortResources resources) in
  let removed := sorted_unique removed in
  let selectedCount := length resources in
  let '(resources, removed) := resolveRemovals resources removed in
  let resources := if decide (length resources = selectedCount) then resources
                   else sortResources resources in
  deltaOf
    (if decide (gr_TypeURL request = WorkloadType) then resources
     else unsentResources (gr_Subscription request) resources)
    removed.

End incremental.

(** ** Selection for gateways *)

Definition scopeAllows (scope : ClientScope) (r : Resource) : bool :=
  if decide (GatewayOwner (Facts r) = "" ∨ GatewayOwner (Facts r) ≠ cs_GatewayKey scope) then false
  else if decide (cs_Class scope ≠ ClientEgressGateway ∧ cs_Class scope ≠ ClientAgentioEgress) then false
  else bool_decide (TypeURL (Key r) = SecretType)
       || bool_decide (AgentioEgress (Facts r) = bool_decide (cs_Class scope = ClientAgentioEgress)).

(** The loop of [orderedUnique]: a key that comes again replaces its first occurrence. *)
Definition uniqueStep (result : list Resource) (r : Resource) : list Resource :=
  match list_find (λ x, Key x = Key r) result with
  | Some (position, _) => <[position := r]> result
  | None => result ++ [r]
  end.

Definition orderedUnique (resources : list Resource) : list Resource :=
  sortResources (foldl uniqueStep [] resources).

Definition filterScope (scope : ClientScope) (resources : list Resource) : list Resource :=
  orderedUnique (base.filter (λ r, scopeAllows scope r = true) resources).

Definition resourceNamesMatch (r : Resource) (contains : string → bool) : bool :=
  contains (XDSName r) || existsb contains (Aliases r) || contains (Name (Key r)).

Definition selectGeneric (scope : ClientScope) (snapshot : ResourceSet) (typeURL : string)
    (names : option (list string)) : list Resource :=
  let owned := ListResourcesOwnedByGateway snapshot typeURL (cs_GatewayKey scope) in
  match names with
  | None => filterScope scope owned
  | Some names =>
      filterScope scope
        (base.filter (λ r, resourceNamesMatch r (λ n, bool_decide (n ∈ names)) = true) owned)
  end.

(** ** SnapshotGenerator *)

Definition generateSnapshotDiff (request : GenerationRequest) : GeneratedDelta :=
  let sub := gr_Subscription request in
  let selected := selectedMap (selectGeneric (gr_Scope request) (gr_Snapshot request)
                                 (gr_TypeURL request) (selectionNames sub)) in
  if decide (length (gr_SubscribedNames request) = 0) then diffSelected sub selected else
  diffResourceSelection selected (SentNames sub) (λ name,
    if match selected !! name with
       | Some r => resourceNamesMatch r (λ n, bool_decide (n ∈ gr_SubscribedNames request))
       | None => bool_decide ("" ∈ gr_SubscribedNames request)
       end
    then None else SentVersion sub name).

Definition snapshotVisible (request : GenerationRequest) (r : Resource) : bool :=
  scopeAllows (gr_Scope request) r && allows (gr_Subscription request) r.

Definition snapshotInScope (request : GenerationRequest) (identity : Identity) : bool :=
  scopeAllows (gr_Scope request)
    (mkResource (mkKey (gr_TypeURL request) "") "" None [] "" (id_Facts identity)).

Definition generateSnapshotIncremental (request : GenerationRequest) : GeneratedDelta :=
  generateIncremental request (snapshotVisible request) None (Some (snapshotInScope request)).

(** [cancelled] is the error of the context *)
Definition SnapshotGenerate (cancelled : option string) (request : GenerationRequest)
    : result GeneratedDelta :=
  match cancelled with
  | Some e => Err e
  | None =>
      check! bool_decide (gr_TypeURL request ≠ "") else "generation type URL is required" in
      Ok (if gr_Full request then generateSnapshotDiff request else generateSnapshotIncremental request)
  end.
