(* ===== verification/Generators.v ===== *)
(** * Generators: addresses, workloads, authorizations, policies and sandboxes
    (src/pkg/xds/workload_generator.go, authorization_generator.go,
    authorization_visibility.go, traffic_policy_generator.go, sandbox_generator.go,
    source.go, server.go) *)

From S2P Require Import Prelude Identity Resource ResourceIndex ResourceSet Update Watch Generator.

(** * AddressSelection: which addresses a client sees
    (src/pkg/xds/workload_visibility.go, workload_generator.go)

    A ztunnel sees its own workloads, the services they belong to and the gateways they
    use; gateways see everything they subscribe to. The same predicate serves full
    listing through the indexes and the reselection of single candidates. *)

(** ** The workloads of a scope *)

Definition workloadScopeQuery (scope : ClientScope) : option WorkloadQuery :=
  match cs_Class scope with
  | ClientDedicatedZTunnel =>
      if bool_decide (cs_WorkloadUID scope ≠ "") && is_ok (SourceRef_Validate (cs_Source scope))
      then Some (mkQuery false false (cs_WorkloadUID scope) (cs_Source scope) ""
                   (Some (cs_Principal scope)) "" "" "" "" "")
      else None
  | ClientSharedZTunnel =>
      Some (mkQuery false false "" zeroSourceRef (cs_NodeName scope) None "" "" "" "" "")
  | _ => None
  end.

Definition workloadMatchesScope (scope : ClientScope) (workload : option WorkloadResourceFacts) : bool :=
  match workloadScopeQuery scope with Some query => Matches query workload | None => false end.

Definition scopedWorkloads (scope : ClientScope) (snapshot : ResourceSet) (typeURL : string)
    : list Resource :=
  match workloadScopeQuery scope with
  | None => []
  | Some query => ListWorkloads snapshot typeURL query
  end.

(** Clients that see every address they subscribe to *)
Definition gatewayClass (class : ClientClass) : bool :=
  bool_decide (class = ClientEgressGateway) || bool_decide (class = ClientAgentioEgress)
  || bool_decide (class = ClientEPE).

(** ** The selection *)

(** [addressSelection]; [as_serviceKeys = None] is the nil set. *)
Record addressSelection := mkSelection {
  as_resources : ResourceSet;
  as_scope : ClientScope;
  as_typeURL : string;
  as_subscription : SubscriptionView;
  as_serviceKeys : option (gset string)
}.

Definition newAddressSelection (scope : ClientScope) (resources : ResourceSet) (typeURL : string)
    (subscription : SubscriptionView) : addressSelection :=
  mkSelection resources scope typeURL subscription None.

(** The scope's query for the workloads that name a service or a gateway *)
Definition referenceQuery (query : WorkloadQuery) (serviceKey gatewayReference : string) : WorkloadQuery :=
  mkQuery (wq_AuthorizationRefsOnly query) (wq_TrafficPolicyRefsOnly query) (wq_WorkloadUID query)
    (wq_Source query) (wq_NodeName query) (wq_Principal query) (wq_Namespace query)
    serviceKey gatewayReference (wq_AuthorizationReference query) (wq_TrafficPolicyReference query).

Definition hasScopedWorkload (v : addressSelection) (serviceKey gatewayReference : string) : bool :=
  match workloadScopeQuery (as_scope v) with
  | None => false
  | Some query => HasWorkload (as_resources v) (as_typeURL v) (referenceQuery query serviceKey gatewayReference)
  end.

Definition matchesWorkload (v : addressSelection) (r : Resource) : bool :=
  workloadMatchesScope (as_scope v) (rf_Workload (Facts r)).

(** A gateway that the scope's workloads use *)
Definition usesGateway (v : addressSelection) (r : Resource) : bool :=
  bool_decide (GatewayOwner (Facts r) ≠ "") && hasScopedWorkload v "" (GatewayOwner (Facts r)).

Definition addressVisible (v : addressSelection) (r : Resource) : bool :=
  if gatewayClass (cs_Class (as_scope v)) then true
  else if usesGateway v r then true
  else if IsWorkloadAddress r then matchesWorkload v r
  else if decide (as_typeURL v ≠ AddressType) then false
  else match rf_Service (Facts r) with
       | Some s => hasScopedWorkload v (ServiceKey s) ""
       | None => false
       end.

(** [selectedServices] and [serviceResourcesForKey] of one key *)
Definition serviceResourcesForKey (snapshot : ResourceSet) (serviceKey : string) : list Resource :=
  base.filter (λ r, ServiceKey <$> rf_Service (Facts r) = Some serviceKey)
    (Lookup snapshot AddressType serviceKey).

Definition subscribesService (v : addressSelection) (key : string) (contains : string → bool) : bool :=
  match as_serviceKeys v with
  | Some keys => bool_decide (key ∈ keys)
  | None => existsb (λ s, resourceNamesMatch s contains) (serviceResourcesForKey (as_resources v) key)
  end.

Definition selectedByNames (v : addressSelection) (r : Resource) (contains : string → bool) : bool :=
  resourceNamesMatch r contains
  || match rf_Workload (Facts r) with
     | Some w => existsb (λ key, subscribesService v key contains) (wf_ServiceKeys w)
     | None => false
     end.

Definition addressSelected (v : addressSelection) (r : Resource) : bool :=
  let class := cs_Class (as_scope v) in
  if sv_wildcard (as_subscription v) then addressVisible v r
  else if decide (class ≠ ClientSharedZTunnel ∧ length (sv_names (as_subscription v)) = 0) then false
  else
    let byNames := selectedByNames v r (containsSorted (sv_names (as_subscription v))) in
    if gatewayClass class then byNames
    else if usesGateway v r then true
    else if bool_decide (class = ClientSharedZTunnel) && matchesWorkload v r then true
    else if bool_decide (class = ClientDedicatedZTunnel) && negb (addressVisible v r) then false
    else byNames.

(** ** Listing through the indexes *)

Definition gatewayReferenceKeys (resources : list Resource) : gset string :=
  list_to_set (resources ≫= λ r,
    match rf_Workload (Facts r) with Some w => wf_GatewayReferences w | None => [] end).

Definition workloadServiceKeys (resources : list Resource) : gset string :=
  list_to_set (resources ≫= λ r,
    match rf_Workload (Facts r) with Some w => wf_ServiceKeys w | None => [] end).

Definition gatewayResourcesForKeys (snapshot : ResourceSet) (typeURL : string) (keys : gset string)
    : list Resource :=
  orderedUnique (elements keys ≫= ListResourcesOwnedByGateway snapshot typeURL).

Definition selectedServices (snapshot : ResourceSet) (serviceKeys : gset string) : list Resource :=
  elements serviceKeys ≫= serviceResourcesForKey snapshot.

Definition serviceKeysForNames (snapshot : ResourceSet) (names : list string) : gset string :=
  list_to_set (names ≫= λ name,
    omap (λ r, ServiceKey <$> rf_Service (Facts r)) (Lookup snapshot AddressType name)).

(** The candidates the scope contributes *)
Definition scopeCandidates (v : addressSelection) : list Resource :=
  match workloadScopeQuery (as_scope v) with
  | None => []
  | Some query =>
      let workloads := ListWorkloads (as_resources v) (as_typeURL v) query in
      workloads
      ++ gatewayResourcesForKeys (as_resources v) (as_typeURL v) (gatewayReferenceKeys workloads)
      ++ (if sv_wildcard (as_subscription v) && bool_decide (as_typeURL v = AddressType)
          then selectedServices (as_resources v) (workloadServiceKeys workloads) else [])
  end.

(** The candidates the names contribute, with the services they stand for *)
Definition namedCandidates (v : addressSelection) (serviceKeys : gset string) : list Resource :=
  (sv_names (as_subscription v) ≫= λ name,
     base.filter (λ r, as_typeURL v = AddressType ∨ IsWorkloadAddress r = true)
       (Lookup (as_resources v) (as_typeURL v) name))
  ++ (elements serviceKeys ≫= λ key,
       base.filter (λ r, IsWorkloadAddress r = true) (ListServiceMembers (as_resources v) (as_typeURL v) key)).

Definition selectionList (v : addressSelection) : list Resource :=
  let class := cs_Class (as_scope v) in
  let sub := as_subscription v in
  if sv_wildcard sub && gatewayClass class then ListType (as_resources v) (as_typeURL v)
  else if negb (sv_wildcard sub) && bool_decide (length (sv_names sub) = 0)
          && bool_decide (class ≠ ClientSharedZTunnel) then []
  else if sv_wildcard sub then orderedUnique (scopeCandidates v)
  else
    let serviceKeys := serviceKeysForNames (as_resources v) (sv_names sub) in
    let v := mkSelection (as_resources v) (as_scope v) (as_typeURL v) sub (Some serviceKeys) in
    orderedUnique (base.filter (λ r, addressSelected v r = true)
                     (scopeCandidates v ++ namedCandidates v serviceKeys)).

Definition selectWorkloadResources (scope : ClientScope) (snapshot : ResourceSet) (typeURL : string)
    (names : option (list string)) : list Resource :=
  selectionList (newAddressSelection scope snapshot typeURL
    (mkView (negb (isSome names)) (default [] names) ∅)).

(** ** Addresses and workloads *)

(** The workloads whose streams had an identity before *)
Definition previousScope (request : GenerationRequest) (v : addressSelection) (identity : Identity) : bool :=
  addressVisible v (mkResource (mkKey "" "") (id_Name identity) None [] "" (id_Facts identity))
  || existsb (λ w, workloadMatchesScope (gr_Scope request)
       (Some (mkWorkloadFacts "" (wi_UID w) (wi_Source w) (wi_NodeName w) (wi_Principal w) [] [] [] [])))
     (elements (id_Workloads identity)).

Definition set_elide (d : GeneratedDelta) (elide : bool) : GeneratedDelta :=
  mkDelta (gd_Resources d) (gd_Removed d) (gd_pending d) (gd_versions d) (gd_expiresAt d)
    (gd_denied d) (gd_allowed d) elide.

Definition generateWDSIncremental (request : GenerationRequest) (workloadsOnly : bool) : GeneratedDelta :=
  let v := newAddressSelection (gr_Scope request) (gr_Snapshot request) AddressType
             (gr_Subscription request) in
  let visible r := (negb workloadsOnly || IsWorkloadAddress r) && addressSelected v r in
  let elide := sv_wildcard (gr_Subscription request) && negb workloadsOnly in
  set_elide
    (generateIncremental request visible (if elide then Some (previousScope request v) else None) None)
    elide.

(** Decoding an Address and encoding its Workload: [Err] when the payload is no Address,
    [Ok None] when it is one without a Workload *)
Class AddressCodec := { workloadValue : option Any → result (option Any) }.

Section workloads.
Context `{Codec} `{AddressCodec}.

(** One address of [projectAddresses] *)
Definition projectAddress (result : list Resource) (address : Resource) : Prelude.result (list Resource) :=
  let! value := workloadValue (Value address) in
  match value with
  | None => Ok result
  | Some value =>
      let! r := NewResource (mkKey WorkloadType (Name (Key address))) (XDSName address) (Some value)
                  (Aliases address) (Facts address) in
      Ok (result ++ [r])
  end.

Definition projectAddresses (addresses : list Resource) : result (list Resource) :=
  rfold projectAddress addresses [].

(** The workloads a subscribed name stands for: addresses with the name, and the members
    of services with the name *)
Definition demandedWorkloads (snapshot : ResourceSet) (name : string) : list string :=
  XDSName <$> (Lookup snapshot AddressType name ≫= λ address,
    (if IsWorkloadAddress address then [address] else [])
    ++ match rf_Service (Facts address) with
       | Some s => base.filter (λ m, IsWorkloadAddress m = true)
                     (ListServiceMembers snapshot AddressType (ServiceKey s))
       | None => []
       end).

(** [markRequested] for all of them: the versions to send again, and whether any is selected *)
Definition resendNames (sub : SubscriptionView) (selected : selection) (names : list string) : gset string :=
  list_to_set (base.filter (λ name, selected !! name ≠ None ∧ SentVersion sub name = Hash <$> selected !! name) names).

Definition diffDemandWorkloads (request : GenerationRequest) (selected : selection) : GeneratedDelta :=
  let sub := gr_Subscription request in
  if decide (length (gr_SubscribedNames request) = 0) then diffSelected sub selected else
  let names := base.filter (λ n, n ≠ "*") (gr_SubscribedNames request) in
  let resend := resendNames sub selected (names ≫= demandedWorkloads (gr_Snapshot request)) in
  let missing := base.filter (λ n,
      Forall (λ x, selected !! x = None) (demandedWorkloads (gr_Snapshot request) n)) names in
  let delta := diffResourceSelection selected (SentNames sub)
                 (λ name, if decide (name ∈ resend) then None else SentVersion sub name) in
  if decide (length missing = 0) then delta
  else set_Removed delta (sorted_unique (gd_Removed delta ++ missing)).

Definition generateDirectWorkloads (request : GenerationRequest) : result GeneratedDelta :=
  let sub := gr_Subscription request in
  if gr_Full request || FullFor (gr_Update request) WorkloadType then
    let! projected := projectAddresses
      (selectWorkloadResources (gr_Scope request) (gr_Snapshot request) AddressType (selectionNames sub)) in
    Ok (diffDemandWorkloads request (selectedMap projected))
  else
    let delta := generateWDSIncremental request true in
    let! projected := projectAddresses (gd_Resources delta) in
    Ok (set_elide (set_Resources delta (unsentResources sub projected)) false).

Definition ztunnelClass (class : ClientClass) : bool :=
  bool_decide (class = ClientDedicatedZTunnel) || bool_decide (class = ClientSharedZTunnel).

Definition generateAddresses (request : GenerationRequest) : GeneratedDelta :=
  let sub := gr_Subscription request in
  if gr_Full request then
    let resources := selectWorkloadResources (gr_Scope request) (gr_Snapshot request)
                       (gr_TypeURL request) (selectionNames sub) in
    if sv_wildcard sub && bool_decide (sv_sent sub = ∅) && ztunnelClass (cs_Class (gr_Scope request))
    then set_elide (deltaOf (collapseSortedXDSNames resources)
                      (gd_Removed (generateWDSIncremental request false))) true
    else
      let delta := set_elide (diffSelected sub (selectedMap resources)) (sv_wildcard sub) in
      if sv_wildcard sub
      then set_Removed delta
             (sorted_unique (gd_Removed delta ++ gd_Removed (generateWDSIncremental request false)))
      else delta
  else generateWDSIncremental request false.

Definition WorkloadGenerate (cancelled : option string) (request : GenerationRequest)
    : result GeneratedDelta :=
  match cancelled with
  | Some e => Err e
  | None =>
      check! bool_decide (gr_TypeURL request = AddressType ∨ gr_TypeURL request = WorkloadType)
        else "workload generator does not support type URL" in
      if decide (gr_TypeURL request = WorkloadType) then generateDirectWorkloads request
      else Ok (generateAddresses request)
  end.

End workloads.

(** ** Authorizations *)

Definition refsQuery (authorizations policies : bool) : WorkloadQuery :=
  mkQuery authorizations policies "" zeroSourceRef "" None "" "" "" "" "".

Definition authorizationWorkloadQuery (scope : ClientScope) : option WorkloadQuery :=
  if decide (cs_Class scope = ClientEgressGateway) then Some (refsQuery true false)
  else workloadScopeQuery scope.

Definition workloadAuthorizationNames (resources : list Resource) : gset string :=
  list_to_set (resources ≫= λ r,
    match rf_Workload (Facts r) with Some w => wf_AuthorizationRefs w | None => [] end).

Definition workloadNamespaces (resources : list Resource) : gset string :=
  list_to_set (omap (λ r, wf_Namespace <$> rf_Workload (Facts r)) resources).

(** [authorizationVisibility], whose snapshot is the caller's *)
Record authorizationVisibility := mkAuthVisibility {
  av_hasWorkloads : bool;
  av_namespaces : gset string;
  av_policyNames : gset string
}.

Definition newAuthorizationVisibility (scope : ClientScope) (resources : ResourceSet)
    : authorizationVisibility :=
  match authorizationWorkloadQuery scope with
  | None => mkAuthVisibility false ∅ ∅
  | Some query =>
      let workloads := ListWorkloads resources AddressType query in
      mkAuthVisibility (bool_decide (0 < length workloads)) (workloadNamespaces workloads)
        (workloadAuthorizationNames workloads)
  end.

Definition selectAuthorizationResources (scope : ClientScope) (snapshot : ResourceSet)
    (names : option (list string)) : list Resource :=
  let v := newAuthorizationVisibility scope snapshot in
  if negb (av_hasWorkloads v) then [] else
  let selected := orderedUnique
    (ListGlobalAuthorizations snapshot
     ++ (elements (av_namespaces v) ≫= ListNamespaceAuthorizations snapshot)
     ++ (elements (av_policyNames v) ≫= Lookup snapshot WorkloadAuthorizationType)) in
  match names with
  | None => selected
  | Some names =>
      orderedUnique (names ≫= λ name,
        base.filter (λ r, Key r ∈ Key <$> selected) (Lookup snapshot WorkloadAuthorizationType name))
  end.

Definition namespaceQuery (q : WorkloadQuery) (namespace : string) : WorkloadQuery :=
  mkQuery (wq_AuthorizationRefsOnly q) (wq_TrafficPolicyRefsOnly q) (wq_WorkloadUID q) (wq_Source q)
    (wq_NodeName q) (wq_Principal q) namespace (wq_ServiceKey q) (wq_GatewayReference q)
    (wq_AuthorizationReference q) (wq_TrafficPolicyReference q).

Definition authorizationReferenceQuery (q : WorkloadQuery) (name : string) : WorkloadQuery :=
  mkQuery (wq_AuthorizationRefsOnly q) (wq_TrafficPolicyRefsOnly q) (wq_WorkloadUID q) (wq_Source q)
    (wq_NodeName q) (wq_Principal q) (wq_Namespace q) (wq_ServiceKey q) (wq_GatewayReference q)
    name (wq_TrafficPolicyReference q).

Definition policyReferenceQuery (q : WorkloadQuery) (name : string) : WorkloadQuery :=
  mkQuery (wq_AuthorizationRefsOnly q) (wq_TrafficPolicyRefsOnly q) (wq_WorkloadUID q) (wq_Source q)
    (wq_NodeName q) (wq_Principal q) (wq_Namespace q) (wq_ServiceKey q) (wq_GatewayReference q)
    (wq_AuthorizationReference q) name.

Definition authorizationVisibleForScope (scope : ClientScope) (resources : ResourceSet) (r : Resource) : bool :=
  match rf_Authorization (Facts r), authorizationWorkloadQuery scope with
  | Some a, Some query =>
      if decide (af_Scope a = AuthorizationScopeGlobal) then HasWorkload resources AddressType query
      else if decide (af_Scope a = AuthorizationScopeNamespace)
      then HasWorkload resources AddressType (namespaceQuery query (af_Namespace a))
      else
        bool_decide (Name (Key r) ≠ "")
        && HasWorkload resources AddressType (authorizationReferenceQuery query (Name (Key r)))
        || bool_decide (XDSName r ≠ "") && bool_decide (XDSName r ≠ Name (Key r))
           && HasWorkload resources AddressType (authorizationReferenceQuery query (XDSName r))
  | _, _ => false
  end.

Definition generateAuthorizationIncremental (request : GenerationRequest) : GeneratedDelta :=
  generateIncremental request
    (λ r, allows (gr_Subscription request) r
          && authorizationVisibleForScope (gr_Scope request) (gr_Snapshot request) r) None None.

Definition AuthorizationGenerate (cancelled : option string) (request : GenerationRequest)
    : result GeneratedDelta :=
  match cancelled with
  | Some e => Err e
  | None =>
      check! bool_decide (gr_TypeURL request = WorkloadAuthorizationType)
        else "authorization generator does not support type URL" in
      Ok (if negb (gr_Full request) && negb (FullFor (gr_Update request) WorkloadAuthorizationType)
          then generateAuthorizationIncremental request
          else diffSelected (gr_Subscription request)
                 (selectedMap (selectAuthorizationResources (gr_Scope request) (gr_Snapshot request)
                                 (selectionNames (gr_Subscription request)))))
  end.

(** ** Traffic policies *)

Definition trafficPolicyWorkloadQuery (scope : ClientScope) : option WorkloadQuery :=
  if gatewayClass (cs_Class scope) then Some (refsQuery false true) else workloadScopeQuery scope.

Definition policyVisible (query : WorkloadQuery) (snapshot : ResourceSet) (r : Resource) : bool :=
  HasWorkload snapshot AddressType (policyReferenceQuery query (Name (Key r))).

Definition selectTrafficPolicyResources (scope : ClientScope) (snapshot : ResourceSet)
    (sub : SubscriptionView) : selection :=
  match trafficPolicyWorkloadQuery scope with
  | None => ∅
  | Some query =>
      if sv_wildcard sub then
        let names : gset string := list_to_set (ListWorkloads snapshot AddressType query ≫= λ w,
          match rf_Workload (Facts w) with Some f => wf_TrafficPolicyRefs f | None => [] end) in
        selectedMap (base.filter (λ r, allows sub r = true)
          (omap (λ name, Get snapshot (mkKey TrafficPolicyType name)) (elements names)))
      else
        selectedMap (base.filter (λ r, allows sub r = true ∧ policyVisible query snapshot r = true)
          (sv_names sub ≫= Lookup snapshot TrafficPolicyType))
  end.

Definition TrafficPolicyGenerate (cancelled : option string) (request : GenerationRequest)
    : result GeneratedDelta :=
  match cancelled with
  | Some e => Err e
  | None =>
      check! bool_decide (gr_TypeURL request = TrafficPolicyType)
        else "traffic policy generator does not support type URL" in
      Ok (if gr_Full request || FullFor (gr_Update request) (gr_TypeURL request)
          then diffSubscribed (gr_Subscription request)
                 (selectTrafficPolicyResources (gr_Scope request) (gr_Snapshot request) (gr_Subscription request))
                 (gr_SubscribedNames request)
          else generateIncremental request
                 (λ r, match trafficPolicyWorkloadQuery (gr_Scope request) with
                       | None => false
                       | Some query => allows (gr_Subscription request) r
                                       && policyVisible query (gr_Snapshot request) r
                       end) None None)
  end.

(** ** Sandboxes *)

Definition scopedSandboxNames (scope : ClientScope) (snapshot : ResourceSet) : gset string :=
  list_to_set (scopedWorkloads scope snapshot AddressType ≫= λ w,
    match rf_Workload (Facts w) with
    | Some f => (λ s, Name (Key s)) <$> ListSandboxesByAttester snapshot (wf_WorkloadUID f)
    | None => []
    end).

Definition uidScopedQuery (q : WorkloadQuery) (uid : string) : WorkloadQuery :=
  mkQuery (wq_AuthorizationRefsOnly q) (wq_TrafficPolicyRefsOnly q) uid (wq_Source q)
    (wq_NodeName q) (wq_Principal q) (wq_Namespace q) (wq_ServiceKey q) (wq_GatewayReference q)
    (wq_AuthorizationReference q) (wq_TrafficPolicyReference q).

Definition sandboxResourceVisible (scope : ClientScope) (snapshot : ResourceSet) (sandbox : Resource) : bool :=
  if decide (cs_Class scope = ClientEgressGateway ∨ cs_Class scope = ClientAgentioEgress) then true
  else match rf_Sandbox (Facts sandbox) with
  | None => false
  | Some facts =>
      if decide (AttesterWorkloadUID facts = "") then false else
      match workloadScopeQuery scope with
      | None => false
      | Some query =>
          if decide (wq_WorkloadUID query ≠ "" ∧ wq_WorkloadUID query ≠ AttesterWorkloadUID facts) then false
          else HasWorkload snapshot AddressType (uidScopedQuery query (AttesterWorkloadUID facts))
      end
  end.

Definition sandboxVisible (scope : ClientScope) (snapshot : ResourceSet) (uid : string) : bool :=
  match Get snapshot (mkKey SandboxType uid) with
  | Some sandbox => sandboxResourceVisible scope snapshot sandbox
  | None => false
  end.

Definition selectSandboxResources (scope : ClientScope) (snapshot : ResourceSet) (typeURL : string)
    (sub : SubscriptionView) : selection :=
  selectedMap (base.filter (λ r, allows sub r = true)
    (if decide (cs_Class scope = ClientEgressGateway ∨ cs_Class scope = ClientAgentioEgress) then
       if sv_wildcard sub then ListType snapshot typeURL else sv_names sub ≫= Lookup snapshot typeURL
     else if bool_decide (typeURL = SandboxType) && negb (sv_wildcard sub) then
       omap (λ uid, if sandboxVisible scope snapshot uid then Get snapshot (mkKey typeURL uid) else None)
         (sv_names sub)
     else omap (λ uid, Get snapshot (mkKey SandboxType uid)) (elements (scopedSandboxNames scope snapshot)))).

(** The source of truth for sandboxes; [None] is a nil reader. *)
Abbreviation SourceReader := (option (ResourceKey → option string)).

Definition matchesSource (r : Resource) (source : SourceReader) : bool :=
  match source with
  | None => true
  | Some lookup => bool_decide (lookup (Key r) = Some (UID (rf_SourceIdentity (Facts r))))
  end.

(** Whether a removal waits for the publication of a sandbox that exists *)
Definition defersRemoval (request : GenerationRequest) (lookup : ResourceKey → option string)
    (name : string) : bool :=
  negb (isSome (SentVersion (gr_Subscription request) name))
  && isSome (lookup (mkKey (gr_TypeURL request) name)).

Definition deferUnpublishedRemovals (request : GenerationRequest) (delta : GeneratedDelta)
    (source : SourceReader) : GeneratedDelta :=
  match source with
  | None => delta
  | Some lookup =>
      mkDelta (gd_Resources delta)
        (base.filter (λ n, defersRemoval request lookup n = false) (gd_Removed delta))
        (gd_pending delta ++ base.filter (λ n, defersRemoval request lookup n = true) (gd_Removed delta))
        (gd_versions delta) (gd_expiresAt delta) (gd_denied delta) (gd_allowed delta)
        (gd_elideSentState delta)
  end.

Definition SandboxGenerate (source : SourceReader) (cancelled : option string)
    (request : GenerationRequest) : result GeneratedDelta :=
  match cancelled with
  | Some e => Err e
  | None =>
      check! bool_decide (gr_TypeURL request = SandboxType)
        else "sandbox generator does not support type URL" in
      Ok (if gr_Full request || FullFor (gr_Update request) (gr_TypeURL request) then
            let selected := selectSandboxResources (gr_Scope request) (gr_Snapshot request)
                              (gr_TypeURL request) (gr_Subscription request) in
            let selected := base.filter (λ p : string * Resource, matchesSource p.2 source = true) selected in
            deferUnpublishedRemovals request
              (diffSubscribed (gr_Subscription request) selected (gr_SubscribedNames request)) source
          else generateIncremental request
                 (λ r, allows (gr_Subscription request) r
                       && sandboxResourceVisible (gr_Scope request) (gr_Snapshot request) r
                       && matchesSource r source) None None)
  end.

(** ** Dispatch *)

(** The generators the server registers by type; certificates are generated elsewhere. *)
Definition serverGenerate `{Codec} `{AddressCodec} (source : SourceReader)
    (secrets : GenerationRequest → result GeneratedDelta) (cancelled : option string)
    (request : GenerationRequest) : result GeneratedDelta :=
  let t := gr_TypeURL request in
  if decide (t = AddressType ∨ t = WorkloadType) then WorkloadGenerate cancelled request
  else if decide (t = WorkloadAuthorizationType) then AuthorizationGenerate cancelled request
  else if decide (t = TrafficPolicyType) then TrafficPolicyGenerate cancelled request
  else if decide (t = SandboxType) then SandboxGenerate source cancelled request
  else if decide (t = SecretType) then secrets request
  else SnapshotGenerate cancelled request.
