(* ===== verification/Delta.v ===== *)
(** * Delta: responses, pushes and requests of one Delta stream
    (src/pkg/xds/delta.go, source.go, auth.go)

    The handlers of one stream: a request changes a watch and may be answered, a notice
    is pushed type by type, and every response that is sent updates the watch. The
    generators, the outcome of a send and the clock are parameters; certificate (SDS)
    watches have a session of their own, in [Certificates]. *)

From stdpp Require Import pretty.
From S2P Require Import Prelude Identity Resource ResourceIndex ResourceSet Update Scoped Watch Generator.

(** ** Validation of a generated delta *)

(** One resource of [validateGeneratedDelta]: the wire resources, the names and the
    expired names so far *)
Definition validateOne (typeURL : string) (now : Z) (delta : GeneratedDelta)
    (st : list WireResource * gset string * list string) (r : Resource)
    : result (list WireResource * gset string * list string) :=
  let '(wire, names, expired) := st in
  check! bool_decide (TypeURL (Key r) = typeURL)
         && match Value r with Some v => bool_decide (any_TypeUrl v = typeURL) | None => false end
    else "generator returned resource with mismatched type URL" in
  check! negb (blank (Name (Key r)) || blank (XDSName r) || bool_decide (Hash r = ""))
    else "generator returned a resource with an invalid name or version" in
  check! bool_decide (XDSName r ∉ names) else "generator returned duplicate resource name" in
  let names := {[XDSName r]} ∪ names in
  let version := default (Hash r) (gd_versions delta !! XDSName r) in
  match gd_expiresAt delta !! XDSName r with
  | Some deadline =>
      if decide (deadline - now ≤ 0)%Z then Ok (wire, names, expired ++ [XDSName r])
      else Ok (wire ++ [mkWireResource (XDSName r) (Aliases r) version (Value r)
                          (Some (deadline - now)%Z)], names, expired)
  | None => Ok (wire ++ [mkWireResource (XDSName r) (Aliases r) version (Value r) None], names, expired)
  end.

(** One removed name, after [previous] *)
Definition validateRemoved (names : gset string) (previous : option string) (name : string)
    : result (option string) :=
  check! negb (blank name) else "generator returned an empty removed resource name" in
  check! bool_decide (previous ≠ Some name) else "generator returned duplicate removed resource name" in
  check! bool_decide (name ∉ names) else "generator both generated and removed resource" in
  Ok (Some name).

Definition validateGeneratedDelta (typeURL : string) (now : Z) (delta : GeneratedDelta)
    : result (list WireResource * list string) :=
  let! (wire, names, expired) :=
    rfold (validateOne typeURL now delta) (sort_on XDSName (gd_Resources delta)) ([], ∅, []) in
  let removed := sort_strings (gd_Removed delta) in
  let! _ := rfold (validateRemoved names) removed None in
  Ok (wire, sort_strings (removed ++ expired)).

(** ** Sending *)

Definition denyName (denied : gset string) (name : string) : gset string := {[name]} ∪ denied.

Definition applyGenerationOutcomes (w : watchState) (delta : GeneratedDelta) : watchState :=
  set_demands w
    (foldl denyName (foldl (λ (s : gset string) name, s ∖ {[name]}) (ws_denied w) (gd_allowed delta))
       (gd_denied delta))
    (ws_pending w).

(** Extension configurations are never removed: their outstanding removals are dropped. *)
Definition dropRemovals (w : watchState) (removed : list string) : watchState :=
  let w := if decide (length removed = 0) then w else indexPendingResponse w in
  settleRecovery
    (set_acks w (ws_pendingResponse w)
       (foldl (λ (m : gmap string string) name, delete name m) (ws_pendingAcks w) removed)
       (ws_recovering w)).

(** The sent versions after a response *)
Definition recordSent (sent : gmap string string) (elide : bool) (r : DeltaResponse)
    : gmap string string :=
  if elide then ∅
  else foldl (λ (m : gmap string string) x, <[wr_Name x := wr_Version x]> m)
         (foldl (λ (m : gmap string string) name, delete name m) sent (dp_Removed r))
         (dp_Resources r).

Definition sameNames (p r : DeltaResponse) : bool :=
  bool_decide (wr_Name <$> dp_Resources p = wr_Name <$> dp_Resources r)
  && bool_decide (dp_Removed p = dp_Removed r).

Definition trackDelivery (w : watchState) (r : DeltaResponse) : watchState :=
  if negb (ws_trackAcks w) then w else
  let w := match ws_pendingResponse w with
           | Some p => if sameNames p r then set_acks w None (ws_pendingAcks w) (ws_recovering w) else w
           | None => w
           end in
  let w := indexPendingResponse w in
  if decide (ws_pendingAcks w = ∅) then set_acks w (Some r) (ws_pendingAcks w) (ws_recovering w)
  else set_acks w (ws_pendingResponse w) (markNames (ws_pendingAcks w) (responseNames r) (dp_Nonce r))
         (ws_recovering w).

(** What a response that was sent does to the watch *)
Definition recordResponse (w : watchState) (now : Z) (elide : bool) (r : DeltaResponse) : watchState :=
  let w := set_demands w (ws_denied w) (ws_pending w ∖ list_to_set (responseNames r)) in
  let w := set_sent w (recordSent (ws_sent w) elide r) in
  let w := trackDelivery w r in
  let w := set_diagnostics w (dp_Nonce r) (ws_nonceAcked w) (ws_nonceNacked w) (ws_lastError w)
             (ws_lastErrorCode w) in
  set_unacknowledged w (ws_unacknowledged w ++ [mkSentResponse (dp_Nonce r) now])
    (ws_receivedAcknowledgement w).

(** The server's nonce counter, a [uint64] *)
Definition nextNonce (nonce : N) : N := ((nonce + 1) `mod` 2 ^ 64)%N.

(** A watch, the nonce counter, and the responses that were sent, latest last *)
Record Sender := mkSender {
  sd_watch : watchState;
  sd_nonce : N;
  sd_output : list DeltaResponse
}.

Section sending.
Context (send : DeltaResponse → option string) (now : Z).

Definition sendGeneratedDelta (s : Sender) (request : GenerationRequest) (delta : GeneratedDelta)
    (force : bool) : Sender * option string :=
  match validateGeneratedDelta (gr_TypeURL request) now delta with
  | Err e => (s, Some e)
  | Ok (resources, removed) =>
      let w := sd_watch s in
      let '(w, removed) := if decide (gr_TypeURL request = ExtensionConfigurationType)
                           then (dropRemovals w removed, []) else (w, removed) in
      let w := applyGenerationOutcomes w delta in
      let w := set_demands w (ws_denied w) (list_to_set (gd_pending delta) ∪ ws_pending w) in
      if bool_decide (length resources = 0) && bool_decide (length removed = 0) && negb force
      then (mkSender w (sd_nonce s) (sd_output s), None) else
      let nonce := nextNonce (sd_nonce s) in
      let response := mkResponse (rs_version (gr_Snapshot request)) (gr_TypeURL request)
                        (pretty nonce) resources removed in
      match send response with
      | Some e => (mkSender w nonce (sd_output s), Some e)
      | None => (mkSender (recordResponse w now (gd_elideSentState delta) response) nonce
                   (sd_output s ++ [response]), None)
      end
  end.

End sending.

(** ** Generating *)

(** Whether a notice concerns the scope, asked of a recovering watch *)
Definition relevantUpdate (request : GenerationRequest) : bool :=
  existsb (λ c,
      match Get (gr_Snapshot request) (ca_Key c) with
      | Some r => scopeAllows (gr_Scope request) r
      | None => false
      end
      || existsb (λ i, scopeAllows (gr_Scope request)
                         (mkResource (ca_Key c) "" None [] "" (id_Facts i))) (ca_Identities c))
    (Candidates (gr_Update request) (gr_TypeURL request)).

(** A recovering watch asks again for what was not accepted. *)
Definition recoveryView (w : watchState) : SubscriptionView :=
  let view := newSubscriptionView w in
  mkView (sv_wildcard view) (sv_names view) (((λ _, "") <$> ws_pendingAcks w) ∪ sv_sent view).

Definition recoveryRequest (w : watchState) (request : GenerationRequest) : GenerationRequest :=
  mkGenRequest (gr_Scope request) (gr_TypeURL request) (recoveryView w) (gr_Snapshot request)
    (gr_Update request) true (gr_SubscribedNames request).

(** The request that is generated, [None] when nothing has to be *)
Definition effectiveRequest (w : watchState) (request : GenerationRequest) : option GenerationRequest :=
  if ws_recovering w then
    if negb (gr_Full request) && negb (relevantUpdate request) then None
    else Some (recoveryRequest w request)
  else Some request.

Definition fullRequest (scope : ClientScope) (typeURL : string) (view : SubscriptionView)
    (snapshot : ResourceSet) (subscribed : list string) : GenerationRequest :=
  mkGenRequest scope typeURL view snapshot (mkUpdate "" ∅ ∅ false ∅ None) true subscribed.

Section generating.
Context (generate : GenerationRequest → result GeneratedDelta).
Context (send : DeltaResponse → option string) (now : Z).

(** [generateAndSend] without a Workload watch *)
Definition generateOne (s : Sender) (request : GenerationRequest) (force : bool)
    : Sender * option string :=
  match effectiveRequest (sd_watch s) request with
  | None => (s, None)
  | Some request =>
      match generate request with
      | Err e => (s, Some e)
      | Ok delta => sendGeneratedDelta send now s request delta force
      end
  end.

(** The watches of a stream, the server's nonce counter, the responses sent, and the
    calls of [subscription.Watch] *)
Record Stream := mkStream {
  st_watches : gmap string watchState;
  st_nonce : N;
  st_output : list DeltaResponse;
  st_registered : list (string * list string)
}.

(** Running a sender on one watch of the stream *)
Definition onWatch (st : Stream) (typeURL : string) (f : Sender → Sender * option string)
    : Stream * option string :=
  match st_watches st !! typeURL with
  | None => (st, None)
  | Some w =>
      let '(s, err) := f (mkSender w (st_nonce st) (st_output st)) in
      (mkStream (<[typeURL := sd_watch s]> (st_watches st)) (sd_nonce s) (sd_output s)
         (st_registered st), err)
  end.

Definition generateAndSend (st : Stream) (request : GenerationRequest) (force withWorkloads : bool)
    : Stream * option string :=
  match st_watches st !! gr_TypeURL request with
  | None => (st, None)
  | Some w =>
  match effectiveRequest w request with
  | None => (st, None)
  | Some request =>
  match generate request with
  | Err e => (st, Some e)
  | Ok delta =>
      let bindings :=
        bool_decide (gr_TypeURL request = TrafficPolicyType)
        && bool_decide (length (gd_Removed delta) ≠ 0) && withWorkloads
        && match st_watches st !! WorkloadType with Some ww => ws_started ww | None => false end in
      let '(st, err) :=
        if bindings then
          onWatch st WorkloadType (λ s,
            generateOne s (fullRequest (gr_Scope request) WorkloadType
                             (newSubscriptionView (sd_watch s)) (gr_Snapshot request) []) false)
        else (st, None) in
      match err with
      | Some e => (st, Some e)
      | None => onWatch st (gr_TypeURL request) (λ s, sendGeneratedDelta send now s request delta force)
      end
  end end end.

(** ** Pushing a notice *)

Definition pushOrder : list string :=
  [ClusterType; EndpointType; ListenerType; ExtensionConfigurationType; RouteType; SecretType;
   AddressType; WorkloadType; WorkloadAuthorizationType; TrafficPolicyType; SandboxType;
   ProxyConfigType].

Definition pushes (watches : gmap string watchState) (update : Update) (typeURL : string) : bool :=
  match watches !! typeURL with Some w => ws_started w && Affects update typeURL | None => false end.

Definition orderedWatchedTypes (watches : gmap string watchState) (update : Update) : list string :=
  let result := base.filter (λ t, pushes watches update t = true) pushOrder in
  result ++ sort_strings (base.filter (λ t, pushes watches update t = true ∧ t ∉ result)
                            (elements (dom watches))).

Definition hasPendingConfigs (watches : gmap string watchState) : bool :=
  existsb (λ p : string * watchState, bool_decide (size (ws_pending p.2) ≠ 0)) (map_to_list watches).

Definition pendingNames (w : watchState) (typeURL : string) (update : Update) : list string :=
  if FullFor update typeURL then sortedNames (ws_pending w)
  else sort_strings (base.filter (λ name, name ∈ ws_pending w)
                       ((Name ∘ ca_Key) <$> Candidates update typeURL)).

Definition pushPendingConfigs (st : Stream) (scope : ClientScope) (typeURL : string)
    (snapshot : ResourceSet) (update : Update) : Stream * option string :=
  match st_watches st !! typeURL with
  | None => (st, None)
  | Some w =>
      if decide (size (ws_pending w) = 0) then (st, None) else
      let names := pendingNames w typeURL update in
      if decide (length names = 0) then (st, None)
      else generateAndSend st (fullRequest scope typeURL (mkView false names ∅) snapshot names) false false
  end.

(** One type of [pushUpdate] *)
Definition pushType (scope : ClientScope) (snapshot : ResourceSet) (update : Update)
    (st : Stream) (typeURL : string) : Stream * option string :=
  match st_watches st !! typeURL with
  | None => (st, None)
  | Some w =>
      let full := FullFor update typeURL
                  || bool_decide (typeURL = SandboxType) && bool_decide (cs_Class scope = ClientDedicatedZTunnel) in
      let view := if full then newSubscriptionView w else newIncrementalSubscriptionView w typeURL update in
      let '(st, err) := generateAndSend st
                          (mkGenRequest scope typeURL view snapshot update full []) false false in
      match err with
      | Some e => (st, Some e)
      | None => pushPendingConfigs st scope typeURL snapshot update
      end
  end.

Fixpoint pushTypes (scope : ClientScope) (snapshot : ResourceSet) (update : Update) (st : Stream)
    (types : list string) : Stream * option string :=
  match types with
  | [] => (st, None)
  | t :: types =>
      let '(st, err) := pushType scope snapshot update st t in
      match err with Some e => (st, Some e) | None => pushTypes scope snapshot update st types end
  end.

(** [None] is a run-time panic. *)
Definition pushUpdate (scope : ClientScope) (snapshot : ResourceSet) (st : Stream) (update : Update)
    : option (Stream * option string) :=
  match (if decide (cs_Class scope = ClientDedicatedZTunnel)
         then ForWorkload update (cs_WorkloadUID scope) snapshot else Some update) with
  | None => None
  | Some update =>
      Some (pushTypes scope snapshot update st (orderedWatchedTypes (st_watches st) update))
  end.

End generating.
