(* ===== verification/Requests.v ===== *)
(** * Requests: a request of a Delta stream
    (src/pkg/xds/delta.go, subscription.go, auth.go)

    Access by client class, reconciliation views for demand-driven clients, and the
    handler that applies a request to its watch and answers it. *)

From S2P Require Import Prelude Identity Resource ResourceIndex ResourceSet Update Watch Generator Generators Delta.

(** ** Access *)

Definition commonTypes : list string :=
  [AddressType; WorkloadAuthorizationType; TrafficPolicyType; SandboxType].

Definition gatewayTypes : list string :=
  [WorkloadType; ClusterType; EndpointType; ListenerType; RouteType; SecretType;
   ExtensionConfigurationType; ProxyConfigType].

Definition agentioEgressTypes : list string :=
  [WorkloadType; TrafficPolicyType; SandboxType; ClusterType; EndpointType; ListenerType; RouteType;
   SecretType; ExtensionConfigurationType].

(** The last [switch]: known, allowed *)
Definition generalAccess (class : ClientClass) (typeURL : string) : bool * bool :=
  if decide (typeURL ∈ commonTypes) then (true, true)
  else if decide (typeURL ∈ gatewayTypes) then (true, bool_decide (class = ClientEgressGateway))
  else (false, false).

Definition typeAccess (class : ClientClass) (typeURL : string) : bool * bool :=
  if decide (class = ClientEPE) then
    ((generalAccess ClientEgressGateway typeURL).1,
     bool_decide (typeURL = WorkloadType ∨ typeURL = TrafficPolicyType))
  else if decide (class = ClientAgentioEgress) then
    if decide (typeURL ∈ agentioEgressTypes) then (true, true)
    else ((generalAccess ClientEgressGateway typeURL).1, false)
  else generalAccess class typeURL.

(** ** Reconciliation views *)

(** The type whose lookup resolves demanded names *)
Definition demandLookupType (typeURL : string) : option string :=
  if decide (typeURL = WorkloadType) then Some AddressType
  else if decide (typeURL = TrafficPolicyType ∨ typeURL = SandboxType) then Some typeURL
  else None.

(** Whether a demanded name stands for at most one resource, named by it *)
Definition demandable (snapshot : ResourceSet) (typeURL lookupType name : string) : bool :=
  negb (bool_decide (name = "*"))
  && match Lookup snapshot lookupType name with
     | [] => true
     | [r] => if decide (typeURL = WorkloadType) then IsWorkloadAddress r
              else bool_decide (XDSName r = name)
     | _ => false
     end.

Definition demandSubscriptionView (snapshot : ResourceSet) (typeURL : string) (names : list string)
    : option SubscriptionView :=
  if decide (length names = 0) then None else
  match demandLookupType typeURL with
  | None => None
  | Some lookupType =>
      if forallb (demandable snapshot typeURL lookupType) names
      then Some (mkView false (sortedNames (list_to_set names)) ∅) else None
  end.

Definition emptyView : SubscriptionView := mkView false [] ∅.

(** Whether an unsubscribed policy leaves nothing to reconcile *)
Definition forgotten (snapshot : ResourceSet) (typeURL : string) (view : SubscriptionView)
    (name : string) : bool :=
  negb (bool_decide (name = "*")) && negb (containsSorted (sv_names view) name)
  && match Lookup snapshot typeURL name with
     | [r] => bool_decide (XDSName r = name) && bool_decide (length (Aliases r) = 0)
     | _ => false
     end.

(** One unsubscribed Workload name: the watch forgets a resource that no live name
    selects, and the view reconciles the others. The watch keeps what was forgotten when
    a later name ends the loop. *)
Fixpoint reconcileWorkloads (v : addressSelection) (unsubscribed : list string)
    (w : watchState) (sent : gmap string string) (names : gset string)
    : watchState * option (gmap string string * gset string) :=
  match unsubscribed with
  | [] => (w, Some (sent, names))
  | name :: rest =>
      if decide (name = "*") then (w, None) else
      match Lookup (as_resources v) AddressType name with
      | [r] =>
          if negb (IsWorkloadAddress r) then (w, None)
          else if negb (selectedByNames v r (λ n, bool_decide (n ∈ ws_names w)))
          then reconcileWorkloads v rest (set_sent w (delete (XDSName r) (ws_sent w))) sent names
          else reconcileWorkloads v rest w
                 (match ws_sent w !! XDSName r with
                  | Some version => <[XDSName r := version]> sent
                  | None => sent
                  end) ({[XDSName r]} ∪ names)
      | _ => (w, None)
      end
  end.

Definition demandReconciliationView (snapshot : ResourceSet) (typeURL : string) (scope : ClientScope)
    (w : watchState) (subscribed unsubscribed : list string) : watchState * option SubscriptionView :=
  let view := demandSubscriptionView snapshot typeURL subscribed in
  if decide (length unsubscribed = 0) then (w, view)
  else if bool_decide (typeURL = TrafficPolicyType)
          && (bool_decide (length subscribed = 0) || isSome view)
  then (w, if forallb (forgotten snapshot typeURL (default emptyView view)) unsubscribed
           then Some (default emptyView view) else None)
  else if bool_decide (typeURL ≠ WorkloadType)
          || bool_decide (length subscribed ≠ 0) && negb (isSome view)
  then (w, None)
  else
    let v := newAddressSelection scope snapshot AddressType emptyView in
    let '(w, reconciled) := reconcileWorkloads v unsubscribed w ∅
                              (list_to_set (sv_names (default emptyView view))) in
    (w, match reconciled with
        | Some (sent, names) => Some (mkView (sv_wildcard (default emptyView view)) (sortedNames names) sent)
        | None => None
        end).

(** ** The handler *)

(** Demand-driven clients *)
Definition reconciles (initial : bool) (w : watchState) (scope : ClientScope) : bool :=
  negb initial && negb (ws_wildcard w) && gatewayClass (cs_Class scope).

Section handler.
Context (generate : GenerationRequest → result GeneratedDelta).
Context (send : DeltaResponse → option string) (now : Z).

(** The watch of the request, registered with the store when it is new *)
Definition watchFor (st : Stream) (typeURL : string) : watchState * list (string * list string) :=
  match st_watches st !! typeURL with
  | Some w => (w, [])
  | None => (newWatch typeURL, [(typeURL, [])])
  end.

(** The part of [handleRequest] before any response: the watch, the registrations,
    whether the subscription changed, and whether the watch is new *)
Definition receiveRequest (st : Stream) (scope : ClientScope) (request : DeltaRequest)
    : watchState * list (string * list string) * bool * bool :=
  let typeURL := dr_TypeUrl request in
  let '(w, registered) := watchFor st typeURL in
  let initial := negb (ws_started w) in
  let '(w, changed) := applySubscription w request in
  let registered := registered
    ++ (if changed && bool_decide (typeURL = SandboxType)
           && bool_decide (cs_Class scope = ClientDedicatedZTunnel)
        then [(typeURL, elements (ws_names w))] else []) in
  ((recordAcknowledgement w request).1, registered, changed, initial).

(** [handleRequest] for a type that is not served by the certificate generator *)
Definition handleRequest (st : Stream) (scope : ClientScope) (snapshot : ResourceSet)
    (request : DeltaRequest) : Stream * option string :=
  let typeURL := dr_TypeUrl request in
  let '(known, allowed) := typeAccess (cs_Class scope) typeURL in
  if known && negb allowed then (st, Some "client class cannot subscribe to type") else
  let '(w, registered, changed, initial) := receiveRequest st scope request in
  let received w := mkStream (<[typeURL := w]> (st_watches st)) (st_nonce st) (st_output st)
                      (st_registered st ++ registered) in
  if negb changed && bool_decide (dr_ResponseNonce request ≠ "")
     && bool_decide (length (dr_Subscribe request) = 0)
  then (received w, None) else
  let '(w, view) := if reconciles initial w scope
                    then demandReconciliationView snapshot typeURL scope w (dr_Subscribe request)
                           (dr_Unsubscribe request)
                    else (w, None) in
  generateAndSend generate send now (received w)
    (fullRequest scope typeURL (default (newSubscriptionView w) view) snapshot (dr_Subscribe request))
    true true.

End handler.
