(* ===== verification/Acknowledgements.v ===== *)
(** * Acknowledgements: which deliveries the client has not accepted
    (src/pkg/xds/subscription.go, delta.go)

    A watch that tracks acknowledgements keeps a lone outstanding response as it is and
    only indexes its names when another response overlaps it or it is rejected. Here the
    lazy bookkeeping is shown to be the plain ledger of the stream's history. *)

From S2P Require Import Prelude Identity Resource ResourceIndex ResourceSet Update Watch Generator Delta.

(** ** The history of a watch *)

Inductive delivery :=
| Delivered (r : DeltaResponse)
| Accepted (nonce : string)
| Rejected (nonce : string)
| Forgotten (name : string).

(** The last response that carried the name has the nonce, it was not accepted, and the
    client did not give the name up since. *)
Definition outstanding (h : list delivery) (name nonce : string) : Prop :=
  ∃ h1 r h2, h = h1 ++ Delivered r :: h2 ∧ name ∈ responseNames r ∧ dp_Nonce r = nonce
    ∧ (∀ r', Delivered r' ∈ h2 → name ∉ responseNames r')
    ∧ (Accepted nonce ∉ h2) ∧ Forgotten name ∉ h2.

(** A rejection of an outstanding delivery, after which something always was outstanding *)
Definition unrecovered (h : list delivery) : Prop :=
  ∃ h1 nonce h2, h = h1 ++ Rejected nonce :: h2 ∧ (∃ name, outstanding h1 name nonce)
    ∧ ∀ h2', h2' `prefix_of` h2 → ∃ name n, outstanding (h1 ++ Rejected nonce :: h2') name n.

(** ** The ledger *)

Definition ledgerStep (m : gmap string string) (d : delivery) : gmap string string :=
  match d with
  | Delivered r => markNames m (responseNames r) (dp_Nonce r)
  | Accepted nonce => base.filter (λ p : string * string, p.2 ≠ nonce) m
  | Rejected _ => m
  | Forgotten name => delete name m
  end.

Definition ledgerOf (h : list delivery) : gmap string string := foldl ledgerStep ∅ h.

Lemma markNames_lookup m names nonce x :
  markNames m names nonce !! x = if decide (x ∈ names) then Some nonce else m !! x.
Proof.
  unfold markNames. revert m. induction names as [|y names IH]; intros m; cbn [foldl].
  { rewrite decide_False by apply not_elem_of_nil. done. }
  rewrite IH. destruct (decide (x ∈ names)) as [Hx|Hx].
  { rewrite decide_True by (by right). done. }
  destruct (decide (x = y)) as [->|Hne].
  - rewrite decide_True by left. apply lookup_insert_eq.
  - rewrite decide_False by (rewrite elem_of_cons; tauto). by rewrite lookup_insert_ne.
Qed.

(** One more event *)
Lemma outstanding_snoc h d name nonce :
  outstanding (h ++ [d]) name nonce ↔
  match d with
  | Delivered r => (name ∈ responseNames r ∧ dp_Nonce r = nonce)
                   ∨ (name ∉ responseNames r) ∧ outstanding h name nonce
  | Accepted n => n ≠ nonce ∧ outstanding h name nonce
  | Rejected _ => outstanding h name nonce
  | Forgotten x => x ≠ name ∧ outstanding h name nonce
  end.
Proof.
  assert (∀ d, (∀ r, d = Delivered r → name ∉ responseNames r) → d ≠ Accepted nonce →
    d ≠ Forgotten name → outstanding h name nonce → outstanding (h ++ [d]) name nonce) as Hkeep.
  { intros d' Hd1 Hd2 Hd3 (h1 & r & h2 & -> & Hn & Hr & H1 & H2 & H3).
    exists h1, r, (h2 ++ [d']). rewrite <-app_assoc.
    split_and!; [done|done|done| |rewrite elem_of_app, list_elem_of_singleton; naive_solver..].
    intros r'. rewrite elem_of_app, list_elem_of_singleton. naive_solver. }
  assert (outstanding (h ++ [d]) name nonce →
    (∃ r, d = Delivered r ∧ name ∈ responseNames r ∧ dp_Nonce r = nonce)
    ∨ outstanding h name nonce ∧ (∀ r, d = Delivered r → name ∉ responseNames r)
      ∧ d ≠ Accepted nonce ∧ d ≠ Forgotten name) as Hinv.
  { intros (h1 & r & h2 & E & Hn & Hr & H1 & H2 & H3). destruct h2 as [|d' h2 _] using rev_ind.
    - apply app_inj_tail in E as [-> ->]. left. eauto.
    - rewrite app_comm_cons, app_assoc in E. apply app_inj_tail in E as [-> <-]. right.
      rewrite elem_of_app, list_elem_of_singleton in H2, H3.
      split_and!; [exists h1, r, h2; split_and!; try done|..].
      + intros r' Hr'. apply H1. apply elem_of_app. by left.
      + tauto.
      + tauto.
      + intros r' ->. apply H1. apply elem_of_app. right. left.
      + intros ->. tauto.
      + intros ->. tauto. }
  split.
  - intros [(r & -> & ? & ?)|(Ho & H1 & H2 & H3)]%Hinv; [by left|].
    destruct d; [right; eauto|split; [congruence|done]|done|split; [congruence|done]].
  - destruct d as [r|n|n|x].
    + intros [[Hn Hr]|[Hn Ho]]; [|apply Hkeep; [|done..]; naive_solver].
      exists h, r, []. rewrite !elem_of_nil. setoid_rewrite elem_of_nil. naive_solver.
    + intros [Hne Ho]. apply Hkeep; [done|congruence|done|done].
    + apply Hkeep; done.
    + intros [Hne Ho]. apply Hkeep; [done|done|congruence|done].
Qed.

Lemma outstanding_nil name nonce : ¬ outstanding [] name nonce.
Proof. intros (h1 & r & h2 & E & _). by destruct h1. Qed.

Lemma ledgerOf_snoc h d : ledgerOf (h ++ [d]) = ledgerStep (ledgerOf h) d.
Proof. unfold ledgerOf. by rewrite foldl_app. Qed.

(** The ledger holds exactly what is outstanding. *)
Lemma ledgerOf_spec h name nonce : ledgerOf h !! name = Some nonce ↔ outstanding h name nonce.
Proof.
  revert name nonce. induction h as [|d h IH] using rev_ind; intros name nonce.
  { split; [done|by intros ?%outstanding_nil]. }
  rewrite ledgerOf_snoc, outstanding_snoc.
  destruct d as [r|n|n|x]; rewrite <-IH; cbn [ledgerStep].
  - rewrite markNames_lookup. case_decide; naive_solver.
  - rewrite map_lookup_filter_Some. naive_solver.
  - done.
  - rewrite lookup_delete_Some. done.
Qed.

(** ** The watch's bookkeeping *)

Definition ledger (w : watchState) : gmap string string :=
  match ws_pendingResponse w with
  | Some r => markNames (ws_pendingAcks w) (responseNames r) (dp_Nonce r)
  | None => ws_pendingAcks w
  end.

(** A response is kept as it is only while nothing is indexed, and a recovery has
    something to recover. *)
Definition acks_ok (w : watchState) : Prop :=
  (ws_pendingResponse w ≠ None → ws_pendingAcks w = ∅)
  ∧ (ws_recovering w = true → ws_pendingAcks w ≠ ∅).

(** What the ledger depends on *)
Definition same_acks (w w' : watchState) : Prop :=
  ws_pendingResponse w' = ws_pendingResponse w ∧ ws_pendingAcks w' = ws_pendingAcks w
  ∧ ws_recovering w' = ws_recovering w ∧ ws_trackAcks w' = ws_trackAcks w.

#[export] Instance same_acks_preorder : PreOrder same_acks.
Proof.
  split; [by intros w|]. intros a b c (H1 & H2 & H3 & H4) (K1 & K2 & K3 & K4).
  split_and!; congruence.
Qed.

Lemma same_acks_ledger w w' : same_acks w w' → ledger w' = ledger w.
Proof. intros (H1 & H2 & _). unfold ledger. by rewrite H1, H2. Qed.

Lemma same_acks_ok w w' : same_acks w w' → acks_ok w → acks_ok w'.
Proof. intros (H1 & H2 & H3 & _). unfold acks_ok. by rewrite H1, H2, H3. Qed.

(** [w'] keeps the books of [w] after the events, its recovery flag being [b] unless
    nothing is outstanding any more. *)
Record books (w w' : watchState) (L : gmap string string) (b : bool) : Prop := mkBooks {
  bk_ok : acks_ok w';
  bk_ledger : ledger w' = L;
  bk_recovering : ws_recovering w' = b && negb (bool_decide (L = ∅));
  bk_track : ws_trackAcks w' = ws_trackAcks w
}.

Lemma recovering_indexed w : acks_ok w → ws_recovering w = true → ws_pendingResponse w = None.
Proof.
  intros [H1 H2] Hr. destruct (ws_pendingResponse w) as [r|]; [|done].
  destruct (H2 Hr). by apply H1.
Qed.

Lemma recovering_ledger w : acks_ok w → ws_recovering w = true → ledger w ≠ ∅.
Proof.
  intros Hok Hr. unfold ledger. rewrite (recovering_indexed w Hok Hr). by apply Hok.
Qed.

Lemma recovering_and w :
  acks_ok w → ws_recovering w = ws_recovering w && negb (bool_decide (ledger w = ∅)).
Proof.
  intros Hok. destruct (ws_recovering w) eqn:Hr; [|done]. cbn [andb].
  rewrite bool_decide_eq_false_2; [done|]. by apply recovering_ledger.
Qed.

Lemma same_acks_books w w' :
  same_acks w w' → acks_ok w → books w w' (ledger w) (ws_recovering w).
Proof.
  intros Hs Hok. constructor.
  - by eapply same_acks_ok.
  - by apply same_acks_ledger.
  - rewrite <-recovering_and by done. apply Hs.
  - apply Hs.
Qed.

Lemma indexPendingResponse_spec w :
  acks_ok w →
  acks_ok (indexPendingResponse w) ∧ ws_pendingResponse (indexPendingResponse w) = None
  ∧ ws_pendingAcks (indexPendingResponse w) = ledger w
  ∧ ws_recovering (indexPendingResponse w) = ws_recovering w
  ∧ ws_trackAcks (indexPendingResponse w) = ws_trackAcks w.
Proof.
  intros Hok. unfold indexPendingResponse, ledger.
  destruct (ws_pendingResponse w) as [r|] eqn:Hp; cbn; [|by rewrite Hp].
  split_and!; [|done..]. split; [done|]. cbn. intros Hr.
  by rewrite (recovering_indexed w Hok Hr) in Hp.
Qed.

(** *** Acknowledgements *)

Lemma filter_markNames nonce names :
  base.filter (λ p : string * string, p.2 ≠ nonce) (markNames ∅ names nonce) = ∅.
Proof.
  apply map_empty. intros x. apply map_lookup_filter_None. right. intros n.
  rewrite markNames_lookup. case_decide; [naive_solver|]. by rewrite lookup_empty.
Qed.

Lemma filter_markNames_ne nonce n names :
  n ≠ nonce →
  base.filter (λ p : string * string, p.2 ≠ nonce) (markNames ∅ names n) = markNames ∅ names n.
Proof.
  intros Hne. apply map_filter_id. intros x v. rewrite markNames_lookup.
  case_decide; [naive_solver|]. by rewrite lookup_empty.
Qed.

Lemma filter_markNames_none nonce n names :
  n ≠ nonce → base.filter (λ p : string * string, p.2 = nonce) (markNames ∅ names n) = ∅.
Proof.
  intros Hne. apply map_empty. intros x. apply map_lookup_filter_None. right. intros v.
  rewrite markNames_lookup. case_decide; [naive_solver|]. by rewrite lookup_empty.
Qed.

(** What a reply leaves in the ledger, and whether it starts a recovery *)
Definition ledgerReply (L : gmap string string) (nonce : string) (accepted : bool) : gmap string string :=
  if accepted then base.filter (λ p : string * string, p.2 ≠ nonce) L else L.

Definition rejects (L : gmap string string) (nonce : string) (accepted : bool) : bool :=
  negb accepted && bool_decide (base.filter (λ p : string * string, p.2 = nonce) L ≠ ∅).

(** [resolveAcks] on an indexed watch *)
Lemma resolveAcks_books w nonce accepted :
  ws_pendingResponse w = None →
  books w (resolveAcks w nonce accepted) (ledgerReply (ledger w) nonce accepted)
    (ws_recovering w || rejects (ledger w) nonce accepted).
Proof.
  intros Hp. unfold ledger. rewrite Hp. unfold resolveAcks, ledgerReply, rejects.
  set (acks := if accepted then _ else _).
  set (b := _ || _). constructor; cbn.
  - split; cbn; [by rewrite Hp|]. by destruct (decide (acks = ∅)).
  - unfold ledger. cbn. by rewrite Hp.
  - destruct (decide (acks = ∅)) as [E|E].
    + rewrite bool_decide_eq_true_2 by done. by rewrite andb_false_r.
    + rewrite bool_decide_eq_false_2 by done. by rewrite andb_true_r.
  - done.
Qed.

Lemma resolve_books w nonce accepted :
  acks_ok w →
  books w (resolveAcks (resolvePending w nonce accepted) nonce accepted)
    (ledgerReply (ledger w) nonce accepted) (ws_recovering w || rejects (ledger w) nonce accepted).
Proof.
  intros Hok. destruct (ws_pendingResponse w) as [r|] eqn:Hp; last first.
  { unfold resolvePending. rewrite Hp. by apply resolveAcks_books. }
  pose proof (proj1 Hok) as Hempty. rewrite Hp in Hempty. specialize (Hempty ltac:(done)).
  assert (ws_recovering w = false) as Hrec.
  { destruct (ws_recovering w) eqn:Hr; [|done]. by rewrite (recovering_indexed w Hok Hr) in Hp. }
  assert (ledger w = markNames ∅ (responseNames r) (dp_Nonce r)) as HL
    by (unfold ledger; by rewrite Hp, Hempty).
  unfold resolvePending. rewrite Hp. destruct (decide (dp_Nonce r = nonce)) as [<-|Hne].
  - destruct accepted.
    + rewrite HL. unfold ledgerReply. rewrite filter_markNames.
      unfold resolveAcks, rejects. cbn. rewrite Hempty, map_filter_empty. constructor; cbn; try done.
      by rewrite andb_false_r.
    + destruct (indexPendingResponse_spec w Hok) as (Hok' & Hp' & Ha & Hr' & Ht).
      destruct (resolveAcks_books (indexPendingResponse w) (dp_Nonce r) false Hp') as [B1 B2 B3 B4].
      assert (ledger (indexPendingResponse w) = ledger w) as E by (unfold ledger at 1; by rewrite Hp').
      rewrite E, ?Hr', ?Ht in *. by constructor.
  - unfold resolveAcks. rewrite Hempty, Hrec. rewrite HL. constructor; cbn.
    + split; cbn; [intros _; by destruct accepted; rewrite ?map_filter_empty|].
      by destruct accepted; rewrite ?map_filter_empty; rewrite decide_True.
    + unfold ledger, ledgerReply. cbn. rewrite Hp. destruct accepted; rewrite ?map_filter_empty; [|done].
      by rewrite filter_markNames_ne.
    + rewrite decide_True by (by destruct accepted; rewrite ?map_filter_empty).
      unfold rejects. rewrite filter_markNames_none by done.
      by rewrite (bool_decide_eq_false_2 (∅ ≠ ∅)), andb_false_r by naive_solver.
    + done.
Qed.

Lemma books_trans w w' w'' L b :
  same_acks w' w'' → books w w' L b → books w w'' L b.
Proof.
  intros Hs [B1 B2 B3 B4]. constructor.
  - by eapply same_acks_ok.
  - by rewrite (same_acks_ledger w' w'').
  - rewrite <-B3. apply Hs.
  - rewrite <-B4. apply Hs.
Qed.

Lemma resolveFlow_acks w nonce : same_acks w (resolveFlow w nonce).
Proof. unfold resolveFlow. by destruct (afterNonce _ _). Qed.

Definition accepts (request : DeltaRequest) : bool := negb (isSome (dr_ErrorDetail request)).

Lemma recordAcknowledgement_books w request :
  acks_ok w → dr_ResponseNonce request ≠ "" →
  books w (recordAcknowledgement w request).1
    (ledgerReply (ledger w) (dr_ResponseNonce request) (accepts request))
    (ws_recovering w || rejects (ledger w) (dr_ResponseNonce request) (accepts request)).
Proof.
  intros Hok Hn. pose proof (resolveFlow_acks w (dr_ResponseNonce request)) as Hf.
  set (w1 := resolveFlow w (dr_ResponseNonce request)) in *.
  pose proof (resolve_books w1 (dr_ResponseNonce request) (accepts request)
    (same_acks_ok _ _ Hf Hok)) as [B1 B2 B3 B4].
  rewrite (same_acks_ledger w w1 Hf) in B2, B3.
  destruct Hf as (_ & _ & F3 & F4). rewrite F3 in B3. rewrite F4 in B4.
  unfold recordAcknowledgement. rewrite decide_False by done. fold (accepts request). fold w1.
  set (w2 := resolveAcks _ _ _) in *. apply (books_trans w w2); [|by constructor].
  destruct (decide (dr_ResponseNonce request ≠ _)); [reflexivity|]. by destruct (dr_ErrorDetail request) as [[]|].
Qed.

Lemma recordAcknowledgement_none w request :
  dr_ResponseNonce request = "" → (recordAcknowledgement w request).1 = w.
Proof. intros Hn. unfold recordAcknowledgement. by rewrite decide_True. Qed.

(** *** Subscriptions *)

Lemma forgetAck_spec w name :
  acks_ok w →
  ws_pendingResponse (forgetAck w name) = None
  ∧ ws_pendingAcks (forgetAck w name) = delete name (ledger w)
  ∧ ws_recovering (forgetAck w name) = ws_recovering w
  ∧ ws_trackAcks (forgetAck w name) = ws_trackAcks w.
Proof.
  intros Hok. destruct (indexPendingResponse_spec w Hok) as (_ & Hp & Ha & Hr & Ht).
  unfold forgetAck. cbn. by rewrite Hp, Ha, Hr, Ht.
Qed.

(** Between forgetting names and settling, a recovery may have nothing left to recover. *)
Definition unsettled (w : watchState) : Prop := ws_pendingResponse w ≠ None → ws_pendingAcks w = ∅ ∧ ws_recovering w = false.

Lemma acks_ok_unsettled w : acks_ok w → unsettled w.
Proof.
  intros Hok Hp. split; [by apply Hok|].
  destruct (ws_recovering w) eqn:Hr; [|done]. by destruct Hp; apply recovering_indexed.
Qed.

Lemma unsettled_index w :
  unsettled w →
  ws_pendingResponse (indexPendingResponse w) = None
  ∧ ws_pendingAcks (indexPendingResponse w) = ledger w
  ∧ ws_recovering (indexPendingResponse w) = ws_recovering w
  ∧ ws_trackAcks (indexPendingResponse w) = ws_trackAcks w.
Proof.
  intros Hu. unfold indexPendingResponse, ledger.
  by destruct (ws_pendingResponse w) as [r|] eqn:Hp; cbn; rewrite ?Hp.
Qed.

Lemma settleRecovery_books w w' :
  unsettled w' → ws_trackAcks w' = ws_trackAcks w →
  books w (settleRecovery w') (ledger w') (ws_recovering w').
Proof.
  intros Hu Ht. unfold settleRecovery. constructor; cbn; [| | |done].
  - split; cbn; [intros Hp; by apply Hu|]. by destruct (decide (ws_pendingAcks w' = ∅)).
  - done.
  - destruct (ws_pendingResponse w') as [r|] eqn:Hp.
    + destruct Hu as [Ha Hr]; [by rewrite Hp|]. by rewrite Hr, Ha.
    + unfold ledger. rewrite Hp. destruct (decide (ws_pendingAcks w' = ∅)) as [E|E].
      * rewrite bool_decide_eq_true_2 by done. by rewrite andb_false_r.
      * rewrite bool_decide_eq_false_2 by done. by rewrite andb_true_r.
Qed.

Definition unsubscribed (request : DeltaRequest) : list string :=
  base.filter (λ n, n ≠ "*") (dr_Unsubscribe request).

Lemma unsubscribe_ledger l st :
  unsettled st.1 →
  let w' := (foldl unsubscribeName st l).1 in
  unsettled w' ∧ ledger w' = foldl (λ (m : gmap string string) name, delete name m) (ledger st.1)
                              (base.filter (λ n, n ≠ "*") l)
  ∧ ws_recovering w' = ws_recovering st.1 ∧ ws_trackAcks w' = ws_trackAcks st.1.
Proof.
  revert st. induction l as [|name l IH]; intros [w changed] Hu; [done|]. cbn [foldl fst] in *.
  rewrite filter_cons.
  assert (∀ st', unsettled st'.1 → ledger st'.1 = (if decide (name ≠ "*") then delete name (ledger w) else ledger w) →
    ws_recovering st'.1 = ws_recovering w → ws_trackAcks st'.1 = ws_trackAcks w →
    let w' := (foldl unsubscribeName st' l).1 in
    unsettled w' ∧ ledger w' = foldl (λ (m : gmap string string) name, delete name m) (ledger w)
                              (if decide (name ≠ "*") then name :: base.filter (λ n, n ≠ "*") l
                               else base.filter (λ n, n ≠ "*") l)
    ∧ ws_recovering w' = ws_recovering w ∧ ws_trackAcks w' = ws_trackAcks w) as Hstep.
  { intros st' Hu' HL' Hr' Ht'. destruct (IH st' Hu') as (I1 & I2 & I3 & I4). cbv zeta.
    rewrite I2, I3, I4, HL', Hr', Ht'. split_and!; [done| |done..]. by destruct (decide _). }
  cbv zeta in *. destruct (decide (name = "*")) as [->|E].
  { cbn [unsubscribeName]. rewrite decide_True by done. by apply Hstep. }
  unfold unsubscribeName. rewrite decide_False by done. cbv zeta.
  match goal with |- context [forgetAck ?x name] => set (w3 := x) end.
  destruct (unsettled_index w3) as (U1 & U2 & U3 & U4); [exact Hu|].
  revert U1 U2 U3 U4. unfold forgetAck. generalize (indexPendingResponse w3). intros w4 U1 U2 U3 U4.
  apply Hstep; unfold ledger, unsettled; cbn; rewrite ?U1; try done.
  rewrite decide_True by done. by rewrite U2.
Qed.

Lemma subscribe_acks l st : same_acks st.1 (foldl subscribeName st l).1.
Proof.
  revert st. induction l as [|name l IH]; intros [w changed]; [done|]. cbn [foldl].
  etrans; [|apply IH]. unfold subscribeName. by case_decide.
Qed.

Lemma applySubscription_books w request :
  acks_ok w →
  books w (applySubscription w request).1
    (foldl (λ (m : gmap string string) name, delete name m) (ledger w) (unsubscribed request))
    (ws_recovering w).
Proof.
  intros Hok. unfold applySubscription.
  set (w0 := if ws_started w then w else startWatch w request).
  assert (same_acks w w0) as H0.
  { subst w0. destruct (ws_started w); [done|]. unfold startWatch. by split_and!. }
  pose proof (subscribe_acks (dr_Subscribe request) (w0, negb (ws_started w))) as H1. cbn [fst] in H1.
  destruct (foldl subscribeName _ _) as [w1 c1]. cbn [fst] in H1.
  assert (same_acks w w1) as H2 by (by etrans).
  pose proof (unsubscribe_ledger (dr_Unsubscribe request) (w1, c1)) as Hl. cbn [fst] in Hl.
  destruct Hl as (U1 & U2 & U3 & U4); [by apply acks_ok_unsettled, (same_acks_ok w)|].
  destruct (foldl unsubscribeName _ _) as [w2 c2]. cbn [fst] in *.
  rewrite (same_acks_ledger w w1 H2) in U2. destruct H2 as (_ & _ & E3 & E4).
  unfold unsubscribed. rewrite <-U2. rewrite <-E3, <-U3. apply settleRecovery_books; [done|congruence].
Qed.

(** *** Responses *)

Lemma markNames_again names n n' : markNames (markNames ∅ names n) names n' = markNames ∅ names n'.
Proof.
  apply map_eq. intros x. rewrite !markNames_lookup. by destruct (decide (x ∈ names)).
Qed.

Lemma sameNames_responseNames p r : sameNames p r = true → responseNames p = responseNames r.
Proof.
  unfold sameNames, responseNames.
  intros [->%bool_decide_eq_true ->%bool_decide_eq_true]%andb_true_iff. done.
Qed.

Lemma trackDelivery_books w r :
  acks_ok w → ws_trackAcks w = true →
  acks_ok (trackDelivery w r)
  ∧ ledger (trackDelivery w r) = markNames (ledger w) (responseNames r) (dp_Nonce r)
  ∧ ws_recovering (trackDelivery w r) = ws_recovering w ∧ ws_trackAcks (trackDelivery w r) = true.
Proof.
  intros Hok Ht. unfold trackDelivery. rewrite Ht. cbn [negb].
  set (w1 := match ws_pendingResponse w with Some _ => _ | None => w end).
  assert (acks_ok w1 ∧ ws_recovering w1 = ws_recovering w ∧ ws_trackAcks w1 = true
    ∧ markNames (ledger w1) (responseNames r) (dp_Nonce r)
      = markNames (ledger w) (responseNames r) (dp_Nonce r)) as (Hok1 & Hr1 & Ht1 & HL1).
  { subst w1. destruct (ws_pendingResponse w) as [p|] eqn:Hp; [|done].
    destruct (sameNames p r) eqn:Hs; [|done]. apply sameNames_responseNames in Hs.
    pose proof (proj1 Hok) as He. rewrite Hp in He. specialize (He ltac:(done)).
    split_and!; [|done|done|].
    - split; [done|]. apply Hok.
    - unfold ledger. cbn. rewrite Hp, He, Hs. by rewrite markNames_again. }
  destruct (indexPendingResponse_spec w1 Hok1) as (Hok2 & Hp2 & Ha2 & Hr2 & Ht2).
  revert Hok2 Hp2 Ha2 Hr2 Ht2. generalize (indexPendingResponse w1). intros w2 Hok2 Hp2 Ha2 Hr2 Ht2.
  destruct (decide (ws_pendingAcks w2 = ∅)) as [E|E]; (split_and!; [| |cbn; congruence..]).
  - split; [done|]. cbn. intros Hr. by destruct (proj2 Hok2 Hr).
  - unfold ledger at 1. cbn. by rewrite Ha2.
  - split; cbn; [by rewrite Hp2|]. intros Hr Hm. apply (proj2 Hok2 Hr), map_empty. intros x.
    apply (f_equal (lookup x)) in Hm. rewrite markNames_lookup, lookup_empty in Hm.
    by destruct (decide (x ∈ responseNames r)).
  - unfold ledger at 1. cbn. by rewrite Hp2, Ha2.
Qed.

Lemma recordResponse_books w now elide r :
  acks_ok w → ws_trackAcks w = true →
  books w (recordResponse w now elide r) (markNames (ledger w) (responseNames r) (dp_Nonce r))
    (ws_recovering w).
Proof.
  intros Hok Ht. unfold recordResponse.
  match goal with |- context [trackDelivery ?x r] => set (w1 := x) end.
  destruct (trackDelivery_books w1 r Hok Ht) as (Hok2 & HL2 & Hr2 & Ht2).
  apply (books_trans w (trackDelivery w1 r)); [done|].
  constructor; [done|done| |by rewrite Ht2]. rewrite Hr2.
  change (ledger w1) with (ledger w) in HL2. change (ws_recovering w1) with (ws_recovering w) in *.
  rewrite <-HL2, <-Hr2. by apply recovering_and.
Qed.

Lemma dropRemovals_books w removed :
  acks_ok w →
  books w (dropRemovals w removed)
    (foldl (λ (m : gmap string string) name, delete name m) (ledger w) removed) (ws_recovering w).
Proof.
  intros Hok. unfold dropRemovals.
  destruct (decide (length removed = 0)) as [Hz%length_zero_iff_nil|Hnz].
  - subst. cbn [foldl].
    match goal with |- books _ (settleRecovery ?x) _ _ => set (w1 := x) end.
    assert (same_acks w w1) as Hs by done. rewrite <-(same_acks_ledger w w1 Hs).
    apply (settleRecovery_books w w1); [|done]. by apply acks_ok_unsettled.
  - destruct (indexPendingResponse_spec w Hok) as (_ & Hp & Ha & Hr & Ht).
    match goal with |- books _ (settleRecovery ?x) _ _ => set (w1 := x) end.
    assert (ledger w1 = foldl (λ (m : gmap string string) name, delete name m) (ledger w) removed) as <-.
    { unfold ledger at 1. subst w1. cbn. by rewrite Hp, Ha. }
    assert (ws_recovering w1 = ws_recovering w) as <- by exact Hr.
    apply settleRecovery_books; [|exact Ht]. intros Hne. exfalso. apply Hne. exact Hp.
Qed.

(** ** The life of a watch *)

Definition reply (request : DeltaRequest) : list delivery :=
  if decide (dr_ResponseNonce request = "") then []
  else [if accepts request then Accepted (dr_ResponseNonce request)
        else Rejected (dr_ResponseNonce request)].

(** The steps of a watch and what they add to its history; a quiet step changes
    nothing that concerns acknowledgements. *)
Inductive watch_step (w : watchState) : list delivery → watchState → Prop :=
  | step_request request :
      watch_step w ((Forgotten <$> unsubscribed request) ++ reply request)
        (recordAcknowledgement (applySubscription w request).1 request).1
  | step_response now elide r :
      watch_step w [Delivered r] (recordResponse w now elide r)
  | step_withheld removed :
      watch_step w (Forgotten <$> removed) (dropRemovals w removed)
  | step_quiet w' : same_acks w w' → watch_step w [] w'.

Inductive watch_run (typeURL : string) : list delivery → watchState → Prop :=
  | run_start : watch_run typeURL [] (newWatch typeURL)
  | run_step h w d w' : watch_run typeURL h w → watch_step w d w' → watch_run typeURL (h ++ d) w'.

(** *** The recovery flag of a history *)

Definition startsRecovery (L : gmap string string) (d : delivery) : bool :=
  match d with
  | Rejected n => bool_decide (base.filter (λ p : string * string, p.2 = n) L ≠ ∅)
  | _ => false
  end.

Definition flagStep (st : gmap string string * bool) (d : delivery) : gmap string string * bool :=
  let L := ledgerStep st.1 d in
  (L, (st.2 || startsRecovery st.1 d) && negb (bool_decide (L = ∅))).

Definition flagOf (h : list delivery) : gmap string string * bool := foldl flagStep (∅, false) h.

Lemma flagOf_ledger h : (flagOf h).1 = ledgerOf h.
Proof.
  induction h as [|d h IH] using rev_ind; [done|].
  unfold flagOf in *. rewrite foldl_app, ledgerOf_snoc. cbn. by rewrite IH.
Qed.

Lemma nonempty_lookup {A} (m : gmap string A) : m ≠ ∅ ↔ ∃ k v, m !! k = Some v.
Proof. split; [apply map_choose|]. intros (k & v & Hk) ->. by rewrite lookup_empty in Hk. Qed.

Lemma startsRecovery_spec h d :
  startsRecovery (ledgerOf h) d = true ↔ ∃ n name, d = Rejected n ∧ outstanding h name n.
Proof.
  destruct d as [r|n|n|x]; cbn; try (split; [done|naive_solver]).
  rewrite bool_decide_eq_true, nonempty_lookup. setoid_rewrite map_lookup_filter_Some. cbn.
  setoid_rewrite ledgerOf_spec. naive_solver.
Qed.

Lemma prefix_snoc_cases {A} (l k : list A) x :
  l `prefix_of` k ++ [x] → l `prefix_of` k ∨ l = k ++ [x].
Proof.
  intros [l' E]. destruct l' as [|y l' _] using rev_ind.
  - right. by rewrite app_nil_r in E.
  - left. rewrite app_assoc in E. apply app_inj_tail in E as [-> _]. by apply prefix_app_r.
Qed.

Lemma unrecovered_snoc h d :
  unrecovered (h ++ [d]) ↔
  (∃ name n, outstanding (h ++ [d]) name n)
  ∧ (unrecovered h ∨ ∃ n name, d = Rejected n ∧ outstanding h name n).
Proof.
  split.
  - intros (h1 & nonce & h2 & E & [name Ho] & Hpre).
    split; [rewrite E; apply Hpre; done|].
    destruct h2 as [|d' h2 _] using rev_ind.
    + apply app_inj_tail in E as [-> ->]. right. eauto.
    + rewrite app_comm_cons, app_assoc in E. apply app_inj_tail in E as [-> <-]. left.
      exists h1, nonce, h2. split_and!; [done|eauto|]. intros h2' Hp. apply Hpre. by apply prefix_app_r.
  - intros [Hne [(h1 & nonce & h2 & -> & Ho & Hpre)|(n & name & -> & Ho)]].
    + exists h1, nonce, (h2 ++ [d]). rewrite <-app_assoc in *. split_and!; [done|done|].
      intros h2' Hp. destruct (prefix_snoc_cases h2' h2 d Hp) as [?| ->]; [auto|done].
    + exists h, n, []. split_and!; [done|eauto|]. intros h2' Hp%prefix_nil_inv. by subst.
Qed.

Lemma flagOf_spec h : (flagOf h).2 = true ↔ unrecovered h.
Proof.
  induction h as [|d h IH] using rev_ind.
  { split; [done|]. intros (h1 & n & h2 & E & _). by destruct h1. }
  rewrite unrecovered_snoc, <-IH, <-startsRecovery_spec, <-(flagOf_ledger h).
  unfold flagOf. rewrite foldl_app. fold (flagOf h). cbn [foldl flagStep snd].
  rewrite andb_true_iff, orb_true_iff, negb_true_iff, bool_decide_eq_false, nonempty_lookup.
  setoid_rewrite <-ledgerOf_spec. rewrite ledgerOf_snoc, flagOf_ledger. naive_solver.
Qed.

Abbreviation deleteAll := (foldl (λ (m : gmap string string) name, delete name m)).

Lemma deleteAll_empty l : deleteAll ∅ l = ∅.
Proof. induction l as [|x l IH]; [done|]. cbn. by rewrite delete_empty. Qed.

Lemma flag_forgotten l L b :
  b = b && negb (bool_decide (L = ∅)) →
  foldl flagStep (L, b) (Forgotten <$> l) = (deleteAll L l, b && negb (bool_decide (deleteAll L l = ∅))).
Proof.
  revert L b. induction l as [|x l IH]; intros L b Hb; [cbn; by rewrite <-Hb|].
  cbn [fmap list_fmap foldl].
  assert (flagStep (L, b) (Forgotten x) = (delete x L, b && negb (bool_decide (delete x L = ∅)))) as ->
    by (unfold flagStep; cbn; by rewrite orb_false_r).
  rewrite IH; [|by rewrite <-andb_assoc, andb_diag].
  f_equal. rewrite <-andb_assoc. f_equal.
  destruct (decide (delete x L = ∅)) as [E|E].
  - rewrite E, deleteAll_empty. done.
  - by rewrite (bool_decide_eq_false_2 _ E).
Qed.

Lemma flagStep_reply L b request :
  foldl flagStep (L, b) (reply request)
  = if decide (dr_ResponseNonce request = "") then (L, b)
    else (ledgerReply L (dr_ResponseNonce request) (accepts request),
          (b || rejects L (dr_ResponseNonce request) (accepts request))
          && negb (bool_decide (ledgerReply L (dr_ResponseNonce request) (accepts request) = ∅))).
Proof.
  unfold reply. case_decide; [done|]. unfold ledgerReply, rejects. by destruct (accepts request).
Qed.

(** [w] keeps the books of the history [h]. *)
Definition keeps (h : list delivery) (w : watchState) : Prop :=
  acks_ok w ∧ ws_trackAcks w = true ∧ flagOf h = (ledger w, ws_recovering w).

Lemma books_keeps h d w w' L b :
  keeps h w → books w w' L b →
  foldl flagStep (ledger w, ws_recovering w) d = (L, b && negb (bool_decide (L = ∅))) →
  keeps (h ++ d) w'.
Proof.
  intros (Hok & Ht & Hf) [B1 B2 B3 B4] Hd. split_and!; [done|congruence|].
  unfold flagOf in *. by rewrite foldl_app, Hf, Hd, B2, B3.
Qed.

Lemma watch_step_keeps h w d w' : keeps h w → watch_step w d w' → keeps (h ++ d) w'.
Proof.
  intros Hk Hstep. pose proof Hk as (Hok & Ht & Hf).
  pose proof (recovering_and w Hok) as Hr. destruct Hstep as [request|now elide r|removed|w' Hs].
  - pose proof (applySubscription_books w request Hok) as Ha.
    assert (keeps (h ++ (Forgotten <$> unsubscribed request)) (applySubscription w request).1) as Hk1.
    { eapply books_keeps; [done|exact Ha|]. by apply flag_forgotten. }
    rewrite app_assoc. destruct (decide (dr_ResponseNonce request = "")) as [E|E].
    + rewrite recordAcknowledgement_none by done. unfold reply. rewrite decide_True by done.
      by rewrite app_nil_r.
    + destruct Hk1 as (Hok1 & Ht1 & Hf1).
      eapply books_keeps; [by split_and!|by apply recordAcknowledgement_books|].
      rewrite flagStep_reply. by rewrite decide_False.
  - eapply books_keeps; [done|by apply recordResponse_books|]. unfold flagStep. cbn. by destruct (ws_recovering w).
  - eapply books_keeps; [done|by apply dropRemovals_books|]. by apply flag_forgotten.
  - eapply books_keeps; [done|by apply same_acks_books|]. cbn. by rewrite <-Hr.
Qed.

Lemma watch_run_keeps typeURL h w :
  tracksAcks typeURL = true → watch_run typeURL h w → keeps h w.
Proof.
  intros Ht. induction 1 as [|h w d w' _ IH Hstep]; [|by eapply watch_step_keeps].
  split_and!; [|done|done]. by split.
Qed.

(** ** The ledger theorem *)

(** C19: for a type whose acknowledgements are tracked, through any requests and responses
    the watch's lazy bookkeeping is the ledger of the stream: it records a name with a
    nonce exactly when the last response that carried the name has that nonce, was not
    accepted, and the client has not unsubscribed since; and it is recovering exactly
    when an outstanding delivery was rejected and something was outstanding ever since. *)
Theorem acknowledgement_ledger typeURL h w :
  tracksAcks typeURL = true → watch_run typeURL h w →
  (∀ name nonce, ledger w !! name = Some nonce ↔ outstanding h name nonce)
  ∧ (ws_recovering w = true ↔ unrecovered h).
Proof.
  intros Ht Hrun. destruct (watch_run_keeps typeURL h w Ht Hrun) as (_ & _ & Hf). split.
  - intros name nonce. rewrite <-ledgerOf_spec, <-flagOf_ledger, Hf. done.
  - by rewrite <-flagOf_spec, Hf.
Qed.

(** Two overlapping responses, the first of which is rejected *)
Definition clusterResponse (nonce : string) (names : list string) : DeltaResponse :=
  mkResponse "v" ClusterType nonce ((λ n, mkWireResource n [] "h" None None) <$> names) [].

Definition rejectedWatch : watchState :=
  let w := recordResponse (newWatch ClusterType) 0 false (clusterResponse "1" ["a"; "b"]) in
  let w := recordResponse w 0 false (clusterResponse "2" ["b"]) in
  let request := mkRequest ClusterType [] [] ∅ "1" (Some ("refused", 3%Z)) in
  (recordAcknowledgement (applySubscription w request).1 request).1.

Lemma acknowledgement_ledger_witness :
  ∃ h, unrecovered h ∧ outstanding h "a" "1" ∧ outstanding h "b" "2"
    ∧ ws_recovering rejectedWatch = true.
Proof.
  set (request := mkRequest ClusterType [] [] ∅ "1" (Some ("refused", 3%Z))).
  exists ((([] ++ [Delivered (clusterResponse "1" ["a"; "b"])])
    ++ [Delivered (clusterResponse "2" ["b"])]) ++ ((Forgotten <$> unsubscribed request) ++ reply request)).
  match goal with |- unrecovered ?h ∧ _ => assert (watch_run ClusterType h rejectedWatch) as Hrun end.
  { eapply run_step; [|apply (step_request _ request)].
    eapply run_step; [|apply (step_response _ 0 false)].
    eapply run_step; [apply run_start|apply (step_response _ 0 false)]. }
  destruct (acknowledgement_ledger ClusterType _ rejectedWatch ltac:(vm_compute; reflexivity) Hrun)
    as [Hl Hr].
  split_and!; [apply Hr|apply Hl|apply Hl|]; vm_compute; reflexivity.
Defined.
