(* ===== verification/Sending.v ===== *)
(** * Sending: what a response does to the state of a watch (src/pkg/xds/delta.go)

    A generated delta is refused unless it is well formed; one that is sent leaves the
    watch with the versions the client then holds. *)

From S2P Require Import Prelude Identity Resource ResourceIndex ResourceSet Update Watch Generator Delta.

Lemma sort_on_elem {A} (key : A → string) x l : x ∈ sort_on key l → x ∈ l.
Proof. apply elem_of_sort_on. Qed.

Lemma sort_strings_elem x l : x ∈ sort_strings l → x ∈ l.
Proof. apply elem_of_sort_strings. Qed.

Lemma sorted_filter {A} (R : relation A) (P : A → Prop) `{∀ x, Decision (P x)} l :
  StronglySorted R l → StronglySorted R (base.filter P l).
Proof.
  induction 1 as [|x l Hl IH Hx]; [constructor|]. rewrite filter_cons. case_decide; [|done].
  constructor; [done|]. rewrite Forall_forall in *. intros y [_ Hy]%list_elem_of_filter. auto.
Qed.

Lemma list_filter_all {A} (P : A → Prop) `{∀ x, Decision (P x)} (l : list A) : (∀ x, P x) → base.filter P l = l.
Proof.
  intros HP. induction l as [|x l IH]; [done|]. rewrite filter_cons, IH. by rewrite decide_True.
Qed.

(** ** Well-formed deltas *)

(** A resource that may be sent in a response of the type *)
Definition servable (typeURL : string) (r : Resource) : Prop :=
  TypeURL (Key r) = typeURL ∧ any_TypeUrl <$> Value r = Some typeURL
  ∧ blank (Name (Key r)) = false ∧ blank (XDSName r) = false ∧ Hash r ≠ "".

#[export] Instance servable_dec typeURL r : Decision (servable typeURL r).
Proof. unfold servable. apply _. Defined.

Definition delta_ok (typeURL : string) (d : GeneratedDelta) : Prop :=
  (∀ r, r ∈ gd_Resources d → servable typeURL r)
  ∧ NoDup (XDSName <$> gd_Resources d)
  ∧ (∀ n, n ∈ gd_Removed d → blank n = false ∧ n ∉ XDSName <$> gd_Resources d)
  ∧ NoDup (gd_Removed d).

#[export] Instance delta_ok_dec typeURL d : Decision (delta_ok typeURL d).
Proof.
  refine (cast_if (decide (Forall (servable typeURL) (gd_Resources d) ∧ NoDup (XDSName <$> gd_Resources d)
    ∧ Forall (λ n, blank n = false ∧ n ∉ XDSName <$> gd_Resources d) (gd_Removed d) ∧ NoDup (gd_Removed d))));
    unfold delta_ok; by rewrite !Forall_forall in *.
Defined.

(** Whether a resource expires before the response is sent *)
Definition expired (now : Z) (d : GeneratedDelta) (r : Resource) : bool :=
  match gd_expiresAt d !! XDSName r with
  | Some deadline => bool_decide (deadline - now ≤ 0)%Z
  | None => false
  end.

(** The resource as it goes on the wire *)
Definition wireOf (now : Z) (d : GeneratedDelta) (r : Resource) : WireResource :=
  mkWireResource (XDSName r) (Aliases r) (default (Hash r) (gd_versions d !! XDSName r)) (Value r)
    ((λ deadline, (deadline - now)%Z) <$> gd_expiresAt d !! XDSName r).

Section validation.
Context (typeURL : string) (now : Z) (d : GeneratedDelta).

Lemma guard_true (c : bool) e {A} (k : result A) : c = true → (check! c else e in k) = k.
Proof. by intros ->. Qed.

Lemma guard_false (c : bool) e {A} (k : result A) : c = false → (check! c else e in k) = Err e.
Proof. by intros ->. Qed.

Lemma validateOne_servable st r :
  servable typeURL r → XDSName r ∉ st.1.2 →
  validateOne typeURL now d st r
  = Ok (if expired now d r then (st.1.1, {[XDSName r]} ∪ st.1.2, st.2 ++ [XDSName r])
        else (st.1.1 ++ [wireOf now d r], {[XDSName r]} ∪ st.1.2, st.2)).
Proof.
  destruct st as [[wire names] exp]. cbn [fst snd]. intros (Ht & (v & Hv & Hvt)%fmap_Some & Hk & Hx & Hh) Hn.
  unfold validateOne. rewrite guard_true; [|rewrite Hv; by rewrite !bool_decide_eq_true_2].
  rewrite guard_true; [|rewrite Hk, Hx; by rewrite bool_decide_eq_false_2].
  rewrite guard_true by (by rewrite bool_decide_eq_true_2).
  unfold expired, wireOf. destruct (gd_expiresAt d !! XDSName r) as [deadline|]; [|done].
  by destruct (decide (deadline - now ≤ 0)%Z) as [E|E];
    [rewrite bool_decide_eq_true_2|rewrite bool_decide_eq_false_2].
Qed.

Lemma validateOne_refused st r :
  ¬ (servable typeURL r ∧ XDSName r ∉ st.1.2) → ∃ e, validateOne typeURL now d st r = Err e.
Proof.
  destruct st as [[wire names] exp]. cbn [fst snd]. intros Hno. unfold validateOne.
  destruct (bool_decide (TypeURL (Key r) = typeURL) && _) eqn:H1; [|eauto]. cbn [rbind guard_ok].
  destruct (negb _) eqn:H2; [|eauto]. cbn [rbind guard_ok].
  destruct (bool_decide (XDSName r ∉ names)) eqn:H3; [|eauto]. exfalso. apply Hno.
  apply andb_true_iff in H1 as [H1%bool_decide_eq_true Hv].
  apply negb_true_iff, orb_false_iff in H2 as [[Hk Hx]%orb_false_iff Hh%bool_decide_eq_false].
  apply bool_decide_eq_true in H3. split; [|done].
  destruct (Value r) as [v|] eqn:Ev; [|done]. apply bool_decide_eq_true in Hv.
  split_and!; [done| |done..]. rewrite Ev. cbn. by rewrite Hv.
Qed.

Lemma validate_resources l st :
  (∀ r, r ∈ l → servable typeURL r) → NoDup (XDSName <$> l) → (∀ r, r ∈ l → XDSName r ∉ st.1.2) →
  rfold (validateOne typeURL now d) l st
  = Ok (st.1.1 ++ (wireOf now d <$> base.filter (λ r, expired now d r = false) l),
        list_to_set (XDSName <$> l) ∪ st.1.2,
        st.2 ++ (XDSName <$> base.filter (λ r, expired now d r = true) l)).
Proof.
  revert st. induction l as [|r l IH]; intros [[wire names] exp] Hs Hnd Hn; cbn [fst snd] in *.
  { cbn. by rewrite !app_nil_r, (left_id_L ∅ (∪)). }
  cbn [rfold]. rewrite validateOne_servable by (cbn; first [apply Hs; left|apply Hn; left]).
  rewrite fmap_cons in Hnd. apply NoDup_cons in Hnd as [Hr Hnd].
  assert (∀ r', r' ∈ l → XDSName r' ∉ {[XDSName r]} ∪ names) as Hn'.
  { intros r' Hr'. rewrite not_elem_of_union, not_elem_of_singleton. split.
    - intros E. apply Hr. rewrite <-E. by apply list_elem_of_fmap_2.
    - apply Hn. by right. }
  cbn [rbind fst snd]. rewrite !filter_cons.
  assert (list_to_set (XDSName <$> r :: l) ∪ names
    = list_to_set (XDSName <$> l) ∪ ({[XDSName r]} ∪ names)) as ->.
  { rewrite fmap_cons, list_to_set_cons. apply set_eq. intros x. rewrite !elem_of_union. tauto. }
  assert (∀ r', r' ∈ l → servable typeURL r') as Hs' by (intros; apply Hs; by right).
  destruct (expired now d r); (rewrite IH; [|done..]); cbn [fst snd].
  - rewrite (decide_False (P := true = false)), (decide_True (P := true = true)) by done.
    by rewrite fmap_cons, <-app_assoc.
  - rewrite (decide_True (P := false = false)), (decide_False (P := false = true)) by done.
    by rewrite fmap_cons, <-app_assoc.
Qed.

Lemma validate_resources_refused l st :
  ¬ ((∀ r, r ∈ l → servable typeURL r) ∧ NoDup (XDSName <$> l) ∧ (∀ r, r ∈ l → XDSName r ∉ st.1.2)) →
  ∃ e, rfold (validateOne typeURL now d) l st = Err e.
Proof.
  revert st. induction l as [|r l IH]; intros st Hno.
  { destruct Hno. split_and!; [by intros r ?%elem_of_nil|constructor|by intros r ?%elem_of_nil]. }
  cbn [rfold]. destruct (validateOne typeURL now d st r) as [st'|e] eqn:Hv; [|by exists e].
  cbn [rbind]. apply IH. intros (Hs & Hnd & Hn). apply Hno.
  destruct (decide (XDSName r ∈ st.1.2)) as [Hin|Hin].
  { destruct (validateOne_refused st r) as [e He]; [tauto|]. by rewrite He in Hv. }
  assert (servable typeURL r) as Hr.
  { apply dec_stable. intros Hr. destruct (validateOne_refused st r) as [e He]; [tauto|].
    by rewrite He in Hv. }
  rewrite validateOne_servable in Hv by done.
  assert (st'.1.2 = {[XDSName r]} ∪ st.1.2) as Enames.
  { injection Hv as <-. by destruct (expired now d r). }
  setoid_rewrite Enames in Hn. setoid_rewrite not_elem_of_union in Hn.
  setoid_rewrite not_elem_of_singleton in Hn. split_and!.
  - intros r' [->|Hr']%elem_of_cons; auto.
  - rewrite fmap_cons. apply NoDup_cons. split; [|done].
    intros (r' & E & Hr')%list_elem_of_fmap. by destruct (Hn r' Hr').
  - intros r' [->|Hr']%elem_of_cons; [done|]. by destruct (Hn r' Hr').
Qed.

(** Sorted names without adjacent repeats do not repeat. *)
Lemma validate_removed names l previous :
  StronglySorted String.le l → (∀ p, previous = Some p → Forall (String.le p) l) →
  (∀ n, n ∈ l → blank n = false ∧ n ∉ names) → NoDup l → (∀ p, previous = Some p → p ∉ l) →
  ∃ last, rfold (validateRemoved names) l previous = Ok last.
Proof.
  revert previous. induction l as [|n l IH]; intros previous Hs Hp Hok Hnd Hpn; [by eexists|].
  cbn [rfold]. destruct (Hok n) as [Hb Hn]; [left|]. unfold validateRemoved at 1.
  rewrite Hb, (bool_decide_eq_true_2 (n ∉ names)) by done. cbn [negb rbind guard_ok].
  rewrite bool_decide_eq_true_2; last first.
  { intros ->. apply (Hpn n eq_refl). left. }
  cbn [rbind guard_ok]. apply StronglySorted_cons in Hs as [Hf Hs]. apply NoDup_cons in Hnd as [Hnin Hnd].
  apply IH; [done| | |done|].
  - by intros p [= <-].
  - intros x Hx. apply Hok. by right.
  - by intros p [= <-].
Qed.
End validation.

Lemma validate_removed_refused names l previous :
  StronglySorted String.le l →
  ¬ ((∀ n, n ∈ l → blank n = false ∧ n ∉ names) ∧ NoDup l ∧ (∀ p, previous = Some p → p ∉ l)) →
  (∀ p, previous = Some p → Forall (String.le p) l) →
  ∃ e, rfold (validateRemoved names) l previous = Err e.
Proof.
  revert previous. induction l as [|n l IH]; intros previous Hs Hno Hp.
  { destruct Hno. split_and!; [by intros n ?%elem_of_nil|constructor|by intros p _ ?%elem_of_nil]. }
  apply StronglySorted_cons in Hs as [Hf Hs]. cbn [rfold]. unfold validateRemoved at 1.
  destruct (blank n) eqn:Hb; [by eexists|]. cbn [negb guard_ok rbind].
  destruct (bool_decide_reflect (previous ≠ Some n)) as [Hpn|Hpn]; [|by eexists]. cbn [guard_ok rbind].
  destruct (bool_decide_reflect (n ∉ names)) as [Hn|Hn]; [|by eexists]. cbn [guard_ok rbind].
  apply IH; [done| |by intros p [= <-]]. intros (Hok & Hnd & Hnl). apply Hno.
  split_and!.
  - intros x [->|Hx]%elem_of_cons; [done|auto].
  - apply NoDup_cons. split; [by apply Hnl|done].
  - intros p -> [->|Hpl]%elem_of_cons; [done|].
    specialize (Hp p eq_refl). apply Forall_cons in Hp as [Hle _].
    apply Hpn. f_equal. apply (anti_symm String.le); [done|]. by eapply Forall_forall.
Qed.

Section validated.
Context (typeURL : string) (now : Z) (d : GeneratedDelta).

Lemma sorted_resources_ok :
  delta_ok typeURL d →
  (∀ r, r ∈ sort_on XDSName (gd_Resources d) → servable typeURL r)
  ∧ NoDup (XDSName <$> sort_on XDSName (gd_Resources d))
  ∧ (∀ r, r ∈ sort_on XDSName (gd_Resources d) → XDSName r ∉ (∅ : gset string)).
Proof.
  intros (Hs & Hnd & _). split_and!.
  - intros r Hr%sort_on_elem. auto.
  - unfold sort_on. by rewrite isort_Permutation.
  - intros r _. apply not_elem_of_empty.
Qed.

Lemma sort_strings_sorted l : StronglySorted String.le (sort_strings l).
Proof. apply (isort_sorted String.le). Qed.

(** The removals a validated delta leads to *)
Definition removals : list string :=
  sort_strings (sort_strings (gd_Removed d)
                ++ (XDSName <$> base.filter (λ r, expired now d r = true) (sort_on XDSName (gd_Resources d)))).

Definition wires : list WireResource :=
  wireOf now d <$> base.filter (λ r, expired now d r = false) (sort_on XDSName (gd_Resources d)).

Lemma validateGeneratedDelta_accepted :
  delta_ok typeURL d → validateGeneratedDelta typeURL now d = Ok (wires, removals).
Proof.
  intros Hok. destruct (sorted_resources_ok Hok) as (H1 & H2 & H3). destruct Hok as (_ & _ & Hr & Hnd).
  unfold validateGeneratedDelta. rewrite validate_resources by done. cbn [rbind fst snd app].
  destruct (validate_removed (list_to_set (XDSName <$> sort_on XDSName (gd_Resources d)) ∪ ∅)
    (sort_strings (gd_Removed d)) None) as [last ->]; [apply sort_strings_sorted|done| | |done|done].
  - intros n Hn%sort_strings_elem. destruct (Hr n Hn) as [Hb Hnr]. split; [done|].
    rewrite elem_of_union, elem_of_list_to_set, elem_of_empty. intros [Hin|[]]. apply Hnr.
    apply list_elem_of_fmap in Hin as (r & -> & Hin%sort_on_elem). by apply list_elem_of_fmap_2.
  - unfold sort_strings. by rewrite isort_Permutation.
Qed.

Lemma validateGeneratedDelta_refused :
  ¬ delta_ok typeURL d → ∃ e, validateGeneratedDelta typeURL now d = Err e.
Proof.
  intros Hno. unfold validateGeneratedDelta.
  destruct (rfold (validateOne typeURL now d) (sort_on XDSName (gd_Resources d)) ([], ∅, []))
    as [[[wire names] exp]|e] eqn:Hv; [|by eexists]. cbn [rbind].
  destruct (decide (Forall (servable typeURL) (sort_on XDSName (gd_Resources d))
    ∧ NoDup (XDSName <$> sort_on XDSName (gd_Resources d)))) as [[H1 H2]|Hbad]; last first.
  { destruct (validate_resources_refused typeURL now d (sort_on XDSName (gd_Resources d)) ([], ∅, []))
      as [e He]; [|by rewrite He in Hv].
    intros (H1 & H2 & _). apply Hbad. split; [by apply Forall_forall|done]. }
  rewrite Forall_forall in H1.
  rewrite validate_resources in Hv; [|done|done|intros; apply not_elem_of_empty].
  injection Hv as <- <- <-. cbn [fst snd].
  destruct (validate_removed_refused (list_to_set (XDSName <$> sort_on XDSName (gd_Resources d)) ∪ ∅)
    (sort_strings (gd_Removed d)) None) as [e ->]; [apply sort_strings_sorted| |done|by eexists].
  intros (H3 & H4 & _). apply Hno.
  assert (∀ r, r ∈ gd_Resources d ↔ r ∈ sort_on XDSName (gd_Resources d)) as Hiff
    by (intros r; by rewrite elem_of_sort_on).
  split_and!.
  - intros r Hr%Hiff. by apply H1.
  - unfold sort_on in H2. by rewrite isort_Permutation in H2.
  - intros n Hn. destruct (H3 n) as [Hb Hnn]; [by apply elem_of_sort_strings|]. split; [done|].
    intros (r & -> & Hr%Hiff)%list_elem_of_fmap. apply Hnn.
    rewrite elem_of_union, elem_of_list_to_set. left. by apply list_elem_of_fmap_2.
  - unfold sort_strings in H4. by rewrite isort_Permutation in H4.
Qed.

Lemma elem_of_removals n :
  n ∈ removals ↔ n ∈ gd_Removed d
    ∨ ∃ r, r ∈ gd_Resources d ∧ expired now d r = true ∧ XDSName r = n.
Proof.
  unfold removals. rewrite elem_of_sort_strings, elem_of_app, elem_of_sort_strings, list_elem_of_fmap.
  setoid_rewrite list_elem_of_filter. setoid_rewrite elem_of_sort_on. naive_solver.
Qed.

Lemma elem_of_wires x :
  x ∈ wires ↔ ∃ r, r ∈ gd_Resources d ∧ expired now d r = false ∧ x = wireOf now d r.
Proof.
  unfold wires. rewrite list_elem_of_fmap. setoid_rewrite list_elem_of_filter.
  setoid_rewrite elem_of_sort_on. naive_solver.
Qed.

(** Of a well-formed delta, no name is sent twice, removed twice, or both. *)
Lemma response_distinct :
  delta_ok typeURL d → ssorted (wr_Name <$> wires) ∧ ssorted removals
  ∧ ∀ n, n ∈ removals → n ∉ wr_Name <$> wires.
Proof.
  intros (Hs & Hnd & Hr & Hndr).
  assert (∀ r r', r ∈ gd_Resources d → r' ∈ gd_Resources d → XDSName r = XDSName r' → r = r') as Hinj.
  { intros r r' Hin Hin' E. apply list_elem_of_lookup_1 in Hin as (i & Hi), Hin' as (j & Hj).
    assert (i = j) as ->; [|congruence].
    apply (NoDup_lookup _ _ _ (XDSName r) Hnd); rewrite list_lookup_fmap; [by rewrite Hi|].
    by rewrite Hj, E. }
  assert (NoDup (gd_Resources d)) as Hnd' by (by eapply NoDup_fmap_1).
  split_and!.
  - apply sorted_NoDup_ssorted; unfold wires.
    + rewrite <-list_fmap_compose. change (wr_Name ∘ wireOf now d) with XDSName.
      apply (sorted_le_fmap XDSName), sorted_filter, isort_sorted; apply _.
    + rewrite <-list_fmap_compose. change (wr_Name ∘ wireOf now d) with XDSName.
      apply NoDup_fmap_2_strong.
      * intros r r' [_ Hin%sort_on_elem]%list_elem_of_filter
          [_ Hin'%sort_on_elem]%list_elem_of_filter. auto.
      * apply NoDup_filter. unfold sort_on. by rewrite isort_Permutation.
  - apply sorted_NoDup_ssorted; [apply sort_strings_sorted|]. unfold removals, sort_strings.
    rewrite !isort_Permutation. apply NoDup_app. split_and!; [done| |].
    + intros n Hn (r & -> & [_ Hin%sort_on_elem]%list_elem_of_filter)%list_elem_of_fmap.
      destruct (Hr _ Hn) as [_ Hnr]. apply Hnr. by apply list_elem_of_fmap_2.
    + apply NoDup_fmap_2_strong; [|apply NoDup_filter; unfold sort_on; by rewrite isort_Permutation].
      intros r r' [_ Hin%sort_on_elem]%list_elem_of_filter
          [_ Hin'%sort_on_elem]%list_elem_of_filter. auto.
  - intros n Hn (x & -> & (r & Hin & He & ->)%elem_of_wires)%list_elem_of_fmap. cbn in Hn.
    apply elem_of_removals in Hn as [Hn|(r' & Hin' & He' & E)].
    + destruct (Hr _ Hn) as [_ Hnr]. apply Hnr. by apply list_elem_of_fmap_2.
    + rewrite (Hinj r' r) in He' by done. congruence.
Qed.
End validated.

(** ** The versions a client holds *)

Lemma deleteNames_lookup (m : gmap string string) l x :
  foldl (λ (m : gmap string string) name, delete name m) m l !! x
  = if decide (x ∈ l) then None else m !! x.
Proof.
  revert m. induction l as [|y l IH]; intros m; cbn [foldl].
  { rewrite decide_False by apply not_elem_of_nil. done. }
  rewrite IH. destruct (decide (x ∈ l)) as [Hx|Hx].
  { rewrite decide_True by (by right). done. }
  destruct (decide (x = y)) as [->|Hne].
  - rewrite decide_True by left. apply lookup_delete_eq.
  - rewrite decide_False by (rewrite elem_of_cons; tauto). by rewrite lookup_delete_ne.
Qed.

Lemma insertWires_lookup (m : gmap string string) l x :
  NoDup (wr_Name <$> l) →
  foldl (λ (m : gmap string string) y, <[wr_Name y := wr_Version y]> m) m l !! x
  = match list_find (λ y, wr_Name y = x) l with Some (_, y) => Some (wr_Version y) | None => m !! x end.
Proof.
  revert m. induction l as [|y l IH]; intros m Hnd; [done|]. cbn [foldl].
  rewrite fmap_cons in Hnd. apply NoDup_cons in Hnd as [Hy Hnd]. rewrite IH by done. cbn [list_find].
  destruct (decide (wr_Name y = x)) as [<-|Hne].
  - assert (list_find (λ z, wr_Name z = wr_Name y) l = None) as ->; [|apply lookup_insert_eq].
    apply list_find_None, Forall_forall. intros z Hz E. apply Hy. rewrite <-E. by apply list_elem_of_fmap_2.
  - destruct (list_find _ l) as [[i z]|]; cbn; [done|]. by rewrite lookup_insert_ne.
Qed.

(** The versions after a response with distinct names *)
Lemma recordSent_lookup sent r x :
  NoDup (wr_Name <$> dp_Resources r) →
  (∀ y, y ∈ dp_Resources r → wr_Name y = x → recordSent sent false r !! x = Some (wr_Version y))
  ∧ ((x ∉ wr_Name <$> dp_Resources r) →
     recordSent sent false r !! x = if decide (x ∈ dp_Removed r) then None else sent !! x).
Proof.
  intros Hnd. unfold recordSent. rewrite insertWires_lookup by done. split.
  - intros y Hy Hx. destruct (list_find _ _) as [[i z]|] eqn:Hf.
    + apply list_find_Some in Hf as (Hz & Hzx & _). f_equal. f_equal.
      apply list_elem_of_lookup_1 in Hy as (j & Hj).
      assert (i = j) as ->; [|congruence].
      apply (NoDup_lookup _ _ _ x Hnd); rewrite list_lookup_fmap; [rewrite Hz|rewrite Hj]; cbn; congruence.
    + apply list_find_None in Hf. rewrite Forall_forall in Hf. by destruct (Hf y Hy).
  - intros Hx. destruct (list_find _ _) as [[i z]|] eqn:Hf.
    + apply list_find_Some in Hf as (Hz & Hzx & _). destruct Hx. rewrite <-Hzx.
      apply list_elem_of_fmap_2. by apply list_elem_of_lookup_2 in Hz.
    + apply deleteNames_lookup.
Qed.

(** A delta that takes a client with the versions [sent] to exactly the resources of
    [target]: it sends only resources of the target, all whose version the client lacks,
    and withdraws only names outside the target, all that the client holds. *)
Record converges (sent : gmap string string) (d : GeneratedDelta) (target : selection) : Prop :=
  mkConverges {
  cv_named x r : target !! x = Some r → XDSName r = x;
  cv_selected r : r ∈ gd_Resources d → target !! XDSName r = Some r;
  cv_complete x r : target !! x = Some r → sent !! x = Some (Hash r) ∨ r ∈ gd_Resources d;
  cv_removed x : x ∈ gd_Removed d → target !! x = None;
  cv_withdrawn x : target !! x = None → sent !! x ≠ None → x ∈ gd_Removed d;
  cv_distinct : NoDup (gd_Resources d) ∧ NoDup (gd_Removed d);
  cv_plain : gd_versions d = ∅ ∧ gd_expiresAt d = ∅
}.

Lemma converges_names sent d target :
  converges sent d target → NoDup (XDSName <$> gd_Resources d)
  ∧ ∀ n, n ∈ gd_Removed d → n ∉ XDSName <$> gd_Resources d.
Proof.
  intros [_ Hs _ Hr _ [Hnd _] _]. split.
  - apply NoDup_fmap_2_strong; [|done]. intros r r' Hin Hin' E.
    pose proof (Hs r Hin) as H1. pose proof (Hs r' Hin') as H2. congruence.
  - intros n Hn (r & -> & Hin)%list_elem_of_fmap. specialize (Hr _ Hn). by rewrite (Hs r Hin) in Hr.
Qed.

(** A converging delta is refused only for the resources or names it has. *)
Lemma converges_ok typeURL sent d target :
  converges sent d target → (∀ x r, target !! x = Some r → servable typeURL r) →
  (∀ n, n ∈ gd_Removed d → blank n = false) → delta_ok typeURL d.
Proof.
  intros Hc Hs Hb. destruct (converges_names _ _ _ Hc) as [Hnd Hdis].
  split_and!; [|done| |apply Hc].
  - intros r Hr. eapply Hs. by apply (cv_selected _ _ _ Hc).
  - intros n Hn. auto.
Qed.

Lemma plain_wires now sent d target :
  converges sent d target →
  wires now d = (λ r, mkWireResource (XDSName r) (Aliases r) (Hash r) (Value r) None)
                  <$> sort_on XDSName (gd_Resources d)
  ∧ ∀ n, n ∈ removals now d ↔ n ∈ gd_Removed d.
Proof.
  intros Hc. destruct (cv_plain _ _ _ Hc) as [Hv He].
  assert (∀ r, expired now d r = false) as Hexp by (intros r; unfold expired; by rewrite He).
  split.
  - unfold wires. rewrite list_filter_all by done. apply list_fmap_ext. intros i r _.
    unfold wireOf. by rewrite Hv, He.
  - intros n. rewrite elem_of_removals. setoid_rewrite Hexp. naive_solver.
Qed.

(** The client holds the versions of the target after the response, and those of the
    target over the old ones when removals are withheld. *)
Lemma converges_sent now sent d target r (withheld : bool) :
  converges sent d target → dp_Resources r = wires now d →
  dp_Removed r = (if withheld then [] else removals now d) →
  recordSent sent false r = if withheld then (Hash <$> target) ∪ sent else Hash <$> target.
Proof.
  intros Hc Hres Hrem. destruct (converges_names _ _ _ Hc) as [Hnd Hdis].
  destruct (plain_wires now _ _ _ Hc) as [Hw Hr].
  assert (NoDup (wr_Name <$> dp_Resources r)) as Hndw.
  { rewrite Hres, Hw, <-list_fmap_compose. change (NoDup (XDSName <$> sort_on XDSName (gd_Resources d))).
    unfold sort_on. by rewrite isort_Permutation. }
  apply map_eq. intros x. destruct (recordSent_lookup sent r x Hndw) as [Hsent Hold].
  destruct (decide (x ∈ XDSName <$> gd_Resources d)) as [(q & -> & Hq)%list_elem_of_fmap|Hx].
  - rewrite (Hsent (mkWireResource (XDSName q) (Aliases q) (Hash q) (Value q) None)); [| |done]; last first.
    { rewrite Hres, Hw. apply list_elem_of_fmap. exists q. split; [done|]. by apply elem_of_sort_on. }
    pose proof (cv_selected _ _ _ Hc q Hq) as Ht.
    destruct withheld; [symmetry; apply lookup_union_Some_l|]; by rewrite lookup_fmap, Ht.
  - rewrite Hold; last first.
    { rewrite Hres, Hw, <-list_fmap_compose. intros (q & -> & Hq%sort_on_elem)%list_elem_of_fmap.
      apply Hx. by apply list_elem_of_fmap_2. }
    assert (∀ q, target !! x = Some q → sent !! x = Some (Hash q)) as Hkeep.
    { intros q Hq. destruct (cv_complete _ _ _ Hc x q Hq) as [?|Hin]; [done|].
      destruct Hx. rewrite <-(cv_named _ _ _ Hc x q Hq). by apply list_elem_of_fmap_2. }
    rewrite Hrem. destruct (target !! x) as [q|] eqn:Hq.
    + specialize (Hkeep q eq_refl). rewrite decide_False; last first.
      { destruct withheld; [apply not_elem_of_nil|]. intros Hin%Hr.
        by rewrite (cv_removed _ _ _ Hc x Hin) in Hq. }
      rewrite Hkeep.
      destruct withheld; [symmetry; apply lookup_union_Some_l|]; by rewrite lookup_fmap, Hq.
    + destruct withheld.
      * rewrite decide_False by apply not_elem_of_nil. by rewrite lookup_union_r by (by rewrite lookup_fmap, Hq).
      * rewrite lookup_fmap, Hq. destruct (decide (x ∈ removals now d)) as [|Hn]; [done|].
        destruct (sent !! x) eqn:Hx'; [|done]. destruct Hn. apply Hr.
        apply (cv_withdrawn _ _ _ Hc); [done|congruence].
Qed.

(** What a delta does to the versions of the client: no wire name is sent twice. *)
Definition applied (sent : gmap string string) (d : GeneratedDelta) : gmap string string :=
  foldl (λ (m : gmap string string) r, <[XDSName r := Hash r]> m)
    (foldl (λ (m : gmap string string) name, delete name m) sent (gd_Removed d)) (gd_Resources d).

Lemma applied_lookup sent d x :
  NoDup (XDSName <$> gd_Resources d) →
  (∀ r, r ∈ gd_Resources d → XDSName r = x → applied sent d !! x = Some (Hash r))
  ∧ ((x ∉ XDSName <$> gd_Resources d) →
     applied sent d !! x = if decide (x ∈ gd_Removed d) then None else sent !! x).
Proof.
  unfold applied. rewrite <-(deleteNames_lookup sent (gd_Removed d) x).
  generalize (foldl (λ (m : gmap string string) name, delete name m) sent (gd_Removed d)).
  induction (gd_Resources d) as [|q l IH]; intros m; cbn [foldl].
  { split; [by intros r ?%elem_of_nil|done]. }
  rewrite fmap_cons. intros [Hq Hnd]%NoDup_cons. destruct (IH (<[XDSName q := Hash q]> m) Hnd) as [H1 H2]. split.
  - intros r [->|Hr]%elem_of_cons Hx; [|auto]. rewrite H2, Hx, lookup_insert_eq; [done|by rewrite <-Hx].
  - intros [Hne Hx]%not_elem_of_cons. by rewrite H2, lookup_insert_ne.
Qed.

(** ** Sending a converging delta *)

(** The versions the watch keeps after a delta of the type *)
Definition sentAfter (typeURL : string) (target : selection) (sent : gmap string string)
    : gmap string string :=
  if decide (typeURL = ExtensionConfigurationType) then (Hash <$> target) ∪ sent else Hash <$> target.

Lemma indexPendingResponse_sent w : ws_sent (indexPendingResponse w) = ws_sent w.
Proof. unfold indexPendingResponse. by destruct (ws_pendingResponse w). Qed.

Lemma trackDelivery_sent w r : ws_sent (trackDelivery w r) = ws_sent w.
Proof.
  unfold trackDelivery. destruct (negb _); [done|].
  set (w1 := match ws_pendingResponse w with Some _ => _ | None => w end).
  assert (ws_sent w1 = ws_sent w) as <-.
  { subst w1. destruct (ws_pendingResponse w); [|done]. by destruct (sameNames _ _). }
  rewrite <-(indexPendingResponse_sent w1). by destruct (decide (ws_pendingAcks _ = ∅)).
Qed.

Lemma recordResponse_sent w now elide r : ws_sent (recordResponse w now elide r) = recordSent (ws_sent w) elide r.
Proof. apply trackDelivery_sent. Qed.

Lemma dropRemovals_sent w l : ws_sent (dropRemovals w l) = ws_sent w.
Proof.
  unfold dropRemovals, settleRecovery. cbn [ws_sent set_acks].
  destruct (decide (length l = 0)); [done|apply indexPendingResponse_sent].
Qed.

Lemma sendGeneratedDelta_converges send now s request d force target :
  (∀ r, send r = None) → delta_ok (gr_TypeURL request) d → gd_elideSentState d = false →
  converges (ws_sent (sd_watch s)) d target →
  ∃ s', sendGeneratedDelta send now s request d force = (s', None)
    ∧ ws_sent (sd_watch s') = sentAfter (gr_TypeURL request) target (ws_sent (sd_watch s)).
Proof.
  intros Hsend Hok Hel Hc. unfold sendGeneratedDelta.
  rewrite (validateGeneratedDelta_accepted _ now d Hok).
  set (ecds := gr_TypeURL request = ExtensionConfigurationType).
  set (removed := if decide ecds then [] else removals now d).
  set (w := if decide ecds then dropRemovals (sd_watch s) (removals now d) else sd_watch s).
  assert ((if decide ecds then (dropRemovals (sd_watch s) (removals now d), []) else (sd_watch s, removals now d))
    = (w, removed)) as -> by (subst w removed; by destruct (decide ecds)).
  assert (ws_sent w = ws_sent (sd_watch s)) as Hw.
  { subst w. destruct (decide ecds); [apply dropRemovals_sent|done]. }
  assert (∀ r, dp_Resources r = wires now d → dp_Removed r = removed →
    recordSent (ws_sent (sd_watch s)) false r = sentAfter (gr_TypeURL request) target (ws_sent (sd_watch s))) as Hrec.
  { intros r Hr1 Hr2. unfold sentAfter. fold ecds.
    rewrite (converges_sent now _ d target r (bool_decide ecds)); [|done|done|].
    - by destruct (decide ecds); [rewrite bool_decide_eq_true_2|rewrite bool_decide_eq_false_2].
    - rewrite Hr2. subst removed.
      by destruct (decide ecds); [rewrite bool_decide_eq_true_2|rewrite bool_decide_eq_false_2]. }
  destruct (bool_decide _ && bool_decide _ && negb force) eqn:Hempty.
  - eexists. split; [done|]. cbn. rewrite Hw.
    apply andb_true_iff in Hempty as [[Hz1%bool_decide_eq_true%length_zero_iff_nil
      Hz2%bool_decide_eq_true%length_zero_iff_nil]%andb_true_iff _].
    rewrite <-(Hrec (mkResponse "" "" "" [] [])); [done|by rewrite Hz1|by rewrite Hz2].
  - rewrite Hsend. eexists. split; [done|]. cbn [sd_watch]. rewrite recordResponse_sent, Hel.
    match goal with |- recordSent _ _ ?r = _ => rewrite <-(Hrec r) by done end.
    cbn [ws_sent applyGenerationOutcomes set_demands]. by rewrite Hw.
Qed.

(** [validateGeneratedDelta] accepts exactly the well-formed deltas. The response it
    builds has its resources and its removals in strict name order, no name both sent and
    removed, every resource either sent with a positive remaining lifetime or, once
    expired, removed, and every removal of the delta. *)
Theorem generated_delta_validation typeURL now d :
  (delta_ok typeURL d →
     ∃ wire removed, validateGeneratedDelta typeURL now d = Ok (wire, removed)
       ∧ ssorted (wr_Name <$> wire) ∧ ssorted removed
       ∧ (∀ n, n ∈ removed → n ∉ wr_Name <$> wire)
       ∧ (∀ x, x ∈ wire ↔ ∃ r, r ∈ gd_Resources d ∧ expired now d r = false ∧ x = wireOf now d r)
       ∧ (∀ n, n ∈ removed ↔ n ∈ gd_Removed d
            ∨ ∃ r, r ∈ gd_Resources d ∧ expired now d r = true ∧ XDSName r = n)
       ∧ ∀ x ttl, x ∈ wire → wr_Ttl x = Some ttl → (0 < ttl)%Z)
  ∧ (¬ delta_ok typeURL d → ∃ e, validateGeneratedDelta typeURL now d = Err e).
Proof.
  split; [|apply validateGeneratedDelta_refused].
  intros Hok. exists (wires now d), (removals now d).
  destruct (response_distinct typeURL now d Hok) as (H1 & H2 & H3).
  split_and!; [by apply validateGeneratedDelta_accepted|done..|apply elem_of_wires|apply elem_of_removals|].
  intros x ttl (r & _ & He & ->)%elem_of_wires Ht. unfold expired in He. cbn in Ht.
  destruct (gd_expiresAt d !! XDSName r) as [deadline|]; [|done].
  apply bool_decide_eq_false in He. injection Ht as <-. lia.
Qed.
