(* ===== verification/Selections.v ===== *)
(** * Selections: index listings select what the predicates select
    (src/pkg/xds/selection.go, workload_visibility.go, traffic_policy_generator.go,
    sandbox_generator.go)

    Full generation lists candidates through the indexes of the snapshot; incremental
    generation asks a predicate of single resources. Here the two agree. *)

From S2P Require Import Prelude Identity Resource ResourceIndex ResourceSet SetInvariant SetQueries Update Watch Generator Generators.

(** ** Lists of resources of one snapshot *)

(** Resources with one key are one resource. *)
Definition coherent (l : list Resource) : Prop :=
  ∀ a b, a ∈ l → b ∈ l → Key a = Key b → a = b.

Lemma contains_coherent s t l : (∀ r, r ∈ l → contains s t r) → coherent l.
Proof.
  intros Hl a b Ha Hb E. destruct (Hl a Ha) as [_ H1], (Hl b Hb) as [_ H2]. congruence.
Qed.

Lemma uniqueStep_elem l r x :
  coherent (r :: l) → NoDup (Key <$> l) →
  (x ∈ uniqueStep l r ↔ x = r ∨ x ∈ l) ∧ NoDup (Key <$> uniqueStep l r).
Proof.
  intros Hc Hnd. unfold uniqueStep. destruct (list_find _ l) as [[i q]|] eqn:Hf.
  - apply list_find_Some in Hf as (Hi & Hq & _).
    assert (q = r) as ->.
    { apply Hc; [right; by eapply list_elem_of_lookup_2|left|done]. }
    rewrite list_insert_id by done. split; [|done]. split; [by right|].
    intros [->|?]; [by eapply list_elem_of_lookup_2|done].
  - apply list_find_None in Hf. rewrite Forall_forall in Hf. split.
    + rewrite elem_of_app, list_elem_of_singleton. tauto.
    + rewrite fmap_app. apply NoDup_app. split_and!; [done| |apply NoDup_singleton].
      intros k (q & -> & Hq)%list_elem_of_fmap Hk%list_elem_of_singleton. by destruct (Hf q Hq).
Qed.

Lemma foldl_uniqueStep l acc x :
  coherent (l ++ acc) → NoDup (Key <$> acc) →
  (x ∈ foldl uniqueStep acc l ↔ x ∈ l ∨ x ∈ acc) ∧ NoDup (Key <$> foldl uniqueStep acc l).
Proof.
  revert acc. induction l as [|r l IH]; intros acc Hc Hnd; cbn [foldl].
  { rewrite elem_of_nil. split; [tauto|done]. }
  assert (coherent (r :: acc)) as Hc'.
  { intros a b Ha Hb. apply Hc; [rewrite elem_of_app, elem_of_cons; rewrite elem_of_cons in Ha; tauto|].
    rewrite elem_of_app, elem_of_cons. rewrite elem_of_cons in Hb. tauto. }
  assert (∀ y, y ∈ uniqueStep acc r ↔ y = r ∨ y ∈ acc) as Hu by (intros y; by apply uniqueStep_elem).
  destruct (IH (uniqueStep acc r)) as [H1 H2].
  - intros a b Ha Hb. apply Hc; [rewrite elem_of_app, elem_of_cons; rewrite elem_of_app, Hu in Ha; tauto|].
    rewrite elem_of_app, elem_of_cons. rewrite elem_of_app, Hu in Hb. tauto.
  - by apply (uniqueStep_elem acc r r).
  - split; [|done]. rewrite H1, Hu, elem_of_cons. tauto.
Qed.

Lemma elem_of_orderedUnique l x : coherent l → x ∈ orderedUnique l ↔ x ∈ l.
Proof.
  intros Hc. unfold orderedUnique, sortResources. rewrite elem_of_isort.
  destruct (foldl_uniqueStep l [] x) as [-> _]; [by rewrite app_nil_r|constructor|].
  rewrite elem_of_nil. tauto.
Qed.

(** ** Queries *)

(** A query that the index answers *)
Definition query_ok (q : WorkloadQuery) : Prop := queryValid q = true ∧ query_keys q ≠ [].

Lemma HasWorkload_spec s t q :
  set_ok s → HasWorkload s t q = true ↔ ∃ r, r ∈ ListWorkloads s t q.
Proof.
  intros Hs. rewrite HasWorkload_ListWorkloads, bool_decide_eq_true.
  split; [|intros (r & Hr) E; rewrite E in Hr; by apply elem_of_nil in Hr].
  destruct (ListWorkloads s t q) as [|r l]; [done|]. intros _. exists r. left.
Qed.

Lemma elem_of_ListWorkloads s t q r :
  set_ok s → query_ok q →
  r ∈ ListWorkloads s t q ↔
  ∃ w, contains s t r ∧ rf_Workload (Facts r) = Some w ∧ Matches q (Some w) = true.
Proof.
  intros Hs [Hv Hk]. destruct (ListWorkloads_spec s t q Hs) as [-> _]. split.
  - intros (_ & _ & Hc & Hm). destruct (rf_Workload (Facts r)) as [w|]; [eauto|done].
  - intros (w & Hc & -> & Hm). done.
Qed.

(** Asking for one more constraint [P] *)
Lemma HasWorkload_narrowed s t q q' (P : WorkloadResourceFacts → Prop) :
  set_ok s → query_ok q → query_ok q' →
  (∀ w, Matches q' (Some w) = true ↔ Matches q (Some w) = true ∧ P w) →
  HasWorkload s t q' = true ↔
  ∃ r w, r ∈ ListWorkloads s t q ∧ rf_Workload (Facts r) = Some w ∧ P w.
Proof.
  intros Hs Hq Hq' HP. rewrite HasWorkload_spec by done. split.
  - intros (r & (w & Hc & Hw & Hm)%elem_of_ListWorkloads); [|done..]. apply HP in Hm as [Hm HPw].
    exists r, w. split_and!; [|done..]. apply elem_of_ListWorkloads; eauto.
  - intros (r & w & (w' & Hc & Hw' & Hm)%elem_of_ListWorkloads & Hw & HPw); [|done..].
    exists r. apply elem_of_ListWorkloads; [done..|]. exists w. split_and!; [done..|].
    apply HP. split; [congruence|done].
Qed.

(** A query without references *)
Definition unreferenced (q : WorkloadQuery) : Prop :=
  wq_ServiceKey q = "" ∧ wq_GatewayReference q = "" ∧ wq_AuthorizationReference q = ""
  ∧ wq_TrafficPolicyReference q = "".

Lemma blank_nonempty k : blank k = false → k ≠ "".
Proof. by intros H ->. Qed.

Lemma referenceQuery_ok q service gateway :
  query_ok q → unreferenced q → (service = "" ∨ blank service = false) →
  (gateway = "" ∨ blank gateway = false) → query_ok (referenceQuery q service gateway).
Proof.
  intros [Hv Hk] (U1 & U2 & U3 & U4) Hs Hg.
  assert (∀ x, x = "" ∨ blank x = false → negb (bool_decide (x ≠ "") && blank x) = true) as Hx.
  { intros x [->|Hb]; [done|]. by rewrite Hb, andb_false_r. }
  split.
  - unfold queryValid, queryFields in *. cbn in *. rewrite (Hx _ Hs), (Hx _ Hg).
    rewrite U1, U2 in Hv. exact Hv.
  - unfold query_keys, query_constraints, queryFields in *. cbn in *. intros E. apply Hk.
    rewrite U1, U2. repeat (apply app_eq_nil in E as [? E]).
    repeat match goal with H : _ = [] |- _ => rewrite H; clear H end. done.
Qed.

Lemma unreferenced_match q w : unreferenced q → workloadReferencesMatch w q = true.
Proof. intros (U1 & U2 & U3 & U4). unfold workloadReferencesMatch. by rewrite U1, U2, U3, U4. Qed.

(** The references of a query only matter to [workloadReferencesMatch]. *)
Definition same_constraints (q q' : WorkloadQuery) : Prop :=
  wq_AuthorizationRefsOnly q' = wq_AuthorizationRefsOnly q
  ∧ wq_TrafficPolicyRefsOnly q' = wq_TrafficPolicyRefsOnly q
  ∧ wq_WorkloadUID q' = wq_WorkloadUID q ∧ wq_Source q' = wq_Source q
  ∧ wq_NodeName q' = wq_NodeName q ∧ wq_Principal q' = wq_Principal q ∧ wq_Namespace q' = wq_Namespace q.

Lemma Matches_references q q' w :
  same_constraints q q' → unreferenced q →
  Matches q' (Some w) = Matches q (Some w) && workloadReferencesMatch w q'.
Proof.
  intros (E1 & E2 & E3 & E4 & E5 & E6 & E7) Hu. unfold Matches.
  rewrite (unreferenced_match q w Hu), E1, E2, E3, E4, E5, E6, E7. cbn [negb].
  rewrite orb_false_r, negb_orb, negb_involutive. done.
Qed.

Lemma constraint_spec (k : string) (l : list string) : negb (bool_decide (k ≠ "") && bool_decide (k ∉ l)) = true ↔ k = "" ∨ k ∈ l.
Proof.
  rewrite negb_true_iff, andb_false_iff, !bool_decide_eq_false.
  destruct (decide (k = "")), (decide (k ∈ l)); tauto.
Qed.

Lemma referencesMatch_spec w q :
  workloadReferencesMatch w q = true ↔
  (wq_ServiceKey q = "" ∨ wq_ServiceKey q ∈ wf_ServiceKeys w)
  ∧ (wq_GatewayReference q = "" ∨ wq_GatewayReference q ∈ wf_GatewayReferences w)
  ∧ (wq_AuthorizationReference q = "" ∨ wq_AuthorizationReference q ∈ wf_AuthorizationRefs w)
  ∧ (wq_TrafficPolicyReference q = "" ∨ wq_TrafficPolicyReference q ∈ wf_TrafficPolicyRefs w).
Proof.
  unfold workloadReferencesMatch. rewrite !negb_orb, !andb_true_iff, !constraint_spec. tauto.
Qed.

Lemma referenceQuery_Matches q service gateway w :
  unreferenced q →
  Matches (referenceQuery q service gateway) (Some w) = true ↔
  Matches q (Some w) = true ∧ (service = "" ∨ service ∈ wf_ServiceKeys w)
  ∧ (gateway = "" ∨ gateway ∈ wf_GatewayReferences w).
Proof.
  intros Hu. rewrite (Matches_references q); [|by repeat split|done].
  rewrite andb_true_iff, referencesMatch_spec. destruct Hu as (U1 & U2 & U3 & U4). cbn. tauto.
Qed.

Lemma policyReferenceQuery_ok q name :
  query_ok q → unreferenced q → blank name = false → query_ok (policyReferenceQuery q name).
Proof.
  intros [Hv Hk] (U1 & U2 & U3 & U4) Hs. split.
  - unfold queryValid, queryFields in *. cbn in *. rewrite Hs, andb_false_r.
    rewrite U4 in Hv. exact Hv.
  - unfold query_keys, query_constraints, queryFields in *. cbn in *. intros E. apply Hk.
    rewrite U4. repeat (apply app_eq_nil in E as [? E]).
    repeat match goal with H : _ = [] |- _ => rewrite H; clear H end. done.
Qed.

Lemma policyReferenceQuery_Matches q name w :
  unreferenced q → name ≠ "" →
  Matches (policyReferenceQuery q name) (Some w) = true ↔
  Matches q (Some w) = true ∧ name ∈ wf_TrafficPolicyRefs w.
Proof.
  intros Hu Hn. rewrite (Matches_references q); [|by repeat split|done].
  rewrite andb_true_iff, referencesMatch_spec. destruct Hu as (U1 & U2 & U3 & U4). cbn. tauto.
Qed.

(** ** Valid facts *)

Lemma contains_valid s t r : set_ok s → contains s t r → validateResource r = Ok tt.
Proof. intros Hs [_ Hg]. eapply Get_valid; [|done]. by apply (proj1 (set_ok_shape s) Hs). Qed.

Ltac guards H :=
  repeat match type of H with
  | rbind (guard_ok ?c ?e) _ = Ok _ =>
      let Hc := fresh "Hg" in destruct c eqn:Hc; [cbn [guard_ok rbind] in H|discriminate H]
  | rbind ?m _ = Ok _ =>
      let Hm := fresh "Hm" in destruct m eqn:Hm; [cbn [rbind] in H|discriminate H]
  end.

Lemma TrimSpace_blank x : TrimSpace x = x → x ≠ "" → blank x = false.
Proof. intros E Hn. unfold blank. by rewrite E, bool_decide_eq_false_2. Qed.

Lemma valid_facts r :
  validateResource r = Ok tt → blank (Name (Key r)) = false
  ∧ validateResourceFacts (Key r) (Facts r) = Ok tt.
Proof.
  unfold validateResource. intros H. guards H.
  destruct (Value r) as [v|]; [|done]. guards H. split; [|done]. by apply negb_true_iff.
Qed.

Lemma valid_owner r :
  validateResource r = Ok tt → GatewayOwner (Facts r) ≠ "" → blank (GatewayOwner (Facts r)) = false.
Proof.
  intros [_ H]%valid_facts Hn. unfold validateResourceFacts in H. guards H.
  rewrite decide_False in H by done. guards H. apply bool_decide_eq_true in Hg1.
  by apply TrimSpace_blank.
Qed.

Lemma valid_service r s :
  validateResource r = Ok tt → rf_Service (Facts r) = Some s → blank (ServiceKey s) = false.
Proof.
  intros [_ H]%valid_facts Hs. unfold validateResourceFacts in H. guards H.
  rewrite Hs in Hm1. guards Hm1. unfold guard_ok in Hm1.
  by destruct (blank (ServiceKey s)).
Qed.

Lemma valid_families r w :
  validateResource r = Ok tt → rf_Workload (Facts r) = Some w → rf_Service (Facts r) = None.
Proof.
  intros [_ H]%valid_facts Hw. unfold validateResourceFacts in H. guards H.
  apply bool_decide_eq_true in Hg0. unfold families in Hg0. rewrite Hw in Hg0.
  destruct (rf_Service (Facts r)); [|done].
  destruct (rf_Sandbox (Facts r)), (rf_Authorization (Facts r)); vm_compute in Hg0; lia.
Qed.

Lemma valid_workload_keys r w :
  validateResource r = Ok tt → rf_Workload (Facts r) = Some w →
  ∀ k, k ∈ wf_ServiceKeys w ++ wf_GatewayReferences w ++ wf_AuthorizationRefs w ++ wf_TrafficPolicyRefs w →
  blank k = false.
Proof.
  intros [_ H]%valid_facts Hw k Hk. unfold validateResourceFacts in H. guards H.
  rewrite Hw in Hm0. unfold validateWorkloadFacts in Hm0. guards Hm0.
  unfold guard_ok in Hm0. destruct (forallb (λ v, negb (blank v)) _) eqn:Hf; [|done].
  rewrite forallb_forall in Hf. specialize (Hf k). rewrite <-list_elem_of_In in Hf.
  by apply negb_true_iff, Hf.
Qed.

Lemma contains_owner s t r :
  set_ok s → contains s t r → GatewayOwner (Facts r) ≠ "" → blank (GatewayOwner (Facts r)) = false.
Proof. intros Hs Hc. apply valid_owner. by eapply contains_valid. Qed.

(** ** Addresses *)

(** The scope's query is one the index answers. *)
Definition scope_ok (scope : ClientScope) : Prop :=
  ∀ q, workloadScopeQuery scope = Some q → query_ok q.

(** A service address is found by its service key, as the compiler names it. *)
Definition services_named (s : ResourceSet) : Prop :=
  ∀ r f, contains s AddressType r → rf_Service (Facts r) = Some f →
    Name (Key r) = ServiceKey f ∨ XDSName r = ServiceKey f ∨ ServiceKey f ∈ Aliases r.

Lemma workloadScopeQuery_unreferenced scope q : workloadScopeQuery scope = Some q → unreferenced q.
Proof.
  unfold workloadScopeQuery. destruct (cs_Class scope); try done.
  - by intros [= <-].
  - destruct (_ && _); [|done]. by intros [= <-].
Qed.

Lemma gatewayClass_query scope : gatewayClass (cs_Class scope) = true → workloadScopeQuery scope = None.
Proof.
  unfold gatewayClass, workloadScopeQuery. intros H.
  rewrite !orb_true_iff, !bool_decide_eq_true in H. by destruct H as [[->| ->]| ->].
Qed.

Section addresses.
Context (s : ResourceSet) (scope : ClientScope) (sub : SubscriptionView).
Context (Hs : set_ok s) (Hscope : scope_ok scope) (Hnamed : services_named s).

Local Abbreviation sel := (newAddressSelection scope s AddressType sub).

(** The workloads of the scope *)
Definition in_scope (r : Resource) (w : WorkloadResourceFacts) : Prop :=
  contains s AddressType r ∧ rf_Workload (Facts r) = Some w
  ∧ workloadMatchesScope scope (Some w) = true.

Lemma in_scope_listed q r :
  workloadScopeQuery scope = Some q →
  r ∈ ListWorkloads s AddressType q ↔ ∃ w, in_scope r w.
Proof.
  intros Hq. rewrite elem_of_ListWorkloads by auto. unfold in_scope, workloadMatchesScope.
  rewrite Hq. naive_solver.
Qed.

Lemma hasScopedWorkload_spec v service gateway :
  as_resources v = s → as_scope v = scope → as_typeURL v = AddressType →
  (service = "" ∨ blank service = false) → (gateway = "" ∨ blank gateway = false) →
  hasScopedWorkload v service gateway = true ↔
  ∃ r w, in_scope r w ∧ (service = "" ∨ service ∈ wf_ServiceKeys w)
    ∧ (gateway = "" ∨ gateway ∈ wf_GatewayReferences w).
Proof.
  intros E1 E2 E3 Hsv Hg. unfold hasScopedWorkload. rewrite E1, E2, E3.
  destruct (workloadScopeQuery scope) as [q|] eqn:Hq; last first.
  { split; [done|]. intros (r & w & (_ & _ & Hm) & _). unfold workloadMatchesScope in Hm. by rewrite Hq in Hm. }
  pose proof (workloadScopeQuery_unreferenced _ _ Hq) as Hu.
  rewrite (HasWorkload_narrowed s AddressType q (referenceQuery q service gateway)
    (λ w, (service = "" ∨ service ∈ wf_ServiceKeys w) ∧ (gateway = "" ∨ gateway ∈ wf_GatewayReferences w)));
    [|done|by apply Hscope|apply referenceQuery_ok; auto|intros w; by apply referenceQuery_Matches].
  setoid_rewrite (in_scope_listed q _ Hq). unfold in_scope. split.
  - intros (r & w & (w' & Hc & Hw' & Hm) & Hw & HP). exists r, w. split; [|done]. split_and!; [done..|congruence].
  - intros (r & w & (Hc & Hw & Hm) & HP). exists r, w. split; [|done]. eauto.
Qed.

(** What the gateways of the scope's workloads own *)
Lemma usesGateway_spec v r :
  as_resources v = s → as_scope v = scope → as_typeURL v = AddressType → contains s AddressType r →
  usesGateway v r = true ↔
  GatewayOwner (Facts r) ≠ "" ∧ ∃ q w, in_scope q w ∧ GatewayOwner (Facts r) ∈ wf_GatewayReferences w.
Proof.
  intros E1 E2 E3 Hc. unfold usesGateway. rewrite andb_true_iff, bool_decide_eq_true.
  split; intros [Hne H]; (split; [done|]).
  - apply hasScopedWorkload_spec in H; [|done..|by left|right; by eapply contains_owner].
    destruct H as (q & w & Hq & _ & [?|?]); [done|eauto].
  - destruct H as (q & w & Hq & Hin). apply hasScopedWorkload_spec; [done..|by left| |].
    + right. by eapply contains_owner.
    + exists q, w. tauto.
Qed.

Lemma elem_of_gatewayResources q0 r :
  workloadScopeQuery scope = Some q0 →
  r ∈ gatewayResourcesForKeys s AddressType (gatewayReferenceKeys (ListWorkloads s AddressType q0)) ↔
  contains s AddressType r ∧ GatewayOwner (Facts r) ≠ ""
  ∧ ∃ q w, in_scope q w ∧ GatewayOwner (Facts r) ∈ wf_GatewayReferences w.
Proof.
  intros Hq0.
  assert (∀ k, k ∈ gatewayReferenceKeys (ListWorkloads s AddressType q0) ↔
    ∃ q w, in_scope q w ∧ k ∈ wf_GatewayReferences w) as Hk.
  { intros k. unfold gatewayReferenceKeys. rewrite elem_of_list_to_set, list_elem_of_bind. split.
    - intros (q & Hin & Hq). apply (in_scope_listed q0 q Hq0) in Hq as (w & Hq).
      pose proof Hq as (_ & Hw & _). rewrite Hw in Hin. eauto.
    - intros (q & w & Hq & Hin). exists q. split; [|apply (in_scope_listed q0 q Hq0); eauto].
      pose proof Hq as (_ & Hw & _). by rewrite Hw. }
  assert (∀ x, x ∈ elements (gatewayReferenceKeys (ListWorkloads s AddressType q0)) ≫=
      ListResourcesOwnedByGateway s AddressType ↔
    contains s AddressType x ∧ GatewayOwner (Facts x) ≠ ""
    ∧ ∃ q w, in_scope q w ∧ GatewayOwner (Facts x) ∈ wf_GatewayReferences w) as Hx.
  { intros x. rewrite list_elem_of_bind. setoid_rewrite elem_of_elements. setoid_rewrite Hk.
    unfold ListResourcesOwnedByGateway. split.
    - intros (k & Hin & q & w & Hq & Hkw).
      assert (k ≠ "") as Hne.
      { pose proof Hq as (Hc & Hw & _). apply blank_nonempty.
        eapply valid_workload_keys; [by eapply contains_valid|done|]. rewrite !elem_of_app. tauto. }
      apply (proj1 (listByFact_spec s AddressType resourceFactGatewayOwner k Hs Hne)) in Hin as [Hc Hf].
      apply gateway_fact in Hf; [|done]. subst k. eauto 10.
    - intros (Hc & Hne & q & w & Hq & Hin). exists (GatewayOwner (Facts x)). split; [|eauto].
      apply (proj1 (listByFact_spec s AddressType resourceFactGatewayOwner _ Hs Hne)).
      split; [done|]. by apply gateway_fact. }
  unfold gatewayResourcesForKeys. rewrite elem_of_orderedUnique; [apply Hx|].
  eapply contains_coherent. intros x Hin. by apply Hx in Hin as [? _].
Qed.

Lemma elem_of_serviceResources k r :
  k ≠ "" → r ∈ serviceResourcesForKey s k ↔
  contains s AddressType r ∧ ∃ f, rf_Service (Facts r) = Some f ∧ ServiceKey f = k.
Proof.
  intros Hk. unfold serviceResourcesForKey. rewrite list_elem_of_filter.
  destruct (Lookup_spec s AddressType k Hs Hk) as [-> _]. rewrite fmap_Some. split.
  - intros ((f & Hf & E) & Hc & _). eauto.
  - intros (Hc & f & Hf & E). split; [by exists f|]. split; [done|]. rewrite <-E. by apply Hnamed.
Qed.

Lemma elem_of_selectedServices q0 r :
  workloadScopeQuery scope = Some q0 →
  r ∈ selectedServices s (workloadServiceKeys (ListWorkloads s AddressType q0)) ↔
  contains s AddressType r ∧ ∃ f, rf_Service (Facts r) = Some f
    ∧ ∃ q w, in_scope q w ∧ ServiceKey f ∈ wf_ServiceKeys w.
Proof.
  intros Hq0. unfold selectedServices. rewrite list_elem_of_bind.
  assert (∀ k, k ∈ workloadServiceKeys (ListWorkloads s AddressType q0) ↔
    ∃ q w, in_scope q w ∧ k ∈ wf_ServiceKeys w) as Hk.
  { intros k. unfold workloadServiceKeys. rewrite elem_of_list_to_set, list_elem_of_bind. split.
    - intros (q & Hin & Hq). apply (in_scope_listed q0 q Hq0) in Hq as (w & Hq).
      pose proof Hq as (_ & Hw & _). rewrite Hw in Hin. eauto.
    - intros (q & w & Hq & Hin). exists q. split; [|apply (in_scope_listed q0 q Hq0); eauto].
      pose proof Hq as (_ & Hw & _). by rewrite Hw. }
  setoid_rewrite elem_of_elements. setoid_rewrite Hk. split.
  - intros (k & Hin & q & w & Hq & Hkw).
    assert (k ≠ "") as Hne.
    { pose proof Hq as (Hc & Hw & _). apply blank_nonempty.
      eapply valid_workload_keys; [by eapply contains_valid|done|]. rewrite !elem_of_app. tauto. }
    apply elem_of_serviceResources in Hin as (Hc & f & Hf & <-); [|done]. eauto 10.
  - intros (Hc & f & Hf & q & w & Hq & Hin). exists (ServiceKey f). split; [|eauto].
    apply elem_of_serviceResources; [|eauto].
    by eapply blank_nonempty, valid_service; [eapply contains_valid|].
Qed.

(** A service of the scope's workloads *)
Definition scoped_service (r : Resource) : Prop :=
  ∃ f, rf_Service (Facts r) = Some f ∧ ∃ q w, in_scope q w ∧ ServiceKey f ∈ wf_ServiceKeys w.

Definition scoped_gateway (r : Resource) : Prop :=
  GatewayOwner (Facts r) ≠ "" ∧ ∃ q w, in_scope q w ∧ GatewayOwner (Facts r) ∈ wf_GatewayReferences w.

Definition in_scope_workload (r : Resource) : Prop := workloadMatchesScope scope (rf_Workload (Facts r)) = true.

Lemma scopeCandidates_spec v r :
  as_resources v = s → as_scope v = scope → as_typeURL v = AddressType →
  r ∈ scopeCandidates v ↔
  contains s AddressType r
  ∧ (in_scope_workload r ∨ scoped_gateway r ∨ sv_wildcard (as_subscription v) = true ∧ scoped_service r).
Proof.
  intros E1 E2 E3. unfold scopeCandidates. rewrite E1, E2, E3. unfold in_scope_workload.
  destruct (workloadScopeQuery scope) as [q|] eqn:Hq; last first.
  { assert (∀ q w, ¬ in_scope q w) as Hno.
    { intros q w (_ & _ & Hm). unfold workloadMatchesScope in Hm. by rewrite Hq in Hm. }
    rewrite elem_of_nil. split; [done|]. unfold scoped_gateway, scoped_service.
    intros (_ & [Hm|[(_ & q & w & Hi & _)|(_ & f & _ & q & w & Hi & _)]]); [|by destruct (Hno q w Hi)..].
    unfold workloadMatchesScope in Hm. by rewrite Hq in Hm. }
  rewrite !elem_of_app, (in_scope_listed q r Hq), (elem_of_gatewayResources q r Hq).
  rewrite bool_decide_eq_true_2, andb_true_r by done.
  assert (r ∈ (if sv_wildcard (as_subscription v)
      then selectedServices s (workloadServiceKeys (ListWorkloads s AddressType q)) else [])
    ↔ sv_wildcard (as_subscription v) = true ∧ contains s AddressType r ∧ scoped_service r) as ->.
  { destruct (sv_wildcard (as_subscription v)); [rewrite (elem_of_selectedServices q r Hq); unfold scoped_service; tauto|].
    rewrite elem_of_nil. split; [done|]. by intros [? _]. }
  assert ((∃ w, in_scope r w) ↔ contains s AddressType r ∧ workloadMatchesScope scope (rf_Workload (Facts r)) = true) as ->.
  { unfold in_scope. split; [intros (w & ? & Hw & ?); by rewrite Hw|].
    intros [Hc Hm]. destruct (rf_Workload (Facts r)) as [w|] eqn:Hw; [eauto|].
    unfold workloadMatchesScope in Hm. by destruct (workloadScopeQuery scope). }
  unfold scoped_gateway. tauto.
Qed.

Lemma in_scope_workload_address r : in_scope_workload r → IsWorkloadAddress r = true.
Proof.
  unfold in_scope_workload, IsWorkloadAddress. rewrite bool_decide_eq_true. intros Hm E. rewrite E in Hm.
  unfold workloadMatchesScope in Hm. by destruct (workloadScopeQuery scope).
Qed.

(** Visibility of a published address *)
Lemma addressVisible_spec v r :
  as_resources v = s → as_scope v = scope → as_typeURL v = AddressType → contains s AddressType r →
  addressVisible v r = true ↔
  gatewayClass (cs_Class scope) = true ∨ scoped_gateway r ∨ in_scope_workload r ∨ scoped_service r.
Proof.
  intros E1 E2 E3 Hc. unfold addressVisible. rewrite E2, E3.
  destruct (gatewayClass (cs_Class scope)); [tauto|].
  pose proof (usesGateway_spec v r E1 E2 E3 Hc) as Hg. fold (scoped_gateway r) in Hg.
  destruct (usesGateway v r); [split; [|done]; intros _; right; left; by apply Hg|].
  assert (¬ scoped_gateway r) as Hng by (intros H; by apply Hg in H).
  pose proof (contains_valid s _ r Hs Hc) as Hv.
  destruct (IsWorkloadAddress r) eqn:Hw.
  - unfold matchesWorkload. rewrite E2. fold (in_scope_workload r).
    assert (¬ scoped_service r) as Hns; [|intuition done].
    intros (f & Hf & _). unfold IsWorkloadAddress in Hw. apply bool_decide_eq_true in Hw.
    destruct (rf_Workload (Facts r)) as [w|] eqn:Hrw; [|done].
    by rewrite (valid_families r w Hv Hrw) in Hf.
  - assert (¬ in_scope_workload r) as Hnw by (intros H; apply in_scope_workload_address in H; congruence).
    rewrite decide_False by (intros H; by apply H). unfold scoped_service.
    destruct (rf_Service (Facts r)) as [f|] eqn:Hf; [|split; [done|]; naive_solver].
    rewrite hasScopedWorkload_spec; [|done..|right; by eapply valid_service|by left]. split.
    + intros (q & w & Hi & [E|Hin] & _); [|naive_solver].
      pose proof (valid_service r f Hv Hf) as Hb. by rewrite E in Hb.
    + intros [?|[?|[?|(f' & [= <-] & q & w & Hi & Hin)]]]; [done..|]. exists q, w. tauto.
Qed.

(** The names of a subscription, as a view has them *)
Context (Hsorted : StronglySorted String.le (sv_names sub)) (Hempty : "" ∉ sv_names sub).

Local Abbreviation names := (sv_names sub).

Lemma containsSorted_spec x : containsSorted names x = true ↔ x ∈ names.
Proof.
  unfold containsSorted. pose proof (BinarySearch_spec names x Hsorted) as H.
  rewrite <-H. by destruct (BinarySearch names x).
Qed.

Lemma resourceNamesMatch_spec r :
  resourceNamesMatch r (containsSorted names) = true ↔
  XDSName r ∈ names ∨ (∃ a, a ∈ Aliases r ∧ a ∈ names) ∨ Name (Key r) ∈ names.
Proof.
  unfold resourceNamesMatch. rewrite !orb_true_iff, existsb_exists_elem, !containsSorted_spec.
  setoid_rewrite containsSorted_spec. tauto.
Qed.

Lemma resourceNamesMatch_lookup r :
  contains s AddressType r →
  resourceNamesMatch r (containsSorted names) = true ↔ ∃ n, n ∈ names ∧ r ∈ Lookup s AddressType n.
Proof.
  intros Hc. rewrite resourceNamesMatch_spec.
  assert (∀ n, n ∈ names → r ∈ Lookup s AddressType n ↔
    contains s AddressType r ∧ (Name (Key r) = n ∨ XDSName r = n ∨ n ∈ Aliases r)) as Hl.
  { intros n Hn. destruct (Lookup_spec s AddressType n Hs) as [-> _]; [|done]. by intros ->. }
  split.
  - intros [Hx|[(a & Ha & Hx)|Hx]]; eexists; (split; [exact Hx|]); apply Hl; auto.
  - intros (n & Hn & (_ & [<-|[<-|Ha]])%Hl); [tauto..| |done]. right. left. eauto.
Qed.

Lemma elem_of_serviceKeysForNames k :
  k ∈ serviceKeysForNames s names ↔
  ∃ r f, contains s AddressType r ∧ rf_Service (Facts r) = Some f ∧ ServiceKey f = k
    ∧ resourceNamesMatch r (containsSorted names) = true.
Proof.
  unfold serviceKeysForNames. rewrite elem_of_list_to_set, list_elem_of_bind.
  setoid_rewrite list_elem_of_omap. setoid_rewrite fmap_Some. split.
  - intros (n & (r & Hr & f & Hf & ->) & Hn). exists r, f.
    assert (contains s AddressType r) as Hc.
    { assert (n ≠ "") as Hne by (by intros ->).
      apply (proj1 (Lookup_spec s AddressType n Hs Hne)) in Hr. tauto. }
    split_and!; [done..|]. apply resourceNamesMatch_lookup; eauto.
  - intros (r & f & Hc & Hf & <- & Hm). apply resourceNamesMatch_lookup in Hm as (n & Hn & Hr); [|done].
    exists n. split; [|done]. exists r. split; [done|]. by exists f.
Qed.

(** The services of the names, resolved once or candidate by candidate *)
Lemma subscribesService_equiv k :
  k ≠ "" →
  bool_decide (k ∈ serviceKeysForNames s names)
  = existsb (λ r, resourceNamesMatch r (containsSorted names)) (serviceResourcesForKey s k).
Proof.
  intros Hk. apply eq_true_iff_eq.
  rewrite bool_decide_eq_true, elem_of_serviceKeysForNames, existsb_exists_elem.
  setoid_rewrite elem_of_serviceResources; [|done..]. naive_solver.
Qed.

Definition withServices : addressSelection :=
  mkSelection s scope AddressType sub (Some (serviceKeysForNames s names)).

Lemma selectedByNames_equiv r :
  contains s AddressType r →
  selectedByNames withServices r (containsSorted names) = selectedByNames sel r (containsSorted names).
Proof.
  intros Hc. unfold selectedByNames. f_equal. destruct (rf_Workload (Facts r)) as [w|] eqn:Hw; [|done].
  assert (∀ k, k ∈ wf_ServiceKeys w → k ≠ "") as Hk.
  { intros k Hin. apply blank_nonempty. eapply valid_workload_keys; [by eapply contains_valid|done|].
    rewrite elem_of_app. by left. }
  induction (wf_ServiceKeys w) as [|k l IH]; [done|]. cbn [existsb]. f_equal.
  - apply subscribesService_equiv, Hk. left.
  - apply IH. intros k' Hk'. apply Hk. by right.
Qed.

Lemma addressSelected_equiv r :
  contains s AddressType r → addressSelected withServices r = addressSelected sel r.
Proof.
  intros Hc. unfold addressSelected. cbn [as_subscription as_scope withServices newAddressSelection].
  by rewrite selectedByNames_equiv.
Qed.

Lemma selectedByNames_candidate r :
  contains s AddressType r → selectedByNames sel r (containsSorted names) = true →
  r ∈ namedCandidates withServices (serviceKeysForNames s names).
Proof.
  intros Hc. rewrite <-selectedByNames_equiv by done. unfold selectedByNames, namedCandidates.
  rewrite orb_true_iff, elem_of_app, !list_elem_of_bind. intros [Hm|Hm]; [left|right].
  - apply resourceNamesMatch_lookup in Hm as (n & Hn & Hr); [|done]. exists n. split; [|done].
    apply list_elem_of_filter. split; [by left|done].
  - destruct (rf_Workload (Facts r)) as [w|] eqn:Hw; [|done].
    apply existsb_exists_elem in Hm as (k & Hk & Hin%bool_decide_eq_true). exists k.
    rewrite elem_of_elements. split; [|done]. apply list_elem_of_filter.
    split; [unfold IsWorkloadAddress; rewrite Hw; by apply bool_decide_eq_true_2|].
    assert (k ≠ "") as Hne.
    { apply blank_nonempty. eapply valid_workload_keys; [by eapply contains_valid|done|].
      rewrite elem_of_app. by left. }
    apply (proj1 (listByFact_spec s AddressType resourceFactService k Hs Hne)). split; [done|].
    apply service_fact; eauto.
Qed.

Lemma namedCandidates_contained r :
  r ∈ namedCandidates withServices (serviceKeysForNames s names) → contains s AddressType r.
Proof.
  unfold namedCandidates. rewrite elem_of_app, !list_elem_of_bind.
  intros [(n & [_ Hr]%list_elem_of_filter & Hn)|(k & [_ Hr]%list_elem_of_filter & Hk)].
  - assert (n ≠ "") as Hne by (by intros ->).
    apply (proj1 (Lookup_spec s AddressType n Hs Hne)) in Hr. tauto.
  - assert (k ≠ "") as Hne.
    { apply elem_of_elements, elem_of_serviceKeysForNames in Hk as (q & f & Hc & Hf & <- & _).
      eapply blank_nonempty, valid_service; [|done]. by eapply contains_valid. }
    apply (proj1 (listByFact_spec s AddressType resourceFactService k Hs Hne)) in Hr. tauto.
Qed.

(** What is selected is found among the candidates. *)
Lemma addressSelected_candidate r :
  contains s AddressType r → sv_wildcard sub = false → addressSelected sel r = true →
  r ∈ scopeCandidates withServices ++ namedCandidates withServices (serviceKeysForNames s names).
Proof.
  intros Hc Hwild. unfold addressSelected. cbn [as_subscription as_scope newAddressSelection].
  rewrite Hwild, elem_of_app. case_decide; [done|].
  intros Hsel. destruct (selectedByNames sel r (containsSorted names)) eqn:Hn.
  { right. by apply selectedByNames_candidate. }
  left. apply scopeCandidates_spec; [done..|]. split; [done|].
  destruct (gatewayClass (cs_Class scope)); [done|].
  destruct (usesGateway sel r) eqn:Hg; [right; left; by apply (usesGateway_spec sel r)|].
  destruct (bool_decide (cs_Class scope = ClientSharedZTunnel) && matchesWorkload sel r) eqn:Hm.
  { left. apply andb_true_iff in Hm as [_ Hm]. exact Hm. }
  by destruct (bool_decide (cs_Class scope = ClientDedicatedZTunnel) && negb (addressVisible sel r)).
Qed.

Lemma selectionList_spec r :
  r ∈ selectionList sel ↔ contains s AddressType r ∧ addressSelected sel r = true.
Proof.
  assert (∀ v x, as_resources v = s → as_scope v = scope → as_typeURL v = AddressType →
    x ∈ scopeCandidates v → contains s AddressType x) as Hcand.
  { intros v x E1 E2 E3 Hx. by apply (scopeCandidates_spec v x E1 E2 E3) in Hx as [? _]. }
  unfold selectionList. cbn [as_subscription as_scope as_resources as_typeURL newAddressSelection].
  destruct (sv_wildcard sub) eqn:Hwild; cbn [negb andb].
  - unfold addressSelected. cbn [as_subscription newAddressSelection]. rewrite Hwild.
    destruct (gatewayClass (cs_Class scope)) eqn:Hg.
    + destruct (ListType_spec s AddressType) as [-> _]; [by apply (proj1 (set_ok_shape s) Hs)|].
      split; [|tauto]. intros Hc. split; [done|]. apply addressVisible_spec; auto.
    + rewrite elem_of_orderedUnique by (eapply contains_coherent; intros x; by apply Hcand).
      rewrite scopeCandidates_spec by done. cbn [as_subscription newAddressSelection]. rewrite Hwild.
      split; intros [Hc H]; (split; [done|]).
      * apply addressVisible_spec; [done..|]. tauto.
      * apply addressVisible_spec in H; [|done..]. rewrite Hg in H. intuition discriminate.
  - destruct (bool_decide (length names = 0) && bool_decide (cs_Class scope ≠ ClientSharedZTunnel)) eqn:He.
    { apply andb_true_iff in He as [H1%bool_decide_eq_true H2%bool_decide_eq_true].
      rewrite elem_of_nil. split; [done|]. intros [_ Hsel]. unfold addressSelected in Hsel.
      cbn [as_subscription as_scope newAddressSelection] in Hsel. rewrite Hwild in Hsel.
      by rewrite decide_True in Hsel. }
    fold withServices. rewrite elem_of_orderedUnique; last first.
    { eapply contains_coherent. intros x [_ Hx]%list_elem_of_filter.
      apply elem_of_app in Hx as [Hx|Hx]; [by eapply Hcand; [..|exact Hx]|by apply namedCandidates_contained]. }
    rewrite list_elem_of_filter. split.
    + intros [Hsel Hx]. assert (contains s AddressType r) as Hc.
      { apply elem_of_app in Hx as [Hx|Hx]; [by eapply Hcand; [..|exact Hx]|by apply namedCandidates_contained]. }
      rewrite addressSelected_equiv in Hsel by done. done.
    + intros [Hc Hsel]. rewrite addressSelected_equiv by done. split; [done|].
      by apply addressSelected_candidate.
Qed.

End addresses.
