(* ===== verification/Incremental.v ===== *)
(** * Incremental: reselecting what a notice announces converges
    (src/pkg/xds/generator.go)

    A stream may hold stale versions, but only of names that its pending notice announces.
    Under this condition incremental generation takes the client to exactly the visible
    resources of the snapshot, and a publication whose notice names what became visible
    and what ceased to be keeps the condition. *)

From S2P Require Import Prelude Identity Resource ResourceIndex ResourceSet SetInvariant SetQueries Update Notices Watch Generator Generators Delta Sending Selections.

(** * Generation: full generation converges
    (src/pkg/xds/generator.go and the generators)

    Every generator's full delta takes a client from the versions it holds to exactly
    the resources the generator selects. *)

(** ** Selections *)

Definition named (s : selection) : Prop := ∀ x r, s !! x = Some r → XDSName r = x.

Lemma selectedMap_spec l (m : selection) x r :
  foldl (λ (m : selection) r, <[XDSName r := r]> m) m l !! x = Some r →
  (r ∈ l ∧ XDSName r = x) ∨ m !! x = Some r.
Proof.
  revert m. induction l as [|q l IH]; intros m; cbn [foldl]; [by right|].
  intros [[Hin Hx]|Hm]%IH; [left; split; [by right|done]|].
  apply lookup_insert_Some in Hm as [[<- <-]|[_ Hm]]; [left; split; [left|done]|by right].
Qed.

Lemma selectedMap_elem l x r : selectedMap l !! x = Some r → r ∈ l ∧ XDSName r = x.
Proof.
  intros [?|Hm]%selectedMap_spec; [done|]. by rewrite lookup_empty in Hm.
Qed.

Lemma selectedMap_named l : named (selectedMap l).
Proof. by intros x r [_ ?]%selectedMap_elem. Qed.

Lemma selectedMap_dom l x : is_Some (selectedMap l !! x) ↔ x ∈ XDSName <$> l.
Proof.
  unfold selectedMap. assert (∀ m : selection,
    is_Some (foldl (λ (m : selection) r, <[XDSName r := r]> m) m l !! x) ↔ x ∈ XDSName <$> l ∨ is_Some (m !! x)) as H.
  { induction l as [|q l IH]; intros m; cbn [foldl fmap list_fmap].
    - rewrite elem_of_nil. tauto.
    - rewrite IH, elem_of_cons, lookup_insert_is_Some'. naive_solver. }
  rewrite H, lookup_empty. split; [|by left]. intros [?|[? ?]]; done.
Qed.

(** A list without repeated wire names is its selection. *)
Lemma selectedMap_unique l r :
  (∀ q, q ∈ l → XDSName q = XDSName r → q = r) → r ∈ l → selectedMap l !! XDSName r = Some r.
Proof.
  intros Hu Hr. destruct (selectedMap l !! XDSName r) as [q|] eqn:Hq.
  - apply selectedMap_elem in Hq as [Hin E]. by rewrite (Hu q Hin E).
  - assert (is_Some (selectedMap l !! XDSName r)) as [q Hq'].
    { apply selectedMap_dom. by apply list_elem_of_fmap_2. }
    congruence.
Qed.

(** ** Differences *)

Section differences.
Context (sent : gmap string string) (selected : selection).
Context (Hnamed : named selected).

Lemma elem_of_sentNames x : x ∈ sort_strings (elements (dom sent)) ↔ sent !! x ≠ None.
Proof.
  rewrite elem_of_sort_strings, elem_of_elements, elem_of_dom. by rewrite not_eq_None_Some.
Qed.

Lemma elem_of_changed (sentVersion : string → option string) r :
  r ∈ (base.filter (λ p : string * Resource, sentVersion p.1 ≠ Some (Hash p.2)) (map_to_list selected)).*2
  ↔ selected !! XDSName r = Some r ∧ sentVersion (XDSName r) ≠ Some (Hash r).
Proof.
  rewrite list_elem_of_fmap. split.
  - intros ([x q] & -> & [Hv Hin%elem_of_map_to_list]%list_elem_of_filter). cbn in *.
    by rewrite (Hnamed _ _ Hin).
  - intros [Hs Hv]. exists (XDSName r, r). split; [done|]. apply list_elem_of_filter. cbn.
    by rewrite elem_of_map_to_list.
Qed.

Lemma NoDup_selection (P : string * Resource → Prop) `{∀ p, Decision (P p)} :
  NoDup (base.filter P (map_to_list selected)).*2.
Proof.
  apply NoDup_fmap_2_strong; [|apply NoDup_filter, NoDup_map_to_list].
  intros [x q] [x' q'] [_ Hin%elem_of_map_to_list]%list_elem_of_filter
    [_ Hin'%elem_of_map_to_list]%list_elem_of_filter. cbn. intros <-.
  by rewrite <-(Hnamed _ _ Hin), <-(Hnamed _ _ Hin').
Qed.

Lemma diffResourceSelection_converges sentVersion :
  (∀ x r, selected !! x = Some r → sentVersion x = Some (Hash r) → sent !! x = Some (Hash r)) →
  converges sent (diffResourceSelection selected (sort_strings (elements (dom sent))) sentVersion) selected.
Proof.
  intros Hv. constructor; cbn [diffResourceSelection deltaOf gd_Resources gd_Removed gd_versions gd_expiresAt].
  - exact Hnamed.
  - intros r Hr%sort_on_elem. by apply elem_of_changed in Hr as [? _].
  - intros x r Hr. destruct (decide (sentVersion x = Some (Hash r))) as [E|E]; [left; eauto|right].
    apply elem_of_sort_on, elem_of_changed. by rewrite (Hnamed _ _ Hr).
  - by intros x [? _]%list_elem_of_filter.
  - intros x Hn Hs. apply list_elem_of_filter. by rewrite elem_of_sentNames.
  - split.
    + unfold sort_on. rewrite isort_Permutation. apply NoDup_selection.
    + apply NoDup_filter. unfold sort_strings. rewrite isort_Permutation. apply NoDup_elements.
  - done.
Qed.

End differences.

Lemma diffSelected_converges view selected :
  named selected → converges (sv_sent view) (diffSelected view selected) selected.
Proof. intros Hn. apply diffResourceSelection_converges; [done|]. intros x r _ H. exact H. Qed.

(** Resending a name keeps the delta converging. *)
Lemma converges_resend sent d selected r :
  converges sent d selected → selected !! XDSName r = Some r → r ∉ gd_Resources d →
  converges sent (set_Resources d (gd_Resources d ++ [r])) selected.
Proof.
  intros [H0 H1 H2 H3 H4 [H5 H6] H7] Hr Hn. constructor; cbn; try done.
  - intros q [Hq|Hq]%elem_of_app; [auto|]. by apply list_elem_of_singleton in Hq as ->.
  - intros x q Hq. rewrite elem_of_app. destruct (H2 x q Hq); tauto.
  - split; [|done]. apply NoDup_app. split_and!; [done| |apply NoDup_singleton].
    intros q Hq Hq'%list_elem_of_singleton. by subst.
Qed.

(** Withdrawing a name that is not selected, too *)
Lemma converges_missing sent d selected name :
  converges sent d selected → selected !! name = None → name ∉ gd_Removed d →
  converges sent (set_Removed d (gd_Removed d ++ [name])) selected.
Proof.
  intros [H0 H1 H2 H3 H4 [H5 H6] H7] Hr Hn. constructor; cbn; try done.
  - intros q [Hq|Hq]%elem_of_app; [auto|]. by apply list_elem_of_singleton in Hq as ->.
  - intros x Hx Hs. rewrite elem_of_app. left. auto.
  - split; [done|]. apply NoDup_app. split_and!; [done| |apply NoDup_singleton].
    intros q Hq Hq'%list_elem_of_singleton. by subst.
Qed.

Lemma resendNames_converges sent selected l d (resourceNames removedNames : gset string) :
  named selected → converges sent d selected →
  (∀ x, x ∈ resourceNames ↔ x ∈ XDSName <$> gd_Resources d) → (∀ x, x ∈ removedNames ↔ x ∈ gd_Removed d) →
  converges sent (foldl (resendName selected) (d, resourceNames, removedNames) l).1.1 selected.
Proof.
  intros Hnamed. revert d resourceNames removedNames.
  induction l as [|name l IH]; intros d rn mn Hc Hr Hm; [done|]. cbn [foldl].
  unfold resendName at 2. destruct (decide (name = "*")); [by apply IH|].
  destruct (selected !! name) as [r|] eqn:Hs.
  - destruct (decide (name ∈ rn)) as [Hin|Hin]; [by apply IH|].
    pose proof (Hnamed _ _ Hs) as E. apply IH.
    + apply converges_resend; [done|by rewrite E|]. intros Hin'. apply Hin, Hr. rewrite <-E.
      by apply list_elem_of_fmap_2.
    + intros x. cbn. rewrite fmap_app, elem_of_app, elem_of_union, elem_of_singleton, Hr. cbn.
      rewrite list_elem_of_singleton. tauto.
    + done.
  - destruct (decide (name ∈ mn)) as [Hin|Hin]; [by apply IH|]. apply IH.
    + apply converges_missing; [done..|]. by rewrite <-Hm.
    + done.
    + intros x. cbn. rewrite elem_of_app, elem_of_union, elem_of_singleton, Hm, list_elem_of_singleton. tauto.
Qed.

Lemma diffSubscribed_converges view selected names :
  named selected → converges (sv_sent view) (diffSubscribed view selected names) selected.
Proof.
  intros Hn. unfold diffSubscribed. case_decide; [by apply diffSelected_converges|].
  apply resendNames_converges; [done|by apply diffSelected_converges|..]; intros x;
    by rewrite elem_of_list_to_set.
Qed.

Lemma deferUnpublishedRemovals_converges request d source selected :
  converges (sv_sent (gr_Subscription request)) d selected →
  converges (sv_sent (gr_Subscription request)) (deferUnpublishedRemovals request d source) selected.
Proof.
  intros [H0 H1 H2 H3 H4 [H5 H6] H7]. unfold deferUnpublishedRemovals. destruct source as [lookup|]; [|done].
  constructor; cbn; try done.
  - intros x [_ Hx]%list_elem_of_filter. auto.
  - intros x Hx Hs. apply list_elem_of_filter. split; [|auto]. unfold defersRemoval, SentVersion.
    by destruct (sv_sent (gr_Subscription request) !! x).
  - split; [done|]. by apply NoDup_filter.
Qed.

(** Withdrawing more names that are not selected *)
Lemma converges_removals sent d selected removed :
  converges sent d selected → (∀ x, x ∈ gd_Removed d → x ∈ removed) →
  (∀ x, x ∈ removed → selected !! x = None) → NoDup removed →
  converges sent (set_Removed d removed) selected.
Proof. intros [H0 H1 H2 H3 H4 [H5 H6] H7] Hin Hno Hnd. constructor; cbn; auto. Qed.

(** A selected workload answers its own name. *)
Definition demand_closed (snapshot : ResourceSet) (selected : selection) : Prop :=
  ∀ x r, selected !! x = Some r → x ∈ demandedWorkloads snapshot x.

Lemma diffDemandWorkloads_converges request selected :
  named selected → demand_closed (gr_Snapshot request) selected →
  converges (sv_sent (gr_Subscription request)) (diffDemandWorkloads request selected) selected.
Proof.
  intros Hn Hd. unfold diffDemandWorkloads. case_decide; [by apply diffSelected_converges|].
  match goal with |- context [diffResourceSelection ?a ?b ?c] => set (d := diffResourceSelection a b c) end.
  assert (converges (sv_sent (gr_Subscription request)) d selected) as Hc.
  { apply diffResourceSelection_converges; [done|]. intros x r _. by case_decide. }
  case_decide as Hz; [done|]. clear Hz. apply converges_removals; [done| | |apply ssorted_NoDup, sorted_unique_ssorted].
  - intros x Hx. apply elem_of_sorted_unique, elem_of_app. by left.
  - intros x [Hx|Hx]%elem_of_sorted_unique%elem_of_app; [by apply (cv_removed _ _ _ Hc)|].
    apply list_elem_of_filter in Hx as [Hx _]. rewrite Forall_forall in Hx.
    destruct (selected !! x) as [r|] eqn:Hr; [|done]. rewrite <-Hr. apply Hx. by eapply Hd.
Qed.

(** ** Sorting and collapsing resources *)

#[export] Instance wire_le_total : Total wire_le.
Proof.
  intros a b. unfold wire_le. destruct (slt_trichotomy (XDSName a) (XDSName b)) as [?|[E|?]]; [tauto| |tauto].
  destruct (total String.le (Name (Key a)) (Name (Key b))); [left|right]; right; auto.
Qed.

#[export] Instance wire_le_trans : Transitive wire_le.
Proof.
  intros a b c [Hab|[Eab Hab]] [Hbc|[Ebc Hbc]]; unfold wire_le.
  - left. by etrans.
  - left. by rewrite <-Ebc.
  - left. by rewrite Eab.
  - right. split; [congruence|]. by etrans.
Qed.

Lemma wire_sorted_names l : StronglySorted wire_le l → StronglySorted String.le (XDSName <$> l).
Proof.
  induction 1 as [|r l Hl IH Hr]; [constructor|]. rewrite fmap_cons. constructor; [done|].
  rewrite Forall_fmap. eapply Forall_impl; [exact Hr|]. intros q [H|[H _]]; cbn; [by apply slt_le|by rewrite H].
Qed.

Lemma sortResources_names l :
  NoDup (XDSName <$> l) → ssorted (XDSName <$> sortResources l).
Proof.
  intros Hnd. apply sorted_NoDup_ssorted.
  - apply wire_sorted_names, isort_sorted; apply _.
  - unfold sortResources. by rewrite isort_Permutation.
Qed.

Lemma collapse_distinct l : NoDup (XDSName <$> l) → collapseSortedXDSNames l = l.
Proof.
  induction l as [|r [|q l] IH]; [done..|]. rewrite fmap_cons. intros [Hr Hnd]%NoDup_cons.
  change (collapseSortedXDSNames (r :: q :: l)) with
    (if decide (XDSName r = XDSName q) then collapseSortedXDSNames (q :: l)
     else r :: collapseSortedXDSNames (q :: l)).
  rewrite decide_False by (intros E; apply Hr; rewrite E; left). by rewrite IH.
Qed.

(** ** What a client may lack *)

Definition scoped_identity (inScope : option (Identity → bool)) (i : Identity) : bool :=
  match inScope with Some f => f i | None => true end.

(** The candidates announce the key, or an identity with the name. *)
Definition announces_key (cands : list Candidate) (k : ResourceKey) : Prop :=
  ∃ c, c ∈ cands ∧ ca_Key c = k.

Definition announces_name (inScope : option (Identity → bool)) (cands : list Candidate) (x : string) : Prop :=
  ∃ c i, c ∈ cands ∧ i ∈ ca_Identities c ∧ id_Name i = x ∧ scoped_identity inScope i = true.

(** Of the resources [V] the client should have, it may lack the announced ones, and it
    may hold other names only if they are announced. *)
Definition stale_in (inScope : option (Identity → bool)) (V : Resource → Prop) (cands : list Candidate)
    (sent : gmap string string) : Prop :=
  (∀ r, V r → sent !! XDSName r = Some (Hash r) ∨ announces_key cands (Key r)
     ∨ sent !! XDSName r ≠ None ∧ announces_name inScope cands (XDSName r))
  ∧ ∀ x, sent !! x ≠ None → (∃ r, V r ∧ XDSName r = x) ∨ announces_name inScope cands x.

(** What a publication has to announce when the resources a client should have change
    from [V] to [V'] *)
Record notifies (inScope : option (Identity → bool)) (V V' : Resource → Prop) (cands : list Candidate)
    : Prop := mkNotifies {
  nt_appears r : V' r → ¬ V r → announces_key cands (Key r);
  nt_vanishes r : V r → ¬ V' r → announces_name inScope cands (XDSName r)
}.

(** Scopes only look at what identities have in common. *)
Definition scope_proper (inScope : option (Identity → bool)) : Prop :=
  ∀ i j, sameIdentity j i = true → scoped_identity inScope i = true → scoped_identity inScope j = true.

Lemma announces_key_mono l k key :
  candidates_covered l k → announces_key k key → announces_key l key.
Proof. intros Hl (c & Hc & <-). destruct (Hl c Hc) as (d & Hd & E & _). by exists d. Qed.

Lemma announces_name_mono inScope l k x :
  scope_proper inScope → candidates_covered l k → announces_name inScope k x → announces_name inScope l x.
Proof.
  intros Hp Hl (c & i & Hc & Hi & <- & Hs). destruct (Hl c Hc) as (d & Hd & _ & Hcov & _).
  destruct (Hcov i Hi) as (j & Hj & Hsame & _). exists d, j. split_and!; [done..| |by eapply Hp].
  by apply sameIdentity_spec in Hsame as [? _].
Qed.

(** A publication that notifies keeps the client's staleness announced. *)
Lemma stale_publish inScope V V' older newer merged sent `{∀ r, Decision (V r), ∀ r, Decision (V' r)} :
  scope_proper inScope → stale_in inScope V older sent → notifies inScope V V' newer →
  candidates_covered merged older → candidates_covered merged newer →
  stale_in inScope V' merged sent.
Proof.
  intros Hp [H1 H2] [N1 N2] Ho Hn. split.
  - intros r Hr. destruct (decide (V r)) as [Hv|Hv].
    + destruct (H1 r Hv) as [?|[Hk|[Hs Hx]]]; [by left|right; left|right; right; split; [done|]].
      * exact (announces_key_mono _ _ _ Ho Hk).
      * exact (announces_name_mono _ _ _ _ Hp Ho Hx).
    + right. left. eapply announces_key_mono; [exact Hn|]. by apply N1.
  - intros x Hs. destruct (H2 x Hs) as [(r & Hr & <-)|Hx].
    + destruct (decide (V' r)) as [Hv|Hv]; [left; eauto|]. right.
      eapply announces_name_mono; [done|exact Hn|]. by apply N2.
    + right. exact (announces_name_mono _ _ _ _ Hp Ho Hx).
Qed.

(** A client that holds exactly the versions of a selection has nothing stale. *)
Lemma synced_stale inScope V cands (target : selection) :
  (∀ x r, target !! x = Some r ↔ V r ∧ XDSName r = x) → stale_in inScope V cands (Hash <$> target).
Proof.
  intros Ht. split.
  - intros r Hr. left. rewrite lookup_fmap. by rewrite (proj2 (Ht (XDSName r) r)).
  - intros x Hx. left. rewrite lookup_fmap in Hx. destruct (target !! x) as [r|] eqn:Hr; [|done].
    apply Ht in Hr. eauto.
Qed.

(** ** The result of incremental generation *)

Section result.
Context (request : GenerationRequest) (visible : Resource → bool).
Context (previously : option (Identity → bool)) (inScope : option (Identity → bool)).

Local Abbreviation n := (gr_Snapshot request).
Local Abbreviation T := (lookupType request).
Local Abbreviation C := (Candidates (gr_Update request) (gr_TypeURL request)).

(** The resources the client should have *)
Definition vis (r : Resource) : Prop := contains n T r ∧ visible r = true.

Context (Hn : set_ok n) (Hunique : ∀ a b, vis a → vis b → XDSName a = XDSName b → a = b).
Context (Hname : ∀ r, vis r → XDSName r ≠ "").
Context (Hkeys : ∀ c, c ∈ C → TypeURL (ca_Key c) = T) (Hnd : NoDup (ca_Key <$> C)).
Context (Htype : gr_TypeURL request ≠ WorkloadType).

Definition reselected (r : Resource) : Prop := vis r ∧ ∃ c, c ∈ C ∧ ca_Key c = Key r.

Definition withdrawing (x : string) : Prop :=
  ∃ c i, c ∈ C ∧ i ∈ ca_Identities c ∧ id_Name i = x
    ∧ withdrawsIdentity request previously inScope (selectedCandidate request visible c) i = true.

Lemma selectedCandidate_spec c r :
  c ∈ C → selectedCandidate request visible c = Some r ↔ vis r ∧ Key r = ca_Key c.
Proof.
  intros Hc. unfold selectedCandidate, vis, contains.
  pose proof (set_ok_shape_ok n Hn) as Hsh.
  split.
  - destruct (Get n (ca_Key c)) as [q|] eqn:Hq; [|done]. destruct (visible q) eqn:Hv; [|done].
    intros [= ->]. pose proof (Get_Key n _ _ Hsh Hq) as Hk. rewrite Hk. split_and!; auto.
  - intros [[[_ Hg] Hv] Hk]. rewrite <-Hk, Hg, Hv. done.
Qed.

Lemma reselect_fold l st :
  (∀ r, r ∈ (foldl (reselect request visible previously inScope) st l).1 ↔
     r ∈ st.1 ∨ ∃ c, c ∈ l ∧ selectedCandidate request visible c = Some r)
  ∧ (∀ x, x ∈ (foldl (reselect request visible previously inScope) st l).2 ↔
     x ∈ st.2 ∨ ∃ c i, c ∈ l ∧ i ∈ ca_Identities c ∧ id_Name i = x
       ∧ withdrawsIdentity request previously inScope (selectedCandidate request visible c) i = true).
Proof.
  clear Hn Hunique Hname Hkeys Hnd Htype.
  revert st. induction l as [|c l IH]; intros st; cbn [foldl].
  { setoid_rewrite elem_of_nil. split; naive_solver. }
  destruct (IH (reselect request visible previously inScope st c)) as [H1 H2]. split.
  - intros r. rewrite H1. unfold reselect. cbn [fst]. rewrite elem_of_app. setoid_rewrite elem_of_cons.
    assert (r ∈ match selectedCandidate request visible c with Some r => [r] | None => [] end ↔
      selectedCandidate request visible c = Some r) as ->.
    { destruct (selectedCandidate request visible c); [rewrite list_elem_of_singleton|rewrite elem_of_nil];
        naive_solver. }
    naive_solver.
  - intros x. rewrite H2. unfold reselect. cbn [snd]. rewrite elem_of_app, list_elem_of_fmap.
    setoid_rewrite list_elem_of_filter. setoid_rewrite elem_of_cons. split.
    + intros [[Hx|(i & -> & Hw & Hi)]|(c' & i & Hc' & H)]; [by left|right; exists c, i; auto|].
      right. exists c', i. auto.
    + intros [Hx|(c' & i & [->|Hc'] & Hi & <- & Hw)]; [auto|left; right; eauto|].
      right. exists c', i. auto.
Qed.

(** The resources reselected from the candidates, in any order, without repeats *)
Lemma reselect_nodup l st :
  NoDup (ca_Key <$> l) → NoDup (Key <$> st.1) →
  (∀ c r, c ∈ l → r ∈ st.1 → Key r ≠ ca_Key c) → (∀ c, c ∈ l → c ∈ C) →
  NoDup (Key <$> (foldl (reselect request visible previously inScope) st l).1).
Proof.
  revert st. induction l as [|c l IH]; intros st Hl Hst Hdis Hin; [done|]. cbn [foldl].
  rewrite fmap_cons in Hl. apply NoDup_cons in Hl as [Hc Hl].
  assert (∀ r, selectedCandidate request visible c = Some r → Key r = ca_Key c) as Hk.
  { intros r Hr. apply selectedCandidate_spec in Hr as [_ ?]; [done|]. apply Hin. left. }
  apply IH; [done| | |intros c' Hc'; apply Hin; by right]; unfold reselect; cbn [fst];
    destruct (selectedCandidate request visible c) as [r|]; rewrite ?app_nil_r.
  - rewrite fmap_app. apply NoDup_app. split_and!; [done| |apply NoDup_singleton].
    intros k (q & -> & Hq)%list_elem_of_fmap Hk'%list_elem_of_singleton.
    apply (Hdis c q); [left|done|]. by rewrite Hk', (Hk r).
  - done.
  - intros c' q Hc' [Hq|Hq]%elem_of_app; [apply Hdis; [by right|done]|].
    apply list_elem_of_singleton in Hq as ->. rewrite (Hk r) by done.
    intros E. apply Hc. rewrite E. by apply list_elem_of_fmap_2.
  - intros c' q Hc' Hq. apply Hdis; [by right|done].
Qed.

Lemma replacement_spec x r :
  replacement request visible x = Some r → vis r ∧ XDSName r = x.
Proof.
  unfold replacement. intros Hl. apply last_Some_elem_of, list_elem_of_filter in Hl as [[Hx Hv] Hin].
  split; [|done]. split; [|done].
  destruct (decide (x = "")) as [->|Hne].
  - unfold Lookup in Hin. destruct (rs_resources n !! T); [|by apply elem_of_nil in Hin].
    rewrite decide_True in Hin by done. by apply elem_of_nil in Hin.
  - by apply (proj1 (Lookup_spec n T x Hn Hne)) in Hin as [? _].
Qed.

Lemma replacement_exists r : vis r → replacement request visible (XDSName r) = Some r.
Proof.
  intros Hr. pose proof (Hname r Hr) as Hne. pose proof Hr as [Hc Hv]. unfold replacement.
  assert (r ∈ base.filter (λ q, XDSName q = XDSName r ∧ visible q = true) (Lookup n T (XDSName r))) as Hin.
  { apply list_elem_of_filter. split; [done|].
    apply (proj1 (Lookup_spec n T (XDSName r) Hn Hne)). auto. }
  destruct (last _) as [q|] eqn:Hl.
  - pose proof (replacement_spec (XDSName r) q Hl) as [Hq E]. by rewrite (Hunique q r).
  - apply last_None in Hl. rewrite Hl in Hin. by apply elem_of_nil in Hin.
Qed.

(** The loop over the names to withdraw, from [acc] and [acc2] on *)
Lemma resolve_fold selected (l : list string) acc acc2 :
  ssorted (XDSName <$> selected) → (∀ r, r ∈ selected → vis r) → NoDup (acc2 ++ l) →
  let st := foldl (λ st name,
      if BinarySearch (XDSName <$> selected) name then st else
      match replacement request visible name with
      | Some r => (st.1 ++ [r], st.2)
      | None => (st.1, st.2 ++ [name])
      end) (acc, acc2) l in
  (∀ r, r ∈ st.1 ↔ r ∈ acc ∨ (vis r ∧ XDSName r ∈ l ∧ XDSName r ∉ XDSName <$> selected))
  ∧ (∀ x, x ∈ st.2 ↔ x ∈ acc2 ∨ (x ∈ l ∧ ¬ ∃ r, vis r ∧ XDSName r = x))
  ∧ NoDup st.2.
Proof.
  intros Hs Hvis. revert acc acc2. induction l as [|x l IH]; intros acc acc2 Hnd2; cbn [foldl].
  { cbv zeta. cbn. setoid_rewrite elem_of_nil. rewrite app_nil_r in Hnd2.
    split_and!; [naive_solver|naive_solver|done]. }
  assert (NoDup (acc2 ++ l)) as Hnd3.
  { apply NoDup_app in Hnd2 as (H1 & H2 & H3). apply NoDup_cons in H3 as [_ H3].
    apply NoDup_app. split_and!; [done| |done]. intros y Hy Hyl. apply (H2 y Hy). by right. }
  pose proof (BinarySearch_spec (XDSName <$> selected) x (ssorted_sorted _ Hs)) as Hb.
  destruct (BinarySearch (XDSName <$> selected) x) eqn:Hx.
  - pose proof (proj1 Hb I) as Hxs. destruct (IH acc acc2 Hnd3) as (I1 & I2 & I3). cbv zeta. split_and!; [| |done].
    + intros r. rewrite I1, elem_of_cons. split; [naive_solver|]. intros [?|(? & [E|?] & Hno)]; [auto| |auto].
      by rewrite E in Hno.
    + intros y. rewrite I2, elem_of_cons. split; [naive_solver|]. intros [?|([->|?] & Hno)]; [auto| |auto].
      exfalso. apply Hno. apply list_elem_of_fmap in Hxs as (r & -> & Hr). eauto.
  - destruct (replacement request visible x) as [q|] eqn:Hq.
    + apply replacement_spec in Hq as [Hq E]. assert (x ∉ XDSName <$> selected) as Hxn by tauto.
      destruct (IH (acc ++ [q]) acc2 Hnd3) as (I1 & I2 & I3). cbv zeta. cbn [fst snd]. split_and!; [| |done].
      * intros r. rewrite I1, elem_of_app, list_elem_of_singleton, elem_of_cons. split.
        -- intros [[?| ->]|?]; [auto| |naive_solver]. right. rewrite E. auto.
        -- intros [?|(Hr & [E'|?] & Hno)]; [auto| |auto]. left. right. apply Hunique; [done..|congruence].
      * intros y. rewrite I2, elem_of_cons. split; [naive_solver|]. intros [?|([->|?] & Hno)]; [auto| |auto].
        exfalso. apply Hno. eauto.
    + destruct (IH acc (acc2 ++ [x])) as (I1 & I2 & I3); [by rewrite <-app_assoc|].
      assert (∀ r, vis r → XDSName r ≠ x) as Hno'.
      { intros r Hr E. by rewrite <-E, (replacement_exists r Hr) in Hq. }
      cbv zeta. cbn [fst snd]. split_and!; [| |done].
      * intros r. rewrite I1, elem_of_cons. naive_solver.
      * intros y. rewrite I2, elem_of_app, list_elem_of_singleton, elem_of_cons. naive_solver.
Qed.

Lemma resolveRemovals_spec selected removed :
  ssorted (XDSName <$> selected) → NoDup removed → (∀ r, r ∈ selected → vis r) →
  let st := resolveRemovals request visible selected removed in
  (∀ r, r ∈ st.1 ↔ r ∈ selected ∨ vis r ∧ XDSName r ∈ removed)
  ∧ (∀ x, x ∈ st.2 ↔ x ∈ removed ∧ ¬ ∃ r, vis r ∧ XDSName r = x)
  ∧ NoDup st.2.
Proof.
  intros Hs Hndr Hvis. unfold resolveRemovals.
  destruct (resolve_fold selected removed selected []) as (F1 & F2 & F3); [done..|].
  cbv zeta in *. split_and!; [| |done].
  - intros r. rewrite F1. split; [naive_solver|]. intros [?|[Hr Hin]]; [auto|].
    destruct (decide (XDSName r ∈ XDSName <$> selected)) as [(q & E & Hq)%list_elem_of_fmap|Hno]; [|auto].
    left. by rewrite (Hunique r q Hr (Hvis q Hq) E).
  - intros x. rewrite F2, elem_of_nil. naive_solver.
Qed.
(** The successors of withdrawn names are no repeats. *)
Lemma resolve_nodup selected removed :
  ssorted (XDSName <$> selected) → NoDup removed →
  NoDup (resolveRemovals request visible selected removed).1.
Proof.
  intros Hs Hndr. set (f x := if BinarySearch (XDSName <$> selected) x then None else replacement request visible x).
  assert (∀ l acc acc2, (foldl (λ st name,
      if BinarySearch (XDSName <$> selected) name then st else
      match replacement request visible name with
      | Some r => (st.1 ++ [r], st.2)
      | None => (st.1, st.2 ++ [name])
      end) (acc, acc2) l).1 = acc ++ omap f l) as Hfold.
  { induction l as [|x l IH]; intros acc acc2; cbn; [by rewrite app_nil_r|]. unfold f at 1.
    destruct (BinarySearch _ x); [apply IH|]. destruct (replacement request visible x); cbn; rewrite IH; [|done].
    by rewrite <-app_assoc. }
  unfold resolveRemovals. rewrite Hfold.
  assert (∀ r x, f x = Some r → XDSName r = x ∧ x ∉ XDSName <$> selected) as Hf.
  { intros r x. unfold f. pose proof (BinarySearch_spec (XDSName <$> selected) x (ssorted_sorted _ Hs)) as Hb.
    destruct (BinarySearch _ x); [done|]. intros [_ ?]%replacement_spec. split; [done|]. tauto. }
  apply NoDup_app. split_and!.
  - by eapply NoDup_fmap_1, ssorted_NoDup.
  - intros r Hr (x & _ & [E Hno]%Hf)%list_elem_of_omap. apply Hno. rewrite <-E. by apply list_elem_of_fmap_2.
  - clear Hfold. induction removed as [|x l IH]; [constructor|]. apply NoDup_cons in Hndr as [Hx Hl]. cbn.
    destruct (f x) as [r|] eqn:Hr; [|auto]. apply NoDup_cons. split; [|auto].
    intros (y & Hy & [E _]%Hf)%list_elem_of_omap. apply Hf in Hr as [<- _]. by rewrite E in Hx.
Qed.

(** Only names to withdraw are removed. *)
Lemma generateIncremental_removed x :
  x ∈ gd_Removed (generateIncremental request visible previously inScope) → withdrawing x.
Proof.
  clear Hn Hunique Hname Hkeys Hnd Htype.
  unfold generateIncremental. destruct (reselect_fold C ([], [])) as [_ R2].
  destruct (foldl _ ([], []) C) as [resources removed]. cbn [fst snd] in *.
  assert (∀ l acc acc2 names, x ∈ (foldl (λ st name,
      if BinarySearch names name then st else
      match replacement request visible name with
      | Some r => (st.1 ++ [r], st.2)
      | None => (st.1, st.2 ++ [name])
      end) (acc : list Resource, acc2) l).2 → x ∈ acc2 ∨ x ∈ l) as Hf.
  { induction l as [|y l IH]; intros acc acc2 names; cbn [foldl]; [by left|]. rewrite elem_of_cons.
    destruct (BinarySearch names y); [intros [?|?]%IH; auto|].
    destruct (replacement request visible y); cbn; intros [Hx|?]%IH; auto.
    apply elem_of_app in Hx as [?|?%list_elem_of_singleton]; auto. }
  unfold resolveRemovals. specialize (Hf (sorted_unique removed)
    (collapseSortedXDSNames (sortResources resources)) [] (XDSName <$> collapseSortedXDSNames (sortResources resources))).
  destruct (foldl _ _ _) as [resources' removed']. cbn [fst snd gd_Removed deltaOf] in *.
  intros [?%elem_of_nil|Hx]%Hf; [done|]. rewrite elem_of_sorted_unique, R2, elem_of_nil in Hx.
  destruct Hx as [[]|Hx]. exact Hx.
Qed.

(** The resources of the delta: the visible ones that were announced, unless the client
    holds their version, and the visible successors of withdrawn names. *)
Lemma generateIncremental_spec :
  let d := generateIncremental request visible previously inScope in
  (∀ r, r ∈ gd_Resources d ↔
     (reselected r ∨ vis r ∧ withdrawing (XDSName r))
     ∧ SentVersion (gr_Subscription request) (XDSName r) ≠ Some (Hash r))
  ∧ (∀ x, x ∈ gd_Removed d ↔ withdrawing x ∧ ¬ ∃ r, vis r ∧ XDSName r = x)
  ∧ NoDup (gd_Resources d) ∧ NoDup (gd_Removed d)
  ∧ gd_versions d = ∅ ∧ gd_expiresAt d = ∅ ∧ gd_elideSentState d = false.
Proof.
  cbv zeta. unfold generateIncremental.
  destruct (reselect_fold C ([], [])) as [R1 R2].
  pose proof (reselect_nodup C ([], []) Hnd) as R3.
  destruct (foldl _ ([], []) C) as [resources removed]. cbn [fst snd] in *.
  specialize (R3 ltac:(constructor) ltac:(by intros c r _ ?%elem_of_nil) ltac:(done)).
  assert (∀ r, r ∈ resources ↔ reselected r) as Hres.
  { intros r. rewrite R1, elem_of_nil. unfold reselected. split.
    - intros [[]|(c & Hc & [Hv Hk]%selectedCandidate_spec)]; [|done]. eauto.
    - intros [Hv (c & Hc & Hk)]. right. exists c. split; [done|]. by apply selectedCandidate_spec. }
  assert (∀ x, x ∈ sorted_unique removed ↔ withdrawing x) as Hrem.
  { intros x. rewrite elem_of_sorted_unique, R2, elem_of_nil. unfold withdrawing. naive_solver. }
  assert (NoDup (XDSName <$> resources)) as Hnames.
  { apply NoDup_fmap_2_strong; [|by eapply NoDup_fmap_1].
    intros a b [Ha _]%Hres [Hb _]%Hres. by apply Hunique. }
  rewrite collapse_distinct by (unfold sortResources; by rewrite isort_Permutation).
  assert (∀ r, r ∈ sortResources resources → vis r) as Hsv.
  { intros r Hr. unfold sortResources in Hr. apply elem_of_isort, Hres in Hr. apply Hr. }
  destruct (resolveRemovals_spec (sortResources resources) (sorted_unique removed)) as (P1 & P2 & P3);
    [by apply sortResources_names|apply ssorted_NoDup, sorted_unique_ssorted|done|].
  pose proof (resolve_nodup (sortResources resources) (sorted_unique removed)) as P4.
  destruct (resolveRemovals _ _ _ _) as [resources' removed']. cbn [fst snd] in *.
  set (final := if decide (length resources' = _) then resources' else sortResources resources').
  assert (∀ r, r ∈ final ↔ r ∈ resources') as Hfinal.
  { intros r. subst final. case_decide; [done|]. apply elem_of_isort. }
  rewrite decide_False by done. cbn. split_and!; [| |  |done|done|done|done].
  - intros r. unfold unsentResources. rewrite list_elem_of_filter, Hfinal, P1.
    unfold sortResources. rewrite elem_of_isort, Hres, Hrem. tauto.
  - intros x. by rewrite P2, Hrem.
  - apply NoDup_filter. subst final. case_decide; [|unfold sortResources; rewrite isort_Permutation];
      apply P4; auto using sortResources_names, ssorted_NoDup, sorted_unique_ssorted.
Qed.

(** ** Convergence *)

Definition stale_announced : gmap string string → Prop := stale_in inScope vis C.

(** The view holds the versions of the announced names. *)
Definition view_of (sent : gmap string string) : Prop :=
  (∀ x v, SentVersion (gr_Subscription request) x = Some v → sent !! x = Some v)
  ∧ ∀ x c i, c ∈ C → i ∈ ca_Identities c → id_Name i = x →
      SentVersion (gr_Subscription request) x = sent !! x.

Definition visible_selection (target : selection) : Prop :=
  ∀ x r, target !! x = Some r ↔ vis r ∧ XDSName r = x.

Lemma announced_withdrawing sent x c i :
  view_of sent → sent !! x ≠ None → c ∈ C → i ∈ ca_Identities c → id_Name i = x →
  scoped_identity inScope i = true →
  withdrawing x ∨ ∃ r, reselected r ∧ XDSName r = x.
Proof.
  intros [_ Hview] Hs Hc Hi Hx Hsc. destruct (selectedCandidate request visible c) as [r|] eqn:Hsel.
  - pose proof Hsel as [Hv Hk]%selectedCandidate_spec; [|done].
    destruct (decide (XDSName r = x)) as [E|E]; [right; exists r; unfold reselected; eauto 10|].
    left. exists c, i. split_and!; [done..|]. unfold withdrawsIdentity. fold (scoped_identity inScope i). rewrite Hsc, Hsel.
    rewrite bool_decide_eq_false_2 by congruence. rewrite Hx, (Hview x c i Hc Hi Hx). cbn.
    by destruct (sent !! x).
  - left. exists c, i. split_and!; [done..|]. unfold withdrawsIdentity.
    fold (scoped_identity inScope i). rewrite Hsc, Hsel, Hx, (Hview x c i Hc Hi Hx). cbn. by destruct (sent !! x).
Qed.

Lemma generateIncremental_converges sent target :
  view_of sent → stale_announced sent → visible_selection target →
  converges sent (generateIncremental request visible previously inScope) target.
Proof.
  intros Hview [Hst1 Hst2] Ht.
  destruct generateIncremental_spec as (G1 & G2 & G3 & G4 & G5 & G6 & _). constructor.
  - by intros x r [_ ?]%Ht.
  - intros r Hr. apply G1 in Hr as [Hr _]. apply Ht. split; [|done].
    destruct Hr as [[Hv _]|[Hv _]]; done.
  - intros x r [Hv <-]%Ht. destruct (decide (sent !! XDSName r = Some (Hash r))) as [?|Hne]; [by left|].
    right. apply G1. split; [|intros E; apply Hne; by apply Hview].
    destruct (Hst1 r Hv) as [?|[Hc|(Hs & c & i & Hc & Hi & Hx & Hsc)]]; [done|left; by split|].
    destruct (announced_withdrawing sent (XDSName r) c i) as [Hw|(q & Hq & E)]; [done..|auto|].
    left. rewrite <-(Hunique q r); [done|apply Hq|done..].
  - intros x [_ Hno]%G2. destruct (target !! x) as [r|] eqn:Hr; [|done]. apply Ht in Hr. exfalso. eauto.
  - intros x Hnone Hs. assert (¬ ∃ r, vis r ∧ XDSName r = x) as Hno.
    { intros (r & Hv & Hx). assert (target !! x = Some r) by (apply Ht; auto). congruence. }
    apply G2. split; [|done]. destruct (Hst2 x Hs) as [?|(c & i & Hc & Hi & Hx & Hsc)]; [done|].
    destruct (announced_withdrawing sent x c i) as [?|(q & [Hq _] & E)]; [done..|]. exfalso. eauto.
  - done.
  - done.
Qed.

(** After the push of some of the announcements, the others cover what is still stale. *)
Lemma generateIncremental_stale sent rest :
  view_of sent → stale_in inScope vis (C ++ rest) sent →
  stale_in inScope vis rest (applied sent (generateIncremental request visible previously inScope)).
Proof.
  intros Hview [Hst1 Hst2]. destruct generateIncremental_spec as (G1 & G2 & G3 & _).
  set (d := generateIncremental request visible previously inScope) in *.
  assert (NoDup (XDSName <$> gd_Resources d)) as Hnames.
  { apply NoDup_fmap_2_strong; [|done]. intros a b [Ha _]%G1 [Hb _]%G1.
    apply Hunique; destruct Ha as [[? _]|[? _]], Hb as [[? _]|[? _]]; done. }
  assert (∀ x c i, c ∈ C → i ∈ ca_Identities c → id_Name i = x → scoped_identity inScope i = true →
    sent !! x ≠ None → ∀ r, vis r → XDSName r = x → sent !! x = Some (Hash r) ∨ r ∈ gd_Resources d) as Hfresh.
  { intros x c i Hc Hi Hx Hsc Hs r Hr E.
    destruct (decide (sent !! x = Some (Hash r))) as [?|Hne]; [by left|]. right. apply G1.
    split; [|intros E'; apply Hne; apply Hview in E'; congruence].
    destruct (announced_withdrawing sent x c i) as [Hw|(q & Hq & E')]; [done..|right; by rewrite E|].
    left. rewrite <-(Hunique q r); [done|apply Hq|done|congruence]. }
  split.
  - intros r Hr. destruct (applied_lookup sent d (XDSName r) Hnames) as [Hin Hout].
    destruct (decide (XDSName r ∈ XDSName <$> gd_Resources d)) as [Hx|Hx].
    { apply list_elem_of_fmap in Hx as (q & E & Hq). left. rewrite (Hin q Hq) by done.
      rewrite (Hunique q r); [done| |done|done]. apply G1 in Hq as [[[? _]|[? _]] _]; done. }
    assert (r ∉ gd_Resources d) as Hno by (intros H; apply Hx; by apply list_elem_of_fmap_2).
    rewrite (Hout Hx), decide_False by (intros [_ H]%G2; eauto).
    destruct (Hst1 r Hr) as [?|[(c & [Hc|Hc]%elem_of_app & Hk)|(Hs & c & i & [Hc|Hc]%elem_of_app & Hi & Hn' & Hsc)]].
    + by left.
    + left. destruct (decide (sent !! XDSName r = Some (Hash r))) as [?|Hne]; [done|]. destruct Hno.
      apply G1. split; [left; split; [done|by exists c]|]. intros E. by apply Hview in E.
    + right. left. by exists c.
    + left. by destruct (Hfresh _ c i Hc Hi Hn' Hsc Hs r Hr eq_refl).
    + right. right. split; [done|]. by exists c, i.
  - intros x Hx. destruct (applied_lookup sent d x Hnames) as [Hin Hout].
    destruct (decide (x ∈ XDSName <$> gd_Resources d)) as [(q & -> & Hq)%list_elem_of_fmap|Hxn].
    { left. exists q. split; [|done]. apply G1 in Hq as [[[? _]|[? _]] _]; done. }
    rewrite (Hout Hxn) in Hx. destruct (decide (x ∈ gd_Removed d)) as [|Hxr]; [done|].
    destruct (Hst2 x Hx) as [?|(c & i & [Hc|Hc]%elem_of_app & Hi & Hn' & Hsc)]; [by left| |right; by exists c, i].
    destruct (announced_withdrawing sent x c i) as [Hw|(q & [Hq _] & E)]; [done..| |left; eauto].
    left. destruct (replacement request visible x) as [q|] eqn:Hq; [exists q; by apply replacement_spec|].
    destruct Hxr. apply G2. split; [done|]. intros (r & Hr & <-). by rewrite (replacement_exists r Hr) in Hq.
Qed.
End result.
