(* ===== verification/Contract.v ===== *)
(** * Contract: what a generator promises to a stream
    (src/pkg/xds/delta.go, generator.go)

    A stream sends what a generator selects. The interface below states what a generator
    of one type has to satisfy: its full and its incremental deltas select the same
    resources, and the notices of the store name whatever enters or leaves the selection.
    Against it, every push and every request keeps a watch no staler than its pending
    notices announce. *)

From S2P Require Import Prelude Identity Resource ResourceIndex ResourceSet SetInvariant SetQueries SetDiff Update Notices Watch Generator Generators Delta Requests Sending Incremental.

(** ** What sending leaves alone *)

(** The fields that only requests change *)
Definition watch_core (w : watchState) : bool * gset string * bool * bool :=
  (ws_wildcard w, ws_names w, ws_started w, ws_trackAcks w).

Definition idle_acks (w : watchState) : Prop :=
  ws_pendingResponse w = None ∧ ws_pendingAcks w = ∅ ∧ ws_recovering w = false.

(** Only tracked types have deliveries to recover. *)
Definition untracked_idle (w : watchState) : Prop := ws_trackAcks w = false → idle_acks w.

Lemma indexPendingResponse_core w :
  watch_core (indexPendingResponse w) = watch_core w ∧ ws_pending (indexPendingResponse w) = ws_pending w
  ∧ (idle_acks w → indexPendingResponse w = w).
Proof.
  unfold indexPendingResponse. destruct (ws_pendingResponse w) eqn:E; [|done].
  split_and!; [done..|]. intros [E' _]. congruence.
Qed.

Lemma trackDelivery_core w r :
  watch_core (trackDelivery w r) = watch_core w ∧ ws_pending (trackDelivery w r) = ws_pending w
  ∧ (ws_trackAcks w = false → trackDelivery w r = w).
Proof.
  unfold trackDelivery. destruct (ws_trackAcks w) eqn:Ht; [|done]. cbn [negb].
  set (w1 := match ws_pendingResponse w with Some _ => _ | None => w end).
  assert (watch_core w1 = watch_core w ∧ ws_pending w1 = ws_pending w) as [E1 E2].
  { subst w1. destruct (ws_pendingResponse w); [|done]. by destruct (sameNames _ _). }
  destruct (indexPendingResponse_core w1) as (I1 & I2 & _). rewrite <-E1, <-E2, <-I1, <-I2.
  split_and!; [by destruct (decide (ws_pendingAcks _ = ∅))..|done].
Qed.

Lemma dropRemovals_core w l :
  watch_core (dropRemovals w l) = watch_core w ∧ ws_pending (dropRemovals w l) = ws_pending w
  ∧ (idle_acks w → idle_acks (dropRemovals w l)).
Proof.
  unfold dropRemovals. destruct (indexPendingResponse_core w) as (I1 & I2 & I3).
  destruct (decide (length l = 0)); unfold settleRecovery, watch_core, idle_acks in *; cbn in *.
  - split_and!; [done..|]. intros (E1 & -> & ->). split_and!; [done| |by case_decide].
    generalize l. clear. induction l as [|x l IH]; [done|]. cbn. by rewrite delete_empty.
  - split_and!; [done..|]. intros (E1 & E2 & E3). rewrite I3, E1, E2, E3 by done. split_and!; [done| |by case_decide].
    generalize l. clear. induction l as [|x l IH]; [done|]. cbn. by rewrite delete_empty.
Qed.

Lemma recordResponse_core w now elide r :
  watch_core (recordResponse w now elide r) = watch_core w
  ∧ ws_pending (recordResponse w now elide r) ⊆ ws_pending w
  ∧ (untracked_idle w → untracked_idle (recordResponse w now elide r)).
Proof.
  unfold recordResponse. set (w1 := set_sent _ _).
  assert (watch_core w1 = watch_core w ∧ ws_pending w1 ⊆ ws_pending w
    ∧ (untracked_idle w → untracked_idle w1)) as (E1 & E2 & E3).
  { subst w1. unfold watch_core, untracked_idle, idle_acks. cbn. split_and!; [done|set_solver|done]. }
  clearbody w1. destruct (trackDelivery_core w1 r) as (T1 & T2 & T3).
  rewrite <-E1, <-T1. split_and!; [done|cbn; by rewrite T2|].
  intros H%E3 Htr. assert (ws_trackAcks w1 = false) as Hf.
  { unfold watch_core in T1. injection T1 as _ _ _ E. by rewrite <-E. }
  unfold idle_acks. cbn. rewrite T3 by done. by apply H.
Qed.

(** Sending a plain delta: the names and versions are applied, nothing else is touched. *)
Definition plain_delta (d : GeneratedDelta) : Prop :=
  gd_versions d = ∅ ∧ gd_expiresAt d = ∅ ∧ gd_elideSentState d = false ∧ gd_pending d = [].

Lemma plain_response now d :
  plain_delta d →
  wires now d = (λ r, mkWireResource (XDSName r) (Aliases r) (Hash r) (Value r) None)
                  <$> sort_on XDSName (gd_Resources d)
  ∧ ∀ n, n ∈ removals now d ↔ n ∈ gd_Removed d.
Proof.
  intros (Hv & He & _).
  assert (∀ r, expired now d r = false) as Hexp by (intros r; unfold expired; by rewrite He).
  split.
  - unfold wires. rewrite list_filter_all by done. apply list_fmap_ext. intros i r _.
    unfold wireOf. by rewrite Hv, He.
  - intros n. rewrite elem_of_removals. setoid_rewrite Hexp. naive_solver.
Qed.

Lemma recordSent_applied now sent d r :
  plain_delta d → NoDup (XDSName <$> gd_Resources d) →
  dp_Resources r = wires now d → dp_Removed r = removals now d →
  recordSent sent false r = applied sent d.
Proof.
  intros Hp Hnd Hres Hrem. destruct (plain_response now d Hp) as [Hw Hr].
  assert (wr_Name <$> dp_Resources r = XDSName <$> sort_on XDSName (gd_Resources d)) as Hnames.
  { rewrite Hres, Hw, <-list_fmap_compose. done. }
  assert (NoDup (wr_Name <$> dp_Resources r)) as Hndw.
  { rewrite Hnames. unfold sort_on. by rewrite isort_Permutation. }
  assert (∀ x, x ∈ wr_Name <$> dp_Resources r ↔ x ∈ XDSName <$> gd_Resources d) as Hin.
  { intros x. rewrite Hnames, !list_elem_of_fmap. by setoid_rewrite elem_of_sort_on. }
  apply map_eq. intros x. destruct (recordSent_lookup sent r x Hndw) as [Hsent Hold].
  destruct (applied_lookup sent d x Hnd) as [Ha1 Ha2].
  destruct (decide (x ∈ XDSName <$> gd_Resources d)) as [(q & -> & Hq)%list_elem_of_fmap|Hx].
  - rewrite (Ha1 q Hq eq_refl).
    rewrite (Hsent (mkWireResource (XDSName q) (Aliases q) (Hash q) (Value q) None)); [done| |done].
    rewrite Hres, Hw. apply list_elem_of_fmap. exists q. split; [done|]. by apply elem_of_sort_on.
  - rewrite Hold, Ha2 by (rewrite ?Hin; done). rewrite Hrem.
    destruct (decide (x ∈ gd_Removed d)) as [H|H]; [rewrite decide_True by (by apply Hr)|
      rewrite decide_False by (by rewrite Hr)]; done.
Qed.

Lemma validateGeneratedDelta_ok typeURL now d res :
  validateGeneratedDelta typeURL now d = Ok res → delta_ok typeURL d ∧ res = (wires now d, removals now d).
Proof.
  intros Hv. destruct (decide (delta_ok typeURL d)) as [Hok|Hno].
  - rewrite (validateGeneratedDelta_accepted _ _ _ Hok) in Hv. by injection Hv.
  - destruct (validateGeneratedDelta_refused typeURL now d Hno) as [e He]. congruence.
Qed.

Lemma sendGeneratedDelta_applied send now s request d force s' :
  gr_TypeURL request ≠ ExtensionConfigurationType → plain_delta d →
  sendGeneratedDelta send now s request d force = (s', None) →
  ws_sent (sd_watch s') = applied (ws_sent (sd_watch s)) d
  ∧ watch_core (sd_watch s') = watch_core (sd_watch s)
  ∧ (ws_pending (sd_watch s) = ∅ → ws_pending (sd_watch s') = ∅)
  ∧ (untracked_idle (sd_watch s) → untracked_idle (sd_watch s')).
Proof.
  intros Ht Hp Hs. unfold sendGeneratedDelta in Hs.
  destruct (validateGeneratedDelta _ now d) as [[resources removed]|e] eqn:Hv; [|done].
  apply validateGeneratedDelta_ok in Hv as [(_ & Hnd & _) [= -> ->]].
  rewrite decide_False in Hs by done. destruct Hp as (Hp1 & Hp2 & Hel & Hpend).
  rewrite Hpend, Hel in Hs.
  assert (∀ r, dp_Resources r = wires now d → dp_Removed r = removals now d →
    recordSent (ws_sent (sd_watch s)) false r = applied (ws_sent (sd_watch s)) d) as Hrec.
  { intros r. by apply recordSent_applied. }
  destruct (bool_decide _ && bool_decide _ && negb force) eqn:Hempty.
  - injection Hs as <-. cbn. split_and!; [|done|set_solver|done].
    apply andb_true_iff in Hempty as [[Hz1%bool_decide_eq_true%length_zero_iff_nil
      Hz2%bool_decide_eq_true%length_zero_iff_nil]%andb_true_iff _].
    rewrite <-(Hrec (mkResponse "" "" "" [] [])); [done|by rewrite Hz1|by rewrite Hz2].
  - destruct (send _); [done|]. injection Hs as <-. cbn [sd_watch]. rewrite recordResponse_sent.
    match goal with |- context [recordResponse ?w ?n ?e ?r] =>
      destruct (recordResponse_core w n e r) as (R1 & R2 & R3) end.
    rewrite R1. split_and!; [by apply Hrec|done| |done].
    intros E. apply elem_of_equiv_empty_L. intros x Hx. apply R2 in Hx. cbn in Hx. rewrite E in Hx. set_solver.
Qed.

(** Whatever is generated, a subscription only changes by requests. *)
Lemma sendGeneratedDelta_core send now s request d force :
  watch_core (sd_watch (sendGeneratedDelta send now s request d force).1) = watch_core (sd_watch s).
Proof.
  unfold sendGeneratedDelta. destruct (validateGeneratedDelta _ now d) as [[resources removed]|e]; [|done].
  set (dropped := if decide _ then _ else _).
  assert (watch_core dropped.1 = watch_core (sd_watch s)) as <-.
  { subst dropped. case_decide; [apply dropRemovals_core|done]. }
  destruct dropped as [w removed']. cbn [fst]. destruct (bool_decide _ && bool_decide _ && negb force); [done|].
  destruct (send _); [done|]. cbn [fst sd_watch].
  match goal with |- context [recordResponse ?v ?n ?e ?r] => apply (recordResponse_core v n e r) end.
Qed.

Lemma generateOne_core generate send now s request force :
  watch_core (sd_watch (generateOne generate send now s request force).1) = watch_core (sd_watch s).
Proof.
  unfold generateOne. destruct (effectiveRequest _ _) as [request'|]; [|done].
  destruct (generate request'); [apply sendGeneratedDelta_core|done].
Qed.

(** ** What a request changes *)

Lemma subscribe_fold l w changed :
  let w' := (foldl subscribeName (w, changed) l).1 in
  (∀ x, x ∈ ws_names w' ↔ x ∈ ws_names w ∨ x ∈ l ∧ x ≠ "*") ∧ ws_sent w' = ws_sent w
  ∧ (("*" ∉ l) → ws_wildcard w' = ws_wildcard w).
Proof.
  revert w changed. induction l as [|y l IH]; intros w changed; cbn [foldl].
  { split; [|done]. intros x. rewrite elem_of_nil. naive_solver. }
  unfold subscribeName at 2 4 6. setoid_rewrite not_elem_of_cons. destruct (decide (y = "*")) as [->|Hne];
    match goal with |- context [foldl subscribeName (?w1, ?c1) l] => destruct (IH w1 c1) as (H1 & H2 & H3) end;
    (split_and!; [|done|tauto]); intros x; rewrite H1, elem_of_cons; cbn; [|rewrite elem_of_union, elem_of_singleton];
    naive_solver.
Qed.

Lemma forgetAck_subscription w x :
  ws_names (forgetAck w x) = ws_names w ∧ ws_sent (forgetAck w x) = ws_sent w
  ∧ ws_wildcard (forgetAck w x) = ws_wildcard w.
Proof. unfold forgetAck, indexPendingResponse. by destruct (ws_pendingResponse w). Qed.

Lemma unsubscribe_fold l w changed :
  let w' := (foldl unsubscribeName (w, changed) l).1 in
  (∀ x, x ∈ ws_names w' ↔ x ∈ ws_names w ∧ ¬ (x ∈ l ∧ x ≠ "*"))
  ∧ (∀ x, ws_sent w' !! x = if decide (x ∈ l ∧ x ≠ "*") then None else ws_sent w !! x)
  ∧ (("*" ∉ l) → ws_wildcard w' = ws_wildcard w).
Proof.
  revert w changed. induction l as [|y l IH]; intros w changed; cbn [foldl].
  { split_and!; [intros x|intros x; rewrite decide_False; [done|]|done]; rewrite elem_of_nil; naive_solver. }
  unfold unsubscribeName at 2 4 6. destruct (decide (y = "*")) as [->|Hne];
    match goal with |- context [foldl unsubscribeName (?w1, ?c1) l] => destruct (IH w1 c1) as (H1 & H2 & H3) end;
    (split_and!; [intros x; rewrite H1|intros x; rewrite H2|intros [? ?]%not_elem_of_cons; rewrite ?H3 by done]).
  - rewrite elem_of_cons. cbn. naive_solver.
  - cbn. destruct (decide (x ∈ l ∧ x ≠ "*")) as [Hx|Hx], (decide (x ∈ "*" :: l ∧ x ≠ "*")) as [Hy|Hy];
      rewrite elem_of_cons in Hy; naive_solver.
  - done.
  - rewrite (proj1 (forgetAck_subscription _ _)), elem_of_cons. cbn.
    rewrite elem_of_difference, elem_of_singleton. naive_solver.
  - rewrite (proj1 (proj2 (forgetAck_subscription _ _))). cbn.
    destruct (decide (x ∈ l ∧ x ≠ "*")) as [Hx|Hx], (decide (x ∈ y :: l ∧ x ≠ "*")) as [Hy|Hy];
      rewrite elem_of_cons in Hy; [done|tauto| |].
    + assert (x = y) as -> by tauto. apply lookup_delete_eq.
    + rewrite lookup_delete_ne; [done|]. intros ->. tauto.
  - by rewrite (proj2 (proj2 (forgetAck_subscription _ _))).
Qed.

(** The names and versions of a started watch after a request *)
Lemma applySubscription_started w request :
  ws_started w = true →
  let w' := (applySubscription w request).1 in
  (∀ x, x ∈ ws_names w' ↔ (x ∈ ws_names w ∨ x ∈ dr_Subscribe request ∧ x ≠ "*")
     ∧ ¬ (x ∈ dr_Unsubscribe request ∧ x ≠ "*"))
  ∧ (∀ x, ws_sent w' !! x = if decide (x ∈ dr_Unsubscribe request ∧ x ≠ "*") then None else ws_sent w !! x)
  ∧ (("*" ∉ dr_Subscribe request) → ("*" ∉ dr_Unsubscribe request) → ws_wildcard w' = ws_wildcard w).
Proof.
  intros Hs. unfold applySubscription. rewrite Hs.
  destruct (subscribe_fold (dr_Subscribe request) w (negb true)) as (S1 & S2 & S3).
  destruct (foldl subscribeName _ _) as [w1 c1].
  destruct (unsubscribe_fold (dr_Unsubscribe request) w1 c1) as (U1 & U2 & U3).
  destruct (foldl unsubscribeName _ _) as [w2 c2]. cbn in *. split_and!; [intros x..|].
  - by rewrite U1, S1.
  - by rewrite U2, S2.
  - intros. rewrite U3, S3; done.
Qed.

(** ** The contract *)

(** A snapshot whose resources of the type have names and versions *)
Definition served (T : string) (n : ResourceSet) : Prop :=
  set_ok n ∧ ∀ r, contains n T r → XDSName r ≠ "" ∧ Hash r ≠ "".

(** A publication announces the difference of two snapshots; resources of one key and
    one hash are one resource. *)
Record published (before after : ResourceSet) (changes : list ResourceChange) : Prop := mkPublished {
  pb_changes : changes ≡ₚ Diff before after;
  pb_faithful k a b : Get before k = Some a → Get after k = Some b → Hash a = Hash b → a = b
}.

(** The resources of a snapshot that a client of the scope sees with its subscription,
    the identities it could have seen, and what the generator asks of the snapshot *)
Class Selector := {
  sees : ClientScope → SubscriptionView → ResourceSet → Resource → bool;
  sees_identity : ClientScope → option (Identity → bool);
  selectable : ClientScope → SubscriptionView → ResourceSet → Prop
}.

Definition selects `{Selector} (T : string) (scope : ClientScope) (view : SubscriptionView) (n : ResourceSet)
    (r : Resource) : Prop :=
  contains n T r ∧ sees scope view n r = true.

#[export] Instance selects_dec `{Selector} T scope view n r : Decision (selects T scope view n r).
Proof. unfold selects, contains. apply _. Defined.

(** A delta for everything that is selected *)
Definition selects_all `{Selector} (T : string) (request : GenerationRequest) (d : GeneratedDelta) : Prop :=
  ∃ target, converges (sv_sent (gr_Subscription request)) d target
    ∧ ∀ x r, target !! x = Some r ↔
        selects T (gr_Scope request) (gr_Subscription request) (gr_Snapshot request) r ∧ XDSName r = x.

Class SelectorLaws (T : string) (generate : GenerationRequest → result GeneratedDelta) `{Selector} := {
  (** The selection does not depend on what was sent. *)
  sl_view scope v v' n r : sv_wildcard v = sv_wildcard v' → sv_names v = sv_names v' →
    sees scope v n r = sees scope v' n r;
  sl_selectable scope v v' n : sv_wildcard v = sv_wildcard v' → sv_names v = sv_names v' →
    selectable scope v n → selectable scope v' n;
  sl_identity scope : scope_proper (sees_identity scope);
  (** Wire names are unique in a selection. *)
  sl_unique scope v n a b : served T n → selectable scope v n →
    selects T scope v n a → selects T scope v n b → XDSName a = XDSName b → a = b;
  sl_full request : gr_TypeURL request = T → gr_Full request = true → served T (gr_Snapshot request) →
    ssorted (sv_names (gr_Subscription request)) →
    selectable (gr_Scope request) (gr_Subscription request) (gr_Snapshot request) →
    ∃ d, generate request = Ok d ∧ plain_delta d ∧ selects_all T request d;
  sl_incremental request : gr_TypeURL request = T → gr_Full request = false →
    FullFor (gr_Update request) T = false →
    generate request = Ok (generateIncremental request
      (sees (gr_Scope request) (gr_Subscription request) (gr_Snapshot request)) None
      (sees_identity (gr_Scope request)));
  (** The store announces whatever enters or leaves a selection. *)
  sl_notifies scope v before after changes :
    served T before → served T after → published before after changes → ssorted (sv_names v) →
    selectable scope v before → selectable scope v after →
    notifies (sees_identity scope) (selects T scope v before) (selects T scope v after)
      (Candidates (updateBetween before after changes) T);
  (** A recovering watch may skip notices about foreign resources. *)
  sl_owned scope v n r : tracksAcks T = true → selects T scope v n r → scopeAllows scope r = true;
  sl_owned_identity scope i name : tracksAcks T = true → scoped_identity (sees_identity scope) i = true →
    scopeAllows scope (mkResource (mkKey T name) "" None [] "" (id_Facts i)) = true;
  (** A reconciliation of single names leaves the other names as they were. *)
  sl_demand scope n w0 w request w' view rest :
    ws_started w0 = true → watch_core w = watch_core (applySubscription w0 request).1 →
    ws_sent w = ws_sent (applySubscription w0 request).1 → ws_wildcard w = false →
    served T n → selectable scope (newSubscriptionView w0) n → selectable scope (newSubscriptionView w) n →
    demandReconciliationView n T scope w (dr_Subscribe request) (dr_Unsubscribe request) = (w', Some view) →
    w' = w ∧ ∃ d, generate (fullRequest scope T view n (dr_Subscribe request)) = Ok d ∧ plain_delta d
      ∧ (stale_in (sees_identity scope) (selects T scope (newSubscriptionView w0) n) rest (ws_sent w0) →
         stale_in (sees_identity scope) (selects T scope (newSubscriptionView w) n) rest
           (applied (ws_sent w) d));
  (** Direct Workloads and extension configurations keep other state. *)
  sl_type : T ≠ WorkloadType ∧ T ≠ ExtensionConfigurationType
}.

(** ** One watch *)

Lemma ssorted_sortedNames names : ssorted (sortedNames names).
Proof.
  unfold sortedNames. apply sorted_NoDup_ssorted; [apply sort_strings_sorted|].
  unfold sort_strings. rewrite isort_Permutation. apply NoDup_elements.
Qed.

Section watch.
Context (T : string) (generate : GenerationRequest → result GeneratedDelta) `{SelectorLaws T generate}.
Context (send : DeltaResponse → option string) (now : Z) (scope : ClientScope).

(** What the client of a watch should have *)
Definition wants (w : watchState) (n : ResourceSet) : Resource → Prop :=
  selects T scope (newSubscriptionView w) n.

#[local] Instance wants_dec w n r : Decision (wants w n r).
Proof. unfold wants. apply _. Defined.

(** The watch is stale only in what the candidates announce. *)
Definition stale (w : watchState) (n : ResourceSet) (cands : list Candidate) : Prop :=
  stale_in (sees_identity scope) (wants w n) cands (ws_sent w).

(** What every watch of the type satisfies *)
Record watch_ok (w : watchState) : Prop := mkWatchOk {
  wo_started : ws_started w = true;
  wo_tracks : ws_trackAcks w = tracksAcks T;
  wo_pending : ws_pending w = ∅;
  wo_idle : untracked_idle w
}.

Definition fits (w : watchState) (n : ResourceSet) : Prop :=
  served T n ∧ selectable scope (newSubscriptionView w) n.

Lemma wants_core w w' n r : watch_core w = watch_core w' → wants w n r ↔ wants w' n r.
Proof.
  intros E. injection E as E1 E2 _ _. unfold wants, selects.
  rewrite (sl_view scope (newSubscriptionView w) (newSubscriptionView w') n r); [done|done|].
  unfold newSubscriptionView. cbn. by rewrite E2.
Qed.

Lemma fits_core w w' n : watch_core w = watch_core w' → fits w n → fits w' n.
Proof.
  intros E [Hn Hf]. injection E as E1 E2 _ _. split; [done|]. eapply sl_selectable; [..|exact Hf]; [done|].
  unfold newSubscriptionView. cbn. by rewrite E2.
Qed.

Lemma stale_ext (V V' : Resource → Prop) cands sent :
  (∀ r, V r ↔ V' r) → stale_in (sees_identity scope) V cands sent → stale_in (sees_identity scope) V' cands sent.
Proof.
  intros HV [H1 H2]. split.
  - intros r Hr%HV. auto.
  - intros x Hx. destruct (H2 x Hx) as [(r & Hr%HV & E)|?]; [left; eauto|by right].
Qed.

Lemma stale_mono (V : Resource → Prop) cands cands' sent :
  (∀ c, c ∈ cands → c ∈ cands') →
  stale_in (sees_identity scope) V cands sent → stale_in (sees_identity scope) V cands' sent.
Proof.
  intros Hin [H1 H2]. split.
  - intros r Hr. destruct (H1 r Hr) as [?|[(c & Hc & Hk)|(Hs & c & i & Hc & Hi)]]; [by left| |].
    + right. left. exists c. auto.
    + right. right. split; [done|]. exists c, i. naive_solver.
  - intros x Hx. destruct (H2 x Hx) as [?|(c & i & Hc & Hi)]; [by left|]. right. exists c, i. naive_solver.
Qed.

(** A delta that converges from the versions of the watch *)
Lemma converges_stale (V : Resource → Prop) sent d target :
  converges sent d target → (∀ x r, target !! x = Some r ↔ V r ∧ XDSName r = x) →
  stale_in (sees_identity scope) V [] (applied sent d).
Proof.
  intros Hc Ht. destruct (converges_names _ _ _ Hc) as [Hnd Hdis]. split.
  - intros r Hr. left. assert (target !! XDSName r = Some r) as Hr' by (by apply Ht).
    destruct (applied_lookup sent d (XDSName r) Hnd) as [H1 H2].
    destruct (decide (XDSName r ∈ XDSName <$> gd_Resources d)) as [(q & E & Hq)%list_elem_of_fmap|Hx].
    + pose proof (cv_selected _ _ _ Hc q Hq) as Hq'. rewrite <-E, Hr' in Hq'. injection Hq' as <-. auto.
    + rewrite H2 by done. destruct (cv_complete _ _ _ Hc _ _ Hr') as [Hs|Hin].
      * rewrite decide_False; [done|]. intros Hm%(cv_removed _ _ _ Hc). congruence.
      * destruct Hx. by apply list_elem_of_fmap_2.
  - intros x Hx. left. destruct (applied_lookup sent d x Hnd) as [H1 H2].
    destruct (decide (x ∈ XDSName <$> gd_Resources d)) as [(q & -> & Hq)%list_elem_of_fmap|Hxn].
    { exists q. by apply Ht, (cv_selected _ _ _ Hc). }
    rewrite H2 in Hx by done. destruct (decide (x ∈ gd_Removed d)) as [|Hr]; [done|].
    destruct (target !! x) as [r|] eqn:Hr'; [apply Ht in Hr'; eauto|].
    destruct Hr. by apply (cv_withdrawn _ _ _ Hc).
Qed.
(** The versions of a recovering watch are forgotten where they were not accepted. *)
Lemma converges_recovery w d target :
  (∀ x r, target !! x = Some r → Hash r ≠ "") →
  converges (sv_sent (recoveryView w)) d target → converges (ws_sent w) d target.
Proof.
  intros Hh [V0 V1 V2 V3 V4 V5 V6]. constructor; [done|done| |done| |done|done].
  - intros x r Hr. destruct (V2 x r Hr) as [Hs|?]; [|by right]. cbn in Hs.
    apply lookup_union_Some_raw in Hs as [Hs|[_ Hs]]; [|by left].
    rewrite lookup_fmap in Hs. destruct (ws_pendingAcks w !! x); [|done]. injection Hs as Hs.
    by destruct (Hh x r Hr).
  - intros x Hx Hs. apply V4; [done|]. cbn. rewrite lookup_union.
    rewrite lookup_fmap. by destruct (ws_pendingAcks w !! x), (ws_sent w !! x).
Qed.

Lemma watch_ok_sent w w' :
  watch_ok w → watch_core w' = watch_core w → (ws_pending w = ∅ → ws_pending w' = ∅) →
  (untracked_idle w → untracked_idle w') → watch_ok w'.
Proof.
  intros [O1 O2 O3 O4] E ? ?. unfold watch_core in E. injection E as _ _ F1 F2.
  constructor; [congruence|congruence|auto|auto].
Qed.

(** What a push leaves behind: the rest covers what is stale. *)
Definition pushed (w : watchState) (n : ResourceSet) (rest : list Candidate) (w' : watchState) : Prop :=
  stale w' n rest ∧ watch_ok w' ∧ watch_core w' = watch_core w.

(** A full generation, also one that recovers, leaves the watch with nothing stale. *)
Lemma generated_full s request force s' :
  let n := gr_Snapshot request in
  gr_TypeURL request = T → gr_Full request = true → gr_Scope request = scope →
  gr_Subscription request = newSubscriptionView (sd_watch s)
    ∨ gr_Subscription request = recoveryView (sd_watch s) →
  fits (sd_watch s) n → watch_ok (sd_watch s) →
  match generate request with
  | Ok d => sendGeneratedDelta send now s request d force
  | Err e => (s, Some e)
  end = (s', None) → pushed (sd_watch s) n [] (sd_watch s').
Proof.
  intros n E1 E2 E3 Esub [Hn Hsel] Hok.
  destruct (sl_full request E1 E2) as (d & -> & Hp & target & Hc & Ht); rewrite ?E3; [done| | |].
  { destruct Esub as [-> | ->]; apply ssorted_sortedNames. }
  { by destruct Esub as [-> | ->]; [|eapply sl_selectable; [..|exact Hsel]]. }
  intros Hsend. apply sendGeneratedDelta_applied in Hsend as (S1 & S2 & S3 & S4);
    [|rewrite E1; apply sl_type|done].
  rewrite E3 in Ht.
  assert (∀ x r, target !! x = Some r ↔ wants (sd_watch s) n r ∧ XDSName r = x) as Ht'.
  { intros x r. rewrite Ht. unfold wants, selects. destruct Esub as [-> | ->]; [done|].
    by rewrite (sl_view scope (recoveryView (sd_watch s)) (newSubscriptionView (sd_watch s))). }
  assert (converges (ws_sent (sd_watch s)) d target) as Hc'.
  { destruct Esub as [E|E]; rewrite E in Hc; [exact Hc|]. apply converges_recovery; [|done].
    intros x r [[[? ?] _] _]%Ht'. by apply Hn. }
  split_and!; [|by eapply watch_ok_sent|done].
  unfold stale. rewrite S1. eapply converges_stale; [exact Hc'|]. intros x r. rewrite Ht'.
  by rewrite (wants_core (sd_watch s) (sd_watch s')).
Qed.

Lemma generateOne_full s n update names force s' :
  fits (sd_watch s) n → watch_ok (sd_watch s) →
  generateOne generate send now s
    (mkGenRequest scope T (newSubscriptionView (sd_watch s)) n update true names) force = (s', None) →
  pushed (sd_watch s) n [] (sd_watch s').
Proof.
  intros Hfit Hok. unfold generateOne, effectiveRequest.
  destruct (ws_recovering (sd_watch s)); cbn [negb andb gr_Full]; intros Hg;
    eapply generated_full in Hg; cbn; eauto.
Qed.

Lemma incremental_view_sent w u x :
  (∀ v, SentVersion (newIncrementalSubscriptionView w T u) x = Some v → ws_sent w !! x = Some v)
  ∧ ∀ c i, c ∈ Candidates u T → i ∈ ca_Identities c → id_Name i = x →
      SentVersion (newIncrementalSubscriptionView w T u) x = ws_sent w !! x.
Proof.
  unfold SentVersion, newIncrementalSubscriptionView. cbn.
  assert (∀ l (m : gmap string string), (∀ v, m !! x = Some v → ws_sent w !! x = Some v) →
    (∀ v, foldl (copySent (ws_sent w)) m l !! x = Some v → ws_sent w !! x = Some v)
    ∧ ((∃ i, i ∈ l ∧ id_Name i = x) ∨ m !! x = ws_sent w !! x →
         foldl (copySent (ws_sent w)) m l !! x = ws_sent w !! x)) as Hf.
  { induction l as [|i l IH]; intros m Hm; cbn [foldl].
    { split; [done|]. intros [(i & ?%elem_of_nil & _)|?]; done. }
    assert (∀ v, copySent (ws_sent w) m i !! x = Some v → ws_sent w !! x = Some v) as Hm'.
    { intros v. unfold copySent. destruct (ws_sent w !! id_Name i) eqn:Hi; [|auto].
      intros [[<- <-]|[_ ?]]%lookup_insert_Some; auto. }
    destruct (IH _ Hm') as [I1 I2]. split; [done|]. intros Hor. apply I2.
    destruct (decide (id_Name i = x)) as [<-|Hne].
    - right. unfold copySent. destruct (ws_sent w !! id_Name i) eqn:Hi; [by rewrite lookup_insert_eq|].
      destruct (m !! id_Name i) eqn:E; [by specialize (Hm _ eq_refl)|done].
    - destruct Hor as [(j & [->|Hj]%elem_of_cons & <-)|E]; [done|left; eauto|right].
      unfold copySent. by destruct (ws_sent w !! id_Name i); [rewrite lookup_insert_ne|]. }
  destruct (Hf (Candidates u T ≫= ca_Identities) ∅) as [F1 F2]; [done|]. split; [done|].
  intros c i Hc Hi Hx. apply F2. left. exists i. split; [|done]. apply list_elem_of_bind. eauto.
Qed.

(** A skipped notice announces nothing the client could see. *)
Lemma irrelevant_skipped w n u names rest :
  fits w n → watch_ok w → ws_recovering w = true → update_ok u →
  relevantUpdate (mkGenRequest scope T (newIncrementalSubscriptionView w T u) n u false names) = false →
  stale w n (Candidates u T ++ rest) → stale w n rest.
Proof.
  intros [[Hn _] _] [_ O2 _ O4] Hrec Hu Hrel [H1 H2].
  assert (tracksAcks T = true) as Ht.
  { rewrite <-O2. destruct (ws_trackAcks w) eqn:E; [done|]. destruct (O4 E) as (_ & _ & ?). congruence. }
  unfold relevantUpdate in Hrel. cbn in Hrel.
  assert (∀ c, c ∈ Candidates u T → ∀ r, wants w n r → Key r ≠ ca_Key c) as Hkey.
  { intros c Hc r Hr Ek. pose proof (sl_owned scope _ n r Ht Hr) as Ho. destruct Hr as [[_ Hg] _].
    apply not_true_iff_false in Hrel. apply Hrel, existsb_exists. exists c.
    rewrite <-list_elem_of_In. split; [done|]. rewrite <-Ek, Hg, Ho. done. }
  assert (∀ x, ¬ announces_name (sees_identity scope) (Candidates u T) x) as Hname.
  { intros x (c & i & Hc & Hi & _ & Hs). apply not_true_iff_false in Hrel. apply Hrel, existsb_exists.
    exists c. rewrite <-list_elem_of_In. split; [done|]. apply orb_true_iff. right.
    apply existsb_exists. exists i. rewrite <-list_elem_of_In. split; [done|].
    assert (TypeURL (ca_Key c) = T) as Ek.
    { destruct Hu as [Hu _]. unfold Candidates in Hc. rewrite decide_False in Hc by apply sl_type.
      by apply (Hu T). }
    destruct (ca_Key c) as [t name]. cbn in Ek. subst t. by apply sl_owned_identity. }
  split.
  - intros r Hr. destruct (H1 r Hr) as [?|[(c & [Hc|Hc]%elem_of_app & Hk)|(Hs & c & i & [Hc|Hc]%elem_of_app & Hi)]].
    + by left.
    + by destruct (Hkey c Hc r Hr).
    + right. left. by exists c.
    + exfalso. apply (Hname (XDSName r)). by exists c, i.
    + right. right. split; [done|]. by exists c, i.
  - intros x Hx. destruct (H2 x Hx) as [?|(c & i & [Hc|Hc]%elem_of_app & Hi)]; [by left| |].
    + exfalso. apply (Hname x). by exists c, i.
    + right. by exists c, i.
Qed.
Lemma candidates_typed u :
  update_ok u → (∀ c, c ∈ Candidates u T → TypeURL (ca_Key c) = T) ∧ NoDup (ca_Key <$> Candidates u T).
Proof.
  intros [Hu _]. unfold Candidates. rewrite decide_False by apply sl_type.
  destruct (Hu T) as [Hs Ht]. split; [done|]. apply (NoDup_fmap_1 Name). rewrite <-list_fmap_compose.
  exact (ssorted_NoDup _ Hs).
Qed.

(** An incremental push settles what its notice announces. *)
Lemma generateOne_incremental s n u force s' :
  fits (sd_watch s) n → watch_ok (sd_watch s) → update_ok u → FullFor u T = false →
  generateOne generate send now s
    (mkGenRequest scope T (newIncrementalSubscriptionView (sd_watch s) T u) n u false []) force = (s', None) →
  watch_ok (sd_watch s')
  ∧ ∀ rest, stale (sd_watch s) n (Candidates u T ++ rest) → stale (sd_watch s') n rest.
Proof.
  intros Hfit Hok Hu Hfull. unfold generateOne, effectiveRequest.
  destruct (ws_recovering (sd_watch s)) eqn:Hrec; cbn [negb andb gr_Full].
  - destruct (relevantUpdate _) eqn:Hrel; cbn [negb]; intros Hg.
    + eapply generated_full in Hg as (G1 & G2 & G3); cbn; eauto. split; [done|]. intros rest _.
      cbn in G1. eapply stale_mono; [|exact G1]. by intros c ?%elem_of_nil.
    + injection Hg as <-. split; [done|]. intros rest Hst. eapply irrelevant_skipped; eauto.
  - rewrite sl_incremental by done. cbn. intros Hg.
    set (w := sd_watch s) in *. set (request := mkGenRequest _ _ _ _ _ _ _) in *.
    assert (lookupType request = T) as Elt.
    { unfold lookupType. cbn. by rewrite decide_False by apply sl_type. }
    set (view := newIncrementalSubscriptionView w T u) in *.
    assert (∀ r, vis request (sees scope view n) r ↔ wants w n r) as Hvis.
    { intros r. unfold vis, wants, selects. rewrite Elt. cbn.
      by rewrite (sl_view scope view (newSubscriptionView w)). }
    destruct Hfit as [Hn Hsel]. destruct (candidates_typed u Hu) as [Hk Hnd].
    assert (∀ a b, vis request (sees scope view n) a → vis request (sees scope view n) b →
      XDSName a = XDSName b → a = b) as Huniq.
    { intros a b Ha%Hvis Hb%Hvis. by eapply sl_unique. }
    assert (∀ r, vis request (sees scope view n) r → XDSName r ≠ "") as Hname.
    { intros r [[? ?] _]%Hvis. by apply Hn. }
    assert (∀ c, c ∈ Candidates u T → TypeURL (ca_Key c) = lookupType request) as Hk' by (by rewrite Elt).
    pose proof (generateIncremental_spec request (sees scope view n) None (sees_identity scope)
      (proj1 Hn) Huniq Hname Hk' Hnd (proj1 sl_type)) as Hspec.
    pose proof (generateIncremental_stale request (sees scope view n) None (sees_identity scope)
      (proj1 Hn) Huniq Hname Hk' Hnd (proj1 sl_type)) as Hinc.
    destruct Hspec as (_ & _ & _ & _ & P1 & P2 & P3).
    apply sendGeneratedDelta_applied in Hg as (S1 & S2 & S3 & S4); [|apply sl_type|]; last first.
    { split_and!; [done..|]. unfold generateIncremental. destruct (foldl _ _ _), (resolveRemovals _ _ _ _). done. }
    split; [by eapply watch_ok_sent|]. intros rest Hst. unfold stale. rewrite S1.
    eapply stale_ext; [|apply Hinc].
    + intros r. rewrite Hvis. by apply wants_core.
    + split; [intros x v; apply incremental_view_sent|]. intros x c i Hc Hi Hx.
      by eapply incremental_view_sent.
    + eapply stale_ext; [|exact Hst]. intros r. by rewrite Hvis.
Qed.

(** A publication keeps the watch as stale as announced. *)
Lemma stale_published w before after changes older merged :
  fits w before → fits w after → published before after changes →
  stale w before older → candidates_covered merged older →
  candidates_covered merged (Candidates (updateBetween before after changes) T) →
  stale w after merged.
Proof.
  intros [Hb Sb] [Ha Sa] Hp Hst Ho Hn.
  apply (stale_publish (sees_identity scope) (wants w before) (wants w after) older
    (Candidates (updateBetween before after changes) T) merged (ws_sent w));
    [apply sl_identity|exact Hst| |done|exact Hn].
  apply sl_notifies; [done..|apply ssorted_sortedNames|done|done].
Qed.
End watch.
