(* ===== verification/Selectors.v ===== *)
(** * Selectors: generators that keep the contract
    (src/pkg/xds/snapshot_generator.go, selection.go, traffic_policy_generator.go)

    The generator of gateway configuration and the one of traffic policies satisfy the
    contract of a stream's generator. *)

From S2P Require Import Prelude Identity Resource ResourceIndex ResourceSet SetInvariant SetQueries SetDiff Update Notices Dependencies Watch Generator Generators Delta Requests Sending Selections Incremental Contract.

(** ** What a publication announces *)

Section publication.
Context (before after : ResourceSet) (changes : list ResourceChange).
Context (Hb : set_ok before) (Ha : set_ok after) (Hp : published before after changes).

Lemma published_change k :
  Get before k ≠ Get after k → mkChange k (Get before k) (Get after k) ∈ changes.
Proof.
  intros Hne. rewrite (pb_changes _ _ _ Hp). apply elem_of_Diff.
  { by apply set_ok_shape. } { by apply set_ok_shape. }
  split_and!; [done..|]. cbn. unfold hash_of. intros E. apply Hne.
  destruct (Get before k) as [a|] eqn:H1, (Get after k) as [b|] eqn:H2; [|done..]. injection E as E.
  f_equal. by eapply (pb_faithful _ _ _ Hp).
Qed.

Lemma published_appears T r :
  contains after T r → ¬ contains before T r →
  ∃ c, c ∈ changes ∧ rc_Key c = Key r ∧ rc_Old c = Get before (Key r) ∧ rc_New c = Some r.
Proof.
  intros [Ht Hg] Hno. exists (mkChange (Key r) (Get before (Key r)) (Get after (Key r))).
  split_and!; [apply published_change|done..]. intros E. apply Hno. split; [done|]. congruence.
Qed.

Lemma published_vanishes T r :
  contains before T r → ¬ contains after T r →
  ∃ c, c ∈ changes ∧ rc_Key c = Key r ∧ rc_Old c = Some r ∧ rc_New c = Get after (Key r).
Proof.
  intros [Ht Hg] Hno. exists (mkChange (Key r) (Get before (Key r)) (Get after (Key r))).
  split_and!; [apply published_change|done..]. intros E. apply Hno. split; [done|]. congruence.
Qed.

(** A dependency of the publication is a candidate of its type. *)
Lemma dependency_announced T inScope r w :
  T ≠ WorkloadType → TypeURL (Key r) = T → publication_dependency before after changes r w →
  announces_key (Candidates (updateBetween before after changes) T) (Key r)
  ∧ (scope_proper inScope → scoped_identity inScope (mkIdentity (XDSName r) (Facts r)
       (match w with Some w => {[workloadIdentity w]} | None => ∅ end)) = true →
     announces_name inScope (Candidates (updateBetween before after changes) T) (XDSName r)).
Proof.
  intros HT Ht Hd. destruct (updateBetween_spec before after changes) as (_ & _ & _ & Hc).
  destruct (Hc r w Hd) as (c & Hin & Hk & (j & Hj & Hs & _) & _). unfold Candidates.
  rewrite decide_False by done. rewrite Ht in Hin. split; [by exists c|].
  intros Hprop Hsc. exists c, j. split_and!; [done..| |by eapply Hprop].
  by apply sameIdentity_spec in Hs as [? _].
Qed.
End publication.

(** ** Gateway configuration *)

Section snapshot.
Context `{Codec} `{AddressCodec} (source : SourceReader) (secrets : GenerationRequest → result GeneratedDelta).
Context (T : string).

(** Types without a generator of their own, and without state of their own *)
Definition snapshotType : Prop :=
  T ∉ ["" ; AddressType; WorkloadType; WorkloadAuthorizationType; TrafficPolicyType; SandboxType;
       SecretType; ExtensionConfigurationType].

Definition ownIdentity (scope : ClientScope) (i : Identity) : bool :=
  scopeAllows scope (mkResource (mkKey T "") "" None [] "" (id_Facts i)).

(** The gateway's resources have distinct wire names, and no resource is subscribed by
    its key alone. *)
Definition snapshot_selectable (scope : ClientScope) (view : SubscriptionView) (n : ResourceSet) : Prop :=
  (∀ a b, contains n T a → contains n T b → scopeAllows scope a = true → scopeAllows scope b = true →
     XDSName a = XDSName b → a = b)
  ∧ (sv_wildcard view = false → ∀ r, contains n T r → scopeAllows scope r = true →
       Name (Key r) ∈ sv_names view → allows view r = true).

#[local] Instance snapshot_selector : Selector := {|
  sees scope view _ r := scopeAllows scope r && allows view r;
  sees_identity scope := Some (ownIdentity scope);
  selectable := snapshot_selectable
|}.

Lemma allows_spec view r :
  ssorted (sv_names view) →
  allows view r = true ↔ sv_wildcard view = true ∨ XDSName r ∈ sv_names view
    ∨ ∃ a, a ∈ Aliases r ∧ a ∈ sv_names view.
Proof.
  intros Hs. assert (∀ x, containsSorted (sv_names view) x = true ↔ x ∈ sv_names view) as Hc.
  { intros x. apply containsSorted_spec. by apply ssorted_sorted. }
  unfold allows. rewrite !orb_true_iff, existsb_exists_elem, Hc. setoid_rewrite Hc. tauto.
Qed.

Lemma allows_view v v' r :
  sv_wildcard v = sv_wildcard v' → sv_names v = sv_names v' → allows v r = allows v' r.
Proof. intros E1 E2. unfold allows. by rewrite E1, E2. Qed.

Lemma scopeAllows_facts scope a b :
  TypeURL (Key a) = TypeURL (Key b) → cloneResourceFacts (Facts a) = cloneResourceFacts (Facts b) →
  scopeAllows scope a = scopeAllows scope b.
Proof.
  intros Ht E. unfold cloneResourceFacts in E. injection E as _ _ _ _ _ _ E1 E2.
  unfold scopeAllows. by rewrite Ht, E1, E2.
Qed.

Lemma scopeAllows_owner scope r :
  scopeAllows scope r = true → GatewayOwner (Facts r) = cs_GatewayKey scope ∧ cs_GatewayKey scope ≠ "".
Proof.
  unfold scopeAllows. case_decide as Hd; [done|]. intros _.
  destruct (decide (GatewayOwner (Facts r) = cs_GatewayKey scope)) as [E|]; [|tauto].
  split; [done|]. rewrite <-E. tauto.
Qed.

(** Every resource the scope owns is listed for its gateway. *)
Lemma elem_of_owned n scope r :
  set_ok n → scopeAllows scope r = true →
  r ∈ ListResourcesOwnedByGateway n T (cs_GatewayKey scope) ↔ contains n T r.
Proof.
  intros Hn [E Hne]%scopeAllows_owner.
  rewrite (proj1 (listByFact_spec n T resourceFactGatewayOwner _ Hn Hne)), gateway_fact by done. tauto.
Qed.

Lemma elem_of_selectGeneric n scope names r :
  set_ok n →
  r ∈ selectGeneric scope n T names ↔
  contains n T r ∧ scopeAllows scope r = true
  ∧ match names with
    | Some l => XDSName r ∈ l ∨ (∃ a, a ∈ Aliases r ∧ a ∈ l) ∨ Name (Key r) ∈ l
    | None => True
    end.
Proof.
  intros Hn.
  assert (∀ l, (∀ x, x ∈ l → x ∈ ListResourcesOwnedByGateway n T (cs_GatewayKey scope)) →
    r ∈ filterScope scope l ↔ r ∈ l ∧ scopeAllows scope r = true) as Hf.
  { intros l Hl. unfold filterScope. rewrite elem_of_orderedUnique, list_elem_of_filter; [tauto|].
    apply (contains_coherent n T). intros x [Hs Hx]%list_elem_of_filter.
    apply (elem_of_owned n scope x Hn Hs). by apply Hl. }
  unfold selectGeneric. destruct names as [l|].
  - rewrite Hf by (by intros x [_ ?]%list_elem_of_filter). rewrite list_elem_of_filter.
    assert (resourceNamesMatch r (λ n, bool_decide (n ∈ l)) = true ↔
      XDSName r ∈ l ∨ (∃ a, a ∈ Aliases r ∧ a ∈ l) ∨ Name (Key r) ∈ l) as ->.
    { unfold resourceNamesMatch. rewrite !orb_true_iff, existsb_exists_elem, !bool_decide_eq_true.
      setoid_rewrite bool_decide_eq_true. tauto. }
    split; [intros [[? Hin] Hs]|intros (Hc & Hs & ?)]; split_and!; try done; by apply (elem_of_owned n scope).
  - rewrite Hf by done. split; [intros [Hin Hs]|intros (Hc & Hs & _)]; split_and!; try done;
      by apply (elem_of_owned n scope).
Qed.

Lemma snapshot_generic n scope view r :
  set_ok n → ssorted (sv_names view) → snapshot_selectable scope view n →
  r ∈ selectGeneric scope n T (selectionNames view) ↔ selects T scope view n r.
Proof.
  intros Hn Hs [_ Hkey]. rewrite elem_of_selectGeneric by done. unfold selects. cbn. unfold selectionNames.
  rewrite andb_true_iff, allows_spec by done. destruct (sv_wildcard view) eqn:Hw; [tauto|].
  split; [|naive_solver]. intros (Hc & Hsc & Hn'). split; [done|]. split; [done|]. right.
  destruct Hn' as [?|[?|Hk]]; [by left|by right|].
  apply (Hkey eq_refl r Hc Hsc), allows_spec in Hk as [?|?]; [congruence|done|done].
Qed.

Lemma snapshot_laws :
  snapshotType → SelectorLaws T (serverGenerate source secrets None).
Proof.
  unfold snapshotType. rewrite !not_elem_of_cons. intros (N1 & N2 & HW & N4 & N5 & N6 & N7 & N8 & _).
  assert (∀ request, gr_TypeURL request = T → serverGenerate source secrets None request
    = Ok (if gr_Full request then generateSnapshotDiff request else generateSnapshotIncremental request)) as Hgen.
  { intros request E. unfold serverGenerate. rewrite E. rewrite !decide_False by tauto.
    unfold SnapshotGenerate. by rewrite E, bool_decide_eq_true_2. }
  constructor.
  - intros scope v v' n r E1 E2. cbn. by rewrite (allows_view v v').
  - intros scope v v' n E1 E2 [S1 S2]. split; [done|]. intros Hw r. rewrite <-E2, <-(allows_view v v') by done.
    apply S2. congruence.
  - intros scope i j [_ Hf]%sameIdentity_spec. cbn. unfold ownIdentity. intros <-. by apply scopeAllows_facts.
  - intros scope v n a b _ [Hu _] [Ha [Sa _]%andb_true_iff] [Hb [Sb _]%andb_true_iff]. auto.
  - intros request E1 E2 [Hn _] Hs Hsel. rewrite Hgen, E2 by done. eexists. split; [done|].
    set (target := selectedMap (selectGeneric (gr_Scope request) (gr_Snapshot request) (gr_TypeURL request)
      (selectionNames (gr_Subscription request)))).
    assert (converges (sv_sent (gr_Subscription request)) (generateSnapshotDiff request) target
      ∧ plain_delta (generateSnapshotDiff request)) as [Hc Hp].
    { unfold generateSnapshotDiff. fold target. case_decide; (split; [|by repeat split]).
      - apply diffSelected_converges, selectedMap_named.
      - apply diffResourceSelection_converges; [apply selectedMap_named|]. intros x r Hr. rewrite Hr.
        by destruct (resourceNamesMatch _ _). }
    split; [done|]. exists target. split; [done|].
    assert (∀ r, r ∈ selectGeneric (gr_Scope request) (gr_Snapshot request) (gr_TypeURL request)
      (selectionNames (gr_Subscription request)) ↔
      selects T (gr_Scope request) (gr_Subscription request) (gr_Snapshot request) r) as Hin.
    { intros r. rewrite E1. by apply snapshot_generic. }
    intros x r. split.
    + intros [Hr Hx]%selectedMap_elem. by rewrite <-Hin.
    + intros [Hr <-]. apply selectedMap_unique; [|by apply Hin]. intros q Hq%Hin Ex.
      destruct Hsel as [Hu _], Hr as [Hr [Sr _]%andb_true_iff], Hq as [Hq [Sq _]%andb_true_iff]. auto.
  - intros request E1 E2 _. rewrite Hgen, E2 by done. unfold generateSnapshotIncremental.
    unfold snapshotVisible, snapshotInScope. rewrite E1. done.
  - intros scope v before after changes [Hb _] [Ha _] Hp Hs _ _. split.
    + intros r [Hr Hv] Hno. destruct (published_appears before after changes Hb Ha Hp T r Hr) as (c & Hc & _ & _ & Hnew).
      { intros Hr'. apply Hno. by split. }
      apply (dependency_announced before after changes T None r None); [done|apply Hr|].
      eapply pd_change; [done|]. unfold changeResources. rewrite Hnew, elem_of_app. right. left.
    + intros r [Hr Hv] Hno. destruct (published_vanishes before after changes Hb Ha Hp T r Hr) as (c & Hc & _ & Hold & _).
      { intros Hr'. apply Hno. by split. }
      destruct (dependency_announced before after changes T (Some (ownIdentity scope)) r None) as [_ Hn];
        [done|apply Hr| |].
      { eapply pd_change; [done|]. unfold changeResources. rewrite Hold, elem_of_app. left. left. }
      apply Hn.
      * intros i j [_ Hf]%sameIdentity_spec. cbn. unfold ownIdentity. intros <-. by apply scopeAllows_facts.
      * cbn. unfold ownIdentity. cbn in Hv. apply andb_true_iff in Hv as [<- _]. apply scopeAllows_facts; [|done].
        cbn. symmetry. apply Hr.
  - by intros scope v n r _ [_ [? _]%andb_true_iff].
  - intros scope i name _. cbn. unfold ownIdentity. intros <-. by apply scopeAllows_facts.
  - intros scope n w0 w request w' view rest _ _ _ _ _ _ _. unfold demandReconciliationView.
    assert (demandSubscriptionView n T (dr_Subscribe request) = None) as ->.
    { unfold demandSubscriptionView, demandLookupType. case_decide; [done|]. by rewrite !decide_False by tauto. }
    case_decide; [done|]. rewrite (bool_decide_eq_false_2 (T = TrafficPolicyType)) by done. cbn [andb].
    by rewrite (bool_decide_eq_true_2 (T ≠ WorkloadType)) by done.
  - done.
Qed.
End snapshot.

(** ** Traffic policies *)

Section policy.
Context `{Codec} `{AddressCodec} (source : SourceReader) (secrets : GenerationRequest → result GeneratedDelta).

Definition policySees (scope : ClientScope) (view : SubscriptionView) (n : ResourceSet) (r : Resource) : bool :=
  match trafficPolicyWorkloadQuery scope with
  | None => false
  | Some query => allows view r && policyVisible query n r
  end.

(** The scope is one the index answers, policies have distinct wire names, and nobody
    subscribes to the empty name. *)
Definition policy_selectable (scope : ClientScope) (view : SubscriptionView) (n : ResourceSet) : Prop :=
  scope_ok scope ∧ ("" ∉ sv_names view)
  ∧ ∀ a b, contains n TrafficPolicyType a → contains n TrafficPolicyType b → XDSName a = XDSName b → a = b.

#[local] Instance policy_selector : Selector := {|
  sees := policySees;
  sees_identity _ := None;
  selectable := policy_selectable
|}.

Lemma trafficPolicyWorkloadQuery_ok scope q :
  scope_ok scope → trafficPolicyWorkloadQuery scope = Some q → query_ok q ∧ unreferenced q.
Proof.
  intros Hs. unfold trafficPolicyWorkloadQuery. destruct (gatewayClass (cs_Class scope)).
  - intros [= <-]. by split; [split|repeat split].
  - intros Hq. split; [by apply Hs|by eapply workloadScopeQuery_unreferenced].
Qed.

(** A workload of the query that refers to the policy *)
Definition policy_referrer (q : WorkloadQuery) (n : ResourceSet) (name : string) (a : Resource)
    (w : WorkloadResourceFacts) : Prop :=
  contains n AddressType a ∧ rf_Workload (Facts a) = Some w ∧ Matches q (Some w) = true
  ∧ name ∈ wf_TrafficPolicyRefs w.

Lemma policyVisible_spec q n r :
  set_ok n → query_ok q → unreferenced q → blank (Name (Key r)) = false →
  policyVisible q n r = true ↔ ∃ a w, policy_referrer q n (Name (Key r)) a w.
Proof.
  intros Hn Hq Hu Hb. unfold policyVisible.
  rewrite (HasWorkload_narrowed n AddressType q _ (λ w, Name (Key r) ∈ wf_TrafficPolicyRefs w)); [|done..| |].
  - setoid_rewrite elem_of_ListWorkloads; [|done..]. unfold policy_referrer. split.
    + intros (a & w & (w' & Hc & Hw & Hm) & Hw' & Hin). exists a, w. split_and!; congruence.
    + intros (a & w & Hc & Hw & Hm & Hin). exists a, w. split_and!; eauto.
  - by apply policyReferenceQuery_ok.
  - intros w. apply policyReferenceQuery_Matches; [done|]. by apply blank_nonempty.
Qed.

(** Full selection picks exactly the policies incremental generation would. *)
Lemma selectTrafficPolicyResources_spec n scope view x r :
  served TrafficPolicyType n → ssorted (sv_names view) → policy_selectable scope view n →
  selectTrafficPolicyResources scope n view !! x = Some r ↔
  selects TrafficPolicyType scope view n r ∧ XDSName r = x.
Proof.
  intros [Hn Hserved] Hs (Hscope & Hempty & Huniq). unfold selectTrafficPolicyResources, selects. cbn. unfold policySees.
  destruct (trafficPolicyWorkloadQuery scope) as [q|] eqn:Hq; [|rewrite lookup_empty; naive_solver].
  destruct (trafficPolicyWorkloadQuery_ok scope q Hscope Hq) as [Hqok Hu].
  assert (∀ l, (∀ p, p ∈ l ↔ contains n TrafficPolicyType p ∧ allows view p && policyVisible q n p = true) →
    selectedMap l !! x = Some r ↔
    (contains n TrafficPolicyType r ∧ allows view r && policyVisible q n r = true) ∧ XDSName r = x) as Hsel.
  { intros l Hl. split.
    - intros [Hr Hx]%selectedMap_elem. by rewrite <-Hl.
    - intros [Hr <-]. apply selectedMap_unique; [|by apply Hl]. intros p [Hp _]%Hl E. apply Huniq; [done|apply Hr|done]. }
  assert (∀ p, contains n TrafficPolicyType p → blank (Name (Key p)) = false) as Hb.
  { intros p Hp. by eapply validateResource_name, contains_valid. }
  destruct (sv_wildcard view) eqn:Hw; apply Hsel; intros p; rewrite andb_true_iff.
  - rewrite list_elem_of_filter, list_elem_of_omap.
    setoid_rewrite elem_of_elements. setoid_rewrite elem_of_list_to_set. setoid_rewrite list_elem_of_bind.
    setoid_rewrite elem_of_ListWorkloads; [|done..]. split.
    + intros [Ha (name & (a & Hin & w & Hc & Hf & Hm) & Hg)]. rewrite Hf in Hin.
      assert (contains n TrafficPolicyType p ∧ Name (Key p) = name) as [Hp E].
      { pose proof (Get_Key n _ _ (set_ok_shape_ok n Hn) Hg) as Hk. unfold contains. by rewrite Hk. }
      split_and!; [done|done|]. apply policyVisible_spec; [done..|auto|]. exists a, w. by rewrite E.
    + intros (Hp & Ha & Hv). apply policyVisible_spec in Hv as (a & w & Hc & Hf & Hm & Hin); [|done..|auto].
      split; [done|]. exists (Name (Key p)). split; [exists a; rewrite Hf; eauto|].
      destruct Hp as [Ht Hg]. destruct (Key p) as [t name]. cbn in *. by subst.
  - rewrite list_elem_of_filter, list_elem_of_bind. split.
    + intros [[Ha Hv] (name & Hin & Hnm)]. split; [|done].
      assert (name ≠ "") as Hne by (intros ->; done).
      by apply (proj1 (Lookup_spec n TrafficPolicyType name Hn Hne)) in Hin as [? _].
    + intros (Hp & Ha & Hv). split; [done|]. apply allows_spec in Ha as [Ha|[Ha|(al & Hal & Ha)]]; [congruence| | |done].
      * exists (XDSName p). split; [|done].
        apply (proj1 (Lookup_spec n TrafficPolicyType _ Hn (proj1 (Hserved p Hp)))). auto.
      * exists al. split; [|done]. assert (al ≠ "") as Hne by (intros ->; done).
        apply (proj1 (Lookup_spec n TrafficPolicyType al Hn Hne)). auto.
Qed.

Lemma diffSubscribed_plain view selected names : plain_delta (diffSubscribed view selected names).
Proof.
  unfold diffSubscribed. case_decide; [by repeat split|].
  assert (∀ l d a b, plain_delta d → plain_delta (foldl (resendName selected) (d, a, b) l).1.1) as Hf.
  { induction l as [|x l IH]; intros d a b Hd; [done|]. cbn [foldl]. unfold resendName at 2.
    destruct (decide (x = "*")); [by apply IH|].
    destruct (selected !! x); case_decide; by apply IH. }
  apply Hf. by repeat split.
Qed.

(** A workload that starts or stops to refer to a policy announces the policy. *)
Section referrers.
Context (before after : ResourceSet) (changes : list ResourceChange).
Context (Hb : set_ok before) (Ha : set_ok after) (Hp : published before after changes).
Context (q : WorkloadQuery) (r : Resource) (Hname : blank (Name (Key r)) = false).

Lemma referrer_dependency c a w n :
  c ∈ changes → a ∈ changeResources c → rc_Key c = Key a → sameSelection c = false → n ∈ [before; after] →
  set_ok n → policy_referrer q n (Name (Key r)) a w → contains n TrafficPolicyType r →
  publication_dependency before after changes r None.
Proof.
  intros Hc Hin Hk Hsame Hn Hok ([Ht _] & Hw & _ & Href) Hr.
  eapply pd_dependency; [exact Hc|done|]. eapply ch_address; [by rewrite Hk|done|exact Hn|].
  eapply ad_workload; [done|]. eapply wd_policy; [done|].
  apply (proj1 (Lookup_spec n TrafficPolicyType _ Hok (blank_nonempty _ Hname))).
  auto.
Qed.

Lemma same_workload c o a :
  rc_Old c = Some o → rc_New c = Some a → sameSelection c = true → rf_Workload (Facts o) = rf_Workload (Facts a).
Proof.
  intros Ho Hn. unfold sameSelection. rewrite Ho, Hn.
  intros [[Hf%Facts_Equal_spec _]%andb_true_iff _]%andb_true_iff.
  unfold cloneResourceFacts in Hf. by injection Hf.
Qed.

Lemma referrer_appears a w :
  policy_referrer q after (Name (Key r)) a w → ¬ (∃ a w, policy_referrer q before (Name (Key r)) a w) →
  contains after TrafficPolicyType r → publication_dependency before after changes r None.
Proof.
  intros Href Hno Hr. pose proof Href as (Hc & Hw & Hm & Hin).
  destruct (published_appears before after changes Hb Ha Hp AddressType a Hc) as (c & Hch & Hk & Hold & Hnew).
  { intros Hc'. apply Hno. by exists a, w. }
  eapply (referrer_dependency c a w after); [done| |done| |right; left|done..].
  { unfold changeResources. rewrite Hnew, elem_of_app. right. left. }
  destruct (sameSelection c) eqn:Hs; [|done]. exfalso. apply Hno.
  destruct (Get before (Key a)) as [o|] eqn:Ho; [|by unfold sameSelection in Hs; rewrite Hold in Hs].
  exists o, w. pose proof (Get_Key before _ _ (set_ok_shape_ok before Hb) Ho) as Ek.
  split_and!; [split; rewrite Ek; [apply Hc|done]| |done|done].
  by rewrite (same_workload c o a).
Qed.

Lemma referrer_vanishes a w :
  policy_referrer q before (Name (Key r)) a w → ¬ (∃ a w, policy_referrer q after (Name (Key r)) a w) →
  contains before TrafficPolicyType r → publication_dependency before after changes r None.
Proof.
  intros Href Hno Hr. pose proof Href as (Hc & Hw & Hm & Hin).
  destruct (published_vanishes before after changes Hb Ha Hp AddressType a Hc) as (c & Hch & Hk & Hold & Hnew).
  { intros Hc'. apply Hno. by exists a, w. }
  eapply (referrer_dependency c a w before); [done| |done| |left|done..].
  { unfold changeResources. rewrite Hold, elem_of_app. left. left. }
  destruct (sameSelection c) eqn:Hs; [|done]. exfalso. apply Hno.
  destruct (Get after (Key a)) as [o|] eqn:Ho; [|by unfold sameSelection in Hs; rewrite Hold, Hnew in Hs].
  exists o, w. pose proof (Get_Key after _ _ (set_ok_shape_ok after Ha) Ho) as Ek.
  split_and!; [split; rewrite Ek; [apply Hc|done]| |done|done].
  by rewrite <-(same_workload c a o).
Qed.
End referrers.

Lemma policy_notifies scope v before after changes :
  served TrafficPolicyType before → served TrafficPolicyType after → published before after changes →
  policy_selectable scope v before → policy_selectable scope v after →
  notifies None (selects TrafficPolicyType scope v before) (selects TrafficPolicyType scope v after)
    (Candidates (updateBetween before after changes) TrafficPolicyType).
Proof.
  intros [Hb _] [Ha _] Hp (Hscope & _) _. unfold selects. cbn. unfold policySees.
  destruct (trafficPolicyWorkloadQuery scope) as [q|] eqn:Hq; [|split; naive_solver].
  destruct (trafficPolicyWorkloadQuery_ok scope q Hscope Hq) as [Hqok Hu].
  assert (∀ n r, set_ok n → contains n TrafficPolicyType r → blank (Name (Key r)) = false) as Hblank.
  { intros n r Hn Hr. by eapply validateResource_name, contains_valid. }
  assert (∀ n r, set_ok n → blank (Name (Key r)) = false →
    policyVisible q n r = true ↔ ∃ a w, policy_referrer q n (Name (Key r)) a w) as Hvis.
  { intros n r Hn Hr. by apply policyVisible_spec. }
  split; intros r [Hr [Hal Hv]%andb_true_iff] Hno;
    assert (blank (Name (Key r)) = false) as Hbl by (eapply Hblank; [|exact Hr]; done).
  - apply (dependency_announced before after changes TrafficPolicyType None r None); [done|apply Hr|].
    destruct (decide (contains before TrafficPolicyType r)) as [Hr'|Hr'].
    + apply Hvis in Hv as (a & w & Href); [|done..].
      apply (referrer_appears before after changes Hb Ha Hp q r Hbl a w); [done| |done].
      rewrite <-Hvis by done. intros Hv'. apply Hno. by rewrite Hal, Hv'.
    + destruct (published_appears before after changes Hb Ha Hp _ r Hr Hr') as (c & Hc & _ & _ & Hnew).
      eapply pd_change; [done|]. unfold changeResources. rewrite Hnew, elem_of_app. right. left.
  - destruct (dependency_announced before after changes TrafficPolicyType None r None) as [_ Hn];
      [done|apply Hr| |by apply Hn].
    destruct (decide (contains after TrafficPolicyType r)) as [Hr'|Hr'].
    + apply Hvis in Hv as (a & w & Href); [|done..].
      apply (referrer_vanishes before after changes Hb Ha Hp q r Hbl a w); [done| |done].
      rewrite <-Hvis by done. intros Hv'. apply Hno. by rewrite Hal, Hv'.
    + destruct (published_vanishes before after changes Hb Ha Hp _ r Hr Hr') as (c & Hc & _ & Hold & _).
      eapply pd_change; [done|]. unfold changeResources. rewrite Hold, elem_of_app. left. left.
Qed.

(** ** Reconciling single policies *)

Lemma diffSubscribed_removed view selected names x :
  x ∈ gd_Removed (diffSubscribed view selected names) → x ∈ SentNames view ∨ x ∈ names.
Proof.
  unfold diffSubscribed. case_decide.
  { cbn. intros [_ ?]%list_elem_of_filter. by left. }
  assert (∀ l d a b, x ∈ gd_Removed (foldl (resendName selected) (d, a, b) l).1.1 →
    x ∈ gd_Removed d ∨ x ∈ l) as Hf.
  { induction l as [|y l IH]; intros d a b; [by left|]. cbn [foldl]. rewrite elem_of_cons. unfold resendName at 2.
    destruct (decide (y = "*")); [intros [?|?]%IH; auto|].
    destruct (selected !! y); case_decide; (intros [Hx|?]%IH; [|by auto]); [by auto..|].
    cbn in Hx. apply elem_of_app in Hx as [?|?%list_elem_of_singleton]; auto. }
  intros [Hx|?]%Hf; [|by right]. cbn in Hx. apply list_elem_of_filter in Hx as [_ ?]. by left.
Qed.

(** Names that leave nothing to reconcile name one policy, which has no other names. *)
Lemma forgotten_spec n view x r :
  set_ok n → x ≠ "" → forgotten n TrafficPolicyType view x = true →
  contains n TrafficPolicyType r → XDSName r = x ∨ x ∈ Aliases r →
  XDSName r = x ∧ Aliases r = [].
Proof.
  intros Hn Hx Hf Hr Hor. unfold forgotten in Hf. apply andb_true_iff in Hf as [_ Hf].
  assert (r ∈ Lookup n TrafficPolicyType x) as Hin.
  { apply (proj1 (Lookup_spec n TrafficPolicyType x Hn Hx)). tauto. }
  destruct (Lookup n TrafficPolicyType x) as [|q [|]]; [done| |done].
  apply list_elem_of_singleton in Hin as ->.
  by apply andb_true_iff in Hf as [?%bool_decide_eq_true ?%bool_decide_eq_true%length_zero_iff_nil].
Qed.

Section demand.
Context (scope : ClientScope) (n : ResourceSet) (w0 w : watchState) (request : DeltaRequest).
Context (view : SubscriptionView).
Context (Hstarted : ws_started w0 = true) (Hwild : ws_wildcard w = false).
Context (Hcore : watch_core w = watch_core (applySubscription w0 request).1).
Context (Hsent : ws_sent w = ws_sent (applySubscription w0 request).1).
Context (Hn : served TrafficPolicyType n).
Context (Hsel : policy_selectable scope (newSubscriptionView w) n).
Context (Hsel0 : policy_selectable scope (newSubscriptionView w0) n).
Context (Hview : demandReconciliationView n TrafficPolicyType scope w (dr_Subscribe request)
  (dr_Unsubscribe request) = (w, Some view)).

(** The view asks for the subscribed names, and the unsubscribed ones are forgotten. *)
Lemma demand_names :
  sv_wildcard view = false ∧ sv_sent view = ∅ ∧ ssorted (sv_names view)
  ∧ (∀ x, x ∈ sv_names view ↔ x ∈ dr_Subscribe request)
  ∧ (∀ x, x ∈ dr_Subscribe request → x ≠ "*")
  ∧ ∀ x, x ∈ dr_Unsubscribe request → forgotten n TrafficPolicyType view x = true.
Proof.
  assert (∀ names v, demandSubscriptionView n TrafficPolicyType names = Some v →
    v = mkView false (sortedNames (list_to_set names)) ∅ ∧ ∀ x, x ∈ names → x ≠ "*") as Hd.
  { intros names v. unfold demandSubscriptionView. case_decide; [done|].
    change (demandLookupType TrafficPolicyType) with (Some TrafficPolicyType). cbv beta match.
    destruct (forallb (demandable n TrafficPolicyType TrafficPolicyType) names) eqn:Hf; [|done].
    intros [= <-]. split; [done|]. intros x Hx ->.
    rewrite forallb_forall in Hf. specialize (Hf "*" ltac:(by apply list_elem_of_In)).
    unfold demandable in Hf. by rewrite bool_decide_eq_true_2 in Hf. }
  assert (∀ names x, x ∈ sortedNames (list_to_set names) ↔ x ∈ names) as Hsort.
  { intros names x. unfold sortedNames. by rewrite elem_of_sort_strings, elem_of_elements, elem_of_list_to_set. }
  unfold demandReconciliationView in Hview.
  destruct (decide (length (dr_Unsubscribe request) = 0)) as [Hz|Hz].
  { injection Hview as Hv. destruct (Hd _ _ Hv) as [-> Hs]. apply length_zero_iff_nil in Hz. rewrite Hz.
    split_and!; [done|done|apply ssorted_sortedNames|apply Hsort|done|by intros x ?%elem_of_nil]. }
  rewrite (bool_decide_eq_true_2 (TrafficPolicyType = TrafficPolicyType)) in Hview by done. cbn [andb] in Hview.
  rewrite (bool_decide_eq_true_2 (TrafficPolicyType ≠ WorkloadType)) in Hview by done. cbn [orb] in Hview.
  destruct (demandSubscriptionView n TrafficPolicyType (dr_Subscribe request)) as [v|] eqn:Hv.
  - rewrite orb_true_r in Hview. cbn [default from_option id] in Hview.
    destruct (forallb _ _) eqn:Hf; [|done]. injection Hview as <-. destruct (Hd _ _ Hv) as [-> Hs].
    rewrite forallb_forall in Hf.
    split_and!; [done|done|apply ssorted_sortedNames|apply Hsort|done|].
    intros x Hx. apply Hf. by apply list_elem_of_In.
  - rewrite orb_false_r in Hview. destruct (bool_decide _) eqn:Hl; [|done].
    cbn [default from_option id] in Hview. destruct (forallb _ _) eqn:Hf; [|done]. injection Hview as <-.
    apply bool_decide_eq_true, length_zero_iff_nil in Hl. rewrite Hl. rewrite forallb_forall in Hf.
    split_and!; [done|done|constructor|done|by intros x ?%elem_of_nil|].
    intros x Hx. apply Hf. by apply list_elem_of_In.
Qed.

Lemma view_names v x : x ∈ sv_names (newSubscriptionView v) ↔ x ∈ ws_names v.
Proof. cbn. unfold sortedNames. by rewrite elem_of_sort_strings, elem_of_elements. Qed.

Lemma demand_subscription x :
  ws_wildcard w0 = false
  ∧ (x ∈ ws_names w ↔ (x ∈ ws_names w0 ∨ x ∈ dr_Subscribe request) ∧ x ∉ dr_Unsubscribe request)
  ∧ ws_sent w !! x = if decide (x ∈ dr_Unsubscribe request) then None else ws_sent w0 !! x.
Proof.
  destruct demand_names as (_ & _ & _ & _ & Hs & Hu).
  assert (∀ x, x ∈ dr_Unsubscribe request → x ≠ "*") as Hu'.
  { intros y Hy ->. specialize (Hu _ Hy). unfold forgotten in Hu. by rewrite bool_decide_eq_true_2 in Hu. }
  destruct (applySubscription_started w0 request Hstarted) as (A1 & A2 & A3).
  pose proof Hcore as E. unfold watch_core in E. injection E as E1 E _ _.
  rewrite E, Hsent, A1, A2. split_and!.
  - rewrite <-Hwild, E1. symmetry. apply A3; intros Hin; [by apply (Hs "*")|by apply (Hu' "*")].
  - specialize (Hs x). specialize (Hu' x). tauto.
  - destruct (decide (x ∈ dr_Unsubscribe request)) as [Hx|Hx];
      [rewrite decide_True by auto|rewrite decide_False by tauto]; done.
Qed.

Lemma view_selects v r :
  ssorted (sv_names v) → sv_wildcard v = false →
  selects TrafficPolicyType scope v n r ↔
  ∃ q, trafficPolicyWorkloadQuery scope = Some q ∧ contains n TrafficPolicyType r ∧ policyVisible q n r = true
    ∧ (XDSName r ∈ sv_names v ∨ ∃ a, a ∈ Aliases r ∧ a ∈ sv_names v).
Proof.
  intros Hs Hw. unfold selects. cbn. unfold policySees.
  destruct (trafficPolicyWorkloadQuery scope) as [q|]; [|naive_solver].
  rewrite andb_true_iff, allows_spec by done. rewrite Hw. naive_solver.
Qed.

(** A policy the client keeps is one it asked for now or before, by a name it keeps. *)
Lemma demand_kept r :
  wants TrafficPolicyType scope w n r →
  selects TrafficPolicyType scope view n r
  ∨ wants TrafficPolicyType scope w0 n r ∧ XDSName r ∉ dr_Unsubscribe request.
Proof.
  intros Hr. destruct demand_names as (Hw & _ & Hs & Hv & _ & Hu).
  destruct Hsel as (_ & Hempty & _).
  apply view_selects in Hr as (q & Hq & Hc & Hvis & Hnames); [|apply ssorted_sortedNames|done].
  assert (∀ x, x ∈ ws_names w → x ∈ dr_Subscribe request ∨ x ∈ ws_names w0) as Hold.
  { intros x Hx. apply (demand_subscription x) in Hx. tauto. }
  assert (XDSName r ∉ dr_Unsubscribe request) as Hx.
  { intros Hx. destruct (forgotten_spec n view (XDSName r) r) as [_ Ha]; [apply Hn|by apply Hn|auto|done|by left|].
    destruct Hnames as [Hin|(a & Ha' & _)]; [|rewrite Ha in Ha'; by apply elem_of_nil in Ha'].
    apply view_names, (demand_subscription (XDSName r)) in Hin. tauto. }
  assert (selects TrafficPolicyType scope view n r ∨ wants TrafficPolicyType scope w0 n r) as [?|?]; [|by left|by right].
  unfold wants. destruct Hnames as [Hin|(a & Ha & Hin)]; apply view_names, Hold in Hin as [Hin|Hin].
  - left. apply view_selects; [done..|]. exists q. rewrite Hv. auto.
  - right. apply view_selects; [apply ssorted_sortedNames|by apply (demand_subscription "")|].
    exists q. rewrite view_names. auto.
  - left. apply view_selects; [done..|]. exists q. setoid_rewrite Hv. eauto 10.
  - right. apply view_selects; [apply ssorted_sortedNames|by apply (demand_subscription "")|].
    exists q. setoid_rewrite view_names. eauto 10.
Qed.

(** The client keeps a policy whose wire name it did not give up. *)
Lemma demand_live r :
  wants TrafficPolicyType scope w0 n r → XDSName r ∉ dr_Unsubscribe request →
  wants TrafficPolicyType scope w n r.
Proof.
  intros Hr Hx. destruct demand_names as (_ & _ & _ & _ & _ & Hu). destruct Hsel0 as (_ & Hempty & _).
  apply view_selects in Hr as (q & Hq & Hc & Hvis & Hnames);
    [|apply ssorted_sortedNames|by apply (demand_subscription "")].
  apply view_selects; [apply ssorted_sortedNames|done|]. exists q. split_and!; [done..|].
  destruct Hnames as [Hin|(a & Ha & Hin)]; rewrite view_names in Hin.
  - left. apply view_names, demand_subscription. auto.
  - right. exists a. split; [done|]. apply view_names, demand_subscription. split; [by left|].
    intros Hau. destruct (forgotten_spec n view a r) as [E _]; [apply Hn| |auto|done|by right|congruence].
    intros ->. by apply Hempty, view_names.
Qed.

Lemma demand_selected r :
  selects TrafficPolicyType scope view n r → wants TrafficPolicyType scope w n r.
Proof.
  intros Hr. destruct demand_names as (Hw & _ & Hs & Hv & _ & Hu).
  assert (∀ x, x ∈ sv_names view → x ∈ ws_names w) as Hin.
  { intros x Hx. apply (demand_subscription x). split; [right; by apply Hv|]. intros Hxu.
    specialize (Hu x Hxu). unfold forgotten in Hu. rewrite !andb_true_iff, !negb_true_iff in Hu.
    destruct Hu as [[_ Hno] _]. rewrite (proj2 (containsSorted_spec view (ssorted_sorted _ Hs) x)) in Hno; done. }
  apply view_selects in Hr as (q & Hq & Hc & Hvis & Hnames); [|done..].
  apply view_selects; [apply ssorted_sortedNames|done|]. exists q. split_and!; [done..|].
  destruct Hnames as [?|(a & ? & ?)]; [left|right; exists a; split; [done|]]; by apply view_names, Hin.
Qed.

Lemma demand_reconciles rest :
  let d := diffSubscribed view (selectTrafficPolicyResources scope n view) (dr_Subscribe request) in
  stale_in None (wants TrafficPolicyType scope w0 n) rest (ws_sent w0) →
  stale_in None (wants TrafficPolicyType scope w n) rest (applied (ws_sent w) d).
Proof.
  intros d [H1 H2]. destruct demand_names as (Hw & Hse & Hs & Hv & _ & Hu).
  assert (policy_selectable scope view n) as Hpv.
  { destruct Hsel as (? & Hempty & ?). split_and!; [done| |done]. intros Hin. apply Hempty, view_names.
    apply (demand_subscription ""). split; [right; by apply Hv|]. intros Hxu. specialize (Hu "" Hxu).
    unfold forgotten in Hu. rewrite !andb_true_iff, !negb_true_iff in Hu. destruct Hu as [[_ Hno] _].
    rewrite (proj2 (containsSorted_spec view (ssorted_sorted _ Hs) "")) in Hno; done. }
  set (target := selectTrafficPolicyResources scope n view) in *.
  assert (∀ x r, target !! x = Some r ↔ selects TrafficPolicyType scope view n r ∧ XDSName r = x) as Ht.
  { intros x r. by apply selectTrafficPolicyResources_spec. }
  assert (converges (sv_sent view) d target) as Hc.
  { apply diffSubscribed_converges. by intros x r [_ ?]%Ht. }
  destruct (converges_names _ _ _ Hc) as [Hnd Hdis]. rewrite Hse in Hc.
  assert (∀ a b, contains n TrafficPolicyType a → contains n TrafficPolicyType b → XDSName a = XDSName b → a = b)
    as Huniq by apply Hsel.
  assert (∀ x, ws_sent w !! x ≠ None → (x ∉ dr_Unsubscribe request) ∧ ws_sent w !! x = ws_sent w0 !! x) as Hold.
  { intros x Hx. rewrite (proj2 (proj2 (demand_subscription x))) in *. by destruct (decide _). }
  split.
  - intros r Hr. destruct (applied_lookup (ws_sent w) d (XDSName r) Hnd) as [A1 A2].
    destruct (demand_kept r Hr) as [Hrv|[Hr0 Hxu]].
    { left. apply A1; [|done]. assert (target !! XDSName r = Some r) as Hr' by (by apply Ht).
      by destruct (cv_complete _ _ _ Hc _ _ Hr'). }
    destruct (decide (XDSName r ∈ XDSName <$> gd_Resources d)) as [(q & E & Hq)%list_elem_of_fmap|Hx].
    { left. rewrite (A1 q Hq) by done. do 2 f_equal. apply Huniq; [|apply Hr|done].
      by apply (cv_selected _ _ _ Hc), Ht in Hq as [[? _] _]. }
    assert (XDSName r ∉ gd_Removed d) as Hxr.
    { intros Hin. pose proof Hin as Hno%(cv_removed _ _ _ Hc). apply diffSubscribed_removed in Hin as [Hin|Hin].
      - unfold SentNames in Hin. rewrite Hse in Hin.
        apply elem_of_sort_strings, elem_of_elements, elem_of_dom in Hin as [? Hin]. by rewrite lookup_empty in Hin.
      - assert (target !! XDSName r = Some r) as Hr'; [|congruence]. apply Ht. split; [|done].
        apply view_selects; [done..|]. unfold wants in Hr0.
        apply view_selects in Hr0 as (qu & ? & ? & ? & _); [|apply ssorted_sortedNames|by apply (demand_subscription "")].
        exists qu. split_and!; [done..|]. left. by apply Hv. }
    rewrite A2, decide_False by done. rewrite (proj2 (proj2 (demand_subscription (XDSName r)))), decide_False by done.
    by apply H1.
  - intros x Hx. destruct (applied_lookup (ws_sent w) d x Hnd) as [A1 A2].
    destruct (decide (x ∈ XDSName <$> gd_Resources d)) as [(q & -> & Hq)%list_elem_of_fmap|Hxn].
    { left. exists q. split; [|done]. apply demand_selected. by apply (cv_selected _ _ _ Hc), Ht in Hq as [? _]. }
    rewrite A2 in Hx by done. destruct (decide (x ∈ gd_Removed d)); [done|].
    destruct (Hold x Hx) as [Hxu E]. rewrite E in Hx. destruct (H2 x Hx) as [(r & Hr & <-)|?]; [|by right].
    left. exists r. split; [|done]. by apply demand_live.
Qed.
End demand.

Lemma policy_laws : SelectorLaws TrafficPolicyType (serverGenerate source secrets None).
Proof.
  assert (∀ request, gr_TypeURL request = TrafficPolicyType →
    serverGenerate source secrets None request = TrafficPolicyGenerate None request) as Hgen.
  { intros request E. unfold serverGenerate. by rewrite E. }
  constructor; [..|done|done| |done].
  - intros scope v v' n r E1 E2. cbn. unfold policySees. by rewrite (allows_view v v').
  - intros scope v v' n E1 E2. cbn. unfold policy_selectable. by rewrite E2.
  - done.
  - intros scope v n a b _ (_ & _ & Hu) [Ha _] [Hb _]. auto.
  - intros request E1 E2 Hn Hs Hsel. rewrite Hgen by done. unfold TrafficPolicyGenerate.
    rewrite bool_decide_eq_true_2, E2 by done. cbn. eexists. split; [done|]. split; [apply diffSubscribed_plain|].
    eexists. split; [apply diffSubscribed_converges|].
    + intros x r Hr. by apply selectTrafficPolicyResources_spec in Hr as [_ ?].
    + intros x r. by apply selectTrafficPolicyResources_spec.
  - intros request E1 E2 Hf. rewrite Hgen by done. unfold TrafficPolicyGenerate.
    by rewrite bool_decide_eq_true_2, E1, E2, Hf.
  - intros scope v before after changes Hb Ha Hp _ Sb Sa. by apply policy_notifies.
  - intros scope n w0 w request w' view rest Hst Hcore Hsent Hw Hn Hsel0 Hsel Hview.
    assert (w' = w) as ->.
    { revert Hview. unfold demandReconciliationView. case_decide; [congruence|].
      rewrite (bool_decide_eq_true_2 (TrafficPolicyType ≠ WorkloadType)) by done. cbn [orb].
      destruct (bool_decide _ && _); congruence. }
    split; [done|]. rewrite Hgen by done. eexists. split; [done|]. split; [apply diffSubscribed_plain|].
    by eapply demand_reconciles.
Qed.
End policy.
