(* ===== verification/Session.v ===== *)
(** * Session: one client's stream from publication to delivery
    (src/pkg/xds/session.go, delta.go)

    A session interleaves the store's publications, its mailbox, the push scheduler and
    the client's requests. For every generator that keeps the contract, a session with
    nothing left to push has sent exactly what its client should have. *)

From S2P Require Import Prelude Identity Resource ResourceIndex ResourceSet SetInvariant SetQueries SetDiff Update Notices Dependencies Scoped Watch Generator Generators Delta Requests Sending Incremental Contract.

(** ** The session *)

(** [enqueueUpdate] without the scheduler: the notice to enqueue, if any watch is
    concerned; [None] is a run-time panic. *)
Definition enqueueUpdate (scope : ClientScope) (snapshot : ResourceSet) (watches : gmap string watchState)
    (update : Update) : option (option Update) :=
  match (if decide (cs_Class scope = ClientDedicatedZTunnel)
         then ForWorkload update (cs_WorkloadUID scope) snapshot else Some update) with
  | None => None
  | Some update =>
      Some (if existsb (λ p : string * watchState, ws_started p.2 && Affects update p.1) (map_to_list watches)
            then Some update else None)
  end.

(** A notice is merged into one that still waits. *)
Definition mergeInto (pending : option Update) (update : Update) : Update :=
  match pending with Some older => Merge older update | None => update end.

(** The store's snapshot, the notices in the subscription's mailbox, in the scheduler,
    and assigned for delivery, and the stream's state *)
Record Session := mkSession {
  se_snapshot : ResourceSet;
  se_mailbox : option Update;
  se_queued : option Update;
  se_assigned : option Update;
  se_stream : Stream
}.

Definition watched (s : Session) (update : Update) : bool :=
  existsb (λ t, Affects update t) (elements (dom (st_watches (se_stream s)))).

(** A client only gives up names it asked for. *)
Definition orderly (st : Stream) (request : DeltaRequest) : Prop :=
  ∀ w, st_watches st !! dr_TypeUrl request = Some w →
  ∀ x, x ∈ dr_Unsubscribe request → x ≠ "*" → x ∈ ws_names w.

Section steps.
Context (generate : GenerationRequest → result GeneratedDelta).
Context (send : DeltaResponse → option string) (scope : ClientScope).

Inductive session_step : Session → Session → Prop :=
  (** The store publishes; it may skip a session that watches nothing affected. *)
| ss_publish n mail queued assigned st n' changes mail' :
    published n n' changes →
    (mail' = Some (mergeInto mail (updateBetween n n' changes))
     ∨ watched (mkSession n mail queued assigned st) (updateBetween n n' changes) = false ∧ mail' = mail) →
    session_step (mkSession n mail queued assigned st) (mkSession n' mail' queued assigned st)
  (** Any other notice of the store *)
| ss_notice n mail queued assigned st update :
    update_ok update →
    session_step (mkSession n mail queued assigned st)
      (mkSession n (Some (mergeInto mail update)) queued assigned st)
  (** The loop takes a notice from the mailbox. *)
| ss_receive n queued assigned st update enqueued :
    enqueueUpdate scope n (st_watches st) update = Some enqueued →
    session_step (mkSession n (Some update) queued assigned st)
      (mkSession n None
         (match enqueued with Some u => Some (mergeInto queued u) | None => queued end) assigned st)
  (** The scheduler assigns the notice. *)
| ss_assign n mail update st :
    session_step (mkSession n mail (Some update) None st) (mkSession n mail None (Some update) st)
  (** The loop pushes it. *)
| ss_push n mail queued update st now st' :
    pushUpdate generate send now scope n st update = Some (st', None) →
    session_step (mkSession n mail queued (Some update) st) (mkSession n mail queued None st')
  (** The loop answers a request. *)
| ss_request n mail queued assigned st now request st' :
    orderly st request →
    handleRequest generate send now st scope n request = (st', None) →
    session_step (mkSession n mail queued assigned st) (mkSession n mail queued assigned st').
End steps.

(** ** Watches of other types *)

Section frames.
Context (generate : GenerationRequest → result GeneratedDelta).
Context (send : DeltaResponse → option string) (now : Z).

Lemma onWatch_frame st t f st' err t' :
  onWatch st t f = (st', err) → t' ≠ t → st_watches st' !! t' = st_watches st !! t'.
Proof.
  unfold onWatch. destruct (st_watches st !! t) as [w|]; [|by intros [= <- _]].
  destruct (f _) as [s e]. intros [= <- _] Hne. cbn. by rewrite lookup_insert_ne.
Qed.

(** Only the type's own watch, and maybe the one of direct Workloads, is served. *)
Lemma generateAndSend_frame st request force ww st' err t :
  generateAndSend generate send now st request force ww = (st', err) →
  t ≠ gr_TypeURL request → (t ≠ WorkloadType ∨ ww = false) → st_watches st' !! t = st_watches st !! t.
Proof.
  unfold generateAndSend. destruct (st_watches st !! gr_TypeURL request) as [w|] eqn:Hw; [|by intros [= <- _]].
  destruct (effectiveRequest w request) as [request'|] eqn:He; [|by intros [= <- _]].
  assert (gr_TypeURL request' = gr_TypeURL request) as Et.
  { unfold effectiveRequest in He. destruct (ws_recovering w); [|by injection He as <-].
    destruct (negb _ && _); [done|]. by injection He as <-. }
  destruct (generate request') as [d|e]; [|by intros [= <- _]].
  set (bindings := bool_decide _ && _ && _ && _). intros Hs Hne Hor.
  destruct (if bindings then onWatch st WorkloadType _ else (st, None)) as [st1 err1] eqn:Hb.
  assert (st_watches st1 !! t = st_watches st !! t) as <-.
  { destruct bindings eqn:Hbi; [|by injection Hb as <- _]. eapply onWatch_frame; [exact Hb|].
    destruct Hor as [?|Hww]; [done|]. subst bindings. rewrite Hww, andb_false_r in Hbi. done. }
  destruct err1; [by injection Hs as <- _|]. eapply onWatch_frame; [exact Hs|]. by rewrite Et.
Qed.

Lemma generateAndSend_one st request force ww st' w :
  gr_TypeURL request ≠ WorkloadType → st_watches st !! gr_TypeURL request = Some w →
  generateAndSend generate send now st request force ww = (st', None) →
  ∃ nonce output s', generateOne generate send now (mkSender w nonce output) request force = (s', None)
    ∧ st_watches st' !! gr_TypeURL request = Some (sd_watch s').
Proof.
  intros Ht Hw. unfold generateAndSend, generateOne. rewrite Hw. cbn [sd_watch].
  destruct (effectiveRequest w request) as [request'|] eqn:He; last first.
  { intros [= <-]. exists (st_nonce st), (st_output st). eexists. by rewrite Hw. }
  assert (gr_TypeURL request' = gr_TypeURL request) as Et.
  { unfold effectiveRequest in He. destruct (ws_recovering w); [|by injection He as <-].
    destruct (negb _ && _); [done|]. by injection He as <-. }
  destruct (generate request') as [d|e]; [|done].
  set (bindings := bool_decide _ && _ && _ && _). intros Hs.
  destruct (if bindings then onWatch st WorkloadType _ else (st, None)) as [st1 err1] eqn:Hb.
  assert (st_watches st1 !! gr_TypeURL request = Some w) as Hw1.
  { rewrite <-Hw. destruct bindings; [|by injection Hb as <- _]. by eapply onWatch_frame. }
  destruct err1; [done|]. unfold onWatch in Hs. rewrite Et, Hw1 in Hs.
  exists (st_nonce st1), (st_output st1).
  destruct (sendGeneratedDelta _ _ _ _ _ _) as [s' e]. injection Hs as <- ->. exists s'. split; [done|].
  cbn. by rewrite lookup_insert_eq.
Qed.

Lemma pushType_frame scope n u st t st' err t' :
  pushType generate send now scope n u st t = (st', err) → t' ≠ t → st_watches st' !! t' = st_watches st !! t'.
Proof.
  unfold pushType. destruct (st_watches st !! t) as [w|]; [|by intros [= <- _]].
  destruct (generateAndSend _ _ _ _ _ _ _) as [st1 err1] eqn:Hg. intros Hs Hne.
  pose proof (generateAndSend_frame _ _ _ _ _ _ t' Hg Hne (or_intror eq_refl)) as <-.
  destruct err1; [by injection Hs as <- _|]. revert Hs. unfold pushPendingConfigs.
  destruct (st_watches st1 !! t) as [w1|]; [|by intros [= <- _]].
  destruct (decide (size (ws_pending w1) = 0)); [by intros [= <- _]|].
  destruct (decide (length (pendingNames w1 t u) = 0)); [by intros [= <- _]|]. intros Hs.
  by apply (generateAndSend_frame _ _ _ _ _ _ t' Hs Hne (or_intror eq_refl)).
Qed.

Lemma pushTypes_frame scope n u st types st' err t :
  t ∉ types → pushTypes generate send now scope n u st types = (st', err) →
  st_watches st' !! t = st_watches st !! t.
Proof.
  revert st. induction types as [|t0 types IH]; intros st; cbn [pushTypes]; [by intros _ [= <- _]|].
  intros [Hne Ht]%not_elem_of_cons. destruct (pushType _ _ _ _ _ _ st t0) as [st1 err1] eqn:Hp.
  rewrite <-(pushType_frame _ _ _ _ _ _ _ t Hp Hne). destruct err1; [by intros [= <- _]|]. by apply IH.
Qed.

(** In a round that succeeds, a type of the round is pushed once. *)
Lemma pushTypes_once scope n u st types st' t :
  NoDup types → t ∈ types → pushTypes generate send now scope n u st types = (st', None) →
  ∃ st1 st2, st_watches st1 !! t = st_watches st !! t
    ∧ pushType generate send now scope n u st1 t = (st2, None)
    ∧ st_watches st' !! t = st_watches st2 !! t.
Proof.
  intros Hnd Ht. revert st. induction types as [|t0 types IH]; intros st; [by apply elem_of_nil in Ht|].
  cbn [pushTypes]. apply NoDup_cons in Hnd as [Hn0 Hnd].
  destruct (pushType _ _ _ _ _ _ st t0) as [st1 err] eqn:Hp. destruct err; [done|]. intros Hs.
  destruct (decide (t = t0)) as [->|Hne].
  - exists st, st1. split_and!; [done..|]. by eapply pushTypes_frame.
  - apply elem_of_cons in Ht as [?|Ht]; [done|].
    rewrite <-(pushType_frame _ _ _ _ _ _ _ t Hp Hne). by apply IH.
Qed.
End frames.

Lemma orderedWatchedTypes_spec watches u :
  NoDup (orderedWatchedTypes watches u)
  ∧ ∀ t, t ∈ orderedWatchedTypes watches u ↔ pushes watches u t = true.
Proof.
  unfold orderedWatchedTypes. set (first := base.filter _ pushOrder). split.
  - apply NoDup_app. split_and!.
    + apply NoDup_filter. refine (bool_decide_unpack _ _). vm_compute. exact I.
    + intros t Ht Ht'%sort_strings_elem. by apply list_elem_of_filter in Ht' as [[_ ?] _].
    + unfold sort_strings. rewrite isort_Permutation. apply NoDup_filter, NoDup_elements.
  - intros t. rewrite elem_of_app, elem_of_sort_strings, list_elem_of_filter. split.
    + intros [[? _]%list_elem_of_filter|[[? _] _]]; done.
    + intros Hp. destruct (decide (t ∈ first)) as [?|Hn]; [by left|right]. split_and!; [done..|].
      apply elem_of_elements, elem_of_dom. unfold pushes in Hp. by destruct (watches !! t).
Qed.

(** ** Requests *)

Lemma recordAcknowledgement_core w request :
  let w' := (recordAcknowledgement w request).1 in
  watch_core w' = watch_core w ∧ ws_sent w' = ws_sent w ∧ ws_pending w' = ws_pending w
  ∧ (untracked_idle w → untracked_idle w').
Proof.
  unfold recordAcknowledgement. destruct (decide _); [done|].
  set (accepted := negb _). set (nonce := dr_ResponseNonce request).
  set (w1 := resolvePending (resolveFlow w nonce) nonce accepted).
  assert (watch_core w1 = watch_core w ∧ ws_sent w1 = ws_sent w ∧ ws_pending w1 = ws_pending w
    ∧ (untracked_idle w → untracked_idle w1)) as (E1 & E2 & E3 & E4).
  { subst w1. unfold resolveFlow. destruct (afterNonce _ _); unfold resolvePending, indexPendingResponse;
      cbn [ws_pendingResponse set_unacknowledged]; destruct (ws_pendingResponse w) eqn:Hp;
      try (destruct (decide _)); try destruct accepted; split_and!; try done;
      intros Hi Ht; destruct (Hi Ht) as (? & _); congruence. }
  clearbody w1. set (w2 := resolveAcks w1 nonce accepted).
  assert (watch_core w2 = watch_core w ∧ ws_sent w2 = ws_sent w ∧ ws_pending w2 = ws_pending w
    ∧ (untracked_idle w → untracked_idle w2)) as (F1 & F2 & F3 & F4).
  { subst w2. rewrite <-E1, <-E2, <-E3. split_and!; [done..|]. intros Hi%E4 Ht.
    destruct (Hi Ht) as (I1 & I2 & I3). unfold idle_acks, resolveAcks. cbn. rewrite I1, I2, I3.
    assert (∀ P : string * string → Prop, ∀ D : ∀ p, Decision (P p),
      base.filter P (∅ : gmap string string) = ∅) as Hfe by (intros; apply map_filter_empty).
    destruct accepted; rewrite ?Hfe, decide_True by done; done. }
  clearbody w2. destruct (decide _); [done|]. destruct (dr_ErrorDetail request) as [[message code]|]; done.
Qed.

Lemma applySubscription_ok w request :
  let w' := (applySubscription w request).1 in
  ws_started w' = true ∧ ws_trackAcks w' = ws_trackAcks w
  ∧ (ws_pending w = ∅ → ws_pending w' = ∅) ∧ (untracked_idle w → untracked_idle w').
Proof.
  unfold applySubscription.
  set (w1 := if ws_started w then w else startWatch w request). set (c1 := negb (ws_started w)).
  assert (ws_started w1 = true ∧ ws_trackAcks w1 = ws_trackAcks w ∧ ws_pending w1 = ws_pending w
    ∧ (untracked_idle w → untracked_idle w1)) as (E1 & E2 & E3 & E4).
  { subst w1. by destruct (ws_started w) eqn:E. }
  clearbody w1 c1.
  assert (∀ l w1 c1, let w2 := (foldl subscribeName (w1, c1) l).1 in
    ws_started w2 = ws_started w1 ∧ ws_trackAcks w2 = ws_trackAcks w1 ∧ ws_pending w2 = ws_pending w1
    ∧ (untracked_idle w1 → untracked_idle w2)) as Hsub.
  { induction l as [|x l IH]; intros v c; [done|]. cbn [foldl]. unfold subscribeName at 2 4 6 8.
    destruct (decide (x = "*")); match goal with |- context [foldl _ (?v1, ?c1) l] => apply (IH v1 c1) end. }
  assert (∀ l w1 c1, let w2 := (foldl unsubscribeName (w1, c1) l).1 in
    ws_started w2 = ws_started w1 ∧ ws_trackAcks w2 = ws_trackAcks w1
    ∧ (ws_pending w1 = ∅ → ws_pending w2 = ∅) ∧ (untracked_idle w1 → untracked_idle w2)) as Hun.
  { induction l as [|x l IH]; intros v c; [done|]. cbn [foldl]. unfold unsubscribeName at 2 4 6 8.
    destruct (decide (x = "*")).
    - match goal with |- context [foldl _ (?v1, ?c1) l] => apply (IH v1 c1) end.
    - match goal with |- context [foldl _ (?v1, ?c1) l] =>
        destruct (IH v1 c1) as (I1 & I2 & I3 & I4) end.
      cbv zeta. rewrite I1, I2. unfold forgetAck, indexPendingResponse in *. cbn in *.
      destruct (ws_pendingResponse v) eqn:Hp; cbn in *.
      + split_and!; [done..|intros E; apply I3; rewrite E; set_solver|].
        intros Hi. apply I4. intros Ht. destruct (Hi Ht) as (? & _). congruence.
      + split_and!; [done..|intros E; apply I3; rewrite E; set_solver|].
        intros Hi. apply I4. intros Ht. destruct (Hi Ht) as (J1 & J2 & J3). unfold idle_acks. cbn in *.
        rewrite J2, delete_empty. done. }
  destruct (Hsub (dr_Subscribe request) w1 c1) as (S1 & S2 & S3 & S4).
  destruct (foldl subscribeName _ _) as [w2 c2].
  destruct (Hun (dr_Unsubscribe request) w2 c2) as (U1 & U2 & U3 & U4).
  destruct (foldl unsubscribeName _ _) as [w3 c3]. cbn in *. split_and!; [congruence|congruence| |].
  - intros E. apply U3. congruence.
  - intros Hi%E4%S4%U4 Ht. destruct (Hi Ht) as (J1 & J2 & J3). unfold settleRecovery, idle_acks. cbn in *.
    rewrite J2, decide_True by done. done.
Qed.

Lemma subscribe_same l w c :
  (foldl subscribeName (w, c) l).2 = false →
  c = false ∧ watch_core (foldl subscribeName (w, c) l).1 = watch_core w.
Proof.
  revert w c. induction l as [|x l IH]; intros w c; [done|]. cbn [foldl]. unfold subscribeName at 2 4.
  destruct (decide (x = "*")) as [->|Hne]; intros [E1 E2]%IH; apply orb_false_iff in E1 as [-> E1]; rewrite E2;
    (split; [done|]); unfold watch_core; cbn.
  - apply negb_false_iff in E1. by rewrite E1.
  - apply bool_decide_eq_false, dec_stable in E1. by rewrite (subseteq_union_1_L {[x]} (ws_names w)) by set_solver.
Qed.

Lemma unsubscribe_same l w c :
  (foldl unsubscribeName (w, c) l).2 = false →
  c = false ∧ ∀ x, x ∈ l → if decide (x = "*") then ws_wildcard w = false else x ∉ ws_names w.
Proof.
  revert w c. induction l as [|x l IH]; intros w c; [by split; [|intros x ?%elem_of_nil]|].
  cbn [foldl]. unfold unsubscribeName at 2. destruct (decide (x = "*")) as [->|Hne]; intros [E1 E2]%IH;
    apply orb_false_iff in E1 as [-> E1]; (split; [done|]); intros y [->|Hy]%elem_of_cons.
  - done.
  - specialize (E2 y Hy). by destruct (decide (y = "*")).
  - rewrite decide_False by done. by apply bool_decide_eq_false in E1.
  - specialize (E2 y Hy). rewrite (proj1 (forgetAck_subscription _ _)) in E2.
    rewrite (proj2 (proj2 (forgetAck_subscription _ _))) in E2. cbn in E2.
    apply bool_decide_eq_false in E1. destruct (decide (y = "*")); [done|]. set_solver.
Qed.

(** An orderly request that changes nothing leaves the subscription as it was. *)
Lemma applySubscription_unchanged w request :
  ws_started w = true → (∀ x, x ∈ dr_Unsubscribe request → x ≠ "*" → x ∈ ws_names w) →
  (applySubscription w request).2 = false →
  watch_core (applySubscription w request).1 = watch_core w
  ∧ ws_sent (applySubscription w request).1 = ws_sent w.
Proof.
  intros Hs Ho Hc. destruct (applySubscription_started w request Hs) as (_ & A2 & _).
  destruct (applySubscription_ok w request) as (K1 & K2 & _). revert Hc A2 K1 K2. unfold applySubscription. rewrite Hs.
  pose proof (subscribe_same (dr_Subscribe request) w (negb true)) as Hsub.
  destruct (foldl subscribeName _ _) as [w1 c1].
  pose proof (unsubscribe_same (dr_Unsubscribe request) w1 c1) as Hun.
  destruct (unsubscribe_fold (dr_Unsubscribe request) w1 c1) as (U1 & _ & _).
  assert ((∀ x, x ∈ dr_Unsubscribe request → x = "*" ∧ ws_wildcard w1 = false) →
    ws_wildcard (foldl unsubscribeName (w1, c1) (dr_Unsubscribe request)).1 = ws_wildcard w1) as Hwild.
  { clear. generalize c1. induction (dr_Unsubscribe request) as [|x l IH]; intros c Hl; [done|].
    cbn [foldl]. unfold unsubscribeName at 2. destruct (Hl x) as [-> E]; [left|].
    rewrite decide_True by done. rewrite E.
    assert (∀ l v c, ws_wildcard v = false → (∀ x, x ∈ l → x = "*") →
      ws_wildcard (foldl unsubscribeName (v, c) l).1 = false) as Hk.
    { clear. induction l as [|x l IH]; intros v c Hv Hl; [done|]. cbn [foldl]. unfold unsubscribeName at 2.
      rewrite decide_True by (apply Hl; left). apply IH; [done|]. intros; apply Hl; by right. }
    apply Hk; [done|]. intros y Hy. apply Hl. by right. }
  destruct (foldl unsubscribeName _ _) as [w2 c2]. cbn in *. intros -> A2 K1 K2.
  destruct (Hun eq_refl) as [-> Hun']. destruct (Hsub eq_refl) as [_ Ecore].
  unfold watch_core in Ecore. injection Ecore as E1 E2 E3 E4.
  assert (∀ x, x ∈ dr_Unsubscribe request → x = "*" ∧ ws_wildcard w1 = false) as Hall.
  { intros x Hx. specialize (Hun' x Hx). destruct (decide (x = "*")) as [|Hne]; [done|].
    destruct Hun'. rewrite E2. auto. }
  assert (∀ x, ¬ (x ∈ dr_Unsubscribe request ∧ x ≠ "*")) as Hnone by (intros x [Hx Hne]; by apply Hall in Hx as [? _]).
  split.
  - unfold watch_core. cbn. rewrite K1, K2, Hwild, E1 by done.
    assert (ws_names w2 = ws_names w1) as -> by (apply set_eq; intros x; rewrite U1; naive_solver). by rewrite E2, Hs.
  - apply map_eq. intros x. rewrite A2, decide_False by done. done.
Qed.

(** ** One type of the session *)

Section session.
Context (T : string) (generate : GenerationRequest → result GeneratedDelta) `{SelectorLaws T generate}.
Context (send : DeltaResponse → option string) (scope : ClientScope).
Context (Hclass : cs_Class scope ≠ ClientDedicatedZTunnel).

Local Abbreviation wok := (watch_ok T).
Local Abbreviation wfits := (fits T scope).
Local Abbreviation wstale := (stale T scope).

(** A push of a notice settles it. *)
Lemma pushUpdate_watch now n st u st' w :
  st_watches st !! T = Some w → wok w → wfits w n → update_ok u →
  pushUpdate generate send now scope n st u = Some (st', None) →
  ∃ w', st_watches st' !! T = Some w' ∧ wok w'
    ∧ ∀ rest, FullFor u T = true ∨ wstale w n (Candidates u T ++ rest) → wstale w' n rest.
Proof.
  intros Hw Hok Hfit Hu. unfold pushUpdate. rewrite decide_False by done. intros [= Hp].
  destruct (orderedWatchedTypes_spec (st_watches st) u) as [Hnd Hin].
  destruct (pushes (st_watches st) u T) eqn:Haff; last first.
  { exists w. split; [rewrite <-Hw; eapply pushTypes_frame; [|exact Hp]; rewrite Hin, Haff; done|].
    unfold pushes in Haff. rewrite Hw, (wo_started _ _ Hok) in Haff. cbn in Haff.
    apply orb_false_iff in Haff as [Hf Ha]. split; [done|]. intros rest [?|Hst]; [congruence|].
    assert (Candidates u T = []) as E; [|by rewrite E in Hst]. unfold Candidates.
    rewrite decide_False by apply sl_type. destruct Hu as (_ & Hu & _).
    destruct (candidates_of u T) eqn:Ec; [done|]. apply bool_decide_eq_false in Ha. destruct Ha. by apply Hu; rewrite Ec. }
  destruct (pushTypes_once _ _ _ _ _ _ _ _ _ T Hnd ltac:(by apply Hin) Hp) as (st1 & st2 & E1 & Hp1 & E2).
  rewrite Hw in E1. revert Hp1. unfold pushType. rewrite E1, E2.
  rewrite (bool_decide_eq_false_2 (cs_Class scope = _)), andb_false_r, orb_false_r by done.
  destruct (generateAndSend _ _ _ _ _ _ _) as [st3 err] eqn:Hg. destruct err; [done|]. intros Hpend.
  assert (∀ w', st_watches st3 !! T = Some w' → wok w' → st_watches st2 !! T = Some w') as Hdone.
  { intros w' Hw' [_ _ Hp0 _]. revert Hpend. unfold pushPendingConfigs. rewrite Hw', Hp0, size_empty.
    by intros [= <-]. }
  apply (generateAndSend_one _ _ _ _ _ _ _ _ w) in Hg as (nonce & output & s' & Hg & Hw'); [|apply sl_type|done].
  exists (sd_watch s'). cbn in Hw'. destruct (FullFor u T) eqn:Hf.
  - eapply (generateOne_full T generate) in Hg as (G1 & G2 & G3); [|done..]. split; [by apply Hdone|]. split; [done|].
    intros rest _. unfold stale in *. eapply stale_mono; [|exact G1]. by intros c ?%elem_of_nil.
  - eapply (generateOne_incremental T generate) in Hg as [G1 G2]; [|done..]. split; [by apply Hdone|]. split; [done|].
    intros rest [?|Hst]; [done|auto].
Qed.

(** A request served by the full view *)
Lemma request_full now n s request force s' :
  wfits (sd_watch s) n → wok (sd_watch s) →
  generateOne generate send now s (fullRequest scope T (newSubscriptionView (sd_watch s)) n request) force
    = (s', None) →
  wok (sd_watch s') ∧ ∀ rest, wstale (sd_watch s') n rest.
Proof.
  intros Hfit Hok Hg. eapply (generateOne_full T generate) in Hg as (G1 & G2 & G3); [|done..]. split; [done|].
  intros rest. unfold stale in *. eapply stale_mono; [|exact G1]. by intros c ?%elem_of_nil.
Qed.

(** A request served by a reconciliation of single names *)
Lemma request_demand now n w0 s request view force s' w1 :
  ws_started w0 = true → watch_core (sd_watch s) = watch_core (applySubscription w0 request).1 →
  ws_sent (sd_watch s) = ws_sent (applySubscription w0 request).1 → ws_wildcard (sd_watch s) = false →
  wfits w0 n → wfits (sd_watch s) n → wok (sd_watch s) →
  demandReconciliationView n T scope (sd_watch s) (dr_Subscribe request) (dr_Unsubscribe request)
    = (w1, Some view) →
  generateOne generate send now s (fullRequest scope T view n (dr_Subscribe request)) force = (s', None) →
  wok (sd_watch s') ∧ ∀ rest, wstale w0 n rest → wstale (sd_watch s') n rest.
Proof.
  intros Hst Hcore Hsent Hw [_ Hs0] Hfit Hok Hview. unfold generateOne, effectiveRequest.
  destruct (ws_recovering (sd_watch s)); cbn [negb andb gr_Full fullRequest]; intros Hg.
  - eapply (generated_full T generate) in Hg as (G1 & G2 & G3); cbn; eauto. split; [done|].
    intros rest _. unfold stale in *. eapply stale_mono; [|exact G1]. by intros c ?%elem_of_nil.
  - destruct Hfit as [Hn Hs]. split.
    + destruct (sl_demand scope n w0 (sd_watch s) request w1 view [] Hst Hcore Hsent Hw Hn Hs0 Hs Hview)
        as (_ & d & Hd & Hp & _).
      rewrite Hd in Hg. apply sendGeneratedDelta_applied in Hg as (S1 & S2 & S3 & S4); [|apply sl_type|done].
      by eapply watch_ok_sent.
    + intros rest Hrest.
      destruct (sl_demand scope n w0 (sd_watch s) request w1 view rest Hst Hcore Hsent Hw Hn Hs0 Hs Hview)
        as (_ & d & Hd & Hp & Hrec).
      rewrite Hd in Hg. apply sendGeneratedDelta_applied in Hg as (S1 & S2 & S3 & S4); [|apply sl_type|done].
      unfold stale. rewrite S1. eapply stale_ext; [|by apply Hrec]. intros r.
      by apply (wants_core T generate).
Qed.

Lemma demandReconciliationView_keeps n w subscribed unsubscribed :
  (demandReconciliationView n T scope w subscribed unsubscribed).1 = w.
Proof.
  unfold demandReconciliationView. case_decide; [done|]. destruct (bool_decide _ && _); [done|].
  rewrite (bool_decide_eq_true_2 (T ≠ WorkloadType)) by apply (sl_type (T:=T) (generate:=generate)). done.
Qed.

(** What an answered request leaves behind: a new watch with nothing stale, or the old
    one no staler than it was. *)
Lemma handleRequest_watch now n st request st' w' :
  dr_TypeUrl request = T → orderly st request →
  (∀ w, st_watches st !! T = Some w → wok w ∧ wfits w n) →
  handleRequest generate send now st scope n request = (st', None) →
  st_watches st' !! T = Some w' → wfits w' n →
  wok w' ∧ ∀ rest, (∀ w, st_watches st !! T = Some w → wstale w n rest) → wstale w' n rest.
Proof.
  intros HT Ho Hold. unfold handleRequest. rewrite HT.
  destruct (typeAccess (cs_Class scope) T) as [known allowed]. destruct (known && negb allowed); [done|].
  unfold receiveRequest, watchFor. rewrite HT.
  set (w0 := match st_watches st !! T with Some w => w | None => newWatch T end).
  assert (∃ registered, match st_watches st !! T with Some w => (w, []) | None => (newWatch T, [(T, [])]) end
    = (w0, registered)) as [reg ->] by (subst w0; destruct (st_watches st !! T); eauto).
  assert (ws_trackAcks w0 = tracksAcks T ∧ ws_pending w0 = ∅ ∧ untracked_idle w0
    ∧ (ws_started w0 = true → st_watches st !! T = Some w0 ∧ wfits w0 n)) as (B1 & B2 & B3 & B4).
  { subst w0. destruct (st_watches st !! T) as [w|]; [|done]. destruct (Hold w eq_refl) as [[] ?]. done. }
  clearbody w0. destruct (applySubscription_ok w0 request) as (K1 & K2 & K3 & K4).
  destruct (recordAcknowledgement_core (applySubscription w0 request).1 request) as (R1 & R2 & R3 & R4).
  pose proof (applySubscription_unchanged w0 request) as Hsame.
  assert ((applySubscription w0 request).2 = false → ws_started w0 = true) as Hch.
  { unfold applySubscription. destruct (ws_started w0); [done|]. cbn [negb].
    pose proof (subscribe_same (dr_Subscribe request) (startWatch w0 request) true) as Hsub.
    destruct (foldl subscribeName _ _) as [v1 c1]. pose proof (unsubscribe_same (dr_Unsubscribe request) v1 c1) as Hun.
    destruct (foldl unsubscribeName _ _) as [v2 c2]. cbn in *. intros ->. destruct (Hun eq_refl) as [-> _].
    by destruct (Hsub eq_refl). }
  destruct (applySubscription w0 request) as [wa changed] eqn:Ha. cbn [fst snd] in *.
  set (w1 := (recordAcknowledgement wa request).1) in *.
  assert (wok w1) as Hok1.
  { unfold watch_core in R1. injection R1 as _ _ E3 E4. constructor; [congruence|congruence| |auto].
    rewrite R3. auto. }
  clearbody w1. intros Hh.
  destruct (negb changed && _ && _) eqn:Hquiet.
  - injection Hh as <-. cbn. rewrite lookup_insert_eq. intros [= <-] _. split; [done|].
    apply andb_true_iff in Hquiet as [[Hc%negb_true_iff _]%andb_true_iff _].
    destruct (B4 (Hch Hc)) as [Hw0 _]. destruct (Hsame (Hch Hc)) as [E1 E2]; [|done|].
    { intros x. apply Ho. by rewrite HT. }
    intros rest Hrest. unfold stale. rewrite R2, E2. eapply stale_ext; [|by apply Hrest].
    intros r. apply (wants_core T generate). congruence.
  - set (demand := if reconciles (negb (ws_started w0)) w1 scope then _ else (w1, None)) in Hh.
    assert (∃ view, demand = (w1, view) ∧ (∀ v, view = Some v → ws_started w0 = true ∧ ws_wildcard w1 = false
      ∧ demandReconciliationView n T scope w1 (dr_Subscribe request) (dr_Unsubscribe request) = (w1, Some v)))
      as (view & E & Hview).
    { subst demand. unfold reconciles. rewrite negb_involutive. destruct (ws_started w0 && _ && _) eqn:Hr; [|by exists None].
      apply andb_true_iff in Hr as [[Hr1 Hr2%negb_true_iff]%andb_true_iff _].
      pose proof (demandReconciliationView_keeps n w1 (dr_Subscribe request) (dr_Unsubscribe request)) as Hk.
      destruct (demandReconciliationView _ _ _ _ _ _) as [v1 view]. cbn in Hk. subst v1.
      exists view. split; [done|]. by intros v ->. }
    rewrite E in Hh. clear E demand.
    apply (generateAndSend_one _ _ _ _ _ _ _ _ w1) in Hh as (nonce & output & s' & Hg & Hw');
      [|apply sl_type|cbn; by rewrite lookup_insert_eq].
    cbn [gr_TypeURL fullRequest] in Hw'. rewrite Hw'. intros [= <-] Hfit'.
    assert (watch_core (sd_watch s') = watch_core w1) as Ecore.
    { pose proof (generateOne_core generate send now (mkSender w1 nonce output)) as Hk.
      match type of Hg with generateOne _ _ _ _ ?r ?f = _ => specialize (Hk r f) end. by rewrite Hg in Hk. }
    assert (wfits w1 n) as Hfit1 by (by eapply (fits_core T generate)).
    destruct view as [v|]; cbn [default from_option id] in Hg.
    + destruct (Hview v eq_refl) as (V1 & V2 & V3). destruct (B4 V1) as [Hw0 Hfit0].
      destruct (request_demand now n w0 (mkSender w1 nonce output) request v true s' w1) as [G1 G2];
        cbn; rewrite ?Ha; try done. split; [done|].
      intros rest Hrest. apply G2. by apply Hrest.
    + eapply request_full in Hg as [G1 G2]; [|done..]. split; [done|]. intros rest _. apply G2.
Qed.

(** Requests of other types leave the watch alone. *)
Lemma handleRequest_frame now n st request st' err :
  dr_TypeUrl request ≠ T → handleRequest generate send now st scope n request = (st', err) →
  st_watches st' !! T = st_watches st !! T.
Proof.
  intros HT. unfold handleRequest. destruct (typeAccess _ _) as [known allowed].
  destruct (known && negb allowed); [by intros [= <- _]|].
  destruct (receiveRequest _ _ _) as [[[w registered] changed] initial].
  destruct (negb changed && _ && _); [intros [= <- _]; cbn; by rewrite lookup_insert_ne|].
  destruct (if reconciles initial w scope then _ else _) as [w1 view]. intros Hg.
  rewrite (generateAndSend_frame _ _ _ _ _ _ _ _ _ T Hg); [|cbn; congruence|left; apply sl_type].
  cbn. by rewrite lookup_insert_ne.
Qed.

(** *** The invariant *)

(** The generator's needs at a state *)
Definition fitting (s : Session) : Prop :=
  ∀ w, st_watches (se_stream s) !! T = Some w → wfits w (se_snapshot s).

Definition notices (s : Session) : list Update :=
  option_list (se_assigned s) ++ option_list (se_queued s) ++ option_list (se_mailbox s).

Definition announced_by (us : list Update) : list Candidate := us ≫= λ u, Candidates u T.

(** The watch of the type is stale only in what the notices of the session announce. *)
Record session_inv (s : Session) : Prop := mkSessionInv {
  si_notices : Forall update_ok (notices s);
  si_watch w : st_watches (se_stream s) !! T = Some w →
    wok w ∧ (Exists (λ u, FullFor u T = true) (notices s)
             ∨ wstale w (se_snapshot s) (announced_by (notices s)))
}.

(** A list of notices that announces at least as much *)
Definition supersedes (us vs : list Update) : Prop :=
  ∀ v, v ∈ vs → (FullFor v T = false ∧ Candidates v T = []) ∨ ∃ u, u ∈ us ∧ covers u v.

Lemma supersedes_full us vs :
  supersedes us vs → Exists (λ u, FullFor u T = true) vs → Exists (λ u, FullFor u T = true) us.
Proof.
  rewrite !Exists_exists. intros Hs (v & Hv & Hf).
  destruct (Hs v Hv) as [[? _]|(u & Hu & Hc & _)]; [congruence|]. eauto.
Qed.

Lemma supersedes_candidates us vs :
  supersedes us vs → candidates_covered (announced_by us) (announced_by vs).
Proof.
  intros Hs c. unfold announced_by. rewrite list_elem_of_bind. intros (v & Hc & Hv).
  destruct (Hs v Hv) as [[_ E]|(u & Hu & _ & _ & Hcov)]; [rewrite E in Hc; by apply elem_of_nil in Hc|].
  destruct (Hcov _ c Hc) as (d & Hd & Hle). exists d. split; [|done]. apply list_elem_of_bind. eauto.
Qed.

Lemma wstale_supersedes w n us vs :
  supersedes us vs → wstale w n (announced_by vs) → wstale w n (announced_by us).
Proof.
  intros Hs Hst. apply (stale_publish (sees_identity scope) (wants T scope w n) (wants T scope w n)
    (announced_by vs) [] (announced_by us) (ws_sent w)); [apply sl_identity|exact Hst| | |].
  - split; intros r Hr Hn; done.
  - by apply supersedes_candidates.
  - by intros c ?%elem_of_nil.
Qed.

Definition waiting (s : Session) (u : Update) : Prop :=
  se_assigned s = Some u ∨ se_queued s = Some u ∨ se_mailbox s = Some u.

Lemma elem_of_notices s u : u ∈ notices s ↔ waiting s u.
Proof.
  assert (∀ o : option Update, u ∈ option_list o ↔ o = Some u) as Ho.
  { intros [v|]; cbn; [rewrite list_elem_of_singleton; naive_solver|rewrite elem_of_nil; naive_solver]. }
  unfold notices, waiting. by rewrite !elem_of_app, !Ho.
Qed.

Lemma waiting_ok s : Forall update_ok (notices s) ↔ ∀ u, waiting s u → update_ok u.
Proof. rewrite Forall_forall. by setoid_rewrite elem_of_notices. Qed.

Lemma waiting_supersedes s s' :
  (∀ v, waiting s v → (FullFor v T = false ∧ Candidates v T = []) ∨ ∃ u, waiting s' u ∧ covers u v) →
  supersedes (notices s') (notices s).
Proof.
  intros Hw v Hv%elem_of_notices. destruct (Hw v Hv) as [?|(u & Hu & Hc)]; [by left|right].
  exists u. by rewrite elem_of_notices.
Qed.

(** Notices that wait are only replaced by others that announce as much. *)
Lemma notices_inv s s' :
  session_inv s → se_snapshot s' = se_snapshot s → st_watches (se_stream s') = st_watches (se_stream s) →
  (∀ u, waiting s' u → update_ok u) → supersedes (notices s') (notices s) → session_inv s'.
Proof.
  intros [Hn Hw] En Est Hn' Hs. split; [by apply waiting_ok|]. intros w Hwat. rewrite Est in Hwat.
  destruct (Hw w Hwat) as [Hok Hor]. split; [done|]. rewrite En.
  destruct Hor as [Hf|Hst]; [left; by eapply supersedes_full|right; by eapply wstale_supersedes].
Qed.

Lemma mergeInto_ok pending u :
  (∀ p, pending = Some p → update_ok p) → update_ok u →
  update_ok (mergeInto pending u) ∧ covers (mergeInto pending u) u
  ∧ ∀ p, pending = Some p → covers (mergeInto pending u) p.
Proof.
  intros Hp Hu. destruct pending as [p|]; cbn.
  - destruct (Merge_covers p u) as [H1 H2]; [auto..|]. split_and!; [by apply Merge_ok; auto|done|].
    by intros p' [= <-].
  - split_and!; [done|reflexivity|done].
Qed.

Lemma unaffected_silent u : update_ok u → Affects u T = false → FullFor u T = false ∧ Candidates u T = [].
Proof.
  intros (_ & Hu & _) [Hf Ha%bool_decide_eq_false]%orb_false_iff. split; [done|]. unfold Candidates.
  rewrite decide_False by apply (sl_type (T:=T) (generate:=generate)).
  destruct (candidates_of u T) eqn:E; [done|]. destruct Ha. by apply Hu; rewrite E.
Qed.

(** *** Steps *)

Lemma notice_inv n mail queued assigned st u :
  update_ok u → session_inv (mkSession n mail queued assigned st) →
  session_inv (mkSession n (Some (mergeInto mail u)) queued assigned st).
Proof.
  intros Hu Hinv. pose proof Hinv as [Hn _]. rewrite waiting_ok in Hn. unfold waiting in Hn. cbn in Hn.
  destruct (mergeInto_ok mail u) as (M1 & M2 & M3); [intros p ->; apply Hn; auto|done|].
  eapply notices_inv; [exact Hinv|done|done|intros v [?|[?|?]]; simplify_eq/=; auto|].
  apply waiting_supersedes. unfold waiting. cbn. intros v [Hv|[Hv|Hv]]; right;
    [exists v; split; [auto|reflexivity]..|exists (mergeInto mail u); auto].
Qed.

Lemma publish_inv n mail queued assigned st n' changes mail' :
  let u := updateBetween n n' changes in
  let s := mkSession n mail queued assigned st in
  let s' := mkSession n' mail' queued assigned st in
  fitting s → fitting s' → published n n' changes →
  (mail' = Some (mergeInto mail u) ∨ watched s u = false ∧ mail' = mail) →
  session_inv s → session_inv s'.
Proof.
  intros u s s' Hfit Hfit' Hp Hmail [Hn Hw]. rewrite waiting_ok in Hn. unfold waiting in Hn. cbn in Hn.
  destruct (updateBetween_spec n n' changes) as (Hu & _). fold u in Hu.
  destruct (mergeInto_ok mail u) as (M1 & M2 & M3); [intros p ->; apply Hn; auto|done|]. split.
  { apply waiting_ok. unfold waiting. cbn.
    destruct Hmail as [->|[_ ->]]; intros v [?|[?|?]]; simplify_eq; auto. }
  intros w Hwat. destruct (Hw w Hwat) as [Hok Hor]. split; [done|].
  assert (supersedes (notices s') (notices s)) as Hsup.
  { apply waiting_supersedes. unfold waiting. cbn. intros v [Hv|[Hv|Hv]]; right;
      [exists v; split; [auto|reflexivity]..|].
    destruct Hmail as [->|[_ ->]]; [exists (mergeInto mail u); auto|exists v; split; [auto|reflexivity]]. }
  destruct Hor as [Hf|Hst]; [left; by eapply supersedes_full|right]. cbn in *.
  eapply (stale_published T generate scope w n n' changes); [by apply Hfit|by apply Hfit'|done|exact Hst| |].
  { by apply supersedes_candidates. }
  fold u. intros c Hc. destruct Hmail as [->|[Hno _]].
  - destruct M2 as (_ & _ & Hcov). destruct (Hcov _ c Hc) as (d & Hd & Hle). exists d. split; [|done].
    unfold announced_by. apply list_elem_of_bind. exists (mergeInto mail u). split; [exact Hd|].
    apply elem_of_notices. unfold waiting. cbn. auto.
  - exfalso. assert (Affects u T = false) as Ha.
    { apply not_true_iff_false. intros Ha. apply not_true_iff_false in Hno. apply Hno, existsb_exists.
      exists T. split; [|done]. apply list_elem_of_In, elem_of_elements, elem_of_dom. eauto. }
    destruct (unaffected_silent u Hu Ha) as [_ E]. rewrite E in Hc. by apply elem_of_nil in Hc.
Qed.

Lemma receive_inv n queued assigned st u enqueued :
  enqueueUpdate scope n (st_watches st) u = Some enqueued →
  session_inv (mkSession n (Some u) queued assigned st) →
  session_inv (mkSession n None (match enqueued with Some u => Some (mergeInto queued u) | None => queued end)
                 assigned st).
Proof.
  unfold enqueueUpdate. rewrite decide_False by done. intros [= <-] Hinv.
  pose proof Hinv as [Hn Hw]. rewrite waiting_ok in Hn. unfold waiting in Hn. cbn in Hn.
  destruct (mergeInto_ok queued u) as (M1 & M2 & M3); [intros p ->; apply Hn; auto|apply Hn; auto|].
  destruct (existsb _ _) eqn:Hex.
  - eapply notices_inv; [exact Hinv|done|done|intros v [?|[?|?]]; simplify_eq/=; auto|].
    apply waiting_supersedes. unfold waiting. cbn. intros v [Hv|[Hv|Hv]]; right;
      [exists v; split; [auto|reflexivity]|exists (mergeInto queued u); auto|].
    injection Hv as <-. exists (mergeInto queued u). auto.
  - split; [apply waiting_ok; intros v [?|[?|?]]; simplify_eq/=; auto|].
    intros w Hwat. destruct (Hw w Hwat) as [Hok Hor]. split; [done|]. cbn in Hwat.
    assert (Affects u T = false) as Ha.
    { apply not_true_iff_false. intros Ha. apply not_true_iff_false in Hex. apply Hex, existsb_exists.
      exists (T, w). split; [by apply list_elem_of_In, elem_of_map_to_list|]. cbn. by rewrite (wo_started _ _ Hok), Ha. }
    assert (supersedes (notices (mkSession n None queued assigned st)) (notices (mkSession n (Some u) queued assigned st)))
      as Hsup.
    { apply waiting_supersedes. unfold waiting. cbn.
      intros v [Hv|[Hv|Hv]]; [right; exists v; split; [auto|reflexivity]..|left].
      injection Hv as <-. apply unaffected_silent; [apply Hn; auto|done]. }
    destruct Hor; [left; by eapply supersedes_full|right; by eapply wstale_supersedes].
Qed.

Lemma assign_inv n mail u st :
  session_inv (mkSession n mail (Some u) None st) → session_inv (mkSession n mail None (Some u) st).
Proof.
  intros Hinv. pose proof Hinv as [Hn _]. rewrite waiting_ok in Hn. unfold waiting in Hn. cbn in Hn.
  eapply notices_inv; [exact Hinv|done|done|intros v [?|[?|?]]; simplify_eq/=; auto|].
  apply waiting_supersedes. unfold waiting. cbn. intros v Hv. right. exists v. split; [naive_solver|reflexivity].
Qed.

Lemma push_inv n mail queued u st now st' :
  fitting (mkSession n mail queued (Some u) st) →
  pushUpdate generate send now scope n st u = Some (st', None) →
  session_inv (mkSession n mail queued (Some u) st) → session_inv (mkSession n mail queued None st').
Proof.
  intros Hfit Hp [Hn Hw]. rewrite waiting_ok in Hn. unfold waiting in Hn. cbn in Hn.
  split; [apply waiting_ok; intros v [?|[?|?]]; simplify_eq/=; auto|].
  intros w' Hw'. cbn in Hw'. destruct (st_watches st !! T) as [w|] eqn:Hwat; last first.
  { exfalso. revert Hp. unfold pushUpdate. rewrite decide_False by done. intros [= Hp].
    enough (T ∉ orderedWatchedTypes (st_watches st) u) as Hno.
    { apply (pushTypes_frame _ _ _ _ _ _ _ _ _ _ _ Hno) in Hp. congruence. }
    rewrite (proj2 (orderedWatchedTypes_spec _ _)). unfold pushes. by rewrite Hwat. }
  destruct (Hw w Hwat) as [Hok Hor].
  destruct (pushUpdate_watch now n st u st' w Hwat Hok (Hfit w Hwat)) as (w1 & Hw1 & Hok1 & Hst1);
    [apply Hn; auto|done|].
  rewrite Hw1 in Hw'. injection Hw' as ->. split; [done|].
  change (notices (mkSession n mail queued (Some u) st)) with (u :: notices (mkSession n mail queued None st')) in Hor.
  destruct Hor as [Hf|Hst]; [|right; apply Hst1; by right].
  apply Exists_cons in Hf as [Hf|Hf]; [right; apply Hst1; by left|by left].
Qed.

Lemma request_inv n mail queued assigned st now request st' :
  fitting (mkSession n mail queued assigned st) → fitting (mkSession n mail queued assigned st') →
  orderly st request → handleRequest generate send now st scope n request = (st', None) →
  session_inv (mkSession n mail queued assigned st) → session_inv (mkSession n mail queued assigned st').
Proof.
  intros Hfit Hfit' Ho Hr [Hn Hw]. split; [done|].
  intros w' Hw'. cbn in Hw'. destruct (decide (dr_TypeUrl request = T)) as [HT|HT]; last first.
  { rewrite (handleRequest_frame now n st request st' None HT Hr) in Hw'. by apply Hw. }
  destruct (handleRequest_watch now n st request st' w' HT Ho) as [Hok Hst]; [|done|done|by apply Hfit'|].
  { intros w Hwat. split; [by apply Hw|by apply Hfit]. }
  split; [done|]. cbn in *. destruct (st_watches st !! T) as [w|] eqn:Hwat.
  - destruct (Hw w eq_refl) as [_ [?|?]]; [by left|right]. apply Hst. by intros ? [= <-].
  - right. apply Hst. done.
Qed.

Lemma session_step_inv s s' :
  fitting s → fitting s' → session_step generate send scope s s' → session_inv s → session_inv s'.
Proof.
  intros Hfit Hfit' Hstep. destruct Hstep.
  - by eapply publish_inv.
  - by apply notice_inv.
  - by apply receive_inv.
  - apply assign_inv.
  - by eapply push_inv.
  - by eapply request_inv.
Qed.

(** *** Runs *)

(** From a new stream, while the snapshots fit the generator *)
Inductive session_run : Session → Prop :=
| sr_start n nonce : session_run (mkSession n None None None (mkStream ∅ nonce [] []))
| sr_step s s' : session_run s → session_step generate send scope s s' → fitting s' → session_run s'.

Lemma session_run_inv s : session_run s → fitting s ∧ session_inv s.
Proof.
  induction 1 as [n nonce|s s' _ [Hfit Hinv] Hstep Hfit'].
  - split; [|split; [apply Forall_nil; exact I|]]; intros w Hw; cbn in Hw; by rewrite lookup_empty in Hw.
  - split; [done|]. exact (session_step_inv s s' Hfit Hfit' Hstep Hinv).
Qed.

(** Nothing of the type waits. *)
Definition quiet (s : Session) : Prop :=
  ∀ u, waiting s u → FullFor u T = false ∧ Candidates u T = [].

(** The versions of a watch with nothing stale *)
Lemma quiet_synced s w :
  session_run s → quiet s → st_watches (se_stream s) !! T = Some w →
  ∀ x v, ws_sent w !! x = Some v ↔
    ∃ r, wants T scope w (se_snapshot s) r ∧ XDSName r = x ∧ Hash r = v.
Proof.
  intros Hrun Hq Hw x v. destruct (session_run_inv s Hrun) as [Hfit [_ Hi]].
  destruct (Hi w Hw) as [_ [Hf|[H1 H2]]].
  { apply Exists_exists in Hf as (u & Hu%elem_of_notices & Hf). destruct (Hq u Hu). congruence. }
  assert (∀ c, c ∉ announced_by (notices s)) as Hnone.
  { intros c. unfold announced_by. rewrite list_elem_of_bind. intros (u & Hc & Hu%elem_of_notices).
    destruct (Hq u Hu) as [_ E]. rewrite E in Hc. by apply elem_of_nil in Hc. }
  assert (∀ r, wants T scope w (se_snapshot s) r → ws_sent w !! XDSName r = Some (Hash r)) as Hsync.
  { intros r Hr. destruct (H1 r Hr) as [?|[(c & Hc & _)|(_ & c & i & Hc & _)]]; [done|by apply Hnone in Hc..]. }
  split.
  - intros Hx. destruct (H2 x) as [(r & Hr & <-)|(c & i & Hc & _)]; [congruence| |by apply Hnone in Hc].
    exists r. split_and!; [done..|]. rewrite (Hsync r Hr) in Hx. by injection Hx.
  - intros (r & Hr & <- & <-). by apply Hsync.
Qed.
End session.
