(* ===== verification/SessionTheorems.v ===== *)
(** * SessionTheorems: what a client has received when its stream is quiet

    The guarantees of a session for the types whose generators keep the contract, each
    with a concrete session that subscribes, misses a publication and catches up. *)

From S2P Require Import Prelude Identity Resource ResourceIndex ResourceSet SetInvariant SetQueries SetDiff Snapshot Update Notices Dependencies Watch Generator Generators Delta Requests Sending Selections Incremental Contract Selectors Session.

(** ** Checking concrete sessions *)

Definition served_check (T : string) (n : ResourceSet) : bool :=
  forallb (λ r, bool_decide (XDSName r ≠ "") && bool_decide (Hash r ≠ "")) (ListType n T).

Lemma served_check_ok T n : set_ok n → served_check T n = true → served T n.
Proof.
  intros Hn Hc. split; [done|]. intros r Hr. apply (proj1 (ListType_spec n T (set_ok_shape_ok n Hn))) in Hr.
  unfold served_check in Hc. rewrite forallb_forall in Hc. specialize (Hc r ltac:(by apply list_elem_of_In)).
  by apply andb_true_iff in Hc as [?%bool_decide_eq_true ?%bool_decide_eq_true].
Qed.

(** The resources of the type have distinct wire names. *)
Definition distinct_check (T : string) (n : ResourceSet) : bool :=
  bool_decide (NoDup (XDSName <$> ListType n T)).

Lemma distinct_check_ok T n a b :
  set_ok n → distinct_check T n = true → contains n T a → contains n T b → XDSName a = XDSName b → a = b.
Proof.
  intros Hn Hc%bool_decide_eq_true Ha Hb E.
  apply (proj1 (ListType_spec n T (set_ok_shape_ok n Hn))), list_elem_of_lookup_1 in Ha as (i & Hi), Hb as (j & Hj).
  assert (i = j) as ->; [|congruence].
  apply (NoDup_lookup _ _ _ (XDSName a) Hc); rewrite list_lookup_fmap; [by rewrite Hi|]. by rewrite Hj, E.
Qed.

Definition faithful_check (before after : ResourceSet) : bool :=
  forallb (λ p : string * (string * Resource),
    match Get after (mkKey p.1 p.2.1) with
    | Some r => negb (bool_decide (Hash p.2.2 = Hash r)) || bool_decide (p.2.2 = r)
    | None => true
    end) (typedResources before).

Lemma published_check before after :
  set_ok before → faithful_check before after = true → published before after (Diff before after).
Proof.
  intros Hb Hc. split; [done|]. intros [t x] a b Ha Hb' E. unfold faithful_check in Hc.
  rewrite forallb_forall in Hc. specialize (Hc (t, (x, a))). rewrite <-list_elem_of_In in Hc.
  rewrite typedResources_Get in Hc by (by apply set_ok_shape_ok). specialize (Hc Ha). cbn in Hc. rewrite Hb' in Hc.
  rewrite bool_decide_eq_true_2 in Hc by done. by apply bool_decide_eq_true in Hc.
Qed.

(** A stream that subscribes at [before] and is pushed the publication of [after] *)
Section run.
Context (generate : GenerationRequest → result GeneratedDelta) (scope : ClientScope).
Context (before after : ResourceSet) (request : DeltaRequest).

Definition accept (r : DeltaResponse) : option string := None.

Definition subscribed : Stream * option string :=
  handleRequest generate accept 0 (mkStream ∅ 0 [] []) scope before request.

Definition notice : Update := updateBetween before after (Diff before after).

Definition caughtUp : option (Stream * option string) :=
  pushUpdate generate accept 1 scope after (fst subscribed) notice.

Definition finalStream : Stream :=
  match caughtUp with Some (st, _) => st | None => fst subscribed end.

Definition finalSession : Session := mkSession after None None None finalStream.

Definition runs : bool :=
  negb (isSome (snd subscribed))
  && match caughtUp with Some (_, None) => true | _ => false end
  && existsb (λ p : string * watchState, ws_started p.2 && Affects notice p.1)
       (map_to_list (st_watches (fst subscribed))).

Lemma finalSession_run (T : string) `{Selector} :
  cs_Class scope ≠ ClientDedicatedZTunnel → runs = true → published before after (Diff before after) →
  dr_Unsubscribe request = [] →
  (∀ w, st_watches (fst subscribed) !! T = Some w → fits T scope w before ∧ fits T scope w after) →
  (∀ w, st_watches finalStream !! T = Some w → fits T scope w after) →
  session_run T generate accept scope finalSession ∧ quiet T finalSession.
Proof.
  intros Hclass Hruns Hp Hun Hfit1 Hfit2. unfold runs in Hruns. rewrite !andb_true_iff in Hruns.
  destruct Hruns as [[Hs Hc] He]. split; [|intros u [?|[?|?]]; done].
  assert (subscribed = (fst subscribed, None)) as Es.
  { destruct subscribed as [st [e|]]; [done|reflexivity]. }
  assert (caughtUp = Some (finalStream, None)) as Ec.
  { unfold finalStream. by destruct caughtUp as [[st [e|]]|]. }
  eapply sr_step; [|eapply (ss_push _ _ _ _ _ _ _ _ _ _ Ec)|exact Hfit2].
  eapply sr_step; [|eapply ss_assign|intros w Hw; by apply Hfit1].
  eapply sr_step; [|eapply (ss_receive _ _ _ _ None _ _ notice (Some notice))|intros w Hw; by apply Hfit1].
  - eapply sr_step; [|eapply (ss_publish _ _ _ _ None); [exact Hp|by left]|intros w Hw; by apply Hfit1].
    eapply sr_step; [apply (sr_start _ _ _ _ before 0)|eapply ss_request; [|exact Es]|intros w Hw; by apply Hfit1].
    intros w Hw x Hx. rewrite Hun in Hx. by apply elem_of_nil in Hx.
  - unfold enqueueUpdate. rewrite decide_False by done. by rewrite He.
Qed.
End run.

(** ** Gateway configuration *)

(** A run in which the gateway's resources have distinct wire names *)
Definition gateway_run `{Codec} `{AddressCodec} (source : SourceReader)
    (secrets : GenerationRequest → result GeneratedDelta) (T : string)
    (send : DeltaResponse → option string) (scope : ClientScope) : Session → Prop :=
  @session_run T (serverGenerate source secrets None) (snapshot_selector T) send scope.

(** The versions of a quiet gateway stream *)
Lemma gateway_versions `{Codec} `{AddressCodec} source secrets T send scope s w :
  snapshotType T → cs_Class scope ≠ ClientDedicatedZTunnel →
  gateway_run source secrets T send scope s → quiet T s → st_watches (se_stream s) !! T = Some w →
  ∀ x v, ws_sent w !! x = Some v ↔
    ∃ r, contains (se_snapshot s) T r ∧ scopeAllows scope r = true ∧ allows (newSubscriptionView w) r = true
      ∧ XDSName r = x ∧ Hash r = v.
Proof.
  intros HT Hclass Hrun Hq Hw x v. pose proof (snapshot_laws source secrets T HT) as Hlaws.
  rewrite (quiet_synced (H:=snapshot_selector T) T (serverGenerate source secrets None) send scope Hclass s w Hrun Hq Hw x v).
  unfold wants, selects. cbn. setoid_rewrite andb_true_iff. split; intros (r & Hr); exists r; tauto.
Qed.

(** C4: a gateway's stream converges. The client is no dedicated node proxy, and the type is
    one whose resources come from the snapshot alone: none of addresses, workloads,
    authorizations, traffic policies, sandboxes, secrets and extension configurations.
    Assume that in every state the resources of the type have wire names and versions, two
    resources of the client's scope have different wire names, and a name that a client
    subscribes to is no resource's key name unless it also selects that resource; a resource
    that keeps its key and hash over a publication is the same; the client unsubscribes only
    from names it is subscribed to, or from the wildcard; and no handler has failed, which
    would end the stream. Then, in whatever order publications, merged notices, pushes,
    requests, acknowledgements and rejections come, once no notice of the type waits, the
    versions the session has sent for the type are exactly those of the snapshot's resources
    that belong to the client's scope and that its subscription selects. *)
Theorem gateway_stream_converges `{Codec} `{AddressCodec} source secrets T send scope s w :
  snapshotType T → cs_Class scope ≠ ClientDedicatedZTunnel →
  gateway_run source secrets T send scope s → quiet T s → st_watches (se_stream s) !! T = Some w →
  ∀ x v, ws_sent w !! x = Some v ↔
    ∃ r, contains (se_snapshot s) T r ∧ scopeAllows scope r = true ∧ allows (newSubscriptionView w) r = true
      ∧ XDSName r = x ∧ Hash r = v.
Proof. apply gateway_versions. Qed.

#[export] Instance exampleAddressCodec : AddressCodec := {| workloadValue _ := Ok None |}.

Definition exampleGenerate : GenerationRequest → result GeneratedDelta :=
  serverGenerate None (λ _, Err "no certificates") None.

Definition exampleCluster (name value owner : string) : Resource :=
  mkResource (mkKey ClusterType name) "" (Some (mkAny ClusterType value)) [] ""
    (mkFacts None (mkSourceIdentity "") None None None None owner false).

Definition gatewayScope : ClientScope :=
  mkClientScope "" zeroSourceRef ClientEgressGateway zeroPrincipal "" "gw".

Definition clustersBefore : ResourceSet :=
  snapshotOf [exampleCluster "a" "v1" "gw"; exampleCluster "b" "v1" "gw"; exampleCluster "c" "v1" "other"].

Definition clustersAfter : ResourceSet :=
  snapshotOf [exampleCluster "a" "v2" "gw"; exampleCluster "c" "v2" "other"; exampleCluster "d" "v1" "gw"].

Definition clusterRequest : DeltaRequest := mkRequest ClusterType [] [] ∅ "" None.

Lemma cluster_fits w n resources :
  n = snapshotOf resources → served_check ClusterType n = true → distinct_check ClusterType n = true →
  ws_wildcard w = true → fits (H:=snapshot_selector ClusterType) ClusterType gatewayScope w n.
Proof.
  intros -> Hs Hd Hw. pose proof (snapshotOf_ok resources) as Hok. split; [by apply served_check_ok|].
  split; [intros a b ? ? _ _; by apply (distinct_check_ok ClusterType (snapshotOf resources))|]. cbn. congruence.
Qed.

Definition exampleGatewaySession : Session :=
  finalSession exampleGenerate gatewayScope clustersBefore clustersAfter clusterRequest.

(** The session above is a run, and is quiet. *)
Lemma exampleGateway_run :
  gateway_run None (λ _, Err "no certificates") ClusterType accept gatewayScope exampleGatewaySession
  ∧ quiet ClusterType exampleGatewaySession.
Proof.
  set (st1 := fst (subscribed exampleGenerate gatewayScope clustersBefore clusterRequest)).
  set (st2 := finalStream exampleGenerate gatewayScope clustersBefore clustersAfter clusterRequest).
  assert ((ws_wildcard <$> st_watches st1 !! ClusterType) = Some true) as W1 by (vm_compute; reflexivity).
  assert ((ws_wildcard <$> st_watches st2 !! ClusterType) = Some true) as W2 by (vm_compute; reflexivity).
  apply (finalSession_run exampleGenerate gatewayScope clustersBefore clustersAfter clusterRequest ClusterType
    (H:=snapshot_selector ClusterType)); [done|vm_compute; reflexivity| |done| |].
  { apply published_check; [apply snapshotOf_ok|vm_compute; reflexivity]. }
  { intros w Hw. fold st1 in Hw. rewrite Hw in W1. injection W1 as W1.
    split; eapply cluster_fits; [reflexivity|vm_compute; reflexivity|vm_compute; reflexivity|done
      |reflexivity|vm_compute; reflexivity|vm_compute; reflexivity|done]. }
  { intros w Hw. fold st2 in Hw. rewrite Hw in W2. injection W2 as W2.
    eapply cluster_fits; [reflexivity|vm_compute; reflexivity|vm_compute; reflexivity|done]. }
Qed.

Lemma clusters_snapshotType : snapshotType ClusterType.
Proof. unfold snapshotType. apply (bool_decide_unpack _). vm_compute. exact I. Qed.

Lemma gateway_stream_converges_witness :
  let s := exampleGatewaySession in
  ∃ w, st_watches (se_stream s) !! ClusterType = Some w
    ∧ (∀ x v, ws_sent w !! x = Some v ↔
         ∃ r, contains (se_snapshot s) ClusterType r ∧ scopeAllows gatewayScope r = true
           ∧ allows (newSubscriptionView w) r = true ∧ XDSName r = x ∧ Hash r = v)
    ∧ elements (dom (ws_sent w)) = ["a"; "d"].
Proof.
  intros s. assert ((λ w, elements (dom (ws_sent w))) <$> st_watches (se_stream s) !! ClusterType = Some ["a"; "d"]) as W
    by (vm_compute; reflexivity).
  destruct (st_watches (se_stream s) !! ClusterType) as [w|] eqn:Hw; [|discriminate W].
  injection W as W. exists w. split; [reflexivity|]. split; [|exact W]. destruct exampleGateway_run as [Hrun Hq].
  apply (gateway_stream_converges None (λ _, Err "no certificates") ClusterType accept gatewayScope s w);
    [exact clusters_snapshotType|done|exact Hrun|exact Hq|exact Hw].
Defined.

(** ** Traffic policies *)

Definition policy_run `{Codec} `{AddressCodec} (source : SourceReader)
    (secrets : GenerationRequest → result GeneratedDelta)
    (send : DeltaResponse → option string) (scope : ClientScope) : Session → Prop :=
  @session_run TrafficPolicyType (serverGenerate source secrets None) policy_selector send scope.

(** C5: policies follow the workloads that refer to them. The client is any but a dedicated
    node proxy, with a scope that workload queries can answer (a gateway's, or a valid node
    or workload scope). Assume that in every state the resources of the type have wire names
    and versions, two policies have different wire names, and the client does not subscribe
    to the empty name; a resource that keeps its key and hash over a publication is the
    same; the client unsubscribes only from names it is subscribed to, or from the wildcard;
    and no handler has failed, which would end the stream. Then, in whatever order the
    events of the stream come, and with demand-driven subscriptions reconciled name by name,
    once no policy notice waits the session has sent exactly the versions of the published
    policies that the subscription selects and that a published workload in the client's
    scope refers to, although a change of a workload's references is only announced through
    the store's dependency index. *)
Theorem policy_stream_converges `{Codec} `{AddressCodec} source secrets send scope s w q :
  cs_Class scope ≠ ClientDedicatedZTunnel → trafficPolicyWorkloadQuery scope = Some q →
  policy_run source secrets send scope s → quiet TrafficPolicyType s →
  st_watches (se_stream s) !! TrafficPolicyType = Some w →
  ∀ x v, ws_sent w !! x = Some v ↔
    ∃ r a f, contains (se_snapshot s) TrafficPolicyType r ∧ allows (newSubscriptionView w) r = true
      ∧ contains (se_snapshot s) AddressType a ∧ rf_Workload (Facts a) = Some f
      ∧ Matches q (Some f) = true ∧ Name (Key r) ∈ wf_TrafficPolicyRefs f
      ∧ XDSName r = x ∧ Hash r = v.
Proof.
  intros Hclass Hq Hrun Hquiet Hw x v. pose proof (policy_laws source secrets) as Hlaws.
  rewrite (quiet_synced (H:=policy_selector) TrafficPolicyType (serverGenerate source secrets None) send scope
    Hclass s w Hrun Hquiet Hw x v).
  destruct (session_run_inv (H:=policy_selector) TrafficPolicyType (serverGenerate source secrets None) send scope
    Hclass s Hrun) as [Hfit _].
  destruct (Hfit w Hw) as [[Hn _] (Hscope & _)].
  destruct (trafficPolicyWorkloadQuery_ok scope q Hscope Hq) as [Hqok Hu].
  unfold wants, selects. cbn. unfold policySees. rewrite Hq. setoid_rewrite andb_true_iff. split.
  - intros (r & (Hc & Hal & Hv) & E1 & E2).
    apply policyVisible_spec in Hv as (a & f & Ha & Hf & Hm & Hin); [|done..|].
    + exists r, a, f. tauto.
    + by eapply validateResource_name, contains_valid.
  - intros (r & a & f & Hc & Hal & Ha & Hf & Hm & Hin & E1 & E2). exists r. split_and!; [done..| |done|done].
    apply policyVisible_spec; [done..| |by exists a, f].
    by eapply validateResource_name, contains_valid.
Qed.

(** The address "a" turns from the policy "p" to "q". *)
Definition policiesBefore : ResourceSet :=
  snapshotOf [exampleAddress "a" "uid-a" "v1" ["p"]; examplePolicy "p" "v1"; examplePolicy "q" "v1"].

Definition policiesAfter : ResourceSet :=
  snapshotOf [exampleAddress "a" "uid-a" "v1" ["q"]; examplePolicy "p" "v1"; examplePolicy "q" "v1"].

Definition policyRequest : DeltaRequest := mkRequest TrafficPolicyType ["p"; "q"] [] ∅ "" None.

Lemma policy_fits w n resources :
  n = snapshotOf resources → served_check TrafficPolicyType n = true →
  distinct_check TrafficPolicyType n = true → bool_decide ("" ∉ sv_names (newSubscriptionView w)) = true →
  fits (H:=policy_selector) TrafficPolicyType gatewayScope w n.
Proof.
  intros -> Hs Hd Hw. pose proof (snapshotOf_ok resources) as Hok. split; [by apply served_check_ok|].
  split_and!; [by intros q|by apply bool_decide_eq_true in Hw|].
  intros a b. by apply (distinct_check_ok TrafficPolicyType (snapshotOf resources)).
Qed.

Lemma policy_stream_converges_witness :
  let s := finalSession exampleGenerate gatewayScope policiesBefore policiesAfter policyRequest in
  ∃ w, st_watches (se_stream s) !! TrafficPolicyType = Some w
    ∧ (∀ x v, ws_sent w !! x = Some v ↔
         ∃ r a f, contains (se_snapshot s) TrafficPolicyType r ∧ allows (newSubscriptionView w) r = true
           ∧ contains (se_snapshot s) AddressType a ∧ rf_Workload (Facts a) = Some f
           ∧ Matches (refsQuery false true) (Some f) = true ∧ Name (Key r) ∈ wf_TrafficPolicyRefs f
           ∧ XDSName r = x ∧ Hash r = v)
    ∧ elements (dom (ws_sent w)) = ["q"].
Proof.
  set (st1 := fst (subscribed exampleGenerate gatewayScope policiesBefore policyRequest)).
  set (st2 := finalStream exampleGenerate gatewayScope policiesBefore policiesAfter policyRequest).
  assert ((λ w, bool_decide ("" ∉ sv_names (newSubscriptionView w))) <$> st_watches st1 !! TrafficPolicyType
    = Some true) as W1 by (vm_compute; reflexivity).
  assert ((λ w, (bool_decide ("" ∉ sv_names (newSubscriptionView w)), elements (dom (ws_sent w))))
    <$> st_watches st2 !! TrafficPolicyType = Some (true, ["q"])) as W2 by (vm_compute; reflexivity).
  destruct (finalSession_run exampleGenerate gatewayScope policiesBefore policiesAfter policyRequest TrafficPolicyType
    (H:=policy_selector)) as [Hrun Hq]; [done|vm_compute; reflexivity| |done| | |].
  { apply published_check; [apply snapshotOf_ok|vm_compute; reflexivity]. }
  { intros w Hw. fold st1 in Hw. rewrite Hw in W1. injection W1 as W1.
    split; eapply policy_fits; [reflexivity|vm_compute; reflexivity|vm_compute; reflexivity|done
      |reflexivity|vm_compute; reflexivity|vm_compute; reflexivity|done]. }
  { intros w Hw. fold st2 in Hw. rewrite Hw in W2. injection W2 as W2 _.
    eapply policy_fits; [reflexivity|vm_compute; reflexivity|vm_compute; reflexivity|done]. }
  intros s. destruct (st_watches st2 !! TrafficPolicyType) as [w|] eqn:Hw; [|discriminate W2].
  injection W2 as _ W2. exists w. split; [exact Hw|]. split; [|exact W2].
  apply (policy_stream_converges None (λ _, Err "no certificates") accept gatewayScope s w);
    [done|reflexivity|exact Hrun|exact Hq|exact Hw].
Defined.

(** ** Addresses *)

(** The two ways of selecting addresses agree. The list that full generation gathers
    through the indexes, by scope, by gateway and service references and by subscribed
    names, holds exactly the published addresses that incremental generation would select
    one by one. *)
Theorem address_selection scope s sub r :
  set_ok s → scope_ok scope → services_named s → ssorted (sv_names sub) → ("" ∉ sv_names sub) →
  r ∈ selectWorkloadResources scope s AddressType (selectionNames sub) ↔
  contains s AddressType r ∧ addressSelected (newAddressSelection scope s AddressType sub) r = true.
Proof.
  intros Hs Hscope Hserv Hsort Hempty. unfold selectWorkloadResources, selectionNames.
  destruct (sv_wildcard sub) eqn:Hw; cbn [isSome negb default from_option id].
  - rewrite selectionList_spec; [|done..|constructor|apply not_elem_of_nil].
    unfold addressSelected. cbn. by rewrite Hw.
  - rewrite selectionList_spec; [|done..|by apply ssorted_sorted|done].
    unfold addressSelected. cbn. by rewrite Hw.
Qed.

Definition nodeScope : ClientScope :=
  mkClientScope "" zeroSourceRef ClientSharedZTunnel zeroPrincipal "node" "".

Lemma address_selection_witness :
  let sub := mkView false ["10.0.0.9"] ∅ in
  ∃ r, resource_name r = "b" ∧ r ∈ selectWorkloadResources nodeScope exampleSet AddressType (selectionNames sub).
Proof.
  intros sub.
  assert (forallb (λ r, negb (isSome (rf_Service (Facts r)))) (ListType exampleSet AddressType) = true) as Hsv
    by (vm_compute; reflexivity).
  assert (match Get exampleSet (mkKey AddressType "b") with
          | Some r => addressSelected (newAddressSelection nodeScope exampleSet AddressType sub) r
                      && bool_decide (resource_name r = "b")
          | None => false
          end = true) as Hsel by (vm_compute; reflexivity).
  pose proof (snapshotOf_ok [exampleAddress "a" "uid-a" "v1" ["p"]; exampleAddress "b" "uid-b" "v1" [];
    examplePolicy "p" "v1"]) as Hok. fold exampleSet in Hok.
  revert Hsv Hsel Hok. generalize exampleSet. intros n Hsv Hsel Hok.
  destruct (Get n (mkKey AddressType "b")) as [r|] eqn:Hr; [|discriminate].
  apply andb_true_iff in Hsel as [Hsel Hn%bool_decide_eq_true]. exists r. split; [exact Hn|].
  apply (address_selection nodeScope n sub r); [exact Hok| | | | |].
  - intros q [= <-]. split; [vm_compute; reflexivity|discriminate].
  - intros a f Ha Hf. apply (proj1 (ListType_spec n AddressType (set_ok_shape_ok n Hok))) in Ha.
    rewrite forallb_forall in Hsv. specialize (Hsv a ltac:(by apply list_elem_of_In)). by rewrite Hf in Hsv.
  - repeat constructor.
  - apply (bool_decide_unpack _). vm_compute. exact I.
  - split; [|exact Hsel]. split.
    + by rewrite (Get_Key n _ _ (set_ok_shape_ok n Hok) Hr).
    + by rewrite (Get_Key n _ _ (set_ok_shape_ok n Hok) Hr).
Defined.

(** ** Names that were never asked for *)

(** C39: a name the client never asked for can be lost. When a wildcard client gives up a
    name it did not subscribe to, in a request that also acknowledges a response, the
    watch forgets the version it sent although the wildcard still selects the resource;
    nothing is sent in reply, and no later incremental push withdraws the name, because
    withdrawals are only sent for versions the watch remembers. *)
Theorem stray_unsubscribe_forgets generate send now st scope n T w x nonce detail :
  typeAccess (cs_Class scope) T = (true, true) →
  st_watches st !! T = Some w → ws_started w = true → ws_wildcard w = true →
  x ≠ "*" → (x ∉ ws_names w) → nonce ≠ "" →
  ∃ st' w', handleRequest generate send now st scope n (mkRequest T [] [x] ∅ nonce detail) = (st', None)
    ∧ st_output st' = st_output st ∧ st_watches st' !! T = Some w'
    ∧ ws_sent w' !! x = None ∧ (∀ r, allows (newSubscriptionView w') r = true)
    ∧ ∀ n' u visible inScope,
        x ∉ gd_Removed (generateIncremental
              (mkGenRequest scope T (newIncrementalSubscriptionView w' T u) n' u false []) visible None inScope).
Proof.
  intros Hacc Hw Hst Hwild Hx Hn Hnonce. set (request := mkRequest T [] [x] ∅ nonce detail).
  set (w' := (recordAcknowledgement (applySubscription w request).1 request).1).
  destruct (applySubscription_started w request Hst) as (_ & A2 & A3).
  destruct (recordAcknowledgement_core (applySubscription w request).1 request) as (R1 & R2 & _). fold w' in R1, R2.
  assert (ws_sent w' !! x = None) as Hs.
  { rewrite R2, A2, decide_True; [done|]. split; [left|done]. }
  assert (ws_wildcard w' = true) as Hww.
  { unfold watch_core in R1. injection R1 as E _ _ _. rewrite E, A3, Hwild; [done|apply not_elem_of_nil|].
    intros E'%list_elem_of_singleton. by rewrite <-E' in Hx. }
  assert ((applySubscription w request).2 = false) as Hch.
  { unfold applySubscription. rewrite Hst. cbn. rewrite decide_False by done. cbn.
    by rewrite bool_decide_eq_false_2. }
  exists (mkStream (<[T := w']> (st_watches st)) (st_nonce st) (st_output st) (st_registered st ++ [])), w'.
  split_and!; [|done|cbn; apply lookup_insert_eq|done| |].
  - unfold handleRequest. cbn [dr_TypeUrl request]. rewrite Hacc. cbn [negb andb].
    unfold receiveRequest, watchFor. cbn [dr_TypeUrl request]. rewrite Hw. unfold w'.
    destruct (applySubscription w request) as [wa changed]. cbn in Hch. subst changed. cbn [andb negb app fst].
    rewrite bool_decide_eq_true_2 by done. done.
  - intros r. unfold allows. cbn. by rewrite Hww.
  - intros n' u visible inScope Hin. apply generateIncremental_removed in Hin as (c & i & Hc & Hi & <- & Hwd).
    unfold withdrawsIdentity in Hwd. rewrite !andb_true_iff in Hwd. destruct Hwd as [_ Hwd].
    cbn in Hwd. destruct (incremental_view_sent T w' u (id_Name i)) as [_ Hv].
    cbn in Hv. rewrite (Hv c i Hc Hi eq_refl), Hs in Hwd. done.
Qed.

Lemma stray_unsubscribe_forgets_witness :
  ∃ st' w', handleRequest exampleGenerate accept 2
      (fst (subscribed exampleGenerate gatewayScope clustersBefore clusterRequest)) gatewayScope clustersBefore
      (mkRequest ClusterType [] ["a"] ∅ "1" None) = (st', None)
    ∧ st_watches st' !! ClusterType = Some w' ∧ ws_sent w' !! "a" = None
    ∧ allows (newSubscriptionView w') (exampleCluster "a" "v1" "gw") = true.
Proof.
  set (st := fst (subscribed exampleGenerate gatewayScope clustersBefore clusterRequest)).
  assert ((λ w, (ws_started w, ws_wildcard w, elements (ws_names w))) <$> st_watches st !! ClusterType
    = Some (true, true, [])) as W by (vm_compute; reflexivity).
  destruct (st_watches st !! ClusterType) as [w|] eqn:Hw; [|discriminate W]. injection W as W1 W2 W3.
  destruct (stray_unsubscribe_forgets exampleGenerate accept 2 st gatewayScope clustersBefore ClusterType w "a" "1" None)
    as (st' & w' & H1 & _ & H2 & H3 & H4 & _); [reflexivity|exact Hw|exact W1|exact W2|discriminate| |discriminate|].
  - rewrite <-elem_of_elements, W3. apply not_elem_of_nil.
  - exists st', w'. split; [exact H1|]. split; [exact H2|]. split; [exact H3|apply H4].
Defined.
