(* ===== verification/Scheduler.v ===== *)
(** * Scheduler: bounded push scheduling (src/pkg/xds/scheduler.go)

    The critical sections of the scheduler as functions of its state, and the threads
    that run them as a step relation: sessions that enqueue and finish pushes, merges
    outside the lock, cancellations, Close, and the dispatcher that waits for work and
    for capacity. *)

From S2P Require Import Prelude Identity Resource ResourceIndex ResourceSet Update Notices.

(** ** State *)

(** A queued update is present; its absence is [None]. *)
Record queuedUpdate := mkQueued { qu_Update : Update; qu_Started : Z }.

(** Connections are numbered. [ps_slots] and [ps_wake] count the tokens of the channels;
    [ps_processing] has the update that arrived since the assignment. *)
Record PushScheduler := mkScheduler {
  ps_pending : gmap nat queuedUpdate;
  ps_queue : list nat;
  ps_processing : gmap nat (option queuedUpdate);
  ps_cancellations : gset nat;
  ps_slots : nat;
  ps_wake : bool;
  ps_closing : bool
}.

Definition NewPushScheduler : PushScheduler := mkScheduler ∅ [] ∅ ∅ 0 false false.

Definition set_entries (s : PushScheduler) (pending : gmap nat queuedUpdate) (queue : list nat)
    (processing : gmap nat (option queuedUpdate)) (wake : bool) : PushScheduler :=
  mkScheduler pending queue processing (ps_cancellations s) (ps_slots s) wake (ps_closing s).

Definition set_slots (s : PushScheduler) (slots : nat) : PushScheduler :=
  mkScheduler (ps_pending s) (ps_queue s) (ps_processing s) (ps_cancellations s) slots (ps_wake s)
    (ps_closing s).

Definition set_cancellations (s : PushScheduler) (cancellations : gset nat) : PushScheduler :=
  mkScheduler (ps_pending s) (ps_queue s) (ps_processing s) cancellations (ps_slots s) (ps_wake s)
    (ps_closing s).

(** ** Critical sections *)

(** The entry of the connection, and whether it is being processed *)
Definition queuedLocked (s : PushScheduler) (c : nat) : option queuedUpdate * bool :=
  match ps_processing s !! c with
  | Some later => (later, true)
  | None => (ps_pending s !! c, false)
  end.

(** A new entry: kept for later while the connection is being processed, otherwise last
    in the queue *)
Definition placeEntry (s : PushScheduler) (c : nat) (q : queuedUpdate) : PushScheduler :=
  if (queuedLocked s c).2 then set_entries s (ps_pending s) (ps_queue s) (<[c := Some q]> (ps_processing s)) (ps_wake s)
  else set_entries s (<[c := q]> (ps_pending s)) (ps_queue s ++ [c]) (ps_processing s) true.

(** An entry replaced where it is *)
Definition replaceEntry (s : PushScheduler) (c : nat) (q : queuedUpdate) : PushScheduler :=
  if (queuedLocked s c).2 then set_entries s (ps_pending s) (ps_queue s) (<[c := Some q]> (ps_processing s)) (ps_wake s)
  else set_entries s (<[c := q]> (ps_pending s)) (ps_queue s) (ps_processing s) (ps_wake s).

(** What the first part of [enqueue] comes to: nothing for a scheduler that is closing or
    a stream that ended, a new entry, or a merge that runs unlocked *)
Inductive enqueueOutcome := EnqueueDropped | EnqueuePlaced | EnqueueMerging (pending : queuedUpdate).

Definition enqueueStart (s : PushScheduler) (cancelled : gset nat) (c : nat) (u : Update) (now : Z)
    : PushScheduler * enqueueOutcome :=
  if ps_closing s || bool_decide (c ∈ cancelled) then (s, EnqueueDropped)
  else
    let s := set_cancellations s ({[c]} ∪ ps_cancellations s) in
    match (queuedLocked s c).1 with
    | None => (placeEntry s c (mkQueued u now), EnqueuePlaced)
    | Some pending => (s, EnqueueMerging pending)
    end.

(** [enqueue] after the merge: the entry it read is replaced, or was assigned meanwhile *)
Definition enqueueFinish (s : PushScheduler) (cancelled : gset nat) (c : nat) (u : Update)
    (pending : queuedUpdate) (now : Z) : PushScheduler * enqueueOutcome :=
  if ps_closing s || bool_decide (c ∈ cancelled) then (s, EnqueueDropped)
  else
    (match (queuedLocked s c).1 with
     | Some _ => replaceEntry s c (mkQueued (Merge (qu_Update pending) u) (qu_Started pending))
     | None => placeEntry s c (mkQueued u now)
     end, EnqueuePlaced).

(** The loop of [Next] over the queue: the first connection that still waits and whose
    stream lives *)
Fixpoint takeQueue (cancelled : gset nat) (pending : gmap nat queuedUpdate) (queue : list nat)
    : gmap nat queuedUpdate * list nat * option (nat * queuedUpdate) :=
  match queue with
  | [] => (pending, [], None)
  | c :: rest =>
      match pending !! c with
      | None => takeQueue cancelled pending rest
      | Some q =>
          let pending := delete c pending in
          if decide (c ∈ cancelled) then takeQueue cancelled pending rest
          else (pending, rest, Some (c, q))
      end
  end.

Definition nextTake (s : PushScheduler) (cancelled : gset nat) : PushScheduler * option (nat * queuedUpdate) :=
  let '(pending, queue, taken) := takeQueue cancelled (ps_pending s) (ps_queue s) in
  (set_entries s pending queue
     (match taken with Some (c, _) => <[c := None]> (ps_processing s) | None => ps_processing s end) (ps_wake s),
   taken).

(** [Done], and whether a slot is to be released *)
Definition doneLocked (s : PushScheduler) (cancelled : gset nat) (c : nat) : PushScheduler * bool :=
  match ps_processing s !! c with
  | None => (s, false)
  | Some later =>
      let processing := delete c (ps_processing s) in
      (match later with
       | Some q =>
           if ps_closing s || bool_decide (c ∈ cancelled)
           then set_entries s (ps_pending s) (ps_queue s) processing (ps_wake s)
           else set_entries s (<[c := q]> (ps_pending s)) (ps_queue s ++ [c]) processing true
       | None => set_entries s (ps_pending s) (ps_queue s) processing (ps_wake s)
       end, true)
  end.

(** [cancel], and whether a slot is to be released *)
Definition cancelLocked (s : PushScheduler) (c : nat) : PushScheduler * bool :=
  (set_cancellations
     (set_entries s (delete c (ps_pending s)) (ps_queue s) (delete c (ps_processing s)) (ps_wake s))
     (ps_cancellations s ∖ {[c]}),
   isSome (ps_processing s !! c)).

(** [Close], and how many slots are to be released *)
Definition closeLocked (s : PushScheduler) : PushScheduler * nat :=
  if ps_closing s then (s, 0)
  else (mkScheduler ∅ [] ∅ ∅ (ps_slots s) (ps_wake s) true, size (ps_processing s)).

(** ** Threads *)

(** Where the dispatcher is: in [Next], about to look for work, waiting for a wake token,
    waiting for a slot, or holding one; delivering a push; or returned for good *)
Inductive dispatcher := D_check | D_wait | D_slot | D_take | D_deliver (c : nat) | D_stopped.

(** The streams whose context ended, the sessions that left, the merges under way (with
    the connection's enqueue lock held: the update, the entry read and the time), the
    connections with a push in their channel, those whose session handles one, the threads
    that left the lock and still have to release their slot, and the dispatcher *)
Record SchedulerSystem := mkSystem {
  sy_scheduler : PushScheduler;
  sy_cancelled : gset nat;
  sy_retired : gset nat;
  sy_merging : gmap nat (Update * queuedUpdate * Z);
  sy_buffered : gset nat;
  sy_handling : gset nat;
  sy_releasing : nat;
  sy_dispatcher : dispatcher
}.

(** What a run shows: an update is accepted, a push is assigned *)
Inductive sched_event :=
| Enqueued (c : nat) (u : Update)
| Assigned (c : nat) (q : queuedUpdate).

(** Who takes a step: the streams, or the dispatcher and the threads that release slots *)
Inductive actor := Streams | Dispatch.

Definition startSystem : SchedulerSystem := mkSystem NewPushScheduler ∅ ∅ ∅ ∅ ∅ 0 D_check.

Definition live (y : SchedulerSystem) (c : nat) : Prop :=
  ps_closing (sy_scheduler y) = false ∧ (c ∉ sy_cancelled y) ∧ c ∉ sy_retired y.

Definition accepted (c : nat) (u : Update) (o : enqueueOutcome) : list sched_event :=
  match o with EnqueuePlaced => [Enqueued c u] | _ => [] end.

Definition freed (b : bool) : nat := if b then 1 else 0.

Section threads.
Context (capacity : nat).

Inductive sched_step : actor → SchedulerSystem → list sched_event → SchedulerSystem → Prop :=
  (** A session that has not left enqueues, and either returns or merges first. *)
| sc_enqueue s can ret mer buf han rel d c u now :
    c ∉ ret → mer !! c = None → update_ok u →
    sched_step Streams (mkSystem s can ret mer buf han rel d)
      (accepted c u (enqueueStart s can c u now).2)
      (mkSystem (enqueueStart s can c u now).1 can ret
         (match (enqueueStart s can c u now).2 with
          | EnqueueMerging q => <[c := (u, q, now)]> mer
          | _ => mer
          end) buf han rel d)
  (** The merge is done. *)
| sc_merged s can ret mer buf han rel d c u q now :
    mer !! c = Some (u, q, now) →
    sched_step Streams (mkSystem s can ret mer buf han rel d)
      (accepted c u (enqueueFinish s can c u q now).2)
      (mkSystem (enqueueFinish s can c u q now).1 can ret (delete c mer) buf han rel d)
  (** A stream's context ends, and at some point its callback runs. *)
| sc_context s can ret mer buf han rel d c :
    sched_step Streams (mkSystem s can ret mer buf han rel d) []
      (mkSystem s ({[c]} ∪ can) ret mer buf han rel d)
| sc_callback s can ret mer buf han rel d c :
    c ∈ can →
    sched_step Streams (mkSystem s can ret mer buf han rel d) []
      (mkSystem (cancelLocked s c).1 can ret mer buf han (rel + freed (cancelLocked s c).2) d)
  (** A session leaves; it is neither enqueueing nor handling a push. *)
| sc_leave s can ret mer buf han rel d c :
    mer !! c = None → c ∉ han →
    sched_step Streams (mkSystem s can ret mer buf han rel d) []
      (mkSystem (cancelLocked s c).1 can ({[c]} ∪ ret) mer buf han (rel + freed (cancelLocked s c).2) d)
  (** A session receives a push from its channel, and finishes it. *)
| sc_receive s can ret mer buf han rel d c :
    c ∈ buf → c ∉ han → c ∉ ret →
    sched_step Streams (mkSystem s can ret mer buf han rel d) []
      (mkSystem s can ret mer (buf ∖ {[c]}) ({[c]} ∪ han) rel d)
| sc_done s can ret mer buf han rel d c :
    c ∈ han →
    sched_step Streams (mkSystem s can ret mer buf han rel d) []
      (mkSystem (doneLocked s can c).1 can ret mer buf (han ∖ {[c]}) (rel + freed (doneLocked s can c).2) d)
  (** The server closes the scheduler. *)
| sc_close s can ret mer buf han rel d :
    sched_step Streams (mkSystem s can ret mer buf han rel d) []
      (mkSystem (closeLocked s).1 can ret mer buf han (rel + (closeLocked s).2) d)
  (** A thread releases its slot; it blocks while there is none. *)
| sc_release s can ret mer buf han rel d :
    0 < ps_slots s →
    sched_step Dispatch (mkSystem s can ret mer buf han (S rel) d) []
      (mkSystem (set_slots s (ps_slots s - 1)) can ret mer buf han rel d)
  (** The dispatcher looks for work ... *)
| sc_check s can ret mer buf han rel :
    sched_step Dispatch (mkSystem s can ret mer buf han rel D_check) []
      (mkSystem s can ret mer buf han rel
         (if ps_closing s then D_stopped else match ps_queue s with [] => D_wait | _ => D_slot end))
  (** ... waits for a wake token ... *)
| sc_wake s can ret mer buf han rel :
    ps_wake s = true →
    sched_step Dispatch (mkSystem s can ret mer buf han rel D_wait) []
      (mkSystem (set_entries s (ps_pending s) (ps_queue s) (ps_processing s) false)
         can ret mer buf han rel D_check)
  (** ... or for the close ... *)
| sc_closed s can ret mer buf han rel d :
    ps_closing s = true → d = D_wait ∨ d = D_slot →
    sched_step Dispatch (mkSystem s can ret mer buf han rel d) []
      (mkSystem s can ret mer buf han rel D_stopped)
  (** ... takes a slot while there is capacity ... *)
| sc_slot s can ret mer buf han rel :
    ps_slots s < capacity →
    sched_step Dispatch (mkSystem s can ret mer buf han rel D_slot) []
      (mkSystem (set_slots s (S (ps_slots s))) can ret mer buf han rel D_take)
  (** ... gives it back when the scheduler is closing ... *)
| sc_stop s can ret mer buf han rel :
    ps_closing s = true →
    sched_step Dispatch (mkSystem s can ret mer buf han rel D_take) []
      (mkSystem s can ret mer buf han (S rel) D_stopped)
  (** ... or assigns the first connection, and gives it back when there is none; ... *)
| sc_take s can ret mer buf han rel :
    ps_closing s = false →
    sched_step Dispatch (mkSystem s can ret mer buf han rel D_take)
      (match (nextTake s can).2 with Some (c, q) => [Assigned c q] | None => [] end)
      (mkSystem (nextTake s can).1 can ret mer buf han
         (rel + match (nextTake s can).2 with Some _ => 0 | None => 1 end)
         (match (nextTake s can).2 with Some (c, _) => D_deliver c | None => D_check end))
  (** it puts the push into the connection's channel, which has room for one, ... *)
| sc_deliver s can ret mer buf han rel c :
    c ∉ buf →
    sched_step Dispatch (mkSystem s can ret mer buf han rel (D_deliver c)) []
      (mkSystem s can ret mer ({[c]} ∪ buf) han rel D_check)
  (** ... or finishes it itself when the stream or the scheduler ended. *)
| sc_return s can ret mer buf han rel c :
    c ∈ can ∨ ps_closing s = true →
    sched_step Dispatch (mkSystem s can ret mer buf han rel (D_deliver c)) []
      (mkSystem (doneLocked s can c).1 can ret mer buf han (rel + freed (doneLocked s can c).2) D_check).

(** The states a run reaches, with what it showed *)
Inductive sched_run : list sched_event → SchedulerSystem → Prop :=
| sn_start : sched_run [] startSystem
| sn_step tr a y ev y' : sched_run tr y → sched_step a y ev y' → sched_run (tr ++ ev) y'.

(** Steps of the dispatcher and the releasing threads alone *)
Inductive dispatch_run : SchedulerSystem → list sched_event → SchedulerSystem → Prop :=
| dr_refl y : dispatch_run y [] y
| dr_step y ev y' tr z : sched_step Dispatch y ev y' → dispatch_run y' tr z → dispatch_run y (ev ++ tr) z.
End threads.
