(* ===== verification/SchedulerInvariant.v ===== *)
(** * SchedulerInvariant: the state a run of the scheduler reaches

    Slots are accounted for, the queue has each waiting connection once, an assigned push
    is in one place, a waiting dispatcher is woken, and what was enqueued is waiting or was
    assigned. *)

From S2P Require Import Prelude Identity Resource ResourceIndex ResourceSet Update Notices Scheduler.

(** The entry of a connection *)
Definition queued (s : PushScheduler) (c : nat) : option queuedUpdate := (queuedLocked s c).1.

Lemma queued_unfold s c :
  queued s c = match ps_processing s !! c with Some later => later | None => ps_pending s !! c end.
Proof. unfold queued, queuedLocked. by destruct (ps_processing s !! c). Qed.

Lemma takeQueue_skip can pending c queue :
  pending !! c = None ∨ c ∈ can → takeQueue can pending (c :: queue) = takeQueue can (delete c pending) queue.
Proof.
  intros Hc. simpl. destruct (pending !! c) as [q|] eqn:Hq; [|by rewrite delete_id].
  by rewrite decide_True by naive_solver.
Qed.

(** What the loop of [Next] takes: it skips connections without an entry and ended streams *)
Lemma takeQueue_spec can queue : ∀ pending, NoDup queue →
  ∃ skipped,
    (∀ k, k ∈ skipped → pending !! k = None ∨ k ∈ can) ∧
    let '(pending', rest, taken) := takeQueue can pending queue in
    queue = skipped ++ match taken with Some (c, _) => c :: rest | None => rest end ∧
    match taken with Some (c, q) => pending !! c = Some q ∧ c ∉ can | None => rest = [] end ∧
    ∀ k, pending' !! k = if decide (k ∈ skipped ∨ fst <$> taken = Some k) then None else pending !! k.
Proof.
  induction queue as [|c queue IH]; intros pending Hnd.
  { exists []. cbn [takeQueue]. split; [set_solver|]. split; [done|]. split; [done|]. intros k. case_decide; set_solver. }
  apply NoDup_cons in Hnd as [Hc Hnd].
  destruct (decide (pending !! c = None ∨ c ∈ can)) as [Hskip|Htake].
  - rewrite takeQueue_skip by done.
    destruct (IH (delete c pending) Hnd) as (skipped & Hskipped & Hspec). exists (c :: skipped).
    split.
    { intros k [->|Hk]%elem_of_cons; [done|]. destruct (Hskipped k Hk) as [Hn|]; [|by right].
      apply lookup_delete_None in Hn as [->|]; [done|by left]. }
    destruct (takeQueue can (delete c pending) queue) as [[pending' rest] taken].
    destruct Hspec as (Hqueue & Htaken & Hother). split; [by rewrite Hqueue|]. split.
    + destruct taken as [[c' q]|]; [|done]. destruct Htaken as [Hp%lookup_delete_Some Hcan]. naive_solver.
    + intros k. rewrite Hother. destruct (decide (k = c)) as [->|Hne].
      * rewrite lookup_delete_eq. repeat case_decide; set_solver.
      * rewrite lookup_delete_ne by done. repeat case_decide; set_solver.
  - destruct (pending !! c) as [q|] eqn:Hq; [|naive_solver]. assert (Hcan : c ∉ can) by naive_solver. exists [].
    cbn [takeQueue]. rewrite Hq, decide_False by done. split; [set_solver|]. split; [done|]. split; [done|].
    intros k. destruct (decide (k = c)) as [->|Hne].
    + rewrite lookup_delete_eq, decide_True by (by right). done.
    + rewrite lookup_delete_ne, decide_False by (done || set_solver). done.
Qed.

(** ** The queue *)

(** A connection waits or is assigned, not both; it waits once in the queue; and a queue
    entry without an update belongs to a stream that is over. *)
Record shape (y : SchedulerSystem) : Prop := mkShape {
  sh_disjoint c q : ps_pending (sy_scheduler y) !! c = Some q → ps_processing (sy_scheduler y) !! c = None;
  sh_nodup : NoDup (ps_queue (sy_scheduler y));
  sh_waiting c q : ps_pending (sy_scheduler y) !! c = Some q → c ∈ ps_queue (sy_scheduler y);
  sh_queue c : c ∈ ps_queue (sy_scheduler y) → live y c → is_Some (ps_pending (sy_scheduler y) !! c);
  sh_pending c q : ps_pending (sy_scheduler y) !! c = Some q → c ∉ sy_retired y;
  sh_processing c l : ps_processing (sy_scheduler y) !! c = Some l → c ∉ sy_retired y;
  sh_merging c v : sy_merging y !! c = Some v → c ∉ sy_retired y
}.

(** The states of the scheduler with the same shape: entries may change their content,
    and the other fields. *)
Lemma shape_place s can ret mer buf han rel d c q :
  shape (mkSystem s can ret mer buf han rel d) → live (mkSystem s can ret mer buf han rel d) c →
  queued s c = None → shape (mkSystem (placeEntry s c q) can ret mer buf han rel d).
Proof.
  intros [Hdis Hnd Hw Hq Hpe Hpr Hm] Hlive Hnone. rewrite queued_unfold in Hnone.
  unfold placeEntry, queuedLocked, live in *. destruct s as [pe qu pr ca sl wa cl]; simpl in *.
  destruct (pr !! c) as [l|] eqn:Hc; simpl; constructor; unfold live; simpl; try done.
  - intros c' q' Hp. destruct (decide (c' = c)) as [->|Hne]; [by rewrite (Hdis _ _ Hp) in Hc|].
    rewrite lookup_insert_ne by done. by eapply Hdis.
  - intros c' l' Hp. destruct (decide (c' = c)) as [->|Hne]; [naive_solver|].
    rewrite lookup_insert_ne in Hp by done. by eapply Hpr.
  - intros c' q' [[-> ->]|[Hne Hp]]%lookup_insert_Some; [done|by eapply Hdis].
  - apply NoDup_app. repeat split; [done| |apply NoDup_singleton].
    intros c' Hin ->%list_elem_of_singleton. destruct (Hq c Hin) as [? ?]; [naive_solver|congruence].
  - intros c' q' [[-> ->]|[Hne Hp]]%lookup_insert_Some; [set_solver|]. apply elem_of_app. left. by eapply Hw.
  - intros c' Hin Hl. destruct (decide (c' = c)) as [->|Hne]; [rewrite lookup_insert_eq; by eexists|].
    rewrite lookup_insert_ne by done. apply Hq; [set_solver|done].
  - intros c' q' [[-> ->]|[Hne Hp]]%lookup_insert_Some; [naive_solver|by eapply Hpe].
Qed.

Lemma shape_replace s can ret mer buf han rel d c q q' :
  shape (mkSystem s can ret mer buf han rel d) → queued s c = Some q' →
  shape (mkSystem (replaceEntry s c q) can ret mer buf han rel d).
Proof.
  intros [Hdis Hnd Hw Hq Hpe Hpr Hm] Hsome. rewrite queued_unfold in Hsome.
  unfold replaceEntry, queuedLocked in *. destruct s as [pe qu pr ca sl wa cl]; simpl in *.
  destruct (pr !! c) as [l|] eqn:Hc; simpl; constructor; unfold live in *; simpl in *; try done.
  - intros c' q'' Hp. destruct (decide (c' = c)) as [->|Hne]; [by rewrite (Hdis _ _ Hp) in Hc|].
    rewrite lookup_insert_ne by done. by eapply Hdis.
  - intros c' l' Hp. destruct (decide (c' = c)) as [->|Hne]; [by eapply Hpr|].
    rewrite lookup_insert_ne in Hp by done. by eapply Hpr.
  - intros c' q'' [[-> ->]|[Hne Hp]]%lookup_insert_Some; [done|by eapply Hdis].
  - intros c' q'' [[-> ->]|[Hne Hp]]%lookup_insert_Some; by eapply Hw.
  - intros c' Hin Hl. destruct (decide (c' = c)) as [->|Hne]; [rewrite lookup_insert_eq; by eexists|].
    rewrite lookup_insert_ne by done. by apply Hq.
  - intros c' q'' [[-> ->]|[Hne Hp]]%lookup_insert_Some; by eapply Hpe.
Qed.

(** Fields the shape does not look at *)
Lemma shape_same y y' :
  ps_pending (sy_scheduler y') = ps_pending (sy_scheduler y) →
  ps_queue (sy_scheduler y') = ps_queue (sy_scheduler y) →
  ps_processing (sy_scheduler y') = ps_processing (sy_scheduler y) →
  (∀ c, live y' c → live y c) → sy_retired y' = sy_retired y →
  (∀ c v, sy_merging y' !! c = Some v → c ∉ sy_retired y) → shape y → shape y'.
Proof.
  intros Hp Hq Hpr Hl Hr Hm [H1 H2 H3 H4 H5 H6 H7].
  constructor; rewrite ?Hp, ?Hq, ?Hpr, ?Hr; eauto.
Qed.

Lemma shape_done s can ret mer buf han rel d c buf' han' rel' d' :
  shape (mkSystem s can ret mer buf han rel d) →
  shape (mkSystem (doneLocked s can c).1 can ret mer buf' han' rel' d').
Proof.
  intros [Hdis Hnd Hw Hq Hpe Hpr Hm]. unfold doneLocked, live in *.
  destruct s as [pe qu pr ca sl wa cl]; simpl in *.
  assert (Hdel : shape (mkSystem (mkScheduler pe qu (delete c pr) ca sl wa cl) can ret mer buf' han' rel' d')).
  { constructor; unfold live; simpl; try done.
    - intros c' q' Hp. apply lookup_delete_None. right. by eapply Hdis.
    - intros c' l [_ Hp]%lookup_delete_Some. by eapply Hpr. }
  destruct (pr !! c) as [[q|]|] eqn:Hc; simpl; [|done|by constructor].
  destruct (cl || bool_decide (c ∈ can)) eqn:Hg; [done|]. apply orb_false_iff in Hg as [-> Hcan%bool_decide_eq_false].
  assert (Hnew : pe !! c = None) by (destruct (pe !! c) as [q'|] eqn:Hx; [by rewrite (Hdis _ _ Hx) in Hc|done]).
  eapply (shape_place _ can ret mer buf' han' rel' d' c q) in Hdel.
  - unfold placeEntry, queuedLocked in Hdel. simpl in Hdel. by rewrite lookup_delete_eq in Hdel.
  - split; [done|split; [done|]]. by eapply Hpr.
  - by rewrite queued_unfold; simpl; rewrite lookup_delete_eq.
Qed.

Lemma shape_cancel s can ret mer buf han rel d c rel' :
  shape (mkSystem s can ret mer buf han rel d) →
  (c ∈ can → shape (mkSystem (cancelLocked s c).1 can ret mer buf han rel' d)) ∧
  (mer !! c = None → shape (mkSystem (cancelLocked s c).1 can ({[c]} ∪ ret) mer buf han rel' d)).
Proof.
  intros [Hdis Hnd Hw Hq Hpe Hpr Hm]. unfold cancelLocked, live in *.
  destruct s as [pe qu pr ca sl wa cl]; simpl in *.
  assert (Hwait : ∀ c' q', delete c pe !! c' = Some q' → delete c pr !! c' = None ∧ c' ∈ qu ∧ c' ∉ {[c]} ∪ ret).
  { intros c' q' [Hne Hp]%lookup_delete_Some. rewrite lookup_delete_ne by done. set_solver by eauto. }
  assert (Hproc : ∀ c' l, delete c pr !! c' = Some l → c' ∉ {[c]} ∪ ret).
  { intros c' l [Hne Hp]%lookup_delete_Some. set_solver by eauto. }
  assert (Hqueue : ∀ c', c' ∈ qu → c' ≠ c → cl = false ∧ (c' ∉ can) ∧ c' ∉ ret → is_Some (delete c pe !! c')).
  { intros c' Hin Hne Hl. rewrite lookup_delete_ne by done. by apply Hq. }
  split; intros Hc; constructor; unfold live; simpl; try done.
  all: try (intros c' q' (H1 & H2 & H3)%Hwait; set_solver).
  all: try (intros c' l' H1%Hproc; set_solver).
  - intros c' Hin Hl. apply Hqueue; [done|set_solver|done].
  - intros c' Hin Hl. apply Hqueue; [done|set_solver|set_solver].
  - intros c' v Hv. assert (c' ≠ c) by congruence. set_solver by eauto.
Qed.

Lemma shape_take s can ret mer buf han rel d rel' d' :
  ps_closing s = false → shape (mkSystem s can ret mer buf han rel d) →
  shape (mkSystem (nextTake s can).1 can ret mer buf han rel' d').
Proof.
  intros Hcl [Hdis Hnd Hw Hq Hpe Hpr Hm]. unfold nextTake, live in *.
  destruct s as [pe qu pr ca sl wa cl]; simpl in *. subst cl.
  destruct (takeQueue_spec can qu pe Hnd) as (skipped & Hskip & Hspec).
  destruct (takeQueue can pe qu) as [[pe' rest] taken]. destruct Hspec as (Hqueue & Htaken & Hother).
  assert (Hsub : ∀ k v, pe' !! k = Some v → pe !! k = Some v ∧ (k ∉ skipped) ∧ fst <$> taken ≠ Some k).
  { intros k v. rewrite Hother. case_decide as Hk; [done|]. naive_solver. }
  assert (Hrest : ∀ k, k ∈ rest → k ∈ qu ∧ (k ∉ skipped) ∧ fst <$> taken ≠ Some k).
  { intros k Hk. subst qu. destruct taken as [[c q]|]; [|subst rest; by apply not_elem_of_nil in Hk].
    apply NoDup_app in Hnd as (_ & Hdisj & [Hc _]%NoDup_cons).
    repeat split; [set_solver|intros Hs; apply (Hdisj k Hs); set_solver|simpl; congruence]. }
  constructor; unfold live; simpl.
  - intros k v [Hp [_ Hne]]%Hsub. specialize (Hdis _ _ Hp). destruct taken as [[c q]|]; [|done].
    rewrite lookup_insert_ne; [done|simpl in *; congruence].
  - subst qu. destruct taken as [[c q]|]; [|subst rest; constructor].
    apply NoDup_app in Hnd as (_ & _ & [_ ?]%NoDup_cons). done.
  - intros k v [Hp [Hs Hne]]%Hsub. apply Hw in Hp. subst qu. destruct taken as [[c q]|]; [simpl in Hne|]; set_solver.
  - intros k (Hin & Hs & Hne)%Hrest Hl. rewrite Hother, decide_False by naive_solver. by apply Hq.
  - intros k v [Hp _]%Hsub. by eapply Hpe.
  - intros k v. destruct taken as [[c q]|]; [|by apply Hpr].
    intros [[-> _]|[_ Hp]]%lookup_insert_Some; [|by eapply Hpr]. destruct Htaken as [Hp _]. by eapply Hpe.
  - done.
Qed.

Lemma enqueueStart_cases s can c u now :
  enqueueStart s can c u now = (s, EnqueueDropped) ∨
  (ps_closing s = false ∧ (c ∉ can) ∧
   let s1 := set_cancellations s ({[c]} ∪ ps_cancellations s) in
   (queued s c = None ∧ enqueueStart s can c u now = (placeEntry s1 c (mkQueued u now), EnqueuePlaced) ∨
    ∃ q, queued s c = Some q ∧ enqueueStart s can c u now = (s1, EnqueueMerging q))).
Proof.
  unfold enqueueStart. destruct (ps_closing s) eqn:Hcl; [by left|]. simpl.
  case_bool_decide as Hcan; [by left|]. right. split; [done|]. split; [done|]. simpl.
  change (queuedLocked (set_cancellations s ({[c]} ∪ ps_cancellations s)) c) with (queuedLocked s c).
  unfold queued. destruct (queuedLocked s c).1 as [q|]; [right; by exists q|by left].
Qed.

Lemma enqueueFinish_cases s can c u q now :
  enqueueFinish s can c u q now = (s, EnqueueDropped) ∨
  (ps_closing s = false ∧ (c ∉ can) ∧
   (queued s c = None ∧ enqueueFinish s can c u q now = (placeEntry s c (mkQueued u now), EnqueuePlaced) ∨
    ∃ q', queued s c = Some q' ∧
      enqueueFinish s can c u q now =
        (replaceEntry s c (mkQueued (Merge (qu_Update q) u) (qu_Started q)), EnqueuePlaced))).
Proof.
  unfold enqueueFinish. destruct (ps_closing s) eqn:Hcl; [by left|]. simpl.
  case_bool_decide as Hcan; [by left|]. right. split; [done|]. split; [done|].
  unfold queued. destruct (queuedLocked s c).1 as [q'|]; [right; by exists q'|by left].
Qed.

(** The steps by what they do to the scheduler: a case analysis shared by the invariants *)
Ltac sched_cases :=
  match goal with
  | H : sched_step _ _ _ _ _ |- _ => inversion H; subst; clear H
  end;
  repeat match goal with
  | |- context [enqueueStart ?s ?can ?c ?u ?now] =>
      destruct (enqueueStart_cases s can c u now)
        as [-> | (Hopen & Hgoing & [[Hentry ->] | (qread & Hentry & ->)])]; cbn [fst snd accepted]
  | |- context [enqueueFinish ?s ?can ?c ?u ?q ?now] =>
      destruct (enqueueFinish_cases s can c u q now)
        as [-> | (Hopen & Hgoing & [[Hentry ->] | (qread & Hentry & ->)])]; cbn [fst snd accepted]
  end.

Ltac shape_same Hs :=
  eapply shape_same; [..|exact Hs]; simpl; try done;
  try lazymatch goal with |- ∀ _, live _ _ → live _ _ => unfold live; simpl; set_solver end;
  try apply (sh_merging _ Hs);
  try (intros ? ? [_ Hmerging]%lookup_delete_Some; by apply (sh_merging _ Hs _ _ Hmerging)).

Section invariants.
Context (capacity : nat).

Lemma shape_step a y ev y' : sched_step capacity a y ev y' → shape y → shape y'.
Proof.
  intros Hstep Hs. sched_cases.
  all: try by shape_same Hs.
  - eapply shape_place; [shape_same Hs|done..].
  - shape_same Hs. intros c' v [[-> _]|[_ Hv]]%lookup_insert_Some; [done|]. by apply (sh_merging _ Hs c' v).
  - eapply shape_place; [shape_same Hs| |done].
    split; [done|split; [done|]]. by eapply (sh_merging _ Hs).
  - eapply shape_replace; [shape_same Hs|done].
  - by eapply (shape_cancel _ _ _ _ _ _ _ _ c).
  - by eapply (shape_cancel _ _ _ _ _ _ _ _ c).
  - by eapply shape_done.
  - unfold closeLocked. destruct (ps_closing s) eqn:Hcl; simpl.
    + shape_same Hs.
    + constructor; simpl; try (intros ??; by rewrite lookup_empty); [constructor|set_solver|apply Hs].
  - by eapply shape_take.
  - by eapply shape_done.
Qed.

(** ** Slots *)

Definition holding (d : dispatcher) : nat := match d with D_take => 1 | _ => 0 end.

(** A slot is taken by an assigned push, by a thread about to release it, or by the
    dispatcher. *)
Definition counts (y : SchedulerSystem) : Prop :=
  ps_slots (sy_scheduler y) =
    size (ps_processing (sy_scheduler y)) + sy_releasing y + holding (sy_dispatcher y) ∧
  ps_slots (sy_scheduler y) ≤ capacity.

Lemma placeEntry_size s c q :
  size (ps_processing (placeEntry s c q)) = size (ps_processing s) ∧ ps_slots (placeEntry s c q) = ps_slots s.
Proof.
  unfold placeEntry, queuedLocked. destruct (ps_processing s !! c) eqn:Hc; simpl; [|done].
  by rewrite map_size_insert_Some by (rewrite Hc; by eexists).
Qed.

Lemma replaceEntry_size s c q :
  size (ps_processing (replaceEntry s c q)) = size (ps_processing s) ∧ ps_slots (replaceEntry s c q) = ps_slots s.
Proof.
  unfold replaceEntry, queuedLocked. destruct (ps_processing s !! c) eqn:Hc; simpl; [|done].
  by rewrite map_size_insert_Some by (rewrite Hc; by eexists).
Qed.

Lemma delete_size {A} (m : gmap nat A) c : size m = size (delete c m) + freed (isSome (m !! c)).
Proof.
  destruct (m !! c) as [x|] eqn:Hc; simpl; [|rewrite delete_id by done; lia].
  rewrite map_size_delete_Some by (by eexists). pose proof (map_size_ne_0_lookup_2 m c). 
  assert (size m ≠ 0) by (apply H; by eexists). lia.
Qed.

Lemma doneLocked_size s can c :
  size (ps_processing s) = size (ps_processing (doneLocked s can c).1) + freed (doneLocked s can c).2 ∧
  ps_slots (doneLocked s can c).1 = ps_slots s.
Proof.
  pose proof (delete_size (ps_processing s) c) as Hsize. unfold doneLocked.
  destruct (ps_processing s !! c) as [[q|]|] eqn:Hc; simpl in *; [|done|split; [lia|done]].
  by destruct (ps_closing s || bool_decide (c ∈ can)).
Qed.

Lemma counts_step a y ev y' : sched_step capacity a y ev y' → shape y → counts y → counts y'.
Proof.
  intros Hstep Hs [Hc Hcap]. unfold counts in *. sched_cases; cbn [sy_scheduler sy_releasing sy_dispatcher] in *.
  all: try (split; [exact Hc|exact Hcap]).
  - rewrite !(proj1 (placeEntry_size _ _ _)), (proj2 (placeEntry_size _ _ _)). done.
  - rewrite !(proj1 (placeEntry_size _ _ _)), (proj2 (placeEntry_size _ _ _)). done.
  - rewrite !(proj1 (replaceEntry_size _ _ _)), (proj2 (replaceEntry_size _ _ _)). done.
  - simpl. rewrite (delete_size (ps_processing s) c) in Hc. lia.
  - simpl. rewrite (delete_size (ps_processing s) c) in Hc. lia.
  - destruct (doneLocked_size s can c) as [Hd ->]. lia.
  - unfold closeLocked. destruct (ps_closing s); simpl; [lia|]. rewrite map_size_empty. lia.
  - simpl. lia.
  - simpl in *. destruct (ps_closing s); [done|]. by destruct (ps_queue s).
  - destruct H0 as [-> | ->]; done.
  - simpl in *. lia.
  - simpl in *. lia.
  - unfold nextTake. destruct (takeQueue_spec can (ps_queue s) (ps_pending s)) as (sk & Hsk & Hspec); [apply Hs|].
    destruct (takeQueue can (ps_pending s) (ps_queue s)) as [[pe' rest] [[c q]|]]; simpl in *; [|lia].
    destruct Hspec as (_ & [Hp _] & _). rewrite map_size_insert_None by (by eapply (sh_disjoint _ Hs)). lia.
  - destruct (doneLocked_size s can c) as [Hd ->]. simpl in *. lia.
Qed.

(** ** Pushes in flight *)

(** An assigned push is with the dispatcher, in the channel or with the session. *)
Definition in_flight (y : SchedulerSystem) (c : nat) : Prop :=
  sy_dispatcher y = D_deliver c ∨ c ∈ sy_buffered y ∨ c ∈ sy_handling y.

Definition tokens (y : SchedulerSystem) : Prop :=
  ∀ c, ps_closing (sy_scheduler y) = false → c ∉ sy_cancelled y →
  (sy_dispatcher y = D_deliver c → (c ∉ sy_buffered y) ∧ c ∉ sy_handling y) ∧
  (c ∈ sy_buffered y → c ∉ sy_handling y) ∧
  (c ∉ sy_retired y → in_flight y c → is_Some (ps_processing (sy_scheduler y) !! c)).

(** What keeps a push in flight assigned *)
Lemma placeEntry_processing s c q k :
  is_Some (ps_processing s !! k) → is_Some (ps_processing (placeEntry s c q) !! k).
Proof.
  intros Hk. unfold placeEntry. destruct (queuedLocked s c).2; simpl; [|done].
  destruct (decide (k = c)) as [->|Hne]; [rewrite lookup_insert_eq; by eexists|by rewrite lookup_insert_ne].
Qed.

Lemma replaceEntry_processing s c q k :
  is_Some (ps_processing s !! k) → is_Some (ps_processing (replaceEntry s c q) !! k).
Proof.
  intros Hk. unfold replaceEntry. destruct (queuedLocked s c).2; simpl; [|done].
  destruct (decide (k = c)) as [->|Hne]; [rewrite lookup_insert_eq; by eexists|by rewrite lookup_insert_ne].
Qed.

Lemma doneLocked_processing s can c k :
  k ≠ c → ps_processing (doneLocked s can c).1 !! k = ps_processing s !! k.
Proof.
  intros Hne. unfold doneLocked. destruct (ps_processing s !! c) as [[q|]|]; simpl; [|by rewrite lookup_delete_ne|done].
  by destruct (ps_closing s || bool_decide (c ∈ can)); simpl; rewrite lookup_delete_ne.
Qed.

(** The flags of the scheduler that the operations leave alone *)
Lemma placeEntry_closing s c q : ps_closing (placeEntry s c q) = ps_closing s.
Proof. unfold placeEntry. by destruct (queuedLocked s c).2. Qed.
Lemma replaceEntry_closing s c q : ps_closing (replaceEntry s c q) = ps_closing s.
Proof. unfold replaceEntry. by destruct (queuedLocked s c).2. Qed.
Lemma doneLocked_closing s can c : ps_closing (doneLocked s can c).1 = ps_closing s.
Proof.
  unfold doneLocked. destruct (ps_processing s !! c) as [[q|]|]; [|done..].
  by destruct (ps_closing s || bool_decide (c ∈ can)).
Qed.
Lemma nextTake_closing s can : ps_closing (nextTake s can).1 = ps_closing s.
Proof. unfold nextTake. by destruct (takeQueue can (ps_pending s) (ps_queue s)) as [[? ?] ?]. Qed.

Lemma tokens_mono y y' :
  ps_closing (sy_scheduler y') = ps_closing (sy_scheduler y) →
  sy_cancelled y ⊆ sy_cancelled y' → sy_retired y ⊆ sy_retired y' →
  sy_buffered y' = sy_buffered y → sy_handling y' = sy_handling y →
  (∀ c, sy_dispatcher y' = D_deliver c → sy_dispatcher y = D_deliver c) →
  (∀ c, c ∉ sy_cancelled y' → c ∉ sy_retired y' → is_Some (ps_processing (sy_scheduler y) !! c) →
     is_Some (ps_processing (sy_scheduler y') !! c)) →
  tokens y → tokens y'.
Proof.
  intros Hcl Hcan Hret Hb Hh Hd Hp Ht c Hopen Hc. unfold in_flight. rewrite Hb, Hh.
  destruct (Ht c) as (H1 & H2 & H3); [congruence|set_solver|]. split; [by intros ?%Hd; apply H1|].
  split; [done|]. intros Hr Hf. apply Hp; [done..|]. apply H3; [set_solver|].
  destruct Hf as [Hf|Hf]; [left; by apply Hd|by right].
Qed.

Lemma tokens_done s can ret mer buf han rel d c rel' :
  c ∈ han → tokens (mkSystem s can ret mer buf han rel d) →
  tokens (mkSystem (doneLocked s can c).1 can ret mer buf (han ∖ {[c]}) rel' d).
Proof.
  intros Hc Ht k. simpl. rewrite doneLocked_closing. intros Hcl Hk.
  destruct (Ht k Hcl Hk) as (H1 & H2 & H3). simpl in *. unfold in_flight in *; simpl in *.
  split; [set_solver|]. split; [set_solver|]. intros Hr Hf.
  assert (k ≠ c) by (intros ->; destruct Hf as [Hf|Hf]; [apply H1 in Hf|]; set_solver).
  rewrite doneLocked_processing by done. apply H3; [done|set_solver].
Qed.

Lemma tokens_take s can ret mer buf han rel rel' :
  shape (mkSystem s can ret mer buf han rel D_take) → tokens (mkSystem s can ret mer buf han rel D_take) →
  tokens (mkSystem (nextTake s can).1 can ret mer buf han rel'
            (match (nextTake s can).2 with Some (c, _) => D_deliver c | None => D_check end)).
Proof.
  intros Hs Ht k. simpl. rewrite nextTake_closing. intros Hcl Hk.
  destruct (Ht k Hcl Hk) as (H1 & H2 & H3). unfold in_flight in *; simpl in *.
  unfold nextTake. destruct (takeQueue_spec can (ps_queue s) (ps_pending s)) as (sk & Hsk & Hspec); [apply Hs|].
  destruct (takeQueue can (ps_pending s) (ps_queue s)) as [[pe' rest] [[c q]|]]; simpl; [|naive_solver].
  destruct Hspec as (_ & [Hp _] & _).
  pose proof (sh_disjoint _ Hs c q Hp) as Hproc. pose proof (sh_pending _ Hs c q Hp) as Hret. simpl in *.
  split; [|split; [done|]].
  - intros [= ->]. destruct (decide (k ∈ buf ∨ k ∈ han)) as [Hin|]; [|naive_solver].
    destruct (H3 Hret (or_intror Hin)) as [? ?]. congruence.
  - intros Hr Hf. destruct (decide (k = c)) as [->|Hne]; [rewrite lookup_insert_eq; by eexists|].
    rewrite lookup_insert_ne by done. apply H3; [done|]. destruct Hf as [[= ->]|Hf]; [done|by right].
Qed.

Lemma tokens_step a y ev y' : sched_step capacity a y ev y' → shape y → tokens y → tokens y'.
Proof.
  intros Hstep Hs Ht. sched_cases.
  all: try by (eapply tokens_mono; [..|exact Ht]; simpl; try done; apply union_subseteq_r).
  all: try by (eapply tokens_mono; [..|exact Ht]; simpl; try done;
    [by apply placeEntry_closing || apply replaceEntry_closing
    |intros k _ _ Hp; by (apply placeEntry_processing || apply replaceEntry_processing)]).
  - eapply tokens_mono; [..|exact Ht]; simpl; try done; [by rewrite placeEntry_closing|].
    intros k _ _ Hp. by apply placeEntry_processing.
  - eapply tokens_mono; [..|exact Ht]; simpl; try done. intros k Hk _ Hp.
    rewrite lookup_delete_ne by set_solver. done.
  - eapply tokens_mono; [..|exact Ht]; simpl; try done; [set_solver|]. intros k _ Hk Hp.
    rewrite lookup_delete_ne by set_solver. done.
  - intros k Hcl Hk. destruct (Ht k Hcl Hk) as (H1' & H2' & H3'). unfold in_flight in *; simpl in *. set_solver.
  - by eapply tokens_done.
  - intros k Hcl Hk. unfold closeLocked in *. destruct (ps_closing s) eqn:Hc; simpl in *; congruence.
  - eapply tokens_mono; [..|exact Ht]; simpl; try done. intros c. destruct (ps_closing s); [done|]. by destruct (ps_queue s).
  - by eapply tokens_take.
  - intros k Hcl Hk. destruct (Ht k Hcl Hk) as (H1' & H2' & H3'). unfold in_flight in *; simpl in *. set_solver.
  - intros k. simpl. rewrite doneLocked_closing. intros Hcl Hk. destruct (Ht k Hcl Hk) as (H1' & H2' & H3').
    unfold in_flight in *; simpl in *. split; [done|]. split; [done|]. intros Hr Hf.
    rewrite doneLocked_processing by (destruct H as [?|?]; [set_solver|congruence]). apply H3'; [done|naive_solver].
Qed.

(** ** Wake-ups *)

Definition awake (y : SchedulerSystem) : Prop :=
  sy_dispatcher y = D_wait → ps_queue (sy_scheduler y) ≠ [] → ps_wake (sy_scheduler y) = true.

Lemma placeEntry_wake s c q :
  ps_queue (placeEntry s c q) = ps_queue s ∧ ps_wake (placeEntry s c q) = ps_wake s ∨
  ps_wake (placeEntry s c q) = true.
Proof. unfold placeEntry. destruct (queuedLocked s c).2; [by left|by right]. Qed.

Lemma replaceEntry_wake s c q :
  ps_queue (replaceEntry s c q) = ps_queue s ∧ ps_wake (replaceEntry s c q) = ps_wake s.
Proof. unfold replaceEntry. by destruct (queuedLocked s c).2. Qed.

Lemma doneLocked_wake s can c :
  ps_queue (doneLocked s can c).1 = ps_queue s ∧ ps_wake (doneLocked s can c).1 = ps_wake s ∨
  ps_wake (doneLocked s can c).1 = true.
Proof.
  unfold doneLocked. destruct (ps_processing s !! c) as [[q|]|]; [|by left..].
  destruct (ps_closing s || bool_decide (c ∈ can)); [by left|by right].
Qed.

Lemma sched_awake_step a y ev y' : sched_step capacity a y ev y' → awake y → awake y'.
Proof.
  intros Hstep Hw. unfold awake in *. sched_cases; cbn [sy_scheduler sy_dispatcher] in *; try done.
  - intros Hd. destruct (placeEntry_wake (set_cancellations s ({[c]} ∪ ps_cancellations s)) c (mkQueued u now))
      as [[-> ->]|]; [by apply Hw|done].
  - intros Hd. destruct (placeEntry_wake s c (mkQueued u now)) as [[-> ->]|]; [by apply Hw|done].
  - intros Hd. destruct (replaceEntry_wake s c (mkQueued (Merge (qu_Update q) u) (qu_Started q))) as [-> ->]. by apply Hw.
  - intros Hd. destruct (doneLocked_wake s can c) as [[-> ->]|]; [by apply Hw|done].
  - unfold closeLocked. destruct (ps_closing s); [done|]. simpl. done.
  - destruct (ps_closing s); [done|]. by destruct (ps_queue s).
  - by destruct (nextTake s can).2 as [[??]|].
Qed.

(** ** Updates *)

Lemma queued_place s c q k : queued (placeEntry s c q) k = if decide (k = c) then Some q else queued s k.
Proof.
  rewrite !queued_unfold. unfold placeEntry, queuedLocked.
  destruct (ps_processing s !! c) as [l|] eqn:Hc; simpl; case_decide as Hk; subst;
    rewrite ?lookup_insert_eq, ?Hc, ?lookup_insert_ne by done; done.
Qed.

Lemma queued_replace s c q k : queued (replaceEntry s c q) k = if decide (k = c) then Some q else queued s k.
Proof.
  rewrite !queued_unfold. unfold replaceEntry, queuedLocked.
  destruct (ps_processing s !! c) as [l|] eqn:Hc; simpl; case_decide as Hk; subst;
    rewrite ?lookup_insert_eq, ?Hc, ?lookup_insert_ne by done; done.
Qed.

Lemma queued_cancel s c k : queued (cancelLocked s c).1 k = if decide (k = c) then None else queued s k.
Proof.
  rewrite !queued_unfold. unfold cancelLocked; simpl. case_decide as Hk; subst.
  - by rewrite !lookup_delete_eq.
  - by rewrite !lookup_delete_ne.
Qed.

(** Finishing a push moves its later update, or drops it with the stream. *)
Lemma queued_done s can ret mer buf han rel d c k :
  shape (mkSystem s can ret mer buf han rel d) →
  queued (doneLocked s can c).1 k = queued s k ∨
  (ps_closing s = true ∨ k ∈ can) ∧ queued (doneLocked s can c).1 k = None.
Proof.
  intros Hs. rewrite !queued_unfold. unfold doneLocked.
  destruct (ps_processing s !! c) as [l|] eqn:Hc; [|by left].
  assert (Hp : ps_pending s !! c = None).
  { destruct (ps_pending s !! c) as [q|] eqn:Hx; [|done]. pose proof (sh_disjoint _ Hs _ _ Hx). simpl in *. congruence. }
  destruct (decide (k = c)) as [->|Hne].
  - rewrite Hc. destruct l as [q|]; simpl; [|left; by rewrite lookup_delete_eq].
    destruct (ps_closing s) eqn:Hcl; simpl; [right; rewrite lookup_delete_eq; by split; [left|]|].
    case_bool_decide; simpl; rewrite lookup_delete_eq; [right; by split; [right|]|left; by rewrite lookup_insert_eq].
  - left. destruct l as [q|]; simpl; [|by rewrite lookup_delete_ne].
    by destruct (ps_closing s || bool_decide (c ∈ can)); simpl; rewrite lookup_delete_ne, ?lookup_insert_ne.
Qed.

(** Taking the first connection empties its entry, and those of streams that ended. *)
Lemma queued_take s can ret mer buf han rel d k :
  shape (mkSystem s can ret mer buf han rel d) →
  (∀ c q, (nextTake s can).2 = Some (c, q) → queued s c = Some q) ∧
  (queued (nextTake s can).1 k = None ∧
     (k ∈ can ∨ queued s k = None ∨ ∃ q, (nextTake s can).2 = Some (k, q)) ∨
   queued (nextTake s can).1 k = queued s k).
Proof.
  intros Hs. rewrite !queued_unfold. unfold nextTake.
  destruct (takeQueue_spec can (ps_queue s) (ps_pending s)) as (sk & Hsk & Hspec); [apply Hs|].
  destruct (takeQueue can (ps_pending s) (ps_queue s)) as [[pe' rest] taken].
  destruct Hspec as (_ & Htaken & Hother). simpl. split.
  { intros c q ->. destruct Htaken as [Hp _]. rewrite queued_unfold.
    pose proof (sh_disjoint _ Hs c q Hp) as Hn. simpl in Hn. by rewrite Hn. }
  destruct (decide (fst <$> taken = Some k)) as [Hk|Hk].
  { destruct taken as [[c q]|]; simplify_eq/=. left. rewrite lookup_insert_eq. split; [done|]. right. right. by eexists. }
  assert (Hpr : (match taken with Some (c, _) => <[c:=None]> (ps_processing s) | None => ps_processing s end) !! k
    = ps_processing s !! k).
  { destruct taken as [[c q]|]; [|done]. rewrite lookup_insert_ne; [done|]. simpl in Hk. congruence. }
  rewrite Hpr. destruct (ps_processing s !! k); [by right|]. rewrite Hother.
  case_decide as Hin; [|by right]. left. split; [done|]. destruct Hin as [Hin|]; [|done].
  destruct (Hsk k Hin); naive_solver.
Qed.

(** Every update is well formed; a merge under way still finds the entry it read, or none. *)
Record content (y : SchedulerSystem) : Prop := mkContent {
  co_entry c q : queued (sy_scheduler y) c = Some q → update_ok (qu_Update q);
  co_merging c u q now : sy_merging y !! c = Some (u, q, now) → update_ok u ∧ update_ok (qu_Update q);
  co_read c u q now : sy_merging y !! c = Some (u, q, now) → live y c →
    queued (sy_scheduler y) c = None ∨ queued (sy_scheduler y) c = Some q
}.

(** What was accepted for a stream that lives was assigned later, or waits. *)
Definition kept (tr : list sched_event) (y : SchedulerSystem) : Prop :=
  ∀ t1 c u t2, tr = t1 ++ Enqueued c u :: t2 → live y c →
  (∃ q, Assigned c q ∈ t2 ∧ covers (qu_Update q) u) ∨
  (∃ q, queued (sy_scheduler y) c = Some q ∧ covers (qu_Update q) u).

(** A step that shows nothing leaves the entries of living streams alone, up to those
    that only go away. *)
Definition settles (y y' : SchedulerSystem) : Prop :=
  (∀ c, live y' c → live y c) ∧
  ∀ c, queued (sy_scheduler y') c = queued (sy_scheduler y) c ∨
       ¬ live y' c ∧ queued (sy_scheduler y') c = None.

Lemma kept_settles tr y y' : settles y y' → kept tr y → kept tr y'.
Proof.
  intros [Hlive Hq] Hk t1 c u t2 Htr Hl. destruct (Hk t1 c u t2 Htr (Hlive c Hl)) as [?|(q & Hc & Hcov)]; [by left|].
  right. exists q. destruct (Hq c) as [->|[? _]]; [done|done].
Qed.

Lemma content_settles y y' :
  settles y y' → (∀ c v, sy_merging y' !! c = Some v → sy_merging y !! c = Some v) → content y → content y'.
Proof.
  intros [Hlive Hq] Hm [He Hok Hr]. constructor.
  - intros c q Hc. destruct (Hq c) as [Heq|[_ Heq]]; rewrite Heq in Hc; [by eapply He|done].
  - intros c u q now Hc%Hm. by eapply Hok.
  - intros c u q now Hc%Hm Hl. destruct (Hq c) as [->|[_ ->]]; [|by left]. eapply Hr; [done|]. by apply Hlive.
Qed.

Lemma trace_snoc (tr t1 t2 : list sched_event) x e :
  tr ++ [e] = t1 ++ x :: t2 → t2 = [] ∧ x = e ∨ ∃ t2', t2 = t2' ++ [e] ∧ tr = t1 ++ x :: t2'.
Proof.
  destruct t2 as [|y t2 _] using rev_ind; intros Heq.
  - apply app_inj_tail in Heq as [_ ->]. by left.
  - change (t1 ++ x :: t2 ++ [y]) with (t1 ++ (x :: t2) ++ [y]) in Heq. rewrite app_assoc in Heq.
    apply app_inj_tail in Heq as [-> ->]. right. by exists t2.
Qed.

(** An accepted update becomes, or is merged into, the entry of its connection. *)
Lemma kept_enqueued tr y y' c u q :
  (∀ k, live y' k → live y k) →
  (∀ k, queued (sy_scheduler y') k = if decide (k = c) then Some q else queued (sy_scheduler y) k) →
  covers (qu_Update q) u → (∀ q0, queued (sy_scheduler y) c = Some q0 → covers (qu_Update q) (qu_Update q0)) →
  kept tr y → kept (tr ++ [Enqueued c u]) y'.
Proof.
  intros Hlive Hq Hu Hold Hk t1 k v t2 Htr Hl.
  apply trace_snoc in Htr as [[-> [= -> ->]]|(t2' & -> & Htr)].
  - right. exists q. by rewrite Hq, decide_True.
  - destruct (Hk t1 k v t2' Htr (Hlive k Hl)) as [(p & Hp & Hcov)|(p & Hp & Hcov)].
    + left. exists p. set_solver.
    + right. rewrite Hq. case_decide as Hc; [subst k|by exists p].
      exists q. split; [done|]. etrans; [by apply Hold|done].
Qed.

Lemma kept_assigned tr y y' c q :
  (∀ k, live y' k → live y k) → queued (sy_scheduler y) c = Some q →
  (∀ k, k ≠ c → live y' k → queued (sy_scheduler y') k = queued (sy_scheduler y) k) →
  kept tr y → kept (tr ++ [Assigned c q]) y'.
Proof.
  intros Hlive Hc Hq Hk t1 k v t2 Htr Hl. apply trace_snoc in Htr as [[_ ?]|(t2' & -> & Htr)]; [done|].
  destruct (Hk t1 k v t2' Htr (Hlive k Hl)) as [(p & Hp & Hcov)|(p & Hp & Hcov)]; [left; exists p; set_solver|].
  destruct (decide (k = c)) as [->|Hne].
  - left. exists q. assert (p = q) by congruence. subst. set_solver.
  - right. exists p. by rewrite Hq.
Qed.

Lemma settles_same s s' can can' ret ret' mer mer' buf buf' han han' rel rel' d d' :
  can ⊆ can' → ret ⊆ ret' → (ps_closing s' = false → ps_closing s = false) →
  (∀ c, queued s' c = queued s c ∨
        (ps_closing s' = true ∨ c ∈ can' ∨ c ∈ ret') ∧ queued s' c = None) →
  settles (mkSystem s can ret mer buf han rel d) (mkSystem s' can' ret' mer' buf' han' rel' d').
Proof.
  intros Hcan Hret Hcl Hq. unfold settles, live; simpl. split; [set_solver|].
  intros c. destruct (Hq c) as [|[Hgone ?]]; [by left|right]. split; [|done].
  intros (? & ? & ?). destruct Hgone as [?|[?|?]]; congruence.
Qed.

(** The steps that accept and assign nothing *)
Lemma silent_settles a y y' : sched_step capacity a y [] y' → shape y → settles y y'.
Proof.
  intros Hstep Hs. inversion Hstep; subst; clear Hstep.
  all: try by (apply settles_same; try done; intros; left).
  - destruct (enqueueStart_cases s can c u now) as [Heq|(_ & _ & [[_ Heq]|(q & _ & Heq)])]; rewrite Heq in *; [|done|];
      by (apply settles_same; try done; intros; left).
  - destruct (enqueueFinish_cases s can c u q now) as [Heq|(_ & _ & [[_ Heq]|(q' & _ & Heq)])]; rewrite Heq in *; [|done..].
    by (apply settles_same; try done; intros; left).
  - apply settles_same; [set_solver|done..|intros; by left].
  - apply settles_same; [done..|]. intros k. rewrite queued_cancel. case_decide; [right; set_solver|by left].
  - apply settles_same; [done|set_solver|done|]. intros k. rewrite queued_cancel. case_decide; [right; set_solver|by left].
  - apply settles_same; [done..|by rewrite doneLocked_closing|]. intros k. rewrite doneLocked_closing.
    destruct (queued_done s can ret mer buf han rel d c k Hs) as [|[??]]; naive_solver.
  - unfold closeLocked. destruct (ps_closing s) eqn:Hcl; apply settles_same; try done; [by left|]. intros k. right.
    rewrite queued_unfold. simpl. rewrite lookup_empty. split; [by left|]. done.
  - apply settles_same; [done..|by rewrite nextTake_closing|]. intros k.
    destruct (nextTake s can).2 as [[c q]|] eqn:Hn; [done|].
    destruct (queued_take s can ret mer buf han rel D_take k Hs) as [_ [[H1 [?|[?|[? ?]]]]|?]]; [..|by left];
      rewrite H1; [right; naive_solver|by left|congruence].
  - apply settles_same; [done..|by rewrite doneLocked_closing|]. intros k. rewrite doneLocked_closing.
    destruct (queued_done s can ret mer buf han rel (D_deliver c) c k Hs) as [|[??]]; naive_solver.
Qed.

(** An entry is placed or replaced. *)
Lemma content_entry s s' can ret mer mer' buf han rel d c q :
  update_ok (qu_Update q) → (∀ k, queued s' k = if decide (k = c) then Some q else queued s k) →
  ps_closing s' = ps_closing s →
  (∀ k v, mer' !! k = Some v → k ≠ c ∧ mer !! k = Some v) →
  content (mkSystem s can ret mer buf han rel d) → content (mkSystem s' can ret mer' buf han rel d).
Proof.
  intros Hok Hq Hcl Hm [He Hmok Hr]. unfold live in *; constructor; unfold live in *; simpl in *.
  - intros k q'. rewrite Hq. case_decide; [naive_solver|apply He].
  - intros k u q' now [_ Hv]%Hm. by eapply Hmok.
  - intros k u q' now [Hne Hv]%Hm Hl. rewrite Hq, decide_False by done. rewrite Hcl in Hl. by eapply Hr.
Qed.

Lemma content_step a y ev y' : sched_step capacity a y ev y' → shape y → content y → content y'.
Proof.
  intros Hstep Hs Hc. destruct ev as [|e ev].
  { pose proof (silent_settles _ _ _ Hstep Hs) as Hset. destruct Hset as [Hlive Hq]. 
    inversion Hstep; subst; try by (eapply content_settles; [split; eassumption| |exact Hc]; simpl; auto).
    - destruct (enqueueStart_cases s can c u now) as [Heq|(_ & _ & [[_ Heq]|(q & He & Heq)])]; rewrite Heq in *;
        [by (eapply content_settles; [split; eassumption| |exact Hc]; simpl; auto)|done|].
      destruct Hc as [Ho Hm Hr]; constructor; simpl; [done|..].
      + intros k v p t [[-> [= <- <- <-]]|[_ Hv]]%lookup_insert_Some; [|by eapply Hm]. split; [done|]. by eapply Ho.
      + intros k v p t [[-> [= <- <- <-]]|[_ Hv]]%lookup_insert_Some Hl; [by right|]. by eapply Hr.
    - eapply content_settles; [split; eassumption| |exact Hc]. simpl. intros k v [_ ?]%lookup_delete_Some. done. }
  inversion Hstep; subst; try done.
  - destruct (enqueueStart_cases s can c u now) as [Heq|(_ & _ & [[_ Heq]|(q & He & Heq)])]; rewrite Heq in *;
      cbn [fst snd] in *; [done| |done].
    eapply (content_entry s _ _ _ mer _ _ _ _ _ c (mkQueued u now)); [done|intros k; by rewrite queued_place| | |exact Hc].
    + by rewrite placeEntry_closing.
    + intros k v Hk. split; [|done]. simpl in Hk. congruence.
  - assert (Hdel : ∀ k v, delete c mer !! k = Some v → k ≠ c ∧ mer !! k = Some v).
    { intros k v [? ?]%lookup_delete_Some. done. }
    destruct (co_merging _ Hc c u q now) as [Hu Hqok]; [done|].
    destruct (enqueueFinish_cases s can c u q now) as [Heq|(_ & _ & [[_ Heq]|(q' & He & Heq)])]; rewrite Heq in *;
      cbn [fst snd] in *; [done|..].
    + eapply (content_entry s _ _ _ mer _ _ _ _ _ c (mkQueued u now)); [exact Hu|intros k; by rewrite queued_place|by rewrite placeEntry_closing|exact Hdel|exact Hc].
    + eapply (content_entry s _ _ _ mer _ _ _ _ _ c (mkQueued (Merge (qu_Update q) u) (qu_Started q)));
        [by apply Merge_ok|intros k; by rewrite queued_replace|
        by rewrite replaceEntry_closing|exact Hdel|exact Hc].
  - destruct Hc as [Ho Hm Hr]; constructor; unfold live in *; simpl in *.
    + intros k p Hk. destruct (queued_take s can ret mer buf han rel D_take k Hs) as [_ [[Hn _]|Heq]]; [congruence|].
      rewrite Heq in Hk. by eapply Ho.
    + done.
    + rewrite nextTake_closing. intros k v p t Hv Hl.
      destruct (queued_take s can ret mer buf han rel D_take k Hs) as [_ [[Hn _]|Heq]]; [by left|].
      rewrite Heq. by eapply Hr.
Qed.

Lemma kept_step a y ev y' tr :
  sched_step capacity a y ev y' → shape y → content y → kept tr y → kept (tr ++ ev) y'.
Proof.
  intros Hstep Hs Hc Hk. destruct ev as [|e ev].
  { rewrite app_nil_r. eapply kept_settles; [by eapply silent_settles|done]. }
  inversion Hstep; subst; try done.
  - destruct (enqueueStart_cases s can c u now) as [Heq|(_ & _ & [[Hn Heq]|(q & He & Heq)])]; rewrite Heq in *; [done| |done].
    simplify_eq/=. eapply (kept_enqueued _ _ _ _ _ (mkQueued u now)); [..|exact Hk]; simpl.
    + intros k. unfold live; simpl. by rewrite placeEntry_closing.
    + intros k. by rewrite queued_place.
    + done.
    + intros q0. by rewrite Hn.
  - destruct (co_merging _ Hc c u q now) as [Hu Hqok]; [done|].
    destruct (enqueueFinish_cases s can c u q now) as [Heq|(Hop & Hcan & [[Hn Heq]|(q' & He & Heq)])];
      rewrite Heq in *; simplify_eq/=.
    + eapply (kept_enqueued _ _ _ _ _ (mkQueued u now)); [..|exact Hk]; simpl.
      * intros k. unfold live; simpl. by rewrite placeEntry_closing.
      * intros k. by rewrite queued_place.
      * done.
      * intros q0. by rewrite Hn.
    + destruct (Merge_covers _ _ Hqok Hu) as [Hold Hnew].
      eapply (kept_enqueued _ _ _ _ _ (mkQueued (Merge (qu_Update q) u) (qu_Started q))); [..|exact Hk]; simpl.
      * intros k. unfold live; simpl. by rewrite replaceEntry_closing.
      * intros k. by rewrite queued_replace.
      * done.
      * intros q0 Hq0. destruct (co_read _ Hc c u q now) as [Hx|Hx]; simpl in *; [done| |congruence|].
        -- split; [done|split; [done|]]. by eapply (sh_merging _ Hs).
        -- by assert (q0 = q) as -> by congruence.
  - destruct (nextTake s can).2 as [[c q]|] eqn:Hn; [|done]. simplify_eq/=.
    eapply kept_assigned; [..|exact Hk]; simpl.
    + intros k. unfold live; simpl. by rewrite nextTake_closing.
    + destruct (queued_take s can ret mer buf han rel D_take c Hs) as [Hq _]. by apply Hq.
    + intros k Hne (_ & Hcan & _). simpl in *.
      destruct (queued_take s can ret mer buf han rel D_take k Hs) as [_ [[H1 [?|[?|[? ?]]]]|?]]; congruence.
Qed.

(** The dispatcher returns when the scheduler closes. *)
Definition serving (y : SchedulerSystem) : Prop :=
  sy_dispatcher y = D_stopped → ps_closing (sy_scheduler y) = true.

Lemma serving_step a y ev y' : sched_step capacity a y ev y' → serving y → serving y'.
Proof.
  intros Hstep Hd. unfold serving in *. sched_cases; cbn [sy_scheduler sy_dispatcher] in *;
    rewrite ?placeEntry_closing, ?replaceEntry_closing, ?doneLocked_closing, ?nextTake_closing; try done.
  - unfold closeLocked. by destruct (ps_closing s) eqn:Hcl; simpl; rewrite ?Hcl.
  - destruct (ps_closing s); [done|]. by destruct (ps_queue s).
  - by destruct (nextTake s can).2 as [[??]|].
Qed.

Record sched_inv (tr : list sched_event) (y : SchedulerSystem) : Prop := mkSchedInv {
  iv_shape : shape y;
  iv_counts : counts y;
  iv_tokens : tokens y;
  iv_awake : awake y;
  iv_serving : serving y;
  iv_content : content y;
  iv_kept : kept tr y
}.

Lemma run_inv tr y : sched_run capacity tr y → sched_inv tr y.
Proof.
  induction 1 as [|tr a y ev y' _ [Hs Hc Ht Ha Hd Ho Hk] Hstep].
  - constructor.
    + unfold startSystem, NewPushScheduler. constructor; simpl; try (intros ? ? Hin; by rewrite lookup_empty in Hin).
      * constructor.
      * intros c Hin. by apply not_elem_of_nil in Hin.
    + unfold counts, startSystem; simpl. rewrite map_size_empty. lia.
    + intros c _ _. unfold in_flight; simpl. set_solver.
    + done.
    + done.
    + constructor; simpl; intros *; rewrite ?queued_unfold, ?lookup_empty; simpl; rewrite ?lookup_empty; done.
    + intros t1 c u t2 Htr. by destruct t1.
  - constructor; [by eapply shape_step|by eapply counts_step|by eapply tokens_step|by eapply sched_awake_step|
      by eapply serving_step|by eapply content_step|by eapply kept_step].
Qed.

(** ** The dispatcher's progress *)

(** The connection [c] is the next to be assigned: those before it in the queue are over. *)
Definition next_up (s : PushScheduler) (can : gset nat) (c : nat) (q : queuedUpdate) : Prop :=
  ps_closing s = false ∧ ∃ before after,
    ps_queue s = before ++ c :: after ∧
    (∀ k, k ∈ before → ps_pending s !! k = None ∨ k ∈ can) ∧ ps_pending s !! c = Some q ∧ c ∉ can.

Lemma takeQueue_next can before c q after : ∀ pending,
  (c ∉ before) → (∀ k, k ∈ before → pending !! k = None ∨ k ∈ can) → pending !! c = Some q → c ∉ can →
  (takeQueue can pending (before ++ c :: after)).2 = Some (c, q).
Proof.
  induction before as [|k before IH]; intros pending Hc Hb Hp Hcan.
  - simpl. by rewrite Hp, decide_False.
  - change ((k :: before) ++ c :: after) with (k :: (before ++ c :: after)).
    rewrite takeQueue_skip by (apply Hb; set_solver). apply IH; [set_solver| |by rewrite lookup_delete_ne by set_solver|done].
    intros k' Hk'. destruct (Hb k') as [Hn|]; [set_solver|left|by right]. apply lookup_delete_None. by right.
Qed.

Lemma next_up_take s can ret mer buf han rel c q :
  shape (mkSystem s can ret mer buf han rel D_take) → next_up s can c q →
  ∃ y', dispatch_run capacity (mkSystem s can ret mer buf han rel D_take) [Assigned c q] y'.
Proof.
  intros Hs [Hcl (before & after & Hqueue & Hb & Hp & Hcan)].
  assert (Htake : (nextTake s can).2 = Some (c, q)).
  { unfold nextTake. pose proof (sh_nodup _ Hs) as Hnd. simpl in Hnd. rewrite Hqueue in Hnd |- *.
    apply NoDup_app in Hnd as (_ & Hdisj & _).
    pose proof (takeQueue_next can before c q after (ps_pending s)) as Hn.
    destruct (takeQueue can (ps_pending s) (before ++ c :: after)) as [[? ?] ?]. simpl in *.
    apply Hn; [intros Hin; apply (Hdisj c Hin); set_solver|done..]. }
  pose proof (sc_take capacity s can ret mer buf han rel Hcl) as Hstep. rewrite Htake in Hstep.
  eexists. change [Assigned c q] with ([Assigned c q] ++ []). eapply dr_step; [exact Hstep|apply dr_refl].
Qed.

Lemma next_up_slot s can ret mer buf han rel c q :
  shape (mkSystem s can ret mer buf han rel D_slot) → counts (mkSystem s can ret mer buf han rel D_slot) →
  size (ps_processing s) < capacity → next_up s can c q →
  ∃ y', dispatch_run capacity (mkSystem s can ret mer buf han rel D_slot) [Assigned c q] y'.
Proof.
  intros Hs [Hslots Hcap] Hfree Hup. simpl in *.
  assert (Hgo : ∀ s' rel', shape (mkSystem s' can ret mer buf han rel' D_slot) → next_up s' can c q →
    ps_slots s' < capacity → ∃ y', dispatch_run capacity (mkSystem s' can ret mer buf han rel' D_slot) [Assigned c q] y').
  { intros s' rel' Hs' Hup' Hlt.
    destruct (next_up_take (set_slots s' (S (ps_slots s'))) can ret mer buf han rel' c q) as [y' Hrun].
    - shape_same Hs'.
    - exact Hup'.
    - exists y'. apply (dr_step _ _ [] _ [Assigned c q] _ (sc_slot _ _ _ _ _ _ _ _ Hlt) Hrun). }
  destruct (decide (ps_slots s < capacity)) as [Hlt|Hge]; [by apply Hgo|].
  destruct rel as [|rel]; [lia|]. assert (Hpos : 0 < ps_slots s) by lia.
  destruct (Hgo (set_slots s (ps_slots s - 1)) rel) as [y' Hrun]; [shape_same Hs|exact Hup|simpl; lia|].
  exists y'. apply (dr_step _ _ [] _ [Assigned c q] _ (sc_release _ _ _ _ _ _ _ _ _ Hpos) Hrun).
Qed.

Lemma next_up_check s can ret mer buf han rel c q :
  shape (mkSystem s can ret mer buf han rel D_check) → counts (mkSystem s can ret mer buf han rel D_check) →
  size (ps_processing s) < capacity → next_up s can c q →
  ∃ y', dispatch_run capacity (mkSystem s can ret mer buf han rel D_check) [Assigned c q] y'.
Proof.
  intros Hs Hc Hfree Hup. pose proof (sc_check capacity s can ret mer buf han rel) as Hstep.
  destruct Hup as [Hcl (before & after & Hqueue & Hrest)] eqn:Heq. clear Heq. rewrite Hcl in Hstep.
  destruct (ps_queue s) as [|k queue] eqn:Hk; [by destruct before|].
  destruct (next_up_slot s can ret mer buf han rel c q) as [y' Hrun]; [|exact Hc|done| |].
  - shape_same Hs.
  - split; [done|]. exists before, after. by rewrite Hk.
  - exists y'. apply (dr_step _ _ [] _ [Assigned c q] _ Hstep Hrun).
Qed.

(** A waiting dispatcher wakes up, and one that delivers finds the channel empty or the
    stream over; either way it looks for work next. *)
Lemma next_up_dispatch tr y c q :
  sched_inv tr y → size (ps_processing (sy_scheduler y)) < capacity → next_up (sy_scheduler y) (sy_cancelled y) c q →
  ∃ y', dispatch_run capacity y [Assigned c q] y'.
Proof.
  intros [Hs Hc Ht Ha Hd _ _] Hfree Hup. destruct y as [s can ret mer buf han rel d]. simpl in *.
  destruct d as [| | | |c0|].
  - by apply next_up_check.
  - destruct Hup as [Hcl (before & after & Hqueue & Hrest)] eqn:Heq. clear Heq.
    assert (Hwake : ps_wake s = true) by (apply Ha; [done|simpl; rewrite Hqueue; by destruct before]).
    destruct (next_up_check (set_entries s (ps_pending s) (ps_queue s) (ps_processing s) false)
      can ret mer buf han rel c q) as [y' Hrun]; [shape_same Hs|exact Hc|done| |].
    + split; [done|]. by exists before, after.
    + exists y'. apply (dr_step _ _ [] _ [Assigned c q] _ (sc_wake _ _ _ _ _ _ _ _ Hwake) Hrun).
  - by apply next_up_slot.
  - by apply next_up_take.
  - assert (Hcl : ps_closing s = false) by apply Hup.
    destruct (decide (c0 ∈ can)) as [Hcan|Hcan].
    + destruct (doneLocked_size s can c0) as [Hsize Hslots].
      assert (Hkeep : ps_pending (doneLocked s can c0).1 = ps_pending s ∧ ps_queue (doneLocked s can c0).1 = ps_queue s).
      { unfold doneLocked. destruct (ps_processing s !! c0) as [[q0|]|]; [|done..].
        by rewrite Hcl, bool_decide_eq_true_2. }
      pose proof (sc_return capacity s can ret mer buf han rel c0 (or_introl Hcan)) as Hstep.
      destruct (next_up_check (doneLocked s can c0).1 can ret mer buf han (rel + freed (doneLocked s can c0).2) c q)
        as [y' Hrun]; [by eapply shape_done|by eapply (counts_step _ _ _ _ Hstep Hs Hc)|lia| |].
      * destruct Hup as [_ Hup]. split; [by rewrite doneLocked_closing|]. by destruct Hkeep as [-> ->].
      * exists y'. apply (dr_step _ _ [] _ [Assigned c q] _ Hstep Hrun).
    + destruct (Ht c0 Hcl Hcan) as [[Hbuf _] _]; [done|].
      destruct (next_up_check s can ret mer ({[c0]} ∪ buf) han rel c q) as [y' Hrun];
        [shape_same Hs|exact Hc|done|done|].
      exists y'. apply (dr_step _ _ [] _ [Assigned c q] _ (sc_deliver _ _ _ _ _ _ _ _ _ Hbuf) Hrun).
  - specialize (Hd eq_refl). destruct Hup as [Hcl _]. simpl in *. congruence.
Qed.
End invariants.
