(* ===== verification/SchedulerTheorems.v ===== *)
(** * SchedulerTheorems: what the push scheduler guarantees

    Bounded concurrency without a stuck thread, no update lost, and progress of the
    dispatcher in the order of the queue. *)

From S2P Require Import Prelude Identity Resource ResourceIndex ResourceSet Update Notices Executions Scheduler SchedulerInvariant.

(** C21: The scheduler's bounds. In every state a run reaches, the slots taken are at most
    the configured concurrency and at least the pushes assigned, and a thread that still
    has to release a slot finds one to release, so that a release never blocks. A
    connection waits or is assigned, never both; it is in the queue at most once, and a
    queue entry of a stream that lives has an update. The dispatcher never blocks on a
    delivery: the channel of the connection it delivers to is empty, or the stream or the
    scheduler is over. *)
Theorem scheduler_bounds (capacity : nat) (tr : list sched_event) (y : SchedulerSystem) :
  sched_run capacity tr y →
  let s := sy_scheduler y in
  size (ps_processing s) + sy_releasing y ≤ ps_slots s ≤ capacity
  ∧ NoDup (ps_queue s)
  ∧ (∀ c, is_Some (ps_pending s !! c) → c ∈ ps_queue s ∧ ps_processing s !! c = None)
  ∧ (∀ c, live y c → c ∈ ps_queue s → is_Some (ps_pending s !! c))
  ∧ (∀ c, sy_dispatcher y = D_deliver c → (c ∉ sy_buffered y) ∨ c ∈ sy_cancelled y ∨ ps_closing s = true).
Proof.
  intros Hrun. destruct (run_inv _ _ _ Hrun) as [Hs [Hc Hcap] Ht _ _ _ _]. simpl.
  split; [lia|]. split; [apply Hs|]. split.
  { intros c [q Hq]. split; [by eapply (sh_waiting _ Hs)|by eapply (sh_disjoint _ Hs)]. }
  split; [intros c Hl Hin; by apply (sh_queue _ Hs)|].
  intros c Hd. destruct (ps_closing (sy_scheduler y)) eqn:Hcl; [by right; right|].
  destruct (decide (c ∈ sy_cancelled y)) as [|Hcan]; [by right; left|]. left. by apply (Ht c Hcl Hcan).
Qed.

(** C20: No update is lost. An update the scheduler accepted for a stream that still lives
    was assigned after that, in a push that covers it, or is covered by the entry of its
    connection; also when it was merged outside the lock while the entry it was to be
    merged into was being assigned or requeued. *)
Theorem scheduler_no_loss (capacity : nat) (tr1 tr2 : list sched_event) (y : SchedulerSystem) (c : nat) (u : Update) :
  sched_run capacity (tr1 ++ Enqueued c u :: tr2) y → live y c →
  (∃ q, Assigned c q ∈ tr2 ∧ covers (qu_Update q) u) ∨
  (∃ q, (queuedLocked (sy_scheduler y) c).1 = Some q ∧ covers (qu_Update q) u).
Proof. intros Hrun Hl. destruct (run_inv _ _ _ Hrun) as [_ _ _ _ _ _ Hk]. by apply (Hk tr1 c u tr2). Qed.

(** C22: The dispatcher makes progress in queue order. Whenever fewer pushes than the
    configured concurrency are assigned, the first connection of the queue whose stream
    lives is assigned its entry next by steps of the dispatcher and of threads releasing
    slots alone, whatever the dispatcher was doing: waiting for work, for a slot, or
    delivering another push. In particular no wake-up is lost. *)
Theorem scheduler_dispatches (capacity : nat) (tr : list sched_event) (y : SchedulerSystem)
    (before after : list nat) (c : nat) (q : queuedUpdate) :
  sched_run capacity tr y → ps_closing (sy_scheduler y) = false →
  size (ps_processing (sy_scheduler y)) < capacity →
  ps_queue (sy_scheduler y) = before ++ c :: after →
  (∀ k, k ∈ before → ps_pending (sy_scheduler y) !! k = None ∨ k ∈ sy_cancelled y) →
  ps_pending (sy_scheduler y) !! c = Some q → c ∉ sy_cancelled y →
  ∃ y', dispatch_run capacity y [Assigned c q] y'.
Proof.
  intros Hrun Hcl Hfree Hqueue Hb Hp Hcan. apply (next_up_dispatch capacity tr y c q); [by apply run_inv|done|].
  split; [done|]. by exists before, after.
Qed.

(** ** A run *)

(** Two streams wait, the first is assigned, and receives two more updates while it is:
    the second of them is merged outside the lock, during which the push finishes. *)
Definition notice1 : Update := mkUpdate "1" ∅ ∅ true ∅ None.
Definition notice2 : Update := mkUpdate "2" ∅ ∅ true ∅ None.
Definition notice3 : Update := mkUpdate "3" ∅ ∅ true ∅ None.

Definition waiting1 : PushScheduler := (enqueueStart NewPushScheduler ∅ 1 notice1 10).1.
Definition assigned1 : PushScheduler := (nextTake (set_slots waiting1 1) ∅).1.
Definition later1 : PushScheduler := (enqueueStart assigned1 ∅ 1 notice2 20).1.
Definition merging1 : PushScheduler := (enqueueStart later1 ∅ 1 notice3 30).1.
Definition finished1 : PushScheduler := (doneLocked merging1 ∅ 1).1.
Definition merged1 : PushScheduler := (enqueueFinish finished1 ∅ 1 notice3 (mkQueued notice2 20) 30).1.
Definition waiting2 : PushScheduler := (enqueueStart merged1 ∅ 2 notice1 40).1.

Definition exampleTrace : list sched_event :=
  [Enqueued 1 notice1; Assigned 1 (mkQueued notice1 10); Enqueued 1 notice2; Enqueued 1 notice3; Enqueued 2 notice1].

Definition exampleSystem : SchedulerSystem := mkSystem waiting2 ∅ ∅ ∅ ∅ ∅ 1 D_check.

Lemma run_to capacity tr a y ev y' tr2 y2 :
  sched_run capacity tr y → sched_step capacity a y ev y' → y' = y2 → tr ++ ev = tr2 → sched_run capacity tr2 y2.
Proof. intros Hrun Hstep <- <-. by eapply sn_step. Qed.

(** One step of a concrete run; the states are compared by evaluation *)
Tactic Notation "run_from" constr(H) "by" uconstr(rule) :=
  eapply run_to; [exact H | refine rule | vm_compute; reflexivity | vm_compute; reflexivity];
  first [apply full_update_ok | set_solver | vm_compute; reflexivity | vm_compute; lia].

Lemma example_assigned :
  sched_run 1 [Enqueued 1 notice1; Assigned 1 (mkQueued notice1 10)]
    (mkSystem assigned1 ∅ ∅ ∅ ∅ ∅ 0 (D_deliver 1)).
Proof.
  assert (H1 : sched_run 1 [Enqueued 1 notice1] (mkSystem waiting1 ∅ ∅ ∅ ∅ ∅ 0 D_check)).
  { run_from (sn_start 1) by (sc_enqueue 1 NewPushScheduler ∅ ∅ ∅ ∅ ∅ 0 D_check 1 notice1 10 _ _ _). }
  assert (H2 : sched_run 1 [Enqueued 1 notice1] (mkSystem waiting1 ∅ ∅ ∅ ∅ ∅ 0 D_slot)).
  { run_from H1 by (sc_check 1 waiting1 ∅ ∅ ∅ ∅ ∅ 0). }
  assert (H3 : sched_run 1 [Enqueued 1 notice1] (mkSystem (set_slots waiting1 1) ∅ ∅ ∅ ∅ ∅ 0 D_take)).
  { run_from H2 by (sc_slot 1 waiting1 ∅ ∅ ∅ ∅ ∅ 0 _). }
  run_from H3 by (sc_take 1 (set_slots waiting1 1) ∅ ∅ ∅ ∅ ∅ 0 _).
Qed.

Lemma example_handling :
  sched_run 1 [Enqueued 1 notice1; Assigned 1 (mkQueued notice1 10); Enqueued 1 notice2]
    (mkSystem later1 ∅ ∅ ∅ ∅ {[1]} 0 D_check).
Proof.
  assert (H1 : sched_run 1 [Enqueued 1 notice1; Assigned 1 (mkQueued notice1 10)]
                 (mkSystem assigned1 ∅ ∅ ∅ {[1]} ∅ 0 D_check)).
  { run_from example_assigned by (sc_deliver 1 assigned1 ∅ ∅ ∅ ∅ ∅ 0 1 _). }
  assert (H2 : sched_run 1 [Enqueued 1 notice1; Assigned 1 (mkQueued notice1 10)]
                 (mkSystem assigned1 ∅ ∅ ∅ ∅ {[1]} 0 D_check)).
  { run_from H1 by (sc_receive 1 assigned1 ∅ ∅ ∅ {[1]} ∅ 0 D_check 1 _ _ _). }
  run_from H2 by (sc_enqueue 1 assigned1 ∅ ∅ ∅ ∅ {[1]} 0 D_check 1 notice2 20 _ _ _).
Qed.

Definition underway : gmap nat (Update * queuedUpdate * Z) := {[1 := (notice3, mkQueued notice2 20, 30%Z)]}.

Lemma example_run : sched_run 1 exampleTrace exampleSystem.
Proof.
  assert (H1 : sched_run 1 [Enqueued 1 notice1; Assigned 1 (mkQueued notice1 10); Enqueued 1 notice2]
                 (mkSystem merging1 ∅ ∅ underway ∅ {[1]} 0 D_check)).
  { run_from example_handling by (sc_enqueue 1 later1 ∅ ∅ ∅ ∅ {[1]} 0 D_check 1 notice3 30 _ _ _). }
  assert (H2 : sched_run 1 [Enqueued 1 notice1; Assigned 1 (mkQueued notice1 10); Enqueued 1 notice2]
                 (mkSystem finished1 ∅ ∅ underway ∅ ∅ 1 D_check)).
  { run_from H1 by (sc_done 1 merging1 ∅ ∅ underway ∅ {[1]} 0 D_check 1 _). }
  assert (H3 : sched_run 1 [Enqueued 1 notice1; Assigned 1 (mkQueued notice1 10); Enqueued 1 notice2; Enqueued 1 notice3]
                 (mkSystem merged1 ∅ ∅ ∅ ∅ ∅ 1 D_check)).
  { run_from H2 by (sc_merged 1 finished1 ∅ ∅ underway ∅ ∅ 1 D_check 1 notice3 (mkQueued notice2 20) 30 _). }
  run_from H3 by (sc_enqueue 1 merged1 ∅ ∅ ∅ ∅ ∅ 1 D_check 2 notice1 40 _ _ _).
Qed.

Lemma scheduler_bounds_witness : size (ps_processing waiting2) + 1 ≤ ps_slots waiting2 ≤ 1.
Proof. apply (scheduler_bounds 1 exampleTrace exampleSystem example_run). Defined.

Lemma scheduler_no_loss_witness :
  (∃ q, Assigned 1 q ∈ [Enqueued 1 notice3; Enqueued 2 notice1] ∧ covers (qu_Update q) notice2) ∨
  (∃ q, (queuedLocked waiting2 1).1 = Some q ∧ covers (qu_Update q) notice2).
Proof.
  apply (scheduler_no_loss 1 [Enqueued 1 notice1; Assigned 1 (mkQueued notice1 10)]
    [Enqueued 1 notice3; Enqueued 2 notice1] exampleSystem 1 notice2 example_run).
  split; [reflexivity|split; set_solver].
Defined.

Lemma scheduler_dispatches_witness :
  ∃ y', dispatch_run 1 exampleSystem [Assigned 1 (mkQueued (Merge notice2 notice3) 20)] y'.
Proof.
  apply (scheduler_dispatches 1 exampleTrace exampleSystem [] [2] 1 (mkQueued (Merge notice2 notice3) 20) example_run);
    [vm_compute; reflexivity|vm_compute; lia|vm_compute; reflexivity|by intros k Hk%elem_of_nil|vm_compute; reflexivity|apply not_elem_of_empty].
Defined.
