(* ===== verification/SecretVersions.v ===== *)
(** * SecretVersions: versions of issued certificates (src/pkg/xds/sds_generator.go)

    The version of an issued secret has the signing revision, base64url encoded, and the
    deadline, so that any replica can tell from the version alone whether a certificate a
    client holds is still good. *)

From stdpp Require Import pretty.
From S2P Require Import Prelude Identity.

(** ** base64.RawURLEncoding *)

Definition base64url : string := "ABCDEFGHIJKLMNOPQRSTUVWXYZabcdefghijklmnopqrstuvwxyz0123456789-_".

(** The character of six bits, the most significant first *)
Definition sextet (b5 b4 b3 b2 b1 b0 : bool) : ascii :=
  let bit (b : bool) (n : nat) := if b then n else 0 in
  default "A"%char (String.get (bit b5 32 + bit b4 16 + bit b3 8 + bit b2 4 + bit b1 2 + bit b0 1) base64url).

(** A byte has its bits least significant first. *)
Fixpoint RawURLEncode (s : string) : string :=
  match s with
  | "" => ""
  | String (Ascii a0 a1 a2 a3 a4 a5 a6 a7) s =>
      String (sextet a7 a6 a5 a4 a3 a2)
        match s with
        | "" => String (sextet a1 a0 false false false false) ""
        | String (Ascii b0 b1 b2 b3 b4 b5 b6 b7) s =>
            String (sextet a1 a0 b7 b6 b5 b4)
              match s with
              | "" => String (sextet b3 b2 b1 b0 false false) ""
              | String (Ascii c0 c1 c2 c3 c4 c5 c6 c7) s =>
                  String (sextet b3 b2 b1 b0 c7 c6) (String (sextet c5 c4 c3 c2 c1 c0) (RawURLEncode s))
              end
        end
  end.

(** ** strconv.ParseInt in base ten, for 64 bits *)

Definition digit (a : ascii) : option N :=
  let n := N_of_ascii a in if decide (48 ≤ n ∧ n ≤ 57)%N then Some (n - 48)%N else None.

(** The digits of [s] after those worth [n] *)
Fixpoint digits (n : N) (s : string) : option N :=
  match s with
  | "" => Some n
  | String a s => match digit a with Some d => digits (10 * n + d)%N s | None => None end
  end.

Definition parseMagnitude (s : string) : option N := if decide (s = "") then None else digits 0 s.

(** [None] is a syntax or range error. *)
Definition ParseInt (s : string) : option Z :=
  match s with
  | "" => None
  | String a rest =>
      let negative := bool_decide (a = "-"%char) in
      let s := if decide (a = "-"%char ∨ a = "+"%char) then rest else s in
      match parseMagnitude s with
      | None => None
      | Some n =>
          if negative then if decide (2 ^ 63 < n)%N then None else Some (- Z.of_N n)%Z
          else if decide (2 ^ 63 ≤ n)%N then None else Some (Z.of_N n)
      end
  end.

(** ** Versions *)

Definition sdsVersionPrefix (revision : string) : string := "sds/" +:+ RawURLEncode revision +:+ "/".

(** The deadline in nanoseconds, an [int64] *)
Definition sdsResourceVersion (revision : string) (deadline : Z) (content : string) : string :=
  sdsVersionPrefix revision +:+ pretty deadline +:+ "/" +:+ content.

Definition sdsVersionCurrent (version revision : string) (now : Z) : bool :=
  match Split "/" version with
  | [scheme; encoded; deadline; content] =>
      if decide (revision = "" ∨ scheme ≠ "sds" ∨ encoded ≠ RawURLEncode revision ∨ content = "") then false
      else match ParseInt deadline with
           | Some deadline => bool_decide (now < deadline)%Z
           | None => false
           end
  | _ => false
  end.

(** ** Encoding is injective *)

Definition unsextet (a : ascii) : option (bool * bool * bool * bool * bool * bool) :=
  let code := λ n : N, Some (N.testbit n 5, N.testbit n 4, N.testbit n 3, N.testbit n 2, N.testbit n 1, N.testbit n 0) in
  let n := N_of_ascii a in
  if decide (65 ≤ n ∧ n ≤ 90)%N then code (n - 65)%N
  else if decide (97 ≤ n ∧ n ≤ 122)%N then code (n - 71)%N
  else if decide (48 ≤ n ∧ n ≤ 57)%N then code (n + 4)%N
  else if decide (n = 45)%N then code 62%N
  else if decide (n = 95)%N then code 63%N
  else None.

Lemma unsextet_sextet b5 b4 b3 b2 b1 b0 : unsextet (sextet b5 b4 b3 b2 b1 b0) = Some (b5, b4, b3, b2, b1, b0).
Proof. destruct b5, b4, b3, b2, b1, b0; vm_compute; reflexivity. Qed.

Lemma sextet_inj b5 b4 b3 b2 b1 b0 c5 c4 c3 c2 c1 c0 :
  sextet b5 b4 b3 b2 b1 b0 = sextet c5 c4 c3 c2 c1 c0 →
  b5 = c5 ∧ b4 = c4 ∧ b3 = c3 ∧ b2 = c2 ∧ b1 = c1 ∧ b0 = c0.
Proof. intros Heq%(f_equal unsextet). rewrite !unsextet_sextet in Heq. naive_solver. Qed.

Lemma sextet_plain b5 b4 b3 b2 b1 b0 : sextet b5 b4 b3 b2 b1 b0 ≠ "/"%char.
Proof. destruct b5, b4, b3, b2, b1, b0; vm_compute; discriminate. Qed.

(** Three bytes at a time *)
Lemma string_triple_ind (P : string → Prop) :
  P "" → (∀ a, P (String a "")) → (∀ a b, P (String a (String b ""))) →
  (∀ a b c s, P s → P (String a (String b (String c s)))) → ∀ s, P s.
Proof.
  intros H0 H1 H2 H3. fix IH 1. intros [|a [|b [|c s]]]; [done|apply H1|apply H2|apply H3, IH].
Qed.

Lemma RawURLEncode_inj s t : RawURLEncode s = RawURLEncode t → s = t.
Proof.
  revert t. induction s as [|[? ? ? ? ? ? ? ?]|[? ? ? ? ? ? ? ?] [? ? ? ? ? ? ? ?]
    |[? ? ? ? ? ? ? ?] [? ? ? ? ? ? ? ?] [? ? ? ? ? ? ? ?] s IH] using string_triple_ind;
  intros [|[? ? ? ? ? ? ? ?] [|[? ? ? ? ? ? ? ?] [|[? ? ? ? ? ? ? ?] t]]]; cbn [RawURLEncode]; intros Heq; try done;
  repeat match goal with
  | H : String _ _ = String _ _ |- _ => injection H; clear H; intros
  | H : sextet _ _ _ _ _ _ = sextet _ _ _ _ _ _ |- _ => apply sextet_inj in H; destruct_and!; subst
  end; try done.
  by f_equal; f_equal; f_equal; apply IH.
Qed.

Abbreviation no_slash := (all_bytes (λ a, bool_decide (a ≠ "/"%char))).

Lemma RawURLEncode_plain s : no_slash (RawURLEncode s).
Proof.
  induction s as [|[? ? ? ? ? ? ? ?]|[? ? ? ? ? ? ? ?] [? ? ? ? ? ? ? ?]
    |[? ? ? ? ? ? ? ?] [? ? ? ? ? ? ? ?] [? ? ? ? ? ? ? ?] s IH] using string_triple_ind; cbn [RawURLEncode all_bytes];
  rewrite ?bool_decide_eq_true_2 by apply sextet_plain; done.
Qed.

(** ** Numbers *)

Lemma digit_char n : (n < 10)%N → digit (pretty_N_char n) = Some n.
Proof. intros Hn. assert (∃ k, k < 10 ∧ n = N.of_nat k) as (k & Hk & ->) by (exists (N.to_nat n); lia).
  do 10 (destruct k as [|k]; [reflexivity|]). lia. Qed.

Lemma digits_go x : ∀ s, digits 0 (pretty_N_go x s) = digits x s.
Proof.
  induction (N.lt_wf_0 x) as [x _ IH]. intros s. destruct (decide (0 < x)%N) as [Hx|Hx].
  - rewrite pretty_N_go_step by done. rewrite IH by (apply N.div_lt; lia). cbn [digits].
    rewrite digit_char by (apply N.mod_lt; lia). f_equal. rewrite N.mul_comm, N.mul_comm, <- N.div_mod; [done|lia].
  - assert (x = 0%N) as -> by lia. by rewrite pretty_N_go_0.
Qed.

Lemma pretty_N_digit (n : N) : ∃ a s, pretty n = String a s ∧ is_Some (digit a).
Proof.
  assert (Hgo : ∀ x s, (0 < x)%N ∨ (∃ a s', s = String a s' ∧ is_Some (digit a)) →
    ∃ a s', pretty_N_go x s = String a s' ∧ is_Some (digit a)).
  { intros x. induction (N.lt_wf_0 x) as [x _ IH]. intros s Hs. destruct (decide (0 < x)%N) as [Hx|Hx].
    - rewrite pretty_N_go_step by done. apply IH; [apply N.div_lt; lia|]. right. eexists _, _. split; [done|].
      rewrite digit_char by (apply N.mod_lt; lia). by eexists.
    - assert (x = 0%N) as -> by lia. rewrite pretty_N_go_0. destruct Hs as [?|?]; [lia|done]. }
  unfold pretty, pretty_N. case_decide as H0; [by eexists _, _; split; [done|eexists]|]. apply Hgo. left. lia.
Qed.

Lemma parse_pretty_N (n : N) : parseMagnitude (pretty n) = Some n.
Proof.
  unfold parseMagnitude. destruct (pretty_N_digit n) as (a & s & Heq & _). rewrite Heq, decide_False by done.
  rewrite <- Heq. unfold pretty, pretty_N. case_decide as H0; [by subst|]. by rewrite digits_go.
Qed.

Lemma digit_unsigned a : is_Some (digit a) → a ≠ "-"%char ∧ a ≠ "+"%char ∧ a ≠ "/"%char.
Proof. intros [d Hd]. repeat split; intros ->; vm_compute in Hd; discriminate. Qed.

Lemma ParseInt_pretty (z : Z) : (- 2 ^ 63 ≤ z < 2 ^ 63)%Z → ParseInt (pretty z) = Some z.
Proof.
  intros Hz. destruct z as [|p|p]; [done| |].
  - change (pretty (Z.pos p)) with (pretty (N.pos p)). destruct (pretty_N_digit (N.pos p)) as (a & s & Heq & Ha). rewrite Heq. cbn [ParseInt].
    destruct (digit_unsigned a Ha) as (Hm & Hp & _).
    rewrite bool_decide_eq_false_2 by done. rewrite decide_False by naive_solver. rewrite <- Heq, parse_pretty_N.
    rewrite decide_False by lia. done.
  - change (pretty (Z.neg p)) with (String "-" (pretty (N.pos p))). cbn [ParseInt].
    rewrite bool_decide_eq_true_2, decide_True by naive_solver.
    rewrite parse_pretty_N, decide_False by lia. done.
Qed.

Lemma no_slash_app s t : no_slash (s +:+ t) ↔ no_slash s ∧ no_slash t.
Proof. induction s as [|a s IH]; simpl; [naive_solver|]. rewrite !andb_True, IH. naive_solver. Qed.

Lemma pretty_plain (z : Z) : no_slash (pretty z).
Proof.
  assert (Hgo : ∀ x s, no_slash s → no_slash (pretty_N_go x s)).
  { intros x. induction (N.lt_wf_0 x) as [x _ IH]. intros s Hs. destruct (decide (0 < x)%N) as [Hx|Hx].
    - rewrite pretty_N_go_step by done. apply IH; [apply N.div_lt; lia|]. cbn [all_bytes]. apply andb_True. split; [|done].
      apply bool_decide_pack. apply digit_unsigned. rewrite digit_char by (apply N.mod_lt; lia). by eexists.
    - assert (x = 0%N) as -> by lia. by rewrite pretty_N_go_0. }
  assert (Hn : ∀ n : N, no_slash (pretty n)).
  { intros n. unfold pretty, pretty_N. case_decide; [done|]. by apply Hgo. }
  destruct z as [|p|p]; [done|apply (Hn (N.pos p))|apply (Hn (N.pos p))].
Qed.

Lemma append_assoc s t u : (s +:+ t) +:+ u = s +:+ (t +:+ u).
Proof. induction s as [|a s IH]; [done|]. change (String a ((s +:+ t) +:+ u) = String a (s +:+ (t +:+ u))). by rewrite IH. Qed.

Lemma Split_plain s : no_slash s → Split "/" s = [s].
Proof.
  induction s as [|a s IH]; [done|]. cbn [all_bytes Split]. intros [Ha%bool_decide_unpack Hs]%andb_True.
  by rewrite decide_False, IH.
Qed.

Lemma Split_segment s t : no_slash s → Split "/" (s +:+ String "/" t) = s :: Split "/" t.
Proof.
  induction s as [|a s IH]; [done|]. cbn [all_bytes]. intros [Ha%bool_decide_unpack Hs]%andb_True.
  change (String a s +:+ String "/" t) with (String a (s +:+ String "/" t)). cbn [Split].
  by rewrite decide_False, IH.
Qed.

(** The version of an issued secret tells its signing revision and deadline. For any
    revision a certificate was signed under, any deadline of 64 bits and any content hash
    without a slash, the version reads as current under a revision at a time exactly when
    that revision is the signing one, is not empty, and the deadline has not passed; so a
    change of the signer, or the deadline, invalidates every copy a client holds, and
    nothing else does. *)
Theorem sds_version_round_trip (revision content : string) (deadline : Z) (revision' : string) (now : Z) :
  (- 2 ^ 63 ≤ deadline < 2 ^ 63)%Z → content ≠ "" → no_slash content →
  sdsVersionCurrent (sdsResourceVersion revision deadline content) revision' now = true ↔
  revision' = revision ∧ revision ≠ "" ∧ (now < deadline)%Z.
Proof.
  intros Hd Hc Hplain. unfold sdsVersionCurrent.
  assert (sdsResourceVersion revision deadline content =
    "sds" +:+ String "/" (RawURLEncode revision +:+ String "/" (pretty deadline +:+ String "/" content))) as ->.
  { unfold sdsResourceVersion, sdsVersionPrefix. by rewrite !append_assoc. }
  rewrite !Split_segment, Split_plain by (done || apply RawURLEncode_plain || apply pretty_plain).
  rewrite ParseInt_pretty by done. case_decide as Hg.
  - split; [done|]. intros (-> & Hr & _). naive_solver.
  - rewrite bool_decide_eq_true. split; [|naive_solver]. intros Hlt.
    assert (revision' = revision) as -> by (apply RawURLEncode_inj; destruct (decide (RawURLEncode revision = RawURLEncode revision')); naive_solver).
    naive_solver.
Qed.

Lemma sds_version_round_trip_witness :
  sdsVersionCurrent (sdsResourceVersion "ca-1" 1700000000000000000 "0a1b") "ca-1" 1699999999999999999 = true.
Proof. apply sds_version_round_trip; [lia|done|done|]. by split; [|split; [|lia]]. Defined.
