(* ===== verification/Certificates.v ===== *)
(** * Certificates: secrets issued on demand
    (src/pkg/xds/sds_generator.go, sds_session.go, delta.go)

    A gateway subscribes to secrets by domain. Published secrets are served from the
    snapshot; for the other names the stream's certificate session issues a certificate
    per name, at most eight at a time, and the event loop sends what has completed. The
    issuer's answers, the clock and the encoding of a secret are parameters. *)

From S2P Require Import Prelude Identity Resource ResourceIndex ResourceSet Update Watch Generator Delta Requests SecretVersions.

(** ** The generator *)

Record SignedCertificate := mkCertificate {
  sc_CertificateChain : string;
  sc_PrivateKey : string;
  sc_UsableUntil : Z;
  sc_SignerRevision : string
}.

(** What the issuer answers at a moment: the signer's revision and generation, whether the
    scope may have certificates, and the certificate of a domain *)
Record Provider := mkProvider {
  pv_SignerRevision : string;
  pv_SignerGeneration : N;
  pv_Authorize : option string;
  pv_Get : string → result SignedCertificate
}.

Definition staticSDSNames (snapshot : ResourceSet) (scope : ClientScope) : gset string :=
  list_to_set (XDSName <$> base.filter (λ r, scopeAllows scope r = true) (ListType snapshot SecretType)).

(** The secrets of the snapshot that the client sees and subscribed to *)
Definition staticSecrets (request : GenerationRequest) : selection :=
  selectedMap (base.filter (λ r, scopeAllows (gr_Scope request) r && allows (gr_Subscription request) r = true)
                 (ListType (gr_Snapshot request) (gr_TypeURL request))).

(** A name that was sent and not asked for: withdrawn when the scope lost its
    authorization, or the version is not current. *)
Definition invalidates (P : Provider) (now : Z) (selected : selection) (explicit : gset string)
    (sent : string * string) : bool :=
  negb (isSome (selected !! sent.1)) && bool_decide (sent.1 ∉ explicit)
  && (isSome (pv_Authorize P) || negb (sdsVersionCurrent sent.2 (pv_SignerRevision P) now)).

Section generator.
Context `{Codec} (secretValue : string → SignedCertificate → result Any).

(** One name of the issuing loop; [ended] is the context's error after the issuer failed. *)
Definition issueOne (P : Provider) (ended : string → option string) (gatewayKey : string)
    (st : selection * gset string * GeneratedDelta) (name : string)
    : result (selection * gset string * GeneratedDelta) :=
  let '(selected, removed, d) := st in
  if decide (name = "*" ∨ isSome (selected !! name)) then Ok st else
  match pv_Get P name with
  | Err _ =>
      match ended name with
      | Some e => Err e
      | None => Ok (selected, {[name]} ∪ removed,
                    mkDelta [] [] [] (gd_versions d) (gd_expiresAt d) (gd_denied d ++ [name]) (gd_allowed d) false)
      end
  | Ok certificate =>
      let! value := secretValue name certificate in
      let! resource := NewResource (mkKey SecretType (gatewayKey +:+ "|" +:+ name)) name (Some value) []
                         (mkFacts None (rf_SourceIdentity noFacts) None None None None gatewayKey false) in
      Ok (<[name := resource]> selected, removed,
          mkDelta [] []
            []
            (<[name := sdsResourceVersion (sc_SignerRevision certificate) (sc_UsableUntil certificate) (Hash resource)]>
               (gd_versions d))
            (<[name := sc_UsableUntil certificate]> (gd_expiresAt d)) (gd_denied d) (gd_allowed d ++ [name]) false)
  end.

(** The secrets to send: those asked for, and those whose version differs *)
Definition unsentSecrets (request : GenerationRequest) (explicit : gset string) (d : GeneratedDelta)
    (selected : selection) : list Resource :=
  sort_on XDSName
    (base.filter (λ p : string * Resource,
         p.1 ∈ explicit ∨ default "" (sv_sent (gr_Subscription request) !! p.1) ≠ default (Hash p.2) (gd_versions d !! p.1))
       (map_to_list selected)).*2.

(** [SDSGenerator.Generate]; [cancelled] is the context's error at the start. *)
Definition SDSGenerate (P : Provider) (now : Z) (cancelled : option string) (ended : string → option string)
    (request : GenerationRequest) : result GeneratedDelta :=
  check! bool_decide (gr_TypeURL request = SecretType) else "SDS generator cannot generate type" in
  match cancelled with
  | Some e => Err e
  | None =>
      if negb (gr_Full request) then SnapshotGenerate None request else
      let selected := staticSecrets request in
      let explicit : gset string := list_to_set (gr_SubscribedNames request) in
      let stale := (base.filter (λ p, invalidates P now selected explicit p = true)
                      (map_to_list (sv_sent (gr_Subscription request)))).*1 in
      let denied := if isSome (pv_Authorize P) then stale else [] in
      let! (selected, removed, d) :=
        rfold (issueOne P ended (cs_GatewayKey (gr_Scope request))) (elements explicit)
          (selected, list_to_set stale, mkDelta [] [] [] ∅ ∅ denied [] false) in
      Ok (mkDelta (unsentSecrets request explicit d selected) (sortedNames removed) []
            (gd_versions d) (gd_expiresAt d) (gd_denied d) (gd_allowed d) false)
  end.
End generator.

(** ** The session *)

Definition sdsStreamConcurrency : nat := 8.

(** A job is a pointer: it has an identity of its own. *)
Record sdsJob := mkJob { sj_id : nat; sj_name : string }.

#[export] Instance sdsJob_eq_dec : EqDecision sdsJob.
Proof. solve_decision. Defined.

Record sdsCompletion := mkCompletion {
  cm_job : sdsJob;
  cm_delta : result GeneratedDelta;
  cm_generation : N
}.

(** A job is queued while it is in [sq_pending]. The workers under way, with the snapshot
    they started from, and the completions in the channel belong to the session;
    [sq_fresh] is the next identity, [sq_cancelled] the jobs whose context was cancelled. *)
Record sdsSession := mkSds {
  sq_jobs : gmap string sdsJob;
  sq_pending : list sdsJob;
  sq_active : nat;
  sq_fresh : nat;
  sq_running : list (sdsJob * ResourceSet);
  sq_ready : list sdsCompletion;
  sq_cancelled : gset nat
}.

Definition newSDSSession : sdsSession := mkSds ∅ [] 0 0 [] [] ∅.

Definition set_queue (q : sdsSession) (jobs : gmap string sdsJob) (pending : list sdsJob) (fresh : nat)
    (cancelled : gset nat) : sdsSession :=
  mkSds jobs pending (sq_active q) fresh (sq_running q) (sq_ready q) cancelled.

Definition unqueue (job : sdsJob) (pending : list sdsJob) : list sdsJob := base.filter (λ j, j ≠ job) pending.

Definition subscribeOne (q : sdsSession) (name : string) : sdsSession :=
  if decide (name = "*") then q else
  match sq_jobs q !! name with
  | Some job =>
      if decide (job ∈ sq_pending q)
      then set_queue q (sq_jobs q) (job :: unqueue job (sq_pending q)) (sq_fresh q) (sq_cancelled q)
      else q
  | None =>
      let job := mkJob (sq_fresh q) name in
      set_queue q (<[name := job]> (sq_jobs q)) (job :: sq_pending q) (S (sq_fresh q)) (sq_cancelled q)
  end.

Definition sdsSubscribe (q : sdsSession) (names : list string) : sdsSession :=
  foldl subscribeOne q (reverse names).

Definition unsubscribeOne (q : sdsSession) (name : string) : sdsSession :=
  match sq_jobs q !! name with
  | None => q
  | Some job =>
      set_queue q (delete name (sq_jobs q)) (unqueue job (sq_pending q)) (sq_fresh q)
        (if decide (job ∈ sq_pending q) then sq_cancelled q else {[sj_id job]} ∪ sq_cancelled q)
  end.

Definition sdsUnsubscribe (q : sdsSession) (names : list string) : sdsSession := foldl unsubscribeOne q names.

(** The loop of [start]: workers for the first jobs, while there is room *)
Fixpoint startLoop (snapshot : ResourceSet) (pending : list sdsJob) (active : nat) (running : list (sdsJob * ResourceSet))
    : list sdsJob * nat * list (sdsJob * ResourceSet) :=
  match pending with
  | [] => ([], active, running)
  | job :: rest =>
      if decide (active < sdsStreamConcurrency)
      then startLoop snapshot rest (S active) (running ++ [(job, snapshot)])
      else (pending, active, running)
  end.

Definition sdsStart (q : sdsSession) (scope : ClientScope) (snapshot : ResourceSet) : sdsSession :=
  let q := sdsUnsubscribe q (elements (staticSDSNames snapshot scope)) in
  let '(pending, active, running) := startLoop snapshot (sq_pending q) (sq_active q) (sq_running q) in
  mkSds (sq_jobs q) pending active (sq_fresh q) running (sq_ready q) (sq_cancelled q).

(** The request a worker generates for *)
Definition workerRequest (scope : ClientScope) (job : sdsJob) (snapshot : ResourceSet) : GenerationRequest :=
  fullRequest scope SecretType (mkView false [sj_name job] ∅) snapshot [sj_name job].

(** ** Completions *)

(** What the issuer and the clock said while one completion was handled *)
Record Reading := mkReading {
  rd_Authorize : option string;
  rd_SignerGeneration : N;
  rd_SignerRevision : string;
  rd_revision : string;
  rd_now : Z
}.

Definition set_active (q : sdsSession) (active : nat) : sdsSession :=
  mkSds (sq_jobs q) (sq_pending q) active (sq_fresh q) (sq_running q) (sq_ready q) (sq_cancelled q).

Definition joinDelta (d e : GeneratedDelta) : GeneratedDelta :=
  mkDelta (gd_Resources d ++ gd_Resources e) (gd_Removed d ++ gd_Removed e) (gd_pending d)
    (gd_versions e ∪ gd_versions d) (gd_expiresAt e ∪ gd_expiresAt d)
    (gd_denied d ++ gd_denied e) (gd_allowed d ++ gd_allowed e) (gd_elideSentState d).

(** Whether an issued version went stale while it waited *)
Definition staleVersion (rd : Reading) (d : GeneratedDelta) (name : string) : bool :=
  match gd_versions d !! name with
  | None => false
  | Some version =>
      negb (sdsVersionCurrent version (rd_revision rd) (rd_now rd))
      || match gd_expiresAt d !! name with
         | Some deadline => negb (bool_decide (rd_now rd < deadline)%Z)
         | None => true
         end
  end.

(** One completion of the loop of [sendSDSCompletions] *)
Definition completeOne (st : sdsSession * GeneratedDelta) (c : sdsCompletion * Reading)
    : result (sdsSession * GeneratedDelta) :=
  let '(q, d) := st in
  let '(completion, rd) := c in
  let q := set_active q (sq_active q - 1) in
  let job := cm_job completion in
  if decide (sq_jobs q !! sj_name job ≠ Some job) then Ok (q, d) else
  let q := set_queue q (delete (sj_name job) (sq_jobs q)) (sq_pending q) (sq_fresh q) (sq_cancelled q) in
  let! e := cm_delta completion in
  if isSome (rd_Authorize rd) then
    Ok (q, joinDelta d (mkDelta [] [sj_name job] [] ∅ ∅ [sj_name job] [] false))
  else if decide (cm_generation completion ≠ rd_SignerGeneration rd ∧ rd_SignerRevision rd ≠ "") then
    Ok (sdsSubscribe q [sj_name job], d)
  else if staleVersion rd e (sj_name job) then Ok (sdsSubscribe q [sj_name job], d)
  else Ok (q, joinDelta d e).

(** The completions taken from the channel are settled: names that became static lose
    their job first. *)
Definition settleCompletions (q : sdsSession) (scope : ClientScope) (snapshot : ResourceSet)
    (batch : list (sdsCompletion * Reading)) : result (sdsSession * GeneratedDelta) :=
  rfold completeOne batch
    (sdsUnsubscribe q (elements (staticSDSNames snapshot scope)), mkDelta [] [] [] ∅ ∅ [] [] false).

(** ** The stream's handlers *)

(** The stream, and the certificate session of its watch of secrets *)
Record SecretStream := mkSecrets { sc_stream : Stream; sc_sds : option sdsSession }.

Section handlers.
Context `{Codec} (secretValue : string → SignedCertificate → result Any).
Context (send : DeltaResponse → option string).

(** The names with a job under way keep their certificate during a rotation. *)
Definition keepDemand (P : Provider) (q : sdsSession) (request : GenerationRequest) : GenerationRequest :=
  if gr_Full request && bool_decide (pv_SignerRevision P ≠ "") && negb (isSome (pv_Authorize P)) then
    mkGenRequest (gr_Scope request) (gr_TypeURL request)
      (mkView (sv_wildcard (gr_Subscription request)) (sv_names (gr_Subscription request))
         (base.filter (λ p : string * string, sq_jobs q !! p.1 = None) (sv_sent (gr_Subscription request))))
      (gr_Snapshot request) (gr_Update request) (gr_Full request) (gr_SubscribedNames request)
  else request.

(** [generateAndSend] for the watch of secrets *)
Definition generateSecrets (P : Provider) (now : Z) (cancelled : option string) (ended : string → option string)
    (st : SecretStream) (request : GenerationRequest) (force : bool) : SecretStream * option string :=
  match st_watches (sc_stream st) !! SecretType with
  | None => (st, None)
  | Some w =>
  match effectiveRequest w request with
  | None => (st, None)
  | Some request =>
      let sds := (λ q, sdsUnsubscribe q (elements (staticSDSNames (gr_Snapshot request) (gr_Scope request)))) <$> sc_sds st in
      let request := match sds with Some q => keepDemand P q request | None => request end in
      match SDSGenerate secretValue P now cancelled ended request with
      | Err e => (mkSecrets (sc_stream st) sds, Some e)
      | Ok delta =>
          let '(stream, err) := onWatch (sc_stream st) SecretType (λ s, sendGeneratedDelta send now s request delta force) in
          (mkSecrets stream sds, err)
      end
  end end.

(** The names of a request to issue, and those published in the snapshot *)
Definition demandedSecrets (static : gset string) (initial : bool) (request : DeltaRequest)
    : list string * list string :=
  let asked := base.filter (λ name, name ∉ dr_Unsubscribe request) (dr_Subscribe request) in
  (base.filter (λ name, (name ∉ static) ∧ ¬ (initial = true ∧ isSome (dr_InitialVersions request !! name) = true)) asked,
   base.filter (λ name, name ∈ static) asked).

(** [handleRequest] for secrets *)
Definition handleSecretRequest (P : Provider) (now : Z) (cancelled : option string) (ended : string → option string)
    (st : SecretStream) (scope : ClientScope) (snapshot : ResourceSet) (request : DeltaRequest)
    : SecretStream * option string :=
  let '(known, allowed) := typeAccess (cs_Class scope) SecretType in
  if known && negb allowed then (st, Some "client class cannot subscribe to type") else
  let '(w, registered, changed, initial) := receiveRequest (sc_stream st) scope request in
  let stream := mkStream (<[SecretType := w]> (st_watches (sc_stream st))) (st_nonce (sc_stream st))
                  (st_output (sc_stream st)) (st_registered (sc_stream st) ++ registered) in
  if negb changed && bool_decide (dr_ResponseNonce request ≠ "") && bool_decide (length (dr_Subscribe request) = 0)
  then (mkSecrets stream (sc_sds st), None) else
  let '(demand, staticDemand) := demandedSecrets (staticSDSNames snapshot scope) initial request in
  let q := sdsSubscribe (default newSDSSession (sc_sds st)) demand in
  let q := sdsStart (sdsUnsubscribe q (dr_Unsubscribe request)) scope snapshot in
  if initial || bool_decide (length staticDemand ≠ 0) then
    generateSecrets P now cancelled ended (mkSecrets stream (Some q))
      (fullRequest scope SecretType (newSubscriptionView w) snapshot staticDemand)
      (initial && bool_decide (size (sq_jobs q) = 0))
  else (mkSecrets stream (Some q), None).

(** [sendSDSCompletions] for the completions it took from the channel, each with what was
    read while it was handled *)
Definition sendSDSCompletions (now : Z) (st : SecretStream) (q : sdsSession) (scope : ClientScope) (snapshot : ResourceSet)
    (batch : list (sdsCompletion * Reading)) : SecretStream * option string :=
  match settleCompletions q scope snapshot batch with
  | Err e => (st, Some e)
  | Ok (q, d) =>
      let q := sdsStart q scope snapshot in
      let request := mkGenRequest scope SecretType (mkView false [] ∅) snapshot (mkUpdate "" ∅ ∅ false ∅ None) false [] in
      let '(stream, err) := onWatch (sc_stream st) SecretType (λ s, sendGeneratedDelta send now s request d false) in
      (mkSecrets stream (Some q), err)
  end.

(** The steps of a stream's certificates: requests, pushes, workers that complete, and
    completions that are sent. A worker delivers while the channel has room. *)
Inductive secret_step (scope : ClientScope) : SecretStream → SecretStream → Prop :=
| st_request P now cancelled ended st snapshot request st' :
    dr_TypeUrl request = SecretType →
    handleSecretRequest P now cancelled ended st scope snapshot request = (st', None) →
    secret_step scope st st'
| st_push P now cancelled ended st snapshot view update full names st' :
    generateSecrets P now cancelled ended st
      (mkGenRequest scope SecretType view snapshot update full names) false = (st', None) →
    secret_step scope st st'
| st_worker P now cancelled ended stream q before job snapshot after generation :
    sq_running q = before ++ (job, snapshot) :: after →
    length (sq_ready q) < sdsStreamConcurrency →
    secret_step scope (mkSecrets stream (Some q))
      (mkSecrets stream (Some (mkSds (sq_jobs q) (sq_pending q) (sq_active q) (sq_fresh q) (before ++ after)
         (sq_ready q ++ [mkCompletion job
            (SDSGenerate secretValue P now cancelled ended (workerRequest scope job snapshot)) generation])
         (sq_cancelled q))))
| st_completions now stream q snapshot batch rest st' :
    sq_ready q = batch.*1 ++ rest → 0 < length batch ≤ sdsStreamConcurrency →
    sendSDSCompletions now (mkSecrets stream (Some q))
      (mkSds (sq_jobs q) (sq_pending q) (sq_active q) (sq_fresh q) (sq_running q) rest (sq_cancelled q))
      scope snapshot batch = (st', None) →
    secret_step scope (mkSecrets stream (Some q)) st'.

Inductive secret_run (scope : ClientScope) : SecretStream → Prop :=
| sr_start stream : secret_run scope (mkSecrets stream None)
| sr_step st st' : secret_run scope st → secret_step scope st st' → secret_run scope st'.
End handlers.
