(* ===== verification/CertificateTheorems.v ===== *)
(** * CertificateTheorems: what a stream's certificate session guarantees *)

From S2P Require Import Prelude Identity Resource ResourceIndex ResourceSet Update Watch Generator Delta Requests SecretVersions Certificates.

(** * CertificateSessions: the invariant of a stream's certificate session

    Every demanded name has one job, which is queued, under way or completed; workers are
    counted; and nothing is queued while there is room. *)

(** The jobs somebody still has to deal with; [taken] are completions out of the channel. *)
Definition held (q : sdsSession) (taken : list sdsJob) : list sdsJob :=
  sq_pending q ++ (sq_running q).*1 ++ (cm_job <$> sq_ready q) ++ taken.

Record sds_ok (taken : list sdsJob) (q : sdsSession) : Prop := mkSdsOk {
  so_active : sq_active q = length (sq_running q) + length (sq_ready q) + length taken;
  so_bound : sq_active q ≤ sdsStreamConcurrency;
  so_jobs name job : sq_jobs q !! name = Some job → sj_name job = name ∧ name ≠ "*" ∧ job ∈ held q taken;
  so_pending job : job ∈ sq_pending q → sq_jobs q !! sj_name job = Some job;
  so_fresh job : job ∈ held q taken → sj_id job < sq_fresh q;
  so_distinct : NoDup (sj_id <$> held q taken)
}.

(** Nothing waits while there is room. *)
Definition busy (q : sdsSession) : Prop := sq_pending q ≠ [] → sq_active q = sdsStreamConcurrency.

Lemma newSDSSession_ok : sds_ok [] newSDSSession.
Proof.
  constructor; simpl; [done|lia|by intros name job; rewrite lookup_empty|by intros job ?%elem_of_nil|
    by intros job ?%elem_of_nil|constructor].
Qed.

Lemma elem_of_unqueue job j pending : j ∈ unqueue job pending ↔ j ≠ job ∧ j ∈ pending.
Proof. unfold unqueue. by rewrite list_elem_of_filter. Qed.

Lemma unqueue_perm job pending : NoDup pending → job ∈ pending → pending ≡ₚ job :: unqueue job pending.
Proof.
  intros Hnd Hin. apply NoDup_Permutation; [done| |].
  - constructor; [by intros [? _]%elem_of_unqueue|]. by apply NoDup_filter.
  - intros j. rewrite elem_of_cons, elem_of_unqueue. destruct (decide (j = job)); naive_solver.
Qed.

Lemma held_distinct q taken j j' : sds_ok taken q → j ∈ held q taken → j' ∈ held q taken → sj_id j = sj_id j' → j = j'.
Proof.
  intros Hok [i Hi]%list_elem_of_lookup [i' Hi']%list_elem_of_lookup Heq. pose proof (so_distinct _ _ Hok) as Hnd.
  assert (i = i') as ->.
  { eapply NoDup_lookup; [exact Hnd|rewrite list_lookup_fmap, Hi; done|rewrite list_lookup_fmap, Hi'; simpl; by rewrite Heq]. }
  congruence.
Qed.

(** Changing the queue keeps the rest. *)
Lemma queue_ok taken q jobs pending fresh cancelled :
  sds_ok taken q →
  (∀ name job, jobs !! name = Some job →
     sj_name job = name ∧ name ≠ "*" ∧ (job ∈ pending ∨ job ∈ (sq_running q).*1 ++ (cm_job <$> sq_ready q) ++ taken)) →
  (∀ job, job ∈ pending → jobs !! sj_name job = Some job) →
  (∀ job, job ∈ pending → sj_id job < fresh) → sq_fresh q ≤ fresh →
  NoDup (sj_id <$> pending ++ (sq_running q).*1 ++ (cm_job <$> sq_ready q) ++ taken) →
  sds_ok taken (set_queue q jobs pending fresh cancelled).
Proof.
  intros Hok Hj Hp Hf Hle Hnd. destruct Hok as [Ha Hb _ _ Hfr _]. constructor; unfold held in *; simpl; try done.
  - intros name job Hn. destruct (Hj name job Hn) as (? & ? & [?|?]); (split; [done|split; [done|]]); apply elem_of_app; auto.
  - intros job [Hin|Hin]%elem_of_app; [by apply Hf|]. assert (sj_id job < sq_fresh q); [|lia]. apply Hfr. apply elem_of_app. by right.
Qed.

Lemma subscribeOne_ok taken q name : sds_ok taken q → sds_ok taken (subscribeOne q name).
Proof.
  intros Hok. unfold subscribeOne. case_decide as Hstar; [done|].
  pose proof (so_distinct _ _ Hok) as Hnd. unfold held in Hnd.
  destruct (sq_jobs q !! name) as [job|] eqn:Hj; [case_decide as Hin; [|done]|].
  - assert (Hperm : sq_pending q ≡ₚ job :: unqueue job (sq_pending q)).
    { apply unqueue_perm; [|done]. rewrite fmap_app in Hnd. by apply NoDup_app in Hnd as [?%NoDup_fmap_1 _]. }
    apply queue_ok; try done.
    + intros n j Hn. destruct (so_jobs _ _ Hok n j Hn) as (? & ? & Hh). split; [done|split; [done|]].
      unfold held in Hh. apply elem_of_app in Hh as [Hh|Hh]; [left; by rewrite <- Hperm|by right].
    + intros j Hj'. rewrite <- Hperm in Hj'. by apply (so_pending _ _ Hok).
    + intros j Hj'. rewrite <- Hperm in Hj'. apply (so_fresh _ _ Hok). apply elem_of_app. by left.
    + by rewrite <- Hperm.
  - apply queue_ok; try done.
    + intros n j [[<- <-]|[Hne Hn]]%lookup_insert_Some; [split; [done|split; [done|left; left]]|].
      destruct (so_jobs _ _ Hok n j Hn) as (? & ? & Hh). split; [done|split; [done|]].
      unfold held in Hh. apply elem_of_app in Hh as [Hh|Hh]; [left; by right|by right].
    + intros j [->|Hj']%elem_of_cons; [by rewrite lookup_insert_eq|].
      pose proof (so_pending _ _ Hok j Hj') as Hn. rewrite lookup_insert_ne; [done|]. intros ->. congruence.
    + intros j [->|Hj']%elem_of_cons; [simpl; lia|]. assert (sj_id j < sq_fresh q); [|lia].
      apply (so_fresh _ _ Hok). apply elem_of_app. by left.
    + lia.
    + simpl. constructor; [|done]. intros (j & Hid & Hj')%list_elem_of_fmap. simpl in Hid.
      pose proof (so_fresh _ _ Hok j Hj'). lia.
Qed.

Lemma sdsSubscribe_ok taken q names : sds_ok taken q → sds_ok taken (sdsSubscribe q names).
Proof.
  unfold sdsSubscribe. generalize (reverse names) as l. intros l. revert q.
  induction l as [|n l IH]; intros q Hok; [done|]. simpl. by apply IH, subscribeOne_ok.
Qed.

Lemma unsubscribeOne_ok taken q name : sds_ok taken q → sds_ok taken (unsubscribeOne q name).
Proof.
  intros Hok. unfold unsubscribeOne. destruct (sq_jobs q !! name) as [job|] eqn:Hj; [|done].
  pose proof (so_distinct _ _ Hok) as Hnd. unfold held in Hnd.
  destruct (so_jobs _ _ Hok name job Hj) as (Hname & _ & Hheld).
  apply queue_ok; try done.
  - intros n j [Hne Hn]%lookup_delete_Some. destruct (so_jobs _ _ Hok n j Hn) as (Hjn & ? & Hh). split; [done|split; [done|]].
    unfold held in Hh. apply elem_of_app in Hh as [Hh|Hh]; [left|by right]. apply elem_of_unqueue. split; [congruence|done].
  - intros j [Hne Hin]%elem_of_unqueue. pose proof (so_pending _ _ Hok j Hin) as Hn.
    rewrite lookup_delete_ne; [done|]. intros Heq. rewrite <- Heq in Hn. congruence.
  - intros j [_ Hin]%elem_of_unqueue. apply (so_fresh _ _ Hok). apply elem_of_app. by left.
  - rewrite fmap_app in Hnd |- *. eapply sublist_NoDup; [exact Hnd|]. apply sublist_app; [|done].
    apply fmap_sublist, sublist_filter.
Qed.

Lemma sdsUnsubscribe_ok taken q names : sds_ok taken q → sds_ok taken (sdsUnsubscribe q names).
Proof.
  unfold sdsUnsubscribe. revert q. induction names as [|n l IH]; intros q Hok; [done|]. simpl. by apply IH, unsubscribeOne_ok.
Qed.

(** ** Starting workers *)

Lemma startLoop_spec snapshot pending : ∀ active running,
  active ≤ sdsStreamConcurrency →
  ∃ started, let '(pending', active', running') := startLoop snapshot pending active running in
    pending = started ++ pending' ∧ running' = running ++ ((λ j, (j, snapshot)) <$> started) ∧
    active' = active + length started ∧ active' ≤ sdsStreamConcurrency ∧
    (pending' ≠ [] → active' = sdsStreamConcurrency).
Proof.
  induction pending as [|job pending IH]; intros active running Hle; simpl.
  - exists []. simpl. rewrite app_nil_r. repeat split; [lia|done|done].
  - case_decide as Hlt.
    + destruct (IH (S active) (running ++ [(job, snapshot)])) as [started Hspec]; [lia|]. exists (job :: started).
      destruct (startLoop snapshot pending (S active) (running ++ [(job, snapshot)])) as [[p a] r].
      destruct Hspec as (-> & -> & -> & Hb & Hbusy). simpl. rewrite <- app_assoc.
      repeat split; [lia|lia|]. intros Hne. specialize (Hbusy Hne). lia.
    + exists []. simpl. rewrite app_nil_r. repeat split; lia.
Qed.

Lemma sdsStart_ok taken q scope snapshot :
  sds_ok taken q → sds_ok taken (sdsStart q scope snapshot) ∧ busy (sdsStart q scope snapshot).
Proof.
  intros Hq. unfold sdsStart. apply (sdsUnsubscribe_ok _ _ (elements (staticSDSNames snapshot scope))) in Hq.
  revert Hq. generalize (sdsUnsubscribe q (elements (staticSDSNames snapshot scope))) as q1. clear q. intros q Hq.
  destruct Hq as [Ha Hb Hj Hp Hf Hnd].
  destruct (startLoop_spec snapshot (sq_pending q) (sq_active q) (sq_running q) Hb) as [started Hspec].
  destruct (startLoop snapshot (sq_pending q) (sq_active q) (sq_running q)) as [[pending active] running].
  destruct Hspec as (Hpend & -> & -> & Hbound & Hbusy).
  set (q' := mkSds _ _ _ _ _ _ _).
  assert (Hheld : held q taken ≡ₚ held q' taken).
  { unfold held; simpl. rewrite Hpend, fmap_app, <- list_fmap_compose.
    replace (fst ∘ (λ j, (j, snapshot)) <$> started) with started by (symmetry; apply list_fmap_id).
    solve_Permutation. }
  split; [|done]. constructor; simpl; try done.
  - rewrite length_app, length_fmap. lia.
  - intros name job Hn. rewrite <- Hheld. by apply Hj.
  - intros job Hin. apply Hp. rewrite Hpend. apply elem_of_app. by right.
  - intros job. rewrite <- Hheld. apply Hf.
  - by rewrite <- Hheld.
Qed.

(** ** Completions *)

(** A completion that is done with leaves: its job must not be registered any more. *)
Lemma retire_ok job taken q :
  sds_ok (job :: taken) q → sds_ok taken (set_queue (set_active q (sq_active q - 1))
    (if decide (sq_jobs q !! sj_name job = Some job) then delete (sj_name job) (sq_jobs q) else sq_jobs q)
    (sq_pending q) (sq_fresh q) (sq_cancelled q)).
Proof.
  intros Hok. destruct Hok as [Ha Hb Hj Hp Hf Hnd] eqn:Heq. clear Heq. simpl in Ha.
  assert (Hheld : held q (job :: taken) ≡ₚ job :: held q taken) by (unfold held; solve_Permutation).
  rewrite Hheld in Hnd. simpl in Hnd. apply NoDup_cons in Hnd as [Hnew Hnd].
  assert (Hnp : job ∉ held q taken) by (intros Hin; by apply Hnew, list_elem_of_fmap_2).
  constructor; simpl; [lia|lia| | | |done].
  - intros name j Hn. change (held _ taken) with (held q taken).
    assert (sq_jobs q !! name = Some j ∧ j ≠ job) as [Hn' Hne].
    { case_decide as Hc; [apply lookup_delete_Some in Hn as [Hne Hn]|]; (split; [done|]); intros ->;
        destruct (Hj name job Hn) as [? _]; congruence. }
    destruct (Hj name j Hn') as (? & ? & Hin). rewrite Hheld in Hin. split; [done|split; [done|]].
    by apply elem_of_cons in Hin as [?|?].
  - intros j Hin. pose proof (Hp j Hin) as Hn. case_decide as Hc; [|done]. rewrite lookup_delete_ne; [done|].
    intros Hjn. rewrite <- Hjn in Hn. assert (j = job) as -> by congruence. apply Hnp. apply elem_of_app. by left.
  - intros j Hin. apply Hf. rewrite Hheld. by right.
Qed.

Lemma completeOne_ok taken q d c st' :
  sds_ok (cm_job c.1 :: taken) q → completeOne (q, d) c = Ok st' → sds_ok taken st'.1.
Proof.
  intros Hok%retire_ok. destruct c as [c rd]. unfold completeOne. simpl.
  destruct (decide (sq_jobs q !! sj_name (cm_job c) ≠ Some (cm_job c))) as [Hs|Hs]; intros Hdone.
  - rewrite decide_False in Hok by done. by injection Hdone as <-.
  - rewrite decide_True in Hok by (destruct (decide (sq_jobs q !! sj_name (cm_job c) = Some (cm_job c))); tauto).
    apply rbind_Ok in Hdone as (e & _ & Hdone).
    destruct (isSome (rd_Authorize rd)); [by injection Hdone as <-|].
    case_decide; [injection Hdone as <-; by apply sdsSubscribe_ok|].
    destruct (staleVersion _ _ _); injection Hdone as <-; [by apply sdsSubscribe_ok|done].
Qed.

Lemma completions_ok batch : ∀ q d st',
  sds_ok (cm_job <$> batch.*1) q → rfold completeOne batch (q, d) = Ok st' → sds_ok [] st'.1.
Proof.
  induction batch as [|c batch IH]; intros q d st' Hok; simpl; [by intros [= <-]|].
  intros ([q1 d1] & Hc & Hrest)%rbind_Ok. apply (completeOne_ok (cm_job <$> batch.*1)) in Hc; [|done].
  by eapply IH.
Qed.

(** ** What happens to a completion *)

Definition current (q : sdsSession) (c : sdsCompletion) : Prop :=
  sq_jobs q !! sj_name (cm_job c) = Some (cm_job c).

(** A completion may be delivered: authorized, and issued by the signer of now. *)
Record deliverable (c : sdsCompletion) (rd : Reading) (e : GeneratedDelta) : Prop := mkDeliverable {
  dl_issued : cm_delta c = Ok e;
  dl_authorized : rd_Authorize rd = None;
  dl_generation : cm_generation c = rd_SignerGeneration rd ∨ rd_SignerRevision rd = "";
  dl_version : staleVersion rd e (sj_name (cm_job c)) = false
}.

(** Its effect on the session and the response *)
Inductive settled (q : sdsSession) (d : GeneratedDelta) (c : sdsCompletion) (rd : Reading)
    : sdsSession → GeneratedDelta → Prop :=
| sd_stale q' : ¬ current q c → sq_jobs q' = sq_jobs q → settled q d c rd q' d
| sd_denied q' :
    current q c → sq_jobs q' = delete (sj_name (cm_job c)) (sq_jobs q) →
    settled q d c rd q' (joinDelta d (mkDelta [] [sj_name (cm_job c)] [] ∅ ∅ [sj_name (cm_job c)] [] false))
| sd_requeued q' :
    current q c → sq_jobs q' = <[sj_name (cm_job c) := mkJob (sq_fresh q) (sj_name (cm_job c))]> (sq_jobs q) →
    settled q d c rd q' d
| sd_delivered q' e :
    current q c → deliverable c rd e → sq_jobs q' = delete (sj_name (cm_job c)) (sq_jobs q) →
    settled q d c rd q' (joinDelta d e).

Lemma completeOne_settled taken q d c rd q' d' :
  sds_ok (cm_job c :: taken) q → completeOne (q, d) (c, rd) = Ok (q', d') →
  settled q d c rd q' d' ∧ sq_fresh q ≤ sq_fresh q'.
Proof.
  intros Hok. unfold completeOne. simpl.
  destruct (decide (sq_jobs q !! sj_name (cm_job c) ≠ Some (cm_job c))) as [Hs|Hs].
  { intros [= <- <-]. split; [by apply sd_stale|done]. }
  assert (Hcur : current q c).
  { unfold current. destruct (decide (sq_jobs q !! sj_name (cm_job c) = Some (cm_job c))); tauto. }
  destruct (so_jobs _ _ Hok _ _ Hcur) as (_ & Hstar & _).
  assert (Hagain : ∀ q0, q0 = set_queue (set_active q (sq_active q - 1)) (delete (sj_name (cm_job c)) (sq_jobs q))
      (sq_pending q) (sq_fresh q) (sq_cancelled q) →
    settled q d c rd (sdsSubscribe q0 [sj_name (cm_job c)]) d ∧ sq_fresh q ≤ sq_fresh (sdsSubscribe q0 [sj_name (cm_job c)])).
  { intros q0 ->. unfold sdsSubscribe, subscribeOne; simpl. rewrite decide_False by done. simpl.
    rewrite lookup_delete_eq. simpl. split; [|lia]. apply sd_requeued; [done|]. simpl. by rewrite insert_delete_eq. }
  intros (e & He & Hdone)%rbind_Ok.
  destruct (rd_Authorize rd) as [x|] eqn:Hauth; simpl in Hdone.
  { injection Hdone as <- <-. split; [by apply sd_denied|done]. }
  destruct (decide (cm_generation c ≠ rd_SignerGeneration rd ∧ rd_SignerRevision rd ≠ "")) as [Hg|Hg].
  { injection Hdone as <- <-. by apply Hagain. }
  destruct (staleVersion rd e (sj_name (cm_job c))) eqn:Hv; injection Hdone as <- <-; [by apply Hagain|].
  split; [|done]. apply sd_delivered; [done| |done]. constructor; [done..| |done].
  destruct (decide (cm_generation c = rd_SignerGeneration rd)); [by left|].
  destruct (decide (rd_SignerRevision rd = "")); [by right|tauto].
Qed.

(** An answer in the response *)
Definition answered (d : GeneratedDelta) (c : sdsCompletion) (rd : Reading) : Prop :=
  (∃ e, deliverable c rd e ∧ gd_Resources e ⊆ gd_Resources d ∧ gd_Removed e ⊆ gd_Removed d)
  ∨ sj_name (cm_job c) ∈ gd_Removed d ∧ sj_name (cm_job c) ∈ gd_denied d.

Definition extends (d d' : GeneratedDelta) : Prop :=
  gd_Resources d ⊆ gd_Resources d' ∧ gd_Removed d ⊆ gd_Removed d' ∧ gd_denied d ⊆ gd_denied d'.

Lemma joinDelta_extends d e : extends d (joinDelta d e).
Proof. unfold extends, joinDelta; simpl. set_solver. Qed.

Lemma extends_trans d d' d'' : extends d d' → extends d' d'' → extends d d''.
Proof. unfold extends. set_solver. Qed.

Lemma settled_extends q d c rd q' d' : settled q d c rd q' d' → extends d d'.
Proof. destruct 1; [by unfold extends|apply joinDelta_extends|by unfold extends|apply joinDelta_extends]. Qed.

Lemma answered_extends d d' c rd : extends d d' → answered d c rd → answered d' c rd.
Proof. intros (H1 & H2 & H3) [(e & He & Hr & Hm)|[Hr Hd]]; [left; exists e|right]; set_solver. Qed.

(** Other jobs stay registered. *)
Lemma settled_other taken q d c rd q' d' name job :
  sds_ok (cm_job c :: taken) q → settled q d c rd q' d' → job ≠ cm_job c → sj_id job < sq_fresh q →
  sq_jobs q !! name = Some job ↔ sq_jobs q' !! name = Some job.
Proof.
  intros Hok Hset Hne Hid.
  assert (Hdel : ∀ m, m = delete (sj_name (cm_job c)) (sq_jobs q) → current q c →
    sq_jobs q !! name = Some job ↔ m !! name = Some job).
  { intros m -> Hcur. rewrite lookup_delete_Some. split; [|by intros [_ ?]]. intros Hn. split; [|done].
    intros <-. unfold current in Hcur. congruence. }
  destruct Hset as [q' _ ->|q' Hcur Hj|q' Hcur Hj|q' e Hcur _ Hj]; [done|by apply Hdel| |by apply Hdel].
  rewrite Hj, lookup_insert_Some. split.
  - intros Hn. right. split; [|done]. intros <-. unfold current in Hcur. congruence.
  - intros [[_ <-]|[_ Hn]]; [simpl in Hid; lia|done].
Qed.

Lemma jobs_fresh taken q name job : sds_ok taken q → sq_jobs q !! name = Some job → sj_id job < sq_fresh q.
Proof. intros Hok Hn. apply (so_fresh _ _ Hok). by apply (so_jobs _ _ Hok name). Qed.

Record settlement (batch : list (sdsCompletion * Reading)) (q q' : sdsSession) (d d' : GeneratedDelta) : Prop := mkSettlement {
  se_extends : extends d d';
  se_delivered r : r ∈ gd_Resources d' →
    r ∈ gd_Resources d ∨ ∃ c rd e, (c, rd) ∈ batch ∧ current q c ∧ deliverable c rd e ∧ r ∈ gd_Resources e;
  se_answered c rd : (c, rd) ∈ batch → current q c →
    answered d' c rd ∨ ∃ job, sq_jobs q' !! sj_name (cm_job c) = Some job ∧ sq_fresh q ≤ sj_id job;
  se_other name job : job ∉ cm_job <$> batch.*1 → sq_jobs q !! name = Some job → sq_jobs q' !! name = Some job
}.

Lemma settled_first c rd batch q q1 q' d d1 d' :
  sds_ok (cm_job c :: (cm_job <$> batch.*1)) q → sds_ok (cm_job <$> batch.*1) q1 → sq_fresh q ≤ sq_fresh q1 →
  settled q d c rd q1 d1 → settlement batch q1 q' d1 d' → settlement ((c, rd) :: batch) q q' d d'.
Proof.
  intros Hok Hok1 Hfresh Hset [Hext Hdel Hans Hoth].
  pose proof (so_distinct _ _ Hok) as Hnd.
  assert (Hnew : cm_job c ∉ cm_job <$> batch.*1).
  { unfold held in Hnd. rewrite !app_assoc, fmap_app in Hnd. apply NoDup_app in Hnd as (_ & _ & [Hn _]%NoDup_cons).
    intros Hin. by apply Hn, list_elem_of_fmap_2. }
  assert (Hcur : ∀ c' rd', (c', rd') ∈ batch → current q c' ↔ current q1 c').
  { intros c' rd' Hin. assert (Hin' : cm_job c' ∈ cm_job <$> batch.*1).
    { apply list_elem_of_fmap_2. by apply (list_elem_of_fmap_2 fst _ (c', rd')). }
    eapply settled_other; [exact Hok|exact Hset|by intros Heq; rewrite Heq in Hin'|].
    apply (so_fresh _ _ Hok). unfold held. rewrite !elem_of_app. right. right. right. by right. }
  pose proof (settled_extends _ _ _ _ _ _ Hset) as Hext1.
  constructor.
  - by eapply extends_trans.
  - intros r [Hr|(c' & rd' & e & Hin & Hc & Hd & Hr)]%Hdel; [|right; exists c', rd', e; split; [by right|]; split; [by eapply Hcur|done]].
    destruct Hset as [? _ _|? _ _|? _ _|? e Hc Hd _]; try (by left); simpl in Hr; [left; set_solver|].
    apply elem_of_app in Hr as [Hr|Hr]; [by left|]. right. exists c, rd, e. split; [left|done].
  - intros c' rd' [[= -> ->]|Hin]%elem_of_cons Hc; last first.
    { destruct (Hans c' rd' Hin) as [?|(job & Hj & Hid)]; [by eapply Hcur|by left|right; exists job; split; [done|lia]]. }
    destruct Hset as [? Hn _|? _ _|? _ Hj|? e _ Hd _]; [done| | |].
    + left. eapply answered_extends; [exact Hext|]. right. unfold joinDelta; simpl. set_solver.
    + right. exists (mkJob (sq_fresh q) (sj_name (cm_job c))). split; [|simpl; lia].
      assert (Hj1 : sq_jobs q' !! sj_name (cm_job c) = Some (mkJob (sq_fresh q) (sj_name (cm_job c)))); [|done].
      apply Hoth; [|by rewrite Hj, lookup_insert_eq].
      intros Hin. assert (sj_id (mkJob (sq_fresh q) (sj_name (cm_job c))) < sq_fresh q); [|simpl in *; lia].
      apply (so_fresh _ _ Hok). unfold held. rewrite !elem_of_app. right. right. right. by right.
    + left. eapply answered_extends; [exact Hext|]. left. exists e. unfold joinDelta; simpl. set_solver.
  - intros name job Hn Hj. simpl in Hn. apply not_elem_of_cons in Hn as [Hne Hn]. apply Hoth; [done|].
    eapply (settled_other _ _ _ _ _ _ _ name job Hok Hset Hne); [by eapply jobs_fresh|done].
Qed.

Lemma settle_all batch : ∀ q d q' d',
  sds_ok (cm_job <$> batch.*1) q → rfold completeOne batch (q, d) = Ok (q', d') → settlement batch q q' d d'.
Proof.
  induction batch as [|[c rd] batch IH]; intros q d q' d' Hok; simpl.
  { intros [= <- <-]. constructor; [by unfold extends|by left|by intros ? ? ?%elem_of_nil|done]. }
  intros ([q1 d1] & Hc & Hrest)%rbind_Ok. simpl in Hok.
  destruct (completeOne_settled _ _ _ _ _ _ _ Hok Hc) as [Hset Hf].
  pose proof (completeOne_ok _ _ _ (c, rd) _ Hok Hc) as Hok1. simpl in Hok1.
  eapply settled_first; [exact Hok|exact Hok1|exact Hf|exact Hset|by apply IH].
Qed.

(** Names that became static lose their job. *)
Lemma sdsUnsubscribe_lookup q names name :
  sq_jobs (sdsUnsubscribe q names) !! name = if decide (name ∈ names) then None else sq_jobs q !! name.
Proof.
  unfold sdsUnsubscribe. revert q. induction names as [|n names IH]; intros q; cbn [foldl]; [by rewrite decide_False by apply not_elem_of_nil|].
  rewrite IH. assert (Hone : sq_jobs (unsubscribeOne q n) !! name = if decide (name = n) then None else sq_jobs q !! name).
  { unfold unsubscribeOne. destruct (sq_jobs q !! n) as [job|] eqn:Hn; simpl.
    - destruct (decide (name = n)) as [->|Hne]; [apply lookup_delete_eq|by apply lookup_delete_ne].
    - by destruct (decide (name = n)) as [->|Hne]. }
  rewrite Hone. repeat case_decide; set_solver.
Qed.

Lemma sdsUnsubscribe_fresh q names : sq_fresh (sdsUnsubscribe q names) = sq_fresh q.
Proof.
  unfold sdsUnsubscribe. revert q. induction names as [|n names IH]; intros q; [done|]. simpl. rewrite IH.
  unfold unsubscribeOne. by destruct (sq_jobs q !! n).
Qed.

Lemma sdsUnsubscribe_busy q names : busy q → busy (sdsUnsubscribe q names).
Proof.
  unfold sdsUnsubscribe. revert q. induction names as [|n names IH]; intros q Hb; [done|]. simpl. apply IH.
  unfold unsubscribeOne, busy in *. destruct (sq_jobs q !! n) as [job|]; [|done]. simpl. intros Hp. apply Hb.
  intros Heq. by rewrite Heq in Hp.
Qed.

(** Completions leave the channel. *)
Lemma take_ok q (batch : list (sdsCompletion * Reading)) rest :
  sq_ready q = batch.*1 ++ rest → sds_ok [] q →
  sds_ok (cm_job <$> batch.*1)
    (mkSds (sq_jobs q) (sq_pending q) (sq_active q) (sq_fresh q) (sq_running q) rest (sq_cancelled q)).
Proof.
  intros Hready [Ha Hb Hj Hp Hf Hnd]. set (q' := mkSds _ _ _ _ _ _ _).
  assert (Hheld : held q [] ≡ₚ held q' (cm_job <$> batch.*1)).
  { unfold held; simpl. rewrite Hready, fmap_app, app_nil_r. solve_Permutation. }
  constructor; simpl; try done.
  - rewrite Ha, Hready, length_app, !length_fmap. simpl. lia.
  - intros name j Hn. rewrite <- Hheld. by apply Hj.
  - intros j. rewrite <- Hheld. apply Hf.
  - by rewrite <- Hheld.
Qed.

(** ** Runs *)

Definition steady (st : SecretStream) : Prop := ∀ q, sc_sds st = Some q → sds_ok [] q ∧ busy q.

Section runs.
Context `{Codec} (secretValue : string → SignedCertificate → result Any).
Context (send : DeltaResponse → option string).

Lemma generateSecrets_steady P now cancelled ended st request force st' err :
  generateSecrets secretValue send P now cancelled ended st request force = (st', err) → steady st → steady st'.
Proof.
  unfold generateSecrets. destruct (st_watches (sc_stream st) !! SecretType); [|by intros [= <- _]].
  destruct (effectiveRequest w request) as [request'|]; [|by intros [= <- _]].
  set (sds := (λ q, sdsUnsubscribe q _) <$> sc_sds st). intros Heq Hs.
  assert (Hsds : sc_sds st' = sds).
  { destruct (SDSGenerate _ _ _ _ _ _); [|by injection Heq as <- _].
    destruct (onWatch _ _ _) as [stream e]. by injection Heq as <- _. }
  intros q. rewrite Hsds. subst sds. destruct (sc_sds st) as [q0|] eqn:Hq0; [|done]. intros [= <-].
  destruct (Hs q0 Hq0). split; [by apply sdsUnsubscribe_ok|by apply sdsUnsubscribe_busy].
Qed.

Lemma handleSecretRequest_steady P now cancelled ended st scope snapshot request st' err :
  handleSecretRequest secretValue send P now cancelled ended st scope snapshot request = (st', err) →
  steady st → steady st'.
Proof.
  unfold handleSecretRequest. destruct (typeAccess _ _) as [known allowed].
  destruct (known && negb allowed); [by intros [= <- _]|].
  destruct (receiveRequest _ _ _) as [[[w registered] changed] initial].
  case_match; [intros [= <- _] Hs q; apply Hs|].
  destruct (demandedSecrets _ _ _) as [demand static]. intros Heq Hs.
  set (q := sdsStart _ scope snapshot) in Heq.
  assert (Hq : sds_ok [] q ∧ busy q).
  { apply sdsStart_ok, sdsUnsubscribe_ok, sdsSubscribe_ok.
    destruct (sc_sds st) as [q0|] eqn:Hq0; simpl; [by apply Hs|apply newSDSSession_ok]. }
  destruct (initial || _).
  - eapply generateSecrets_steady; [exact Heq|]. intros q0 [= <-]. done.
  - injection Heq as <- _. intros q0 [= <-]. done.
Qed.

Lemma secret_step_steady scope st st' : secret_step secretValue send scope st st' → steady st → steady st'.
Proof.
  intros Hstep Hs. destruct Hstep as [P now can ended st snapshot request st' _ Hreq|P now can ended st snapshot view update full names st' Hpush
    |P now can ended stream q before job snapshot after gen Hrun Hroom|now stream q snapshot batch rest st' Hready Hn Hdone].
  - by eapply handleSecretRequest_steady.
  - by eapply generateSecrets_steady.
  - intros q' [= <-]. destruct (Hs q eq_refl) as [[Ha Hb Hj Hp Hf Hnd] Hbusy].
    set (q' := mkSds _ _ _ _ _ _ _).
    assert (Hheld : held q [] ≡ₚ held q' []).
    { unfold held; simpl. rewrite Hrun, !fmap_app, fmap_cons. simpl. solve_Permutation. }
    split; [|done]. constructor; simpl; try done.
    + rewrite Ha, Hrun, !length_app. simpl. lia.
    + intros name j Hn. rewrite <- Hheld. by apply Hj.
    + intros j. rewrite <- Hheld. apply Hf.
    + by rewrite <- Hheld.
  - destruct (Hs q eq_refl) as [Htaken%(take_ok _ batch rest) _]; [|done].
    unfold sendSDSCompletions, settleCompletions in Hdone.
    destruct (rfold _ _ _) as [[q1 d1]|e] eqn:Hfold; [|done].
    apply completions_ok in Hfold; [|by apply sdsUnsubscribe_ok].
    destruct (onWatch _ _ _) as [stream' err]. injection Hdone as <- _. intros q' [= <-]. by apply sdsStart_ok.
Qed.

Lemma secret_run_steady scope st : secret_run secretValue send scope st → steady st.
Proof. induction 1 as [stream|st st' _ IH Hstep]; [by intros q [=]|]. by eapply secret_step_steady. Qed.
End runs.

(** C24: Issuance is bounded and no demand is stranded. Whatever requests, pushes, workers
    and completions happened on a stream, its certificate session has at most eight
    workers and unhandled completions, so that a worker always finds room in the channel
    and never outlives its session's interest by blocking on it. A demanded name has one
    job, and that job is queued, under way, or completed and not yet handled. What is
    queued is registered, and something is queued only while all eight places are taken. *)
Theorem certificate_demand `{Codec} (secretValue : string → SignedCertificate → result Any)
    (send : DeltaResponse → option string) (scope : ClientScope) (st : SecretStream) (q : sdsSession) :
  secret_run secretValue send scope st → sc_sds st = Some q →
  sq_active q = length (sq_running q) + length (sq_ready q) ∧ sq_active q ≤ sdsStreamConcurrency
  ∧ (sq_running q ≠ [] → length (sq_ready q) < sdsStreamConcurrency)
  ∧ (sq_pending q ≠ [] → sq_active q = sdsStreamConcurrency)
  ∧ (∀ name job, sq_jobs q !! name = Some job →
       sj_name job = name
       ∧ (job ∈ sq_pending q ∨ job ∈ (sq_running q).*1 ∨ ∃ c, c ∈ sq_ready q ∧ cm_job c = job))
  ∧ (∀ job, job ∈ sq_pending q → sq_jobs q !! sj_name job = Some job)
  ∧ NoDup (sq_pending q).
Proof.
  intros Hrun Hq. destruct (secret_run_steady _ _ _ _ Hrun q Hq) as [[Ha Hb Hj Hp Hf Hnd] Hbusy].
  simpl in Ha. rewrite Nat.add_0_r in Ha. split; [done|]. split; [done|]. split.
  { intros Hne. destruct (sq_running q); [done|simpl in Ha; lia]. }
  split; [done|]. split.
  { intros name job Hn. destruct (Hj name job Hn) as (Hname & _ & Hin). split; [done|].
    unfold held in Hin. rewrite app_nil_r, !elem_of_app in Hin. destruct Hin as [?|[?|Hin]]; [by left|by right; left|].
    right. right. apply list_elem_of_fmap in Hin as (c & -> & Hc). by exists c. }
  split; [done|]. unfold held in Hnd. rewrite fmap_app in Hnd. by apply NoDup_app in Hnd as [?%NoDup_fmap_1 _].
Qed.

(** Only current results are sent, and none is lost. For the completions a stream takes
    from its channel, every secret of the response stems from one whose job was still
    the one registered for its name, was not superseded by a published secret, and which
    was authorized, of the signer's generation, and neither stale nor expired when it was
    handled. Conversely every such job that was still registered is answered, with what it
    generated or with a denial, or its name is demanded again by a job of its own. *)
Theorem certificate_completions `{Codec} (secretValue : string → SignedCertificate → result Any)
    (send : DeltaResponse → option string) (scope : ClientScope) (st : SecretStream) (q : sdsSession)
    (snapshot : ResourceSet) (batch : list (sdsCompletion * Reading)) (rest : list sdsCompletion)
    (q' : sdsSession) (d : GeneratedDelta) :
  secret_run secretValue send scope st → sc_sds st = Some q → sq_ready q = batch.*1 ++ rest →
  settleCompletions (mkSds (sq_jobs q) (sq_pending q) (sq_active q) (sq_fresh q) (sq_running q) rest (sq_cancelled q))
    scope snapshot batch = Ok (q', d) →
  let registered (c : sdsCompletion) :=
    sq_jobs q !! sj_name (cm_job c) = Some (cm_job c) ∧ sj_name (cm_job c) ∉ staticSDSNames snapshot scope in
  (∀ r, r ∈ gd_Resources d →
     ∃ c rd e, (c, rd) ∈ batch ∧ registered c ∧ deliverable c rd e ∧ r ∈ gd_Resources e)
  ∧ (∀ c rd, (c, rd) ∈ batch → registered c →
       answered d c rd ∨ ∃ job, sq_jobs q' !! sj_name (cm_job c) = Some job ∧ sq_fresh q ≤ sj_id job).
Proof.
  intros Hrun Hq Hready Hset. destruct (secret_run_steady _ _ _ _ Hrun q Hq) as [Hok _].
  apply (take_ok _ batch rest) in Hok; [|done]. unfold settleCompletions in Hset.
  set (q0 := mkSds _ _ _ _ _ _ _) in *.
  apply settle_all in Hset as [_ Hdel Hans _]; [|by apply sdsUnsubscribe_ok].
  assert (Hreg : ∀ c, current (sdsUnsubscribe q0 (elements (staticSDSNames snapshot scope))) c ↔
    sq_jobs q !! sj_name (cm_job c) = Some (cm_job c) ∧ sj_name (cm_job c) ∉ staticSDSNames snapshot scope).
  { intros c. unfold current. rewrite sdsUnsubscribe_lookup. case_decide as Hd; rewrite elem_of_elements in Hd; naive_solver. }
  rewrite sdsUnsubscribe_fresh in Hans. intros registered. split.
  - intros r Hr. destruct (Hdel r Hr) as [?%elem_of_nil|(c & rd & e & Hin & Hc%Hreg & Hd)]; [done|]. by exists c, rd, e.
  - intros c rd Hin Hc%Hreg. by apply Hans.
Qed.

(** ** A run *)

#[local] Instance hashCodec : Codec := {| marshalAny a := Ok (any_Value a); digest _ := "5f2e" |}.

Definition plainSecret (name : string) (c : SignedCertificate) : result Any :=
  Ok (mkAny SecretType (name +:+ sc_CertificateChain c)).

Definition issuer : Provider :=
  mkProvider "ca-1" 7 None (λ name, if decide (name = "b.example") then Err "no such domain"
                                    else Ok (mkCertificate "chain" "key" 900 "ca-1")).

Definition egressScope : ClientScope := mkClientScope "" zeroSourceRef ClientEgressGateway zeroPrincipal "" "gw".

Definition secretRequest : DeltaRequest := mkRequest SecretType ["a.example"; "b.example"] [] ∅ "" None.

Definition freshStream : SecretStream := mkSecrets (mkStream ∅ 0 [] []) None.

Definition requested : SecretStream :=
  (handleSecretRequest plainSecret (λ _, None) issuer 100 None (λ _, None) freshStream egressScope emptySet secretRequest).1.

Definition jobA : sdsJob := mkJob 1 "a.example".
Definition jobB : sdsJob := mkJob 0 "b.example".

Definition completionOf (job : sdsJob) : sdsCompletion :=
  mkCompletion job (SDSGenerate plainSecret issuer 200 None (λ _, None) (workerRequest egressScope job emptySet)) 7.

(** Both workers have completed. *)
Definition bothReady : sdsSession :=
  mkSds {["a.example" := jobA; "b.example" := jobB]} [] 2 2 [] [completionOf jobA; completionOf jobB] ∅.

Definition completed : SecretStream := mkSecrets (sc_stream requested) (Some bothReady).

Lemma completed_run : secret_run plainSecret (λ _, None) egressScope completed.
Proof.
  assert (H1 : secret_run plainSecret (λ _, None) egressScope requested).
  { eapply sr_step; [apply (sr_start _ _ _ (mkStream ∅ 0 [] []))|].
    eapply (st_request _ _ _ issuer 100 None (λ _, None) _ emptySet secretRequest); [done|].
    fold freshStream. unfold requested. destruct (handleSecretRequest _ _ _ _ _ _ _ _ _ _) as [st err] eqn:Heq.
    assert (err = None) as ->; [|done]. apply (f_equal snd) in Heq. simpl in Heq. rewrite <- Heq. vm_compute. reflexivity. }
  assert (Hq : sc_sds requested = Some (mkSds {["a.example" := jobA; "b.example" := jobB]} [] 2 2
    [(jobA, emptySet); (jobB, emptySet)] [] ∅)) by (vm_compute; reflexivity).
  destruct requested as [stream sds] eqn:Hr. simpl in Hq. subst sds.
  unfold completed. rewrite Hr. simpl.
  assert (H2 : secret_run plainSecret (λ _, None) egressScope (mkSecrets stream
    (Some (mkSds {["a.example" := jobA; "b.example" := jobB]} [] 2 2 [(jobB, emptySet)] [completionOf jobA] ∅)))).
  { refine (sr_step _ _ _ _ _ H1 (st_worker _ _ _ issuer 200 None (λ _, None) stream
      (mkSds _ _ _ _ _ _ _) [] jobA emptySet [(jobB, emptySet)] 7 eq_refl _)). simpl. unfold sdsStreamConcurrency. lia. }
  refine (sr_step _ _ _ _ _ H2 (st_worker _ _ _ issuer 200 None (λ _, None) stream
    (mkSds _ _ _ _ _ _ _) [] jobB emptySet [] 7 eq_refl _)). simpl. unfold sdsStreamConcurrency. lia.
Qed.

Lemma certificate_demand_witness : sq_active bothReady = 0 + 2 ∧ sq_active bothReady ≤ 8.
Proof.
  destruct (certificate_demand plainSecret (λ _, None) egressScope completed bothReady completed_run eq_refl) as (H1 & H2 & _).
  exact (conj H1 H2).
Defined.

(** The first certificate is sent, the other denied. *)
Definition reading : Reading := mkReading None 7 "ca-1" "ca-1" 300.

Lemma certificate_completions_witness :
  ∃ q' d, settleCompletions (mkSds (sq_jobs bothReady) [] 2 2 [] [] ∅) egressScope emptySet
            [(completionOf jobA, reading); (completionOf jobB, reading)] = Ok (q', d)
    ∧ (∀ r, r ∈ gd_Resources d → ∃ c rd e, (c, rd) ∈ [(completionOf jobA, reading); (completionOf jobB, reading)]
         ∧ (sq_jobs bothReady !! sj_name (cm_job c) = Some (cm_job c) ∧ sj_name (cm_job c) ∉ staticSDSNames emptySet egressScope)
         ∧ deliverable c rd e ∧ r ∈ gd_Resources e)
    ∧ XDSName <$> gd_Resources d = ["a.example"] ∧ gd_Removed d = ["b.example"].
Proof.
  destruct (settleCompletions (mkSds (sq_jobs bothReady) [] 2 2 [] [] ∅) egressScope emptySet
    [(completionOf jobA, reading); (completionOf jobB, reading)]) as [[q' d]|e] eqn:Heq;
    [|exfalso; vm_compute in Heq; discriminate].
  exists q', d. split; [done|]. split.
  - apply (certificate_completions plainSecret (λ _, None) egressScope completed bothReady emptySet
      [(completionOf jobA, reading); (completionOf jobB, reading)] [] q' d completed_run eq_refl eq_refl Heq).
  - assert (Hv : match settleCompletions (mkSds (sq_jobs bothReady) [] 2 2 [] [] ∅) egressScope emptySet
        [(completionOf jobA, reading); (completionOf jobB, reading)]
      with Ok (_, d) => Some (XDSName <$> gd_Resources d, gd_Removed d) | Err _ => None end
      = Some (["a.example"], ["b.example"])) by (vm_compute; reflexivity).
    rewrite Heq in Hv. injection Hv as H1 H2. exact (conj H1 H2).
Defined.
