(* ===== verification/FlowControl.v ===== *)
(** * FlowControl: response leases of the streams
    (src/pkg/xds/flowcontrol.go, session.go)

    A stream holds one slot of a pool while it has responses the client has not
    acknowledged; a lease expires a timeout after the oldest of them. The handlers of a
    session take the lease before they may send and give it back when everything is
    acknowledged. A dereference of a timer that was never created is [None]. *)

From S2P Require Import Prelude Identity Resource ResourceIndex ResourceSet Update Watch Generator Delta Requests SecretVersions Certificates.

(** ** Leases *)

Inductive slotPool := InitialSlots | RequestSlots | PushSlots.

#[export] Instance slotPool_eq_dec : EqDecision slotPool.
Proof. solve_decision. Defined.

(** The pool of the slot that is held, when the timer is due (none before the first
    start), and the deadline *)
Record responseLease := mkLease {
  rl_pool : option slotPool;
  rl_timer : option Z;
  rl_deadline : Z
}.

Definition newLease : responseLease := mkLease None None 0.

Section leases.
Context (timeout : Z).

Definition leaseStart (now : Z) (pool : slotPool) : responseLease :=
  mkLease (Some pool) (Some (now + timeout)%Z) (now + timeout)%Z.

(** The lease without its slot, and the pool the slot goes back to *)
Definition leaseRelease (l : responseLease) : responseLease * option slotPool :=
  (mkLease None (rl_timer l) (rl_deadline l), rl_pool l).

Definition timedOut (l : responseLease) (now : Z) : bool :=
  isSome (rl_pool l) && bool_decide (rl_deadline l ≤ now)%Z.

(** The lease after its slot was taken, and the pool it was taken from if it was not held *)
Definition acquire (l : responseLease) (now : Z) (pool : slotPool) : result (responseLease * option slotPool) :=
  check! negb (timedOut l now) else "xDS response acknowledgement timeout" in
  match rl_pool l with
  | Some _ => Ok (l, None)
  | None => Ok (leaseStart now pool, Some pool)
  end.

(** When the oldest response that is not acknowledged was sent *)
Definition older (oldest : option Z) (w : watchState) : option Z :=
  match ws_unacknowledged w with
  | [] => oldest
  | r :: _ =>
      match oldest with
      | None => Some (sr_at r)
      | Some at_ => Some (if decide (sr_at r < at_)%Z then sr_at r else at_)
      end
  end.

Definition oldestUnacknowledged (watches : gmap string watchState) : option Z :=
  foldl older None (map_to_list watches).*2.

Definition releaseAcknowledged (l : responseLease) (watches : gmap string watchState)
    : option (responseLease * option slotPool) :=
  match oldestUnacknowledged watches with
  | None => Some (leaseRelease l)
  | Some oldest =>
      let deadline := (oldest + timeout)%Z in
      if decide (deadline = rl_deadline l) then Some (l, None) else
      match rl_timer l with
      | None => None
      | Some _ => Some (mkLease (rl_pool l) (Some deadline) deadline, None)
      end
  end.

Definition requestResponsePool (watches : gmap string watchState) : slotPool :=
  if existsb (λ p : string * watchState, ws_receivedAcknowledgement p.2) (map_to_list watches)
  then RequestSlots else InitialSlots.

(** ** The handlers of a session *)

Record FlowSession := mkFlow { fs_secrets : SecretStream; fs_lease : responseLease }.

Definition fs_watches (f : FlowSession) : gmap string watchState := st_watches (sc_stream (fs_secrets f)).

(** A reply without a change of subscription is never answered. *)
Definition pureACK (watches : gmap string watchState) (request : DeltaRequest) : bool :=
  match watches !! dr_TypeUrl request with
  | None => false
  | Some w =>
      ws_started w && bool_decide (dr_ResponseNonce request ≠ "")
      && bool_decide (length (dr_Subscribe request) = 0) && bool_decide (length (dr_Unsubscribe request) = 0)
      && bool_decide (size (dr_InitialVersions request) = 0)
  end.

(** What a handler does: the session, the slots it took and gave back, and its error *)
Record flowOutcome := mkOutcome {
  fo_session : FlowSession;
  fo_acquired : option slotPool;
  fo_released : option slotPool;
  fo_error : option string
}.

(** The lease is settled after a handler. *)
Definition settleLease (secrets : SecretStream) (l : responseLease) (acquired : option slotPool) (err : option string)
    : option flowOutcome :=
  match releaseAcknowledged l (st_watches (sc_stream secrets)) with
  | None => None
  | Some (l, released) => Some (mkOutcome (mkFlow secrets l) acquired released err)
  end.

Section handlers.
Context `{Codec} (secretValue : string → SignedCertificate → result Any).
Context (generate : GenerationRequest → result GeneratedDelta) (send : DeltaResponse → option string).
Context (P : Provider) (cancelled : option string) (ended : string → option string) (now : Z).
Context (scope : ClientScope) (snapshot : ResourceSet).

(** The server's handler of a request; [onDemand] tells whether secrets are issued. *)
Definition serveRequest (onDemand : bool) (secrets : SecretStream) (request : DeltaRequest)
    : SecretStream * option string :=
  if onDemand && bool_decide (dr_TypeUrl request = SecretType)
  then handleSecretRequest secretValue send P now cancelled ended secrets scope snapshot request
  else let '(stream, err) := handleRequest generate send now (sc_stream secrets) scope snapshot request in
       (mkSecrets stream (sc_sds secrets), err).

(** [deltaSession.handleRequest] *)
Definition sessionRequest (onDemand : bool) (f : FlowSession) (request : DeltaRequest) : option flowOutcome :=
  match (if pureACK (fs_watches f) request then Ok (fs_lease f, None)
         else acquire (fs_lease f) now (requestResponsePool (fs_watches f))) with
  | Err e => Some (mkOutcome f None None (Some e))
  | Ok (l, acquired) =>
      let '(secrets, err) := serveRequest onDemand (fs_secrets f) request in
      settleLease secrets l acquired err
  end.

(** [deltaSession.handleCertificate]; an error returns before the lease is settled. *)
Definition sessionCertificate (f : FlowSession) (q : sdsSession) (batch : list (sdsCompletion * Reading))
    : option flowOutcome :=
  match acquire (fs_lease f) now (requestResponsePool (fs_watches f)) with
  | Err e => Some (mkOutcome f None None (Some e))
  | Ok (l, acquired) =>
      let '(secrets, err) := sendSDSCompletions send now (fs_secrets f) q scope snapshot batch in
      match err with
      | Some e => Some (mkOutcome (mkFlow secrets l) acquired None (Some e))
      | None => settleLease secrets l acquired None
      end
  end.

(** The part of [deltaSession.handlePush] once it has a slot; the outer [None] is a
    run-time panic of [pushUpdate]. *)
Definition sessionPush (f : FlowSession) (update : Update) : option (option flowOutcome) :=
  if timedOut (fs_lease f) now
  then Some (Some (mkOutcome f None None (Some "xDS response acknowledgement timeout"))) else
  match pushUpdate generate send now scope snapshot (sc_stream (fs_secrets f)) update with
  | None => None
  | Some (stream, err) => Some (settleLease (mkSecrets stream (sc_sds (fs_secrets f))) (fs_lease f) None err)
  end.

(** A push of the secrets a stream watches *)
Definition sessionPushSecrets (f : FlowSession) (request : GenerationRequest) : option flowOutcome :=
  if timedOut (fs_lease f) now
  then Some (mkOutcome f None None (Some "xDS response acknowledgement timeout")) else
  let '(secrets, err) := generateSecrets secretValue send P now cancelled ended (fs_secrets f) request false in
  settleLease secrets (fs_lease f) None err.
End handlers.
End leases.

(** ** The server's streams *)

(** How many slots of each pool are taken, and the sessions *)
Record FlowSystem := mkFlowSystem {
  fl_used : slotPool → nat;
  fl_sessions : gmap nat FlowSession
}.

Definition taken (p : slotPool) (o : option slotPool) : nat := if decide (o = Some p) then 1 else 0.

Definition startFlow : FlowSystem := mkFlowSystem (λ _, 0) ∅.

(** The effect of a handler's outcome: a session that returns an error leaves and releases
    what it holds. *)
Definition adjust (y : FlowSystem) (i : nat) (o : flowOutcome) : FlowSystem :=
  match fo_error o with
  | None =>
      mkFlowSystem (λ p, fl_used y p + taken p (fo_acquired o) - taken p (fo_released o))
        (<[i := fo_session o]> (fl_sessions y))
  | Some _ =>
      mkFlowSystem (λ p, fl_used y p + taken p (fo_acquired o) - taken p (fo_released o)
                         - taken p (rl_pool (fs_lease (fo_session o))))
        (delete i (fl_sessions y))
  end.

Section streams.
Context `{Codec} (secretValue : string → SignedCertificate → result Any).
Context (concurrency : nat) (timeout : Z).

(** What a handler of a session may come to: requests and certificates at any time, pushes
    with a slot *)
Inductive handles (f : FlowSession) : option flowOutcome → Prop :=
| hd_request generate send P cancelled ended now scope snapshot onDemand request :
    handles f (sessionRequest timeout secretValue generate send P cancelled ended now scope snapshot onDemand f request)
| hd_certificate send now scope snapshot q batch :
    handles f (sessionCertificate timeout send now scope snapshot f q batch)
| hd_push generate send now scope snapshot update o :
    rl_pool (fs_lease f) ≠ None → sessionPush timeout generate send now scope snapshot f update = Some o →
    handles f o
| hd_push_secrets send P cancelled ended now request :
    rl_pool (fs_lease f) ≠ None →
    handles f (sessionPushSecrets timeout secretValue send P cancelled ended now f request).

(** A handler that has to take a slot waits for room in the pool. *)
Definition room (y : FlowSystem) (acquired : option slotPool) : Prop :=
  ∀ p, acquired = Some p → fl_used y p < concurrency.

Inductive flow_step : FlowSystem → FlowSystem → Prop :=
| fw_join y i nonce :
    fl_sessions y !! i = None →
    flow_step y (mkFlowSystem (fl_used y)
      (<[i := mkFlow (mkSecrets (mkStream ∅ nonce [] []) None) newLease]> (fl_sessions y)))
| fw_handle y i f o :
    fl_sessions y !! i = Some f → handles f (Some o) → room y (fo_acquired o) → flow_step y (adjust y i o)
  (** A push waits for a slot while its session has none. *)
| fw_slot y i f now :
    fl_sessions y !! i = Some f → rl_pool (fs_lease f) = None → room y (Some PushSlots) →
    flow_step y (adjust y i (mkOutcome (mkFlow (fs_secrets f) (leaseStart timeout now PushSlots)) (Some PushSlots) None None))
  (** A session ends. *)
| fw_leave y i f err :
    fl_sessions y !! i = Some f → flow_step y (adjust y i (mkOutcome f None None (Some err))).

Inductive flow_run : FlowSystem → Prop :=
| fn_start : flow_run startFlow
| fn_step y y' : flow_run y → flow_step y y' → flow_run y'.
End streams.
