(* ===== verification/FlowTheorems.v ===== *)
(** * FlowTheorems: leases are held while responses are outstanding, and pools are bounded *)

From S2P Require Import Prelude Identity Resource ResourceIndex ResourceSet Update Watch Generator Delta Requests SecretVersions Certificates FlowControl.

(** Some response of the stream is not acknowledged. *)
Definition unacked (watches : gmap string watchState) : Prop :=
  ∃ t w, watches !! t = Some w ∧ ws_unacknowledged w ≠ [].

Lemma older_None ws oldest : foldl older oldest ws = None ↔ oldest = None ∧ Forall (λ w, ws_unacknowledged w = []) ws.
Proof.
  revert oldest. induction ws as [|w ws IH]; intros oldest; simpl; [by rewrite Forall_nil; naive_solver|].
  rewrite IH, Forall_cons. unfold older. destruct (ws_unacknowledged w), oldest; naive_solver.
Qed.

Lemma oldest_None watches : oldestUnacknowledged watches = None ↔ ¬ unacked watches.
Proof.
  unfold oldestUnacknowledged. rewrite older_None, Forall_forall. split.
  - intros [_ Hall] (t & w & Hw & Hne). apply Hne, Hall. apply list_elem_of_fmap. exists (t, w). by rewrite elem_of_map_to_list.
  - intros Hno. split; [done|]. intros w ([t w'] & -> & Hw)%list_elem_of_fmap. apply elem_of_map_to_list in Hw.
    destruct (ws_unacknowledged w') eqn:Hu; [done|]. exfalso. apply Hno. exists t, w'. by rewrite Hu.
Qed.

Lemma older_Some ws oldest at_ :
  foldl older oldest ws = Some at_ → oldest ≠ None ∨ ∃ w, w ∈ ws ∧ ws_unacknowledged w ≠ [].
Proof.
  revert oldest. induction ws as [|w ws IH]; intros oldest; simpl; [intros ->; by left|].
  intros [Ho|(w' & Hin & Hne)]%IH; [|right; exists w'; split; [by right|done]].
  unfold older in Ho. destruct (ws_unacknowledged w) eqn:Hu; [by left|]. right. exists w. split; [left|by rewrite Hu].
Qed.

Lemma oldest_Some watches at_ : oldestUnacknowledged watches = Some at_ → unacked watches.
Proof.
  intros [?|(w & ([t w'] & -> & Hw)%list_elem_of_fmap & Hne)]%older_Some; [done|].
  exists t, w'. by rewrite elem_of_map_to_list in Hw.
Qed.

(** ** Settling a lease *)

(** The lease fits what its session has outstanding. *)
Record lease_ok (watches : gmap string watchState) (l : responseLease) : Prop := mkLeaseOk {
  lo_held : unacked watches → isSome (rl_pool l) = true;
  lo_timer : isSome (rl_pool l) = true → isSome (rl_timer l) = true
}.

Section settling.
Context (timeout : Z).

(** After a handler: the lease is exactly as long as the oldest response is young. *)
Record settles_to (watches : gmap string watchState) (l l' : responseLease) (released : option slotPool) : Prop := mkSettles {
  st_ok : lease_ok watches l';
  st_due : rl_pool l' = None ∧ released = rl_pool l ∧ ¬ unacked watches
    ∨ rl_pool l' = rl_pool l ∧ released = None ∧
      ∃ oldest, oldestUnacknowledged watches = Some oldest ∧ rl_deadline l' = (oldest + timeout)%Z
}.

Lemma releaseAcknowledged_settles l watches :
  lease_ok watches l → ∃ l' released,
    releaseAcknowledged timeout l watches = Some (l', released) ∧ settles_to watches l l' released.
Proof.
  intros [Hheld Htimer]. unfold releaseAcknowledged.
  destruct (oldestUnacknowledged watches) as [oldest|] eqn:Ho; last first.
  { apply oldest_None in Ho. eexists _, _. split; [done|]. split; [by split|]. left. done. }
  pose proof (oldest_Some _ _ Ho) as Hu.
  specialize (Hheld Hu). specialize (Htimer Hheld). destruct (decide _) as [Heq|_].
  - eexists _, _. split; [done|]. split; [by split|]. right. split; [done|]. split; [done|]. by exists oldest.
  - destruct (rl_timer l); [|done]. eexists _, _. split; [done|]. split; [by split|]. right. split; [done|]. split; [done|].
    by exists oldest.
Qed.

Lemma settleLease_total secrets l acquired err :
  lease_ok (st_watches (sc_stream secrets)) l →
  ∃ l' released, settleLease timeout secrets l acquired err = Some (mkOutcome (mkFlow secrets l') acquired released err)
    ∧ settles_to (st_watches (sc_stream secrets)) l l' released.
Proof.
  intros Hok. destruct (releaseAcknowledged_settles l _ Hok) as (l' & released & Heq & Hs).
  exists l', released. split; [|done]. unfold settleLease. by rewrite Heq.
Qed.

Lemma acquire_held l now pool watches l' acquired :
  lease_ok watches l → acquire timeout l now pool = Ok (l', acquired) →
  isSome (rl_pool l') = true ∧ isSome (rl_timer l') = true ∧
  (acquired = None ∧ rl_pool l' = rl_pool l ∨ acquired = rl_pool l' ∧ rl_pool l = None).
Proof.
  intros [_ Htimer]. unfold acquire. destruct (negb (timedOut l now)); [|done]. simpl.
  destruct (rl_pool l) as [p|] eqn:Hp; intros [= <- <-].
  - rewrite Hp. split; [done|]. split; [by apply Htimer|]. by left.
  - simpl. split; [done|]. split; [done|]. by right.
Qed.
End settling.

(** ** Pure acknowledgements send nothing *)

Lemma recordAcknowledgement_unacked w request :
  ws_unacknowledged (recordAcknowledgement w request).1 ≠ [] → ws_unacknowledged w ≠ [].
Proof.
  assert (Hflow : ∀ nonce, ws_unacknowledged (resolveFlow w nonce) ≠ [] → ws_unacknowledged w ≠ []).
  { intros nonce. unfold resolveFlow. destruct (afterNonce nonce (ws_unacknowledged w)) eqn:Ha; [|done].
    intros _ Hw. by rewrite Hw in Ha. }
  assert (Hpend : ∀ w n a, ws_unacknowledged (resolvePending w n a) = ws_unacknowledged w).
  { intros w' n a. unfold resolvePending, indexPendingResponse. destruct (ws_pendingResponse w') as [r|]; [|done].
    destruct (decide _); [|done]. by destruct a. }
  unfold recordAcknowledgement. destruct (decide _); [done|]. destruct (decide _); simpl.
  - rewrite Hpend. apply Hflow.
  - destruct (dr_ErrorDetail request) as [[message code]|]; simpl; rewrite Hpend; apply Hflow.
Qed.

Lemma pure_receives st scope request w :
  st_watches st !! dr_TypeUrl request = Some w → pureACK (st_watches st) request = true →
  ∃ registered initial, receiveRequest st scope request =
    ((recordAcknowledgement (settleRecovery w) request).1, registered, false, initial).
Proof.
  intros Hw. unfold pureACK. rewrite Hw. rewrite !andb_true_iff, !bool_decide_eq_true.
  intros ((((Hs & _) & Hsub) & Hun) & _). apply length_zero_iff_nil in Hsub, Hun.
  unfold receiveRequest, watchFor. rewrite Hw. unfold applySubscription. rewrite Hs, Hsub, Hun. simpl.
  eexists _, _. done.
Qed.

Lemma insert_unacked (watches : gmap string watchState) t w w' :
  watches !! t = Some w → (ws_unacknowledged w' ≠ [] → ws_unacknowledged w ≠ []) →
  unacked (<[t := w']> watches) → unacked watches.
Proof.
  intros Hw Himp (t' & v & [[<- <-]|[Hne Hv]]%lookup_insert_Some & Hu); [exists t, w; auto|by exists t', v].
Qed.

Section pure.
Context `{Codec} (secretValue : string → SignedCertificate → result Any).
Context (generate : GenerationRequest → result GeneratedDelta) (send : DeltaResponse → option string).
Context (P : Provider) (cancelled : option string) (ended : string → option string) (now : Z).
Context (scope : ClientScope) (snapshot : ResourceSet).

Lemma pure_request st request st' err :
  handleRequest generate send now st scope snapshot request = (st', err) →
  pureACK (st_watches st) request = true → unacked (st_watches st') → unacked (st_watches st).
Proof.
  intros Heq Hpure. destruct (st_watches st !! dr_TypeUrl request) as [w|] eqn:Hw; [|unfold pureACK in Hpure; by rewrite Hw in Hpure].
  revert Heq. unfold handleRequest. destruct (typeAccess _ _) as [known allowed]. destruct (known && negb allowed); [by intros [= <- _]|].
  destruct (pure_receives st scope request w Hw Hpure) as (registered & initial & ->).
  unfold pureACK in Hpure. rewrite Hw, !andb_true_iff in Hpure. destruct Hpure as [[[[_ Hn] Hsub] _] _].
  rewrite Hn, Hsub. simpl. intros [= <- _]. simpl. apply (insert_unacked _ _ w); [done|].
  intros Hne%recordAcknowledgement_unacked. done.
Qed.

Lemma pure_secret_request st request st' err :
  dr_TypeUrl request = SecretType →
  handleSecretRequest secretValue send P now cancelled ended st scope snapshot request = (st', err) →
  pureACK (st_watches (sc_stream st)) request = true →
  unacked (st_watches (sc_stream st')) → unacked (st_watches (sc_stream st)).
Proof.
  intros Ht Heq Hpure.
  destruct (st_watches (sc_stream st) !! dr_TypeUrl request) as [w|] eqn:Hw; [|unfold pureACK in Hpure; by rewrite Hw in Hpure].
  revert Heq. unfold handleSecretRequest. destruct (typeAccess _ _) as [known allowed]. destruct (known && negb allowed); [by intros [= <- _]|].
  destruct (pure_receives (sc_stream st) scope request w Hw Hpure) as (registered & initial & ->).
  unfold pureACK in Hpure. rewrite Hw, !andb_true_iff in Hpure. destruct Hpure as [[[[_ Hn] Hsub] _] _].
  rewrite Hn, Hsub. simpl. intros [= <- _]. simpl. rewrite <- Ht. apply (insert_unacked _ _ w); [done|].
  intros Hne%recordAcknowledgement_unacked. done.
Qed.

Lemma serveRequest_pure onDemand secrets request secrets' err :
  serveRequest secretValue generate send P cancelled ended now scope snapshot onDemand secrets request = (secrets', err) →
  pureACK (st_watches (sc_stream secrets)) request = true →
  unacked (st_watches (sc_stream secrets')) → unacked (st_watches (sc_stream secrets)).
Proof.
  unfold serveRequest. destruct (onDemand && bool_decide (dr_TypeUrl request = SecretType)) eqn:Hd.
  - apply andb_true_iff in Hd as [_ Ht%bool_decide_eq_true]. by apply pure_secret_request.
  - destruct (handleRequest _ _ _ _ _ _ _) as [stream e] eqn:Hr. intros [= <- _] Hpure. by eapply pure_request.
Qed.
End pure.

(** ** Outcomes *)

Section outcomes.
Context `{Codec} (secretValue : string → SignedCertificate → result Any).
Context (concurrency : nat) (timeout : Z).

(** A handler does not fail on its timer, accounts for its slots, and without an error
    leaves a lease that runs out a timeout after the oldest outstanding response. *)
Record outcome_ok (f : FlowSession) (o : flowOutcome) : Prop := mkOutcomeOk {
  oo_slots p : taken p (rl_pool (fs_lease f)) + taken p (fo_acquired o) =
    taken p (fo_released o) + taken p (rl_pool (fs_lease (fo_session o)));
  oo_lease : fo_error o = None →
    lease_ok (fs_watches (fo_session o)) (fs_lease (fo_session o)) ∧
    (rl_pool (fs_lease (fo_session o)) = None ∧ ¬ unacked (fs_watches (fo_session o)) ∨
     ∃ oldest, oldestUnacknowledged (fs_watches (fo_session o)) = Some oldest
       ∧ rl_deadline (fs_lease (fo_session o)) = (oldest + timeout)%Z)
}.

Lemma taken_None p : taken p None = 0.
Proof. done. Qed.

Lemma settle_outcome f secrets l acquired err :
  lease_ok (st_watches (sc_stream secrets)) l →
  (∀ p, taken p (rl_pool (fs_lease f)) + taken p acquired = taken p (rl_pool l)) →
  ∃ o, settleLease timeout secrets l acquired err = Some o ∧ outcome_ok f o.
Proof.
  intros Hok Hslots. destruct (settleLease_total timeout secrets l acquired err Hok) as (l' & released & Heq & [Hl' Hdue]).
  eexists. split; [exact Heq|]. split; simpl.
  - intros p. rewrite Hslots. destruct Hdue as [(-> & -> & _)|(-> & -> & _)]; rewrite taken_None; lia.
  - intros _. split; [done|]. destruct Hdue as [(? & _ & ?)|(_ & _ & ?)]; [by left|by right].
Qed.

Lemma failed_outcome f e : outcome_ok f (mkOutcome f None None (Some e)).
Proof. split; [intros p; simpl; rewrite taken_None; lia|done]. Qed.

Lemma acquired_slots l l' acquired :
  acquired = None ∧ rl_pool l' = rl_pool l ∨ acquired = rl_pool l' ∧ rl_pool l = None →
  ∀ p, taken p (rl_pool l) + taken p acquired = taken p (rl_pool l').
Proof. intros [[-> ->]|[-> ->]] p; rewrite taken_None; lia. Qed.

Lemma held_ok watches l : isSome (rl_pool l) = true → isSome (rl_timer l) = true → lease_ok watches l.
Proof. by split. Qed.

Lemma handles_outcome f oo :
  lease_ok (fs_watches f) (fs_lease f) → handles secretValue timeout f oo → ∃ o, oo = Some o ∧ outcome_ok f o.
Proof.
  intros Hok Hh. destruct Hh as [generate send P can ended now scope snapshot onDemand request
    |send now scope snapshot q batch|generate send now scope snapshot update o Hp Hpush|send P can ended now request Hp].
  - unfold sessionRequest. destruct (pureACK (fs_watches f) request) eqn:Hpure.
    + destruct (serveRequest _ _ _ _ _ _ _ _ _ _ _ _) as [secrets err] eqn:Hs. apply settle_outcome; [|intros p; rewrite taken_None; lia].
      split; [|apply Hok]. intros Hu. apply Hok. by eapply serveRequest_pure.
    + destruct (acquire _ _ _ _) as [[l acquired]|e] eqn:Ha; [|eexists; split; [done|apply failed_outcome]].
      destruct (acquire_held _ _ _ _ _ _ _ Hok Ha) as (H1 & H2 & H3).
      destruct (serveRequest _ _ _ _ _ _ _ _ _ _ _ _) as [secrets err].
      apply settle_outcome; [by apply held_ok|by apply acquired_slots].
  - unfold sessionCertificate. destruct (acquire _ _ _ _) as [[l acquired]|e] eqn:Ha; [|eexists; split; [done|apply failed_outcome]].
    destruct (acquire_held _ _ _ _ _ _ _ Hok Ha) as (H1 & H2 & H3). pose proof (acquired_slots _ _ _ H3) as H4.
    destruct (sendSDSCompletions _ _ _ _ _ _ _) as [secrets [e|]].
    + eexists. split; [done|]. split; [|done]. intros p. simpl. rewrite H4. done.
    + apply settle_outcome; [by apply held_ok|done].
  - unfold sessionPush in Hpush. destruct (timedOut _ _); [injection Hpush as <-; eexists; split; [done|apply failed_outcome]|].
    destruct (pushUpdate _ _ _ _ _ _ _) as [[stream err]|]; [|done]. injection Hpush as <-.
    assert (Hs : isSome (rl_pool (fs_lease f)) = true) by (by destruct (rl_pool (fs_lease f))).
    apply settle_outcome; [apply held_ok; [done|by apply Hok]|intros p; rewrite taken_None; lia].
  - unfold sessionPushSecrets. destruct (timedOut _ _); [eexists; split; [done|apply failed_outcome]|].
    destruct (generateSecrets _ _ _ _ _ _ _ _ _) as [secrets err].
    assert (Hs : isSome (rl_pool (fs_lease f)) = true) by (by destruct (rl_pool (fs_lease f))).
    apply settle_outcome; [apply held_ok; [done|by apply Hok]|intros p; rewrite taken_None; lia].
Qed.

(** ** Pools *)

Definition holders (p : slotPool) (sessions : gmap nat FlowSession) : nat :=
  size (base.filter (λ kv : nat * FlowSession, rl_pool (fs_lease kv.2) = Some p) sessions).

Lemma holders_delete p sessions i f :
  sessions !! i = Some f → holders p sessions = holders p (delete i sessions) + taken p (rl_pool (fs_lease f)).
Proof.
  intros Hi. unfold holders, taken. rewrite <- (insert_delete_id sessions i f Hi) at 1.
  set (m := delete i sessions). assert (Hm : m !! i = None) by apply lookup_delete_eq. clearbody m.
  case_decide as Hp.
  - rewrite map_filter_insert_True by done. rewrite map_size_insert_None; [lia|].
    apply map_lookup_filter_None. by left.
  - rewrite map_filter_insert_False by done. rewrite delete_id by done. lia.
Qed.

Lemma holders_insert p sessions i f :
  sessions !! i = None → holders p (<[i := f]> sessions) = holders p sessions + taken p (rl_pool (fs_lease f)).
Proof.
  intros Hi. rewrite (holders_delete p _ i f) by apply lookup_insert_eq. by rewrite delete_insert_id.
Qed.

Lemma holders_replace p sessions i f f' :
  sessions !! i = Some f →
  holders p (<[i := f']> sessions) + taken p (rl_pool (fs_lease f)) = holders p sessions + taken p (rl_pool (fs_lease f')).
Proof.
  intros Hi. rewrite (holders_delete p (<[i := f']> sessions) i f') by apply lookup_insert_eq.
  rewrite (holders_delete p sessions i f Hi). rewrite delete_insert_eq. lia.
Qed.

Record flow_ok (y : FlowSystem) : Prop := mkFlowOk {
  fk_used p : fl_used y p = holders p (fl_sessions y);
  fk_bound p : fl_used y p ≤ concurrency;
  fk_lease i f : fl_sessions y !! i = Some f → lease_ok (fs_watches f) (fs_lease f)
}.

(** What a session does with its slots keeps the pools' accounts. *)
Lemma adjust_ok y i f o :
  flow_ok y → fl_sessions y !! i = Some f →
  (∀ p, taken p (rl_pool (fs_lease f)) + taken p (fo_acquired o) =
        taken p (fo_released o) + taken p (rl_pool (fs_lease (fo_session o)))) →
  (fo_error o = None → lease_ok (fs_watches (fo_session o)) (fs_lease (fo_session o))) →
  room concurrency y (fo_acquired o) → flow_ok (adjust y i o).
Proof.
  intros [Hu Hb Hl] Hi Hslots Hlease Hroom. unfold adjust.
  assert (Hone : ∀ p, fl_used y p + taken p (fo_acquired o) ≤ concurrency).
  { intros p. specialize (Hroom p). specialize (Hb p). unfold taken. case_decide; [apply Hroom in H0|]; lia. }
  destruct (fo_error o) as [e|]; constructor; simpl.
  - intros p. specialize (Hslots p). rewrite Hu, (holders_delete p _ _ _ Hi). lia.
  - intros p. specialize (Hone p). lia.
  - intros j g [_ Hj]%lookup_delete_Some. by eapply Hl.
  - intros p. specialize (Hslots p). pose proof (holders_replace p _ _ _ (fo_session o) Hi). rewrite Hu.
    pose proof (holders_delete p _ _ _ Hi). lia.
  - intros p. specialize (Hone p). lia.
  - intros j g [[<- <-]|[_ Hj]]%lookup_insert_Some; [by apply Hlease|by eapply Hl].
Qed.

Lemma flow_run_ok y : flow_run secretValue concurrency timeout y → flow_ok y.
Proof.
  induction 1 as [|y y' _ Hy Hstep].
  { constructor; [done|simpl; lia|]. intros i f Hi. unfold startFlow in Hi; simpl in Hi. by rewrite lookup_empty in Hi. }
  destruct Hstep as [y i nonce Hi|y i f o Hi Hh Hroom|y i f now Hi Hp Hroom|y i f err Hi].
  - destruct Hy as [Hu Hb Hl]. constructor; simpl; [|done|].
    + intros p. rewrite holders_insert by done. simpl. rewrite taken_None, Hu. lia.
    + intros j g [[<- <-]|[_ Hj]]%lookup_insert_Some; [|by eapply Hl]. split; [|done].
      intros (t & w & Hw & _). unfold fs_watches in Hw; simpl in Hw. by rewrite lookup_empty in Hw.
  - destruct (handles_outcome f (Some o) (fk_lease _ Hy i f Hi) Hh) as (o' & [= <-] & [Hs Hle]).
    eapply adjust_ok; [done|done|done| |done]. intros He. by apply Hle.
  - eapply adjust_ok; [done|done|..|done]; simpl; [intros p; rewrite Hp, taken_None; lia|done].
  - eapply adjust_ok; [done|done|..]; simpl; [intros p; rewrite taken_None; lia|done|by intros p].
Qed.

(** C23: Response leases are safe. In every state the server's streams reach, the slots taken
    of a pool are the sessions that hold one, at most the configured concurrency. A
    session with a response its client has not acknowledged holds a slot. No handler ever
    uses a timer that was not created: requests, certificates and pushes all come to an
    outcome, the slot they give back is there to be taken, and after a handler without an
    error either everything is acknowledged and the slot is free, or the lease ends a
    timeout after the oldest outstanding response was sent. *)
Theorem flow_leases_safe (y : FlowSystem) :
  flow_run secretValue concurrency timeout y →
  (∀ p, fl_used y p = size (base.filter (λ kv : nat * FlowSession, rl_pool (fs_lease kv.2) = Some p) (fl_sessions y))
        ∧ fl_used y p ≤ concurrency)
  ∧ ∀ i f, fl_sessions y !! i = Some f →
    ((∃ t w, fs_watches f !! t = Some w ∧ ws_unacknowledged w ≠ []) → rl_pool (fs_lease f) ≠ None)
    ∧ ∀ oo, handles secretValue timeout f oo → ∃ o, oo = Some o
      ∧ (∀ p, taken p (fo_released o) ≤ fl_used y p + taken p (fo_acquired o))
      ∧ (fo_error o = None →
           rl_pool (fs_lease (fo_session o)) = None ∧ oldestUnacknowledged (fs_watches (fo_session o)) = None
           ∨ ∃ oldest, oldestUnacknowledged (fs_watches (fo_session o)) = Some oldest
               ∧ rl_deadline (fs_lease (fo_session o)) = (oldest + timeout)%Z).
Proof.
  intros Hrun%flow_run_ok. destruct Hrun as [Hu Hb Hl] eqn:Heq. clear Heq. split; [intros p; split; [apply Hu|apply Hb]|].
  intros i f Hi. pose proof (Hl i f Hi) as Hok. split.
  { intros Hun%(lo_held _ _ Hok). by destruct (rl_pool (fs_lease f)). }
  intros oo Hh. destruct (handles_outcome f oo Hok Hh) as (o & -> & [Hs Hle]). exists o. split; [done|]. split.
  - intros p. specialize (Hs p). rewrite Hu, (holders_delete p _ _ _ Hi). lia.
  - intros He. destruct (Hle He) as [_ [[Hn Hna]|Hd]]; [left|by right]. split; [done|]. by apply oldest_None.
Qed.
End outcomes.

(** ** A run *)

(** A gateway joins and subscribes to clusters: the forced response is outstanding. *)
#[local] Instance flowCodec : Codec := {| marshalAny a := Ok (any_Value a); digest bytes := bytes |}.

Definition noSecret (name : string) (c : SignedCertificate) : result Any := Err "no secrets".
Definition noIssuer : Provider := mkProvider "" 0 None (λ _, Err "no certificates").
Definition clientScope : ClientScope := mkClientScope "" zeroSourceRef ClientEgressGateway zeroPrincipal "" "gw".
Definition joined : FlowSystem :=
  mkFlowSystem (λ _, 0) (<[0 := mkFlow (mkSecrets (mkStream ∅ 0 [] []) None) newLease]> ∅).

Definition subscribedOutcome : option flowOutcome :=
  sessionRequest 50 noSecret (SnapshotGenerate None) (λ _, None) noIssuer None (λ _, None) 1000 clientScope emptySet false
    (mkFlow (mkSecrets (mkStream ∅ 0 [] []) None) newLease) (mkRequest ClusterType [] [] ∅ "" None).

Definition waitingAck : FlowSystem := match subscribedOutcome with Some o => adjust joined 0 o | None => joined end.

Lemma waitingAck_run : flow_run noSecret 2 50 waitingAck.
Proof.
  assert (H1 : flow_run noSecret 2 50 joined).
  { eapply fn_step; [apply fn_start|]. apply (fw_join noSecret 2 50 startFlow 0 0). apply lookup_empty. }
  unfold waitingAck. destruct subscribedOutcome as [o|] eqn:Ho; [|exact H1].
  eapply fn_step; [exact H1|]. eapply (fw_handle noSecret 2 50 joined 0); [apply lookup_insert_eq| |].
  - rewrite <- Ho. apply hd_request.
  - intros p _. simpl. lia.
Qed.

Lemma flow_leases_safe_witness :
  fl_used waitingAck InitialSlots = 1 ∧ fl_used waitingAck InitialSlots ≤ 2
  ∧ (∃ f, fl_sessions waitingAck !! 0 = Some f ∧ rl_pool (fs_lease f) ≠ None).
Proof.
  destruct (flow_leases_safe noSecret 2 50 waitingAck waitingAck_run) as [Hpool Hsessions].
  split; [vm_compute; reflexivity|]. split; [apply Hpool|].
  destruct (fl_sessions waitingAck !! 0) as [f|] eqn:Hf; [|exfalso; vm_compute in Hf; discriminate].
  exists f. split; [done|]. apply (Hsessions 0 f Hf).
  assert (Hu : match fl_sessions waitingAck !! 0 with
    | Some f => match fs_watches f !! ClusterType with Some w => length (ws_unacknowledged w) | None => 0 end
    | None => 0 end = 1) by (vm_compute; reflexivity).
  rewrite Hf in Hu. destruct (fs_watches f !! ClusterType) as [w|] eqn:Hw; [|done].
  exists ClusterType, w. split; [done|]. intros Hn. by rewrite Hn in Hu.
Defined.
