(* ===== verification/Client.v ===== *)
(** * Client: the incremental xDS client (src/pkg/xdsclient)

    The cache of a client, per watched type: the resources it published, the index of
    their aliases, and the named subscriptions, each a generation of its own. The critical
    sections are functions of the client's state. The transport, the decoding of a value
    and the clock are parameters; metrics are left out. *)

From S2P Require Import Prelude Identity Resource ResourceIndex ResourceSet Update Watch.

(** ** State *)

Inductive DeleteAction := KeepSubscription | ReleaseSubscription.

#[export] Instance DeleteAction_eq_dec : EqDecision DeleteAction.
Proof. solve_decision. Defined.

(** A watch: [cw_Validate] gives the error of a value, [cw_Transform] what is cached, and
    [cw_OnDelete] whether a named subscription survives a deletion. The defaults of the
    optional functions accept, keep the value, and keep the subscription. *)
Record ClientWatch (V : Type) := mkClientWatch {
  cw_TypeURL : string;
  cw_Wildcard : bool;
  cw_Validate : Any → option string;
  cw_ReconnectGrace : Z;
  cw_Transform : Any → result V;
  cw_OnDelete : string → DeleteAction
}.
Arguments mkClientWatch {V} _ _ _ _ _ _.
Arguments cw_TypeURL {V} _. Arguments cw_Wildcard {V} _. Arguments cw_Validate {V} _ _.
Arguments cw_ReconnectGrace {V} _. Arguments cw_Transform {V} _ _. Arguments cw_OnDelete {V} _ _.

Record ClientResource (V : Type) := mkCached { cr_Value : V; cr_epoch : N }.
Arguments mkCached {V} _ _. Arguments cr_Value {V} _. Arguments cr_epoch {V} _.

(** A generation of a named subscription, without the channels of its waiters *)
Record subscription := mkSubscription {
  su_err : option string;
  su_owners : Z;
  su_persistent : bool;
  su_active : bool;
  su_waiters : nat
}.

(** Subscriptions are numbered by generation; a zero grace is [None]. *)
Record typeState (V : Type) := mkType {
  ts_watch : ClientWatch V;
  ts_names : gmap string nat;
  ts_pending : gset string;
  ts_sharedAliases : gmap string (gset string);
  ts_removed : gset string;
  ts_aliases : gmap string string;
  ts_resourceAliases : gmap string (list string);
  ts_resources : gmap string (ClientResource V);
  ts_synced : bool;
  ts_epoch : N;
  ts_graceUntil : option Z
}.
Arguments mkType {V} _ _ _ _ _ _ _ _ _ _ _.
Arguments ts_watch {V} _. Arguments ts_names {V} _. Arguments ts_pending {V} _. Arguments ts_sharedAliases {V} _.
Arguments ts_removed {V} _. Arguments ts_aliases {V} _. Arguments ts_resourceAliases {V} _. Arguments ts_resources {V} _.
Arguments ts_synced {V} _. Arguments ts_epoch {V} _. Arguments ts_graceUntil {V} _.

Record Client (V : Type) := mkClient {
  cl_types : gmap string (typeState V);
  cl_subs : gmap nat subscription;
  cl_fresh : nat;
  cl_wake : bool;
  cl_connected : bool
}.
Arguments mkClient {V} _ _ _ _ _. Arguments cl_types {V} _. Arguments cl_subs {V} _. Arguments cl_fresh {V} _.
Arguments cl_wake {V} _. Arguments cl_connected {V} _.

(** What a stream was told: for each type, the generation subscribed to by name *)
Abbreviation sentNames := (gmap string (gmap string nat)).

Section client.
Context {V : Type}.

Implicit Types (st : typeState V) (c : Client V).

(** *** Assignments to groups of fields *)

Definition set_index st shared aliases resourceAliases resources : typeState V :=
  mkType (ts_watch st) (ts_names st) (ts_pending st) shared (ts_removed st) aliases resourceAliases resources
    (ts_synced st) (ts_epoch st) (ts_graceUntil st).

Definition set_interest st names pending removed : typeState V :=
  mkType (ts_watch st) names pending (ts_sharedAliases st) removed (ts_aliases st) (ts_resourceAliases st)
    (ts_resources st) (ts_synced st) (ts_epoch st) (ts_graceUntil st).

Definition set_sync st synced epoch grace : typeState V :=
  mkType (ts_watch st) (ts_names st) (ts_pending st) (ts_sharedAliases st) (ts_removed st) (ts_aliases st)
    (ts_resourceAliases st) (ts_resources st) synced epoch grace.

(** ** The alias index *)

(** One alias of [addResourceAliases]; the shared owners of an alias that maps to the
    empty name are there (see [index_ok]). *)
Definition addAlias (name : string) (ix : gmap string string * gmap string (gset string)) (alias : string)
    : gmap string string * gmap string (gset string) :=
  let '(aliases, shared) := ix in
  match aliases !! alias with
  | None => (<[alias := name]> aliases, shared)
  | Some owner =>
      if decide (owner = "") then (aliases, <[alias := {[name]} ∪ default ∅ (shared !! alias)]> shared)
      else if decide (owner ≠ name) then (<[alias := ""]> aliases, <[alias := {[owner; name]}]> shared)
      else ix
  end.

Definition addResourceAliases st (name : string) (aliases : list string) : typeState V :=
  let '(index, shared) := foldl (addAlias name) (ts_aliases st, ts_sharedAliases st) aliases in
  set_index st shared index (<[name := aliases]> (ts_resourceAliases st)) (ts_resources st).

(** One alias of [removeResource] *)
Definition removeAlias (name : string) (ix : gmap string string * gmap string (gset string)) (alias : string)
    : gmap string string * gmap string (gset string) :=
  let '(aliases, shared) := ix in
  match shared !! alias with
  | Some owners =>
      let owners := owners ∖ {[name]} in
      match elements owners with
      | [owner] => (<[alias := owner]> aliases, delete alias shared)
      | _ => (aliases, <[alias := owners]> shared)
      end
  | None =>
      if decide (aliases !! alias = Some name) then (delete alias aliases, shared) else ix
  end.

Definition removeResource st (name : string) : typeState V :=
  let '(index, shared) :=
    foldl (removeAlias name) (ts_aliases st, ts_sharedAliases st) (default [] (ts_resourceAliases st !! name)) in
  set_index st shared index (delete name (ts_resourceAliases st)) (delete name (ts_resources st)).

Definition interested st (name : string) (aliases : list string) : bool :=
  cw_Wildcard (ts_watch st) || isSome (ts_names st !! name)
  || existsb (λ alias, isSome (ts_names st !! alias)) aliases.

(** Drops a resource nobody is interested in any more *)
Definition dropUninterested st (name : string) : typeState V :=
  if interested st name (default [] (ts_resourceAliases st !! name)) then st else removeResource st name.

Definition releaseResource st (name : string) : typeState V :=
  if cw_Wildcard (ts_watch st) then st else
  match ts_aliases st !! name with
  | Some canonical =>
      if decide (canonical = "")
      then foldl dropUninterested st (elements (default ∅ (ts_sharedAliases st !! name)))
      else dropUninterested st canonical
  | None => dropUninterested st name
  end.

(** ** Subscriptions *)

Definition set_type c (typ : string) st : Client V :=
  mkClient (<[typ := st]> (cl_types c)) (cl_subs c) (cl_fresh c) (cl_wake c) (cl_connected c).

Definition set_sub c (gen : nat) (s : subscription) : Client V :=
  mkClient (cl_types c) (<[gen := s]> (cl_subs c)) (cl_fresh c) (cl_wake c) (cl_connected c).

Definition wakeSubscriptions c : Client V :=
  mkClient (cl_types c) (cl_subs c) (cl_fresh c) true (cl_connected c).

Definition set_subActive s (active : bool) : subscription :=
  mkSubscription (su_err s) (su_owners s) (su_persistent s) active (su_waiters s).

Definition activateLocked c (typ : string) st (name : string) (gen : nat) : Client V :=
  match cl_subs c !! gen with
  | Some s =>
      if su_active s then c
      else wakeSubscriptions
             (set_sub (set_type c typ (set_interest st (ts_names st) ({[name]} ∪ ts_pending st) (ts_removed st)))
                gen (set_subActive s true))
  | None => c
  end.

(** The generation of a name, a new one unless there is one *)
Definition subscribeLocked c (typ name : string) : result (Client V * nat) :=
  check! negb (bool_decide (name = "" ∨ name = "*")) else "demand requires an exact resource name" in
  match cl_types c !! typ with
  | None => Err "unregistered type"
  | Some st =>
      match ts_names st !! name with
      | Some gen => Ok (activateLocked c typ st name gen, gen)
      | None =>
          let gen := cl_fresh c in
          let st := set_interest st (<[name := gen]> (ts_names st)) (ts_pending st) (ts_removed st ∖ {[name]}) in
          let c := mkClient (<[typ := st]> (cl_types c)) (<[gen := mkSubscription None 0 false false 0]> (cl_subs c))
                     (S (cl_fresh c)) (cl_wake c) (cl_connected c) in
          Ok (activateLocked c typ st name gen, gen)
      end
  end.

Definition ownerStep (s : subscription) (n : Z) : subscription :=
  mkSubscription (su_err s) (su_owners s + n) (su_persistent s) (su_active s) (su_waiters s).

Definition Acquire c (typ name : string) : result (Client V * nat) :=
  let! (c, gen) := subscribeLocked c typ name in
  Ok (match cl_subs c !! gen with Some s => set_sub c gen (ownerStep s 1) | None => c end, gen).

(** The subscription of [Client.Demand] stays. *)
Definition demandLocked c (typ name : string) : result (Client V * nat) :=
  let! (c, gen) := subscribeLocked c typ name in
  Ok (match cl_subs c !! gen with
      | Some s => set_sub c gen (mkSubscription (su_err s) (su_owners s) true (su_active s) (su_waiters s))
      | None => c
      end, gen).

(** A generation ends: the name may be subscribed to anew. *)
Definition endSubscription c (typ : string) st (name : string) (gen : nat) (s : subscription) (err : string) : Client V :=
  wakeSubscriptions
    (set_sub (set_type c typ (set_interest st (delete name (ts_names st)) ({[name]} ∪ ts_pending st)
                                (ts_removed st ∖ {[name]})))
       gen (mkSubscription (Some err) (su_owners s) (su_persistent s) (su_active s) (su_waiters s))).

(** [Subscription.Release], for a handle that was not released *)
Definition Release c (typ name : string) (gen : nat) : Client V :=
  match cl_subs c !! gen, cl_types c !! typ with
  | Some s, Some st =>
      let s := ownerStep s (-1) in
      let c := set_sub c gen s in
      if bool_decide (ts_names st !! name = Some gen) && bool_decide (su_owners s = 0%Z) && negb (su_persistent s)
      then
        let c := endSubscription c typ st name gen s "xDS subscription released" in
        match cl_types c !! typ with
        | Some st => set_type c typ (releaseResource st name)
        | None => c
        end
      else c
  | _, _ => c
  end.

Definition deletedSubscription c (typ name : string) : Client V :=
  match cl_types c !! typ with
  | None => c
  | Some st =>
      match ts_names st !! name with
      | None => c
      | Some gen =>
          match cl_subs c !! gen with
          | None => c
          | Some s =>
              if decide (cw_OnDelete (ts_watch st) name = KeepSubscription)
              then set_type c typ (set_interest st (ts_names st) (ts_pending st) ({[name]} ∪ ts_removed st))
              else endSubscription c typ st name gen s "xDS resource removed or unavailable"
          end
      end
  end.

(** ** Responses *)

(** One resource of [validateResponse] *)
Definition checkResource (typeURL : string) (watch : ClientWatch V) (seen : gset string) (r : WireResource)
    : result (gset string) :=
  match wr_Value r with
  | None => Err "invalid resource or unsupported TTL"
  | Some value =>
      check! negb (bool_decide (wr_Name r = "")) && bool_decide (any_TypeUrl value = typeURL)
             && negb (isSome (wr_Ttl r))
        else "invalid resource or unsupported TTL" in
      check! bool_decide (wr_Name r ∉ seen) else "duplicate resource" in
      check! forallb (λ alias, negb (bool_decide (alias = "" ∨ alias = "*"))) (wr_Aliases r)
        else "invalid alias" in
      match cw_Validate watch value with
      | Some e => Err e
      | None => Ok ({[wr_Name r]} ∪ seen)
      end
  end.

Definition checkRemoved (seen : gset string) (name : string) : result (gset string) :=
  check! negb (bool_decide (name = "" ∨ name ∈ seen)) else "invalid or conflicting removed resource" in
  Ok ({[name]} ∪ seen).

Definition validateResponse (r : DeltaResponse) (watch : ClientWatch V) : result unit :=
  let! seen := rfold (checkResource (dp_TypeUrl r) watch) (dp_Resources r) ∅ in
  let! _ := rfold checkRemoved (dp_Removed r) seen in
  Ok tt.

(** The resources somebody is interested in when the response arrives; of the others
    nothing is decoded. *)
Definition transformResources (watch : ClientWatch V) (selected : list (WireResource * bool))
    : result (list (WireResource * option V)) :=
  rfold (λ out p,
      if p.2 : bool then
        match wr_Value p.1 with
        | None => Ok (out ++ [(p.1, None)])
        | Some value => let! v := cw_Transform watch value in Ok (out ++ [(p.1, Some v)])
        end
      else Ok (out ++ [(p.1, None)])) selected [].

(** The first critical section and the decoding of [apply] *)
Definition applyDecode c (r : DeltaResponse) : result (list (WireResource * option V)) :=
  match cl_types c !! dp_TypeUrl r with
  | None => Err "unregistered response type"
  | Some st =>
      let! _ := validateResponse r (ts_watch st) in
      transformResources (ts_watch st)
        ((λ w, (w, interested st (wr_Name w) (wr_Aliases w))) <$> dp_Resources r)
  end.

(** Resources of an earlier stream are dropped when their grace is over. *)
Definition expireGraceLocked (now : Z) st : typeState V :=
  match ts_graceUntil st with
  | None => st
  | Some until =>
      if decide (now < until)%Z then st
      else foldl removeResource (set_sync st (ts_synced st) (ts_epoch st) None)
             (base.filter (λ p : string * ClientResource V, cr_epoch p.2 ≠ ts_epoch st)
                (map_to_list (ts_resources st))).*1
  end.

(** One resource of the loop of [apply]: the state and the aliases that were touched *)
Definition applyOne (acc : typeState V * gset string) (p : WireResource * option V) : typeState V * gset string :=
  let '(st, touched) := acc in
  let '(w, value) := p in
  let touched := list_to_set (default [] (ts_resourceAliases st !! wr_Name w)) ∪ touched in
  let st := removeResource st (wr_Name w) in
  match value with
  | None => (st, touched)
  | Some v =>
      if interested st (wr_Name w) (wr_Aliases w) then
        let st := set_index st (ts_sharedAliases st) (ts_aliases st) (ts_resourceAliases st)
                    (<[wr_Name w := mkCached v (ts_epoch st)]> (ts_resources st)) in
        let st := addResourceAliases st (wr_Name w) (wr_Aliases w) in
        (set_interest st (ts_names st) (ts_pending st)
           (ts_removed st ∖ list_to_set (wr_Aliases w) ∖ {[wr_Name w]}),
         list_to_set (wr_Aliases w) ∪ touched)
      else (st, touched)
  end.

(** One removed name *)
Definition applyRemoved (acc : typeState V * gset string) (name : string) : typeState V * gset string :=
  let '(st, touched) := acc in
  (removeResource st name, list_to_set (default [] (ts_resourceAliases st !! name)) ∪ touched).

(** The first response of a stream that does not resume replaces what was retained. *)
Definition startStream st (removed : list string) : typeState V * gset string :=
  if negb (ts_synced st) && bool_decide (cw_ReconnectGrace (ts_watch st) = 0%Z) then
    (mkType (ts_watch st) (ts_names st) (ts_pending st) ∅ ∅ ∅ ∅ ∅ (ts_synced st) (ts_epoch st) (ts_graceUntil st),
     list_to_set (removed ≫= λ name,
       base.filter (λ alias, ts_aliases st !! alias = Some name) (default [] (ts_resourceAliases st !! name))))
  else (st, ∅).

(** A touched alias that is gone ends or keeps the subscription to it. *)
Definition settleAlias (typ : string) c (alias : string) : Client V :=
  match cl_types c !! typ with
  | None => c
  | Some st => if isSome (ts_aliases st !! alias) then c else deletedSubscription c typ alias
  end.

(** The second critical section of [apply] *)
Definition applyCommit (now : Z) c (r : DeltaResponse) (values : list (WireResource * option V)) : Client V :=
  match cl_types c !! dp_TypeUrl r with
  | None => c
  | Some st =>
      let st := expireGraceLocked now st in
      let '(st, touched) := startStream st (dp_Removed r) in
      let '(st, touched) := foldl applyOne (st, touched) values in
      let '(st, touched) := foldl applyRemoved (st, touched) (dp_Removed r) in
      let c := set_type c (dp_TypeUrl r) st in
      let c := foldl (settleAlias (dp_TypeUrl r)) c (elements touched) in
      let c := foldl (λ c name, deletedSubscription c (dp_TypeUrl r) name) c (dp_Removed r) in
      match cl_types c !! dp_TypeUrl r with
      | Some st => set_type c (dp_TypeUrl r) (set_sync st true (ts_epoch st) (ts_graceUntil st))
      | None => c
      end
  end.

(** ** Streams *)

(** [reset] of one type: a grace starts, and only waited-for names are asked for again *)
Definition resetType (now : Z) (subs : gmap nat subscription) st : typeState V * gmap nat subscription :=
  if decide (0 < cw_ReconnectGrace (ts_watch st))%Z then
    let st := expireGraceLocked now st in
    let st := if ts_synced st
              then set_sync st (ts_synced st) ((ts_epoch st + 1) `mod` 2 ^ 64)%N
                     (match ts_graceUntil st with
                      | None => Some (now + cw_ReconnectGrace (ts_watch st))%Z
                      | Some until => Some until
                      end)
              else st in
    let waited gen := match subs !! gen with Some s => bool_decide (0 < su_waiters s) | None => false end in
    (set_sync (set_interest st (ts_names st)
                 (dom (base.filter (λ p : string * nat, waited p.2 = true) (ts_names st))) (ts_removed st))
       false (ts_epoch st) (ts_graceUntil st),
     foldl (λ subs gen, alter (λ s, set_subActive s (bool_decide (0 < su_waiters s))) gen subs) subs
       (map_to_list (ts_names st)).*2)
  else (set_sync st false (ts_epoch st) (ts_graceUntil st), subs).

Definition resetOne (now : Z) (acc : gmap string (typeState V) * gmap nat subscription) (p : string * typeState V)
    : gmap string (typeState V) * gmap nat subscription :=
  let '(st, subs) := resetType now acc.2 p.2 in (<[p.1 := st]> acc.1, subs).

Definition clientReset (now : Z) c : Client V :=
  let '(types, subs) := foldl (resetOne now) (cl_types c, cl_subs c) (map_to_list (cl_types c)) in
  mkClient types subs (cl_fresh c) (cl_wake c) false.

(** *** Requests of the stream *)

Definition isActive (subs : gmap nat subscription) (gen : nat) : bool :=
  match subs !! gen with Some s => su_active s | None => false end.

Definition activeNames (subs : gmap nat subscription) st : gmap string nat :=
  base.filter (λ p : string * nat, isActive subs p.2 = true) (ts_names st).

Definition initialRequest (subs : gmap nat subscription) (typ : string) st : DeltaRequest :=
  let names := sort_strings (elements (dom (activeNames subs st))) in
  if cw_Wildcard (ts_watch st) then mkRequest typ (names ++ ["*"]) [] ∅ "" None
  else if decide (length names = 0) then mkRequest typ ["*"] ["*"] ∅ "" None
  else mkRequest typ names [] ∅ "" None.

Definition clearPending st : typeState V := set_interest st (ts_names st) ∅ (ts_removed st).

Definition initialRequests c : Client V * sentNames * list DeltaRequest :=
  (mkClient (clearPending <$> cl_types c) (cl_subs c) (cl_fresh c) (cl_wake c) (cl_connected c),
   activeNames (cl_subs c) <$> cl_types c,
   sort_on dr_TypeUrl ((λ p : string * typeState V, initialRequest (cl_subs c) p.1 p.2) <$> map_to_list (cl_types c))).

(** The names of a type to subscribe to and to give up *)
Definition pendingSubscribe (subs : gmap nat subscription) (sent : gmap string nat) st : gset string :=
  base.filter (λ name, match ts_names st !! name with
                       | Some gen => isActive subs gen && negb (bool_decide (sent !! name = Some gen))
                       | None => false
                       end = true) (ts_pending st).

Definition pendingUnsubscribe (sent : gmap string nat) st : gset string :=
  base.filter (λ name, negb (isSome (ts_names st !! name)) && isSome (sent !! name) = true) (ts_pending st).

(** What the stream was told after [pendingRequests] *)
Definition tellNames (subs : gmap nat subscription) (sent : gmap string nat) st : gmap string nat :=
  base.filter (λ p : string * nat, p.1 ∈ pendingSubscribe subs sent st) (ts_names st)
  ∪ base.filter (λ p : string * nat, p.1 ∉ pendingUnsubscribe sent st) sent.

Definition pendingRequest (subs : gmap nat subscription) (sent : gmap string nat) (typ : string) st
    : option DeltaRequest :=
  let names := sort_strings (elements (pendingSubscribe subs sent st)) in
  let gone := sort_strings (elements (pendingUnsubscribe sent st)) in
  if decide (length names + length gone = 0) then None else Some (mkRequest typ names gone ∅ "" None).

Definition pendingRequests c (sent : sentNames) : Client V * sentNames * list DeltaRequest :=
  (mkClient (clearPending <$> cl_types c) (cl_subs c) (cl_fresh c) (cl_wake c) (cl_connected c),
   map_imap (λ typ st, Some (tellNames (cl_subs c) (default ∅ (sent !! typ)) st)) (cl_types c),
   omap (λ p : string * typeState V, pendingRequest (cl_subs c) (default ∅ (sent !! p.1)) p.1 p.2) (map_to_list (cl_types c))).

(** The reply to a response *)
Definition replyTo (r : DeltaResponse) (error : option string) : DeltaRequest :=
  mkRequest (dp_TypeUrl r) [] [] ∅ (dp_Nonce r) ((λ e, (e, 3%Z)) <$> error).

(** The writer puts a reply of the type into the request that changes subscriptions. *)
Definition mergeReply (batch : gmap string DeltaRequest) (request : DeltaRequest) : gmap string DeltaRequest :=
  <[dr_TypeUrl request :=
      match batch !! dr_TypeUrl request with
      | Some ack => mkRequest (dr_TypeUrl request) (dr_Subscribe request) (dr_Unsubscribe request)
                      (dr_InitialVersions request) (dr_ResponseNonce ack) (dr_ErrorDetail ack)
      | None => request
      end]> batch.

(** ** Construction and reads *)

Definition newType (w : ClientWatch V) : typeState V := mkType w ∅ ∅ ∅ ∅ ∅ ∅ ∅ false 0 None.

Definition addWatch (types : gmap string (typeState V)) (w : ClientWatch V) : result (gmap string (typeState V)) :=
  check! negb (bool_decide (cw_TypeURL w = "") || isSome (types !! cw_TypeURL w)
               || bool_decide (cw_ReconnectGrace w < 0)%Z
               || cw_Wildcard w && negb (bool_decide (cw_ReconnectGrace w = 0%Z)))
    else "invalid or duplicate watch" in
  Ok (<[cw_TypeURL w := newType w]> types).

(** [New], for a connection and a node *)
Definition newClient (watches : list (ClientWatch V)) : result (Client V) :=
  let! types := rfold addWatch watches ∅ in
  Ok (mkClient types ∅ 0 false false).

Definition usable st : bool := ts_synced st || isSome (ts_graceUntil st).

(** The loop of [Observe]: a type that is not usable ends it. *)
Fixpoint Observe (now : Z) c (types : list string) : Client V * bool :=
  match types with
  | [] => (c, true)
  | typ :: types =>
      match cl_types c !! typ with
      | None => (c, false)
      | Some st =>
          let st := expireGraceLocked now st in
          let c := set_type c typ st in
          if usable st then Observe now c types else (c, false)
      end
  end.

Record ClientSnapshot := mkClientSnapshot {
  cn_Connected : bool;
  cn_Resources : gmap string (gmap string (ClientResource V));
  cn_Synced : gmap string bool;
  cn_InGrace : gset string
}.

(** [names] is [None] for all resources. *)
Definition selectNames (names : option (gmap string (list string))) (typ : string) st : gmap string (ClientResource V) :=
  match names with
  | None => ts_resources st
  | Some names => base.filter (λ p : string * ClientResource V, p.1 ∈ default [] (names !! typ)) (ts_resources st)
  end.

Definition SnapshotFor (now : Z) c (names : option (gmap string (list string))) : Client V * ClientSnapshot :=
  let types := expireGraceLocked now <$> cl_types c in
  (mkClient types (cl_subs c) (cl_fresh c) (cl_wake c) (cl_connected c),
   mkClientSnapshot (cl_connected c) (map_imap (λ typ st, Some (selectNames names typ st)) types)
     (ts_synced <$> types)
     (dom (base.filter (λ p : string * typeState V, isSome (ts_graceUntil p.2) = true) types))).

(** ** Waiting for a resource *)

(** What an iteration of [waitLocked] gives: a value, an error, or a wait *)
Inductive waitResult := WaitValue (r : ClientResource V) | WaitError (e : string) | WaitBlocked.

(** The value of a name in a type that is usable *)
Definition lookupLocked st (name : string) : waitResult :=
  let found canonical :=
    match ts_resources st !! canonical with
    | Some r => WaitValue r
    | None => if decide (name ∈ ts_removed st) then WaitError "xDS resource removed or unavailable" else WaitBlocked
    end in
  match ts_aliases st !! name with
  | Some target => if decide (target = "") then WaitError "ambiguous resource alias" else found target
  | None => found name
  end.

Definition waiterStep (n : bool) (s : subscription) : subscription :=
  mkSubscription (su_err s) (su_owners s) (su_persistent s) (su_active s)
    (if n then S (su_waiters s) else pred (su_waiters s)).

(** One iteration of [waitLocked], to its return or to where it waits; [released] tells
    whether the handle it waits for was released. *)
Definition waitLocked (now : Z) c (typ name : string) (gen : nat) (released : bool) : Client V * waitResult :=
  match cl_subs c !! gen, cl_types c !! typ with
  | Some s, Some st =>
      match su_err s with
      | Some e => (c, WaitError e)
      | None =>
          if released then (c, WaitError "xDS subscription released") else
          let c := activateLocked c typ st name gen in
          let st := expireGraceLocked now (default st (cl_types c !! typ)) in
          let c := set_type c typ st in
          match (if usable st then lookupLocked st name else WaitBlocked) with
          | WaitBlocked =>
              (match cl_subs c !! gen with Some s => set_sub c gen (waiterStep true s) | None => c end, WaitBlocked)
          | answer => (c, answer)
          end
      end
  | _, _ => (c, WaitBlocked)
  end.

(** A waiter that was woken or cancelled *)
Definition stopWaiting c (gen : nat) : Client V :=
  match cl_subs c !! gen with Some s => set_sub c gen (waiterStep false s) | None => c end.
End client.
