(* ===== verification/ClientIndex.v ===== *)
(** * ClientIndex: the alias index of the client's cache (src/pkg/xdsclient/subscription.go)

    The client keeps, for every alias, the one resource that has it, or the set of those
    that share it. These maps are updated alias by alias. The invariant [index_ok] says
    that they are what the aliases of the cached resources determine, and every operation
    of a type's cache keeps it. *)

From S2P Require Import Prelude Identity Resource ResourceIndex ResourceSet Update Watch Client.

(** ** The index a family of owners determines *)

(** What an alias maps to: its only owner, or the empty name if it is shared *)
Definition alias_entry (owners : gset string) : option string :=
  match elements owners with
  | [] => None
  | [name] => Some name
  | _ => Some ""
  end.

Definition shared_entry (owners : gset string) : option (gset string) :=
  if decide (2 ≤ size owners) then Some owners else None.

Definition represents (ix : gmap string string * gmap string (gset string)) (own : string → gset string) : Prop :=
  (∀ a, ix.1 !! a = alias_entry (own a)) ∧ (∀ a, ix.2 !! a = shared_entry (own a)).

(** *** Sets of no, one and several owners *)

Lemma alias_entry_cases (X : gset string) :
  (X = ∅ ∧ alias_entry X = None ∧ shared_entry X = None)
  ∨ (∃ n, X = {[n]} ∧ alias_entry X = Some n ∧ shared_entry X = None)
  ∨ (2 ≤ size X ∧ alias_entry X = Some "" ∧ shared_entry X = Some X).
Proof.
  unfold alias_entry, shared_entry, size, set_size. cbn.
  destruct (elements X) as [|n [|m l]] eqn:E; cbn.
  - left. apply elements_empty_inv in E. split_and!; [by apply leibniz_equiv|done..].
  - right; left. exists n. split_and!; [|done..].
    apply set_eq. intros x. rewrite <-elem_of_elements, E. set_solver.
  - right; right. split_and!; [lia|done..].
Qed.

Lemma alias_entry_empty : alias_entry ∅ = None.
Proof. unfold alias_entry. by rewrite elements_empty. Qed.

Lemma alias_entry_singleton n : alias_entry {[n]} = Some n.
Proof. unfold alias_entry. by rewrite elements_singleton. Qed.

Lemma shared_entry_small (X : gset string) : size X < 2 → shared_entry X = None.
Proof. intros. unfold shared_entry. rewrite decide_False; [done|lia]. Qed.

Lemma entries_shared (X : gset string) :
  2 ≤ size X → alias_entry X = Some "" ∧ shared_entry X = Some X.
Proof.
  intros HX. destruct (alias_entry_cases X) as [(-> & _)|[(n & -> & _)|(_ & H1 & H2)]]; [..|done].
  - rewrite size_empty in HX. lia.
  - rewrite size_singleton in HX. lia.
Qed.

Lemma size_pair (n m : string) (X : gset string) : n ≠ m → n ∈ X → m ∈ X → 2 ≤ size X.
Proof.
  intros Hne Hn Hm. assert (({[n; m]} : gset string) ⊆ X) as Hsub by set_solver.
  apply subseteq_size in Hsub. rewrite size_union in Hsub by set_solver.
  rewrite !size_singleton in Hsub. lia.
Qed.

(** ** Adding and removing one alias *)

Definition own_update (own : string → gset string) (a : string) (X : gset string) : string → gset string :=
  λ b, if decide (b = a) then X else own b.

Lemma represents_update (aliases : gmap string string) (shared : gmap string (gset string)) own a X aliases' shared' :
  represents (aliases, shared) own →
  aliases' = partial_alter (λ _, alias_entry X) a aliases →
  shared' = partial_alter (λ _, shared_entry X) a shared →
  represents (aliases', shared') (own_update own a X).
Proof.
  intros [H1 H2] -> ->. cbn in *. split; intros b; cbn; unfold own_update; case_decide as E; subst.
  - by rewrite lookup_partial_alter_eq.
  - by rewrite lookup_partial_alter_ne.
  - by rewrite lookup_partial_alter_eq.
  - by rewrite lookup_partial_alter_ne.
Qed.

Lemma partial_alter_const_id {A} (m : gmap string A) a o : m !! a = o → partial_alter (λ _, o) a m = m.
Proof. intros <-. apply partial_alter_self. Qed.

Lemma addAlias_represents name ix own a :
  name ≠ "" → (∀ b, "" ∉ own b) → represents ix own →
  represents (addAlias name ix a) (own_update own a ({[name]} ∪ own a)).
Proof.
  destruct ix as [aliases shared]. intros Hname Hblank Hr.
  pose proof Hr as [H1 H2]. specialize (H1 a). specialize (H2 a). cbn in H1, H2.
  unfold addAlias. rewrite H1.
  destruct (alias_entry_cases (own a)) as [(E & E1 & E2)|[(n & E & E1 & E2)|(E & E1 & E2)]]; rewrite E1.
  - eapply represents_update; [done| |].
    + by rewrite E, (right_id_L ∅ (∪)), alias_entry_singleton.
    + rewrite E, (right_id_L ∅ (∪)), shared_entry_small by (rewrite size_singleton; lia).
      symmetry. apply partial_alter_const_id. by rewrite H2.
  - rewrite decide_False by (intros ->; apply (Hblank a); rewrite E; set_solver).
    case_decide as Hn.
    + destruct (entries_shared ({[name]} ∪ own a)) as [F1 F2].
      { apply (size_pair n name); [done|rewrite E; set_solver..]. }
      eapply represents_update; [done| |].
      * by rewrite F1.
      * rewrite F2, E. assert (({[n; name]} : gset string) = {[name]} ∪ {[n]}) as -> by set_solver. done.
    + subst n. eapply represents_update; [done| |].
      * replace ({[name]} ∪ own a) with (own a) by (rewrite E; set_solver).
        symmetry. apply partial_alter_const_id. by rewrite H1.
      * replace ({[name]} ∪ own a) with (own a) by (rewrite E; set_solver).
        symmetry. apply partial_alter_const_id. by rewrite H2.
  - rewrite decide_True by done. rewrite H2, E2. cbn.
    destruct (entries_shared ({[name]} ∪ own a)) as [F1 F2].
    { etrans; [exact E|]. apply subseteq_size. set_solver. }
    eapply represents_update; [done| |].
    + rewrite F1. symmetry. apply partial_alter_const_id. by rewrite H1, E1.
    + by rewrite F2.
Qed.

Lemma removeAlias_represents name ix own a :
  name ≠ "" → (∀ b, "" ∉ own b) → represents ix own →
  represents (removeAlias name ix a) (own_update own a (own a ∖ {[name]})).
Proof.
  destruct ix as [aliases shared]. intros Hname Hblank Hr.
  pose proof Hr as [H1 H2]. specialize (H1 a). specialize (H2 a). cbn in H1, H2.
  assert (∀ X, alias_entry X = alias_entry (own a) → shared_entry X = shared_entry (own a) →
            represents (aliases, shared) (own_update own a X)) as Hsame.
  { intros X F1 F2. eapply represents_update; [done| |]; symmetry; apply partial_alter_const_id; congruence. }
  unfold removeAlias. rewrite H2.
  destruct (alias_entry_cases (own a)) as [(E & E1 & E2)|[(n & E & E1 & E2)|(E & E1 & E2)]]; rewrite E2.
  - rewrite decide_False by congruence. assert (own a ∖ {[name]} = own a) as -> by (rewrite E; set_solver).
    by apply Hsame.
  - case_decide as Hn.
    + assert (n = name) as -> by congruence.
      assert (own a ∖ {[name]} = ∅) as E' by set_solver.
      eapply represents_update; [done| |]; rewrite E'.
      * by rewrite alias_entry_empty.
      * symmetry. apply partial_alter_const_id. rewrite H2, E2. by rewrite shared_entry_small by (rewrite size_empty; lia).
    + assert (own a ∖ {[name]} = own a) as ->; [|by apply Hsame].
      rewrite E. assert (n ≠ name) by congruence. set_solver.
  - destruct (elements (own a ∖ {[name]})) as [|m [|m' l]] eqn:El.
    + exfalso. apply elements_empty_inv in El.
      assert (own a ⊆ {[name]}) as Hs%subseteq_size; [|rewrite size_singleton in Hs; lia].
      intros x Hx. apply elem_of_singleton. apply dec_stable. intros Hne.
      apply (not_elem_of_empty (C:=gset string) x), El, elem_of_difference. by rewrite elem_of_singleton.
    + assert (own a ∖ {[name]} = {[m]}) as E'.
      { apply set_eq. intros x. rewrite <-elem_of_elements, El. set_solver. }
      eapply represents_update; [done| |]; rewrite E'.
      * by rewrite alias_entry_singleton.
      * by rewrite shared_entry_small by (rewrite size_singleton; lia).
    + destruct (entries_shared (own a ∖ {[name]})) as [F1 F2].
      { unfold size, set_size. cbn. rewrite El. cbn. lia. }
      eapply represents_update; [done| |].
      * rewrite F1. symmetry. apply partial_alter_const_id. by rewrite H1, E1.
      * by rewrite F2.
Qed.

(** *** All the aliases of a resource *)

Lemma represents_ext ix own own' : (∀ a, own a = own' a) → represents ix own → represents ix own'.
Proof. intros E [H1 H2]. split; intros a; rewrite <-E; [apply H1|apply H2]. Qed.

Lemma fold_add_represents name l ix own :
  name ≠ "" → (∀ b, "" ∉ own b) → represents ix own →
  represents (foldl (addAlias name) ix l) (λ b, if decide (b ∈ l) then {[name]} ∪ own b else own b).
Proof.
  intros Hname. revert ix own. induction l as [|a l IH]; intros ix own Hblank Hr.
  - eapply represents_ext; [|exact Hr]. intros b. by rewrite decide_False by set_solver.
  - cbn. pose proof (addAlias_represents name ix own a Hname Hblank Hr) as Ha.
    eapply represents_ext; [|apply IH, Ha].
    + intros b. unfold own_update. repeat case_decide; set_solver.
    + intros b. unfold own_update. case_decide; set_solver.
Qed.

Lemma fold_remove_represents name l ix own :
  name ≠ "" → (∀ b, "" ∉ own b) → represents ix own →
  represents (foldl (removeAlias name) ix l) (λ b, if decide (b ∈ l) then own b ∖ {[name]} else own b).
Proof.
  intros Hname. revert ix own. induction l as [|a l IH]; intros ix own Hblank Hr.
  - eapply represents_ext; [|exact Hr]. intros b. by rewrite decide_False by set_solver.
  - cbn. pose proof (removeAlias_represents name ix own a Hname Hblank Hr) as Ha.
    eapply represents_ext; [|apply IH, Ha].
    + intros b. unfold own_update. repeat case_decide; set_solver.
    + intros b. unfold own_update. case_decide; set_solver.
Qed.

(** ** The invariant of a type's cache *)

Section index.
Context {V : Type}.
Implicit Types st : typeState V.

(** The cached resources that have an alias *)
Definition owners st (a : string) : gset string :=
  dom (base.filter (λ p : string * list string, a ∈ p.2) (ts_resourceAliases st)).

Record index_ok st : Prop := mkIndexOk {
  io_index : represents (ts_aliases st, ts_sharedAliases st) (owners st);
  io_dom : dom (ts_resourceAliases st) = dom (ts_resources st);
  io_named : "" ∉ dom (ts_resources st)
}.

Lemma elem_of_owners st a name :
  name ∈ owners st a ↔ ∃ l, ts_resourceAliases st !! name = Some l ∧ a ∈ l.
Proof.
  unfold owners. rewrite elem_of_dom. unfold is_Some. setoid_rewrite map_lookup_filter_Some. done.
Qed.

Lemma owners_named st a : index_ok st → "" ∉ owners st a.
Proof.
  intros [_ Hd Hn] (l & Hl & _)%elem_of_owners. apply Hn. rewrite <-Hd. by eapply elem_of_dom_2.
Qed.

(** The index does not depend on subscriptions and synchronization. *)
Lemma index_ok_cong st st' :
  ts_aliases st' = ts_aliases st → ts_sharedAliases st' = ts_sharedAliases st →
  ts_resourceAliases st' = ts_resourceAliases st → ts_resources st' = ts_resources st →
  index_ok st → index_ok st'.
Proof.
  intros E1 E2 E3 E4 [H1 H2 H3]. split; unfold owners in *; rewrite ?E1, ?E2, ?E3, ?E4; done.
Qed.

Lemma index_ok_empty st :
  ts_aliases st = ∅ → ts_sharedAliases st = ∅ → ts_resourceAliases st = ∅ → ts_resources st = ∅ → index_ok st.
Proof.
  intros E1 E2 E3 E4. split.
  - assert (∀ a, owners st a = ∅) as E.
    { intros a. apply set_eq. intros n. rewrite elem_of_owners, E3. setoid_rewrite lookup_empty.
      split; [by intros (? & ? & _)|by intros ?%not_elem_of_empty]. }
    split; intros a; cbn; rewrite ?E1, ?E2, lookup_empty, E; [by rewrite alias_entry_empty|].
    by rewrite shared_entry_small by (rewrite size_empty; lia).
  - by rewrite E3, E4, !dom_empty_L.
  - rewrite E4, dom_empty_L. apply not_elem_of_empty.
Qed.

(** *** The parts of [removeResource] *)

Lemma removeResource_resources st name : ts_resources (removeResource st name) = delete name (ts_resources st).
Proof. unfold removeResource. by destruct (foldl _ _ _). Qed.

Lemma removeResource_resourceAliases st name :
  ts_resourceAliases (removeResource st name) = delete name (ts_resourceAliases st).
Proof. unfold removeResource. by destruct (foldl _ _ _). Qed.

(** What the index operations leave alone *)
Definition same_frame st st' : Prop :=
  ts_watch st' = ts_watch st ∧ ts_names st' = ts_names st ∧ ts_pending st' = ts_pending st
  ∧ ts_removed st' = ts_removed st ∧ ts_synced st' = ts_synced st ∧ ts_epoch st' = ts_epoch st
  ∧ ts_graceUntil st' = ts_graceUntil st.

Lemma removeResource_frame st name : same_frame st (removeResource st name).
Proof. unfold removeResource. by destruct (foldl _ _ _). Qed.

Lemma addResourceAliases_frame st name l : same_frame st (addResourceAliases st name l).
Proof. unfold addResourceAliases. by destruct (foldl _ _ _). Qed.

Lemma owners_remove st name a : owners (removeResource st name) a = owners st a ∖ {[name]}.
Proof.
  apply set_eq. intros n. rewrite elem_of_difference, elem_of_singleton, !elem_of_owners,
    removeResource_resourceAliases.
  setoid_rewrite lookup_delete_Some. split.
  - intros (l & [Hne Hl] & Ha). split; [eauto|congruence].
  - intros [(l & Hl & Ha) Hne]. exists l. split; [split; [congruence|done]|done].
Qed.

Lemma removeResource_index st name : index_ok st → index_ok (removeResource st name).
Proof.
  intros Hok. destruct (decide (name = "")) as [->|Hname].
  - destruct Hok as [H1 H2 H3].
    assert (ts_resourceAliases st !! "" = None) as E by (apply not_elem_of_dom; by rewrite H2).
    assert (ts_resources st !! "" = None) as E' by by apply not_elem_of_dom.
    eapply index_ok_cong; [..|split; eassumption];
      unfold removeResource; rewrite E; cbn; [done|done|by apply delete_id|by apply delete_id].
  - split.
    + pose proof (fold_remove_represents name (default [] (ts_resourceAliases st !! name)) _ _ Hname
        (λ b, owners_named st b Hok) (io_index st Hok)) as Hr.
      assert (represents (ts_aliases (removeResource st name), ts_sharedAliases (removeResource st name))
                (λ b, if decide (b ∈ default [] (ts_resourceAliases st !! name))
                      then owners st b ∖ {[name]} else owners st b)) as Hr'.
      { unfold removeResource. by destruct (foldl _ _ _). }
      eapply represents_ext; [|exact Hr']. intros a. rewrite owners_remove. case_decide as Ha; [done|].
      assert (name ∉ owners st a); [|set_solver].
      intros (l & Hl & Hal)%elem_of_owners. apply Ha. by rewrite Hl.
    + by rewrite removeResource_resourceAliases, removeResource_resources, !dom_delete_L, (io_dom st Hok).
    + rewrite removeResource_resources, dom_delete_L. pose proof (io_named st Hok). set_solver.
Qed.

(** *** Publishing a resource *)

(** The state with a resource that was not there *)
Definition publish st (name : string) (aliases : list string) (r : ClientResource V) : typeState V :=
  addResourceAliases
    (set_index st (ts_sharedAliases st) (ts_aliases st) (ts_resourceAliases st) (<[name := r]> (ts_resources st)))
    name aliases.

Lemma publish_resources st name l r : ts_resources (publish st name l r) = <[name := r]> (ts_resources st).
Proof. unfold publish, addResourceAliases. by destruct (foldl _ _ _). Qed.

Lemma publish_resourceAliases st name l r :
  ts_resourceAliases (publish st name l r) = <[name := l]> (ts_resourceAliases st).
Proof. unfold publish, addResourceAliases. by destruct (foldl _ _ _). Qed.

Lemma publish_index st name l r :
  name ≠ "" → ts_resources st !! name = None → index_ok st → index_ok (publish st name l r).
Proof.
  intros Hname Hfresh Hok.
  assert (ts_resourceAliases st !! name = None) as Hfresh'.
  { apply not_elem_of_dom. rewrite (io_dom st Hok). by apply not_elem_of_dom. }
  split.
  - pose proof (fold_add_represents name l _ _ Hname (λ b, owners_named st b Hok) (io_index st Hok)) as Hr.
    assert (represents (ts_aliases (publish st name l r), ts_sharedAliases (publish st name l r))
              (λ b, if decide (b ∈ l) then {[name]} ∪ owners st b else owners st b)) as Hr'.
    { unfold publish, addResourceAliases. cbn. by destruct (foldl _ _ _). }
    eapply represents_ext; [|exact Hr']. intros a. apply set_eq. intros n.
    rewrite elem_of_owners, publish_resourceAliases.
    setoid_rewrite lookup_insert_Some. case_decide as Ha; rewrite ?elem_of_union, ?elem_of_singleton, elem_of_owners.
    + split; [intros [->|(l' & Hl' & Ha')]|intros (l' & [[<- <-]|[Hne Hl']] & Ha')]; eauto.
      exists l'. split; [right; split; [intros <-; congruence|done]|done].
    + split; [intros (l' & Hl' & Ha')|intros (l' & [[<- <-]|[Hne Hl']] & Ha')]; [|done|eauto].
      exists l'. split; [right; split; [intros <-; congruence|done]|done].
  - by rewrite publish_resourceAliases, publish_resources, !dom_insert_L, (io_dom st Hok).
  - rewrite publish_resources, dom_insert_L. pose proof (io_named st Hok). set_solver.
Qed.
End index.
