(* ===== verification/ClientCache.v ===== *)
(** * ClientCache: the operations of a type's cache keep its index, and a wildcard cache
    mirrors the responses it accepted (src/pkg/xdsclient/client.go)

    [delivered] folds the responses of a stream into the resources they leave. A wildcard
    type caches these, decoded, from its first accepted response on. *)

From S2P Require Import Prelude Identity Resource ResourceIndex ResourceSet Update Watch Generator Delta Sending Client ClientIndex.

Section cache.
Context {V : Type}.
Implicit Types st : typeState V.

(** ** Frames *)

Lemma same_frame_refl st : same_frame st st.
Proof. done. Qed.

Lemma same_frame_trans st1 st2 st3 : same_frame st1 st2 → same_frame st2 st3 → same_frame st1 st3.
Proof. unfold same_frame. intros. destruct_and!. split_and!; congruence. Qed.

(** An operation that only removes resources from the cache *)
Definition prunes st st' : Prop := same_frame st st' ∧ (index_ok st → index_ok st') ∧ ts_resources st' ⊆ ts_resources st.

Lemma prunes_refl st : prunes st st.
Proof. by split; [apply same_frame_refl|]. Qed.

Lemma prunes_trans st1 st2 st3 : prunes st1 st2 → prunes st2 st3 → prunes st1 st3.
Proof.
  intros (F1 & I1 & R1) (F2 & I2 & R2). split; [by eapply same_frame_trans|]. split; [auto|by etrans].
Qed.

Lemma removeResource_prunes st name : prunes st (removeResource st name).
Proof.
  split; [apply removeResource_frame|]. split; [apply removeResource_index|].
  rewrite removeResource_resources. apply delete_subseteq.
Qed.

Lemma foldl_prunes {A} (f : typeState V → A → typeState V) l st :
  (∀ st x, prunes st (f st x)) → prunes st (foldl f st l).
Proof.
  intros Hf. revert st. induction l as [|x l IH]; intros st; [apply prunes_refl|].
  eapply prunes_trans; [apply Hf|apply IH].
Qed.

Lemma dropUninterested_prunes st name : prunes st (dropUninterested st name).
Proof. unfold dropUninterested. case_match; [apply prunes_refl|apply removeResource_prunes]. Qed.

Lemma releaseResource_prunes st name : prunes st (releaseResource st name).
Proof.
  unfold releaseResource. case_match; [apply prunes_refl|].
  case_match; [case_decide|]; [apply foldl_prunes, dropUninterested_prunes|apply dropUninterested_prunes..].
Qed.

Lemma releaseResource_wildcard st name : cw_Wildcard (ts_watch st) = true → releaseResource st name = st.
Proof. unfold releaseResource. by intros ->. Qed.

(** *** Grace *)

Lemma expireGrace_none now st : ts_graceUntil st = None → expireGraceLocked now st = st.
Proof. unfold expireGraceLocked. by intros ->. Qed.

(** Everything but the cache and the grace stays. *)
Lemma expireGrace_frame now st :
  let st' := expireGraceLocked now st in
  ts_watch st' = ts_watch st ∧ ts_names st' = ts_names st ∧ ts_pending st' = ts_pending st
  ∧ ts_removed st' = ts_removed st ∧ ts_synced st' = ts_synced st ∧ ts_epoch st' = ts_epoch st
  ∧ (index_ok st → index_ok st').
Proof.
  unfold expireGraceLocked. destruct (ts_graceUntil st) as [until|]; [|done].
  case_decide; [done|]. cbn.
  match goal with |- context [foldl removeResource ?s ?l] =>
    destruct (foldl_prunes removeResource l s removeResource_prunes) as ((E1 & E2 & E3 & E4 & E5 & E6 & _) & HI & _) end.
  rewrite E1, E2, E3, E4, E5, E6. split_and!; [done..|].
  intros Hok. apply HI. by eapply index_ok_cong; [..|exact Hok].
Qed.

(** ** The loops of [apply] *)

Definition applied (st : typeState V) (r : DeltaResponse) (values : list (WireResource * option V)) : typeState V * gset string :=
  foldl applyRemoved (foldl applyOne (startStream st (dp_Removed r)) values) (dp_Removed r).

(** What every part of [apply] leaves alone *)
Definition same_interest st st' : Prop :=
  ts_watch st' = ts_watch st ∧ ts_names st' = ts_names st ∧ ts_pending st' = ts_pending st
  ∧ ts_synced st' = ts_synced st ∧ ts_epoch st' = ts_epoch st ∧ ts_graceUntil st' = ts_graceUntil st.

Lemma same_interest_trans st1 st2 st3 : same_interest st1 st2 → same_interest st2 st3 → same_interest st1 st3.
Proof. unfold same_interest. intros. destruct_and!. split_and!; congruence. Qed.

Lemma frame_interest st st' : same_frame st st' → same_interest st st'.
Proof. unfold same_frame, same_interest. tauto. Qed.

Lemma publish_frame st name l r : same_frame st (publish st name l r).
Proof. unfold publish, addResourceAliases. by destruct (foldl _ _ _). Qed.

Lemma applyOne_interest (acc : typeState V * gset string) p : same_interest acc.1 (applyOne acc p).1.
Proof.
  destruct acc as [st touched], p as [w [v|]]; cbn; [|apply frame_interest, removeResource_frame].
  set (st1 := removeResource st (wr_Name w)).
  assert (same_interest st st1) as H1 by apply frame_interest, removeResource_frame.
  destruct (interested _ _ _); [|done]. cbn. eapply same_interest_trans; [exact H1|].
  destruct (publish_frame st1 (wr_Name w) (wr_Aliases w) (mkCached v (ts_epoch st1))) as (?&?&?&?&?&?&?).
  unfold publish in *. split_and!; cbn; done.
Qed.

Lemma applyOne_index (acc : typeState V * gset string) p : wr_Name p.1 ≠ "" → index_ok acc.1 → index_ok (applyOne acc p).1.
Proof.
  destruct acc as [st touched], p as [w [v|]]; cbn; intros Hn Hok; [|by apply removeResource_index].
  destruct (interested _ _ _); cbn; [|by apply removeResource_index].
  apply (index_ok_cong (publish (removeResource st (wr_Name w)) (wr_Name w) (wr_Aliases w)
    (mkCached v (ts_epoch (removeResource st (wr_Name w)))))); [done..|].
  apply publish_index; [done| |by apply removeResource_index].
  rewrite removeResource_resources. apply lookup_delete_eq.
Qed.

Lemma applyRemoved_prunes (acc : typeState V * gset string) name : prunes acc.1 (applyRemoved acc name).1.
Proof. destruct acc as [st touched]. apply removeResource_prunes. Qed.

Lemma startStream_ok st removed :
  same_interest st (startStream st removed).1 ∧ (index_ok st → index_ok (startStream st removed).1).
Proof. unfold startStream. case_match; [|done]. split; [done|]. intros _. by apply index_ok_empty. Qed.

Lemma foldl_fst {A B C} (R : A → A → Prop) (f : A * B → C → A * B) l acc :
  (∀ a, R a a) → (∀ a b c, R a b → R b c → R a c) → (∀ acc x, R acc.1 (f acc x).1) → R acc.1 (foldl f acc l).1.
Proof.
  intros Hr Ht Hf. revert acc. induction l as [|x l IH]; intros acc; [apply Hr|].
  eapply Ht; [apply Hf|apply IH].
Qed.

Lemma applied_interest st r values : same_interest st (applied st r values).1.
Proof.
  eapply same_interest_trans; [apply (startStream_ok st (dp_Removed r))|].
  eapply same_interest_trans; [apply (foldl_fst same_interest applyOne)|apply (foldl_fst same_interest applyRemoved)];
    try done; try apply same_interest_trans; intros; [apply applyOne_interest|apply frame_interest, applyRemoved_prunes].
Qed.

Lemma applied_index st r values :
  Forall (λ p, wr_Name p.1 ≠ "") values → index_ok st → index_ok (applied st r values).1.
Proof.
  intros Hv Hok.
  assert (index_ok (foldl applyOne (startStream st (dp_Removed r)) values).1) as H1.
  { pose proof (proj2 (startStream_ok st (dp_Removed r)) Hok) as H0. revert H0.
    generalize (startStream st (dp_Removed r)). induction Hv as [|p l Hp _ IH]; intros acc H0; [done|].
    by apply IH, applyOne_index. }
  unfold applied. revert H1. generalize (foldl applyOne (startStream st (dp_Removed r)) values).
  induction (dp_Removed r) as [|n l IH]; intros acc H1; [done|]. cbn. apply IH. by apply applyRemoved_prunes.
Qed.

(** ** The mirror of a wildcard type *)

(** The resources the responses of a stream leave *)
Definition deliver (m : gmap string WireResource) (r : DeltaResponse) : gmap string WireResource :=
  foldl (λ (m : gmap string WireResource) w, <[wr_Name w := w]> m)
    (foldl (λ (m : gmap string WireResource) name, delete name m) m (dp_Removed r)) (dp_Resources r).

Definition delivered (rs : list DeltaResponse) : gmap string WireResource := foldl deliver ∅ rs.

(** The decoded value of a delivered resource *)
Definition decodes (watch : ClientWatch V) (w : WireResource) (v : V) : Prop :=
  ∃ value, wr_Value w = Some value ∧ cw_Transform watch value = Ok v.

(** A cache holds the delivered resources, decoded. *)
Definition mirrors (watch : ClientWatch V) (res : gmap string (ClientResource V)) (m : gmap string WireResource) : Prop :=
  ∀ x, match res !! x, m !! x with
       | None, None => True
       | Some r, Some w => decodes watch w (cr_Value r)
       | _, _ => False
       end.

Lemma mirrors_insert watch res m x r w :
  mirrors watch res m → decodes watch w (cr_Value r) → mirrors watch (<[x := r]> res) (<[x := w]> m).
Proof.
  intros Hm Hd y. destruct (decide (x = y)) as [->|Hne]; [by rewrite !lookup_insert_eq|].
  rewrite !lookup_insert_ne by done. apply Hm.
Qed.

Lemma mirrors_delete watch res m x : mirrors watch res m → mirrors watch (delete x res) (delete x m).
Proof.
  intros Hm y. destruct (decide (x = y)) as [->|Hne]; [by rewrite !lookup_delete_eq|].
  rewrite !lookup_delete_ne by done. apply Hm.
Qed.

Lemma applyRemoved_mirrors watch names (acc : typeState V * gset string) m :
  mirrors watch (ts_resources acc.1) m →
  mirrors watch (ts_resources (foldl applyRemoved acc names).1)
    (foldl (λ (m : gmap string WireResource) name, delete name m) m names).
Proof.
  revert acc m. induction names as [|n l IH]; intros [st t] m Hm; [done|]. cbn. apply IH. cbn.
  rewrite removeResource_resources. by apply mirrors_delete.
Qed.

Lemma applyOne_mirrors watch (values : list (WireResource * option V)) (acc : typeState V * gset string) m :
  cw_Wildcard (ts_watch acc.1) = true →
  Forall (λ p, ∃ v, p.2 = Some v ∧ decodes watch p.1 v) values →
  mirrors watch (ts_resources acc.1) m →
  mirrors watch (ts_resources (foldl applyOne acc values).1)
    (foldl (λ (m : gmap string WireResource) w, <[wr_Name w := w]> m) m values.*1).
Proof.
  intros Hw Hv. revert acc m Hw. induction Hv as [|[w o] l (v & Ho & Hd) _ IH]; intros [st t] m Hw Hm; [done|].
  cbn in Ho. subst o. cbn [foldl fmap list_fmap fst]. apply IH.
  - pose proof (applyOne_interest (st, t) (w, Some v)) as [E _]. by rewrite E.
  - cbn. assert (interested (removeResource st (wr_Name w)) (wr_Name w) (wr_Aliases w) = true) as ->.
    { unfold interested. destruct (removeResource_frame st (wr_Name w)) as [-> _]. cbn in Hw. by rewrite Hw. }
    cbn. pose proof (publish_resources (removeResource st (wr_Name w)) (wr_Name w) (wr_Aliases w)
      (mkCached v (ts_epoch (removeResource st (wr_Name w))))) as E.
    unfold publish in E. rewrite E, removeResource_resources, insert_delete_eq. by apply mirrors_insert.
Qed.

(** Resources and removals of a response do not meet, so their order is free. *)
Lemma insert_delete_names ws names (m : gmap string WireResource) :
  (∀ n, n ∈ names → n ∉ wr_Name <$> ws) →
  foldl (λ (m : gmap string WireResource) name, delete name m)
    (foldl (λ (m : gmap string WireResource) w, <[wr_Name w := w]> m) m ws) names
  = foldl (λ (m : gmap string WireResource) w, <[wr_Name w := w]> m)
      (foldl (λ (m : gmap string WireResource) name, delete name m) m names) ws.
Proof.
  revert m. induction names as [|n l IH]; intros m Hd; [done|]. cbn.
  rewrite <-IH by (intros; apply Hd; set_solver). f_equal.
  assert (n ∉ wr_Name <$> ws) as Hn by (apply Hd; set_solver). clear -Hn. revert m.
  induction ws as [|w ws IH]; intros m; [done|]. cbn in *.
  rewrite IH by set_solver. f_equal. apply delete_insert_ne. set_solver.
Qed.

Lemma applied_mirrors watch st r values m :
  cw_Wildcard (ts_watch st) = true → values.*1 = dp_Resources r →
  Forall (λ p, ∃ v, p.2 = Some v ∧ decodes watch p.1 v) values →
  (∀ n, n ∈ dp_Removed r → n ∉ wr_Name <$> dp_Resources r) →
  mirrors watch (ts_resources (startStream st (dp_Removed r)).1) m →
  mirrors watch (ts_resources (applied st r values).1) (deliver m r).
Proof.
  intros Hw Hvs Hv Hd Hm. unfold applied, deliver. rewrite <-insert_delete_names by done.
  apply applyRemoved_mirrors. rewrite <-Hvs. apply applyOne_mirrors; [|done..].
  by destruct (startStream_ok st (dp_Removed r)) as [[-> _] _].
Qed.
End cache.

(** * ClientValidation: what the client's [validateResponse] accepts, and that the responses
    of the server's [validateGeneratedDelta] are accepted (src/pkg/xdsclient/client.go) *)

Section validation.
Context {V : Type}.
Implicit Types watch : ClientWatch V.

(** ** Well-formed responses *)

Definition alias_valid (a : string) : Prop := a ≠ "" ∧ a ≠ "*".

Definition wire_ok (typeURL : string) watch (w : WireResource) : Prop :=
  wr_Name w ≠ "" ∧ wr_Ttl w = None ∧ Forall alias_valid (wr_Aliases w)
  ∧ ∃ value, wr_Value w = Some value ∧ any_TypeUrl value = typeURL ∧ cw_Validate watch value = None.

Record response_ok (r : DeltaResponse) watch : Prop := mkResponseOk {
  rk_wires : Forall (wire_ok (dp_TypeUrl r) watch) (dp_Resources r);
  rk_removed : Forall (λ n, n ≠ "") (dp_Removed r);
  rk_distinct : NoDup (responseNames r)
}.

Lemma forallb_aliases l :
  forallb (λ a, negb (bool_decide (a = "" ∨ a = "*"))) l = true ↔ Forall alias_valid l.
Proof.
  induction l as [|a l IH]; cbn; [done|]. rewrite andb_true_iff, IH, Forall_cons, negb_true_iff, bool_decide_eq_false.
  unfold alias_valid. tauto.
Qed.

Lemma checkResource_ok typeURL watch seen w seen' :
  checkResource typeURL watch seen w = Ok seen' ↔
  wire_ok typeURL watch w ∧ (wr_Name w ∉ seen) ∧ seen' = {[wr_Name w]} ∪ seen.
Proof.
  unfold checkResource, wire_ok. destruct (wr_Value w) as [value|]; [|naive_solver].
  destruct (negb _ && _ && _) eqn:E1; cbn.
  - apply andb_true_iff in E1 as [[E1%negb_true_iff%bool_decide_eq_false E2%bool_decide_eq_true]%andb_true_iff E3].
    destruct (bool_decide (wr_Name w ∉ seen)) eqn:E4; cbn.
    + apply bool_decide_eq_true in E4. destruct (forallb _ _) eqn:E5; cbn.
      * apply forallb_aliases in E5. destruct (wr_Ttl w); [done|]. destruct (cw_Validate watch value) eqn:Ev; naive_solver.
      * split; [done|]. intros [(_ & _ & Ha & _) _]. apply forallb_aliases in Ha. congruence.
    + apply bool_decide_eq_false in E4. naive_solver.
  - split; [done|]. intros [(Hn & Ht & _ & v & [= <-] & Hv & _) _]. rewrite Ht in E1. cbn in E1.
    rewrite andb_true_r in E1. apply andb_false_iff in E1 as [E|E].
    + apply negb_false_iff, bool_decide_eq_true in E. done.
    + apply bool_decide_eq_false in E. done.
Qed.

Lemma checkRemoved_ok seen n seen' :
  checkRemoved seen n = Ok seen' ↔ n ≠ "" ∧ (n ∉ seen) ∧ seen' = {[n]} ∪ seen.
Proof.
  unfold checkRemoved. case_bool_decide as E; cbn; [naive_solver|].
  split; [intros [= <-]; tauto|by intros (_ & _ & ->)].
Qed.

(** A loop that refuses the names it has seen *)
Lemma rfold_seen {A} (f : gset string → A → result (gset string)) (name : A → string) (P : A → Prop) l seen seen' :
  (∀ seen x seen', f seen x = Ok seen' ↔ P x ∧ (name x ∉ seen) ∧ seen' = {[name x]} ∪ seen) →
  rfold f l seen = Ok seen' ↔
  Forall P l ∧ NoDup (name <$> l) ∧ (∀ x, x ∈ name <$> l → x ∉ seen) ∧ seen' = list_to_set (name <$> l) ∪ seen.
Proof.
  intros Hf. revert seen. induction l as [|x l IH]; intros seen; cbn.
  - split; [intros [= <-]|intros (_ & _ & _ & ->)].
    + split_and!; [done|constructor|set_solver|set_solver].
    + f_equal. set_solver.
  - rewrite rbind_Ok. setoid_rewrite Hf. setoid_rewrite IH. rewrite Forall_cons, NoDup_cons. split.
    + intros (s & (Hx & Hn & ->) & Hl & Hd & Hs & ->). split; [by split|split; [split; [|done]|split]].
      * intros Hin. apply (Hs _ Hin). set_solver.
      * intros y [->|Hy]%elem_of_cons; [done|]. specialize (Hs y Hy). set_solver.
      * set_solver.
    + intros ([Hx Hl] & [Hn Hd] & Hs & ->). eexists. split; [split_and!; [done| |done]|].
      * apply Hs. set_solver.
      * split_and!; [done..| |set_solver].
        intros y Hy. assert (y ≠ name x) by congruence. specialize (Hs y). set_solver.
Qed.

(** Acceptance *)
Lemma validateResponse_ok r watch : validateResponse r watch = Ok () ↔ response_ok r watch.
Proof.
  unfold validateResponse. rewrite rbind_Ok.
  setoid_rewrite (rfold_seen _ wr_Name (wire_ok (dp_TypeUrl r) watch)); [|intros; apply checkResource_ok].
  setoid_rewrite rbind_Ok.
  setoid_rewrite (rfold_seen checkRemoved id (λ n, n ≠ "")); [|intros; apply checkRemoved_ok].
  setoid_rewrite list_fmap_id. split.
  - intros (s & (Hw & Hd & _ & ->) & s' & (Hr & Hd' & Hs & _) & _). split; [done..|].
    unfold responseNames. apply NoDup_app. split_and!; [done| |done]. intros x Hx Hx'. specialize (Hs x Hx'). set_solver.
  - intros [Hw Hr (Hd & Hs & Hd')%NoDup_app].
    eexists. split; [split_and!; [done|done|set_solver|reflexivity]|].
    eexists. split; [split_and!; [done|done| |reflexivity]|done].
    intros x Hx. specialize (Hs x). set_solver.
Qed.

(** ** Decoding *)

Lemma transformResources_ok watch selected values :
  transformResources watch selected = Ok values →
  values.*1 = selected.*1
  ∧ Forall2 (λ p q, p.2 = true → ∀ value, wr_Value p.1 = Some value → ∃ v, q.2 = Some v ∧ cw_Transform watch value = Ok v)
      selected values.
Proof.
  unfold transformResources. intros Hf.
  enough (∀ l out, rfold (λ out p, if p.2 : bool then
        match wr_Value p.1 with
        | None => Ok (out ++ [(p.1, None)])
        | Some value => let! v := cw_Transform watch value in Ok (out ++ [(p.1, Some v)])
        end else Ok (out ++ [(p.1, None)])) l out = Ok values →
      ∃ rest, values = out ++ rest ∧ rest.*1 = l.*1 ∧
        Forall2 (λ p q, p.2 = true → ∀ value, wr_Value p.1 = Some value → ∃ v, q.2 = Some v ∧ cw_Transform watch value = Ok v)
          l rest) as H.
  { destruct (H selected [] Hf) as (rest & -> & ?). done. }
  clear Hf. intros l. induction l as [|[w b] l IH]; intros out; cbn.
  { intros [= ->]. exists []. rewrite (right_id_L [] (++)). by split_and!. }
  intros (out' & Hout & Hl)%rbind_Ok. destruct (IH _ Hl) as (rest & -> & E & HF).
  assert (∃ q : WireResource * option V, out' = out ++ [q] ∧ q.1 = w ∧
    (b = true → ∀ value, wr_Value w = Some value → ∃ v, q.2 = Some v ∧ cw_Transform watch value = Ok v))
    as (q & -> & Hq1 & Hq2).
  { destruct b; [|injection Hout as <-; eexists; by split_and!].
    destruct (wr_Value w) as [value|] eqn:Ew.
    - apply rbind_Ok in Hout as (v & Hv & [= <-]). eexists; split_and!; [done..|]. intros _ ? [= <-]. eauto.
    - injection Hout as <-. eexists; by split_and!. }
  exists (q :: rest). rewrite <-(assoc_L (++)). cbn. split_and!; [done|by rewrite Hq1, E|by constructor].
Qed.

(** A response the client decoded *)
Lemma applyDecode_ok (c : Client V) r values :
  applyDecode c r = Ok values →
  ∃ st, cl_types c !! dp_TypeUrl r = Some st ∧ response_ok r (ts_watch st) ∧ values.*1 = dp_Resources r
    ∧ Forall (λ p, wr_Name p.1 ≠ "") values
    ∧ (cw_Wildcard (ts_watch st) = true → Forall (λ p, ∃ v, p.2 = Some v ∧ decodes (ts_watch st) p.1 v) values).
Proof.
  unfold applyDecode. destruct (cl_types c !! dp_TypeUrl r) as [st|]; [|done].
  intros ([] & Hv%validateResponse_ok & Ht)%rbind_Ok. apply transformResources_ok in Ht as [E HF].
  exists st. split; [done|]. split; [done|].
  rewrite <-list_fmap_compose in E. unfold compose in E. cbn in E. rewrite list_fmap_id in E.
  split; [done|]. pose proof (rk_wires r _ Hv) as Hw. rewrite <-E in Hw. rewrite Forall_fmap in Hw. split.
  - eapply Forall_impl; [exact Hw|]. by intros p [? _].
  - intros Hwild. apply Forall_forall. intros p Hp.
    apply list_elem_of_lookup in Hp as [i Hi].
    destruct (Forall2_lookup_r _ _ _ _ _ HF Hi) as (q & Hq & Hd).
    assert (q.1 = p.1 ∧ q.2 = true) as [Eq Et].
    { apply list_lookup_fmap_Some in Hq as (w & -> & Ew). cbn. split.
      - rewrite <-E, list_lookup_fmap, Hi in Ew. by injection Ew.
      - unfold interested. by rewrite Hwild. }
    pose proof (Forall_lookup_1 _ _ _ _ Hw Hi) as (_ & _ & _ & value & Hval & _).
    rewrite Eq in Hd. destruct (Hd Et value Hval) as (v & ? & ?). exists v. split; [done|]. by exists value.
Qed.
End validation.
