(* ===== verification/ClientSystem.v ===== *)
(** * ClientSystem: a client, its callers and its stream (src/pkg/xdsclient)

    A step is one critical section: of a caller that subscribes, waits or releases, of the
    reader that applies a response in two sections and then leaves its reply, of the
    writer that is woken, takes the replies and sends what is pending, or of the stream
    that opens or is lost. The invariant relates the subscriptions to what the stream was
    told, and a wildcard cache to the responses it accepted. *)

From S2P Require Import Prelude Identity Resource ResourceIndex ResourceSet Update Watch Client ClientIndex ClientCache.

(** ** The system *)

(** The writer: no stream, waiting for a token, woken, or holding the replies *)
Inductive writerStage := WriterGone | WriterWaits | WriterWoken | WriterBatch (batch : gmap string DeltaRequest).

(** The reader: before it reports the connection, receiving, with a decoded response, with
    a reply, or about to wake the writer *)
Inductive readerStage (V : Type) :=
| ReaderStarts
| ReaderReceives
| ReaderDecoded (r : DeltaResponse) (values : list (WireResource * option V))
| ReaderReplies (ack : DeltaRequest)
| ReaderWakes.
Arguments ReaderStarts {V}. Arguments ReaderReceives {V}. Arguments ReaderDecoded {V} _ _.
Arguments ReaderReplies {V} _. Arguments ReaderWakes {V}.

(** [cs_gens] and the logs are history: the name of every generation, the requests given
    to the stream and the responses accepted from it. *)
Record ClientSystem (V : Type) := mkSystem {
  cs_client : Client V;
  cs_gens : gmap nat (string * string);
  cs_handles : gmap nat nat;
  cs_writer : writerStage;
  cs_reader : readerStage V;
  cs_acks : gmap string DeltaRequest;
  cs_told : sentNames;
  cs_out : list DeltaRequest;
  cs_in : list DeltaResponse
}.
Arguments mkSystem {V} _ _ _ _ _ _ _ _ _.
Arguments cs_client {V} _. Arguments cs_gens {V} _. Arguments cs_handles {V} _. Arguments cs_writer {V} _.
Arguments cs_reader {V} _. Arguments cs_acks {V} _. Arguments cs_told {V} _. Arguments cs_out {V} _. Arguments cs_in {V} _.

Section system.
Context {V : Type}.
Implicit Types (st : typeState V) (c : Client V) (s : ClientSystem V).

Definition set_client s c : ClientSystem V :=
  mkSystem c (cs_gens s) (cs_handles s) (cs_writer s) (cs_reader s) (cs_acks s) (cs_told s) (cs_out s) (cs_in s).

Definition set_callers s c gens handles : ClientSystem V :=
  mkSystem c gens handles (cs_writer s) (cs_reader s) (cs_acks s) (cs_told s) (cs_out s) (cs_in s).

Definition set_reader s c reader acks accepted : ClientSystem V :=
  mkSystem c (cs_gens s) (cs_handles s) (cs_writer s) reader acks (cs_told s) (cs_out s) accepted.

Definition consumeWake c : Client V := mkClient (cl_types c) (cl_subs c) (cl_fresh c) false (cl_connected c).
Definition connectLocked c : Client V := mkClient (cl_types c) (cl_subs c) (cl_fresh c) (cl_wake c) true.

Inductive client_step : ClientSystem V → ClientSystem V → Prop :=
| step_acquire s typ name c' gen h :
    Acquire (cs_client s) typ name = Ok (c', gen) → cs_handles s !! h = None →
    client_step s (set_callers s c' (<[gen := (typ, name)]> (cs_gens s)) (<[h := gen]> (cs_handles s)))
| step_demand s typ name c' gen :
    demandLocked (cs_client s) typ name = Ok (c', gen) →
    client_step s (set_callers s c' (<[gen := (typ, name)]> (cs_gens s)) (cs_handles s))
| step_wait s now typ name gen released :
    cs_gens s !! gen = Some (typ, name) →
    client_step s (set_client s (waitLocked now (cs_client s) typ name gen released).1)
| step_stop s gen : client_step s (set_client s (stopWaiting (cs_client s) gen))
| step_release s h gen typ name :
    cs_handles s !! h = Some gen → cs_gens s !! gen = Some (typ, name) →
    client_step s (set_callers s (Release (cs_client s) typ name gen) (cs_gens s) (delete h (cs_handles s)))
| step_expire s now typ st :
    cl_types (cs_client s) !! typ = Some st →
    client_step s (set_client s (set_type (cs_client s) typ (expireGraceLocked now st)))
| step_open s c' told requests :
    cs_writer s = WriterGone → initialRequests (cs_client s) = (c', told, requests) →
    client_step s (mkSystem c' (cs_gens s) (cs_handles s) WriterWaits ReaderStarts ∅ told requests [])
| step_connect s :
    cs_writer s ≠ WriterGone → cs_reader s = ReaderStarts →
    client_step s (set_reader s (connectLocked (cs_client s)) ReaderReceives (cs_acks s) (cs_in s))
| step_wake s :
    cs_writer s = WriterWaits → cl_wake (cs_client s) = true →
    client_step s (mkSystem (consumeWake (cs_client s)) (cs_gens s) (cs_handles s) WriterWoken (cs_reader s)
                     (cs_acks s) (cs_told s) (cs_out s) (cs_in s))
| step_replies s :
    cs_writer s = WriterWoken →
    client_step s (mkSystem (cs_client s) (cs_gens s) (cs_handles s) (WriterBatch (cs_acks s)) (cs_reader s)
                     ∅ (cs_told s) (cs_out s) (cs_in s))
| step_send s batch c' told requests :
    cs_writer s = WriterBatch batch → pendingRequests (cs_client s) (cs_told s) = (c', told, requests) →
    client_step s (mkSystem c' (cs_gens s) (cs_handles s) WriterWaits (cs_reader s) (cs_acks s) told
                     (cs_out s ++ (map_to_list (foldl mergeReply batch requests)).*2) (cs_in s))
| step_receive s r values :
    cs_writer s ≠ WriterGone → cs_reader s = ReaderReceives → applyDecode (cs_client s) r = Ok values →
    client_step s (set_reader s (cs_client s) (ReaderDecoded r values) (cs_acks s) (cs_in s))
| step_reject s r e :
    cs_writer s ≠ WriterGone → cs_reader s = ReaderReceives → applyDecode (cs_client s) r = Err e →
    client_step s (set_reader s (cs_client s) (ReaderReplies (replyTo r (Some e))) (cs_acks s) (cs_in s))
| step_commit s now r values :
    cs_reader s = ReaderDecoded r values →
    client_step s (set_reader s (applyCommit now (cs_client s) r values) (ReaderReplies (replyTo r None)) (cs_acks s)
                     (cs_in s ++ [r]))
| step_reply s ack :
    cs_reader s = ReaderReplies ack →
    client_step s (set_reader s (cs_client s) ReaderWakes (<[dr_TypeUrl ack := ack]> (cs_acks s)) (cs_in s))
| step_signal s :
    cs_reader s = ReaderWakes →
    client_step s (set_reader s (wakeSubscriptions (cs_client s)) ReaderReceives (cs_acks s) (cs_in s))
| step_lost s now :
    cs_reader s = ReaderReceives ∨ cs_writer s = WriterGone →
    client_step s (mkSystem (clientReset now (cs_client s)) (cs_gens s) (cs_handles s) WriterGone ReaderStarts ∅ ∅ [] []).

(** The runs of a client that was made with some watches *)
Inductive client_run (watches : list (ClientWatch V)) : ClientSystem V → Prop :=
| run_start c :
    newClient watches = Ok c → client_run watches (mkSystem c ∅ ∅ WriterGone ReaderStarts ∅ ∅ [] [])
| run_step s s' : client_run watches s → client_step s s' → client_run watches s'.
End system.
