(* ===== verification/ClientInvariant.v ===== *)
(** * ClientInvariant: what the critical sections of the client preserve
    (src/pkg/xdsclient) *)

From S2P Require Import Prelude Identity Resource ResourceIndex ResourceSet Update Watch Client ClientIndex ClientCache ClientSystem.

Section invariant.
Context {V : Type}.
Implicit Types (st : typeState V) (c : Client V) (s : ClientSystem V).
Implicit Types (subs : gmap nat subscription) (gens : gmap nat (string * string)) (told : option sentNames).

(** ** The invariant *)

(** A generation that has not ended *)
Definition live subs (gen : nat) : Prop := ∃ u, subs !! gen = Some u ∧ su_err u = None.

(** The stream was told the active names, but for pending ones; a name that is not asked
    for was not told. *)
Definition told_ok subs (t : gmap string nat) st : Prop :=
  (∀ name, t !! name ≠ activeNames subs st !! name → name ∈ ts_pending st)
  ∧ ∀ name gen, ts_names st !! name = Some gen → isActive subs gen = false → t !! name = None.

(** A property of a wildcard cache: of the type, its watch, whether it is synced, and its
    resources *)
Definition mirror : Type := string → ClientWatch V → bool → gmap string (ClientResource V) → Prop.

Definition holds (M : mirror) (typ : string) st : Prop := M typ (ts_watch st) (ts_synced st) (ts_resources st).

(** The accepted responses of a type *)
Definition responsesOf (typ : string) (log : list DeltaResponse) : list DeltaResponse :=
  base.filter (λ r, dp_TypeUrl r = typ) log.

(** A wildcard cache after the responses of the stream *)
Definition mirror_of (log : list DeltaResponse) : mirror := λ typ watch synced res,
  if synced then mirrors watch res (delivered (responsesOf typ log)) else responsesOf typ log = [].

Record type_ok subs gens told M (typ : string) st : Prop := mkTypeOk {
  to_index : index_ok st;
  to_wild : cw_Wildcard (ts_watch st) = true → cw_ReconnectGrace (ts_watch st) = 0%Z;
  to_grace : cw_ReconnectGrace (ts_watch st) = 0%Z → ts_graceUntil st = None;
  to_names : ∀ name gen, ts_names st !! name = Some gen →
    alias_valid name ∧ gens !! gen = Some (typ, name) ∧ live subs gen;
  to_active : ∀ name gen, ts_names st !! name = Some gen → cw_ReconnectGrace (ts_watch st) = 0%Z →
    isActive subs gen = true;
  to_told : ∀ m, told = Some m → ∃ t, m !! typ = Some t ∧ told_ok subs t st;
  to_mirror : cw_Wildcard (ts_watch st) = true → holds M typ st
}.

Record core c gens told M : Prop := mkCore {
  co_types : ∀ typ st, cl_types c !! typ = Some st → type_ok (cl_subs c) gens told M typ st;
  co_gens : ∀ gen typ name, gens !! gen = Some (typ, name) →
    ∃ st u, cl_types c !! typ = Some st ∧ cl_subs c !! gen = Some u
      ∧ (su_err u = None → ts_names st !! name = Some gen);
  co_fresh : ∀ gen, cl_fresh c ≤ gen → cl_subs c !! gen = None
}.

(** Whatever is pending, the writer has a token. *)
Definition alert c : Prop :=
  cl_wake c = true ∨ ∀ typ st, cl_types c !! typ = Some st → ts_pending st = ∅.

Definition watches_of c : gmap string (ClientWatch V) := ts_watch <$> cl_types c.

(** The owners of a generation, and whether they all released it *)
Definition owner_view c (gen : nat) : Z * bool :=
  match cl_subs c !! gen with
  | Some u => (su_owners u, bool_decide (su_err u = Some "xDS subscription released"))
  | None => (0%Z, false)
  end.

Definition same_owners c c' : Prop := ∀ gen, owner_view c' gen = owner_view c gen.

(** A section that keeps the invariant, whatever the stream was told and sent *)
Record evolves c gens c' gens' : Prop := mkEvolves {
  ev_core : ∀ told M, core c gens told M → core c' gens' told M;
  ev_alert : alert c → alert c';
  ev_watches : watches_of c' = watches_of c
}.

Lemma evolves_refl c gens : evolves c gens c gens.
Proof. by split. Qed.

Lemma evolves_trans c1 g1 c2 g2 c3 g3 : evolves c1 g1 c2 g2 → evolves c2 g2 c3 g3 → evolves c1 g1 c3 g3.
Proof. intros [A1 B1 W1] [A2 B2 W2]. split; [auto|auto|congruence]. Qed.

(** ** Sections of one type *)

Lemma activeNames_lookup subs st name gen :
  activeNames subs st !! name = Some gen ↔ ts_names st !! name = Some gen ∧ isActive subs gen = true.
Proof. unfold activeNames. by rewrite map_lookup_filter_Some. Qed.

Lemma activeNames_ext subs subs' st st' :
  ts_names st' = ts_names st →
  (∀ name gen, ts_names st !! name = Some gen → isActive subs' gen = isActive subs gen) →
  activeNames subs' st' = activeNames subs st.
Proof.
  intros En Ha. apply map_eq. intros name. apply option_eq. intros gen.
  rewrite !activeNames_lookup, En. split; intros [Hn Hac]; split; try done; specialize (Ha name gen Hn); congruence.
Qed.

(** A type whose subscriptions stay *)
Lemma type_ok_frame subs subs' gens gens' told (M M' : mirror) typ st st' :
  type_ok subs gens told M typ st →
  ts_watch st' = ts_watch st → ts_names st' = ts_names st → ts_pending st ⊆ ts_pending st' →
  (index_ok st → index_ok st') →
  (ts_graceUntil st = None → ts_graceUntil st' = None) →
  (cw_Wildcard (ts_watch st) = true → ts_graceUntil st = None → holds M typ st → holds M' typ st') →
  (∀ name gen, ts_names st !! name = Some gen → gens !! gen = Some (typ, name) →
     gens' !! gen = Some (typ, name) ∧ (live subs gen → live subs' gen) ∧ isActive subs' gen = isActive subs gen) →
  type_ok subs' gens' told M' typ st'.
Proof.
  intros [HI Hw Hg Hn Ha Ht Hm] Ew En Hp HI' Hg' Hm' Hs.
  assert (∀ name gen, ts_names st !! name = Some gen → isActive subs' gen = isActive subs gen) as Hact.
  { intros name gen Hname. destruct (Hn name gen Hname) as (_ & Hgen & _). by destruct (Hs name gen Hname Hgen) as (_ & _ & ?). }
  split; rewrite ?Ew, ?En; auto.
  - intros name gen Hname. destruct (Hn name gen Hname) as (Hv & Hgen & Hl).
    destruct (Hs name gen Hname Hgen) as (Hgen' & Hl' & _). auto.
  - intros name gen Hname Hz. rewrite (Hact name gen Hname). eauto.
  - intros m Hm0. destruct (Ht m Hm0) as (t & Htyp & Hto1 & Hto2). exists t. split; [done|]. split.
    + intros name Hne. apply Hp, Hto1. by rewrite <-(activeNames_ext subs subs' st st' En Hact).
    + rewrite En. intros name gen Hname. rewrite (Hact name gen Hname). by apply Hto2.
Qed.

Lemma holds_cong M typ st st' :
  ts_watch st' = ts_watch st → ts_synced st' = ts_synced st → ts_resources st' = ts_resources st →
  holds M typ st → holds M typ st'.
Proof. unfold holds. by intros -> -> ->. Qed.

Lemma watches_of_set c typ st st' :
  cl_types c !! typ = Some st → ts_watch st' = ts_watch st → watches_of (set_type c typ st') = watches_of c.
Proof.
  intros Ht E. unfold watches_of. cbn. rewrite fmap_insert, E. apply insert_id. by rewrite lookup_fmap, Ht.
Qed.

(** The state of one type changes, its subscriptions do not. *)
Lemma set_type_core c gens told (M M' : mirror) typ st st' :
  core c gens told M → cl_types c !! typ = Some st →
  ts_watch st' = ts_watch st → ts_names st' = ts_names st → ts_pending st' = ts_pending st →
  (index_ok st → index_ok st') → (ts_graceUntil st = None → ts_graceUntil st' = None) →
  (cw_Wildcard (ts_watch st) = true → ts_graceUntil st = None → holds M typ st → holds M' typ st') →
  (∀ typ' st', typ' ≠ typ → holds M typ' st' → holds M' typ' st') →
  core (set_type c typ st') gens told M'.
Proof.
  intros [C1 C2 C3] Ht Ew En Ep HI Hg Hm HM. split; cbn.
  - intros typ' st1 [[<- <-]|[Hne Ht1]]%lookup_insert_Some.
    + eapply type_ok_frame; [apply C1, Ht|auto..|done]. by rewrite Ep.
    + eapply type_ok_frame; [apply C1, Ht1|auto..].
  - intros gen typ' name (st1 & u & Ht1 & Hu & Hl)%C2.
    destruct (decide (typ' = typ)) as [->|Hne].
    + exists st', u. rewrite lookup_insert_eq. rewrite Ht in Ht1. injection Ht1 as <-. by rewrite En.
    + exists st1, u. by rewrite lookup_insert_ne.
  - done.
Qed.

Lemma set_type_alert c typ st st' :
  cl_types c !! typ = Some st → ts_pending st' = ts_pending st → alert c → alert (set_type c typ st').
Proof.
  intros Ht Ep [Hw|Hp]; [by left|right]. cbn.
  intros typ' st1 [[<- <-]|[Hne Ht1]]%lookup_insert_Some; [rewrite Ep|]; by eapply Hp.
Qed.

Lemma set_type_evolves c gens typ st st' :
  cl_types c !! typ = Some st →
  ts_watch st' = ts_watch st → ts_names st' = ts_names st → ts_pending st' = ts_pending st →
  (index_ok st → index_ok st') → (ts_graceUntil st = None → ts_graceUntil st' = None) →
  (cw_Wildcard (ts_watch st) = true → ts_graceUntil st = None → ∀ M, holds M typ st → holds M typ st') →
  evolves c gens (set_type c typ st') gens.
Proof.
  intros Ht Ew En Ep HI Hg Hm. split.
  - intros told M Hc. eapply set_type_core; eauto.
  - by eapply set_type_alert.
  - by eapply watches_of_set.
Qed.

(** A generation changes in what the invariant does not see. *)
Lemma set_sub_evolves c gens gen u u' :
  cl_subs c !! gen = Some u → su_err u' = su_err u → su_active u' = su_active u →
  evolves c gens (set_sub c gen u') gens.
Proof.
  intros Hu Ee Ea. split; [|done..]. intros told M [C1 C2 C3]. split; cbn.
  - intros typ st Ht. eapply type_ok_frame; [apply C1, Ht|done..|]. intros name g Hn Hg. split; [done|].
    unfold live, isActive. destruct (decide (g = gen)) as [->|Hne].
    + rewrite lookup_insert_eq, Hu, Ea. split; [|done]. intros (? & [= <-] & ?). exists u'. split; congruence.
    + by rewrite lookup_insert_ne by done.
  - intros g typ name (st & v & Ht & Hv & Hl)%C2. destruct (decide (g = gen)) as [->|Hne].
    + exists st, u'. rewrite lookup_insert_eq. rewrite Hu in Hv. injection Hv as <-. by rewrite Ee.
    + exists st, v. by rewrite lookup_insert_ne.
  - intros g Hg. rewrite lookup_insert_ne; [by apply C3|]. intros ->. by rewrite C3 in Hu.
Qed.

Lemma wake_evolves c gens : evolves c gens (wakeSubscriptions c) gens.
Proof. split; [|by left|done]. by intros told M [C1 C2 C3]. Qed.

Lemma same_owners_refl c : same_owners c c.
Proof. done. Qed.

(** A section that does nothing *)
Lemma stays c gens : evolves c gens c gens ∧ same_owners c c.
Proof. split; [apply evolves_refl|apply same_owners_refl]. Qed.

Lemma same_owners_trans c1 c2 c3 : same_owners c1 c2 → same_owners c2 c3 → same_owners c1 c3.
Proof. intros H1 H2 gen. by rewrite H2, H1. Qed.

(** ** Subscribing *)

(** The type of a name that gets an active generation and is pending *)
Lemma ask_type subs gens told M typ st name gen u removed :
  type_ok subs gens told M typ st → alias_valid name → su_err u = None → su_active u = true →
  (∀ name', ts_names st !! name' = Some gen → name' = name) →
  type_ok (<[gen := u]> subs) (<[gen := (typ, name)]> gens) told M typ
    (set_interest st (<[name := gen]> (ts_names st)) ({[name]} ∪ ts_pending st) removed).
Proof.
  intros [HI Hw Hgr Hnm Hac Hto Hm] Hv Ee Ea Huniq.
  assert (∀ name' g, <[name:=gen]> (ts_names st) !! name' = Some g → name' ≠ name →
            ts_names st !! name' = Some g ∧ g ≠ gen) as Hold.
  { intros name' g Hin Hd. rewrite lookup_insert_ne in Hin by done. split; [done|].
    intros ->. by apply Hd, Huniq. }
  split; [by eapply index_ok_cong; [..|exact HI]|done|done| | | |done]; cbn.
  - intros name' g Hin. destruct (decide (name' = name)) as [->|Hd].
    + rewrite lookup_insert_eq in Hin. injection Hin as <-. unfold live. rewrite !lookup_insert_eq. eauto.
    + destruct (Hold _ _ Hin Hd) as [Hin' Hgd]. unfold live. rewrite !lookup_insert_ne by done. by apply Hnm.
  - intros name' g Hin Hz. unfold isActive. destruct (decide (name' = name)) as [->|Hd].
    + rewrite lookup_insert_eq in Hin. injection Hin as <-. by rewrite lookup_insert_eq.
    + destruct (Hold _ _ Hin Hd) as [Hin' Hgd]. rewrite lookup_insert_ne by done. by eapply Hac.
  - intros m Hmt. destruct (Hto m Hmt) as (t & Htt & H1 & H2). exists t. split; [done|].
    assert (∀ g, g ≠ gen → isActive (<[gen:=u]> subs) g = isActive subs g) as Hia.
    { intros g Hgd. unfold isActive. by rewrite lookup_insert_ne. }
    split; cbn.
    + intros name' Hne. destruct (decide (name' = name)) as [->|Hd]; [set_solver|].
      apply elem_of_union_r, H1. intros E. apply Hne. rewrite E. apply option_eq. intros g.
      rewrite !activeNames_lookup. cbn. rewrite lookup_insert_ne by done.
      split; intros [Hin Hact]; (split; [done|]); [rewrite Hia|rewrite <-Hia]; try done;
        intros ->; by apply Hd, Huniq.
    + intros name' g Hin Hact. destruct (decide (name' = name)) as [->|Hd].
      * rewrite lookup_insert_eq in Hin. injection Hin as <-. unfold isActive in Hact.
        rewrite lookup_insert_eq in Hact. congruence.
      * destruct (Hold _ _ Hin Hd) as [Hin' Hgd]. rewrite Hia in Hact by done. by eapply H2.
Qed.

Lemma ask_evolves c gens typ st name gen u removed fresh :
  cl_types c !! typ = Some st → alias_valid name → su_err u = None → su_active u = true →
  ts_names st !! name = None ∨ ts_names st !! name = Some gen →
  gens !! gen = None ∨ gens !! gen = Some (typ, name) → gen < fresh → cl_fresh c ≤ fresh →
  evolves c gens
    (mkClient (<[typ := set_interest st (<[name := gen]> (ts_names st)) ({[name]} ∪ ts_pending st) removed]> (cl_types c))
       (<[gen := u]> (cl_subs c)) fresh true (cl_connected c))
    (<[gen := (typ, name)]> gens).
Proof.
  intros Ht Hv Ee Ea Hn Hg Hf Hle. split; [|by left|by eapply (watches_of_set c)].
  intros told M [C1 C2 C3].
  assert (∀ typ' st' name', cl_types c !! typ' = Some st' → ts_names st' !! name' = Some gen → typ' = typ ∧ name' = name)
    as Huniq.
  { intros typ' st' name' Ht' Hn'. destruct (to_names _ _ _ _ _ _ (C1 _ _ Ht') _ _ Hn') as (_ & Hg' & _).
    destruct Hg as [Hg|Hg]; rewrite Hg in Hg'; [done|]. by injection Hg'. }
  split; cbn.
  - intros typ' st' [[<- <-]|[Hne Ht']]%lookup_insert_Some.
    + apply ask_type; [by apply C1|done..|]. intros name' Hn'. by destruct (Huniq _ _ _ Ht Hn').
    + eapply type_ok_frame; [apply C1, Ht'|done..|]. intros name' g Hn' Hg'.
      assert (g ≠ gen) by (intros ->; by destruct (Huniq _ _ _ Ht' Hn')). unfold live, isActive.
      by rewrite !lookup_insert_ne by done.
  - intros g typ' name' [[<- [= <- <-]]|[Hgd Hg']]%lookup_insert_Some.
    + eexists _, u. rewrite !lookup_insert_eq. split_and!; [done..|]. intros _. cbn. by rewrite lookup_insert_eq.
    + destruct (C2 _ _ _ Hg') as (st' & v & Ht' & Hv' & Hl). destruct (decide (typ' = typ)) as [->|Htd].
      * rewrite Ht in Ht'. injection Ht' as <-. eexists _, v. rewrite lookup_insert_eq, lookup_insert_ne by done.
        split_and!; [done..|]. intros He. specialize (Hl He). cbn.
        rewrite lookup_insert_ne; [done|]. intros <-. destruct Hn; congruence.
      * exists st', v. by rewrite !lookup_insert_ne by done.
  - intros g Hge. rewrite lookup_insert_ne by lia. apply C3. lia.
Qed.

(** Asking for a name that has a generation *)
Lemma activate_evolves c gens told M typ st name gen :
  core c gens told M → cl_types c !! typ = Some st → ts_names st !! name = Some gen →
  evolves c gens (activateLocked c typ st name gen) gens ∧ same_owners c (activateLocked c typ st name gen).
Proof.
  intros Hc Ht Hn. destruct (to_names _ _ _ _ _ _ (co_types _ _ _ _ Hc _ _ Ht) _ _ Hn) as (Hv & Hg & u & Hu & He).
  unfold activateLocked. rewrite Hu. destruct (su_active u) eqn:Ea; [apply stays|]. split.
  - pose proof (ask_evolves c gens typ st name gen (set_subActive u true) (ts_removed st) (cl_fresh c)) as Hask.
    rewrite !(insert_id gens), (insert_id (ts_names st)) in Hask by done.
    apply Hask; [done..|by right|by right| |done].
    destruct (decide (gen < cl_fresh c)); [done|]. rewrite (co_fresh _ _ _ _ Hc gen) in Hu by lia. done.
  - intros g. unfold owner_view. cbn. destruct (decide (g = gen)) as [->|Hd].
    + by rewrite lookup_insert_eq, Hu.
    + by rewrite lookup_insert_ne.
Qed.

Lemma activate_type c typ st name gen :
  cl_types c !! typ = Some st →
  ∃ st', cl_types (activateLocked c typ st name gen) !! typ = Some st' ∧ ts_names st' = ts_names st.
Proof.
  intros Ht. unfold activateLocked. destruct (cl_subs c !! gen) as [u|]; [|eauto].
  destruct (su_active u); [eauto|]. cbn. rewrite lookup_insert_eq. eauto.
Qed.

Lemma name_valid name : negb (bool_decide (name = "" ∨ name = "*")) = true ↔ alias_valid name.
Proof. rewrite negb_true_iff, bool_decide_eq_false. unfold alias_valid. tauto. Qed.

(** What [subscribeLocked] returns is the live generation of the name. *)
Lemma subscribe_evolves c gens told M typ name c' gen :
  core c gens told M → subscribeLocked c typ name = Ok (c', gen) →
  evolves c gens c' (<[gen := (typ, name)]> gens) ∧ same_owners c c'
  ∧ (∃ u, cl_subs c' !! gen = Some u ∧ su_err u = None).
Proof.
  intros Hc. unfold subscribeLocked.
  destruct (negb (bool_decide (name = "" ∨ name = "*"))) eqn:Hv; [|done]. apply name_valid in Hv. cbn.
  destruct (cl_types c !! typ) as [st|] eqn:Ht; [|done].
  destruct (ts_names st !! name) as [g|] eqn:Hn; intros [= <- <-].
  - destruct (to_names _ _ _ _ _ _ (co_types _ _ _ _ Hc _ _ Ht) _ _ Hn) as (_ & Hg & _).
    rewrite (insert_id gens) by done.
    destruct (activate_evolves c gens told M typ st name g Hc Ht Hn) as [Hev Hown]. split_and!; [done..|].
    pose proof (ev_core _ _ _ _ Hev told M Hc) as Hc'.
    destruct (activate_type c typ st name g Ht) as (st' & Ht' & En). rewrite <-En in Hn.
    by destruct (to_names _ _ _ _ _ _ (co_types _ _ _ _ Hc' _ _ Ht') _ _ Hn) as (_ & _ & ?).
  - assert (gens !! cl_fresh c = None) as Hg.
    { destruct (gens !! cl_fresh c) as [[typ' name']|] eqn:E; [|done].
      destruct (co_gens _ _ _ _ Hc _ _ _ E) as (st' & u & _ & Hu & _). by rewrite (co_fresh _ _ _ _ Hc) in Hu. }
    unfold activateLocked. cbn. rewrite lookup_insert_eq. cbn.
    unfold wakeSubscriptions, set_sub, set_type, set_interest, set_subActive. cbn.
    rewrite !insert_insert_eq. split_and!.
    + apply (ask_evolves c gens typ st name (cl_fresh c) (mkSubscription None 0 false true 0)); auto.
    + intros g. unfold owner_view. cbn. destruct (decide (g = cl_fresh c)) as [->|Hd].
      * by rewrite lookup_insert_eq, (co_fresh _ _ _ _ Hc).
      * by rewrite lookup_insert_ne.
    + cbn. rewrite lookup_insert_eq. eauto.
Qed.

(** ** Ending a generation *)

(** The type of a name whose generation ends *)
Lemma end_type subs subs' gens told M typ st name removed :
  type_ok subs gens told M typ st →
  (∀ name' g, ts_names st !! name' = Some g → name' ≠ name →
     (live subs g → live subs' g) ∧ isActive subs' g = isActive subs g) →
  type_ok subs' gens told M typ
    (set_interest st (delete name (ts_names st)) ({[name]} ∪ ts_pending st) removed).
Proof.
  intros [HI Hw Hgr Hnm Hac Hto Hm] Hfr.
  assert (∀ name' g, delete name (ts_names st) !! name' = Some g →
     name' ≠ name ∧ ts_names st !! name' = Some g ∧ (live subs g → live subs' g) ∧ isActive subs' g = isActive subs g) as Hold.
  { intros name' g [Hd Hin]%lookup_delete_Some. split_and!; [done..| |]; by eapply Hfr. }
  split; [by eapply index_ok_cong; [..|exact HI]|done|done| | | |done]; cbn.
  - intros name' g (_ & Hin & Hl & _)%Hold. destruct (Hnm _ _ Hin) as (? & ? & ?). auto.
  - intros name' g (_ & Hin & _ & ->)%Hold Hz. by eapply Hac.
  - intros m Hmt. destruct (Hto m Hmt) as (t & Htt & H1 & H2). exists t. split; [done|]. split; cbn.
    + intros name' Hne. destruct (decide (name' = name)) as [->|Hd]; [set_solver|].
      apply elem_of_union_r, H1. intros E. apply Hne. rewrite E. apply option_eq. intros g.
      rewrite !activeNames_lookup. cbn. rewrite lookup_delete_ne by done.
      split; intros [Hin Hact]; (split; [done|]); destruct (Hfr name' g Hin Hd); congruence.
    + intros name' g (Hd & Hin & _ & ->)%Hold. by apply H2.
Qed.

Lemma end_evolves c gens typ st name gen u e :
  cl_types c !! typ = Some st → ts_names st !! name = Some gen → cl_subs c !! gen = Some u →
  evolves c gens (endSubscription c typ st name gen u e) gens.
Proof.
  intros Ht Hn Hu. split; [|by left|by eapply (watches_of_set c)]. intros told M [C1 C2 C3].
  assert (gens !! gen = Some (typ, name)) as Hg.
  { by destruct (to_names _ _ _ _ _ _ (C1 _ _ Ht) _ _ Hn) as (_ & ? & _). }
  assert (∀ typ' name' g v, gens !! g = Some (typ', name') → (typ', name') ≠ (typ, name) →
    (live (cl_subs c) g → live (<[gen := v]> (cl_subs c)) g)
    ∧ isActive (<[gen := v]> (cl_subs c)) g = isActive (cl_subs c) g) as Hfr.
  { intros typ' name' g v E Hd. unfold live, isActive. by rewrite lookup_insert_ne by congruence. }
  split; cbn.
  - intros typ' st' [[<- <-]|[Hne Ht']]%lookup_insert_Some.
    + apply (end_type (cl_subs c)); [by apply C1|]. intros name' g Hn' Hd.
      destruct (to_names _ _ _ _ _ _ (C1 _ _ Ht) _ _ Hn') as (_ & E & _). apply (Hfr typ name' g _ E). congruence.
    + eapply type_ok_frame; [apply C1, Ht'|done..|]. intros name' g _ E. split; [done|].
      apply (Hfr typ' name' g _ E). congruence.
  - intros g typ' name' E. destruct (C2 _ _ _ E) as (st' & v & Ht' & Hv & Hl).
    assert (∃ st'', (<[typ := set_interest st (delete name (ts_names st)) ({[name]} ∪ ts_pending st) (ts_removed st ∖ {[name]})]>
                       (cl_types c)) !! typ' = Some st''
              ∧ ((typ', name') ≠ (typ, name) → ts_names st' !! name' = Some g → ts_names st'' !! name' = Some g))
      as (st'' & Ht'' & Hn'').
    { destruct (decide (typ' = typ)) as [->|Htd]; [|exists st'; by rewrite lookup_insert_ne].
      eexists. rewrite lookup_insert_eq. split; [done|]. rewrite Ht in Ht'. injection Ht' as <-. cbn.
      intros Hd Hin. rewrite lookup_delete_ne; [done|congruence]. }
    destruct (decide (g = gen)) as [->|Hgd].
    + eexists st'', _. rewrite (lookup_insert_eq (cl_subs c)). split; [done|]. by split.
    + exists st'', v. rewrite (lookup_insert_ne (cl_subs c)) by done. split_and!; [done..|]. intros He. apply Hn''; [|auto].
      intros [= -> ->]. rewrite Ht in Ht'. injection Ht' as <-. specialize (Hl He). congruence.
  - intros g Hge. rewrite lookup_insert_ne; [by apply C3|]. intros ->. by rewrite C3 in Hu.
Qed.

Lemma end_owners c typ st name gen u e :
  cl_subs c !! gen = Some u → su_err u = None → e ≠ "xDS subscription released" →
  same_owners c (endSubscription c typ st name gen u e).
Proof.
  intros Hu He Hne g. unfold owner_view. cbn. destruct (decide (g = gen)) as [->|Hd].
  - rewrite lookup_insert_eq, Hu. cbn. rewrite He, !bool_decide_false; congruence.
  - by rewrite lookup_insert_ne.
Qed.
End invariant.

(** * ClientSteps: the critical sections of the client keep its invariant
    (src/pkg/xdsclient) *)

Section steps.
Context {V : Type}.
Implicit Types (st : typeState V) (c : Client V) (s : ClientSystem V).
Implicit Types (subs : gmap nat subscription) (gens : gmap nat (string * string)) (told : option sentNames).

(** ** Callers *)

Lemma set_type_owners c typ st : same_owners c (set_type c typ st).
Proof. done. Qed.

Lemma set_sub_owners c gen u u' :
  cl_subs c !! gen = Some u → su_err u' = su_err u → su_owners u' = su_owners u → same_owners c (set_sub c gen u').
Proof.
  intros Hu Ee Eo g. unfold owner_view. cbn. destruct (decide (g = gen)) as [->|Hd].
  - by rewrite lookup_insert_eq, Hu, Ee, Eo.
  - by rewrite lookup_insert_ne.
Qed.

(** The owners after one more or one less *)
Lemma owner_view_step c gen u n g :
  cl_subs c !! gen = Some u →
  owner_view (set_sub c gen (ownerStep u n)) g =
    if decide (g = gen) then ((owner_view c gen).1 + n, (owner_view c gen).2)%Z else owner_view c g.
Proof.
  intros Hu. unfold owner_view. cbn. case_decide as E; [subst|by rewrite lookup_insert_ne].
  by rewrite lookup_insert_eq, Hu.
Qed.

Lemma Acquire_evolves c gens told M typ name c' gen :
  core c gens told M → Acquire c typ name = Ok (c', gen) →
  evolves c gens c' (<[gen := (typ, name)]> gens)
  ∧ (owner_view c' gen).2 = false
  ∧ ∀ g, owner_view c' g = if decide (g = gen) then ((owner_view c gen).1 + 1, (owner_view c gen).2)%Z else owner_view c g.
Proof.
  intros Hc ([c1 gen1] & Hs & [= <- <-])%rbind_Ok.
  destruct (subscribe_evolves c gens told M typ name c1 gen1 Hc Hs) as (Hev & Hown & u & Hu & He). rewrite Hu.
  split; [|split].
  - eapply evolves_trans; [exact Hev|]. by eapply set_sub_evolves.
  - rewrite (owner_view_step c1 gen1 u 1 gen1 Hu), decide_True by done. cbn. unfold owner_view. rewrite Hu. cbn.
    by rewrite He.
  - intros g. rewrite (owner_view_step c1 gen1 u 1 g Hu), !Hown. done.
Qed.

Lemma demand_evolves c gens told M typ name c' gen :
  core c gens told M → demandLocked c typ name = Ok (c', gen) →
  evolves c gens c' (<[gen := (typ, name)]> gens) ∧ same_owners c c'.
Proof.
  intros Hc ([c1 gen1] & Hs & [= <- <-])%rbind_Ok.
  destruct (subscribe_evolves c gens told M typ name c1 gen1 Hc Hs) as (Hev & Hown & u & Hu & He). rewrite Hu. split.
  - eapply evolves_trans; [exact Hev|]. by eapply set_sub_evolves.
  - eapply same_owners_trans; [exact Hown|]. by eapply set_sub_owners.
Qed.

(** A cache that is pruned *)
Lemma prunes_evolves c gens typ st st' :
  cl_types c !! typ = Some st → prunes st st' →
  (cw_Wildcard (ts_watch st) = true → st' = st) → evolves c gens (set_type c typ st') gens.
Proof.
  intros Ht ((E1 & E2 & E3 & E4 & E5 & E6 & E7) & HI & _) Hw.
  eapply set_type_evolves; [done..|by rewrite E7|]. intros Hwild _ M. by rewrite (Hw Hwild).
Qed.

Lemma expire_evolves c gens now typ st :
  cl_types c !! typ = Some st → evolves c gens (set_type c typ (expireGraceLocked now st)) gens.
Proof.
  intros Ht. destruct (expireGrace_frame now st) as (E1 & E2 & E3 & E4 & E5 & E6 & HI).
  eapply set_type_evolves; [done..| |]; [intros E|intros _ E M]; by rewrite expireGrace_none.
Qed.

Lemma Release_evolves c gens typ name gen : evolves c gens (Release c typ name gen) gens.
Proof.
  unfold Release. destruct (cl_subs c !! gen) as [u|] eqn:Hu; [|apply evolves_refl].
  destruct (cl_types c !! typ) as [st|] eqn:Ht; [|apply evolves_refl].
  assert (evolves c gens (set_sub c gen (ownerStep u (-1))) gens) as H1 by by eapply set_sub_evolves.
  destruct (_ && _ && _) eqn:E; [|done].
  apply andb_true_iff in E as [[E%bool_decide_eq_true _]%andb_true_iff _].
  eapply evolves_trans; [exact H1|]. cbn. rewrite lookup_insert_eq.
  eapply evolves_trans; [apply (end_evolves _ gens typ st name gen (ownerStep u (-1))); [done..|apply lookup_insert_eq]|].
  eapply prunes_evolves; [apply lookup_insert_eq|apply releaseResource_prunes|apply releaseResource_wildcard].
Qed.

(** The owners after a release: one less, and none if that ended the generation *)
Lemma Release_owners c typ name gen u st :
  cl_subs c !! gen = Some u → cl_types c !! typ = Some st → ∀ g,
  (owner_view (Release c typ name gen) g).1 = (if decide (g = gen) then su_owners u - 1 else (owner_view c g).1)%Z
  ∧ ((owner_view (Release c typ name gen) g).2 = true → (owner_view c g).2 = true ∨ g = gen ∧ su_owners u = 1%Z).
Proof.
  intros Hu Ht g. unfold Release. rewrite Hu, Ht.
  destruct (_ && _ && _) eqn:E.
  - apply andb_true_iff in E as [[_ E%bool_decide_eq_true]%andb_true_iff _]. cbn in E.
    cbn. rewrite lookup_insert_eq. unfold owner_view. cbn. case_decide as Hg; [subst g|].
    + rewrite lookup_insert_eq. cbn. split; [lia|]. intros _. right. split; [done|lia].
    + rewrite !lookup_insert_ne by done. split; [done|intros ?; by left].
  - rewrite (owner_view_step c gen u (-1) g Hu). clear E. case_decide; [subst|split; [done|intros ?; by left]].
    unfold owner_view. rewrite Hu. cbn. split; [done|intros ?; by left].
Qed.

Lemma waiter_evolves c gens gen n :
  let c' := match cl_subs c !! gen with Some u => set_sub c gen (waiterStep n u) | None => c end in
  evolves c gens c' gens ∧ same_owners c c'.
Proof.
  cbn. destruct (cl_subs c !! gen) as [u|] eqn:Hu; [|apply stays].
  split; [by eapply set_sub_evolves|by eapply set_sub_owners].
Qed.

Lemma wait_evolves c gens told M now typ name gen released :
  core c gens told M → gens !! gen = Some (typ, name) →
  evolves c gens (waitLocked now c typ name gen released).1 gens
  ∧ same_owners c (waitLocked now c typ name gen released).1.
Proof.
  intros Hc Hg. destruct (co_gens _ _ _ _ Hc _ _ _ Hg) as (st & u & Ht & Hu & Hl).
  unfold waitLocked. rewrite Hu, Ht. destruct (su_err u); [apply stays|].
  destruct released; [apply stays|].
  destruct (activate_evolves c gens told M typ st name gen Hc Ht (Hl eq_refl)) as [Hev Hown].
  destruct (activate_type c typ st name gen Ht) as (st1 & Ht1 & En). rewrite Ht1. cbn.
  set (c1 := activateLocked c typ st name gen) in *. set (c2 := set_type c1 typ (expireGraceLocked now st1)).
  assert (evolves c gens c2 gens) as Hev2 by (eapply evolves_trans; [exact Hev|by apply expire_evolves]).
  destruct (waiter_evolves c2 gens gen true) as [Hw1 Hw2].
  destruct (if usable _ then _ else _); cbn; [by split..|].
  split; [by eapply evolves_trans|by eapply same_owners_trans].
Qed.

(** ** Deletions *)

Lemma deleted_evolves c gens told M typ name :
  core c gens told M →
  evolves c gens (deletedSubscription c typ name) gens ∧ same_owners c (deletedSubscription c typ name).
Proof.
  intros Hc. unfold deletedSubscription.
  destruct (cl_types c !! typ) as [st|] eqn:Ht; [|apply stays].
  destruct (ts_names st !! name) as [gen|] eqn:Hn; [|apply stays].
  destruct (to_names _ _ _ _ _ _ (co_types _ _ _ _ Hc _ _ Ht) _ _ Hn) as (_ & _ & u & Hu & He). rewrite Hu.
  case_decide.
  - split; [|done]. eapply set_type_evolves; [done..| |done|done].
    intros Hok. by eapply index_ok_cong; [..|exact Hok].
  - split; [by apply end_evolves|by apply end_owners].
Qed.

(** A deletion leaves everything but subscriptions of the type. *)
Lemma deleted_type c typ name st :
  cl_types c !! typ = Some st →
  ∃ st', cl_types (deletedSubscription c typ name) !! typ = Some st'.
Proof.
  intros Ht. unfold deletedSubscription, endSubscription. rewrite Ht. repeat case_match; cbn; eauto;
    rewrite lookup_insert_eq; eauto.
Qed.

Lemma settle_evolves c gens told M typ alias :
  core c gens told M →
  evolves c gens (settleAlias typ c alias) gens ∧ same_owners c (settleAlias typ c alias).
Proof.
  intros Hc. unfold settleAlias. destruct (cl_types c !! typ) as [st|]; [|apply stays].
  case_match; [apply stays|by eapply deleted_evolves].
Qed.

(** A loop of sections *)
Lemma foldl_evolves {A} (f : Client V → A → Client V) gens told M l c :
  (∀ c x, core c gens told M → evolves c gens (f c x) gens ∧ same_owners c (f c x)) →
  core c gens told M → evolves c gens (foldl f c l) gens ∧ same_owners c (foldl f c l).
Proof.
  intros Hf. revert c. induction l as [|x l IH]; intros c Hc; [apply stays|]. cbn.
  destruct (Hf c x Hc) as [H1 H2]. destruct (IH (f c x) (ev_core _ _ _ _ H1 _ _ Hc)) as [H3 H4].
  split; [by eapply evolves_trans|by eapply same_owners_trans].
Qed.
End steps.
