(* ===== verification/ClientStreams.v ===== *)
(** * ClientStreams: responses, resets and requests of the client's stream keep its invariant
    (src/pkg/xdsclient) *)

From S2P Require Import Prelude Identity Resource ResourceIndex ResourceSet Update Watch Client ClientIndex ClientCache ClientSystem ClientInvariant.

Section streams.
Context {V : Type}.
Implicit Types (st : typeState V) (c : Client V) (s : ClientSystem V).
Implicit Types (subs : gmap nat subscription) (gens : gmap nat (string * string)) (told : option sentNames).

(** ** Responses *)

(** A response that was decoded for a watch *)
Definition decoded (watch : ClientWatch V) (r : DeltaResponse) (values : list (WireResource * option V)) : Prop :=
  response_ok r watch ∧ values.*1 = dp_Resources r ∧ Forall (λ p, wr_Name p.1 ≠ "") values
  ∧ (cw_Wildcard watch = true → Forall (λ p, ∃ v, p.2 = Some v ∧ decodes watch p.1 v) values).

Lemma applyDecode_decoded c r values :
  applyDecode c r = Ok values → ∃ watch, watches_of c !! dp_TypeUrl r = Some watch ∧ decoded watch r values.
Proof.
  intros (st & Ht & Hr)%applyDecode_ok. exists (ts_watch st). split; [|done]. unfold watches_of. by rewrite lookup_fmap, Ht.
Qed.

(** The sections of [applyCommit] one after the other *)
Definition settled c (r : DeltaResponse) (touched : gset string) : Client V :=
  foldl (λ c name, deletedSubscription c (dp_TypeUrl r) name)
    (foldl (settleAlias (dp_TypeUrl r)) c (elements touched)) (dp_Removed r).

Lemma applyCommit_sections now c r values st :
  cl_types c !! dp_TypeUrl r = Some st →
  let p := applied (expireGraceLocked now st) r values in
  let c' := settled (set_type c (dp_TypeUrl r) p.1) r p.2 in
  applyCommit now c r values =
    match cl_types c' !! dp_TypeUrl r with
    | Some st' => set_type c' (dp_TypeUrl r) (set_sync st' true (ts_epoch st') (ts_graceUntil st'))
    | None => c'
    end.
Proof.
  intros Ht. unfold applyCommit, applied, settled. rewrite Ht.
  destruct (startStream _ _) as [st1 t1]. destruct (foldl applyOne _ _) as [st2 t2].
  by destruct (foldl applyRemoved _ _) as [st3 t3].
Qed.

(** While a response of [typ] settles, its wildcard cache already holds it. *)
Definition mirror_during (typ : string) (log : list DeltaResponse) : mirror (V:=V) := λ typ' watch synced res,
  if decide (typ' = typ) then mirrors watch res (delivered (responsesOf typ log))
  else mirror_of log typ' watch synced res.

Lemma responsesOf_snoc typ log r :
  responsesOf typ (log ++ [r]) = responsesOf typ log ++ (if decide (dp_TypeUrl r = typ) then [r] else []).
Proof.
  unfold responsesOf. by rewrite filter_app.
Qed.

Lemma applied_holds now log typ st r values :
  typ = dp_TypeUrl r → cw_Wildcard (ts_watch st) = true → cw_ReconnectGrace (ts_watch st) = 0%Z →
  ts_graceUntil st = None → decoded (ts_watch st) r values → holds (mirror_of log) typ st →
  holds (mirror_during typ (log ++ [r])) typ (applied (expireGraceLocked now st) r values).1.
Proof.
  intros -> Hw Hz Hg (Hr & E & _ & Hd) Hm. rewrite expireGrace_none by done. unfold holds, mirror_during.
  rewrite decide_True by done. destruct (applied_interest st r values) as [-> _].
  rewrite responsesOf_snoc, decide_True by done. unfold delivered. rewrite foldl_snoc.
  apply applied_mirrors; [done|done|auto| |].
  - pose proof (rk_distinct _ _ Hr) as Hnd. unfold responseNames in Hnd. apply NoDup_app in Hnd as (_ & Hnd & _).
    intros n Hn Hn'. by apply (Hnd n).
  - unfold holds, mirror_of in Hm. unfold startStream. rewrite Hz, bool_decide_true by done.
    destruct (ts_synced st); cbn; [done|]. rewrite Hm. intros x. by rewrite !lookup_empty.
Qed.

Lemma settled_evolves c gens told M r touched :
  core c gens told M → evolves c gens (settled c r touched) gens ∧ same_owners c (settled c r touched).
Proof.
  intros Hc. unfold settled.
  destruct (foldl_evolves (settleAlias (dp_TypeUrl r)) gens told M (elements touched) c) as [H1 H2];
    [intros; by eapply settle_evolves|done|].
  destruct (foldl_evolves (λ c name, deletedSubscription c (dp_TypeUrl r) name) gens told M (dp_Removed r)
    (foldl (settleAlias (dp_TypeUrl r)) c (elements touched))) as [H3 H4];
    [intros; by eapply deleted_evolves|by eapply ev_core|].
  split; [by eapply evolves_trans|by eapply same_owners_trans].
Qed.

Lemma commit_core now c gens told log r values watch :
  core c gens told (mirror_of log) → watches_of c !! dp_TypeUrl r = Some watch → decoded watch r values →
  core (applyCommit now c r values) gens told (mirror_of (log ++ [r]))
  ∧ (alert c → alert (applyCommit now c r values)) ∧ watches_of (applyCommit now c r values) = watches_of c
  ∧ same_owners c (applyCommit now c r values).
Proof.
  intros Hc Hw Hd. unfold watches_of in Hw. rewrite lookup_fmap in Hw.
  destruct (cl_types c !! dp_TypeUrl r) as [st|] eqn:Ht; [|done]. injection Hw as <-.
  rewrite (applyCommit_sections now c r values st Ht). cbv zeta.
  set (p := applied (expireGraceLocked now st) r values).
  destruct (expireGrace_frame now st) as (E1 & E2 & E3 & _ & E5 & E6 & HI).
  destruct (applied_interest (expireGraceLocked now st) r values) as (F1 & F2 & F3 & F5 & F6 & F7). fold p in F1, F2, F3, F5, F6, F7.
  assert (core (set_type c (dp_TypeUrl r) p.1) gens told (mirror_during (dp_TypeUrl r) (log ++ [r]))) as Hc1.
  { eapply set_type_core; [exact Hc|exact Ht|congruence|congruence|congruence| | | |].
    - intros Hok. apply applied_index; [apply Hd|auto].
    - intros E. by rewrite F7, expireGrace_none.
    - intros Hwild Hg. apply applied_holds; [done|done| |done|done].
      exact (to_wild _ _ _ _ _ _ (co_types _ _ _ _ Hc _ _ Ht) Hwild).
    - intros typ' st' Hne. unfold holds, mirror_during, mirror_of. rewrite decide_False by done.
      rewrite responsesOf_snoc, decide_False by done. by rewrite (right_id_L [] (++)). }
  destruct (settled_evolves _ gens told _ r p.2 Hc1) as [Hev Hown].
  pose proof (ev_core _ _ _ _ Hev _ _ Hc1) as Hc2. set (c2 := settled _ _ _) in *.
  assert (watches_of c2 = watches_of c) as Hwa.
  { rewrite (ev_watches _ _ _ _ Hev). apply (watches_of_set c _ st); [done|congruence]. }
  assert (alert c → alert c2) as Hal.
  { intros Ha. apply (ev_alert _ _ _ _ Hev). eapply set_type_alert; [exact Ht|congruence|done]. }
  destruct (cl_types c2 !! dp_TypeUrl r) as [st2|] eqn:Ht2; last first.
  { exfalso. apply (f_equal (λ m, m !! dp_TypeUrl r)) in Hwa. unfold watches_of in Hwa.
    by rewrite !lookup_fmap, Ht, Ht2 in Hwa. }
  split_and!; [|intros Ha; eapply set_type_alert; [exact Ht2|done|auto]|by rewrite (watches_of_set c2 _ st2)|done].
  eapply set_type_core; [exact Hc2|exact Ht2|done..| | | |].
  - intros Hok. by eapply index_ok_cong; [..|exact Hok].
  - done.
  - intros _ _. unfold holds, mirror_during. rewrite decide_True by done. done.
  - intros typ' st' Hne. unfold holds, mirror_during. by rewrite decide_False.
Qed.

(** ** Resets *)

Lemma foldl_alter_lookup {A} (f : A → A) (l : list nat) (m : gmap nat A) g :
  (∀ x, f (f x) = f x) →
  foldl (λ (m : gmap nat A) k, alter f k m) m l !! g = (if decide (g ∈ l) then f <$> m !! g else m !! g).
Proof.
  intros Hf. revert m. induction l as [|k l IH]; intros m; cbn; [by rewrite decide_False by apply not_elem_of_nil|].
  rewrite IH. destruct (decide (g = k)) as [->|Hne].
  - rewrite lookup_alter_eq. rewrite (decide_True (P := k ∈ k :: l)) by apply list_elem_of_here.
    case_decide; [|done]. destruct (m !! k); cbn; [by rewrite Hf|done].
  - rewrite lookup_alter_ne by done. assert (g ∈ k :: l ↔ g ∈ l) by (rewrite elem_of_cons; tauto).
    repeat case_decide; tauto.
Qed.

(** A reset changes a type and which of its generations are active. *)
Lemma resetType_ok now subs st st' subs' :
  resetType now subs st = (st', subs') →
  ts_watch st' = ts_watch st ∧ ts_names st' = ts_names st ∧ ts_synced st' = false
  ∧ (index_ok st → index_ok st')
  ∧ (cw_ReconnectGrace (ts_watch st) = 0%Z → ts_graceUntil st' = ts_graceUntil st ∧ subs' = subs)
  ∧ ∀ g, subs' !! g = subs !! g
      ∨ ((∃ name, ts_names st !! name = Some g) ∧ ∃ b, subs' !! g = (λ u, set_subActive u b) <$> subs !! g).
Proof.
  unfold resetType. case_decide as Hz; intros [= <- <-]; last first.
  { split_and!; try done; [|by left]. intros Hok. by eapply index_ok_cong; [..|exact Hok]. }
  destruct (expireGrace_frame now st) as (E1 & E2 & E3 & E4 & E5 & E6 & HI).
  set (st1 := if ts_synced (expireGraceLocked now st) then _ else _).
  assert (ts_watch st1 = ts_watch st ∧ ts_names st1 = ts_names st ∧ (index_ok st → index_ok st1)) as (F1 & F2 & F3).
  { subst st1. case_match; [|done]. split_and!; [done..|]. intros Hok.
    eapply index_ok_cong; [..|exact (HI Hok)]; done. }
  split_and!; [done|done|done| |lia|].
  - intros Hok. by eapply index_ok_cong; [..|exact (F3 Hok)].
  - intros g. rewrite F2. rewrite foldl_alter_lookup by done. case_decide as Hg; [right|by left].
    apply list_elem_of_fmap in Hg as ([name g'] & -> & Hin%elem_of_map_to_list). split; [eauto|].
    cbn. destruct (subs !! g') as [u|]; [|by exists false]. by exists (bool_decide (0 < su_waiters u)).
Qed.

(** Resets keep the invariant of a client without a stream, whose caches mirror nothing. *)
Lemma resetOne_core now c gens typ st :
  core c gens None (λ _ _ _ _, True) → cl_types c !! typ = Some st →
  let p := resetOne now (cl_types c, cl_subs c) (typ, st) in
  let c' := mkClient p.1 p.2 (cl_fresh c) (cl_wake c) (cl_connected c) in
  core c' gens None (λ _ _ _ _, True) ∧ same_owners c c' ∧ watches_of c' = watches_of c.
Proof.
  intros [C1 C2 C3] Ht. unfold resetOne. cbn.
  destruct (resetType now (cl_subs c) st) as [st' subs'] eqn:E. cbn.
  destruct (resetType_ok now (cl_subs c) st st' subs' E) as (E1 & E2 & E3 & HI & Hz & Hs).
  assert (∀ g u, cl_subs c !! g = Some u → ∃ u', subs' !! g = Some u' ∧ su_err u' = su_err u ∧ su_owners u' = su_owners u)
    as Hlive.
  { intros g u Hu. destruct (Hs g) as [Hsame|(_ & b & Hsame)]; rewrite Hsame, Hu; cbn; eauto. }
  assert (∀ g, cl_subs c !! g = None → subs' !! g = None) as Hnone.
  { intros g Hu. destruct (Hs g) as [Hsame|(_ & b & Hsame)]; by rewrite Hsame, Hu. }
  assert (∀ g, live (cl_subs c) g → live subs' g) as Hlive'.
  { intros g (u & Hu & He). destruct (Hlive g u Hu) as (u' & Hu' & He' & _). exists u'. split; congruence. }
  split_and!; [split; cbn| |].
  - intros typ' st1 [[<- <-]|[Hne Ht1]]%lookup_insert_Some.
    + destruct (C1 _ _ Ht) as [I1 I2 I3 I4 I5 I6 I7]. split; rewrite ?E1, ?E2; auto.
      * intros Hz0. rewrite (proj1 (Hz Hz0)). auto.
      * intros name gen Hn. destruct (I4 _ _ Hn) as (? & ? & ?). auto.
      * intros name gen Hn Hz0. rewrite (proj2 (Hz Hz0)). by eapply I5.
      * done.
    + eapply type_ok_frame; [apply C1, Ht1|done..|]. intros name gen Hn Hg. split_and!; [done|apply Hlive'|].
      unfold isActive. destruct (Hs gen) as [->|((name' & Hn') & _)]; [done|].
      destruct (to_names _ _ _ _ _ _ (C1 _ _ Ht) _ _ Hn') as (_ & Hg' & _). congruence.
  - intros gen typ' name (st1 & u & Ht1 & Hu & Hl)%C2. destruct (Hlive gen u Hu) as (u' & Hu' & He & _).
    destruct (decide (typ' = typ)) as [->|Hne].
    + exists st', u'. rewrite lookup_insert_eq. rewrite Ht in Ht1. injection Ht1 as <-. by rewrite E2, He.
    + exists st1, u'. rewrite lookup_insert_ne by done. by rewrite He.
  - intros g Hg. by apply Hnone, C3.
  - intros g. unfold owner_view. cbn. destruct (cl_subs c !! g) as [u|] eqn:Hu; [|by rewrite Hnone].
    destruct (Hlive g u Hu) as (u' & -> & -> & ->). done.
  - by eapply (watches_of_set c).
Qed.

Lemma reset_loop now gens l types subs fresh wake conn :
  let c := mkClient types subs fresh wake conn in
  core c gens None (λ _ _ _ _, True) → NoDup l.*1 → (∀ typ st, (typ, st) ∈ l → types !! typ = Some st) →
  let p := foldl (resetOne now) (types, subs) l in
  let c' := mkClient p.1 p.2 fresh wake conn in
  core c' gens None (λ _ _ _ _, True) ∧ same_owners c c' ∧ watches_of c' = watches_of c
  ∧ ∀ typ st, p.1 !! typ = Some st → ts_synced st = false ∨ types !! typ = Some st ∧ typ ∉ l.*1.
Proof.
  revert types subs. induction l as [|[typ st] l IH]; intros types subs c Hc Hnd Hl; cbn.
  { split_and!; [done..|]. intros typ st Ht. right. split; [done|]. apply not_elem_of_nil. }
  apply NoDup_cons in Hnd as [Hnin Hnd].
  assert (types !! typ = Some st) as Ht by apply Hl, list_elem_of_here.
  destruct (resetOne_core now c gens typ st Hc Ht) as (Hc1 & Ho1 & Hw1).
  assert (∃ st' subs', resetOne now (types, subs) (typ, st) = (<[typ := st']> types, subs') ∧ ts_synced st' = false)
    as (st' & subs' & E & Hsy).
  { unfold resetOne. cbn. destruct (resetType now subs st) as [st' subs'] eqn:E. exists st', subs'.
    split; [done|]. by destruct (resetType_ok _ _ _ _ _ E) as (_ & _ & ? & _). }
  subst c. cbn in *. rewrite E in *. cbn in *.
  destruct (IH (<[typ := st']> types) subs' Hc1 Hnd) as (Hc2 & Ho2 & Hw2 & Hs).
  { intros typ1 st1 Hin. rewrite lookup_insert_ne; [by apply Hl, list_elem_of_further|].
    intros <-. apply Hnin. apply list_elem_of_fmap. by exists (typ, st1). }
  split_and!; [done|by eapply same_owners_trans|congruence|].
  intros typ1 st1 [Hsy1|[[[<- <-]|[Hne Ht1]]%lookup_insert_Some Hn]]%Hs; [by left..|right].
  split; [done|]. rewrite elem_of_cons. by intros [->|?].
Qed.

Lemma reset_core now c gens told M :
  core c gens told M →
  core (clientReset now c) gens None (mirror_of []) ∧ watches_of (clientReset now c) = watches_of c
  ∧ same_owners c (clientReset now c).
Proof.
  intros [C1 C2 C3]. destruct c as [types subs fresh wake conn].
  destruct (reset_loop now gens (map_to_list types) types subs fresh wake conn) as ([D1 D2 D3] & Ho & Hw & Hs).
  - split; [|done..]. intros typ st Ht. by destruct (C1 _ _ Ht).
  - apply NoDup_fst_map_to_list.
  - intros typ st. by rewrite elem_of_map_to_list.
  - unfold clientReset. cbn in *. destruct (foldl (resetOne now) (types, subs) (map_to_list types)) as [types' subs'].
    cbn in *. split_and!; [|done..]. split; [|done..]. cbn. intros typ st Ht.
    destruct (D1 _ _ Ht) as [I1 I2 I3 I4 I5 I6 I7]. split; [done..|]. intros _. unfold holds, mirror_of.
    destruct (Hs _ _ Ht) as [->|[Hin Hnin]]; [done|]. exfalso. apply Hnin, list_elem_of_fmap.
    exists (typ, st). split; [done|]. by apply elem_of_map_to_list.
Qed.

(** ** Requests *)

Lemma clearPending_core c gens told told' M :
  core c gens told M →
  (∀ typ st m, cl_types c !! typ = Some st → told' = Some m →
     ∃ t, m !! typ = Some t ∧ t = activeNames (cl_subs c) st) →
  core (mkClient (clearPending <$> cl_types c) (cl_subs c) (cl_fresh c) (cl_wake c) (cl_connected c)) gens told' M.
Proof.
  intros [C1 C2 C3] Ht'. split; cbn.
  - intros typ st'. rewrite lookup_fmap, fmap_Some. intros (st & Ht & ->).
    destruct (C1 _ _ Ht) as [I1 I2 I3 I4 I5 I6 I7].
    split; [by eapply index_ok_cong; [..|exact I1]|done..| |done].
    intros m Hm. destruct (Ht' typ st m Ht Hm) as (t & Htt & ->). eexists. split; [done|].
    assert (activeNames (cl_subs c) (clearPending st) = activeNames (cl_subs c) st) as E by done.
    split; [intros name Hne; by rewrite E in Hne|].
    intros name gen Hgen Hact. cbn in *. apply eq_None_not_Some. intros [g Hg].
    apply activeNames_lookup in Hg as [Hn Hg]. cbn in *. congruence.
  - intros gen typ name (st & u & Ht & Hu & Hl)%C2. exists (clearPending st), u. by rewrite lookup_fmap, Ht.
  - done.
Qed.

Lemma clear_alert c : alert (mkClient (clearPending <$> cl_types c) (cl_subs c) (cl_fresh c) (cl_wake c) (cl_connected c)).
Proof. right. cbn. intros typ st'. rewrite lookup_fmap, fmap_Some. by intros (st & _ & ->). Qed.

Lemma clear_watches c :
  watches_of (mkClient (clearPending <$> cl_types c) (cl_subs c) (cl_fresh c) (cl_wake c) (cl_connected c)) = watches_of c.
Proof. unfold watches_of. cbn. rewrite <-map_fmap_compose. by apply map_fmap_ext. Qed.

Lemma open_core c gens told M :
  core c gens told M →
  core (initialRequests c).1.1 gens (Some (initialRequests c).1.2) M.
Proof.
  intros Hc. cbn. eapply clearPending_core; [exact Hc|]. intros typ st m Ht [= <-].
  eexists. by rewrite lookup_fmap, Ht.
Qed.

(** After [pendingRequests] the stream was told exactly the active names. *)
Lemma tellNames_active subs t st :
  told_ok subs t st → tellNames subs t st = activeNames subs st.
Proof.
  intros [H1 H2]. apply map_eq. intros name. unfold tellNames.
  destruct (decide (name ∈ pendingSubscribe subs t st)) as [Hs|Hs].
  - pose proof Hs as Hs'. unfold pendingSubscribe in Hs'. apply elem_of_filter in Hs' as [Hs' _].
    destruct (ts_names st !! name) as [gen|] eqn:Hn; [|done]. apply andb_true_iff in Hs' as [Ha _].
    transitivity (Some gen).
    + apply lookup_union_Some_l, map_lookup_filter_Some. done.
    + symmetry. by apply activeNames_lookup.
  - rewrite lookup_union_r by (apply map_lookup_filter_None; right; naive_solver).
    destruct (decide (name ∈ pendingUnsubscribe t st)) as [Hu|Hu].
    + transitivity (None (A := nat)); [apply map_lookup_filter_None; right; naive_solver|]. symmetry.
      unfold pendingUnsubscribe in Hu. apply elem_of_filter in Hu as [[Hn _]%andb_true_iff _].
      apply map_lookup_filter_None. left. by destruct (ts_names st !! name).
    + transitivity (t !! name).
      { apply option_eq. intros g. rewrite map_lookup_filter_Some. naive_solver. }
      destruct (decide (t !! name = activeNames subs st !! name)) as [|Hne]; [done|]. exfalso.
      specialize (H1 name Hne). destruct (ts_names st !! name) as [gen|] eqn:Hn.
      * destruct (isActive subs gen) eqn:Ha.
        -- apply Hs. unfold pendingSubscribe. apply elem_of_filter. split; [|done]. rewrite Hn, Ha. cbn.
           apply negb_true_iff, bool_decide_eq_false. intros Ht. apply Hne. rewrite Ht. symmetry.
           by apply activeNames_lookup.
        -- apply Hne. rewrite (H2 name gen Hn Ha). symmetry. apply map_lookup_filter_None. right.
           intros g Hg. cbn. congruence.
      * apply Hu. unfold pendingUnsubscribe. apply elem_of_filter. split; [|done]. rewrite Hn. cbn.
        destruct (t !! name) eqn:Ht; [done|]. exfalso. apply Hne. symmetry. apply map_lookup_filter_None. by left.
Qed.

Lemma send_core c gens m M :
  core c gens (Some m) M →
  core (pendingRequests c m).1.1 gens (Some (pendingRequests c m).1.2) M.
Proof.
  intros Hc. cbn. eapply clearPending_core; [exact Hc|]. intros typ st m' Ht [= <-].
  destruct (to_told _ _ _ _ _ _ (co_types _ _ _ _ Hc _ _ Ht) m eq_refl) as (t & Htt & Hto).
  eexists. split; [rewrite map_lookup_imap, Ht; cbn; reflexivity|]. rewrite Htt. cbn. by apply tellNames_active.
Qed.
End streams.
