(* ===== verification/ClientRequests.v ===== *)
(** * ClientRequests: what the server's watches hold after the requests of a client
    (src/pkg/xdsclient, src/pkg/xds/subscription.go)

    The client's requests meet the server's [applySubscription]: folded over the requests
    of a stream, the watch of a type has the client's wildcard and the names it was told. *)

From S2P Require Import Prelude Identity Resource ResourceIndex ResourceSet Update Watch Client ClientIndex ClientCache ClientSystem ClientInvariant ClientStreams.

(** ** The server's watch *)

Definition serverWatch (typ : string) (requests : list DeltaRequest) : watchState :=
  foldl (λ w r, if decide (dr_TypeUrl r = typ) then (applySubscription w r).1 else w) (newWatch typ) requests.

(** What a watch was asked for *)
Definition asked (w : watchState) : bool * bool * gset string := (ws_started w, ws_wildcard w, ws_names w).

Lemma subscribe_asked l w ch :
  asked (foldl subscribeName (w, ch) l).1 =
    (ws_started w, ws_wildcard w || bool_decide ("*" ∈ l), ws_names w ∪ (list_to_set l ∖ {["*"]})).
Proof.
  revert w ch. induction l as [|x l IH]; intros w ch.
  - cbn. rewrite bool_decide_false by apply not_elem_of_nil. rewrite orb_false_r. unfold asked. f_equal. set_solver.
  - cbn [foldl subscribeName]. destruct (decide (x = "*")) as [E|E]; rewrite IH; cbn.
    + subst x. rewrite (bool_decide_true ("*" ∈ "*" :: l)) by apply list_elem_of_here.
      rewrite orb_true_r. f_equal. set_solver.
    + assert (bool_decide ("*" ∈ x :: l) = bool_decide ("*" ∈ l)) as ->.
      { apply bool_decide_ext. rewrite elem_of_cons. split; [intros [?|?]; congruence|auto]. }
      f_equal. set_solver.
Qed.

Lemma asked_forgetAck w name :
  ws_started (forgetAck w name) = ws_started w ∧ ws_wildcard (forgetAck w name) = ws_wildcard w
  ∧ ws_names (forgetAck w name) = ws_names w.
Proof. unfold forgetAck, indexPendingResponse. by destruct (ws_pendingResponse w). Qed.

Lemma unsubscribe_asked l w ch :
  asked (foldl unsubscribeName (w, ch) l).1 =
    (ws_started w, ws_wildcard w && negb (bool_decide ("*" ∈ l)), ws_names w ∖ (list_to_set l ∖ {["*"]})).
Proof.
  revert w ch. induction l as [|x l IH]; intros w ch.
  - cbn. rewrite bool_decide_false by apply not_elem_of_nil. rewrite andb_true_r. unfold asked. f_equal. set_solver.
  - cbn [foldl unsubscribeName]. destruct (decide (x = "*")) as [E|E]; rewrite IH.
    + subst x. cbn. rewrite (bool_decide_true ("*" ∈ "*" :: l)) by apply list_elem_of_here.
      rewrite andb_false_r. f_equal. set_solver.
    + assert (bool_decide ("*" ∈ x :: l) = bool_decide ("*" ∈ l)) as ->.
      { apply bool_decide_ext. rewrite elem_of_cons. split; [intros [?|?]; congruence|auto]. }
      match goal with |- context [forgetAck ?w ?n] => destruct (asked_forgetAck w n) as (-> & -> & ->) end.
      cbn. f_equal. set_solver.
Qed.

Lemma asked_settle w : asked (settleRecovery w) = asked w.
Proof. done. Qed.

(** A request on a started watch *)
Lemma applySubscription_asked w r :
  ws_started w = true → "*" ∉ dr_Subscribe r → "*" ∉ dr_Unsubscribe r →
  asked (applySubscription w r).1 =
    (true, ws_wildcard w, (ws_names w ∪ list_to_set (dr_Subscribe r)) ∖ list_to_set (dr_Unsubscribe r)).
Proof.
  intros Hst Hs Hu. unfold applySubscription. rewrite Hst.
  destruct (foldl subscribeName (w, negb true) (dr_Subscribe r)) as [w1 c1] eqn:E1.
  pose proof (subscribe_asked (dr_Subscribe r) w (negb true)) as H1. rewrite E1 in H1. cbn in H1.
  destruct (foldl unsubscribeName (w1, c1) (dr_Unsubscribe r)) as [w2 c2] eqn:E2.
  pose proof (unsubscribe_asked (dr_Unsubscribe r) w1 c1) as H2. rewrite E2 in H2. cbn in H2.
  cbn. rewrite asked_settle, H2. unfold asked in H1. injection H1 as -> -> ->.
  rewrite !bool_decide_false, orb_false_r, andb_true_r, Hst by done. f_equal. set_solver.
Qed.

(** The first request of a watch *)
Lemma applySubscription_first typ r :
  dr_InitialVersions r = ∅ → dr_Subscribe r ≠ [] → ("*" ∈ dr_Unsubscribe r → dr_Subscribe r = ["*"]) →
  asked (applySubscription (newWatch typ) r).1 =
    (true, bool_decide ("*" ∈ dr_Subscribe r) && negb (bool_decide ("*" ∈ dr_Unsubscribe r)),
     (list_to_set (dr_Subscribe r) ∖ {["*"]}) ∖ (list_to_set (dr_Unsubscribe r) ∖ {["*"]})).
Proof.
  intros Hv Hne Hu. unfold applySubscription. cbn [ws_started newWatch negb].
  set (w0 := startWatch (newWatch typ) r).
  assert (asked w0 = (true, bool_decide ("*" ∈ dr_Subscribe r), ∅)) as H0.
  { subst w0. unfold startWatch, asked. cbn. rewrite Hv.
    rewrite (bool_decide_false (length (dr_Subscribe r) = 0)) by (by rewrite length_zero_iff_nil).
    cbn. rewrite orb_false_r. f_equal. case_match; set_solver. }
  clearbody w0.
  destruct (foldl subscribeName (w0, true) (dr_Subscribe r)) as [w1 c1] eqn:E1.
  pose proof (subscribe_asked (dr_Subscribe r) w0 true) as H1. rewrite E1 in H1. cbn in H1.
  unfold asked in H0. injection H0 as A1 A2 A3. rewrite A1, A2, A3 in H1. rewrite orb_diag in H1.
  destruct (foldl unsubscribeName (w1, c1) (dr_Unsubscribe r)) as [w2 c2] eqn:E2.
  pose proof (unsubscribe_asked (dr_Unsubscribe r) w1 c1) as H2. rewrite E2 in H2. cbn in H2.
  cbn. rewrite asked_settle, H2. unfold asked in H1. injection H1 as -> -> ->. f_equal. set_solver.
Qed.

(** ** The requests of one type *)

Lemma serverWatch_app typ l1 l2 :
  serverWatch typ (l1 ++ l2) =
    foldl (λ w r, (applySubscription w r).1) (serverWatch typ l1) (base.filter (λ r, dr_TypeUrl r = typ) l2).
Proof.
  unfold serverWatch. rewrite foldl_app. generalize (foldl (λ w r,
    if decide (dr_TypeUrl r = typ) then (applySubscription w r).1 else w) (newWatch typ) l1).
  induction l2 as [|r l IH]; intros w; [done|]. cbn [foldl]. rewrite IH, filter_cons. by case_decide.
Qed.

(** Of a map whose entries carry their key, one entry has a key. *)
Lemma filter_keyed {A} (g : string * A → DeltaRequest) (m : gmap string A) (l : list DeltaRequest) k :
  l ≡ₚ g <$> map_to_list m → (∀ i x, m !! i = Some x → dr_TypeUrl (g (i, x)) = i) →
  base.filter (λ r, dr_TypeUrl r = k) l = match m !! k with Some x => [g (k, x)] | None => [] end.
Proof.
  intros Hl Hk. set (P := λ r, dr_TypeUrl r = k).
  assert (∀ m' : gmap string A, m' ⊆ m → m' !! k = None → base.filter P (g <$> map_to_list m') = []) as Hnil.
  { intros m' Hsub Hn. destruct (base.filter P _) as [|r l'] eqn:E; [done|]. exfalso.
    assert (r ∈ base.filter P (g <$> map_to_list m')) as Hr by (rewrite E; apply list_elem_of_here).
    apply list_elem_of_filter in Hr as [HP ([i x] & -> & Hin%elem_of_map_to_list)%list_elem_of_fmap].
    unfold P in HP. rewrite Hk in HP by (by eapply lookup_weaken). congruence. }
  destruct (m !! k) as [x|] eqn:E.
  - apply Permutation_singleton_r. rewrite Hl. rewrite <-(map_to_list_delete m k x E). cbn [fmap list_fmap].
    rewrite filter_cons_True by (unfold P; by apply Hk).
    rewrite Hnil; [done|apply delete_subseteq|apply lookup_delete_eq].
  - apply Permutation_nil_r. rewrite Hl. by rewrite Hnil.
Qed.

Section requests.
Context {V : Type}.
Implicit Types (st : typeState V) (c : Client V) (subs : gmap nat subscription).

(** Names that can be told *)
Lemma active_plain subs gens told M typ st :
  type_ok subs gens told M typ st → "*" ∉ dom (activeNames subs st).
Proof.
  intros Hok [gen Hg]%elem_of_dom. apply activeNames_lookup in Hg as [Hn _].
  destruct (to_names _ _ _ _ _ _ Hok _ _ Hn) as ([_ ?] & _). done.
Qed.

Lemma elem_of_sorted_names (X : gset string) x : x ∈ sort_strings (elements X) ↔ x ∈ X.
Proof. by rewrite elem_of_sort_strings, elem_of_elements. Qed.

Lemma sorted_names_set (X : gset string) : list_to_set (sort_strings (elements X)) = X.
Proof. apply set_eq. intros x. by rewrite elem_of_list_to_set, elem_of_sorted_names. Qed.

Lemma initial_asked subs typ st :
  "*" ∉ dom (activeNames subs st) →
  asked (applySubscription (newWatch typ) (initialRequest subs typ st)).1 =
    (true, cw_Wildcard (ts_watch st), dom (activeNames subs st)).
Proof.
  intros Hst. unfold initialRequest. set (X := dom (activeNames subs st)) in *.
  assert ("*" ∉ sort_strings (elements X)) as Hs by by rewrite elem_of_sorted_names.
  destruct (cw_Wildcard (ts_watch st)); [|case_decide as E].
  - rewrite applySubscription_first; cbn; [|done|by intros [_ ?]%app_eq_nil|by intros ?%not_elem_of_nil].
    rewrite bool_decide_true by set_solver. rewrite bool_decide_false by apply not_elem_of_nil. cbn. f_equal.
    rewrite list_to_set_app_L, sorted_names_set. set_solver.
  - rewrite applySubscription_first; cbn; [|done|done|done]. apply length_zero_iff_nil in E.
    f_equal. rewrite <-(sorted_names_set X), E. set_solver.
  - rewrite applySubscription_first; cbn; [|done|by intros E'; rewrite E' in E|by intros ?%not_elem_of_nil].
    rewrite bool_decide_false by done. cbn. f_equal. rewrite sorted_names_set. set_solver.
Qed.

Lemma initialRequest_type subs typ st : dr_TypeUrl (initialRequest subs typ st) = typ.
Proof. unfold initialRequest. repeat case_match; done. Qed.

Lemma open_asked c gens told M typ st :
  core c gens told M → cl_types c !! typ = Some st →
  asked (serverWatch typ (initialRequests c).2) = (true, cw_Wildcard (ts_watch st), dom (activeNames (cl_subs c) st)).
Proof.
  intros Hc Ht. pose proof (serverWatch_app typ [] (initialRequests c).2) as E. cbn [app] in E. rewrite E. cbn [snd initialRequests].
  rewrite (filter_keyed (λ p : string * typeState V, initialRequest (cl_subs c) p.1 p.2) (cl_types c)).
  - rewrite Ht. cbn. eapply initial_asked, active_plain, co_types; done.
  - apply isort_Permutation.
  - intros i x _. apply initialRequest_type.
Qed.

(** *** Pending requests *)

(** Replies carry no names. *)
Definition replies (batch : gmap string DeltaRequest) : Prop :=
  ∀ typ r, batch !! typ = Some r → dr_TypeUrl r = typ ∧ dr_Subscribe r = [] ∧ dr_Unsubscribe r = [].

Lemma mergeReply_fold (reqs : list DeltaRequest) (batch : gmap string DeltaRequest) typ :
  NoDup (dr_TypeUrl <$> reqs) →
  (∀ q, q ∈ reqs → dr_TypeUrl q = typ →
     ∃ q', foldl mergeReply batch reqs !! typ = Some q' ∧ dr_TypeUrl q' = typ
       ∧ dr_Subscribe q' = dr_Subscribe q ∧ dr_Unsubscribe q' = dr_Unsubscribe q)
  ∧ (typ ∉ dr_TypeUrl <$> reqs → foldl mergeReply batch reqs !! typ = batch !! typ).
Proof.
  revert batch. induction reqs as [|r reqs IH]; intros batch Hnd; [split; [by intros ? ?%not_elem_of_nil|done]|].
  apply NoDup_cons in Hnd as [Hr Hnd]. destruct (IH (mergeReply batch r) Hnd) as [H1 H2]. cbn [foldl]. split.
  - intros q [->|Hq]%elem_of_cons Eq; [|by apply H1]. rewrite H2 by (by rewrite <-Eq). unfold mergeReply. rewrite Eq.
    rewrite lookup_insert_eq. eexists. split; [done|]. rewrite <-Eq. by case_match.
  - intros Hn. cbn in Hn. apply not_elem_of_cons in Hn as [Hne Hn]. rewrite H2 by done. unfold mergeReply.
    by rewrite lookup_insert_ne.
Qed.

Lemma pendingRequest_type subs t typ st q : pendingRequest subs t typ st = Some q → dr_TypeUrl q = typ.
Proof. unfold pendingRequest. case_decide; [done|]. by intros [= <-]. Qed.

Lemma requests_distinct subs (sent : sentNames) (l : list (string * typeState V)) :
  NoDup l.*1 →
  NoDup (dr_TypeUrl <$> omap (λ p : string * typeState V, pendingRequest subs (default ∅ (sent !! p.1)) p.1 p.2) l).
Proof.
  induction l as [|[typ st] l IH]; [constructor|]. intros [Hn Hnd]%NoDup_cons. cbn.
  destruct (pendingRequest _ _ typ st) as [q|] eqn:E; [|by apply IH]. cbn. constructor; [|by apply IH].
  rewrite (pendingRequest_type _ _ _ _ _ E). intros (q' & Eq & Hq')%list_elem_of_fmap.
  apply list_elem_of_omap in Hq' as ([typ' st'] & Hin & Hq'). apply pendingRequest_type in Hq'. cbn in Hq'.
  apply Hn, list_elem_of_fmap. exists (typ', st'). split; [cbn; congruence|done].
Qed.

(** The request of a type the writer sends *)
Lemma batch_request c (sent : sentNames) batch typ st :
  cl_types c !! typ = Some st → replies batch →
  let final := foldl mergeReply batch (pendingRequests c sent).2 in
  match final !! typ with
  | Some q => dr_TypeUrl q = typ
      ∧ list_to_set (dr_Subscribe q) = pendingSubscribe (cl_subs c) (default ∅ (sent !! typ)) st
      ∧ list_to_set (dr_Unsubscribe q) = pendingUnsubscribe (default ∅ (sent !! typ)) st
  | None => pendingSubscribe (cl_subs c) (default ∅ (sent !! typ)) st = ∅
      ∧ pendingUnsubscribe (default ∅ (sent !! typ)) st = ∅
  end.
Proof.
  intros Ht Hb. cbn [pendingRequests snd]. set (t := default ∅ (sent !! typ)). set (reqs := omap _ _).
  destruct (mergeReply_fold reqs batch typ) as [H1 H2]; [apply requests_distinct, NoDup_fst_map_to_list|].
  destruct (pendingRequest (cl_subs c) t typ st) as [q|] eqn:E.
  - destruct (H1 q) as (q' & Hq' & Eq & Es & Eu).
    { apply list_elem_of_omap. exists (typ, st). split; [by apply elem_of_map_to_list|done]. }
    { by eapply pendingRequest_type. }
    rewrite Hq'. rewrite Es, Eu. unfold pendingRequest in E. case_decide; [done|]. injection E as <-. cbn.
    by rewrite !sorted_names_set.
  - assert (pendingSubscribe (cl_subs c) t st = ∅ ∧ pendingUnsubscribe t st = ∅) as [Es Eu].
    { unfold pendingRequest in E. case_decide as Hz; [|done]. rewrite <-(sorted_names_set (pendingSubscribe _ _ _)).
      rewrite <-(sorted_names_set (pendingUnsubscribe _ _)).
      split; apply (f_equal list_to_set (y := [])), length_zero_iff_nil; lia. }
    rewrite H2.
    + destruct (batch !! typ) as [q|] eqn:Eb; [|done]. destruct (Hb _ _ Eb) as (? & -> & ->). by rewrite Es, Eu.
    + intros (q & Eq & Hq)%list_elem_of_fmap. apply list_elem_of_omap in Hq as ([typ' st'] & Hin & Hq).
      cbn in Hq. pose proof (pendingRequest_type _ _ _ _ _ Hq) as Et. apply elem_of_map_to_list in Hin.
      assert (typ' = typ) as -> by congruence. assert (st' = st) as -> by congruence. fold t in Hq. congruence.
Qed.

Lemma tellNames_dom subs t st :
  dom (tellNames subs t st) = (dom t ∪ pendingSubscribe subs t st) ∖ pendingUnsubscribe t st.
Proof.
  apply set_eq. intros x. unfold tellNames. rewrite dom_union_L, elem_of_union, elem_of_difference, elem_of_union.
  rewrite !elem_of_dom. unfold is_Some. setoid_rewrite map_lookup_filter_Some. cbn.
  assert (x ∈ pendingSubscribe subs t st → is_Some (ts_names st !! x) ∧ x ∉ pendingUnsubscribe t st) as Hs.
  { unfold pendingSubscribe, pendingUnsubscribe. rewrite !elem_of_filter. intros [Hx _].
    destruct (ts_names st !! x); [|done]. split; [eauto|]. by intros [? _]. }
  split.
  - intros [(g & Hg & Hx)|(g & Hg & Hx)]; [split; [by right|by apply Hs]|split; [left; eauto|done]].
  - intros [[(g & Hg)|Hx] Hu]; [right; eauto|left]. destruct (Hs Hx) as [[g Hg] _]. eauto.
Qed.

(** What the writer sends tells the watch of a type what the client recorded. *)
Lemma send_asked c gens (sent : sentNames) M batch out typ st t :
  core c gens (Some sent) M → cl_types c !! typ = Some st → sent !! typ = Some t → replies batch →
  "*" ∉ dom t → asked (serverWatch typ out) = (true, cw_Wildcard (ts_watch st), dom t) →
  (∀ typ' r, foldl mergeReply batch (pendingRequests c sent).2 !! typ' = Some r → dr_TypeUrl r = typ') →
  asked (serverWatch typ (out ++ (map_to_list (foldl mergeReply batch (pendingRequests c sent).2)).*2))
  = (true, cw_Wildcard (ts_watch st), dom (tellNames (cl_subs c) t st)).
Proof.
  intros Hc Ht Hst Hb Hplain Hw Hkeys. rewrite serverWatch_app.
  set (final := foldl mergeReply batch (pendingRequests c sent).2) in *.
  rewrite (filter_keyed snd final) by done. pose proof (batch_request c sent batch typ st Ht Hb) as Hq.
  cbv zeta in Hq. fold final in Hq. rewrite Hst in Hq. change (default ∅ (Some t)) with t in Hq. rewrite tellNames_dom.
  destruct (final !! typ) as [q|] eqn:Ef.
  - destruct Hq as (_ & Es & Eu). cbn [foldl snd]. injection Hw as W1 W2 W3.
    rewrite applySubscription_asked; [by rewrite W2, W3, Es, Eu|done| |].
    + intros Hin. assert ("*" ∈ pendingSubscribe (cl_subs c) t st) as Hin' by (rewrite <-Es; by apply elem_of_list_to_set).
      unfold pendingSubscribe in Hin'. apply elem_of_filter in Hin' as [Hin' _].
      destruct (ts_names st !! "*") as [gen|] eqn:Hn; [|done].
      destruct (to_names _ _ _ _ _ _ (co_types _ _ _ _ Hc _ _ Ht) _ _ Hn) as ([_ ?] & _). done.
    + intros Hin. assert ("*" ∈ pendingUnsubscribe t st) as Hin' by (rewrite <-Eu; by apply elem_of_list_to_set).
      unfold pendingUnsubscribe in Hin'. apply elem_of_filter in Hin' as [[_ Hin']%andb_true_iff _].
      apply Hplain, elem_of_dom. destruct (t !! "*"); [eauto|done].
  - destruct Hq as [-> ->]. cbn [foldl]. rewrite Hw. f_equal. set_solver.
Qed.

Lemma final_keys c (sent : sentNames) batch :
  replies batch → ∀ typ r, foldl mergeReply batch (pendingRequests c sent).2 !! typ = Some r → dr_TypeUrl r = typ.
Proof.
  intros Hb typ r. destruct (mergeReply_fold (pendingRequests c sent).2 batch typ) as [H1 H2].
  { apply requests_distinct, NoDup_fst_map_to_list. }
  destruct (decide (typ ∈ dr_TypeUrl <$> (pendingRequests c sent).2)) as [Hin|Hn].
  - apply list_elem_of_fmap in Hin as (q & Eq & Hq). destruct (H1 q Hq (eq_sym Eq)) as (q' & -> & ? & _). by intros [= <-].
  - rewrite H2 by done. intros Hr. by destruct (Hb _ _ Hr).
Qed.
End requests.
