(* ===== verification/ClientRuns.v ===== *)
(** * ClientRuns: the invariant of a client's runs (src/pkg/xdsclient) *)

From S2P Require Import Prelude Identity Resource ResourceIndex ResourceSet Update Watch Client ClientIndex ClientCache ClientSystem ClientInvariant ClientStreams ClientRequests.

Section runs.
Context {V : Type}.
Implicit Types (st : typeState V) (c : Client V) (s : ClientSystem V).

#[local] Arguments watches_of : simpl never.
#[local] Arguments serverWatch : simpl never.
#[local] Arguments owner_view : simpl never.

(** The handles of a generation that were not released *)
Definition handlesOf (handles : gmap nat nat) (gen : nat) : gmap nat nat :=
  base.filter (λ p : nat * nat, p.2 = gen) handles.

Definition told_of s : option sentNames :=
  match cs_writer s with WriterGone => None | _ => Some (cs_told s) end.

Record client_inv s : Prop := mkClientInv {
  ci_core : core (cs_client s) (cs_gens s) (told_of s) (mirror_of (cs_in s));
  ci_alert : cs_writer s = WriterWaits → alert (cs_client s);
  ci_gone : cs_writer s = WriterGone → cs_in s = [] ∧ cs_reader s = ReaderStarts;
  ci_waits : (∀ ack, cs_reader s = ReaderReplies ack → dr_Subscribe ack = [] ∧ dr_Unsubscribe ack = []);
  ci_acks : cs_acks s = ∅ ∨ cl_wake (cs_client s) = true ∨ cs_reader s = ReaderWakes ∨ cs_writer s = WriterWoken;
  ci_replies : replies (cs_acks s) ∧ ∀ batch, cs_writer s = WriterBatch batch → replies batch;
  ci_decoded : ∀ r values, cs_reader s = ReaderDecoded r values →
    ∃ watch, watches_of (cs_client s) !! dp_TypeUrl r = Some watch ∧ decoded watch r values;
  ci_asked : cs_writer s ≠ WriterGone → ∀ typ watch, watches_of (cs_client s) !! typ = Some watch →
    ∃ t, cs_told s !! typ = Some t ∧ ("*" ∉ dom t)
      ∧ asked (serverWatch typ (cs_out s)) = (true, cw_Wildcard watch, dom t);
  ci_handles : ∀ gen, (owner_view (cs_client s) gen).1 = Z.of_nat (size (handlesOf (cs_handles s) gen))
    ∧ ((owner_view (cs_client s) gen).2 = true → size (handlesOf (cs_handles s) gen) = 0);
  ci_issued : ∀ h gen, cs_handles s !! h = Some gen → is_Some (cs_gens s !! gen)
}.

(** ** Handles *)

Lemma handles_add handles h gen g :
  handles !! h = None →
  size (handlesOf (<[h := gen]> handles) g) = (if decide (g = gen) then 1 else 0) + size (handlesOf handles g).
Proof.
  intros Hh. unfold handlesOf. case_decide as E.
  - subst g. rewrite map_filter_insert_True by done. rewrite map_size_insert_None; [done|].
    apply map_lookup_filter_None. by left.
  - rewrite map_filter_insert_False by (cbn; congruence). rewrite delete_id by done. done.
Qed.

Lemma handles_drop handles h gen g :
  handles !! h = Some gen →
  size (handlesOf handles g) = (if decide (g = gen) then 1 else 0) + size (handlesOf (delete h handles) g).
Proof.
  intros Hh. rewrite <-(insert_delete_id handles h gen Hh) at 1. apply handles_add, lookup_delete_eq.
Qed.

(** ** Initial state *)

Lemma addWatch_ok (types types' : gmap string (typeState V)) w :
  (∀ typ st, types !! typ = Some st → ∃ w, st = newType w ∧ (cw_Wildcard w = true → cw_ReconnectGrace w = 0%Z)) →
  addWatch types w = Ok types' →
  ∀ typ st, types' !! typ = Some st → ∃ w, st = newType w ∧ (cw_Wildcard w = true → cw_ReconnectGrace w = 0%Z).
Proof.
  intros Hold. unfold addWatch. destruct (negb _) eqn:E; [|done]. intros [= <-] typ st.
  intros [[<- <-]|[_ Ht]]%lookup_insert_Some; [|by eapply Hold]. exists w. split; [done|]. intros Hw.
  apply negb_true_iff, orb_false_iff in E as [_ E]. rewrite Hw in E. cbn in E.
  by apply negb_false_iff, bool_decide_eq_true in E.
Qed.

Lemma newType_ok gens log typ (w : ClientWatch V) :
  (cw_Wildcard w = true → cw_ReconnectGrace w = 0%Z) → responsesOf typ log = [] →
  type_ok ∅ gens None (mirror_of log) typ (newType w).
Proof.
  intros Hw Hlog. split; [by apply index_ok_empty|done|done| | |done|done]; cbn; intros name gen; by rewrite lookup_empty.
Qed.

Lemma start_inv watches c :
  newClient watches = Ok c → client_inv (mkSystem c ∅ ∅ WriterGone ReaderStarts ∅ ∅ [] []).
Proof.
  intros (types & Ht & [= <-])%rbind_Ok.
  assert (∀ typ st, types !! typ = Some st → ∃ w, st = newType w ∧ (cw_Wildcard w = true → cw_ReconnectGrace w = 0%Z)) as Hn.
  { eapply (rfold_inv (λ types : gmap string (typeState V), ∀ typ st, types !! typ = Some st →
      ∃ w, st = newType w ∧ (cw_Wildcard w = true → cw_ReconnectGrace w = 0%Z))); [| |exact Ht].
    - intros typ st. by rewrite lookup_empty.
    - intros w t t' _ Hold. by apply addWatch_ok. }
  split; cbn; try done; [|by left].
  split; cbn; [|intros ? ? ?; by rewrite lookup_empty|intros; apply lookup_empty].
  intros typ st (w & -> & Hw)%Hn. by apply newType_ok.
Qed.

(** ** Steps of callers *)

(** A section of a caller, given what it does to the owners *)
Lemma caller_inv s c' gens' handles' :
  client_inv s → evolves (cs_client s) (cs_gens s) c' gens' →
  (cl_wake (cs_client s) = true → cl_wake c' = true) →
  (∀ gen, (owner_view c' gen).1 = Z.of_nat (size (handlesOf handles' gen))
     ∧ ((owner_view c' gen).2 = true → size (handlesOf handles' gen) = 0)) →
  (∀ h gen, handles' !! h = Some gen → is_Some (gens' !! gen)) →
  client_inv (set_callers s c' gens' handles').
Proof.
  intros [H1 H2 H3 H4 H5 H6 H7 H8 H9 H10] [Hc Ha Hw] Hwake Ho Hi. split; cbn; try done; rewrite ?Hw.
  - by apply Hc.
  - auto.
  - destruct H5 as [?|[?|?]]; auto.
  - done.
  - done.
Qed.

(** Tokens are only taken by the writer. *)
Lemma wake_activate c typ st name gen :
  cl_wake c = true → cl_wake (activateLocked c typ st name gen) = true.
Proof. intros Hw. unfold activateLocked. repeat case_match; done. Qed.

Lemma wake_subscribe c typ name c' gen :
  subscribeLocked c typ name = Ok (c', gen) → cl_wake c = true → cl_wake c' = true.
Proof.
  unfold subscribeLocked. destruct (negb _); [|done]. cbn. destruct (cl_types c !! typ); [|done].
  destruct (ts_names _ !! name); intros [= <- <-] Hw; by apply wake_activate.
Qed.

Lemma wake_Release c typ name gen : cl_wake c = true → cl_wake (Release c typ name gen) = true.
Proof. intros Hw. unfold Release, endSubscription. repeat case_match; done. Qed.

Lemma wake_wait now c typ name gen b : cl_wake c = true → cl_wake (waitLocked now c typ name gen b).1 = true.
Proof.
  intros Hw. unfold waitLocked. destruct (cl_subs c !! gen) as [u|]; [|done].
  destruct (cl_types c !! typ) as [st|]; [|done]. destruct (su_err u), b; try done.
  pose proof (wake_activate c typ st name gen Hw) as Hwa. set (c1 := activateLocked _ _ _ _ _) in *. cbn.
  destruct (if usable _ then _ else _); cbn; [done..|]. by destruct (cl_subs c1 !! gen).
Qed.

Lemma wake_stop c gen : cl_wake (stopWaiting c gen) = cl_wake c.
Proof. unfold stopWaiting. by case_match. Qed.

Lemma wake_deleted c typ name : cl_wake c = true → cl_wake (deletedSubscription c typ name) = true.
Proof. intros Hw. unfold deletedSubscription, endSubscription. repeat case_match; done. Qed.

Lemma wake_settled c r touched : cl_wake c = true → cl_wake (settled c r touched) = true.
Proof.
  assert (∀ {A} (f : Client V → A → Client V) l c, (∀ c x, cl_wake c = true → cl_wake (f c x) = true) →
    cl_wake c = true → cl_wake (foldl f c l) = true) as Hfold.
  { intros A f l c0 Hf. revert c0. induction l as [|x l IH]; intros c0 Hw; [done|]. by apply IH, Hf. }
  intros Hw. unfold settled. apply Hfold; [intros; by apply wake_deleted|]. apply Hfold; [|done].
  intros c0 x Hx. unfold settleAlias. repeat case_match; try done. by apply wake_deleted.
Qed.

Lemma wake_commit now c r values : cl_wake c = true → cl_wake (applyCommit now c r values) = true.
Proof.
  intros Hw. destruct (cl_types c !! dp_TypeUrl r) as [st|] eqn:Ht; [|unfold applyCommit; by rewrite Ht].
  rewrite (applyCommit_sections now c r values st Ht). cbv zeta. case_match; by apply wake_settled.
Qed.

(** A section that leaves owners and handles alone *)
Lemma quiet_inv s c' gens' :
  client_inv s → evolves (cs_client s) (cs_gens s) c' gens' → same_owners (cs_client s) c' →
  (cl_wake (cs_client s) = true → cl_wake c' = true) → cs_gens s ⊆ gens' →
  client_inv (set_callers s c' gens' (cs_handles s)).
Proof.
  intros Hi Hev Ho Hw Hg. apply caller_inv; [done..| |].
  - intros gen. rewrite Ho. by apply ci_handles.
  - intros h gen Hh. destruct (ci_issued s Hi h gen Hh) as [x Hx]. exists x. by eapply lookup_weaken.
Qed.

(** Naming a generation again changes nothing. *)
Lemma gens_grow c gens told M typ name c' gen :
  core c gens told M → subscribeLocked c typ name = Ok (c', gen) → gens ⊆ <[gen := (typ, name)]> gens.
Proof.
  intros Hc. unfold subscribeLocked. destruct (negb _); [|done]. cbn.
  destruct (cl_types c !! typ) as [st|] eqn:Ht; [|done].
  destruct (ts_names st !! name) as [g|] eqn:Hn; intros [= _ <-].
  - destruct (to_names _ _ _ _ _ _ (co_types _ _ _ _ Hc _ _ Ht) _ _ Hn) as (_ & Hg & _). by rewrite insert_id.
  - apply insert_subseteq. destruct (gens !! cl_fresh c) as [[typ' name']|] eqn:E; [|done].
    destruct (co_gens _ _ _ _ Hc _ _ _ E) as (st' & u & _ & Hu & _). by rewrite (co_fresh _ _ _ _ Hc) in Hu.
Qed.

Lemma acquire_inv s typ name c' gen h :
  client_inv s → Acquire (cs_client s) typ name = Ok (c', gen) → cs_handles s !! h = None →
  client_inv (set_callers s c' (<[gen := (typ, name)]> (cs_gens s)) (<[h := gen]> (cs_handles s))).
Proof.
  intros Hi Ha Hh. destruct (Acquire_evolves _ _ _ _ _ _ _ _ (ci_core s Hi) Ha) as (Hev & Hlive & Ho).
  apply rbind_Ok in Ha as ([c1 gen1] & Hs & [= <- <-]). apply caller_inv; [done..| | |].
  - intros Hw. pose proof (wake_subscribe _ _ _ _ _ Hs Hw). by case_match.
  - intros g. destruct (ci_handles s Hi g) as [E1 E2]. rewrite handles_add by done. split.
    + rewrite Ho. case_decide; [subst; cbn|]; lia.
    + case_decide as E; [subst; congruence|]. intros Hr. rewrite Ho, decide_False in Hr by done. auto.
  - intros h' g [[<- <-]|[_ Hg]]%lookup_insert_Some; [by rewrite lookup_insert_eq|].
    destruct (ci_issued s Hi h' g Hg) as [x Hx]. exists x. eapply lookup_weaken; [done|].
    by eapply gens_grow; [apply (ci_core s Hi)|].
Qed.

Lemma release_inv s h gen typ name :
  client_inv s → cs_handles s !! h = Some gen → cs_gens s !! gen = Some (typ, name) →
  client_inv (set_callers s (Release (cs_client s) typ name gen) (cs_gens s) (delete h (cs_handles s))).
Proof.
  intros Hi Hh Hg. destruct (co_gens _ _ _ _ (ci_core s Hi) _ _ _ Hg) as (st & u & Ht & Hu & _).
  apply caller_inv; [done|apply Release_evolves|apply wake_Release| |].
  - intros g. destruct (Release_owners (cs_client s) typ name gen u st Hu Ht g) as [E1 E2].
    destruct (ci_handles s Hi g) as [F1 F2]. rewrite (handles_drop _ h gen g Hh) in F1, F2.
    destruct (ci_handles s Hi gen) as [G1 _]. rewrite (handles_drop _ h gen gen Hh), decide_True in G1 by done.
    unfold owner_view in G1. rewrite Hu in G1. cbn in G1. rewrite E1. case_decide as Hd.
    + subst g. split; [lia|]. intros [Hr|[_ Hone]]%E2; [|lia]. specialize (F2 Hr). lia.
    + split; [lia|]. intros [Hr|[-> _]]%E2; [by apply F2|done].
  - intros h' g [_ Hg']%lookup_delete_Some. by eapply ci_issued.
Qed.

(** ** Steps of the stream *)

Lemma core_connect c gens told M :
  core c gens told M → core (connectLocked c) gens told M ∧ core (consumeWake c) gens told M ∧ core (wakeSubscriptions c) gens told M.
Proof. intros [C1 C2 C3]. by split_and!. Qed.

Lemma open_inv s c' told requests :
  client_inv s → cs_writer s = WriterGone → initialRequests (cs_client s) = (c', told, requests) →
  client_inv (mkSystem c' (cs_gens s) (cs_handles s) WriterWaits ReaderStarts ∅ told requests []).
Proof.
  intros Hi Hw E. pose proof (ci_core s Hi) as Hc. destruct (ci_gone s Hi Hw) as [Hin _]. rewrite Hin in Hc.
  pose proof (open_core _ _ _ _ Hc) as Hc'. pose proof (clear_alert (cs_client s)) as Ha.
  pose proof (clear_watches (cs_client s)) as Hwa.
  assert (∀ typ st, cl_types (cs_client s) !! typ = Some st → asked (serverWatch typ requests) =
    (true, cw_Wildcard (ts_watch st), dom (activeNames (cl_subs (cs_client s)) st))) as Hask.
  { intros typ st Ht. replace requests with (initialRequests (cs_client s)).2 by by rewrite E. by eapply open_asked. }
  injection E as <- <- _. split; cbn; try done; [by left| | |].
  - rewrite Hwa. intros _ typ watch Hwt. unfold watches_of in Hwt. rewrite lookup_fmap, fmap_Some in Hwt.
    destruct Hwt as (st & Ht & ->). exists (activeNames (cl_subs (cs_client s)) st).
    rewrite lookup_fmap, Ht. split; [done|]. split; [by eapply active_plain, co_types|by apply Hask].
  - apply (ci_handles s Hi).
  - apply (ci_issued s Hi).
Qed.

Lemma send_inv s batch c' told requests :
  client_inv s → cs_writer s = WriterBatch batch → pendingRequests (cs_client s) (cs_told s) = (c', told, requests) →
  client_inv (mkSystem c' (cs_gens s) (cs_handles s) WriterWaits (cs_reader s) (cs_acks s) told
                (cs_out s ++ (map_to_list (foldl mergeReply batch requests)).*2) (cs_in s)).
Proof.
  intros Hi Hw E. pose proof (ci_core s Hi) as Hc. unfold told_of in Hc. rewrite Hw in Hc.
  pose proof (send_core _ _ _ _ Hc) as Hc'. pose proof (clear_alert (cs_client s)) as Ha.
  pose proof (clear_watches (cs_client s)) as Hwa. destruct (ci_replies s Hi) as [Hr Hb]. specialize (Hb batch Hw).
  assert (∀ typ st t, cl_types (cs_client s) !! typ = Some st → cs_told s !! typ = Some t → "*" ∉ dom t →
    asked (serverWatch typ (cs_out s)) = (true, cw_Wildcard (ts_watch st), dom t) →
    asked (serverWatch typ (cs_out s ++ (map_to_list (foldl mergeReply batch requests)).*2)) =
      (true, cw_Wildcard (ts_watch st), dom (tellNames (cl_subs (cs_client s)) t st))) as Hask.
  { intros typ st t Ht Htt Hp Hs. replace requests with (pendingRequests (cs_client s) (cs_told s)).2 by by rewrite E.
    eapply send_asked; [done..|]. by apply final_keys. }
  injection E as <- <- _. split; cbn; try done.
  - apply (ci_waits s Hi).
  - destruct (ci_acks s Hi) as [?|[?|[?|?]]]; [auto..|congruence].
  - rewrite Hwa. apply (ci_decoded s Hi).
  - rewrite Hwa. intros _ typ watch Hwt. destruct (ci_asked s Hi ltac:(congruence) typ watch Hwt) as (t & Htt & Hp & Hs).
    unfold watches_of in Hwt. rewrite lookup_fmap, fmap_Some in Hwt. destruct Hwt as (st & Ht & ->).
    exists (tellNames (cl_subs (cs_client s)) t st). rewrite map_lookup_imap, Ht. cbn. rewrite Htt.
    split; [done|]. split; [|by apply Hask].
    destruct (to_told _ _ _ _ _ _ (co_types _ _ _ _ Hc _ _ Ht) _ eq_refl) as (t' & Htt' & Hto).
    assert (t' = t) as -> by congruence. rewrite tellNames_active by done. by eapply active_plain, co_types.
  - apply (ci_handles s Hi).
  - apply (ci_issued s Hi).
Qed.

Lemma commit_inv s now r values :
  client_inv s → cs_reader s = ReaderDecoded r values →
  client_inv (set_reader s (applyCommit now (cs_client s) r values) (ReaderReplies (replyTo r None)) (cs_acks s)
                (cs_in s ++ [r])).
Proof.
  intros Hi Hr. destruct (ci_decoded s Hi r values Hr) as (watch & Hw & Hd).
  destruct (commit_core now _ _ _ _ _ _ _ (ci_core s Hi) Hw Hd) as (Hc & Ha & Hwa & Ho).
  split; cbn; try done; rewrite ?Hwa.
  - intros E. by apply Ha, (ci_alert s Hi).
  - intros E. destruct (ci_gone s Hi E). congruence.
  - by intros ack [= <-].
  - destruct (ci_acks s Hi) as [?|[?|[?|?]]]; [auto| |congruence|auto]. right; left. by apply wake_commit.
  - apply (ci_replies s Hi).
  - apply (ci_asked s Hi).
  - intros gen. rewrite Ho. apply (ci_handles s Hi).
  - apply (ci_issued s Hi).
Qed.

Lemma lost_inv s now :
  client_inv s →
  client_inv (mkSystem (clientReset now (cs_client s)) (cs_gens s) (cs_handles s) WriterGone ReaderStarts ∅ ∅ [] []).
Proof.
  intros Hi. destruct (reset_core now _ _ _ _ (ci_core s Hi)) as (Hc & Hw & Ho).
  split; cbn; try done; [by left| |].
  - intros gen. rewrite Ho. apply (ci_handles s Hi).
  - apply (ci_issued s Hi).
Qed.

(** The steps of the reader and the writer that leave the client's types alone *)
Lemma reader_inv s c' reader acks :
  client_inv s → cs_writer s ≠ WriterGone →
  core c' (cs_gens s) (told_of s) (mirror_of (cs_in s)) → (alert (cs_client s) → alert c') →
  watches_of c' = watches_of (cs_client s) → same_owners (cs_client s) c' →
  (∀ ack, reader = ReaderReplies ack → dr_Subscribe ack = [] ∧ dr_Unsubscribe ack = []) →
  (acks = ∅ ∨ cl_wake c' = true ∨ reader = ReaderWakes ∨ cs_writer s = WriterWoken) → replies acks →
  (∀ r values, reader = ReaderDecoded r values →
     ∃ watch, watches_of c' !! dp_TypeUrl r = Some watch ∧ decoded watch r values) →
  client_inv (set_reader s c' reader acks (cs_in s)).
Proof.
  intros Hi Hw Hc Ha Hwa Ho Hwt Hac Hre Hd. split; cbn; try done; rewrite ?Hwa.
  - intros E. by apply Ha, (ci_alert s Hi).
  - split; [done|]. apply (ci_replies s Hi).
  - apply (ci_asked s Hi).
  - intros gen. rewrite Ho. apply (ci_handles s Hi).
  - apply (ci_issued s Hi).
Qed.

(** The token and the replies change hands. *)
Lemma writer_inv s c' writer acks :
  client_inv s → writer ≠ WriterGone → writer ≠ WriterWaits → cs_writer s ≠ WriterGone →
  core c' (cs_gens s) (told_of s) (mirror_of (cs_in s)) → watches_of c' = watches_of (cs_client s) →
  same_owners (cs_client s) c' → acks = ∅ ∨ writer = WriterWoken →
  replies acks → (∀ batch, writer = WriterBatch batch → replies batch) →
  client_inv (mkSystem c' (cs_gens s) (cs_handles s) writer (cs_reader s) acks (cs_told s) (cs_out s) (cs_in s)).
Proof.
  intros Hi Hg Hwa Hg' Hc Hw Ho Hac Hr Hb. split; cbn; try done; rewrite ?Hw.
  - unfold told_of in *. cbn. by destruct writer, (cs_writer s).
  - apply (ci_waits s Hi).
  - destruct Hac; auto.
  - apply (ci_decoded s Hi).
  - intros _. by apply (ci_asked s Hi).
  - intros gen. rewrite Ho. apply (ci_handles s Hi).
  - apply (ci_issued s Hi).
Qed.

Lemma reading s r : client_inv s → cs_reader s = r → r ≠ ReaderStarts → cs_writer s ≠ WriterGone.
Proof. intros Hi Hr Hn Hw. destruct (ci_gone s Hi Hw). congruence. Qed.

(** *** Every step *)
Lemma step_inv s s' : client_inv s → client_step s s' → client_inv s'.
Proof.
  intros Hi Hstep. pose proof (ci_core s Hi) as Hc.
  destruct Hstep as [s typ name c' gen h Ha Hh|s typ name c' gen Hd|s now typ name gen b Hg|s gen|s h gen typ name Hh Hg
    |s now typ st Ht|s c' told reqs Hw E|s Hw Hr|s Hw Hk|s Hw|s batch c' told reqs Hw E|s r values Hw Hr Hd
    |s r e Hw Hr He|s now r values Hr|s ack Hr|s Hr|s now _].
  - by eapply acquire_inv.
  - destruct (demand_evolves _ _ _ _ _ _ _ _ Hc Hd) as [Hev Ho].
    apply rbind_Ok in Hd as ([c1 gen1] & Hs & [= <- <-]). apply quiet_inv; [done..| |by eapply gens_grow].
    intros Hw. pose proof (wake_subscribe _ _ _ _ _ Hs Hw). by case_match.
  - destruct (wait_evolves _ _ _ _ now _ _ _ b Hc Hg) as [Hev Ho]. by apply quiet_inv; [..|apply wake_wait|].
  - destruct (waiter_evolves (cs_client s) (cs_gens s) gen false) as [Hev Ho].
    apply quiet_inv; [done..| |done]. by rewrite wake_stop.
  - by apply release_inv.
  - by apply quiet_inv; [|apply expire_evolves|..].
  - by eapply open_inv.
  - apply reader_inv; try done; [by apply core_connect| |exact (proj1 (ci_replies s Hi))].
    destruct (ci_acks s Hi) as [?|[?|[?|?]]]; [auto|auto|congruence|auto].
  - apply writer_inv; try done; [congruence|by apply core_connect|by right|exact (proj1 (ci_replies s Hi))].
  - apply writer_inv; try done; [congruence|by left|]. intros batch [= <-]. exact (proj1 (ci_replies s Hi)).
  - by eapply send_inv.
  - destruct (applyDecode_decoded _ _ _ Hd) as (watch & Hwt & Hde).
    apply reader_inv; try done; [|exact (proj1 (ci_replies s Hi))|by intros ? ? [= <- <-]; exists watch].
    destruct (ci_acks s Hi) as [?|[?|[?|?]]]; [auto|auto|congruence|auto].
  - apply reader_inv; try done; [by intros ack [= <-]| |exact (proj1 (ci_replies s Hi))].
    destruct (ci_acks s Hi) as [?|[?|[?|?]]]; [auto|auto|congruence|auto].
  - by apply commit_inv.
  - apply reader_inv; try done; [by eapply reading|by right; right; left|].
    intros typ r [[<- <-]|[_ Hold]]%lookup_insert_Some; [split; [done|by apply (ci_waits s Hi)]|].
    by apply (proj1 (ci_replies s Hi)).
  - apply reader_inv; try done; [by eapply reading|by apply core_connect|by left|by right; left|exact (proj1 (ci_replies s Hi))].
  - by apply lost_inv.
Qed.

Lemma client_run_inv watches s : client_run watches s → client_inv s.
Proof. induction 1; [by eapply start_inv|by eapply step_inv]. Qed.
End runs.
