(* ===== verification/ClientExamples.v ===== *)
(** * ClientExamples: concrete runs of a client, the instances of its theorems *)

From S2P Require Import Prelude Identity Resource ResourceIndex ResourceSet SetInvariant SetQueries SetDiff Snapshot Update Notices Dependencies Watch Generator Generators Delta Requests Sending Selections Incremental Contract Selectors Session SessionTheorems Client ClientIndex ClientCache ClientSystem ClientInvariant ClientStreams ClientRequests ClientRuns.

(** ** Driving a client *)

Section drivers.
Context {V : Type} (watches : list (ClientWatch V)).
Implicit Types s : ClientSystem V.

Definition startClient : ClientSystem V :=
  mkSystem (match newClient watches with Ok c => c | Err _ => mkClient ∅ ∅ 0 false false end)
    ∅ ∅ WriterGone ReaderStarts ∅ ∅ [] [].

Definition connectClient s : ClientSystem V :=
  let '(c, told, requests) := initialRequests (cs_client s) in
  mkSystem (connectLocked c) (cs_gens s) (cs_handles s) WriterWaits ReaderReceives ∅ told requests [].

Definition acquireAs s (typ name : string) (h : nat) : ClientSystem V :=
  match Acquire (cs_client s) typ name with
  | Ok (c, gen) => set_callers s c (<[gen := (typ, name)]> (cs_gens s)) (<[h := gen]> (cs_handles s))
  | Err _ => s
  end.

(** The writer is woken, takes the replies and sends. *)
Definition flushWriter s : ClientSystem V :=
  let '(c, told, requests) := pendingRequests (consumeWake (cs_client s)) (cs_told s) in
  mkSystem c (cs_gens s) (cs_handles s) WriterWaits (cs_reader s) ∅ told
    (cs_out s ++ (map_to_list (foldl mergeReply (cs_acks s) requests)).*2) (cs_in s).

(** The reader takes a response, and replies. *)
Definition acceptResponse s (r : DeltaResponse) : ClientSystem V :=
  match applyDecode (cs_client s) r with
  | Ok values =>
      set_reader s (wakeSubscriptions (applyCommit 0 (cs_client s) r values)) ReaderReceives
        (<[dp_TypeUrl r := replyTo r None]> (cs_acks s)) (cs_in s ++ [r])
  | Err _ => s
  end.

Definition releaseHandle s (h : nat) : ClientSystem V :=
  match cs_handles s !! h with
  | Some gen =>
      match cs_gens s !! gen with
      | Some (typ, name) =>
          set_callers s (Release (cs_client s) typ name gen) (cs_gens s) (delete h (cs_handles s))
      | None => s
      end
  | None => s
  end.

Definition isWaiting s : bool := match cs_writer s with WriterWaits => true | _ => false end.
Definition isReceiving s : bool := match cs_reader s with ReaderReceives => true | _ => false end.
Definition isOk {A} (r : result A) : bool := match r with Ok _ => true | Err _ => false end.

Lemma isWaiting_ok s : isWaiting s = true → cs_writer s = WriterWaits.
Proof. unfold isWaiting. by destruct (cs_writer s). Qed.

Lemma isReceiving_ok s : isReceiving s = true → cs_reader s = ReaderReceives.
Proof. unfold isReceiving. by destruct (cs_reader s). Qed.

Lemma startClient_run : isOk (newClient watches) = true → client_run watches startClient.
Proof. intros E. unfold startClient. destruct (newClient watches) as [c|] eqn:Ec; [|done]. by apply run_start. Qed.

Lemma connectClient_run s :
  client_run watches s → match cs_writer s with WriterGone => true | _ => false end = true →
  client_run watches (connectClient s).
Proof.
  intros Hrun Hw. unfold connectClient. destruct (initialRequests (cs_client s)) as [[c told] reqs] eqn:E.
  assert (cs_writer s = WriterGone) as Hg by by destruct (cs_writer s).
  eapply run_step; [eapply run_step; [exact Hrun|by eapply step_open]|].
  apply (step_connect (mkSystem c (cs_gens s) (cs_handles s) WriterWaits ReaderStarts ∅ told reqs [])); done.
Qed.

Lemma acquireAs_run s typ name h :
  client_run watches s → isOk (Acquire (cs_client s) typ name) = true → cs_handles s !! h = None →
  client_run watches (acquireAs s typ name h).
Proof.
  intros Hrun Hok Hh. unfold acquireAs. destruct (Acquire (cs_client s) typ name) as [[c gen]|] eqn:E; [|done].
  eapply run_step; [exact Hrun|by apply step_acquire].
Qed.

Lemma releaseHandle_run s h : client_run watches s → client_run watches (releaseHandle s h).
Proof.
  intros Hrun. unfold releaseHandle. destruct (cs_handles s !! h) as [gen|] eqn:Hh; [|done].
  destruct (cs_gens s !! gen) as [[typ name]|] eqn:Hg; [|done]. eapply run_step; [exact Hrun|by apply step_release].
Qed.

Lemma flushWriter_run s :
  client_run watches s → isWaiting s = true → cl_wake (cs_client s) = true → client_run watches (flushWriter s).
Proof.
  intros Hrun Hw%isWaiting_ok Hk. unfold flushWriter.
  destruct (pendingRequests (consumeWake (cs_client s)) (cs_told s)) as [[c told] reqs] eqn:E.
  set (s1 := mkSystem (consumeWake (cs_client s)) (cs_gens s) (cs_handles s) WriterWoken (cs_reader s)
                     (cs_acks s) (cs_told s) (cs_out s) (cs_in s)).
  set (s2 := mkSystem (cs_client s1) (cs_gens s1) (cs_handles s1) (WriterBatch (cs_acks s1)) (cs_reader s1)
                     ∅ (cs_told s1) (cs_out s1) (cs_in s1)).
  assert (client_run watches s1) as H1 by (eapply run_step; [exact Hrun|by apply step_wake]).
  assert (client_run watches s2) as H2 by (eapply run_step; [exact H1|by apply step_replies]).
  eapply run_step; [exact H2|]. by apply (step_send s2 (cs_acks s)).
Qed.

Lemma acceptResponse_run s r :
  client_run watches s → isWaiting s = true → isReceiving s = true → isOk (applyDecode (cs_client s) r) = true →
  client_run watches (acceptResponse s r).
Proof.
  intros Hrun Hw%isWaiting_ok Hr%isReceiving_ok Hok. unfold acceptResponse.
  destruct (applyDecode (cs_client s) r) as [values|] eqn:E; [|done].
  set (s1 := set_reader s (cs_client s) (ReaderDecoded r values) (cs_acks s) (cs_in s)).
  set (s2 := set_reader s1 (applyCommit 0 (cs_client s1) r values) (ReaderReplies (replyTo r None)) (cs_acks s1) (cs_in s1 ++ [r])).
  set (s3 := set_reader s2 (cs_client s2) ReaderWakes (<[dp_TypeUrl r := replyTo r None]> (cs_acks s2)) (cs_in s2)).
  assert (client_run watches s1) as H1 by (eapply run_step; [exact Hrun|apply step_receive; [congruence|done..]]).
  assert (client_run watches s2) as H2 by (eapply run_step; [exact H1|by apply step_commit]).
  assert (client_run watches s3) as H3.
  { eapply run_step; [exact H2|]. by apply (step_reply s2 (replyTo r None)). }
  eapply run_step; [exact H3|]. by apply (step_signal s3).
Qed.
End drivers.

(** ** A client of clusters and workload addresses *)

Definition exampleClusterWatch : ClientWatch Any :=
  mkClientWatch ClusterType true (λ _, None) 0 Ok (λ _, KeepSubscription).

Definition exampleAddressWatch : ClientWatch Any :=
  mkClientWatch AddressType false (λ _, None) 0 Ok (λ _, ReleaseSubscription).

Definition exampleWatches : list (ClientWatch Any) := [exampleClusterWatch; exampleAddressWatch].

Lemma connectedClient_run : client_run exampleWatches (connectClient (startClient exampleWatches)).
Proof. apply connectClient_run; [|vm_compute; reflexivity]. apply startClient_run. vm_compute. reflexivity. Qed.

(** A caller asks for an address by an alias on an open stream. *)
Definition subscribedClient : ClientSystem Any :=
  flushWriter (acquireAs (connectClient (startClient exampleWatches)) AddressType "10.0.0.1" 7).

Lemma subscribedClient_run : client_run exampleWatches subscribedClient.
Proof.
  apply flushWriter_run; [|vm_compute; reflexivity..].
  apply acquireAs_run; [|vm_compute; reflexivity..].
  apply connectedClient_run.
Qed.

(** The caller gives it up. *)
Definition releasedClient : ClientSystem Any := flushWriter (releaseHandle subscribedClient 7).

Lemma releasedClient_run : client_run exampleWatches releasedClient.
Proof.
  apply flushWriter_run; [|vm_compute; reflexivity..]. apply releaseHandle_run, subscribedClient_run.
Qed.

(** The address arrives. *)
Definition addressResponse : DeltaResponse :=
  mkResponse "1" AddressType "1"
    [mkWireResource "uid-a" ["10.0.0.1"] "v" (Some (mkAny AddressType "a")) None] [].

Definition answeredClient : ClientSystem Any := acceptResponse subscribedClient addressResponse.

Lemma answeredClient_run : client_run exampleWatches answeredClient.
Proof. apply acceptResponse_run; [apply subscribedClient_run|vm_compute; reflexivity..]. Qed.

(** The clusters of a gateway's stream arrive. *)
Definition mirrorClient (responses : list DeltaResponse) : ClientSystem Any :=
  foldl acceptResponse (connectClient (startClient exampleWatches)) responses.

Fixpoint accepts (s : ClientSystem Any) (responses : list DeltaResponse) : bool :=
  match responses with
  | [] => true
  | r :: responses =>
      isWaiting s && isReceiving s && isOk (applyDecode (cs_client s) r) && accepts (acceptResponse s r) responses
  end.

Lemma accepts_run responses s :
  client_run exampleWatches s → accepts s responses = true → client_run exampleWatches (foldl acceptResponse s responses).
Proof.
  revert s. induction responses as [|r l IH]; intros s Hrun; [done|]. cbn. rewrite !andb_true_iff.
  intros [[[Hw Hr] Ho] Hl]. by apply IH; [apply acceptResponse_run|].
Qed.
