(* ===== verification/ClientTheorems.v ===== *)
(** * ClientTheorems: what the client promises its callers and the server
    (src/pkg/xdsclient with src/pkg/xds) *)

From S2P Require Import Prelude Identity Resource ResourceIndex ResourceSet SetInvariant SetQueries SetDiff Snapshot Update Notices Dependencies Watch Generator Generators Delta Requests Sending Selections Incremental Contract Selectors Session SessionTheorems Client ClientIndex ClientCache ClientSystem ClientInvariant ClientStreams ClientRequests ClientRuns ClientExamples.

(** ** Applying a response wakes every caller it answers
    (src/pkg/xdsclient/client.go, subscription.go)

    A caller that waits for a name looks again when its generation is notified. The names
    [apply] notifies are those it publishes, the aliases it touches and those it removes. *)

(** ** Notifications *)

Section waiters.
Context {V : Type}.
Implicit Types (st : typeState V) (c : Client V) (s : ClientSystem V).

(** Whether the loop publishes the resource, so that the subscription to its name is
    notified *)
Definition publishes (acc : typeState V * gset string) (p : WireResource * option V) : bool :=
  isSome p.2 && interested (removeResource acc.1 (wr_Name p.1)) (wr_Name p.1) (wr_Aliases p.1).

Fixpoint publishedNames (acc : typeState V * gset string) (values : list (WireResource * option V)) : list string :=
  match values with
  | [] => []
  | p :: values =>
      (if publishes acc p then [wr_Name p.1] else []) ++ publishedNames (applyOne acc p) values
  end.

(** The names [apply] notifies, if they are subscribed to *)
Definition notifiedNames (now : Z) st (r : DeltaResponse) (values : list (WireResource * option V)) : gset string :=
  let st := expireGraceLocked now st in
  list_to_set (publishedNames (startStream st (dp_Removed r)) values)
  ∪ (applied st r values).2 ∪ list_to_set (dp_Removed r).

(** What a caller that looks finds *)
Definition waitAnswer st (name : string) : waitResult (V:=V) :=
  if usable st then lookupLocked st name else WaitBlocked.

(** ** Names with nothing to find *)

Definition unknown st (name : string) : Prop :=
  owners st name = ∅ ∧ ts_resources st !! name = None ∧ name ∉ ts_removed st.

Lemma unknown_lookup st name : index_ok st → lookupLocked st name = WaitBlocked ↔ unknown st name.
Proof.
  intros Hok. pose proof (proj1 (io_index st Hok) name) as Ha. cbn in Ha. unfold lookupLocked, unknown. rewrite Ha.
  destruct (alias_entry_cases (owners st name)) as [(E & E1 & _)|[(n & E & E1 & _)|(E & E1 & _)]]; rewrite E1.
  - destruct (ts_resources st !! name); [naive_solver|]. case_decide; naive_solver.
  - assert (n ∈ owners st name) as Hn by (rewrite E; by apply elem_of_singleton).
    rewrite decide_False by (intros ->; by apply (owners_named st name Hok)).
    apply elem_of_owners in Hn as (l & Hl & _). apply elem_of_dom_2 in Hl.
    rewrite (io_dom st Hok), elem_of_dom in Hl. destruct Hl as [r Hr]. rewrite Hr. split; [done|].
    intros [E' _]. rewrite E' in E. exfalso. apply (not_elem_of_empty (C:=gset string) n). rewrite E. by apply elem_of_singleton.
  - rewrite decide_True by done. split; [done|]. intros [E' _]. rewrite E', size_empty in E. lia.
Qed.

Lemma remove_unknown st n name : unknown st name → unknown (removeResource st n) name.
Proof.
  intros (Ho & Hr & Hm). split_and!.
  - rewrite owners_remove, Ho. set_solver.
  - rewrite removeResource_resources. apply lookup_delete_None. by right.
  - by destruct (removeResource_frame st n) as (_ & _ & _ & -> & _).
Qed.

Lemma owners_publish st n l r name : name ∉ l → owners (publish st n l r) name ⊆ owners st name.
Proof.
  intros Hl x. rewrite !elem_of_owners, publish_resourceAliases. intros (l' & Hx & Ha).
  apply lookup_insert_Some in Hx as [[-> <-]|[_ Hx]]; [done|eauto].
Qed.

(** The loops keep a name unknown that they do not notify. *)
Lemma applyOne_unknown (acc : typeState V * gset string) p name :
  unknown acc.1 name → (publishes acc p = true → wr_Name p.1 ≠ name) → name ∉ (applyOne acc p).2 →
  unknown (applyOne acc p).1 name.
Proof.
  destruct acc as [st touched], p as [w [v|]]; unfold publishes; cbn; intros Hu Hp Ht; [|by apply remove_unknown].
  destruct (interested _ _ _); cbn in *; [|by apply remove_unknown]. specialize (Hp eq_refl).
  assert (name ∉ wr_Aliases w) as Hl by set_solver.
  destruct (remove_unknown st (wr_Name w) name Hu) as (Ho & Hr & Hm).
  set (st1 := removeResource st (wr_Name w)) in *. set (r := mkCached v (ts_epoch st1)).
  pose proof (owners_publish st1 (wr_Name w) (wr_Aliases w) r name Hl) as Hsub.
  pose proof (publish_resources st1 (wr_Name w) (wr_Aliases w) r) as Hres.
  destruct (publish_frame st1 (wr_Name w) (wr_Aliases w) r) as (_ & _ & _ & Hrm & _).
  unfold publish in Hsub, Hres, Hrm. split_and!; cbn.
  - apply leibniz_equiv, equiv_empty. intros x Hx. rewrite <-Ho. by apply Hsub.
  - by rewrite Hres, lookup_insert_ne.
  - rewrite Hrm. set_solver.
Qed.

Lemma applyOne_touched (acc : typeState V * gset string) p : acc.2 ⊆ (applyOne acc p).2.
Proof.
  destruct acc as [st touched], p as [w [v|]]; cbn; [|set_solver]. destruct (interested _ _ _); cbn; set_solver.
Qed.

Lemma touched_grows values (acc : typeState V * gset string) : acc.2 ⊆ (foldl applyOne acc values).2.
Proof.
  revert acc. induction values as [|p l IH]; intros acc; [done|]. etrans; [apply applyOne_touched|apply IH].
Qed.

Lemma values_unknown values (acc : typeState V * gset string) name :
  unknown acc.1 name → name ∉ publishedNames acc values → name ∉ (foldl applyOne acc values).2 →
  unknown (foldl applyOne acc values).1 name.
Proof.
  revert acc. induction values as [|p l IH]; intros acc Hu Hp Ht; [done|]. cbn in *.
  apply not_elem_of_app in Hp as [Hp1 Hp2]. apply IH; [|done|done]. apply applyOne_unknown; [done| |].
  - intros E. rewrite E in Hp1. intros <-. apply Hp1, list_elem_of_here.
  - intros Hin. apply Ht. by apply (touched_grows l (applyOne acc p)).
Qed.

Lemma removed_unknown names (acc : typeState V * gset string) name :
  unknown acc.1 name →
  unknown (foldl applyRemoved acc names).1 name ∧ acc.2 ⊆ (foldl applyRemoved acc names).2.
Proof.
  revert acc. induction names as [|n l IH]; intros [st touched] Hu; [done|]. cbn.
  destruct (IH (applyRemoved (st, touched) n)) as [H1 H2]; [by apply remove_unknown|]. split; [done|].
  etrans; [|exact H2]. cbn. set_solver.
Qed.

Lemma applied_unknown st r values name :
  unknown (startStream st (dp_Removed r)).1 name →
  name ∉ publishedNames (startStream st (dp_Removed r)) values → name ∉ (applied st r values).2 →
  unknown (applied st r values).1 name.
Proof.
  intros Hu Hp Ht. unfold applied in *. set (acc := startStream st (dp_Removed r)) in *.
  destruct (decide (name ∈ (foldl applyOne acc values).2)) as [Hin|Hn].
  - exfalso. apply Ht. assert (∀ names (a : typeState V * gset string), a.2 ⊆ (foldl applyRemoved a names).2) as Hg.
    { induction names as [|n l IH]; intros [st' t']; [done|]. cbn. etrans; [|apply IH]. cbn. set_solver. }
    by apply Hg.
  - by apply removed_unknown, values_unknown.
Qed.

(** *** Settling subscriptions *)

(** Deletions mark the names they are told, and leave the cache. *)
Lemma deleted_marks c typ n st :
  cl_types c !! typ = Some st →
  ∃ st', cl_types (deletedSubscription c typ n) !! typ = Some st' ∧ (∀ name, name ≠ n → unknown st name → unknown st' name)
    ∧ ts_aliases st' = ts_aliases st ∧ ts_sharedAliases st' = ts_sharedAliases st.
Proof.
  intros Ht. unfold deletedSubscription, endSubscription. rewrite Ht.
  destruct (ts_names st !! n) as [gen|]; [|by exists st]. destruct (cl_subs c !! gen) as [u|]; [|by exists st].
  case_decide; cbn; rewrite lookup_insert_eq; (eexists; split; [done|]; split; [|done]);
    intros name Hne (Ho & Hr & Hm); (split; [exact Ho|]; split; [exact Hr|]); cbn; set_solver.
Qed.

Lemma fold_marks {A} (f : Client V → A → Client V) (key : A → string) typ l c st name :
  (∀ c x st, cl_types c !! typ = Some st →
     ∃ st', cl_types (f c x) !! typ = Some st' ∧ (name ≠ key x → unknown st name → unknown st' name)) →
  cl_types c !! typ = Some st → name ∉ key <$> l → unknown st name →
  ∃ st', cl_types (foldl f c l) !! typ = Some st' ∧ unknown st' name.
Proof.
  intros Hf. revert c st. induction l as [|x l IH]; intros c st Ht Hn Hu; [by exists st|]. cbn in *.
  apply not_elem_of_cons in Hn as [Hx Hl]. destruct (Hf c x st Ht) as (st' & Ht' & Hu'). eapply IH; eauto.
Qed.

Lemma settled_unknown c r touched st name :
  cl_types c !! dp_TypeUrl r = Some st → unknown st name → name ∉ touched → name ∉ dp_Removed r →
  ∃ st', cl_types (settled c r touched) !! dp_TypeUrl r = Some st' ∧ unknown st' name.
Proof.
  intros Ht Hu Ht' Hr. unfold settled.
  destruct (fold_marks (settleAlias (dp_TypeUrl r)) id (dp_TypeUrl r) (elements touched) c st name)
    as (st1 & Ht1 & Hu1); [|done|by rewrite list_fmap_id, elem_of_elements|done|].
  - intros c0 x st0 Ht0. unfold settleAlias. rewrite Ht0. case_match; [by exists st0|].
    destruct (deleted_marks c0 (dp_TypeUrl r) x st0 Ht0) as (st' & ? & Hm & _). exists st'. split; [done|]. intros Hne. by apply Hm.
  - apply (fold_marks _ id (dp_TypeUrl r) (dp_Removed r) _ st1); [|done|by rewrite list_fmap_id|done].
    intros c0 x st0 Ht0. destruct (deleted_marks c0 (dp_TypeUrl r) x st0 Ht0) as (st' & ? & Hm & _). exists st'.
    split; [done|]. intros Hne. by apply Hm.
Qed.

(** C34: no caller sleeps through its answer. For a type that retains nothing over
    reconnects, when a response is applied, in whatever state callers, reader and writer
    are, a caller that waits for a name the response does not notify still has nothing to
    find afterwards: no value, no removal, no ambiguity. *)
Theorem client_wakes_waiters watches s now r values st name :
  client_run watches s → cs_reader s = ReaderDecoded r values →
  cl_types (cs_client s) !! dp_TypeUrl r = Some st → cw_ReconnectGrace (ts_watch st) = 0%Z →
  waitAnswer st name = WaitBlocked → name ∉ notifiedNames now st r values →
  ∃ st', cl_types (applyCommit now (cs_client s) r values) !! dp_TypeUrl r = Some st'
    ∧ usable st' = true ∧ waitAnswer st' name = WaitBlocked.
Proof.
  intros Hrun Hr Ht Hz Ha Hn. pose proof (client_run_inv watches s Hrun) as Hi.
  pose proof (co_types _ _ _ _ (ci_core s Hi) _ _ Ht) as Hok.
  pose proof (to_grace _ _ _ _ _ _ Hok Hz) as Hg. unfold notifiedNames in Hn. cbv zeta in Hn.
  assert (unknown (startStream (expireGraceLocked now st) (dp_Removed r)).1 name) as Hu.
  { rewrite expireGrace_none by done. unfold startStream. rewrite Hz, bool_decide_true by done.
    unfold waitAnswer, usable in Ha. rewrite Hg, orb_false_r in Ha. destruct (ts_synced st); cbn.
    - by apply unknown_lookup; [apply (to_index _ _ _ _ _ _ Hok)|].
    - split_and!; [|apply lookup_empty|apply not_elem_of_empty]. apply set_eq. intros n. rewrite elem_of_owners. cbn.
      setoid_rewrite lookup_empty. split; [by intros (? & ? & _)|by intros ?%not_elem_of_empty]. }
  rewrite !not_elem_of_union, !elem_of_list_to_set in Hn. destruct Hn as [[Hn1 Hn2] Hn3].
  pose proof (applied_unknown _ _ _ _ Hu Hn1 Hn2) as Hu'. destruct (ci_decoded s Hi r values Hr) as (watch & Hw & Hd).
  destruct (commit_core now _ _ _ _ _ _ _ (ci_core s Hi) Hw Hd) as (Hc & _).
  revert Hc. rewrite (applyCommit_sections now (cs_client s) r values st Ht). cbv zeta.
  set (p := applied (expireGraceLocked now st) r values) in *.
  destruct (settled_unknown (set_type (cs_client s) (dp_TypeUrl r) p.1) r p.2 p.1 name) as (st2 & Ht2 & Hu2);
    [apply lookup_insert_eq|done..|]. rewrite Ht2. intros Hc.
  eexists. split; [apply lookup_insert_eq|]. split; [done|]. unfold waitAnswer. cbn.
  apply unknown_lookup; [|done]. eapply (to_index _ _ _ _ _ _ (co_types _ _ _ _ Hc _ _ (lookup_insert_eq _ _ _))).
Qed.
End waiters.

(** A caller waits for one address while another arrives. *)
Definition decodedClient : ClientSystem Any :=
  match applyDecode (cs_client subscribedClient) addressResponse with
  | Ok values => set_reader subscribedClient (cs_client subscribedClient) (ReaderDecoded addressResponse values)
                   (cs_acks subscribedClient) (cs_in subscribedClient)
  | Err _ => subscribedClient
  end.

Definition addressValues : list (WireResource * option Any) :=
  match applyDecode (cs_client subscribedClient) addressResponse with Ok values => values | Err _ => [] end.

Lemma decodedClient_run : client_run exampleWatches decodedClient.
Proof.
  unfold decodedClient. destruct (applyDecode (cs_client subscribedClient) addressResponse) as [values|e] eqn:E;
    [|apply subscribedClient_run].
  eapply run_step; [apply subscribedClient_run|]. apply step_receive; [|vm_compute; reflexivity|exact E].
  vm_compute. discriminate.
Qed.

Lemma client_wakes_waiters_witness :
  ∃ st st', cl_types (cs_client decodedClient) !! AddressType = Some st
    ∧ elements (notifiedNames 0 st addressResponse addressValues) = ["uid-a"; "10.0.0.1"]
    ∧ cl_types (applyCommit 0 (cs_client decodedClient) addressResponse addressValues) !! AddressType = Some st'
    ∧ usable st' = true ∧ waitAnswer st' "10.0.0.2" = WaitBlocked.
Proof.
  assert ((λ st, (elements (notifiedNames 0 st addressResponse addressValues), cw_ReconnectGrace (ts_watch st),
      waitAnswer st "10.0.0.2")) <$> cl_types (cs_client decodedClient) !! AddressType
    = Some (["uid-a"; "10.0.0.1"], 0%Z, WaitBlocked)) as E by (vm_compute; reflexivity).
  destruct (cl_types (cs_client decodedClient) !! AddressType) as [st|] eqn:Ht; [|discriminate E].
  injection E as E1 E2 E3. exists st.
  destruct (client_wakes_waiters exampleWatches decodedClient 0 addressResponse addressValues st "10.0.0.2")
    as (st' & H); [exact decodedClient_run|vm_compute; reflexivity|exact Ht|exact E2|exact E3| |].
  - rewrite <-elem_of_elements, E1. intros Hin. repeat (apply elem_of_cons in Hin as [Hin|Hin]; [discriminate Hin|]).
    by apply elem_of_nil in Hin.
  - exists st'. split; [reflexivity|]. split; [exact E1|exact H].
Defined.

Section theorems.
Context {V : Type}.
Implicit Types (st : typeState V) (c : Client V) (s : ClientSystem V).

(** ** Subscriptions *)

(** The names of the server's watch are those the client was told. *)
Lemma told_names s typ st :
  client_inv s → cs_writer s ≠ WriterGone → cl_types (cs_client s) !! typ = Some st →
  ∃ t, cs_told s !! typ = Some t ∧ told_ok (cl_subs (cs_client s)) t st
    ∧ asked (serverWatch typ (cs_out s)) = (true, cw_Wildcard (ts_watch st), dom t).
Proof.
  intros Hi Hw Ht.
  destruct (ci_asked s Hi Hw typ (ts_watch st)) as (t & Htt & _ & Ha); [unfold watches_of; by rewrite lookup_fmap, Ht|].
  destruct (to_told _ _ _ _ _ _ (co_types _ _ _ _ (ci_core s Hi) _ _ Ht) (cs_told s)) as (t' & Htt' & Hto).
  { unfold told_of. by destruct (cs_writer s). }
  exists t. assert (t' = t) as -> by congruence. done.
Qed.

(** C15: no subscription is lost. Whatever callers, the reader and the writer do, once the
    writer waits without a token and the reader has replied, no reply is left and the
    server's watch of every type, computed by the server's own [applySubscription] from the
    requests of the stream, is a wildcard exactly if the client's is, and has exactly the
    names with an active subscription: all of them, where nothing is retained over
    reconnects. *)
Theorem client_subscriptions_told watches s :
  client_run watches s → cs_writer s = WriterWaits → cl_wake (cs_client s) = false → cs_reader s = ReaderReceives →
  cs_acks s = ∅
  ∧ ∀ typ st, cl_types (cs_client s) !! typ = Some st →
      ws_wildcard (serverWatch typ (cs_out s)) = cw_Wildcard (ts_watch st)
      ∧ (∀ name, name ∈ ws_names (serverWatch typ (cs_out s)) ↔
           ∃ gen, ts_names st !! name = Some gen ∧ isActive (cl_subs (cs_client s)) gen = true)
      ∧ (cw_ReconnectGrace (ts_watch st) = 0%Z → ws_names (serverWatch typ (cs_out s)) = dom (ts_names st)).
Proof.
  intros Hrun Hw Hk Hr. pose proof (client_run_inv watches s Hrun) as Hi. split.
  { destruct (ci_acks s Hi) as [?|[?|[?|?]]]; [done|congruence..]. }
  intros typ st Ht. destruct (told_names s typ st Hi) as (t & _ & [Hto _] & Ha); [congruence|done|].
  injection Ha as _ -> ->. destruct (ci_alert s Hi Hw) as [?|Hp]; [congruence|]. specialize (Hp _ _ Ht).
  assert (t = activeNames (cl_subs (cs_client s)) st) as ->.
  { apply map_eq. intros name. destruct (decide (t !! name = activeNames (cl_subs (cs_client s)) st !! name)) as [|Hne]; [done|].
    specialize (Hto name Hne). rewrite Hp in Hto. by apply not_elem_of_empty in Hto. }
  assert (∀ name, name ∈ dom (activeNames (cl_subs (cs_client s)) st) ↔
    ∃ gen, ts_names st !! name = Some gen ∧ isActive (cl_subs (cs_client s)) gen = true) as Hact.
  { intros name. rewrite elem_of_dom. unfold is_Some. by setoid_rewrite activeNames_lookup. }
  split_and!; [done|done|]. intros Hz. apply set_eq. intros name. rewrite Hact, elem_of_dom. split.
  - intros (gen & Hn & _). eauto.
  - intros [gen Hn]. exists gen. split; [done|].
    by eapply (to_active _ _ _ _ _ _ (co_types _ _ _ _ (ci_core s Hi) _ _ Ht)).
Qed.

(** ** Requests *)

(** Every name a request gives up, the server's watch has. *)
Definition orderly_log (out : list DeltaRequest) : Prop :=
  ∀ l1 q l2 x, out = l1 ++ q :: l2 → x ∈ dr_Unsubscribe q → x ≠ "*" → x ∈ ws_names (serverWatch (dr_TypeUrl q) l1).

Lemma orderly_log_app out new :
  orderly_log out → NoDup (dr_TypeUrl <$> new) →
  (∀ q x, q ∈ new → x ∈ dr_Unsubscribe q → x ≠ "*" → x ∈ ws_names (serverWatch (dr_TypeUrl q) out)) →
  orderly_log (out ++ new).
Proof.
  intros Ho Hnd Hnew l1 q l2 x E Hx Hs. apply app_eq_app in E as (k & [[-> E]|[-> E]]).
  - destruct k as [|q' k]; cbn in E; [|by injection E as <- ->; eapply Ho].
    subst new. rewrite (right_id_L [] (++)) in *. apply (Hnew q x); [apply list_elem_of_here|done..].
  - subst new. rewrite serverWatch_app. assert (base.filter (λ r, dr_TypeUrl r = dr_TypeUrl q) k = []) as ->.
    { destruct (base.filter _ k) as [|r l] eqn:E; [done|]. exfalso.
      assert (r ∈ base.filter (λ r, dr_TypeUrl r = dr_TypeUrl q) k) as Hr by (rewrite E; apply list_elem_of_here).
      apply list_elem_of_filter in Hr as [Er Hr]. rewrite fmap_app in Hnd. apply NoDup_app in Hnd as (_ & Hnd & _).
      apply (Hnd (dr_TypeUrl r)); [by apply list_elem_of_fmap_2|]. rewrite Er. cbn. apply list_elem_of_here. }
    cbn. apply (Hnew q x); [apply elem_of_app; right; apply list_elem_of_here|done..].
Qed.

Lemma initial_distinct c : NoDup (dr_TypeUrl <$> (initialRequests c).2).
Proof.
  unfold initialRequests. cbn [snd]. set (l := _ <$> map_to_list (cl_types c)).
  assert (sort_on dr_TypeUrl l ≡ₚ l) as -> by apply isort_Permutation.
  assert (dr_TypeUrl <$> l = (map_to_list (cl_types c)).*1) as ->; [|apply NoDup_fst_map_to_list].
  subst l. rewrite <-list_fmap_compose. apply list_fmap_ext. intros i [typ st] _. apply initialRequest_type.
Qed.

(** What a batch gives up, the server's watch has. *)
Lemma batch_gives_up s batch typ q x :
  client_inv s → cs_writer s = WriterBatch batch →
  foldl mergeReply batch (pendingRequests (cs_client s) (cs_told s)).2 !! typ = Some q →
  x ∈ dr_Unsubscribe q → x ∈ ws_names (serverWatch typ (cs_out s)).
Proof.
  intros Hi Hw Hq Hx. destruct (ci_replies s Hi) as [_ Hb]. specialize (Hb batch Hw).
  destruct (cl_types (cs_client s) !! typ) as [st|] eqn:Ht.
  - destruct (told_names s typ st Hi) as (t & Htt & _ & Ha); [congruence|done|]. injection Ha as _ _ ->.
    pose proof (batch_request (cs_client s) (cs_told s) batch typ st Ht Hb) as Hbr. cbv zeta in Hbr.
    rewrite Hq, Htt in Hbr. destruct Hbr as (_ & _ & Eu). change (default ∅ (Some t)) with t in Eu.
    assert (x ∈ pendingUnsubscribe t st) as Hu by (rewrite <-Eu; by apply elem_of_list_to_set).
    unfold pendingUnsubscribe in Hu. apply elem_of_filter in Hu as [[_ Hu]%andb_true_iff _].
    apply elem_of_dom. destruct (t !! x); [eauto|done].
  - exfalso. destruct (mergeReply_fold (pendingRequests (cs_client s) (cs_told s)).2 batch typ) as [_ H2].
    { apply requests_distinct, NoDup_fst_map_to_list. }
    rewrite H2 in Hq.
    + destruct (Hb _ _ Hq) as (_ & _ & Hu). rewrite Hu in Hx. by apply elem_of_nil in Hx.
    + intros (r & Er & Hr)%list_elem_of_fmap. apply list_elem_of_omap in Hr as ([typ' st'] & Hin & Hr).
      apply pendingRequest_type in Hr. cbn in Hr. apply elem_of_map_to_list in Hin. congruence.
Qed.

Lemma run_orderly watches s : client_run watches s → orderly_log (cs_out s).
Proof.
  assert (orderly_log []) as Hnil by (intros [|??] q l2 x E; discriminate E).
  induction 1 as [c Hc|s s' Hrun IH Hstep]; [done|]. pose proof (client_run_inv watches s Hrun) as Hi.
  destruct Hstep as [| | | | | |s c' told reqs Hw E| | | |s batch c' told reqs Hw E| | | | | |]; try exact IH; [| |done].
  - change (orderly_log ([] ++ reqs)). assert (reqs = (initialRequests (cs_client s)).2) as -> by by rewrite E.
    apply orderly_log_app; [done|apply initial_distinct|].
    intros q x Hq Hx Hs. apply elem_of_sort_on, list_elem_of_fmap in Hq as ([typ st] & -> & _). exfalso.
    unfold initialRequest in Hx. repeat case_match; cbn in Hx; set_solver.
  - pose proof (final_keys (cs_client s) (cs_told s) batch (proj2 (ci_replies s Hi) batch Hw)) as Hk.
    assert (reqs = (pendingRequests (cs_client s) (cs_told s)).2) as -> by by rewrite E.
    pose proof (λ typ q x, batch_gives_up s batch typ q x Hi Hw) as Hg. cbn [cs_out].
    set (final := foldl mergeReply batch _) in *. clearbody final. apply orderly_log_app; [done| |].
    + assert (dr_TypeUrl <$> (map_to_list final).*2 = (map_to_list final).*1) as ->; [|apply NoDup_fst_map_to_list].
      rewrite <-list_fmap_compose. apply list_fmap_ext. intros i [typ r] Hin. cbn.
      apply Hk, elem_of_map_to_list. by eapply list_elem_of_lookup_2.
    + intros q x ([typ q'] & -> & Hq%elem_of_map_to_list)%list_elem_of_fmap Hx _. cbn in *.
      rewrite (Hk _ _ Hq). by eapply Hg.
Qed.

(** C33: the client keeps the server's precondition. Take any run of a client, however
    callers acquire, wait and release, and however streams break and reopen, and a request
    that it sent on the current stream. Every name the request gives up, the wildcard apart,
    is among the names of the server's watch of the type, when the watch was given the
    requests sent before on the stream. This is what the sessions of the server assume of
    their clients ([orderly]). *)
Theorem client_requests_orderly watches s before request after name :
  client_run watches s → cs_out s = before ++ request :: after →
  name ∈ dr_Unsubscribe request → name ≠ "*" →
  name ∈ ws_names (serverWatch (dr_TypeUrl request) before).
Proof. intros Hrun E Hn Hs. by eapply run_orderly. Qed.

(** ** Handles *)

(** A handle holds its subscription. While a handle is not released, its generation has
    an owner and was not released: unless the server's deletion ended it, the name is
    subscribed to with this generation. *)
Theorem client_handles_hold watches s h gen :
  client_run watches s → cs_handles s !! h = Some gen →
  ∃ typ name st u, cs_gens s !! gen = Some (typ, name) ∧ cl_types (cs_client s) !! typ = Some st
    ∧ cl_subs (cs_client s) !! gen = Some u ∧ (0 < su_owners u)%Z
    ∧ su_err u ≠ Some "xDS subscription released"
    ∧ (su_err u = None → ts_names st !! name = Some gen).
Proof.
  intros Hrun Hh. pose proof (client_run_inv watches s Hrun) as Hi.
  destruct (ci_issued s Hi h gen Hh) as [[typ name] Hg].
  destruct (co_gens _ _ _ _ (ci_core s Hi) _ _ _ Hg) as (st & u & Ht & Hu & Hl).
  destruct (ci_handles s Hi gen) as [E1 E2]. unfold owner_view in E1, E2. rewrite Hu in E1, E2. cbn in E1, E2.
  rewrite (handles_drop _ h gen gen Hh), decide_True in E1, E2 by done.
  exists typ, name, st, u. split_and!; [done..|lia| |done].
  intros He. rewrite He, bool_decide_true in E2 by done. specialize (E2 eq_refl). lia.
Qed.

(** ** Reads *)

(** Names resolve as the cached resources of a usable type say. *)
Definition resolves st (name : string) (answer : waitResult (V:=V)) : Prop :=
  (∀ n, owners st name = {[n]} → ∃ r, ts_resources st !! n = Some r ∧ answer = WaitValue r)
  ∧ (∀ n m, n ≠ m → n ∈ owners st name → m ∈ owners st name →
       answer = WaitError "ambiguous resource alias")
  ∧ (owners st name = ∅ → answer =
       match ts_resources st !! name with
       | Some r => WaitValue r
       | None => if decide (name ∈ ts_removed st) then WaitError "xDS resource removed or unavailable" else WaitBlocked
       end).

Lemma lookup_resolves st name : index_ok st → resolves st name (lookupLocked st name).
Proof.
  intros Hok. pose proof (proj1 (io_index st Hok) name) as Ha. cbn in Ha.
  unfold resolves, lookupLocked. rewrite Ha. split_and!.
  - intros n E. rewrite E, alias_entry_singleton.
    assert (n ∈ owners st name) as Hn by set_solver.
    rewrite decide_False by (intros ->; by apply (owners_named st name Hok)).
    apply elem_of_owners in Hn as (l & Hl & _). apply elem_of_dom_2 in Hl.
    rewrite (io_dom st Hok), elem_of_dom in Hl. destruct Hl as [r Hr]. exists r. by rewrite Hr.
  - intros n m Hne Hn Hm. destruct (entries_shared (owners st name)) as [-> _]; [by apply (size_pair n m)|done].
  - intros E. by rewrite E, alias_entry_empty.
Qed.

(** An activation leaves the cache of the type. *)
Lemma activate_cache c typ st name gen :
  cl_types c !! typ = Some st → index_ok st →
  ∃ st', cl_types (activateLocked c typ st name gen) !! typ = Some st' ∧ index_ok st'
    ∧ ts_synced st' = ts_synced st ∧ ts_resources st' = ts_resources st
    ∧ ts_removed st' = ts_removed st ∧ ts_graceUntil st' = ts_graceUntil st
    ∧ owners st' name = owners st name.
Proof.
  intros Ht Hok. unfold activateLocked. destruct (cl_subs c !! gen) as [u|]; [|by exists st].
  destruct (su_active u); [by exists st|]. cbn. rewrite lookup_insert_eq.
  eexists. split; [done|]. split; [|done]. by eapply index_ok_cong; [..|exact Hok].
Qed.

(** C32: what a caller that waits for a name gets. In every state of a client, when a caller
    looks at its subscription to a name, it gets the error of a subscription that has ended,
    or the error of its own handle if that was released. Otherwise, if the type is neither
    synchronized nor in the grace after a disconnect (whose expiry the call itself applies),
    it waits, whatever is cached; and else the cache of the type decides: a name that one
    cached resource has as an alias gives that resource, which is there; a name that several
    have is an error; any other name gives the resource of the name, else the removal if the
    server announced one, else the caller waits. Outside a grace, the cache is the one the
    call found. *)
Theorem client_resolution watches s now typ st u name gen released :
  client_run watches s → cs_gens s !! gen = Some (typ, name) →
  cl_types (cs_client s) !! typ = Some st → cl_subs (cs_client s) !! gen = Some u →
  let '(c, answer) := waitLocked now (cs_client s) typ name gen released in
  match su_err u with
  | Some e => answer = WaitError e
  | None =>
      if released then answer = WaitError "xDS subscription released" else
      ∃ st', cl_types c !! typ = Some st' ∧ ts_synced st' = ts_synced st
        ∧ ts_removed st' = ts_removed st
        ∧ (ts_graceUntil st = None → ts_graceUntil st' = None
             ∧ ts_resources st' = ts_resources st ∧ owners st' name = owners st name)
        ∧ if ts_synced st' || isSome (ts_graceUntil st')
          then resolves st' name answer else answer = WaitBlocked
  end.
Proof.
  intros Hrun Hg Ht Hu. pose proof (client_run_inv watches s Hrun) as Hi.
  pose proof (to_index _ _ _ _ _ _ (co_types _ _ _ _ (ci_core s Hi) _ _ Ht)) as Hok.
  unfold waitLocked. rewrite Hu, Ht. destruct (su_err u) as [e|]; [done|]. destruct released; [done|].
  destruct (activate_cache _ typ st name gen Ht Hok) as (st1 & Ht1 & Hok1 & Es & Er & Em & Eg & Eo).
  rewrite Ht1. cbn [default from_option id]. set (c2 := set_type _ typ (expireGraceLocked now st1)).
  destruct (expireGrace_frame now st1) as (_ & _ & _ & Fm & Fs & _ & HI). specialize (HI Hok1).
  set (st2 := expireGraceLocked now st1) in *.
  assert (cl_types c2 !! typ = Some st2) as Ht2 by (cbn; apply lookup_insert_eq).
  assert (ts_synced st2 = ts_synced st ∧ ts_removed st2 = ts_removed st
    ∧ (ts_graceUntil st = None → ts_graceUntil st2 = None ∧ ts_resources st2 = ts_resources st
         ∧ owners st2 name = owners st name))
    as (Gs & Gm & Gg).
  { split_and!; [congruence..|]. intros E. unfold st2. rewrite expireGrace_none by congruence. split_and!; congruence. }
  pose proof (lookup_resolves st2 name HI) as Hres. 
  destruct (usable st2) eqn:Hus; unfold usable in Hus; [destruct (lookupLocked st2 name) eqn:Hl|].
  1-2: by exists st2; rewrite Hus.
  all: exists st2; rewrite Hus; split_and!; [|done..]; by destruct (cl_subs c2 !! gen).
Qed.

(** ** The mirror of the server *)

(** What the server records it sent for the responses of a stream *)
Definition sentVersions (rs : list DeltaResponse) : gmap string string := foldl (λ m r, recordSent m false r) ∅ rs.

Lemma delivered_versions rs : sentVersions rs = wr_Version <$> delivered rs.
Proof.
  unfold sentVersions, delivered. rewrite <-(fmap_empty wr_Version). generalize (∅ : gmap string WireResource).
  induction rs as [|r rs IH]; intros m; [done|]. cbn [foldl]. rewrite <-IH. f_equal. unfold deliver, recordSent.
  assert (∀ names (m : gmap string WireResource),
    foldl (λ (m : gmap string string) name, delete name m) (wr_Version <$> m) names
    = wr_Version <$> foldl (λ (m : gmap string WireResource) name, delete name m) m names) as ->.
  { induction names as [|n l IHl]; intros m'; [done|]. cbn. by rewrite <-IHl, fmap_delete. }
  generalize (foldl (λ (m : gmap string WireResource) name, delete name m) m (dp_Removed r)).
  induction (dp_Resources r) as [|w l IHl]; intros m'; [done|]. cbn. by rewrite <-IHl, fmap_insert.
Qed.

Lemma delivered_name rs x w : delivered rs !! x = Some w → wr_Name w = x.
Proof.
  unfold delivered. assert (∀ y w, (∅ : gmap string WireResource) !! y = Some w → wr_Name w = y) as H0
    by (intros ? ?; by rewrite lookup_empty).
  revert H0 x w. generalize (∅ : gmap string WireResource). induction rs as [|r rs IH]; intros m Hm; [done|]. cbn. apply IH.
  unfold deliver. assert (∀ y w, foldl (λ (m : gmap string WireResource) name, delete name m) m (dp_Removed r) !! y = Some w
    → wr_Name w = y) as Hd.
  { clear IH. revert m Hm. induction (dp_Removed r) as [|n l IHl]; intros m Hm; [done|]. cbn. apply IHl.
    intros y w [_ Hy]%lookup_delete_Some. by apply Hm. }
  revert Hd. generalize (foldl (λ (m : gmap string WireResource) name, delete name m) m (dp_Removed r)).
  clear. induction (dp_Resources r) as [|w l IHl]; intros m Hm; [done|]. cbn. apply IHl.
  intros y w' [[<- <-]|[_ Hy]]%lookup_insert_Some; [done|by apply Hm].
Qed.

(** A synchronized wildcard cache has the versions the server recorded. *)
Lemma wildcard_mirror watches s typ st :
  client_run watches s → cl_types (cs_client s) !! typ = Some st →
  cw_Wildcard (ts_watch st) = true → ts_synced st = true →
  mirrors (ts_watch st) (ts_resources st) (delivered (responsesOf typ (cs_in s))).
Proof.
  intros Hrun Ht Hw Hs. pose proof (client_run_inv watches s Hrun) as Hi.
  pose proof (to_mirror _ _ _ _ _ _ (co_types _ _ _ _ (ci_core s Hi) _ _ Ht) Hw) as Hm.
  unfold holds, mirror_of in Hm. by rewrite Hs in Hm.
Qed.

(** C6: client and server agree. Take a session of a client that is no dedicated node proxy,
    for a type whose resources come from the snapshot alone (none of addresses, workloads,
    authorizations, traffic policies, sandboxes, secrets and extension configurations),
    under the conditions of a converging stream: in every state the resources of the type
    have wire names and versions, two resources of the client's scope have different wire
    names, and a subscribed name is no resource's key name unless it selects the resource; a
    resource that keeps its key and hash over a publication is the same; the client
    unsubscribes only from names it is subscribed to, or from the wildcard; and no handler
    has failed, which would end the stream. Let nothing of the type wait, and let the
    versions that the server's watch records be those of the responses that a client
    accepted on its stream, over any interleaving of decoding and callers. A synchronized
    wildcard cache then holds exactly the names of the snapshot's resources that belong to
    the scope and that the server's watch selects, and each cached value is decoded from a
    response with the version that the snapshot has. *)
Theorem client_mirrors_snapshot `{Codec} `{AddressCodec} source secrets T send scope session w watches s st :
  snapshotType T → cs_Class scope ≠ ClientDedicatedZTunnel →
  gateway_run source secrets T send scope session → quiet T session →
  st_watches (se_stream session) !! T = Some w →
  client_run watches s → cl_types (cs_client s) !! T = Some st →
  cw_Wildcard (ts_watch st) = true → ts_synced st = true →
  ws_sent w = sentVersions (responsesOf T (cs_in s)) →
  (∀ x, is_Some (ts_resources st !! x) ↔
     ∃ r, contains (se_snapshot session) T r ∧ scopeAllows scope r = true
       ∧ allows (newSubscriptionView w) r = true ∧ XDSName r = x)
  ∧ ∀ x cached, ts_resources st !! x = Some cached →
      ∃ r wire, contains (se_snapshot session) T r ∧ XDSName r = x
        ∧ wr_Name wire = x ∧ wr_Version wire = Hash r ∧ decodes (ts_watch st) wire (cr_Value cached).
Proof.
  intros HT Hclass Hrun Hq Hw Hcrun Ht Hwild Hs Hsent.
  pose proof (wildcard_mirror watches s T st Hcrun Ht Hwild Hs) as Hm.
  rewrite delivered_versions in Hsent. pose proof (gateway_versions source secrets T send scope session w HT Hclass Hrun Hq Hw) as Hv.
  assert (∀ x, is_Some (ts_resources st !! x) ↔ is_Some (ws_sent w !! x)) as Hdom.
  { intros x. rewrite Hsent, lookup_fmap, fmap_is_Some. specialize (Hm x).
    destruct (ts_resources st !! x), (delivered _ !! x); split; eauto; by intros [? ?]. }
  split.
  - intros x. rewrite Hdom. split.
    + intros [v (r & ? & ? & ? & ? & _)%Hv]. exists r. done.
    + intros (r & ? & ? & ? & ?). exists (Hash r). apply Hv. by exists r.
  - intros x cached Hx. specialize (Hm x). rewrite Hx in Hm.
    destruct (delivered (responsesOf T (cs_in s)) !! x) as [wire|] eqn:Ed; [|done].
    destruct (Hv x (wr_Version wire)) as [(r & ? & _ & _ & ? & ?) _]; [by rewrite Hsent, lookup_fmap, Ed|].
    exists r, wire. split_and!; [done|done|by eapply delivered_name|done|done].
Qed.

(** The client accepts what the server validates. A response made from a delta that
    the server's [validateGeneratedDelta] lets through is accepted by the client's
    [validateResponse], if its resources have no empty alias and no alias named like the
    wildcard, do not expire, and are valid for the watch. *)
Theorem server_responses_accepted T now d wire removed version nonce (watch : ClientWatch V) :
  validateGeneratedDelta T now d = Ok (wire, removed) →
  (∀ r, r ∈ gd_Resources d → Forall alias_valid (Aliases r) ∧ gd_expiresAt d !! XDSName r = None
     ∧ ∀ value, Value r = Some value → cw_Validate watch value = None) →
  validateResponse (mkResponse version T nonce wire removed) watch = Ok ().
Proof.
  intros Hv Hr. destruct (decide (delta_ok T d)) as [Hok|Hno]; last first.
  { destruct (validateGeneratedDelta_refused T now d Hno) as [e He]. congruence. }
  rewrite (validateGeneratedDelta_accepted T now d Hok) in Hv. injection Hv as <- <-.
  destruct (response_distinct T now d Hok) as (H1 & H2 & H3). apply validateResponse_ok.
  assert (∀ n, blank n = false → n ≠ "") as Hblank by (intros n Hb ->; by rewrite blank_empty in Hb).
  destruct Hok as (Hs & _ & Hrem & _). split; cbn.
  - apply Forall_forall. intros x (r & Hin & _ & ->)%elem_of_wires. destruct (Hr r Hin) as (Ha & Ht & Hva).
    specialize (Hs r Hin). unfold servable in Hs. unfold wire_ok. cbn. rewrite Ht.
    destruct (Value r) as [value|] eqn:Ev; [|naive_solver]. split_and!; [naive_solver|done|done|].
    exists value. split_and!; [done|naive_solver|by apply Hva].
  - apply Forall_forall. intros n [Hn|(r & Hin & _ & <-)]%elem_of_removals; [by apply Hblank, Hrem|].
    specialize (Hs r Hin). unfold servable in Hs. apply Hblank. naive_solver.
  - unfold responseNames. cbn. apply NoDup_app. split_and!; [by apply ssorted_NoDup| |by apply ssorted_NoDup].
    intros x Hx Hx'. by apply (H3 x).
Qed.
End theorems.

(** ** Concrete runs *)

Lemma client_subscriptions_told_witness :
  let s := subscribedClient in
  elements (ws_names (serverWatch AddressType (cs_out s))) = ["10.0.0.1"]
  ∧ cs_acks s = ∅
  ∧ ∀ typ st, cl_types (cs_client s) !! typ = Some st →
      ws_wildcard (serverWatch typ (cs_out s)) = cw_Wildcard (ts_watch st)
      ∧ (∀ name, name ∈ ws_names (serverWatch typ (cs_out s)) ↔
           ∃ gen, ts_names st !! name = Some gen ∧ isActive (cl_subs (cs_client s)) gen = true)
      ∧ (cw_ReconnectGrace (ts_watch st) = 0%Z → ws_names (serverWatch typ (cs_out s)) = dom (ts_names st)).
Proof.
  split; [vm_compute; reflexivity|].
  apply (client_subscriptions_told exampleWatches subscribedClient); [apply subscribedClient_run|..]; vm_compute; reflexivity.
Defined.

Lemma client_handles_hold_witness :
  let s := subscribedClient in
  ∃ gen typ name st u, cs_handles s !! 7 = Some gen ∧ cs_gens s !! gen = Some (typ, name)
    ∧ cl_types (cs_client s) !! typ = Some st ∧ cl_subs (cs_client s) !! gen = Some u ∧ (0 < su_owners u)%Z
    ∧ su_err u ≠ Some "xDS subscription released" ∧ (su_err u = None → ts_names st !! name = Some gen).
Proof.
  intros s. assert (cs_handles s !! 7 = Some 0) as Hh by (vm_compute; reflexivity).
  destruct (client_handles_hold exampleWatches s 7 0 subscribedClient_run Hh) as (typ & name & st & u & H).
  exists 0, typ, name, st, u. exact (conj Hh H).
Defined.

(** A caller that waits for the address finds the resource that has it as an alias. *)
Lemma client_resolution_witness :
  ∃ gen st, cs_gens answeredClient !! gen = Some (AddressType, "10.0.0.1")
    ∧ cl_types (cs_client answeredClient) !! AddressType = Some st ∧ ts_synced st = true
    ∧ ∃ r, ts_resources st !! "uid-a" = Some r
        ∧ (waitLocked 0 (cs_client answeredClient) AddressType "10.0.0.1" gen false).2 = WaitValue r.
Proof.
  assert ((λ st, (ts_synced st, isSome (ts_graceUntil st), elements (owners st "10.0.0.1")))
      <$> cl_types (cs_client answeredClient) !! AddressType = Some (true, false, ["uid-a"]))
    as E by (vm_compute; reflexivity).
  assert (su_err <$> cl_subs (cs_client answeredClient) !! 0 = Some None) as Eu by (vm_compute; reflexivity).
  destruct (cl_types (cs_client answeredClient) !! AddressType) as [st|] eqn:Ht; [|discriminate E].
  destruct (cl_subs (cs_client answeredClient) !! 0) as [u|] eqn:Hu; [|discriminate Eu].
  injection E as Es Eg Eo. injection Eu as Eu. exists 0, st.
  assert (cs_gens answeredClient !! 0 = Some (AddressType, "10.0.0.1")) as Hg by (vm_compute; reflexivity).
  pose proof (client_resolution exampleWatches answeredClient 0 AddressType st u "10.0.0.1" 0 false
    answeredClient_run Hg Ht Hu) as H.
  split; [exact Hg|]. split; [reflexivity|]. split; [exact Es|].
  destruct (waitLocked 0 (cs_client answeredClient) AddressType "10.0.0.1" 0 false) as [c answer].
  rewrite Eu in H. destruct H as (st' & _ & Hs & _ & Hgr & Hres). rewrite Hs, Es in Hres.
  destruct Hgr as (_ & Hr & Ho); [destruct (ts_graceUntil st); [discriminate Eg|reflexivity]|].
  destruct Hres as [H1 _]. rewrite <-Hr. apply (H1 "uid-a"). rewrite Ho.
  apply set_eq. intros x. rewrite <-elem_of_elements, Eo, elem_of_singleton, list_elem_of_singleton. reflexivity.
Defined.

Lemma client_requests_orderly_witness :
  ∃ before request, cs_out releasedClient = before ++ [request]
    ∧ dr_Unsubscribe request = ["10.0.0.1"]
    ∧ "10.0.0.1" ∈ ws_names (serverWatch (dr_TypeUrl request) before).
Proof.
  set (request := mkRequest AddressType [] ["10.0.0.1"] ∅ "" None).
  assert (cs_out releasedClient = cs_out subscribedClient ++ [request]) as E by (vm_compute; reflexivity).
  exists (cs_out subscribedClient), request. split; [exact E|]. split; [reflexivity|].
  apply (client_requests_orderly exampleWatches releasedClient (cs_out subscribedClient) request []);
    [apply releasedClient_run|exact E|apply list_elem_of_here|discriminate].
Defined.

Lemma server_responses_accepted_witness :
  ∃ wire removed,
    validateGeneratedDelta ClusterType 0 (deltaOf (ListType clustersBefore ClusterType) ["z"]) = Ok (wire, removed)
    ∧ validateResponse (mkResponse "1" ClusterType "1" wire removed) exampleClusterWatch = Ok ().
Proof.
  destruct (validateGeneratedDelta ClusterType 0 (deltaOf (ListType clustersBefore ClusterType) ["z"]))
    as [[wire removed]|e] eqn:E; [|vm_compute in E; discriminate E].
  exists wire, removed. split; [reflexivity|]. apply (server_responses_accepted ClusterType 0
    (deltaOf (ListType clustersBefore ClusterType) ["z"]) wire removed "1" "1" exampleClusterWatch E).
  intros r Hr. split; [|split; [apply lookup_empty|done]].
  assert (Forall (λ r, Aliases r = []) (ListType clustersBefore ClusterType)) as Ha by (vm_compute; by repeat constructor).
  rewrite (proj1 (Forall_forall _ _) Ha r Hr). constructor.
Defined.

(** The responses of the gateway's stream *)
Definition gatewayResponses : list DeltaResponse := st_output (se_stream exampleGatewaySession).

Lemma client_mirrors_snapshot_witness :
  ∃ w st, st_watches (se_stream exampleGatewaySession) !! ClusterType = Some w
    ∧ cl_types (cs_client (mirrorClient gatewayResponses)) !! ClusterType = Some st
    ∧ elements (dom (ts_resources st)) = ["a"; "d"]
    ∧ ∀ x, is_Some (ts_resources st !! x) ↔
        ∃ r, contains (se_snapshot exampleGatewaySession) ClusterType r ∧ scopeAllows gatewayScope r = true
          ∧ allows (newSubscriptionView w) r = true ∧ XDSName r = x.
Proof.
  set (s := mirrorClient gatewayResponses).
  assert (client_run exampleWatches s) as Hs.
  { apply accepts_run; [apply connectedClient_run|vm_compute; reflexivity]. }
  assert ((λ st, (elements (dom (ts_resources st)), cw_Wildcard (ts_watch st), ts_synced st))
    <$> cl_types (cs_client s) !! ClusterType = Some (["a"; "d"], true, true)) as E by (vm_compute; reflexivity).
  assert (match st_watches (se_stream exampleGatewaySession) !! ClusterType with
          | Some w => ws_sent w = sentVersions (responsesOf ClusterType (cs_in s))
          | None => False
          end) as Ew by (vm_compute; reflexivity).
  destruct (cl_types (cs_client s) !! ClusterType) as [st|] eqn:Ht; [|discriminate E].
  destruct (st_watches (se_stream exampleGatewaySession) !! ClusterType) as [w|] eqn:Hw; [|destruct Ew].
  injection E as E1 E2 E3. exists w, st. split; [reflexivity|]. split; [reflexivity|]. split; [exact E1|].
  destruct exampleGateway_run as [Hrun Hq].
  apply (client_mirrors_snapshot None (λ _, Err "no certificates") ClusterType accept gatewayScope exampleGatewaySession
    w exampleWatches s st); [exact clusters_snapshotType|discriminate|exact Hrun|exact Hq|exact Hw|exact Hs|exact Ht|exact E2|exact E3|exact Ew].
Defined.
