(* ===== verification/Netip.v ===== *)
(** * Internet addresses

    The part of Go's net/netip that the policy engine uses: addresses, address and port
    pairs, and prefixes. An address is kept as the number its bytes spell. *)

From S2P Require Import Prelude.

(** [netip.Addr]: the zero value, an IPv4 address, or an IPv6 address with its zone. *)
Inductive Addr :=
| AddrZero
| Addr4 (ip : Z)
| Addr6 (ip : Z) (zone : string).

#[export] Instance Addr_eq_dec : EqDecision Addr.
Proof. solve_decision. Defined.

#[export] Instance Addr_countable : Countable Addr.
Proof.
  refine (inj_countable'
    (λ a, match a with
          | AddrZero => None
          | Addr4 ip => Some (inl ip)
          | Addr6 ip zone => Some (inr (ip, zone))
          end)
    (λ x, match x with
          | None => AddrZero
          | Some (inl ip) => Addr4 ip
          | Some (inr (ip, zone)) => Addr6 ip zone
          end) _).
  by intros [].
Defined.

Definition Addr_IsValid (a : Addr) : bool :=
  match a with AddrZero => false | _ => true end.

Definition Addr_Is4 (a : Addr) : bool :=
  match a with Addr4 _ => true | _ => false end.

Definition Addr_Zone (a : Addr) : string :=
  match a with Addr6 _ zone => zone | _ => "" end.

(** An IPv4-mapped IPv6 address: ::ffff:0:0/96. *)
Definition Addr_Is4In6 (a : Addr) : bool :=
  match a with
  | Addr6 ip _ => (Z.shiftr ip 32 =? 65535)%Z
  | _ => false
  end.

Definition Addr_Unmap (a : Addr) : Addr :=
  match a with
  | Addr6 ip _ => if Addr_Is4In6 a then Addr4 (Z.land ip (Z.ones 32)) else a
  | _ => a
  end.

Definition Addr_BitLen (a : Addr) : Z :=
  match a with AddrZero => 0 | Addr4 _ => 32 | Addr6 _ _ => 128 end%Z.

Definition Addr_bits (a : Addr) : Z :=
  match a with AddrZero => 0%Z | Addr4 ip => ip | Addr6 ip _ => ip end.

(** [netip.AddrFromSlice]: four bytes or sixteen. *)
Definition bytes_to_Z (bs : list Byte.byte) : Z :=
  foldl (λ n b, n * 256 + Z.of_N (Byte.to_N b))%Z 0%Z bs.

Definition AddrFromSlice (bs : list Byte.byte) : option Addr :=
  match length bs with
  | 4 => Some (Addr4 (bytes_to_Z bs))
  | 16 => Some (Addr6 (bytes_to_Z bs) "")
  | _ => None
  end.

(** [netip.AddrPort] *)
Record AddrPort := { ap_Addr : Addr; ap_Port : Z }.

#[export] Instance AddrPort_eq_dec : EqDecision AddrPort.
Proof. solve_decision. Defined.

#[export] Instance AddrPort_countable : Countable AddrPort.
Proof.
  refine (inj_countable' (λ a, (ap_Addr a, ap_Port a))
            (λ x, {| ap_Addr := x.1; ap_Port := x.2 |}) _).
  by intros [].
Defined.

Definition AddrPort_IsValid (a : AddrPort) : bool := Addr_IsValid (ap_Addr a).

(** [netip.Prefix]; [pfx_Bits] is -1 for an invalid prefix. *)
Record Prefix := { pfx_Addr : Addr; pfx_Bits : Z }.

#[export] Instance Prefix_eq_dec : EqDecision Prefix.
Proof. solve_decision. Defined.

Definition Prefix_IsValid (p : Prefix) : bool := (0 <=? pfx_Bits p)%Z.

(** [netip.PrefixFrom]: the zone is dropped; a length that is out of range, or an invalid
    address, gives an invalid prefix. *)
Definition PrefixFrom (a : Addr) (bits : Z) : Prefix :=
  let a' := match a with Addr6 ip _ => Addr6 ip "" | _ => a end in
  {| pfx_Addr := a';
     pfx_Bits := if Addr_IsValid a && (0 <=? bits)%Z && (bits <=? Addr_BitLen a)%Z
                 then bits else (-1)%Z |}.

(** The address without its low [k] bits. *)
Definition clear_low (ip k : Z) : Z := Z.shiftl (Z.shiftr ip k) k.

Definition Prefix_Masked (p : Prefix) : Prefix :=
  if Prefix_IsValid p then
    let k := (Addr_BitLen (pfx_Addr p) - pfx_Bits p)%Z in
    {| pfx_Addr := match pfx_Addr p with
                   | AddrZero => AddrZero
                   | Addr4 ip => Addr4 (clear_low ip k)
                   | Addr6 ip zone => Addr6 (clear_low ip k) zone
                   end;
       pfx_Bits := pfx_Bits p |}
  else {| pfx_Addr := AddrZero; pfx_Bits := (-1)%Z |}.

(** [netip.Prefix.Contains]: same family, no zone, and equal leading bits. *)
Definition Prefix_Contains (p : Prefix) (a : Addr) : bool :=
  Prefix_IsValid p && bool_decide (Addr_Zone a = "")
  && negb (Addr_BitLen a =? 0)%Z
  && (Addr_BitLen (pfx_Addr p) =? Addr_BitLen a)%Z
  && (Z.shiftr (Z.lxor (Addr_bits a) (Addr_bits (pfx_Addr p)))
        (Addr_BitLen a - pfx_Bits p) =? 0)%Z.

(** Masking a prefix does not change what it contains. *)
Lemma Prefix_Masked_Contains p a :
  (pfx_Bits p <= Addr_BitLen (pfx_Addr p))%Z →
  Prefix_Contains (Prefix_Masked p) a = Prefix_Contains p a.
Proof.
  intros Hb. unfold Prefix_Masked. destruct (Prefix_IsValid p) eqn:Hv.
  2:{ unfold Prefix_Contains. by rewrite Hv. }
  unfold Prefix_Contains, Prefix_IsValid in *. simpl. rewrite Hv. simpl.
  apply Z.leb_le in Hv.
  destruct (Z.eqb_spec (Addr_BitLen (pfx_Addr p)) (Addr_BitLen a)) as [Hl|Hl].
  2:{ assert (Addr_BitLen
        (match pfx_Addr p with
         | AddrZero => AddrZero
         | Addr4 ip => Addr4 (clear_low ip (Addr_BitLen (pfx_Addr p) - pfx_Bits p))
         | Addr6 ip zone => Addr6 (clear_low ip (Addr_BitLen (pfx_Addr p) - pfx_Bits p)) zone
         end) = Addr_BitLen (pfx_Addr p)) as -> by by destruct (pfx_Addr p).
      apply Z.eqb_neq in Hl. rewrite Hl. by rewrite !andb_false_r. }
  rewrite <-Hl. set (k := (Addr_BitLen (pfx_Addr p) - pfx_Bits p)%Z).
  assert (0 <= k)%Z as Hk by lia.
  assert (∀ x, Z.shiftr (Z.lxor (Addr_bits a) (clear_low x k)) k
               = Z.shiftr (Z.lxor (Addr_bits a) x) k) as Hx.
  { intros x. unfold clear_low. rewrite !Z.shiftr_lxor. f_equal.
    rewrite Z.shiftr_shiftl_l by done. by rewrite Z.sub_diag, Z.shiftl_0_r. }
  destruct (pfx_Addr p) as [|ip|ip zone] eqn:Hp; simpl in *.
  - subst k. unfold Addr_bits at 2. done.
  - by rewrite Hx.
  - by rewrite Hx.
Qed.
