(* ===== verification/Filter.v ===== *)
(** * The filter contract of the policy engine

    What src/extensions/epe/pkg/engine/filter defines: the actions a filter returns, the
    mutations they carry, the requests and policy units it works on, the observations of a
    stream, and the registrations the engine dispatches to. Filters are the interface
    [Filters]; [BuiltinFilters] has implementations of the repository. *)

From S2P Require Import Prelude Netip.

(** ** Case folding of names: [strings.ToLower] and [strings.EqualFold] *)

Class CaseFolding := {
  ToLower : string → string;
  EqualFold : string → string → bool
}.

(** Both on ASCII strings, where upper-case letters are the only ones that fold. *)
Definition lower_ascii (a : ascii) : ascii :=
  let n := Ascii.N_of_ascii a in
  if ((65 <=? n) && (n <=? 90))%N then Ascii.ascii_of_N (n + 32) else a.

Fixpoint lower_string (s : string) : string :=
  match s with
  | EmptyString => EmptyString
  | String a s => String (lower_ascii a) (lower_string s)
  end.

Definition asciiFolding : CaseFolding :=
  {| ToLower := lower_string;
     EqualFold a b := bool_decide (lower_string a = lower_string b) |}.

(** ** Mutations *)

Inductive HeaderOpKind := HeaderSet | HeaderAdd | HeaderRemove.

#[export] Instance HeaderOpKind_eq_dec : EqDecision HeaderOpKind.
Proof. solve_decision. Defined.

Record HeaderOp := { op_Kind : HeaderOpKind; op_Name : string; op_Value : string }.

#[export] Instance HeaderOp_eq_dec : EqDecision HeaderOp.
Proof. solve_decision. Defined.

(** [Address] is a pointer in the code. *)
Record UpstreamTarget := { up_Address : option AddrPort }.

#[export] Instance UpstreamTarget_eq_dec : EqDecision UpstreamTarget.
Proof. solve_decision. Defined.

Record RouteMutation := { rt_Upstream : option UpstreamTarget; rt_ClearCache : bool }.

#[export] Instance RouteMutation_eq_dec : EqDecision RouteMutation.
Proof. solve_decision. Defined.

(** [RouteMutation.Validate]; [None] is the nil receiver. *)
Definition Route_Validate (r : option RouteMutation) : result unit :=
  match r with
  | None => Ok ()
  | Some r =>
      match rt_Upstream r with
      | None => Ok ()
      | Some up =>
          match up_Address up with
          | None => Err "upstream address is required"
          | Some a =>
              if negb (AddrPort_IsValid a) || (ap_Port a =? 0)%Z
                 || bool_decide (Addr_Zone (ap_Addr a) ≠ "")
              then Err "invalid upstream address" else Ok ()
          end
      end
  end.

(** The target of a route, when it has one. *)
Definition routeUpstream (r : option RouteMutation) : option UpstreamTarget :=
  r ≫= rt_Upstream.

Record Mutation := {
  mut_HeaderOps : list HeaderOp;
  mut_Body : option string;
  mut_StatusCode : option Z;
  mut_Route : option RouteMutation
}.

Definition SetHeader (name value : string) : Mutation :=
  {| mut_HeaderOps := [{| op_Kind := HeaderSet; op_Name := name; op_Value := value |}];
     mut_Body := None; mut_StatusCode := None; mut_Route := None |}.

Definition AddHeader (name value : string) : Mutation :=
  {| mut_HeaderOps := [{| op_Kind := HeaderAdd; op_Name := name; op_Value := value |}];
     mut_Body := None; mut_StatusCode := None; mut_Route := None |}.

Definition RemoveHeader (name : string) : Mutation :=
  {| mut_HeaderOps := [{| op_Kind := HeaderRemove; op_Name := name; op_Value := "" |}];
     mut_Body := None; mut_StatusCode := None; mut_Route := None |}.

Definition SetPath (path : string) (clearCache : bool) : Mutation :=
  {| mut_HeaderOps := [{| op_Kind := HeaderSet; op_Name := ":path"; op_Value := path |}];
     mut_Body := None; mut_StatusCode := None;
     mut_Route := Some {| rt_Upstream := None; rt_ClearCache := clearCache |} |}.

Record Reply := {
  rep_Status : Z;
  rep_HeaderOps : list HeaderOp;
  rep_Body : string;
  rep_Details : string
}.

Definition emptyReply : Reply :=
  {| rep_Status := 0; rep_HeaderOps := []; rep_Body := ""; rep_Details := "" |}.

(** ** Actions *)

(** An [Action] is built by its constructors only. *)
Inductive Action :=
| Continue (m : list Mutation)
| Stop (r : Reply)
| Bypass
| NeedBody (m : list Mutation).

Definition Mutations (a : Action) : list Mutation :=
  match a with Continue m | NeedBody m => m | _ => [] end.

(** ** Phases, a bit mask *)

Abbreviation Phase := N (only parsing).

Definition PhaseRequestHeaders : Phase := 1%N.
Definition PhaseRequestBody : Phase := 2%N.
Definition PhaseResponseHeaders : Phase := 4%N.
Definition PhaseResponseBody : Phase := 8%N.

Definition DispatchedPhases : Phase :=
  N.lor (N.lor (N.lor PhaseRequestHeaders PhaseRequestBody) PhaseResponseHeaders)
        PhaseResponseBody.

(** [a & b != 0] *)
Definition meets (a b : Phase) : bool := negb (N.land a b =? 0)%N.

(** ** Observations of a stream *)

Inductive Disposition :=
| DispositionPassthrough
| DispositionMutated
| DispositionBlocked
| DispositionBypassed
| DispositionError.

#[export] Instance Disposition_eq_dec : EqDecision Disposition.
Proof. solve_decision. Defined.

Record UnitID := { uid_Scope : string; uid_Name : string; uid_Ordinal : Z }.

#[export] Instance UnitID_eq_dec : EqDecision UnitID.
Proof. solve_decision. Defined.

Inductive UnitActionKind :=
| ActionBlock | ActionBypass | ActionMutate
| ActionErrorClosed | ActionNeedBody | ActionErrorOpen.

#[export] Instance UnitActionKind_eq_dec : EqDecision UnitActionKind.
Proof. solve_decision. Defined.

Record UnitAction := { ua_Filter : string; ua_Kind : UnitActionKind }.
Record UnitRecord := { ur_ID : UnitID; ur_FilterActions : list UnitAction }.

(** The duration of the call, a clock reading, is left out. *)
Record FilterRecord := {
  fr_Filter : string;
  fr_Phase : string;
  fr_Outcome : string;
  fr_Err : option string
}.

Record AuthorizationDecision := {
  ad_Action : string;
  ad_Reason : string;
  ad_Destination : string;
  ad_Policy : string;
  ad_RuleIndex : option Z
}.

Definition emptyDecision : AuthorizationDecision :=
  {| ad_Action := ""; ad_Reason := ""; ad_Destination := ""; ad_Policy := "";
     ad_RuleIndex := None |}.

Definition AuthorizationReasonMissingIdentity := "missing_source_identity".
Definition AuthorizationReasonPolicyDenied := "traffic_policy_denied".
Definition AuthorizationReasonResolutionFailed := "target_resolution_failed".
Definition AuthorizationReasonPolicyLoadFailed := "policy_load_failed".
Definition AuthorizationReasonFailed := "authorization_failed".

Record StreamInfo := {
  si_Matched : list UnitRecord;
  si_Filters : list FilterRecord;
  si_Authorization : option AuthorizationDecision;
  si_authorizationMatches : gmap AddrPort AuthorizationDecision;
  si_Outcome : Disposition;
  si_Error : string
}.

Definition NewStreamInfo : StreamInfo :=
  {| si_Matched := []; si_Filters := []; si_Authorization := None;
     si_authorizationMatches := ∅; si_Outcome := DispositionPassthrough; si_Error := "" |}.

Definition set_Matched (m : list UnitRecord) (i : StreamInfo) : StreamInfo :=
  {| si_Matched := m; si_Filters := si_Filters i; si_Authorization := si_Authorization i;
     si_authorizationMatches := si_authorizationMatches i;
     si_Outcome := si_Outcome i; si_Error := si_Error i |}.

Definition set_Error (e : string) (i : StreamInfo) : StreamInfo :=
  {| si_Matched := si_Matched i; si_Filters := si_Filters i;
     si_Authorization := si_Authorization i;
     si_authorizationMatches := si_authorizationMatches i;
     si_Outcome := si_Outcome i; si_Error := e |}.

Definition set_Outcome (d : Disposition) (i : StreamInfo) : StreamInfo :=
  {| si_Matched := si_Matched i; si_Filters := si_Filters i;
     si_Authorization := si_Authorization i;
     si_authorizationMatches := si_authorizationMatches i;
     si_Outcome := d; si_Error := si_Error i |}.

(** Appends to the first record with the identity, or adds a record. *)
Fixpoint recordAction (id : UnitID) (a : UnitAction) (l : list UnitRecord)
    : list UnitRecord :=
  match l with
  | [] => [{| ur_ID := id; ur_FilterActions := [a] |}]
  | u :: l =>
      if decide (ur_ID u = id)
      then {| ur_ID := ur_ID u; ur_FilterActions := ur_FilterActions u ++ [a] |} :: l
      else u :: recordAction id a l
  end.

(** [RecordUnitAction] and [RecordFilter]; [None] is the nil receiver. *)
Definition RecordUnitAction (id : UnitID) (name : string) (kind : UnitActionKind)
    (i : option StreamInfo) : option StreamInfo :=
  match i with
  | None => None
  | Some i =>
      Some (set_Matched
              (recordAction id {| ua_Filter := name; ua_Kind := kind |} (si_Matched i)) i)
  end.

Definition RecordFilter (rec : FilterRecord) (i : option StreamInfo) : option StreamInfo :=
  match i with
  | None => None
  | Some i =>
      Some {| si_Matched := si_Matched i; si_Filters := si_Filters i ++ [rec];
              si_Authorization := si_Authorization i;
              si_authorizationMatches := si_authorizationMatches i;
              si_Outcome := si_Outcome i; si_Error := si_Error i |}
  end.

Definition RecordAuthorization (d : AuthorizationDecision) (i : StreamInfo) : StreamInfo :=
  {| si_Matched := si_Matched i; si_Filters := si_Filters i;
     si_Authorization := Some d; si_authorizationMatches := ∅;
     si_Outcome := si_Outcome i; si_Error := si_Error i |}.

Definition RecordAuthorizationMatch (a : AddrPort) (policy : string) (ruleIndex : Z)
    (i : StreamInfo) : StreamInfo :=
  {| si_Matched := si_Matched i; si_Filters := si_Filters i;
     si_Authorization := si_Authorization i;
     si_authorizationMatches :=
       <[a := {| ad_Action := ""; ad_Reason := ""; ad_Destination := "";
                 ad_Policy := policy; ad_RuleIndex := Some ruleIndex |}]>
         (si_authorizationMatches i);
     si_Outcome := si_Outcome i; si_Error := si_Error i |}.

(** The text of addresses, which the engine prints into records and metadata, and parses
    out of host names. *)
Class AddressText := {
  AddrPort_String : AddrPort → string;
  Addr_String : Addr → string;
  ParseAddr : string → option Addr;
  ParseAddrPort : string → option AddrPort
}.

Definition RecordAuthorizedDestination `{AddressText} (a : AddrPort) (i : StreamInfo)
    : StreamInfo :=
  let r := default emptyDecision (si_authorizationMatches i !! a) in
  RecordAuthorization
    {| ad_Action := "allow"; ad_Reason := ad_Reason r;
       ad_Destination := AddrPort_String a; ad_Policy := ad_Policy r;
       ad_RuleIndex := ad_RuleIndex r |} i.

(** ** Requests, callers and streams *)

(** src/extensions/epe/pkg/httpreq *)
Record HTTPRequest := {
  rq_Host : string;
  rq_Port : Z;
  rq_OriginalDestination : AddrPort;
  rq_Path : string;
  rq_Query : gmap string (list string);
  rq_RawQuery : string;
  rq_Method : string;
  rq_Scheme : string;
  rq_Headers : gmap string string
}.

Record HTTPResponse := { rs_Status : Z; rs_Headers : gmap string string }.

(** src/extensions/epe/pkg/subject *)
Record SubjectWorkload := {
  wl_UID : string;
  wl_Namespace : string;
  wl_Name : string;
  wl_IP : string;
  wl_Labels : gmap string string;
  wl_SecurityProfileReferences : option (list string)
}.

Record Subject := { sj_Workload : SubjectWorkload; sj_Sandbox : option string }.

Definition Workload_HasIdentity (w : SubjectWorkload) : bool :=
  bool_decide (wl_UID w ≠ "")
  || bool_decide (wl_Namespace w ≠ "") && bool_decide (wl_Name w ≠ "").

Definition Subject_HasIdentity (s : Subject) : bool :=
  Workload_HasIdentity (sj_Workload s)
  || match sj_Sandbox s with Some uid => bool_decide (uid ≠ "") | None => false end.

Record Body := { bd_Bytes : string; bd_Complete : bool }.

(** The types a deployment chooses: the configurations and the instances of its filters,
    the evaluation scopes of its rules, its loggers and destination authorizers, and the
    world that filters and authorizers read and change. *)
Class Deployment := {
  Cfg : Type;
  Scope : Type;
  FilterInstance : Type;
  Logger : Type;
  Authorizer : Type;
  World : Type
}.

Section contract.
Context `{D : Deployment}.

(** [Cfgs] is parallel to the registrations; [None] is a nil configuration. *)
Record Unit := { un_ID : UnitID; un_Scope : Scope; un_Cfgs : list (option Cfg) }.

Record PolicySnapshot := {
  ps_DestinationAuthorizer : option Authorizer;
  ps_FilterRules : list Unit;
  ps_StreamLogger : option Logger
}.

(** The caller's credential, which its consumers decode lazily, is part of the world. *)
Record RequestContext := {
  rc_Caller : Subject;
  rc_Request : HTTPRequest;
  rc_RequestID : string;
  rc_Policies : PolicySnapshot
}.

(** [Info] is a pointer that all views of a stream share: it is threaded separately. *)
Record Stream := {
  st_Context : RequestContext;
  st_Upstream : option UpstreamTarget;
  st_Response : HTTPResponse
}.

Definition set_Upstream (u : option UpstreamTarget) (st : Stream) : Stream :=
  {| st_Context := st_Context st; st_Upstream := u; st_Response := st_Response st |}.

Record ErasedRuleConfig := { ec_ID : UnitID; ec_Cfg : Cfg; ec_Scope : Scope }.

(** [Filter]: a callback may change its instance and the world, and fail. *)
Definition Callback : Type := World → FilterInstance * World * result Action.

Class Filters := {
  OnRequestHeaders : FilterInstance → Stream → Callback;
  OnRequestBody : FilterInstance → Stream → Body → Callback;
  OnResponseHeaders : FilterInstance → Stream → Callback;
  OnResponseBody : FilterInstance → Stream → Body → Callback
}.

(** [PassThrough] *)
Definition passThrough (f : FilterInstance) : Callback := λ w, (f, w, Ok (Continue [])).

Inductive FailurePolicy := FailClosed | FailOpen.

(** A registered filter; a nil function is [None]. [RawMessage] is a string. *)
Record Registration := {
  reg_Name : string;
  reg_Phases : Phase;
  reg_OnError : option (Cfg → FailurePolicy);
  reg_Parse : string → result Cfg;
  reg_New : ErasedRuleConfig → FilterInstance;
  reg_Subscribes : option (Cfg → Phase)
}.

(** [Descriptor], with the one type of configurations of the deployment. *)
Record Descriptor := {
  de_Name : string;
  de_Phases : Phase;
  de_OnError : option (Cfg → FailurePolicy);
  de_SubscribesOf : option (Cfg → Phase);
  de_New : option (ErasedRuleConfig → FilterInstance)
}.

Definition buildRegistration (d : Descriptor) (parse : option (string → result Cfg))
    : result Registration :=
  if decide (de_Name d = "") then Err "filter definition: empty Name" else
  match de_New d, parse with
  | None, _ => Err "filter definition: nil New"
  | _, None => Err "filter definition: nil parse"
  | Some new, Some parse =>
      if (de_Phases d =? 0)%N then Err "filter definition: declares no phases"
      else if negb (N.ldiff (de_Phases d) DispatchedPhases =? 0)%N
      then Err "filter definition: declares phases the engine does not dispatch"
      else if meets (de_Phases d) PhaseRequestBody
              && negb (meets (de_Phases d) PhaseRequestHeaders)
      then Err "filter definition: request-body phase requires request headers"
      else if meets (de_Phases d) PhaseResponseBody
              && negb (meets (de_Phases d) PhaseResponseHeaders)
      then Err "filter definition: response-body phase requires response headers"
      else if meets (de_Phases d) PhaseResponseHeaders
              && bool_decide (de_SubscribesOf d = None)
      then Err "filter definition: response-headers phase requires SubscribesOf"
      else Ok {|
        reg_Name := de_Name d;
        reg_Phases := de_Phases d;
        reg_OnError := Some (λ cfg, match de_OnError d with
                                    | None => FailClosed
                                    | Some onError => onError cfg
                                    end);
        reg_Parse := parse;
        reg_New := new;
        reg_Subscribes := Some (λ cfg, match de_SubscribesOf d with
                                       | None => 0%N
                                       | Some subscribes =>
                                           N.land (subscribes cfg) (de_Phases d)
                                       end) |}
  end.

(** [Build] over the definitions' build functions; [None] is the zero definition. *)
Definition buildStep (regs : list Registration) (d : option (result Registration))
    : result (list Registration) :=
  match d with
  | None => Err "filter definition: zero value"
  | Some build =>
      let! reg := build in
      if decide (reg_Name reg ∈ reg_Name <$> regs)
      then Err "filter definition: duplicate name" else Ok (regs ++ [reg])
  end.

Definition Build (definitions : list (option (result Registration)))
    : result (list Registration) :=
  rfold buildStep definitions [].

(** [Project]: the configurations and the errors, parallel to the registrations. *)
Definition projectOne (payloads : gmap string string) (reg : Registration)
    : option Cfg * option string :=
  match payloads !! reg_Name reg with
  | None => (None, None)
  | Some raw =>
      match reg_Parse reg raw with
      | Err e => (None, Some e)
      | Ok cfg => (Some cfg, None)
      end
  end.

Definition Project (regs : list Registration) (payloads : gmap string string)
    : list (option Cfg) * list (option string) :=
  let out := projectOne payloads <$> regs in (out.*1, out.*2).

End contract.
