(* ===== verification/Attributes.v ===== *)
(** * The attributes of a request

    src/extensions/epe/pkg/extproc/attributes and labels: how the caller, the request and
    its destination are read from the headers and the attributes that the proxy sends, and
    how a request looks after routing headers were rewritten. *)

From stdpp Require Export pretty.
From S2P Require Import Prelude Netip Filter.

(** ** Messages and text *)

Record HeaderValue := { hd_Key : string; hd_Value : string; hd_RawValue : string }.
Record HttpHeaders := { hh_Headers : option (list HeaderValue); hh_EndOfStream : bool }.

(** [attributes.HeaderValue] *)
Definition headerText (h : HeaderValue) : string :=
  if decide (hd_RawValue h = "") then hd_Value h else hd_RawValue h.

(** [structpb.Value]; a number is kept truncated, all that the code reads of it. *)
#[warnings="-register-all"]
Inductive Value :=
| StringValue (s : string)
| NumberValue (n : Z)
| StructValue (fields : gmap string Value)
| OtherValue.

Definition GetStringValue (v : Value) : string :=
  match v with StringValue s => s | _ => "" end.

(** [strconv.Itoa], and [strconv.Atoi] with its range of 64 bits. *)
Definition Itoa (n : Z) : string := pretty n.

Fixpoint digits (acc : Z) (s : string) : option Z :=
  match s with
  | EmptyString => Some acc
  | String a s =>
      let n := Z.of_N (Ascii.N_of_ascii a) in
      if ((48 <=? n) && (n <=? 57))%Z then digits (acc * 10 + (n - 48))%Z s else None
  end.

Definition number (s : string) : option Z :=
  match s with EmptyString => None | _ => digits 0 s end.

Definition Atoi (s : string) : option Z :=
  let n := match s with
           | String "-" s => Z.opp <$> number s
           | String "+" s => number s
           | _ => number s
           end in
  match n with
  | Some n => if ((- 2 ^ 63 <=? n) && (n <? 2 ^ 63))%Z then Some n else None
  | None => None
  end.

(** The text before and after the first occurrence of a byte: [strings.IndexByte]. *)
Fixpoint cut (c : ascii) (s : string) : option (string * string) :=
  match s with
  | EmptyString => None
  | String a s =>
      if decide (a = c) then Some ("", s)
      else match cut c s with Some (x, y) => Some (String a x, y) | None => None end
  end.

(** The text before the last occurrence: [strings.LastIndexByte]. *)
Fixpoint before_last (c : ascii) (s : string) : option string :=
  match s with
  | EmptyString => None
  | String a s =>
      match before_last c s with
      | Some x => Some (String a x)
      | None => if decide (a = c) then Some "" else None
      end
  end.

(** [strings.Split] on a byte, for a text of [n] bytes at most. *)
Fixpoint splitOn (n : nat) (c : ascii) (s : string) : list string :=
  match n, cut c s with
  | S n, Some (x, y) => x :: splitOn n c y
  | _, _ => [s]
  end.

(** [url.ParseQuery], what it could parse, and [base64.StdEncoding]. *)
Class RequestText := {
  ParseQuery : string → gmap string (list string);
  DecodeBase64 : string → option string
}.

Section attributes.
Context `{CF : CaseFolding} `{AT : AddressText} `{RT : RequestText}.

(** ** Labels: pkg/labels *)

Definition ParseLabelPairs (raw : string) : gmap string string :=
  if decide (raw = "") then ∅ else
  foldl (λ m pair,
           let pair := TrimSpace pair in
           if decide (pair = "") then m else
           match cut "=" pair with Some (k, v) => <[k := v]> m | None => m end)
    ∅ (splitOn (String.length raw) "," raw).

Definition ParseSandboxLabels (encoded : string) : gmap string string :=
  match DecodeBase64 encoded with Some raw => ParseLabelPairs raw | None => ∅ end.

(** ** Requests: httprequest.go *)

Definition parsePort (s : string) : Z :=
  if decide (s = "") then 0%Z else
  match Atoi s with
  | Some v => if ((v <=? 0) || (65535 <? v))%Z then 0%Z else v
  | None => 0%Z
  end.

Definition splitHostPort (authority : string) : string * Z :=
  match authority with
  | EmptyString => ("", 0%Z)
  | String "[" rest =>
      match cut "]" rest with
      | None => (authority, 0%Z)
      | Some (host, String ":" port) => (host, parsePort port)
      | Some (host, _) => (host, 0%Z)
      end
  | _ =>
      match cut ":" authority with
      | Some (host, port) => (host, parsePort port)
      | None => (authority, 0%Z)
      end
  end.

Definition splitPathAndQuery (rawPath : string) : string * string :=
  default (rawPath, "") (cut "?" rawPath).

Definition inferPortFromScheme (scheme : string) : Z :=
  if decide (ToLower scheme = "http") then 80%Z
  else if decide (ToLower scheme = "https") then 443%Z else 0%Z.

Definition noAddrPort : AddrPort := {| ap_Addr := AddrZero; ap_Port := 0 |}.

(** A header that is present and not empty. *)
Definition nonEmpty (headers : gmap string string) (key : string) : option string :=
  match headers !! key with
  | Some v => if decide (v = "") then None else Some v
  | None => None
  end.

Definition header (headers : gmap string string) (key : string) : string :=
  default "" (headers !! key).

Definition parseHTTPRequest (headers : gmap string string) : HTTPRequest :=
  let '(host, port) :=
    match nonEmpty headers ":authority" with
    | Some auth => splitHostPort auth
    | None => match nonEmpty headers "host" with
              | Some host => splitHostPort host
              | None => ("", 0%Z)
              end
    end in
  let port := if (port =? 0)%Z && negb (EqualFold (header headers ":method") "CONNECT")
              then inferPortFromScheme (header headers ":scheme") else port in
  let '(path, rawQuery) := splitPathAndQuery (header headers ":path") in
  {| rq_Host := host; rq_Port := port; rq_OriginalDestination := noAddrPort;
     rq_Path := path;
     rq_Query := if decide (rawQuery = "") then ∅ else ParseQuery rawQuery;
     rq_RawQuery := rawQuery;
     rq_Method := header headers ":method"; rq_Scheme := header headers ":scheme";
     rq_Headers := headers |}.

(** [RequestAfterMutations]: the headers are copied at the first rewrite. *)
Definition rewriteStep (request : HTTPRequest) (headers : option (gmap string string))
    (op : HeaderOp) : option (gmap string string) :=
  let name := ToLower (op_Name op) in
  if decide (name ∈ [":authority"; "host"; ":scheme"; ":method"]) then
    match op_Kind op with
    | HeaderSet =>
        let name := if decide (name = "host") then ":authority" else name in
        Some (<[name := op_Value op]> (default (rq_Headers request) headers))
    | _ => headers
    end
  else headers.

Definition RequestAfterMutations (request : HTTPRequest) (ops : list HeaderOp) : HTTPRequest :=
  match foldl (rewriteStep request) None ops with
  | None => request
  | Some headers =>
      let result := parseHTTPRequest headers in
      {| rq_Host := rq_Host result; rq_Port := rq_Port result;
         rq_OriginalDestination :=
           if bool_decide (rq_Host result = rq_Host request)
              && (rq_Port result =? rq_Port request)%Z
           then rq_OriginalDestination request else noAddrPort;
         rq_Path := rq_Path result; rq_Query := rq_Query result;
         rq_RawQuery := rq_RawQuery result; rq_Method := rq_Method result;
         rq_Scheme := rq_Scheme result; rq_Headers := rq_Headers result |}
  end.

(** ** Attributes: extract.go *)

(** The attributes by their namespace. *)
Definition Attrs : Type := gmap string (gmap string Value).

Definition ExtProcAttrsKey := "envoy.filters.http.ext_proc".

Definition getExtProcStruct (attrs : Attrs) : gmap string Value :=
  default ∅ (attrs !! ExtProcAttrsKey).

Definition extractAttributeInt (attrs : Attrs) (key : string) : Z :=
  match getExtProcStruct attrs !! key with Some (NumberValue n) => n | _ => 0%Z end.

Definition valueToString (v : Value) : string :=
  match v with
  | StringValue s => s
  | StructValue fields =>
      match fields !! "value" with Some inner => GetStringValue inner | None => "" end
  | _ => ""
  end.

Definition extractFilterStateString (attrs : Attrs) (key : string) : string :=
  let fields := getExtProcStruct attrs in
  match fields !! key with
  | Some v => valueToString v
  | None =>
      match fields !! ("filter_state['" +:+ key +:+ "']") with
      | Some v => valueToString v
      | None => ""
      end
  end.

Definition extractWorkloadIP (attrs : Attrs) : string :=
  let raw := extractFilterStateString attrs "source.address" in
  match raw with
  | EmptyString => ""
  | String "[" rest => match cut "]" rest with Some (ip, _) => ip | None => raw end
  | _ => default raw (before_last ":" raw)
  end.

Definition extractOriginalDestination (attrs : Attrs) : AddrPort :=
  let raw := extractFilterStateString attrs "destination.address" in
  let port := extractAttributeInt attrs "destination.port" in
  let address := match ParseAddrPort raw with
                 | Some a => Some a
                 | None =>
                     match ParseAddr raw with
                     | Some ip => if ((port <=? 0) || (65535 <? port))%Z then None
                                  else Some {| ap_Addr := ip; ap_Port := port |}
                     | None => None
                     end
                 end in
  match address with
  | None => noAddrPort
  | Some a =>
      if (ap_Port a =? 0)%Z || bool_decide (Addr_Zone (ap_Addr a) ≠ "")
         || (negb (port =? 0)%Z
             && ((port <? 0)%Z || (65535 <? port)%Z || negb (port =? ap_Port a)%Z))
      then noAddrPort
      else {| ap_Addr := Addr_Unmap (ap_Addr a); ap_Port := ap_Port a |}
  end.

Definition extractHeaderMap (headers : option HttpHeaders) : gmap string string :=
  match headers ≫= hh_Headers with
  | None => ∅
  | Some hs =>
      foldl (λ m h, if decide (hd_Key h = "") then m
                    else <[ToLower (hd_Key h) := headerText h]> m) ∅ hs
  end.

Definition orElse (a b : string) : string := if decide (a = "") then b else a.

(** The caller's identity. *)
Definition extractCaller (attrs : Attrs) : Subject :=
  {| sj_Workload :=
       {| wl_UID := extractFilterStateString attrs "filter_state['agentio.workload.uid']";
          wl_Namespace :=
            orElse (extractFilterStateString attrs "filter_state['agentio.workload.namespace']")
              (extractFilterStateString attrs "filter_state['downstream_peer'].namespace");
          wl_Name :=
            orElse (extractFilterStateString attrs "filter_state['agentio.workload.name']")
              (extractFilterStateString attrs "filter_state['downstream_peer'].name");
          wl_IP := extractWorkloadIP attrs;
          wl_Labels :=
            ParseSandboxLabels (extractFilterStateString attrs "filter_state['sandbox.labels']");
          wl_SecurityProfileReferences := None |};
     sj_Sandbox :=
       let uid := extractFilterStateString attrs "filter_state['agentio.sandbox.id']" in
       if decide (uid = "") then None else Some uid |}.

Definition set_target (port : Z) (dest : AddrPort) (req : HTTPRequest) : HTTPRequest :=
  {| rq_Host := rq_Host req; rq_Port := port; rq_OriginalDestination := dest;
     rq_Path := rq_Path req; rq_Query := rq_Query req; rq_RawQuery := rq_RawQuery req;
     rq_Method := rq_Method req; rq_Scheme := rq_Scheme req; rq_Headers := rq_Headers req |}.

Definition Extract (headers : option HttpHeaders) (attrs : Attrs) : Subject * HTTPRequest :=
  let req := parseHTTPRequest (extractHeaderMap headers) in
  let connect := EqualFold (rq_Method req) "CONNECT" in
  let dstPort := extractAttributeInt attrs "destination.port" in
  let port := if negb connect && (0 <? dstPort)%Z && (dstPort <=? 65535)%Z
              then dstPort else rq_Port req in
  (extractCaller attrs,
   if connect then set_target port (rq_OriginalDestination req) req
   else
     let dest := extractOriginalDestination attrs in
     set_target (if AddrPort_IsValid dest then ap_Port dest else port) dest req).

Definition ExtractUpstream (attrs : Attrs) : result (option UpstreamTarget) :=
  match getExtProcStruct attrs !! "filter_state['agentio.route.upstream']" with
  | None => Ok None
  | Some v =>
      match ParseAddrPort (GetStringValue v) with
      | None => Err "invalid route upstream"
      | Some a =>
          let target := {| up_Address := Some a |} in
          let! _ := Route_Validate (Some {| rt_Upstream := Some target;
                                            rt_ClearCache := false |}) in
          Ok (Some target)
      end
  end.

(** ** Theorems *)

(** The port that policies see is the one the proxy observed: a request that is not a
    CONNECT and whose destination port the proxy reports has that port, whatever port the
    caller wrote into the authority or the Host header, and however the reported
    destination address reads. *)
Theorem observed_port_wins headers attrs :
  let port := extractAttributeInt attrs "destination.port" in
  let req := (Extract headers attrs).2 in
  (0 < port <= 65535)%Z → EqualFold (rq_Method req) "CONNECT" = false →
  rq_Port req = port.
Proof.
  cbn zeta. unfold Extract. set (port := extractAttributeInt attrs "destination.port").
  intros Hport. cbn [snd].
  destruct (EqualFold (rq_Method (parseHTTPRequest (extractHeaderMap headers))) "CONNECT")
    eqn:Hc; cbn [rq_Method set_target]; [by rewrite Hc|]. intros _.
  cbn [rq_Port set_target].
  destruct (AddrPort_IsValid (extractOriginalDestination attrs)) eqn:Hv.
  - unfold extractOriginalDestination in *. fold port in Hv |- *.
    destruct (match ParseAddrPort _ with Some _ => _ | None => _ end) as [a|]; [|done].
    destruct (negb (port =? 0)%Z && _) eqn:Hb; [by rewrite orb_true_r in Hv|].
    destruct (_ || _ || false) eqn:Ho; [done|]. cbn [ap_Port].
    assert ((port =? 0)%Z = false) as Hp0 by (apply Z.eqb_neq; lia).
    rewrite Hp0 in Hb. simpl in Hb.
    apply orb_false_iff in Hb as [_ Hb%negb_false_iff]. apply Z.eqb_eq in Hb. done.
  - simpl. destruct (Z.ltb_spec 0 port), (Z.leb_spec port 65535); simpl; lia.
Qed.

End attributes.
