(* ===== verification/Fold.v ===== *)
(** * Folding the mutations of a walk

    src/extensions/epe/pkg/engine/fold.go: the net effect of the mutations that the
    filters of one walk returned. [fold_net] is what makes one HeaderMutation enough:
    executing the removals first, as the proxy does, has the effect of the operations in
    the order the filters returned them. *)

From S2P Require Import Prelude Netip Filter.

Section fold.
Context `{CF : CaseFolding}.

(** ** Header operations *)

(** The state of one header name. *)
Record keyState := {
  ks_name : string;
  ks_ops : list HeaderOp;
  ks_removed : bool;
  ks_removeFirst : bool
}.

Definition stepKey (op : HeaderOp) (s : keyState) : keyState :=
  match op_Kind op with
  | HeaderSet =>
      {| ks_name := ks_name s; ks_ops := [op]; ks_removed := false;
         ks_removeFirst := false |}
  | HeaderAdd =>
      {| ks_name := ks_name s; ks_ops := ks_ops s ++ [op]; ks_removed := false;
         ks_removeFirst := if ks_removed s then true else ks_removeFirst s |}
  | HeaderRemove =>
      {| ks_name := ks_name s; ks_ops := []; ks_removed := true;
         ks_removeFirst := false |}
  end.

(** The names touched so far, in order of first touch, with their states. *)
Record foldState := { fs_states : gmap string keyState; fs_order : list string }.

(** [stateFor] and the switch on the kind. *)
Definition foldOp (fs : foldState) (op : HeaderOp) : foldState :=
  let key := ToLower (op_Name op) in
  match fs_states fs !! key with
  | Some s =>
      {| fs_states := <[key := stepKey op s]> (fs_states fs); fs_order := fs_order fs |}
  | None =>
      let s := {| ks_name := op_Name op; ks_ops := []; ks_removed := false;
                  ks_removeFirst := false |} in
      {| fs_states := <[key := stepKey op s]> (fs_states fs);
         fs_order := fs_order fs ++ [key] |}
  end.

Definition removeOp (name : string) : HeaderOp :=
  {| op_Kind := HeaderRemove; op_Name := name; op_Value := "" |}.

Definition keyOps (s : keyState) : list HeaderOp :=
  if ks_removed s then [removeOp (ks_name s)]
  else (if ks_removeFirst s then [removeOp (ks_name s)] else []) ++ ks_ops s.

Definition orderedOps (fs : foldState) : list HeaderOp :=
  flat_map (λ key, match fs_states fs !! key with Some s => keyOps s | None => [] end)
    (fs_order fs).

Definition fold (muts : list Mutation) : list HeaderOp :=
  orderedOps (foldl foldOp {| fs_states := ∅; fs_order := [] |}
                (flat_map mut_HeaderOps muts)).

(** ** Routes *)

(** The loop of [foldRouteFrom]; [fresh] says that the result is no longer the pointer
    [prior]. A fresh route is a copy with the two fields set from the mutation. *)
Definition foldRouteStep (acc : option RouteMutation * bool) (m : Mutation)
    : result (option RouteMutation * bool) :=
  match mut_Route m with
  | None => Ok acc
  | Some r =>
      let! _ := Route_Validate (Some r) in
      let cur := default {| rt_Upstream := None; rt_ClearCache := false |} acc.1 in
      let clear := rt_ClearCache cur || rt_ClearCache r in
      match rt_Upstream r with
      | None => Ok (Some {| rt_Upstream := rt_Upstream cur; rt_ClearCache := clear |}, true)
      | Some up =>
          let conflict := match rt_Upstream cur with
                          | Some target => bool_decide (up_Address target ≠ up_Address up)
                          | None => false
                          end in
          if conflict then Err "conflicting upstream targets"
          else Ok (Some {| rt_Upstream := Some {| up_Address := up_Address up |};
                           rt_ClearCache := clear |}, true)
      end
  end.

Definition foldRouteFrom (prior : option RouteMutation) (muts : list Mutation)
    : result (option RouteMutation * bool) :=
  rfold foldRouteStep muts (prior, false).

Definition foldRoute (muts : list Mutation) : result (option RouteMutation) :=
  let! x := foldRouteFrom None muts in Ok x.1.

(** ** The body, the status, and all together *)

Definition lastBodyMutation (muts : list Mutation) : option string :=
  foldl (λ body m, match mut_Body m with Some b => Some b | None => body end) None muts.

Definition lastStatusMutation (muts : list Mutation) : option Z :=
  foldl (λ code m, match mut_StatusCode m with Some c => Some c | None => code end)
    None muts.

Definition foldPending (pending : list Mutation)
    : result (list HeaderOp * option RouteMutation * option string * option Z) :=
  let! route := foldRoute pending in
  Ok (fold pending, route, lastBodyMutation pending, lastStatusMutation pending).

(** ** What the operations do to the values of one header

    [op_values k vs op] is the documented effect of one operation on the values [vs] of
    the header [k]: a set overwrites all values, an add keeps them, a removal deletes. *)

Definition op_values (k : string) (vs : list string) (op : HeaderOp) : list string :=
  if decide (ToLower (op_Name op) = k) then
    match op_Kind op with
    | HeaderSet => [op_Value op]
    | HeaderAdd => vs ++ [op_Value op]
    | HeaderRemove => []
    end
  else vs.

(** In the order of the list. *)
Definition sequential (k : string) (ops : list HeaderOp) (vs : list string)
    : list string := foldl (op_values k) vs ops.

Definition is_remove (op : HeaderOp) : bool :=
  match op_Kind op with HeaderRemove => true | _ => false end.

(** All removals before everything else. *)
Definition removes_first (k : string) (ops : list HeaderOp) (vs : list string)
    : list string :=
  sequential k (List.filter (λ op, negb (is_remove op)) ops)
    (sequential k (List.filter is_remove ops) vs).

(** ** Every key's state has the net effect of its operations *)

Definition key_net (k : string) (s : keyState) (vs : list string) : list string :=
  if ks_removed s then []
  else sequential k (ks_ops s) (if ks_removeFirst s then [] else vs).

(** The pending operations of a key are sets and adds on it. *)
Definition key_wf (k : string) (s : keyState) : Prop :=
  ToLower (ks_name s) = k
  ∧ Forall (λ op, ToLower (op_Name op) = k ∧ is_remove op = false) (ks_ops s)
  ∧ (ks_removed s = true → ks_ops s = []).

Lemma sequential_app k l1 l2 vs :
  sequential k (l1 ++ l2) vs = sequential k l2 (sequential k l1 vs).
Proof. apply foldl_app. Qed.

Lemma stepKey_wf k op s :
  ToLower (op_Name op) = k → key_wf k s → key_wf k (stepKey op s).
Proof.
  intros Hk (Hn & Hops & Hrem). unfold stepKey, key_wf, is_remove in *.
  destruct (op_Kind op) eqn:Hkind; simpl.
  - split; [done|]. split; [|done]. constructor; [by rewrite Hkind|constructor].
  - split; [done|]. split; [|done]. apply Forall_app. split; [done|].
    constructor; [by rewrite Hkind|constructor].
  - split; [done|]. split; [constructor|done].
Qed.

Lemma stepKey_net k op s vs :
  ToLower (op_Name op) = k → key_wf k s →
  key_net k (stepKey op s) vs = op_values k (key_net k s vs) op.
Proof.
  intros Hk (Hn & Hops & Hrem). unfold stepKey, key_net, op_values.
  rewrite decide_True by done.
  destruct (op_Kind op) eqn:Hkind; simpl.
  - unfold op_values. by rewrite decide_True, Hkind.
  - rewrite sequential_app. simpl. unfold op_values at 1. rewrite decide_True, Hkind by done.
    destruct (ks_removed s) eqn:Hr; [by rewrite Hrem|done].
  - done.
Qed.

(** The invariant of the fold: distinct keys in order, each with a state. *)
Definition fold_wf (fs : foldState) : Prop :=
  NoDup (fs_order fs)
  ∧ (∀ k, k ∈ fs_order fs ↔ is_Some (fs_states fs !! k))
  ∧ (∀ k s, fs_states fs !! k = Some s → key_wf k s).

Definition fold_net_of (fs : foldState) (k : string) (vs : list string) : list string :=
  match fs_states fs !! k with Some s => key_net k s vs | None => vs end.

Lemma foldOp_wf fs op : fold_wf fs → fold_wf (foldOp fs op).
Proof.
  intros (Hnd & Hdom & Hwf). unfold foldOp. set (key := ToLower (op_Name op)).
  destruct (fs_states fs !! key) as [s|] eqn:Hs.
  - split; [done|]. split; simpl; intros k.
    + rewrite Hdom, lookup_insert_is_Some'. split; [auto|].
      intros [<-|?]; [eauto|done].
    + intros t [[<- <-]|[Hne Ht]]%lookup_insert_Some; [|eauto].
      apply stepKey_wf; eauto.
  - assert (key ∉ fs_order fs) as Hnew.
    { rewrite Hdom, Hs. by intros []. }
    split; [|split]; simpl.
    + apply NoDup_app. split; [done|]. split; [|apply NoDup_singleton].
      by intros k Hk ->%list_elem_of_singleton.
    + intros k. rewrite elem_of_app, list_elem_of_singleton, Hdom, lookup_insert_is_Some'.
      naive_solver.
    + intros k t [[<- <-]|[Hne Ht]]%lookup_insert_Some; [|eauto].
      apply stepKey_wf; [done|]. split; [done|]. split; [constructor|done].
Qed.

Lemma foldOp_net fs op k vs :
  fold_wf fs → fold_net_of (foldOp fs op) k vs = op_values k (fold_net_of fs k vs) op.
Proof.
  intros (Hnd & Hdom & Hwf). unfold foldOp, fold_net_of. set (key := ToLower (op_Name op)).
  destruct (decide (key = k)) as [<-|Hne].
  - destruct (fs_states fs !! key) as [s|] eqn:Hs; simpl; rewrite lookup_insert_eq.
    + apply stepKey_net; [done|eauto].
    + rewrite (stepKey_net key); [done..|]. split; [done|]. split; [constructor|done].
  - unfold op_values. rewrite (decide_False (P := key = k)) by done.
    destruct (fs_states fs !! key) as [s|]; simpl; by rewrite lookup_insert_ne.
Qed.

Lemma foldl_foldOp fs ops k vs :
  fold_wf fs →
  fold_wf (foldl foldOp fs ops)
  ∧ fold_net_of (foldl foldOp fs ops) k vs = sequential k ops (fold_net_of fs k vs).
Proof.
  revert fs. induction ops as [|op ops IH]; intros fs Hwf; [done|]. simpl.
  destruct (IH (foldOp fs op)) as [Hw Hn]; [by apply foldOp_wf|].
  split; [done|]. by rewrite Hn, foldOp_net.
Qed.

(** ** The operations of the other keys do not matter *)

Lemma sequential_other k ops vs :
  Forall (λ op, ToLower (op_Name op) ≠ k) ops → sequential k ops vs = vs.
Proof.
  induction 1 as [|op ops Hop Hops IH]; [done|]. unfold sequential. simpl.
  unfold op_values at 2. by rewrite decide_False.
Qed.

Lemma filter_Forall {A} (P : A → Prop) (f : A → bool) l :
  Forall P l → Forall P (List.filter f l).
Proof. induction 1; simpl; [constructor|]. destruct (f x); [by constructor|done]. Qed.

Lemma removes_first_app_other k l1 l2 vs :
  Forall (λ op, ToLower (op_Name op) ≠ k) l1 →
  removes_first k (l1 ++ l2) vs = removes_first k l2 vs.
Proof.
  intros H1. unfold removes_first. rewrite !List.filter_app, !sequential_app.
  by rewrite !(sequential_other k (List.filter _ l1)) by by apply filter_Forall.
Qed.

Lemma removes_first_app_other_r k l1 l2 vs :
  Forall (λ op, ToLower (op_Name op) ≠ k) l2 →
  removes_first k (l1 ++ l2) vs = removes_first k l1 vs.
Proof.
  intros H2. unfold removes_first. rewrite !List.filter_app, !sequential_app.
  by rewrite !(sequential_other k (List.filter _ l2)) by by apply filter_Forall.
Qed.

Lemma keyOps_names k s : key_wf k s → Forall (λ op, ToLower (op_Name op) = k) (keyOps s).
Proof.
  intros (Hn & Hops & _). unfold keyOps. destruct (ks_removed s); [by repeat constructor|].
  apply Forall_app. split; [destruct (ks_removeFirst s); by repeat constructor|].
  eapply Forall_impl; [exact Hops|]. by intros op [].
Qed.

Lemma filter_keep ops : Forall (λ op, is_remove op = false) ops →
  List.filter is_remove ops = [] ∧ List.filter (λ op, negb (is_remove op)) ops = ops.
Proof.
  induction 1 as [|op ops Hop Hops [IH1 IH2]]; simpl; [done|].
  rewrite Hop. simpl. by rewrite IH1, IH2.
Qed.

(** What a key contributes, executed with the removal first, is its net effect. *)
Lemma keyOps_net k s vs : key_wf k s → removes_first k (keyOps s) vs = key_net k s vs.
Proof.
  intros (Hn & Hops & Hrem).
  assert (op_values k vs (removeOp (ks_name s)) = []) as Hr.
  { unfold op_values. by rewrite decide_True. }
  destruct (filter_keep (ks_ops s)) as [Hf1 Hf2].
  { eapply Forall_impl; [exact Hops|]. by intros op []. }
  unfold keyOps, key_net, removes_first. destruct (ks_removed s) eqn:Hk.
  { simpl. by rewrite Hr. }
  destruct (ks_removeFirst s); simpl; rewrite Hf1, Hf2; simpl; [by rewrite Hr|done].
Qed.

Definition keyPart (fs : foldState) (key : string) : list HeaderOp :=
  match fs_states fs !! key with Some s => keyOps s | None => [] end.

Lemma keyPart_other fs k key :
  (∀ k s, fs_states fs !! k = Some s → key_wf k s) → key ≠ k →
  Forall (λ op, ToLower (op_Name op) ≠ k) (keyPart fs key).
Proof.
  intros Hwf Hne. unfold keyPart. destruct (fs_states fs !! key) as [s|] eqn:Hs; [|done].
  eapply Forall_impl; [exact (keyOps_names key s (Hwf _ _ Hs))|]. by intros op <-.
Qed.

Lemma keyParts_other fs k order :
  (∀ k s, fs_states fs !! k = Some s → key_wf k s) → k ∉ order →
  Forall (λ op, ToLower (op_Name op) ≠ k) (flat_map (keyPart fs) order).
Proof.
  intros Hwf. induction order as [|key order IH]; [constructor|].
  rewrite not_elem_of_cons. intros [Hne Hnin]. simpl. apply Forall_app.
  split; [by apply keyPart_other|auto].
Qed.

(** Reading the states off in order gives their net effect on every key. *)
Lemma orderedOps_net fs k vs :
  fold_wf fs → removes_first k (orderedOps fs) vs = fold_net_of fs k vs.
Proof.
  intros (Hnd & Hdom & Hwf). unfold orderedOps, fold_net_of.
  change (removes_first k (flat_map (keyPart fs) (fs_order fs)) vs
          = match fs_states fs !! k with Some s => key_net k s vs | None => vs end).
  destruct (fs_states fs !! k) as [s|] eqn:Hs.
  - assert (k ∈ fs_order fs) as (l1 & l2 & Hl)%list_elem_of_split by by rewrite Hdom.
    rewrite Hl in Hnd |- *.
    apply NoDup_app in Hnd as (_ & Hk1 & [Hk2 _]%NoDup_cons).
    rewrite flat_map_app. simpl.
    rewrite removes_first_app_other, removes_first_app_other_r.
    + unfold keyPart. rewrite Hs. by apply keyOps_net, Hwf.
    + by apply keyParts_other.
    + apply keyParts_other; [done|]. intros Hin. apply (Hk1 k Hin). left.
  - rewrite <-(app_nil_r (flat_map _ _)), removes_first_app_other; [done|].
    apply keyParts_other; [done|]. rewrite Hdom, Hs. by intros [].
Qed.

Lemma fold_net_lemma muts k vs :
  removes_first k (fold muts) vs = sequential k (flat_map mut_HeaderOps muts) vs.
Proof.
  unfold fold. set (fs0 := {| fs_states := ∅; fs_order := [] |}).
  assert (fold_wf fs0) as Hwf0.
  { split; [constructor|]. split; simpl.
    - intros k'. rewrite lookup_empty. split; [by intros ?%not_elem_of_nil|by intros []].
    - intros k' s. by rewrite lookup_empty. }
  destruct (foldl_foldOp fs0 (flat_map mut_HeaderOps muts) k vs Hwf0) as [Hwf Hnet].
  rewrite orderedOps_net, Hnet by done. done.
Qed.

(** ** Where the folded operations come from *)

(** A folded operation touches a name that the filters' operations touch; sets and adds
    are operations of the filters. *)
Definition from_ops (ops : list HeaderOp) (op : HeaderOp) : Prop :=
  if is_remove op then ∃ op', op' ∈ ops ∧ op_Name op' = op_Name op else op ∈ ops.

Lemma from_ops_mono ops ops' op : ops ⊆ ops' → from_ops ops op → from_ops ops' op.
Proof. unfold from_ops. destruct (is_remove op); set_solver. Qed.

Definition key_from (ops : list HeaderOp) (s : keyState) : Prop :=
  (∃ op, op ∈ ops ∧ op_Name op = ks_name s) ∧ (∀ op, op ∈ ks_ops s → op ∈ ops).

Definition fold_from (ops : list HeaderOp) (fs : foldState) : Prop :=
  ∀ k s, fs_states fs !! k = Some s → key_from ops s.

Lemma stepKey_from ops op s :
  key_from ops s → op ∈ ops → key_from ops (stepKey op s).
Proof.
  intros [Hn Hops] Hop. unfold stepKey, key_from.
  destruct (op_Kind op); (split; [exact Hn|]); simpl; intros o; set_solver.
Qed.

Lemma foldOp_from ops fs op : fold_from ops fs → op ∈ ops → fold_from ops (foldOp fs op).
Proof.
  intros Hfs Hop k s. unfold foldOp.
  destruct (fs_states fs !! ToLower (op_Name op)) as [t|] eqn:Ht; simpl;
    intros [[<- <-]|[Hne Hs]]%lookup_insert_Some; try by eapply Hfs.
  - apply stepKey_from; [by eapply Hfs|done].
  - apply stepKey_from; [|done]. split; [by exists op|]. by intros o ?%not_elem_of_nil.
Qed.

Lemma foldl_from ops ops' fs :
  fold_from ops fs → (∀ op, op ∈ ops' → op ∈ ops) → fold_from ops (foldl foldOp fs ops').
Proof.
  revert fs. induction ops' as [|op ops' IH]; intros fs Hfs Hsub; [done|]. simpl.
  apply IH; [apply foldOp_from; [done|apply Hsub; left]|].
  intros o Ho. apply Hsub. by right.
Qed.

Lemma fold_from_ops muts op :
  op ∈ fold muts → from_ops (flat_map mut_HeaderOps muts) op.
Proof.
  unfold fold, orderedOps. set (ops := flat_map mut_HeaderOps muts).
  set (fs := foldl foldOp _ ops).
  assert (fold_from ops fs) as Hfrom.
  { apply foldl_from; [|done]. intros k s. simpl. by rewrite lookup_empty. }
  assert (fold_wf fs) as (_ & _ & Hwf).
  { apply (foldl_foldOp _ ops "" []). split; [constructor|]. split; simpl.
    - intros k. rewrite lookup_empty. split; [by intros ?%not_elem_of_nil|by intros []].
    - intros k s. by rewrite lookup_empty. }
  intros (key & Hkey & Hin)%list_elem_of_In%in_flat_map.
  destruct (fs_states fs !! key) as [s|] eqn:Hs; [|by destruct Hin].
  apply list_elem_of_In in Hin. destruct (Hfrom key s Hs) as [Hn Hops].
  destruct (Hwf key s Hs) as (_ & Hk & _). unfold keyOps in Hin.
  assert (∀ l, op ∈ [removeOp (ks_name s)] ++ l ∨ op ∈ l →
    (op ∈ l → op ∈ ks_ops s) → from_ops ops op) as Hcase.
  { intros l [[->%list_elem_of_singleton|Hl]%elem_of_app|Hl] Hsub; [exact Hn|..];
      pose proof (Hsub Hl) as Hop; unfold from_ops;
      (apply (Forall_forall _ _) with (x := op) in Hk as [_ Hk]; [|done]);
      rewrite Hk; auto. }
  destruct (ks_removed s).
  { apply (Hcase []); [left; by rewrite app_nil_r|by intros ?%not_elem_of_nil]. }
  apply (Hcase (ks_ops s)); [|done].
  destruct (ks_removeFirst s); [by left|by right].
Qed.

(** ** Folding routes incrementally *)

Lemma foldRouteStep_indep r b b' m :
  (let! x := foldRouteStep (r, b) m in Ok x.1)
  = (let! x := foldRouteStep (r, b') m in Ok x.1).
Proof.
  unfold foldRouteStep. destruct (mut_Route m) as [r'|]; [|done].
  destruct (Route_Validate (Some r')); [|done]. cbn [rbind fst].
  destruct (rt_Upstream r'); [|done]. by destruct (match _ with Some _ => _ | None => _ end).
Qed.

Lemma rfold_route_indep muts r b b' :
  (let! x := rfold foldRouteStep muts (r, b) in Ok x.1)
  = (let! x := rfold foldRouteStep muts (r, b') in Ok x.1).
Proof.
  revert r b b'. induction muts as [|m muts IH]; intros r b b'; [done|]. simpl.
  pose proof (foldRouteStep_indep r b b' m) as Hm.
  destruct (foldRouteStep (r, b) m) as [[r1 b1]|e1], (foldRouteStep (r, b') m) as [[r2 b2]|e2];
    simpl in *; try discriminate; [|by injection Hm as ->].
  injection Hm as ->. apply IH.
Qed.

(** Folding the new mutations onto the route of the old ones is folding all of them. *)
Lemma foldRouteFrom_app muts1 muts2 r :
  foldRoute muts1 = Ok r →
  foldRoute (muts1 ++ muts2) = (let! x := foldRouteFrom r muts2 in Ok x.1).
Proof.
  unfold foldRoute, foldRouteFrom. rewrite rfold_app.
  destruct (rfold foldRouteStep muts1 (None, false)) as [[r1 b1]|e]; simpl; [|done].
  intros [= ->]. apply rfold_route_indep.
Qed.

(** The result is the prior pointer only when it is the prior value. *)
Lemma foldRouteFrom_same prior muts r :
  foldRouteFrom prior muts = Ok (r, false) → r = prior.
Proof.
  unfold foldRouteFrom. intros H.
  assert (∀ x, rfold foldRouteStep muts (prior, false) = Ok x → x.2 = false → x.1 = prior)
    as Hinv; [|by apply (Hinv _ H)].
  clear H r. intros x Hx. eapply (rfold_inv (λ x, x.2 = false → x.1 = prior)); [| |exact Hx].
  { done. }
  intros m [t b] [t' b'] _ Ht. unfold foldRouteStep.
  destruct (mut_Route m) as [r'|]; [|by intros [= <- <-]].
  destruct (Route_Validate (Some r')); [|done]. cbn [rbind fst].
  destruct (rt_Upstream r'); [|by intros [= <- <-]].
  destruct (match _ with Some _ => _ | None => _ end); [done|by intros [= <- <-]].
Qed.

(** ** What a folded route can be *)

Lemma foldRoute_valid muts r : foldRoute muts = Ok r → Route_Validate r = Ok ().
Proof.
  unfold foldRoute, foldRouteFrom. intros ([r' b] & Hf & [= <-])%rbind_Ok. simpl.
  apply (rfold_inv (λ x, Route_Validate x.1 = Ok ()) _ _ _ _) in Hf; [done|done|].
  intros m [t b1] [t' b2] _ Ht. unfold foldRouteStep.
  destruct (mut_Route m) as [r1|] eqn:Hm; [|by intros [= <- <-]].
  destruct (Route_Validate (Some r1)) as [[]|] eqn:Hv; [|done]. cbn [rbind fst].
  destruct (rt_Upstream r1) as [up|] eqn:Hup.
  - destruct (match _ with Some _ => _ | None => _ end); [done|]. intros [= <- <-].
    simpl in *. rewrite Hup in Hv. destruct up; exact Hv.
  - intros [= <- <-]. simpl in *. destruct t as [t|]; [|done]. simpl. exact Ht.
Qed.

(** The folded target is the one target that every mutation with a target has. *)
Lemma foldRoute_target muts r m up :
  foldRoute muts = Ok r → m ∈ muts → routeUpstream (mut_Route m) = Some up →
  routeUpstream r = Some up.
Proof.
  unfold foldRoute, foldRouteFrom. intros ([r' b] & Hf & [= <-])%rbind_Ok Hm Hup.
  apply list_elem_of_split in Hm as (l1 & l2 & ->).
  rewrite rfold_app in Hf. apply rbind_Ok in Hf as ([r1 b1] & Hl1 & Hf). simpl in Hf.
  apply rbind_Ok in Hf as ([r2 b2] & Hstep & Hl2). simpl.
  assert (routeUpstream r2 = Some up) as H2.
  { unfold foldRouteStep in Hstep. destruct (mut_Route m) as [rm|]; [|done].
    simpl in Hup. apply rbind_Ok in Hstep as (? & _ & Hstep). rewrite Hup in Hstep.
    cbn [rbind fst] in Hstep.
    destruct (match rt_Upstream _ with Some _ => _ | None => _ end); [done|].
    injection Hstep as <- <-. simpl. by destruct up. }
  apply (rfold_inv (λ x, routeUpstream x.1 = Some up) _ _ _ _) in Hl2; [done|done|].
  intros m' [t b3] [t' b4] _ Ht. unfold foldRouteStep.
  destruct (mut_Route m') as [rm|]; [|by intros [= <- <-]].
  destruct (Route_Validate (Some rm)); [|done]. cbn [rbind fst].
  destruct t as [t|]; [|done]. simpl in Ht. simpl. rewrite Ht.
  destruct (rt_Upstream rm) as [up'|]; [|by intros [= <- <-]].
  case_bool_decide as Hc; [done|]. intros [= <- <-]. simpl.
  destruct up, up'; simpl in *; congruence.
Qed.

End fold.
