(* ===== verification/Engine.v ===== *)
(** * The policy engine

    src/extensions/epe/pkg/engine/eval.go and invoke.go: the evaluation of the policy
    units that apply to a request, by the filters registered for their configurations.
    Units run in policy order and, inside a unit, filters in registration order. The
    observations of a stream ([Stream.Info]) and the world are the [Run] that every call
    threads. Evaluation budgets, metrics and logs are effects outside of it: a callback
    that runs out of its budget is one that returns an error. *)

From S2P Require Import Prelude Netip Filter Fold.

Section engine.
Context `{CF : CaseFolding} `{D : Deployment} `{FL : !Filters}.

(** ** Engine, cursors and pairs *)

Record Engine := { eng_regs : list Registration }.

Record evalCursor := { cur_unit : nat; cur_regIdx : nat }.

#[export] Instance evalCursor_eq_dec : EqDecision evalCursor.
Proof. solve_decision. Defined.

Definition startCursor : evalCursor := {| cur_unit := 0; cur_regIdx := 0 |}.

Definition next (numRegs : nat) (c : evalCursor) : evalCursor :=
  if decide (S (cur_regIdx c) = numRegs)
  then {| cur_unit := S (cur_unit c); cur_regIdx := 0 |}
  else {| cur_unit := cur_unit c; cur_regIdx := S (cur_regIdx c) |}.

Record pair := {
  p_at : evalCursor;
  p_reg : Registration;
  p_unit : Unit;
  p_cfg : Cfg
}.

(** The pair at a coordinate, when it has a configuration and a wanted phase. *)
Definition pairOf (e : Engine) (phases : Phase) (u : nat) (unit : Unit) (regIdx : nat)
    : option pair :=
  match eng_regs e !! regIdx, un_Cfgs unit !! regIdx with
  | Some reg, Some (Some cfg) =>
      if meets (reg_Phases reg) phases
      then Some {| p_at := {| cur_unit := u; cur_regIdx := regIdx |};
                   p_reg := reg; p_unit := unit; p_cfg := cfg |}
      else None
  | _, _ => None
  end.

Definition unitPairs (e : Engine) (phases : Phase) (start : evalCursor) (units : list Unit)
    (u : nat) : list pair :=
  match units !! u with
  | Some unit =>
      let regStart := if decide (u = cur_unit start) then cur_regIdx start else 0 in
      omap (pairOf e phases u unit) (seq regStart (length (eng_regs e) - regStart))
  | None => []
  end.

(** The iterator [pairs], as the list of what it yields. *)
Definition pairs (e : Engine) (units : list Unit) (start : evalCursor) (phases : Phase)
    : list pair :=
  flat_map (unitPairs e phases start units)
    (seq (cur_unit start) (length units - cur_unit start)).

(** [pairAt]; [None] is an index out of range, or a nil configuration. *)
Definition pairAt (e : Engine) (units : list Unit) (at_ : evalCursor) : option pair :=
  match eng_regs e !! cur_regIdx at_, units !! cur_unit at_ with
  | Some reg, Some unit =>
      match un_Cfgs unit !! cur_regIdx at_ with
      | Some (Some cfg) =>
          Some {| p_at := at_; p_reg := reg; p_unit := unit; p_cfg := cfg |}
      | _ => None
      end
  | _, _ => None
  end.

(** An index out of range ends the evaluation in a panic; it is an error of its own here,
    and [EngineWalks] shows that no evaluation reaches it. *)
Definition panicIndex : string := "index out of range".

Definition newFilter (p : pair) : FilterInstance :=
  reg_New (p_reg p)
    {| ec_ID := un_ID (p_unit p); ec_Cfg := p_cfg p; ec_Scope := un_Scope (p_unit p) |}.

(** ** Scopes of a bypass *)

Record ResponseScope := { sc_bounded : bool; sc_last : evalCursor }.

Definition unboundedScope : ResponseScope :=
  {| sc_bounded := false; sc_last := startCursor |}.

Definition excludes (s : ResponseScope) (unit regIdx : nat) : bool :=
  if sc_bounded s then
    bool_decide (cur_unit (sc_last s) < unit)
    || bool_decide (unit = cur_unit (sc_last s)) && bool_decide (cur_regIdx (sc_last s) < regIdx)
  else false.

(** ** Validation *)

Definition validateUnits (e : Engine) (units : list Unit) : result unit :=
  rfold (λ _ u, if decide (length (un_Cfgs u) = length (eng_regs e)) then Ok ()
                else Err "unit config count does not match registration count")
    units ().

Definition SubscribablePhases : Phase := PhaseResponseHeaders.

Definition subscribeStep (acc : Phase) (p : pair) : result Phase :=
  match reg_Subscribes (p_reg p) with
  | None => Ok acc
  | Some subscribes =>
      let s := subscribes (p_cfg p) in
      if negb (N.ldiff s SubscribablePhases =? 0)%N
      then Err "filter subscribes to phases the engine cannot open"
      else Ok (N.lor acc s)
  end.

Definition ValidateSubscriptions (e : Engine) (units : list Unit) : result Phase :=
  let! _ := validateUnits e units in
  rfold subscribeStep (pairs e units startCursor DispatchedPhases) 0%N.

Definition routingNames : list string := ["host"; ":authority"; ":scheme"; ":method"].

Definition validateOp (phase : Phase) (op : HeaderOp) : result unit :=
  if (phase =? PhaseRequestBody)%N && bool_decide (ToLower (op_Name op) ∈ routingNames)
  then Err "filter cannot modify a routing header after request headers"
  else if EqualFold (op_Name op) ":status"
  then Err "filter returned :status as a header mutation"
  else Ok ().

Definition clearsCache (m : Mutation) : bool :=
  match mut_Route m with Some r => rt_ClearCache r | None => false end.

Definition requestPhase (phase : Phase) : bool :=
  ((phase =? PhaseRequestHeaders) || (phase =? PhaseRequestBody))%N.

Definition responsePhase (phase : Phase) : bool :=
  ((phase =? PhaseResponseHeaders) || (phase =? PhaseResponseBody))%N.

Definition validateMutation (phase : Phase) (m : Mutation) : result unit :=
  let! _ := Route_Validate (mut_Route m) in
  if bool_decide (routeUpstream (mut_Route m) ≠ None)
     && negb (phase =? PhaseRequestHeaders)%N
  then Err "filter returned an upstream target outside request headers"
  else if (phase =? PhaseRequestBody)%N && clearsCache m
  then Err "filter cannot clear the route cache after request headers"
  else
    let! _ := rfold (λ _ op, validateOp phase op) (mut_HeaderOps m) () in
    if requestPhase phase then
      match mut_StatusCode m with
      | Some _ => Err "filter returned a response status mutation from a request phase"
      | None => Ok ()
      end
    else if responsePhase phase then
      if clearsCache m
      then Err "filter asked to clear the route cache from a response phase"
      else match mut_StatusCode m with
           | Some c => if (c <? 200)%Z || (599 <? c)%Z
                       then Err "filter returned response status outside 200..599"
                       else Ok ()
           | None => Ok ()
           end
    else Ok ().

Definition validateKind (reg : Registration) (phase : Phase) (act : Action)
    : result unit :=
  match act with
  | NeedBody _ =>
      if (phase =? PhaseRequestHeaders)%N then
        if meets (reg_Phases reg) PhaseRequestBody then Ok ()
        else Err "filter returned NeedBody without declaring request-body support"
      else if (phase =? PhaseResponseHeaders)%N then
        if meets (reg_Phases reg) PhaseResponseBody then Ok ()
        else Err "filter returned NeedBody without declaring response-body support"
      else Err "filter returned NeedBody from a body phase"
  | _ => Ok ()
  end.

Definition validateAction (reg : Registration) (phase : Phase) (act : Action)
    : result unit :=
  let! _ := validateKind reg phase act in
  rfold (λ _ m, validateMutation phase m) (Mutations act) ().

(** ** Invocations *)

Record Run := { run_world : World; run_info : option StreamInfo }.

Definition phaseLabel (phase : Phase) : string :=
  if (phase =? PhaseRequestHeaders)%N then "request_headers"
  else if (phase =? PhaseRequestBody)%N then "body_finalize"
  else if (phase =? PhaseResponseHeaders)%N then "response_headers"
  else "response_body".

(** The label of the outcome that a return is counted under. *)
Definition classifyOutcome (res : result Action) : string :=
  match res with
  | Err _ => "error"
  | Ok (Stop _) | Ok Bypass => "immediate"
  | Ok (NeedBody _) => "record"
  | Ok (Continue []) => "continue"
  | Ok (Continue _) => "mutate"
  end.

Definition error_of {A} (res : result A) : option string :=
  match res with Ok _ => None | Err e => Some e end.

Definition invoke (p : pair) (phase : Phase) (call : Callback) (r : Run)
    : FilterInstance * result Action * Run :=
  let '(f, w, res) := call (run_world r) in
  (f, res,
   {| run_world := w;
      run_info := RecordFilter
        {| fr_Filter := reg_Name (p_reg p); fr_Phase := phaseLabel phase;
           fr_Outcome := classifyOutcome res; fr_Err := error_of res |} (run_info r) |}).

(** ** The reduction of actions *)

Record actionWalk := {
  aw_disposition : Disposition;
  aw_reply : Reply;
  aw_pending : list Mutation
}.

Definition newActionWalk : actionWalk :=
  {| aw_disposition := DispositionPassthrough; aw_reply := emptyReply; aw_pending := [] |}.

Definition with_pending (ms : list Mutation) (w : actionWalk) : actionWalk :=
  {| aw_disposition := aw_disposition w; aw_reply := aw_reply w; aw_pending := ms |}.

Definition with_disposition (d : Disposition) (w : actionWalk) : actionWalk :=
  {| aw_disposition := d; aw_reply := aw_reply w; aw_pending := aw_pending w |}.

Definition record (p : pair) (kind : UnitActionKind) (r : Run) : Run :=
  {| run_world := run_world r;
     run_info := RecordUnitAction (un_ID (p_unit p)) (reg_Name (p_reg p)) kind (run_info r) |}.

Definition resolved (w : actionWalk) : Disposition :=
  match aw_disposition w, aw_pending w with
  | DispositionPassthrough, _ :: _ => DispositionMutated
  | d, _ => d
  end.

Record actionResult := {
  ar_disposition : Disposition;
  ar_reply : Reply;
  ar_headerOps : list HeaderOp;
  ar_route : option RouteMutation;
  ar_body : option string;
  ar_statusCode : option Z
}.

(** [actionWalk.result]; the error comes with a result of its own. *)
Definition walkResult (w : actionWalk) : actionResult * option string :=
  match foldPending (aw_pending w) with
  | Err e =>
      ({| ar_disposition := DispositionError; ar_reply := emptyReply; ar_headerOps := [];
          ar_route := None; ar_body := None; ar_statusCode := None |}, Some e)
  | Ok (ops, route, body, code) =>
      ({| ar_disposition := resolved w; ar_reply := aw_reply w; ar_headerOps := ops;
          ar_route := route; ar_body := body; ar_statusCode := code |}, None)
  end.

Definition halted (w : actionWalk) : bool :=
  match aw_disposition w with
  | DispositionBlocked | DispositionBypassed | DispositionError => true
  | _ => false
  end.

Definition adopt (remaining w : actionWalk) : actionWalk :=
  {| aw_disposition := aw_disposition remaining;
     aw_reply := aw_reply remaining;
     aw_pending := match aw_disposition remaining with
                   | DispositionBlocked => []
                   | _ => aw_pending w ++ aw_pending remaining
                   end |}.

Definition apply (p : pair) (act : Action) (w : actionWalk) (r : Run)
    : result (actionWalk * Run) :=
  match act with
  | Stop reply =>
      Ok ({| aw_disposition := DispositionBlocked; aw_reply := reply; aw_pending := [] |},
          record p ActionBlock r)
  | Bypass => Ok (with_disposition DispositionBypassed w, record p ActionBypass r)
  | Continue [] => Ok (w, r)
  | Continue ms => Ok (with_pending (aw_pending w ++ ms) w, record p ActionMutate r)
  | NeedBody _ => Err "filter returned an action the walk cannot fold"
  end.

Definition failurePolicy (reg : Registration) (cfg : Cfg) : FailurePolicy :=
  match reg_OnError reg with None => FailClosed | Some onError => onError cfg end.

Definition failClosedStatus : Z := 500.

Definition failClosedDetails (phase : Phase) : string :=
  if (phase =? PhaseRequestHeaders)%N then "epe_request_headers_failed_closed"
  else if (phase =? PhaseRequestBody)%N then "epe_request_body_failed_closed"
  else if (phase =? PhaseResponseHeaders)%N then "epe_response_headers_failed_closed"
  else if (phase =? PhaseResponseBody)%N then "epe_response_body_failed_closed"
  else "epe_filter_failed_closed".

Definition failClosedReply (phase : Phase) : Reply :=
  {| rep_Status := failClosedStatus; rep_HeaderOps := []; rep_Body := "";
     rep_Details := failClosedDetails phase |}.

Definition filterFailed (p : pair) (phase : Phase) (err : string) (w : actionWalk) (r : Run)
    : actionWalk * Run :=
  match failurePolicy (p_reg p) (p_cfg p) with
  | FailOpen => (w, record p ActionErrorOpen r)
  | FailClosed =>
      ({| aw_disposition := DispositionBlocked; aw_reply := failClosedReply phase;
          aw_pending := [] |},
       record p ActionErrorClosed
         {| run_world := run_world r; run_info := set_Error err <$> run_info r |})
  end.

(** ** Walks and the interface of the body ladder *)

Record requestBodyInvocation := { bi_at : evalCursor; bi_f : FilterInstance }.

Record requestWalk := {
  rw_walk : actionWalk;
  rw_scope : ResponseScope;
  rw_bodyFilters : list requestBodyInvocation;
  rw_view : option Stream;
  rw_viewed : nat;
  rw_route : option RouteMutation
}.

Definition with_walk (w : actionWalk) (rw : requestWalk) : requestWalk :=
  {| rw_walk := w; rw_scope := rw_scope rw; rw_bodyFilters := rw_bodyFilters rw;
     rw_view := rw_view rw; rw_viewed := rw_viewed rw; rw_route := rw_route rw |}.

Definition newRequestWalk (scope : ResponseScope) (pending : list Mutation) : requestWalk :=
  {| rw_walk := with_pending pending newActionWalk; rw_scope := scope;
     rw_bodyFilters := []; rw_view := None; rw_viewed := 0; rw_route := None |}.

(** [requestWalk.apply] adds the scope of a bypass. *)
Definition requestApply (p : pair) (act : Action) (rw : requestWalk) (r : Run)
    : result (requestWalk * Run) :=
  let! (w, r) := apply p act (rw_walk rw) r in
  let rw := with_walk w rw in
  match act with
  | Bypass =>
      Ok ({| rw_walk := rw_walk rw; rw_scope := {| sc_bounded := true; sc_last := p_at p |};
             rw_bodyFilters := rw_bodyFilters rw; rw_view := rw_view rw;
             rw_viewed := rw_viewed rw; rw_route := rw_route rw |}, r)
  | _ => Ok (rw, r)
  end.

Class applier (Wk : Type) := {
  applier_filterFailed : pair → Phase → string → Wk → Run → Wk * Run;
  applier_apply : pair → Action → Wk → Run → result (Wk * Run);
  applier_halted : Wk → bool
}.

#[export] Instance requestWalk_applier : applier requestWalk := {|
  applier_filterFailed p phase err rw r :=
    let '(w, r) := filterFailed p phase err (rw_walk rw) r in (with_walk w rw, r);
  applier_apply := requestApply;
  applier_halted rw := halted (rw_walk rw)
|}.

(** The outcome of an iteration: go on, or leave the loop with an error or without. *)
Inductive flow := Proceed | Return (err : option string).

(** A failed invocation and a validated action, reduced into the walk: it goes on, or has
    halted. *)
Definition failed {Wk} `{applier Wk} (p : pair) (phase : Phase) (err : string) (w : Wk)
    (r : Run) : flow * Wk * Run :=
  let '(w, r) := applier_filterFailed p phase err w r in
  (if applier_halted w then Return None else Proceed, w, r).

Definition applied {Wk} `{applier Wk} (p : pair) (act : Action) (w : Wk) (r : Run)
    : flow * Wk * Run :=
  match applier_apply p act w r with
  | Err e => (Return (Some e), w, r)
  | Ok (w, r) => (if applier_halted w then Return None else Proceed, w, r)
  end.

(** [invokeBody]: the flow is [Return None] when the walk halted. *)
Definition invokeBody {Wk} `{applier Wk} (p : pair) (phase : Phase) (call : Callback)
    (w : Wk) (r : Run) : flow * Wk * Run :=
  let '(_, res, r) := invoke p phase call r in
  match res with
  | Err e => failed p phase e w r
  | Ok act =>
      match validateAction (p_reg p) phase act with
      | Err e => (Return (Some e), w, r)
      | Ok _ => applied p act w r
      end
  end.

(** ** Request headers *)

(** [streamView]: the stream with the target routed so far, kept until the route is a new
    pointer. *)
Definition streamView (st : Stream) (rw : requestWalk) : result (Stream * requestWalk) :=
  let! (route, fresh) :=
    foldRouteFrom (rw_route rw) (drop (rw_viewed rw) (aw_pending (rw_walk rw))) in
  let viewed := length (aw_pending (rw_walk rw)) in
  match rw_view rw, fresh with
  | Some view, false =>
      Ok (view, {| rw_walk := rw_walk rw; rw_scope := rw_scope rw;
                   rw_bodyFilters := rw_bodyFilters rw; rw_view := Some view;
                   rw_viewed := viewed; rw_route := rw_route rw |})
  | _, _ =>
      let view := match routeUpstream route with
                  | Some up => set_Upstream (Some up) st
                  | None => st
                  end in
      Ok (view, {| rw_walk := rw_walk rw; rw_scope := rw_scope rw;
                   rw_bodyFilters := rw_bodyFilters rw; rw_view := Some view;
                   rw_viewed := viewed; rw_route := route |})
  end.

(** The body of the loop of [walkRequest]: the view, and the callback on it. *)
Definition requestInvoke (view : Stream) (p : pair) (rw : requestWalk) (r : Run)
    : flow * requestWalk * Run :=
  let '(f, res, r) :=
    invoke p PhaseRequestHeaders (OnRequestHeaders (newFilter p) view) r in
  match res with
  | Err e => failed p PhaseRequestHeaders e rw r
  | Ok act =>
      match validateAction (p_reg p) PhaseRequestHeaders act with
      | Err e => (Return (Some e), rw, r)
      | Ok _ =>
          match act with
          | NeedBody ms =>
              (Proceed,
               {| rw_walk := with_pending (aw_pending (rw_walk rw) ++ ms) (rw_walk rw);
                  rw_scope := rw_scope rw;
                  rw_bodyFilters := rw_bodyFilters rw ++ [{| bi_at := p_at p; bi_f := f |}];
                  rw_view := rw_view rw; rw_viewed := rw_viewed rw;
                  rw_route := rw_route rw |},
               record p ActionNeedBody r)
          | _ => applied p act rw r
          end
      end
  end.

Definition requestStep (st : Stream) (p : pair) (rw : requestWalk) (r : Run)
    : flow * requestWalk * Run :=
  match streamView st rw with
  | Err e => (Return (Some e), rw, r)
  | Ok (view, rw) => requestInvoke view p rw r
  end.

(** A loop of iterations. *)
Fixpoint loop {A Wk} (step : A → Wk → Run → flow * Wk * Run) (l : list A) (w : Wk) (r : Run)
    : Wk * option string * Run :=
  match l with
  | [] => (w, None, r)
  | x :: l =>
      match step x w r with
      | (Proceed, w, r) => loop step l w r
      | (Return err, w, r) => (w, err, r)
      end
  end.

Definition walkRequest (e : Engine) (st : Stream) (units : list Unit) (r : Run)
    : requestWalk * option string * Run :=
  loop (requestStep st) (pairs e units startCursor PhaseRequestHeaders)
    (newRequestWalk unboundedScope []) r.

Record RequestHeadersResult := {
  rh_Disposition : Disposition;
  rh_Reply : Reply;
  rh_HeaderOps : list HeaderOp;
  rh_Route : option RouteMutation;
  rh_Body : option string;
  rh_ResponseScope : ResponseScope;
  rh_bodyFilters : list requestBodyInvocation;
  rh_units : list Unit;
  rh_pending : list Mutation
}.

Definition emptyHeadersResult : RequestHeadersResult :=
  {| rh_Disposition := DispositionPassthrough; rh_Reply := emptyReply; rh_HeaderOps := [];
     rh_Route := None; rh_Body := None; rh_ResponseScope := unboundedScope;
     rh_bodyFilters := []; rh_units := []; rh_pending := [] |}.

(** Assignments to fields of a result. *)
Definition with_Route (route : option RouteMutation) (res : RequestHeadersResult)
    : RequestHeadersResult :=
  {| rh_Disposition := rh_Disposition res; rh_Reply := rh_Reply res;
     rh_HeaderOps := rh_HeaderOps res; rh_Route := route; rh_Body := rh_Body res;
     rh_ResponseScope := rh_ResponseScope res; rh_bodyFilters := rh_bodyFilters res;
     rh_units := rh_units res; rh_pending := rh_pending res |}.

Definition with_Block (reply : Reply) (res : RequestHeadersResult) : RequestHeadersResult :=
  {| rh_Disposition := DispositionBlocked; rh_Reply := reply;
     rh_HeaderOps := rh_HeaderOps res; rh_Route := rh_Route res; rh_Body := rh_Body res;
     rh_ResponseScope := rh_ResponseScope res; rh_bodyFilters := rh_bodyFilters res;
     rh_units := rh_units res; rh_pending := rh_pending res |}.

Definition NeedsBody (res : RequestHeadersResult) : bool :=
  bool_decide (rh_Disposition res ≠ DispositionBlocked)
  && match rh_bodyFilters res with [] => false | _ => true end.

Record RequestBodyResult := {
  rb_Disposition : Disposition;
  rb_Reply : Reply;
  rb_HeaderOps : list HeaderOp;
  rb_Route : option RouteMutation;
  rb_Body : option string;
  rb_ResponseScope : ResponseScope
}.

Definition HeadersResult (res : RequestBodyResult) : RequestHeadersResult :=
  {| rh_Disposition := rb_Disposition res; rh_Reply := rb_Reply res;
     rh_HeaderOps := rb_HeaderOps res; rh_Route := rb_Route res; rh_Body := rb_Body res;
     rh_ResponseScope := rb_ResponseScope res; rh_bodyFilters := []; rh_units := [];
     rh_pending := [] |}.

(** ** Request bodies *)

(** The body of the loop of [EvalRequestBody]. *)
Definition bodyStep (e : Engine) (units : list Unit) (view : Stream) (body : Body)
    (inv : requestBodyInvocation) (rw : requestWalk) (r : Run) : flow * requestWalk * Run :=
  match pairAt e units (bi_at inv) with
  | None => (Return (Some panicIndex), rw, r)
  | Some p => invokeBody p PhaseRequestBody (OnRequestBody (bi_f inv) view body) rw r
  end.

Definition first_error (a b : option string) : option string :=
  match a with Some _ => a | None => b end.

Definition EvalRequestBody (e : Engine) (st : Stream) (prior : option RequestHeadersResult)
    (body : Body) (r : Run) : RequestBodyResult * option string * Run :=
  let passthrough := {| rb_Disposition := DispositionPassthrough; rb_Reply := emptyReply;
                        rb_HeaderOps := []; rb_Route := None; rb_Body := None;
                        rb_ResponseScope := unboundedScope |} in
  match prior with
  | None => (passthrough, None, r)
  | Some prior =>
      if negb (NeedsBody prior) then (passthrough, None, r) else
      let view := match routeUpstream (rh_Route prior) with
                  | Some up => set_Upstream (Some up) st
                  | None => st
                  end in
      let '(rw, err, r) :=
        loop (bodyStep e (rh_units prior) view body) (rh_bodyFilters prior)
          (newRequestWalk (rh_ResponseScope prior) (rh_pending prior)) r in
      let w := if negb (halted (rw_walk rw))
                  && bool_decide (rh_Disposition prior = DispositionBypassed)
               then with_disposition DispositionBypassed (rw_walk rw) else rw_walk rw in
      let '(reduced, routeErr) := walkResult w in
      let route := if bool_decide (ar_disposition reduced ≠ DispositionBlocked)
                      && bool_decide (rh_Route prior ≠ None)
                   then rh_Route prior else ar_route reduced in
      ({| rb_Disposition := ar_disposition reduced; rb_Reply := ar_reply reduced;
          rb_HeaderOps := ar_headerOps reduced; rb_Route := route;
          rb_Body := ar_body reduced; rb_ResponseScope := rw_scope rw |},
       first_error err routeErr, r)
  end.

Definition EvalRequestHeaders (e : Engine) (st : Stream) (units : list Unit)
    (body : option Body) (r : Run) : RequestHeadersResult * option string * Run :=
  match validateUnits e units with
  | Err err => (emptyHeadersResult, Some err, r)
  | Ok _ =>
      let '(rw, err, r) := walkRequest e st units r in
      let '(reduced, routeErr) := walkResult (rw_walk rw) in
      let err := first_error err routeErr in
      let res := {| rh_Disposition := ar_disposition reduced; rh_Reply := ar_reply reduced;
                    rh_HeaderOps := ar_headerOps reduced; rh_Route := ar_route reduced;
                    rh_Body := ar_body reduced; rh_ResponseScope := rw_scope rw;
                    rh_bodyFilters := rw_bodyFilters rw; rh_units := units;
                    rh_pending := aw_pending (rw_walk rw) |} in
      match err, body with
      | None, Some body =>
          if NeedsBody res then
            let '(br, bodyErr, r) := EvalRequestBody e st (Some res) body r in
            (HeadersResult br, bodyErr, r)
          else (res, err, r)
      | _, _ => (res, err, r)
      end
  end.

(** ** Responses *)

Record responseContinuation := {
  rc_units : list Unit;
  rc_f : FilterInstance;
  rc_at : evalCursor;
  rc_pending : list Mutation;
  rc_scope : ResponseScope
}.

Record responseWalk := {
  pw_walk : actionWalk;
  pw_needsBody : bool;
  pw_continuation : option responseContinuation
}.

(** The embedded walk's methods. *)
#[export] Instance responseWalk_applier : applier responseWalk := {|
  applier_filterFailed p phase err pw r :=
    let '(w, r) := filterFailed p phase err (pw_walk pw) r in
    ({| pw_walk := w; pw_needsBody := pw_needsBody pw;
        pw_continuation := pw_continuation pw |}, r);
  applier_apply p act pw r :=
    let! (w, r) := apply p act (pw_walk pw) r in
    Ok ({| pw_walk := w; pw_needsBody := pw_needsBody pw;
           pw_continuation := pw_continuation pw |}, r);
  applier_halted pw := halted (pw_walk pw)
|}.

Definition newResponseWalk (pending : list Mutation) : responseWalk :=
  {| pw_walk := with_pending pending newActionWalk; pw_needsBody := false;
     pw_continuation := None |}.

Definition subscribed (scope : ResponseScope) (p : pair) : bool :=
  negb (excludes scope (cur_unit (p_at p)) (cur_regIdx (p_at p)))
  && match reg_Subscribes (p_reg p) with
     | None => false
     | Some subscribes => meets (subscribes (p_cfg p)) PhaseResponseHeaders
     end.

(** The body of the loop of [walkResponse]. *)
Definition responseStep (st : Stream) (units : list Unit) (scope : ResponseScope)
    (body : option Body) (p : pair) (pw : responseWalk) (r : Run)
    : flow * responseWalk * Run :=
  if negb (subscribed scope p) then (Proceed, pw, r) else
  let '(f, res, r) :=
    invoke p PhaseResponseHeaders (OnResponseHeaders (newFilter p) st) r in
  match res with
  | Err e => failed p PhaseResponseHeaders e pw r
  | Ok act =>
      match validateAction (p_reg p) PhaseResponseHeaders act with
      | Err e => (Return (Some e), pw, r)
      | Ok _ =>
          match act with
          | NeedBody ms =>
              let w := with_pending (aw_pending (pw_walk pw) ++ ms) (pw_walk pw) in
              let r := record p ActionNeedBody r in
              match body with
              | None =>
                  (Return None,
                   {| pw_walk := with_pending [] w; pw_needsBody := true;
                      pw_continuation :=
                        Some {| rc_units := units; rc_f := f; rc_at := p_at p;
                                rc_pending := aw_pending w; rc_scope := scope |} |}, r)
              | Some body =>
                  invokeBody p PhaseResponseBody (OnResponseBody f st body)
                    {| pw_walk := w; pw_needsBody := pw_needsBody pw;
                       pw_continuation := pw_continuation pw |} r
              end
          | _ => applied p act pw r
          end
      end
  end.

Definition walkResponse (e : Engine) (st : Stream) (units : list Unit) (start : evalCursor)
    (scope : ResponseScope) (body : option Body) (r : Run)
    : responseWalk * option string * Run :=
  loop (responseStep st units scope body) (pairs e units start PhaseResponseHeaders)
    (newResponseWalk []) r.

Record ResponseHeadersResult := {
  ph_Disposition : Disposition;
  ph_Reply : Reply;
  ph_HeaderOps : list HeaderOp;
  ph_Body : option string;
  ph_StatusCode : option Z;
  ph_needsBody : bool;
  ph_continuation : option responseContinuation
}.

Definition emptyResponseResult : ResponseHeadersResult :=
  {| ph_Disposition := DispositionPassthrough; ph_Reply := emptyReply; ph_HeaderOps := [];
     ph_Body := None; ph_StatusCode := None; ph_needsBody := false;
     ph_continuation := None |}.

Definition EvalResponseHeaders (e : Engine) (st : Stream) (units : list Unit)
    (scope : ResponseScope) (body : option Body) (r : Run)
    : ResponseHeadersResult * option string * Run :=
  match ValidateSubscriptions e units with
  | Err err => (emptyResponseResult, Some err, r)
  | Ok subscriptions =>
      if negb (meets subscriptions PhaseResponseHeaders)
      then (emptyResponseResult, None, r) else
      let '(pw, err, r) := walkResponse e st units startCursor scope body r in
      let '(reduced, routeErr) := walkResult (pw_walk pw) in
      ({| ph_Disposition := ar_disposition reduced; ph_Reply := ar_reply reduced;
          ph_HeaderOps := ar_headerOps reduced; ph_Body := ar_body reduced;
          ph_StatusCode := ar_statusCode reduced; ph_needsBody := pw_needsBody pw;
          ph_continuation := pw_continuation pw |},
       first_error err routeErr, r)
  end.

Record ResponseBodyResult := {
  pb_Disposition : Disposition;
  pb_Reply : Reply;
  pb_HeaderOps : list HeaderOp;
  pb_Body : option string;
  pb_StatusCode : option Z
}.

Definition EvalResponseBody (e : Engine) (st : Stream) (prior : option ResponseHeadersResult)
    (body : Body) (r : Run) : ResponseBodyResult * option string * Run :=
  match prior ≫= ph_continuation with
  | None =>
      ({| pb_Disposition := DispositionPassthrough; pb_Reply := emptyReply;
          pb_HeaderOps := []; pb_Body := None; pb_StatusCode := None |}, None, r)
  | Some cont =>
      let '(fl, pw, r) :=
        match pairAt e (rc_units cont) (rc_at cont) with
        | None => (Return (Some panicIndex), newResponseWalk (rc_pending cont), r)
        | Some p =>
            invokeBody p PhaseResponseBody (OnResponseBody (rc_f cont) st body)
              (newResponseWalk (rc_pending cont)) r
        end in
      let '(w, err, r) :=
        match fl with
        | Return err => (pw_walk pw, err, r)
        | Proceed =>
            let '(remaining, walkErr, r) :=
              walkResponse e st (rc_units cont) (next (length (eng_regs e)) (rc_at cont))
                (rc_scope cont) (Some body) r in
            (adopt (pw_walk remaining) (pw_walk pw), walkErr, r)
        end in
      let '(reduced, routeErr) := walkResult w in
      ({| pb_Disposition := ar_disposition reduced; pb_Reply := ar_reply reduced;
          pb_HeaderOps := ar_headerOps reduced; pb_Body := ar_body reduced;
          pb_StatusCode := ar_statusCode reduced |},
       first_error err routeErr, r)
  end.

End engine.
