(* ===== verification/EngineWalks.v ===== *)
(** * Walks of the policy engine

    Lemmas on the pairs that a walk visits, on the frame of a response walk (what a later
    part of it does not depend on), on what an evaluation validates, and on the target
    that filters see. *)

From S2P Require Import Prelude Netip Filter Fold Engine.

Section walks.
Context `{CF : CaseFolding} `{D : Deployment} `{FL : !Filters}.

(** ** Pairs *)

Lemma seq_cons i n : i < n → seq i (n - i) = i :: seq (S i) (n - S i).
Proof. intros. by replace (n - i) with (S (n - S i)) by lia. Qed.

Lemma flat_map_ext_in {A B} (f g : A → list B) l :
  (∀ x, x ∈ l → f x = g x) → flat_map f l = flat_map g l.
Proof.
  induction l as [|x l IH]; intros Hfg; simpl; [done|].
  rewrite Hfg by left. f_equal. apply IH. intros y Hy. apply Hfg. by right.
Qed.

(** The walk from a cursor visits the pair at the cursor, then goes on from the next. *)
Lemma pairs_next e units c phases unit :
  units !! cur_unit c = Some unit → cur_regIdx c < length (eng_regs e) →
  pairs e units c phases
  = option_list (pairOf e phases (cur_unit c) unit (cur_regIdx c))
    ++ pairs e units (next (length (eng_regs e)) c) phases.
Proof.
  intros Hu Hi. assert (cur_unit c < length units) as Hlt by by eapply lookup_lt_Some.
  unfold pairs at 1. rewrite seq_cons by done. simpl.
  unfold unitPairs at 1. rewrite Hu, decide_True by done. rewrite seq_cons by done.
  simpl. set (n := length (eng_regs e)) in *.
  assert (flat_map (unitPairs e phases c units) (seq (S (cur_unit c)) (length units - S (cur_unit c)))
    = flat_map (unitPairs e phases {| cur_unit := S (cur_unit c); cur_regIdx := 0 |} units)
        (seq (S (cur_unit c)) (length units - S (cur_unit c)))) as Hrest.
  { apply flat_map_ext_in. intros u [Hu1 _]%elem_of_seq. unfold unitPairs.
    destruct (units !! u); [|done]. rewrite decide_False by lia. simpl.
    by destruct (decide (u = S (cur_unit c))). }
  assert (omap (pairOf e phases (cur_unit c) unit) (cur_regIdx c :: seq (S (cur_regIdx c)) (n - S (cur_regIdx c)))
    = option_list (pairOf e phases (cur_unit c) unit (cur_regIdx c))
      ++ omap (pairOf e phases (cur_unit c) unit) (seq (S (cur_regIdx c)) (n - S (cur_regIdx c)))) as Hom.
  { simpl. by destruct (pairOf _ _ _ _ _). }
  simpl in Hom. rewrite Hom, <-app_assoc. f_equal.
  unfold next. case_decide as Hn.
  - replace (n - S (cur_regIdx c)) with 0 by lia. simpl. rewrite Hrest. done.
  - unfold pairs. simpl. rewrite (seq_cons (cur_unit c)) by done. simpl. unfold unitPairs at 2. simpl.
    rewrite Hu, decide_True by done. f_equal. apply flat_map_ext_in.
    intros u [Hu1 _]%elem_of_seq. unfold unitPairs. simpl.
    destruct (units !! u); [|done]. by rewrite !decide_False by lia.
Qed.

Lemma pairs_end e units c phases : length units ≤ cur_unit c → pairs e units c phases = [].
Proof. intros. unfold pairs. by replace (length units - cur_unit c) with 0 by lia. Qed.

Lemma pairs_no_regs e units c phases : eng_regs e = [] → pairs e units c phases = [].
Proof.
  intros He. unfold pairs. induction (seq _ _) as [|u l IH]; simpl; [done|].
  rewrite IH. unfold unitPairs. rewrite He. simpl. by destruct (units !! u).
Qed.

Lemma pairOf_pairAt e phases units u unit i p :
  units !! u = Some unit → pairOf e phases u unit i = Some p →
  p_at p = {| cur_unit := u; cur_regIdx := i |} ∧ pairAt e units (p_at p) = Some p.
Proof.
  intros Hu. unfold pairOf, pairAt.
  destruct (eng_regs e !! i) as [reg|] eqn:Hr; [|done].
  destruct (un_Cfgs unit !! i) as [[cfg|]|] eqn:Hc; [|done..].
  destruct (meets _ _); [|done]. intros [= <-]. simpl. by rewrite Hr, Hu, Hc.
Qed.

(** Cursors inside the policy. *)
Definition valid_cursor (e : Engine) (c : evalCursor) : Prop :=
  cur_regIdx c < length (eng_regs e).

Lemma next_valid e c : valid_cursor e c → valid_cursor e (next (length (eng_regs e)) c).
Proof. unfold valid_cursor, next. case_decide; simpl; lia. Qed.

(** Where a walk is split by one of its pairs, it resumes after that pair's cursor. *)
Lemma pairs_split e units c phases l1 p l2 :
  valid_cursor e c → pairs e units c phases = l1 ++ p :: l2 →
  pairs e units (next (length (eng_regs e)) (p_at p)) phases = l2
  ∧ pairAt e units (p_at p) = Some p.
Proof.
  set (n := length (eng_regs e)).
  remember ((length units - cur_unit c) * n - cur_regIdx c) as m eqn:Hm.
  revert c l1 Hm. induction (lt_wf m) as [m _ IH]; intros c l1 Hm Hc Hp.
  destruct (units !! cur_unit c) as [unit|] eqn:Hu.
  2:{ apply lookup_ge_None in Hu. rewrite pairs_end in Hp by done.
      by destruct l1. }
  assert (cur_unit c < length units) as Hlt by by eapply lookup_lt_Some.
  rewrite (pairs_next e units c phases unit) in Hp by done.
  assert (∀ l1', pairs e units (next n c) phases = l1' ++ p :: l2 →
    pairs e units (next n (p_at p)) phases = l2 ∧ pairAt e units (p_at p) = Some p) as Hgo.
  { intros l1'. eapply IH; [|reflexivity|by apply next_valid].
    unfold valid_cursor in Hc. fold n in Hc. unfold next. case_decide; simpl; [|nia].
    subst m. nia. }
  destruct (pairOf e phases (cur_unit c) unit (cur_regIdx c)) as [q|] eqn:Hq;
    simpl in Hp; [|by eapply Hgo].
  destruct (pairOf_pairAt _ _ _ _ _ _ _ Hu Hq) as [Hat Hpa].
  destruct l1 as [|q' l1]; simpl in Hp; injection Hp as -> Hp; [|by eapply Hgo].
  rewrite Hat. split; [|by rewrite <-Hat]. rewrite <-Hp. by destruct c.
Qed.

Lemma startCursor_valid e units phases p :
  p ∈ pairs e units startCursor phases → valid_cursor e startCursor.
Proof.
  unfold valid_cursor. simpl. destruct (eng_regs e) eqn:He; simpl; [|lia].
  rewrite pairs_no_regs by done. by intros ?%not_elem_of_nil.
Qed.

(** A pair of a walk declares the phase, and its cursor finds it. *)
Lemma pairs_elem e units phases p :
  p ∈ pairs e units startCursor phases →
  pairAt e units (p_at p) = Some p ∧ meets (reg_Phases (p_reg p)) phases = true.
Proof.
  intros Hp. split.
  { pose proof (startCursor_valid _ _ _ _ Hp) as Hv.
    apply list_elem_of_split in Hp as (l1 & l2 & Hl).
    by apply (pairs_split _ _ _ _ _ _ _ Hv Hl). }
  unfold pairs in Hp. apply list_elem_of_In, in_flat_map in Hp as (u & _ & Hp).
  apply list_elem_of_In in Hp. unfold unitPairs in Hp.
  destruct (units !! u) as [unit|]; [|by apply not_elem_of_nil in Hp].
  apply list_elem_of_omap in Hp as (i & _ & Hi). unfold pairOf in Hi.
  destruct (eng_regs e !! i); [|done]. destruct (un_Cfgs unit !! i) as [[cfg|]|]; [|done..].
  destruct (meets _ _) eqn:Hm; [|done]. by injection Hi as <-.
Qed.

(** ** The order of the pairs *)

(** The coordinates in policy order. *)
Definition before (a b : evalCursor) : Prop :=
  cur_unit a < cur_unit b ∨ cur_unit a = cur_unit b ∧ cur_regIdx a < cur_regIdx b.

Lemma excludes_before s u i :
  excludes s u i = true
  ↔ sc_bounded s = true ∧ before (sc_last s) {| cur_unit := u; cur_regIdx := i |}.
Proof.
  unfold excludes, before. simpl. destruct (sc_bounded s); [|naive_solver].
  rewrite orb_true_iff, andb_true_iff, !bool_decide_eq_true. naive_solver.
Qed.

#[export] Instance before_trans : Transitive before.
Proof. intros a b c. unfold before. lia. Qed.

Lemma before_irrefl a : ¬ before a a.
Proof. unfold before. lia. Qed.

Lemma before_next n c d : cur_regIdx c < n → ¬ before d (next n c) → before c d.
Proof. unfold before, next. case_decide; simpl; lia. Qed.

Lemma pairs_from e units c phases p :
  valid_cursor e c → p ∈ pairs e units c phases → ¬ before (p_at p) c.
Proof.
  set (n := length (eng_regs e)).
  remember ((length units - cur_unit c) * n - cur_regIdx c) as m eqn:Hm.
  revert c Hm. induction (lt_wf m) as [m _ IH]; intros c Hm Hc Hp.
  destruct (units !! cur_unit c) as [unit|] eqn:Hu.
  2:{ apply lookup_ge_None in Hu. rewrite pairs_end in Hp by done.
      by apply not_elem_of_nil in Hp. }
  assert (cur_unit c < length units) as Hlt by by eapply lookup_lt_Some.
  rewrite (pairs_next e units c phases unit) in Hp by done.
  apply elem_of_app in Hp as [Hp|Hp].
  - destruct (pairOf e phases (cur_unit c) unit (cur_regIdx c)) as [q|] eqn:Hq;
      [|by apply not_elem_of_nil in Hp].
    apply list_elem_of_singleton in Hp as ->.
    destruct (pairOf_pairAt _ _ _ _ _ _ _ Hu Hq) as [-> _]. unfold before. simpl. lia.
  - assert (¬ before (p_at p) (next n c)) as Hn.
    { eapply IH; [|reflexivity|by apply next_valid|exact Hp].
      unfold valid_cursor in Hc. fold n in Hc. unfold next. case_decide; simpl; nia. }
    apply before_next in Hn; [|done]. intros Hb.
    apply (before_irrefl c). by etrans.
Qed.

(** The pairs before one of a walk have cursors before it, the pairs after it later ones. *)
Lemma pairs_ordered e units phases l1 p l2 :
  pairs e units startCursor phases = l1 ++ p :: l2 →
  Forall (λ q, before (p_at q) (p_at p)) l1 ∧ Forall (λ q, before (p_at p) (p_at q)) l2.
Proof.
  intros Hl. assert (valid_cursor e startCursor) as Hv.
  { apply (startCursor_valid e units phases p). rewrite Hl. apply elem_of_app.
    right. left. }
  assert (∀ l1 p l2, pairs e units startCursor phases = l1 ++ p :: l2 →
    Forall (λ q, before (p_at p) (p_at q)) l2) as Hlater.
  { intros l1' p' l2' Hl'.
    destruct (pairs_split _ _ _ _ _ _ _ Hv Hl') as [Hrest Hat].
    assert (valid_cursor e (p_at p')) as Hvp.
    { unfold pairAt in Hat. destruct (eng_regs e !! cur_regIdx (p_at p')) eqn:Hr; [|done].
      by eapply lookup_lt_Some. }
    apply Forall_forall. intros q Hq. rewrite <-Hrest in Hq.
    apply pairs_from in Hq; [|by apply next_valid]. by apply before_next in Hq. }
  split; [|by eapply Hlater].
  apply Forall_forall. intros q (l1a & l1b & ->)%list_elem_of_split.
  rewrite <-app_assoc in Hl. simpl in Hl. apply Hlater in Hl.
  rewrite Forall_forall in Hl. apply Hl. apply elem_of_app. right. left.
Qed.

(** ** Loops *)

(** What every iteration that goes on keeps, and every one that leaves establishes; the
    invariant may speak of the elements already visited. *)
Lemma loop_inv {A Wk} (I : list A → Wk → Run → Prop) (J : Wk → option string → Run → Prop)
    (step : A → Wk → Run → flow * Wk * Run) l w r :
  (∀ w r, I l w r → J w None r) →
  (∀ pre x post w r, l = pre ++ x :: post → I pre w r →
     match step x w r with
     | (Proceed, w', r') => I (pre ++ [x]) w' r'
     | (Return err, w', r') => J w' err r'
     end) →
  I [] w r → let '(w', err, r') := loop step l w r in J w' err r'.
Proof.
  intros Hend Hstep.
  assert (∀ post pre w r, l = pre ++ post → I pre w r →
    let '(w', err, r') := loop step post w r in J w' err r') as Hgen; [|by apply (Hgen l [])].
  induction post as [|x post IH]; intros pre w1 r1 Hl Hi; simpl.
  { rewrite app_nil_r in Hl. subst. auto. }
  pose proof (Hstep pre x post w1 r1 Hl Hi) as Hx.
  destruct (step x w1 r1) as [[[|err] w'] r']; [|done].
  apply (IH (pre ++ [x])); [|done]. by rewrite <-app_assoc.
Qed.

(** A loop is determined by its iterations. *)
Lemma loop_ext {A Wk} (R : A → A → Prop) (step step' : A → Wk → Run → flow * Wk * Run) l l' w r :
  Forall2 R l l' → (∀ x x' w r, R x x' → step x w r = step' x' w r) →
  loop step l w r = loop step' l' w r.
Proof.
  intros Hl Hs. revert w r. induction Hl as [|x x' l l' Hx Hl IH]; intros w r; [done|].
  simpl. rewrite <-(Hs x x') by done. by destruct (step x w r) as [[[|err] w'] r'].
Qed.

(** ** The frame of a response walk

    While a response walk goes on, it is a new walk with some pending mutations, and what
    it does next does not depend on them. *)

Definition adopt_walk (P : list Mutation) (pw : responseWalk) : responseWalk :=
  {| pw_walk := adopt (pw_walk pw) (with_pending P newActionWalk);
     pw_needsBody := pw_needsBody pw; pw_continuation := pw_continuation pw |}.

(** What an iteration from a new walk gives, in the frame of pending mutations. *)
Definition framed (P : list Mutation) (x : flow * responseWalk * Run)
    : flow * responseWalk * Run :=
  let '(fl, pw, r) := x in (fl, adopt_walk P pw, r).

(** An iteration that goes on leaves a new walk with pending mutations. *)
Definition proceeds_new (x : flow * responseWalk * Run) : Prop :=
  let '(fl, pw, r) := x in fl = Proceed → ∃ P, pw = newResponseWalk P.

Lemma adopt_new P Q : adopt_walk P (newResponseWalk Q) = newResponseWalk (P ++ Q).
Proof. reflexivity. Qed.

Lemma applied_frame p act P Q r :
  applied p act (newResponseWalk (P ++ Q)) r
  = framed P (applied p act (newResponseWalk Q) r)
  ∧ proceeds_new (applied p act (newResponseWalk Q) r).
Proof.
  destruct act as [[|m ms]|rep| |ms]; unfold applied; simpl; [| |done..].
  - split; [done|]. intros _. by exists Q.
  - unfold with_pending, adopt_walk, adopt. simpl. rewrite <-app_assoc. split; [done|].
    intros _. by exists (Q ++ m :: ms).
Qed.

Lemma failed_frame p phase err P Q r :
  failed p phase err (newResponseWalk (P ++ Q)) r
  = framed P (failed p phase err (newResponseWalk Q) r)
  ∧ proceeds_new (failed p phase err (newResponseWalk Q) r).
Proof.
  unfold failed. simpl. unfold filterFailed. destruct (failurePolicy _ _); simpl; [done|].
  split; [done|]. intros _. by exists Q.
Qed.

Lemma invokeBody_frame p phase call P Q r :
  invokeBody p phase call (newResponseWalk (P ++ Q)) r
  = framed P (invokeBody p phase call (newResponseWalk Q) r)
  ∧ proceeds_new (invokeBody p phase call (newResponseWalk Q) r).
Proof.
  unfold invokeBody. destruct (invoke p phase call r) as [[f res] r1].
  destruct res as [act|e]; [|apply failed_frame].
  destruct (validateAction _ _ _); [apply applied_frame|done].
Qed.

Lemma responseStep_frame st units scope body p P Q r :
  responseStep st units scope (Some body) p (newResponseWalk (P ++ Q)) r
  = framed P (responseStep st units scope (Some body) p (newResponseWalk Q) r)
  ∧ proceeds_new (responseStep st units scope (Some body) p (newResponseWalk Q) r).
Proof.
  unfold responseStep. destruct (negb (subscribed scope p)).
  { split; [done|]. intros _. by exists Q. }
  destruct (invoke _ _ _ _) as [[f res] r1]. destruct res as [act|e]; [|apply failed_frame].
  destruct (validateAction _ _ _); [|done].
  destruct act as [ms|rep| |ms]; [apply applied_frame..|].
  pose proof (invokeBody_frame p PhaseResponseBody (OnResponseBody f st body) P (Q ++ ms)
                (record p ActionNeedBody r1)) as H.
  rewrite app_assoc in H. exact H.
Qed.

(** The rest of a walk, run from a new walk, is adopted by the mutations before it. *)
Lemma response_loop_frame st units scope body l P Q r :
  loop (responseStep st units scope (Some body)) l (newResponseWalk (P ++ Q)) r
  = let '(pw, err, r') :=
      loop (responseStep st units scope (Some body)) l (newResponseWalk Q) r in
    (adopt_walk P pw, err, r').
Proof.
  revert Q r. induction l as [|p l IH]; intros Q r; [done|]. cbn [loop].
  destruct (responseStep_frame st units scope body p P Q r) as [-> Hn].
  destruct (responseStep _ _ _ _ _ _ _) as [[[|err] pw] r1]; simpl; [|done].
  destruct Hn as [Q' ->]; [done|]. rewrite adopt_new. apply IH.
Qed.

(** ** Pausing

    Until a filter asks for the body, a walk without the body is the walk with it; there
    it stops with a continuation. *)

Definition resume (st : Stream) (units : list Unit) (scope : ResponseScope) (body : Body)
    (p : pair) (l : list pair) (f : FilterInstance) (pending : list Mutation) (r : Run)
    : responseWalk * option string * Run :=
  match invokeBody p PhaseResponseBody (OnResponseBody f st body) (newResponseWalk pending) r with
  | (Proceed, pw, r) => loop (responseStep st units scope (Some body)) l pw r
  | (Return err, pw, r) => (pw, err, r)
  end.

Definition paused_at (units : list Unit) (scope : ResponseScope) (p : pair)
    (x : responseWalk * option string * Run) : Prop :=
  let '(pw, err, r) := x in
  err = None ∧ pw_walk pw = newActionWalk ∧ pw_needsBody pw = true
  ∧ match pw_continuation pw with
    | Some c => rc_units c = units ∧ rc_scope c = scope ∧ rc_at c = p_at p
    | None => False
    end.

(** No iteration but a pause leaves a continuation. *)
Definition unpaused (pw : responseWalk) : Prop :=
  pw_continuation pw = None ∧ pw_needsBody pw = false.

Lemma applied_unpaused p act Q r : unpaused (applied p act (newResponseWalk Q) r).1.2.
Proof. by destruct act as [[|m ms]|rep| |ms]. Qed.

Lemma failed_unpaused p phase err Q r :
  unpaused (failed p phase err (newResponseWalk Q) r).1.2.
Proof. unfold failed. simpl. unfold filterFailed. by destruct (failurePolicy _ _). Qed.

(** An iteration without the body goes on, ends, or pauses, where the same iteration with
    the body goes on with the callback on it. *)
Lemma responseStep_pause st units scope body p Q r :
  let x := responseStep st units scope None p (newResponseWalk Q) r in
  match pw_continuation x.1.2 with
  | None => responseStep st units scope (Some body) p (newResponseWalk Q) r = x
            ∧ pw_needsBody x.1.2 = false
  | Some c =>
      x.1.1 = Return None ∧ paused_at units scope p (x.1.2, None, x.2)
      ∧ responseStep st units scope (Some body) p (newResponseWalk Q) r
        = invokeBody p PhaseResponseBody (OnResponseBody (rc_f c) st body)
            (newResponseWalk (rc_pending c)) x.2
  end.
Proof.
  cbn zeta. unfold responseStep. destruct (negb (subscribed scope p)); [done|].
  destruct (invoke _ _ _ _) as [[f res] r1]. destruct res as [act|e].
  2:{ by destruct (failed_unpaused p PhaseResponseHeaders e Q r1) as [-> ->]. }
  destruct (validateAction _ _ _); [|done].
  destruct act as [ms|rep| |ms]; [..|done];
    [destruct (applied_unpaused p (Continue ms) Q r1) as [-> ->]
    |destruct (applied_unpaused p (Stop rep) Q r1) as [-> ->]
    |destruct (applied_unpaused p Bypass Q r1) as [-> ->]]; done.
Qed.

Lemma response_loop_pause st units scope body l Q r :
  let x := loop (responseStep st units scope None) l (newResponseWalk Q) r in
  match pw_continuation x.1.1 with
  | None => loop (responseStep st units scope (Some body)) l (newResponseWalk Q) r = x
            ∧ pw_needsBody x.1.1 = false
  | Some c =>
      ∃ l1 p l2, l = l1 ++ p :: l2 ∧ paused_at units scope p x
        ∧ loop (responseStep st units scope (Some body)) l (newResponseWalk Q) r
          = resume st units scope body p l2 (rc_f c) (rc_pending c) x.2
  end.
Proof.
  cbn zeta. revert Q r. induction l as [|p l IH]; intros Q r; [done|]. cbn [loop].
  pose proof (responseStep_pause st units scope body p Q r) as Hs. cbn zeta in Hs.
  pose proof (responseStep_frame st units scope body p [] Q r) as [_ Hn].
  destruct (responseStep st units scope None p (newResponseWalk Q) r) as [[fl pw] r1] eqn:Hx.
  cbn [fst snd] in Hs. destruct (pw_continuation pw) as [c|] eqn:Hc.
  - destruct Hs as (-> & Hp & ->). cbn [fst snd]. rewrite Hc.
    exists [], p, l. split; [done|]. split; [exact Hp|]. reflexivity.
  - destruct Hs as [Hsb Hneeds]. rewrite Hsb in Hn |- *.
    destruct fl as [|err]; [|cbn [fst snd]; by rewrite Hc].
    destruct Hn as [Q' ->]; [done|]. specialize (IH Q' r1).
    destruct (pw_continuation (loop _ l (newResponseWalk Q') r1).1.1) as [c|]; [|done].
    destruct IH as (l1 & q & l2 & -> & Hp & He). exists (p :: l1), q, l2. done.
Qed.

End walks.
