(* ===== verification/EngineInvariant.v ===== *)
(** * What the walks of the policy engine keep

    The invariant of a walk, for the mutations that the phases of a direction admit; the
    cursors of the body callbacks; and the scope of a bypass. *)

From S2P Require Import Prelude Netip Filter Fold Engine EngineWalks.

Section invariant.
Context `{CF : CaseFolding} `{D : Deployment} `{FL : !Filters}.

(** ** The invariant of a walk *)

Definition valid_in (phase : Phase) (m : Mutation) : Prop := validateMutation phase m = Ok ().

Definition request_valid (m : Mutation) : Prop :=
  valid_in PhaseRequestHeaders m ∨ valid_in PhaseRequestBody m.

Definition response_valid (m : Mutation) : Prop :=
  valid_in PhaseResponseHeaders m ∨ valid_in PhaseResponseBody m.

(** A blocked walk has no mutations, and only a blocked one has a reply. *)
Record walk_ok (V : Mutation → Prop) (w : actionWalk) : Prop := {
  wo_valid : Forall V (aw_pending w);
  wo_blocked : aw_disposition w = DispositionBlocked → aw_pending w = [];
  wo_reply : aw_disposition w ≠ DispositionBlocked → aw_reply w = emptyReply;
  wo_kind : aw_disposition w = DispositionPassthrough
            ∨ aw_disposition w = DispositionBlocked
            ∨ aw_disposition w = DispositionBypassed
}.

Lemma newActionWalk_ok V : walk_ok V newActionWalk.
Proof. split; simpl; auto. Qed.

Lemma with_pending_ok V w ms :
  walk_ok V w → halted w = false → Forall V ms →
  walk_ok V (with_pending (aw_pending w ++ ms) w).
Proof.
  intros [H1 H2 H3 H4] Hh Hms. split; simpl; [by apply Forall_app| |done|done].
  intros Hb. unfold halted in Hh. by rewrite Hb in Hh.
Qed.

Lemma rfold_unit_Ok {A} (f : A → result unit) l :
  rfold (λ _ x, f x) l () = Ok () → Forall (λ x, f x = Ok ()) l.
Proof.
  induction l as [|x l IH]; simpl; [constructor|].
  intros ([] & Hx & Hl)%rbind_Ok. constructor; auto.
Qed.

Lemma validateAction_mutations reg phase act u :
  validateAction reg phase act = Ok u → Forall (valid_in phase) (Mutations act).
Proof.
  unfold validateAction. intros (? & _ & H)%rbind_Ok. destruct u. by apply rfold_unit_Ok in H.
Qed.

Lemma apply_ok V p act w r w' r' :
  walk_ok V w → halted w = false → Forall V (Mutations act) →
  apply p act w r = Ok (w', r') → walk_ok V w'.
Proof.
  intros Hw Hh Hms. destruct act as [[|m ms]|rep| |ms]; simpl; try by intros [= <- <-].
  - intros [= <- <-]. by apply with_pending_ok.
  - intros [= <- <-]. split; simpl; auto; by intros [].
  - intros [= <- <-]. destruct Hw as [H1 H2 H3 H4]. split; simpl; auto; [done|].
    intros _. apply H3. intros Hb. unfold halted in Hh. by rewrite Hb in Hh.
Qed.

Lemma filterFailed_ok V p phase err w r :
  walk_ok V w → walk_ok V (filterFailed p phase err w r).1.
Proof.
  unfold filterFailed. destruct (failurePolicy _ _); simpl; [|done].
  intros _. split; simpl; auto. by intros [].
Qed.

(** ** Request walks *)

(** The body callbacks of a walk are at cursors of the policy, inside the scope. *)
Definition callback_ok (e : Engine) (units : list Unit) (inv : requestBodyInvocation) : Prop :=
  ∃ p, pairAt e units (bi_at inv) = Some p
       ∧ meets (reg_Phases (p_reg p)) PhaseRequestBody = true.

Definition callbacks_in (scope : ResponseScope) (invs : list requestBodyInvocation) : Prop :=
  Forall (λ inv, excludes scope (cur_unit (bi_at inv)) (cur_regIdx (bi_at inv)) = false) invs.

(** The scope is bounded exactly after a bypass. *)
Definition scope_ok (rw : requestWalk) : Prop :=
  sc_bounded (rw_scope rw) = bool_decide (aw_disposition (rw_walk rw) = DispositionBypassed).

Record request_ok (e : Engine) (units : list Unit) (V : Mutation → Prop) (rw : requestWalk)
    : Prop := {
  ro_walk : walk_ok V (rw_walk rw);
  ro_callbacks : Forall (callback_ok e units) (rw_bodyFilters rw);
  ro_scope : scope_ok rw
}.

Lemma streamView_walk st rw view rw' :
  streamView st rw = Ok (view, rw') →
  rw_walk rw' = rw_walk rw ∧ rw_scope rw' = rw_scope rw
  ∧ rw_bodyFilters rw' = rw_bodyFilters rw.
Proof.
  unfold streamView. intros ([route fresh] & _ & H)%rbind_Ok.
  destruct (rw_view rw), fresh; simplify_eq/=; done.
Qed.

Lemma request_ok_view e units V st rw view rw' :
  request_ok e units V rw → streamView st rw = Ok (view, rw') → request_ok e units V rw'.
Proof.
  intros [H1 H2 H3] (Hw & Hs & Hb)%streamView_walk.
  split; [by rewrite Hw|by rewrite Hb|]. unfold scope_ok. by rewrite Hs, Hw.
Qed.

(** An iteration keeps the invariant, and goes on only with a walk that did not halt. *)
Definition step_ok (e : Engine) (units : list Unit) (V : Mutation → Prop)
    (x : flow * requestWalk * Run) : Prop :=
  let '(fl, rw, r) := x in
  request_ok e units V rw ∧ (fl = Proceed → halted (rw_walk rw) = false).

Lemma applied_ok e units V p act rw r :
  request_ok e units V rw → halted (rw_walk rw) = false → Forall V (Mutations act) →
  step_ok e units V (applied p act rw r).
Proof.
  intros [H1 H2 H3] Hh Hms. unfold applied. simpl. unfold requestApply.
  destruct (apply p act (rw_walk rw) r) as [[w r1]|err] eqn:Ha; [|by split].
  pose proof (apply_ok _ _ _ _ _ _ _ H1 Hh Hms Ha) as Hw.
  assert (sc_bounded (rw_scope rw) = false) as Hsc.
  { rewrite H3. apply bool_decide_eq_false. intros Hb. unfold halted in Hh. by rewrite Hb in Hh. }
  unfold halted in Hh.
  destruct act as [[|m ms]|rep| |ms]; simpl in Ha; simplify_eq/=; (split; [split|]); simpl;
    try done; unfold scope_ok, halted; simpl; rewrite ?Hsc;
    (destruct (aw_disposition (rw_walk rw)) eqn:?; done).
Qed.

Lemma failed_ok e units V p phase err rw r :
  request_ok e units V rw → halted (rw_walk rw) = false →
  step_ok e units V (failed p phase err rw r).
Proof.
  intros [H1 H2 H3] Hh. unfold failed. simpl.
  pose proof (filterFailed_ok V p phase err (rw_walk rw) r H1) as Hw.
  destruct (filterFailed p phase err (rw_walk rw) r) as [w r1] eqn:Hf.
  split; [|simpl; by destruct (halted w)]. split; simpl; [done|done|].
  unfold scope_ok in *. simpl. rewrite H3. unfold filterFailed, halted in *.
  destruct (failurePolicy _ _); simplify_eq/=; [|done].
  by destruct (aw_disposition (rw_walk rw)).
Qed.

Lemma requestStep_ok e units st p rw r :
  p ∈ pairs e units startCursor PhaseRequestHeaders →
  request_ok e units (valid_in PhaseRequestHeaders) rw → halted (rw_walk rw) = false →
  step_ok e units (valid_in PhaseRequestHeaders) (requestStep st p rw r).
Proof.
  intros Hp Hok Hh. unfold requestStep, requestInvoke.
  destruct (streamView st rw) as [[view rw1]|err] eqn:Hv; [|done].
  pose proof (request_ok_view _ _ _ _ _ _ _ Hok Hv) as Hok1.
  pose proof (streamView_walk _ _ _ _ Hv) as (Hw1 & _). rewrite <-Hw1 in Hh.
  destruct (invoke _ _ _ _) as [[f res] r1]. destruct res as [act|err]; [|by apply failed_ok].
  destruct (validateAction _ _ _) as [u|err] eqn:Hva; [|done].
  pose proof (validateAction_mutations _ _ _ _ Hva) as Hms.
  destruct act as [ms|rep| |ms]; [by apply applied_ok..|].
  split; [|done]. destruct Hok1 as [H1 H2 H3]. split; simpl; [by apply with_pending_ok| |done].
  apply Forall_app. split; [done|]. constructor; [|done].
  exists p. split; [by apply (pairs_elem _ _ _ _ Hp)|].
  unfold validateAction in Hva. apply rbind_Ok in Hva as (? & Hk & _).
  simpl in Hk. by destruct (meets _ _).
Qed.

(** What the iterations of the request-headers walk keep, after a prefix of the pairs. *)
Definition callbacks_of (pre : list pair) (invs : list requestBodyInvocation) : Prop :=
  Forall (λ inv, bi_at inv ∈ p_at <$> pre) invs.

Definition keeps_callbacks (pre : list pair) (p : pair) (x : flow * requestWalk * Run) : Prop :=
  let '(fl, rw, r) := x in
  callbacks_of (pre ++ [p]) (rw_bodyFilters rw)
  ∧ (sc_bounded (rw_scope rw) = true →
     callbacks_of pre (rw_bodyFilters rw) ∧ sc_last (rw_scope rw) = p_at p).

Lemma callbacks_of_app pre l invs : callbacks_of pre invs → callbacks_of (pre ++ l) invs.
Proof.
  intros H. eapply Forall_impl; [exact H|]. intros inv Hi. rewrite fmap_app.
  apply elem_of_app. by left.
Qed.

Lemma requestStep_callbacks pre st p rw r :
  callbacks_of pre (rw_bodyFilters rw) → sc_bounded (rw_scope rw) = false →
  keeps_callbacks pre p (requestStep st p rw r).
Proof.
  intros Hc Hs. unfold requestStep, requestInvoke.
  assert (∀ rw', rw_bodyFilters rw' = rw_bodyFilters rw → rw_scope rw' = rw_scope rw →
    ∀ fl r', keeps_callbacks pre p (fl, rw', r')) as Hsame.
  { intros rw' Hb Hsc fl r'. split; rewrite ?Hb; [by apply callbacks_of_app|].
    rewrite Hsc, Hs. done. }
  destruct (streamView st rw) as [[view rw1]|err] eqn:Hv; [|by apply Hsame].
  apply streamView_walk in Hv as (_ & Hs1 & Hb1).
  destruct (invoke _ _ _ _) as [[f res] r1]. destruct res as [act|err].
  2:{ unfold failed. simpl. destruct (filterFailed _ _ _ _ _). by apply Hsame. }
  destruct (validateAction _ _ _); [|by apply Hsame].
  destruct act as [[|m ms]|rep| |ms]; try by apply Hsame.
  - split; simpl; rewrite Hb1; [by apply callbacks_of_app|done].
  - split; simpl; rewrite ?Hs1, ?Hb1; [|by rewrite Hs].
    apply Forall_app. split; [by apply callbacks_of_app|].
    constructor; [|constructor]. rewrite fmap_app. apply elem_of_app. right. left.
Qed.

(** The result of the walk over the request headers. *)
Lemma walkRequest_ok e st units r :
  let '(rw, err, r') := walkRequest e st units r in
  request_ok e units (valid_in PhaseRequestHeaders) rw
  ∧ callbacks_in (rw_scope rw) (rw_bodyFilters rw).
Proof.
  unfold walkRequest. set (l := pairs e units startCursor PhaseRequestHeaders).
  apply (loop_inv
    (λ pre rw _, request_ok e units (valid_in PhaseRequestHeaders) rw
       ∧ halted (rw_walk rw) = false ∧ callbacks_of pre (rw_bodyFilters rw)
       ∧ sc_bounded (rw_scope rw) = false)
    (λ rw _ _, request_ok e units (valid_in PhaseRequestHeaders) rw
       ∧ callbacks_in (rw_scope rw) (rw_bodyFilters rw))).
  - intros rw r1 (Hok & _ & _ & Hs). split; [done|].
    apply Forall_forall. intros inv _. unfold excludes. by rewrite Hs.
  - intros pre p post rw r1 Hl (Hok & Hh & Hc & Hs).
    assert (p ∈ l) as Hp by (rewrite Hl; apply elem_of_app; right; left).
    pose proof (requestStep_ok e units st p rw r1 Hp Hok Hh) as Hstep.
    pose proof (requestStep_callbacks pre st p rw r1 Hc Hs) as Hcb.
    destruct (requestStep st p rw r1) as [[fl rw'] r'].
    destruct Hstep as [Hok' Hh'], Hcb as [Hc' Hb'].
    destruct fl as [|err].
    + split; [done|]. split; [by apply Hh'|]. split; [done|].
      destruct Hok' as [_ _ ->]. apply bool_decide_eq_false. intros Hb.
      specialize (Hh' eq_refl). unfold halted in Hh'. by rewrite Hb in Hh'.
    + split; [done|]. apply Forall_forall. intros inv Hi.
      apply not_true_iff_false. intros [Hbd Hbef]%excludes_before.
      destruct (Hb' Hbd) as [Hcp Hlast]. rewrite Hlast in Hbef.
      pose proof (proj1 (Forall_forall _ _) Hcp inv Hi) as (q & Hq & Hqin)%list_elem_of_fmap.
      destruct (pairs_ordered e units PhaseRequestHeaders pre p post Hl) as [Hbefore _].
      rewrite Forall_forall in Hbefore. specialize (Hbefore q Hqin).
      rewrite <-Hq in Hbefore. apply (before_irrefl (p_at p)).
      etrans; [exact Hbef|]. by destruct (bi_at inv).
  - split; [|split; [done|split; [constructor|done]]]. split; simpl; [apply newActionWalk_ok|constructor|done].
Qed.

(** ** Results of the request headers *)

(** What a result keeps for the body phase. *)
Record prior_ok (e : Engine) (res : RequestHeadersResult) : Prop := {
  po_valid : Forall (valid_in PhaseRequestHeaders) (rh_pending res);
  po_callbacks : Forall (callback_ok e (rh_units res)) (rh_bodyFilters res);
  po_scope : callbacks_in (rh_ResponseScope res) (rh_bodyFilters res);
  po_bypass : sc_bounded (rh_ResponseScope res)
              = bool_decide (rh_Disposition res = DispositionBypassed)
}.

Lemma walkResult_ok w :
  let '(reduced, err) := walkResult w in
  err = None →
  foldRoute (aw_pending w) = Ok (ar_route reduced)
  ∧ reduced = {| ar_disposition := resolved w; ar_reply := aw_reply w;
                 ar_headerOps := fold (aw_pending w); ar_route := ar_route reduced;
                 ar_body := lastBodyMutation (aw_pending w);
                 ar_statusCode := lastStatusMutation (aw_pending w) |}.
Proof.
  unfold walkResult, foldPending. destruct (foldRoute (aw_pending w)) as [route|e]; [|done].
  simpl. done.
Qed.

Lemma resolved_bypassed w :
  bool_decide (resolved w = DispositionBypassed)
  = bool_decide (aw_disposition w = DispositionBypassed).
Proof. unfold resolved. by destruct (aw_disposition w), (aw_pending w). Qed.

Lemma first_error_None a b : first_error a b = None ↔ a = None ∧ b = None.
Proof. destruct a; naive_solver. Qed.

(** The parts of an evaluation without the body. *)
Lemma EvalRequestHeaders_walk e st units r res r' :
  EvalRequestHeaders e st units None r = (res, None, r') →
  validateUnits e units = Ok () ∧
  ∃ rw, walkRequest e st units r = (rw, None, r')
    ∧ foldRoute (aw_pending (rw_walk rw)) = Ok (rh_Route res)
    ∧ res = {| rh_Disposition := resolved (rw_walk rw); rh_Reply := aw_reply (rw_walk rw);
               rh_HeaderOps := fold (aw_pending (rw_walk rw)); rh_Route := rh_Route res;
               rh_Body := lastBodyMutation (aw_pending (rw_walk rw));
               rh_ResponseScope := rw_scope rw; rh_bodyFilters := rw_bodyFilters rw;
               rh_units := units; rh_pending := aw_pending (rw_walk rw) |}.
Proof.
  unfold EvalRequestHeaders. destruct (validateUnits e units) as [[]|]; [|done].
  destruct (walkRequest e st units r) as [[rw err] r1].
  pose proof (walkResult_ok (rw_walk rw)) as Hw.
  destruct (walkResult (rw_walk rw)) as [reduced routeErr].
  intros Heq. assert (first_error err routeErr = None) as [-> ->]%first_error_None
    by (destruct (first_error err routeErr); by simplify_eq).
  simpl in Heq. injection Heq as <- <-. destruct (Hw eq_refl) as [Hr Hred].
  split; [done|]. exists rw. split; [done|]. split; [done|]. rewrite Hred. done.
Qed.

Lemma EvalRequestHeaders_prior e st units r res r' :
  EvalRequestHeaders e st units None r = (res, None, r') → prior_ok e res.
Proof.
  intros (_ & rw & Hw & _ & Hres)%EvalRequestHeaders_walk.
  pose proof (walkRequest_ok e st units r) as Hok. rewrite Hw in Hok.
  destruct Hok as [[H1 H2 H3] H4]. rewrite Hres. split; simpl; [apply H1|done|done|].
  by rewrite resolved_bypassed.
Qed.

End invariant.

(** * The body phase and the responses of the policy engine

    What the body callbacks of a request can still change, and what a response walk keeps. *)

Section bodies.
Context `{CF : CaseFolding} `{D : Deployment} `{FL : !Filters}.

(** ** The body callbacks of a request *)

(** The walk of a body phase has the mutations of the headers before its own. *)
Definition extends (P : list Mutation) (w : actionWalk) : Prop :=
  ∃ B, aw_pending w = P ++ B ∧ Forall (valid_in PhaseRequestBody) B.

Lemma extends_app P w ms :
  extends P w → Forall (valid_in PhaseRequestBody) ms →
  extends P (with_pending (aw_pending w ++ ms) w).
Proof.
  intros (B & Hp & HB) Hms. exists (B ++ ms). simpl. rewrite Hp, app_assoc.
  split; [done|]. by apply Forall_app.
Qed.

(** After some callbacks: the walk goes on with the scope it began with. *)
Definition body_going (P : list Mutation) (scope : ResponseScope) (rw : requestWalk) : Prop :=
  aw_disposition (rw_walk rw) = DispositionPassthrough
  ∧ aw_reply (rw_walk rw) = emptyReply ∧ rw_scope rw = scope ∧ extends P (rw_walk rw).

(** At the end: blocked without mutations, or with the mutations of the headers first;
    bypassed at one of the callbacks, or in the scope it began with. *)
Definition body_done (P : list Mutation) (scope : ResponseScope)
    (invs : list requestBodyInvocation) (rw : requestWalk) : Prop :=
  let d := aw_disposition (rw_walk rw) in
  (d = DispositionBlocked ∧ aw_pending (rw_walk rw) = [] ∧ rw_scope rw = scope)
  ∨ (d = DispositionPassthrough ∧ rw_scope rw = scope
     ∧ extends P (rw_walk rw) ∧ aw_reply (rw_walk rw) = emptyReply)
  ∨ (d = DispositionBypassed ∧ extends P (rw_walk rw) ∧ aw_reply (rw_walk rw) = emptyReply
     ∧ ∃ inv, inv ∈ invs ∧ rw_scope rw = {| sc_bounded := true; sc_last := bi_at inv |}).

Lemma body_going_done P scope invs rw : body_going P scope rw → body_done P scope invs rw.
Proof. intros (Hd & Hr & Hs & He). right. left. done. Qed.

Lemma pairAt_at e units c p : pairAt e units c = Some p → p_at p = c.
Proof.
  unfold pairAt. intros H. repeat case_match; by simplify_eq/=.
Qed.

Lemma body_applied P scope invs inv p act rw r :
  inv ∈ invs → p_at p = bi_at inv → body_going P scope rw →
  Forall (valid_in PhaseRequestBody) (Mutations act) →
  match applied p act rw r with
  | (Proceed, rw', _) => body_going P scope rw'
  | (Return _, rw', _) => body_done P scope invs rw'
  end.
Proof.
  intros Hin Hat Hg Hms. pose proof Hg as (Hd & Hr & Hs & He).
  destruct act as [[|m ms]|rep| |ms]; unfold applied; simpl; unfold halted; simpl.
  - unfold halted. simpl. rewrite Hd. done.
  - rewrite Hd. split; [done|]. split; [done|]. split; [done|]. by apply extends_app.
  - left. done.
  - right. right. split; [done|]. split; [exact He|]. split; [done|].
    exists inv. by rewrite Hat.
  - by apply body_going_done.
Qed.

Lemma body_failed P scope invs p err rw r :
  body_going P scope rw →
  match failed p PhaseRequestBody err rw r with
  | (Proceed, rw', _) => body_going P scope rw'
  | (Return _, rw', _) => body_done P scope invs rw'
  end.
Proof.
  intros Hg. pose proof Hg as (Hd & Hr & Hs & He).
  unfold failed. simpl. unfold filterFailed. destruct (failurePolicy _ _); simpl.
  - by left.
  - unfold halted. rewrite Hd. done.
Qed.

Lemma bodyStep_done e units view body P scope invs inv rw r :
  inv ∈ invs → body_going P scope rw →
  match bodyStep e units view body inv rw r with
  | (Proceed, rw', _) => body_going P scope rw'
  | (Return _, rw', _) => body_done P scope invs rw'
  end.
Proof.
  intros Hin Hg. unfold bodyStep.
  destruct (pairAt e units (bi_at inv)) as [p|] eqn:Hp; [|by apply body_going_done].
  apply pairAt_at in Hp. unfold invokeBody.
  destruct (invoke _ _ _ _) as [[f res] r1]. destruct res as [act|err]; [|by apply body_failed].
  destruct (validateAction _ _ _) as [u|err] eqn:Hv; [|by apply body_going_done].
  apply validateAction_mutations in Hv. by eapply body_applied.
Qed.

Lemma body_loop_done e units view body P scope invs r :
  let '(rw, err, r') :=
    loop (bodyStep e units view body) invs (newRequestWalk scope P) r in
  body_done P scope invs rw.
Proof.
  apply (loop_inv (λ _ rw _, body_going P scope rw) (λ rw _ _, body_done P scope invs rw)).
  - intros rw _. apply body_going_done.
  - intros pre inv post rw r1 Hl Hg.
    assert (inv ∈ invs) as Hin by (rewrite Hl; apply elem_of_app; right; left).
    pose proof (bodyStep_done e units view body P scope invs inv rw r1 Hin Hg) as H.
    by destruct (bodyStep e units view body inv rw r1) as [[[|err] rw'] r'].
  - split; [done|]. split; [done|]. split; [done|]. exists []. by rewrite app_nil_r.
Qed.

(** Every later scope excludes what an earlier one excludes. *)
Definition narrows (s s' : ResponseScope) : Prop :=
  ∀ u i, excludes s u i = true → excludes s' u i = true.

Lemma narrows_refl s : narrows s s.
Proof. by intros u i. Qed.

Lemma narrows_at scope inv invs :
  callbacks_in scope invs → inv ∈ invs →
  narrows scope {| sc_bounded := true; sc_last := bi_at inv |}.
Proof.
  intros Hc Hin u i [Hb Hbef]%excludes_before. apply excludes_before. split; [done|].
  apply (proj1 (Forall_forall _ _) Hc) in Hin. simpl.
  assert (¬ before (sc_last scope) (bi_at inv)) as Hn.
  { intros Hlt. apply not_true_iff_false in Hin. apply Hin. apply excludes_before.
    split; [done|]. by destruct (bi_at inv). }
  unfold before in *. simpl in *. lia.
Qed.

(** The completed body phase. *)
Record body_outcome (prior : RequestHeadersResult) (res : RequestBodyResult) : Prop := {
  bo_kind : rb_Disposition res ≠ DispositionError;
  bo_blocked : rb_Disposition res = DispositionBlocked →
    rb_HeaderOps res = [] ∧ rb_Route res = None ∧ rb_Body res = None;
  bo_reply : rb_Disposition res ≠ DispositionBlocked → rb_Reply res = emptyReply;
  bo_extends : rb_Disposition res ≠ DispositionBlocked →
    ∃ B, Forall (valid_in PhaseRequestBody) B
      ∧ rb_HeaderOps res = fold (rh_pending prior ++ B)
      ∧ rb_Body res = lastBodyMutation (rh_pending prior ++ B)
      ∧ (rb_Disposition res = DispositionPassthrough → rh_pending prior ++ B = [])
      ∧ match rh_Route prior with
        | Some route => rb_Route res = Some route
        | None => foldRoute (rh_pending prior ++ B) = Ok (rb_Route res)
        end;
  bo_scope : narrows (rh_ResponseScope prior) (rb_ResponseScope res);
  bo_bypassed : rb_Disposition res = DispositionBypassed →
    sc_bounded (rb_ResponseScope res) = true
}.

Lemma foldRoute_nil : foldRoute [] = Ok None.
Proof. reflexivity. Qed.

(** What the last part of [EvalRequestBody] makes of the walk. *)
Lemma body_outcome_walk prior rw reduced route :
  callbacks_in (rh_ResponseScope prior) (rh_bodyFilters prior) →
  sc_bounded (rh_ResponseScope prior)
    = bool_decide (rh_Disposition prior = DispositionBypassed) →
  body_done (rh_pending prior) (rh_ResponseScope prior) (rh_bodyFilters prior) rw →
  let w := if negb (halted (rw_walk rw))
              && bool_decide (rh_Disposition prior = DispositionBypassed)
           then with_disposition DispositionBypassed (rw_walk rw) else rw_walk rw in
  walkResult w = (reduced, None) →
  route = (if bool_decide (ar_disposition reduced ≠ DispositionBlocked)
                && bool_decide (rh_Route prior ≠ None)
           then rh_Route prior else ar_route reduced) →
  body_outcome prior
    {| rb_Disposition := ar_disposition reduced; rb_Reply := ar_reply reduced;
       rb_HeaderOps := ar_headerOps reduced; rb_Route := route;
       rb_Body := ar_body reduced; rb_ResponseScope := rw_scope rw |}.
Proof.
  intros Hc Hbp Hd w Hw ->. pose proof (walkResult_ok w) as Hwr. rewrite Hw in Hwr.
  destruct (Hwr eq_refl) as [Hroute Hred].
  destruct Hd as [(Hd & Hp & Hs)|[(Hd & Hs & He & Hr)|(Hd & He & Hr & inv & Hin & Hs)]].
  - assert (w = rw_walk rw) as Hww by (unfold w, halted; by rewrite Hd).
    rewrite Hww in *. rewrite Hp in Hroute, Hred. rewrite foldRoute_nil in Hroute.
    injection Hroute as Hroute. unfold resolved in Hred. rewrite Hd in Hred.
    rewrite <-Hroute in Hred. rewrite Hred. split; simpl; try done. rewrite Hs. apply narrows_refl.
  - assert (aw_pending w = aw_pending (rw_walk rw)) as Hpw.
    { unfold w. by destruct (_ && _). }
    assert (aw_reply w = emptyReply) as Hrw by (unfold w; by destruct (_ && _)).
    assert (aw_disposition w = if bool_decide (rh_Disposition prior = DispositionBypassed)
      then DispositionBypassed else DispositionPassthrough) as Hdw.
    { unfold w, halted. rewrite Hd. simpl. by case_bool_decide. }
    assert (ar_disposition reduced ≠ DispositionBlocked) as Hnb.
    { rewrite Hred. simpl. unfold resolved. rewrite Hdw. case_bool_decide; [done|].
      by destruct (aw_pending w). }
    destruct He as (B & HB & HBv).
    rewrite (bool_decide_eq_true_2 (ar_disposition reduced ≠ DispositionBlocked)) by done.
    split; simpl; [|done| |intros _|rewrite Hs; apply narrows_refl|].
    + rewrite Hred. simpl. unfold resolved. rewrite Hdw. case_bool_decide; [done|].
      by destruct (aw_pending w).
    + intros _. by rewrite Hred.
    + exists B. rewrite <-HB, <-Hpw. split; [done|]. rewrite Hred. simpl.
      split; [done|]. split; [done|]. split; [|by destruct (rh_Route prior)].
      unfold resolved. rewrite Hdw. case_bool_decide; [done|]. by destruct (aw_pending w).
    + rewrite Hred. simpl. unfold resolved. rewrite Hdw, Hs, Hbp.
      case_bool_decide; [done|]. by destruct (aw_pending w).
  - assert (w = rw_walk rw) as Hww by (unfold w, halted; by rewrite Hd).
    rewrite Hww in *. destruct He as (B & HB & HBv).
    assert (ar_disposition reduced = DispositionBypassed) as Hdr.
    { rewrite Hred. simpl. unfold resolved. by rewrite Hd. }
    rewrite Hdr. rewrite bool_decide_eq_true_2 by done.
    split; simpl; [done|done| |intros _| |by rewrite Hs].
    + intros _. by rewrite Hred.
    + exists B. rewrite <-HB. split; [done|]. rewrite Hred. simpl.
      split; [done|]. split; [done|]. split; [done|]. by destruct (rh_Route prior).
    + rewrite Hs. by eapply narrows_at.
Qed.

Lemma EvalRequestBody_outcome e st prior body r res r' :
  callbacks_in (rh_ResponseScope prior) (rh_bodyFilters prior) →
  sc_bounded (rh_ResponseScope prior)
    = bool_decide (rh_Disposition prior = DispositionBypassed) →
  NeedsBody prior = true →
  EvalRequestBody e st (Some prior) body r = (res, None, r') →
  body_outcome prior res.
Proof.
  intros Hc Hbp Hn. unfold EvalRequestBody. rewrite Hn. simpl negb. cbv iota.
  set (view := match routeUpstream _ with Some _ => _ | None => _ end).
  pose proof (body_loop_done e (rh_units prior) view body (rh_pending prior)
    (rh_ResponseScope prior) (rh_bodyFilters prior) r) as Hd.
  destruct (loop _ _ _ r) as [[rw err] r1].
  destruct (walkResult _) as [reduced routeErr] eqn:Hw. cbn zeta.
  intros [= <- [-> ->]%first_error_None <-]. by eapply body_outcome_walk.
Qed.

(** ** Response walks *)

Lemma response_applied p act Q r :
  Forall response_valid Q → Forall response_valid (Mutations act) →
  let '(fl, pw, r') := applied p act (newResponseWalk Q) r in
  walk_ok response_valid (pw_walk pw).
Proof.
  intros HQ Hms. assert (walk_ok response_valid (pw_walk (newResponseWalk Q))) as Hw.
  { split; simpl; auto. done. }
  unfold applied. simpl. destruct (apply p act _ r) as [[w r1]|err] eqn:Ha; [|done].
  simpl. by eapply apply_ok.
Qed.

Lemma response_failed p phase err Q r :
  Forall response_valid Q →
  let '(fl, pw, r') := failed p phase err (newResponseWalk Q) r in
  walk_ok response_valid (pw_walk pw).
Proof.
  intros HQ. assert (walk_ok response_valid (pw_walk (newResponseWalk Q))) as Hw.
  { split; simpl; auto. done. }
  unfold failed. simpl. pose proof (filterFailed_ok _ p phase err _ r Hw) as Hf.
  by destruct (filterFailed _ _ _ _ _).
Qed.

Lemma responseStep_ok st units scope body p Q r :
  Forall response_valid Q →
  let '(fl, pw, r') := responseStep st units scope body p (newResponseWalk Q) r in
  walk_ok response_valid (pw_walk pw)
  ∧ (pw_needsBody pw = true → pw_walk pw = newActionWalk)
  ∧ (fl = Proceed → ∃ Q', pw = newResponseWalk Q' ∧ Forall response_valid Q').
Proof.
  intros HQ.
  assert (∀ x, proceeds_new x → unpaused x.1.2 →
    (let '(fl, pw, r') := x in walk_ok response_valid (pw_walk pw)) →
    let '(fl, pw, r') := x in
    walk_ok response_valid (pw_walk pw)
    ∧ (pw_needsBody pw = true → pw_walk pw = newActionWalk)
    ∧ (fl = Proceed → ∃ Q', pw = newResponseWalk Q' ∧ Forall response_valid Q')) as Hx.
  { intros [[fl pw] r'] Hn [_ Hu] Hw. split; [done|]. simpl in Hu. split; [by rewrite Hu|].
    intros Hp. destruct (Hn Hp) as [Q' ->]. exists Q'. split; [done|]. apply Hw. }
  unfold responseStep. destruct (negb (subscribed scope p)).
  { split; [split; simpl; auto; done|]. split; [done|]. intros _. by exists Q. }
  destruct (invoke _ _ _ _) as [[f res] r1]. destruct res as [act|err].
  2:{ apply Hx; [apply (failed_frame _ _ _ [])|apply failed_unpaused|by apply response_failed]. }
  destruct (validateAction _ _ _) as [u|err] eqn:Hv.
  2:{ split; [split; simpl; auto; done|done]. }
  apply validateAction_mutations in Hv.
  assert (Forall response_valid (Mutations act)) as Hms.
  { eapply Forall_impl; [exact Hv|]. intros m Hm. by left. }
  destruct act as [ms|rep| |ms];
    [apply Hx; [apply (applied_frame _ _ [])|apply applied_unpaused|by apply response_applied]..|].
  assert (Forall response_valid (Q ++ ms)) as HQms by by apply Forall_app.
  destruct body as [body|].
  2:{ split; [split; simpl; auto; done|]. done. }
  change {| pw_walk := with_pending _ _; pw_needsBody := _; pw_continuation := _ |}
    with (newResponseWalk (Q ++ ms)).
  unfold invokeBody. destruct (invoke _ _ _ _) as [[f' res'] r2]. destruct res' as [act'|err'].
  2:{ apply Hx; [apply (failed_frame _ _ _ [])|apply failed_unpaused|by apply response_failed]. }
  destruct (validateAction (p_reg p) PhaseResponseBody act') as [u'|err'] eqn:Hv'.
  2:{ split; [split; simpl; auto; done|done]. }
  apply validateAction_mutations in Hv'.
  apply Hx; [apply (applied_frame _ _ [])|apply applied_unpaused|].
  apply response_applied; [done|]. eapply Forall_impl; [exact Hv'|]. intros m Hm. by right.
Qed.

Lemma walkResponse_ok e st units start scope body r :
  let '(pw, err, r') := walkResponse e st units start scope body r in
  walk_ok response_valid (pw_walk pw)
  ∧ (pw_needsBody pw = true → pw_walk pw = newActionWalk).
Proof.
  unfold walkResponse.
  apply (loop_inv (λ _ pw _, ∃ Q, pw = newResponseWalk Q ∧ Forall response_valid Q)
    (λ pw _ _, walk_ok response_valid (pw_walk pw)
               ∧ (pw_needsBody pw = true → pw_walk pw = newActionWalk))).
  - intros pw _ (Q & -> & HQ). split; [|done]. split; simpl; auto. done.
  - intros pre p post pw r1 _ (Q & -> & HQ).
    pose proof (responseStep_ok st units scope body p Q r1 HQ) as H.
    destruct (responseStep _ _ _ _ _ _ _) as [[[|err] pw'] r']; naive_solver.
  - exists []. split; [done|constructor].
Qed.

End bodies.
