(* ===== verification/EngineTheorems.v ===== *)
(** * Theorems on the policy engine

    Pausing for a body does not change what an evaluation decides; results are well
    formed; a bypass cuts the policy off at its own pair, in both directions; a filter that
    fails is resolved by its policy; filters see the target folded so far. *)

From S2P Require Import Prelude Netip Filter Fold Engine EngineWalks EngineInvariant.

Section theorems.
Context `{CF : CaseFolding} `{D : Deployment} `{FL : !Filters}.

(** ** Pausing *)

(** A result of the headers, as a completed response. *)
Definition completed (res : ResponseHeadersResult) : ResponseBodyResult :=
  {| pb_Disposition := ph_Disposition res; pb_Reply := ph_Reply res;
     pb_HeaderOps := ph_HeaderOps res; pb_Body := ph_Body res;
     pb_StatusCode := ph_StatusCode res |}.

Lemma walk_resumes e st units scope body r :
  let '(pw, err, r1) := walkResponse e st units startCursor scope None r in
  match pw_continuation pw with
  | None => pw_needsBody pw = false
            ∧ walkResponse e st units startCursor scope (Some body) r = (pw, err, r1)
  | Some c =>
      err = None ∧ pw_walk pw = newActionWalk ∧ pw_needsBody pw = true ∧
      ∃ p, pairAt e (rc_units c) (rc_at c) = Some p ∧
      walkResponse e st units startCursor scope (Some body) r
      = match invokeBody p PhaseResponseBody (OnResponseBody (rc_f c) st body)
                (newResponseWalk (rc_pending c)) r1 with
        | (Return err, pw, r2) => (pw, err, r2)
        | (Proceed, pw, r2) =>
            let '(rest, err, r3) :=
              walkResponse e st (rc_units c) (next (length (eng_regs e)) (rc_at c))
                (rc_scope c) (Some body) r2 in
            ({| pw_walk := adopt (pw_walk rest) (pw_walk pw);
                pw_needsBody := pw_needsBody rest;
                pw_continuation := pw_continuation rest |}, err, r3)
        end
  end.
Proof.
  unfold walkResponse. set (l := pairs e units startCursor PhaseResponseHeaders).
  pose proof (response_loop_pause st units scope body l [] r) as H. cbn zeta in H.
  destruct (loop (responseStep st units scope None) l (newResponseWalk []) r)
    as [[pw err] r1] eqn:Hl. cbn [fst snd] in H.
  destruct (pw_continuation pw) as [c|] eqn:Hc; [|naive_solver].
  destruct H as (l1 & p & l2 & Hsplit & (-> & Hw & Hn & Hcont) & Hres).
  rewrite Hc in Hcont. destruct Hcont as (Hcu & Hcs & Hca). rewrite Hcu, Hcs, Hca.
  destruct (pairs_split e units startCursor PhaseResponseHeaders l1 p l2) as [Hnext Hat].
  { apply (startCursor_valid e units PhaseResponseHeaders p). unfold l in Hsplit.
    rewrite Hsplit. apply elem_of_app. right. left. }
  { exact Hsplit. }
  split; [done|]. split; [done|]. split; [done|]. exists p. split; [done|].
  rewrite Hres. unfold resume.
  pose proof (invokeBody_frame p PhaseResponseBody (OnResponseBody (rc_f c) st body) []
                (rc_pending c) r1) as [_ Hnew].
  destruct (invokeBody _ _ _ _ _) as [[[|e1] pw1] r2]; [|done].
  destruct Hnew as [P ->]; [done|]. rewrite Hnext.
  rewrite <-(app_nil_r P) at 1. rewrite response_loop_frame.
  by destruct (loop _ l2 _ r2) as [[rest err] r3].
Qed.

(** C14: Evaluating the response headers with the complete body at hand is evaluating them
    without it and, if that evaluation pauses for the body, resuming it on the body: the
    same disposition, reply, header operations, body and status, the same error, and the
    same calls of filters and records of the stream. An evaluation that does not pause
    does not depend on the body at all. *)
Theorem response_pause_resume e st units scope body r :
  let '(res, err, r1) := EvalResponseHeaders e st units scope None r in
  let '(full, fullErr, r2) := EvalResponseHeaders e st units scope (Some body) r in
  if ph_needsBody res
  then err = None
       ∧ EvalResponseBody e st (Some res) body r1 = (completed full, fullErr, r2)
  else (full, fullErr, r2) = (res, err, r1).
Proof.
  unfold EvalResponseHeaders.
  destruct (ValidateSubscriptions e units) as [subs|err]; [|done].
  destruct (negb (meets subs PhaseResponseHeaders)); [done|].
  pose proof (walk_resumes e st units scope body r) as H.
  destruct (walkResponse e st units startCursor scope None r) as [[pw err] r1].
  destruct (pw_continuation pw) as [c|] eqn:Hc.
  2:{ destruct H as [Hn ->]. destruct (walkResult (pw_walk pw)) as [reduced rerr].
      simpl. by rewrite Hn, Hc. }
  destruct H as (-> & Hw & Hn & p & Hat & ->). rewrite Hw. simpl. rewrite Hn.
  unfold EvalResponseBody. cbn [mbind option_bind ph_continuation]. rewrite Hat.
  destruct (invokeBody _ _ _ _ _) as [[[|e1] pw1] r2].
  - destruct (walkResponse _ _ _ _ _ _ r2) as [[rest err] r3]. cbn [pw_walk].
    by destruct (walkResult _) as [reduced rerr].
  - by destruct (walkResult _) as [reduced rerr].
Qed.

(** ** Well-formed results *)

Record request_typed (res : RequestHeadersResult) : Prop := {
  qt_kind : rh_Disposition res ≠ DispositionError;
  qt_blocked : rh_Disposition res = DispositionBlocked →
    rh_HeaderOps res = [] ∧ rh_Route res = None ∧ rh_Body res = None
    ∧ NeedsBody res = false;
  qt_reply : rh_Disposition res ≠ DispositionBlocked → rh_Reply res = emptyReply;
  qt_passthrough : rh_Disposition res = DispositionPassthrough →
    rh_HeaderOps res = [] ∧ rh_Route res = None ∧ rh_Body res = None;
  qt_status : ∀ op, op ∈ rh_HeaderOps res → EqualFold (op_Name op) ":status" = false;
  qt_route : Route_Validate (rh_Route res) = Ok ();
  qt_scope : rh_Disposition res = DispositionBypassed →
    sc_bounded (rh_ResponseScope res) = true
}.

Record response_typed (res : ResponseHeadersResult) : Prop := {
  st_kind : ph_Disposition res ≠ DispositionError;
  st_blocked : ph_Disposition res = DispositionBlocked →
    ph_HeaderOps res = [] ∧ ph_Body res = None ∧ ph_StatusCode res = None
    ∧ ph_needsBody res = false;
  st_reply : ph_Disposition res ≠ DispositionBlocked → ph_Reply res = emptyReply;
  st_quiet : ph_Disposition res = DispositionPassthrough ∨ ph_needsBody res = true →
    ph_HeaderOps res = [] ∧ ph_Body res = None ∧ ph_StatusCode res = None;
  st_status : ∀ op, op ∈ ph_HeaderOps res → EqualFold (op_Name op) ":status" = false;
  st_range : ∀ code, ph_StatusCode res = Some code → (200 <= code <= 599)%Z
}.

Lemma valid_op phase m op :
  valid_in phase m → op ∈ mut_HeaderOps m → EqualFold (op_Name op) ":status" = false.
Proof.
  unfold valid_in, validateMutation. intros ([] & _ & H)%rbind_Ok Hin.
  destruct (bool_decide _ && _); [done|]. destruct (_ && clearsCache m); [done|].
  apply rbind_Ok in H as ([] & H & _). apply rfold_unit_Ok in H.
  apply (proj1 (Forall_forall _ _) H) in Hin. unfold validateOp in Hin.
  destruct (_ && _); [done|]. by destruct (EqualFold _ _).
Qed.

Lemma fold_no_status V muts op :
  (∀ m op, V m → op ∈ mut_HeaderOps m → EqualFold (op_Name op) ":status" = false) →
  Forall V muts → op ∈ fold muts → EqualFold (op_Name op) ":status" = false.
Proof.
  intros HV Hall Hop%fold_from_ops.
  assert (∀ op', op' ∈ flat_map mut_HeaderOps muts →
    EqualFold (op_Name op') ":status" = false) as Hops.
  { intros op' (m & Hm & Hin)%list_elem_of_In%in_flat_map.
    apply list_elem_of_In in Hm, Hin. eapply HV; [|exact Hin].
    by apply (proj1 (Forall_forall _ _) Hall). }
  unfold from_ops in Hop. destruct (is_remove op); [|auto].
  destruct Hop as (op' & Hin & <-). auto.
Qed.

Lemma lastStatus_elem muts code :
  lastStatusMutation muts = Some code → ∃ m, m ∈ muts ∧ mut_StatusCode m = Some code.
Proof.
  unfold lastStatusMutation. rewrite <-(reverse_involutive muts).
  generalize (reverse muts). clear muts. intros muts. induction muts as [|m muts IH]; [done|].
  rewrite reverse_cons, foldl_app. simpl. destruct (mut_StatusCode m) as [c|] eqn:Hm.
  - intros [= <-]. exists m. split; [|done]. apply elem_of_app. right. left.
  - intros (m' & Hin & Hc)%IH. exists m'. split; [|done]. apply elem_of_app. by left.
Qed.

Lemma response_valid_status m code :
  response_valid m → mut_StatusCode m = Some code → (200 <= code <= 599)%Z.
Proof.
  assert (∀ phase, responsePhase phase = true → requestPhase phase = false →
    valid_in phase m → mut_StatusCode m = Some code → (200 <= code <= 599)%Z) as H.
  { intros phase Hp Hq. unfold valid_in, validateMutation.
    intros ([] & _ & H)%rbind_Ok Hc.
    destruct (bool_decide _ && _); [done|]. destruct (_ && clearsCache m); [done|].
    apply rbind_Ok in H as (? & _ & H). rewrite Hp, Hq, Hc in H.
    destruct (clearsCache m); [done|].
    destruct ((code <? 200)%Z || (599 <? code)%Z) eqn:Hr; [done|].
    apply orb_false_iff in Hr as [?%Z.ltb_ge ?%Z.ltb_ge]. lia. }
  intros [Hv|Hv]; [by apply (H PhaseResponseHeaders)|by apply (H PhaseResponseBody)].
Qed.

Lemma response_valid_op m op :
  response_valid m → op ∈ mut_HeaderOps m → EqualFold (op_Name op) ":status" = false.
Proof. intros [Hv|Hv]; by eapply valid_op. Qed.

Lemma resolved_kind V w :
  walk_ok V w →
  resolved w ≠ DispositionError
  ∧ (resolved w = DispositionBlocked ↔ aw_disposition w = DispositionBlocked)
  ∧ (resolved w = DispositionPassthrough → aw_pending w = []).
Proof.
  intros [_ _ _ Hk]. unfold resolved.
  destruct Hk as [Hk|[Hk|Hk]]; rewrite Hk; destruct (aw_pending w); naive_solver.
Qed.

Lemma headers_typed e st units r res r' :
  EvalRequestHeaders e st units None r = (res, None, r') → request_typed res.
Proof.
  intros (_ & rw & Hw & Hroute & ->)%EvalRequestHeaders_walk.
  pose proof (walkRequest_ok e st units r) as Hok. rewrite Hw in Hok.
  destruct Hok as [[H1 H2 H3] _]. destruct (resolved_kind _ _ H1) as (Hk & Hb & Hp).
  simpl in Hroute. split; simpl.
  - done.
  - intros Hd. apply Hb in Hd as Hd'. destruct H1 as [_ Hpend _ _].
    rewrite (Hpend Hd') in Hroute |- *. injection Hroute as <-.
    unfold NeedsBody. simpl. by rewrite Hd.
  - rewrite Hb. apply H1.
  - intros Hd%Hp. rewrite Hd in Hroute |- *. by injection Hroute as <-.
  - intros op. apply (fold_no_status (valid_in PhaseRequestHeaders)); [apply valid_op|apply H1].
  - by apply foldRoute_valid in Hroute.
  - intros Hd. rewrite H3, <-resolved_bypassed. by apply bool_decide_eq_true.
Qed.

Lemma foldRoute_passthrough prior res B :
  foldRoute (rh_pending prior) = Ok (rh_Route prior) → rh_pending prior ++ B = [] →
  match rh_Route prior with
  | Some route => rb_Route res = Some route
  | None => foldRoute (rh_pending prior ++ B) = Ok (rb_Route res)
  end → rb_Route res = None.
Proof.
  intros Hr [HP HB]%app_eq_nil. rewrite HP in Hr. injection Hr as <-.
  rewrite HP, HB. simpl. by intros [= <-].
Qed.

Lemma inline_body_typed e st prior body r res r' :
  prior_ok e prior → NeedsBody prior = true →
  foldRoute (rh_pending prior) = Ok (rh_Route prior) →
  EvalRequestBody e st (Some prior) body r = (res, None, r') →
  request_typed (HeadersResult res).
Proof.
  intros [Hv Hc Hs Hb] Hn Hroute Hres.
  destruct (EvalRequestBody_outcome _ _ _ _ _ _ _ Hs Hb Hn Hres)
    as [Hk Hblk Hrep Hext _ Hbyp].
  destruct (decide (rb_Disposition res = DispositionBlocked)) as [Hd|Hd].
  { destruct (Hblk Hd) as (Ho & Hr & Hbo). split; simpl; try done.
    - intros _. unfold NeedsBody. simpl. by rewrite andb_false_r.
    - rewrite Ho. by intros op ?%not_elem_of_nil.
    - by rewrite Hr. }
  destruct (Hext Hd) as (B & HB & Ho & Hbo & Hp & Hr).
  assert (Forall request_valid (rh_pending prior ++ B)) as Hall.
  { apply Forall_app. split; eapply Forall_impl; [exact Hv| |exact HB|];
      intros m Hm; [by left|by right]. }
  split; simpl; try done.
  - intros Hd0. specialize (Hp Hd0). rewrite Ho, Hbo, Hp. split; [done|].
    split; [|done]. by eapply foldRoute_passthrough.
  - intros op. rewrite Ho. apply (fold_no_status request_valid); [|done].
    intros m op' [Hm|Hm]; by eapply valid_op.
  - destruct (rh_Route prior) as [route|].
    + rewrite Hr. by apply foldRoute_valid in Hroute.
    + by apply foldRoute_valid in Hr.
Qed.

Lemma responses_typed e st units scope body r res r' :
  EvalResponseHeaders e st units scope body r = (res, None, r') → response_typed res.
Proof.
  unfold EvalResponseHeaders. intros Heq.
  assert (response_typed emptyResponseResult) as Hempty.
  { split; simpl; try done. by intros op ?%not_elem_of_nil. }
  destruct (ValidateSubscriptions e units) as [subs|]; [|done].
  destruct (negb _); [by injection Heq as <- <-|].
  pose proof (walkResponse_ok e st units startCursor scope body r) as Hok.
  destruct (walkResponse _ _ _ _ _ _ _) as [[pw err] r1]. destruct Hok as [Hw Hn].
  pose proof (walkResult_ok (pw_walk pw)) as Hwr.
  destruct (walkResult (pw_walk pw)) as [reduced rerr].
  injection Heq as <- [-> ->]%first_error_None <-. destruct (Hwr eq_refl) as [_ Hred].
  destruct (resolved_kind _ _ Hw) as (Hk & Hb & Hp).
  rewrite Hred. split; simpl.
  - done.
  - intros Hd%Hb. destruct Hw as [_ Hpend _ _]. rewrite (Hpend Hd).
    split; [done|]. split; [done|]. split; [done|].
    apply not_true_iff_false. intros Hnb%Hn. by rewrite Hnb in Hd.
  - rewrite Hb. apply Hw.
  - intros Hd. assert (aw_pending (pw_walk pw) = []) as ->; [|done].
    destruct Hd as [Hd|Hd]; [auto|]. by rewrite (Hn Hd).
  - intros op. apply (fold_no_status response_valid); [apply response_valid_op|apply Hw].
  - intros code (m & Hm & Hc)%lastStatus_elem. eapply response_valid_status; [|exact Hc].
    destruct Hw as [Hv _ _ _]. by apply (proj1 (Forall_forall _ _) Hv).
Qed.

(** C12: The results of completed evaluations are well formed. A block carries a reply and
    nothing else, and nothing but a block carries a reply; a passthrough, and a response
    that waits for its body, carries nothing at all; no header operation touches :status,
    a replaced status lies between 200 and 599, a route is valid, and a bypass bounds the
    response. *)
Theorem evaluation_well_typed e st units scope body r :
  match EvalRequestHeaders e st units body r with
  | (res, None, _) => request_typed res
  | _ => True
  end
  ∧ match EvalResponseHeaders e st units scope body r with
    | (res, None, _) => response_typed res
    | _ => True
    end.
Proof.
  split.
  2:{ destruct (EvalResponseHeaders _ _ _ _ _ _) as [[res [err|]] r'] eqn:Heq; [done|].
      by eapply responses_typed. }
  destruct (EvalRequestHeaders e st units body r) as [[res [err|]] r'] eqn:Heq; [done|].
  destruct body as [body|]; [|by eapply headers_typed].
  destruct (EvalRequestHeaders e st units None r) as [[res0 err0] r0] eqn:Heq0.
  pose proof Heq as Hc. unfold EvalRequestHeaders in Hc, Heq0.
  destruct (validateUnits e units) as [[]|] eqn:Hval; [|done].
  destruct (walkRequest e st units r) as [[rw err1] r1] eqn:Hwalk.
  destruct (walkResult (rw_walk rw)) as [reduced rerr] eqn:Hred.
  destruct (first_error err1 rerr) as [e1|] eqn:Hfe; [done|].
  injection Heq0 as <- <- <-.
  match type of Hc with context [if NeedsBody ?x then _ else _] => set (prior := x) in Hc end.
  assert (EvalRequestHeaders e st units None r = (prior, None, r1)) as Heq1.
  { unfold EvalRequestHeaders. by rewrite Hval, Hwalk, Hred, Hfe. }
  destruct (NeedsBody prior) eqn:Hn.
  2:{ injection Hc as <- <-. by eapply headers_typed. }
  destruct (EvalRequestBody e st (Some prior) body r1) as [[br berr] r2] eqn:Hb.
  injection Hc as <- -> <-. eapply inline_body_typed; [|exact Hn| |exact Hb].
  - by eapply EvalRequestHeaders_prior.
  - apply EvalRequestHeaders_walk in Heq1 as (_ & rw' & _ & Hr & Hp). rewrite Hp. simpl.
    rewrite Hp in Hr. exact Hr.
Qed.

(** ** The target that filters see *)

(** The view of the stream, computed from all mutations so far. *)
Definition routedView (st : Stream) (route : option RouteMutation) : Stream :=
  match routeUpstream route with Some up => set_Upstream (Some up) st | None => st end.

Definition referenceStep (st : Stream) (p : pair) (rw : requestWalk) (r : Run)
    : flow * requestWalk * Run :=
  match foldRoute (aw_pending (rw_walk rw)) with
  | Err e => (Return (Some e), rw, r)
  | Ok route => requestInvoke (routedView st route) p rw r
  end.

(** The walk without its cache of views. *)
Definition forget_view (rw : requestWalk) : requestWalk :=
  {| rw_walk := rw_walk rw; rw_scope := rw_scope rw; rw_bodyFilters := rw_bodyFilters rw;
     rw_view := None; rw_viewed := 0; rw_route := None |}.

Definition forgetView (x : flow * requestWalk * Run) : flow * requestWalk * Run :=
  let '(fl, rw, r) := x in (fl, forget_view rw, r).

(** The cache holds the route of the mutations it has seen, and its view. *)
Record cache_ok (st : Stream) (rw : requestWalk) : Prop := {
  co_viewed : rw_viewed rw ≤ length (aw_pending (rw_walk rw));
  co_route : foldRoute (take (rw_viewed rw) (aw_pending (rw_walk rw))) = Ok (rw_route rw);
  co_view : rw_view rw = None ∨ rw_view rw = Some (routedView st (rw_route rw))
}.

Lemma streamView_spec st rw :
  cache_ok st rw →
  match streamView st rw with
  | Err e => foldRoute (aw_pending (rw_walk rw)) = Err e
  | Ok (view, rw') =>
      ∃ route, foldRoute (aw_pending (rw_walk rw)) = Ok route
        ∧ view = routedView st route ∧ forget_view rw' = forget_view rw ∧ cache_ok st rw'
  end.
Proof.
  intros [Hv Hr Hview]. unfold streamView. set (P := aw_pending (rw_walk rw)) in *.
  pose proof (foldRouteFrom_app (take (rw_viewed rw) P) (drop (rw_viewed rw) P)
                (rw_route rw) Hr) as Happ.
  rewrite take_drop in Happ. rewrite Happ.
  destruct (foldRouteFrom (rw_route rw) (drop (rw_viewed rw) P)) as [[route fresh]|e] eqn:Hf;
    simpl in *; [|done].
  assert (∀ view, view = routedView st route →
    cache_ok st {| rw_walk := rw_walk rw; rw_scope := rw_scope rw;
                   rw_bodyFilters := rw_bodyFilters rw; rw_view := Some view;
                   rw_viewed := length P; rw_route := route |}) as Hnew.
  { intros view ->. split; simpl; [done| |by right]. fold P. by rewrite firstn_all. }
  destruct (rw_view rw) as [v|]; [destruct fresh|];
    [exists route; split; [done|]; split; [done|]; split; [done|by apply Hnew]| |
     exists route; split; [done|]; split; [done|]; split; [done|by apply Hnew]].
  apply foldRouteFrom_same in Hf as ->. destruct Hview as [|[= ->]]; [done|].
  exists (rw_route rw). split; [done|]. split; [done|]. split; [done|by apply Hnew].
Qed.

(** The rest of an iteration does not touch the cache, nor look at it. *)
Lemma requestInvoke_forget view p rw r :
  requestInvoke view p (forget_view rw) r = forgetView (requestInvoke view p rw r).
Proof.
  unfold requestInvoke. destruct (invoke _ _ _ _) as [[f res] r1]. destruct res as [act|err].
  2:{ unfold failed. simpl. by destruct (filterFailed _ _ _ _ _). }
  destruct (validateAction _ _ _); [|done].
  by destruct act as [[|m ms]|rep| |ms].
Qed.

Lemma requestInvoke_cache st view p rw r :
  cache_ok st rw → rw_viewed rw = length (aw_pending (rw_walk rw)) →
  let '(fl, rw', r') := requestInvoke view p rw r in fl = Proceed → cache_ok st rw'.
Proof.
  intros [Hv Hr Hview] Hlen. unfold requestInvoke.
  assert (∀ ms, cache_ok st (with_walk (with_pending (aw_pending (rw_walk rw) ++ ms) (rw_walk rw)) rw))
    as Hgrow.
  { intros ms. split; simpl; [rewrite length_app; lia| |done].
    rewrite Hlen, take_app_length. rewrite Hlen, firstn_all in Hr. done. }
  destruct (invoke _ _ _ _) as [[f res] r1]. destruct res as [act|err].
  2:{ unfold failed. simpl. unfold filterFailed.
      destruct (failurePolicy _ _); [done|]. by intros _. }
  destruct (validateAction _ _ _); [|done].
  destruct act as [[|m ms]|rep| |ms]; simpl; try done.
  intros _. destruct (Hgrow ms). by split.
Qed.

Lemma streamView_viewed st rw view rw' :
  streamView st rw = Ok (view, rw') → rw_viewed rw' = length (aw_pending (rw_walk rw')).
Proof.
  unfold streamView. intros ([route fresh] & _ & H)%rbind_Ok.
  destruct (rw_view rw), fresh; by simplify_eq/=.
Qed.

Lemma request_loop_reference st l rw r :
  cache_ok st rw →
  (let '(rw', err, r') := loop (requestStep st) l rw r in (forget_view rw', err, r'))
  = (let '(rw', err, r') := loop (referenceStep st) l (forget_view rw) r in
     (forget_view rw', err, r')).
Proof.
  revert rw r. induction l as [|p l IH]; intros rw r Hok; [done|]. cbn [loop].
  unfold requestStep at 1, referenceStep at 1. cbn [forget_view rw_walk].
  pose proof (streamView_spec st rw Hok) as Hs.
  destruct (streamView st rw) as [[view rw1]|e] eqn:Hsv; [|by rewrite Hs].
  destruct Hs as (route & -> & -> & Hfg & Hok1).
  change {| rw_walk := rw_walk rw; rw_scope := rw_scope rw;
            rw_bodyFilters := rw_bodyFilters rw; rw_view := None; rw_viewed := 0;
            rw_route := None |} with (forget_view rw).
  rewrite <-Hfg, requestInvoke_forget.
  pose proof (requestInvoke_cache st (routedView st route) p rw1 r Hok1
                (streamView_viewed _ _ _ _ Hsv)) as Hc.
  destruct (requestInvoke _ _ _ _) as [[[|err] rw2] r2]; simpl; [|done].
  rewrite IH by auto. by destruct rw2.
Qed.

(** C30: Every filter of a walk over the request headers sees the stream with the target
    that folding all mutations so far selects: the walk, which folds only the mutations
    that are new and keeps its view while no new one concerns the route, makes the calls
    and records, and has the outcome, of the walk that folds everything each time. *)
Theorem view_is_folded_route e st units r :
  (let '(rw, err, r') := walkRequest e st units r in (forget_view rw, err, r'))
  = (let '(rw, err, r') :=
       loop (referenceStep st) (pairs e units startCursor PhaseRequestHeaders)
         (newRequestWalk unboundedScope []) r in (forget_view rw, err, r')).
Proof. apply (request_loop_reference st _ (newRequestWalk unboundedScope [])). by split; [| |left]. Qed.

(** ** Filters that fail *)

(** The walk over the request headers gets to a pair, with some walk and run. *)
Definition reaches (e : Engine) (st : Stream) (units : list Unit) (r : Run)
    (p : pair) (rest : list pair) (rw : requestWalk) (r1 : Run) : Prop :=
  ∃ l, pairs e units startCursor PhaseRequestHeaders = l ++ p :: rest
    ∧ loop (requestStep st) (l ++ p :: rest) (newRequestWalk unboundedScope []) r
      = loop (requestStep st) (p :: rest) rw r1.

(** The run after a call that failed, with its records. *)
Definition failed_run (p : pair) (kind : UnitActionKind) (world : World) (err : string)
    (closed : bool) (r : Run) : Run :=
  let info := RecordFilter {| fr_Filter := reg_Name (p_reg p); fr_Phase := "request_headers";
                              fr_Outcome := "error"; fr_Err := Some err |} (run_info r) in
  {| run_world := world;
     run_info := RecordUnitAction (un_ID (p_unit p)) (reg_Name (p_reg p)) kind
                   (if closed then set_Error err <$> info else info) |}.

(** C31: A filter that fails on the request headers is resolved by its failure policy.
    Failing closed, the evaluation completes as a block with status 500 and no mutation,
    whatever earlier filters asked for, no later filter runs, and the error is recorded.
    Failing open, the error is recorded and the walk goes on after the filter, with the
    mutations before it. *)
Theorem failure_is_resolved e st units r p rest rw r1 view rw1 f world err :
  validateUnits e units = Ok () →
  reaches e st units r p rest rw r1 →
  streamView st rw = Ok (view, rw1) →
  halted (rw_walk rw1) = false →
  OnRequestHeaders (newFilter p) view (run_world r1) = (f, world, Err err) →
  match failurePolicy (p_reg p) (p_cfg p) with
  | FailClosed =>
      ∃ res, EvalRequestHeaders e st units None r
             = (res, None, failed_run p ActionErrorClosed world err true r1)
        ∧ rh_Disposition res = DispositionBlocked
        ∧ rh_Reply res = failClosedReply PhaseRequestHeaders
        ∧ rh_HeaderOps res = [] ∧ rh_Route res = None ∧ rh_Body res = None
        ∧ rh_pending res = []
  | FailOpen =>
      walkRequest e st units r
      = loop (requestStep st) rest rw1 (failed_run p ActionErrorOpen world err false r1)
  end.
Proof.
  intros Hval (l & Hl & Hloop) Hv Hh Hcall.
  assert (walkRequest e st units r = loop (requestStep st) (p :: rest) rw r1) as Hw.
  { unfold walkRequest. by rewrite Hl. }
  cbn [loop] in Hw. unfold requestStep at 1 in Hw. rewrite Hv in Hw.
  unfold requestInvoke, invoke in Hw. rewrite Hcall in Hw.
  unfold failed in Hw. simpl in Hw. unfold filterFailed in Hw.
  destruct (failurePolicy (p_reg p) (p_cfg p)); simpl in Hw.
  - unfold EvalRequestHeaders. rewrite Hval, Hw. simpl. eexists. split; [reflexivity|done].
  - rewrite Hh in Hw. rewrite Hw. by destruct rw1.
Qed.

End theorems.

(** * Bypasses of the policy engine

    A bypass ends the evaluation at its own pair, in the request and in the response: what
    the policy has after that pair does not matter. [truncate] is the policy without it. *)

Section bypass.
Context `{CF : CaseFolding} `{D : Deployment} `{FL : !Filters}.

(** ** The policy up to a cursor *)

Definition truncateUnit (i : nat) (u : Unit) : Unit :=
  {| un_ID := un_ID u; un_Scope := un_Scope u;
     un_Cfgs := imap (λ j cfg, if decide (j ≤ i) then cfg else None) (un_Cfgs u) |}.

Definition truncate (c : evalCursor) (units : list Unit) : list Unit :=
  take (cur_unit c) units
  ++ (truncateUnit (cur_regIdx c) <$> option_list (units !! cur_unit c)).

(** Pairs that no callback and no record tells apart. *)
Definition pair_sim (p p' : pair) : Prop :=
  p_at p = p_at p' ∧ p_reg p = p_reg p' ∧ p_cfg p = p_cfg p'
  ∧ un_ID (p_unit p) = un_ID (p_unit p') ∧ un_Scope (p_unit p) = un_Scope (p_unit p').

#[export] Instance pair_sim_refl : Reflexive pair_sim.
Proof. intros p. done. Qed.

Definition kept (c : evalCursor) (p : pair) : bool :=
  negb (excludes {| sc_bounded := true; sc_last := c |} (cur_unit (p_at p)) (cur_regIdx (p_at p))).

Lemma kept_before c p : kept c p = true ↔ ¬ before c (p_at p).
Proof.
  unfold kept. rewrite negb_true_iff, <-not_true_iff_false, excludes_before. simpl.
  destruct (p_at p). naive_solver.
Qed.

Lemma unitPairs_cursor e phases units u p :
  p ∈ unitPairs e phases startCursor units u → cur_unit (p_at p) = u.
Proof.
  unfold unitPairs. destruct (units !! u) as [unit|]; [|by intros ?%not_elem_of_nil].
  intros (i & _ & Hi)%list_elem_of_omap. unfold pairOf in Hi.
  repeat case_match; by simplify_eq/=.
Qed.

Lemma filter_all {A} (f : A → bool) l : (∀ x, x ∈ l → f x = true) → List.filter f l = l.
Proof.
  induction l as [|x l IH]; intros H; simpl; [done|]. rewrite H by left.
  f_equal. apply IH. intros y Hy. apply H. by right.
Qed.

Lemma filter_none {A} (f : A → bool) l : (∀ x, x ∈ l → f x = false) → List.filter f l = [].
Proof.
  induction l as [|x l IH]; intros H; simpl; [done|]. rewrite H by left.
  apply IH. intros y Hy. apply H. by right.
Qed.

Lemma filter_flat_map {A B} (f : B → bool) (g : A → list B) l :
  List.filter f (flat_map g l) = flat_map (λ x, List.filter f (g x)) l.
Proof. induction l as [|x l IH]; simpl; [done|]. by rewrite List.filter_app, IH. Qed.

Lemma flat_map_nil {A B} (g : A → list B) l : (∀ x, x ∈ l → g x = []) → flat_map g l = [].
Proof.
  induction l as [|x l IH]; intros H; simpl; [done|]. rewrite H by left. simpl.
  apply IH. intros y Hy. apply H. by right.
Qed.

Lemma Forall2_flat_map {A B} (R : B → B → Prop) (f g : A → list B) l :
  (∀ x, x ∈ l → Forall2 R (f x) (g x)) → Forall2 R (flat_map f l) (flat_map g l).
Proof.
  induction l as [|x l IH]; intros H; simpl; [constructor|].
  apply Forall2_app; [apply H; left|]. apply IH. intros y Hy. apply H. by right.
Qed.

Lemma truncate_lookup c units u :
  truncate c units !! u
  = if decide (u < cur_unit c) then units !! u
    else if decide (u = cur_unit c) then truncateUnit (cur_regIdx c) <$> units !! u else None.
Proof.
  unfold truncate. destruct (decide (u < cur_unit c)) as [Hlt|Hge].
  - destruct (units !! u) as [unit|] eqn:Hu.
    + rewrite lookup_app_l; [by rewrite lookup_take_lt|].
      apply lookup_lt_Some in Hu. rewrite length_take. lia.
    + apply lookup_ge_None in Hu.
      rewrite lookup_app_r by (rewrite length_take; lia).
      rewrite (lookup_ge_None_2 units (cur_unit c)) by lia. done.
  - destruct (decide (u = cur_unit c)) as [->|Hne].
    + destruct (units !! cur_unit c) as [unit|] eqn:Hu; simpl.
      * apply lookup_lt_Some in Hu.
        rewrite lookup_app_r by (rewrite length_take; lia).
        rewrite length_take. by replace (_ - _) with 0 by lia.
      * apply lookup_ge_None in Hu. rewrite app_nil_r.
        apply lookup_ge_None. rewrite length_take. lia.
    + apply lookup_ge_None. rewrite length_app, length_take, length_fmap.
      destruct (units !! cur_unit c); simpl; lia.
Qed.

Lemma length_truncate c units :
  length (truncate c units) = min (S (cur_unit c)) (length units).
Proof.
  unfold truncate. rewrite length_app, length_take, length_fmap.
  destruct (units !! cur_unit c) as [unit|] eqn:Hu;
    [apply lookup_lt_Some in Hu; change (length (option_list (Some unit))) with 1
    |apply lookup_ge_None in Hu; change (length (option_list (@None Unit))) with 0]; lia.
Qed.

(** Inside the unit of the cursor, the configurations after it are gone. *)
Lemma truncateUnit_pairs e phases u i unit l :
  Forall2 pair_sim
    (List.filter (kept {| cur_unit := u; cur_regIdx := i |}) (omap (pairOf e phases u unit) l))
    (omap (pairOf e phases u (truncateUnit i unit)) l).
Proof.
  induction l as [|j l IH]; [constructor|].
  assert (pairOf e phases u (truncateUnit i unit) j
    = if decide (j ≤ i)
      then (λ p, {| p_at := p_at p; p_reg := p_reg p; p_unit := truncateUnit i unit;
                    p_cfg := p_cfg p |}) <$> pairOf e phases u unit j
      else None) as Hj.
  { unfold pairOf. simpl. rewrite list_lookup_imap.
    destruct (eng_regs e !! j), (un_Cfgs unit !! j) as [[cfg|]|]; simpl;
      case_decide; try done; by destruct (meets _ _). }
  simpl. rewrite Hj. destruct (pairOf e phases u unit j) as [p|] eqn:Hp; simpl.
  2:{ by case_decide. }
  assert (p_at p = {| cur_unit := u; cur_regIdx := j |}) as Hat.
  { unfold pairOf in Hp. repeat case_match; by simplify_eq/=. }
  destruct (decide (j ≤ i)) as [Hle|Hgt]; simpl.
  - assert (kept {| cur_unit := u; cur_regIdx := i |} p = true) as ->.
    { apply kept_before. rewrite Hat. unfold before. simpl. lia. }
    constructor; [|exact IH].
    unfold pairOf in Hp. repeat case_match; simplify_eq/=. done.
  - assert (kept {| cur_unit := u; cur_regIdx := i |} p = false) as ->; [|exact IH].
    apply not_true_iff_false. rewrite kept_before, Hat. unfold before. simpl. lia.
Qed.

Lemma unitPairs_truncate e phases c units u :
  Forall2 pair_sim (List.filter (kept c) (unitPairs e phases startCursor units u))
    (unitPairs e phases startCursor (truncate c units) u).
Proof.
  assert (∀ p, p ∈ unitPairs e phases startCursor units u → cur_unit (p_at p) = u) as Hcur
    by apply unitPairs_cursor.
  unfold unitPairs at 2. rewrite truncate_lookup.
  destruct (decide (u < cur_unit c)) as [Hlt|Hge].
  - rewrite filter_all; [unfold unitPairs; reflexivity|].
    intros p Hp%Hcur. apply kept_before. unfold before. lia.
  - destruct (decide (u = cur_unit c)) as [->|Hne].
    + unfold unitPairs. destruct (units !! cur_unit c) as [unit|]; [|constructor].
      simpl. destruct c as [cu ci]. apply truncateUnit_pairs.
    + rewrite filter_none; [constructor|]. intros p Hp%Hcur.
      apply not_true_iff_false. rewrite kept_before. unfold before. lia.
Qed.

(** The pairs of the truncated policy are the ones the scope keeps. *)
Lemma pairs_truncate e units c phases :
  Forall2 pair_sim (List.filter (kept c) (pairs e units startCursor phases))
    (pairs e (truncate c units) startCursor phases).
Proof.
  unfold pairs. simpl. rewrite !Nat.sub_0_r, length_truncate, filter_flat_map.
  set (n := min (S (cur_unit c)) (length units)).
  replace (length units) with (n + (length units - n)) at 1 by lia.
  rewrite seq_app, flat_map_app. simpl.
  rewrite (flat_map_nil _ (seq n _)).
  { rewrite app_nil_r. apply Forall2_flat_map. intros u _. apply unitPairs_truncate. }
  intros u [Hu1 Hu2]%elem_of_seq. apply filter_none. intros p Hp%unitPairs_cursor.
  apply not_true_iff_false. rewrite kept_before. unfold before. lia.
Qed.

(** ** Steps do not tell similar pairs apart *)

Lemma pair_sim_newFilter p p' : pair_sim p p' → newFilter p = newFilter p'.
Proof.
  intros (_ & Hr & Hc & Hi & Hs). unfold newFilter. by rewrite Hr, Hc, Hi, Hs.
Qed.

Lemma pair_sim_record p p' kind r : pair_sim p p' → record p kind r = record p' kind r.
Proof. intros (_ & Hr & _ & Hi & _). unfold record. by rewrite Hr, Hi. Qed.

Lemma pair_sim_apply p p' act w r : pair_sim p p' → apply p act w r = apply p' act w r.
Proof.
  intros Hp. unfold apply.
  destruct act as [[|m ms]|rep| |ms]; [done|..|done]; by rewrite (pair_sim_record p p').
Qed.

Lemma pair_sim_failed p p' phase err w r :
  pair_sim p p' → filterFailed p phase err w r = filterFailed p' phase err w r.
Proof.
  intros Hp. pose proof Hp as (_ & Hr & Hc & _). unfold filterFailed.
  rewrite Hr, Hc, !(pair_sim_record p p') by done. done.
Qed.

Lemma pair_sim_invoke p p' phase call r :
  pair_sim p p' → invoke p phase call r = invoke p' phase call r.
Proof. intros (_ & Hr & _). unfold invoke. by rewrite Hr. Qed.

Lemma requestStep_sim st p p' rw r :
  pair_sim p p' → requestStep st p rw r = requestStep st p' rw r.
Proof.
  intros Hp. pose proof Hp as (Hat & Hr & _).
  unfold requestStep. destruct (streamView st rw) as [[view rw1]|]; [|done].
  unfold requestInvoke. rewrite (pair_sim_newFilter p p') by done.
  rewrite (pair_sim_invoke p p') by done. destruct (invoke _ _ _ _) as [[f res] r1].
  destruct res as [act|err].
  2:{ unfold failed. simpl. by rewrite (pair_sim_failed p p'). }
  rewrite Hr. destruct (validateAction _ _ _); [|done].
  assert (∀ act, applied p act rw1 r1 = applied p' act rw1 r1) as Happ.
  { intros act'. unfold applied. simpl. unfold requestApply.
    by rewrite (pair_sim_apply p p'), Hat. }
  destruct act as [ms|rep| |ms]; [by rewrite Happ..|].
  by rewrite Hat, (pair_sim_record p p').
Qed.

(** ** The response *)

(** Walks that agree in all but the policy a continuation keeps. *)
Definition same_walk (pw pw' : responseWalk) : Prop :=
  pw_walk pw = pw_walk pw' ∧ pw_needsBody pw = pw_needsBody pw'
  ∧ match pw_continuation pw, pw_continuation pw' with
    | None, None => True
    | Some c, Some c' => rc_f c = rc_f c' ∧ rc_at c = rc_at c' ∧ rc_pending c = rc_pending c'
    | _, _ => False
    end.

Definition same_outcome (x x' : responseWalk * option string * Run) : Prop :=
  same_walk x.1.1 x'.1.1 ∧ x.1.2 = x'.1.2 ∧ x.2 = x'.2.

Definition same_step (x x' : flow * responseWalk * Run) : Prop :=
  x.1.1 = x'.1.1 ∧ same_walk x.1.2 x'.1.2 ∧ x.2 = x'.2
  ∧ (x.1.1 = Proceed → ∃ Q, x.1.2 = newResponseWalk Q ∧ x'.1.2 = newResponseWalk Q).

Lemma same_step_refl x : proceeds_new x → unpaused x.1.2 → same_step x x.
Proof.
  intros Hn [Hc _]. split; [done|]. split; [|split; [done|]].
  - split; [done|]. split; [done|]. by rewrite Hc.
  - destruct x as [[fl pw] r]. intros Hp. destruct (Hn Hp) as [Q HQ]. by exists Q.
Qed.

Lemma applied_sim p p' act Q r :
  pair_sim p p' → applied p act (newResponseWalk Q) r = applied p' act (newResponseWalk Q) r.
Proof. intros Hp. unfold applied. simpl. by rewrite (pair_sim_apply p p'). Qed.

Lemma failed_sim p p' phase err Q r :
  pair_sim p p' →
  failed p phase err (newResponseWalk Q) r = failed p' phase err (newResponseWalk Q) r.
Proof. intros Hp. unfold failed. simpl. by rewrite (pair_sim_failed p p'). Qed.

(** On a pair the scope keeps, the step in the scope is the step without one. *)
Lemma responseStep_sim st units units' c body p p' Q r :
  pair_sim p p' → kept c p = true →
  same_step
    (responseStep st units {| sc_bounded := true; sc_last := c |} body p (newResponseWalk Q) r)
    (responseStep st units' unboundedScope body p' (newResponseWalk Q) r).
Proof.
  intros Hp Hk. pose proof Hp as (Hat & Hr & Hc & _). unfold responseStep.
  assert (subscribed {| sc_bounded := true; sc_last := c |} p = subscribed unboundedScope p')
    as <-.
  { unfold kept in Hk. unfold subscribed. rewrite Hk, Hr, Hc. done. }
  destruct (negb _). { by apply same_step_refl; [intros _; exists Q|]. }
  rewrite (pair_sim_newFilter p p'), (pair_sim_invoke p p') by done.
  destruct (invoke _ _ _ _) as [[f res] r1]. destruct res as [act|err].
  2:{ rewrite (failed_sim p p') by done.
      apply same_step_refl; [apply (failed_frame _ _ _ [])|apply failed_unpaused]. }
  rewrite <-Hr. destruct (validateAction _ _ _); [|by apply same_step_refl].
  assert (∀ a, same_step (applied p a (newResponseWalk Q) r1)
                         (applied p' a (newResponseWalk Q) r1)) as Happ.
  { intros act'. rewrite (applied_sim p p') by done.
    apply same_step_refl; [apply (applied_frame _ _ [])|apply applied_unpaused]. }
  destruct act as [ms|rep| |ms]; [apply Happ..|].
  rewrite (pair_sim_record p p') by done. destruct body as [body|].
  2:{ split; [done|]. split; [|split; [done|by intros ?]]. split; [done|]. split; [done|].
      simpl. by rewrite Hat. }
  change {| pw_walk := with_pending _ _; pw_needsBody := _; pw_continuation := _ |}
    with (newResponseWalk (Q ++ ms)).
  unfold invokeBody. rewrite (pair_sim_invoke p p') by done.
  destruct (invoke _ _ _ _) as [[f' res'] r2]. destruct res' as [act'|err'].
  2:{ rewrite (failed_sim p p') by done.
      apply same_step_refl; [apply (failed_frame _ _ _ [])|apply failed_unpaused]. }
  rewrite <-Hr. destruct (validateAction _ PhaseResponseBody _); [|by apply same_step_refl].
  rewrite (applied_sim p p') by done.
  apply same_step_refl; [apply (applied_frame _ _ [])|apply applied_unpaused].
Qed.

(** The walk in the scope of a cursor is the walk over the pairs it keeps. *)
Lemma response_loop_truncate st units units' c body l l' Q r :
  Forall2 pair_sim (List.filter (kept c) l) l' →
  same_outcome
    (loop (responseStep st units {| sc_bounded := true; sc_last := c |} body) l
       (newResponseWalk Q) r)
    (loop (responseStep st units' unboundedScope body) l' (newResponseWalk Q) r).
Proof.
  revert l' Q r. induction l as [|p l IH]; intros l' Q r; simpl.
  { intros ->%Forall2_nil_inv_l. done. }
  destruct (kept c p) eqn:Hk.
  - intros (p' & l'' & Hp & Hl & ->)%Forall2_cons_inv_l. simpl.
    destruct (responseStep_sim st units units' c body p p' Q r Hp Hk) as (Hf & Hw & Hr & Hn).
    destruct (responseStep st units _ body p _ r) as [[fl pw] r1].
    destruct (responseStep st units' _ body p' _ r) as [[fl' pw'] r1'].
    simpl in *. subst fl' r1'. destruct fl as [|err]; [|done].
    destruct (Hn eq_refl) as (Q' & -> & ->). by apply IH.
  - intros Hl. assert (responseStep st units {| sc_bounded := true; sc_last := c |} body p
      (newResponseWalk Q) r = (Proceed, newResponseWalk Q, r)) as ->; [|by apply IH].
    unfold responseStep, subscribed. unfold kept in Hk.
    apply negb_false_iff in Hk. by rewrite Hk.
Qed.

(** ** The request *)

Definition with_units (units : list Unit) (res : RequestHeadersResult)
    : RequestHeadersResult :=
  {| rh_Disposition := rh_Disposition res; rh_Reply := rh_Reply res;
     rh_HeaderOps := rh_HeaderOps res; rh_Route := rh_Route res; rh_Body := rh_Body res;
     rh_ResponseScope := rh_ResponseScope res; rh_bodyFilters := rh_bodyFilters res;
     rh_units := units; rh_pending := rh_pending res |}.

Lemma validateUnits_Forall e units :
  validateUnits e units = Ok ()
  ↔ Forall (λ u, length (un_Cfgs u) = length (eng_regs e)) units.
Proof.
  unfold validateUnits. induction units as [|u units IH]; simpl; [split; [constructor|done]|].
  rewrite Forall_cons, <-IH. case_decide; simpl; naive_solver.
Qed.

Lemma validateUnits_truncate e c units :
  validateUnits e units = Ok () → validateUnits e (truncate c units) = Ok ().
Proof.
  rewrite !validateUnits_Forall. intros H. apply Forall_lookup. intros u unit.
  rewrite truncate_lookup. case_decide; [by apply (Forall_lookup_1 _ units u unit H)|].
  case_decide; [|done]. intros (unit' & Hu & ->)%fmap_Some.
  simpl. rewrite length_imap. exact (Forall_lookup_1 _ units u unit' H Hu).
Qed.

(** A walk that leaves with a bounded scope leaves at the pair of that scope. *)
Lemma walk_stops_at e st units r :
  let '(rw, err, r') := walkRequest e st units r in
  sc_bounded (rw_scope rw) = true →
  ∃ l1 p l2, pairs e units startCursor PhaseRequestHeaders = l1 ++ p :: l2
    ∧ p_at p = sc_last (rw_scope rw)
    ∧ loop (requestStep st) (l1 ++ [p]) (newRequestWalk unboundedScope []) r = (rw, err, r').
Proof.
  unfold walkRequest. set (l := pairs e units startCursor PhaseRequestHeaders).
  set (w0 := newRequestWalk unboundedScope []).
  apply (loop_inv
    (λ pre rw r1, (∀ post, loop (requestStep st) (pre ++ post) w0 r
                           = loop (requestStep st) post rw r1)
       ∧ request_ok e units (valid_in PhaseRequestHeaders) rw
       ∧ halted (rw_walk rw) = false ∧ callbacks_of pre (rw_bodyFilters rw)
       ∧ sc_bounded (rw_scope rw) = false)
    (λ rw err r', sc_bounded (rw_scope rw) = true →
       ∃ l1 p l2, l = l1 ++ p :: l2 ∧ p_at p = sc_last (rw_scope rw)
         ∧ loop (requestStep st) (l1 ++ [p]) w0 r = (rw, err, r'))).
  - intros rw r1 (_ & _ & _ & _ & ->). done.
  - intros pre p post rw r1 Hl (Hloop & Hok & Hh & Hc & Hs).
    assert (p ∈ l) as Hp by (rewrite Hl; apply elem_of_app; right; left).
    pose proof (requestStep_ok e units st p rw r1 Hp Hok Hh) as Hstep.
    pose proof (requestStep_callbacks pre st p rw r1 Hc Hs) as Hcb.
    destruct (requestStep st p rw r1) as [[fl rw'] r'] eqn:Hrs.
    destruct Hstep as [Hok' Hh'], Hcb as [Hc' Hb'].
    destruct fl as [|err].
    + split. { intros post'. rewrite <-app_assoc. simpl. rewrite Hloop. simpl. by rewrite Hrs. }
      split; [done|]. split; [by apply Hh'|]. split; [done|].
      destruct Hok' as [_ _ ->]. apply bool_decide_eq_false. intros Hb.
      specialize (Hh' eq_refl). unfold halted in Hh'. by rewrite Hb in Hh'.
    + intros Hbd. exists pre, p, post. split; [done|].
      split; [symmetry; by apply Hb'|]. rewrite Hloop. simpl. by rewrite Hrs.
  - split; [done|]. split; [|split; [done|split; [constructor|done]]].
    split; simpl; [apply newActionWalk_ok|constructor|done].
Qed.

(** The walk that a bypass ended is the walk over the policy up to it. *)
Lemma walkRequest_truncate e st units r rw err r' :
  walkRequest e st units r = (rw, err, r') → sc_bounded (rw_scope rw) = true →
  walkRequest e st (truncate (sc_last (rw_scope rw)) units) r = (rw, err, r').
Proof.
  intros Hw Hb. pose proof (walk_stops_at e st units r) as H. rewrite Hw in H.
  destruct (H Hb) as (l1 & p & l2 & Hl & Hat & Hloop).
  destruct (pairs_ordered e units PhaseRequestHeaders l1 p l2 Hl) as [H1 H2].
  pose proof (pairs_truncate e units (sc_last (rw_scope rw)) PhaseRequestHeaders) as Hsim.
  rewrite Hl in Hsim. rewrite List.filter_app in Hsim. simpl in Hsim. rewrite <-Hat in Hsim.
  rewrite filter_all, (filter_none _ l2) in Hsim.
  - assert (kept (p_at p) p = true) as Hk by apply kept_before, before_irrefl.
    rewrite Hk in Hsim. unfold walkRequest. rewrite <-Hat, <-Hloop. symmetry.
    eapply loop_ext; [exact Hsim|]. intros. by apply requestStep_sim.
  - intros q Hq. apply not_true_iff_false. rewrite kept_before.
    rewrite Forall_forall in H2. auto.
  - intros q Hq. apply kept_before. rewrite Forall_forall in H1. intros Hb'.
    apply (before_irrefl (p_at p)). etrans; [exact Hb'|auto].
Qed.

(** C13: A bypass skips everything after its own pair, in both directions: the evaluation
    of the request headers, with its calls and records, is the one under the policy that
    ends at the bypassing pair, and so is every later walk of the response in the scope
    that the bypass left, with the body at hand or without. *)
Theorem bypass_skips_the_rest e st units r res r' :
  EvalRequestHeaders e st units None r = (res, None, r') →
  rh_Disposition res = DispositionBypassed →
  let policy := truncate (sc_last (rh_ResponseScope res)) units in
  EvalRequestHeaders e st policy None r = (with_units policy res, None, r')
  ∧ ∀ st' body r1,
      same_outcome
        (walkResponse e st' units startCursor (rh_ResponseScope res) body r1)
        (walkResponse e st' policy startCursor unboundedScope body r1).
Proof.
  intros Heval Hd. pose proof (EvalRequestHeaders_prior _ _ _ _ _ _ Heval) as [_ _ _ Hb].
  rewrite bool_decide_eq_true_2 in Hb by done.
  pose proof (EvalRequestHeaders_walk _ _ _ _ _ _ Heval) as (Hval & rw & Hw & Hroute & Hres).
  assert (rh_ResponseScope res = rw_scope rw) as Hsc by by rewrite Hres.
  cbn zeta. split.
  - rewrite Hsc in *. unfold EvalRequestHeaders. rewrite validateUnits_truncate by done.
    rewrite (walkRequest_truncate _ _ _ _ _ _ _ Hw Hb).
    unfold walkResult, foldPending. rewrite Hroute. simpl. by rewrite Hres.
  - intros st' body r1. unfold walkResponse.
    assert (rh_ResponseScope res
      = {| sc_bounded := true; sc_last := sc_last (rh_ResponseScope res) |}) as Heta.
    { destruct (rh_ResponseScope res). simpl in *. by subst. }
    rewrite Heta at 1. apply response_loop_truncate, pairs_truncate.
Qed.

End bypass.
