(* ===== verification/ExtProc.v ===== *)
(** * The external processor

    src/extensions/epe/pkg/extproc: the adapter between the proxy and the policy engine.
    The proxy sends the messages of one HTTP exchange over a stream; [Process] hands each
    to the engine, renders the results as responses and, at the end, gives the stream's
    observations to the loggers. Protobuf messages are records; a nil message is [None].
    Reading of the proxy's attributes, the policy resolver and the request authorizer are
    parameters, as are the contexts' errors; log lines are left out. *)

From S2P Require Import Prelude Netip Filter Attributes Fold Engine.

(** ** Messages *)

Inductive HeaderAppendAction := APPEND_IF_EXISTS_OR_ADD | OVERWRITE_IF_EXISTS_OR_ADD.

Record HeaderValueOption := {
  hv_Key : string; hv_RawValue : string; hv_AppendAction : HeaderAppendAction
}.

Record HeaderMutation := {
  hm_SetHeaders : list HeaderValueOption; hm_RemoveHeaders : list string
}.

Inductive CommonStatus := CONTINUE | CONTINUE_AND_REPLACE.

(** A [BodyMutation] whose oneof is unset is [Some None]. *)
Record CommonResponse := {
  cr_Status : CommonStatus;
  cr_HeaderMutation : option HeaderMutation;
  cr_BodyMutation : option (option string);
  cr_ClearRouteCache : bool
}.

Record ImmediateResponse := {
  im_Status : Z;
  im_Headers : option HeaderMutation;
  im_Body : string;
  im_Details : string
}.

Inductive BodySendMode := BODY_NONE | BODY_BUFFERED.
Inductive HeaderSendMode := HEADER_DEFAULT | HEADER_SEND.

Record ProcessingMode := {
  pm_RequestBodyMode : BodySendMode;
  pm_ResponseHeaderMode : HeaderSendMode;
  pm_ResponseBodyMode : BodySendMode
}.

Inductive ResponseArm :=
| ArmRequestHeaders (c : option CommonResponse)
| ArmRequestBody (c : option CommonResponse)
| ArmRequestTrailers
| ArmResponseHeaders (c : option CommonResponse)
| ArmResponseBody (c : option CommonResponse)
| ArmResponseTrailers
| ArmImmediate (i : ImmediateResponse).

Record ProcessingResponse := {
  pr_Response : ResponseArm;
  pr_ModeOverride : option ProcessingMode;
  pr_DynamicMetadata : option (gmap string Value)
}.

Definition plainResponse (arm : ResponseArm) : ProcessingResponse :=
  {| pr_Response := arm; pr_ModeOverride := None; pr_DynamicMetadata := None |}.

(** [cloneResponse] with the mode override set. *)
Definition with_ModeOverride (mode : ProcessingMode) (r : ProcessingResponse)
    : ProcessingResponse :=
  {| pr_Response := pr_Response r; pr_ModeOverride := Some mode;
     pr_DynamicMetadata := pr_DynamicMetadata r |}.

Definition isImmediate (r : ProcessingResponse) : bool :=
  match pr_Response r with ArmImmediate _ => true | _ => false end.

Record HttpBody := { hb_Body : string; hb_EndOfStream : bool }.

(** A conversion to int32. *)
Definition int32 (n : Z) : Z := ((n + 2 ^ 31) mod 2 ^ 32 - 2 ^ 31)%Z.

Section extproc.
Context `{CF : CaseFolding} `{AT : AddressText} `{D : Deployment} `{FL : !Filters}.

(** ** Rendering mutations: translate.go *)

Definition routeAffectingHeaders : list string := [":authority"; ":method"; ":scheme"; "host"].

Definition setOption (op : HeaderOp) (action : HeaderAppendAction) : HeaderValueOption :=
  {| hv_Key := op_Name op; hv_RawValue := op_Value op; hv_AppendAction := action |}.

Definition mutationStep (acc : HeaderMutation * bool) (op : HeaderOp) : HeaderMutation * bool :=
  let '(mut, clear) := acc in
  let clear := if decide (op_Name op ∈ routeAffectingHeaders) then true else clear in
  (match op_Kind op with
   | HeaderSet =>
       {| hm_SetHeaders := hm_SetHeaders mut ++ [setOption op OVERWRITE_IF_EXISTS_OR_ADD];
          hm_RemoveHeaders := hm_RemoveHeaders mut |}
   | HeaderAdd =>
       {| hm_SetHeaders := hm_SetHeaders mut ++ [setOption op APPEND_IF_EXISTS_OR_ADD];
          hm_RemoveHeaders := hm_RemoveHeaders mut |}
   | HeaderRemove =>
       {| hm_SetHeaders := hm_SetHeaders mut;
          hm_RemoveHeaders := hm_RemoveHeaders mut ++ [op_Name op] |}
   end, clear).

Definition headerMutationFromOps (ops : list HeaderOp) : HeaderMutation * bool :=
  foldl mutationStep ({| hm_SetHeaders := []; hm_RemoveHeaders := [] |}, false) ops.

Definition overwriteHeader (name value : string) : HeaderValueOption :=
  {| hv_Key := name; hv_RawValue := value; hv_AppendAction := OVERWRITE_IF_EXISTS_OR_ADD |}.

Definition appendSet (hs : list HeaderValueOption) (mut : HeaderMutation) : HeaderMutation :=
  {| hm_SetHeaders := hm_SetHeaders mut ++ hs; hm_RemoveHeaders := hm_RemoveHeaders mut |}.

Definition commonResponse (ops : list HeaderOp) (body : option string) (statusCode : option Z)
    (clearRouteCache headersPhase requestDirection : bool) : CommonResponse :=
  let '(mut, routeAffecting) := headerMutationFromOps ops in
  let mut := match statusCode with
             | Some code => appendSet [overwriteHeader ":status" (Itoa code)] mut
             | None => mut
             end in
  let mut := match body with
             | Some b =>
                 appendSet
                   [overwriteHeader "content-length" (Itoa (Z.of_nat (String.length b)))] mut
             | None => mut
             end in
  {| cr_Status := if bool_decide (body ≠ None) && headersPhase
                  then CONTINUE_AND_REPLACE else CONTINUE;
     cr_HeaderMutation := Some mut;
     cr_BodyMutation := Some <$> body;
     cr_ClearRouteCache := requestDirection && (clearRouteCache || routeAffecting) |}.

Definition immediateFromReply (r : Reply) : ProcessingResponse :=
  plainResponse (ArmImmediate
    {| im_Status := int32 (rep_Status r);
       im_Headers := match rep_HeaderOps r with
                     | [] => None
                     | ops => Some (headerMutationFromOps ops).1
                     end;
       im_Body := rep_Body r;
       im_Details := rep_Details r |}).

Definition replyOf (status : Z) (details : string) : Reply :=
  {| rep_Status := status; rep_HeaderOps := []; rep_Body := ""; rep_Details := details |}.

(** responses.go *)
Definition defaultPassThrough : ProcessingResponse := plainResponse (ArmRequestHeaders None).
Definition defaultPassThroughBody : ProcessingResponse := plainResponse (ArmRequestBody None).
Definition defaultPassThroughResponseBody : ProcessingResponse :=
  plainResponse (ArmResponseBody None).
Definition emptyResponseHeadersAck : ProcessingResponse :=
  plainResponse (ArmResponseHeaders None).
Definition emptyRequestTrailersAck : ProcessingResponse := plainResponse ArmRequestTrailers.
Definition emptyResponseTrailersAck : ProcessingResponse := plainResponse ArmResponseTrailers.
Definition connectRequestBodyUnsupportedReply : Reply :=
  replyOf 500 "epe_connect_request_body_unsupported".
Definition connectResponseBodyUnsupportedReply : Reply :=
  replyOf 500 "epe_connect_response_body_unsupported".
Definition missingIdentityDeny : ProcessingResponse :=
  immediateFromReply (replyOf 403 "epe_missing_source_identity").
Definition invalidRouteUpstreamDeny : ProcessingResponse :=
  immediateFromReply (replyOf 500 "epe_invalid_route_upstream").
Definition policyUnavailableDeny : ProcessingResponse :=
  immediateFromReply (replyOf 503 "epe_policy_unavailable").
Definition invalidRouteMutationDeny : ProcessingResponse :=
  immediateFromReply (replyOf 500 "epe_invalid_route_mutation").
Definition conflictingUpstreamTargetDeny : ProcessingResponse :=
  immediateFromReply (replyOf 500 "epe_conflicting_upstream_target").

(** ** Routes: route.go *)

(** The object under a key: a new one when it is absent, [None] when it is no object. *)
Definition metadataObject (parent : gmap string Value) (key : string)
    : option (gmap string Value) :=
  match parent !! key with
  | Some (StructValue fields) => Some fields
  | Some _ => None
  | None => Some ∅
  end.

Definition upstreamFields (a : AddrPort) (fields : gmap string Value) : gmap string Value :=
  <["port" := StringValue (Itoa (ap_Port a))]>
    (<["ip" := StringValue (Addr_String (ap_Addr a))]>
       (<["address" := StringValue (AddrPort_String a)]> fields)).

Definition clearRoute (clear : bool) (c : option CommonResponse) : option CommonResponse :=
  let c := default {| cr_Status := CONTINUE; cr_HeaderMutation := None;
                      cr_BodyMutation := None; cr_ClearRouteCache := false |} c in
  Some {| cr_Status := cr_Status c; cr_HeaderMutation := cr_HeaderMutation c;
          cr_BodyMutation := cr_BodyMutation c;
          cr_ClearRouteCache := cr_ClearRouteCache c || clear |}.

(** The metadata with a target, or the denial of a conflict with what it holds. *)
Definition pinUpstream (a : AddrPort) (arm : ResponseArm) (response : ProcessingResponse)
    : ProcessingResponse :=
  let metadata := default ∅ (pr_DynamicMetadata response) in
  match metadataObject metadata "agentio.route" with
  | None => invalidRouteMutationDeny
  | Some namespace =>
      match metadataObject namespace "upstream" with
      | None => invalidRouteMutationDeny
      | Some upstream =>
          let conflict := match upstream !! "address" with
                          | Some v => bool_decide (GetStringValue v ≠ AddrPort_String a)
                          | None => false
                          end in
          if conflict then conflictingUpstreamTargetDeny
          else {| pr_Response := arm; pr_ModeOverride := pr_ModeOverride response;
                  pr_DynamicMetadata :=
                    Some (<["agentio.route" := StructValue
                      (<["upstream" := StructValue (upstreamFields a upstream)]> namespace)]>
                        metadata) |}
      end
  end.

Definition applyRouteMutation (response : ProcessingResponse) (route : option RouteMutation)
    : ProcessingResponse :=
  match route with
  | None => response
  | Some r =>
      if isImmediate response then response else
      match Route_Validate route with
      | Err _ => invalidRouteMutationDeny
      | Ok _ =>
          if bool_decide (rt_Upstream r = None) && negb (rt_ClearCache r) then response else
          let arm := match pr_Response response with
                     | ArmRequestHeaders c =>
                         Some (ArmRequestHeaders (clearRoute (rt_ClearCache r) c))
                     | ArmRequestBody c =>
                         Some (ArmRequestBody (clearRoute (rt_ClearCache r) c))
                     | _ => None
                     end in
          match arm, rt_Upstream r ≫= up_Address with
          | None, _ => invalidRouteMutationDeny
          | Some arm, None =>
              {| pr_Response := arm; pr_ModeOverride := pr_ModeOverride response;
                 pr_DynamicMetadata := pr_DynamicMetadata response |}
          | Some arm, Some a => pinUpstream a arm response
          end
      end
  end.

Definition responseUpstream (response : ProcessingResponse) : option (gmap string Value) :=
  match default ∅ (pr_DynamicMetadata response) !! "agentio.route" with
  | Some (StructValue ns) =>
      match ns !! "upstream" with Some (StructValue fields) => Some fields | _ => None end
  | _ => None
  end.

(** ** Rendering results *)

Definition routeClears (route : option RouteMutation) : bool :=
  match route with Some r => rt_ClearCache r | None => false end.

Definition noMutation (ops : list HeaderOp) (body : option string) : bool :=
  match ops, body with [], None => true | _, _ => false end.

Definition translateRequestHeadersResult (res : RequestHeadersResult) : ProcessingResponse :=
  if decide (rh_Disposition res = DispositionBlocked) then immediateFromReply (rh_Reply res)
  else if NeedsBody res then applyRouteMutation defaultPassThrough (rh_Route res)
  else
    let clearCache := routeClears (rh_Route res) in
    if noMutation (rh_HeaderOps res) (rh_Body res) && negb clearCache
    then applyRouteMutation defaultPassThrough (rh_Route res)
    else applyRouteMutation
           (plainResponse (ArmRequestHeaders
              (Some (commonResponse (rh_HeaderOps res) (rh_Body res) None clearCache true true))))
           (rh_Route res).

Definition translateRequestBodyResult (res : RequestBodyResult) : ProcessingResponse :=
  if decide (rb_Disposition res = DispositionBlocked) then immediateFromReply (rb_Reply res)
  else
    let clearCache := routeClears (rb_Route res) in
    if noMutation (rb_HeaderOps res) (rb_Body res) && negb clearCache
    then applyRouteMutation defaultPassThroughBody (rb_Route res)
    else applyRouteMutation
           (plainResponse (ArmRequestBody
              (Some (commonResponse (rb_HeaderOps res) (rb_Body res) None clearCache false true))))
           (rb_Route res).

Definition translateResponseHeadersResult (res : ResponseHeadersResult) : ProcessingResponse :=
  if decide (ph_Disposition res = DispositionBlocked) then immediateFromReply (ph_Reply res)
  else if noMutation (ph_HeaderOps res) (ph_Body res) && bool_decide (ph_StatusCode res = None)
  then emptyResponseHeadersAck
  else plainResponse (ArmResponseHeaders
         (Some (commonResponse (ph_HeaderOps res) (ph_Body res) (ph_StatusCode res)
                  false true false))).

Definition translateResponseBodyResult (res : ResponseBodyResult) : ProcessingResponse :=
  if decide (pb_Disposition res = DispositionBlocked) then immediateFromReply (pb_Reply res)
  else if noMutation (pb_HeaderOps res) (pb_Body res) && bool_decide (pb_StatusCode res = None)
  then defaultPassThroughResponseBody
  else plainResponse (ArmResponseBody
         (Some (commonResponse (pb_HeaderOps res) (pb_Body res) (pb_StatusCode res)
                  false false false))).

(** ** Outcomes: outcome.go *)

Inductive messageEffect := effectNone | effectMutated | effectBlocked.

#[export] Instance messageEffect_eq_dec : EqDecision messageEffect.
Proof. solve_decision. Defined.

Definition effectRank (e : messageEffect) : nat :=
  match e with effectNone => 0 | effectMutated => 1 | effectBlocked => 2 end.

Definition observe (e other : messageEffect) : messageEffect :=
  if decide (effectRank e < effectRank other) then other else e.

Definition commonEffect (c : option CommonResponse) : messageEffect :=
  match c with
  | None => effectNone
  | Some c =>
      match cr_HeaderMutation c with
      | Some {| hm_SetHeaders := _ :: _ |} | Some {| hm_RemoveHeaders := _ :: _ |} => effectMutated
      | _ => match cr_BodyMutation c with Some (Some _) => effectMutated | _ => effectNone end
      end
  end.

Definition classifyResponse (resp : ProcessingResponse) (upstreamMutation : bool)
    : messageEffect :=
  match pr_Response resp with
  | ArmImmediate _ => effectBlocked
  | ArmRequestHeaders c | ArmRequestBody c =>
      if upstreamMutation && bool_decide (responseUpstream resp ≠ None) then effectMutated
      else commonEffect c
  | ArmResponseHeaders c | ArmResponseBody c => commonEffect c
  | ArmRequestTrailers | ArmResponseTrailers => effectNone
  end.

Definition deriveOutcome (effect : messageEffect) (streamFailed : bool) (matchedUnits : nat)
    : Disposition :=
  if streamFailed then DispositionError
  else match effect with
       | effectBlocked => DispositionBlocked
       | effectMutated => DispositionMutated
       | effectNone => if decide (0 < matchedUnits) then DispositionBypassed
                       else DispositionPassthrough
       end.

End extproc.
