(* ===== verification/ExtProcServer.v ===== *)
(** * The streams of the external processor

    src/extensions/epe/pkg/extproc/server.go, request.go, body.go, responsebody.go and
    authorization.go: the state of a stream, the handler of each message, and the loop of
    [Process] with its finalization. A turn of the loop is given by what the environment
    does in it: what was received, which sends fail, and the error of the context. *)

From S2P Require Import Prelude Netip Filter Attributes Fold Engine ExtProc.

Section server.
Context `{CF : CaseFolding} `{AT : AddressText} `{RT : RequestText}.
Context `{D : Deployment} `{FL : !Filters}.

(** ** The server *)

(** engine/resolve.go *)
Record Resolution := { re_Units : list Unit; re_StreamLogger : option Logger }.

Definition Resolver : Type := Subject → HTTPRequest → World → World * (Resolution * option string).

Definition ContextResolver : Type := RequestContext → World → World * result RequestContext.

(** An authorizer may record its decision; it answers with a target, a reply or an error. *)
Definition RequestAuthorizer : Type :=
  Stream → StreamInfo → World →
  World * StreamInfo * (option UpstreamTarget * option Reply * option string).

(** [sv_ctxErr] is the error of the request's context, [sv_marshal] the JSON document of
    a code, a message and a request identifier. *)
Record Server := {
  sv_resolve : Resolver;
  sv_resolveContext : option ContextResolver;
  sv_authorizeRequest : option RequestAuthorizer;
  sv_eng : Engine;
  sv_loggers : list Logger;
  sv_failClosedOnMissingIdentity : bool;
  sv_ctxErr : World → option string;
  sv_marshal : string → string → string → string
}.

(** ** The state of a stream *)

Inductive streamLifecycle :=
| lifecycleIdle | lifecycleActive | lifecycleFinalizePending | lifecycleFinalized.

#[export] Instance streamLifecycle_eq_dec : EqDecision streamLifecycle.
Proof. solve_decision. Defined.

(** [ss_info] is the stream's [Info]. *)
Record streamState := {
  ss_stream : Stream;
  ss_info : StreamInfo;
  ss_requestBodyContinuation : option RequestHeadersResult;
  ss_upstreamMutation : bool;
  ss_responseScope : ResponseScope;
  ss_awaitResponseHeaders : bool;
  ss_responseBodyContinuation : option ResponseHeadersResult;
  ss_lifecycle : streamLifecycle;
  ss_effect : messageEffect
}.

Definition emptySubject : Subject :=
  {| sj_Workload := {| wl_UID := ""; wl_Namespace := ""; wl_Name := ""; wl_IP := "";
                       wl_Labels := ∅; wl_SecurityProfileReferences := None |};
     sj_Sandbox := None |}.

Definition emptyRequest : HTTPRequest :=
  {| rq_Host := ""; rq_Port := 0; rq_OriginalDestination := noAddrPort; rq_Path := "";
     rq_Query := ∅; rq_RawQuery := ""; rq_Method := ""; rq_Scheme := ""; rq_Headers := ∅ |}.

Definition newStreamState : streamState :=
  {| ss_stream :=
       {| st_Context := {| rc_Caller := emptySubject; rc_Request := emptyRequest;
                           rc_RequestID := "";
                           rc_Policies := {| ps_DestinationAuthorizer := None;
                                             ps_FilterRules := []; ps_StreamLogger := None |} |};
          st_Upstream := None; st_Response := {| rs_Status := 0; rs_Headers := ∅ |} |};
     ss_info := NewStreamInfo;
     ss_requestBodyContinuation := None; ss_upstreamMutation := false;
     ss_responseScope := unboundedScope; ss_awaitResponseHeaders := false;
     ss_responseBodyContinuation := None; ss_lifecycle := lifecycleIdle;
     ss_effect := effectNone |}.

(** Assignments to fields. *)
Definition set_stream (st : Stream) (s : streamState) : streamState :=
  {| ss_stream := st; ss_info := ss_info s;
     ss_requestBodyContinuation := ss_requestBodyContinuation s;
     ss_upstreamMutation := ss_upstreamMutation s; ss_responseScope := ss_responseScope s;
     ss_awaitResponseHeaders := ss_awaitResponseHeaders s;
     ss_responseBodyContinuation := ss_responseBodyContinuation s;
     ss_lifecycle := ss_lifecycle s; ss_effect := ss_effect s |}.

Definition set_info (i : StreamInfo) (s : streamState) : streamState :=
  {| ss_stream := ss_stream s; ss_info := i;
     ss_requestBodyContinuation := ss_requestBodyContinuation s;
     ss_upstreamMutation := ss_upstreamMutation s; ss_responseScope := ss_responseScope s;
     ss_awaitResponseHeaders := ss_awaitResponseHeaders s;
     ss_responseBodyContinuation := ss_responseBodyContinuation s;
     ss_lifecycle := ss_lifecycle s; ss_effect := ss_effect s |}.

Definition set_lifecycle (l : streamLifecycle) (s : streamState) : streamState :=
  {| ss_stream := ss_stream s; ss_info := ss_info s;
     ss_requestBodyContinuation := ss_requestBodyContinuation s;
     ss_upstreamMutation := ss_upstreamMutation s; ss_responseScope := ss_responseScope s;
     ss_awaitResponseHeaders := ss_awaitResponseHeaders s;
     ss_responseBodyContinuation := ss_responseBodyContinuation s;
     ss_lifecycle := l; ss_effect := ss_effect s |}.

Definition set_obligations (request : option RequestHeadersResult)
    (response : option ResponseHeadersResult) (await : bool) (s : streamState) : streamState :=
  {| ss_stream := ss_stream s; ss_info := ss_info s;
     ss_requestBodyContinuation := request;
     ss_upstreamMutation := ss_upstreamMutation s; ss_responseScope := ss_responseScope s;
     ss_awaitResponseHeaders := await; ss_responseBodyContinuation := response;
     ss_lifecycle := ss_lifecycle s; ss_effect := ss_effect s |}.

Definition set_scope (scope : ResponseScope) (s : streamState) : streamState :=
  {| ss_stream := ss_stream s; ss_info := ss_info s;
     ss_requestBodyContinuation := ss_requestBodyContinuation s;
     ss_upstreamMutation := ss_upstreamMutation s; ss_responseScope := scope;
     ss_awaitResponseHeaders := ss_awaitResponseHeaders s;
     ss_responseBodyContinuation := ss_responseBodyContinuation s;
     ss_lifecycle := ss_lifecycle s; ss_effect := ss_effect s |}.

Definition set_upstreamMutation (b : bool) (s : streamState) : streamState :=
  {| ss_stream := ss_stream s; ss_info := ss_info s;
     ss_requestBodyContinuation := ss_requestBodyContinuation s;
     ss_upstreamMutation := b; ss_responseScope := ss_responseScope s;
     ss_awaitResponseHeaders := ss_awaitResponseHeaders s;
     ss_responseBodyContinuation := ss_responseBodyContinuation s;
     ss_lifecycle := ss_lifecycle s; ss_effect := ss_effect s |}.

Definition set_effect (e : messageEffect) (s : streamState) : streamState :=
  {| ss_stream := ss_stream s; ss_info := ss_info s;
     ss_requestBodyContinuation := ss_requestBodyContinuation s;
     ss_upstreamMutation := ss_upstreamMutation s; ss_responseScope := ss_responseScope s;
     ss_awaitResponseHeaders := ss_awaitResponseHeaders s;
     ss_responseBodyContinuation := ss_responseBodyContinuation s;
     ss_lifecycle := ss_lifecycle s; ss_effect := e |}.

Definition set_context (c : RequestContext) (s : streamState) : streamState :=
  set_stream {| st_Context := c; st_Upstream := st_Upstream (ss_stream s);
                st_Response := st_Response (ss_stream s) |} s.

Definition with_policies (p : PolicySnapshot) (c : RequestContext) : RequestContext :=
  {| rc_Caller := rc_Caller c; rc_Request := rc_Request c; rc_RequestID := rc_RequestID c;
     rc_Policies := p |}.

Definition markRequestSeen (s : streamState) : streamState :=
  match ss_lifecycle s with lifecycleIdle => set_lifecycle lifecycleActive s | _ => s end.

Definition awaitingRequestBody (s : streamState) : bool :=
  match ss_requestBodyContinuation s with Some _ => true | None => false end.

Definition awaitingResponseBody (s : streamState) : bool :=
  match ss_responseBodyContinuation s with Some _ => true | None => false end.

Definition awaitingInput (s : streamState) : bool :=
  awaitingRequestBody s || awaitingResponseBody s || ss_awaitResponseHeaders s.

Definition armFinalization (d : Disposition) (s : streamState) : streamState :=
  match d with
  | DispositionBlocked =>
      set_lifecycle lifecycleFinalizePending (set_obligations None None false s)
  | DispositionBypassed =>
      if negb (ss_awaitResponseHeaders s) && negb (awaitingRequestBody s)
      then set_lifecycle lifecycleFinalizePending s else s
  | _ => s
  end.

(** ** Authorization: authorization.go *)

Definition authorizationReply (s : Server) (status : Z) (code message requestID : string)
    : Reply :=
  {| rep_Status := status;
     rep_HeaderOps := [{| op_Kind := HeaderSet; op_Name := "content-type";
                          op_Value := "application/json" |}];
     rep_Body := sv_marshal s code message requestID;
     rep_Details := code |}.

(** The request and the target that are authorized. *)
Definition effectiveStream (stream : Stream) (ops : list HeaderOp)
    (route : option RouteMutation) : Stream :=
  let c := st_Context stream in
  {| st_Context := {| rc_Caller := rc_Caller c;
                      rc_Request := RequestAfterMutations (rc_Request c) ops;
                      rc_RequestID := rc_RequestID c; rc_Policies := rc_Policies c |};
     st_Upstream := match routeUpstream route with
                    | Some up => Some up
                    | None => st_Upstream stream
                    end;
     st_Response := st_Response stream |}.

Definition authorize (s : Server) (stream : Stream) (info : StreamInfo) (ops : list HeaderOp)
    (route : option RouteMutation) (w : World)
    : World * StreamInfo * (option RouteMutation * option Reply) :=
  match sv_authorizeRequest s with
  | None => (w, info, (route, None))
  | Some authorizeRequest =>
      let '(w, info, (target, reply, err)) :=
        authorizeRequest (effectiveStream stream ops route) info w in
      match first_error err (sv_ctxErr s w) with
      | Some e =>
          let info := set_Error e info in
          let info :=
            match si_Authorization info with
            | Some d => if decide (ad_Action d = "error") then info
                        else RecordAuthorization
                               {| ad_Action := "error"; ad_Reason := AuthorizationReasonFailed;
                                  ad_Destination := ""; ad_Policy := ""; ad_RuleIndex := None |}
                               info
            | None => RecordAuthorization
                        {| ad_Action := "error"; ad_Reason := AuthorizationReasonFailed;
                           ad_Destination := ""; ad_Policy := ""; ad_RuleIndex := None |} info
            end in
          (w, info,
           (None, Some (authorizationReply s 500 "epe_request_authorization_failed"
                          "Unable to authorize outbound destination."
                          (rc_RequestID (st_Context stream)))))
      | None =>
          match reply with
          | Some rep =>
              if decide (rep_Details rep = "epe_egress_denied") then
                (w, info,
                 (None, Some (authorizationReply s (rep_Status rep) (rep_Details rep)
                                "Outbound destination is denied by policy."
                                (rc_RequestID (st_Context stream)))))
              else (w, info, (None, Some rep))
          | None =>
              match target with
              | None => (w, info, (route, None))
              | Some up =>
                  (w, info,
                   (Some {| rt_Upstream := Some up;
                            rt_ClearCache := routeClears route |}, None))
              end
          end
      end
  end.

(** ** Request headers: request.go *)

Definition extractRequestID (headers : option HttpHeaders) : string :=
  match headers ≫= hh_Headers with
  | None => ""
  | Some hs =>
      match List.find (λ h, EqualFold (hd_Key h) "x-request-id") hs with
      | Some h => headerText h
      | None => ""
      end
  end.

(** The engine's run on the observations of the stream, and back. *)
Definition runOf (s : streamState) (w : World) : Run :=
  {| run_world := w; run_info := Some (ss_info s) |}.

Definition infoOf (s : streamState) (r : Run) : streamState :=
  match run_info r with Some i => set_info i s | None => s end.

(** The result of a handler: its responses, its error, the state and the world. *)
Definition Handled : Type := list ProcessingResponse * option string * streamState * World.

(** The authorization of the current target: the result and what was recorded. *)
Definition authorizeResult (s : Server) (state : streamState) (res : RequestHeadersResult)
    (w : World) : RequestHeadersResult * streamState * World :=
  if bool_decide (sv_authorizeRequest s ≠ None)
     && bool_decide (rh_Disposition res ≠ DispositionBlocked)
  then
    let '(w, info, (route, reply)) :=
      authorize s (ss_stream state) (ss_info state) (rh_HeaderOps res) (rh_Route res) w in
    (match reply with
     | Some rep => with_Block rep res
     | None => with_Route route res
     end, set_info info state, w)
  else (res, state, w).

(** The obligations of a result that is not blocked, with the override of the modes. *)
Definition armObligations (res : RequestHeadersResult) (subscriptions : Phase)
    (resp : ProcessingResponse) (state : streamState) : ProcessingResponse * streamState :=
  let wantResponse := meets subscriptions PhaseResponseHeaders in
  let wantBody := NeedsBody res in
  let resp :=
    if wantBody || wantResponse then
      with_ModeOverride
        {| pm_RequestBodyMode := if wantBody then BODY_BUFFERED else BODY_NONE;
           pm_ResponseHeaderMode := if wantResponse then HEADER_SEND else HEADER_DEFAULT;
           pm_ResponseBodyMode := BODY_NONE |} resp
    else resp in
  (resp,
   set_obligations (if wantBody then Some res else ss_requestBodyContinuation state)
     (ss_responseBodyContinuation state)
     (if wantResponse then true else ss_awaitResponseHeaders state) state).

Definition requestHeadersResponse (s : Server) (state : streamState)
    (res : RequestHeadersResult) (subscriptions : Phase) (bodyAvailable : bool) (w : World)
    : Handled :=
  let state := set_upstreamMutation (bool_decide (routeUpstream (rh_Route res) ≠ None)) state in
  let '(res, state, w) := authorizeResult s state res w in
  let '(res, err, state, w) :=
    if bodyAvailable && NeedsBody res then
      let '(bodyResult, err, r) :=
        EvalRequestBody (sv_eng s) (ss_stream state) (Some res)
          {| bd_Bytes := ""; bd_Complete := true |} (runOf state w) in
      (HeadersResult bodyResult, err, infoOf state r, run_world r)
    else (res, None, state, w) in
  match err with
  | Some e => ([], Some e, state, w)
  | None =>
      let state := set_scope (rh_ResponseScope res) state in
      let resp := translateRequestHeadersResult res in
      let '(resp, state) :=
        if decide (rh_Disposition res = DispositionBlocked) then (resp, state)
        else armObligations res subscriptions resp state in
      ([resp], None, armFinalization (rh_Disposition res) state, w)
  end.

(** The evaluation of the resolved units. *)
Definition evaluateRequest (s : Server) (state : streamState) (units : list Unit)
    (isConnect endOfStream : bool) (w : World) : Handled :=
  let policies := rc_Policies (st_Context (ss_stream state)) in
  let state := set_context (with_policies
                 {| ps_DestinationAuthorizer := ps_DestinationAuthorizer policies;
                    ps_FilterRules := units; ps_StreamLogger := ps_StreamLogger policies |}
                 (st_Context (ss_stream state))) state in
  match ValidateSubscriptions (sv_eng s) units with
  | Err e => ([], Some e, state, w)
  | Ok subscriptions =>
      let '(res, err, r) :=
        EvalRequestHeaders (sv_eng s) (ss_stream state) units None (runOf state w) in
      let state := infoOf state r in
      match err with
      | Some e => ([], Some e, state, run_world r)
      | None =>
          let res := if isConnect && NeedsBody res
                     then with_Block connectRequestBodyUnsupportedReply res else res in
          let state := set_scope (rh_ResponseScope res) state in
          requestHeadersResponse s state res subscriptions
            (endOfStream && negb isConnect) (run_world r)
      end
  end.

(** The resolution of the policies: their units, an error, and the state. *)
Definition resolvePolicies (s : Server) (state : streamState) (req : HTTPRequest) (w : World)
    : option string * Resolution * streamState * World :=
  let nothing := {| re_Units := []; re_StreamLogger := None |} in
  let caller := rc_Caller (st_Context (ss_stream state)) in
  let '(contextErr, state, w) :=
    match sv_resolveContext s with
    | Some resolveContext =>
        if Workload_HasIdentity (sj_Workload caller) then
          match resolveContext (st_Context (ss_stream state)) w with
          | (w, Err e) => (Some e, state, w)
          | (w, Ok c) => (None, set_context c state, w)
          end
        else (None, state, w)
    | None => (None, state, w)
    end in
  match contextErr with
  | Some e => (Some e, nothing, state, w)
  | None =>
      let caller := rc_Caller (st_Context (ss_stream state)) in
      if Subject_HasIdentity caller then
        let '(w, (res, err)) := sv_resolve s caller req w in
        let state :=
          match re_StreamLogger res with
          | Some l =>
              let c := st_Context (ss_stream state) in
              set_context (with_policies
                {| ps_DestinationAuthorizer := ps_DestinationAuthorizer (rc_Policies c);
                   ps_FilterRules := ps_FilterRules (rc_Policies c);
                   ps_StreamLogger := Some l |} c) state
          | None => state
          end in
        (err, res, state, w)
      else (None, nothing, state, w)
  end.

Definition HandleRequestHeaders (s : Server) (headers : option HttpHeaders) (attrs : Attrs)
    (state : streamState) (w : World) : Handled :=
  let '(caller, req) := Extract headers attrs in
  let context := st_Context (ss_stream state) in
  let state := markRequestSeen
    (set_context {| rc_Caller := caller; rc_Request := req;
                    rc_RequestID := extractRequestID headers;
                    rc_Policies := rc_Policies context |} state) in
  match ExtractUpstream attrs with
  | Err _ => ([invalidRouteUpstreamDeny], None, state, w)
  | Ok target =>
      let state := set_stream (set_Upstream target (ss_stream state)) state in
      let isConnect := EqualFold (rq_Method req) "CONNECT" in
      if negb (Subject_HasIdentity caller) && sv_failClosedOnMissingIdentity s
      then ([missingIdentityDeny], None, state, w) else
      let '(err, res, state, w) := resolvePolicies s state req w in
      match err with
      | Some e => ([policyUnavailableDeny], Some e, state, w)
      | None =>
          match re_Units res, sv_authorizeRequest s with
          | [], None => ([defaultPassThrough], None, state, w)
          | units, _ =>
              evaluateRequest s state units isConnect
                (match headers with Some h => hh_EndOfStream h | None => false end) w
          end
      end
  end.

(** ** The other messages *)

(** The continuation that a request body is owed to. *)
Definition outstandingRequest (state : streamState) : option RequestHeadersResult :=
  if decide (ss_lifecycle state = lifecycleIdle) then None
  else match ss_requestBodyContinuation state with
       | Some prior => if NeedsBody prior then Some prior else None
       | None => None
       end.

Definition HandleRequestBody (s : Server) (body : option HttpBody) (state : streamState)
    (w : World) : Handled :=
  match outstandingRequest state, body with
  | None, _ =>
      ([], Some "received request body without an outstanding request-body obligation", state, w)
  | Some _, None => ([], Some "request body is missing", state, w)
  | Some prior, Some body =>
      let state := set_obligations None (ss_responseBodyContinuation state)
                     (ss_awaitResponseHeaders state) state in
      let '(res, err, r) :=
        EvalRequestBody (sv_eng s) (ss_stream state) (Some prior)
          {| bd_Bytes := hb_Body body; bd_Complete := true |} (runOf state w) in
      let state := infoOf state r in
      match err with
      | Some e => ([], Some e, state, run_world r)
      | None =>
          let state := armFinalization (rb_Disposition res)
                         (set_scope (rb_ResponseScope res) state) in
          ([translateRequestBodyResult res], None, state, run_world r)
      end
  end.

Definition with_ResponseBlock (reply : Reply) (res : ResponseHeadersResult)
    : ResponseHeadersResult :=
  {| ph_Disposition := DispositionBlocked; ph_Reply := reply;
     ph_HeaderOps := ph_HeaderOps res; ph_Body := ph_Body res;
     ph_StatusCode := ph_StatusCode res; ph_needsBody := ph_needsBody res;
     ph_continuation := ph_continuation res |}.

(** The recorded response: the last value of each header, and the last status that reads
    as a number. *)
Definition responseOf (hs : list HeaderValue) : HTTPResponse :=
  foldl (λ resp h,
           let key := ToLower (hd_Key h) in
           let value := headerText h in
           {| rs_Status := if decide (key = ":status") then default (rs_Status resp) (Atoi value)
                           else rs_Status resp;
              rs_Headers := <[key := value]> (rs_Headers resp) |})
    {| rs_Status := 0; rs_Headers := ∅ |} hs.

(** The evaluation of response headers on a stream that is not finalized. *)
Definition evaluateResponse (s : Server) (hs : list HeaderValue) (endOfStream : bool)
    (state : streamState) (w : World) : Handled :=
  let stream := ss_stream state in
  let state := set_stream {| st_Context := st_Context stream;
                             st_Upstream := st_Upstream stream;
                             st_Response := responseOf hs |} state in
  let isConnect := EqualFold (rq_Method (rc_Request (st_Context stream))) "CONNECT" in
  let body := if endOfStream && negb isConnect
              then Some {| bd_Bytes := ""; bd_Complete := true |} else None in
  let '(res, err, r) :=
    EvalResponseHeaders (sv_eng s) (ss_stream state)
      (ps_FilterRules (rc_Policies (st_Context stream))) (ss_responseScope state) body
      (runOf state w) in
  let state := infoOf state r in
  match err with
  | Some e => ([], Some e, state, run_world r)
  | None =>
      let res := if isConnect && ph_needsBody res
                 then with_ResponseBlock connectResponseBodyUnsupportedReply res else res in
      let resp := translateResponseHeadersResult res in
      if bool_decide (ph_Disposition res ≠ DispositionBlocked) && ph_needsBody res then
        ([with_ModeOverride {| pm_RequestBodyMode := BODY_NONE;
                               pm_ResponseHeaderMode := HEADER_SEND;
                               pm_ResponseBodyMode := BODY_BUFFERED |} resp], None,
         set_obligations (ss_requestBodyContinuation state) (Some res) false state,
         run_world r)
      else
        ([resp], None,
         set_lifecycle lifecycleFinalizePending
           (set_obligations (ss_requestBodyContinuation state)
              (ss_responseBodyContinuation state) false state),
         run_world r)
  end.

Definition HandleResponseHeaders (s : Server) (headers : option HttpHeaders)
    (state : streamState) (w : World) : Handled :=
  if decide (ss_lifecycle state = lifecycleIdle) then
    ([], Some "received response headers before request headers", state, w)
  else match headers with
  | Some {| hh_Headers := Some hs; hh_EndOfStream := endOfStream |} =>
      if decide (ss_lifecycle state = lifecycleFinalized) then
        ([emptyResponseHeadersAck], None,
         set_obligations (ss_requestBodyContinuation state)
           (ss_responseBodyContinuation state) false state, w)
      else evaluateResponse s hs endOfStream state w
  | _ => ([], Some "response headers are missing", state, w)
  end.

(** The continuation that a response body is owed to. *)
Definition outstandingResponse (state : streamState) : option ResponseHeadersResult :=
  if decide (ss_lifecycle state = lifecycleIdle) then None
  else ss_responseBodyContinuation state.

Definition HandleResponseBody (s : Server) (body : option HttpBody) (state : streamState)
    (w : World) : Handled :=
  match outstandingResponse state, body with
  | None, _ =>
      ([], Some "received response body without an outstanding response-body obligation",
       state, w)
  | Some _, None => ([], Some "response body is missing", state, w)
  | Some prior, Some body =>
      let state := set_obligations (ss_requestBodyContinuation state) None
                     (ss_awaitResponseHeaders state) state in
      let '(res, err, r) :=
        EvalResponseBody (sv_eng s) (ss_stream state) (Some prior)
          {| bd_Bytes := hb_Body body; bd_Complete := true |} (runOf state w) in
      let state := infoOf state r in
      match err with
      | Some e => ([], Some e, state, run_world r)
      | None => ([translateResponseBodyResult res], None,
                 set_lifecycle lifecycleFinalizePending state, run_world r)
      end
  end.

(** ** The loop: [Process] *)

(** The messages of a stream; decoding allocates the message of an arm. *)
Inductive ProcessingRequest :=
| ReqRequestHeaders (h : HttpHeaders) (attrs : Attrs)
| ReqRequestBody (b : HttpBody)
| ReqRequestTrailers
| ReqResponseHeaders (h : HttpHeaders)
| ReqResponseBody (b : HttpBody)
| ReqResponseTrailers
| ReqUnknown.

Inductive Recv :=
| RecvMessage (m : ProcessingRequest)
| RecvEOF
| RecvCanceled
| RecvError (e : string).

(** One turn of the loop: the error of the context if it is done, what [Recv] gives, the
    error of the sends by their number, and the error of the context when the call ends. *)
Record Turn := {
  tn_done : option string;
  tn_recv : Recv;
  tn_send : nat → option string;
  tn_ctxErr : option string
}.

(** The state of the call: also the responses the proxy accepted, and what the loggers
    were given. *)
Record Call := {
  ca_state : streamState;
  ca_world : World;
  ca_sent : list ProcessingResponse;
  ca_logged : list (Logger * Stream * StreamInfo)
}.

Definition with_state (st : streamState) (c : Call) : Call :=
  {| ca_state := st; ca_world := ca_world c; ca_sent := ca_sent c; ca_logged := ca_logged c |}.

Definition streamLoggers (s : Server) (st : Stream) : list Logger :=
  sv_loggers s ++ option_list (ps_StreamLogger (rc_Policies (st_Context st))).

Definition finishStream (s : Server) (err : option string) (c : Call) : Call :=
  let state := ca_state c in
  match ss_lifecycle state with
  | lifecycleIdle | lifecycleFinalized => c
  | _ =>
      let info := ss_info state in
      let info := match err with
                  | Some e => if decide (si_Error info = "") then set_Error e info else info
                  | None => info
                  end in
      let info := set_Outcome (deriveOutcome (ss_effect state) (bool_decide (err ≠ None))
                                 (length (si_Matched info))) info in
      let state := set_info info (set_lifecycle lifecycleFinalized state) in
      {| ca_state := state; ca_world := ca_world c; ca_sent := ca_sent c;
         ca_logged := ca_logged c
           ++ ((λ l, (l, ss_stream state, info)) <$> streamLoggers s (ss_stream state)) |}
  end.

Definition finishAfterSend (s : Server) (c : Call) : Call :=
  match ss_lifecycle (ca_state c) with
  | lifecycleFinalizePending => finishStream s None c
  | _ => c
  end.

(** Sends of responses in order until one fails; with [observed] their effect counts. *)
Fixpoint sendAll (observed : bool) (send : nat → option string) (n : nat)
    (responses : list ProcessingResponse) (c : Call) : Call * option string :=
  match responses with
  | [] => (c, None)
  | resp :: responses =>
      match send n with
      | Some e => (c, Some e)
      | None =>
          let state := ca_state c in
          let state := if observed
                       then set_effect (observe (ss_effect state)
                              (classifyResponse resp (ss_upstreamMutation state))) state
                       else state in
          sendAll observed send (S n) responses
            {| ca_state := state; ca_world := ca_world c; ca_sent := ca_sent c ++ [resp];
               ca_logged := ca_logged c |}
      end
  end.

(** The handler of a message; [None] is an unknown one. *)
Definition handle (s : Server) (m : ProcessingRequest) (state : streamState) (w : World)
    : option Handled :=
  match m with
  | ReqRequestHeaders h attrs => Some (HandleRequestHeaders s (Some h) attrs state w)
  | ReqRequestBody b => Some (HandleRequestBody s (Some b) state w)
  | ReqRequestTrailers => Some ([emptyRequestTrailersAck], None, state, w)
  | ReqResponseHeaders h => Some (HandleResponseHeaders s (Some h) state w)
  | ReqResponseBody b => Some (HandleResponseBody s (Some b) state w)
  | ReqResponseTrailers => Some ([emptyResponseTrailersAck], None, state, w)
  | ReqUnknown => None
  end.

(** One turn: [inl] goes on, [inr] returns with an error or without. *)
Definition turn (s : Server) (t : Turn) (c : Call) : Call * option (option string) :=
  match tn_done t with
  | Some e => (c, Some (Some e))
  | None =>
      match tn_recv t with
      | RecvEOF =>
          if awaitingInput (ca_state c)
          then (c, Some (Some "ext-proc stream ended with an outstanding processing obligation"))
          else (finishStream s None c, Some None)
      | RecvCanceled =>
          (finishStream s (if awaitingInput (ca_state c) then Some "context canceled" else None) c,
           Some None)
      | RecvError e => (c, Some (Some e))
      | RecvMessage m =>
          match handle s m (ca_state c) (ca_world c) with
          | None => (c, Some (Some "unknown request type"))
          | Some (responses, err, state, w) =>
              let c := {| ca_state := state; ca_world := w; ca_sent := ca_sent c;
                          ca_logged := ca_logged c |} in
              match err with
              | Some e => ((sendAll false (tn_send t) 0 responses c).1, Some (Some e))
              | None =>
                  match sendAll true (tn_send t) 0 responses c with
                  | (c, Some e) => (c, Some (Some e))
                  | (c, None) => (finishAfterSend s c, None)
                  end
              end
          end
      end
  end.

(** The call over the turns of its loop, with the deferred finalization; the error is
    [None] while the call still runs. *)
Fixpoint Process_from (s : Server) (turns : list Turn) (c : Call)
    : Call * option (option string) :=
  match turns with
  | [] => (c, None)
  | t :: turns =>
      match turn s t c with
      | (c, None) => Process_from s turns c
      | (c, Some retErr) => (finishStream s (first_error retErr (tn_ctxErr t)) c, Some retErr)
      end
  end.

Definition Process (s : Server) (turns : list Turn) (w : World) : Call * option (option string) :=
  Process_from s turns
    {| ca_state := newStreamState; ca_world := w; ca_sent := []; ca_logged := [] |}.

End server.
