(* ===== verification/ExtProcInvariant.v ===== *)
(** * What the handlers of the external processor keep

    The control part of a stream's state (its obligations, its lifecycle and the effect of
    what was sent) after each handler, and the invariant of a stream whose messages come in
    the order of the protocol. *)

From S2P Require Import Prelude Netip Filter Attributes Fold Engine ExtProc ExtProcServer.

Section invariant.
Context `{CF : CaseFolding} `{AT : AddressText} `{RT : RequestText}.
Context `{D : Deployment} `{FL : !Filters}.

(** ** The control state *)

Record control := {
  ct_request : option RequestHeadersResult;
  ct_await : bool;
  ct_response : option ResponseHeadersResult;
  ct_lifecycle : streamLifecycle;
  ct_effect : messageEffect
}.

Definition controlOf (s : streamState) : control :=
  {| ct_request := ss_requestBodyContinuation s; ct_await := ss_awaitResponseHeaders s;
     ct_response := ss_responseBodyContinuation s; ct_lifecycle := ss_lifecycle s;
     ct_effect := ss_effect s |}.

Lemma controlOf_infoOf s r : controlOf (infoOf s r) = controlOf s.
Proof. unfold infoOf. by destruct (run_info r). Qed.

(** The observation of a request moves an idle stream to active. *)
Definition seen (c : control) : control :=
  {| ct_request := ct_request c; ct_await := ct_await c; ct_response := ct_response c;
     ct_lifecycle := match ct_lifecycle c with lifecycleIdle => lifecycleActive | l => l end;
     ct_effect := ct_effect c |}.

Lemma controlOf_seen s : controlOf (markRequestSeen s) = seen (controlOf s).
Proof. unfold markRequestSeen, controlOf, seen. destruct (ss_lifecycle s) eqn:Hl; simpl; by rewrite ?Hl. Qed.

Lemma authorizeResult_control s state res w :
  controlOf (authorizeResult s state res w).1.2 = controlOf state.
Proof.
  unfold authorizeResult. destruct (_ && _); [|done].
  by destruct (authorize _ _ _ _ _ _) as [[w' info] [route reply]].
Qed.

Lemma resolvePolicies_control s state req w :
  let '(err, res, state', w') := resolvePolicies s state req w in
  controlOf state' = controlOf state.
Proof.
  unfold resolvePolicies.
  set (x := match sv_resolveContext s with Some _ => _ | None => _ end).
  assert (controlOf x.1.2 = controlOf state) as Hx.
  { unfold x. destruct (sv_resolveContext s) as [rc|]; [|done].
    destruct (Workload_HasIdentity _); [|done].
    by destruct (rc (st_Context (ss_stream state)) w) as [w' [c|e]]. }
  destruct x as [[contextErr state1] w1]. simpl in Hx. destruct contextErr; [done|].
  destruct (Subject_HasIdentity _); [|done].
  destruct (sv_resolve s _ _ _) as [w2 [res err]]. by destruct (re_StreamLogger res).
Qed.

(** What the end of the request-headers handler does to the control state: the result is
    rendered with its obligations, or an error leaves it alone. *)
Definition armed (res : RequestHeadersResult) (subscriptions : Phase) (c c' : control) : Prop :=
  ct_effect c' = ct_effect c
  ∧ match rh_Disposition res with
    | DispositionBlocked =>
        ct_request c' = None ∧ ct_response c' = None ∧ ct_await c' = false
        ∧ ct_lifecycle c' = lifecycleFinalizePending
    | d =>
        ct_request c' = (if NeedsBody res then Some res else ct_request c)
        ∧ ct_response c' = ct_response c
        ∧ ct_await c' = (if meets subscriptions PhaseResponseHeaders then true else ct_await c)
        ∧ ct_lifecycle c'
          = (if bool_decide (d = DispositionBypassed) && negb (ct_await c')
                && bool_decide (ct_request c' = None)
             then lifecycleFinalizePending else ct_lifecycle c)
    end.

Lemma requestHeadersResponse_control s state res subscriptions bodyAvailable w :
  match requestHeadersResponse s state res subscriptions bodyAvailable w with
  | (resps, Some e, state', w') => resps = [] ∧ controlOf state' = controlOf state
  | (resps, None, state', w') =>
      ∃ res', armed res' subscriptions (controlOf state) (controlOf state')
        ∧ ∃ resp, resps = [resp]
        ∧ (rh_Disposition res' = DispositionBlocked → isImmediate resp = true)
  end.
Proof.
  unfold requestHeadersResponse.
  set (state0 := set_upstreamMutation _ state).
  pose proof (authorizeResult_control s state0 res w) as Hc.
  destruct (authorizeResult s state0 res w) as [[res1 state1] w1]. simpl in Hc.
  change (controlOf state0) with (controlOf state) in Hc.
  set (x := if bodyAvailable && NeedsBody res1 then _ else _).
  assert (controlOf x.1.2 = controlOf state) as Hx.
  { unfold x. destruct (_ && _); [|done].
    destruct (EvalRequestBody _ _ _ _ _) as [[br err] r]. simpl. by rewrite controlOf_infoOf. }
  destruct x as [[[res2 err] state2] w2]. simpl in Hx. destruct err as [e|]; [done|].
  rewrite <-Hx.
  destruct (decide (rh_Disposition res2 = DispositionBlocked)) as [Hb|Hb].
  - exists res2. unfold armed. rewrite Hb. simpl. split; [done|]. eexists. split; [done|]. intros _.
    unfold translateRequestHeadersResult. rewrite decide_True by done. done.
  - destruct (armObligations res2 subscriptions (translateRequestHeadersResult res2)
                (set_scope (rh_ResponseScope res2) state2)) as [resp state3] eqn:Ha.
    unfold armObligations in Ha. injection Ha as <- <-.
    exists res2. unfold armed. split; [split|].
    + destruct (rh_Disposition res2); simpl; try done. by destruct (_ && _).
    + destruct (rh_Disposition res2) eqn:Hd; try done; simpl; rewrite ?andb_false_r;
        try done.
      unfold awaitingRequestBody. simpl.
      generalize (if meets subscriptions PhaseResponseHeaders then true
                  else ss_awaitResponseHeaders state2).
      generalize (if NeedsBody res2 then Some res2 else ss_requestBodyContinuation state2).
      by intros [prior|] [].
    + eexists. split; [done|]. by intros ?.
Qed.

(** What [HandleRequestHeaders] does to the control state of a stream. *)
Definition headers_control (c : control) (err : option string) (c' : control) : Prop :=
  match err with
  | Some _ => c' = seen c
  | None => c' = seen c ∨ ∃ res subscriptions, armed res subscriptions (seen c) c'
  end.

Lemma HandleRequestHeaders_control s headers attrs state w :
  let '(resps, err, state', w') := HandleRequestHeaders s headers attrs state w in
  headers_control (controlOf state) err (controlOf state').
Proof.
  unfold HandleRequestHeaders. destruct (Extract headers attrs) as [caller req].
  set (state0 := markRequestSeen _).
  assert (controlOf state0 = seen (controlOf state)) as H0 by exact (controlOf_seen _).
  clearbody state0. destruct (ExtractUpstream attrs) as [target|e]; [|by left].
  set (state1 := set_stream _ state0).
  assert (controlOf state1 = seen (controlOf state)) as H1 by done. clearbody state1.
  destruct (negb _ && _); [by left|].
  pose proof (resolvePolicies_control s state1 req w) as H2.
  destruct (resolvePolicies s state1 req w) as [[[err res] state2] w2].
  rewrite H1 in H2. destruct err as [e|]; [done|].
  assert (∀ units isConnect eos,
    let '(resps, err, state', w') := evaluateRequest s state2 units isConnect eos w2 in
    headers_control (controlOf state) err (controlOf state')) as Heval.
  { intros units isConnect eos. unfold evaluateRequest.
    destruct (ValidateSubscriptions (sv_eng s) units) as [subs|]; [|exact H2].
    set (state3 := set_context _ state2).
    destruct (EvalRequestHeaders _ _ _ _ _) as [[res3 err] r].
    destruct err as [e|]; [simpl; by rewrite controlOf_infoOf|].
    set (res4 := if isConnect && NeedsBody res3 then _ else res3).
    set (state4 := set_scope _ _).
    assert (controlOf state4 = seen (controlOf state)) as H4.
    { unfold state4. change (controlOf (infoOf state3 r) = seen (controlOf state)).
      by rewrite controlOf_infoOf. }
    clearbody state4 res4.
    pose proof (requestHeadersResponse_control s state4 res4 subs (eos && negb isConnect)
                  (run_world r)) as H5.
    destruct (requestHeadersResponse _ _ _ _ _ _) as [[[resps [e|]] state'] w'].
    - simpl. rewrite <-H4. by apply H5.
    - destruct H5 as (res' & Harm & _). right. exists res', subs. by rewrite <-H4. }
  destruct (re_Units res) as [|u us]; [destruct (sv_authorizeRequest s)|].
  - apply Heval.
  - by left.
  - apply Heval.
Qed.

(** ** The other handlers *)

(** A request body: refused, or the obligation is consumed; a block also drops the
    obligations of the response. *)
Definition body_control (c : control) (err : option string) (c' : control) : Prop :=
  ct_effect c' = ct_effect c
  ∧ (c' = c ∧ err ≠ None
     ∨ ct_lifecycle c ≠ lifecycleIdle ∧ ct_request c ≠ None ∧ ct_request c' = None
       ∧ (ct_response c' = ct_response c ∨ ct_response c' = None)
       ∧ (ct_lifecycle c' = ct_lifecycle c
          ∨ err = None ∧ ct_lifecycle c' = lifecycleFinalizePending)).

Lemma HandleRequestBody_control s body state w :
  let '(resps, err, state', w') := HandleRequestBody s body state w in
  body_control (controlOf state) err (controlOf state').
Proof.
  unfold HandleRequestBody. destruct (outstandingRequest state) as [prior|] eqn:Ho;
    [|by split; [|left]].
  destruct body as [body|]; [|by split; [|left]].
  assert (ss_lifecycle state ≠ lifecycleIdle ∧ ss_requestBodyContinuation state ≠ None)
    as [Hl Hp].
  { unfold outstandingRequest in Ho. case_decide; [done|].
    by destruct (ss_requestBodyContinuation state). }
  set (state0 := set_obligations None _ _ state).
  destruct (EvalRequestBody _ _ _ _ _) as [[res err] r].
  pose proof (controlOf_infoOf state0 r) as Hc.
  set (state1 := infoOf state0 r) in *. clearbody state1.
  destruct err as [e|].
  { rewrite Hc. split; [done|]. right. simpl. by auto 10. }
  injection Hc as Hc1 Hc2 Hc3 Hc4 Hc5. unfold armFinalization.
  destruct (rb_Disposition res); simpl; try destruct (_ && _); unfold body_control; simpl;
    rewrite ?Hc1, ?Hc2, ?Hc3, ?Hc4, ?Hc5; (split; [done|]); right; auto 10.
Qed.

(** Response headers: refused, acknowledged on a finalized stream, failed, paused for the
    body, or final. *)
Definition response_control (c : control) (err : option string) (c' : control) : Prop :=
  ct_effect c' = ct_effect c ∧ ct_request c' = ct_request c
  ∧ match err with
    | Some _ => ct_response c' = ct_response c ∧ ct_lifecycle c' = ct_lifecycle c
    | None =>
        ct_lifecycle c ≠ lifecycleIdle ∧
        (ct_lifecycle c = lifecycleFinalized ∧ ct_lifecycle c' = lifecycleFinalized
           ∧ ct_response c' = ct_response c
         ∨ ct_lifecycle c ≠ lifecycleFinalized ∧ ct_lifecycle c' = ct_lifecycle c
           ∧ ct_response c' ≠ None
         ∨ ct_lifecycle c ≠ lifecycleFinalized
           ∧ ct_lifecycle c' = lifecycleFinalizePending ∧ ct_response c' = ct_response c)
    end.

Lemma HandleResponseHeaders_control s headers state w :
  let '(resps, err, state', w') := HandleResponseHeaders s headers state w in
  response_control (controlOf state) err (controlOf state').
Proof.
  unfold HandleResponseHeaders. destruct (decide _) as [Hi|Hi]; [done|].
  destruct headers as [[[hs|] eos]|]; [|done..].
  destruct (decide _) as [Hf|Hf].
  { split; [done|]. split; [done|]. split; [done|]. by left. }
  unfold evaluateResponse. set (state0 := set_stream _ state).
  destruct (EvalResponseHeaders _ _ _ _ _ _) as [[res err] r].
  pose proof (controlOf_infoOf state0 r) as Hc.
  set (state1 := infoOf state0 r) in *. clearbody state1.
  injection Hc as Hc1 Hc2 Hc3 Hc4 Hc5.
  destruct err as [e|]; [by repeat split|].
  match goal with |- context [if ?b then with_ResponseBlock ?rep res else res] =>
    generalize (if b then with_ResponseBlock rep res else res) end.
  intros res1.
  destruct (_ && _); (split; [done|]; split; [done|]; split; [done|]); right;
    [left|right]; done.
Qed.

(** A response body: refused, failed, or final. *)
Definition response_body_control (c : control) (err : option string) (c' : control) : Prop :=
  ct_effect c' = ct_effect c ∧ ct_request c' = ct_request c
  ∧ (c' = c ∧ err ≠ None
     ∨ ct_lifecycle c ≠ lifecycleIdle ∧ ct_response c ≠ None ∧ ct_response c' = None
       ∧ ct_lifecycle c' = match err with
                           | Some _ => ct_lifecycle c
                           | None => lifecycleFinalizePending
                           end).

Lemma HandleResponseBody_control s body state w :
  let '(resps, err, state', w') := HandleResponseBody s body state w in
  response_body_control (controlOf state) err (controlOf state').
Proof.
  unfold HandleResponseBody. destruct (outstandingResponse state) as [prior|] eqn:Ho;
    [|by split; [|split; [|left]]].
  destruct body as [body|]; [|by split; [|split; [|left]]].
  unfold outstandingResponse in Ho. destruct (decide _) as [Hi|Hi]; [done|].
  set (state0 := set_obligations _ None _ state).
  destruct (EvalResponseBody _ _ _ _ _) as [[res err] r].
  pose proof (controlOf_infoOf state0 r) as Hc.
  set (state1 := infoOf state0 r) in *. clearbody state1.
  injection Hc as Hc1 Hc2 Hc3 Hc4 Hc5.
  destruct err as [e|]; (split; [done|]; split; [done|]); right; simpl;
    rewrite Ho, Hc3; by repeat split.
Qed.

(** ** All handlers *)

(** No handler changes the effect of what was sent, nor makes a stream idle again. *)
Lemma handle_effect s m state w resps err state' w' :
  handle s m state w = Some (resps, err, state', w') →
  ss_effect state' = ss_effect state
  ∧ (ss_lifecycle state' = lifecycleIdle → ss_lifecycle state = lifecycleIdle).
Proof.
  destruct m as [h attrs|b| |h|b| |]; simpl; intros [= Heq].
  - pose proof (HandleRequestHeaders_control s (Some h) attrs state w) as H.
    rewrite Heq in H. unfold headers_control in H.
    assert (∀ c, ct_lifecycle (seen c) ≠ lifecycleIdle) as Hs.
    { intros c. simpl. by destruct (ct_lifecycle c). }
    assert (controlOf state' = seen (controlOf state)
            ∨ ∃ res subs, armed res subs (seen (controlOf state)) (controlOf state')) as [Hc|Hc].
    { destruct err; auto. }
    + split; [by injection Hc|]. intros Hl. change (ct_lifecycle (controlOf state') = lifecycleIdle) in Hl.
      rewrite Hc in Hl. by apply Hs in Hl.
    + destruct Hc as (res & subs & He & Hd). split; [exact He|]. intros Hl.
      exfalso. apply (Hs (controlOf state)).
      change (ss_lifecycle state') with (ct_lifecycle (controlOf state')) in Hl.
      destruct (rh_Disposition res); destruct Hd as (_ & _ & _ & Hd); rewrite Hl in Hd;
        try done; by destruct (_ && _ && _).
  - pose proof (HandleRequestBody_control s (Some b) state w) as H. rewrite Heq in H.
    destruct H as [He H]. split; [exact He|]. intros Hl.
    change (ct_lifecycle (controlOf state') = lifecycleIdle) in Hl;
      change (ct_lifecycle (controlOf state) = lifecycleIdle).
    destruct H as [[Hc _]|(Hn & _ & _ & _ & [Hc|[_ Hc]])]; [by rewrite Hc in Hl|congruence..].
  - by simplify_eq.
  - pose proof (HandleResponseHeaders_control s (Some h) state w) as H. rewrite Heq in H.
    destruct H as (He & _ & H). split; [exact He|]. intros Hl.
    change (ct_lifecycle (controlOf state') = lifecycleIdle) in Hl;
      change (ct_lifecycle (controlOf state) = lifecycleIdle).
    destruct err; [by destruct H; congruence|].
    destruct H as (Hn & [(_ & H & _)|[(_ & H & _)|(_ & H & _)]]); congruence.
  - pose proof (HandleResponseBody_control s (Some b) state w) as H. rewrite Heq in H.
    destruct H as (He & _ & H). split; [exact He|]. intros Hl.
    change (ct_lifecycle (controlOf state') = lifecycleIdle) in Hl;
      change (ct_lifecycle (controlOf state) = lifecycleIdle).
    destruct H as [[Hc _]|(Hn & _ & _ & Hc)]; [by rewrite Hc in Hl|].
    destruct err; congruence.
  - by simplify_eq.
Qed.

End invariant.
