(* ===== verification/ExtProcAudit.v ===== *)
(** * The audit record of a stream

    src/extensions/epe/pkg/extproc/server.go: over a whole call of [Process] the loggers
    get one entry per observed request, and its outcome is what was really sent. The
    messages come in the order of the protocol: the request headers first and once, and no
    response headers while a body is owed. A last theorem shows what happens without the
    second condition. *)

From S2P Require Import Prelude Netip Filter Attributes Fold Engine ExtProc ExtProcServer ExtProcInvariant.

Section audit.
Context `{CF : CaseFolding} `{AT : AddressText} `{RT : RequestText}.
Context `{D : Deployment} `{FL : !Filters}.

(** ** Messages in the order of the protocol *)

Definition admissible (m : ProcessingRequest) (state : streamState) : bool :=
  match m with
  | ReqRequestHeaders _ _ => bool_decide (ss_lifecycle state = lifecycleIdle)
  | ReqResponseHeaders _ => negb (awaitingRequestBody state) && negb (awaitingResponseBody state)
  | _ => true
  end.

Definition admissibleTurn (t : Turn) (state : streamState) : bool :=
  match tn_recv t with RecvMessage m => admissible m state | _ => true end.

Fixpoint conforming (s : Server) (turns : list Turn) (c : Call) : bool :=
  match turns with
  | [] => true
  | t :: turns =>
      admissibleTurn t (ca_state c)
      && match turn s t c with
         | (c, None) => conforming s turns c
         | (_, Some _) => true
         end
  end.

(** ** The entries and their outcome *)

(** One entry per logger, with the stream and its observations. *)
Definition entries (s : Server) (st : streamState) : list (Logger * Stream * StreamInfo) :=
  (λ l, (l, ss_stream st, ss_info st)) <$> streamLoggers s (ss_stream st).

(** The effect on record is that of the responses the proxy accepted. *)
Definition effect_ok (c : Call) : Prop :=
  (ss_effect (ca_state c) = effectBlocked ↔ Exists isImmediate (ca_sent c))
  ∧ (ss_effect (ca_state c) = effectMutated →
     Exists (λ r, ∃ b, classifyResponse r b = effectMutated) (ca_sent c)).

Definition outcome_ok (c : Call) : Prop :=
  si_Outcome (ss_info (ca_state c)) = DispositionError
  ∨ effect_ok c ∧ ∃ n, si_Outcome (ss_info (ca_state c))
                       = deriveOutcome (ss_effect (ca_state c)) false n.

(** ** Control states *)

Definition owes_nothing (c : control) : Prop := ct_request c = None ∧ ct_response c = None.

Definition live (c : control) : Prop :=
  match ct_lifecycle c with
  | lifecycleActive => ct_request c ≠ None → ct_response c = None
  | lifecycleFinalized => False
  | _ => owes_nothing c
  end.

Lemma handle_live s m state w resps err state' w' :
  live (controlOf state) → ss_lifecycle state ≠ lifecycleFinalizePending →
  admissible m state = true → handle s m state w = Some (resps, err, state', w') →
  live (controlOf state') ∧ (ss_lifecycle state' = lifecycleFinalizePending → err = None).
Proof.
  intros Hl Hp Ha Hh.
  set (c := controlOf state) in *. set (c' := controlOf state').
  change (ct_lifecycle c ≠ lifecycleFinalizePending) in Hp.
  change (live c' ∧ (ct_lifecycle c' = lifecycleFinalizePending → err = None)).
  unfold live in *. unfold admissible in Ha.
  destruct m as [h attrs|b| |h|b| |]; simpl in Hh; try (injection Hh as Hh).
  - pose proof (HandleRequestHeaders_control s (Some h) attrs state w) as H.
    rewrite Hh in H. fold c c' in H. clearbody c'. apply bool_decide_eq_true in Ha.
    change (ct_lifecycle c = lifecycleIdle) in Ha. rewrite Ha in Hl. destruct Hl as [Hl1 Hl2].
    unfold headers_control, seen in H. rewrite Ha, Hl1, Hl2 in H.
    destruct err as [e|]; [by rewrite H|]. split; [|done].
    destruct H as [->|(res & subs & _ & H)]; [done|]. simpl in H. unfold owes_nothing.
    destruct (rh_Disposition res); [| |destruct H as (-> & -> & _ & ->); done| |];
      destruct H as (H1 & -> & _ & ->); [done..| |done].
    simpl. destruct (negb (ct_await c')); simpl; [|done].
    case_bool_decide; done.
  - pose proof (HandleRequestBody_control s (Some b) state w) as H. rewrite Hh in H.
    fold c c' in H. clearbody c'. destruct H as [_ [[-> ?]|(Hi & Hr & Hr' & H & H')]]; [done|].
    destruct (ct_lifecycle c) eqn:Hc; try done. specialize (Hl Hr). rewrite Hl in H.
    assert (ct_response c' = None) as Hn by (by destruct H).
    destruct H' as [->|[-> ->]]; [|done]. by split.
  - simplify_eq. done.
  - pose proof (HandleResponseHeaders_control s (Some h) state w) as H. rewrite Hh in H.
    fold c c' in H. clearbody c'. destruct H as (_ & Hr & H).
    apply andb_true_iff in Ha as [Ha1 Ha2]. unfold awaitingRequestBody in Ha1.
    unfold awaitingResponseBody in Ha2.
    assert (ct_request c = None) as Hn1 by (unfold c; simpl; by destruct (ss_requestBodyContinuation state)).
    assert (ct_response c = None) as Hn2 by (unfold c; simpl; by destruct (ss_responseBodyContinuation state)).
    rewrite Hn1 in Hr. destruct err as [e|].
    + destruct H as [H ->]. unfold owes_nothing. rewrite Hr, H. by destruct (ct_lifecycle c).
    + split; [|done]. unfold owes_nothing. rewrite Hr.
      destruct H as (Hi & [(H & _)|[(_ & -> & _)|(_ & -> & ->)]]); [by rewrite H in Hl| |done].
      by destruct (ct_lifecycle c).
  - pose proof (HandleResponseBody_control s (Some b) state w) as H. rewrite Hh in H.
    fold c c' in H. clearbody c'. destruct H as (_ & Hr & [[-> ?]|(Hi & H & H' & H'')]); [done|].
    destruct (ct_lifecycle c) eqn:Hc; try done.
    assert (ct_request c = None) as Hn by (destruct (ct_request c); [by rewrite Hl in H|done]).
    unfold owes_nothing. rewrite Hr, Hn, H', H''. by destruct err.
  - simplify_eq. done.
  - done.
Qed.

(** ** Finalized streams *)

(** What a message does to a finalized stream: a bare acknowledgement, or a refusal. *)
Lemma handle_finalized s m state w resps err state' w' :
  ss_lifecycle state = lifecycleFinalized → owes_nothing (controlOf state) →
  admissible m state = true → handle s m state w = Some (resps, err, state', w') →
  ss_lifecycle state' = lifecycleFinalized ∧ owes_nothing (controlOf state')
  ∧ ss_stream state' = ss_stream state ∧ ss_info state' = ss_info state
  ∧ ss_effect state' = ss_effect state
  ∧ (err ≠ None → resps = []) ∧ Forall (λ r, ∀ b, classifyResponse r b = effectNone) resps.
Proof.
  intros Hf [Hr1 Hr2] Ha Hh. simpl in Hr1, Hr2.
  destruct m as [h attrs|b| |h|b| |]; simpl in *; try (injection Hh as Hh); try done.
  - by rewrite Hf in Ha.
  - unfold HandleRequestBody, outstandingRequest in Hh. rewrite Hf, Hr1 in Hh. by simplify_eq/=.
  - simplify_eq. repeat split; try done. by constructor.
  - unfold HandleResponseHeaders in Hh. rewrite !Hf in Hh. simpl in Hh.
    destruct h as [[hs|] eos]; simplify_eq; repeat split; try done. by constructor.
  - unfold HandleResponseBody, outstandingResponse in Hh. rewrite Hf, Hr2 in Hh. by simplify_eq/=.
  - simplify_eq. repeat split; try done. by constructor.
Qed.

(** ** Sends *)

(** A call that differs by its effect and by what was sent. *)
Definition sent_from (c c' : Call) (more : list ProcessingResponse) (e : messageEffect) : Prop :=
  c' = {| ca_state := set_effect e (ca_state c); ca_world := ca_world c;
          ca_sent := ca_sent c ++ more; ca_logged := ca_logged c |}.

Lemma observe_effect_ok c r b :
  effect_ok c →
  effect_ok {| ca_state := set_effect (observe (ss_effect (ca_state c)) (classifyResponse r b))
                             (ca_state c);
               ca_world := ca_world c; ca_sent := ca_sent c ++ [r]; ca_logged := ca_logged c |}.
Proof.
  intros [Hb Hm]. unfold effect_ok. simpl. rewrite !Exists_app, !Exists_cons, !Exists_nil.
  assert (isImmediate r ↔ classifyResponse r b = effectBlocked) as Hr.
  { unfold isImmediate, classifyResponse, commonEffect.
    destruct (pr_Response r) as [[[? [[[] []]|] [[]|] ?]|]|[[? [[[] []]|] [[]|] ?]|]| |
      [[? [[[] []]|] [[]|] ?]|]|[[? [[[] []]|] [[]|] ?]|]| |]; simpl; try destruct (_ && _); done. }
  rewrite Hr, <-Hb. revert Hm.
  assert (classifyResponse r b = effectMutated → ∃ b, classifyResponse r b = effectMutated)
    as Hex by eauto.
  revert Hex. destruct (classifyResponse r b), (ss_effect (ca_state c)); simpl; naive_solver.
Qed.

Lemma sendAll_observed send n resps c c' err :
  sendAll true send n resps c = (c', err) →
  (∃ more e, sent_from c c' more e ∧ (more `prefix_of` resps)) ∧ (effect_ok c → effect_ok c').
Proof.
  revert n c. induction resps as [|r resps IH]; intros n c; simpl.
  { intros [= <- _]. split; [|done]. exists [], (ss_effect (ca_state c)). split; [|done].
    unfold sent_from. rewrite app_nil_r. destruct c as [[]]; reflexivity. }
  destruct (send n) as [e|].
  { intros [= <- _]. split; [|done]. exists [], (ss_effect (ca_state c)).
    split; [|apply prefix_nil].
    unfold sent_from. rewrite app_nil_r. destruct c as [[]]; reflexivity. }
  intros [(more & e & Hc & Hp) He]%IH. split.
  - exists (r :: more), e. split; [|by apply prefix_cons].
    unfold sent_from in *. rewrite Hc. simpl. by rewrite <-app_assoc.
  - intros Hok. apply He. by apply observe_effect_ok.
Qed.

Lemma sendAll_unobserved send n resps c :
  ca_state (sendAll false send n resps c).1 = ca_state c
  ∧ ca_logged (sendAll false send n resps c).1 = ca_logged c
  ∧ (resps = [] → (sendAll false send n resps c).1 = c).
Proof.
  revert n c. induction resps as [|r resps IH]; intros n c; simpl; [done|].
  destruct (send n) as [e|]; [done|].
  by destruct (IH (S n) {| ca_state := ca_state c; ca_world := ca_world c;
    ca_sent := ca_sent c ++ [r]; ca_logged := ca_logged c |}) as (-> & -> & _).
Qed.

Lemma sendAll_acks send n resps c :
  Forall (λ r, ∀ b, classifyResponse r b = effectNone) resps →
  ss_effect (ca_state (sendAll true send n resps c).1) = ss_effect (ca_state c).
Proof.
  intros H. revert n c. induction H as [|r resps Hr _ IH]; intros n c; simpl; [done|].
  destruct (send n); [done|]. rewrite IH. simpl. rewrite Hr.
  by destruct (ss_effect (ca_state c)).
Qed.

(** ** The loop *)

(** What holds of a stream between the turns of the loop. *)
Definition finalized_ok (s : Server) (c : Call) : Prop :=
  ca_logged c = entries s (ca_state c) ∧ outcome_ok c.

Definition audited (s : Server) (c : Call) : Prop :=
  match ss_lifecycle (ca_state c) with
  | lifecycleFinalizePending => False
  | lifecycleFinalized => finalized_ok s c ∧ owes_nothing (controlOf (ca_state c))
  | _ => ca_logged c = [] ∧ live (controlOf (ca_state c))
  end ∧ effect_ok c.

(** What holds when the loop returns, before the deferred finalization. *)
Definition closing (s : Server) (retErr : option string) (c : Call) : Prop :=
  match ss_lifecycle (ca_state c) with
  | lifecycleIdle => ca_logged c = []
  | lifecycleFinalized => finalized_ok s c
  | _ => ca_logged c = [] ∧ (retErr = None → effect_ok c)
  end.

(** What holds at the end: nothing was logged and no request observed, or every logger has
    its entry. *)
Definition settled (s : Server) (c : Call) : Prop :=
  match ss_lifecycle (ca_state c) with
  | lifecycleIdle => ca_logged c = []
  | lifecycleFinalized => finalized_ok s c
  | _ => False
  end.

Lemma finishStream_settles s err c :
  closing s err c → settled s (finishStream s err c).
Proof.
  unfold closing, settled, finishStream. destruct (ss_lifecycle (ca_state c)) eqn:Hl;
    try (by rewrite Hl); intros [Hn He]; simpl; split; try (by rewrite Hn);
    unfold outcome_ok; simpl; destruct err as [e|]; simpl; try (by left);
    right; (split; [exact (He eq_refl)|]); eauto.
Qed.

Lemma closing_weaken s retErr err c :
  closing s retErr c → (retErr ≠ None → err ≠ None) → closing s err c.
Proof.
  unfold closing. intros H He. destruct (ss_lifecycle (ca_state c)); [done| | |done];
    destruct H as [-> H]; (split; [done|]); intros ->; apply H; destruct retErr; naive_solver.
Qed.

Lemma audited_closing s retErr c : audited s c → closing s retErr c.
Proof.
  unfold audited, closing. intros [H ?]. destruct (ss_lifecycle (ca_state c)); naive_solver.
Qed.

Lemma settled_closing s retErr c : settled s c → closing s retErr c.
Proof. unfold settled, closing. by destruct (ss_lifecycle (ca_state c)). Qed.

(** A message on a stream that is not finalized. *)
Lemma turn_live s t c resps err state' w' :
  ca_logged c = [] → effect_ok c → ss_effect state' = ss_effect (ca_state c) →
  live (controlOf state') → (ss_lifecycle state' = lifecycleFinalizePending → err = None) →
  let c1 := {| ca_state := state'; ca_world := w'; ca_sent := ca_sent c;
               ca_logged := ca_logged c |} in
  match err with
  | Some e => closing s (Some e) (sendAll false (tn_send t) 0 resps c1).1
  | None => match sendAll true (tn_send t) 0 resps c1 with
            | (c2, Some e) => closing s (Some e) c2
            | (c2, None) => audited s (finishAfterSend s c2)
            end
  end.
Proof.
  intros Hn Hok He Hl Hp c1.
  assert (effect_ok c1) as Hok1 by (unfold effect_ok; simpl; by rewrite He).
  destruct err as [e|].
  { destruct (sendAll_unobserved (tn_send t) 0 resps c1) as (Hs & Hg & _).
    unfold closing. rewrite Hs, Hg. unfold live in Hl. simpl in *.
    by destruct (ss_lifecycle state'). }
  destruct (sendAll true (tn_send t) 0 resps c1) as [c2 err] eqn:Hsend.
  apply sendAll_observed in Hsend as [(more & e & Hc2 & _) Hok2]. specialize (Hok2 Hok1).
  unfold sent_from in Hc2. subst c2.
  destruct err as [e'|].
  { unfold closing. simpl. unfold live in Hl. simpl in Hl. by destruct (ss_lifecycle state'). }
  unfold finishAfterSend. simpl. unfold live in Hl. simpl in Hl.
  destruct (ss_lifecycle state') eqn:Hs; try done.
  1,2: unfold audited; simpl; rewrite Hs; split; [|done]; split; [done|];
       unfold live; simpl; by rewrite Hs.
  unfold audited, finishStream. simpl. rewrite Hs. simpl. split; [|done]. split; [|done].
  split; [by rewrite Hn|]. right. split; [done|]. eauto.
Qed.

Lemma finishAfterSend_finalized s c :
  ss_lifecycle (ca_state c) = lifecycleFinalized → finishAfterSend s c = c.
Proof. unfold finishAfterSend. by intros ->. Qed.

(** A message on a finalized stream. *)
Lemma turn_finalized s m t c resps err state' w' :
  ss_lifecycle (ca_state c) = lifecycleFinalized → audited s c →
  admissible m (ca_state c) = true →
  handle s m (ca_state c) (ca_world c) = Some (resps, err, state', w') →
  let c1 := {| ca_state := state'; ca_world := w'; ca_sent := ca_sent c;
               ca_logged := ca_logged c |} in
  match err with
  | Some e => closing s (Some e) (sendAll false (tn_send t) 0 resps c1).1
  | None => match sendAll true (tn_send t) 0 resps c1 with
            | (c2, Some e) => closing s (Some e) c2
            | (c2, None) => audited s (finishAfterSend s c2)
            end
  end.
Proof.
  intros Hf Hau Ha Hh c1. unfold audited in Hau. rewrite Hf in Hau.
  destruct Hau as [[[Hlog Hout] Howe] Hok].
  destruct (handle_finalized s m _ _ _ _ _ _ Hf Howe Ha Hh)
    as (Hf' & Howe' & Hst & Hi & He & Hno & Hack).
  assert (effect_ok c1) as Hok1 by (unfold effect_ok; simpl; by rewrite He).
  assert (∀ c2, ss_effect (ca_state c2) = ss_effect (ca_state c) → effect_ok c2 →
    ss_info (ca_state c2) = ss_info (ca_state c) → outcome_ok c2) as Hout2.
  { intros c2 He2 Hok2 Hi2. unfold outcome_ok. rewrite Hi2, He2.
    destruct Hout as [Hout|[_ Hout]]; auto. }
  destruct err as [e|].
  { rewrite (Hno ltac:(done)). unfold closing. simpl. rewrite Hf'.
    split; [|by apply Hout2]. simpl. unfold entries. by rewrite Hst, Hi. }
  pose proof (sendAll_acks (tn_send t) 0 resps c1 Hack) as Heff.
  destruct (sendAll true (tn_send t) 0 resps c1) as [c2 err] eqn:Hsend. simpl in Heff.
  apply sendAll_observed in Hsend as [(more & e & Hc2 & _) Hok2]. specialize (Hok2 Hok1).
  assert (finalized_ok s c2) as Hfin.
  { split.
    - rewrite Hc2. simpl. unfold entries. simpl. by rewrite Hst, Hi.
    - apply Hout2; [by rewrite Heff|done|by rewrite Hc2]. }
  assert (ss_lifecycle (ca_state c2) = lifecycleFinalized) as Hl by (by rewrite Hc2).
  destruct err as [e'|]; [unfold closing; by rewrite Hl|].
  rewrite finishAfterSend_finalized by done. unfold audited. rewrite Hl.
  split; [|done]. split; [done|]. by rewrite Hc2.
Qed.

Lemma turn_ok s t c :
  audited s c → admissibleTurn t (ca_state c) = true →
  match turn s t c with
  | (c', None) => audited s c'
  | (c', Some retErr) => closing s retErr c'
  end.
Proof.
  intros Hau Ha. unfold turn. destruct (tn_done t) as [e|]; [by apply audited_closing|].
  unfold admissibleTurn in Ha. destruct (tn_recv t) as [m| | |e].
  - destruct (handle s m (ca_state c) (ca_world c)) as [[[[resps err] state'] w']|] eqn:Hh;
      [|by apply audited_closing].
    pose proof (handle_effect _ _ _ _ _ _ _ _ Hh) as [He _].
    cut (match err with
      | Some e => closing s (Some e) (sendAll false (tn_send t) 0 resps {| ca_state := state';
          ca_world := w'; ca_sent := ca_sent c; ca_logged := ca_logged c |}).1
      | None => match sendAll true (tn_send t) 0 resps {| ca_state := state';
          ca_world := w'; ca_sent := ca_sent c; ca_logged := ca_logged c |} with
                | (c2, Some e) => closing s (Some e) c2
                | (c2, None) => audited s (finishAfterSend s c2)
                end end).
    { destruct err; [done|]. by destruct (sendAll _ _ _ _ _) as [c2 [e|]]. }
    destruct (decide (ss_lifecycle (ca_state c) = lifecycleFinalized)) as [Hf|Hf];
      [by eapply turn_finalized|].
    destruct Hau as [Hau Hok].
    assert (ca_logged c = [] ∧ live (controlOf (ca_state c))
            ∧ ss_lifecycle (ca_state c) ≠ lifecycleFinalizePending) as (Hn & Hl & Hp).
    { destruct (ss_lifecycle (ca_state c)); naive_solver. }
    destruct (handle_live _ _ _ _ _ _ _ _ Hl Hp Ha Hh) as [Hl' Hp']. by apply turn_live.
  - destruct (awaitingInput (ca_state c)); [by apply audited_closing|].
    by apply settled_closing, finishStream_settles, audited_closing.
  - by apply settled_closing, finishStream_settles, audited_closing.
  - by apply audited_closing.
Qed.

Lemma Process_from_settled s turns c c' retErr :
  audited s c → conforming s turns c = true → Process_from s turns c = (c', Some retErr) →
  settled s c'.
Proof.
  revert c. induction turns as [|t turns IH]; intros c Hau Hc; simpl in *; [done|].
  apply andb_true_iff in Hc as [Ha Hc]. pose proof (turn_ok s t c Hau Ha) as Ht.
  destruct (turn s t c) as [c1 [err|]]; [|by apply IH].
  intros [= <- ->]. apply finishStream_settles. eapply closing_weaken; [done|].
  by destruct retErr.
Qed.

Definition newCall (w : World) : Call :=
  {| ca_state := newStreamState; ca_world := w; ca_sent := []; ca_logged := [] |}.

Lemma newCall_audited s w : audited s (newCall w).
Proof. split; [done|]. unfold effect_ok. simpl. by rewrite Exists_nil. Qed.

(** C10: on a call whose messages come in the order of the protocol, every logger gets
    exactly one entry, with the final stream and its observations, when a request was
    observed, and none otherwise: whatever ended the call (end of stream, cancellation, a
    failed send, a handler's error, an error of the context). *)
Theorem stream_logged_once s turns w c retErr :
  conforming s turns (newCall w) = true → Process s turns w = (c, Some retErr) →
  ss_lifecycle (ca_state c) = lifecycleIdle ∧ ca_logged c = []
  ∨ ss_lifecycle (ca_state c) = lifecycleFinalized
    ∧ ca_logged c
      = (λ l, (l, ss_stream (ca_state c), ss_info (ca_state c)))
          <$> sv_loggers s
              ++ option_list (ps_StreamLogger (rc_Policies (st_Context (ss_stream (ca_state c))))).
Proof.
  intros Hc Hp. pose proof (Process_from_settled s turns _ c retErr (newCall_audited s w) Hc Hp) as H.
  unfold settled in H. destruct (ss_lifecycle (ca_state c)); try done; [by left|right].
  split; [done|apply H].
Qed.

(** C11: the outcome on the audit record is what the proxy accepted. On a call whose
    messages come in the order of the protocol (request headers first and once, no response
    headers while a body is owed) and that has ended, an entry whose outcome is not an error
    has the outcome of a block if and only if an immediate response was sent on the call,
    and that of a mutation only if a response that changes the message was. *)
Theorem audit_outcome_true s turns w c retErr l st info :
  conforming s turns (newCall w) = true → Process s turns w = (c, Some retErr) →
  (l, st, info) ∈ ca_logged c →
  si_Outcome info = DispositionError
  ∨ (si_Outcome info = DispositionBlocked ↔ Exists isImmediate (ca_sent c))
    ∧ (si_Outcome info = DispositionMutated →
       Exists (λ r, ∃ b, classifyResponse r b = effectMutated) (ca_sent c)).
Proof.
  intros Hc Hp Hin.
  pose proof (Process_from_settled s turns _ c retErr (newCall_audited s w) Hc Hp) as H.
  unfold settled in H. destruct (ss_lifecycle (ca_state c));
    [rewrite H in Hin; by apply elem_of_nil in Hin|done|done|].
  destruct H as [Hlog Hout]. rewrite Hlog in Hin.
  apply list_elem_of_fmap in Hin as (l' & [= -> -> ->] & _).
  destruct Hout as [Hout|[[Hb Hm] [n Hout]]]; [by left|right]. rewrite Hout, <-Hb.
  split; [|intros Hd; apply Hm];
    destruct (ss_effect (ca_state c)); simpl in *; try case_decide; done.
Qed.

(** ** Without the order of the protocol *)

Lemma Process_from_app s turns turns' c c' :
  Process_from s turns c = (c', None) →
  Process_from s (turns ++ turns') c = Process_from s turns' c'.
Proof.
  revert c. induction turns as [|t turns IH]; intros c; simpl; [by intros [= ->]|].
  destruct (turn s t c) as [c1 [ret|]]; [done|apply IH].
Qed.

(** A stream that is finished gets an entry for each of its loggers. *)
Lemma finishAfterSend_entries s c :
  ss_lifecycle (ca_state c) = lifecycleFinalizePending →
  let c' := finishAfterSend s c in
  ca_logged c' = ca_logged c ++ entries s (ca_state c')
  ∧ ss_lifecycle (ca_state c') = lifecycleFinalized
  ∧ ss_stream (ca_state c') = ss_stream (ca_state c)
  ∧ ss_requestBodyContinuation (ca_state c') = ss_requestBodyContinuation (ca_state c)
  ∧ ∃ n, si_Outcome (ss_info (ca_state c')) = deriveOutcome (ss_effect (ca_state c)) false n.
Proof.
  intros Hl. unfold finishAfterSend. rewrite Hl. unfold finishStream. rewrite Hl. simpl.
  split_and!; [done..|]. by eexists.
Qed.

Lemma infoOf_keeps state r :
  ss_stream (infoOf state r) = ss_stream state
  ∧ ss_requestBodyContinuation (infoOf state r) = ss_requestBodyContinuation state
  ∧ ss_awaitResponseHeaders (infoOf state r) = ss_awaitResponseHeaders state
  ∧ ss_effect (infoOf state r) = ss_effect state.
Proof. unfold infoOf. by destruct (run_info r). Qed.

(** Response headers that are handled without waiting for their body finish the stream. *)
Lemma early_response_finishes s t c c1 hs eos :
  ss_lifecycle (ca_state c) ≠ lifecycleIdle → ss_lifecycle (ca_state c) ≠ lifecycleFinalized →
  tn_recv t = RecvMessage (ReqResponseHeaders {| hh_Headers := Some hs; hh_EndOfStream := eos |}) →
  turn s t c = (c1, None) → awaitingResponseBody (ca_state c1) = false →
  ca_logged c1 = ca_logged c ++ entries s (ca_state c1)
  ∧ ss_lifecycle (ca_state c1) = lifecycleFinalized
  ∧ ss_awaitResponseHeaders (ca_state c1) = false
  ∧ ss_requestBodyContinuation (ca_state c1) = ss_requestBodyContinuation (ca_state c).
Proof.
  intros Hi Hf Hrecv. unfold turn. rewrite Hrecv. destruct (tn_done t); [done|]. simpl.
  unfold HandleResponseHeaders. rewrite !decide_False by done. unfold evaluateResponse.
  set (state0 := set_stream _ (ca_state c)).
  destruct (EvalResponseHeaders _ _ _ _ _ _) as [[res [e|]] r]; [done|].
  destruct (infoOf_keeps state0 r) as (_ & Hk & _). set (state1 := infoOf state0 r) in *.
  match goal with |- context [if ?b then with_ResponseBlock ?rep res else res] =>
    generalize (if b then with_ResponseBlock rep res else res) end.
  intros res1. destruct (_ && ph_needsBody res1); simpl; destruct (tn_send t 0); try done.
  - unfold finishAfterSend. simpl. destruct (ss_lifecycle state1) eqn:Hl; intros [= <-] Haw; try done.
    unfold finishStream in Haw. simpl in Haw. by rewrite Hl in Haw.
  - intros [= <-] _. set (c2 := {| ca_state := _ |}).
    destruct (finishAfterSend_entries s c2) as (Hlog & Hlc & _ & Hrb & _); [done|].
    split_and!; [done|done| |by rewrite Hrb].
    unfold finishAfterSend, finishStream. by simpl.
Qed.

(** C40: a stream can be logged twice. Take a call on which a request body is owed. If
    response headers arrive first and are answered without waiting for the response's body,
    the stream is finished, and every logger gets its entry. If the request body then arrives
    and the filters block it or bypass the rest on it, without an error, the answer is sent
    and every logger gets a second entry for the same stream; after a block, with the outcome
    of a block. *)
Theorem early_response_logs_twice s before t1 t2 w c c1 prior hs eos body res r :
  Process s before w = (c, None) → outstandingRequest (ca_state c) = Some prior →
  ss_lifecycle (ca_state c) ≠ lifecycleFinalized →
  tn_recv t1 = RecvMessage (ReqResponseHeaders {| hh_Headers := Some hs; hh_EndOfStream := eos |}) →
  turn s t1 c = (c1, None) → awaitingResponseBody (ca_state c1) = false →
  tn_recv t2 = RecvMessage (ReqRequestBody body) → tn_done t2 = None → tn_send t2 0 = None →
  EvalRequestBody (sv_eng s) (ss_stream (ca_state c1)) (Some prior)
    {| bd_Bytes := hb_Body body; bd_Complete := true |} (runOf (ca_state c1) (ca_world c1))
    = (res, None, r) →
  rb_Disposition res = DispositionBlocked ∨ rb_Disposition res = DispositionBypassed →
  ∃ c2, Process s (before ++ [t1; t2]) w = (c2, None)
    ∧ ss_stream (ca_state c2) = ss_stream (ca_state c1)
    ∧ ca_logged c2 = ca_logged c ++ entries s (ca_state c1) ++ entries s (ca_state c2)
    ∧ (rb_Disposition res = DispositionBlocked →
       si_Outcome (ss_info (ca_state c2)) = DispositionBlocked).
Proof.
  intros Hp Hout Hnf Hr1 Ht1 Haw Hr2 Hd2 Hs2 Heval Hdisp.
  unfold outstandingRequest in Hout. case_decide as Hidle; [done|].
  destruct (early_response_finishes s t1 c c1 hs eos Hidle Hnf Hr1 Ht1 Haw) as (Hlog & Hlc & Hawr & Hrb).
  unfold Process. rewrite (Process_from_app s before _ _ c Hp). simpl. rewrite Ht1.
  unfold turn at 1. rewrite Hr2, Hd2. simpl. unfold HandleRequestBody, outstandingRequest.
  rewrite Hlc, decide_False, Hrb, Hout by done.
  match goal with |- context [EvalRequestBody ?e ?st ?p ?b ?run] =>
    replace (EvalRequestBody e st p b run) with (res, @None string, r) by (symmetry; exact Heval) end.
  simpl. rewrite Hs2.
  set (state1 := set_scope _ _). set (c2 := {| ca_state := _ |}).
  destruct (infoOf_keeps (set_obligations None (ss_responseBodyContinuation (ca_state c1))
    (ss_awaitResponseHeaders (ca_state c1)) (ca_state c1)) r) as (Ks & Kb & Ka & _).
  assert (ss_lifecycle (ca_state c2) = lifecycleFinalizePending
    ∧ ss_stream (ca_state c2) = ss_stream (ca_state c1)) as [Hpend Hst].
  { unfold c2. simpl. unfold armFinalization, awaitingRequestBody.
    destruct Hdisp as [-> | ->]; simpl; [done|]. by rewrite Ka, Kb, Hawr. }
  destruct (finishAfterSend_entries s c2 Hpend) as (Hl2 & _ & Hs & _ & n & Ho).
  exists (finishAfterSend s c2). split; [done|]. split; [by rewrite Hs|]. split.
  { rewrite Hl2. simpl. by rewrite Hlog, app_assoc. }
  intros Hb. rewrite Ho. unfold c2. simpl. unfold translateRequestBodyResult. rewrite decide_True by done.
  simpl. unfold observe. by destruct (ss_effect _).
Qed.

End audit.
