(* ===== verification/ExtProcAuthorization.v ===== *)
(** * The authorized destination of a request

    src/extensions/epe/pkg/extproc/authorization.go, request.go and body.go: with a request
    authorizer, no response lets a request through that the authorizer did not approve, on
    the request as the mutations leave it; the approved target is the one the proxy is
    told. The body phase, which runs after the approval, cannot change either. *)

From S2P Require Import Prelude Netip Filter Attributes Fold Engine EngineWalks EngineInvariant ExtProc ExtProcServer ExtProcInvariant.

Section authorization.
Context `{CF : CaseFolding} `{AT : AddressText} `{RT : RequestText}.
Context `{D : Deployment} `{FL : !Filters}.

(** ** Routing headers in the body phase *)

Definition routing (op : HeaderOp) : bool := bool_decide (ToLower (op_Name op) ∈ routingNames).

Lemma rewriteStep_other request headers op :
  routing op = false → rewriteStep request headers op = headers.
Proof.
  unfold routing, rewriteStep. intros Hr%bool_decide_eq_false. rewrite decide_False; [done|].
  unfold routingNames in Hr. set_solver.
Qed.

(** Only the operations on routing headers count. *)
Lemma RequestAfterMutations_routing request ops ops' :
  List.filter routing ops = List.filter routing ops' →
  RequestAfterMutations request ops = RequestAfterMutations request ops'.
Proof.
  assert (∀ ops h, foldl (rewriteStep request) h ops
                   = foldl (rewriteStep request) h (List.filter routing ops)) as Hf.
  { induction ops0 as [|op l IH]; intros h; [done|]. simpl.
    destruct (routing op) eqn:Hr; simpl; [apply IH|]. by rewrite rewriteStep_other. }
  intros H. unfold RequestAfterMutations. by rewrite (Hf ops), (Hf ops'), H.
Qed.

Lemma filter_flat_map_ext {A B} (f : B → bool) (g h : A → list B) l :
  (∀ x, x ∈ l → List.filter f (g x) = List.filter f (h x)) →
  List.filter f (flat_map g l) = List.filter f (flat_map h l).
Proof.
  induction l as [|x l IH]; intros H; [done|]. simpl. rewrite !List.filter_app.
  rewrite H by left. f_equal. apply IH. intros y Hy. apply H. by right.
Qed.

Lemma keyPart_routing fs k :
  (∀ k s, fs_states fs !! k = Some s → key_wf k s) → k ∉ routingNames →
  List.filter routing (keyPart fs k) = [].
Proof.
  intros Hwf Hk. unfold keyPart. destruct (fs_states fs !! k) as [s|] eqn:Hs; [|done].
  pose proof (keyOps_names k s (Hwf _ _ Hs)) as Hn. induction Hn as [|op l Hop _ IH]; [done|].
  simpl. unfold routing at 1. rewrite Hop, bool_decide_eq_false_2 by done. done.
Qed.

Lemma foldOp_routing fs op :
  fold_wf fs → routing op = false →
  List.filter routing (orderedOps (foldOp fs op)) = List.filter routing (orderedOps fs).
Proof.
  intros Hwf Hr. pose proof (foldOp_wf fs op Hwf) as Hwf'.
  destruct Hwf as (_ & Hdom & Hkey), Hwf' as (_ & _ & Hkey').
  apply bool_decide_eq_false in Hr.
  change (List.filter routing (flat_map (keyPart (foldOp fs op)) (fs_order (foldOp fs op)))
          = List.filter routing (flat_map (keyPart fs) (fs_order fs))).
  set (key := ToLower (op_Name op)) in *.
  assert (∀ k, k ∈ fs_order fs → List.filter routing (keyPart (foldOp fs op) k)
                                 = List.filter routing (keyPart fs k)) as Hk.
  { intros k _. destruct (decide (k = key)) as [->|Hne]; [by rewrite !keyPart_routing|].
    f_equal. unfold keyPart, foldOp. fold key.
    destruct (fs_states fs !! key); simpl; by rewrite lookup_insert_ne. }
  rewrite <-(filter_flat_map_ext _ _ _ _ Hk).
  assert (fs_order (foldOp fs op) = fs_order fs
          ∨ fs_order (foldOp fs op) = fs_order fs ++ [key]) as [->| ->]; [|done|].
  { unfold foldOp. fold key. destruct (fs_states fs !! key); auto. }
  rewrite flat_map_app, List.filter_app. simpl. rewrite app_nil_r.
  rewrite (keyPart_routing (foldOp fs op)) by done. by rewrite app_nil_r.
Qed.

Lemma foldl_routing fs ops :
  fold_wf fs → Forall (λ op, routing op = false) ops →
  List.filter routing (orderedOps (foldl foldOp fs ops)) = List.filter routing (orderedOps fs).
Proof.
  intros Hwf H. revert fs Hwf. induction H as [|op ops Hop _ IH]; intros fs Hwf; [done|].
  simpl. rewrite IH by by apply foldOp_wf. by apply foldOp_routing.
Qed.

Lemma valid_body_routing m :
  valid_in PhaseRequestBody m → Forall (λ op, routing op = false) (mut_HeaderOps m).
Proof.
  unfold valid_in, validateMutation. intros (? & _ & H)%rbind_Ok.
  case_match; [done|]. case_match; [done|]. apply rbind_Ok in H as ([] & H & _).
  apply rfold_unit_Ok in H. eapply Forall_impl; [exact H|]. intros op.
  unfold validateOp, routing. by destruct (bool_decide (ToLower _ ∈ _)).
Qed.

(** The mutations of body callbacks leave the routing headers of the request alone. *)
Lemma fold_routing A B :
  Forall (valid_in PhaseRequestBody) B →
  List.filter routing (fold (A ++ B)) = List.filter routing (fold A).
Proof.
  intros HB. unfold fold. rewrite flat_map_app, foldl_app. apply foldl_routing.
  - apply (foldl_foldOp _ _ "" []). split; [constructor|]. split; simpl.
    + intros k. rewrite lookup_empty. split; [by intros ?%not_elem_of_nil|by intros []].
    + intros k s. by rewrite lookup_empty.
  - induction HB as [|m B Hm _ IH]; simpl; [constructor|].
    apply Forall_app. split; [by apply valid_body_routing|done].
Qed.

(** ** Responses that let a request through *)

Definition lets_through (resp : ProcessingResponse) : bool :=
  match pr_Response resp with ArmRequestHeaders _ | ArmRequestBody _ => true | _ => false end.

(** The header mutation a response carries. *)
Definition mutationOf (resp : ProcessingResponse) : option HeaderMutation :=
  match pr_Response resp with
  | ArmRequestHeaders c | ArmRequestBody c => c ≫= cr_HeaderMutation
  | _ => None
  end.

(** The response tells the proxy to connect to an address. *)
Definition pinned (a : AddrPort) (resp : ProcessingResponse) : Prop :=
  ∃ fields, responseUpstream resp = Some fields
    ∧ fields !! "address" = Some (StringValue (AddrPort_String a))
    ∧ fields !! "ip" = Some (StringValue (Addr_String (ap_Addr a)))
    ∧ fields !! "port" = Some (StringValue (Itoa (ap_Port a))).

Definition renders (ops : list HeaderOp) (resp : ProcessingResponse) : Prop :=
  ∀ mut, mutationOf resp = Some mut →
  ∃ extra, mut = appendSet extra (headerMutationFromOps ops).1.

(** ** Rendering *)

Lemma pinUpstream_fresh a arm resp :
  pr_DynamicMetadata resp = None → pinned a (pinUpstream a arm resp)
    ∧ pr_Response (pinUpstream a arm resp) = arm.
Proof.
  intros Hm. unfold pinUpstream. rewrite Hm. cbn [default].
  unfold metadataObject. rewrite !lookup_empty.
  split; [|done]. exists (upstreamFields a ∅). unfold responseUpstream. cbn [pr_DynamicMetadata default from_option id].
  rewrite !lookup_insert_eq. split; [done|]. unfold upstreamFields.
  by rewrite !(lookup_insert_ne (M := gmap string)) by done.
Qed.

(** A route with a target, on a response without metadata: a denial, or the target. *)
Lemma applyRouteMutation_pins resp route :
  pr_DynamicMetadata resp = None → lets_through resp = true →
  let resp' := applyRouteMutation resp route in
  isImmediate resp' = true
  ∨ lets_through resp' = true ∧ mutationOf resp' = mutationOf resp
    ∧ ∀ a, routeUpstream route ≫= up_Address = Some a → pinned a resp'.
Proof.
  intros Hm Hl. unfold applyRouteMutation. destruct route as [r|]; [|by right].
  destruct (isImmediate resp) eqn:Hi.
  { unfold isImmediate in Hi. unfold lets_through in Hl. by destruct (pr_Response resp). }
  destruct (Route_Validate (Some r)) as [u|]; [|by left].
  unfold routeUpstream. cbn [mbind option_bind].
  destruct (bool_decide (rt_Upstream r = None) && negb (rt_ClearCache r)) eqn:Hb.
  { apply andb_true_iff in Hb as [Hb%bool_decide_eq_true _]. right. rewrite Hb. done. }
  assert (∀ arm c, (arm = ArmRequestHeaders ∨ arm = ArmRequestBody) →
    pr_Response resp = arm c →
    let resp' := match rt_Upstream r ≫= up_Address with
                 | None => {| pr_Response := arm (clearRoute (rt_ClearCache r) c);
                              pr_ModeOverride := pr_ModeOverride resp;
                              pr_DynamicMetadata := pr_DynamicMetadata resp |}
                 | Some a => pinUpstream a (arm (clearRoute (rt_ClearCache r) c)) resp
                 end in
    lets_through resp' = true ∧ mutationOf resp' = mutationOf resp
    ∧ ∀ a, rt_Upstream r ≫= up_Address = Some a → pinned a resp') as Harm.
  { intros arm c Harm Hr. cbv zeta. unfold mutationOf, lets_through. rewrite Hr.
    destruct (rt_Upstream r ≫= up_Address) as [addr|].
    - destruct (pinUpstream_fresh addr (arm (clearRoute (rt_ClearCache r) c)) resp Hm) as [Hp ->].
      destruct Harm as [H|H]; rewrite H in *; (split; [done|]); (split; [by destruct c|]);
        by intros a [= <-].
    - destruct Harm as [H|H]; rewrite H in *; (split; [done|]); (split; [by destruct c|done]). }
  unfold lets_through in Hl. destruct (pr_Response resp) as [c|c| | | | |i] eqn:Hr; try done; right.
  - pose proof (Harm ArmRequestHeaders c) as H; specialize (H ltac:(by left) eq_refl).
    by destruct (rt_Upstream r ≫= up_Address).
  - pose proof (Harm ArmRequestBody c) as H; specialize (H ltac:(by right) eq_refl).
    by destruct (rt_Upstream r ≫= up_Address).
Qed.

Lemma headerMutationFromOps_body ops body status clear phase dir :
  ∃ extra, cr_HeaderMutation (commonResponse ops body status clear phase dir)
           = Some (appendSet extra (headerMutationFromOps ops).1).
Proof.
  unfold commonResponse. destruct (headerMutationFromOps ops) as [[sets removes] routed].
  destruct status as [code|], body as [b|]; cbn [cr_HeaderMutation fst]; unfold appendSet;
    cbn [hm_SetHeaders hm_RemoveHeaders]; rewrite <-?app_assoc; eexists; try done.
  instantiate (1 := []). by rewrite app_nil_r.
Qed.

Lemma rendered_arm (arm : option CommonResponse → ResponseArm) ops body clear phase route :
  (arm = ArmRequestHeaders ∨ arm = ArmRequestBody) →
  let resp := if noMutation ops body && negb clear
              then applyRouteMutation (plainResponse (arm None)) route
              else applyRouteMutation
                     (plainResponse (arm (Some (commonResponse ops body None clear phase true))))
                     route in
  isImmediate resp = true
  ∨ lets_through resp = true ∧ renders ops resp
    ∧ ∀ a, routeUpstream route ≫= up_Address = Some a → pinned a resp.
Proof.
  intros Harm. cbv zeta.
  assert (∀ c, lets_through (plainResponse (arm c)) = true
               ∧ mutationOf (plainResponse (arm c)) = c ≫= cr_HeaderMutation) as Hc.
  { by destruct Harm as [H|H]; rewrite H. }
  destruct (noMutation ops body && negb clear).
  - destruct (applyRouteMutation_pins (plainResponse (arm None)) route eq_refl (proj1 (Hc _)))
      as [?|(H1 & H2 & H3)]; [by left|right]. split; [done|]. split; [|done].
    intros mut. rewrite H2, (proj2 (Hc _)). done.
  - set (c := commonResponse _ _ _ _ _ _).
    destruct (applyRouteMutation_pins (plainResponse (arm (Some c))) route eq_refl (proj1 (Hc _)))
      as [?|(H1 & H2 & H3)]; [by left|right]. split; [done|]. split; [|done].
    intros mut. rewrite H2, (proj2 (Hc _)). cbn [mbind option_bind].
    destruct (headerMutationFromOps_body ops body None clear phase true) as [extra He].
    unfold c. rewrite He. intros [= <-]. eauto.
Qed.

Definition response_pins (ops : list HeaderOp) (route : option RouteMutation)
    (resp : ProcessingResponse) : Prop :=
  isImmediate resp = true
  ∨ lets_through resp = true ∧ renders ops resp
    ∧ ∀ a, routeUpstream route ≫= up_Address = Some a → pinned a resp.

Lemma translateRequestHeadersResult_pins res :
  response_pins (rh_HeaderOps res) (rh_Route res) (translateRequestHeadersResult res).
Proof.
  unfold translateRequestHeadersResult, response_pins. destruct (decide _); [by left|].
  destruct (NeedsBody res).
  - destruct (applyRouteMutation_pins defaultPassThrough (rh_Route res) eq_refl eq_refl)
      as [?|(H1 & H2 & H3)]; [by left|right]. split; [done|]. split; [|done].
    intros mut. by rewrite H2.
  - by apply (rendered_arm ArmRequestHeaders); left.
Qed.

Lemma translateRequestBodyResult_pins res :
  response_pins (rb_HeaderOps res) (rb_Route res) (translateRequestBodyResult res).
Proof.
  unfold translateRequestBodyResult, response_pins. destruct (decide _); [by left|].
  by apply (rendered_arm ArmRequestBody); right.
Qed.

(** ** Approvals *)

Section approved.
Context (s : Server) (auth : RequestAuthorizer) (Hauth : sv_authorizeRequest s = Some auth).

(** What a call may ask for. *)
Context (asked : Subject → HTTPRequest → Prop).

Definition same_request (c c' : RequestContext) : Prop :=
  rc_Caller c = rc_Caller c' ∧ rc_Request c = rc_Request c'
  ∧ ps_DestinationAuthorizer (rc_Policies c) = ps_DestinationAuthorizer (rc_Policies c').

(** The context of a stream is that of a request that was asked for; an identified workload
    has the context that the resolver gave it, where the server has one. *)
Definition context_resolved (c : RequestContext) : Prop :=
  ∃ c0, asked (rc_Caller c0) (rc_Request c0) ∧
  match sv_resolveContext s with
  | Some resolve =>
      if Workload_HasIdentity (sj_Workload (rc_Caller c0))
      then ∃ w w' c1, resolve c0 w = (w', Ok c1) ∧ same_request c c1
      else same_request c c0
  | None => same_request c c0
  end.

(** The authorizer approved a stream with these operations; its target is on the route. *)
Definition approved (stream : Stream) (ops : list HeaderOp) (route : option RouteMutation)
    (target : option UpstreamTarget) : Prop :=
  ∃ route0 info w w' info',
    auth (effectiveStream stream ops route0) info w = (w', info', (target, None, None))
    ∧ sv_ctxErr s w' = None
    ∧ (∀ up, target = Some up → routeUpstream route = Some up)
    ∧ context_resolved (st_Context stream).

(** A response that lets a request through does so on an approval: of the stream as the
    operations it renders leave it, and with the approved target. *)
Definition response_approved (resp : ProcessingResponse) : Prop :=
  lets_through resp = true →
  ∃ stream ops route target,
    approved stream ops route target ∧ renders ops resp
    ∧ ∀ a, target ≫= up_Address = Some a → pinned a resp.

Lemma not_through resp : lets_through resp = false → response_approved resp.
Proof. unfold response_approved. by intros ->. Qed.

Lemma immediate_not_through resp : isImmediate resp = true → lets_through resp = false.
Proof. unfold isImmediate, lets_through. by destruct (pr_Response resp). Qed.

Lemma approved_response stream ops route target resp :
  approved stream ops route target → response_pins ops route resp → response_approved resp.
Proof.
  intros Ha [Hi|(Hl & Hr & Hp)]; [by apply not_through, immediate_not_through|].
  intros _. exists stream, ops, route, target. split; [done|]. split; [done|].
  intros a Ht. apply Hp. destruct Ha as (? & ? & ? & ? & ? & _ & _ & Hup & _).
  destruct target as [up|]; [|done]. by rewrite (Hup up eq_refl).
Qed.

Lemma response_approved_mode mode resp :
  response_approved resp → response_approved (with_ModeOverride mode resp).
Proof. done. Qed.

(** What a continuation of the request keeps. *)
Definition continuation_ok (prior : RequestHeadersResult) : Prop :=
  callbacks_in (rh_ResponseScope prior) (rh_bodyFilters prior)
  ∧ sc_bounded (rh_ResponseScope prior)
    = bool_decide (rh_Disposition prior = DispositionBypassed)
  ∧ rh_HeaderOps prior = fold (rh_pending prior)
  ∧ ∃ stream target, approved stream (rh_HeaderOps prior) (rh_Route prior) target.

Lemma effectiveStream_routing stream ops ops' route :
  List.filter routing ops = List.filter routing ops' →
  effectiveStream stream ops route = effectiveStream stream ops' route.
Proof.
  intros H. unfold effectiveStream. by rewrite (RequestAfterMutations_routing _ ops ops').
Qed.

(** A body phase that does not block stays with what was approved. *)
Lemma body_approved e st prior body r res r' :
  continuation_ok prior → NeedsBody prior = true →
  EvalRequestBody e st (Some prior) body r = (res, None, r') →
  rb_Disposition res ≠ DispositionBlocked →
  ∃ stream target, approved stream (rb_HeaderOps res) (rb_Route res) target.
Proof.
  intros (Hc & Hb & Hops & stream & target & Ha) Hn Hres Hd.
  destruct (EvalRequestBody_outcome _ _ _ _ _ _ _ Hc Hb Hn Hres) as [_ _ _ Hext _ _].
  destruct (Hext Hd) as (B & HB & Ho & _ & _ & Hr). exists stream, target.
  destruct Ha as (route0 & info & w & w' & info' & Hcall & Herr & Hup & Hcx).
  exists route0, info, w, w', info'. split_and!; [|done| |done].
  - rewrite <-Hcall. f_equal. apply effectiveStream_routing. rewrite Ho, Hops.
    by apply fold_routing.
  - intros up Ht. specialize (Hup up Ht). destruct (rh_Route prior); [|done].
    by rewrite Hr.
Qed.

(** The result of the headers phase after the authorization. *)
Lemma authorizeResult_approved state res w res' state' w' :
  authorizeResult s state res w = (res', state', w') →
  context_resolved (st_Context (ss_stream state)) →
  rh_Disposition res' ≠ DispositionBlocked →
  (∃ route, res' = with_Route route res) ∧
  ∃ target, approved (ss_stream state) (rh_HeaderOps res') (rh_Route res') target.
Proof.
  intros Hau Hcx. revert Hau.
  unfold authorizeResult. rewrite Hauth, bool_decide_eq_true_2 by done. simpl.
  case_bool_decide as Hd; [|intros [= <- <- <-] ?; by destruct Hd].
  destruct (authorize _ _ _ _ _ _) as [[w1 info1] [route reply]] eqn:Ha.
  destruct reply as [rep|]; intros [= <- <- <-] Hn; [done|].
  split; [by exists route|]. simpl. unfold authorize in Ha. rewrite Hauth in Ha.
  destruct (auth _ _ _) as [[w2 info2] [[target reply] err]] eqn:Hcall.
  destruct (first_error err (sv_ctxErr s w2)) as [e|] eqn:He; [by simplify_eq|].
  apply first_error_None in He as [-> He].
  destruct reply as [rep|]; [by destruct (decide _)|].
  exists target. exists (rh_Route res), (ss_info state), w, w2, info2. split; [done|].
  split_and!; [done| |done]. destruct target as [up|]; simplify_eq; [|done]. by intros ? [= <-].
Qed.

Definition state_ok (state : streamState) : Prop :=
  ∀ prior, ss_requestBodyContinuation state = Some prior → continuation_ok prior.

Lemma state_ok_infoOf state r : state_ok state → state_ok (infoOf state r).
Proof. unfold infoOf. by destruct (run_info r). Qed.

Lemma infoOf_stream state r : ss_stream (infoOf state r) = ss_stream state.
Proof. unfold infoOf. by destruct (run_info r). Qed.

Lemma state_ok_armFinalization d state : state_ok state → state_ok (armFinalization d state).
Proof.
  unfold armFinalization. destruct d; try done. by destruct (_ && _).
Qed.

(** What a handler leaves: approved responses and a continuation that is approved. *)
Definition handled_ok (x : Handled) : Prop :=
  let '(resps, err, state, w) := x in Forall response_approved resps ∧ state_ok state.

Lemma requestHeadersResponse_approved state res subscriptions bodyAvailable w :
  state_ok state → context_resolved (st_Context (ss_stream state)) →
  prior_ok (sv_eng s) res → rh_HeaderOps res = fold (rh_pending res) →
  handled_ok (requestHeadersResponse s state res subscriptions bodyAvailable w).
Proof.
  intros Hst Hcx Hpo Hops. unfold requestHeadersResponse.
  set (state0 := set_upstreamMutation _ state).
  pose proof (authorizeResult_control s state0 res w) as Hctl.
  destruct (authorizeResult s state0 res w) as [[res1 state1] w1] eqn:Hau. simpl in Hctl.
  pose proof (authorizeResult_approved _ _ _ _ _ _ Hau Hcx) as Hap.
  assert (state_ok state1) as Hst1.
  { intros prior Hp. apply Hst. injection Hctl as Hctl _ _ _ _. by rewrite <-Hp, Hctl. }
  assert (rh_Disposition res1 ≠ DispositionBlocked → continuation_ok res1) as Hcont.
  { intros Hd. destruct (Hap Hd) as [[route Hr] [target Ht]]. destruct Hpo as [_ _ Hsc Hby].
    split; [by rewrite Hr|]. split; [by rewrite Hr|]. split; [by rewrite Hr|]. by exists (ss_stream state0), target. }
  destruct (bodyAvailable && NeedsBody res1) eqn:Hb.
  - apply andb_true_iff in Hb as [_ Hb].
    assert (rh_Disposition res1 ≠ DispositionBlocked) as Hd1.
    { unfold NeedsBody in Hb. by apply andb_true_iff in Hb as [?%bool_decide_eq_true _]. }
    destruct (EvalRequestBody _ _ _ _ _) as [[br err] r] eqn:Hbody.
    pose proof (state_ok_infoOf state1 r Hst1) as Hst2.
    destruct err as [e|]; [by split; [constructor|]|].
    pose proof (translateRequestHeadersResult_pins (HeadersResult br)) as Hpin.
    destruct (decide (rh_Disposition (HeadersResult br) = DispositionBlocked)) as [Hd|Hd].
    { split; [|by apply state_ok_armFinalization].
      constructor; [|constructor]. apply not_through, immediate_not_through.
      unfold translateRequestHeadersResult. by rewrite decide_True. }
    destruct (body_approved _ _ _ _ _ _ _ (Hcont Hd1) Hb Hbody Hd) as (stream & target & Ha).
    unfold armObligations. assert (NeedsBody (HeadersResult br) = false) as ->.
    { unfold NeedsBody. simpl. apply andb_false_r. }
    split; [constructor; [|constructor]|by apply state_ok_armFinalization].
    pose proof (approved_response _ _ _ _ _ Ha Hpin). by destruct (false || _).
  - destruct (decide (rh_Disposition res1 = DispositionBlocked)) as [Hd|Hd].
    { split; [|by apply state_ok_armFinalization].
      constructor; [|constructor]. apply not_through, immediate_not_through.
      unfold translateRequestHeadersResult. by rewrite decide_True. }
    destruct (Hap Hd) as [_ [target Ha]]. unfold armObligations. split.
    + constructor; [|constructor].
      pose proof (approved_response _ _ _ _ _ Ha (translateRequestHeadersResult_pins res1)).
      by destruct (NeedsBody res1 || _).
    + apply state_ok_armFinalization. intros prior. simpl.
      destruct (NeedsBody res1); [|apply Hst1]. intros [= <-]. by apply Hcont.
Qed.

Lemma evaluateRequest_approved state units isConnect eos w :
  state_ok state → context_resolved (st_Context (ss_stream state)) →
  handled_ok (evaluateRequest s state units isConnect eos w).
Proof.
  intros Hst Hcx. unfold evaluateRequest. set (state1 := set_context _ state).
  assert (state_ok state1 ∧ context_resolved (st_Context (ss_stream state1))) as [Hst1 Hcx1] by done.
  clearbody state1.
  destruct (ValidateSubscriptions _ _) as [subs|]; [|by split; [constructor|]].
  destruct (EvalRequestHeaders _ _ _ _ _) as [[res err] r] eqn:He.
  destruct err as [e|]; [by split; [constructor|apply state_ok_infoOf]|].
  pose proof (EvalRequestHeaders_prior _ _ _ _ _ _ He) as Hpo.
  apply EvalRequestHeaders_walk in He as (_ & rw & _ & _ & Hres).
  pose proof (state_ok_infoOf state1 r Hst1) as Hst2.
  rewrite <-(infoOf_stream state1 r) in Hcx1.
  destruct (isConnect && NeedsBody res).
  2:{ apply requestHeadersResponse_approved; [done|done|done|by rewrite Hres]. }
  unfold requestHeadersResponse, authorizeResult.
  rewrite (bool_decide_eq_false_2 (rh_Disposition (with_Block _ _) ≠ _)) by (simpl; naive_solver).
  rewrite andb_false_r. assert (NeedsBody (with_Block connectRequestBodyUnsupportedReply res) = false)
    as -> by done.
  rewrite andb_false_r. split; [|by apply state_ok_armFinalization].
  constructor; [|constructor]. by apply not_through.
Qed.

(** The context a handler goes on with is a resolved one. *)
Lemma resolvePolicies_resolved state req w res state' w' :
  asked (rc_Caller (st_Context (ss_stream state))) (rc_Request (st_Context (ss_stream state))) →
  resolvePolicies s state req w = (None, res, state', w') →
  context_resolved (st_Context (ss_stream state')).
Proof.
  intros Hasked. unfold resolvePolicies.
  set (found := match sv_resolveContext s with Some _ => _ | None => _ end).
  assert (found.1.1 = None → context_resolved (st_Context (ss_stream found.1.2))) as Hcx.
  { unfold found. intros Hnone. exists (st_Context (ss_stream state)). split; [done|].
    destruct (sv_resolveContext s) as [resolve|]; [|done].
    destruct (Workload_HasIdentity _); [|done].
    destruct (resolve _ w) as [w1 [c1|e]] eqn:Hres; [|done]. by exists w, w1, c1. }
  destruct found as [[[e|] state1] w1]; [done|]. specialize (Hcx eq_refl).
  destruct (Subject_HasIdentity _); [|by intros [= _ <- _]].
  destruct (sv_resolve s _ _ _) as [w2 [res2 err]]. intros [= _ _ <- _].
  by destruct (re_StreamLogger res2).
Qed.

Lemma HandleRequestHeaders_approved headers attrs state w :
  asked (Extract headers attrs).1 (Extract headers attrs).2 → state_ok state →
  handled_ok (HandleRequestHeaders s headers attrs state w).
Proof.
  intros Hasked Hst. unfold HandleRequestHeaders.
  destruct (Extract headers attrs) as [caller req]. simpl in Hasked.
  set (state0 := markRequestSeen _).
  assert (state_ok state0 ∧ asked (rc_Caller (st_Context (ss_stream state0)))
    (rc_Request (st_Context (ss_stream state0)))) as [H0 Hasked0].
  { unfold state0, markRequestSeen. by destruct (ss_lifecycle _). }
  clearbody state0.
  assert (∀ resp err st w, isImmediate resp = true → state_ok st →
    handled_ok ([resp], err, st, w)) as Hdeny.
  { intros resp err st w1 Hi Hs. split; [|done]. constructor; [|constructor].
    by apply not_through, immediate_not_through. }
  destruct (ExtractUpstream attrs) as [target|e]; [|by apply Hdeny].
  set (state1 := set_stream _ state0).
  assert (state_ok state1 ∧ asked (rc_Caller (st_Context (ss_stream state1)))
    (rc_Request (st_Context (ss_stream state1)))) as [H1 Hasked1] by done. clearbody state1.
  destruct (negb _ && _); [by apply Hdeny|].
  pose proof (resolvePolicies_control s state1 req w) as H2.
  destruct (resolvePolicies s state1 req w) as [[[err res] state2] w2] eqn:Hrp.
  assert (state_ok state2) as Hst2.
  { intros prior Hp. apply H1. injection H2 as H2 _ _ _ _. by rewrite <-Hp, H2. }
  destruct err as [e|]; [by apply Hdeny|].
  apply resolvePolicies_resolved in Hrp; [|done].
  destruct (re_Units res) as [|u us]; [rewrite Hauth|]; by apply evaluateRequest_approved.
Qed.

Lemma HandleRequestBody_approved body state w :
  state_ok state → handled_ok (HandleRequestBody s body state w).
Proof.
  intros Hst. unfold HandleRequestBody. destruct (outstandingRequest state) as [prior|] eqn:Ho;
    [|by split; [constructor|]].
  destruct body as [body|]; [|by split; [constructor|]].
  unfold outstandingRequest in Ho. case_decide; [done|].
  destruct (ss_requestBodyContinuation state) as [prior'|] eqn:Hc; [|done].
  destruct (NeedsBody prior') eqn:Hn; [|done]. injection Ho as <-.
  set (state1 := set_obligations None _ _ state). assert (state_ok state1) as Hst1 by done.
  destruct (EvalRequestBody _ _ _ _ _) as [[res err] r] eqn:Hb.
  pose proof (state_ok_infoOf state1 r Hst1) as Hst2.
  destruct err as [e|]; [by split; [constructor|]|].
  split; [|by apply state_ok_armFinalization]. constructor; [|constructor].
  destruct (decide (rb_Disposition res = DispositionBlocked)) as [Hd|Hd].
  { apply not_through, immediate_not_through. unfold translateRequestBodyResult.
    by rewrite decide_True. }
  destruct (body_approved _ _ _ _ _ _ _ (Hst _ Hc) Hn Hb Hd) as (stream & target & Ha).
  exact (approved_response _ _ _ _ _ Ha (translateRequestBodyResult_pins res)).
Qed.

(** The responses of the response direction let no request through. *)
Lemma response_handlers_approved m state w x :
  state_ok state → handle s m state w = Some x →
  match m with ReqRequestHeaders _ _ | ReqRequestBody _ => False | _ => True end →
  handled_ok x.
Proof.
  intros Hst Hh Hm. destruct m as [h attrs|b| |h|b| |]; simpl in Hh; try done;
    injection Hh as <-.
  - split; [|done]. constructor; [by apply not_through|constructor].
  - pose proof (HandleResponseHeaders_control s (Some h) state w) as Hc.
    destruct (HandleResponseHeaders s (Some h) state w) as [[[resps err] state'] w'] eqn:He.
    destruct Hc as (_ & Hr & _). split; [|intros prior Hp; apply Hst; exact (eq_trans (eq_sym Hr) Hp)].
    unfold HandleResponseHeaders, evaluateResponse in He.
    destruct (decide _); [by simplify_eq|]. destruct h as [[hs|] eos]; [|by simplify_eq].
    destruct (decide _); [simplify_eq; constructor; [by apply not_through|constructor]|].
    destruct (EvalResponseHeaders _ _ _ _ _ _) as [[res [e|]] r]; [by simplify_eq|].
    match type of He with context [if ?b then with_ResponseBlock ?rep res else res] =>
      revert He; generalize (if b then with_ResponseBlock rep res else res) end.
    intros res1 He.
    assert (lets_through (translateResponseHeadersResult res1) = false) as Hl.
    { clear. unfold translateResponseHeadersResult. destruct (decide _); [done|]. by destruct (_ && _). }
    destruct (_ && _); simplify_eq; (constructor; [apply not_through; exact Hl|constructor]).
  - pose proof (HandleResponseBody_control s (Some b) state w) as Hc.
    destruct (HandleResponseBody s (Some b) state w) as [[[resps err] state'] w'] eqn:He.
    destruct Hc as (_ & Hr & _). split; [|intros prior Hp; apply Hst; exact (eq_trans (eq_sym Hr) Hp)].
    unfold HandleResponseBody in He. destruct (outstandingResponse state) as [prior|]; [|by simplify_eq].
    destruct (EvalResponseBody _ _ _ _ _) as [[res [e|]] r]; simplify_eq; [constructor|].
    constructor; [|constructor]. apply not_through.
    unfold translateResponseBodyResult. destruct (decide _); [done|]. by destruct (_ && _).
  - split; [|done]. constructor; [by apply not_through|constructor].
Qed.

(** The requests that a message asks for. *)
Definition asks (m : ProcessingRequest) : Prop :=
  match m with
  | ReqRequestHeaders h attrs => asked (Extract (Some h) attrs).1 (Extract (Some h) attrs).2
  | _ => True
  end.

Lemma handle_approved m state w x :
  asks m → state_ok state → handle s m state w = Some x → handled_ok x.
Proof.
  intros Hm Hst Hh. destruct m; try (by eapply response_handlers_approved);
    simpl in Hh; injection Hh as <-;
    [by apply HandleRequestHeaders_approved|by apply HandleRequestBody_approved].
Qed.

(** ** The whole call *)

Definition call_ok (c : Call) : Prop :=
  Forall response_approved (ca_sent c) ∧ state_ok (ca_state c).

Lemma sendAll_approved observed send n resps c :
  Forall response_approved resps → call_ok c →
  call_ok (sendAll observed send n resps c).1.
Proof.
  intros H. revert n c. induction H as [|r resps Hr _ IH]; intros n c Hc; simpl; [done|].
  destruct (send n); [done|]. apply IH. destruct Hc as [Hs Hst].
  split; [by apply Forall_app; split; [|constructor]|]. by destruct observed.
Qed.

Lemma finishStream_approved err c : call_ok c → call_ok (finishStream s err c).
Proof. unfold finishStream. by destruct (ss_lifecycle (ca_state c)). Qed.

Lemma turn_approved t c :
  (∀ m, tn_recv t = RecvMessage m → asks m) → call_ok c → call_ok (turn s t c).1.
Proof.
  intros Hm Hc. unfold turn. destruct (tn_done t); [done|]. destruct (tn_recv t) as [m| | |e].
  - destruct (handle s m _ _) as [[[[resps err] state'] w']|] eqn:Hh; [|done].
    apply handle_approved in Hh as [Hr Hs]; [|by apply Hm|apply Hc].
    set (c1 := {| ca_state := state'; ca_world := w'; ca_sent := ca_sent c;
                  ca_logged := ca_logged c |}).
    assert (call_ok c1) as Hc1 by (split; [apply Hc|done]).
    destruct err as [e|]; [by apply sendAll_approved|].
    pose proof (sendAll_approved true (tn_send t) 0 resps c1 Hr Hc1) as Hc2.
    destruct (sendAll _ _ _ _ _) as [c2 [e|]]; [done|]. unfold finishAfterSend. simpl.
    destruct (ss_lifecycle (ca_state c2)); try done. by apply finishStream_approved.
  - destruct (awaitingInput _); [done|]. by apply finishStream_approved.
  - by apply finishStream_approved.
  - done.
Qed.

Lemma Process_from_approved turns c :
  Forall (λ t, ∀ m, tn_recv t = RecvMessage m → asks m) turns →
  call_ok c → call_ok (Process_from s turns c).1.
Proof.
  intros Hall. revert c. induction Hall as [|t turns Hm _ IH]; intros c Hc; simpl; [done|].
  pose proof (turn_approved t c Hm Hc) as Ht. destruct (turn s t c) as [c1 [err|]]; simpl in *;
    [by apply finishStream_approved|by apply IH].
Qed.

End approved.

(** The callers and requests in the request headers that a call receives. *)
Definition askedIn (turns : list Turn) (caller : Subject) (req : HTTPRequest) : Prop :=
  ∃ t h attrs, t ∈ turns ∧ tn_recv t = RecvMessage (ReqRequestHeaders h attrs)
    ∧ Extract (Some h) attrs = (caller, req).

Lemma askedIn_asks turns :
  Forall (λ t, ∀ m, tn_recv t = RecvMessage m → asks (askedIn turns) m) turns.
Proof.
  apply Forall_forall. intros t Ht m Hm. destruct m as [h attrs| | | | | |]; try done.
  exists t, h, attrs. by rewrite <-surjective_pairing.
Qed.

Lemma Process_approved s auth turns w :
  sv_authorizeRequest s = Some auth →
  Forall (response_approved s auth (askedIn turns)) (ca_sent (Process s turns w).1).
Proof.
  intros Ha. apply Process_from_approved; [done|apply askedIn_asks|by split; [constructor|]].
Qed.

(** C9: with a request authorizer, every response of a call that lets a request through,
    in the headers phase or in the body phase and for any sequence of messages, follows an
    answer of the authorizer without a denial, an error or a dead context. What was approved
    is the caller and the request of a message of the call, the caller with what the server's
    resolver of contexts says of it and the request as the header operations of that very
    response leave it. A target in the answer is the upstream address of the response. *)
Theorem sent_requests_approved s auth turns w :
  sv_authorizeRequest s = Some auth →
  Forall (response_approved s auth (askedIn turns)) (ca_sent (Process s turns w).1).
Proof. apply Process_approved. Qed.

End authorization.
