(* ===== verification/EngineStore.v ===== *)
(** * The resources of a policy engine

    src/extensions/epe/pkg/store: immutable snapshots of resource types, the aggregate of
    several sources that publishes them with their query indexes, and the source over a delta
    client (store/xds). Snapshots and values are shared, and unchanged ones are told by
    their pointers: the class [ObjectIdentity] has a test that never takes different objects for
    the same one. *)

From S2P Require Import Prelude.

(** ** Identity of shared objects *)

(** The comparison of pointers to immutable objects. *)
Class ObjectIdentity (A : Type) := {
  same : A → A → bool;
  same_eq a b : same a b = true → a = b
}.

(** Slices of pointers: [slices.Equal]. *)
Fixpoint sameAll {A} `{ObjectIdentity A} (l1 l2 : list A) : bool :=
  match l1, l2 with
  | [], [] => true
  | a :: l1, b :: l2 => same a b && sameAll l1 l2
  | _, _ => false
  end.

Lemma sameAll_eq {A} `{ObjectIdentity A} (l1 l2 : list A) : sameAll l1 l2 = true → l1 = l2.
Proof.
  revert l2. induction l1 as [|a l1 IH]; intros [|b l2]; simpl; [done..|].
  by intros [->%same_eq ->%IH]%andb_true_iff.
Qed.

(** ** Resources: store.go and snapshot.go *)

Inductive Key := WorkloadKey (name : string) | PolicyKey (name : string).

#[export] Instance Key_eq_dec : EqDecision Key.
Proof. solve_decision. Defined.

(** A resource of a type whose values are [V]. *)
Record Resource (V : Type) := { res_Name : string; res_Value : V }.
Arguments res_Name {V} _.
Arguments res_Value {V} _.
Arguments Build_Resource {V} _ _.

(** A value and an error, of which a caller looks at the error first. *)
Abbreviation answer A := (option A * option string)%type.

(** ** Snapshots of a type: type_snapshot.go *)

Record DefaultSnapshot (V : Type) := {
  ds_resources : gmap string (Resource V);
  ds_list : list (Resource V);
  ds_err : option string
}.
Arguments ds_resources {V} _.
Arguments ds_list {V} _.
Arguments ds_err {V} _.
Arguments Build_DefaultSnapshot {V} _ _ _.

Section snapshots.
Context {V : Type} (equalValue : V → V → bool).
Implicit Types (d : DefaultSnapshot V) (r : Resource V).

Definition snapshotGet d (name : string) : answer (Resource V) :=
  match ds_resources d !! name with
  | Some r => (Some r, None)
  | None => (None, ds_err d)
  end.

Definition snapshotList d : list (Resource V) * option string := (ds_list d, ds_err d).

(** [buildList]: the values of the map, in the order of their names. *)
Definition buildList (resources : gmap string (Resource V)) : list (Resource V) :=
  sort_on res_Name ((map_to_list resources).*2).

(** One resource of [buildDefaultSnapshot]: the map, and whether all so far are those of
    the previous snapshot. *)
Definition defaultStep (previous : option (DefaultSnapshot V))
    (acc : gmap string (Resource V) * bool) r : gmap string (Resource V) * bool :=
  let '(resources, unchanged) := acc in
  match previous with
  | None => (<[res_Name r := r]> resources, unchanged)
  | Some p =>
      match ds_resources p !! res_Name r with
      | Some old =>
          if equalValue (res_Value old) (res_Value r)
          then (<[res_Name r := old]> resources, unchanged)
          else (<[res_Name r := r]> resources, false)
      | None => (<[res_Name r := r]> resources, false)
      end
  end.

Definition buildDefaultSnapshot (resources : list (Resource V)) (err : option string)
    (previous : option (DefaultSnapshot V)) : DefaultSnapshot V :=
  let unchanged :=
    match previous with
    | Some p => bool_decide (err = None ∧ ds_err p = None ∧ length resources = size (ds_resources p))
    | None => false
    end in
  let '(m, unchanged) := foldl (defaultStep previous) (∅, unchanged) resources in
  match previous with
  | Some p => if unchanged then p
              else {| ds_resources := m; ds_list := buildList m; ds_err := err |}
  | None => {| ds_resources := m; ds_list := buildList m; ds_err := err |}
  end.

Definition NewDefaultSnapshot (resources : list (Resource V)) (err : option string)
    : DefaultSnapshot V :=
  buildDefaultSnapshot resources err None.

(** The loop of [WithChanges] over its upserts: the map and the added names. *)
Definition upsertStep d (acc : gmap string (Resource V) * list string) r
    : gmap string (Resource V) * list string :=
  let '(next, added) := acc in
  (<[res_Name r := r]> next,
   if bool_decide (next !! res_Name r = None ∧ ds_resources d !! res_Name r = None)
   then added ++ [res_Name r] else added).

(** The added names that come before a name, and the others. *)
Fixpoint takeBefore (name : string) (added : list string) : list string * list string :=
  match added with
  | [] => ([], [])
  | a :: rest =>
      if decide (slt a name)
      then let '(before, after) := takeBefore name rest in (a :: before, after)
      else ([], added)
  end.

(** The merge of the added names into the old list. *)
Fixpoint mergeList (next : gmap string (Resource V)) (added : list string)
    (old : list (Resource V)) : list (Resource V) :=
  match old with
  | [] => omap (λ name, next !! name) added
  | r :: old =>
      let '(before, after) := takeBefore (res_Name r) added in
      omap (λ name, next !! name) before ++ option_list (next !! res_Name r)
      ++ mergeList next after old
  end.

Definition WithChanges d (upserts : list (Resource V)) (removed : list string)
    : DefaultSnapshot V :=
  match upserts, removed with
  | [], [] => d
  | _, _ =>
      let start := foldl (λ m name, delete name m) (ds_resources d) removed in
      let '(next, added) := foldl (upsertStep d) (start, []) upserts in
      {| ds_resources := next; ds_list := mergeList next (sort_strings added) (ds_list d);
         ds_err := ds_err d |}
  end.

(** [mergedTypeSnapshot]: the first source that answers. *)
Fixpoint mergedGet (sources : list (DefaultSnapshot V)) (name : string)
    : answer (Resource V) :=
  match sources with
  | [] => (None, None)
  | source :: sources =>
      match snapshotGet source name with
      | (None, None) => mergedGet sources name
      | found => found
      end
  end.

(** The resources of a source that no earlier one has. *)
Fixpoint unseen (seen : gset string) (l : list (Resource V))
    : list (Resource V) * gset string :=
  match l with
  | [] => ([], seen)
  | r :: l =>
      if decide (res_Name r ∈ seen) then unseen seen l
      else let '(out, seen) := unseen ({[res_Name r]} ∪ seen) l in (r :: out, seen)
  end.

Fixpoint mergedList (seen : gset string) (sources : list (DefaultSnapshot V))
    : list (Resource V) * option string :=
  match sources with
  | [] => ([], None)
  | source :: sources =>
      let '(out, seen) := unseen seen (ds_list source) in
      match ds_err source with
      | Some e => (out, Some e)
      | None => let '(rest, err) := mergedList seen sources in (out ++ rest, err)
      end
  end.

(** [materializeType]: a single source is taken as it is. *)
Definition materializeType (sources : list (DefaultSnapshot V))
    (previous : option (DefaultSnapshot V)) : DefaultSnapshot V :=
  match sources with
  | [source] => source
  | _ => let '(resources, err) := mergedList ∅ sources in
         buildDefaultSnapshot resources err previous
  end.

(** ** Well-formed snapshots *)

(** The resources are stored under their names, and the list has them in order. *)
Record snapshot_ok d : Prop := {
  ok_name name r : ds_resources d !! name = Some r → res_Name r = name;
  ok_sorted : ssorted (res_Name <$> ds_list d);
  ok_list r : r ∈ ds_list d ↔ ds_resources d !! res_Name r = Some r
}.

Definition named (m : gmap string (Resource V)) : Prop :=
  ∀ name r, m !! name = Some r → res_Name r = name.

Lemma named_insert m r : named m → named (<[res_Name r := r]> m).
Proof. intros Hm name x [[<- <-]|[_ Hx]]%lookup_insert_Some; [done|]. by apply Hm. Qed.

Lemma NoDup_named m : named m → NoDup (res_Name <$> (map_to_list m).*2).
Proof.
  intros Hm. rewrite <-list_fmap_compose.
  rewrite (list_fmap_ext (res_Name ∘ snd) fst); [apply NoDup_fst_map_to_list|].
  intros i [name r] Hi. simpl. apply Hm, elem_of_map_to_list, list_elem_of_lookup. eauto.
Qed.

Lemma buildList_ok m err :
  named m → snapshot_ok {| ds_resources := m; ds_list := buildList m; ds_err := err |}.
Proof.
  intros Hm. split; simpl; [done|by apply sort_on_ssorted, NoDup_named|].
  intros r. unfold buildList. rewrite elem_of_sort_on, list_elem_of_fmap. split.
  - intros ([name x] & -> & Hx%elem_of_map_to_list). simpl. by rewrite (Hm _ _ Hx).
  - intros Hr. exists (res_Name r, r). by rewrite elem_of_map_to_list.
Qed.

(** A snapshot is determined by its map and its error. *)
Lemma snapshot_unique d1 d2 :
  snapshot_ok d1 → snapshot_ok d2 →
  ds_resources d1 = ds_resources d2 → ds_err d1 = ds_err d2 → d1 = d2.
Proof.
  intros H1 H2. destruct d1 as [m l1 e], d2 as [m2 l2 e2]. simpl. intros <- <-. f_equal.
  apply (ssorted_on_ext res_Name); [apply H1|apply H2|].
  intros r. by rewrite (ok_list _ H1), (ok_list _ H2).
Qed.

(** *** Snapshots built from a list *)

Definition inserts (m : gmap string (Resource V)) (resources : list (Resource V))
    : gmap string (Resource V) :=
  foldl (λ m r, <[res_Name r := r]> m) m resources.

Definition tabulate (resources : list (Resource V)) : gmap string (Resource V) :=
  inserts ∅ resources.

Lemma inserts_named resources m : named m → named (inserts m resources).
Proof.
  revert m. induction resources as [|r l IH]; intros m Hm; [done|].
  simpl. by apply IH, named_insert.
Qed.

Lemma tabulate_named resources : named (tabulate resources).
Proof. apply inserts_named. by intros ??. Qed.

Lemma inserts_lookup resources m name :
  NoDup (res_Name <$> resources) →
  inserts m resources !! name
  = match list_find (λ r, res_Name r = name) resources with
    | Some (_, r) => Some r
    | None => m !! name
    end.
Proof.
  revert m. induction resources as [|r l IH]; intros m; [done|].
  rewrite fmap_cons, NoDup_cons. intros [Hn Hnd]. simpl. rewrite IH by done.
  destruct (decide (res_Name r = name)) as [<-|Hne].
  - destruct (list_find _ l) as [[i x]|] eqn:Hf; [|by rewrite lookup_insert_eq].
    apply list_find_Some in Hf as (Hi & Hx & _). destruct Hn.
    rewrite <-Hx. apply list_elem_of_fmap_2, list_elem_of_lookup. eauto.
  - destruct (list_find _ l) as [[i x]|]; [done|]. by rewrite lookup_insert_ne.
Qed.

Lemma inserts_out resources m name :
  name ∉ res_Name <$> resources → inserts m resources !! name = m !! name.
Proof.
  revert m. induction resources as [|r l IH]; intros m; [done|].
  rewrite fmap_cons, not_elem_of_cons. intros [Hn Hl]. simpl. rewrite IH by done.
  by rewrite lookup_insert_ne.
Qed.

Lemma inserts_in resources m r :
  NoDup (res_Name <$> resources) → r ∈ resources → inserts m resources !! res_Name r = Some r.
Proof.
  revert m. induction resources as [|x l IH]; intros m; [by intros _ ?%elem_of_nil|].
  rewrite fmap_cons, NoDup_cons. intros [Hn Hnd] [->|Hr]%elem_of_cons; simpl; [|by apply IH].
  rewrite inserts_out by done. apply lookup_insert_eq.
Qed.

Definition fullSnapshot (resources : list (Resource V)) (err : option string)
    : DefaultSnapshot V :=
  {| ds_resources := tabulate resources; ds_list := buildList (tabulate resources);
     ds_err := err |}.

Lemma fullSnapshot_ok resources err : snapshot_ok (fullSnapshot resources err).
Proof. apply buildList_ok, tabulate_named. Qed.

Hypothesis equalValue_eq : ∀ a b, equalValue a b = true → a = b.

Lemma defaultStep_spec previous resources m b m' b' :
  (∀ p, previous = Some p → snapshot_ok p) →
  foldl (defaultStep previous) (m, b) resources = (m', b') →
  m' = inserts m resources
  ∧ (b' = true → b = true
     ∧ ∀ p r, previous = Some p → r ∈ resources → ds_resources p !! res_Name r = Some r).
Proof.
  intros Hp. revert m b. induction resources as [|r l IH]; intros m b; cbn [foldl].
  { intros [= <- <-]. split; [done|]. intros ->. split; [done|]. by intros ?? _ ?%elem_of_nil. }
  assert (defaultStep previous (m, b) r = (<[res_Name r := r]> m, false)
    ∨ defaultStep previous (m, b) r = (<[res_Name r := r]> m, b)
      ∧ ∀ p, previous = Some p → ds_resources p !! res_Name r = Some r) as Hstep.
  { unfold defaultStep. destruct previous as [p|]; [|by right].
    destruct (ds_resources p !! res_Name r) as [old|] eqn:Ho; [|by left].
    destruct (equalValue _ _) eqn:He; [|by left]. apply equalValue_eq in He.
    pose proof (ok_name _ (Hp _ eq_refl) _ _ Ho) as Hn.
    assert (old = r) as -> by (destruct old, r; simpl in *; congruence).
    right. split; [done|]. by intros ? [= <-]. }
  destruct Hstep as [->|[-> Hr]]; intros [Hm Hb]%IH; (split; [done|]); intros Ht;
    destruct (Hb Ht) as [H1 H2]; [done|].
  split; [done|]. intros p x Hpx [->|Hx]%elem_of_cons; eauto.
Qed.

Lemma inserts_size resources m :
  (∀ r, r ∈ resources → m !! res_Name r = None) → NoDup (res_Name <$> resources) →
  size (inserts m resources) = size m + length resources.
Proof.
  revert m. induction resources as [|r l IH]; intros m Hm; simpl; [intros _; lia|].
  rewrite NoDup_cons. intros [Hn Hnd]. rewrite IH; [|intros x Hx|done].
  - rewrite map_size_insert_None by (apply Hm; left). lia.
  - rewrite lookup_insert_ne; [apply Hm; by right|]. intros He. apply Hn. rewrite He.
    by apply list_elem_of_fmap_2.
Qed.

Lemma tabulate_lookup resources name r :
  NoDup (res_Name <$> resources) →
  tabulate resources !! name = Some r ↔ r ∈ resources ∧ res_Name r = name.
Proof.
  intros Hnd. unfold tabulate. rewrite inserts_lookup, lookup_empty by done. split.
  - destruct (list_find _ _) as [[i x]|] eqn:Hf; [|done]. intros [= <-].
    apply list_find_Some in Hf as (Hi & Hx & _). split; [|done]. apply list_elem_of_lookup. eauto.
  - intros [Hr <-]. destruct (list_find _ _) as [[i x]|] eqn:Hf.
    + apply list_find_Some in Hf as (Hi & Hx & _). apply list_elem_of_lookup in Hr as [j Hj].
      f_equal. assert (i = j) as ->; [|congruence].
      eapply (NoDup_lookup (res_Name <$> resources)); [done|by rewrite list_lookup_fmap, Hi|].
      rewrite list_lookup_fmap, Hj. simpl. by rewrite Hx.
    + apply list_find_None in Hf. rewrite Forall_forall in Hf. by destruct (Hf r Hr).
Qed.

(** Reusing a previous snapshot does not change what is built. *)
Lemma buildDefaultSnapshot_spec resources err previous :
  (∀ p, previous = Some p → snapshot_ok p) → NoDup (res_Name <$> resources) →
  buildDefaultSnapshot resources err previous = fullSnapshot resources err.
Proof.
  intros Hp Hnd. unfold buildDefaultSnapshot.
  destruct (foldl _ _ _) as [m b] eqn:Hf. apply defaultStep_spec in Hf as [-> Hb]; [|done].
  destruct previous as [p|]; [|done]. destruct b; [|done].
  destruct (Hb eq_refl) as [(He & Hpe & Hlen)%bool_decide_eq_true Hall].
  apply snapshot_unique; [by apply Hp|apply fullSnapshot_ok| |by rewrite Hpe, He].
  simpl. symmetry. apply map_subseteq_size_eq.
  - apply map_subseteq_spec. intros name r [Hr <-]%tabulate_lookup; [|done]. by apply Hall.
  - rewrite <-Hlen. unfold tabulate. rewrite inserts_size, map_size_empty; [done| |done].
    intros. by rewrite lookup_empty.
Qed.

(** *** Changes of a snapshot *)

Lemma in_option_list {A} (x : A) (o : option A) : x ∈ option_list o ↔ o = Some x.
Proof.
  destruct o as [y|]; simpl; [rewrite list_elem_of_singleton|rewrite elem_of_nil]; naive_solver.
Qed.

Lemma upsertStep_spec d upserts next added :
  NoDup added → (∀ n, n ∈ added → next !! n ≠ None) →
  ∃ added', foldl (upsertStep d) (next, added) upserts = (inserts next upserts, added')
    ∧ NoDup added'
    ∧ ∀ n, n ∈ added' ↔
        n ∈ added ∨ n ∈ res_Name <$> upserts ∧ next !! n = None ∧ ds_resources d !! n = None.
Proof.
  revert next added. induction upserts as [|r l IH]; intros next added Hnd Hin; cbn [foldl].
  { exists added. split; [done|]. split; [done|]. intros n. rewrite fmap_nil, elem_of_nil.
    naive_solver. }
  change (upsertStep d (next, added) r) with
    (<[res_Name r := r]> next,
     if bool_decide (next !! res_Name r = None ∧ ds_resources d !! res_Name r = None)
     then added ++ [res_Name r] else added).
  case_bool_decide as Hnew.
  - destruct Hnew as [Hn Hd].
    destruct (IH (<[res_Name r := r]> next) (added ++ [res_Name r])) as (a & Hf & Ha & Hspec).
    + apply NoDup_app. split; [done|]. split; [|apply NoDup_singleton].
      intros n Hna ->%list_elem_of_singleton. by destruct (Hin _ Hna).
    + intros n [Hna| ->%list_elem_of_singleton]%elem_of_app; [|by rewrite lookup_insert_eq].
      destruct (decide (n = res_Name r)) as [->|Hne]; [by rewrite lookup_insert_eq|].
      rewrite lookup_insert_ne by done. by apply Hin.
    + exists a. split; [done|]. split; [done|]. intros n.
      rewrite Hspec, elem_of_app, list_elem_of_singleton, fmap_cons, elem_of_cons.
      destruct (decide (n = res_Name r)) as [->|Hne]; [naive_solver|].
      rewrite lookup_insert_ne by done. naive_solver.
  - destruct (IH (<[res_Name r := r]> next) added Hnd) as (a & Hf & Ha & Hspec).
    + intros n Hna. destruct (decide (n = res_Name r)) as [->|Hne]; [by rewrite lookup_insert_eq|].
      rewrite lookup_insert_ne by done. by apply Hin.
    + exists a. split; [done|]. split; [done|]. intros n. rewrite Hspec, fmap_cons, elem_of_cons.
      destruct (decide (n = res_Name r)) as [->|Hne]; [|by rewrite lookup_insert_ne; naive_solver].
      rewrite lookup_insert_eq. naive_solver.
Qed.

Lemma takeBefore_spec name added :
  ssorted added →
  let '(before, after) := takeBefore name added in
  added = before ++ after ∧ (∀ n, n ∈ before → slt n name)
  ∧ (∀ n, n ∈ after → ¬ slt n name).
Proof.
  induction added as [|a l IH]; simpl.
  { intros _. split; [done|]. by split; intros ? ?%elem_of_nil. }
  intros [Ha Hl]%StronglySorted_cons. destruct (decide (slt a name)) as [Hs|Hs].
  - destruct (takeBefore name l) as [before after]. destruct (IH Hl) as (-> & Hb & Haf).
    split; [done|]. split; [|done]. intros n [->|Hn]%elem_of_cons; auto.
  - split; [done|]. split; [by intros ? ?%elem_of_nil|]. intros n [->|Hn]%elem_of_cons; [done|].
    rewrite Forall_forall in Ha. intros Hn'. apply Hs. trans n; auto.
Qed.

Lemma omap_names (next : gmap string (Resource V)) (added : list string) :
  named next → (∀ n, n ∈ added → next !! n ≠ None) →
  res_Name <$> omap (λ name, next !! name) added = added.
Proof.
  intros Hn. induction added as [|a l IH]; intros Ha; [done|]. simpl.
  destruct (next !! a) as [r|] eqn:Hr; [|by destruct (Ha a ltac:(left))].
  rewrite fmap_cons, (Hn _ _ Hr). f_equal. apply IH. intros n Hin. apply Ha. by right.
Qed.

Lemma omap_elem (next : gmap string (Resource V)) (added : list string) r :
  named next →
  r ∈ omap (λ name, next !! name) added ↔ next !! res_Name r = Some r ∧ res_Name r ∈ added.
Proof.
  intros Hnext. rewrite list_elem_of_omap. split.
  - intros (n & Hn & Hr). by rewrite (Hnext _ _ Hr).
  - intros [Hr Hn]. by exists (res_Name r).
Qed.

Lemma mergeList_spec next added old :
  named next → ssorted added → ssorted (res_Name <$> old) →
  (∀ n, n ∈ added → next !! n ≠ None ∧ n ∉ res_Name <$> old) →
  ssorted (res_Name <$> mergeList next added old)
  ∧ ∀ r, r ∈ mergeList next added old ↔
      next !! res_Name r = Some r ∧ (res_Name r ∈ added ∨ res_Name r ∈ res_Name <$> old).
Proof.
  intros Hnext. revert added. induction old as [|x old IH]; intros added Hadd Hold Ha.
  { simpl. rewrite omap_names by naive_solver. split; [done|]. intros r.
    rewrite omap_elem, elem_of_nil by done. naive_solver. }
  cbn [mergeList]. pose proof (takeBefore_spec (res_Name x) added Hadd) as Htb.
  destruct (takeBefore (res_Name x) added) as [before after].
  destruct Htb as (-> & Hb & Haf).
  rewrite fmap_cons in Hold. apply StronglySorted_cons in Hold as [Hx Hold].
  rewrite Forall_forall in Hx. apply StronglySorted_app in Hadd as (Hba & Hsb & Hsa).
  destruct (IH after Hsa Hold) as [Hsorted Hin].
  { intros n Hn. destruct (Ha n) as [Hn1 Hn2]; [apply elem_of_app; by right|].
    split; [done|]. rewrite fmap_cons, elem_of_cons in Hn2. naive_solver. }
  assert (∀ n, n ∈ res_Name <$> mergeList next after old → slt (res_Name x) n) as Hafter.
  { intros n (r & -> & [_ [Hr|Hr]]%Hin)%list_elem_of_fmap; [|by apply Hx].
    destruct (slt_trichotomy (res_Name x) (res_Name r)) as [?|[He|Hs]]; [done| |].
    - destruct (Ha (res_Name r)) as [_ Hn2]; [apply elem_of_app; by right|].
      destruct Hn2. rewrite fmap_cons, He. left.
    - by destruct (Haf _ Hr). }
  assert (res_Name <$> option_list (next !! res_Name x) = []
    ∨ res_Name <$> option_list (next !! res_Name x) = [res_Name x]) as Hmid.
  { destruct (next !! res_Name x) as [r|] eqn:Hr; [|by left]. right. simpl.
    by rewrite (Hnext _ _ Hr). }
  split.
  - rewrite !fmap_app, omap_names; [|done|].
    + apply StronglySorted_app_2; [|done|].
      * intros n m Hn [Hm|Hm]%elem_of_app; [|trans (res_Name x); auto].
        destruct Hmid as [Hm'|Hm']; rewrite Hm' in Hm; [by apply elem_of_nil in Hm|].
        apply list_elem_of_singleton in Hm as ->. auto.
      * apply StronglySorted_app_2; [|destruct Hmid as [->| ->]; repeat constructor|done].
        intros n m Hn Hm. destruct Hmid as [Hm'|Hm']; rewrite Hm' in Hn;
          [by apply elem_of_nil in Hn|]. apply list_elem_of_singleton in Hn as ->. auto.
    + intros n Hn. apply Ha, elem_of_app. by left.
  - intros r. rewrite !elem_of_app, omap_elem, Hin, in_option_list, fmap_cons, elem_of_cons
      by done. split.
    + intros [[? ?]|[Hr|[? ?]]]; [naive_solver| |naive_solver].
      pose proof (Hnext _ _ Hr) as He. rewrite He. naive_solver.
    + intros [Hr [[?|?]|[He|?]]]; [naive_solver..| |naive_solver]. rewrite <-He. naive_solver.
Qed.

Lemma deletes_lookup (m : gmap string (Resource V)) (removed : list string) name :
  foldl (λ m name, delete name m) m removed !! name
  = if decide (name ∈ removed) then None else m !! name.
Proof.
  revert m. induction removed as [|x l IH]; intros m; cbn [foldl].
  { destruct (decide (name ∈ [])) as [H|]; [by apply elem_of_nil in H|done]. }
  rewrite IH. destruct (decide (name ∈ l)) as [Hl|Hl].
  { rewrite decide_True; [done|]. by right. }
  destruct (decide (name = x)) as [->|Hne].
  - rewrite lookup_delete_eq, decide_True; [done|]. left.
  - rewrite lookup_delete_ne, decide_False; [done| |done]. rewrite elem_of_cons. naive_solver.
Qed.

Lemma inserts_None resources m n :
  inserts m resources !! n = None ↔ m !! n = None ∧ n ∉ res_Name <$> resources.
Proof.
  revert m. induction resources as [|r l IH]; intros m.
  { rewrite fmap_nil, elem_of_nil. simpl. naive_solver. }
  cbn [inserts foldl]. fold (inserts (<[res_Name r := r]> m) l).
  rewrite IH, fmap_cons, elem_of_cons, lookup_insert_None. naive_solver.
Qed.

(** The changed snapshot has the changed resources, in the order of their names. *)
Lemma WithChanges_spec d upserts removed :
  snapshot_ok d →
  let d' := WithChanges d upserts removed in
  snapshot_ok d' ∧ ds_err d' = ds_err d
  ∧ ds_resources d'
    = inserts (foldl (λ m name, delete name m) (ds_resources d) removed) upserts.
Proof.
  intros Hd. unfold WithChanges.
  set (start := foldl (λ m name, delete name m) (ds_resources d) removed).
  destruct (upsertStep_spec d upserts start []) as (added & Hf & Hnd & Hadd);
    [constructor|by intros ? ?%elem_of_nil|].
  assert (named start) as Hstart.
  { intros name r. unfold start. rewrite deletes_lookup. destruct (decide _); [done|].
    apply (ok_name _ Hd). }
  assert (named (inserts start upserts)) as Hnamed by by apply inserts_named.
  destruct (mergeList_spec (inserts start upserts) (sort_strings added) (ds_list d))
    as [Hsorted Hin]; [done| |apply Hd| |].
  { apply sorted_NoDup_ssorted; [apply isort_sorted; apply _|by apply NoDup_isort]. }
  { intros n Hn. apply elem_of_sort_strings, Hadd in Hn as [?%elem_of_nil|(Hn & Hs & Hdn)];
      [done|]. split.
    - rewrite inserts_None. naive_solver.
    - intros (r & -> & Hr)%list_elem_of_fmap. apply (ok_list _ Hd) in Hr. congruence. }
  assert (snapshot_ok {| ds_resources := inserts start upserts;
      ds_list := mergeList (inserts start upserts) (sort_strings added) (ds_list d);
      ds_err := ds_err d |}) as Hok.
  { split; [done|done|]. intros r. simpl. rewrite Hin. split; [by intros [? _]|].
    intros Hr. split; [done|]. rewrite elem_of_sort_strings, Hadd.
    destruct (ds_resources d !! res_Name r) as [old|] eqn:Hold.
    - right. apply list_elem_of_fmap. exists old. rewrite (ok_name _ Hd _ _ Hold).
      split; [done|]. by apply (ok_list _ Hd); rewrite (ok_name _ Hd _ _ Hold).
    - left. right. assert (start !! res_Name r = None) as Hs.
      { unfold start. rewrite deletes_lookup. by destruct (decide _). }
      split; [|done].
      destruct (decide (res_Name r ∈ res_Name <$> upserts)) as [|Hn]; [done|].
      assert (inserts start upserts !! res_Name r = None) as Hnone by by apply inserts_None.
      congruence. }
  destruct upserts as [|r l]; [destruct removed as [|x removed]|]; rewrite ?Hf; [done|..];
    by split_and!.
Qed.

(** *** Sources in their order *)

Lemma unseen_spec seen l :
  NoDup (res_Name <$> l) →
  let '(out, seen') := unseen seen l in
  NoDup (res_Name <$> out)
  ∧ (∀ r, r ∈ out ↔ r ∈ l ∧ res_Name r ∉ seen)
  ∧ ∀ n, n ∈ seen' ↔ n ∈ seen ∨ n ∈ res_Name <$> l.
Proof.
  revert seen. induction l as [|x l IH]; intros seen.
  { intros _. simpl. split; [constructor|]. split; intros ?; rewrite elem_of_nil; naive_solver. }
  rewrite fmap_cons, NoDup_cons. intros [Hx Hnd]. cbn [unseen].
  assert (∀ r, r ∈ l → res_Name r ≠ res_Name x) as Hne.
  { intros r Hr He. apply Hx. rewrite <-He. by apply list_elem_of_fmap_2. }
  destruct (decide (res_Name x ∈ seen)) as [Hs|Hs].
  - specialize (IH seen Hnd). destruct (unseen seen l) as [out seen'].
    destruct IH as (H1 & H2 & H3). split; [done|]. split.
    + intros r. rewrite H2, elem_of_cons. naive_solver.
    + intros n. rewrite H3, elem_of_cons. naive_solver.
  - specialize (IH ({[res_Name x]} ∪ seen) Hnd).
    destruct (unseen ({[res_Name x]} ∪ seen) l) as [out seen'].
    destruct IH as (H1 & H2 & H3). split; [|split].
    + rewrite fmap_cons. constructor; [|done].
      intros (r & He & [_ Hn]%H2)%list_elem_of_fmap. apply Hn. rewrite <-He. set_solver.
    + intros r. rewrite !elem_of_cons, H2, elem_of_union, elem_of_singleton. naive_solver.
    + intros n. rewrite H3, elem_of_union, elem_of_singleton, elem_of_cons. naive_solver.
Qed.

(** The list of the merged sources has, for every name that was not seen before, what they
    answer. *)
Lemma mergedList_spec seen sources :
  Forall snapshot_ok sources →
  let '(out, err) := mergedList seen sources in
  NoDup (res_Name <$> out)
  ∧ (∀ r, r ∈ out → (res_Name r ∉ seen) ∧ mergedGet sources (res_Name r) = (Some r, None))
  ∧ ∀ n, n ∉ seen → n ∉ res_Name <$> out → mergedGet sources n = (None, err).
Proof.
  revert seen. induction sources as [|d sources IH]; intros seen.
  { intros _. simpl. split; [constructor|]. split; [|done]. by intros ? ?%elem_of_nil. }
  intros [Hd Hall]%Forall_cons. cbn [mergedList mergedGet].
  pose proof (unseen_spec seen (ds_list d) (ssorted_NoDup _ (ok_sorted _ Hd))) as Hu.
  destruct (unseen seen (ds_list d)) as [out seen']. destruct Hu as (Hnd & Hout & Hseen).
  assert (∀ r, r ∈ out → snapshotGet d (res_Name r) = (Some r, None)) as Hget.
  { intros r [Hr%(ok_list _ Hd) _]%Hout. unfold snapshotGet. by rewrite Hr. }
  assert (∀ n, n ∉ seen → n ∉ res_Name <$> out → snapshotGet d n = (None, ds_err d)) as Hnone.
  { intros n Hn Ho. unfold snapshotGet. destruct (ds_resources d !! n) as [r|] eqn:Hr; [|done].
    pose proof (ok_name _ Hd _ _ Hr) as He. destruct Ho. rewrite <-He.
    apply list_elem_of_fmap_2, Hout. rewrite He. split; [|done]. apply (ok_list _ Hd).
    by rewrite He. }
  destruct (ds_err d) as [e|].
  { split; [done|]. split.
    - intros r Hr. rewrite (Hget r Hr). split; [|done]. by apply Hout in Hr as [_ ?].
    - intros n Hn Ho. by rewrite (Hnone n Hn Ho). }
  specialize (IH seen' Hall). destruct (mergedList seen' sources) as [rest err].
  destruct IH as (H1 & H2 & H3). split; [|split].
  - rewrite fmap_app. apply NoDup_app. split; [done|]. split; [|done].
    intros n (r & -> & [Hr _]%Hout)%list_elem_of_fmap (r' & He & [Hr' _]%H2)%list_elem_of_fmap.
    apply Hr', Hseen. right. rewrite <-He. by apply list_elem_of_fmap_2.
  - intros r [Hr|Hr]%elem_of_app.
    + rewrite (Hget r Hr). split; [|done]. by apply Hout in Hr as [_ ?].
    + destruct (H2 r Hr) as [Hs Hm]. rewrite Hseen in Hs. split; [naive_solver|].
      rewrite Hnone; [done|naive_solver|].
      intros (r' & He & [Hr' _]%Hout)%list_elem_of_fmap. apply Hs. right. rewrite He.
      by apply list_elem_of_fmap_2.
  - intros n Hn. rewrite fmap_app, not_elem_of_app. intros [Ho Hr].
    rewrite Hnone by done. apply H3; [|done]. rewrite Hseen. intros [?|(r & -> & Hd')%list_elem_of_fmap];
      [done|]. apply Ho, list_elem_of_fmap_2, Hout. done.
Qed.

(** A published snapshot of a type: well formed, and every name is answered by the first
    source that answers it. *)
Lemma materializeType_spec sources previous :
  Forall snapshot_ok sources → (∀ p, previous = Some p → snapshot_ok p) →
  let d := materializeType sources previous in
  snapshot_ok d ∧ d = materializeType sources None
  ∧ ∀ name, snapshotGet d name = mergedGet sources name.
Proof.
  intros Hs Hp. unfold materializeType.
  pose proof (mergedList_spec ∅ sources Hs) as Hm.
  destruct (mergedList ∅ sources) as [out err]. destruct Hm as (Hnd & Hin & Hout).
  assert (∀ name, snapshotGet (fullSnapshot out err) name = mergedGet sources name) as Hget.
  { intros name. unfold snapshotGet. simpl.
    destruct (tabulate out !! name) as [r|] eqn:Hr.
    - apply tabulate_lookup in Hr as [Hr <-]; [|done]. by destruct (Hin r Hr) as [_ ->].
    - symmetry. apply Hout; [apply not_elem_of_empty|].
      intros (r & -> & Hin')%list_elem_of_fmap.
      rewrite (proj2 (tabulate_lookup out (res_Name r) r Hnd)) in Hr; done. }
  rewrite !buildDefaultSnapshot_spec by done.
  destruct sources as [|d [|d' sources]].
  - split; [apply fullSnapshot_ok|done].
  - split; [by inversion_clear Hs|]. split; [done|]. intros name. simpl.
    by destruct (snapshotGet d name) as [[|] [|]].
  - split; [apply fullSnapshot_ok|done].
Qed.

(** ** The source over a delta client: xds/store.go *)

Section projection.
(** A cached resource of the client, told by its pointer, and its value. *)
Context {X : Type} `{ObjectIdentity X} (valueOf : X → V) (notSynchronized : string).

(** The part of a client's snapshot that concerns one type. *)
Record clientType := { ct_Resources : gmap string X; ct_Usable : bool }.

Definition toResource (name : string) (value : X) : Resource V :=
  {| res_Name := name; res_Value := valueOf value |}.

(** The resource of a name, unless it is the one that is already projected. *)
Definition upsertOf (priorValues : gmap string X) (entry : string * X) : option (Resource V) :=
  let '(name, value) := entry in
  match priorValues !! name with
  | Some old => if same old value then None else Some (toResource name value)
  | None => Some (toResource name value)
  end.

Definition projectType (snapshot prior : clientType) (previous : option (DefaultSnapshot V))
    : DefaultSnapshot V :=
  if negb (ct_Usable snapshot) then
    match previous with
    | Some p => if negb (ct_Usable prior) then p
                else NewDefaultSnapshot [] (Some notSynchronized)
    | None => NewDefaultSnapshot [] (Some notSynchronized)
    end
  else
    let '(old, priorValues) :=
      match previous with
      | Some p => if ct_Usable prior then (p, ct_Resources prior)
                  else (NewDefaultSnapshot [] None, ∅)
      | None => (NewDefaultSnapshot [] None, ∅)
      end in
    let upserts := omap (upsertOf priorValues) (map_to_list (ct_Resources snapshot)) in
    let removed :=
      base.filter (λ name, ct_Resources snapshot !! name = None) (map_to_list priorValues).*1 in
    WithChanges old upserts removed.

(** What a snapshot of the client is projected to: its resources, or an error. *)
Definition projects (snapshot : clientType) (d : DefaultSnapshot V) : Prop :=
  snapshot_ok d
  ∧ if ct_Usable snapshot
    then ds_err d = None
         ∧ ∀ name, ds_resources d !! name = toResource name <$> ct_Resources snapshot !! name
    else ds_err d = Some notSynchronized ∧ ds_resources d = ∅.

Lemma projects_unique snapshot d1 d2 :
  projects snapshot d1 → projects snapshot d2 → d1 = d2.
Proof.
  intros [H1 Hp1] [H2 Hp2]. apply snapshot_unique; [done..| |];
    destruct (ct_Usable snapshot); destruct Hp1 as [He1 Hr1], Hp2 as [He2 Hr2].
  - apply map_eq. intros name. by rewrite Hr1, Hr2.
  - by rewrite Hr1, Hr2.
  - congruence.
  - congruence.
Qed.

Lemma empty_ok err : snapshot_ok (NewDefaultSnapshot [] err).
Proof. apply buildList_ok. by intros ??. Qed.

Lemma upserts_spec snapshot priorValues :
  let upserts := omap (upsertOf priorValues) (map_to_list (ct_Resources snapshot)) in
  NoDup (res_Name <$> upserts)
  ∧ ∀ r, r ∈ upserts ↔ ∃ v,
      r = toResource (res_Name r) v ∧ ct_Resources snapshot !! res_Name r = Some v
      ∧ match priorValues !! res_Name r with Some o => same o v = false | None => True end.
Proof.
  assert (∀ name v r, upsertOf priorValues (name, v) = Some r ↔
    r = toResource name v
    ∧ match priorValues !! name with Some o => same o v = false | None => True end) as Hone.
  { intros name v r. unfold upsertOf. destruct (priorValues !! name) as [o|]; [|naive_solver].
    destruct (same o v); naive_solver. }
  intros upserts. split.
  - eapply sublist_NoDup; [apply (NoDup_fst_map_to_list (ct_Resources snapshot))|].
    unfold upserts. induction (map_to_list (ct_Resources snapshot)) as [|[name v] l IH];
      [constructor|]. cbn [omap list_omap fmap list_fmap fst].
    destruct (upsertOf priorValues (name, v)) as [r|] eqn:Hr; [|by constructor].
    apply Hone in Hr as [-> _]. by constructor.
  - intros r. unfold upserts. rewrite list_elem_of_omap. split.
    + intros ([name v] & Hv%elem_of_map_to_list & [-> Hs]%Hone). by exists v.
    + intros (v & Hr & Hv & Hs). exists (res_Name r, v). rewrite elem_of_map_to_list, Hone. done.
Qed.

Lemma projectType_spec snapshot prior previous :
  (∀ d, previous = Some d → projects prior d) →
  projects snapshot (projectType snapshot prior previous).
Proof.
  intros Hprev. unfold projectType, projects.
  destruct (ct_Usable snapshot) eqn:Hu; simpl.
  - set (x := match previous with Some _ => _ | None => _ end).
    assert (snapshot_ok x.1 ∧ ds_err x.1 = None
      ∧ ∀ name, ds_resources x.1 !! name = toResource name <$> x.2 !! name) as (Hok & He & Hr).
    { unfold x. destruct previous as [p|].
      - destruct (Hprev p eq_refl) as [Hp Hpr]. destruct (ct_Usable prior); [done|].
        split; [apply empty_ok|]. by split.
      - split; [apply empty_ok|]. by split. }
    destruct x as [old priorValues]. simpl in *.
    set (upserts := omap _ _). set (removed := base.filter _ _).
    destruct (WithChanges_spec old upserts removed Hok) as (Hok' & He' & Hr').
    split; [done|]. split; [congruence|]. intros name. rewrite Hr'.
    destruct (upserts_spec snapshot priorValues) as [Hnd Hup]. fold upserts in Hnd, Hup.
    destruct (ct_Resources snapshot !! name) as [v|] eqn:Hv; simpl.
    + destruct (match priorValues !! name with Some o => same o v | None => false end) eqn:Hs.
      2:{ apply (inserts_in upserts _ (toResource name v)); [done|]. apply Hup. exists v.
          simpl. by destruct (priorValues !! name). }
      destruct (priorValues !! name) as [o|] eqn:Hp; [|done].
      pose proof (same_eq _ _ Hs) as ->.
      rewrite inserts_out, deletes_lookup, decide_False, Hr, Hp; [done| |].
      * unfold removed. rewrite list_elem_of_filter, Hv. by intros [? _].
      * intros (r & -> & (v' & Hr2 & Hv2 & Hs')%Hup)%list_elem_of_fmap.
        rewrite Hp in Hs'. congruence.
    + rewrite inserts_out, deletes_lookup.
      * case_decide as Hrem; [done|]. rewrite Hr. destruct (priorValues !! name) as [o|] eqn:Ho; [|done].
        destruct Hrem. unfold removed. rewrite list_elem_of_filter. split; [done|].
        apply list_elem_of_fmap. exists (name, o). by rewrite elem_of_map_to_list.
      * intros (r & -> & (v' & Hr2 & Hv2 & _)%Hup)%list_elem_of_fmap. congruence.
  - destruct previous as [p|]; [|by split; [apply empty_ok|]].
    destruct (Hprev p eq_refl) as [Hp Hpr].
    destruct (ct_Usable prior); simpl; [by split; [apply empty_ok|]|]. done.
Qed.

End projection.

End snapshots.

Arguments clientType _ : clear implicits.

(** ** The aggregate: aggregate.go

    The two types of resources that a policy engine reads, workloads with values [W] and
    traffic policies with values [P], and one query index [Q] over both. *)

(** What an aggregate needs of a [QueryBuilder]: reusing an index that was built for other
    snapshots does not change what is built. *)
Class QueryBuilder (W P Q : Type) := {
  buildQuery : DefaultSnapshot W → DefaultSnapshot P → option Q → Q
}.

Class QueryBuilderLaws (W P Q : Type) `{QueryBuilder W P Q} :=
  buildQuery_reuse w p w' p' :
    snapshot_ok w → snapshot_ok p → snapshot_ok w' → snapshot_ok p' →
    buildQuery w p (Some (buildQuery w' p' None)) = buildQuery w p None.

Section aggregate.
Context {W P Q : Type} (equalW : W → W → bool) (equalP : P → P → bool).
Context `{QB : QueryBuilder W P Q}.
Context `{IW : ObjectIdentity (DefaultSnapshot W)} `{IP : ObjectIdentity (DefaultSnapshot P)}.

(** Readiness, and the channel that the source closes at the next change. *)
Record Status := { su_Ready : bool; su_Changed : N }.

#[export] Instance Status_eq_dec : EqDecision Status.
Proof. solve_decision. Defined.

Record Batch := {
  ba_Status : Status;
  ba_Workloads : option (DefaultSnapshot W);
  ba_Policies : option (DefaultSnapshot P)
}.

(** The published snapshot. The source also has here the channel that it closes at the next
    change, and lets [RegisterTypeSnapshot] install a builder for a type, which only a test of
    the package does. The channel only wakes the readers. Both are left out. *)
Record Snapshot := {
  sn_Ready : bool;
  sn_Workloads : DefaultSnapshot W;
  sn_Policies : DefaultSnapshot P;
  sn_Query : option Q
}.

Record Aggregate := {
  ag_backends : list Batch;
  ag_inputsW : list (DefaultSnapshot W);
  ag_inputsP : list (DefaultSnapshot P);
  ag_registered : bool;
  ag_current : option Snapshot
}.

(** A refresh asks every source for its status, and reads those whose status is not the one
    of the batch at hand. *)
Fixpoint readSources (backends : list Batch) (sources : list (Status * Batch))
    : list Batch * bool :=
  match sources with
  | [] => ([], false)
  | (status, batch) :: sources =>
      let '(next, changed) := readSources (tail backends) sources in
      match head backends with
      | Some b => if decide (ba_Status b = status) then (b :: next, changed)
                  else (batch :: next, true)
      | None => (batch :: next, true)
      end
  end.

(** One type of [merge]: the inputs and the snapshot. *)
Definition mergeSources {V} `{ObjectIdentity (DefaultSnapshot V)} (equalValue : V → V → bool)
    (force : bool) (inputs sources : list (DefaultSnapshot V))
    (previous : option (DefaultSnapshot V)) : DefaultSnapshot V :=
  match previous with
  | Some p => if negb force && sameAll inputs sources then p
              else materializeType equalValue sources previous
  | None => materializeType equalValue sources previous
  end.

Definition dependenciesChanged (old : option Snapshot) (w : DefaultSnapshot W)
    (p : DefaultSnapshot P) : bool :=
  match old with
  | None => true
  | Some old => negb (same (sn_Workloads old) w) || negb (same (sn_Policies old) p)
  end.

Definition refreshLocked (force : bool) (sources : list (Status * Batch)) (a : Aggregate)
    : Aggregate :=
  let '(next, read) := readSources (ag_backends a) sources in
  let ready := forallb (su_Ready ∘ ba_Status) next in
  let changed :=
    force || negb (bool_decide (length (ag_backends a) = length sources))
    || bool_decide (ag_current a = None) || read
    || match ag_current a with Some v => negb (Bool.eqb (sn_Ready v) ready) | None => false end in
  if negb changed then a
  else
    let old := ag_current a in
    let sourcesW := omap ba_Workloads next in
    let sourcesP := omap ba_Policies next in
    let w := mergeSources equalW force (ag_inputsW a) sourcesW (sn_Workloads <$> old) in
    let p := mergeSources equalP force (ag_inputsP a) sourcesP (sn_Policies <$> old) in
    let query :=
      if ag_registered a then
        match old ≫= sn_Query with
        | Some q => if force || dependenciesChanged old w p
                    then Some (buildQuery w p (Some q)) else Some q
        | None => Some (buildQuery w p None)
        end
      else None in
    {| ag_backends := next; ag_inputsW := sourcesW; ag_inputsP := sourcesP;
       ag_registered := ag_registered a;
       ag_current := Some {| sn_Ready := ready; sn_Workloads := w; sn_Policies := p;
                             sn_Query := query |} |}.

Definition emptyAggregate : Aggregate :=
  {| ag_backends := []; ag_inputsW := []; ag_inputsP := []; ag_registered := false;
     ag_current := None |}.

Definition Refresh := refreshLocked false.

Definition NewAggregate (sources : list (Status * Batch)) : Aggregate :=
  Refresh sources emptyAggregate.

(** The index of traffic policies is registered under both types. *)
Definition RegisterQueries (sources : list (Status * Batch)) (a : Aggregate) : Aggregate :=
  refreshLocked true sources
    {| ag_backends := ag_backends a; ag_inputsW := ag_inputsW a; ag_inputsP := ag_inputsP a;
       ag_registered := true; ag_current := ag_current a |}.

Definition invalidate (a : Aggregate) : Aggregate :=
  match ag_current a with
  | Some v =>
      if sn_Ready v then
        {| ag_backends := ag_backends a; ag_inputsW := ag_inputsW a; ag_inputsP := ag_inputsP a;
           ag_registered := ag_registered a;
           ag_current := Some {| sn_Ready := false; sn_Workloads := sn_Workloads v;
                                 sn_Policies := sn_Policies v; sn_Query := sn_Query v |} |}
      else a
  | None => a
  end.

(** ** What is published *)

(** The snapshot of a list of batches, from scratch. *)
Definition publication (registered : bool) (backends : list Batch) : Snapshot :=
  let w := materializeType equalW (omap ba_Workloads backends) None in
  let p := materializeType equalP (omap ba_Policies backends) None in
  {| sn_Ready := forallb (su_Ready ∘ ba_Status) backends;
     sn_Workloads := w; sn_Policies := p;
     sn_Query := if registered then Some (buildQuery w p None) else None |}.

Definition batch_ok (b : Batch) : Prop :=
  (∀ d, ba_Workloads b = Some d → snapshot_ok d) ∧ (∀ d, ba_Policies b = Some d → snapshot_ok d).

(** The operations of an aggregate on sources that publish well-formed batches. *)
Inductive aggregate_reach : Aggregate → Prop :=
| reach_new sources : Forall (λ s, batch_ok s.2) sources → aggregate_reach (NewAggregate sources)
| reach_refresh a sources : aggregate_reach a → Forall (λ s, batch_ok s.2) sources →
    aggregate_reach (Refresh sources a)
| reach_register a sources : aggregate_reach a → Forall (λ s, batch_ok s.2) sources →
    aggregate_reach (RegisterQueries sources a)
| reach_invalidate a : aggregate_reach a → aggregate_reach (invalidate a).

Hypothesis equalW_eq : ∀ a b, equalW a b = true → a = b.
Hypothesis equalP_eq : ∀ a b, equalP a b = true → a = b.
Context `{!QueryBuilderLaws W P Q}.

Lemma omap_ok {V} (f : Batch → option (DefaultSnapshot V)) backends :
  Forall (λ b, ∀ d, f b = Some d → snapshot_ok d) backends →
  Forall snapshot_ok (omap f backends).
Proof.
  intros H. apply Forall_forall. intros d (b & Hb & Hd)%list_elem_of_omap.
  rewrite Forall_forall in H. by eapply H.
Qed.

Lemma batches_ok backends :
  Forall batch_ok backends →
  Forall snapshot_ok (omap ba_Workloads backends)
  ∧ Forall snapshot_ok (omap ba_Policies backends).
Proof.
  intros H. split; apply omap_ok; (eapply Forall_impl; [exact H|]); by intros b [? ?].
Qed.

Lemma publication_ok registered backends :
  Forall batch_ok backends →
  snapshot_ok (sn_Workloads (publication registered backends))
  ∧ snapshot_ok (sn_Policies (publication registered backends)).
Proof.
  intros [Hw Hp]%batches_ok.
  split; [apply (materializeType_spec equalW)|apply (materializeType_spec equalP)]; done.
Qed.

(** What a refresh finds: the inputs of the snapshot that is published, and that snapshot,
    apart from its readiness. *)
Definition published (registered : bool) (a : Aggregate) (v : Snapshot) : Prop :=
  let fresh := publication registered (ag_backends a) in
  Forall batch_ok (ag_backends a)
  ∧ ag_inputsW a = omap ba_Workloads (ag_backends a)
  ∧ ag_inputsP a = omap ba_Policies (ag_backends a)
  ∧ sn_Workloads v = sn_Workloads fresh ∧ sn_Policies v = sn_Policies fresh
  ∧ sn_Query v = sn_Query fresh.

Lemma readSources_ok backends sources :
  Forall batch_ok backends → Forall (λ s, batch_ok s.2) sources →
  Forall batch_ok (readSources backends sources).1.
Proof.
  intros Hb Hs. revert backends Hb. induction Hs as [|[status batch] sources Hx _ IH];
    intros backends Hb; [constructor|]. cbn [readSources].
  assert (Forall batch_ok (tail backends)) as Htl by (by destruct Hb).
  specialize (IH _ Htl). destruct (readSources (tail backends) sources) as [next changed].
  destruct Hb as [|b backends Hb1 _]; simpl in *; [by constructor|].
  destruct (decide _); by constructor.
Qed.

Lemma mergeSources_spec {V} `{ObjectIdentity (DefaultSnapshot V)} (equalV : V → V → bool) force sources
    inputs previous :
  (∀ a b, equalV a b = true → a = b) → Forall snapshot_ok sources →
  (∀ d, previous = Some d → snapshot_ok d ∧ d = materializeType equalV inputs None) →
  mergeSources equalV force inputs sources previous = materializeType equalV sources None.
Proof.
  intros Hlaw Hs Hp. unfold mergeSources.
  assert (materializeType equalV sources previous = materializeType equalV sources None) as ->.
  { apply materializeType_spec; [done..|]. intros d Hd. by apply Hp. }
  destruct previous as [d|]; [|done]. destruct (negb force && sameAll inputs sources) eqn:He; [|done].
  apply andb_true_iff in He as [_ ->%sameAll_eq]. by apply Hp.
Qed.

Lemma readSources_unchanged backends sources :
  length backends = length sources →
  (readSources backends sources).2 = false → (readSources backends sources).1 = backends.
Proof.
  revert backends. induction sources as [|[status batch] sources IH]; intros [|b backends];
    simpl; [done..|]. intros [= Hlen].
  specialize (IH backends Hlen). destruct (readSources backends sources) as [next changed].
  simpl in IH. destruct (decide _); simpl; [|done]. intros ->. by rewrite IH.
Qed.

(** A refresh publishes, from the batches it ends up with, what would be published from
    scratch. *)
Lemma refresh_spec force sources a registered :
  (force = true ∨ registered = ag_registered a) →
  (∀ v, ag_current a = Some v → published registered a v) →
  (ag_current a = None → ag_backends a = []) →
  Forall (λ s, batch_ok s.2) sources →
  let a' := refreshLocked force sources a in
  ag_registered a' = ag_registered a
  ∧ ag_backends a' = (readSources (ag_backends a) sources).1
  ∧ ag_current a' = Some (publication (ag_registered a) (ag_backends a'))
  ∧ (∀ v, ag_current a' = Some v → published (ag_registered a) a' v).
Proof.
  intros Hforce Hpub Hnone Hs. unfold refreshLocked.
  assert (Forall batch_ok (ag_backends a)) as Hback.
  { destruct (ag_current a) as [v|]; [by destruct (Hpub v eq_refl) as [? _]|].
    rewrite Hnone by done. constructor. }
  pose proof (readSources_ok _ _ Hback Hs) as Hnext.
  pose proof (readSources_unchanged (ag_backends a) sources) as Hun.
  destruct (readSources (ag_backends a) sources) as [next read]. simpl in Hnext, Hun.
  destruct (negb _) eqn:Hchanged.
  - apply negb_true_iff in Hchanged. rewrite !orb_false_iff in Hchanged.
    destruct Hchanged as ((((-> & Hlen%negb_false_iff%bool_decide_eq_true) & Hcur%bool_decide_eq_false)
      & ->) & Hready). specialize (Hun Hlen eq_refl) as ->.
    destruct (ag_current a) as [v|] eqn:Hv; [|done]. simpl.
    destruct Hforce as [|Hreg]; [done|]. subst registered. specialize (Hpub v eq_refl).
    split; [done|]. split; [done|]. split; [|by intros ? [= <-]].
    destruct Hpub as (_ & _ & _ & Hw & Hp & Hq). f_equal.
    apply negb_false_iff, eqb_prop in Hready.
    destruct v as [ready w p q]. simpl in *. by subst.
  - simpl. split; [done|]. split; [done|].
    destruct (batches_ok next Hnext) as [HnW HnP].
    assert (mergeSources equalW force (ag_inputsW a) (omap ba_Workloads next)
              (sn_Workloads <$> ag_current a)
            = materializeType equalW (omap ba_Workloads next) None) as ->.
    { apply mergeSources_spec; [done..|]. intros d (v & Hv & ->)%fmap_Some.
      destruct (Hpub v Hv) as (_ & -> & _ & -> & _).
      split; [by apply (publication_ok registered)|done]. }
    assert (mergeSources equalP force (ag_inputsP a) (omap ba_Policies next)
              (sn_Policies <$> ag_current a)
            = materializeType equalP (omap ba_Policies next) None) as ->.
    { apply mergeSources_spec; [done..|]. intros d (v & Hv & ->)%fmap_Some.
      destruct (Hpub v Hv) as (_ & _ & -> & _ & -> & _).
      split; [by apply (publication_ok registered)|done]. }
    set (w := materializeType equalW (omap ba_Workloads next) None).
    set (p := materializeType equalP (omap ba_Policies next) None).
    assert ((if ag_registered a then
        match ag_current a ≫= sn_Query with
        | Some q => if force || dependenciesChanged (ag_current a) w p
                    then Some (buildQuery w p (Some q)) else Some q
        | None => Some (buildQuery w p None)
        end else None) = sn_Query (publication (ag_registered a) next)) as ->.
    { unfold publication. simpl. fold w p. destruct (ag_registered a) eqn:Hreg; [|done].
      destruct (ag_current a) as [v|]; [|done]. simpl.
      destruct (sn_Query v) as [q|] eqn:Hq; [|done].
      destruct (Hpub v eq_refl) as (_ & _ & _ & Hw & Hp & Hquery). rewrite Hq in Hquery.
      destruct registered; [|done]. injection Hquery as ->.
      destruct (publication_ok true (ag_backends a) Hback) as [Hok1 Hok2].
      destruct (publication_ok true next Hnext) as [Hok3 Hok4].
      destruct (force || (negb (same (sn_Workloads v) w) || negb (same (sn_Policies v) p)))
        eqn:Hdep; [f_equal; by apply buildQuery_reuse|].
      apply orb_false_iff in Hdep as [_ Hdep].
      apply orb_false_iff in Hdep as [H1%negb_false_iff%same_eq H2%negb_false_iff%same_eq].
      rewrite <-H1, <-H2, Hw, Hp. done. }
    split; [done|]. by intros ? [= <-].
Qed.

Lemma aggregate_inv a :
  aggregate_reach a → ∃ v, ag_current a = Some v ∧ published (ag_registered a) a v.
Proof.
  induction 1 as [sources Hs|a sources _ (v & Hv & Hpub) Hs|a sources _ (v & Hv & Hpub) Hs
    |a _ (v & Hv & Hpub)].
  - destruct (refresh_spec false sources emptyAggregate false) as (Hr & _ & Hc & Hp);
      [by right|done..|].
    eexists. split; [exact Hc|]. unfold NewAggregate, Refresh. rewrite Hr. exact (Hp _ Hc).
  - destruct (refresh_spec false sources a (ag_registered a)) as (Hr & _ & Hc & Hp);
      [by right|rewrite Hv; by intros ? [= <-]|by rewrite Hv|done|].
    eexists. split; [exact Hc|]. unfold Refresh. rewrite Hr. exact (Hp _ Hc).
  - unfold RegisterQueries.
    set (a1 := {| ag_backends := _ |}).
    destruct (refresh_spec true sources a1 (ag_registered a)) as (Hr & _ & Hc & Hp);
      [by left|simpl; rewrite Hv; by intros ? [= <-]|simpl; by rewrite Hv|done|].
    eexists. split; [exact Hc|]. rewrite Hr. exact (Hp _ Hc).
  - unfold invalidate. rewrite Hv. destruct (sn_Ready v); [|by exists v].
    eexists. split; [done|]. done.
Qed.

(** The contract of a source: a batch whose status is the one that the source reports now
    is the one it would give now. *)
Definition sources_current (backends : list Batch) (sources : list (Status * Batch)) : Prop :=
  ∀ i b status batch, backends !! i = Some b → sources !! i = Some (status, batch) →
    ba_Status b = status → b = batch.

Lemma readSources_current backends sources :
  sources_current backends sources → (readSources backends sources).1 = sources.*2.
Proof.
  revert backends. induction sources as [|[status batch] sources IH]; intros backends Hc; [done|].
  cbn [readSources]. assert (sources_current (tail backends) sources) as Htl.
  { intros i b s x Hb Hx. destruct backends as [|b0 backends]; [done|]. by apply (Hc (S i) b s x). }
  specialize (IH _ Htl). destruct (readSources (tail backends) sources) as [next changed].
  simpl in IH. subst next. destruct backends as [|b backends]; [done|]. simpl.
  destruct (decide _) as [He|]; [|done]. simpl. f_equal. by apply (Hc 0 b status batch).
Qed.

(** C17: an aggregate publishes incrementally what it would publish from scratch. Whatever
    was published, registered or invalidated before, a refresh leaves the snapshot of what
    the sources have now: its readiness is theirs, every name is answered by the first
    source that answers it, and the query index is the one that is built from those
    snapshots alone. *)
Theorem aggregate_publishes sources a :
  aggregate_reach a → Forall (λ s, batch_ok s.2) sources →
  sources_current (ag_backends a) sources →
  let v := publication (ag_registered a) sources.*2 in
  ag_current (Refresh sources a) = Some v
  ∧ (∀ name, snapshotGet (sn_Workloads v) name = mergedGet (omap ba_Workloads sources.*2) name)
  ∧ (∀ name, snapshotGet (sn_Policies v) name = mergedGet (omap ba_Policies sources.*2) name)
  ∧ (ag_registered a = true →
     sn_Query v = Some (buildQuery (sn_Workloads v) (sn_Policies v) None)).
Proof.
  intros (v0 & Hv & Hpub)%aggregate_inv Hs Hcur v.
  destruct (refresh_spec false sources a (ag_registered a)) as (_ & Hb & Hc & _);
    [by right|rewrite Hv; by intros ? [= <-]|by rewrite Hv|done|].
  rewrite Hb, (readSources_current _ _ Hcur) in Hc. split; [done|].
  assert (Forall batch_ok sources.*2) as [HW HP]%batches_ok by by apply Forall_fmap.
  split; [|split].
  - by apply (materializeType_spec equalW).
  - by apply (materializeType_spec equalP).
  - intros Hreg. unfold v, publication. by rewrite Hreg.
Qed.

End aggregate.
