(* ===== verification/McpAcl.v ===== *)
(** * The access control of MCP tools

    src/extensions/epe/pkg/filters/mcpacl: a filter that decides on the tool calls of the
    Model Context Protocol. It reads the JSON-RPC message of a request's body, after undoing
    content codings and byte order marks; for the latest revision of the protocol it may
    refuse by the headers alone. The decoders of JSON and of compressed streams are
    parameters. *)

From S2P Require Import Prelude Netip Filter Attributes Fold Engine.

(** ** Text encodings *)

(** [utf8.Valid] *)
Definition inRange (lo hi : N) (a : ascii) : bool :=
  let n := Ascii.N_of_ascii a in ((lo <=? n) && (n <=? hi))%N.

Abbreviation tail := (inRange 128 191).

(** The bytes that may follow the first one of a sequence of three or four. *)
Definition second3 (a : ascii) : ascii → bool :=
  let n := Ascii.N_of_ascii a in
  if (n =? 224)%N then inRange 160 191 else if (n =? 237)%N then inRange 128 159 else tail.

Definition second4 (a : ascii) : ascii → bool :=
  let n := Ascii.N_of_ascii a in
  if (n =? 240)%N then inRange 144 191 else if (n =? 244)%N then inRange 128 143 else tail.

Fixpoint utf8Valid (l : list ascii) : bool :=
  match l with
  | [] => true
  | a :: l =>
      if inRange 0 127 a then utf8Valid l
      else match l with
           | [] => false
           | b :: l =>
               if inRange 194 223 a then tail b && utf8Valid l
               else match l with
                    | [] => false
                    | c :: l =>
                        if inRange 224 239 a then second3 a b && tail c && utf8Valid l
                        else match l with
                             | [] => false
                             | d :: l =>
                                 inRange 240 244 a && second4 a b && tail c && tail d
                                 && utf8Valid l
                             end
                    end
           end
  end.

(** The bytes of a code point. *)
Definition byte (n : N) : ascii := Ascii.ascii_of_N n.

Definition encodeRune (n : N) : list ascii :=
  (if n <? 128 then [byte n]
   else if n <? 2048 then [byte (192 + n / 64); byte (128 + n mod 64)]
   else if n <? 65536
   then [byte (224 + n / 4096); byte (128 + n / 64 mod 64); byte (128 + n mod 64)]
   else [byte (240 + n / 262144); byte (128 + n / 4096 mod 64); byte (128 + n / 64 mod 64);
         byte (128 + n mod 64)])%N.

(** [utf16.Decode]: a surrogate without its partner is U+FFFD. *)
Definition surrogate (lo hi n : N) : bool := ((lo <=? n) && (n <? hi))%N.

Fixpoint utf16Decode (units : list N) : list N :=
  match units with
  | [] => []
  | u :: units =>
      if surrogate 55296 57344 u then
        match units with
        | v :: rest =>
            if surrogate 55296 56320 u && surrogate 56320 57344 v
            then ((u - 55296) * 1024 + (v - 56320) + 65536)%N :: utf16Decode rest
            else 65533%N :: utf16Decode units
        | [] => [65533%N]
        end
      else u :: utf16Decode units
  end.

(** The words of a text, and [None] for an odd number of bytes. *)
Fixpoint words (littleEndian : bool) (l : list ascii) : option (list N) :=
  match l with
  | [] => Some []
  | [_] => None
  | a :: b :: l =>
      let '(x, y) := (Ascii.N_of_ascii a, Ascii.N_of_ascii b) in
      (λ ws, (if littleEndian then x + 256 * y else 256 * x + y)%N :: ws) <$> words littleEndian l
  end.

Definition utf16ToUTF8 (littleEndian : bool) (body : list ascii) : option (list ascii) :=
  (λ units, flat_map encodeRune (utf16Decode units)) <$> words littleEndian body.

Definition decodeText (body : list ascii) : option (list ascii) :=
  let plain body := if utf8Valid body then Some body else None in
  match body with
  | a :: b :: rest =>
      match Ascii.N_of_ascii a, Ascii.N_of_ascii b with
      | 255%N, 254%N => utf16ToUTF8 true rest
      | 254%N, 255%N => utf16ToUTF8 false rest
      | 239%N, 187%N =>
          match rest with
          | c :: rest => if (Ascii.N_of_ascii c =? 191)%N then plain rest else plain body
          | [] => plain body
          end
      | _, _ => plain body
      end
  | _ => plain body
  end.

(** ** Header values: headers.go *)

Definition base64Value (a : ascii) : option N :=
  let n := Ascii.N_of_ascii a in
  if inRange 65 90 a then Some (n - 65)%N
  else if inRange 97 122 a then Some (n - 71)%N
  else if inRange 48 57 a then Some (n + 4)%N
  else if (n =? 43)%N then Some 62%N
  else if (n =? 47)%N then Some 63%N
  else None.

(** [base64.StdEncoding] on text that [canonicalBase64] matches, and [None] on other text:
    groups of four, the last one padded. *)
Fixpoint decodeBase64 (l : list ascii) : option (list ascii) :=
  match l with
  | [] => Some []
  | a :: b :: c :: d :: rest =>
      match base64Value a, base64Value b, base64Value c, base64Value d with
      | Some x, Some y, Some z, Some w =>
          (λ out, byte (4 * x + y / 16) :: byte (16 * (y mod 16) + z / 4)
                  :: byte (64 * (z mod 4) + w) :: out)%N <$> decodeBase64 rest
      | Some x, Some y, Some z, None =>
          if bool_decide (d = "="%char ∧ rest = [])
          then Some [byte (4 * x + y / 16); byte (16 * (y mod 16) + z / 4)]%N else None
      | Some x, Some y, None, None =>
          if bool_decide (c = "="%char ∧ d = "="%char ∧ rest = [])
          then Some [byte (4 * x + y / 16)]%N else None
      | _, _, _, _ => None
      end
  | _ => None
  end.

Definition base64SentinelPrefix : string := "=?base64?".
Definition base64SentinelSuffix : string := "?=".

(** [strings.HasSuffix] and the text before a suffix. *)
Definition HasSuffix (s suffix : string) : bool :=
  bool_decide (suffix = String.substring (String.length s - String.length suffix)
                          (String.length suffix) s).

Definition dropSuffix (s suffix : string) : string :=
  String.substring 0 (String.length s - String.length suffix) s.

Definition decodeMcpHeaderValue (v : string) : string * bool :=
  if negb (String.prefix base64SentinelPrefix v) || negb (HasSuffix v base64SentinelSuffix)
  then (v, true)
  else
    let encoded := String.substring (String.length base64SentinelPrefix)
                     (String.length v - String.length base64SentinelPrefix) v in
    let encoded := if HasSuffix encoded base64SentinelSuffix
                   then dropSuffix encoded base64SentinelSuffix else encoded in
    match decodeBase64 (String.list_ascii_of_string encoded) with
    | None => (v, false)
    | Some decoded =>
        if utf8Valid decoded then (String.string_of_list_ascii decoded, true) else (v, false)
    end.

(** ** Configuration: filter.go and schema.go *)

Definition actionAllow : string := "allow".
Definition actionDeny : string := "deny".
Definition actionPassthrough : string := "passthrough".
Definition defaultDenyStatus : Z := 403.

Record RuleEntry := {
  me_Method : string;
  me_ToolNames : list string;
  me_Action : string
}.

Record McpConfig := {
  mc_DefaultAction : string;
  mc_UnsupportedVersionAction : string;
  mc_DenyStatus : Z;
  mc_DenyBody : string;
  mc_Rules : list RuleEntry
}.

(** The wire form; [ms_DenyResponse] has the status and the body. *)
Record mcpSpec := {
  ms_DefaultAction : string;
  ms_UnsupportedVersionAction : string;
  ms_DenyResponse : option (Z * string);
  ms_Rules : list RuleEntry
}.

Fixpoint evaluateRules (rules : list RuleEntry) (method toolName : string) : option string :=
  match rules with
  | [] => None
  | rule :: rules =>
      if negb (bool_decide (me_Method rule = method)) then evaluateRules rules method toolName
      else if bool_decide (me_ToolNames rule = []) then Some (me_Action rule)
      else if bool_decide (toolName = "") then evaluateRules rules method toolName
      else if bool_decide (toolName ∈ me_ToolNames rule) then Some (me_Action rule)
      else evaluateRules rules method toolName
  end.

Definition evaluate (cfg : McpConfig) (method toolName : string) : string :=
  default (mc_DefaultAction cfg) (evaluateRules (mc_Rules cfg) method toolName).

Definition denyReply (cfg : McpConfig) : Reply :=
  {| rep_Status := if (mc_DenyStatus cfg =? 0)%Z then defaultDenyStatus else mc_DenyStatus cfg;
     rep_HeaderOps := []; rep_Body := mc_DenyBody cfg; rep_Details := "" |}.

Definition applyDefaultAction (cfg : McpConfig) : Action :=
  if decide (mc_DefaultAction cfg = actionAllow) then Continue [] else Stop (denyReply cfg).

Definition normalizeActions `{CaseFolding} (cfg : McpConfig) : McpConfig :=
  let norm s := ToLower (TrimSpace s) in
  {| mc_DefaultAction := norm (mc_DefaultAction cfg);
     mc_UnsupportedVersionAction := norm (mc_UnsupportedVersionAction cfg);
     mc_DenyStatus := mc_DenyStatus cfg; mc_DenyBody := mc_DenyBody cfg;
     mc_Rules := (λ r, {| me_Method := me_Method r; me_ToolNames := me_ToolNames r;
                          me_Action := norm (me_Action r) |}) <$> mc_Rules cfg |}.

Definition mcp_parse `{CaseFolding} (unmarshal : string → result mcpSpec) (raw : string)
    : result McpConfig :=
  let! s := unmarshal raw in
  let '(status, body) := default (0%Z, "") (ms_DenyResponse s) in
  Ok (normalizeActions
        {| mc_DefaultAction := ms_DefaultAction s;
           mc_UnsupportedVersionAction := ms_UnsupportedVersionAction s;
           mc_DenyStatus := status; mc_DenyBody := body; mc_Rules := ms_Rules s |}).

(** ** Bodies: normalize.go and parse.go *)

(** What reading a stream to its end gives: its bytes, and whether an error ended it. *)
Record Reader := { rd_data : list ascii; rd_failed : bool }.

(** The decoders: a reader for a compressed body, when its header is accepted, and a JSON
    document as a request, with the raw text of [params.name] (empty if it is absent), or as
    a text. *)
Class McpDecoders := {
  gzipReader : list ascii → option Reader;
  zlibReader : list ascii → option Reader;
  flateReader : list ascii → Reader;
  unmarshalRequest : list ascii → option (string * string);
  unmarshalText : string → option string
}.

Definition maxDecodedBodyBytes : Z := 8388608.
Definition maxContentCodings : nat := 2.

(** [io.ReadAll] of one byte more than the limit sees an error only before that byte. *)
Definition readCapped (r : Reader) : option (list ascii) :=
  if (maxDecodedBodyBytes <? Z.of_nat (length (rd_data r)))%Z then None
  else if rd_failed r then None else Some (rd_data r).

Section mcpacl.
Context `{CF : CaseFolding} `{MD : McpDecoders}.

Definition inflate (body : list ascii) : option (list ascii) :=
  match zlibReader body with
  | Some zr => readCapped zr
  | None => readCapped (flateReader body)
  end.

Definition undoCoding (coding : string) (body : list ascii) : option (list ascii) :=
  let coding := ToLower (TrimSpace coding) in
  if decide (coding = "" ∨ coding = "identity") then Some body
  else if decide (coding = "gzip" ∨ coding = "x-gzip") then gzipReader body ≫= readCapped
  else if decide (coding = "deflate") then inflate body
  else None.

Definition decodeContentEncoding (header : string) (body : list ascii)
    : option (list ascii) :=
  if blank header || bool_decide (body = []) then Some body
  else
    let codings := splitOn (String.length header) "," header in
    if decide (maxContentCodings < length codings) then None
    else foldl (λ acc coding, acc ≫= undoCoding coding) (Some body) (reverse codings).

Definition normalizeBody (headers : gmap string string) (body : list ascii)
    : option (list ascii) :=
  decodeContentEncoding (header headers "content-encoding") body ≫= decodeText.

Inductive bodyStatus := statusAbsent | statusUnreadable | statusMessage.

#[export] Instance bodyStatus_eq_dec : EqDecision bodyStatus.
Proof. solve_decision. Defined.

Record bodyRead := {
  br_status : bodyStatus;
  br_method : string;
  br_tool : string;
  br_hasTool : bool
}.

Definition noMessage (status : bodyStatus) : bodyRead :=
  {| br_status := status; br_method := ""; br_tool := ""; br_hasTool := false |}.

Fixpoint isBatchBody (body : list ascii) : bool :=
  match body with
  | [] => false
  | a :: rest =>
      if bool_decide (Ascii.N_of_ascii a ∈ [32; 9; 13; 10]%N) then isBatchBody rest
      else bool_decide (a = "["%char)
  end.

Definition readBody (headers : gmap string string) (raw : string) : bodyRead :=
  if blank raw then noMessage statusAbsent
  else match normalizeBody headers (String.list_ascii_of_string raw) with
       | None => noMessage statusUnreadable
       | Some body =>
           if blank (String.string_of_list_ascii body) then noMessage statusAbsent
           else if isBatchBody body then noMessage statusUnreadable
           else match unmarshalRequest body with
                | None => noMessage statusUnreadable
                | Some (method, name) =>
                    let tool := default "" (unmarshalText name) in
                    {| br_status := statusMessage; br_method := method; br_tool := tool;
                       br_hasTool := negb (bool_decide (tool = "")) |}
                end
       end.

(** ** The callbacks: filter.go *)

Definition mcpProtocolVersionHeader : string := "mcp-protocol-version".
Definition mcpMethodHeader : string := "mcp-method".
Definition mcpNameHeader : string := "mcp-name".
Definition gaMCPVersion : string := "2026-07-28".
Definition supportedMCPVersions : list string := ["2025-06-18"; "2025-11-25"; "2026-07-28"].
Definition governedMethods : list string := ["tools/call"].

Context `{D : Deployment}.

Definition headersOf (st : Stream) : gmap string string := rq_Headers (rc_Request (st_Context st)).

Definition mcp_OnRequestHeaders (cfg : McpConfig) (st : Stream) : Action :=
  let version := header (headersOf st) mcpProtocolVersionHeader in
  let method := header (headersOf st) mcpMethodHeader in
  if bool_decide (version = gaMCPVersion) && negb (bool_decide (method = "")) then
    if negb (bool_decide (method ∈ governedMethods)) then Continue []
    else
      let toolName := header (headersOf st) mcpNameHeader in
      if negb (bool_decide (toolName = "")) then
        match decodeMcpHeaderValue toolName with
        | (toolName, true) =>
            if decide (evaluate cfg method toolName = actionAllow) then NeedBody []
            else Stop (denyReply cfg)
        | (_, false) => NeedBody []
        end
      else NeedBody []
  else NeedBody [].

(** The name that the headers give, decoded where that is possible. *)
Definition headerName (headers : gmap string string) : string :=
  (decodeMcpHeaderValue (header headers mcpNameHeader)).1.

Definition confirmed (headers : gmap string string) (read : bodyRead) : bool :=
  let hMethod := header headers mcpMethodHeader in
  let hName := headerName headers in
  negb (bool_decide (hMethod = "")) && negb (bool_decide (hName = ""))
  && bool_decide (hMethod = br_method read) && br_hasTool read
  && bool_decide (hName = br_tool read).

Definition mcp_OnRequestBody (cfg : McpConfig) (st : Stream) (body : Body) : Action :=
  let read := readBody (headersOf st) (bd_Bytes body) in
  if decide (br_status read = statusUnreadable) then applyDefaultAction cfg
  else if bool_decide (br_status read = statusAbsent)
          || negb (bool_decide (br_method read ∈ governedMethods)) then Continue []
  else
    let version := header (headersOf st) mcpProtocolVersionHeader in
    if negb (bool_decide (version ∈ supportedMCPVersions)) then
      if decide (mc_UnsupportedVersionAction cfg = actionPassthrough) then Continue []
      else Stop (denyReply cfg)
    else if bool_decide (version = gaMCPVersion) && confirmed (headersOf st) read
    then Continue []
    else if negb (br_hasTool read) then applyDefaultAction cfg
    else if decide (evaluate cfg (br_method read) (br_tool read) = actionAllow)
    then Continue [] else Stop (denyReply cfg).

(** Both phases, as the engine runs them: the body callback on the stream of the headers, if
    these asked for the body. *)
Definition mcp_decision (cfg : McpConfig) (st : Stream) (body : Body) : Action :=
  match mcp_OnRequestHeaders cfg st with
  | NeedBody _ => mcp_OnRequestBody cfg st body
  | act => act
  end.

(** ** What the filter decides *)

(** The policy's verdict on the message of a body: a body that is no single message, and a
    call that names no tool, have the default action; calls of other protocol versions their
    own one. *)
Definition permits (cfg : McpConfig) (version : string) (read : bodyRead) : bool :=
  match br_status read with
  | statusUnreadable => bool_decide (mc_DefaultAction cfg = actionAllow)
  | statusAbsent => true
  | statusMessage =>
      if negb (bool_decide (br_method read ∈ governedMethods)) then true
      else if negb (bool_decide (version ∈ supportedMCPVersions))
      then bool_decide (mc_UnsupportedVersionAction cfg = actionPassthrough)
      else if br_hasTool read
      then bool_decide (evaluate cfg (br_method read) (br_tool read) = actionAllow)
      else bool_decide (mc_DefaultAction cfg = actionAllow)
  end.

(** The headers declare a method that is not governed. *)
Definition ungoverned (headers : gmap string string) : bool :=
  let method := header headers mcpMethodHeader in
  bool_decide (header headers mcpProtocolVersionHeader = gaMCPVersion)
  && negb (bool_decide (method = "")) && negb (bool_decide (method ∈ governedMethods)).

(** The headers declare a call that the policy refuses. *)
Definition refused (cfg : McpConfig) (headers : gmap string string) : bool :=
  let method := header headers mcpMethodHeader in
  let name := header headers mcpNameHeader in
  bool_decide (header headers mcpProtocolVersionHeader = gaMCPVersion)
  && bool_decide (method ∈ governedMethods) && negb (bool_decide (name = ""))
  && (decodeMcpHeaderValue name).2
  && negb (bool_decide (evaluate cfg method (decodeMcpHeaderValue name).1 = actionAllow)).

(** The name in the headers cannot be decoded, and the body spells it out. *)
Definition undecodable (headers : gmap string string) (read : bodyRead) : bool :=
  bool_decide (header headers mcpProtocolVersionHeader = gaMCPVersion)
  && bool_decide (header headers mcpMethodHeader = br_method read)
  && br_hasTool read && bool_decide (header headers mcpNameHeader = br_tool read)
  && negb (decodeMcpHeaderValue (header headers mcpNameHeader)).2
  && bool_decide (br_status read = statusMessage)
  && bool_decide (br_method read ∈ governedMethods).

Lemma governed_method m : m ∈ governedMethods → m = "tools/call".
Proof. intros H. by apply list_elem_of_singleton in H. Qed.

Lemma readBody_tool headers raw :
  let read := readBody headers raw in
  br_hasTool read = true → br_tool read ≠ "" ∧ br_status read = statusMessage.
Proof.
  unfold readBody. destruct (blank raw); [done|].
  destruct (normalizeBody _ _) as [body|]; [|done].
  destruct (blank _); [done|]. destruct (isBatchBody body); [done|].
  destruct (unmarshalRequest body) as [[method name]|]; [|done]. simpl.
  intros H%negb_true_iff%bool_decide_eq_false. done.
Qed.

Lemma decode_failed v : (decodeMcpHeaderValue v).2 = false → (decodeMcpHeaderValue v).1 = v.
Proof.
  unfold decodeMcpHeaderValue. destruct (_ || _); [done|]. destruct (decodeBase64 _); [|done].
  by destruct (utf8Valid _).
Qed.

Lemma mcp_headers cfg st :
  mcp_OnRequestHeaders cfg st
  = if ungoverned (headersOf st) then Continue []
    else if refused cfg (headersOf st) then Stop (denyReply cfg) else NeedBody [].
Proof.
  unfold mcp_OnRequestHeaders, ungoverned, refused. set (h := headersOf st).
  case_bool_decide as Hv; [|done]. simpl.
  case_bool_decide as Hm; simpl.
  { rewrite Hm, bool_decide_eq_false_2; [done|]. by intros ?%governed_method. }
  case_bool_decide as Hg; simpl; [|done].
  case_bool_decide as Hn; simpl; [done|].
  destruct (decodeMcpHeaderValue (header h mcpNameHeader)) as [name [|]]; simpl; [|done].
  case_bool_decide as He; [by rewrite decide_True|by rewrite decide_False].
Qed.

(** The headers confirm a call only if the policy allows it, or if their name is the one
    that cannot be decoded. *)
Lemma confirmed_permitted cfg headers raw :
  let read := readBody headers raw in
  br_method read ∈ governedMethods →
  header headers mcpProtocolVersionHeader = gaMCPVersion →
  refused cfg headers = false →
  confirmed headers read = true →
  evaluate cfg (br_method read) (br_tool read) = actionAllow ∨ undecodable headers read = true.
Proof.
  intros read Hg Hv Hr Hc. unfold confirmed, headerName in Hc. rewrite !andb_true_iff in Hc.
  destruct Hc as ((((_ & Hn%negb_true_iff%bool_decide_eq_false) & Hm%bool_decide_eq_true)
                   & Ht) & Hname%bool_decide_eq_true).
  unfold refused in Hr. rewrite Hv, Hm in Hr. rewrite !bool_decide_eq_true_2 in Hr by done.
  unfold undecodable. rewrite Hv, Hm, Ht, !bool_decide_eq_true_2 with (P := _ = _) by done.
  destruct (decodeMcpHeaderValue (header headers mcpNameHeader)) as [name ok] eqn:Hd.
  simpl in *. destruct ok; simpl in *.
  - left. rewrite Hname in Hr. rewrite bool_decide_eq_false_2 in Hr.
    + simpl in Hr. apply negb_false_iff, bool_decide_eq_true in Hr. done.
    + intros Hempty. rewrite Hempty in Hd. vm_compute in Hd. injection Hd as Hd. done.
  - right. assert (name = header headers mcpNameHeader) as Hraw.
    { pose proof (decode_failed (header headers mcpNameHeader)) as Hf. rewrite Hd in Hf.
      by apply Hf. }
    rewrite <-Hraw, Hname. destruct (readBody_tool headers raw Ht) as [_ Hs].
    fold read in Hs. rewrite Hs. by rewrite !bool_decide_eq_true_2.
Qed.

Lemma undecodable_confirmed headers raw :
  let read := readBody headers raw in
  undecodable headers read = true →
  br_method read ∈ governedMethods ∧ header headers mcpProtocolVersionHeader = gaMCPVersion
  ∧ br_status read = statusMessage ∧ confirmed headers read = true.
Proof.
  intros read H. unfold undecodable in H. rewrite !andb_true_iff in H.
  destruct H as ((((((Hv%bool_decide_eq_true & Hm%bool_decide_eq_true) & Ht)
    & Hn%bool_decide_eq_true) & Hd%negb_true_iff) & Hs%bool_decide_eq_true)
    & Hg%bool_decide_eq_true).
  split_and!; [done..|]. unfold confirmed, headerName. rewrite decode_failed by done.
  destruct (readBody_tool headers raw Ht) as [Hne _]. fold read in Hne.
  rewrite Hm, Hn, Ht, (bool_decide_eq_true_2 (br_method read = br_method read)),
    (bool_decide_eq_true_2 (br_tool read = br_tool read)) by done.
  rewrite !bool_decide_eq_false_2; [done|done|].
  intros He. rewrite He in Hg. by apply governed_method in Hg.
Qed.

(** Apart from such names, the body callback decides as the policy says. *)
Lemma mcp_body cfg st body :
  let headers := headersOf st in
  let read := readBody headers (bd_Bytes body) in
  refused cfg headers = false → undecodable headers read = false →
  mcp_OnRequestBody cfg st body
  = if permits cfg (header headers mcpProtocolVersionHeader) read
    then Continue [] else Stop (denyReply cfg).
Proof.
  intros headers read Hr Hu. unfold mcp_OnRequestBody, permits, applyDefaultAction.
  fold headers read. destruct (br_status read) eqn:Hs; simpl.
  { done. }
  { by destruct (decide (mc_DefaultAction cfg = actionAllow)) as [He|He];
      rewrite ?bool_decide_eq_true_2, ?bool_decide_eq_false_2 by done. }
  case_bool_decide as Hg; simpl; [|done].
  case_bool_decide as Hv; simpl; [|by repeat case_decide].
  destruct (bool_decide (_ = gaMCPVersion) && confirmed headers read) eqn:Hc.
  - apply andb_true_iff in Hc as [Hga%bool_decide_eq_true Hc].
    destruct (confirmed_permitted cfg headers (bd_Bytes body) Hg Hga Hr Hc) as [He|He];
      fold read in He; [|congruence].
    unfold confirmed in Hc. rewrite !andb_true_iff in Hc. destruct Hc as ((_ & Ht) & _).
    by rewrite Ht, bool_decide_eq_true_2.
  - destruct (br_hasTool read); simpl; by repeat case_decide; repeat case_bool_decide.
Qed.

(** C18: what the two callbacks of a tool policy decide together, for every policy, request
    and body. In revision 2026-07-28 the headers alone decide in two cases, whatever the
    body: a request whose Mcp-Method is present and is not tools/call passes, and a
    tools/call with a present, decodable Mcp-Name that the rules do not allow is refused.
    Every other request is decided by its body: a blank body passes, and so does a message
    of another method than tools/call; a body that cannot be read as one message passes if
    the default action is to allow. A tools/call under an unsupported or missing version
    passes if the policy passes such calls through; under a supported one, it passes if the
    rules allow its tool, or, without a tool name, if the default action is to allow. There
    is one exception: a call in revision 2026-07-28 whose Mcp-Name has the form of an
    encoded name, cannot be decoded, and is as it stands the tool of the body, passes under
    every policy. A request that does not pass gets the configured reply. *)
Theorem mcp_acl_decides cfg st body :
  let headers := headersOf st in
  let read := readBody headers (bd_Bytes body) in
  mcp_decision cfg st body
  = if ungoverned headers
       || negb (refused cfg headers)
          && (permits cfg (header headers mcpProtocolVersionHeader) read
              || undecodable headers read)
    then Continue [] else Stop (denyReply cfg).
Proof.
  intros headers read. unfold mcp_decision. rewrite mcp_headers. fold headers.
  destruct (ungoverned headers); [done|]. simpl.
  destruct (refused cfg headers) eqn:Hr; [done|]. simpl.
  destruct (undecodable headers read) eqn:Hu.
  - rewrite orb_true_r. destruct (undecodable_confirmed _ _ Hu) as (Hg & Hv & Hs & Hc).
    fold read in Hg, Hs, Hc. unfold mcp_OnRequestBody. fold headers read. rewrite Hs, Hv, Hc.
    by rewrite (bool_decide_eq_true_2 _ Hg).
  - rewrite orb_false_r. apply (mcp_body cfg st body Hr). done.
Qed.

(** A call under a name that looks encoded but cannot be decoded, spelled the same in
    the headers and in the body, passes under every policy: the header callback leaves it to
    the body callback, which takes the agreement for a decision that was already made. *)
Theorem undecodable_name_passes cfg st body tool :
  header (headersOf st) mcpProtocolVersionHeader = gaMCPVersion →
  header (headersOf st) mcpMethodHeader = "tools/call" →
  header (headersOf st) mcpNameHeader = tool →
  (decodeMcpHeaderValue tool).2 = false →
  readBody (headersOf st) (bd_Bytes body)
  = {| br_status := statusMessage; br_method := "tools/call"; br_tool := tool;
       br_hasTool := true |} →
  mcp_decision cfg st body = Continue [].
Proof.
  intros Hv Hm Hn Hd Hread. unfold mcp_decision, mcp_OnRequestHeaders.
  rewrite Hv, Hm, Hn. simpl.
  assert (mcp_OnRequestBody cfg st body = Continue []) as Hbody.
  { apply decode_failed in Hd as Hraw. unfold mcp_OnRequestBody, confirmed, headerName.
    rewrite Hread, Hv, Hm, Hn, Hraw. simpl.
    rewrite (bool_decide_eq_true_2 (tool = tool)), bool_decide_eq_false_2; [done| |done].
    intros ->. by vm_compute in Hd. }
  destruct (decodeMcpHeaderValue tool) as [name ok]. simpl in Hd. subst ok.
  by destruct (negb _).
Qed.

End mcpacl.

(** ** An example: the policy that refuses every call *)

Definition quoted (s : string) : string :=
  let quote := String (Ascii.ascii_of_N 34) "" in (quote +:+ s +:+ quote)%string.

Definition oddName : string := "=?base64?!?=".

Definition oddRequest : string :=
  ("{" +:+ quoted "method" +:+ ":" +:+ quoted "tools/call" +:+ "," +:+ quoted "params"
   +:+ ":{" +:+ quoted "name" +:+ ":" +:+ quoted oddName +:+ "}}")%string.

(** Decoders that know this document, and no compression. *)
#[local] Instance exampleDecoders : McpDecoders :=
  {| gzipReader _ := None; zlibReader _ := None;
     flateReader _ := {| rd_data := []; rd_failed := true |};
     unmarshalRequest body :=
       if decide (String.string_of_list_ascii body = oddRequest)
       then Some ("tools/call", quoted oddName) else None;
     unmarshalText text := if decide (text = quoted oddName) then Some oddName else None |}.

#[local] Instance exampleFolding : CaseFolding := asciiFolding.

Definition denyAll : McpConfig :=
  {| mc_DefaultAction := actionDeny; mc_UnsupportedVersionAction := actionDeny;
     mc_DenyStatus := 0; mc_DenyBody := "";
     mc_Rules := [{| me_Method := "tools/call"; me_ToolNames := []; me_Action := actionDeny |}] |}.

#[local] Instance mcpDeployment : Deployment :=
  {| Cfg := McpConfig; Scope := unit; FilterInstance := McpConfig; Logger := unit;
     Authorizer := unit; World := unit |}.

Definition oddStream : Stream :=
  {| st_Context :=
       {| rc_Caller := {| sj_Workload := {| wl_UID := ""; wl_Namespace := ""; wl_Name := "";
                                            wl_IP := ""; wl_Labels := ∅;
                                            wl_SecurityProfileReferences := None |};
                          sj_Sandbox := None |};
          rc_Request :=
            {| rq_Host := ""; rq_Port := 0; rq_OriginalDestination := noAddrPort; rq_Path := "";
               rq_Query := ∅; rq_RawQuery := ""; rq_Method := "POST"; rq_Scheme := "";
               rq_Headers := {[ "mcp-protocol-version" := "2026-07-28";
                                "mcp-method" := "tools/call"; "mcp-name" := oddName ]} |};
          rc_RequestID := "";
          rc_Policies := {| ps_DestinationAuthorizer := None; ps_FilterRules := [];
                            ps_StreamLogger := None |} |};
     st_Upstream := None; st_Response := {| rs_Status := 0; rs_Headers := ∅ |} |}.

Lemma undecodable_name_passes_witness :
  evaluate denyAll "tools/call" oddName = actionDeny
  ∧ mcp_decision denyAll oddStream {| bd_Bytes := oddRequest; bd_Complete := true |}
    = Continue [].
Proof.
  split; [reflexivity|].
  apply (undecodable_name_passes denyAll oddStream
           {| bd_Bytes := oddRequest; bd_Complete := true |} oddName); vm_compute; reflexivity.
Defined.
