(* ===== verification/BuiltinFilters.v ===== *)
(** * Filters of the repository

    src/extensions/epe/pkg/filters/block, bypass and headermutation (and mcpacl, from
    [McpAcl]) behind the interface of the engine, with the policy on
    header names of engine/filter/headername.go: the payloads they accept and what they do.
    JSON decoding, templates and the syntax of header fields are parameters. *)

From S2P Require Import Prelude Netip Filter Fold Engine EngineInvariant EngineTheorems Attributes ExtProcAuthorization McpAcl.

(** ** Header names: headername.go *)

(** golang.org/x/net/http/httpguts *)
Class HeaderSyntax := {
  ValidHeaderFieldName : string → bool;
  ValidHeaderFieldValue : string → bool
}.

Definition hopByHopNames : list string :=
  ["connection"; "keep-alive"; "proxy-connection"; "upgrade"; "te"; "trailer";
   "proxy-authenticate"; "content-encoding"].

Definition framingNames : list string := ["content-length"; "transfer-encoding"].

Definition ValidateHeaderName `{CF : CaseFolding} `{HS : HeaderSyntax} (kind : HeaderOpKind)
    (name : string) : result string :=
  if negb (ValidHeaderFieldName name) then Err "header has an invalid name" else
  let normalized := ToLower name in
  if decide (normalized = "host") then Err "header cannot modify Host"
  else if String.prefix "x-envoy" normalized
  then Err "header is reserved by Envoy and would be ignored"
  else if decide (normalized ∈ hopByHopNames)
  then Err "header is connection-scoped and cannot be mutated"
  else if bool_decide (normalized ∈ framingNames) && bool_decide (kind ≠ HeaderRemove)
  then Err "header controls message framing and can only be removed"
  else Ok normalized.

(** ** block *)

Record BlockConfig := { bl_Status : Z; bl_Body : string; bl_HasBody : bool }.
Record blockSpec := { bs_StatusCode : Z; bs_Body : option string }.

Definition defaultStatus : Z := 403.

Definition block_parse (unmarshal : string → result blockSpec) (raw : string)
    : result BlockConfig :=
  let! s := unmarshal raw in
  Ok {| bl_Status := bs_StatusCode s; bl_Body := default "" (bs_Body s);
        bl_HasBody := match bs_Body s with Some _ => true | None => false end |}.

Definition block_OnRequestHeaders (cfg : BlockConfig) : result Action :=
  let status := if (bl_Status cfg =? 0)%Z then defaultStatus else bl_Status cfg in
  Ok (Stop {| rep_Status := status; rep_HeaderOps := [];
              rep_Body := if bl_HasBody cfg then bl_Body cfg else ""; rep_Details := "" |}).

(** ** bypass *)

Definition bypass_parse (valid : string → bool) (raw : string) : result unit :=
  if negb (bool_decide (raw = "")) && negb (valid raw)
  then Err "bypass payload is not valid JSON" else Ok ().

Definition bypass_OnRequestHeaders : result Action := Ok Bypass.

(** ** headermutation *)

(** Templates, with the scope they are executed in. *)
Class Templates := {
  Template : Type;
  TemplateScope : Type;
  CompileTemplate : string → string → result Template;
  ProbeRender : Template → result string;
  RenderToString : Template → TemplateScope → result string
}.

Section headermutation.
Context `{CF : CaseFolding} `{HS : HeaderSyntax} `{TM : Templates}.

(** A nil template is [None]. *)
Record ValueOp := { vo_Name : string; vo_Value : option Template }.
Record OpSet := { os_Set : list ValueOp; os_Add : list ValueOp; os_Remove : list string }.
Record HeaderConfig := { hc_Request : OpSet; hc_Response : OpSet }.

Record valueSpec := { vs_Name : string; vs_Value : string }.
Record opSpec := { op_Set : list valueSpec; op_Add : list valueSpec; op_Remove : list string }.
Record headerSpec := { hs_Request : opSpec; hs_Response : opSpec }.

Definition opSpec_empty (o : opSpec) : bool :=
  length (op_Set o) + length (op_Add o) + length (op_Remove o) =? 0.

Definition OpSet_empty (o : OpSet) : bool :=
  length (os_Set o) + length (os_Add o) + length (os_Remove o) =? 0.

Definition HasResponseOps (c : HeaderConfig) : bool := negb (OpSet_empty (hc_Response c)).

(** [validateName], with the names seen so far. *)
Definition validateName (seen : gset string) (kind : HeaderOpKind) (name : string)
    : result (string * gset string) :=
  let! normalized := ValidateHeaderName kind name in
  if decide (normalized ∈ seen) then Err "header duplicates another operation"
  else Ok (normalized, {[normalized]} ∪ seen).

(** [compile] *)
Definition compileOp (kind : HeaderOpKind) (acc : list ValueOp * gset string) (op : valueSpec)
    : result (list ValueOp * gset string) :=
  let '(out, seen) := acc in
  let! x := validateName seen kind (vs_Name op) in
  let! tmpl := CompileTemplate (vs_Name op) (vs_Value op) in
  let! _ := ProbeRender tmpl in
  Ok (out ++ [{| vo_Name := x.1; vo_Value := Some tmpl |}], x.2).

Definition removeName (acc : list string * gset string) (name : string)
    : result (list string * gset string) :=
  let '(out, seen) := acc in
  let! x := validateName seen HeaderRemove name in
  Ok (out ++ [x.1], x.2).

Definition compilePhase (s : opSpec) : result OpSet :=
  let! set := rfold (compileOp HeaderSet) (op_Set s) ([], ∅) in
  let! add := rfold (compileOp HeaderAdd) (op_Add s) ([], set.2) in
  let! remove := rfold removeName (op_Remove s) ([], add.2) in
  Ok {| os_Set := set.1; os_Add := add.1; os_Remove := remove.1 |}.

Definition header_parse (unmarshal : string → result headerSpec) (raw : string)
    : result HeaderConfig :=
  let! s := unmarshal raw in
  if opSpec_empty (hs_Request s) && opSpec_empty (hs_Response s)
  then Err "header mutation has no operations"
  else
    let! request := compilePhase (hs_Request s) in
    let! response := compilePhase (hs_Response s) in
    Ok {| hc_Request := request; hc_Response := response |}.

Definition missingKeySentinel : string := "<no value>".

(** [strings.Contains] *)
Definition contains (s sub : string) : bool :=
  match String.index 0 sub s with Some _ => true | None => false end.

(** [render] *)
Definition renderOp (scope : TemplateScope) (kind : HeaderOpKind) (rendered : list HeaderOp)
    (op : ValueOp) : result (list HeaderOp) :=
  match vo_Value op with
  | None => Err "render header: nil value template"
  | Some t =>
      let! value := RenderToString t scope in
      if negb (ValidHeaderFieldValue value)
      then Err "render header: value contains invalid characters"
      else if contains value missingKeySentinel
      then Err "render header: value resolved to no value"
      else Ok (rendered ++ [{| op_Kind := kind; op_Name := vo_Name op; op_Value := value |}])
  end.

Definition opMutation (op : HeaderOp) : Mutation :=
  match op_Kind op with
  | HeaderSet => SetHeader (op_Name op) (op_Value op)
  | _ => AddHeader (op_Name op) (op_Value op)
  end.

Definition mutationsFor (ops : OpSet) (scope : TemplateScope) : result (list Mutation) :=
  let! rendered := rfold (renderOp scope HeaderSet) (os_Set ops) [] in
  let! rendered := rfold (renderOp scope HeaderAdd) (os_Add ops) rendered in
  Ok ((opMutation <$> rendered) ++ (RemoveHeader <$> os_Remove ops)).

Definition header_OnRequestHeaders (cfg : HeaderConfig) (scope : TemplateScope) : result Action :=
  let! ms := mutationsFor (hc_Request cfg) scope in Ok (Continue ms).

Definition header_OnResponseHeaders (cfg : HeaderConfig) (scope : TemplateScope) : result Action :=
  let! ms := mutationsFor (hc_Response cfg) scope in Ok (Continue ms).

Definition header_SubscribesOf (c : HeaderConfig) : Phase :=
  if HasResponseOps c then PhaseResponseHeaders else 0%N.

(** ** What an accepted payload can do *)

(** The operations of a phase by kind. *)
Definition kinds (o : OpSet) : list (HeaderOpKind * string) :=
  ((λ v, (HeaderSet, vo_Name v)) <$> os_Set o)
  ++ ((λ v, (HeaderAdd, vo_Name v)) <$> os_Add o)
  ++ ((λ n, (HeaderRemove, n)) <$> os_Remove o).

(** A name that the policy permits for a kind. *)
Definition permitted (x : HeaderOpKind * string) : Prop :=
  (∃ name, ValidHeaderFieldName name = true ∧ x.2 = ToLower name)
  ∧ x.2 ≠ "host" ∧ String.prefix "x-envoy" x.2 = false ∧ (x.2 ∉ hopByHopNames)
  ∧ (x.2 ∈ framingNames → x.1 = HeaderRemove).

Lemma ValidateHeaderName_permitted kind name n :
  ValidateHeaderName kind name = Ok n → permitted (kind, n).
Proof.
  unfold ValidateHeaderName. destruct (ValidHeaderFieldName name) eqn:Hv; simpl; [|done].
  destruct (decide _) as [|Hh]; [done|]. destruct (String.prefix _ _) eqn:Hp; [done|].
  destruct (decide _) as [|Hb]; [done|]. destruct (_ && _) eqn:Hf; [done|]. intros [= <-].
  split; [by exists name|]. split; [done|]. split; [done|]. split; [done|]. simpl. intros Hin.
  apply andb_false_iff in Hf as [Hf|Hf]; apply bool_decide_eq_false in Hf; [done|].
  by destruct (decide (kind = HeaderRemove)).
Qed.

(** What is seen so far: permitted operations on distinct names. *)
Definition seen_ok (ops : list (HeaderOpKind * string)) (seen : gset string) : Prop :=
  NoDup ops.*2 ∧ (∀ n, n ∈ ops.*2 → n ∈ seen) ∧ Forall permitted ops.

Lemma validateName_ok ops seen kind name x :
  seen_ok ops seen → validateName seen kind name = Ok x → seen_ok (ops ++ [(kind, x.1)]) x.2.
Proof.
  intros (Hnd & Hin & Hall). unfold validateName. intros (n & Hn%ValidateHeaderName_permitted & H)%rbind_Ok.
  destruct (decide (n ∈ seen)) as [|Hs]; [done|]. injection H as <-. simpl. unfold seen_ok.
  rewrite fmap_app. simpl. split; [|split].
  - apply NoDup_app. split; [done|]. split; [|apply NoDup_singleton].
    intros m Hm ->%list_elem_of_singleton. by apply Hs, Hin.
  - intros m [Hm|Hm%list_elem_of_singleton]%elem_of_app; set_solver.
  - apply Forall_app. split; [done|]. by constructor.
Qed.

Lemma compileOps_ok kind l pre ops seen out seen' :
  seen_ok (pre ++ ((λ v, (kind, vo_Name v)) <$> ops)) seen →
  rfold (compileOp kind) l (ops, seen) = Ok (out, seen') →
  seen_ok (pre ++ ((λ v, (kind, vo_Name v)) <$> out)) seen'.
Proof.
  revert ops seen. induction l as [|v l IH]; intros ops seen Hs; simpl; [by intros [= <- <-]|].
  intros ([o s] & (x & Hx & (t & _ & (? & _ & [= <- <-])%rbind_Ok)%rbind_Ok)%rbind_Ok & H)%rbind_Ok.
  eapply IH; [|exact H]. rewrite fmap_app, app_assoc. simpl. by eapply validateName_ok.
Qed.

Lemma removeNames_ok l pre ns seen out seen' :
  seen_ok (pre ++ ((λ n, (HeaderRemove, n)) <$> ns)) seen →
  rfold removeName l (ns, seen) = Ok (out, seen') →
  seen_ok (pre ++ ((λ n, (HeaderRemove, n)) <$> out)) seen'.
Proof.
  revert ns seen. induction l as [|v l IH]; intros ns seen Hs; simpl; [by intros [= <- <-]|].
  intros ([o s] & (x & Hx & [= <- <-])%rbind_Ok & H)%rbind_Ok.
  eapply IH; [|exact H]. rewrite fmap_app, app_assoc. simpl. by eapply validateName_ok.
Qed.

Lemma compilePhase_ok s ops :
  compilePhase s = Ok ops → NoDup (kinds ops).*2 ∧ Forall permitted (kinds ops).
Proof.
  unfold compilePhase.
  intros ([set seen1] & H1 & ([add seen2] & H2 & ([remove seen3] & H3 & [= <-])%rbind_Ok)%rbind_Ok)%rbind_Ok.
  simpl in H2, H3.
  apply (compileOps_ok HeaderSet _ [] []) in H1; [|split; [constructor|split; [set_solver|constructor]]].
  apply (compileOps_ok HeaderAdd _ ((λ v, (HeaderSet, vo_Name v)) <$> set) []) in H2;
    [|by rewrite app_nil_r].
  apply (removeNames_ok _ (((λ v, (HeaderSet, vo_Name v)) <$> set)
    ++ ((λ v, (HeaderAdd, vo_Name v)) <$> add)) []) in H3; [|by rewrite app_nil_r].
  rewrite <-app_assoc in H3. destruct H3 as (Hnd & _ & Hall). done.
Qed.

(** The operations of the rendered mutations are those of the configuration. *)
Lemma renderOps_kinds scope kind l out res :
  rfold (renderOp scope kind) l out = Ok res →
  ((λ op, (op_Kind op, op_Name op)) <$> res)
  = ((λ op, (op_Kind op, op_Name op)) <$> out) ++ ((λ v, (kind, vo_Name v)) <$> l).
Proof.
  revert out. induction l as [|v l IH]; intros out; simpl; [intros [= <-]; by rewrite app_nil_r|].
  intros (o & Ho & ->%IH)%rbind_Ok. unfold renderOp in Ho. destruct (vo_Value v) as [t|]; [|done].
  apply rbind_Ok in Ho as (value & _ & Ho). destruct (negb _); [done|].
  destruct (contains _ _); [done|]. injection Ho as <-. rewrite fmap_app, <-app_assoc. done.
Qed.

Definition mutationKinds (ms : list Mutation) : list (HeaderOpKind * string) :=
  (λ op, (op_Kind op, op_Name op)) <$> flat_map mut_HeaderOps ms.

Lemma flat_map_sets l :
  Forall (λ op, op_Kind op ≠ HeaderRemove) l →
  flat_map mut_HeaderOps (opMutation <$> l) = l.
Proof.
  induction 1 as [|op l Hk _ IH]; [done|]. rewrite fmap_cons. simpl. rewrite IH.
  unfold opMutation. by destruct op as [[] n v].
Qed.

Lemma flat_map_removes ns :
  flat_map mut_HeaderOps (RemoveHeader <$> ns) = removeOp <$> ns.
Proof. induction ns as [|n ns IH]; [done|]. rewrite !fmap_cons. simpl. by rewrite IH. Qed.

Lemma mutationsFor_kinds ops scope ms :
  mutationsFor ops scope = Ok ms →
  mutationKinds ms = kinds ops
  ∧ Forall (λ m, mut_Route m = None ∧ mut_Body m = None ∧ mut_StatusCode m = None) ms.
Proof.
  unfold mutationsFor. intros (r1 & H1 & (r2 & H2 & [= <-])%rbind_Ok)%rbind_Ok.
  apply renderOps_kinds in H1, H2. simpl in H1. rewrite H1 in H2.
  assert (Forall (λ op, op_Kind op ≠ HeaderRemove) r2) as Hr.
  { apply Forall_forall. intros op Hop.
    assert ((op_Kind op, op_Name op) ∈ (λ op, (op_Kind op, op_Name op)) <$> r2) as Hin
      by (by apply list_elem_of_fmap; exists op).
    rewrite H2, elem_of_app, !list_elem_of_fmap in Hin.
    destruct Hin as [(v & [= -> _] & _)|(v & [= -> _] & _)]; done. }
  split.
  - unfold mutationKinds, kinds. rewrite flat_map_app, fmap_app, flat_map_sets by done.
    by rewrite flat_map_removes, app_assoc, <-H2, <-list_fmap_compose.
  - apply Forall_app. split; apply Forall_forall; intros m (x & -> & _)%list_elem_of_fmap; [|done].
    unfold opMutation. by destruct (op_Kind x).
Qed.

(** What is documented of the syntax of names: a field name is a token, which has no
    colon, so it folds to no pseudo header. *)
Definition tokens_have_no_colon : Prop :=
  ∀ name, ValidHeaderFieldName name = true →
    EqualFold (ToLower name) ":status" = false
    ∧ ToLower (ToLower name) = ToLower name
    ∧ ToLower name ∉ [":authority"; ":scheme"; ":method"].

Lemma permitted_name x :
  tokens_have_no_colon → permitted x →
  EqualFold x.2 ":status" = false ∧ ToLower x.2 ∉ routingNames.
Proof.
  intros Htok ((name & Hv & Hx) & Hh & _). destruct (Htok name Hv) as (Hs & Hl & Hn).
  rewrite Hx in *. split; [done|]. rewrite Hl. unfold routingNames. set_solver.
Qed.

Lemma foldRoute_none ms : Forall (λ m, mut_Route m = None) ms → foldRoute ms = Ok None.
Proof.
  unfold foldRoute, foldRouteFrom. generalize false. intros b H. revert b.
  induction H as [|m ms Hm _ IH]; intros b; [done|]. simpl.
  unfold foldRouteStep at 1. rewrite Hm. simpl. apply IH.
Qed.

Lemma rfold_unit_all {A} (f : A → result unit) l :
  Forall (λ x, f x = Ok ()) l → rfold (λ _ x, f x) l () = Ok ().
Proof. induction 1 as [|x l Hx _ IH]; [done|]. simpl. by rewrite Hx. Qed.

Lemma plain_mutation_valid phase m :
  phase = PhaseRequestHeaders ∨ phase = PhaseResponseHeaders →
  mut_Route m = None → mut_StatusCode m = None →
  Forall (λ op, EqualFold (op_Name op) ":status" = false) (mut_HeaderOps m) →
  validateMutation phase m = Ok ().
Proof.
  intros Hphase Hr Hs Hops. unfold validateMutation, clearsCache. rewrite Hr, Hs. simpl.
  assert (rfold (λ _ op, validateOp phase op) (mut_HeaderOps m) () = Ok ()) as ->.
  { apply rfold_unit_all. eapply Forall_impl; [exact Hops|]. intros op Hop. unfold validateOp.
    rewrite Hop. by destruct Hphase as [H|H]; rewrite H. }
  by destruct Hphase as [H|H]; rewrite H.
Qed.

(** C36: whatever a header mutation payload that was accepted renders to, on the request or
    on the response, the engine takes it: it names every header at most once and only
    headers the name policy permits, passes the validation of the phase, and changes
    neither the route nor any header that routing and authorization depend on. *)
Theorem header_mutation_accepted `{D : Deployment} unmarshal raw cfg scope reg phase ms :
  tokens_have_no_colon → header_parse unmarshal raw = Ok cfg →
  phase = PhaseRequestHeaders ∧ header_OnRequestHeaders cfg scope = Ok (Continue ms)
  ∨ phase = PhaseResponseHeaders ∧ header_OnResponseHeaders cfg scope = Ok (Continue ms) →
  NoDup (mutationKinds ms).*2 ∧ Forall permitted (mutationKinds ms)
  ∧ validateAction reg phase (Continue ms) = Ok ()
  ∧ foldRoute ms = Ok None ∧ List.filter routing (fold ms) = [].
Proof.
  intros Htok Hparse Hcall.
  assert (∃ s ops, compilePhase s = Ok ops ∧ mutationsFor ops scope = Ok ms) as (s & ops & Hc & Hm).
  { unfold header_parse in Hparse. apply rbind_Ok in Hparse as (sp & _ & Hparse).
    destruct (_ && _); [done|].
    apply rbind_Ok in Hparse as (req & Hreq & (resp & Hresp & [= <-])%rbind_Ok).
    destruct Hcall as [[_ H]|[_ H]]; apply rbind_Ok in H as (ms' & Hms & [= <-]); eauto. }
  assert (phase = PhaseRequestHeaders ∨ phase = PhaseResponseHeaders) as Hphase by naive_solver.
  clear Hcall Hparse. apply compilePhase_ok in Hc as [Hnd Hall].
  apply mutationsFor_kinds in Hm as [Hk Hplain]. rewrite <-Hk in Hnd, Hall.
  split; [done|]. split; [done|].
  assert (∀ op, op ∈ flat_map mut_HeaderOps ms → permitted (op_Kind op, op_Name op)) as Hop.
  { intros op Hin. rewrite Forall_forall in Hall. apply Hall.
    unfold mutationKinds. apply list_elem_of_fmap. by exists op. }
  rewrite Forall_forall in Hplain. split; [|split].
  - unfold validateAction. simpl. apply rfold_unit_all, Forall_forall. intros m Hm.
    destruct (Hplain m Hm) as (Hr & _ & Hs). apply plain_mutation_valid; [done..|].
    apply Forall_forall. intros op Hin. apply (permitted_name (op_Kind op, op_Name op) Htok), Hop.
    apply list_elem_of_In, in_flat_map. exists m. by rewrite <-!list_elem_of_In.
  - apply foldRoute_none, Forall_forall. intros m Hm. by apply Hplain.
  - apply filter_none. intros op Hin%fold_from_ops. apply bool_decide_eq_false_2.
    assert (∃ op', op' ∈ flat_map mut_HeaderOps ms ∧ op_Name op' = op_Name op) as (op' & Ho & <-).
    { unfold from_ops in Hin. destruct (is_remove op); [done|]. by exists op. }
    by apply (permitted_name (op_Kind op', op_Name op') Htok), Hop.
Qed.

(** A configuration that does not subscribe to responses would not change them. *)
Lemma header_subscription cfg scope :
  header_SubscribesOf cfg = 0%N → header_OnResponseHeaders cfg scope = Ok (Continue []).
Proof.
  unfold header_SubscribesOf, HasResponseOps, header_OnResponseHeaders, mutationsFor.
  destruct (OpSet_empty (hc_Response cfg)) eqn:He; [|done]. intros _.
  apply Nat.eqb_eq in He. destruct (hc_Response cfg) as [[|] [|] [|]]; simpl in He; try lia. done.
Qed.

End headermutation.

(** ** The filters behind the interface of the engine *)

(** The documents of the payloads. *)
Class Payloads := {
  unmarshalBlock : string → result blockSpec;
  validJSON : string → bool;
  unmarshalHeader : string → result headerSpec;
  unmarshalMcp : string → result mcpSpec
}.

Section builtin.
Context `{CF : CaseFolding} `{HS : HeaderSyntax} `{TM : Templates} `{PL : Payloads}.
Context `{MD : McpDecoders} {L A W : Type}.

Inductive builtinCfg :=
| BlockCfg (c : BlockConfig)
| BypassCfg
| HeaderCfg (c : HeaderConfig)
| McpCfg (c : McpConfig).

#[local] Instance builtinDeployment : Deployment :=
  {| Cfg := builtinCfg; Scope := TemplateScope; FilterInstance := builtinCfg * TemplateScope;
     Logger := L; Authorizer := A; World := W |}.

Definition builtinRequestHeaders (f : builtinCfg * TemplateScope) (st : Stream)
    : result Action :=
  match f.1 with
  | BlockCfg c => block_OnRequestHeaders c
  | BypassCfg => bypass_OnRequestHeaders
  | HeaderCfg c => header_OnRequestHeaders c f.2
  | McpCfg c => Ok (mcp_OnRequestHeaders c st)
  end.

Definition builtinRequestBody (f : builtinCfg * TemplateScope) (st : Stream) (body : Body)
    : result Action :=
  match f.1 with
  | McpCfg c => Ok (mcp_OnRequestBody c st body)
  | _ => Ok (Continue [])
  end.

Definition builtinResponseHeaders (f : builtinCfg * TemplateScope) : result Action :=
  match f.1 with
  | HeaderCfg c => header_OnResponseHeaders c f.2
  | _ => Ok (Continue [])
  end.

Definition builtinFilters : @Filters builtinDeployment :=
  @Build_Filters builtinDeployment
    (λ f st w, (f, w, builtinRequestHeaders f st))
    (λ f st body w, (f, w, builtinRequestBody f st body))
    (λ f _ w, (f, w, builtinResponseHeaders f))
    (λ f _ _, passThrough f).

(** The [New] of every filter: its configuration, with the scope of the rule. *)
Definition builtinNew (r : @ErasedRuleConfig builtinDeployment) : @FilterInstance builtinDeployment :=
  (ec_Cfg r, ec_Scope r).

Definition blockDescriptor : @Descriptor builtinDeployment :=
  {| de_Name := "block"; de_Phases := PhaseRequestHeaders;
     de_OnError := Some (λ _, FailClosed); de_SubscribesOf := None;
     de_New := Some builtinNew |}.

Definition bypassDescriptor : @Descriptor builtinDeployment :=
  {| de_Name := "bypass"; de_Phases := PhaseRequestHeaders;
     de_OnError := Some (λ _, FailClosed); de_SubscribesOf := None;
     de_New := Some builtinNew |}.

(** A configuration of another filter subscribes to nothing. *)
Definition headerDescriptor : @Descriptor builtinDeployment :=
  {| de_Name := "headermutation";
     de_Phases := N.lor PhaseRequestHeaders PhaseResponseHeaders;
     de_OnError := Some (λ _, FailClosed);
     de_SubscribesOf := Some (λ c, match c with HeaderCfg c => header_SubscribesOf c | _ => 0%N end);
     de_New := Some builtinNew |}.

Definition mcpDescriptor : @Descriptor builtinDeployment :=
  {| de_Name := "mcpacl"; de_Phases := N.lor PhaseRequestHeaders PhaseRequestBody;
     de_OnError := Some (λ _, FailClosed); de_SubscribesOf := None;
     de_New := Some builtinNew |}.

Definition builtinDefinitions : list (option (result (@Registration builtinDeployment))) :=
  [Some (buildRegistration blockDescriptor
           (Some (λ raw, let! c := block_parse unmarshalBlock raw in Ok (BlockCfg c))));
   Some (buildRegistration bypassDescriptor
           (Some (λ raw, let! _ := bypass_parse validJSON raw in Ok BypassCfg)));
   Some (buildRegistration headerDescriptor
           (Some (λ raw, let! c := header_parse unmarshalHeader raw in Ok (HeaderCfg c))));
   Some (buildRegistration mcpDescriptor
           (Some (λ raw, let! c := mcp_parse unmarshalMcp raw in Ok (McpCfg c))))].

(** The definitions build, and a filter that does not subscribe to responses would let
    them pass unchanged: the engine may skip it. *)
Lemma builtin_registrations :
  ∃ regs, Build builtinDefinitions = Ok regs
    ∧ reg_Name <$> regs = ["block"; "bypass"; "headermutation"; "mcpacl"]
    ∧ ∀ reg subscribes cfg scope (st : @Stream builtinDeployment) w,
        reg ∈ regs → reg_Subscribes reg = Some subscribes → reg_Name reg = "headermutation" →
        meets (subscribes cfg) PhaseResponseHeaders = false →
        @OnResponseHeaders _ builtinFilters (cfg, scope) st w
        = ((cfg, scope), w, Ok (Continue [])).
Proof.
  eexists. split; [reflexivity|]. split; [reflexivity|].
  intros reg subscribes cfg scope st w Hin Hs Hn Hm. simpl. do 2 f_equal.
  unfold builtinResponseHeaders. destruct cfg as [c| |c|c]; [done..| |done]. simpl.
  apply header_subscription.
  apply elem_of_cons in Hin as [->|Hin]; [done|]. apply elem_of_cons in Hin as [->|Hin]; [done|].
  apply elem_of_cons in Hin as [->|Hin];
    [|by apply list_elem_of_singleton in Hin as ->].
  simpl in Hs. injection Hs as <-. unfold header_SubscribesOf in *.
  by destruct (HasResponseOps c).
Qed.

End builtin.

(** ** An example *)

#[local] Instance exampleNames : CaseFolding := asciiFolding.

#[local] Instance exampleSyntax : HeaderSyntax :=
  {| ValidHeaderFieldName n := bool_decide (n ∈ ["X-Team"; "cookie"]);
     ValidHeaderFieldValue v := negb (contains v "!") |}.

(** A template is the text it renders to. *)
#[local] Instance exampleTemplates : Templates :=
  {| Template := string; TemplateScope := unit; CompileTemplate _ text := Ok text;
     ProbeRender t := Ok t; RenderToString t _ := Ok t |}.

Definition exampleSpec : headerSpec :=
  {| hs_Request := {| op_Set := [{| vs_Name := "X-Team"; vs_Value := "a" |}]; op_Add := [];
                      op_Remove := ["cookie"] |};
     hs_Response := {| op_Set := []; op_Add := []; op_Remove := [] |} |}.

Definition exampleHeaderConfig : HeaderConfig :=
  match header_parse (λ _, Ok exampleSpec) "" with
  | Ok c => c
  | Err _ => {| hc_Request := {| os_Set := []; os_Add := []; os_Remove := [] |};
                hc_Response := {| os_Set := []; os_Add := []; os_Remove := [] |} |}
  end.

Lemma header_mutation_accepted_witness :
  tokens_have_no_colon
  ∧ foldRoute [SetHeader "x-team" "a"; RemoveHeader "cookie"] = Ok None.
Proof.
  assert (tokens_have_no_colon) as Htok.
  { intros name Hv. apply bool_decide_eq_true in Hv.
    apply elem_of_cons in Hv as [Hv|Hv]; [rewrite Hv; vm_compute|
      apply list_elem_of_singleton in Hv; rewrite Hv; vm_compute];
      (split; [reflexivity|]; split; [reflexivity|]; set_solver). }
  split; [exact Htok|].
  destruct (header_mutation_accepted
    (D := builtinDeployment (L := unit) (A := unit) (W := unit))
    (λ _, Ok exampleSpec) "" exampleHeaderConfig ()
    {| reg_Name := ""; reg_Phases := 1%N; reg_OnError := None; reg_Parse _ := Err "";
       reg_New := builtinNew; reg_Subscribes := None |}
    PhaseRequestHeaders [SetHeader "x-team" "a"; RemoveHeader "cookie"] Htok)
    as (_ & _ & _ & Hr & _).
  - vm_compute. reflexivity.
  - left. split; vm_compute; reflexivity.
  - exact Hr.
Defined.
