(* ===== verification/ExtProcHeaders.v ===== *)
(** * Header mutations as the proxy executes them

    src/extensions/epe/pkg/engine/fold.go with src/extensions/epe/pkg/extproc/translate.go:
    the proxy executes the removals of a HeaderMutation before everything it sets. One
    mutation, made from the folded operations, has the effect of the operations in the
    order the filters returned them. *)

From S2P Require Import Prelude Netip Filter Attributes Fold Engine ExtProc BuiltinFilters.


Section headers.
Context `{CF : CaseFolding}.





(** ** Folded removals are removals of a filter *)






(** ** A mutation keeps sets and removals apart *)










End headers.



