(* ===== verification/Cache.v ===== *)
(** * Caches with expiration

    src/pkg/cache: a cache of values with a deadline, over a store of entries. The store is
    an interface: a plain map for an unbounded cache and, for a bounded one, the
    least-recently-used list of a library. Times are numbers, and 0 is the zero time. *)

From S2P Require Import Prelude.

(** ** Stores of entries *)

(** What the cache calls: [peek] reads, [touch] marks a key as recently used, [add] inserts
    or replaces, and may evict other keys. *)
Class CacheStore (K E : Type) := {
  store_type : Type;
  store_empty : store_type;
  store_peek : store_type → K → option E;
  store_touch : K → store_type → store_type;
  store_add : K → E → store_type → store_type;
  store_remove : K → store_type → store_type
}.

(** The documented behaviour of a store. *)
Class CacheStoreLaws (K E : Type) `{CS : CacheStore K E} := {
  peek_empty : ∀ k, store_peek store_empty k = None;
  peek_touch : ∀ k s k', store_peek (store_touch k s) k' = store_peek s k';
  peek_add : ∀ k e s, store_peek (store_add k e s) k = Some e;
  peek_add_ne : ∀ k e s k' e', k ≠ k' →
    store_peek (store_add k e s) k' = Some e' → store_peek s k' = Some e';
  peek_remove : ∀ k s, store_peek (store_remove k s) k = None;
  peek_remove_ne : ∀ k s k', k ≠ k' → store_peek (store_remove k s) k' = store_peek s k'
}.

(** The map of an unbounded cache. *)
#[export] Instance mapStore `{Countable K} (E : Type) : CacheStore K E | 10 :=
  {| store_type := gmap K E; store_empty := ∅; store_peek s k := s !! k;
     store_touch _ s := s; store_add k e s := <[k := e]> s;
     store_remove k s := delete k s |}.

#[export] Instance mapStore_laws `{Countable K} E : CacheStoreLaws K E (CS := mapStore E).
Proof.
  split; simpl; intros.
  - apply lookup_empty.
  - done.
  - apply lookup_insert_eq.
  - by rewrite lookup_insert_ne in *.
  - apply lookup_delete_eq.
  - by rewrite lookup_delete_ne.
Qed.

(** A bounded store: the entries with the most recently used first. *)
Section lru.
Context `{EqDecision K} {E : Type}.

Fixpoint assoc (l : list (K * E)) (k : K) : option E :=
  match l with
  | [] => None
  | (k', e) :: l => if decide (k' = k) then Some e else assoc l k
  end.

Definition without (k : K) (l : list (K * E)) : list (K * E) :=
  List.filter (λ x, negb (bool_decide (x.1 = k))) l.

Definition lruStore (capacity : nat) : CacheStore K E :=
  {| store_type := list (K * E); store_empty := []; store_peek := assoc;
     store_touch k l := match assoc l k with Some e => (k, e) :: without k l | None => l end;
     store_add k e l := (k, e) :: take capacity (without k l);
     store_remove := without |}.

Lemma assoc_without k l k' : k ≠ k' → assoc (without k l) k' = assoc l k'.
Proof.
  intros Hne. induction l as [|[k1 e1] l IH]; simpl; [done|].
  case_bool_decide; simpl; [|by rewrite IH]. subst. by rewrite decide_False.
Qed.

Lemma assoc_without_eq k l : assoc (without k l) k = None.
Proof.
  induction l as [|[k1 e1] l IH]; simpl; [done|].
  case_bool_decide; simpl; [done|]. by rewrite decide_False.
Qed.

Lemma assoc_take n l k e : assoc (take n l) k = Some e → assoc l k = Some e.
Proof.
  revert n. induction l as [|[k1 e1] l IH]; intros [|n]; simpl; try done.
  destruct (decide (k1 = k)); [done|]. apply IH.
Qed.

Lemma lruStore_laws capacity : CacheStoreLaws K E (CS := lruStore capacity).
Proof.
  split; simpl.
  - done.
  - intros k s k'. destruct (assoc s k) as [e|] eqn:Hk; [|done]. simpl.
    destruct (decide (k = k')) as [->|Hne]; [done|]. by apply assoc_without.
  - intros k e s. by rewrite decide_True.
  - intros k e s k' e' Hne. rewrite decide_False by done.
    intros He%assoc_take. by rewrite assoc_without in He.
  - intros k s. apply assoc_without_eq.
  - intros k s k'. apply assoc_without.
Qed.

End lru.

(** ** The cache *)

Record entry (V : Type) := { en_value : V; en_expiresAt : Z }.
Arguments en_value {V}.
Arguments en_expiresAt {V}.
Arguments Build_entry {V}.

Definition IsZero (t : Z) : bool := (t =? 0)%Z.

Definition expired {V} (e : entry V) (now : Z) : bool :=
  negb (IsZero (en_expiresAt e)) && negb (now <? en_expiresAt e)%Z.

Section cache.
Context {K V : Type} `{EqDecision K} `{CS : CacheStore K (entry V)}.

(** The settings of the builder that a cache keeps; the clock is an argument. *)
Record Cache := { cc_store : store_type; cc_ttl : Z }.

Definition with_store (s : store_type) (c : Cache) : Cache :=
  {| cc_store := s; cc_ttl := cc_ttl c |}.

Definition CacheBuild (capacity ttl : Z) : result Cache :=
  if (capacity <? 0)%Z || (ttl <? 0)%Z
  then Err "cache capacity and default TTL must not be negative"
  else Ok {| cc_store := store_empty; cc_ttl := ttl |}.

Definition cacheGet (key : K) (now : Z) (c : Cache) : option V * Cache :=
  match store_peek (cc_store c) key with
  | None => (None, c)
  | Some e =>
      if expired e now then (None, with_store (store_remove key (cc_store c)) c)
      else (Some (en_value e), with_store (store_touch key (cc_store c)) c)
  end.

Definition setLocked (key : K) (value : V) (expiresAt : Z) (c : Cache) : Cache :=
  with_store (store_add key (Build_entry value expiresAt) (cc_store c)) c.

Definition cacheSet (key : K) (value : V) (now : Z) (c : Cache) : Cache :=
  setLocked key value (if (0 <? cc_ttl c)%Z then now + cc_ttl c else 0)%Z c.

Definition SetWithExpiration (key : K) (value : V) (expiresAt now : Z) (c : Cache)
    : bool * Cache :=
  if negb (IsZero expiresAt) && negb (now <? expiresAt)%Z then (false, c)
  else (true, setLocked key value expiresAt c).

Definition cacheRemove (key : K) (c : Cache) : Cache :=
  with_store (store_remove key (cc_store c)) c.

(** ** What a cache serves *)

Context `{CL : !CacheStoreLaws K (entry V)}.

(** A value that is in the cache, with its deadline. *)
Definition held (c : Cache) (key : K) (e : entry V) : Prop := store_peek (cc_store c) key = Some e.

Lemma held_functional c key e e' : held c key e → held c key e' → e = e'.
Proof. unfold held. congruence. Qed.

Lemma held_remove key c k e : held (cacheRemove key c) k e ↔ k ≠ key ∧ held c k e.
Proof.
  unfold held, cacheRemove. simpl. destruct (decide (k = key)) as [->|Hne].
  - rewrite peek_remove. naive_solver.
  - rewrite peek_remove_ne by done. naive_solver.
Qed.

Lemma held_set key v t c k e :
  held (setLocked key v t c) k e → k = key ∧ e = Build_entry v t ∨ k ≠ key ∧ held c k e.
Proof.
  unfold held, setLocked. simpl. destruct (decide (k = key)) as [->|Hne].
  - rewrite peek_add. intros [= <-]. auto.
  - intros He%peek_add_ne; auto.
Qed.

(** A read serves a value that is held and has not expired, and adds nothing. *)
Lemma cacheGet_serves key now c :
  let '(v, c') := cacheGet key now c in
  (∀ x, v = Some x → ∃ e, held c key e ∧ en_value e = x ∧ expired e now = false)
  ∧ (∀ k e, held c' k e → held c k e).
Proof.
  unfold cacheGet. destruct (store_peek (cc_store c) key) as [e|] eqn:Hk; [|done].
  destruct (expired e now) eqn:He.
  - split; [done|]. intros k e' Hh. change (held (cacheRemove key c) k e') in Hh.
    by apply held_remove in Hh as [_ ?].
  - split; [intros x [= <-]; eauto|]. intros k e'. unfold held. simpl. by rewrite peek_touch.
Qed.

(** A value that is already expired is not stored. *)
Lemma SetWithExpiration_held key v t now c k e :
  held (SetWithExpiration key v t now c).2 k e →
  k = key ∧ e = Build_entry v t ∧ expired e now = false ∨ held c k e.
Proof.
  unfold SetWithExpiration. destruct (_ && _) eqn:Hx; simpl; [by right|].
  intros [[-> ->]|[_ ?]]%held_set; [left|by right]. done.
Qed.

End cache.
