(* ===== verification/Dns.v ===== *)
(** * Resolution of names

    src/pkg/dns: a client that answers from configured records, from a cache, and from the
    network, which is a parameter. Lookups run outside the lock of the cache; a revision
    keeps an old answer from being cached after a record changed. A call is split where it
    leaves the lock: [ResolveStart] reads the cache, [ResolveFinish] stores an answer. *)

From S2P Require Import Prelude Netip Filter Attributes Cache.

(** ** Types: types.go *)

(** A [uint8]. *)
Definition DualStack : Z := 0.
Definition IPv4Only : Z := 1.
Definition IPv6Only : Z := 2.

Definition ErrInvalidHost : string := "invalid DNS hostname".
Definition ErrInvalidFamily : string := "invalid DNS address family".
Definition ErrNoAddresses : string := "DNS result has no addresses for requested family".

Inductive Source := SourceDNS | SourceCustom.

Record Result := { rs_Addresses : list Addr; rs_ExpiresAt : Z; rs_Source : Source }.

Record LookupResult := { lr_Addresses : list Addr; lr_TTL : Z }.

Record cacheKey := { ck_host : string; ck_family : Z }.

#[export] Instance cacheKey_eq_dec : EqDecision cacheKey.
Proof. solve_decision. Defined.

#[export] Instance cacheKey_countable : Countable cacheKey.
Proof.
  refine (inj_countable' (λ k, (ck_host k, ck_family k))
            (λ x, {| ck_host := x.1; ck_family := x.2 |}) _).
  by intros [].
Defined.

(** ** Names and addresses: records.go *)

Definition Addr_Is6 (a : Addr) : bool := match a with Addr6 _ _ => true | _ => false end.

(** The address is wanted. *)
Definition selectable (family : Z) (ip : Addr) : bool :=
  negb (negb (Addr_IsValid ip) || bool_decide (Addr_Zone ip ≠ "")
        || (family =? IPv4Only)%Z && negb (Addr_Is4 ip)
        || (family =? IPv6Only)%Z && negb (Addr_Is6 ip)).

Fixpoint selectSeen (seen : gset Addr) (addresses : list Addr) (family : Z) : list Addr :=
  match addresses with
  | [] => []
  | ip :: addresses =>
      let ip := Addr_Unmap ip in
      if negb (selectable family ip) || bool_decide (ip ∈ seen)
      then selectSeen seen addresses family
      else ip :: selectSeen ({[ip]} ∪ seen) addresses family
  end.

Definition selectAddresses (addresses : list Addr) (family : Z) : list Addr :=
  selectSeen ∅ addresses family.

Definition hostChar (a : ascii) : bool :=
  let n := Ascii.N_of_ascii a in
  (((97 <=? n) && (n <=? 122)) || ((48 <=? n) && (n <=? 57)) || (n =? 45))%N.

Definition numericChar (a : ascii) : bool :=
  let n := Ascii.N_of_ascii a in (((48 <=? n) && (n <=? 57)) || (n =? 46))%N.

Fixpoint all_chars (f : ascii → bool) (s : string) : bool :=
  match s with EmptyString => true | String a s => f a && all_chars f s end.

Definition dash (a : option ascii) : bool := bool_decide (a = Some "-"%char).

Definition validLabel (label : string) : bool :=
  negb ((String.length label =? 0) || (63 <? String.length label)
        || dash (String.get 0 label) || dash (String.get (String.length label - 1) label))
  && all_chars hostChar label.

Section dns.
Context `{CF : CaseFolding}.

Definition TrimSuffixDot (s : string) : string :=
  let n := String.length s in
  if decide (String.get (n - 1) s = Some "."%char) then String.substring 0 (n - 1) s else s.

Definition normalizeHost (host : string) : result string :=
  let host := ToLower (TrimSuffixDot host) in
  if (String.length host =? 0) || (253 <? String.length host) || all_chars numericChar host
  then Err ErrInvalidHost
  else if forallb validLabel (splitOn (String.length host) "." host) then Ok host else Err ErrInvalidHost.

(** ** The cache: cache.go *)

Context `{CS : CacheStore cacheKey (entry Result)}.

Record resolutionCache := {
  rc_dns : option (Cache (K := cacheKey) (V := Result));
  rc_records : gmap string (list Addr);
  rc_revision : Z
}.

Definition newResolutionCache (capacity : Z) : resolutionCache :=
  {| rc_dns := if (0 <? capacity)%Z
               then match CacheBuild capacity 0 with Ok c => Some c | Err _ => None end
               else None;
     rc_records := ∅; rc_revision := 0 |}.

Definition with_dns (d : option Cache) (c : resolutionCache) : resolutionCache :=
  {| rc_dns := d; rc_records := rc_records c; rc_revision := rc_revision c |}.

Definition customResult (addresses : list Addr) (family : Z) : Result :=
  {| rs_Addresses := selectAddresses addresses family; rs_ExpiresAt := 0;
     rs_Source := SourceCustom |}.

(** [checked] is the reading of the clock by the cache; the reading that the call returns is
    its caller's. *)
Definition resolutionGet (key : cacheKey) (checked : Z) (c : resolutionCache)
    : option Result * resolutionCache :=
  match rc_records c !! ck_host key with
  | Some addresses => (Some (customResult addresses (ck_family key)), c)
  | None =>
      match rc_dns c with
      | Some d => let '(r, d) := cacheGet key checked d in (r, with_dns (Some d) c)
      | None => (None, c)
      end
  end.

Definition resolutionStore (key : cacheKey) (r : Result) (revision now : Z)
    (c : resolutionCache) : Result * resolutionCache :=
  match rc_records c !! ck_host key with
  | Some addresses => (customResult addresses (ck_family key), c)
  | None =>
      (r, match rc_dns c with
          | Some d =>
              if (rc_revision c =? revision)%Z && bool_decide (rs_Addresses r ≠ [])
              then with_dns (Some (SetWithExpiration key r (rs_ExpiresAt r) now d).2) c
              else c
          | None => c
          end)
  end.

(** A [uint64]. *)
Definition uint64 (n : Z) : Z := (n mod 2 ^ 64)%Z.

Definition removeFamilies (host : string) (d : Cache) : Cache :=
  foldl (λ d family, cacheRemove {| ck_host := host; ck_family := family |} d) d
    [DualStack; IPv4Only; IPv6Only].

Definition resolutionUpdate (host : string) (addresses : list Addr) (c : resolutionCache)
    : resolutionCache :=
  {| rc_dns := removeFamilies host <$> rc_dns c;
     rc_records := match addresses with
                   | [] => delete host (rc_records c)
                   | _ => <[host := addresses]> (rc_records c)
                   end;
     rc_revision := uint64 (rc_revision c + 1) |}.

(** ** Records *)

Definition SetRecord (host : string) (addresses : list Addr) (c : resolutionCache)
    : result resolutionCache :=
  let! host := normalizeHost host in
  match addresses with
  | [] => Err ErrNoAddresses
  | _ =>
      if forallb (λ ip, Addr_IsValid ip && bool_decide (Addr_Zone ip = "")) addresses
      then Ok (resolutionUpdate host (selectAddresses addresses DualStack) c)
      else Err "invalid custom DNS address"
  end.

Definition DeleteRecord (host : string) (c : resolutionCache) : result resolutionCache :=
  let! host := normalizeHost host in
  Ok (resolutionUpdate host [] c).

(** ** Lookups: client.go *)

Definition requireAddresses (r : Result) : result Result :=
  match rs_Addresses r with [] => Err ErrNoAddresses | _ => Ok r end.

(** A lookup that left the lock. *)
Record pending := { pd_key : cacheKey; pd_revision : Z; pd_started : Z }.

Inductive started := Answered (r : result Result) | Looking (p : pending).

(** [now] is when the call began, [checked] when the cache looked at the clock. *)
Definition ResolveStart (ctxErr : option string) (host : string) (family now checked : Z)
    (c : resolutionCache) : started * resolutionCache :=
  match ctxErr with
  | Some e => (Answered (Err e), c)
  | None =>
      if (IPv6Only <? family)%Z then (Answered (Err ErrInvalidFamily), c)
      else match normalizeHost host with
           | Err e => (Answered (Err e), c)
           | Ok host =>
               let key := {| ck_host := host; ck_family := family |} in
               match resolutionGet key checked c with
               | (Some r, c) => (Answered (requireAddresses r), c)
               | (None, c) =>
                   (Looking {| pd_key := key; pd_revision := rc_revision c; pd_started := now |}, c)
               end
           end
  end.

Definition answerResult (p : pending) (answer : LookupResult) : Result :=
  {| rs_Addresses := selectAddresses (lr_Addresses answer) (ck_family (pd_key p));
     rs_ExpiresAt := (pd_started p + Z.max 0 (lr_TTL answer))%Z; rs_Source := SourceDNS |}.

Definition ResolveFinish (p : pending) (answer : result LookupResult) (ctxErr : option string)
    (now : Z) (c : resolutionCache) : result Result * resolutionCache :=
  match answer, ctxErr with
  | Err e, _ => (Err e, c)
  | Ok _, Some e => (Err e, c)
  | Ok answer, None =>
      let '(r, c) := resolutionStore (pd_key p) (answerResult p answer) (pd_revision p) now c in
      (requireAddresses r, c)
  end.

(** A call that nothing interleaves with. *)
Definition Resolve (ctxErr : option string) (host : string) (family now checked : Z)
    (lookup : cacheKey → result LookupResult) (ctxErr' : option string) (now' : Z)
    (c : resolutionCache) : result Result * resolutionCache :=
  match ResolveStart ctxErr host family now checked c with
  | (Answered r, c) => (r, c)
  | (Looking p, c) => ResolveFinish p (lookup (pd_key p)) ctxErr' now' c
  end.

End dns.
