(* ===== verification/DnsTheorems.v ===== *)
(** * Theorems on the resolution of names

    Calls of the client interleave with changes of the records. Every answer is that of the
    current record or of a lookup that began after the last change of the name's record and
    has not expired. *)

From S2P Require Import Prelude Netip Filter Attributes Cache Dns.

(** ** Selected addresses *)

(** An answer for a family: no duplicates, and only plain addresses of the family. *)
Definition addresses_ok (family : Z) (l : list Addr) : Prop :=
  NoDup l ∧ Forall (λ ip, selectable family ip = true) l.

Lemma selectSeen_ok seen addresses family :
  addresses_ok family (selectSeen seen addresses family)
  ∧ ∀ ip, ip ∈ selectSeen seen addresses family → ip ∉ seen.
Proof.
  revert seen. induction addresses as [|ip l IH]; intros seen; simpl.
  { split; [split; constructor|]. set_solver. }
  destruct (negb (selectable family (Addr_Unmap ip))) eqn:Hs; simpl; [apply IH|].
  case_bool_decide as Hin; [apply IH|].
  destruct (IH ({[Addr_Unmap ip]} ∪ seen)) as [[Hnd Hall] Hseen]. split.
  - split; constructor; try done.
    + intros Hx%Hseen. set_solver.
    + by apply negb_false_iff in Hs.
  - intros x [->|Hx]%elem_of_cons; [done|]. apply Hseen in Hx. set_solver.
Qed.

Lemma selectAddresses_ok addresses family :
  addresses_ok family (selectAddresses addresses family).
Proof. apply selectSeen_ok. Qed.

(** ** Interleaved calls *)

Section system.
Context `{CF : CaseFolding} `{CS : CacheStore cacheKey (entry Result)}.
Context `{CL : !CacheStoreLaws cacheKey (entry Result)}.

(** The cache, the lookups that are under way, and the clock. *)
Record dnsSystem := {
  ds_cache : resolutionCache;
  ds_pending : gmap nat pending;
  ds_now : Z
}.

Inductive dnsEvent :=
| EvTick (t : Z)
| EvUpdate (host : string)
| EvAnswered (key : cacheKey) (r : Result)
| EvRefused
| EvBegin (n : nat) (p : pending)
| EvFinish (n : nat) (p : pending) (answer : LookupResult) (r : result Result)
| EvFail (n : nat).

Definition with_cache (c : resolutionCache) (s : dnsSystem) : dnsSystem :=
  {| ds_cache := c; ds_pending := ds_pending s; ds_now := ds_now s |}.

(** A family is unsigned. The clock may advance between the two readings of a call that
    starts. *)
Inductive dns_step (s : dnsSystem) : dnsEvent → dnsSystem → Prop :=
| dns_tick t :
    (ds_now s <= t)%Z →
    dns_step s (EvTick t)
      {| ds_cache := ds_cache s; ds_pending := ds_pending s; ds_now := t |}
| dns_set host h addresses c :
    normalizeHost host = Ok h → SetRecord host addresses (ds_cache s) = Ok c →
    dns_step s (EvUpdate h) (with_cache c s)
| dns_delete host h c :
    normalizeHost host = Ok h → DeleteRecord host (ds_cache s) = Ok c →
    dns_step s (EvUpdate h) (with_cache c s)
| dns_answer ctxErr host h family checked r c :
    (0 <= family)%Z → (ds_now s <= checked)%Z → normalizeHost host = Ok h →
    ResolveStart ctxErr host family (ds_now s) checked (ds_cache s) = (Answered (Ok r), c) →
    dns_step s (EvAnswered {| ck_host := h; ck_family := family |} r) (with_cache c s)
| dns_refuse ctxErr host family checked e c :
    (0 <= family)%Z → (ds_now s <= checked)%Z →
    ResolveStart ctxErr host family (ds_now s) checked (ds_cache s) = (Answered (Err e), c) →
    dns_step s EvRefused (with_cache c s)
| dns_begin ctxErr host family checked n p c :
    (0 <= family)%Z → (ds_now s <= checked)%Z → ds_pending s !! n = None →
    ResolveStart ctxErr host family (ds_now s) checked (ds_cache s) = (Looking p, c) →
    dns_step s (EvBegin n p)
      {| ds_cache := c; ds_pending := <[n := p]> (ds_pending s); ds_now := ds_now s |}
| dns_finish n p answer r c :
    ds_pending s !! n = Some p →
    ResolveFinish p (Ok answer) None (ds_now s) (ds_cache s) = (r, c) →
    dns_step s (EvFinish n p answer r)
      {| ds_cache := c; ds_pending := delete n (ds_pending s); ds_now := ds_now s |}
| dns_fail n p answer ctxErr e c :
    ds_pending s !! n = Some p →
    ResolveFinish p answer ctxErr (ds_now s) (ds_cache s) = (Err e, c) →
    ¬ (∃ a, answer = Ok a ∧ ctxErr = None) →
    dns_step s (EvFail n)
      {| ds_cache := c; ds_pending := delete n (ds_pending s); ds_now := ds_now s |}.

(** The runs from a new client; the clock is past the zero time. *)
Inductive dns_run (capacity : Z) : list dnsEvent → dnsSystem → Prop :=
| dns_run_new now :
    (0 < now)%Z →
    dns_run capacity []
      {| ds_cache := newResolutionCache capacity; ds_pending := ∅; ds_now := now |}
| dns_run_step trace s ev s' :
    dns_run capacity trace s → dns_step s ev s' → dns_run capacity (trace ++ [ev]) s'.

Definition is_update (ev : dnsEvent) : bool := match ev with EvUpdate _ => true | _ => false end.

Definition updates (trace : list dnsEvent) : Z := Z.of_nat (length (List.filter is_update trace)).

Lemma updates_app t1 t2 : updates (t1 ++ t2) = (updates t1 + updates t2)%Z.
Proof. unfold updates. rewrite List.filter_app, length_app. lia. Qed.

(** ** Where a cached answer comes from *)

(** The answer of a lookup that began after every change of the name's record. *)
Definition from_lookup (trace : list dnsEvent) (key : cacheKey) (r : Result) : Prop :=
  ∃ n p answer x t1 t2,
    trace = t1 ++ EvBegin n p :: t2 ∧ EvFinish n p answer x ∈ t2
    ∧ pd_key p = key ∧ (0 < pd_started p)%Z ∧ r = answerResult p answer
    ∧ EvUpdate (ck_host key) ∉ t2.

(** A pending lookup: its beginning, with the revision of that moment. *)
Definition pending_ok (trace : list dnsEvent) (n : nat) (p : pending) : Prop :=
  (0 <= ck_family (pd_key p) <= 2)%Z ∧ (0 < pd_started p)%Z
  ∧ ∃ t1 t2, trace = t1 ++ EvBegin n p :: t2 ∧ pd_revision p = uint64 (updates t1).

Definition entry_ok (trace : list dnsEvent) (key : cacheKey) (e : entry Result) : Prop :=
  (0 <= ck_family key <= 2)%Z ∧ en_expiresAt e = rs_ExpiresAt (en_value e)
  ∧ from_lookup trace key (en_value e).

Record dns_inv (trace : list dnsEvent) (s : dnsSystem) : Prop := {
  di_now : (0 < ds_now s)%Z;
  di_revision : rc_revision (ds_cache s) = uint64 (updates trace);
  di_pending : ∀ n p, ds_pending s !! n = Some p → pending_ok trace n p;
  di_entries : ∀ d key e, rc_dns (ds_cache s) = Some d → held d key e → entry_ok trace key e
}.

(** ** The operations on the cache *)

Definition sub_cache (c c' : resolutionCache) : Prop :=
  ∀ d' key e, rc_dns c' = Some d' → held d' key e →
  ∃ d, rc_dns c = Some d ∧ held d key e.

Lemma sub_cache_refl c : sub_cache c c.
Proof. intros d key e. eauto. Qed.

Lemma resolutionGet_ok key now c r c' :
  resolutionGet key now c = (r, c') →
  rc_records c' = rc_records c ∧ rc_revision c' = rc_revision c ∧ sub_cache c c'
  ∧ ∀ x, r = Some x →
    (∃ addresses, rc_records c !! ck_host key = Some addresses
       ∧ x = customResult addresses (ck_family key))
    ∨ (∃ d e, rc_dns c = Some d ∧ held d key e ∧ en_value e = x ∧ expired e now = false).
Proof.
  unfold resolutionGet. destruct (rc_records c !! ck_host key) as [addresses|] eqn:Hr.
  { intros [= <- <-]. split; [done|]. split; [done|]. split; [apply sub_cache_refl|].
    intros x [= <-]. eauto. }
  destruct (rc_dns c) as [d|] eqn:Hd.
  2:{ intros [= <- <-]. split; [done|]. split; [done|]. split; [apply sub_cache_refl|done]. }
  pose proof (cacheGet_serves key now d) as Hg. destruct (cacheGet key now d) as [v d'].
  destruct Hg as [Hv Hsub]. intros [= <- <-]. split; [done|]. split; [done|]. split.
  - intros d1 k e [= <-] Hh. rewrite Hd. eauto.
  - intros x Hx. right. destruct (Hv x Hx) as (e & ? & ? & ?). eauto 10.
Qed.

Lemma resolutionStore_ok key r revision now c x c' :
  resolutionStore key r revision now c = (x, c') →
  rc_records c' = rc_records c ∧ rc_revision c' = rc_revision c
  ∧ (∀ d' k e, rc_dns c' = Some d' → held d' k e →
      (∃ d, rc_dns c = Some d ∧ held d k e)
      ∨ rc_revision c = revision ∧ k = key ∧ e = Build_entry r (rs_ExpiresAt r))
  ∧ ((∃ addresses, rc_records c !! ck_host key = Some addresses
        ∧ x = customResult addresses (ck_family key))
     ∨ rc_records c !! ck_host key = None ∧ x = r).
Proof.
  unfold resolutionStore. destruct (rc_records c !! ck_host key) as [addresses|] eqn:Hr.
  { intros [= <- <-]. split; [done|]. split; [done|]. split; [|by eauto].
    intros d' k e Hd Hh. eauto. }
  intros [= <- <-]. destruct (rc_dns c) as [d|] eqn:Hd;
    [|split; [done|]; split; [done|]; split; [by intros d'; rewrite Hd|by right]].
  destruct (_ && _) eqn:Hb.
  2:{ split; [done|]. split; [done|]. split; [|by right]. intros d' k e. rewrite Hd. eauto. }
  apply andb_true_iff in Hb as [Hb%Z.eqb_eq _]. split; [done|]. split; [done|].
  split; [|by right]. intros d' k e [= <-] Hh.
  apply SetWithExpiration_held in Hh as [(-> & -> & _)|Hh]; [by right|]. eauto.
Qed.

Lemma resolutionUpdate_held host addresses c d' key e :
  (0 <= ck_family key <= 2)%Z →
  rc_dns (resolutionUpdate host addresses c) = Some d' → held d' key e →
  ck_host key ≠ host ∧ ∃ d, rc_dns c = Some d ∧ held d key e.
Proof.
  intros Hf. simpl. destruct (rc_dns c) as [d|]; [|done]. intros [= <-] Hh.
  unfold removeFamilies in Hh. simpl in Hh. rewrite !held_remove in Hh.
  destruct Hh as (H2 & H1 & H0 & Hh). split; [|by eauto]. intros <-.
  assert (ck_family key = DualStack ∨ ck_family key = IPv4Only ∨ ck_family key = IPv6Only)
    as Hfam by (unfold DualStack, IPv4Only, IPv6Only; lia).
  destruct key as [h f]. simpl in *. destruct Hfam as [Hx|[Hx|Hx]]; rewrite Hx in *; done.
Qed.

(** ** The invariant *)

Lemma from_lookup_app trace ev key r :
  ev ≠ EvUpdate (ck_host key) → from_lookup trace key r → from_lookup (trace ++ [ev]) key r.
Proof.
  intros Hev (n & p & answer & x & t1 & t2 & -> & Hf & Hk & Hs & Hr & Hu).
  exists n, p, answer, x, t1, (t2 ++ [ev]). rewrite <-app_assoc. split; [done|].
  split; [apply elem_of_app; by left|]. do 3 (split; [done|]).
  rewrite elem_of_app, list_elem_of_singleton. naive_solver.
Qed.

Lemma entry_ok_app trace ev key e :
  ev ≠ EvUpdate (ck_host key) → entry_ok trace key e → entry_ok (trace ++ [ev]) key e.
Proof. intros Hev (Hf & He & Hl). split; [done|]. split; [done|]. by apply from_lookup_app. Qed.

Lemma pending_ok_app trace ev n p : pending_ok trace n p → pending_ok (trace ++ [ev]) n p.
Proof.
  intros (Hf & Hs & t1 & t2 & -> & Hr). split; [done|]. split; [done|].
  exists t1, (t2 ++ [ev]). by rewrite <-app_assoc.
Qed.

(** A step that neither changes a record nor adds an entry. *)
Lemma dns_inv_quiet trace s ev c pend now :
  dns_inv trace s → is_update ev = false → (0 < now)%Z →
  rc_revision c = rc_revision (ds_cache s) → sub_cache (ds_cache s) c →
  (∀ n p, pend !! n = Some p → pending_ok (trace ++ [ev]) n p) →
  dns_inv (trace ++ [ev]) {| ds_cache := c; ds_pending := pend; ds_now := now |}.
Proof.
  intros [Hn Hr Hp He] Hev Hnow Hrev Hsub Hpend. split; simpl; [done| |done|].
  - rewrite Hrev, Hr, updates_app. unfold updates at 3. simpl. rewrite Hev. simpl. by rewrite Z.add_0_r.
  - intros d key e Hd Hh. destruct (Hsub d key e Hd Hh) as (d0 & Hd0 & Hh0).
    apply entry_ok_app; [by intros ->|]. by eapply He.
Qed.

Lemma dns_inv_update trace s h addresses :
  dns_inv trace s →
  dns_inv (trace ++ [EvUpdate h]) (with_cache (resolutionUpdate h addresses (ds_cache s)) s).
Proof.
  intros [Hn Hr Hp He]. split; simpl; [done| | |].
  - rewrite Hr, updates_app. unfold uint64. by rewrite Zplus_mod_idemp_l.
  - intros n p Hnp. by apply pending_ok_app, Hp.
  - intros d key e Hd Hh.
    assert (0 <= ck_family key <= 2)%Z as Hf.
    { simpl in Hd. destruct (rc_dns (ds_cache s)) as [d0|] eqn:Hd0; [|done]. injection Hd as <-.
      unfold removeFamilies in Hh. simpl in Hh. rewrite !held_remove in Hh.
      destruct Hh as (_ & _ & _ & Hh). by apply (He d0 key e). }
    destruct (resolutionUpdate_held h addresses (ds_cache s) d key e Hf Hd Hh)
      as (Hne & d0 & Hd0 & Hh0).
    apply entry_ok_app; [by intros [= ->]|]. by eapply He.
Qed.

Lemma ResolveStart_ok ctxErr host family now checked c st c' :
  ResolveStart ctxErr host family now checked c = (st, c') →
  rc_revision c' = rc_revision c ∧ sub_cache c c'
  ∧ match st with
    | Answered (Err _) => True
    | Answered (Ok r) =>
        ∃ h, normalizeHost host = Ok h ∧ (family <= 2)%Z
          ∧ requireAddresses r = Ok r
          ∧ ((∃ addresses, rc_records c !! h = Some addresses ∧ r = customResult addresses family)
             ∨ ∃ d e, rc_dns c = Some d ∧ held d {| ck_host := h; ck_family := family |} e
                      ∧ en_value e = r ∧ expired e checked = false)
    | Looking p =>
        (family <= 2)%Z ∧ ck_family (pd_key p) = family ∧ pd_started p = now
        ∧ pd_revision p = rc_revision c
    end.
Proof.
  unfold ResolveStart. destruct ctxErr as [e|].
  { intros [= <- <-]. split; [done|]. split; [apply sub_cache_refl|done]. }
  unfold IPv6Only. destruct (Z.ltb_spec 2 family) as [Hf|Hf].
  { intros [= <- <-]. split; [done|]. split; [apply sub_cache_refl|done]. }
  destruct (normalizeHost host) as [h|e].
  2:{ intros [= <- <-]. split; [done|]. split; [apply sub_cache_refl|done]. }
  set (key := {| ck_host := h; ck_family := family |}).
  destruct (resolutionGet key checked c) as [[r|] c1] eqn:Hg; intros [= <- <-];
    apply resolutionGet_ok in Hg as (Hrec & Hrev & Hsub & Hr); (split; [done|]); (split; [done|]).
  - destruct (requireAddresses r) as [r'|] eqn:Hq; [|done].
    assert (r' = r) as ->.
    { unfold requireAddresses in Hq. by destruct (rs_Addresses r); simplify_eq. }
    exists h. split; [done|]. split; [done|]. split; [done|]. exact (Hr r eq_refl).
  - done.
Qed.

Lemma ResolveFinish_failed p answer ctxErr now c e c' :
  ResolveFinish p answer ctxErr now c = (Err e, c') →
  ¬ (∃ a, answer = Ok a ∧ ctxErr = None) → c' = c.
Proof.
  unfold ResolveFinish. destruct answer as [a|], ctxErr; intros H Hn; simplify_eq; try done.
  destruct Hn. eauto.
Qed.

(** Without a change since its beginning, the revision of a lookup is the current one. *)
Lemma same_revision t1 ev t2 :
  (updates (t1 ++ ev :: t2) < 2 ^ 64)%Z →
  uint64 (updates (t1 ++ ev :: t2)) = uint64 (updates t1) →
  ∀ h, EvUpdate h ∉ t2.
Proof.
  intros Hb. assert (updates (t1 ++ ev :: t2) = updates t1 + updates [ev] + updates t2)%Z as Hu.
  { change (ev :: t2) with ([ev] ++ t2). rewrite !updates_app. lia. }
  assert (0 <= updates t1 ∧ 0 <= updates [ev] ∧ 0 <= updates t2)%Z as (? & ? & ?)
    by (unfold updates; lia).
  unfold uint64. rewrite !Z.mod_small by lia. intros Heq h Hin.
  assert (updates t2 = 0)%Z as Hz by lia.
  apply list_elem_of_split in Hin as (l1 & l2 & ->). rewrite updates_app in Hz.
  unfold updates in Hz. simpl in Hz. lia.
Qed.

Lemma dns_inv_finish trace s n p answer r c :
  dns_inv trace s → (updates trace < 2 ^ 64)%Z → ds_pending s !! n = Some p →
  ResolveFinish p (Ok answer) None (ds_now s) (ds_cache s) = (r, c) →
  dns_inv (trace ++ [EvFinish n p answer r])
    {| ds_cache := c; ds_pending := delete n (ds_pending s); ds_now := ds_now s |}.
Proof.
  intros Hinv Hb Hp. pose proof Hinv as [Hnow Hrev Hpend Hent]. unfold ResolveFinish.
  destruct (resolutionStore _ _ _ _ _) as [x c1] eqn:Hs. intros [= <- <-].
  apply resolutionStore_ok in Hs as (_ & Hr & Hheld & _).
  set (ev := EvFinish n p answer (requireAddresses x)). split; simpl; [done| | |].
  - rewrite Hr, Hrev, updates_app. simpl. by rewrite Z.add_0_r.
  - intros n' p' [_ Hp']%lookup_delete_Some. by apply pending_ok_app, Hpend.
  - intros d key e Hd Hh. destruct (Hheld d key e Hd Hh) as [(d0 & Hd0 & Hh0)|(Hr1 & -> & ->)].
    { apply entry_ok_app; [done|]. by eapply Hent. }
    destruct (Hpend n p Hp) as (Hf & Hst & t1 & t2 & Ht & Hpr).
    rewrite Hrev, Hpr, Ht in Hr1. rewrite Ht in Hb.
    pose proof (same_revision _ _ _ Hb Hr1) as Hno.
    split; [done|]. split; [done|]. exists n, p, answer, (requireAddresses x), t1, (t2 ++ [ev]).
    rewrite Ht, <-app_assoc. split; [done|]. split; [apply elem_of_app; right; left|].
    do 3 (split; [done|]). rewrite elem_of_app, list_elem_of_singleton. naive_solver.
Qed.

Lemma dns_step_inv trace s ev s' :
  dns_inv trace s → (updates trace < 2 ^ 64)%Z → dns_step s ev s' → dns_inv (trace ++ [ev]) s'.
Proof.
  intros Hinv Hb Hstep. pose proof Hinv as [Hnow Hrev Hpend Hent].
  assert (∀ ev n p, ds_pending s !! n = Some p → pending_ok (trace ++ [ev]) n p) as Hpa.
  { intros ev' n p Hp. by apply pending_ok_app, Hpend. }
  inversion Hstep as [t Ht|host h addresses c Hh Hc|host h c Hh Hc|ctxErr host h family checked r c Hf Hck Hh Hc
    |ctxErr host family checked e c Hf Hck Hc|ctxErr host family checked n p c Hf Hck Hn Hc|n p answer r c Hp Hc
    |n p answer ctxErr e c Hp Hc Hne]; subst; clear Hstep.
  - apply dns_inv_quiet with (s := s); auto using sub_cache_refl; lia.
  - unfold SetRecord in Hc. rewrite Hh in Hc. simpl in Hc. destruct addresses as [|a l]; [done|].
    destruct (forallb _ _); [|done]. injection Hc as <-. by apply dns_inv_update.
  - unfold DeleteRecord in Hc. rewrite Hh in Hc. injection Hc as <-. by apply dns_inv_update.
  - apply ResolveStart_ok in Hc as (Hr & Hsub & _).
    apply dns_inv_quiet with (s := s); auto.
  - apply ResolveStart_ok in Hc as (Hr & Hsub & _).
    apply dns_inv_quiet with (s := s); auto.
  - apply ResolveStart_ok in Hc as (Hr & Hsub & Hl & Hfam & Hst & Hpr).
    apply dns_inv_quiet with (s := s); auto.
    intros n' p' [[<- <-]|[_ Hp']]%lookup_insert_Some; [|by apply Hpa].
    split; [lia|]. split; [by rewrite Hst|]. exists trace, []. split; [done|]. by rewrite Hpr.
  - by apply dns_inv_finish with (s := s).
  - apply ResolveFinish_failed in Hc as ->; [|done].
    apply dns_inv_quiet with (s := s); auto using sub_cache_refl.
    intros n' p' [_ Hp']%lookup_delete_Some. by apply Hpa.
Qed.

Lemma newResolutionCache_inv capacity now :
  (0 < now)%Z →
  dns_inv [] {| ds_cache := newResolutionCache capacity; ds_pending := ∅; ds_now := now |}.
Proof.
  intros Hn. split; simpl; [done|done|by intros n p; rewrite lookup_empty|].
  intros d key e. destruct (0 <? capacity)%Z eqn:Hc; [|done].
  unfold CacheBuild. destruct (_ || _); [done|]. intros [= <-]. unfold held. simpl.
  by rewrite peek_empty.
Qed.

Lemma dns_run_inv capacity trace s :
  dns_run capacity trace s → (updates trace < 2 ^ 64)%Z → dns_inv trace s.
Proof.
  induction 1 as [now Hn|trace s ev s' _ IH Hstep]; intros Hb; [by apply newResolutionCache_inv|].
  rewrite updates_app in Hb. assert (0 <= updates [ev])%Z by (unfold updates; lia).
  eapply dns_step_inv; [apply IH; lia|lia|done].
Qed.

(** ** Answers *)

(** What an answer promises: at least one address, without duplicates and of the family. *)
Definition answer_ok (family : Z) (r : Result) : Prop :=
  rs_Addresses r ≠ [] ∧ addresses_ok family (rs_Addresses r).

(** The record of the name, as it is now. *)
Definition from_record (s : dnsSystem) (key : cacheKey) (r : Result) : Prop :=
  ∃ addresses, rc_records (ds_cache s) !! ck_host key = Some addresses
    ∧ r = customResult addresses (ck_family key).

Lemma requireAddresses_Ok r r' : requireAddresses r = Ok r' → r' = r ∧ rs_Addresses r ≠ [].
Proof. unfold requireAddresses. destruct (rs_Addresses r) eqn:Hr; by intros [= <-]. Qed.

Lemma from_lookup_answer_ok trace key r : from_lookup trace key r → addresses_ok (ck_family key) (rs_Addresses r).
Proof. intros (n & p & answer & x & t1 & t2 & _ & _ & <- & _ & -> & _). apply selectAddresses_ok. Qed.

(** C28: calls of the resolver and fewer than 2^64 changes of its records may interleave: an
    answer without a lookup of its own is the current record of the name, or else the
    answer of a lookup that began after every change of that record and whose lifetime,
    counted from its beginning, is not over; the answer of a lookup is its own, or the
    record that was installed meanwhile. Every answer has an address, no duplicates, and
    only plain addresses of the family that was asked for. *)
Theorem dns_answers_current capacity trace s ev s' :
  dns_run capacity trace s → (updates trace < 2 ^ 64)%Z → dns_step s ev s' →
  match ev with
  | EvAnswered key r =>
      answer_ok (ck_family key) r
      ∧ (from_record s key r
         ∨ from_lookup trace key r ∧ (ds_now s < rs_ExpiresAt r)%Z)
  | EvFinish n p answer (Ok r) =>
      answer_ok (ck_family (pd_key p)) r
      ∧ (from_record s (pd_key p) r
         ∨ rc_records (ds_cache s) !! ck_host (pd_key p) = None ∧ r = answerResult p answer)
  | _ => True
  end.
Proof.
  intros Hrun Hb Hstep. pose proof (dns_run_inv _ _ _ Hrun Hb) as [Hnow Hrev Hpend Hent].
  inversion Hstep as [t Ht|host h addresses c Hh Hc|host h c Hh Hc|ctxErr host h family checked r c Hf Hck Hh Hc
    |ctxErr host family checked e c Hf Hck Hc|ctxErr host family checked n p c Hf Hck Hn Hc|n p answer r c Hp Hc
    |n p answer ctxErr e c Hp Hc Hne]; subst; try done.
  - apply ResolveStart_ok in Hc as (_ & _ & h' & Hh' & Hl & Hq & Hr).
    assert (h' = h) as -> by congruence. apply requireAddresses_Ok in Hq as [_ Hq]. simpl.
    destruct Hr as [(addresses & Ha & ->)|(d & e & Hd & Hh1 & <- & Hx)].
    + split; [split; [done|apply selectAddresses_ok]|]. left. by exists addresses.
    + destruct (Hent d _ e Hd Hh1) as (_ & Hexp & Hlook).
      split; [split; [done|exact (from_lookup_answer_ok _ _ _ Hlook)]|]. right. split; [done|].
      unfold expired in Hx. rewrite Hexp in Hx.
      destruct Hlook as (n & p & answer & x & t1 & t2 & _ & _ & _ & Hs & Hr & _).
      rewrite Hr in *. simpl in *. unfold IsZero in Hx.
      destruct (Z.eqb_spec (pd_started p + Z.max 0 (lr_TTL answer)) 0); [lia|]. simpl in Hx.
      apply negb_false_iff, Z.ltb_lt in Hx. lia.
  - unfold ResolveFinish in Hc. destruct (resolutionStore _ _ _ _ _) as [x c1] eqn:Hs.
    injection Hc as <- <-. apply resolutionStore_ok in Hs as (_ & _ & _ & Hx).
    destruct (requireAddresses x) as [r|] eqn:Hq; [|done].
    apply requireAddresses_Ok in Hq as [-> Hq].
    destruct Hx as [(addresses & Ha & ->)|[Hn ->]].
    + split; [split; [done|apply selectAddresses_ok]|]. left. by exists addresses.
    + split; [split; [done|apply selectAddresses_ok]|]. by right.
Qed.

(** A call that nothing interleaves with never succeeds without an address. *)
Lemma Resolve_nonempty ctxErr host family now checked lookup ctxErr' now' c r c' :
  Resolve ctxErr host family now checked lookup ctxErr' now' c = (Ok r, c') → rs_Addresses r ≠ [].
Proof.
  unfold Resolve. destruct (ResolveStart _ _ _ _ _ _) as [[x|p] c1] eqn:Hs.
  - intros [= -> <-]. apply ResolveStart_ok in Hs as (_ & _ & h & _ & _ & Hq & _).
    by apply requireAddresses_Ok in Hq as [_ ?].
  - unfold ResolveFinish. destruct (lookup (pd_key p)) as [a|]; [|done]. destruct ctxErr'; [done|].
    destruct (resolutionStore _ _ _ _ _) as [y c2]. intros [= Hq <-].
    by apply requireAddresses_Ok in Hq as [-> ?].
Qed.

End system.

(** ** An example *)

#[local] Instance asciiNames : CaseFolding := asciiFolding.

Definition exampleKey : cacheKey := {| ck_host := "a.example"; ck_family := IPv4Only |}.

Definition exampleLookup : pending :=
  {| pd_key := exampleKey; pd_revision := 0; pd_started := 5 |}.

Definition exampleAnswer : LookupResult := {| lr_Addresses := [Addr4 1]; lr_TTL := 60 |}.

Definition newSystem : dnsSystem :=
  {| ds_cache := newResolutionCache 8; ds_pending := ∅; ds_now := 5 |}.

Definition lookingSystem : dnsSystem :=
  {| ds_cache := (ResolveStart None "A.example." IPv4Only 5 5 (newResolutionCache 8)).2;
     ds_pending := {[0 := exampleLookup]}; ds_now := 5 |}.

Definition afterLookup : result Result * resolutionCache :=
  ResolveFinish exampleLookup (Ok exampleAnswer) None 5 (ds_cache lookingSystem).

Definition answeredSystem : dnsSystem :=
  {| ds_cache := afterLookup.2; ds_pending := delete 0 {[0 := exampleLookup]}; ds_now := 5 |}.

Definition secondCall : started * resolutionCache :=
  ResolveStart None "a.example" IPv4Only 5 7 (ds_cache answeredSystem).

Definition exampleTrace : list dnsEvent :=
  [EvBegin 0 exampleLookup; EvFinish 0 exampleLookup exampleAnswer afterLookup.1].

Lemma pair_of_fst {A B} (x : A * B) a : x.1 = a → x = (a, x.2).
Proof. destruct x. by intros <-. Qed.

Lemma exampleTrace_run : dns_run 8 exampleTrace answeredSystem.
Proof.
  apply (dns_run_step 8 [EvBegin 0 exampleLookup] lookingSystem).
  - apply (dns_run_step 8 [] newSystem); [by apply dns_run_new|].
    apply (dns_begin newSystem None "A.example." IPv4Only 5 0 exampleLookup); [done|done|done|].
    apply pair_of_fst. vm_compute. reflexivity.
  - apply (dns_finish lookingSystem 0 exampleLookup exampleAnswer afterLookup.1 afterLookup.2);
      [done|]. exact (surjective_pairing afterLookup).
Qed.

(** The second call is answered from the cache. *)
Lemma dns_answers_current_witness :
  answer_ok IPv4Only (answerResult exampleLookup exampleAnswer).
Proof.
  destruct (dns_answers_current 8 exampleTrace answeredSystem
    (EvAnswered exampleKey (answerResult exampleLookup exampleAnswer))
    (with_cache secondCall.2 answeredSystem) exampleTrace_run) as [Hok _].
  - vm_compute. reflexivity.
  - apply (dns_answer answeredSystem None "a.example" "a.example" IPv4Only 7);
      [done|done|vm_compute; reflexivity|].
    apply (pair_of_fst secondCall). vm_compute. reflexivity.
  - exact Hok.
Defined.
