(* ===== verification/Egress.v ===== *)
(** * Authorization of destinations

    src/extensions/epe/pkg/filters/egressauthz and the compilation of traffic policies in
    src/extensions/epe/pkg/policy/trafficpolicy: ordered policies over addresses and ports,
    the aggregate of authorizers that selects and pins a target, and the translation of the
    published TrafficPolicy resources. DNS, the random numbers and the context are part of
    the world; log lines are left out. *)

From S2P Require Import Prelude Netip Filter Attributes Fold Engine ExtProc ExtProcServer.

(** ** Policies: policy.go and config.go *)

Definition Allow : string := "Allow".
Definition Deny : string := "Deny".

(** [End] is 0 for a single port. *)
Record PortRange := { pt_Start : Z; pt_End : Z }.

Record Rule := {
  ru_SourceIndex : option Z;
  ru_Action : string;
  ru_CIDRs : list Prefix;
  ru_Ports : list PortRange
}.

Record Policy := { po_Name : string; po_Rules : list Rule }.

Record Decision := { dc_Action : string; dc_PolicyName : string; dc_RuleIndex : Z }.

Record Config := { cf_DeniedCIDRs : list Prefix; cf_Policies : list Policy }.

Definition last_port (p : PortRange) : Z := if (pt_End p =? 0)%Z then pt_Start p else pt_End p.

Definition validCIDR (p : Prefix) : bool := Prefix_IsValid p && negb (Addr_Is4In6 (pfx_Addr p)).

Definition validPorts (p : PortRange) : bool :=
  negb ((pt_Start p =? 0)%Z || (last_port p <? pt_Start p)%Z).

Definition Rule_validate (r : Rule) : result unit :=
  if negb (bool_decide (ru_Action r = Allow) || bool_decide (ru_Action r = Deny))
  then Err "invalid action"
  else match ru_CIDRs r with
  | [] => Err "CIDRs are required"
  | _ =>
      if negb (forallb validCIDR (ru_CIDRs r)) then Err "invalid or IPv4-mapped CIDR"
      else if negb (forallb validPorts (ru_Ports r)) then Err "invalid port range"
      else Ok ()
  end.

Definition Policy_Validate (p : Policy) : result unit :=
  if blank (po_Name p) then Err "policy name is required"
  else rfold (λ _ r, Rule_validate r) (po_Rules p) ().

(** The loop over the policies, with the names seen. *)
Definition validateStep (names : gset string) (p : Policy) : result (gset string) :=
  if decide (po_Name p ∈ names) then Err "duplicate policy name"
  else let! _ := Policy_Validate p in Ok ({[po_Name p]} ∪ names).

Definition Config_Validate (c : Config) : result unit :=
  if negb (forallb validCIDR (cf_DeniedCIDRs c)) then Err "invalid or IPv4-mapped denied CIDR"
  else let! _ := rfold validateStep (cf_Policies c) ∅ in Ok ().

Definition portIn (port : Z) (p : PortRange) : bool :=
  (pt_Start p <=? port)%Z && (port <=? last_port p)%Z.

(** The loop over the prefixes: the first that contains the address decides. *)
Fixpoint matchesFrom (cidrs : list Prefix) (ports : list PortRange) (ip : Addr) (port : Z)
    : bool :=
  match cidrs with
  | [] => false
  | p :: cidrs =>
      if Prefix_Contains p ip then
        match ports with [] => true | _ => existsb (portIn port) ports end
      else matchesFrom cidrs ports ip port
  end.

Definition matches (r : Rule) (ip : Addr) (port : Z) : bool :=
  matchesFrom (ru_CIDRs r) (ru_Ports r) ip port.

Fixpoint deniedAt (i : Z) (cidrs : list Prefix) (ip : Addr) : option Z :=
  match cidrs with
  | [] => None
  | p :: cidrs => if Prefix_Contains p ip then Some i else deniedAt (i + 1) cidrs ip
  end.

Fixpoint ruleAt (i : Z) (rules : list Rule) (ip : Addr) (port : Z) : option (Z * string) :=
  match rules with
  | [] => None
  | r :: rules =>
      if matches r ip port then Some (default i (ru_SourceIndex r), ru_Action r)
      else ruleAt (i + 1) rules ip port
  end.

Fixpoint policyAt (policies : list Policy) (ip : Addr) (port : Z) : option Decision :=
  match policies with
  | [] => None
  | p :: policies =>
      match ruleAt 0 (po_Rules p) ip port with
      | Some (i, action) =>
          Some {| dc_Action := action; dc_PolicyName := po_Name p; dc_RuleIndex := i |}
      | None => policyAt policies ip port
      end
  end.

Definition unmatched : Decision :=
  {| dc_Action := Deny; dc_PolicyName := ""; dc_RuleIndex := (-1)%Z |}.

Definition Evaluate (c : Config) (address : AddrPort) : Decision :=
  if negb (AddrPort_IsValid address) || (ap_Port address =? 0)%Z
     || bool_decide (Addr_Zone (ap_Addr address) ≠ "")
  then unmatched
  else
    let ip := Addr_Unmap (ap_Addr address) in
    match deniedAt 0 (cf_DeniedCIDRs c) ip with
    | Some i => {| dc_Action := Deny; dc_PolicyName := "EPEConfig/egressAuthorization";
                   dc_RuleIndex := i |}
    | None =>
        match cf_Policies c with
        | [] => {| dc_Action := Allow; dc_PolicyName := ""; dc_RuleIndex := (-1)%Z |}
        | policies => default unmatched (policyAt policies ip (ap_Port address))
        end
    end.

(** ** Compilation: trafficpolicy/convert.go

    Messages as records; a nil message is [None]. Enumerations are numbers on the wire. *)

Record TPAddress := { ta_Address : list Byte.byte; ta_Length : Z }.

Record TPPortMatch := { tm_Protocol : Z; tm_Port : option Z; tm_EndPort : option Z }.

Record TPMatch := {
  mt_SourceIps : list (option TPAddress);
  mt_DestinationIps : list (option TPAddress);
  mt_Ports : list (option TPPortMatch)
}.

Record TPRule := { tr_Action : Z; tr_Match : option TPMatch }.

Record TrafficPolicy := {
  tp_Ingress : option (list (option TPRule));
  tp_Egress : option (list (option TPRule))
}.

Record NamedPolicy := { np_Name : string; np_Policy : option TrafficPolicy }.

Definition TrafficPolicy_ALLOW : Z := 0.
Definition TrafficPolicy_DENY : Z := 1.
Definition TrafficPolicy_ALL : Z := 0.
Definition TrafficPolicy_TCP : Z := 1.
Definition TrafficPolicy_ICMP : Z := 3.

Definition Protocol_names : list Z := [0; 1; 2; 3; 4]%Z.

(** 0.0.0.0/0 and ::/0. *)
Definition allIPs : list Prefix :=
  [{| pfx_Addr := Addr4 0; pfx_Bits := 0 |}; {| pfx_Addr := Addr6 0 ""; pfx_Bits := 0 |}].

Definition prefixOf (v : option TPAddress) : result Prefix :=
  match v with
  | None => Err "nil address"
  | Some v =>
      match AddrFromSlice (ta_Address v) with
      | None => Err "invalid address prefix"
      | Some ip =>
          if Addr_Is4In6 ip || (Addr_BitLen ip <? ta_Length v)%Z
          then Err "invalid address prefix"
          else Ok (Prefix_Masked (PrefixFrom ip (ta_Length v)))
      end
  end.

Definition prefixes (values : list (option TPAddress)) : result (list Prefix) :=
  rfold (λ out v, let! p := prefixOf v in Ok (out ++ [p])) values [].

(** The bounds of a port match. *)
Definition portBounds (p : TPPortMatch) : Z * Z :=
  let '(start, end_) := match tm_Port p with Some n => (n, n) | None => (1, 65535)%Z end in
  (start, default end_ (tm_EndPort p)).

Definition tcpPort (v : option TPPortMatch) : result (option PortRange) :=
  match v with
  | None => Err "nil port match"
  | Some p =>
      if decide (tm_Protocol p ∈ Protocol_names) then
        let '(start, end_) := portBounds p in
        if (start =? 0)%Z || (end_ =? 0)%Z || (65535 <? start)%Z || (65535 <? end_)%Z
           || (end_ <? start)%Z
        then Err "invalid port range"
        else if (tm_Protocol p =? TrafficPolicy_ICMP)%Z
                && bool_decide (¬ (tm_Port p = None ∧ tm_EndPort p = None))
        then Err "ICMP cannot constrain ports"
        else if (tm_Protocol p =? TrafficPolicy_ALL)%Z || (tm_Protocol p =? TrafficPolicy_TCP)%Z
        then Ok (Some {| pt_Start := start; pt_End := end_ |})
        else Ok None
      else Err "unknown protocol"
  end.

Definition tcpPorts (values : list (option TPPortMatch)) : result (list PortRange) :=
  rfold (λ out v, let! p := tcpPort v in Ok (out ++ option_list p)) values [].

Definition compileAction (a : Z) : result string :=
  if (a =? TrafficPolicy_ALLOW)%Z then Ok Allow
  else if (a =? TrafficPolicy_DENY)%Z then Ok Deny
  else Err "invalid action".

(** One rule: [None] when it does not concern TCP. *)
Definition compileRule (i : nat) (r : option TPRule) : result (option Rule) :=
  match r ≫= (λ r, (λ m, (tr_Action r, m)) <$> tr_Match r) with
  | None => Err "missing match"
  | Some (action, m) =>
      let! action := compileAction action in
      let! destinations := prefixes (mt_DestinationIps m) in
      let! ports := tcpPorts (mt_Ports m) in
      match mt_Ports m, ports with
      | _ :: _, [] => Ok None
      | _, _ =>
          Ok (Some {| ru_SourceIndex := Some (Z.of_nat i); ru_Action := action;
                      ru_CIDRs := match destinations with [] => allIPs | _ => destinations end;
                      ru_Ports := ports |})
      end
  end.

Fixpoint compileRules (i : nat) (rules : list (option TPRule)) : result (list Rule) :=
  match rules with
  | [] => Ok []
  | r :: rules =>
      let! c := compileRule i r in
      let! cs := compileRules (S i) rules in
      Ok (option_list c ++ cs)
  end.

Definition egressRules (p : TrafficPolicy) : list (option TPRule) := default [] (tp_Egress p).

Definition compilePolicy (p : NamedPolicy) : result Policy :=
  match np_Policy p with
  | None => Err "TrafficPolicy is missing"
  | Some policy =>
      let! rules := compileRules 0 (egressRules policy) in
      Ok {| po_Name := np_Name p; po_Rules := rules |}
  end.

Definition Compile (policies : list NamedPolicy) : result Config :=
  let! ps := rfold (λ out p, let! c := compilePolicy p in Ok (out ++ [c])) policies [] in
  let cfg := {| cf_DeniedCIDRs := []; cf_Policies := ps |} in
  let! _ := Config_Validate cfg in
  Ok cfg.

Section egress.
Context `{CF : CaseFolding} `{AT : AddressText} `{D : Deployment}.

(** ** Authorizers: authorizer.go *)

(** [filter.DestinationAuthorizer]; an authorizer may record observations. *)
Definition DestinationAuthorizer : Type :=
  Stream → list AddrPort → StreamInfo → World → World * StreamInfo * result (list AddrPort).

Definition denial (destination policy : string) (ruleIndex : option Z) : AuthorizationDecision :=
  {| ad_Action := "deny"; ad_Reason := AuthorizationReasonPolicyDenied;
     ad_Destination := destination; ad_Policy := policy; ad_RuleIndex := ruleIndex |}.

Definition recordDenial (address : AddrPort) (d : Decision) (info : StreamInfo) : StreamInfo :=
  RecordAuthorization
    (if decide (dc_PolicyName d = "") then denial (AddrPort_String address) "" None
     else denial (AddrPort_String address) (dc_PolicyName d) (Some (dc_RuleIndex d))) info.

Definition zeroDecision : Decision :=
  {| dc_Action := ""; dc_PolicyName := ""; dc_RuleIndex := 0 |}.

(** The loop over the candidates: what is allowed, the last decision, the observations. *)
Definition candidateStep (c : Config) (acc : list AddrPort * Decision * StreamInfo)
    (candidate : AddrPort) : list AddrPort * Decision * StreamInfo :=
  let '(allowed, _, info) := acc in
  let d := Evaluate c candidate in
  if decide (dc_Action d = Allow) then
    (allowed ++ [candidate], d,
     if decide (dc_PolicyName d = "") then info
     else RecordAuthorizationMatch candidate (dc_PolicyName d) (dc_RuleIndex d) info)
  else (allowed, d, info).

Definition Config_Authorize (c : Config) : DestinationAuthorizer := λ _ candidates info w,
  let '(allowed, last, info) := foldl (candidateStep c) ([], zeroDecision, info) candidates in
  let info := match allowed, candidates with
              | [], [candidate] => recordDenial candidate last info
              | [], _ => RecordAuthorization (denial "" "" None) info
              | _, _ => info
              end in
  (w, info, Ok allowed).

(** [StaticAuthorizer]: the configuration its pointer holds. *)
Definition StaticAuthorizer_Authorize (current : World → Config) : DestinationAuthorizer :=
  λ st candidates info w, Config_Authorize (current w) st candidates info w.

(** trafficpolicy/resolver.go: the authorizer of the request's policy snapshot. *)
Definition authorizer_Authorize (run : Authorizer → DestinationAuthorizer)
    : DestinationAuthorizer := λ st candidates info w,
  if Workload_HasIdentity (sj_Workload (rc_Caller (st_Context st))) then
    match ps_DestinationAuthorizer (rc_Policies (st_Context st)) with
    | None => (w, info, Err "workload policy snapshot is not prepared")
    | Some a => run a st candidates info w
    end
  else
    (w, RecordAuthorization
          {| ad_Action := "deny"; ad_Reason := AuthorizationReasonMissingIdentity;
             ad_Destination := ""; ad_Policy := ""; ad_RuleIndex := None |} info, Ok []).

(** ** Resolution: resolve.go *)

(** The client, the errors of the context, and the random numbers: [rand.IntN] of the
    number of candidates seen. *)
Record Aggregate := {
  ag_Resolve : option (string → World → World * result (list Addr));
  ag_ctxErr : World → option string;
  ag_IntN : Z → World → World * Z;
  ag_authorizers : list DestinationAuthorizer
}.

Definition resolveDNS (a : Aggregate) (st : Stream) (w : World) : World * result (list Addr) :=
  match ag_Resolve a with
  | None => (w, Err "DNS client is required")
  | Some resolve =>
      match ag_ctxErr a w with
      | Some e => (w, Err e)
      | None =>
          let request := rc_Request (st_Context st) in
          if (rq_Port request <=? 0)%Z || (65535 <? rq_Port request)%Z
          then (w, Err "invalid request port")
          else match ParseAddr (rq_Host request) with
               | Some ip =>
                   let ip := Addr_Unmap ip in
                   if decide (Addr_Zone ip = "") then (w, Ok [ip])
                   else (w, Err "scoped upstream address is not supported")
               | None => resolve (rq_Host request) w
               end
      end
  end.

(** ** The aggregate: egressauthz.go *)

Definition uint16 (n : Z) : Z := (n mod 65536)%Z.

Definition AddrPortFrom (ip : Addr) (port : Z) : AddrPort := {| ap_Addr := ip; ap_Port := port |}.

Definition errorDecision (reason : string) : AuthorizationDecision :=
  {| ad_Action := "error"; ad_Reason := reason; ad_Destination := ""; ad_Policy := "";
     ad_RuleIndex := None |}.

Definition resolveCandidates (a : Aggregate) (st : Stream) (info : StreamInfo) (w : World)
    : World * StreamInfo * result (list AddrPort) :=
  match st_Upstream st with
  | Some up =>
      match Route_Validate (Some {| rt_Upstream := Some up; rt_ClearCache := false |}),
            up_Address up with
      | Ok _, Some addr => (w, info, Ok [addr])
      | Err e, _ => (w, info, Err e)
      | Ok _, None => (w, info, Err "nil pointer dereference")
      end
  | None =>
      match resolveDNS a st w with
      | (w, Err e) =>
          (w, RecordAuthorization (errorDecision AuthorizationReasonResolutionFailed) info, Err e)
      | (w, Ok addresses) =>
          let request := rc_Request (st_Context st) in
          let port := uint16 (rq_Port request) in
          let original := rq_OriginalDestination request in
          let ip := Addr_Unmap (ap_Addr original) in
          if AddrPort_IsValid original && bool_decide (ip ∈ addresses)
          then (w, info, Ok [AddrPortFrom ip port])
          else (w, info, Ok ((λ ip, AddrPortFrom ip port) <$> addresses))
      end
  end.

(** The loop of the reservoir. *)
Fixpoint selectFrom (a : Aggregate) (selected : AddrPort) (count : Z) (rest : list AddrPort)
    (w : World) : World * AddrPort :=
  match rest with
  | [] => (w, selected)
  | candidate :: rest =>
      if Bool.eqb (Addr_Is4 (ap_Addr candidate)) (Addr_Is4 (ap_Addr selected)) then
        let count := (count + 1)%Z in
        let '(w, n) := ag_IntN a count w in
        selectFrom a (if (n =? 0)%Z then candidate else selected) count rest w
      else selectFrom a selected count rest w
  end.

(** [None] is the panic of an index out of range. *)
Definition selectRandomCandidate (a : Aggregate) (candidates : list AddrPort) (w : World)
    : World * option AddrPort :=
  match candidates with
  | [] => (w, None)
  | c :: rest => let '(w, selected) := selectFrom a c 1 rest w in (w, Some selected)
  end.

Definition egressDeniedReply : Reply := replyOf 403 "epe_egress_denied".

(** The outcome of the loop over the authorizers. *)
Inductive chained := Remaining (candidates : list AddrPort) | Denied | Failed (e : string).

Fixpoint runAuthorizers (authorizers : list DestinationAuthorizer) (st : Stream)
    (candidates : list AddrPort) (info : StreamInfo) (w : World)
    : World * StreamInfo * chained :=
  match authorizers with
  | [] => (w, info, Remaining candidates)
  | authorizer :: authorizers =>
      match authorizer st candidates info w with
      | (w, info, Err e) =>
          (w, RecordAuthorization (errorDecision AuthorizationReasonPolicyLoadFailed) info,
           Failed e)
      | (w, info, Ok []) => (w, info, Denied)
      | (w, info, Ok candidates) => runAuthorizers authorizers st candidates info w
      end
  end.

Definition Aggregate_Authorize (a : Aggregate) : RequestAuthorizer := λ st info w,
  match ag_ctxErr a w with
  | Some e => (w, info, (None, None, Some e))
  | None =>
      match resolveCandidates a st info w with
      | (w, info, Err e) => (w, info, (None, None, Some e))
      | (w, info, Ok candidates) =>
          match runAuthorizers (ag_authorizers a) st candidates info w with
          | (w, info, Failed e) => (w, info, (None, None, Some e))
          | (w, info, Denied) => (w, info, (None, Some egressDeniedReply, None))
          | (w, info, Remaining candidates) =>
              match selectRandomCandidate a candidates w with
              | (w, None) => (w, info, (None, None, Some panicIndex))
              | (w, Some selected) =>
                  (w, RecordAuthorizedDestination selected info,
                   (match st_Upstream st with
                    | Some up => Some up
                    | None => Some {| up_Address := Some selected |}
                    end, None, None))
              end
          end
      end
  end.

End egress.
