(* ===== verification/EgressTheorems.v ===== *)
(** * Theorems on the authorization of destinations

    The decision of a configuration is that of its first matching rule; compiling traffic
    policies keeps what they say about TCP destinations; the aggregate pins a target that
    every authorizer allows; and so does every response of the external processor. *)

From S2P Require Import Prelude Netip Filter Attributes Fold Engine ExtProc ExtProcServer ExtProcInvariant ExtProcAuthorization Egress.

(** ** Decisions *)

(** Any prefix and any port range. *)
Definition applies (r : Rule) (ip : Addr) (port : Z) : bool :=
  existsb (λ p, Prefix_Contains p ip) (ru_CIDRs r)
  && match ru_Ports r with [] => true | ports => existsb (portIn port) ports end.

Lemma matches_applies r ip port : matches r ip port = applies r ip port.
Proof.
  unfold matches, applies. induction (ru_CIDRs r) as [|p l IH]; [done|]. simpl.
  destruct (Prefix_Contains p ip); simpl; [by destruct (ru_Ports r)|]. apply IH.
Qed.

Lemma ruleAt_find i rules ip port :
  snd <$> ruleAt i rules ip port = ru_Action <$> List.find (λ r, applies r ip port) rules.
Proof.
  revert i. induction rules as [|r rules IH]; intros i; [done|]. simpl.
  rewrite matches_applies. by destruct (applies r ip port).
Qed.

Lemma find_app {A} (f : A → bool) l1 l2 :
  List.find f (l1 ++ l2) = match List.find f l1 with Some x => Some x | None => List.find f l2 end.
Proof. induction l1 as [|x l1 IH]; simpl; [done|]. by destruct (f x). Qed.

Lemma policyAt_find policies ip port :
  dc_Action <$> policyAt policies ip port
  = ru_Action <$> List.find (λ r, applies r ip port) (flat_map po_Rules policies).
Proof.
  induction policies as [|p policies IH]; [done|]. simpl. rewrite find_app.
  pose proof (ruleAt_find 0 (po_Rules p) ip port) as Hr.
  destruct (ruleAt 0 (po_Rules p) ip port) as [[i action]|];
    destruct (List.find _ (po_Rules p)) as [r|]; simpl in *; done.
Qed.

Lemma deniedAt_None i cidrs ip :
  deniedAt i cidrs ip = None ↔ Forall (λ p, Prefix_Contains p ip = false) cidrs.
Proof.
  revert i. induction cidrs as [|p cidrs IH]; intros i; simpl; [by split|].
  rewrite Forall_cons. destruct (Prefix_Contains p ip); [naive_solver|]. rewrite IH. naive_solver.
Qed.

Definition routable (a : AddrPort) : Prop :=
  AddrPort_IsValid a = true ∧ ap_Port a ≠ 0%Z ∧ Addr_Zone (ap_Addr a) = "".

Lemma Evaluate_guard a :
  negb (AddrPort_IsValid a) || (ap_Port a =? 0)%Z || bool_decide (Addr_Zone (ap_Addr a) ≠ "") = false
  ↔ routable a.
Proof.
  unfold routable. rewrite !orb_false_iff, negb_false_iff, Z.eqb_neq, bool_decide_eq_false.
  split; [intros [[? ?] Hz]|intros (? & ? & ?)]; [|naive_solver].
  split; [done|]. split; [done|]. by destruct (decide (Addr_Zone (ap_Addr a) = "")).
Qed.

(** A configuration allows a destination if and only if the destination is a plain
    address with a port, no denied prefix contains it, and there is no policy at all or
    the first rule of all policies, in their order, that has a prefix with the address and
    a range with the port allows it. *)
Theorem egress_allows_first_match c a :
  dc_Action (Evaluate c a) = Allow
  ↔ routable a
    ∧ Forall (λ p, Prefix_Contains p (Addr_Unmap (ap_Addr a)) = false) (cf_DeniedCIDRs c)
    ∧ (cf_Policies c = []
       ∨ ∃ r, List.find (λ r, applies r (Addr_Unmap (ap_Addr a)) (ap_Port a))
                (flat_map po_Rules (cf_Policies c)) = Some r
              ∧ ru_Action r = Allow).
Proof.
  assert (Deny ≠ Allow) as Hda by done.
  rewrite <-Evaluate_guard. unfold Evaluate. destruct (_ || _ || _); [naive_solver|].
  rewrite <-(deniedAt_None 0).
  destruct (deniedAt 0 (cf_DeniedCIDRs c) _) as [i|]; [naive_solver|].
  destruct (cf_Policies c) as [|p ps]; [naive_solver|].
  pose proof (policyAt_find (p :: ps) (Addr_Unmap (ap_Addr a)) (ap_Port a)) as Hf.
  destruct (policyAt _ _ _) as [d|]; destruct (List.find _ _) as [r|]; try done; simpl in *.
  - injection Hf as Hf. rewrite Hf. naive_solver.
  - naive_solver.
Qed.

(** ** Compiled traffic policies *)

(** What a traffic policy says of a TCP destination, as its schema documents it. *)
Definition addressMatches (ip : Addr) (v : option TPAddress) : bool :=
  match v with
  | None => false
  | Some v =>
      match AddrFromSlice (ta_Address v) with
      | Some net => Prefix_Contains (PrefixFrom net (ta_Length v)) ip
      | None => false
      end
  end.

Definition portMatches (port : Z) (v : option TPPortMatch) : bool :=
  match v with
  | None => false
  | Some p =>
      bool_decide (tm_Protocol p ∈ [TrafficPolicy_ALL; TrafficPolicy_TCP])
      && match tm_Port p, tm_EndPort p with
         | None, None => true
         | Some n, None => (port =? n)%Z
         | None, Some e => (port <=? e)%Z
         | Some n, Some e => (n <=? port)%Z && (port <=? e)%Z
         end
  end.

Definition matchMatches (ip : Addr) (port : Z) (m : TPMatch) : bool :=
  match mt_DestinationIps m with [] => true | l => existsb (addressMatches ip) l end
  && match mt_Ports m with [] => true | l => existsb (portMatches port) l end.

Definition sourceAction (a : Z) : string := if (a =? TrafficPolicy_DENY)%Z then Deny else Allow.

(** The first matching rule of a policy with its place, and of the policies in order. *)
Fixpoint sourceRule (i : nat) (rules : list (option TPRule)) (ip : Addr) (port : Z)
    : option (Z * string) :=
  match rules with
  | Some {| tr_Action := action; tr_Match := Some m |} :: rules =>
      if matchMatches ip port m then Some (Z.of_nat i, sourceAction action)
      else sourceRule (S i) rules ip port
  | _ :: rules => sourceRule (S i) rules ip port
  | [] => None
  end.

Fixpoint sourceDecision (policies : list NamedPolicy) (ip : Addr) (port : Z)
    : option Decision :=
  match policies with
  | [] => None
  | p :: policies =>
      match np_Policy p ≫= (λ t, sourceRule 0 (egressRules t) ip port) with
      | Some (i, action) =>
          Some {| dc_Action := action; dc_PolicyName := np_Name p; dc_RuleIndex := i |}
      | None => sourceDecision policies ip port
      end
  end.

(** An address whose number has the width of its family, and a 16-bit port. *)
Definition in_range (ip : Addr) : Prop := (0 <= Addr_bits ip < 2 ^ Addr_BitLen ip)%Z.

Lemma contains_everything net ip :
  Addr_bits net = 0%Z → Addr_BitLen net = Addr_BitLen ip → Addr_BitLen ip ≠ 0%Z →
  Addr_Zone ip = "" → in_range ip →
  Prefix_Contains {| pfx_Addr := net; pfx_Bits := 0 |} ip = true.
Proof.
  intros Hn Hl H0 Hz Hr. unfold Prefix_Contains, Prefix_IsValid. cbn [pfx_Addr pfx_Bits].
  rewrite Hn, Hl, Z.eqb_refl, bool_decide_eq_true_2, Z.lxor_0_r, Z.sub_0_r by done.
  rewrite (proj2 (Z.eqb_neq _ _) H0), Z.shiftr_div_pow2, Z.div_small; [done|done|].
  by destruct ip.
Qed.

Lemma allIPs_contain ip :
  Addr_IsValid ip = true → Addr_Zone ip = "" → in_range ip →
  existsb (λ p, Prefix_Contains p ip) allIPs = true.
Proof.
  intros Hv Hz Hr. cbn [existsb allIPs]. destruct ip as [|n|n zone]; [done| |].
  - by rewrite contains_everything.
  - rewrite (contains_everything (Addr6 0 "")) by done. by rewrite orb_true_r.
Qed.

Lemma prefixOf_contains v p ip :
  prefixOf v = Ok p → Prefix_Contains p ip = addressMatches ip v.
Proof.
  unfold prefixOf, addressMatches. destruct v as [v|]; [|done].
  destruct (AddrFromSlice (ta_Address v)) as [net|]; [|done].
  destruct (Addr_Is4In6 net || (Addr_BitLen net <? ta_Length v)%Z); [done|]. intros [= <-].
  apply Prefix_Masked_Contains. unfold PrefixFrom. simpl.
  destruct (Addr_IsValid net && (0 <=? ta_Length v)%Z && (ta_Length v <=? Addr_BitLen net)%Z) eqn:Hb.
  - apply andb_true_iff in Hb as [_ Hb%Z.leb_le]. by destruct net.
  - by destruct net.
Qed.

Lemma rfold_ext {A B} (f g : A → B → result A) l a :
  (∀ a x, f a x = g a x) → rfold f l a = rfold g l a.
Proof.
  intros H. revert a. induction l as [|x l IH]; intros a; [done|]. simpl. rewrite H.
  destruct (g a x); simpl; [apply IH|done].
Qed.

(** A fold that appends the results of an element function. *)
Lemma rfold_append {A B} (f : A → result (list B)) l out res :
  rfold (λ out x, let! y := f x in Ok (out ++ y)) l out = Ok res →
  ∃ ys, Forall2 (λ x y, f x = Ok y) l ys ∧ res = out ++ concat ys.
Proof.
  revert out. induction l as [|x l IH]; intros out; simpl.
  { intros [= <-]. exists []. by rewrite app_nil_r. }
  intros (o & (y & Hy & [= <-])%rbind_Ok & (ys & Hys & ->)%IH)%rbind_Ok.
  exists (y :: ys). split; [by constructor|]. simpl. by rewrite app_assoc.
Qed.

Lemma existsb_concat {A} (f : A → bool) ls :
  existsb f (concat ls) = existsb (λ l, existsb f l) ls.
Proof. induction ls as [|l ls IH]; simpl; [done|]. by rewrite existsb_app, IH. Qed.

Lemma existsb_Forall2 {A B} (R : A → B → Prop) (f : A → bool) (g : B → bool) l l' :
  Forall2 R l l' → (∀ x y, R x y → f x = g y) → existsb f l = existsb g l'.
Proof. intros H Hfg. induction H as [|x y l l' Hxy _ IH]; [done|]. simpl. by rewrite (Hfg x y), IH. Qed.

Lemma prefixes_contain values ps ip :
  prefixes values = Ok ps →
  existsb (λ p, Prefix_Contains p ip) ps = existsb (addressMatches ip) values
  ∧ (ps = [] ↔ values = []).
Proof.
  unfold prefixes. intros H.
  assert (rfold (λ out v, let! y := (let! p := prefixOf v in Ok [p]) in Ok (out ++ y)) values []
          = Ok ps) as H'.
  { rewrite <-H. apply rfold_ext. intros out v. by destruct (prefixOf v). }
  apply rfold_append in H' as (ys & Hys & ->). simpl. rewrite existsb_concat. split.
  - symmetry. eapply existsb_Forall2; [exact Hys|].
    intros v y (p & Hp & [= <-])%rbind_Ok. simpl. rewrite orb_false_r.
    symmetry. by apply prefixOf_contains.
  - destruct Hys as [|v y l ys (p & _ & [= <-])%rbind_Ok _]; done.
Qed.

Lemma tcpPort_contains v p port :
  (1 <= port <= 65535)%Z → tcpPort v = Ok p →
  existsb (portIn port) (option_list p) = portMatches port v.
Proof.
  intros Hport. unfold tcpPort, portMatches. destruct v as [[proto pt ep]|]; [|done]. simpl.
  destruct (decide _) as [Hin|]; [|done].
  destruct (portBounds _) as [start end_] eqn:Hb.
  destruct (_ || _ || _ || _ || _) eqn:Hg; [done|].
  rewrite !orb_false_iff, !Z.eqb_neq, !Z.ltb_ge in Hg. destruct Hg as ((((Hg1 & Hg2) & Hg3) & Hg4) & Hg5).
  destruct (_ && _); [done|].
  unfold portBounds in Hb. simpl in Hb. unfold TrafficPolicy_ALL, TrafficPolicy_TCP.
  destruct ((proto =? 0)%Z || (proto =? 1)%Z) eqn:Hp; intros [= <-].
  - rewrite bool_decide_eq_true_2.
    2:{ apply orb_true_iff in Hp as [Hp|Hp]; apply Z.eqb_eq in Hp; set_solver. }
    simpl. rewrite orb_false_r. unfold portIn, last_port. simpl.
    destruct pt as [n|], ep as [e|]; simplify_eq/=; repeat case_match; lia.
  - rewrite bool_decide_eq_false_2; [done|]. apply orb_false_iff in Hp as [?%Z.eqb_neq ?%Z.eqb_neq].
    set_solver.
Qed.

Lemma tcpPorts_contain values ps port :
  (1 <= port <= 65535)%Z → tcpPorts values = Ok ps →
  existsb (portIn port) ps = existsb (portMatches port) values ∧ (values = [] → ps = []).
Proof.
  intros Hport. unfold tcpPorts. intros H.
  assert (rfold (λ out v, let! y := (let! p := tcpPort v in Ok (option_list p)) in Ok (out ++ y))
            values [] = Ok ps) as H'.
  { rewrite <-H. apply rfold_ext. intros out v. by destruct (tcpPort v). }
  apply rfold_append in H' as (ys & Hys & ->). simpl. rewrite existsb_concat. split.
  - symmetry. eapply existsb_Forall2; [exact Hys|].
    intros v y (p & Hp & [= <-])%rbind_Ok. symmetry. by apply tcpPort_contains.
  - intros ->. by inversion Hys.
Qed.

Section compiled.
Context (ip : Addr) (port : Z).
Context (Hvalid : Addr_IsValid ip = true) (Hzone : Addr_Zone ip = "").
Context (Hrange : in_range ip) (Hport : (1 <= port <= 65535)%Z).

Lemma compileRule_matches i r c :
  compileRule i r = Ok c →
  ∃ action m, r = Some {| tr_Action := action; tr_Match := Some m |}
    ∧ match c with
      | None => matchMatches ip port m = false
      | Some rule => matches rule ip port = matchMatches ip port m
                     ∧ ru_SourceIndex rule = Some (Z.of_nat i)
                     ∧ ru_Action rule = sourceAction action
      end.
Proof.
  unfold compileRule. destruct r as [[action [m|]]|]; [|done..]. simpl.
  intros (act & Ha & (ds & Hd & (ps & Hp & H)%rbind_Ok)%rbind_Ok)%rbind_Ok.
  exists action, m. split; [done|].
  destruct (prefixes_contain _ _ ip Hd) as [Hd1 Hd2].
  destruct (tcpPorts_contain _ _ port Hport Hp) as [Hp1 Hp2].
  assert (act = sourceAction action) as ->.
  { unfold compileAction, sourceAction, TrafficPolicy_ALLOW, TrafficPolicy_DENY in *.
    destruct (Z.eqb_spec action 0) as [->|]; [by injection Ha as <-|].
    destruct (action =? 1)%Z; [by injection Ha as <-|done]. }
  unfold matchMatches.
  assert (∀ rule, rule = {| ru_SourceIndex := Some (Z.of_nat i); ru_Action := sourceAction action;
      ru_CIDRs := match ds with [] => allIPs | _ => ds end; ru_Ports := ps |} →
    (mt_Ports m = [] ∨ ps ≠ []) →
    matches rule ip port = match mt_DestinationIps m with [] => true | l => existsb (addressMatches ip) l end
      && match mt_Ports m with [] => true | l => existsb (portMatches port) l end) as Hm.
  { intros rule -> Hps. rewrite matches_applies. unfold applies. simpl. f_equal.
    - destruct ds as [|d ds].
      + rewrite (proj1 Hd2 eq_refl). by apply allIPs_contain.
      + rewrite Hd1. destruct (mt_DestinationIps m); [by destruct (proj2 Hd2 eq_refl)|done].
    - destruct (mt_Ports m) as [|v vs]; [by rewrite Hp2|].
      destruct Hps as [?|Hps]; [done|]. by destruct ps. }
  destruct (mt_Ports m) as [|v vs], ps as [|p ps']; injection H as <-.
  - split; [|done]. apply Hm; auto.
  - by specialize (Hp2 eq_refl).
  - rewrite <-Hp1. by rewrite andb_false_r.
  - split; [|done]. apply Hm; auto.
Qed.

Lemma compileRules_first i j rules cs :
  compileRules i rules = Ok cs → ruleAt j cs ip port = sourceRule i rules ip port.
Proof.
  revert i j cs. induction rules as [|r rules IH]; intros i j cs; simpl; [by intros [= <-]|].
  intros (c & Hc & (cs' & Hcs & [= <-])%rbind_Ok)%rbind_Ok.
  apply compileRule_matches in Hc as (action & m & -> & Hm). destruct c as [rule|]; simpl.
  - destruct Hm as (-> & -> & ->). destruct (matchMatches ip port m); [done|]. by apply IH.
  - rewrite Hm. by apply IH.
Qed.

Lemma compilePolicies_first policies out ps :
  rfold (λ out p, let! c := compilePolicy p in Ok (out ++ [c])) policies out = Ok ps →
  ∃ cs, ps = out ++ cs ∧ policyAt cs ip port = sourceDecision policies ip port
    ∧ (cs = [] ↔ policies = []).
Proof.
  revert out. induction policies as [|p policies IH]; intros out; simpl.
  { intros [= <-]. exists []. by rewrite app_nil_r. }
  intros (o & (c & Hc & [= <-])%rbind_Ok & (cs & -> & Hcs & _)%IH)%rbind_Ok.
  exists (c :: cs). rewrite <-app_assoc. split; [done|]. split; [|done].
  unfold compilePolicy in Hc. destruct (np_Policy p) as [t|]; [|done].
  apply rbind_Ok in Hc as (rules & Hr & [= <-]). simpl.
  rewrite (compileRules_first 0 0 _ _ Hr).
  by destruct (sourceRule 0 (egressRules t) ip port) as [[i action]|].
Qed.

End compiled.

Lemma Addr_Unmap_plain ip :
  Addr_IsValid ip = true → Addr_Zone ip = "" → in_range ip →
  Addr_IsValid (Addr_Unmap ip) = true ∧ Addr_Zone (Addr_Unmap ip) = "" ∧ in_range (Addr_Unmap ip).
Proof.
  intros Hv Hz Hr. unfold Addr_Unmap. destruct ip as [|n|n zone]; [done..|].
  destruct (Addr_Is4In6 _); [|done]. split; [done|]. split; [done|].
  unfold in_range. cbn [Addr_bits Addr_BitLen]. rewrite Z.land_ones by lia.
  apply Z.mod_pos_bound. lia.
Qed.

(** C27: for TCP destinations, the compiled configuration decides as the traffic policies
    say: with no policies everything is allowed; otherwise the first rule, in the order of
    the policies and of their egress rules, whose address and port conditions hold decides,
    under the policy's name and the rule's place in the source; without one the
    destination is denied. *)
Theorem compiled_policy_decides policies cfg a :
  Compile policies = Ok cfg → routable a → in_range (ap_Addr a) → (1 <= ap_Port a <= 65535)%Z →
  Evaluate cfg a
  = match policies with
    | [] => {| dc_Action := Allow; dc_PolicyName := ""; dc_RuleIndex := (-1)%Z |}
    | _ => default unmatched
             (sourceDecision policies (Addr_Unmap (ap_Addr a)) (ap_Port a))
    end.
Proof.
  unfold Compile. intros (ps & Hps & ([] & _ & [= <-])%rbind_Ok)%rbind_Ok Hr Hin Hp.
  pose proof Hr as (Hv & _ & Hz).
  destruct (Addr_Unmap_plain _ Hv Hz Hin) as (Hv' & Hz' & Hin').
  destruct (compilePolicies_first _ _ Hv' Hz' Hin' Hp _ _ _ Hps) as (cs & -> & Hcs & He).
  unfold Evaluate. rewrite (proj2 (Evaluate_guard a) Hr). simpl. rewrite <-Hcs.
  destruct cs as [|c cs]; [by rewrite (proj1 He eq_refl)|].
  destruct policies as [|p policies]; [by specialize (proj2 He eq_refl)|done].
Qed.

(** ** Authorizers that restrict *)

Section aggregate.
Context `{CF : CaseFolding} `{AT : AddressText} `{D : Deployment}.

(** The contract of an authorizer: it only drops candidates, and keeps those it permits. *)
Definition restricts (auth : DestinationAuthorizer) (P : Stream → World → AddrPort → Prop)
    : Prop :=
  ∀ st candidates info w w' info' out,
    auth st candidates info w = (w', info', Ok out) →
    ∀ a, a ∈ out → a ∈ candidates ∧ P st w a.

Lemma candidateStep_allowed c candidates acc :
  (∀ a, a ∈ acc.1.1 → dc_Action (Evaluate c a) = Allow) →
  let '(allowed, _, _) := foldl (candidateStep c) acc candidates in
  ∀ a, a ∈ allowed → (a ∈ acc.1.1 ∨ a ∈ candidates) ∧ dc_Action (Evaluate c a) = Allow.
Proof.
  revert acc. induction candidates as [|x l IH]; intros [[allowed d] info] Hacc; simpl in *.
  { intros a Ha. split; [by left|by apply Hacc]. }
  destruct (decide (dc_Action (Evaluate c x) = Allow)) as [Hx|Hx].
  - match goal with |- context [foldl _ ?acc' l] => specialize (IH acc') end.
    destruct (foldl _ _ l) as [[out d'] info']. simpl in IH. intros a Ha.
    destruct (IH) with (a := a) as [Hin Hal]; [|done|].
    + intros b [Hb|Hb%list_elem_of_singleton]%elem_of_app; [by apply Hacc|by subst].
    + split; [|done]. rewrite elem_of_app, list_elem_of_singleton in Hin. set_solver.
  - specialize (IH (allowed, Evaluate c x, info) Hacc). destruct (foldl _ _ l) as [[out d'] info'].
    intros a Ha. destruct (IH a Ha) as [Hin ?]. set_solver.
Qed.

Lemma Config_restricts c : restricts (Config_Authorize c) (λ _ _ a, dc_Action (Evaluate c a) = Allow).
Proof.
  intros st candidates info w w' info' out. unfold Config_Authorize.
  pose proof (candidateStep_allowed c candidates ([], zeroDecision, info)) as H.
  destruct (foldl _ _ _) as [[allowed d] i]. intros [= <- <- <-] a Ha.
  destruct (H ltac:(set_solver) a Ha) as [[Hn|Hin] Hal]; [set_solver|done].
Qed.

Lemma Static_restricts current :
  restricts (StaticAuthorizer_Authorize current)
    (λ _ w a, dc_Action (Evaluate (current w) a) = Allow).
Proof.
  intros st candidates info w w' info' out Hc. by apply (Config_restricts (current w)) in Hc.
Qed.

Lemma policies_restrict (configOf : Authorizer → Config) :
  restricts (authorizer_Authorize (λ x, Config_Authorize (configOf x)))
    (λ st _ a, Workload_HasIdentity (sj_Workload (rc_Caller (st_Context st))) = true
       ∧ ∃ x, ps_DestinationAuthorizer (rc_Policies (st_Context st)) = Some x
              ∧ dc_Action (Evaluate (configOf x) a) = Allow).
Proof.
  intros st candidates info w w' info' out. unfold authorizer_Authorize.
  destruct (Workload_HasIdentity _); [|intros [= <- <- <-]; set_solver].
  destruct (ps_DestinationAuthorizer _) as [x|]; [|done]. intros Hc a Ha.
  destruct (Config_restricts _ _ _ _ _ _ _ _ Hc a Ha). eauto 10.
Qed.

(** ** The aggregate *)

Lemma runAuthorizers_restrict auths Ps st candidates info w w' info' out :
  Forall2 restricts auths Ps →
  runAuthorizers auths st candidates info w = (w', info', Remaining out) →
  ∀ a, a ∈ out → a ∈ candidates ∧ Forall (λ P, ∃ w, P st w a) Ps.
Proof.
  intros HF. revert candidates info w. induction HF as [|auth P auths Ps Hr _ IH];
    intros candidates info w; simpl; [by intros [= <- <- <-]|].
  destruct (auth st candidates info w) as [[w1 info1] [cs|e]] eqn:Ha; [|done].
  destruct cs as [|c cs]; [done|]. intros Hrun a Hin.
  destruct (IH _ _ _ Hrun a Hin) as [Hcs HPs].
  destruct (Hr _ _ _ _ _ _ _ Ha a Hcs) as [Hc HP]. split; [done|]. constructor; eauto.
Qed.

Lemma selectFrom_elem a selected count rest w :
  let '(w', s) := selectFrom a selected count rest w in s = selected ∨ s ∈ rest.
Proof.
  revert selected count w. induction rest as [|c rest IH]; intros selected count w; simpl; [by left|].
  destruct (Bool.eqb _ _).
  - destruct (ag_IntN a (count + 1) w) as [w1 n].
    specialize (IH (if (n =? 0)%Z then c else selected) (count + 1)%Z w1).
    destruct (selectFrom _ _ _ _ _) as [w2 s]. destruct IH as [->|IH]; [|by right; right].
    destruct (n =? 0)%Z; [by right; left|by left].
  - specialize (IH selected count w). destruct (selectFrom _ _ _ _ _) as [w2 s].
    destruct IH; [by left|by right; right].
Qed.

Lemma select_elem a candidates w w' s :
  selectRandomCandidate a candidates w = (w', Some s) → s ∈ candidates.
Proof.
  unfold selectRandomCandidate. destruct candidates as [|c rest]; [done|].
  pose proof (selectFrom_elem a c 1 rest w) as H. destruct (selectFrom a c 1 rest w) as [w1 s1].
  intros [= <- <-]. destruct H as [->|H]; [by left|by right].
Qed.

(** Where a candidate comes from: the fixed target, or the addresses of the host. *)
Definition candidate_of (a : Aggregate) (st : Stream) (addr : AddrPort) : Prop :=
  match st_Upstream st with
  | Some up => up_Address up = Some addr
  | None =>
      ap_Port addr = rq_Port (rc_Request (st_Context st))
      ∧ ∃ w w' ips, resolveDNS a st w = (w', Ok ips) ∧ ap_Addr addr ∈ ips
  end.

Lemma resolveDNS_port a st w w' ips :
  resolveDNS a st w = (w', Ok ips) →
  uint16 (rq_Port (rc_Request (st_Context st))) = rq_Port (rc_Request (st_Context st)).
Proof.
  unfold resolveDNS. destruct (ag_Resolve a) as [resolve|]; [|done].
  destruct (ag_ctxErr a w); [done|]. destruct (_ || _) eqn:Hp; [done|]. intros _.
  apply orb_false_iff in Hp as [?%Z.leb_gt ?%Z.ltb_ge]. unfold uint16. apply Z.mod_small. lia.
Qed.

Lemma resolveCandidates_of a st info w w' info' candidates :
  resolveCandidates a st info w = (w', info', Ok candidates) →
  ∀ addr, addr ∈ candidates → candidate_of a st addr.
Proof.
  unfold resolveCandidates, candidate_of. destruct (st_Upstream st) as [up|].
  { destruct (Route_Validate _); [|done]. destruct (up_Address up) as [x|]; [|done].
    intros [= <- <- <-] addr ->%list_elem_of_singleton. done. }
  destruct (resolveDNS a st w) as [w1 [ips|e]] eqn:Hd; [|done].
  pose proof (resolveDNS_port _ _ _ _ _ Hd) as Hp.
  destruct (_ && _) eqn:Hb; intros [= <- <- <-] addr Hin.
  - apply list_elem_of_singleton in Hin as ->. apply andb_true_iff in Hb as [_ Hb%bool_decide_eq_true].
    simpl. rewrite Hp. eauto 10.
  - apply list_elem_of_fmap in Hin as (ip & -> & Hip). simpl. rewrite Hp. eauto 10.
Qed.

Lemma aggregate_target a Ps st info w w' info' target :
  Forall2 restricts (ag_authorizers a) Ps →
  Aggregate_Authorize a st info w = (w', info', (target, None, None)) →
  ∃ addr, target = Some {| up_Address := Some addr |} ∧ candidate_of a st addr
    ∧ Forall (λ P, ∃ w, P st w addr) Ps
    ∧ ∃ info0, info' = RecordAuthorizedDestination addr info0.
Proof.
  intros HF. unfold Aggregate_Authorize. destruct (ag_ctxErr a w); [done|].
  destruct (resolveCandidates a st info w) as [[w1 info1] [cs|e]] eqn:Hres; [|done].
  destruct (runAuthorizers _ _ _ _ _) as [[w2 info2] [out| |e]] eqn:Hrun; [|done..].
  destruct (selectRandomCandidate a out w2) as [w3 [s|]] eqn:Hsel; [|done].
  intros [= <- <- <-]. apply select_elem in Hsel.
  destruct (runAuthorizers_restrict _ _ _ _ _ _ _ _ _ HF Hrun s Hsel) as [Hin HP].
  pose proof (resolveCandidates_of _ _ _ _ _ _ _ Hres s Hin) as Hof.
  exists s. split; [|by eauto]. unfold candidate_of in Hof.
  destruct (st_Upstream st) as [[up]|]; [|done]. simpl in Hof. by rewrite Hof.
Qed.

(** With a client that never answers without an address, as [Dns] shows of the one the
    program uses, the selection has something to select from. *)
Lemma aggregate_selects a st info w w1 info1 cs w2 info2 out :
  (∀ resolve host w w' ips,
     ag_Resolve a = Some resolve → resolve host w = (w', Ok ips) → ips ≠ []) →
  resolveCandidates a st info w = (w1, info1, Ok cs) →
  runAuthorizers (ag_authorizers a) st cs info1 w1 = (w2, info2, Remaining out) → out ≠ [].
Proof.
  intros Hne Hres Hrun.
  assert (cs ≠ []) as Hcs.
  { unfold resolveCandidates in Hres. destruct (st_Upstream st) as [up|].
    { destruct (Route_Validate _); [|done]. by destruct (up_Address up); simplify_eq. }
    destruct (resolveDNS a st w) as [w0 [ips|e]] eqn:Hd; [|done].
    assert (ips ≠ []) as Hips.
    { unfold resolveDNS in Hd. destruct (ag_Resolve a) as [resolve|] eqn:Hr; [|done].
      destruct (ag_ctxErr a w); [done|]. destruct (_ || _); [done|].
      destruct (ParseAddr _); [by destruct (decide _); simplify_eq|by eapply Hne]. }
    destruct (_ && _); simplify_eq; [done|]. by destruct ips. }
  clear Hres. revert cs info1 w1 Hcs Hrun.
  induction (ag_authorizers a) as [|auth auths IH]; intros cs info1 w1 Hcs; simpl;
    [by intros [= <- <- <-]|].
  destruct (auth st cs info1 w1) as [[w3 info3] [[|c l]|e]]; [done| |done]. by apply IH.
Qed.

(** A target that the aggregate approves is an address that every authorizer of the
    chain permits, and one that the request can mean: the explicit upstream when the stream
    has one, and otherwise an address its host resolves to, with the request's port; the
    record of the decision names that address. *)
Theorem aggregate_pins_permitted a Ps st info w w' info' target :
  Forall2 restricts (ag_authorizers a) Ps →
  Aggregate_Authorize a st info w = (w', info', (target, None, None)) →
  ∃ addr, target = Some {| up_Address := Some addr |} ∧ candidate_of a st addr
    ∧ Forall (λ P, ∃ w, P st w addr) Ps
    ∧ (ad_Action <$> si_Authorization info') = Some "allow"
    ∧ (ad_Destination <$> si_Authorization info') = Some (AddrPort_String addr).
Proof.
  intros HF Ha. destruct (aggregate_target _ _ _ _ _ _ _ _ HF Ha) as (addr & Ht & Hc & HP & info0 & ->).
  exists addr. by repeat split.
Qed.

End aggregate.

(** ** End to end *)

Section enforced.
Context `{CF : CaseFolding} `{AT : AddressText} `{RT : RequestText}.
Context `{D : Deployment} `{FL : !Filters}.

(** A server whose request authorizer is the aggregate of the global configuration and
    of the compiled policies of the workload tells the proxy, in every response that lets a
    request through, an address that the global configuration allowed and that the policies
    in the context of an identified caller allow, the context being that of a request the
    call received; whatever messages arrive, and whether or not filters wait for the body. *)
Theorem egress_enforced s a current (configOf : Authorizer → Config) turns w :
  sv_authorizeRequest s = Some (Aggregate_Authorize a) →
  ag_authorizers a = [StaticAuthorizer_Authorize current;
                      authorizer_Authorize (λ x, Config_Authorize (configOf x))] →
  Forall (λ resp, lets_through resp = true →
    ∃ addr c w x,
      pinned addr resp
      ∧ dc_Action (Evaluate (current w) addr) = Allow
      ∧ context_resolved s (askedIn turns) c
      ∧ Workload_HasIdentity (sj_Workload (rc_Caller c)) = true
      ∧ ps_DestinationAuthorizer (rc_Policies c) = Some x
      ∧ dc_Action (Evaluate (configOf x) addr) = Allow)
    (ca_sent (Process s turns w).1).
Proof.
  intros Hs Ha. eapply Forall_impl; [exact (Process_approved s _ turns w Hs)|].
  intros resp Hresp Hl.
  destruct (Hresp Hl) as (stream & ops & route & target & Happ & _ & Hpin).
  destruct Happ as (route0 & info & w1 & w2 & info' & Hcall & _ & _ & Hcx).
  apply (aggregate_target a
    [(λ _ w a, dc_Action (Evaluate (current w) a) = Allow);
     (λ st _ a, Workload_HasIdentity (sj_Workload (rc_Caller (st_Context st))) = true
       ∧ ∃ x, ps_DestinationAuthorizer (rc_Policies (st_Context st)) = Some x
              ∧ dc_Action (Evaluate (configOf x) a) = Allow)]) in Hcall
    as (addr & -> & _ & HPs & _).
  - rewrite !Forall_cons in HPs. destruct HPs as ([w3 Hg] & [w4 (Hid & x & Hx & Hal)] & _).
    exists addr, (st_Context stream), w3, x. split; [by apply Hpin|]. done.
  - rewrite Ha. constructor; [apply Static_restricts|].
    constructor; [apply policies_restrict|constructor].
Qed.

End enforced.
