(* ===== verification/WorkloadPolicies.v ===== *)
(** * The policies of a workload

    src/extensions/epe/pkg/policy/trafficpolicy: the index of workloads with the traffic
    policies they refer to (index.go), the lookup that captures one consistent set of them
    for a request (resources.go), and the resolver that puts their compiled form into the
    request's context (workload.go). The world is whatever the resource store and its
    sources do between two calls. *)

From S2P Require Import Prelude Netip Filter Attributes Fold Engine ExtProc ExtProcServer ExtProcInvariant ExtProcAuthorization Egress EgressTheorems EngineStore.

(** ** Workloads and their references: resources.go and workload.go *)

Definition trafficPolicyType : string := "type.googleapis.com/agentio.security.TrafficPolicy".
Definition securityProfileType : string := "type.googleapis.com/agentio.security.SecurityProfile".

Record PolicyReference := { pf_TypeUrl : string; pf_Resources : list string }.

(** The messages that an extension of a workload packs. *)
Class ExtensionCodec := {
  Any : Type;
  unmarshalReference : Any → result PolicyReference;
  unmarshalMetadata : Any → result (gmap string string)
}.

(** [MissingResource], or another error. *)
Inductive lookupErr := MissingResource (key : Key) | LookupError (message : string).

#[export] Instance lookupErr_eq_dec : EqDecision lookupErr.
Proof. solve_decision. Defined.

Section workloads.
Context `{EC : ExtensionCodec}.

Record Extension := { ex_Name : string; ex_Config : option Any }.

Record WorkloadMsg := {
  wm_Uid : string;
  wm_Name : string;
  wm_Namespace : string;
  wm_Extensions : list Extension
}.

(** The loop of [references] over the extensions. *)
Definition referenceStep (found : option PolicyReference) (e : Extension)
    : result (option PolicyReference) :=
  if decide (ex_Name e = "traffic-policy-reference") then
    match found, ex_Config e with
    | Some _, _ => Err "duplicate TrafficPolicy reference"
    | None, None => Err "missing TrafficPolicy reference payload"
    | None, Some config =>
        let! r := unmarshalReference config in
        if decide (pf_TypeUrl r = trafficPolicyType) then Ok (Some r)
        else Err "unexpected TrafficPolicy reference type"
    end
  else Ok found.

Definition nameStep (names : list string) (name : string) : result (list string) :=
  if decide (name = "" ∨ name ∈ names) then Err "invalid TrafficPolicy reference"
  else Ok (names ++ [name]).

Definition references (w : WorkloadMsg) : result (list string) :=
  let! found := rfold referenceStep (wm_Extensions w) None in
  match found with
  | None => Err "native TrafficPolicy binding missing"
  | Some r => rfold nameStep (pf_Resources r) []
  end.

(** The loop of [workloadBinding]: the two messages found so far. *)
Definition bindingStep (acc : option PolicyReference * option (gmap string string))
    (e : Extension) : result (option PolicyReference * option (gmap string string)) :=
  let '(binding, metadata) := acc in
  if decide (ex_Name e = "security-profile-reference") then
    match binding, ex_Config e with
    | None, Some config => let! r := unmarshalReference config in Ok (Some r, metadata)
    | _, _ => Err "invalid SecurityProfile reference"
    end
  else if decide (ex_Name e = "workload-metadata") then
    match metadata, ex_Config e with
    | None, Some config => let! m := unmarshalMetadata config in Ok (binding, Some m)
    | _, _ => Err "invalid workload-metadata"
    end
  else Ok acc.

Definition identityOf (w : WorkloadMsg) (labels : gmap string string)
    (profiles : option (list string)) : SubjectWorkload :=
  {| wl_UID := wm_Uid w; wl_Namespace := wm_Namespace w; wl_Name := wm_Name w; wl_IP := "";
     wl_Labels := labels; wl_SecurityProfileReferences := profiles |}.

(** An error leaves the identity without labels and references. *)
Definition workloadBinding (w : WorkloadMsg) : SubjectWorkload * option string :=
  match rfold bindingStep (wm_Extensions w) (None, None) with
  | Err e => (identityOf w ∅ None, Some e)
  | Ok (Some binding, metadata) =>
      if decide (pf_TypeUrl binding = securityProfileType)
      then (identityOf w (default ∅ metadata) (Some (pf_Resources binding)), None)
      else (identityOf w ∅ None, Some "SecurityProfile binding missing or invalid")
  | Ok (None, _) => (identityOf w ∅ None, Some "SecurityProfile binding missing or invalid")
  end.

(** ** The index: index.go *)

Abbreviation WorkloadResource := (Resource WorkloadMsg).
Abbreviation PolicyResource := (Resource TrafficPolicy).

Record indexedWorkload := {
  iw_binding : SubjectWorkload;
  iw_bindingErr : option string;
  iw_workload : option WorkloadResource;
  iw_dependencies : list PolicyResource;
  iw_policies : list PolicyResource;
  iw_named : list NamedPolicy;
  iw_compiled : result Config;
  iw_err : option lookupErr
}.

Definition emptyConfig : Config := {| cf_DeniedCIDRs := []; cf_Policies := [] |}.

(** What a snapshot answers under a name. *)
Abbreviation lookup_of A := (string → answer A).

Context `{IWm : ObjectIdentity WorkloadMsg} `{IPm : ObjectIdentity TrafficPolicy}.

(** The loop over the references: the policies found, and the error that ended it. *)
Fixpoint collect (get : lookup_of PolicyResource) (names : list string)
    : list PolicyResource * option lookupErr :=
  match names with
  | [] => ([], None)
  | name :: names =>
      match get name with
      | (_, Some e) => ([], Some (LookupError e))
      | (None, None) => ([], Some (MissingResource (PolicyKey name)))
      | (Some policy, None) =>
          let '(dependencies, err) := collect get names in (policy :: dependencies, err)
      end
  end.

Definition namedOf (r : PolicyResource) : NamedPolicy :=
  {| np_Name := res_Name r; np_Policy := Some (res_Value r) |}.

(** Whether the view still has what an entry was built from. *)
Definition absent {A} (found : answer A) : bool :=
  match found with (None, None) => true | _ => false end.

Definition unchangedEntry (getW : lookup_of WorkloadResource) (getP : lookup_of PolicyResource)
    (previous : indexedWorkload) : bool :=
  match iw_err previous with
  | None => true
  | Some (MissingResource (WorkloadKey name)) => absent (getW name)
  | Some (MissingResource (PolicyKey name)) => absent (getP name)
  | Some (LookupError _) => false
  end
  && forallb (λ d, match getP (res_Name d) with
                   | (Some current, None) => same (res_Value current) (res_Value d)
                   | _ => false
                   end) (iw_dependencies previous).

Definition sameWorkload (previous : indexedWorkload) (r : WorkloadResource) : bool :=
  match iw_workload previous with
  | Some w => same (res_Value w) (res_Value r)
  | None => false
  end.

Definition freshWorkload (getP : lookup_of PolicyResource) (r : WorkloadResource)
    (binding : SubjectWorkload * option string) : indexedWorkload :=
  let entry dependencies policies named compiled err :=
    {| iw_binding := binding.1; iw_bindingErr := binding.2; iw_workload := Some r;
       iw_dependencies := dependencies; iw_policies := policies; iw_named := named;
       iw_compiled := compiled; iw_err := err |} in
  match references (res_Value r) with
  | Err e => entry [] [] [] (Ok emptyConfig) (Some (LookupError e))
  | Ok names =>
      match collect getP names with
      | (dependencies, Some e) => entry dependencies [] [] (Ok emptyConfig) (Some e)
      | (dependencies, None) =>
          entry dependencies dependencies (namedOf <$> dependencies)
            (Compile (namedOf <$> dependencies)) None
      end
  end.

Definition buildWorkload (getW : lookup_of WorkloadResource) (getP : lookup_of PolicyResource)
    (r : WorkloadResource) (previous : option indexedWorkload) : indexedWorkload :=
  match previous with
  | Some p =>
      if sameWorkload p r then
        if unchangedEntry getW getP p then p
        else freshWorkload getP r (iw_binding p, iw_bindingErr p)
      else freshWorkload getP r (workloadBinding (res_Value r))
  | None => freshWorkload getP r (workloadBinding (res_Value r))
  end.

Record queryIndex := {
  qi_workloads : gmap (string * string) indexedWorkload;
  qi_byUID : gmap string indexedWorkload;
  qi_err : option string
}.

Definition ambiguousEntry : indexedWorkload :=
  {| iw_binding := identityOf {| wm_Uid := ""; wm_Name := ""; wm_Namespace := "";
                                 wm_Extensions := [] |} ∅ None;
     iw_bindingErr := None; iw_workload := None; iw_dependencies := []; iw_policies := [];
     iw_named := []; iw_compiled := Ok emptyConfig;
     iw_err := Some (LookupError "ambiguous source Workload") |}.

(** The loop of [build]: it stops at an error, with what it has so far. *)
Fixpoint indexResources (getW : lookup_of WorkloadResource) (getP : lookup_of PolicyResource)
    (old : option queryIndex) (resources : list WorkloadResource) (index : queryIndex)
    : queryIndex :=
  match resources with
  | [] => index
  | r :: resources =>
      let key := (wm_Namespace (res_Value r), wm_Name (res_Value r)) in
      let failed e := {| qi_workloads := qi_workloads index; qi_byUID := qi_byUID index;
                         qi_err := Some e |} in
      match getW (res_Name r) with
      | (_, Some e) => failed e
      | (None, None) => failed "nil pointer dereference"
      | (Some canonical, None) =>
          let entry := buildWorkload getW getP canonical
                         (old ≫= λ i, qi_byUID i !! res_Name r) in
          indexResources getW getP old resources
            {| qi_workloads :=
                 <[key := match qi_workloads index !! key with
                          | Some _ => ambiguousEntry
                          | None => entry
                          end]> (qi_workloads index);
               qi_byUID := <[res_Name r := entry]> (qi_byUID index);
               qi_err := qi_err index |}
      end
  end.

Definition buildIndex (w : DefaultSnapshot WorkloadMsg) (p : DefaultSnapshot TrafficPolicy)
    (previous : option queryIndex) : queryIndex :=
  match snapshotList w with
  | (_, Some e) => {| qi_workloads := ∅; qi_byUID := ∅; qi_err := Some e |}
  | (resources, None) =>
      indexResources (snapshotGet w) (snapshotGet p) previous resources
        {| qi_workloads := ∅; qi_byUID := ∅; qi_err := None |}
  end.

#[export] Instance trafficQueries : QueryBuilder WorkloadMsg TrafficPolicy queryIndex :=
  {| buildQuery := buildIndex |}.

(** *** Reusing an index *)

(** A snapshot answers under the names of its resources. *)
Definition answers_named {V} (get : lookup_of (Resource V)) : Prop :=
  ∀ name r e, get name = (Some r, e) → res_Name r = name.

Lemma collect_stable get0 get names dependencies err :
  answers_named get0 → answers_named get →
  collect get0 names = (dependencies, err) →
  match err with
  | None => True
  | Some (MissingResource (PolicyKey name)) => absent (get name) = true
  | _ => False
  end →
  (∀ d, d ∈ dependencies → ∃ current, get (res_Name d) = (Some current, None)
        ∧ same (res_Value current) (res_Value d) = true) →
  collect get names = (dependencies, err).
Proof.
  intros H0 H. revert dependencies. induction names as [|name names IH]; intros deps; simpl.
  { by intros [= <- <-]. }
  destruct (get0 name) as [[policy|] [e|]] eqn:Hget; [by intros [= <- <-]| |by intros [= <- <-]|].
  - destruct (collect get0 names) as [ds err'] eqn:Hc. intros [= <- <-] Herr Hd.
    destruct (Hd policy) as (current & Hcur & Hs); [left|].
    pose proof (H0 _ _ _ Hget) as Hname. rewrite Hname in Hcur. rewrite Hcur.
    rewrite (IH ds); [|done..|].
    + f_equal. f_equal. apply same_eq in Hs. pose proof (H _ _ _ Hcur) as Hname'.
      destruct current, policy. simpl in *. congruence.
    + intros d Hin. apply Hd. by right.
  - intros [= <- <-] Habs _. destruct (get name) as [[?|] [?|]]; done.
Qed.

Lemma freshWorkload_collected get r binding names :
  references (res_Value r) = Ok names →
  iw_dependencies (freshWorkload get r binding) = (collect get names).1
  ∧ iw_err (freshWorkload get r binding) = (collect get names).2.
Proof.
  intros Hr. unfold freshWorkload. rewrite Hr. by destruct (collect get names) as [ds [|]].
Qed.

Lemma collect_missing get names name :
  (collect get names).2 ≠ Some (MissingResource (WorkloadKey name)).
Proof.
  induction names as [|n names IH]; [done|]. simpl.
  destruct (get n) as [[?|] [?|]]; [done| |done..]. by destruct (collect get names).
Qed.

(** An entry that is reused is the one that would be built. *)
Lemma buildWorkload_reuse getW getP getP0 r r0 :
  answers_named getP → answers_named getP0 → res_Name r0 = res_Name r →
  buildWorkload getW getP r (Some (freshWorkload getP0 r0 (workloadBinding (res_Value r0))))
  = buildWorkload getW getP r None.
Proof.
  intros HP HP0 Hname. set (p := freshWorkload getP0 r0 _).
  assert (iw_workload p = Some r0 ∧ iw_binding p = (workloadBinding (res_Value r0)).1
    ∧ iw_bindingErr p = (workloadBinding (res_Value r0)).2) as (Hw & Hb & He).
  { unfold p, freshWorkload. destruct (references _) as [names|]; [|done].
    by destruct (collect _ _) as [ds [|]]. }
  unfold buildWorkload, sameWorkload. rewrite Hw.
  destruct (same (res_Value r0) (res_Value r)) eqn:Hs; [|done]. apply same_eq in Hs.
  assert (r0 = r) as -> by (destruct r0, r; simpl in *; congruence).
  rewrite Hb, He, <-surjective_pairing.
  destruct (unchangedEntry getW getP p) eqn:Hu; [|done].
  apply andb_true_iff in Hu as [Herr Hdeps]. rewrite forallb_forall in Hdeps.
  destruct (references (res_Value r)) as [names|e] eqn:Hrefs.
  - destruct (freshWorkload_collected getP0 r (workloadBinding (res_Value r)) names Hrefs)
      as [Hd He']. fold p in Hd, He'. rewrite Hd in Hdeps. rewrite He' in Herr.
    pose proof (collect_missing getP0 names) as Hmiss.
    destruct (collect getP0 names) as [deps err] eqn:Hc. simpl in *.
    assert (collect getP names = (deps, err)) as Hcol.
    { apply (collect_stable getP0); [done..| |].
      - destruct err as [[[n|n]|e]|]; [by destruct (Hmiss n)|done..].
      - intros d Hin%list_elem_of_In%Hdeps.
        destruct (getP (res_Name d)) as [[current|] [|]]; naive_solver. }
    unfold p, freshWorkload. by rewrite Hrefs, Hc, Hcol.
  - unfold p, freshWorkload in Herr. by rewrite Hrefs in Herr.
Qed.

(** *** The law of the aggregate *)

(** Every entry of an index is one that would be built without an older index. *)
Definition entries_fresh (get : lookup_of PolicyResource) (i : queryIndex) : Prop :=
  ∀ uid e, qi_byUID i !! uid = Some e →
    ∃ r, res_Name r = uid ∧ e = freshWorkload get r (workloadBinding (res_Value r)).

Lemma indexResources_fresh getW getP resources index :
  answers_named getW → entries_fresh getP index →
  entries_fresh getP (indexResources getW getP None resources index).
Proof.
  intros HW. revert index. induction resources as [|r l IH]; intros index Hi; [done|].
  cbn [indexResources]. destruct (getW (res_Name r)) as [[c|] [e|]] eqn:Hc; [done| |done..].
  apply IH. intros uid e. simpl. intros [[<- <-]|[_ He]]%lookup_insert_Some; [|by apply Hi].
  exists c. split; [by apply (HW _ _ _ Hc)|done].
Qed.

Lemma indexResources_reuse getW getP getP0 old resources index :
  answers_named getW → answers_named getP → answers_named getP0 → entries_fresh getP0 old →
  indexResources getW getP (Some old) resources index
  = indexResources getW getP None resources index.
Proof.
  intros HW HP HP0 Hold. revert index. induction resources as [|r l IH]; intros index; [done|].
  cbn [indexResources]. destruct (getW (res_Name r)) as [[c|] [e|]] eqn:Hc; [done| |done..].
  assert (buildWorkload getW getP c (Some old ≫= λ i, qi_byUID i !! res_Name r)
          = buildWorkload getW getP c (None ≫= λ i : queryIndex, qi_byUID i !! res_Name r)) as ->;
    [|apply IH].
  simpl. destruct (qi_byUID old !! res_Name r) as [p|] eqn:Hp; [|done].
  destruct (Hold _ _ Hp) as (r0 & Hr0 & ->). apply (buildWorkload_reuse getW getP getP0); [done..|].
  by rewrite Hr0, (HW _ _ _ Hc).
Qed.

Lemma snapshotGet_named {V} (d : DefaultSnapshot V) :
  snapshot_ok d → answers_named (snapshotGet d).
Proof.
  intros Hd name r e. unfold snapshotGet. destruct (ds_resources d !! name) as [x|] eqn:Hx; [|done].
  intros [= <- _]. by apply (ok_name _ Hd).
Qed.

Lemma buildIndex_fresh w p :
  snapshot_ok w → entries_fresh (snapshotGet p) (buildIndex w p None).
Proof.
  intros Hw. unfold buildIndex. destruct (snapshotList w) as [resources [e|]];
    [|apply indexResources_fresh; [by apply snapshotGet_named|]];
    intros uid e' He; simpl in He; by rewrite lookup_empty in He.
Qed.

#[export] Instance trafficQueries_laws : QueryBuilderLaws WorkloadMsg TrafficPolicy queryIndex.
Proof.
  intros w p w' p' Hw Hp Hw' Hp'. simpl. unfold buildIndex at 1 3.
  destruct (snapshotList w) as [resources [e|]]; [done|].
  apply (indexResources_reuse _ _ (snapshotGet p')); auto using snapshotGet_named, buildIndex_fresh.
Qed.

(** ** Queries: index.go *)

Definition WorkloadUID (clusterID namespace name : string) : string :=
  (clusterID +:+ "//Pod/" +:+ namespace +:+ "/" +:+ name)%string.

Definition forSubject (clusterID : string) (i : queryIndex) (subject : SubjectWorkload)
    : option indexedWorkload * option lookupErr :=
  match qi_err i with
  | Some e => (None, Some (LookupError e))
  | None =>
      if negb (Workload_HasIdentity subject)
      then (None, Some (LookupError "traffic policy lookup requires workload identity"))
      else if decide (wl_UID subject ≠ "") then
        match qi_byUID i !! wl_UID subject with
        | None => (None, Some (MissingResource (WorkloadKey (wl_UID subject))))
        | Some entry => (Some entry, iw_err entry)
        end
      else
        match qi_workloads i !! (wl_Namespace subject, wl_Name subject) with
        | None =>
            (None, Some (MissingResource (WorkloadKey
                           (WorkloadUID clusterID (wl_Namespace subject) (wl_Name subject)))))
        | Some entry => (Some entry, iw_err entry)
        end
  end.

(** [ResourcesFor] for workloads, which have one resource: an entry without a workload has
    an error. *)
Definition workloadFor (clusterID : string) (i : queryIndex) (subject : SubjectWorkload)
    : WorkloadResource + lookupErr :=
  match forSubject clusterID i subject with
  | (Some {| iw_workload := Some r |}, _) => inl r
  | (_, Some e) => inr e
  | (_, None) => inr (LookupError "index out of range")
  end.

(** ** Lookups: resources.go *)

(** The view of [SnapshotFor]: the sources in their order. *)
Record View := {
  vw_Ready : bool;
  vw_Workloads : list (DefaultSnapshot WorkloadMsg);
  vw_Policies : list (DefaultSnapshot TrafficPolicy)
}.

Context `{D : Deployment}.

(** [Resources], and the context of the call. An acquisition tells whether it has to be
    released. *)
Record Resources := {
  rr_Snapshot : World → @Snapshot WorkloadMsg TrafficPolicy queryIndex;
  rr_SnapshotFor : list Key → World → World * View;
  rr_AcquireWorkload : string → World → World * (answer WorkloadResource * bool);
  rr_AcquirePolicy : string → World → World * (answer PolicyResource * bool);
  rr_Release : Key → World → World;
  rr_ctxErr : World → World * option string
}.

Context (clusterID : string).

Definition indexOf (src : Resources) (w : World) : queryIndex :=
  default {| qi_workloads := ∅; qi_byUID := ∅; qi_err := None |} (sn_Query (rr_Snapshot src w)).

(** The UID under which the workload of a subject is published; only workloads are missed. *)
Definition workloadKey (src : Resources) (subject : SubjectWorkload) (w : World)
    : string + lookupErr :=
  if decide (wl_UID subject ≠ "") then inl (wl_UID subject)
  else if negb (sn_Ready (rr_Snapshot src w))
  then inl (WorkloadUID clusterID (wl_Namespace subject) (wl_Name subject))
  else match workloadFor clusterID (indexOf src w) subject with
       | inl r => inl (res_Name r)
       | inr (MissingResource (WorkloadKey uid)) => inl uid
       | inr e => inr e
       end.

(** The state of a lookup: the policies tried, with their errors, and what to release. *)
Record Leases := { le_acquired : gmap string (option lookupErr); le_releases : list Key }.

Definition withRelease (key : Key) (release : bool) (l : Leases) : Leases :=
  {| le_acquired := le_acquired l;
     le_releases := if release then le_releases l ++ [key] else le_releases l |}.

Definition withAcquired (name : string) (err : option lookupErr) (l : Leases) : Leases :=
  {| le_acquired := <[name := err]> (le_acquired l); le_releases := le_releases l |}.

Fixpoint acquirePolicies (src : Resources) (names : list string) (l : Leases) (w : World)
    : World * Leases * option string :=
  match names with
  | [] => (w, l, None)
  | name :: names =>
      match rr_ctxErr src w with
      | (w, Some e) => (w, l, Some e)
      | (w, None) =>
          if decide (le_acquired l !! name = None) then
            let '(w, (found, release)) := rr_AcquirePolicy src name w in
            let err := match found with
                       | (_, Some e) => Some (LookupError e)
                       | (None, None) => Some (MissingResource (PolicyKey name))
                       | (Some _, None) => None
                       end in
            acquirePolicies src names
              (withAcquired name err (withRelease (PolicyKey name) release l)) w
          else acquirePolicies src names l w
      end
  end.

Definition lookupWorkload (view : View) (uid : string) (previous : option indexedWorkload)
    : indexedWorkload + lookupErr :=
  if negb (vw_Ready view) then inr (LookupError "egress resources are not synchronized")
  else match mergedGet (vw_Workloads view) uid with
       | (_, Some e) => inr (LookupError e)
       | (None, None) => inr (MissingResource (WorkloadKey uid))
       | (Some r, None) =>
           let entry := buildWorkload (mergedGet (vw_Workloads view))
                          (mergedGet (vw_Policies view)) r previous in
           match iw_err entry with Some e => inr e | None => inl entry end
       end.

(** The policies that a candidate refers to. *)
Definition dependencyNames (candidate : WorkloadResource) (previous : option indexedWorkload)
    : result (list string) :=
  match previous with
  | Some p => if sameWorkload p candidate && bool_decide (iw_err p = None)
              then Ok (res_Name <$> iw_dependencies p)
              else references (res_Value candidate)
  | None => references (res_Value candidate)
  end.

(** The first error among the policies that were acquired. *)
Definition acquiredErr (l : Leases) (names : list string) : option lookupErr :=
  head (omap (λ name, mjoin (le_acquired l !! name)) names).

(** From the view on: [None] when the workload has changed. *)
Definition finishRound (view : View) (uid : string) (candidate : WorkloadResource)
    (names : list string) (previous : option indexedWorkload) (l : Leases)
    : option (indexedWorkload + lookupErr) :=
  match mergedGet (vw_Workloads view) uid with
  | (_, Some e) => Some (inr (LookupError e))
  | (None, None) => None
  | (Some current, None) =>
      if negb (same (res_Value current) (res_Value candidate)) then None
      else match acquiredErr l names with
           | Some e => Some (inr e)
           | None => Some (lookupWorkload view uid previous)
           end
  end.

(** One round of the loop. *)
Definition lookupRound (src : Resources) (uid : string) (l : Leases) (w : World)
    : World * Leases * option (indexedWorkload + lookupErr) :=
  match rr_ctxErr src w with
  | (w, Some e) => (w, l, Some (inr (LookupError e)))
  | (w, None) =>
      let '(w, (found, release)) := rr_AcquireWorkload src uid w in
      let l := withRelease (WorkloadKey uid) release l in
      match found with
      | (_, Some e) => (w, l, Some (inr (LookupError e)))
      | (None, None) => (w, l, Some (inr (MissingResource (WorkloadKey uid))))
      | (Some candidate, None) =>
          let previous := qi_byUID (indexOf src w) !! uid in
          match dependencyNames candidate previous with
          | Err e => (w, l, Some (inr (LookupError e)))
          | Ok names =>
              let '(w, l, stopped) := acquirePolicies src names l w in
              match stopped with
              | Some e => (w, l, Some (inr (LookupError e)))
              | None =>
                  match rr_ctxErr src w with
                  | (w, Some e) => (w, l, Some (inr (LookupError e)))
                  | (w, None) =>
                      let '(w, view) :=
                        rr_SnapshotFor src (WorkloadKey uid :: (PolicyKey <$> names)) w in
                      (w, l, finishRound view uid candidate names previous l)
                  end
              end
          end
      end
  end.

(** The loop, and [None] if the workload still changes after [fuel] rounds. *)
Fixpoint lookupLoop (fuel : nat) (src : Resources) (uid : string) (l : Leases) (w : World)
    : World * Leases * option (indexedWorkload + lookupErr) :=
  match fuel with
  | 0 => (w, l, None)
  | S fuel =>
      match lookupRound src uid l w with
      | (w, l, None) => lookupLoop fuel src uid l w
      | done => done
      end
  end.

Definition lookupEntry (fuel : nat) (src : Resources) (subject : SubjectWorkload) (w : World)
    : World * option (indexedWorkload + lookupErr) :=
  match workloadKey src subject w with
  | inr e => (w, Some (inr e))
  | inl uid =>
      let '(w, l, res) := lookupLoop fuel src uid {| le_acquired := ∅; le_releases := [] |} w in
      (foldl (λ w key, rr_Release src key w) w (le_releases l), res)
  end.

(** Workload metadata without the policies. *)
Definition bindingIn (src : Resources) (uid : string) (view : View) (w : World)
    : SubjectWorkload * option lookupErr :=
  let none := identityOf {| wm_Uid := ""; wm_Name := ""; wm_Namespace := "";
                            wm_Extensions := [] |} ∅ None in
  let wrap b := (b.1, LookupError <$> b.2) in
  if negb (vw_Ready view) then (none, Some (LookupError "workload resources are not synchronized"))
  else match mergedGet (vw_Workloads view) uid with
       | (_, Some e) => (none, Some (LookupError e))
       | (None, None) => (none, Some (MissingResource (WorkloadKey uid)))
       | (Some r, None) =>
           wrap match qi_byUID (indexOf src w) !! uid with
                | Some p => if sameWorkload p r then (iw_binding p, iw_bindingErr p)
                            else workloadBinding (res_Value r)
                | None => workloadBinding (res_Value r)
                end
       end.

Definition lookupBinding (src : Resources) (subject : SubjectWorkload) (w : World)
    : World * (SubjectWorkload * option lookupErr) :=
  let none := identityOf {| wm_Uid := ""; wm_Name := ""; wm_Namespace := "";
                            wm_Extensions := [] |} ∅ None in
  match workloadKey src subject w with
  | inr e => (w, (none, Some e))
  | inl uid =>
      let '(w, (found, release)) := rr_AcquireWorkload src uid w in
      let finish (x : World * (SubjectWorkload * option lookupErr)) :=
        (if release then rr_Release src (WorkloadKey uid) x.1 else x.1, x.2) in
      finish match found with
             | (_, Some e) => (w, (none, Some (LookupError e)))
             | (None, None) => (w, (none, Some (MissingResource (WorkloadKey uid))))
             | (Some _, None) =>
                 let '(w, view) := rr_SnapshotFor src [WorkloadKey uid] w in
                 (w, bindingIn src uid view w)
             end
  end.

(** ** The context of a request: workload.go *)

Context (authorizerOf : Config → Authorizer).

Definition withBinding (binding : SubjectWorkload) (s : Subject) : Subject :=
  {| sj_Workload :=
       {| wl_UID := wl_UID binding; wl_Namespace := wl_Namespace binding;
          wl_Name := wl_Name binding; wl_IP := wl_IP (sj_Workload s);
          wl_Labels := wl_Labels binding;
          wl_SecurityProfileReferences := wl_SecurityProfileReferences binding |};
     sj_Sandbox := sj_Sandbox s |}.

Definition resolvedContext (binding : SubjectWorkload) (authorizer : option Authorizer)
    (c : RequestContext) : RequestContext :=
  {| rc_Caller := withBinding binding (rc_Caller c); rc_Request := rc_Request c;
     rc_RequestID := rc_RequestID c;
     rc_Policies := {| ps_DestinationAuthorizer := authorizer;
                       ps_FilterRules := ps_FilterRules (rc_Policies c);
                       ps_StreamLogger := ps_StreamLogger (rc_Policies c) |} |}.

(** [None] when the lookup does not settle. *)
Definition NewContextResolver (fuel : nat) (src : Resources) (native : bool)
    (c : RequestContext) (w : World) : World * option (RequestContext + lookupErr) :=
  let subject := sj_Workload (rc_Caller c) in
  if native then
    let '(w, found) := lookupEntry fuel src subject w in
    (w, match found with
        | None => None
        | Some (inr e) => Some (inr e)
        | Some (inl entry) =>
            match iw_bindingErr entry, iw_compiled entry with
            | Some e, _ => Some (inr (LookupError e))
            | None, Err e => Some (inr (LookupError e))
            | None, Ok config =>
                Some (inl (resolvedContext (iw_binding entry) (Some (authorizerOf config)) c))
            end
        end)
  else
    let '(w, (binding, err)) := lookupBinding src subject w in
    (w, Some match err with
             | Some e => inr e
             | None => inl (resolvedContext binding (ps_DestinationAuthorizer (rc_Policies c)) c)
             end).

(** ** What a request's context has *)

(** A source whose index was built from published snapshots, as [aggregate_inv] shows of an
    aggregate, and whose views are well formed. *)
Record source_ok (src : Resources) : Prop := {
  source_index w q : sn_Query (rr_Snapshot src w) = Some q →
    ∃ ws ps, snapshot_ok ws ∧ snapshot_ok ps ∧ q = buildIndex ws ps None;
  source_view keys w w' view : rr_SnapshotFor src keys w = (w', view) →
    Forall snapshot_ok (vw_Workloads view) ∧ Forall snapshot_ok (vw_Policies view)
}.

(** ** The aggregate as a source *)

(** [Aggregate.SnapshotFor]: the sources' batches for the keys, without publishing. *)
Definition aggregateSnapshotFor (batches : list (@Batch WorkloadMsg TrafficPolicy)) : View :=
  {| vw_Ready := forallb (su_Ready ∘ ba_Status) batches;
     vw_Workloads := omap ba_Workloads batches; vw_Policies := omap ba_Policies batches |}.

Section aggregated.
Context (equalW : WorkloadMsg → WorkloadMsg → bool) (equalP : TrafficPolicy → TrafficPolicy → bool).
Context (equalW_eq : ∀ a b, equalW a b = true → a = b).
Context (equalP_eq : ∀ a b, equalP a b = true → a = b).
Context `{IWs : ObjectIdentity (DefaultSnapshot WorkloadMsg)}.
Context `{IPs : ObjectIdentity (DefaultSnapshot TrafficPolicy)}.

(** The published view and the views of keys are those of an aggregate, whatever its sources
    did before. *)
Record aggregate_source (src : Resources) : Prop := {
  aggregate_current w : ∃ a, aggregate_reach equalW equalP a
    ∧ ag_current a = Some (rr_Snapshot src w);
  aggregate_view keys w w' view : rr_SnapshotFor src keys w = (w', view) →
    ∃ batches, Forall batch_ok batches ∧ view = aggregateSnapshotFor batches
}.

Lemma aggregate_source_ok src : aggregate_source src → source_ok src.
Proof.
  intros Hsrc. split.
  - intros w q Hq. destruct (aggregate_current _ Hsrc w) as (a & Hreach & Hcur).
    destruct (aggregate_inv equalW equalP equalW_eq equalP_eq a Hreach)
      as (v & Hv & Hbs & _ & _ & _ & _ & Hquery).
    assert (v = rr_Snapshot src w) as -> by congruence. rewrite Hquery in Hq.
    destruct (publication_ok equalW equalP equalW_eq equalP_eq (ag_registered a) _ Hbs) as [HW HP].
    unfold publication in Hq, HW, HP. simpl in *. destruct (ag_registered a); [|done].
    injection Hq as <-. by eexists _, _.
  - intros keys w w' view Hv.
    destruct (aggregate_view _ Hsrc _ _ _ _ Hv) as (batches & Hbs & ->). by apply batches_ok.
Qed.

End aggregated.

Lemma mergedGet_named {V} (sources : list (DefaultSnapshot V)) :
  Forall snapshot_ok sources → answers_named (mergedGet sources).
Proof.
  intros Hall name r e. induction Hall as [|d l Hd _ IH]; [done|]. simpl.
  destruct (snapshotGet d name) as [[x|] [e'|]] eqn:Hx; try done.
  - intros [= -> _]. by apply (snapshotGet_named d Hd _ _ _ Hx).
  - intros [= -> _]. by apply (snapshotGet_named d Hd _ _ _ Hx).
Qed.

Lemma indexOf_fresh src w uid p :
  source_ok src → qi_byUID (indexOf src w) !! uid = Some p →
  ∃ getP r, answers_named getP ∧ res_Name r = uid
    ∧ p = freshWorkload getP r (workloadBinding (res_Value r)).
Proof.
  intros Hok. unfold indexOf. destruct (sn_Query (rr_Snapshot src w)) as [q|] eqn:Hq; simpl;
    [|by rewrite lookup_empty].
  destruct (source_index _ Hok w q Hq) as (ws & ps & Hws & Hps & ->). intros Hp.
  destruct (buildIndex_fresh ws ps Hws uid p Hp) as (r & Hr & ->).
  exists (snapshotGet ps), r. split; [by apply snapshotGet_named|done].
Qed.

(** The entry of one view: its workload, and all the policies it refers to. *)
Definition captured (src : Resources) (uid : string) (entry : indexedWorkload) : Prop :=
  ∃ keys w w' view r,
    rr_SnapshotFor src keys w = (w', view) ∧ vw_Ready view = true
    ∧ mergedGet (vw_Workloads view) uid = (Some r, None) ∧ iw_err entry = None
    ∧ entry = freshWorkload (mergedGet (vw_Policies view)) r (workloadBinding (res_Value r)).

Lemma lookupRound_captured src uid l w w' l' entry :
  source_ok src → lookupRound src uid l w = (w', l', Some (inl entry)) → captured src uid entry.
Proof.
  intros Hok. unfold lookupRound. destruct (rr_ctxErr src w) as [w1 [e|]]; [done|].
  destruct (rr_AcquireWorkload src uid w1) as [w2 [[[candidate|] [e|]] release]]; try done.
  set (previous := qi_byUID (indexOf src w2) !! uid).
  destruct (dependencyNames candidate previous) as [names|e]; [|done].
  destruct (acquirePolicies _ _ _ _) as [[w3 l3] [e|]]; [done|].
  destruct (rr_ctxErr src w3) as [w4 [e|]]; [done|].
  destruct (rr_SnapshotFor src _ w4) as [w5 view] eqn:Hview. intros [= _ _ Hfin].
  unfold finishRound in Hfin. destruct (mergedGet (vw_Workloads view) uid) as [[r|] [e|]] eqn:Hr;
    try done. destruct (negb _); [done|]. destruct (acquiredErr _ _); [done|].
  injection Hfin as Hfin. unfold lookupWorkload in Hfin. rewrite Hr in Hfin.
  destruct (vw_Ready view) eqn:Hready; [|done]. simpl in Hfin.
  destruct (iw_err _) as [e|] eqn:He; [done|]. injection Hfin as Hentry.
  destruct (source_view _ Hok _ _ _ _ Hview) as [HW HP].
  exists (WorkloadKey uid :: (PolicyKey <$> names)), w4, w5, view, r.
  rewrite Hentry in He. split_and!; [done..|].
  rewrite <-Hentry. destruct previous as [p|] eqn:Hp; [|done].
  destruct (indexOf_fresh src w2 uid p Hok Hp) as (getP & r0 & HgetP & Hr0 & ->).
  apply (buildWorkload_reuse _ _ getP r r0); [by apply mergedGet_named|done|].
  by rewrite Hr0, (mergedGet_named _ HW _ _ _ Hr).
Qed.

Lemma lookupLoop_captured fuel src uid l w w' l' entry :
  source_ok src → lookupLoop fuel src uid l w = (w', l', Some (inl entry)) →
  captured src uid entry.
Proof.
  intros Hok. revert l w. induction fuel as [|fuel IH]; intros l w; [done|]. simpl.
  destruct (lookupRound src uid l w) as [[w1 l1] [res|]] eqn:Hround; [|apply IH].
  intros [= -> -> ->]. by eapply lookupRound_captured.
Qed.

(** The workload does not change between its acquisition and the view. *)
Definition settled (src : Resources) (uid : string) : Prop :=
  ∀ w1 w1' r release w2 w2' keys view,
    rr_AcquireWorkload src uid w1 = (w1', ((Some r, None), release)) →
    rr_SnapshotFor src keys w2 = (w2', view) →
    ∃ c, mergedGet (vw_Workloads view) uid = (Some c, None)
         ∧ same (res_Value c) (res_Value r) = true.

Lemma lookupRound_returns src uid l w :
  settled src uid → (lookupRound src uid l w).2 ≠ None.
Proof.
  intros Hs. unfold lookupRound. destruct (rr_ctxErr src w) as [w1 [e|]]; [done|].
  destruct (rr_AcquireWorkload src uid w1) as [w2 [[[candidate|] [e|]] release]] eqn:Hacq; try done.
  destruct (dependencyNames _ _) as [names|e]; [|done].
  destruct (acquirePolicies _ _ _ _) as [[w3 l3] [e|]]; [done|].
  destruct (rr_ctxErr src w3) as [w4 [e|]]; [done|].
  destruct (rr_SnapshotFor src _ w4) as [w5 view] eqn:Hview. simpl.
  destruct (Hs _ _ _ _ _ _ _ _ Hacq Hview) as (c & Hc & Hsame).
  unfold finishRound. rewrite Hc, Hsame. simpl. by destruct (acquiredErr _ _).
Qed.

(** A complete entry has, in order, the policies that its workload refers to. *)
Lemma fresh_named getP r binding :
  let entry := freshWorkload getP r binding in
  iw_err entry = None →
  ∃ names policies, references (res_Value r) = Ok names
    ∧ Forall2 (λ name p, getP name = (Some p, None)) names policies
    ∧ iw_named entry = namedOf <$> policies
    ∧ iw_compiled entry = Compile (namedOf <$> policies).
Proof.
  unfold freshWorkload. destruct (references (res_Value r)) as [names|e]; [|done].
  destruct (collect getP names) as [ds [e|]] eqn:Hc; [done|]. intros _.
  exists names, ds. split_and!; [done| |done..]. clear -Hc. revert ds Hc.
  induction names as [|name names IH]; intros ds; simpl; [intros [= <-]; constructor|].
  destruct (getP name) as [[p|] [e|]] eqn:Hp; try done.
  destruct (collect getP names) as [ps e]. intros [= <- ->]. constructor; [done|]. by apply IH.
Qed.

(** A view of the store, complete for its sources, has the workload with this binding, and
    these are all the policies the workload refers to, in the order of the references. *)
Definition policies_of (src : Resources) (uid : string) (binding : SubjectWorkload)
    (policies : list (Resource TrafficPolicy)) : Prop :=
  ∃ keys w w' view r names,
    rr_SnapshotFor src keys w = (w', view) ∧ vw_Ready view = true
    ∧ mergedGet (vw_Workloads view) uid = (Some r, None)
    ∧ workloadBinding (res_Value r) = (binding, None)
    ∧ references (res_Value r) = Ok names
    ∧ Forall2 (λ name p, mergedGet (vw_Policies view) name = (Some p, None)) names policies.

Lemma resolver_captured fuel src c w w' c' :
  source_ok src → NewContextResolver fuel src true c w = (w', Some (inl c')) →
  ∃ uid binding policies config,
    workloadKey src (sj_Workload (rc_Caller c)) w = inl uid
    ∧ policies_of src uid binding policies
    ∧ Compile (namedOf <$> policies) = Ok config
    ∧ c' = resolvedContext binding (Some (authorizerOf config)) c.
Proof.
  intros Hok. unfold NewContextResolver, lookupEntry.
  destruct (workloadKey src _ w) as [uid|e]; [|done].
  destruct (lookupLoop _ _ _ _ _) as [[w2 l2] [[entry|e]|]] eqn:Hloop; try done.
  apply lookupLoop_captured in Hloop as (keys & w1 & w1' & view & r & Hview & Hready & Hr & Herr & Hentry);
    [|done].
  destruct (iw_bindingErr entry) as [e|] eqn:Hb; [done|].
  destruct (iw_compiled entry) as [config|e] eqn:Hc; [|done]. intros [= _ <-].
  rewrite Hentry in Herr. destruct (fresh_named _ _ _ Herr) as (names & policies & Hrefs & Hall & _ & Hcomp).
  assert (workloadBinding (res_Value r) = (iw_binding entry, iw_bindingErr entry)) as Hbind.
  { rewrite Hentry. unfold freshWorkload. rewrite Hrefs.
    destruct (collect _ _) as [ds [|]]; apply surjective_pairing. }
  rewrite Hb in Hbind. rewrite <-Hentry, Hc in Hcomp.
  exists uid, (iw_binding entry), policies, config. split_and!; [done| |done..].
  by exists keys, w1, w1', view, r, names.
Qed.

(** C16: the policies in the context of a request are those of one published state. When
    the context of a request is resolved, there is a view of the store, complete for its
    sources, that has the caller's workload and every policy the workload refers to, in the
    order of the references; the request's destination authorizer is the compilation of
    exactly these, and its identity, labels and profiles are those of that workload. What an
    index kept from earlier states is used only where it makes no difference. The lookup
    returns in its first round if the workload does not change meanwhile. *)
Theorem resolved_policies src c w :
  source_ok src →
  (∀ fuel w' c', NewContextResolver fuel src true c w = (w', Some (inl c')) →
     ∃ uid binding policies config,
       workloadKey src (sj_Workload (rc_Caller c)) w = inl uid
       ∧ policies_of src uid binding policies
       ∧ Compile (namedOf <$> policies) = Ok config
       ∧ c' = resolvedContext binding (Some (authorizerOf config)) c)
  ∧ (∀ fuel uid, workloadKey src (sj_Workload (rc_Caller c)) w = inl uid → settled src uid →
       (NewContextResolver (S fuel) src true c w).2 ≠ None).
Proof.
  intros Hok. split; [intros fuel w' c'; by apply resolver_captured|].
  intros fuel uid Hkey Hs. unfold NewContextResolver, lookupEntry. rewrite Hkey. simpl.
  pose proof (lookupRound_returns src uid {| le_acquired := ∅; le_releases := [] |} w Hs) as Hret.
  destruct (lookupRound _ _ _ _) as [[w1 l1] [[entry|e]|]]; [|done..]. simpl.
  destruct (iw_bindingErr entry); [done|]. by destruct (iw_compiled entry).
Qed.

(** The resolver as the server calls it. A lookup goes on until its context ends. *)
Definition contextResolver (fuel : nat) (src : Resources) (c : RequestContext) (w : World)
    : World * result RequestContext :=
  match NewContextResolver fuel src true c w with
  | (w, Some (inl c)) => (w, Ok c)
  | (w, Some (inr (LookupError e))) => (w, Err e)
  | (w, Some (inr (MissingResource (WorkloadKey _)))) => (w, Err "Workload unavailable")
  | (w, Some (inr (MissingResource (PolicyKey _)))) => (w, Err "TrafficPolicy unavailable")
  | (w, None) => (w, Err "context deadline exceeded")
  end.

Lemma contextResolver_captured fuel src c w w' c' :
  source_ok src → contextResolver fuel src c w = (w', Ok c') →
  ∃ uid binding policies config,
    workloadKey src (sj_Workload (rc_Caller c)) w = inl uid
    ∧ policies_of src uid binding policies
    ∧ Compile (namedOf <$> policies) = Ok config
    ∧ c' = resolvedContext binding (Some (authorizerOf config)) c.
Proof.
  intros Hok. unfold contextResolver.
  destruct (NewContextResolver _ _ _ _ _) as [w1 [[c1|[[uid|name]|e]]|]] eqn:Hres; try done.
  intros [= _ <-]. by apply resolver_captured in Hres.
Qed.

End workloads.

(** ** From the published policies to the proxy *)

Section enforcement.
Context `{CF : CaseFolding} `{AT : AddressText} `{RT : RequestText}.
Context `{D : Deployment} `{FL : !Filters} `{EC : ExtensionCodec}.
Context `{IWm : ObjectIdentity WorkloadMsg} `{IPm : ObjectIdentity TrafficPolicy}.
Context (clusterID : string).
Context (authorizerOf : Config → Authorizer) (configOf : Authorizer → Config).
Context (configOf_authorizerOf : ∀ config, configOf (authorizerOf config) = config).
Context (equalW : WorkloadMsg → WorkloadMsg → bool) (equalP : TrafficPolicy → TrafficPolicy → bool).
Context (equalW_eq : ∀ a b, equalW a b = true → a = b).
Context (equalP_eq : ∀ a b, equalP a b = true → a = b).
Context `{IWs : ObjectIdentity (DefaultSnapshot WorkloadMsg)}.
Context `{IPs : ObjectIdentity (DefaultSnapshot TrafficPolicy)}.

(** C8: the published traffic policies are enforced. Take a server that resolves contexts
    from an aggregate of resource sources, and whose authorizer is the aggregate of the global
    configuration and of the policies in the context. Every response of a call that lets a
    request through tells the proxy an address such that: the global configuration allows it;
    the call received the request of an identified workload; one view of the store, complete
    for its sources, has that workload and all the policies it refers to; and these
    policies, compiled, allow the address. *)
Theorem published_policies_enforced fuel src s a current turns w :
  aggregate_source equalW equalP src →
  sv_resolveContext s = Some (contextResolver clusterID authorizerOf fuel src) →
  sv_authorizeRequest s = Some (Aggregate_Authorize a) →
  ag_authorizers a = [StaticAuthorizer_Authorize current;
                      authorizer_Authorize (λ x, Config_Authorize (configOf x))] →
  Forall (λ resp, lets_through resp = true →
    ∃ addr w caller req w' uid binding policies config,
      pinned addr resp
      ∧ dc_Action (Evaluate (current w) addr) = Allow
      ∧ askedIn turns caller req
      ∧ workloadKey clusterID src (sj_Workload caller) w' = inl uid
      ∧ policies_of src uid binding policies
      ∧ Compile (namedOf <$> policies) = Ok config
      ∧ dc_Action (Evaluate config addr) = Allow)
    (ca_sent (Process s turns w).1).
Proof.
  intros Hok%aggregate_source_ok Hr Hs Ha; [|done..].
  eapply Forall_impl; [exact (egress_enforced s a current configOf turns w Hs Ha)|].
  intros resp Hresp Hl. destruct (Hresp Hl) as (addr & c & w1 & x & Hpin & Hg & Hcx & Hid & Hx & Hal).
  destruct Hcx as (c0 & Hasked & Hcx). rewrite Hr in Hcx.
  exists addr, w1, (rc_Caller c0), (rc_Request c0).
  destruct (Workload_HasIdentity (sj_Workload (rc_Caller c0))) eqn:Hid0.
  - destruct Hcx as (w2 & w3 & c1 & Hres & _ & _ & Hda).
    apply contextResolver_captured in Hres as (uid & binding & policies & config & Hkey & Hpol & Hcomp & ->);
      [|done].
    exists w2, uid, binding, policies, config. rewrite Hda in Hx. injection Hx as <-.
    rewrite configOf_authorizerOf in Hal. done.
  - destruct Hcx as (Hcaller & _). congruence.
Qed.

End enforcement.
