(* ===== verification/PolicyExamples.v ===== *)
(** * Runs of the policy engine

    A small deployment, with filters that answer from a script, on which the theorems on
    the policy engine, the external processor, the egress authorization and the published
    policies of workloads apply; and a run that logs a stream twice. *)

From S2P Require Import Prelude Netip Filter Attributes Fold Engine EngineWalks EngineInvariant EngineTheorems ExtProc ExtProcServer ExtProcInvariant ExtProcAudit ExtProcAuthorization EngineStore Egress EgressTheorems WorkloadPolicies.

(** ** The deployment *)

(** What a filter answers, the phases it subscribes to and its failure policy. *)
Record Script := {
  sp_RequestHeaders : result Action;
  sp_RequestBody : result Action;
  sp_ResponseHeaders : result Action;
  sp_ResponseBody : result Action;
  sp_Subscribes : N;
  sp_OnError : FailurePolicy
}.

Definition quietScript : Script :=
  {| sp_RequestHeaders := Ok (Continue []); sp_RequestBody := Ok (Continue []);
     sp_ResponseHeaders := Ok (Continue []); sp_ResponseBody := Ok (Continue []);
     sp_Subscribes := 0; sp_OnError := FailClosed |}.

Definition onRequest (act : result Action) : Script :=
  {| sp_RequestHeaders := act; sp_RequestBody := Ok (Continue []);
     sp_ResponseHeaders := Ok (Continue []); sp_ResponseBody := Ok (Continue []);
     sp_Subscribes := 0; sp_OnError := FailClosed |}.

#[local] Instance exampleDeployment : Deployment :=
  {| Cfg := Script; Scope := unit; FilterInstance := Script; Logger := string;
     Authorizer := Config; World := unit |}.

#[local] Instance exampleFilters : @Filters exampleDeployment :=
  {| OnRequestHeaders f _ w := (f, w, sp_RequestHeaders f);
     OnRequestBody f _ _ w := (f, w, sp_RequestBody f);
     OnResponseHeaders f _ w := (f, w, sp_ResponseHeaders f);
     OnResponseBody f _ _ w := (f, w, sp_ResponseBody f) |}.

#[local] Instance exampleFolding : CaseFolding := asciiFolding.

Definition loopback : Addr := Addr4 2130706433.
Definition web : Addr := Addr4 167772161.

#[local] Instance exampleText : AddressText :=
  {| AddrPort_String a := if decide (ap_Addr a = web) then "10.0.0.1" else "other";
     Addr_String a := if decide (a = web) then "10.0.0.1" else "other";
     ParseAddr s := if decide (s = "10.0.0.1") then Some web else None;
     ParseAddrPort _ := None |}.

#[local] Instance exampleRequestText : RequestText :=
  {| ParseQuery _ := ∅; DecodeBase64 _ := None |}.

Definition scriptRegistration : Registration :=
  {| reg_Name := "script"; reg_Phases := DispatchedPhases;
     reg_OnError := Some sp_OnError;
     reg_Parse _ := Err "no configuration"; reg_New r := ec_Cfg r;
     reg_Subscribes := Some sp_Subscribes |}.

Definition exampleEngine : Engine := {| eng_regs := [scriptRegistration] |}.

Definition scriptUnit (n : Z) (s : Script) : Unit :=
  {| un_ID := {| uid_Scope := "default"; uid_Name := "rule"; uid_Ordinal := n |};
     un_Scope := (); un_Cfgs := [Some s] |}.

(** ** The engine *)

Definition exampleStream : Stream := ss_stream newStreamState.
Definition exampleRun : Run := {| run_world := (); run_info := Some NewStreamInfo |}.

Definition bypassUnits : list Unit :=
  [scriptUnit 0 (onRequest (Ok (Continue [SetHeader "x-team" "a"])));
   scriptUnit 1 (onRequest (Ok Bypass));
   scriptUnit 2 (onRequest (Ok (Stop (replyOf 403 "never"))))].

Definition bypassResult : RequestHeadersResult :=
  (EvalRequestHeaders exampleEngine exampleStream bypassUnits None exampleRun).1.1.

Lemma bypass_skips_the_rest_witness :
  rh_Disposition bypassResult = DispositionBypassed
  ∧ (EvalRequestHeaders exampleEngine exampleStream
       (truncate (sc_last (rh_ResponseScope bypassResult)) bypassUnits) None exampleRun).1.2 = None.
Proof.
  split; [reflexivity|].
  set (out := EvalRequestHeaders exampleEngine exampleStream bypassUnits None exampleRun).
  assert (out = (out.1.1, None, out.2)) as H by reflexivity.
  destruct (bypass_skips_the_rest exampleEngine exampleStream bypassUnits exampleRun _ _ H
    eq_refl) as [He _].
  change (out.1.1) with bypassResult in He. by rewrite He.
Defined.

Definition failingUnits : list Unit :=
  [scriptUnit 0 (onRequest (Ok (Continue [SetHeader "x-team" "a"])));
   scriptUnit 1 (onRequest (Err "no credential"))].

Definition failingPair : pair :=
  {| p_at := {| cur_unit := 1; cur_regIdx := 0 |}; p_reg := scriptRegistration;
     p_unit := scriptUnit 1 (onRequest (Err "no credential"));
     p_cfg := onRequest (Err "no credential") |}.

(** The walk up to the second filter, and the view that filter gets. *)
Definition beforeFailure : requestWalk * option string * Run :=
  loop (requestStep exampleStream)
    (take 1 (pairs exampleEngine failingUnits startCursor PhaseRequestHeaders))
    (newRequestWalk unboundedScope []) exampleRun.

Definition failureView : result (Stream * requestWalk) :=
  streamView exampleStream beforeFailure.1.1.

Lemma failure_is_resolved_witness :
  ∃ res r', EvalRequestHeaders exampleEngine exampleStream failingUnits None exampleRun
            = (res, None, r')
    ∧ rh_Disposition res = DispositionBlocked ∧ rh_HeaderOps res = [].
Proof.
  destruct failureView as [[view rw1]|] eqn:Hv; [|discriminate Hv].
  destruct (failure_is_resolved exampleEngine exampleStream failingUnits exampleRun failingPair []
    beforeFailure.1.1 beforeFailure.2 view rw1 (onRequest (Err "no credential")) () "no credential")
    as (res & He & Hd & _ & Ho & _).
  - reflexivity.
  - exists (take 1 (pairs exampleEngine failingUnits startCursor PhaseRequestHeaders)).
    split; reflexivity.
  - exact Hv.
  - by injection Hv as <- <-.
  - reflexivity.
  - eauto 10.
Defined.

(** ** Streams *)

Definition header (k v : string) : HeaderValue :=
  {| hd_Key := k; hd_Value := ""; hd_RawValue := v |}.

Definition exampleHeaders : HttpHeaders :=
  {| hh_Headers := Some [header ":method" "GET"; header ":authority" "10.0.0.1:22";
                         header ":path" "/v1"; header ":scheme" "http"];
     hh_EndOfStream := false |}.

(** An identified caller, and the port the proxy observed. *)
Definition exampleAttrs : Attrs :=
  {[ExtProcAttrsKey := {["filter_state['agentio.workload.uid']" := StringValue "w1";
                         "destination.port" := NumberValue 80]}]}.

Lemma observed_port_wins_witness :
  (0 < extractAttributeInt exampleAttrs "destination.port" <= 65535)%Z
  ∧ rq_Port (Extract (Some exampleHeaders) exampleAttrs).2 = 80%Z.
Proof.
  split; [vm_compute; split; [reflexivity|discriminate]|].
  rewrite (observed_port_wins (Some exampleHeaders) exampleAttrs);
    [reflexivity|vm_compute; split; [reflexivity|discriminate]|reflexivity].
Defined.

Definition exampleServer (units : list Unit) (auth : option RequestAuthorizer)
    (context : option ContextResolver) : Server :=
  {| sv_resolve _ _ w := (w, ({| re_Units := units; re_StreamLogger := Some "profile" |}, None));
     sv_resolveContext := context; sv_authorizeRequest := auth; sv_eng := exampleEngine;
     sv_loggers := ["access"]; sv_failClosedOnMissingIdentity := true;
     sv_ctxErr _ := None; sv_marshal code message id := code |}.

Definition receive (m : ProcessingRequest) : Turn :=
  {| tn_done := None; tn_recv := RecvMessage m; tn_send _ := None; tn_ctxErr := None |}.

Definition endOfCall : Turn :=
  {| tn_done := None; tn_recv := RecvEOF; tn_send _ := None; tn_ctxErr := None |}.

Definition okHeaders : HttpHeaders :=
  {| hh_Headers := Some [header ":status" "200"]; hh_EndOfStream := false |}.

(** A filter that waits for the body and then blocks, and observes responses. *)
Definition bodyScript : Script :=
  {| sp_RequestHeaders := Ok (NeedBody []);
     sp_RequestBody := Ok (Stop (replyOf 403 "denied"));
     sp_ResponseHeaders := Ok (Continue []); sp_ResponseBody := Ok (Continue []);
     sp_Subscribes := PhaseResponseHeaders; sp_OnError := FailClosed |}.

Definition blockServer : Server := exampleServer [scriptUnit 0 bodyScript] None None.

Definition blockTurns : list Turn :=
  [receive (ReqRequestHeaders exampleHeaders exampleAttrs);
   receive (ReqRequestBody {| hb_Body := "x"; hb_EndOfStream := true |});
   receive (ReqResponseHeaders okHeaders); endOfCall].

Lemma stream_logged_once_witness :
  conforming blockServer blockTurns (newCall ()) = true
  ∧ (fst ∘ fst <$> ca_logged (Process blockServer blockTurns ()).1) = ["access"; "profile"].
Proof.
  split; [vm_compute; reflexivity|].
  destruct (Process blockServer blockTurns ()) as [c [ret|]] eqn:Hp.
  - destruct (stream_logged_once blockServer blockTurns () c ret) as [[Hi _]|[_ Hl]];
      [vm_compute; reflexivity|exact Hp| |].
    + assert (ss_lifecycle (ca_state (Process blockServer blockTurns ()).1) = lifecycleFinalized) as H
        by (vm_compute; reflexivity). rewrite Hp in H. simpl in H. by rewrite H in Hi.
    + simpl. rewrite Hl.
      assert (ps_StreamLogger (rc_Policies (st_Context (ss_stream
        (ca_state (Process blockServer blockTurns ()).1)))) = Some "profile") as H
        by (vm_compute; reflexivity). rewrite Hp in H. simpl in H. by rewrite H.
  - assert ((Process blockServer blockTurns ()).2 = Some None) as H by (vm_compute; reflexivity).
    by rewrite Hp in H.
Defined.

Lemma audit_outcome_true_witness :
  Exists isImmediate (ca_sent (Process blockServer blockTurns ()).1)
  ∧ ∀ l st info, (l, st, info) ∈ ca_logged (Process blockServer blockTurns ()).1 →
    si_Outcome info = DispositionError ∨ si_Outcome info = DispositionBlocked.
Proof.
  assert (existsb isImmediate (ca_sent (Process blockServer blockTurns ()).1) = true) as Hb
    by (vm_compute; reflexivity).
  apply existsb_exists in Hb as (resp & Hin & Hi).
  assert (Exists isImmediate (ca_sent (Process blockServer blockTurns ()).1)) as Hex.
  { apply Exists_exists. exists resp. split; [by apply list_elem_of_In|]. by rewrite Hi. }
  split; [done|]. intros l st info Hl.
  destruct (Process blockServer blockTurns ()) as [c [ret|]] eqn:Hp.
  - destruct (audit_outcome_true blockServer blockTurns () c ret l st info) as [?|[Hiff _]];
      [vm_compute; reflexivity|exact Hp|exact Hl|by left|right; by apply Hiff].
  - assert ((Process blockServer blockTurns ()).2 = Some None) as H by (vm_compute; reflexivity).
    by rewrite Hp in H.
Defined.

(** The response arrives while the request body is still owed. *)
Definition earlyResponse : Turn := receive (ReqResponseHeaders okHeaders).
Definition lateBody : Turn := receive (ReqRequestBody {| hb_Body := "x"; hb_EndOfStream := true |}).

Definition owingTurns : list Turn := [receive (ReqRequestHeaders exampleHeaders exampleAttrs)].
Definition owingCall : Call := (Process blockServer owingTurns ()).1.
Definition answeredCall : Call := (turn blockServer earlyResponse owingCall).1.

Definition lateRun (prior : RequestHeadersResult) : RequestBodyResult * option string * Run :=
  EvalRequestBody (sv_eng blockServer) (ss_stream (ca_state answeredCall)) (Some prior)
    {| bd_Bytes := "x"; bd_Complete := true |} (runOf (ca_state answeredCall) (ca_world answeredCall)).

(** Every logger gets an entry for the bypass that was answered, and one for the block. *)
Lemma early_response_logs_twice_witness :
  ∃ c2, Process blockServer (owingTurns ++ [earlyResponse; lateBody]) () = (c2, None)
    ∧ ca_logged c2 = entries blockServer (ca_state answeredCall) ++ entries blockServer (ca_state c2)
    ∧ si_Outcome (ss_info (ca_state answeredCall)) = DispositionBypassed
    ∧ si_Outcome (ss_info (ca_state c2)) = DispositionBlocked.
Proof.
  destruct (outstandingRequest (ca_state owingCall)) as [prior|] eqn:Hprior;
    [|vm_compute in Hprior; discriminate].
  assert ((lateRun prior).1.2 = None ∧ rb_Disposition (lateRun prior).1.1 = DispositionBlocked)
    as [He Hd].
  { vm_compute in Hprior. injection Hprior as <-. vm_compute. split; reflexivity. }
  destruct (lateRun prior) as [[res err] r] eqn:Hrun. simpl in He, Hd. subst err.
  destruct (early_response_logs_twice blockServer owingTurns earlyResponse lateBody () owingCall
    answeredCall prior [header ":status" "200"] false {| hb_Body := "x"; hb_EndOfStream := true |}
    res r) as (c2 & Hp & _ & Hlog & Hout).
  - vm_compute. reflexivity.
  - exact Hprior.
  - vm_compute. discriminate.
  - reflexivity.
  - vm_compute. reflexivity.
  - vm_compute. reflexivity.
  - reflexivity.
  - reflexivity.
  - reflexivity.
  - exact Hrun.
  - left. exact Hd.
  - exists c2. split; [exact Hp|]. split; [|split; [vm_compute; reflexivity|exact (Hout Hd)]].
    assert (ca_logged owingCall = []) as Hnil by (vm_compute; reflexivity).
    rewrite Hnil, app_nil_l in Hlog. exact Hlog.
Defined.

(** ** Egress *)

Definition address (a b c d : Byte.byte) (len : Z) : option TPAddress :=
  Some {| ta_Address := [a; b; c; d]; ta_Length := len |}.

Definition tcp (port : Z) : option TPPortMatch :=
  Some {| tm_Protocol := TrafficPolicy_TCP; tm_Port := Some port; tm_EndPort := None |}.

Definition tcpRule (action : Z) (addr : option TPAddress) (ports : list (option TPPortMatch))
    : option TPRule :=
  Some {| tr_Action := action;
          tr_Match := Some {| mt_SourceIps := []; mt_DestinationIps := [addr];
                              mt_Ports := ports |} |}.

(** 10.0.0.2 is denied, and port 80 of 10.0.0.0/8 is allowed. *)
Definition webPolicy : TrafficPolicy :=
  {| tp_Ingress := None;
     tp_Egress := Some
       [tcpRule TrafficPolicy_DENY (address Byte.x0a Byte.x00 Byte.x00 Byte.x02 32) [];
        tcpRule TrafficPolicy_ALLOW (address Byte.x0a Byte.x00 Byte.x00 Byte.x00 8) [tcp 80]] |}.

Definition webPolicies : list NamedPolicy :=
  [{| np_Name := "web"; np_Policy := Some webPolicy |}].

Definition webConfig : Config :=
  match Compile webPolicies with
  | Ok c => c
  | Err _ => {| cf_DeniedCIDRs := []; cf_Policies := [] |}
  end.

Definition webPort : AddrPort := {| ap_Addr := web; ap_Port := 80 |}.

Lemma compiled_policy_decides_witness :
  Compile webPolicies = Ok webConfig
  ∧ Evaluate webConfig webPort
    = {| dc_Action := Allow; dc_PolicyName := "web"; dc_RuleIndex := 1 |}.
Proof.
  split; [vm_compute; reflexivity|].
  rewrite (compiled_policy_decides webPolicies webConfig webPort).
  - vm_compute. reflexivity.
  - vm_compute. reflexivity.
  - vm_compute. split; [reflexivity|]. split; [discriminate|reflexivity].
  - vm_compute. split; [discriminate|reflexivity].
  - vm_compute. split; discriminate.
Defined.

Definition configOf (x : @Authorizer exampleDeployment) : Config := x.

(** Loopback addresses are denied everywhere. *)
Definition globalConfig : Config :=
  {| cf_DeniedCIDRs := [{| pfx_Addr := Addr4 2130706432; pfx_Bits := 8 |}]; cf_Policies := [] |}.

Definition webAggregate : Aggregate :=
  {| ag_Resolve := Some (λ _ w, (w, Ok [loopback; web]));
     ag_ctxErr _ := None;
     ag_IntN _ w := (w, 1%Z);
     ag_authorizers := [StaticAuthorizer_Authorize (λ _, globalConfig);
                        authorizer_Authorize (λ x, Config_Authorize (configOf x))] |}.

Definition webStream : Stream :=
  let c := st_Context exampleStream in
  {| st_Context :=
       {| rc_Caller := (Extract (Some exampleHeaders) exampleAttrs).1;
          rc_Request := (Extract (Some exampleHeaders) exampleAttrs).2;
          rc_RequestID := "";
          rc_Policies := {| ps_DestinationAuthorizer := Some webConfig; ps_FilterRules := [];
                            ps_StreamLogger := None |} |};
     st_Upstream := None; st_Response := st_Response exampleStream |}.

Lemma aggregate_pins_permitted_witness :
  ∃ addr, (Aggregate_Authorize webAggregate webStream NewStreamInfo ()).2.1.1
          = Some {| up_Address := Some addr |}
    ∧ dc_Action (Evaluate globalConfig addr) = Allow.
Proof.
  destruct (aggregate_pins_permitted webAggregate
    [(λ _ _ a, dc_Action (Evaluate globalConfig a) = Allow);
     (λ st _ a, Workload_HasIdentity (sj_Workload (rc_Caller (st_Context st))) = true
       ∧ ∃ x, ps_DestinationAuthorizer (rc_Policies (st_Context st)) = Some x
              ∧ dc_Action (Evaluate (configOf x) a) = Allow)]
    webStream NewStreamInfo () ()
    (Aggregate_Authorize webAggregate webStream NewStreamInfo ()).1.2
    (Aggregate_Authorize webAggregate webStream NewStreamInfo ()).2.1.1)
    as (addr & Ht & _ & HPs & _).
  - constructor; [apply (Static_restricts (λ _, globalConfig))|].
    constructor; [apply (policies_restrict configOf)|constructor].
  - vm_compute. reflexivity.
  - exists addr. split; [exact Ht|]. inversion HPs as [|P Ps [w Hg] _]. exact Hg.
Defined.

(** The context resolver binds the compiled policies of the workload. *)
Definition webContext : ContextResolver := λ c w,
  (w, Ok (with_policies {| ps_DestinationAuthorizer := Some webConfig; ps_FilterRules := [];
                           ps_StreamLogger := None |} c)).

Definition webServer : Server :=
  exampleServer [scriptUnit 0 (onRequest (Ok (Continue [SetHeader "x-team" "a"])))]
    (Some (Aggregate_Authorize webAggregate)) (Some webContext).

Definition webTurns : list Turn :=
  [receive (ReqRequestHeaders exampleHeaders exampleAttrs); endOfCall].

Lemma sent_requests_approved_witness :
  existsb lets_through (ca_sent (Process webServer webTurns ()).1) = true
  ∧ Forall (response_approved webServer (Aggregate_Authorize webAggregate) (askedIn webTurns))
      (ca_sent (Process webServer webTurns ()).1).
Proof.
  split; [vm_compute; reflexivity|].
  apply (sent_requests_approved webServer (Aggregate_Authorize webAggregate)). reflexivity.
Defined.

Lemma egress_enforced_witness :
  ∃ resp addr, resp ∈ ca_sent (Process webServer webTurns ()).1
    ∧ lets_through resp = true ∧ pinned addr resp
    ∧ dc_Action (Evaluate globalConfig addr) = Allow.
Proof.
  pose proof (egress_enforced webServer webAggregate (λ _, globalConfig) configOf webTurns ()
    eq_refl eq_refl) as HF.
  assert (existsb lets_through (ca_sent (Process webServer webTurns ()).1) = true) as Hb
    by (vm_compute; reflexivity).
  apply existsb_exists in Hb as (resp & Hin%list_elem_of_In & Hl).
  rewrite Forall_forall in HF. destruct (HF resp Hin Hl) as (addr & st & w & x & Hp & Hg & _).
  exists resp, addr. done.
Defined.

(** ** Workloads and their published policies *)

#[local] Instance PolicyReference_eq_dec : EqDecision PolicyReference.
Proof. solve_decision. Defined.

(** An extension packs a reference. *)
#[local] Instance exampleCodec : ExtensionCodec :=
  {| Any := PolicyReference; unmarshalReference := Ok; unmarshalMetadata _ := Err "not metadata" |}.

#[local] Instance byte_eq_dec : EqDecision Byte.byte := Byte.byte_eq_dec.
#[local] Instance TPAddress_eq_dec : EqDecision TPAddress.
Proof. solve_decision. Defined.
#[local] Instance TPPortMatch_eq_dec : EqDecision TPPortMatch.
Proof. solve_decision. Defined.
#[local] Instance TPMatch_eq_dec : EqDecision TPMatch.
Proof. solve_decision. Defined.
#[local] Instance TPRule_eq_dec : EqDecision TPRule.
Proof. solve_decision. Defined.
#[local] Instance TrafficPolicy_eq_dec : EqDecision TrafficPolicy.
Proof. solve_decision. Defined.
#[local] Instance Extension_eq_dec : EqDecision Extension.
Proof. solve_decision. Defined.
#[local] Instance WorkloadMsg_eq_dec : EqDecision WorkloadMsg.
Proof. solve_decision. Defined.
#[local] Instance Resource_eq_dec {V} `{EqDecision V} : EqDecision (Resource V).
Proof. solve_decision. Defined.
#[local] Instance DefaultSnapshot_eq_dec {V} `{EqDecision V} : EqDecision (DefaultSnapshot V).
Proof. solve_decision. Defined.

(** Objects that are equal are one object. *)
#[local] Instance sharedIdentity {A} `{EqDecision A} : ObjectIdentity A :=
  {| same a b := bool_decide (a = b); same_eq a b := proj1 (bool_decide_eq_true (a = b)) |}.

Definition workloadOf (uid ns name policy : string) : Resource WorkloadMsg :=
  {| res_Name := uid;
     res_Value :=
       {| wm_Uid := uid; wm_Name := name; wm_Namespace := ns;
          wm_Extensions :=
            [{| ex_Name := "traffic-policy-reference";
                ex_Config := Some {| pf_TypeUrl := trafficPolicyType; pf_Resources := [policy] |} |};
             {| ex_Name := "security-profile-reference";
                ex_Config := Some {| pf_TypeUrl := securityProfileType;
                                     pf_Resources := ["default"] |} |}] |} |}.

Definition demoWorkloads : DefaultSnapshot WorkloadMsg :=
  fullSnapshot [workloadOf "c//Pod/ns/a" "ns" "a" "open"; workloadOf "w1" "ns" "b" "web"] None.

Definition demoPolicies : DefaultSnapshot TrafficPolicy :=
  fullSnapshot [{| res_Name := "open"; res_Value := {| tp_Ingress := None; tp_Egress := None |} |};
              {| res_Name := "web"; res_Value := webPolicy |}] None.

Definition demoView : View :=
  {| vw_Ready := true; vw_Workloads := [demoWorkloads]; vw_Policies := [demoPolicies] |}.

Definition demoSource : Resources :=
  {| rr_Snapshot _ := {| sn_Ready := true; sn_Workloads := demoWorkloads;
                         sn_Policies := demoPolicies;
                         sn_Query := Some (buildIndex demoWorkloads demoPolicies None) |};
     rr_SnapshotFor _ w := (w, demoView);
     rr_AcquireWorkload uid w := (w, (snapshotGet demoWorkloads uid, true));
     rr_AcquirePolicy name w := (w, (snapshotGet demoPolicies name, true));
     rr_Release _ w := w; rr_ctxErr w := (w, None) |}.

Lemma demoWorkloads_ok : snapshot_ok demoWorkloads.
Proof. apply fullSnapshot_ok. Qed.

Lemma demoPolicies_ok : snapshot_ok demoPolicies.
Proof. apply fullSnapshot_ok. Qed.

Definition authorizerOf (c : Config) : @Authorizer exampleDeployment := c.

(** A caller that is only known by its pod. *)
Definition demoContext : RequestContext :=
  {| rc_Caller := {| sj_Workload := {| wl_UID := ""; wl_Namespace := "ns"; wl_Name := "a";
                                       wl_IP := "10.0.0.1"; wl_Labels := ∅;
                                       wl_SecurityProfileReferences := None |};
                     sj_Sandbox := None |};
     rc_Request := emptyRequest; rc_RequestID := "";
     rc_Policies := {| ps_DestinationAuthorizer := None; ps_FilterRules := [];
                       ps_StreamLogger := None |} |}.

Lemma demoSource_ok : source_ok demoSource.
Proof.
  split.
  - intros w q Hq. exists demoWorkloads, demoPolicies.
    split; [apply demoWorkloads_ok|]. split; [apply demoPolicies_ok|].
    symmetry. exact (Some_inj _ _ Hq).
  - intros keys w w' view Hv. pose proof (f_equal snd Hv : demoView = view) as <-.
    split; apply Forall_singleton; [apply demoWorkloads_ok|apply demoPolicies_ok].
Qed.

Lemma demoSource_settled : settled demoSource "c//Pod/ns/a".
Proof.
  intros w1 w1' r release w2 w2' keys view Hacq Hv.
  pose proof (f_equal snd Hv : demoView = view) as <-.
  pose proof (f_equal (λ x, x.2.1) Hacq : snapshotGet demoWorkloads "c//Pod/ns/a" = (Some r, None)) as Hr.
  exists r. split; [|by apply bool_decide_eq_true].
  cbn [demoView vw_Workloads mergedGet]. by rewrite Hr.
Qed.

Lemma resolved_policies_witness :
  source_ok demoSource
  ∧ (NewContextResolver "c" authorizerOf 1 demoSource true demoContext ()).2 ≠ None
  ∧ (match (NewContextResolver "c" authorizerOf 1 demoSource true demoContext ()).2 with
     | Some (inl c) => ps_DestinationAuthorizer (rc_Policies c)
     | _ => None
     end) = Some {| cf_DeniedCIDRs := []; cf_Policies := [{| po_Name := "open"; po_Rules := [] |}] |}.
Proof.
  split; [exact demoSource_ok|]. split; [|vm_compute; reflexivity].
  apply (proj2 (resolved_policies "c" authorizerOf demoSource demoContext () demoSource_ok) 0 "c//Pod/ns/a");
    [vm_compute; reflexivity|exact demoSource_settled].
Defined.

(** A source that publishes its policies after its workloads. *)
Definition demoBatch (changed : N) (policies : option (DefaultSnapshot TrafficPolicy))
    : @Batch WorkloadMsg TrafficPolicy :=
  {| ba_Status := {| su_Ready := true; su_Changed := changed |};
     ba_Workloads := Some demoWorkloads; ba_Policies := policies |}.

Definition demoSources (changed : N) (policies : option (DefaultSnapshot TrafficPolicy)) :=
  [({| su_Ready := true; su_Changed := changed |}, demoBatch changed policies)].

Definition equalDemo {A} `{EqDecision A} (a b : A) : bool := bool_decide (a = b).

Lemma equalDemo_eq {A} `{EqDecision A} (a b : A) : equalDemo a b = true → a = b.
Proof. apply bool_decide_eq_true. Qed.

Lemma demoSources_ok changed policies :
  (∀ d, policies = Some d → snapshot_ok d) → Forall (λ s, batch_ok s.2) (demoSources changed policies).
Proof.
  intros Hp. constructor; [|constructor]. split; [|done]. intros d Hd.
  rewrite <-(Some_inj _ _ Hd). apply demoWorkloads_ok.
Qed.

Definition demoAggregate : @EngineStore.Aggregate WorkloadMsg TrafficPolicy queryIndex :=
  RegisterQueries equalDemo equalDemo (demoSources 1 None)
    (NewAggregate equalDemo equalDemo (demoSources 1 None)).

Lemma aggregate_publishes_witness :
  ag_current (Refresh equalDemo equalDemo (demoSources 2 (Some demoPolicies)) demoAggregate)
  = Some (publication equalDemo equalDemo true [demoBatch 2 (Some demoPolicies)]).
Proof.
  apply (aggregate_publishes equalDemo equalDemo
           equalDemo_eq equalDemo_eq (demoSources 2 (Some demoPolicies)) demoAggregate).
  - apply reach_register; [apply reach_new|]; by apply demoSources_ok.
  - apply demoSources_ok. intros d Hd. rewrite <-(Some_inj _ _ Hd). apply demoPolicies_ok.
  - intros [|i] b status batch Hb Hs He; [|by destruct i].
    pose proof (f_equal (option_map ba_Status) Hb) as H1.
    pose proof (f_equal (option_map fst) Hs) as H2. simpl in H1, H2. rewrite He in H1.
    vm_compute in H1. vm_compute in H2. congruence.
Defined.

(** The server of [webServer], with the policies that the store publishes. *)
Definition publishedServer : Server :=
  exampleServer [scriptUnit 0 (onRequest (Ok (Continue [SetHeader "x-team" "a"])))]
    (Some (Aggregate_Authorize webAggregate))
    (Some (contextResolver "c" authorizerOf 1 demoSource)).

Definition demoFinal : @EngineStore.Aggregate WorkloadMsg TrafficPolicy queryIndex :=
  Refresh equalDemo equalDemo (demoSources 2 (Some demoPolicies)) demoAggregate.

Lemma demoSource_aggregate : aggregate_source equalDemo equalDemo demoSource.
Proof.
  split.
  - intros w. exists demoFinal. split; [|vm_compute; reflexivity].
    apply reach_refresh; [apply reach_register; [apply reach_new|]|]; apply demoSources_ok; [done..|].
    intros d Hd. rewrite <-(Some_inj _ _ Hd). apply demoPolicies_ok.
  - intros keys w w' view Hv. pose proof (f_equal snd Hv : demoView = view) as <-.
    exists [demoBatch 2 (Some demoPolicies)]. split; [|reflexivity].
    apply Forall_singleton. refine (Forall_inv (demoSources_ok 2 (Some demoPolicies) _)).
    intros d Hd. rewrite <-(Some_inj _ _ Hd). apply demoPolicies_ok.
Qed.

Lemma published_policies_enforced_witness :
  ∃ resp addr, resp ∈ ca_sent (Process publishedServer webTurns ()).1
    ∧ lets_through resp = true ∧ pinned addr resp
    ∧ ∃ uid binding policies config, policies_of demoSource uid binding policies
        ∧ Compile (namedOf <$> policies) = Ok config
        ∧ dc_Action (Evaluate config addr) = Allow.
Proof.
  pose proof (published_policies_enforced "c" authorizerOf configOf (λ config, eq_refl) equalDemo equalDemo
    equalDemo_eq equalDemo_eq 1 demoSource publishedServer webAggregate (λ _, globalConfig) webTurns ()
    demoSource_aggregate eq_refl eq_refl eq_refl) as HF.
  assert (existsb lets_through (ca_sent (Process publishedServer webTurns ()).1) = true) as Hb
    by (vm_compute; reflexivity).
  apply existsb_exists in Hb as (resp & Hin%list_elem_of_In & Hl).
  rewrite Forall_forall in HF.
  destruct (HF resp Hin Hl) as (addr & ? & ? & ? & ? & uid & binding & policies & config
    & Hpin & _ & _ & _ & Hpol & Hcomp & Hal).
  exists resp, addr. split; [done|]. split; [done|]. split; [done|].
  by exists uid, binding, policies, config.
Defined.
